(* ===== verification/_CoqProject ===== *)
-Q . S2P
Prelude.v
CStr.v
Arith.v
Leb.v
DynArray.v
DynMap.v
Triple.v
Path.v
Escape.v
StrLit.v
Libc.v
CppExpr.v
CppTok.v
CppMacro.v
CppHas.v
CppEval.v
CppLine.v
CppDirective.v
Types.v
Consts.v
Layout.v
Cast.v
Token.v
Lexing.v
Labels.v
Literal.v
Tokconv.v
Switch.v
Data.v
Bracing.v
Blk.v
Flow.v
FlowLaws.v
FlowExpr.v
FlowSem.v
FlowFunc.v
FlowMachine.v
Flush.v
FlowFill.v
Compile.v
Passable.v
Parse.v
Parsing.v
Declare.v
Declaring.v
Declarator.v
Declared.v
ParseGroup.v
ParseStmt.v
Grouping.v
Stating.v
Filing.v
