(* ===== verification/Prelude.v ===== *)
(** * ucc: a verification library for the ucc C compiler

    ucc compiles C to x86-64 assembly in three programs: a driver ([src/src/ucc]),
    a preprocessor ([src/src/cpp2]) and the compiler proper ([src/src/cc1]),
    over a few utilities ([src/src/util]).  This library models the parts that
    compute - the preprocessor almost whole; of the compiler the tokeniser, the
    parser, types, layout, constant folding, initialisers, static data and the
    control-flow part of code generation - and proves what makes each correct.  Paths below are under [src/src].

    ** Conventions

    A C function that can stop is a function to [res] (this file): [Ok], a
    diagnostic ([Die]), a failed internal check ([Ice]), a behaviour the C
    standard leaves undefined such as reading past a buffer ([Ub]), or the
    model's fuel used up ([NoFuel]).  Definitions keep the C names; the suffix
    [_loop] is a loop of the function it is named after, the suffixes [_of] and
    [_at] a function whose recursion is bounded by fuel or by a closed-over
    state.  Machine integers are [Z] with the wrap-around written out
    ([wrapu]), pointers into strings the suffix they point at or an offset,
    [gmap]s the tables the code only looks up in, association lists those whose
    order it prints.  State that several functions share (the macro table, the
    token buffer, the blocks of a function) is a record threaded through, in a
    state monad where a file threads much of it.

    ** The utilities

    - [CStr] ([util/str.c], [cpp2/str.c]): scanning and editing of C strings;
      [Arith] ([util/math.c], [cc1/pack.c]): powers of two, rounding offsets;
      [Libc]: the library routines the sources read numbers with.
    - [Leb] ([cc1/out/leb.c]): LEB128 numbers; they decode to what was written.
    - [DynArray] ([util/dynarray.c]): NULL-terminated arrays in memory, refining
      sequences.  [DynMap] ([util/dynmap.c]): the chained hash table, under the
      contract [KeyContract] on the caller's comparison and hash.
    - [Path] ([util/path.c]): canonical paths, in place; they name the same place.
    - [Triple] ([util/triple.c]): target triples.
    - [Escape] ([util/escape.c]): digits with overflow, escape sequences;
      [StrLit] ([cc1/str.c], [cc1/strings.c]): string literals, printed and read
      back, interned by content through [DynMap].

    ** The preprocessor

    A line goes through [CppLine] ([cpp2/preproc.c]: trigraphs, splices,
    comments), is cut into tokens ([CppTok], [tokenise.c]), and is a directive
    ([CppDirective], [directive.c]) or expanded ([CppEval], [eval.c]) over the
    macro table ([CppMacro], [macro.c] and [snapshot.c]).  [#if] asks [CppExpr]
    ([expr.c], [expr_tok.c]); [#include] and the feature tests ask [CppHas]
    ([has.c], [include.c]) over a file system that is a parameter.

    Shown: the table is a finite map from names to definitions, which expansion
    leaves alone; expansion of plain values terminates and replaces exactly the
    names; controlling expressions are parsed on every string, inverse to
    printing, and evaluated to exactly the values a relation independent of the
    evaluator gives them; tokens survive being joined and cut again; comments
    become blanks; nested groups of conditional directives, run line by line over
    the stack of [if_idx], refine a recursive meaning of groups in which a line
    of a skipped group does nothing; and whole files of plain lines come out as
    they should ([preprocess_plain_file]).

    ** The front end

    - [Token] ([cc1/tokenise.c]), with the theorems in [Lexing], and in [Labels]
      those of looking for a label's colon; [Tokconv] ([tokconv.c]); [Literal]
      ([ops/expr_val.c]): the type of a literal.
    - [Parse] ([cc1/parse_expr.c]), the whole parser of expressions, with the
      theorems in [Parsing]: C's grammar of expressions but for casts, sizeof of
      a type, compound literals, strings, _Generic and built-ins, and
      [parse_text] from the text of a file to a tree.  The parsers that
      expressions call are the class [Parse.Grammar].
    - [Declare] ([parse_type.c]): specifiers, declarators, parameters and type
      names, with the theorems in [Declaring] (specifiers), [Declarator] (the
      grammar of declarators) and [Declared] (from text to name and type, and
      what expressions ask of the parser of types).
    - [ParseGroup] (the end of [parse_type.c]): groups of declarations and the
      code of functions; [ParseStmt] ([parse_stmt.c], [pass1.c]): statements,
      blocks and files.  The theorems are in [Grouping], [Stating] (statements:
      each [else] with the nearest [if], each [break], [continue], [case] and
      [default] with its target) and [Filing] (from text to statements, and from
      a whole file to its declarations and the bodies of its functions).
      Symbol tables and folding are operations of the classes
      [Declare.Declarations] and [ParseGroup.Statements]; that they do nothing
      surprising to a program without mistakes and without typedefs are the
      laws [Declarator.Calm] and [Grouping.CalmStatements].  These theorems are
      of programs without initialisers, structs, unions, enums, attributes and
      comments between lexemes.
    - [Types] ([btype.c], [type.c], [type_is.c], [type_nav.c], [sue.c],
      [attribute.c]): type nodes, their sizes, comparison and qualification.
    - [Consts] ([num.c], [op.c], [const.c], [ops/expr_op.c]): folding of integer
      expressions, proved exact where C defines the value, and the usual
      arithmetic conversions; [Cast] ([ops/expr_cast.c]): conversions.
    - [Layout] ([fold_sue.c], [decl.c], [sue.c]): members do not overlap, suit
      their alignment and lie inside; bitfields share nothing and fit their
      storage unit; lookup through anonymous members gives the place the offsets
      on the way add up to, inside the struct.
    - [Switch] ([ops/stmt_switch.c], [stmt_case.c], [stmt_case_range.c]): the
      checks of cases, and the chain of tests, compared at the widths and signs
      the generated code uses, refining the choice of a case.
    - [Bracing] ([decl_init.c]): an initialiser as parsed becomes one in shape,
      a brace for each aggregate; without braces and designators, scalar by
      scalar in order.  [Data] ([out/asm.c]): such an initialiser becomes
      directives that assemble to the object's representation.

    ** Code generation

    A function becomes basic blocks and the blocks become lines:
    - [Blk] ([out/blk.c], [out/ctrl.c], [label.c]): blocks, the current block
      (none in unreachable code) and the operations that end and choose one;
    - [Flow] (the [stmt_] files of [ops], [expr_if.c], [expr_comma.c], and the short
      circuits of [expr_op.c]): the generator of each statement, [gen_stmt],
      beside the meaning of statements in C, [exec_stmt] (which gives a computed
      goto none), returns of inlined functions and checks for a null result
      included;
    - [Flush] ([out/blk.c]): reachability, the order blocks are written in, and
      jumps only where the next line is not the block to go to.
    What the rest of the code generator - registers, instructions - promises is
    the interface: the class [Blk.Backend] of operations on values, with laws
    [FlowLaws.BackendOk], and [Flow.GenExpr] for expressions that do not
    branch, with laws [FlowLaws.GenExprOk].  Against it: [FlowExpr], branching
    expressions generate what they mean; [FlowSem], statements do, through
    every jump and out of every scope; [FlowFunc], functions do; [FlowFill],
    every block is ended.  [FlowMachine] discharges the interface by a machine
    with variables and value slots, and [Compile] puts the parts together: the
    lines of a function, run, do what its statements mean ([func_compiled]).
    [Passable] ([stmt.c], [fold.c] and the [stmt_] files): whether control can
    reach the end of a function, on which the return 0 of main depends.

    ** Fuel

    Structural recursion is used wherever the C recursion is on data.  Else the
    fuel is a measure of the input - the length of the text for scanners, the
    number of tokens for parsers, the depth of a type for [type_cmp], the number
    of blocks for the walk of [Flush] - and a theorem says it is never used up:
    [fueled] or [Ok] appears in the conclusion ([expr_parse_terminates],
    [type_cmp_terminates], [flush_blocks], [parse_text], [file_text],
    [expand_plain_values]).  Runs of generated code and of statements are
    relations or take any fuel; where the statement ends, so do the lines.

    ** Not modelled

    Floating constants (the host's arithmetic), diagnostics that do not stop
    the compiler and the source places they print, debug information
    ([out/dbg.c]) but for its LEB128 numbers, instruction selection and the
    calling convention ([out/x86_64.c], [out/virt.c]), inline assembly, the
    driver's processes and files ([ucc/ucc.c]), option parsing, dumps.  These
    are input and output, or tables whose meaning is the machine's.  Of the
    parser, the bodies of structs, unions and enums, attribute lists and
    initialisers are read by functions it is given; so are scopes ([sym.c]) and
    the checks of [fold.c] and [fold_sym.c] but for those named above: symbol
    tables and folded trees are kept abstract. *)

From Stdlib Require Export ZArith Lia.
From Stdlib Require Export Ascii String.
From Stdlib Require Export ZifyBool.
From stdpp Require Export base tactics option list strings gmap.

Set Default Proof Using "Type".

(** ** Outcomes of C code *)

(** What running a piece of the program comes to: it returns, it stops with a
    diagnostic ([CPP_DIE], [die_at]), an internal check fails ([ICE],
    [UCC_ASSERT], [assert]), the C standard gives the execution no meaning, or
    the model's fuel ran out. *)
Inductive res (A : Type) : Type :=
  | Ok (a : A)
  | Die (why : string)
  | Ice (why : string)
  | Ub (why : string)
  | NoFuel.
Arguments Ok {A} a.
Arguments Die {A} why.
Arguments Ice {A} why.
Arguments Ub {A} why.
Arguments NoFuel {A}.

#[global] Instance res_ret : MRet res := fun A a => Ok a.
#[global] Instance res_bind : MBind res := fun A B k m =>
  match m with
  | Ok a => k a
  | Die w => Die w
  | Ice w => Ice w
  | Ub w => Ub w
  | NoFuel => NoFuel
  end.

Definition is_ok {A} (m : res A) : bool :=
  match m with Ok _ => true | _ => false end.

(** The model's fuel was enough. *)
Definition fueled {A} (m : res A) : Prop := m <> NoFuel.

(** The execution is neither undefined nor in need of more fuel. *)
Definition settled {A} (m : res A) : bool :=
  match m with Ub _ | NoFuel => false | _ => true end.

Lemma bind_Ok {A B} (m : res A) (k : A -> res B) (b : B) :
  (m ≫= k) = Ok b <-> exists a, m = Ok a /\ k a = Ok b.
Proof.
  destruct m; simpl; (split; [intros H; eauto; try discriminate H | intros (x & Hx & Hk); congruence]).
Qed.

Lemma fueled_bind {A B} (m : res A) (k : A -> res B) :
  fueled m -> (forall a, m = Ok a -> fueled (k a)) -> fueled (m ≫= k).
Proof. unfold fueled. destruct m; simpl; intros H K; try done. by apply K. Qed.

Lemma settled_bind {A B} (m : res A) (k : A -> res B) :
  settled m = true -> (forall a, m = Ok a -> settled (k a) = true) -> settled (m ≫= k) = true.
Proof. destruct m; simpl; intros H K; try done. by apply K. Qed.

(** ** Characters and C strings *)

(** A C string is the list of its characters before the terminating NUL; a
    pointer into it is the suffix it points at. *)
Abbreviation cstr := (list ascii).

Definition NUL : ascii := zero.
Definition str (s : string) : cstr := list_ascii_of_string s.
Definition dquote : ascii := "034"%char.
Definition squote : ascii := "039"%char.
Definition bslash : ascii := "092"%char.
Definition newline : ascii := "010"%char.

(** The character a pointer points at ([*s]). *)
Definition cur (s : cstr) : ascii := match s with [] => NUL | c :: _ => c end.

(** The value of a character as [unsigned char], and as the (signed) [char] of
    the supported hosts. *)
Definition code (c : ascii) : Z := Z.of_N (N_of_ascii c).
Definition schar (c : ascii) : Z := if (code c <? 128)%Z then code c else (code c - 256)%Z.
Definition chr (z : Z) : ascii := ascii_of_N (Z.to_N (z mod 256)%Z).

Definition in_range (lo hi : Z) (c : ascii) : bool := ((lo <=? code c) && (code c <=? hi))%Z.

(** [<ctype.h>] in the C locale. *)
Definition isspace (c : ascii) : bool := (code c =? 32)%Z || in_range 9 13 c.
Definition isdigit (c : ascii) : bool := in_range 48 57 c.
Definition isupper (c : ascii) : bool := in_range 65 90 c.
Definition islower (c : ascii) : bool := in_range 97 122 c.
Definition isalpha (c : ascii) : bool := isupper c || islower c.
Definition isalnum (c : ascii) : bool := isalpha c || isdigit c.
Definition isxdigit (c : ascii) : bool := isdigit c || in_range 97 102 c || in_range 65 70 c.
Definition isprint (c : ascii) : bool := in_range 32 126 c.
Definition tolower (c : ascii) : ascii := if isupper c then chr (code c + 32) else c.

(** ** Machine integers *)

Definition wrapu (w x : Z) : Z := (x mod 2 ^ w)%Z.
Definition wraps (w x : Z) : Z := ((x + 2 ^ (w - 1)) mod 2 ^ w - 2 ^ (w - 1))%Z.
Abbreviation u64 := (wrapu 64).
Abbreviation s64 := (wraps 64).
Abbreviation u32 := (wrapu 32).
Abbreviation s32 := (wraps 32).

Definition is_u (w x : Z) : Prop := (0 <= x < 2 ^ w)%Z.
Definition is_s (w x : Z) : Prop := (- 2 ^ (w - 1) <= x < 2 ^ (w - 1))%Z.

Definition b2z (b : bool) : Z := if b then 1%Z else 0%Z.

Declare Scope c_scope.
Delimit Scope c_scope with c.
Infix "=c" := Ascii.eqb (at level 70, no associativity) : c_scope.
Open Scope c_scope.

Lemma eqc_true (a b : ascii) : (a =c b) = true <-> a = b.
Proof. apply Ascii.eqb_eq. Qed.

Lemma eqc_false (a b : ascii) : (a =c b) = false <-> a <> b.
Proof. apply Ascii.eqb_neq. Qed.

(** [strcmp(a, b) == 0] *)
Definition streq (a b : cstr) : bool := bool_decide (a = b).

(** [strncmp(s, p, strlen(p)) == 0]: [p] is a prefix of [s]. *)
Fixpoint has_prefix (s p : cstr) {struct p} : bool :=
  match p, s with
  | [], _ => true
  | c :: p', d :: s' => (c =c d) && has_prefix s' p'
  | _ :: _, [] => false
  end.

(** [s[i]], reading the terminator at [strlen(s)]. *)
Definition at_ (s : cstr) (i : nat) : ascii := default NUL (s !! i).

(** ** Tactics *)

(** Split every [match]/[if] on a variable-free boolean or option in sight,
    keeping the equations. *)
Ltac split_ifs :=
  repeat match goal with
    | |- context [if ?b then _ else _] => destruct b eqn:?
    | H : context [if ?b then _ else _] |- _ => destruct b eqn:?
    end.

Ltac to_prop :=
  repeat match goal with
    | H : (_ =c _) = true |- _ => apply eqc_true in H
    | H : (_ =c _) = false |- _ => apply eqc_false in H
    | H : (_ && _) = true |- _ => apply andb_true_iff in H; destruct H
    | H : (_ || _) = false |- _ => apply orb_false_iff in H; destruct H
    | H : negb _ = true |- _ => apply negb_true_iff in H
    | H : negb _ = false |- _ => apply negb_false_iff in H
    end.

(** ** Shared lemmas *)

Lemma has_prefix_spec (s p : cstr) :
  has_prefix s p = true <-> exists r, s = p ++ r.
Proof.
  revert s; induction p as [|c p IH]; intros s; simpl.
  - split; [intros _; by exists s | done].
  - destruct s as [|d s].
    + split; [done | intros (r & Hr); discriminate Hr].
    + rewrite andb_true_iff, eqc_true, IH. split.
      * intros [-> (r & ->)]; by exists r.
      * intros (r & Hr); injection Hr as -> ->; eauto.
Qed.

Lemma code_range (c : ascii) : (0 <= code c < 256)%Z.
Proof.
  unfold code. split; [apply N2Z.is_nonneg|].
  change 256%Z with (Z.of_N 256). apply N2Z.inj_lt, N_ascii_bounded.
Qed.

Lemma chr_code (c : ascii) : chr (code c) = c.
Proof.
  unfold chr. rewrite Z.mod_small by apply code_range.
  unfold code. rewrite N2Z.id. apply ascii_N_embedding.
Qed.

Lemma code_chr (z : Z) : code (chr z) = (z mod 256)%Z.
Proof.
  unfold code, chr. pose proof (Z.mod_pos_bound z 256 eq_refl).
  rewrite N_ascii_embedding; [apply Z2N.id; lia|].
  change 256%N with (Z.to_N 256). apply Z2N.inj_lt; lia.
Qed.

Lemma code_inj (a b : ascii) : code a = code b -> a = b.
Proof. intros H. by rewrite <- (chr_code a), <- (chr_code b), H. Qed.

(** A property of characters decided by evaluation over all 256 of them. *)
Lemma ascii_forall_dec (P : ascii -> bool) :
  forallb P (map (fun n => ascii_of_nat n) (seq 0 256)) = true ->
  forall c, P c = true.
Proof.
  intros H c. rewrite forallb_forall in H. apply H.
  rewrite <- (ascii_nat_embedding c). apply in_map, in_seq.
  pose proof (nat_ascii_bounded c). lia.
Qed.

Lemma wrapu_range (w x : Z) : (0 <= w)%Z -> is_u w (wrapu w x).
Proof. intros. apply Z.mod_pos_bound. by apply Z.pow_pos_nonneg. Qed.

Lemma wrapu_id (w x : Z) : is_u w x -> wrapu w x = x.
Proof. apply Z.mod_small. Qed.

Lemma wraps_range (w x : Z) : (0 < w)%Z -> is_s w (wraps w x).
Proof.
  intros Hw. unfold is_s, wraps.
  assert (2 ^ w = 2 * 2 ^ (w - 1))%Z as E
    by (rewrite <- Z.pow_succ_r by lia; f_equal; lia).
  pose proof (Z.mod_pos_bound (x + 2 ^ (w - 1)) (2 ^ w) ltac:(apply Z.pow_pos_nonneg; lia)).
  lia.
Qed.

Lemma wraps_id (w x : Z) : (0 < w)%Z -> is_s w x -> wraps w x = x.
Proof.
  intros Hw Hx. unfold is_s, wraps in *.
  assert (2 ^ w = 2 * 2 ^ (w - 1))%Z as E
    by (rewrite <- Z.pow_succ_r by lia; f_equal; lia).
  rewrite Z.mod_small by lia. lia.
Qed.

Create HintDb ucc.
#[export] Hint Resolve code_range wrapu_range wraps_range : ucc.
#[export] Hint Rewrite chr_code code_chr : ucc.

(** Run the monad one step after its argument has been rewritten to a value. *)
Ltac run := cbn [mbind res_bind mret res_ret fst snd].

(** Decide the condition of the first [if] by arithmetic. *)
Ltac if_true :=
  match goal with
  | |- context [if ?b then _ else _] =>
      let E := fresh in assert (b = true) as E by (simpl length in *; lia); rewrite E; clear E
  end.
Ltac if_false :=
  match goal with
  | |- context [if ?b then _ else _] =>
      let E := fresh in assert (b = false) as E by (simpl length in *; lia); rewrite E; clear E
  end.

(** Close a decidable goal by evaluating its decision procedure. *)
Ltac by_decide := apply (bool_decide_unpack _); vm_compute; exact I.
