(* ===== verification/CStr.v ===== *)
(** * C string routines

    [src/src/util/str.c] and [src/src/cpp2/str.c]. A scanning routine returns
    the suffix its result points at; an editing routine works on offsets.
    Reading past the terminating NUL is [Ub]. *)

From S2P Require Import Prelude.

(** ** util/str.c *)

Fixpoint str_quotefin2 (s : cstr) (q : ascii) : res (option cstr) :=
  match s with
  | [] => Ok None
  | c :: s' =>
      if c =c bslash then
        match s' with
        | [] => Ub "str_quotefin2: read past the terminator"
        | _ :: s'' => str_quotefin2 s'' q
        end
      else if c =c q then Ok (Some s)
      else str_quotefin2 s' q
  end.

Definition char_quotefin (s : cstr) : res (option cstr) := str_quotefin2 s squote.

Definition str_quotefin (s : cstr) : res (option cstr) := str_quotefin2 s dquote.

Fixpoint str_spc_skip (s : cstr) : cstr :=
  match s with
  | [] => []
  | c :: s' => if isspace c then str_spc_skip s' else s
  end.

Definition str_endswith (haystack needle : cstr) : bool :=
  let h_l := length haystack in
  let n_l := length needle in
  if n_l <? h_l + 1 then streq (drop (h_l - n_l) haystack) needle else false.

(** [anchor] of the scan: the text before the first [on], and what is left
    from there. *)
Fixpoint split_scan (s : cstr) (on : ascii) : cstr * cstr :=
  match s with
  | [] => ([], [])
  | c :: s' =>
      if c =c on then ([], s)
      else let '(a, b) := split_scan s' on in (c :: a, b)
  end.

(** Returns the token and the new [*state]. [haystack] [None] is the NULL that
    resumes from [*state]. *)
Definition str_split (haystack : option cstr) (on : ascii) (state : option cstr)
  : option cstr * option cstr :=
  match (match haystack with Some h => Some h | None => state end) with
  | None | Some [] => (None, None)
  | Some begin =>
      let '(tok, anchor) := split_scan begin on in
      match anchor with
      | _ :: rest => (Some tok, Some rest)
      | [] => (Some tok, None)
      end
  end.

(** ** cpp2/str.c *)

Definition iswordpart (c : ascii) : bool := isalnum c || (c =c "_"%char) || (c =c "$"%char).

Fixpoint word_end (s : cstr) : cstr :=
  match s with
  | [] => []
  | c :: s' => if iswordpart c then word_end s' else s
  end.

Definition word_dup (s : cstr) : cstr := take (length s - length (word_end s)) s.

Fixpoint word_find_any_loop (fuel : nat) (s : cstr) : res (option cstr) :=
  match fuel with
  | O => NoFuel
  | S fuel =>
      match s with
      | [] => Ok None
      | c :: s' =>
          if (c =c dquote) || (c =c squote) then
            r ← str_quotefin2 s' c;
            match r with
            | None => Ok None
            | Some e =>
                if iswordpart (cur e) then Ok (Some e)
                else word_find_any_loop fuel (tail e)
            end
          else if iswordpart c then Ok (Some s)
          else word_find_any_loop fuel s'
      end
  end.

Definition word_find_any (s : cstr) : res (option cstr) := word_find_any_loop (S (length s)) s.

(** [while(s > str && isspace( *s)) s--;] from index [i]. *)
Fixpoint trim_back (buf : cstr) (i : nat) : nat :=
  match i with
  | O => O
  | S j => if isspace (at_ buf i) then trim_back buf j else i
  end.

Definition str_trim (s : cstr) : cstr :=
  let moved := str_spc_skip s in
  take (trim_back moved (length moved)) moved.

Fixpoint str_join (strs : list cstr) (with_ : cstr) : cstr :=
  match strs with
  | [] => []
  | [s] => s
  | s :: rest => s ++ with_ ++ str_join rest with_
  end.

Fixpoint str_quote_body (s : cstr) : cstr :=
  match s with
  | [] => []
  | c :: s' =>
      if (c =c dquote) || (c =c bslash) then bslash :: c :: str_quote_body s'
      else c :: str_quote_body s'
  end.

Definition str_quote (quoteme : cstr) : cstr := dquote :: str_quote_body quoteme ++ [dquote].

(** [start] and [end] are offsets into [line]. The first branch edits [line] in
    place: a [memcpy] over [start], then a [memmove] of the tail. *)
Definition str_replace (line : cstr) (start end_ : nat) (replace : cstr) : cstr :=
  let len_find := end_ - start in
  let len_replace := length replace in
  if len_replace <? len_find then
    let copied := take start line ++ replace ++ drop (start + len_replace) line in
    take (start + len_replace) copied ++ drop end_ copied
  else take start line ++ replace ++ drop end_ line.

Definition word_replace (line : cstr) (pos len : nat) (replace : cstr) : cstr :=
  str_replace line pos (pos + len) replace.

(** [strstr] *)
Fixpoint strstr (s needle : cstr) : option cstr :=
  if has_prefix s needle then Some s
  else match s with [] => None | _ :: s' => strstr s' needle end.

Fixpoint word_strstr_loop (fuel : nat) (i needle : cstr) : res (option cstr) :=
  match fuel with
  | O => NoFuel
  | S fuel =>
      match i with
      | [] => Ok None
      | c :: i' =>
          if c =c dquote then
            r ← str_quotefin i';
            match r with
            | None => Ice "terminating quote not found"
            | Some e => word_strstr_loop fuel (tail e) needle
            end
          else if has_prefix i needle then Ok (Some i)
          else word_strstr_loop fuel i' needle
      end
  end.

Definition word_strstr (haystack needle : cstr) : res (option cstr) :=
  match strstr haystack needle with
  | None => Ok None
  | Some _ => word_strstr_loop (S (length haystack)) haystack needle
  end.

Fixpoint word_find_loop (fuel : nat) (line : cstr) (pos : nat) (word : cstr) : res (option nat) :=
  match fuel with
  | O => NoFuel
  | S fuel =>
      r ← word_strstr (drop pos line) word;
      match r with
      | None => Ok None
      | Some suf =>
          let p := length line - length suf in
          if (0 <? p) && iswordpart (at_ line (p - 1)) then word_find_loop fuel line (p + 1) word
          else if iswordpart (at_ line (p + length word)) then word_find_loop fuel line (p + 1) word
          else Ok (Some p)
      end
  end.

(** The offset of the found word in [line]. *)
Definition word_find (line word : cstr) : res (option nat) :=
  word_find_loop (S (length line)) line 0 word.

Fixpoint strchr_nest_loop (s : cstr) (find : ascii) (nest : nat) : option cstr :=
  match s with
  | [] => None
  | c :: s' =>
      if c =c "("%char then strchr_nest_loop s' find (S nest)
      else
        let nest := if c =c ")"%char then nest - 1 else nest in
        if (nest =? 0) && (c =c find) then Some s else strchr_nest_loop s' find nest
  end.

Definition strchr_nest (start : cstr) (find : ascii) : option cstr := strchr_nest_loop start find 0.

(** ** Scanning returns suffixes *)

Lemma str_quotefin2_suffix s q r :
  str_quotefin2 s q = Ok (Some r) ->
  exists p t, s = p ++ r /\ r = q :: t.
Proof.
  remember (length s) as n eqn:Hn. revert s Hn.
  induction n as [n IH] using lt_wf_ind; intros [|c s] Hn H; simpl in *; [discriminate|].
  split_ifs; to_prop.
  - destruct s as [|d s]; [discriminate|].
    destruct (IH (length s)) with (s := s) as (p & t & -> & ->); simpl in *; [lia|done|done|].
    by exists (c :: d :: p), t.
  - injection H as <-. subst. by exists [], s.
  - destruct (IH (length s)) with (s := s) as (p & t & -> & ->); simpl in *; [lia|done|done|].
    by exists (c :: p), t.
Qed.

Lemma str_quotefin2_length s q r :
  str_quotefin2 s q = Ok (Some r) -> (0 < length r <= length s)%nat.
Proof.
  intros H. apply str_quotefin2_suffix in H as (p & t & -> & ->).
  rewrite length_app; simpl; lia.
Qed.

Lemma str_quotefin2_cases s q :
  match str_quotefin2 s q with Ok _ | Ub _ => True | _ => False end.
Proof.
  remember (length s) as n eqn:Hn. revert s Hn.
  induction n as [n IH] using lt_wf_ind; intros [|c s] Hn; simpl in *; [done|].
  split_ifs; [destruct s as [|d s]; [done|] | done |];
    eapply IH; [|reflexivity| |reflexivity]; simpl in *; lia.
Qed.

Lemma str_spc_skip_suffix s : exists p, s = p ++ str_spc_skip s /\ forallb isspace p = true.
Proof.
  induction s as [|c s (p & Hp & Hs)]; simpl; [by exists []|].
  destruct (isspace c) eqn:E; [exists (c :: p) | by exists []].
  simpl. rewrite E, Hs. split; [f_equal; exact Hp | done].
Qed.

Lemma str_spc_skip_length s : (length (str_spc_skip s) <= length s)%nat.
Proof. induction s; simpl; [done|]. split_ifs; simpl; lia. Qed.

Lemma str_spc_skip_cur s : isspace (cur (str_spc_skip s)) = false.
Proof. induction s as [|c s IH]; simpl; [done|]. by destruct (isspace c) eqn:E. Qed.

Lemma str_spc_skip_id s : isspace (cur s) = false -> str_spc_skip s = s.
Proof. destruct s as [|c s]; simpl; [done|]. by intros ->. Qed.

Lemma word_end_suffix s : exists p, s = p ++ word_end s /\ forallb iswordpart p = true.
Proof.
  induction s as [|c s (p & Hp & Hs)]; simpl; [by exists []|].
  destruct (iswordpart c) eqn:E; [exists (c :: p) | by exists []].
  simpl. rewrite E, Hs. split; [f_equal; exact Hp | done].
Qed.

Lemma word_end_length s : (length (word_end s) <= length s)%nat.
Proof. induction s; simpl; [done|]. split_ifs; simpl; lia. Qed.

Lemma word_end_cur s : iswordpart (cur (word_end s)) = false.
Proof. induction s as [|c s IH]; simpl; [done|]. by destruct (iswordpart c) eqn:E. Qed.

Lemma word_end_app w s :
  forallb iswordpart w = true -> iswordpart (cur s) = false -> word_end (w ++ s) = s.
Proof.
  intros Hw Hs. induction w as [|c w IH]; simpl in *.
  - destruct s as [|d s]; simpl in *; [done|]. by rewrite Hs.
  - apply andb_true_iff in Hw as [-> Hw]. auto.
Qed.

Lemma word_dup_app w s :
  forallb iswordpart w = true -> iswordpart (cur s) = false -> word_dup (w ++ s) = w.
Proof.
  intros Hw Hs. unfold word_dup. rewrite word_end_app, length_app by done.
  replace (length w + length s - length s)%nat with (length w) by lia.
  apply take_app_length.
Qed.

Lemma word_find_any_loop_ok fuel s :
  (length s < fuel)%nat ->
  match word_find_any_loop fuel s with
  | Ok (Some r) => exists p, s = p ++ r /\ iswordpart (cur r) = true
  | Ok None | Ub _ => True
  | _ => False
  end.
Proof.
  revert s; induction fuel as [|fuel IH]; intros s Hf; [lia|]. simpl.
  destruct s as [|c s]; [done|]. simpl in Hf.
  destruct ((c =c dquote) || (c =c squote)) eqn:Eq.
  - pose proof (str_quotefin2_cases s c) as Hc.
    destruct (str_quotefin2 s c) as [[e|]| | | |] eqn:E; simpl; try done.
    pose proof (str_quotefin2_length _ _ _ E) as Hl.
    apply str_quotefin2_suffix in E as (p & t & -> & ->). simpl in *.
    destruct (iswordpart c) eqn:Ew; [by exists (c :: p)|].
    specialize (IH t). rewrite length_app in *; simpl in *.
    destruct (word_find_any_loop fuel t) as [[r|]| | | |]; auto; try (apply IH; lia).
    destruct IH as (p' & -> & Hr); [lia|].
    exists (c :: p ++ c :: p'). split; [|done]. simpl. by rewrite <- app_assoc.
  - destruct (iswordpart c) eqn:Ew; [by exists []|].
    specialize (IH s ltac:(lia)).
    destruct (word_find_any_loop fuel s) as [[r|]| | | |]; auto.
    destruct IH as (p' & -> & Hr). by exists (c :: p').
Qed.

(** ** Editing *)

Lemma str_replace_spec line i j rep :
  (i <= j <= length line)%nat ->
  str_replace line i j rep = take i line ++ rep ++ drop j line.
Proof.
  intros [Hij Hj]. unfold str_replace. case (Nat.ltb_spec (length rep) (j - i)); intros Hl; [|done].
  assert (length (take i line) = i) as Hi by (rewrite length_take; lia).
  rewrite (app_assoc (take i line)).
  assert (length (take i line ++ rep) = (i + length rep)%nat) as Hir
    by (rewrite length_app; lia).
  rewrite <- Hir at 1. rewrite take_app_length.
  rewrite drop_app_ge by lia. rewrite Hir, drop_drop.
  rewrite <- app_assoc. do 3 f_equal. lia.
Qed.

Lemma trim_back_nul buf : trim_back buf (length buf) = length buf.
Proof.
  destruct (length buf) as [|n] eqn:E; [done|]. cbn [trim_back].
  unfold at_. rewrite lookup_ge_None_2 by lia. done.
Qed.

(** ** Quoting *)

Lemma str_quotefin_body s rest :
  str_quotefin (str_quote_body s ++ dquote :: rest) = Ok (Some (dquote :: rest)).
Proof.
  unfold str_quotefin. induction s as [|c s IH]; simpl; [done|].
  destruct ((c =c dquote) || (c =c bslash)) eqn:E; [exact IH|].
  apply orb_false_iff in E as [Ed Eb]. cbn [app str_quotefin2]. by rewrite Eb, Ed.
Qed.

(** What [str_quote] escapes, undone. *)
Fixpoint str_unquote_body (s : cstr) : cstr :=
  match s with
  | [] => []
  | c :: s' =>
      if c =c bslash then
        match s' with [] => [] | d :: s'' => d :: str_unquote_body s'' end
      else c :: str_unquote_body s'
  end.

Lemma str_unquote_quote s : str_unquote_body (str_quote_body s) = s.
Proof.
  induction s as [|c s IH]; simpl; [done|].
  destruct ((c =c dquote) || (c =c bslash)) eqn:E.
  - cbn [str_unquote_body]. by rewrite Ascii.eqb_refl, IH.
  - apply orb_false_iff in E as [Ed Eb]. cbn [str_unquote_body]. by rewrite Eb, IH.
Qed.

(** ** Nesting *)

(** Balanced text: the parentheses of [s] match up. *)
Inductive balanced : cstr -> Prop :=
  | bal_nil : balanced []
  | bal_char c s : c <> "("%char -> c <> ")"%char -> balanced s -> balanced (c :: s)
  | bal_paren a s : balanced a -> balanced s -> balanced ("("%char :: a ++ ")"%char :: s).

Lemma strchr_nest_balanced a find rest n :
  balanced a -> (0 < n)%nat ->
  strchr_nest_loop (a ++ rest) find n = strchr_nest_loop rest find n.
Proof.
  intros Ha. revert rest n. induction Ha as [|c s H1 H2 Hs IH|a s Ha IHa Hs IHs]; intros rest n Hn.
  - done.
  - cbn [app strchr_nest_loop]. apply eqc_false in H1, H2. rewrite H1, H2.
    destruct n as [|n]; [lia|]. cbn [Nat.eqb andb]. apply IH; lia.
  - cbn [app strchr_nest_loop]. cbn -[strchr_nest_loop].
    rewrite <- app_assoc, IHa by lia. cbn [app strchr_nest_loop]. cbn -[strchr_nest_loop].
    destruct n as [|n]; [lia|]. cbn -[strchr_nest_loop]. apply IHs; lia.
Qed.

(** ** Whole words *)

Definition whole_word (line w : cstr) (p : nat) : Prop :=
  (p <= length line)%nat /\ has_prefix (drop p line) w = true /\
  (p = 0 \/ iswordpart (at_ line (p - 1)) = false)%nat /\
  iswordpart (at_ line (p + length w)) = false.

Lemma strstr_spec s w :
  w <> [] ->
  match strstr s w with
  | Some r => has_prefix r w = true /\
      exists p, s = p ++ r /\ forall q, (q < length p)%nat -> has_prefix (drop q s) w = false
  | None => forall q, has_prefix (drop q s) w = false
  end.
Proof.
  intros Hw. induction s as [|c s IH]; cbn [strstr].
  - destruct (has_prefix [] w) eqn:E; [by destruct w|].
    intros q. by rewrite drop_nil.
  - destruct (has_prefix (c :: s) w) eqn:E.
    + split; [done|]. exists []. split; [done|]. simpl. lia.
    + destruct (strstr s w) as [r|].
      * destruct IH as (Hr & p & Hp & Hq). split; [done|].
        exists (c :: p). split; [simpl; by f_equal|].
        intros [|q] Hl; [done|]. simpl in *. apply Hq. lia.
      * intros [|q]; [done|]. apply IH.
Qed.

Lemma word_strstr_loop_plain fuel s w :
  w <> [] -> dquote ∉ s -> (length s < fuel)%nat ->
  word_strstr_loop fuel s w = Ok (strstr s w).
Proof.
  intros Hw. revert s. induction fuel as [|fuel IH]; intros s Hq Hf; [lia|].
  destruct s as [|c s]; cbn [word_strstr_loop strstr].
  - destruct w; [done|]. done.
  - assert ((c =c dquote) = false) as -> by (apply eqc_false; set_solver).
    destruct (has_prefix (c :: s) w); [done|].
    apply IH; [set_solver | simpl in *; lia].
Qed.

Lemma word_strstr_plain s w : w <> [] -> dquote ∉ s -> word_strstr s w = Ok (strstr s w).
Proof.
  intros Hw Hq. unfold word_strstr. destruct (strstr s w) eqn:E; [|done].
  rewrite <- E. apply word_strstr_loop_plain; [done..|lia].
Qed.

Lemma word_find_loop_plain fuel line w pos :
  w <> [] -> dquote ∉ line -> (length line - pos < fuel)%nat ->
  (forall q, (q < pos)%nat -> ~ whole_word line w q) ->
  match word_find_loop fuel line pos w with
  | Ok (Some p) => whole_word line w p /\ forall q, (q < p)%nat -> ~ whole_word line w q
  | Ok None => forall q, ~ whole_word line w q
  | _ => False
  end.
Proof.
  intros Hw Hq. revert pos. induction fuel as [|fuel IH]; intros pos Hf Hbefore; [lia|].
  cbn [word_find_loop].
  rewrite word_strstr_plain by (auto; intros Hin; apply Hq; by eapply subseteq_drop).
  cbn [mbind res_bind]. pose proof (strstr_spec (drop pos line) w Hw) as Hs.
  destruct (strstr (drop pos line) w) as [suf|].
  - destruct Hs as (Hsuf & pre & Hpre & Hfirst).
    set (p := (length line - length suf)%nat).
    assert (0 < length suf)%nat as Hnz by (destruct suf, w; simpl in *; try lia; done).
    assert (length (drop pos line) = (length pre + length suf)%nat) as Hlen
      by (rewrite Hpre, length_app; done).
    rewrite length_drop in Hlen.
    assert (p = pos + length pre)%nat as Hp by (unfold p; lia).
    assert (drop p line = suf) as Hdrop
      by (rewrite Hp, <- drop_drop, Hpre; apply drop_app_length).
    assert (forall q, (q < p)%nat -> ~ whole_word line w q) as Hbp.
    { intros q Hqp Hww. destruct (decide (q < pos)%nat) as [?|Hge].
      - by eapply Hbefore.
      - specialize (Hfirst (q - pos)%nat ltac:(lia)).
        rewrite drop_drop in Hfirst. replace (pos + (q - pos))%nat with q in Hfirst by lia.
        destruct Hww as (_ & Hqpre & _). congruence. }
    destruct ((0 <? p)%nat && iswordpart (at_ line (p - 1))) eqn:E1.
    + apply IH; [lia|]. intros q Hlt. destruct (decide (q = p)) as [->|]; [|apply Hbp; lia].
      apply andb_true_iff in E1 as [?%Nat.ltb_lt E1]. intros (_ & _ & [?|?] & _); [lia|congruence].
    + destruct (iswordpart (at_ line (p + length w))) eqn:E2.
      * apply IH; [lia|]. intros q Hlt. destruct (decide (q = p)) as [->|]; [|apply Hbp; lia].
        intros (_ & _ & _ & ?). congruence.
      * split; [|done]. repeat split; [lia|congruence| |done].
        apply andb_false_iff in E1 as [?%Nat.ltb_ge|?]; [left; lia|by right].
  - intros q Hword. destruct (decide (q < pos)%nat) as [?|Hge]; [by eapply Hbefore|].
    destruct Hword as (_ & Hqpre & _). specialize (Hs (q - pos)%nat).
    rewrite drop_drop in Hs. replace (pos + (q - pos))%nat with q in Hs by lia. congruence.
Qed.

(** ** Properties *)

(** On a line without string literals [word_find] never fails or runs away,
    and it returns exactly the first offset where the word stands as a whole
    word (no word character on either side), or NULL when there is none. *)
Theorem word_find_first (line w : cstr) :
  w <> [] -> dquote ∉ line ->
  match word_find line w with
  | Ok (Some p) => whole_word line w p /\ forall q, (q < p)%nat -> ~ whole_word line w q
  | Ok None => forall q, ~ whole_word line w q
  | _ => False
  end.
Proof. intros Hw Hq. apply word_find_loop_plain; [done | done | lia | lia]. Qed.

Lemma word_find_first_witness :
  word_find (str "undefined(defined X)") (str "defined") = Ok (Some 10%nat) /\
  whole_word (str "undefined(defined X)") (str "defined") 10.
Proof.
  split; [reflexivity|].
  refine (proj1 (word_find_first (str "undefined(defined X)") (str "defined") _ _)).
  - discriminate.
  - vm_compute. intros H. repeat (apply elem_of_cons in H as [H|H]; [discriminate H|]).
    by apply elem_of_nil in H.
Defined.

(** [str_quote] produces one string literal: whatever the input holds, the
    scan that looks for the closing quote finds the one [str_quote] appended,
    and removing the escapes gives the input back. *)
Theorem str_quote_roundtrip (s rest : cstr) :
  exists body, str_quote s = dquote :: body ++ [dquote] /\
    str_quotefin (body ++ dquote :: rest) = Ok (Some (dquote :: rest)) /\
    str_unquote_body body = s.
Proof.
  exists (str_quote_body s). split; [done|]. split; [apply str_quotefin_body | apply str_unquote_quote].
Qed.

(** Called on an open parenthesis, [strchr_nest] returns the close
    parenthesis that matches it, past any balanced text in between. *)
Theorem strchr_nest_matching (a rest : cstr) :
  balanced a ->
  strchr_nest ("("%char :: a ++ ")"%char :: rest) ")"%char = Some (")"%char :: rest).
Proof.
  intros Ha. unfold strchr_nest. cbn [strchr_nest_loop]. cbn -[strchr_nest_loop].
  by rewrite strchr_nest_balanced by (done || lia).
Qed.

Lemma strchr_nest_matching_witness :
  balanced (str "a,(b)") /\
  strchr_nest (str "(a,(b)) c") ")"%char = Some (str ") c").
Proof.
  assert (balanced (str "a,(b)")) as H.
  { apply bal_char; [discriminate..|]. apply bal_char; [discriminate..|].
    apply (bal_paren (str "b") []); [|constructor].
    apply bal_char; [discriminate..|constructor]. }
  split; [exact H | exact (strchr_nest_matching (str "a,(b)") (str " c") H)].
Defined.

Lemma str_trim_skip (s : cstr) : str_trim s = str_spc_skip s.
Proof. unfold str_trim. rewrite trim_back_nul. apply firstn_all. Qed.

(** [str_trim] removes leading blanks only. Its loop over trailing blanks
    starts at the terminating NUL, which is not a blank, so it stops at once. *)
Theorem str_trim_leading_only (s : cstr) : str_trim s = str_spc_skip s.
Proof. apply str_trim_skip. Qed.

Example str_trim_keeps_trailing : str_trim (str " a b  ") = str "a b  ".
Proof. reflexivity. Qed.

(** [str_replace] splices the replacement in place of [line[start..end)],
    whether it edits the buffer in place or builds a new one. *)
Theorem str_replace_splice (line : cstr) (start end_ : nat) (rep : cstr) :
  (start <= end_ <= length line)%nat ->
  str_replace line start end_ rep = take start line ++ rep ++ drop end_ line /\
  length (str_replace line start end_ rep) =
    (length line - (end_ - start) + length rep)%nat.
Proof.
  intros H. rewrite str_replace_spec by done. split; [done|].
  rewrite !length_app, length_take, length_drop. lia.
Qed.

Lemma str_replace_splice_witness :
  str_replace (str "a FOO b") 2 5 (str "x") = str "a x b".
Proof.
  exact (proj1 (str_replace_splice (str "a FOO b") 2 5 (str "x")
    ltac:(vm_compute; lia))).
Defined.
