(* ===== verification/Arith.v ===== *)
(** * Bit arithmetic helpers

    [src/src/util/math.c] (powers of two on [unsigned long long]) and
    [src/src/cc1/pack.c] (rounding offsets up to an alignment). *)

From S2P Require Import Prelude.
Open Scope Z_scope.

(** ** util/math.c *)

(** [while(v--) out *= 2;] *)
Fixpoint pow2i_loop (v : nat) (out : Z) : Z :=
  match v with O => out | S v => pow2i_loop v (u64 (out * 2)) end.

Definition pow2i (v : Z) : Z := pow2i_loop (Z.to_nat v) 1.

Definition ispow2 (v : Z) : bool := negb (v =? 0) && (Z.land v (u64 (v - 1)) =? 0).

Fixpoint last_bit_index_loop (fuel : nat) (i v last : Z) : res Z :=
  match fuel with
  | O => NoFuel
  | S fuel =>
      if v =? 0 then Ok (u32 last)
      else if 64 <=? i then Ub "shift by at least the width"
      else if negb (Z.land v (Z.shiftl 1 i) =? 0)
      then last_bit_index_loop fuel (i + 1) (Z.land v (u64 (Z.lnot (Z.shiftl 1 i)))) i
      else last_bit_index_loop fuel (i + 1) v last
  end.

Definition last_bit_index (v : Z) : res Z := last_bit_index_loop 65 0 v (-1).

Fixpoint log2ll_loop (fuel : nat) (v r : Z) : res Z :=
  match fuel with
  | O => NoFuel
  | S fuel => if v =? 0 then Ok r else log2ll_loop fuel (Z.shiftr v 1) (r + 1)
  end.

Definition log2ll (v : Z) : res Z := log2ll_loop 65 v (-1).

Definition log2i (v : Z) : res Z := log2ll v.

Definition round2 (v : Z) : res Z :=
  if ispow2 v then Ok v
  else (i ← last_bit_index v; Ok (pow2i (u32 (i + 1)))).

(** Returns the bit and the new [*bitset]. *)
Definition extractbottombit (bitset : Z) : Z * Z :=
  let next := Z.land bitset (u32 (bitset - 1)) in
  let bit := Z.land bitset (u32 (Z.lnot next)) in
  (bit, next).

(** ** cc1/pack.c *)

(** [align] is [unsigned]: [-align] is computed in 32 bits and zero-extended to
    [unsigned long] by the [&]. *)
Definition pack_to_align (sz align : Z) : res Z :=
  if 0 <? align then Ok (Z.land (u64 (sz + align - 1)) (u32 (- align)))
  else Ice "align > 0".

Definition pack_to_word (pws o : Z) : res Z := pack_to_align o pws.

(** [*poffset] and [*after_space] on return. *)
Definition pack_next (poffset sz align : Z) : res (Z * Z) :=
  offset ← pack_to_align poffset align;
  Ok (u64 (offset + sz), offset).

(** ** Lemmas *)

Lemma land_pred_zero v : 0 < v -> Z.land v (v - 1) = 0 <-> v = 2 ^ Z.log2 v.
Proof.
  intros Hv. pose proof (Z.log2_spec v Hv) as [Hlo Hhi]. split.
  - intros H. destruct (Z.eq_dec v (2 ^ Z.log2 v)) as [|Hne]; [done|].
    exfalso. assert (Z.testbit (Z.land v (v - 1)) (Z.log2 v) = true) as Hb;
      [|rewrite H, Z.bits_0 in Hb; done].
    rewrite Z.land_spec, Z.bit_log2 by lia. simpl.
    replace (Z.log2 v) with (Z.log2 (v - 1)); [apply Z.bit_log2|].
    + pose proof (Z.log2_nonneg v). pose proof (Z.pow_pos_nonneg 2 (Z.log2 v)). lia.
    + apply Z.log2_unique; [apply Z.log2_nonneg|]. lia.
  - intros ->. set (k := Z.log2 v).
    replace (2 ^ k - 1) with (Z.ones k) by (rewrite Z.ones_equiv; lia).
    rewrite Z.land_ones by apply Z.log2_nonneg. apply Z.mod_same.
    apply Z.pow_nonzero; [lia | apply Z.log2_nonneg].
Qed.

Lemma log2_half v : 0 < v -> Z.shiftr v 1 <> 0 -> Z.log2 v = Z.log2 (Z.shiftr v 1) + 1.
Proof.
  intros Hv Hs. rewrite <- Z.div2_spec in *. pose proof (Zdiv2_odd_eqn v) as E.
  destruct (Z.odd v); rewrite E at 1.
  - rewrite Z.log2_succ_double; lia.
  - rewrite Z.add_0_r, Z.log2_double; lia.
Qed.

Lemma log2ll_loop_spec fuel v r :
  0 <= v < 2 ^ Z.of_nat fuel ->
  log2ll_loop (S fuel) v r = Ok (if v =? 0 then r else r + 1 + Z.log2 v).
Proof.
  revert v r. induction fuel as [|fuel IH]; intros v r Hv.
  - simpl in *. assert (v = 0) as -> by lia. done.
  - cbn [log2ll_loop]. destruct (Z.eqb_spec v 0) as [|Hnz]; [done|].
    rewrite Nat2Z.inj_succ, Z.pow_succ_r in Hv by lia.
    pose proof (Z.div2_spec v) as Hd. pose proof (Zdiv2_odd_eqn v) as Eo.
    assert (0 <= Z.div2 v < 2 ^ Z.of_nat fuel) as Hs by (destruct (Z.odd v); lia).
    rewrite Hd in *. change (log2ll_loop (S fuel) (Z.shiftr v 1) (r + 1) = Ok (r + 1 + Z.log2 v)).
    rewrite IH by done. f_equal. destruct (Z.eqb_spec (Z.shiftr v 1) 0) as [H0|H0].
    + assert (v = 1) as -> by (destruct (Z.odd v); lia). simpl. lia.
    + rewrite (log2_half v) by lia. lia.
Qed.

Lemma pow2i_loop_spec n k :
  (n + k < 64)%nat -> pow2i_loop n (2 ^ Z.of_nat k) = 2 ^ Z.of_nat (n + k).
Proof.
  revert k. induction n as [|n IH]; intros k Hk; [done|]. cbn [pow2i_loop].
  replace (2 ^ Z.of_nat k * 2) with (2 ^ Z.of_nat (S k))
    by (rewrite Nat2Z.inj_succ, Z.pow_succ_r; lia).
  rewrite wrapu_id, IH by (lia || (split; [apply Z.pow_nonneg | apply Z.pow_lt_mono_r]; lia)).
  do 2 f_equal. lia.
Qed.

Lemma pow2i_spec n : 0 <= n < 64 -> pow2i n = 2 ^ n.
Proof.
  intros Hn. unfold pow2i. change 1 with (2 ^ Z.of_nat 0).
  rewrite pow2i_loop_spec by lia. f_equal. lia.
Qed.

Lemma land_bit_zero v i :
  0 <= i -> (Z.land v (Z.shiftl 1 i) =? 0) = negb (Z.testbit v i).
Proof.
  intros Hi. rewrite Z.shiftl_1_l. destruct (Z.testbit v i) eqn:E; simpl.
  - apply Z.eqb_neq. intros H. apply (f_equal (fun x => Z.testbit x i)) in H.
    rewrite Z.land_spec, E, Z.pow2_bits_true, Z.bits_0 in H by lia. done.
  - apply Z.eqb_eq, Z.bits_inj'. intros j Hj. rewrite Z.land_spec, Z.bits_0, Z.pow2_bits_eqb by lia.
    destruct (Z.eqb_spec i j) as [<-|]; [by rewrite E | by rewrite andb_false_r].
Qed.

Lemma land_u64_lnot v m : is_u 64 v -> Z.land v (u64 (Z.lnot m)) = Z.ldiff v m.
Proof.
  intros Hv. apply Z.bits_inj'. intros j Hj. unfold wrapu.
  rewrite Z.land_spec, Z.ldiff_spec. destruct (Z.ltb_spec j 64).
  - by rewrite Z.mod_pow2_bits_low, Z.lnot_spec by lia.
  - rewrite Z.mod_pow2_bits_high by lia. unfold is_u in Hv.
    rewrite <- (Z.mod_small v (2 ^ 64)) by lia. by rewrite Z.mod_pow2_bits_high by lia.
Qed.

Lemma ldiff_bit v i : 0 <= i -> Z.testbit v i = true -> Z.ldiff v (Z.shiftl 1 i) = v - 2 ^ i.
Proof.
  intros Hi H. rewrite Z.shiftl_1_l. symmetry. apply Z.sub_nocarry_ldiff.
  apply Z.bits_inj'. intros j Hj. rewrite Z.ldiff_spec, Z.bits_0, Z.pow2_bits_eqb by lia.
  destruct (Z.eqb_spec i j) as [<-|]; [by rewrite H | done].
Qed.

(** The loop invariant of [last_bit_index]: the bits below [i] are clear. *)
Lemma last_bit_index_loop_spec n i w last :
  (n + Z.to_nat i = 64)%nat -> 0 <= i -> is_u 64 (2 ^ i * w) ->
  last_bit_index_loop (S n) i (2 ^ i * w) last = Ok (if w =? 0 then u32 last else i + Z.log2 w).
Proof.
  revert i w last. induction n as [|n IH]; intros i w last Hn Hi Hv;
    pose proof (Z.pow_pos_nonneg 2 i ltac:(lia) Hi) as Hpos; assert (Hw := Hv); unfold is_u in Hw.
  - replace i with 64 in * by lia. assert (w = 0) as -> by nia. done.
  - remember (S n) as m eqn:Hm. cbn [last_bit_index_loop]. subst m.
    destruct (Z.eqb_spec (2 ^ i * w) 0) as [E0|Hnz].
    { assert (w = 0) as -> by nia. done. }
    assert (1 <= w) as Hw1 by nia.
    assert ((w =? 0) = false) as -> by (apply Z.eqb_neq; lia).
    assert ((64 <=? i) = false) as -> by (apply Z.leb_gt; lia).
    assert (2 ^ (i + 1) = 2 * 2 ^ i) as E1 by (rewrite Z.add_1_r, Z.pow_succ_r; lia).
    rewrite land_bit_zero, negb_involutive by lia.
    assert (Z.testbit (2 ^ i * w) i = Z.odd w) as Hodd
      by (rewrite Z.mul_comm, <- Z.shiftl_mul_pow2, Z.shiftl_spec, Z.sub_diag by lia; done).
    rewrite Hodd. pose proof (Zdiv2_odd_eqn w) as Eodd.
    destruct (Z.odd w) eqn:Ho; cbn iota in Eodd.
    + rewrite land_u64_lnot, ldiff_bit by done.
      assert (2 ^ i * w - 2 ^ i = 2 ^ (i + 1) * Z.div2 w) as E by (rewrite Eodd at 1; lia).
      rewrite E, IH by (lia || (unfold is_u; rewrite <- E; nia)). f_equal.
      destruct (Z.eqb_spec (Z.div2 w) 0) as [Ez|Ez].
      * rewrite wrapu_id by (unfold is_u; lia). replace w with 1 by lia. simpl. lia.
      * rewrite Eodd at 2. rewrite Z.log2_succ_double by nia. lia.
    + replace (2 ^ i * w) with (2 ^ (i + 1) * Z.div2 w) by nia.
      rewrite IH by (lia || (unfold is_u; nia)). f_equal.
      destruct (Z.eqb_spec (Z.div2 w) 0) as [Ez|Ez]; [exfalso; nia|].
      rewrite Eodd at 2. rewrite Z.add_0_r, Z.log2_double by nia. lia.
Qed.

Lemma last_bit_index_spec v :
  is_u 64 v -> last_bit_index v = Ok (if v =? 0 then 2 ^ 32 - 1 else Z.log2 v).
Proof.
  intros Hv. unfold last_bit_index. replace v with (2 ^ 0 * v) at 1 by lia.
  rewrite last_bit_index_loop_spec by (lia || by rewrite Z.mul_1_l). done.
Qed.

Lemma ispow2_log2 v : is_u 64 v -> ispow2 v = true <-> 0 < v /\ v = 2 ^ Z.log2 v.
Proof.
  unfold is_u, ispow2. intros Hv. rewrite andb_true_iff, negb_true_iff, Z.eqb_neq, Z.eqb_eq.
  destruct (Z.eq_dec v 0) as [->|]; [split; lia|].
  rewrite wrapu_id, land_pred_zero by (unfold is_u; lia). split; intros []; split; lia.
Qed.

(** The alignment mask: for a power of two, the [&] clears the low bits. *)
Lemma align_mask x k : 0 <= k < 32 -> is_u 32 x -> Z.land x (u32 (- 2 ^ k)) = x - x mod 2 ^ k.
Proof.
  intros Hk Hx. assert (2 ^ k <> 0) as Hnz by (apply Z.pow_nonzero; lia).
  replace (- 2 ^ k) with (Z.lnot (Z.ones k)) by (rewrite Z.ones_equiv; unfold Z.lnot; lia).
  assert (Z.land x (u32 (Z.lnot (Z.ones k))) = Z.ldiff x (Z.ones k)) as ->.
  { apply Z.bits_inj'. intros j Hj. unfold wrapu. rewrite Z.land_spec, Z.ldiff_spec.
    destruct (Z.ltb_spec j 32).
    - by rewrite Z.mod_pow2_bits_low, Z.lnot_spec by lia.
    - rewrite Z.mod_pow2_bits_high by lia. unfold is_u in Hx.
      rewrite <- (Z.mod_small x (2 ^ 32)) by lia. by rewrite Z.mod_pow2_bits_high by lia. }
  rewrite Z.ldiff_ones_r, Z.shiftl_mul_pow2, Z.shiftr_div_pow2 by lia.
  pose proof (Z.div_mod x (2 ^ k) Hnz). lia.
Qed.

Lemma round_up_spec x a : 0 < a ->
  let r := x + a - 1 - (x + a - 1) mod a in (a | r) /\ x <= r < x + a.
Proof.
  intros Ha r. pose proof (Z.mod_pos_bound (x + a - 1) a Ha). split; [|lia].
  exists ((x + a - 1) / a). pose proof (Z.div_mod (x + a - 1) a ltac:(lia)). lia.
Qed.

Lemma pack_to_align_pow2 sz k :
  0 <= k < 32 -> 0 <= sz -> sz + 2 ^ k - 1 < 2 ^ 32 ->
  exists r, pack_to_align sz (2 ^ k) = Ok r /\ (2 ^ k | r) /\ sz <= r < sz + 2 ^ k.
Proof.
  intros Hk Hs Hb. assert (0 < 2 ^ k) as Hp by (apply Z.pow_pos_nonneg; lia).
  unfold pack_to_align. assert ((0 <? 2 ^ k) = true) as -> by (apply Z.ltb_lt; lia).
  eexists. split; [reflexivity|].
  rewrite wrapu_id by (unfold is_u; lia). rewrite align_mask by (unfold is_u; lia).
  by apply round_up_spec.
Qed.

(** ** Properties *)

(** [round2] returns the least power of two that is not below its argument,
    for every argument up to 2^63; above that the power does not fit and the
    result wraps to 0. *)
Theorem round2_least (v : Z) :
  0 < v < 2 ^ 64 ->
  if v <=? 2 ^ 63
  then exists k, round2 v = Ok (2 ^ k) /\ v <= 2 ^ k /\
         forall j, 0 <= j -> v <= 2 ^ j -> 2 ^ k <= 2 ^ j
  else round2 v = Ok 0.
Proof.
  intros Hv. assert (is_u 64 v) as Hu by (unfold is_u; lia).
  pose proof (Z.log2_spec v ltac:(lia)) as [Hlo Hhi]. pose proof (Z.log2_nonneg v) as Hnn.
  unfold round2. rewrite last_bit_index_spec by done.
  assert ((v =? 0) = false) as -> by (apply Z.eqb_neq; lia). cbn [mbind res_bind].
  destruct (ispow2 v) eqn:Ep.
  - apply ispow2_log2 in Ep as [_ Ep]; [|done].
    assert (Z.log2 v <= 63) by (assert (Z.log2 v < 64); [apply Z.log2_lt_pow2|]; lia).
    assert (v <= 2 ^ 63) as Hle by (rewrite Ep; apply Z.pow_le_mono_r; lia).
    apply Z.leb_le in Hle. rewrite Hle. exists (Z.log2 v). rewrite <- Ep. naive_solver lia.
  - assert (v <> 2 ^ Z.log2 v) as Hne.
    { intros E. assert (ispow2 v = true); [|congruence]. apply ispow2_log2; [done|lia]. }
    assert (Z.log2 v < 64) as Hl by (apply Z.log2_lt_pow2; lia).
    rewrite wrapu_id by (unfold is_u; lia). destruct (Z.leb_spec v (2 ^ 63)) as [Hle|Hgt].
    + assert (Z.log2 v <> 63) as H63 by (intros E; rewrite E in *; lia).
      exists (Z.log2 v + 1). rewrite pow2i_spec by lia. rewrite <- Z.add_1_r in Hhi.
      split_and!; [done | lia |]. intros j Hj Hvj. apply Z.pow_le_mono_r; [lia|].
      destruct (Z.leb_spec (Z.log2 v + 1) j); [done|].
      assert (2 ^ j <= 2 ^ Z.log2 v) by (apply Z.pow_le_mono_r; lia). lia.
    + assert (Z.log2 v = 63) as -> by (apply Z.log2_unique; lia). done.
Qed.

Lemma round2_least_witness :
  (exists k, round2 33 = Ok (2 ^ k) /\ 33 <= 2 ^ k /\
     forall j, 0 <= j -> 33 <= 2 ^ j -> 2 ^ k <= 2 ^ j) /\
  round2 (2 ^ 63 + 1) = Ok 0.
Proof.
  split.
  - exact (round2_least 33 (conj eq_refl eq_refl)).
  - exact (round2_least (2 ^ 63 + 1) (conj eq_refl eq_refl)).
Defined.

(** For a power-of-two alignment, and while the rounded value fits 32 bits,
    [pack_next] places an object at the first aligned offset at or after
    [*poffset] and moves [*poffset] past it. *)
Theorem pack_next_aligned (off sz k : Z) :
  0 <= k < 32 -> 0 <= off -> 0 <= sz -> off + 2 ^ k - 1 < 2 ^ 32 -> sz < 2 ^ 32 ->
  exists after, pack_next off sz (2 ^ k) = Ok (after + sz, after) /\
    (2 ^ k | after) /\ off <= after < off + 2 ^ k.
Proof.
  intros Hk Ho Hs Hb Hs2. destruct (pack_to_align_pow2 off k Hk Ho Hb) as (r & Hr & Hd & Hle).
  exists r. unfold pack_next. rewrite Hr. cbn [mbind res_bind].
  rewrite wrapu_id by (unfold is_u; lia). done.
Qed.

Lemma pack_next_aligned_witness :
  exists after, pack_next 5 4 (2 ^ 2) = Ok (after + 4, after) /\ (2 ^ 2 | after) /\ 5 <= after < 5 + 2 ^ 2.
Proof. apply (pack_next_aligned 5 4 2); lia. Defined.

(** Above 4 GiB the zero-extended mask drops the high half of the offset. *)
Example pack_to_align_truncates : pack_to_align (2 ^ 32) 8 = Ok 0.
Proof. reflexivity. Qed.
