(* ===== verification/Leb.v ===== *)
(** * LEB128 integers

    [src/src/cc1/out/leb.c]: the length of a DWARF LEB128 number and its
    emission as a comma-separated list of byte directives. *)

From S2P Require Import Prelude.
Open Scope Z_scope.

(** ** Operations *)

Fixpoint leb_length_signed (fuel : nat) (sv len : Z) : res Z :=
  match fuel with
  | O => NoFuel
  | S fuel =>
      let sign_bit_set := negb (Z.land sv 64 =? 0) in
      let sv := Z.shiftr sv 7 in
      if ((sv =? 0) && negb sign_bit_set) || ((sv =? -1) && sign_bit_set) then Ok len
      else leb_length_signed fuel sv (u32 (len + 1))
  end.

Fixpoint leb_length_unsigned (fuel : nat) (value len : Z) : res Z :=
  match fuel with
  | O => NoFuel
  | S fuel =>
      let value := Z.shiftr value 7 in
      if value =? 0 then Ok len else leb_length_unsigned fuel value (u32 (len + 1))
  end.

(** Ten groups of seven bits cover 64. *)
Definition leb_fuel : nat := 10.

Definition leb128_length (value : Z) (is_signed : bool) : res Z :=
  if is_signed then leb_length_signed leb_fuel (s64 value) 1
  else leb_length_unsigned leb_fuel value 1.

(** What one [fprintf("%s%d", join, byte)] writes. *)
Definition piece : Type := string * Z.

Fixpoint leb_out_signed (fuel : nat) (join : string) (sv len : Z) : res (list piece * Z) :=
  match fuel with
  | O => NoFuel
  | S fuel =>
      let byte := Z.land sv 127 in
      let sign_bit_set := negb (Z.land byte 64 =? 0) in
      let sv := Z.shiftr sv 7 in
      if ((sv =? 0) && negb sign_bit_set) || ((sv =? -1) && sign_bit_set)
      then Ok ([(join, byte)], len)
      else
        r ← leb_out_signed fuel ", " sv (u32 (len + 1));
        Ok ((join, Z.lor byte 128) :: fst r, snd r)
  end.

Fixpoint leb_out_unsigned (fuel : nat) (join : string) (v len : Z) : res (list piece * Z) :=
  match fuel with
  | O => NoFuel
  | S fuel =>
      let byte := Z.land v 127 in
      let v := Z.shiftr v 7 in
      let byte := if v =? 0 then byte else Z.lor byte 128 in
      if negb (Z.land byte 128 =? 0) then
        r ← leb_out_unsigned fuel ", " v (u32 (len + 1));
        Ok ((join, byte) :: fst r, snd r)
      else Ok ([(join, byte)], len)
  end.

(** The text written to [f] and the returned length. *)
Definition leb128_out (v : Z) (sig : bool) : res (list piece * Z) :=
  if sig then leb_out_signed leb_fuel EmptyString (s64 v) 1
  else leb_out_unsigned leb_fuel EmptyString v 1.

(** ** The DWARF decoding (sections 7.6 of the DWARF standard) *)

(** The accumulated value, and the bytes left once the one without the
    continuation bit is read. *)
Fixpoint uleb_decode (bytes : list Z) : option (Z * list Z) :=
  match bytes with
  | [] => None
  | b :: rest =>
      if b <? 128 then Some (b, rest)
      else match uleb_decode rest with
           | Some (v, r) => Some (b - 128 + 128 * v, r)
           | None => None
           end
  end.

Fixpoint sleb_decode (bytes : list Z) : option (Z * list Z) :=
  match bytes with
  | [] => None
  | b :: rest =>
      if b <? 128 then Some (if b <? 64 then b else b - 128, rest)
      else match sleb_decode rest with
           | Some (v, r) => Some (b - 128 + 128 * v, r)
           | None => None
           end
  end.

(** ** Lemmas *)

Lemma land_127 x : Z.land x 127 = x mod 128.
Proof. change 127 with (Z.ones 7). by rewrite Z.land_ones. Qed.

Lemma shiftr_7 x : Z.shiftr x 7 = x / 128.
Proof. by rewrite Z.shiftr_div_pow2. Qed.

Lemma lor_128 x : Z.lor (x mod 128) 128 = x mod 128 + 128.
Proof.
  rewrite <- Z.lxor_lor, <- Z.add_nocarry_lxor; [done| |];
    change 128 with (2 ^ 7); apply Z.bits_inj'; intros j Hj;
    rewrite Z.land_spec, Z.pow2_bits_eqb, Z.bits_0 by lia;
    destruct (Z.eqb_spec 7 j) as [<-|]; rewrite ?andb_false_r, ?Z.mod_pow2_bits_high by lia; done.
Qed.

Lemma land_128 x : 0 <= x < 128 -> (Z.land x 128 =? 0) = true.
Proof.
  intros Hx. apply Z.eqb_eq. change 128 with (2 ^ 7). apply Z.bits_inj'. intros j Hj.
  rewrite Z.land_spec, Z.pow2_bits_eqb, Z.bits_0 by lia.
  destruct (Z.eqb_spec 7 j) as [<-|]; [|apply andb_false_r].
  rewrite <- (Z.mod_small x (2 ^ 7)) by lia. by rewrite Z.mod_pow2_bits_high by lia.
Qed.

Lemma land_128_set x : (Z.land (x mod 128 + 128) 128 =? 0) = false.
Proof.
  rewrite <- lor_128. apply Z.eqb_neq. intros H.
  apply (f_equal (fun z => Z.testbit z 7)) in H.
  rewrite Z.land_spec, Z.lor_spec, Z.bits_0 in H. change (Z.testbit 128 7) with true in H.
  by rewrite orb_true_r in H.
Qed.

(** Bit 6 is the sign of a 7-bit group. *)
Lemma land_64 x : (Z.land x 64 =? 0) = (x mod 128 <? 64).
Proof.
  change 64 with (2 ^ 6) at 1.
  assert (Z.land x (2 ^ 6) = if Z.testbit x 6 then 64 else 0) as ->.
  { apply Z.bits_inj'. intros j Hj. rewrite Z.land_spec, Z.pow2_bits_eqb by lia.
    destruct (Z.eqb_spec 6 j) as [<-|Hne];
      destruct (Z.testbit x 6); rewrite ?andb_false_r, ?Z.bits_0; try done;
      change 64 with (2 ^ 6); by rewrite Z.pow2_bits_false by lia. }
  rewrite Z.testbit_eqb by lia. change (2 ^ 6) with 64.
  assert (x mod 128 = x mod 64 + 64 * ((x / 64) mod 2)) as ->
    by (change 128 with (64 * 2); by rewrite Z.rem_mul_r by lia).
  pose proof (Z.mod_pos_bound x 64). pose proof (Z.mod_pos_bound (x / 64) 2).
  destruct (Z.eqb_spec ((x / 64) mod 2) 1) as [->|]; simpl; symmetry;
    [apply Z.ltb_ge | apply Z.ltb_lt]; lia.
Qed.

#[export] Hint Rewrite land_127 shiftr_7 lor_128 land_128_set land_64 Zmod_mod negb_involutive : leb.

(** The shared loop step: what a group of seven bits leaves. *)
Lemma leb_group x : x = x mod 128 + 128 * (x / 128).
Proof. pose proof (Z.div_mod x 128). lia. Qed.

Lemma uleb_roundtrip_loop n join v len rest :
  0 <= v < 128 ^ (Z.of_nat n + 1) -> 0 <= len -> len + Z.of_nat n < 2 ^ 32 ->
  exists out l, leb_out_unsigned (S n) join v len = Ok (out, l) /\
    uleb_decode (map snd out ++ rest) = Some (v, rest) /\
    l = len - 1 + Z.of_nat (length out) /\
    leb_length_unsigned (S n) v len = Ok l.
Proof.
  revert join v len. induction n as [|n IH]; intros join v len Hv Hl0 Hl;
    [|remember (S n) as m eqn:Em]; cbn -[Z.mul Z.of_nat]; [|subst m];
    autorewrite with leb; pose proof (Z.mod_pos_bound v 128 eq_refl) as Hm;
    pose proof (leb_group v) as Hg; pose proof (Z.div_pos v 128 ltac:(lia) ltac:(lia)).
  - change (128 ^ (Z.of_nat 0 + 1)) with 128 in Hv.
    assert (v / 128 = 0) as -> by (apply Z.div_small; lia). simpl.
    rewrite land_128 by done. simpl. do 2 eexists. split; [done|]. simpl.
    assert ((v mod 128 <? 128) = true) as -> by (apply Z.ltb_lt; lia).
    split_and!; [do 2 f_equal; lia | lia | done].
  - destruct (Z.eqb_spec (v / 128) 0) as [E0|E0].
    + rewrite land_128 by done. simpl. do 2 eexists. split; [done|]. simpl.
      assert ((v mod 128 <? 128) = true) as -> by (apply Z.ltb_lt; lia).
      split_and!; [do 2 f_equal; lia | lia | done].
    + rewrite land_128_set. simpl negb. cbn iota.
      assert (v / 128 < 128 ^ (Z.of_nat n + 1)) as Hd.
      { apply Z.div_lt_upper_bound; [lia|]. rewrite <- Z.pow_succ_r by lia.
        replace (Z.succ (Z.of_nat n + 1)) with (Z.of_nat (S n) + 1) by lia. lia. }
      destruct (IH ", "%string (v / 128) (u32 (len + 1))) as (out & l & Ho & Hdec & Hlen & Hll);
        [lia | apply wrapu_range; lia | rewrite wrapu_id by (unfold is_u; lia); lia |].
      rewrite wrapu_id in * by (unfold is_u; lia).
      rewrite Ho. cbn [mbind res_bind fst snd]. do 2 eexists. split; [done|].
      cbn [map snd fst app uleb_decode].
      assert ((v mod 128 + 128 <? 128) = false) as -> by (apply Z.ltb_ge; lia).
      rewrite Hdec. split; [do 2 f_equal; lia|]. split; [|done]. simpl length. lia.
Qed.

Lemma sleb_sign_done x : ((x / 128 =? 0) && (x mod 128 <? 64)) || ((x / 128 =? -1) && negb (x mod 128 <? 64)) = true <->
  x = (if x mod 128 <? 64 then x mod 128 else x mod 128 - 128).
Proof.
  pose proof (leb_group x). pose proof (Z.mod_pos_bound x 128 eq_refl).
  destruct (Z.ltb_spec (x mod 128) 64); destruct (Z.eqb_spec (x / 128) 0), (Z.eqb_spec (x / 128) (-1)); simpl; split; lia || done.
Qed.

Lemma sleb_roundtrip_loop n join v len rest :
  - (64 * 128 ^ Z.of_nat n) <= v < 64 * 128 ^ Z.of_nat n -> 0 <= len -> len + Z.of_nat n < 2 ^ 32 ->
  exists out l, leb_out_signed (S n) join v len = Ok (out, l) /\
    sleb_decode (map snd out ++ rest) = Some (v, rest) /\
    l = len - 1 + Z.of_nat (length out) /\
    leb_length_signed (S n) v len = Ok l.
Proof.
  revert join v len. induction n as [|n IH]; intros join v len Hv Hl0 Hl;
    [|remember (S n) as m eqn:Em]; cbn -[Z.mul Z.of_nat]; [|subst m];
    autorewrite with leb; pose proof (Z.mod_pos_bound v 128 eq_refl) as Hm;
    pose proof (leb_group v) as Hg; pose proof (sleb_sign_done v) as Hs;
    (destruct (((v / 128 =? 0) && (v mod 128 <? 64)) || ((v / 128 =? -1) && negb (v mod 128 <? 64)));
      [assert (v = if v mod 128 <? 64 then v mod 128 else v mod 128 - 128) as Hvv by (by apply Hs);
       do 2 eexists; split; [done|]; simpl;
       assert ((v mod 128 <? 128) = true) as -> by (apply Z.ltb_lt; lia);
       split_and!; [by rewrite <- Hvv | lia | done] |]).
  - exfalso. change (128 ^ Z.of_nat 0) with 1 in Hv.
    assert (false = true); [|done]. apply Hs. destruct (Z.ltb_spec (v mod 128) 64); lia.
  - clear Hs.
    rewrite Nat2Z.inj_succ, Z.pow_succ_r in Hv by lia.
    destruct (IH ", "%string (v / 128) (u32 (len + 1))) as (out & l & Ho & Hdec & Hlen & Hll).
    { split; [apply Z.div_le_lower_bound | apply Z.div_lt_upper_bound]; lia. }
    { apply wrapu_range; lia. }
    { rewrite wrapu_id by (unfold is_u; lia). lia. }
    rewrite wrapu_id in * by (unfold is_u; lia).
    rewrite Ho. cbn [mbind res_bind fst snd]. do 2 eexists. split; [done|].
    cbn [map snd fst app sleb_decode].
    assert ((v mod 128 + 128 <? 128) = false) as -> by (apply Z.ltb_ge; lia).
    rewrite Hdec. split; [do 2 f_equal; lia|]. split; [|done]. simpl length. lia.
Qed.

(** ** Properties *)

(** Emitting any 64-bit value as unsigned LEB128 terminates, the emitted
    bytes decode to that value with nothing left over, and both the returned
    length and [leb128_length] are the number of bytes emitted. *)
Theorem leb128_unsigned_roundtrip (v : Z) (rest : list Z) :
  is_u 64 v ->
  exists out len, leb128_out v false = Ok (out, len) /\
    uleb_decode (map snd out ++ rest) = Some (v, rest) /\
    len = Z.of_nat (length out) /\
    leb128_length v false = Ok len.
Proof.
  intros Hv. unfold is_u in Hv.
  destruct (uleb_roundtrip_loop 9 EmptyString v 1 rest) as (out & l & ? & ? & ? & ?); [lia..|].
  exists out, l. split_and!; [done..|lia|done].
Qed.

Lemma leb128_unsigned_roundtrip_witness :
  exists out len, leb128_out 624485 false = Ok (out, len) /\
    uleb_decode (map snd out ++ [7]) = Some (624485, [7]) /\
    len = Z.of_nat (length out) /\ leb128_length 624485 false = Ok len.
Proof. apply (leb128_unsigned_roundtrip 624485 [7]). split; [discriminate | reflexivity]. Defined.

(** Emitting any 64-bit pattern as signed LEB128 terminates, the emitted
    bytes decode (with sign extension) to its signed value, and both lengths
    are the number of bytes emitted. *)
Theorem leb128_signed_roundtrip (v : Z) (rest : list Z) :
  exists out len, leb128_out v true = Ok (out, len) /\
    sleb_decode (map snd out ++ rest) = Some (s64 v, rest) /\
    len = Z.of_nat (length out) /\
    leb128_length v true = Ok len.
Proof.
  pose proof (wraps_range 64 v ltac:(lia)) as Hv. unfold is_s in Hv.
  destruct (sleb_roundtrip_loop 9 EmptyString (s64 v) 1 rest) as (out & l & ? & ? & ? & ?); [lia..|].
  exists out, l. split_and!; [done..|lia|done].
Qed.

Example leb_624485 : leb128_out 624485 false = Ok ([(EmptyString, 229); (", "%string, 142); (", "%string, 38)], 3).
Proof. reflexivity. Qed.

Example leb_m2 : leb128_out (-2) true = Ok ([(EmptyString, 126)], 1).
Proof. reflexivity. Qed.
