(* ===== verification/DynArray.v ===== *)
(** * NULL-terminated dynamic arrays

    [src/src/util/dynarray.c]. An array is a pointer to cells that hold
    pointers, ended by a NULL cell; the empty array is the NULL pointer. The
    cells are modelled as they are in memory, past the terminator included:
    reading or writing outside them is [Ub]. *)

From S2P Require Import Prelude.

(** A pointer is its address, [0] is NULL. *)
Abbreviation ptr := Z.
Definition NULL : ptr := 0%Z.
Definition DYNARRAY_NULL : ptr := 1%Z.

Abbreviation cells := (list ptr).
(** A [void **]: NULL, or the cells it points at. *)
Abbreviation array := (option cells).

(** ** Memory *)

Definition cell_get (b : cells) (i : nat) : res ptr :=
  match b !! i with Some x => Ok x | None => Ub "read outside the array" end.

Definition cell_set (b : cells) (i : nat) (x : ptr) : res cells :=
  if i <? length b then Ok (<[i:=x]> b) else Ub "write outside the array".

(** [memmove(b + dst, b + src, n * sizeof *b)] *)
Definition cells_move (b : cells) (dst src n : nat) : res cells :=
  if (src + n <=? length b) && (dst + n <=? length b)
  then Ok (take dst b ++ take n (drop src b) ++ drop (dst + n) b)
  else Ub "memmove outside the array".

(** [memcpy(b + dst, from, n * sizeof *b)] *)
Definition cells_copy (b : cells) (dst : nat) (from : cells) (n : nat) : res cells :=
  if (n <=? length from) && (dst + n <=? length b)
  then Ok (take dst b ++ take n from ++ drop (dst + n) b)
  else Ub "memcpy outside the array".

(** ** Operations *)

Section Ops.
  (** What [realloc] leaves in the cells it adds. *)
  Context (junk : ptr).

Definition urealloc1 (b : cells) (n : nat) : cells :=
  take n b ++ replicate (n - length b) junk.

Definition umalloc (n : nat) : cells := replicate n NULL.

Fixpoint count_loop (b : cells) : res nat :=
  match b with
  | [] => Ub "read outside the array"
  | x :: b => if (x =? NULL)%Z then Ok 0 else (n ← count_loop b; Ok (S n))
  end.

Definition dynarray_nochk_count (ar : array) : res nat :=
  match ar with None => Ok 0 | Some b => count_loop b end.

Definition dynarray_nochk_add (par : array) (new : ptr) : res array :=
  if (new =? NULL)%Z then Ice "dynarray_nochk_add(): adding NULL"
  else
    '(ar, idx) ← match par with
                 | None => Ok (umalloc 2, 0)
                 | Some b => idx ← dynarray_nochk_count par; Ok (urealloc1 b (idx + 2), idx)
                 end;
    ar ← cell_set ar idx new;
    ar ← cell_set ar (idx + 1) NULL;
    Ok (Some ar).

Fixpoint pad_loop (j : nat) (par : array) (n : nat) : res (array * nat) :=
  match j with
  | O => Ok (par, n)
  | S j => par ← dynarray_nochk_add par DYNARRAY_NULL; pad_loop j par (n + 1)
  end.

(** Returns the array, the new [*pn] and the replaced element. *)
Definition dynarray_nochk_padinsert (par : array) (i n : nat) (ins : ptr)
  : res (array * nat * ptr) :=
  if i <? n then
    match par with
    | None => Ub "NULL dereference"
    | Some ar =>
        out ← cell_get ar i;
        ar ← cell_set ar i ins;
        Ok (Some ar, n, if (out =? DYNARRAY_NULL)%Z then NULL else out)
    end
  else
    '(par, n) ← pad_loop (i - n) par n;
    par ← dynarray_nochk_add par ins;
    Ok (par, n + 1, NULL).

Definition deref (par : array) : res cells :=
  match par with None => Ub "NULL dereference" | Some b => Ok b end.

Definition dynarray_nochk_insert (par : array) (i : nat) (to_insert : ptr) : res array :=
  n ← dynarray_nochk_count par;
  if i <=? n then
    if i =? n then dynarray_nochk_add par to_insert
    else
      par ← dynarray_nochk_add par to_insert;
      let n := n + 1 in
      ar ← deref par;
      ar ← cells_move ar (i + 1) i (n - i - 1);
      ar ← cell_set ar i to_insert;
      Ok (Some ar)
  else Ice "oob dynarray insert".

Definition dynarray_nochk_pop (par : array) : res (array * ptr) :=
  n ← dynarray_nochk_count par;
  if 0 <? n then
    ar ← deref par;
    r ← cell_get ar (n - 1);
    ar ← cell_set ar (n - 1) NULL;
    if n =? 1 then Ok (None, r) else Ok (Some ar, r)
  else Ice "dynarray_nochk_pop(): empty array".

Definition dynarray_nochk_prepend (par : array) (new : ptr) : res array :=
  par ← dynarray_nochk_add par new;
  ar ← deref par;
  c ← dynarray_nochk_count par;
  let i := c - 1 in
  ar ← (if 0 <? i then cells_move ar 1 0 i else Ok ar);
  ar ← cell_set ar 0 new;
  Ok (Some ar).

(** [for(i = 0; ar[i]; i++) if(ar[i] == x)]: the index found. *)
Fixpoint rm_find (b : cells) (x : ptr) (i : nat) : res (option nat) :=
  match b with
  | [] => Ub "read outside the array"
  | y :: b => if (y =? NULL)%Z then Ok None
              else if (y =? x)%Z then Ok (Some i) else rm_find b x (i + 1)
  end.

Definition dynarray_nochk_rm (par : array) (x : ptr) : res array :=
  match par with
  | None => Ok None
  | Some ar =>
      n ← dynarray_nochk_count par;
      f ← rm_find ar x 0;
      match f with
      | None => Ok par
      | Some i =>
          if n =? 1 then Ok None
          else ar ← cells_move ar i (i + 1) (n - i); Ok (Some ar)
      end
  end.

(** The pointers [f] is called on, in order, and [*par] afterwards. *)
Fixpoint free_visit (b : cells) : res cells :=
  match b with
  | [] => Ub "read outside the array"
  | x :: b => if (x =? NULL)%Z then Ok [] else (r ← free_visit b; Ok (x :: r))
  end.

Definition dynarray_nochk_free (par : array) (f : bool) : res (array * cells) :=
  match par with
  | None => Ok (None, [])
  | Some b => v ← (if f then free_visit b else Ok []); Ok (None, v)
  end.

Definition dynarray_nochk_add_array (par ar2 : array) : res array :=
  match ar2 with
  | None => Ok par
  | Some b2 =>
      match par with
      | None =>
          n ← dynarray_nochk_count ar2;
          ar ← cells_copy (umalloc (n + 1)) 0 b2 n;
          ar ← cell_set ar n NULL;
          Ok (Some ar)
      | Some b =>
          n ← dynarray_nochk_count par;
          n2 ← dynarray_nochk_count ar2;
          let total := n + n2 in
          ar ← cells_copy (urealloc1 b (total + 1)) n b2 (n2 + 1);
          Ok (Some ar)
      end
  end.

Definition dynarray_nochk_add_tmparray (par ar2 : array) : res array :=
  par ← dynarray_nochk_add_array par ar2;
  _ ← dynarray_nochk_free ar2 false;
  Ok par.

(** ** The abstract sequence *)

(** The array [a] holds the sequence [l]. *)
Definition holds (a : array) (l : list ptr) : Prop :=
  Forall (fun x => x <> NULL) l /\
  match a with
  | None => l = []
  | Some b => l <> [] /\ exists t, b = l ++ NULL :: t
  end.

Inductive op : Type :=
  | Add (x : ptr)
  | Prepend (x : ptr)
  | Insert (i : nat) (x : ptr)
  | PadInsert (i : nat) (x : ptr)
  | Pop
  | Rm (x : ptr)
  | AddArray (l : list ptr).

(** A fresh array that holds [l]. *)
Definition array_of (l : list ptr) : array :=
  match l with [] => None | _ => Some (l ++ [NULL]) end.

(** One call, returning the array and the call's result (NULL where the C
    function returns [void]). *)
Definition run (o : op) (a : array) : res (array * ptr) :=
  match o with
  | Add x => a ← dynarray_nochk_add a x; Ok (a, NULL)
  | Prepend x => a ← dynarray_nochk_prepend a x; Ok (a, NULL)
  | Insert i x => a ← dynarray_nochk_insert a i x; Ok (a, NULL)
  | PadInsert i x => n ← dynarray_nochk_count a; '(a, _, r) ← dynarray_nochk_padinsert a i n x; Ok (a, r)
  | Pop => dynarray_nochk_pop a
  | Rm x => a ← dynarray_nochk_rm a x; Ok (a, NULL)
  | AddArray l => a ← dynarray_nochk_add_array a (array_of l); Ok (a, NULL)
  end.

(** Remove the first occurrence. *)
Fixpoint remove_first (x : ptr) (l : list ptr) : list ptr :=
  match l with
  | [] => []
  | y :: l => if (y =? x)%Z then l else y :: remove_first x l
  end.

(** What each call promises on sequences; [None]: it asserts. *)
Definition spec (o : op) (l : list ptr) : option (list ptr * ptr) :=
  match o with
  | Add x => Some (l ++ [x], NULL)
  | Prepend x => Some (x :: l, NULL)
  | Insert i x => if i <=? length l then Some (take i l ++ x :: drop i l, NULL) else None
  | PadInsert i x =>
      Some (match l !! i with
            | Some old => (<[i:=x]> l, if (old =? DYNARRAY_NULL)%Z then NULL else old)
            | None => (l ++ replicate (i - length l) DYNARRAY_NULL ++ [x], NULL)
            end)
  | Pop => match last l with Some x => Some (removelast l, x) | None => None end
  | Rm x => Some (remove_first x l, NULL)
  | AddArray l2 => Some (l ++ l2, NULL)
  end.

(** The arguments a caller may pass: no NULL elements. *)
Definition op_ok (o : op) : Prop :=
  match o with
  | Add x | Prepend x | Insert _ x | PadInsert _ x => x <> NULL
  | AddArray l => Forall (fun x => x <> NULL) l
  | Pop | Rm _ => True
  end.

(** ** Lemmas *)

Lemma count_loop_app l t :
  Forall (fun x => x <> NULL) l -> count_loop (l ++ NULL :: t) = Ok (length l).
Proof.
  induction 1 as [|x l Hx Hl IH]; [done|]. simpl.
  destruct (Z.eqb_spec x NULL); [done|]. rewrite IH. done.
Qed.

Lemma count_holds a l : holds a l -> dynarray_nochk_count a = Ok (length l).
Proof.
  intros [Hl Ha]. destruct a as [b|]; simpl in *; [|by subst].
  destruct Ha as (_ & t & ->). by apply count_loop_app.
Qed.

Lemma holds_some l t : Forall (fun x => x <> NULL) l -> l <> [] -> holds (Some (l ++ NULL :: t)) l.
Proof. intros. split; [done|]. split; [done|]. by exists t. Qed.

Lemma cell_set_mid l x y t : cell_set (l ++ x :: t) (length l) y = Ok (l ++ y :: t).
Proof.
  unfold cell_set. rewrite length_app. simpl.
  assert ((length l <? length l + S (length t)) = true) as -> by (apply Nat.ltb_lt; lia).
  by rewrite insert_app_r_alt, Nat.sub_diag by lia.
Qed.

Lemma cell_set_at l i x y t : i = length l -> cell_set (l ++ x :: t) i y = Ok (l ++ y :: t).
Proof. intros ->. apply cell_set_mid. Qed.

Lemma realloc_two l t : exists c1 c2, urealloc1 (l ++ NULL :: t) (length l + 2) = l ++ [c1; c2].
Proof.
  unfold urealloc1. rewrite take_app_ge by lia. replace (length l + 2 - length l) with 2 by lia.
  rewrite length_app. destruct t as [|c t]; simpl.
  - replace (length l + 2 - (length l + 1)) with 1 by lia. exists NULL, junk.
    by rewrite <- app_assoc.
  - replace (length l + 2 - (length l + S (S (length t)))) with 0 by lia.
    exists NULL, c. simpl. by rewrite app_nil_r, ?take_0.
Qed.

Lemma add_run a l x :
  holds a l -> x <> NULL -> dynarray_nochk_add a x = Ok (Some (l ++ [x; NULL])).
Proof.
  intros Ha Hx. unfold dynarray_nochk_add. destruct (Z.eqb_spec x NULL); [done|].
  assert (exists c1 c2, match a with
     | None => Ok (umalloc 2, 0)
     | Some b => idx ← dynarray_nochk_count a; Ok (urealloc1 b (idx + 2), idx)
     end = Ok (l ++ [c1; c2], length l)) as (c1 & c2 & ->).
  { pose proof (count_holds a l Ha) as Hc. destruct Ha as [Hl Ha]. destruct a as [b|].
    - rewrite Hc. run. destruct Ha as (_ & t & ->). destruct (realloc_two l t) as (c1 & c2 & ->).
      by exists c1, c2.
    - subst. by exists NULL, NULL. }
  run. rewrite cell_set_mid. run.
  rewrite (cons_middle x l [c2]), app_assoc, cell_set_at by (rewrite length_app; simpl; lia).
  run. by rewrite <- app_assoc.
Qed.

Lemma snoc_holds l x :
  Forall (fun x => x <> NULL) l -> x <> NULL -> holds (Some (l ++ [x; NULL])) (l ++ [x]).
Proof.
  intros Hl Hx. change [x; NULL] with ([x] ++ [NULL]). rewrite app_assoc.
  apply holds_some; [|by destruct l]. apply Forall_app; auto.
Qed.

Lemma prepend_run a l x :
  holds a l -> x <> NULL -> dynarray_nochk_prepend a x = Ok (Some (x :: l ++ [NULL])).
Proof.
  intros Ha Hx. unfold dynarray_nochk_prepend. rewrite (add_run a l x) by done. run.
  rewrite (count_holds _ (l ++ [x])) by (apply snoc_holds; [apply Ha | done]). run.
  rewrite length_app. simpl length. replace (length l + 1 - 1) with (length l) by lia.
  destruct l as [|y l]; [done|]. if_true.
  cbn [deref]. run. unfold cells_move. rewrite length_app. if_true.
  run. simpl. rewrite take_app_length. rewrite drop_app_ge by lia.
  replace (S (length l) - length l) with 1 by lia. done.
Qed.

Lemma insert_run a l i x :
  holds a l -> x <> NULL ->
  dynarray_nochk_insert a i x =
    if i <=? length l then Ok (Some ((take i l ++ x :: drop i l) ++ [NULL]))
    else Ice "oob dynarray insert".
Proof.
  intros Ha Hx. unfold dynarray_nochk_insert. rewrite (count_holds a l) by done. run.
  destruct (Nat.leb_spec i (length l)) as [Hi|Hi]; [|done].
  rewrite (add_run a l x) by done. destruct (Nat.eqb_spec i (length l)) as [->|Hne].
  - rewrite firstn_all, skipn_all, <- app_assoc. done.
  - cbn [deref]. run. cbn [deref]. run. unfold cells_move. rewrite length_app. simpl length.
    replace (length l + 1 - i - 1) with (length l - i) by lia.
    if_true.
    run. rewrite take_app_le, (drop_app_le l) by lia.
    rewrite take_app_le, (take_ge (drop i l)) by (rewrite length_drop; lia).
    replace (i + 1 + (length l - i)) with (length l + 1) by lia.
    rewrite (drop_app_ge l) by lia. replace (length l + 1 - length l) with 1 by lia.
    destruct (lookup_lt_is_Some_2 l i ltac:(lia)) as [y Hy].
    replace (i + 1) with (S i) by lia. rewrite (take_S_r _ _ _ Hy), <- app_assoc. cbn [app].
    rewrite cell_set_at by (rewrite length_take; lia). run. by rewrite <- app_assoc.
Qed.

Lemma pop_run a l x :
  holds a (l ++ [x]) ->
  exists a', dynarray_nochk_pop a = Ok (a', x) /\ holds a' l.
Proof.
  intros Ha. unfold dynarray_nochk_pop. rewrite (count_holds a _ Ha). run.
  destruct Ha as [Hl Ha]. apply Forall_app in Hl as [Hl Hx]. inversion Hx; subst.
  rewrite length_app. simpl length. replace (length l + 1 - 1) with (length l) by lia.
  assert ((0 <? length l + 1) = true) as -> by (apply Nat.ltb_lt; lia).
  destruct a as [b|]; [|by destruct l]. destruct Ha as (_ & t & ->). run.
  rewrite <- app_assoc. simpl. unfold cell_get. rewrite list_lookup_middle by done. run.
  rewrite cell_set_mid. run. destruct (Nat.eqb_spec (length l + 1) 1) as [E|E].
  - eexists; split; [done|]. destruct l; [done|]. simpl in *; lia.
  - eexists; split; [done|]. apply holds_some; [done|]. by destruct l.
Qed.

Lemma rm_find_in p s t x i :
  Forall (fun x => x <> NULL) (p ++ x :: s) -> x ∉ p ->
  rm_find ((p ++ x :: s) ++ NULL :: t) x i = Ok (Some (i + length p)).
Proof.
  revert i. induction p as [|y p IH]; intros i Hl Hx; simpl in *;
    inversion Hl; subst.
  - destruct (Z.eqb_spec x NULL); [done|]. rewrite Z.eqb_refl. do 2 f_equal. lia.
  - destruct (Z.eqb_spec y NULL); [done|]. destruct (Z.eqb_spec y x); [set_solver|]. rewrite IH by set_solver. do 2 f_equal. lia.
Qed.

Lemma rm_find_notin l t x i :
  Forall (fun x => x <> NULL) l -> x ∉ l -> rm_find (l ++ NULL :: t) x i = Ok None.
Proof.
  intros Hl. revert i. induction Hl as [|y l Hy Hl IH]; intros i Hx; [done|]. simpl.
  destruct (Z.eqb_spec y NULL); [done|]. destruct (Z.eqb_spec y x); [set_solver|].
  apply IH. set_solver.
Qed.

Lemma remove_first_split x l :
  x ∈ l -> exists p s, l = p ++ x :: s /\ x ∉ p /\ remove_first x l = p ++ s.
Proof.
  induction l as [|y l IH]; intros H; [by apply elem_of_nil in H|]. simpl.
  destruct (Z.eqb_spec y x) as [->|Hne].
  - exists [], l. set_solver.
  - destruct IH as (p & s & -> & Hp & Hr); [set_solver|].
    exists (y :: p), s. simpl. rewrite Hr. set_solver.
Qed.

Lemma remove_first_notin x l : x ∉ l -> remove_first x l = l.
Proof.
  induction l as [|y l IH]; intros H; [done|]. simpl.
  destruct (Z.eqb_spec y x) as [->|]; [set_solver|]. rewrite IH; [done|set_solver].
Qed.

Lemma rm_run a l x :
  holds a l -> exists a', dynarray_nochk_rm a x = Ok a' /\ holds a' (remove_first x l).
Proof.
  intros Ha. unfold dynarray_nochk_rm. destruct a as [b|].
  2:{ exists None. split; [done|]. destruct Ha as [_ ->]. done. }
  rewrite (count_holds _ l Ha). run. assert (H := Ha). destruct H as [Hl (Hne & t & ->)].
  destruct (decide (x ∈ l)) as [Hin|Hin].
  2:{ rewrite rm_find_notin by done. run. eexists. split; [done|]. by rewrite remove_first_notin. }
  destruct (remove_first_split x l Hin) as (p & s & -> & Hxp & ->).
  rewrite rm_find_in by done. run. rewrite Nat.add_0_l.
  apply Forall_app in Hl as [Hp Hs]. inversion Hs as [|? ? Hx Hs']; subst.
  rewrite length_app. simpl length. destruct (Nat.eqb_spec (length p + S (length s)) 1) as [E|E].
  - exists None. destruct p, s; simpl in *; try lia. done.
  - unfold cells_move. rewrite length_app, length_app. simpl length.
    replace (length p + S (length s) - length p) with (S (length s)) by lia.
    if_true.
    run. eexists. split; [done|].
    assert (take (length p) ((p ++ x :: s) ++ NULL :: t) = p) as ->
      by (rewrite <- app_assoc; apply take_app_length).
    assert (drop (length p + 1) ((p ++ x :: s) ++ NULL :: t) = s ++ NULL :: t) as ->
      by (rewrite <- drop_drop, <- app_assoc, drop_app_length; done).
    assert (take (S (length s)) (s ++ NULL :: t) = s ++ [NULL]) as ->.
    { rewrite take_app_ge by lia. by replace (S (length s) - length s) with 1 by lia. }
    rewrite <- app_assoc, (app_assoc p s). apply holds_some.
    + by apply Forall_app.
    + destruct p, s; simpl in *; done || lia.
Qed.

Lemma pad_loop_run j a l n :
  holds a l -> exists a', pad_loop j a n = Ok (a', n + j) /\ holds a' (l ++ replicate j DYNARRAY_NULL).
Proof.
  revert a l n. induction j as [|j IH]; intros a l n Ha; simpl.
  - exists a. rewrite app_nil_r. by replace (n + 0) with n by lia.
  - rewrite (add_run a l) by done. run.
    destruct (IH (Some (l ++ [DYNARRAY_NULL; NULL])) (l ++ [DYNARRAY_NULL]) (n + 1)) as (a' & Hr & Ha').
    { apply snoc_holds; [apply Ha | done]. }
    exists a'. rewrite Hr. split; [do 2 f_equal; lia|]. by rewrite <- app_assoc in Ha'.
Qed.

Lemma padinsert_run a l i x :
  holds a l -> x <> NULL ->
  exists a' n', dynarray_nochk_padinsert a i (length l) x =
      Ok (a', n', match l !! i with
                  | Some old => if (old =? DYNARRAY_NULL)%Z then NULL else old
                  | None => NULL end) /\
    holds a' (match l !! i with
              | Some _ => <[i:=x]> l
              | None => l ++ replicate (i - length l) DYNARRAY_NULL ++ [x] end).
Proof.
  intros Ha Hx. unfold dynarray_nochk_padinsert. destruct (Nat.ltb_spec i (length l)) as [Hi|Hi].
  - destruct (lookup_lt_is_Some_2 l i Hi) as [old Hold]. rewrite Hold.
    destruct Ha as [Hl Ha]. destruct a as [b|]; [|subst; done].
    destruct Ha as (Hne & t & ->). unfold cell_get. rewrite lookup_app_l, Hold by done. run.
    unfold cell_set. rewrite length_app.
    assert ((i <? length l + length (NULL :: t)) = true) as -> by (apply Nat.ltb_lt; lia).
    run. do 2 eexists. split; [done|]. rewrite insert_app_l by done. apply holds_some.
    + by apply Forall_insert.
    + destruct l; [done|]. by destruct i.
  - rewrite lookup_ge_None_2 by lia.
    destruct (pad_loop_run (i - length l) a l (length l) Ha) as (a1 & -> & Ha1). run.
    rewrite (add_run a1 _ x) by done. run. do 2 eexists. split; [done|].
    rewrite app_assoc. apply snoc_holds; [apply Ha1 | done].
Qed.

Lemma array_of_holds l : Forall (fun x => x <> NULL) l -> holds (array_of l) l.
Proof. intros Hl. destruct l as [|x l]; [done|]. by apply (holds_some (x :: l) []). Qed.

Lemma add_array_run a l l2 :
  holds a l -> Forall (fun x => x <> NULL) l2 ->
  exists a', dynarray_nochk_add_array a (array_of l2) = Ok a' /\ holds a' (l ++ l2).
Proof.
  intros Ha Hl2. pose proof (count_holds _ _ (array_of_holds l2 Hl2)) as Hc2.
  destruct l2 as [|y l2]; [exists a; by rewrite app_nil_r|].
  unfold dynarray_nochk_add_array. cbn [array_of] in *. set (m := y :: l2) in *.
  destruct a as [b|].
  - rewrite (count_holds _ l Ha). run. rewrite Hc2. run.
    destruct Ha as [Hl (Hne & t & ->)].
    assert (exists u, urealloc1 (l ++ NULL :: t) (length l + length m + 1) = l ++ u /\
              length u = length m + 1) as (u & -> & Hu).
    { unfold urealloc1. rewrite take_app_ge by lia. rewrite <- app_assoc. eexists. split; [done|].
      rewrite length_app, length_take, length_replicate, length_app. simpl. lia. }
    unfold cells_copy. rewrite !length_app, Hu. simpl (length [NULL]).
    if_true.
    run. eexists. split; [done|]. rewrite take_app_length.
    rewrite take_ge by (rewrite length_app; simpl; lia).
    rewrite drop_ge by (rewrite length_app; lia). rewrite app_nil_r, app_assoc.
    apply holds_some; [by apply Forall_app | by destruct l].
  - rewrite Hc2. run. unfold cells_copy, umalloc. rewrite length_app, length_replicate.
    if_true.
    run. rewrite take_app_length, drop_replicate, take_0. cbn [app].
    replace (length m + 1 - (0 + length m)) with 1 by lia. cbn [replicate].
    rewrite (cell_set_mid m NULL NULL []). run. eexists. split; [done|]. destruct Ha as [_ ->].
    by apply holds_some.
Qed.

(** ** Properties *)

(** C40: Every operation of the dynamic array, run on memory that holds a
    sequence, touches no cell outside its allocation, leaves memory that holds
    exactly the sequence its contract promises and returns the promised
    element; it asserts exactly when the contract does not allow the call. *)
Theorem dynarray_refines (o : op) (a : array) (l : list ptr) :
  holds a l -> op_ok o ->
  match spec o l with
  | Some (l', r) => exists a', run o a = Ok (a', r) /\ holds a' l'
  | None => exists why, run o a = Ice why
  end.
Proof.
  intros Ha Hok. destruct o as [x|x|i x|i x| |x|l2]; simpl in *; unfold run.
  - rewrite (add_run a l x) by done. run. eexists; split; [done|].
    apply snoc_holds; [apply Ha|done].
  - rewrite (prepend_run a l x) by done. run. eexists; split; [done|].
    apply (holds_some (x :: l)); [constructor; [done|apply Ha] | done].
  - rewrite (insert_run a l i x) by done. destruct (i <=? length l); [|by eexists].
    run. eexists; split; [done|]. apply holds_some; [|by destruct (take i l)].
    destruct Ha as [Hl _]. rewrite <- (take_drop i l) in Hl. apply Forall_app in Hl as [].
    apply Forall_app; auto.
  - rewrite (count_holds a l Ha). run.
    destruct (padinsert_run a l i x Ha Hok) as (a' & n' & -> & Ha'). run.
    destruct (l !! i); eauto.
  - destruct l as [|x l0 _] using rev_ind; [|rewrite last_snoc, removelast_last; destruct (pop_run a l0 x Ha) as (a' & -> & ?); eauto].
    simpl. unfold dynarray_nochk_pop. rewrite (count_holds a [] Ha). run. by eexists.
  - destruct (rm_run a l x Ha) as (a' & -> & ?). run. eauto.
  - destruct (add_array_run a l l2 Ha Hok) as (a' & -> & ?). run. eauto.
Qed.
End Ops.

Lemma dynarray_refines_witness :
  exists a', run 99 (Insert 1 7%Z) (array_of [5; 6]%Z) = Ok (a', NULL) /\ holds a' [5; 7; 6]%Z.
Proof.
  refine (dynarray_refines 99 (Insert 1 7%Z) (array_of [5; 6]%Z) [5; 6]%Z _ _).
  - split; [|split; [discriminate|]].
    + repeat constructor; discriminate.
    + exists []. reflexivity.
  - discriminate.
Defined.
