(* ===== verification/DynMap.v ===== *)
(** * Hash maps

    [src/src/util/dynmap.c]: a fixed table of 256 chains, the first pair of a
    chain stored in the table itself. Keys and values are pointers; the
    comparison and hash callbacks are arguments of [dynmap_nochk_new], and what
    a caller must guarantee of them is [KeyContract]. *)

From S2P Require Import Prelude.
Open Scope Z_scope.

Abbreviation ptr := Z.
Definition NULL : ptr := 0.

Definition HASH_TBL_CNT : Z := 256.
Definition HASH_TBL_CNT_BITS : Z := 8.

(** A [pair *]: NULL, or a pair and its [next]. *)
Inductive chain : Type :=
  | Nil
  | Pair (key value : ptr) (next : chain).

Record dynmap : Type := {
  cmp : option (ptr -> ptr -> Z);
  hash : ptr -> Z;
  pairs : list chain
}.

(** ** Operations *)

(** One [for(; *s; s++) hash = ((hash << 5) + hash) + *s;] *)
Fixpoint strhash_loop (s : cstr) (hash : Z) : Z :=
  match s with
  | [] => hash
  | c :: s => strhash_loop s (u32 (u32 (u32 (Z.shiftl hash 5) + hash) + schar c))
  end.

Definition dynmap_strhash (s : cstr) : Z := strhash_loop s 5381.

Definition dynmap_nochk_new (cmp : option (ptr -> ptr -> Z)) (hash : ptr -> Z) : dynmap :=
  {| cmp := cmp; hash := hash; pairs := replicate 256 (Pair NULL NULL Nil) |}.

Fixpoint squash (fuel : nat) (hash : Z) : res Z :=
  match fuel with
  | O => NoFuel
  | S fuel =>
      if HASH_TBL_CNT <=? hash
      then squash fuel (Z.lxor (Z.shiftr hash HASH_TBL_CNT_BITS) (Z.land hash (HASH_TBL_CNT - 1)))
      else Ok hash
  end.

(** The index in [pairs] of the chain. Each round drops eight of 32 bits. *)
Definition dynmap_first_pair (hash : Z) : res nat :=
  h ← squash 4 hash; Ok (Z.to_nat h).

Definition get_chain (m : dynmap) (i : nat) : res chain :=
  match pairs m !! i with Some p => Ok p | None => Ub "read outside the table" end.

Definition put_chain (m : dynmap) (i : nat) (p : chain) : dynmap :=
  {| cmp := cmp m; hash := hash m; pairs := <[i:=p]> (pairs m) |}.

Definition key_match (m : dynmap) (pkey key : ptr) : bool :=
  match cmp m with Some f => f pkey key =? 0 | None => pkey =? key end.

(** Walk a chain; the position and value of the pair found. *)
Fixpoint pair_loop (m : dynmap) (p : chain) (key : ptr) (pos : nat) : option (nat * ptr) :=
  match p with
  | Nil => None
  | Pair k v next =>
      if k =? NULL then None
      else if key_match m k key then Some (pos, v)
      else pair_loop m next key (S pos)
  end.

(** The chain's index and the pair found. *)
Definition dynmap_nochk_pair (m : dynmap) (key : ptr) : res (nat * option (nat * ptr)) :=
  if key =? NULL then Ice "null key"
  else
    i ← dynmap_first_pair (hash m key);
    p ← get_chain m i;
    Ok (i, pair_loop m p key 0).

Definition dynmap_nochk_get (map : option dynmap) (key : ptr) : res ptr :=
  match map with
  | None => Ok NULL
  | Some m =>
      '(_, f) ← dynmap_nochk_pair m key;
      Ok (match f with Some (_, v) => v | None => NULL end)
  end.

Definition dynmap_nochk_exists (map : option dynmap) (key : ptr) : res bool :=
  match map with
  | None => Ok false
  | Some m =>
      '(_, f) ← dynmap_nochk_pair m key;
      Ok (match f with Some _ => true | None => false end)
  end.

(** [p->value = val] for the pair at position [pos]. *)
Fixpoint set_value (p : chain) (pos : nat) (val : ptr) : chain :=
  match p, pos with
  | Nil, _ => Nil
  | Pair k _ n, O => Pair k val n
  | Pair k v n, S pos => Pair k v (set_value n pos val)
  end.

(** [while(p->next) p = p->next;] and a new pair at the end. *)
Fixpoint append (p : chain) (key val : ptr) : chain :=
  match p with
  | Nil => Pair key val Nil
  | Pair k v n => Pair k v (append n key val)
  end.

(** The map and the old value. *)
Definition dynmap_nochk_set (m : dynmap) (key val : ptr) : res (dynmap * ptr) :=
  if key =? NULL then Ice "null dynmap key"
  else
    '(i, f) ← dynmap_nochk_pair m key;
    p ← get_chain m i;
    match f with
    | Some (pos, old) => Ok (put_chain m i (set_value p pos val), old)
    | None =>
        match p with
        | Pair k v next =>
            if negb (k =? NULL) then Ok (put_chain m i (append p key val), NULL)
            else Ok (put_chain m i (Pair key val next), NULL)
        | Nil => Ub "NULL dereference"
        end
    end.

(** Walk every pair with a key, counting [at_] down. *)
Fixpoint idx_chain (p : chain) (at_ : Z) : (ptr * ptr) + Z :=
  match p with
  | Nil => inr at_
  | Pair k v next =>
      if negb (k =? NULL) then
        if at_ =? 0 then inl (k, v) else idx_chain next (at_ - 1)
      else idx_chain next at_
  end.

Fixpoint idx_table (t : list chain) (at_ : Z) : option (ptr * ptr) :=
  match t with
  | [] => None
  | p :: t => match idx_chain p at_ with inl kv => Some kv | inr at_ => idx_table t at_ end
  end.

Definition dynmap_nochk_idx (map : option dynmap) (at_ : Z) : option (ptr * ptr) :=
  match map with None => None | Some m => idx_table (pairs m) at_ end.

Definition dynmap_nochk_key (map : option dynmap) (i : Z) : ptr :=
  match dynmap_nochk_idx map i with Some (k, _) => k | None => NULL end.

Definition dynmap_nochk_value (map : option dynmap) (i : Z) : ptr :=
  match dynmap_nochk_idx map i with Some (_, v) => v | None => NULL end.

(** Find the pair before position [pos] and unlink the one after it. *)
Fixpoint unlink (p : chain) (pos : nat) : chain :=
  match p, pos with
  | Pair k v (Pair _ _ n), 1%nat => Pair k v n
  | Pair k v n, S pos => Pair k v (unlink n pos)
  | p, _ => p
  end.

Definition dynmap_nochk_rm (m : dynmap) (key : ptr) : res (dynmap * ptr) :=
  '(i, f) ← dynmap_nochk_pair m key;
  match f with
  | None => Ok (m, NULL)
  | Some (pos, value) =>
      first ← get_chain m i;
      match pos, first with
      | O, Pair _ _ Nil => Ok (put_chain m i (Pair NULL NULL Nil), value)
      | O, Pair _ _ next => Ok (put_chain m i next, value)
      | S _, _ => Ok (put_chain m i (unlink first pos), value)
      | O, Nil => Ub "NULL dereference"
      end
  end.

(** ** The map interface *)

(** What a caller must guarantee of a map's callbacks: on non-NULL keys the
    comparison is an equivalence that the hash respects, and hashes are
    [unsigned]. *)
Class KeyContract (m : dynmap) : Prop := {
  kc_refl : forall a, a <> NULL -> key_match m a a = true;
  kc_sym : forall a b, key_match m a b = true -> key_match m b a = true;
  kc_trans : forall a b c, key_match m a b = true -> key_match m b c = true -> key_match m a c = true;
  kc_hash : forall a b, a <> NULL -> b <> NULL -> key_match m a b = true -> hash m a = hash m b;
  kc_range : forall a, is_u 32 (hash m a)
}.

(** ** Representation *)

Fixpoint chain_of (l : list (ptr * ptr)) : chain :=
  match l with [] => Nil | (k, v) :: l => Pair k v (chain_of l) end.

(** The chain in the table: an empty bucket is a zeroed pair. *)
Definition bucket_of (l : list (ptr * ptr)) : chain :=
  match l with [] => Pair NULL NULL Nil | _ => chain_of l end.

Section Rep.
  Context (m : dynmap).

(** The bucket of a key. *)
Definition index_of (k : ptr) : nat :=
  match dynmap_first_pair (hash m k) with Ok i => i | _ => O end.

Fixpoint assoc (l : list (ptr * ptr)) (key : ptr) : option ptr :=
  match l with
  | [] => None
  | (k, v) :: l => if key_match m k key then Some v else assoc l key
  end.

(** The keys of one bucket: not NULL, in the right bucket, pairwise different. *)
Fixpoint bucket_ok (i : nat) (l : list (ptr * ptr)) : Prop :=
  match l with
  | [] => True
  | (k, v) :: l => k <> NULL /\ index_of k = i /\ assoc l k = None /\ bucket_ok i l
  end.

Definition rep (ls : list (list (ptr * ptr))) : Prop :=
  length ls = 256%nat /\ pairs m = map bucket_of ls /\
  forall i l, ls !! i = Some l -> bucket_ok i l.

(** The value the represented map binds to a key. *)
Definition lookup_in (ls : list (list (ptr * ptr))) (key : ptr) : option ptr :=
  match ls !! index_of key with Some l => assoc l key | None => None end.
End Rep.

(** A well-formed map, and what it binds. *)
Definition map_ok (m : dynmap) : Prop := exists ls, rep m ls.

(** The abstract finite map: what [get] and [exists] observe of a key. *)
Definition binding (m : dynmap) (key : ptr) : option ptr :=
  match dynmap_nochk_pair m key with
  | Ok (_, Some (_, v)) => Some v
  | _ => None
  end.

(** ** Hashing lemmas *)

Lemma lxor_bound a b n :
  0 <= n -> 0 <= a < 2 ^ n -> 0 <= b < 2 ^ n -> 0 <= Z.lxor a b < 2 ^ n.
Proof.
  intros Hn Ha Hb. assert (0 <= Z.lxor a b) as H0 by (apply Z.lxor_nonneg; lia).
  split; [done|]. destruct (Z.eq_dec (Z.lxor a b) 0) as [->|]; [apply Z.pow_pos_nonneg; lia|].
  assert (forall x, 0 <= x < 2 ^ n -> Z.log2 x < n \/ x = 0) as Hl.
  { intros x Hx. destruct (Z.eq_dec x 0); [by right|]. left. apply Z.log2_lt_pow2; lia. }
  apply Z.log2_lt_pow2; [lia|]. pose proof (Z.log2_lxor a b ltac:(lia) ltac:(lia)).
  destruct (Hl a Ha) as [| ->], (Hl b Hb) as [| ->]; try lia;
    rewrite ?Z.lxor_0_l, ?Z.lxor_0_r in *; lia.
Qed.

Lemma squash_step h k :
  0 <= k -> 0 <= h < 2 ^ (k + 16) ->
  0 <= Z.lxor (Z.shiftr h 8) (Z.land h 255) < 2 ^ (k + 8).
Proof.
  intros Hk Hh. assert (2 ^ (k + 16) = 2 ^ (k + 8) * 2 ^ 8) as E
    by (rewrite <- Z.pow_add_r by lia; f_equal; lia).
  apply lxor_bound; [lia| |].
  - rewrite Z.shiftr_div_pow2 by lia. split; [apply Z.div_pos; lia|].
    apply Z.div_lt_upper_bound; lia.
  - change 255 with (Z.ones 8). rewrite Z.land_ones by lia.
    pose proof (Z.mod_pos_bound h (2 ^ 8) eq_refl).
    assert (2 ^ 8 <= 2 ^ (k + 8)) by (apply Z.pow_le_mono_r; lia). lia.
Qed.

Lemma squash_ok h : is_u 32 h -> exists r, squash 4 h = Ok r /\ 0 <= r < 256.
Proof.
  intros Hh. unfold is_u in Hh. unfold HASH_TBL_CNT, HASH_TBL_CNT_BITS.
  assert (forall n h, 0 <= h < 2 ^ (8 * Z.of_nat n + 8) ->
    exists r, squash (S n) h = Ok r /\ 0 <= r < 256) as H; [|by apply (H 3%nat)].
  clear. induction n as [|n IH]; intros h Hh;
    [|remember (S n) as n' eqn:En]; cbn -[Z.mul Z.of_nat]; [|subst n'];
    unfold HASH_TBL_CNT, HASH_TBL_CNT_BITS in *; destruct (Z.leb_spec 256 h) as [Hle|Hlt].
  - change (2 ^ (8 * Z.of_nat 0 + 8)) with 256 in Hh. lia.
  - exists h. split; [done | lia].
  - apply IH. apply squash_step; [lia|].
    by replace (8 * Z.of_nat n + 16) with (8 * Z.of_nat (S n) + 8) by lia.
  - exists h. split; [done | lia].
Qed.

Lemma first_pair_ok m k : is_u 32 (hash m k) ->
  dynmap_first_pair (hash m k) = Ok (index_of m k) /\ (index_of m k < 256)%nat.
Proof.
  intros H. unfold index_of, dynmap_first_pair. destruct (squash_ok _ H) as (r & -> & Hr).
  run. split; [done|]. lia.
Qed.

(** ** Buckets *)

Section Buckets.
  Context (m : dynmap) {Kc : KeyContract m}.

Fixpoint assoc_pos (l : list (ptr * ptr)) (key : ptr) (pos : nat) : option (nat * ptr) :=
  match l with
  | [] => None
  | (k, v) :: l => if key_match m k key then Some (pos, v) else assoc_pos l key (S pos)
  end.

Lemma assoc_pos_assoc l key pos : snd <$> assoc_pos l key pos = assoc m l key.
Proof. revert pos; induction l as [|[k v] l IH]; intros pos; simpl; [done|]. by destruct (key_match m k key). Qed.

Lemma bucket_pair_loop i l key :
  bucket_ok m i l -> pair_loop m (bucket_of l) key 0 = assoc_pos l key 0.
Proof.
  intros Hl. destruct l as [|kv l]; [done|]. unfold bucket_of. generalize 0%nat.
  revert Hl. generalize (kv :: l). clear. induction l as [|[k v] l IH]; intros Hl pos; [done|].
  destruct Hl as (Hk & _ & _ & Hl). simpl. destruct (Z.eqb_spec k NULL); [done|].
  destruct (key_match m k key); [done|]. by apply IH.
Qed.

(** The bucket after [set] and after [rm]. *)
Fixpoint set_list (l : list (ptr * ptr)) (key val : ptr) : list (ptr * ptr) :=
  match l with
  | [] => [(key, val)]
  | (k, v) :: l => if key_match m k key then (k, val) :: l else (k, v) :: set_list l key val
  end.

Fixpoint rm_list (l : list (ptr * ptr)) (key : ptr) : list (ptr * ptr) :=
  match l with
  | [] => []
  | (k, v) :: l => if key_match m k key then l else (k, v) :: rm_list l key
  end.

Lemma assoc_match_some l a b v :
  key_match m a b = true -> assoc m l a = Some v -> assoc m l b = Some v.
Proof.
  intros Hab. induction l as [|[k w] l IH]; simpl; [done|].
  destruct (key_match m k a) eqn:E.
  - intros [= ->]. by rewrite (kc_trans _ _ _ E Hab).
  - destruct (key_match m k b) eqn:E2; [|exact IH].
    rewrite (kc_trans _ _ _ E2 (kc_sym _ _ Hab)) in E. done.
Qed.

Lemma assoc_match l a b : key_match m a b = true -> assoc m l a = assoc m l b.
Proof.
  intros Hab. destruct (assoc m l a) as [v|] eqn:Ea.
  - symmetry. by eapply assoc_match_some.
  - destruct (assoc m l b) as [v|] eqn:Eb; [|done].
    rewrite <- Ea. by rewrite (assoc_match_some _ _ _ v (kc_sym _ _ Hab) Eb).
Qed.

Lemma assoc_set l key val k' :
  key <> NULL -> assoc m (set_list l key val) k' = if key_match m key k' then Some val else assoc m l k'.
Proof.
  intros Hk. induction l as [|[k v] l IH]; simpl; [done|].
  destruct (key_match m k key) eqn:E; simpl.
  - destruct (key_match m key k') eqn:E2.
    + by rewrite (kc_trans _ _ _ E E2).
    + destruct (key_match m k k') eqn:E3; [|done].
      rewrite (kc_trans _ _ _ (kc_sym _ _ E) E3) in E2. done.
  - rewrite IH. destruct (key_match m k k') eqn:E3; [|done].
    destruct (key_match m key k') eqn:E2; [|done].
    rewrite (kc_trans _ _ _ E3 (kc_sym _ _ E2)) in E. done.
Qed.

Lemma set_list_ok i l key val :
  key <> NULL -> index_of m key = i -> bucket_ok m i l -> bucket_ok m i (set_list l key val).
Proof.
  intros Hk Hi. induction l as [|[k v] l IH]; simpl; [done|]. intros (Hn & Hik & Ha & Hl).
  destruct (key_match m k key) eqn:E; simpl; [done|].
  split_and!; [done|done| |by apply IH]. rewrite assoc_set by done.
  destruct (key_match m key k) eqn:E2; [|done]. by rewrite (kc_sym _ _ E2) in E.
Qed.

Lemma rm_list_ok i l key : bucket_ok m i l -> bucket_ok m i (rm_list l key).
Proof.
  induction l as [|[k v] l IH]; simpl; [done|]. intros (Hn & Hik & Ha & Hl).
  destruct (key_match m k key) eqn:E; [done|]. simpl. split_and!; [done|done| |by apply IH].
  clear - Ha Kc. induction l as [|[k2 v2] l IH]; simpl in *; [done|].
  destruct (key_match m k2 k) eqn:E; [done|]. destruct (key_match m k2 key); [done|].
  simpl. rewrite E. by apply IH.
Qed.

Lemma assoc_rm i l key k' :
  bucket_ok m i l ->
  assoc m (rm_list l key) k' = if key_match m key k' then None else assoc m l k'.
Proof.
  induction l as [|[k v] l IH]; simpl; [by destruct (key_match m key k')|].
  intros (Hn & Hik & Ha & Hl). destruct (key_match m k key) eqn:E; simpl.
  - destruct (key_match m key k') eqn:E2.
    + by rewrite <- (assoc_match l k k') by (by eapply kc_trans).
    + destruct (key_match m k k') eqn:E3; [|done].
      by rewrite (kc_trans _ _ _ (kc_sym _ _ E) E3) in E2.
  - rewrite (IH Hl). destruct (key_match m k k') eqn:E3; [|done].
    destruct (key_match m key k') eqn:E2; [|done].
    by rewrite (kc_trans _ _ _ E3 (kc_sym _ _ E2)) in E.
Qed.

Lemma assoc_pos_le l key p q v : assoc_pos l key p = Some (q, v) -> (p <= q)%nat.
Proof.
  revert p. induction l as [|[k w] l IH]; intros p; simpl; [done|].
  destruct (key_match m k key); [intros [= ->]; lia|]. intros H%IH. lia.
Qed.

Lemma set_value_chain l key val pos n v :
  assoc_pos l key pos = Some ((pos + n)%nat, v) ->
  set_value (chain_of l) n val = chain_of (set_list l key val).
Proof.
  revert pos n. induction l as [|[k w] l IH]; intros pos n; simpl; [done|].
  destruct (key_match m k key) eqn:E.
  - intros [= Hp]. by replace n with 0%nat by lia.
  - intros Hp. destruct n as [|n]; [apply assoc_pos_le in Hp; lia|].
    simpl. f_equal. apply (IH (S pos)). rewrite Hp. do 2 f_equal. lia.
Qed.

Lemma append_chain l key val pos :
  assoc_pos l key pos = None -> append (chain_of l) key val = chain_of (set_list l key val).
Proof.
  revert pos. induction l as [|[k w] l IH]; intros pos; simpl; [done|].
  destruct (key_match m k key); [done|]. intros H. simpl. f_equal. by apply (IH (S pos)).
Qed.

Lemma unlink_chain l key pos n v :
  assoc_pos l key pos = Some ((pos + S n)%nat, v) ->
  unlink (chain_of l) (S n) = chain_of (rm_list l key).
Proof.
  revert pos n. induction l as [|[k w] l IH]; intros pos n; cbn [assoc_pos rm_list]; [done|].
  destruct (key_match m k key) eqn:E; [intros [= Hp]; lia|]. intros Hp.
  destruct l as [|[k2 w2] l]; [done|]. destruct n as [|n].
  - cbn [assoc_pos rm_list] in *. destruct (key_match m k2 key); [done|].
    apply assoc_pos_le in Hp. lia.
  - cbn [chain_of unlink]. change (Pair k w (unlink (chain_of ((k2, w2) :: l)) (S n))
      = Pair k w (chain_of (rm_list ((k2, w2) :: l) key))).
    f_equal. apply (IH (S pos)). rewrite Hp. do 2 f_equal. lia.
Qed.
End Buckets.

(** ** Whole maps *)

#[export] Instance put_chain_contract m i p : KeyContract m -> KeyContract (put_chain m i p).
Proof. intros [H1 H2 H3 H4 H5]. constructor; [exact H1 | exact H2 | exact H3 | exact H4 | exact H5]. Qed.

Section Maps.
  Context (m : dynmap) {Kc : KeyContract m}.

Lemma rep_bucket ls key :
  rep m ls -> exists l, ls !! index_of m key = Some l /\ bucket_ok m (index_of m key) l /\
    get_chain m (index_of m key) = Ok (bucket_of l).
Proof.
  intros (Hlen & Hp & Hok). destruct (first_pair_ok m key (kc_range key)) as [_ Hi].
  destruct (lookup_lt_is_Some_2 ls (index_of m key) ltac:(lia)) as [l Hl].
  exists l. split_and!; [done | by eapply Hok |].
  unfold get_chain. rewrite Hp, list_lookup_fmap, Hl. done.
Qed.

Lemma nochk_pair_run ls key :
  rep m ls -> key <> NULL ->
  exists l, ls !! index_of m key = Some l /\ bucket_ok m (index_of m key) l /\
    get_chain m (index_of m key) = Ok (bucket_of l) /\
    dynmap_nochk_pair m key = Ok (index_of m key, assoc_pos m l key 0).
Proof.
  intros Hr Hk. destruct (rep_bucket ls key Hr) as (l & Hl & Hok & Hg).
  exists l. split_and!; [done..|]. unfold dynmap_nochk_pair.
  destruct (Z.eqb_spec key NULL); [done|].
  destruct (first_pair_ok m key (kc_range key)) as [-> _]. run. rewrite Hg. run.
  by erewrite bucket_pair_loop.
Qed.

Lemma binding_lookup ls key : rep m ls -> key <> NULL -> binding m key = lookup_in m ls key.
Proof.
  intros Hr Hk. destruct (nochk_pair_run ls key Hr Hk) as (l & Hl & _ & _ & Hp).
  unfold binding, lookup_in. rewrite Hp, Hl, <- (assoc_pos_assoc m l key 0).
  by destruct (assoc_pos m l key 0) as [[]|].
Qed.

Lemma rep_put ls i l :
  rep m ls -> bucket_ok m i l -> rep (put_chain m i (bucket_of l)) (<[i:=l]> ls).
Proof.
  intros (Hlen & Hp & Hok) Hl. split_and!.
  - by rewrite length_insert.
  - simpl. rewrite Hp. symmetry. apply (list_fmap_insert bucket_of).
  - intros j l' Hj. change (bucket_ok m j l').
    apply list_lookup_insert_Some in Hj as [(-> & -> & _)|(_ & Hj)]; [done|]. by eapply Hok.
Qed.

Lemma lookup_put ls i l key :
  rep m ls -> (i < 256)%nat ->
  lookup_in (put_chain m i (bucket_of l)) (<[i:=l]> ls) key =
    if decide (index_of m key = i) then assoc m l key else lookup_in m ls key.
Proof.
  intros (Hlen & _) Hi. unfold lookup_in.
  change (index_of (put_chain m i (bucket_of l)) key) with (index_of m key).
  case_decide as E; [rewrite E, list_lookup_insert_eq by lia | rewrite list_lookup_insert_ne by done]; done.
Qed.

Lemma map_set_run ls key val :
  rep m ls -> key <> NULL ->
  exists l, ls !! index_of m key = Some l /\ bucket_ok m (index_of m key) l /\
    dynmap_nochk_set m key val =
      Ok (put_chain m (index_of m key) (bucket_of (set_list m l key val)), default NULL (assoc m l key)).
Proof.
  intros Hr Hk. destruct (nochk_pair_run ls key Hr Hk) as (l & Hl & Hok & Hg & Hp).
  exists l. split_and!; [done..|]. unfold dynmap_nochk_set.
  destruct (Z.eqb_spec key NULL); [done|]. rewrite Hp. run. rewrite Hg. run.
  rewrite <- (assoc_pos_assoc m l key 0). destruct (assoc_pos m l key 0) as [[pos v]|] eqn:E.
  - do 3 f_equal. assert (bucket_of l = chain_of l) as -> by (by destruct l).
    rewrite (set_value_chain m l key val 0 pos v E). destruct l as [|[k w] l]; [done|].
    simpl. by destruct (key_match m k key).
  - destruct l as [|[k w] l].
    + simpl. destruct (Z.eqb_spec NULL NULL); done.
    + destruct Hok as (Hk0 & _). cbn [bucket_of chain_of].
      destruct (Z.eqb_spec k NULL); [done|]. cbn [negb].
      change (Pair k w (chain_of l)) with (chain_of ((k, w) :: l)).
      rewrite (append_chain m _ key val 0 E). do 3 f_equal. simpl. by destruct (key_match m k key).
Qed.

Lemma map_rm_run ls key :
  rep m ls -> key <> NULL ->
  exists l, ls !! index_of m key = Some l /\ bucket_ok m (index_of m key) l /\
    dynmap_nochk_rm m key =
      match assoc m l key with
      | None => Ok (m, NULL)
      | Some v => Ok (put_chain m (index_of m key) (bucket_of (rm_list m l key)), v)
      end.
Proof.
  intros Hr Hk. destruct (nochk_pair_run ls key Hr Hk) as (l & Hl & Hok & Hg & Hp).
  exists l. split_and!; [done..|]. unfold dynmap_nochk_rm. rewrite Hp. run.
  rewrite <- (assoc_pos_assoc m l key 0). destruct (assoc_pos m l key 0) as [[pos v]|] eqn:E; [|done].
  rewrite Hg. run. simpl. destruct l as [|[k w] l]; [done|]. destruct pos as [|pos].
  - simpl in E. destruct (key_match m k key) eqn:Em; [|apply assoc_pos_le in E; lia].
    destruct l as [|[k2 w2] l]; simpl; by rewrite Em.
  - do 3 f_equal. change (bucket_of ((k, w) :: l)) with (chain_of ((k, w) :: l)).
    rewrite (unlink_chain m _ key 0 pos v) by done.
    cbn [assoc_pos] in E. simpl. destruct (key_match m k key); [done|]. done.
Qed.
End Maps.

Lemma new_ok c h : map_ok (dynmap_nochk_new c h).
Proof.
  exists (replicate 256 []). split_and!; [done | done |].
  intros i l [-> _]%lookup_replicate. done.
Qed.

Lemma binding_new c h k :
  KeyContract (dynmap_nochk_new c h) -> k <> NULL -> binding (dynmap_nochk_new c h) k = None.
Proof.
  intros Kc Hk. rewrite (binding_lookup _ (replicate 256 [])); [|split_and!; [done|done|]|done].
  - unfold lookup_in. destruct (replicate _ _ !! _) as [l|] eqn:E; [|done].
    apply lookup_replicate in E as [-> _]. done.
  - by intros i l [-> _]%lookup_replicate.
Qed.

(** ** Properties *)

(** On a well-formed map [dynmap_nochk_set] neither asserts nor leaves the
    table: it keeps the map well formed, returns the value the key was bound to
    (NULL if none) and afterwards binds the key, and every key the comparison
    equates with it, to the new value and every other key as before. *)
Theorem dynmap_set_spec (m : dynmap) {Kc : KeyContract m} (key val : ptr) :
  map_ok m -> key <> NULL ->
  exists m', dynmap_nochk_set m key val = Ok (m', default NULL (binding m key)) /\
    map_ok m' /\ KeyContract m' /\
    forall k, k <> NULL ->
      binding m' k = if key_match m key k then Some val else binding m k.
Proof.
  intros [ls Hr] Hk. destruct (map_set_run m ls key val Hr Hk) as (l & Hl & Hok & Hs).
  pose proof (proj2 (first_pair_ok m key (kc_range key))) as Hi.
  assert (bucket_ok m (index_of m key) (set_list m l key val)) as Hok' by (by apply set_list_ok).
  pose proof (rep_put m ls _ _ Hr Hok') as Hr'.
  eexists. split_and!; [rewrite Hs, (binding_lookup m ls) by done; unfold lookup_in; by rewrite Hl
    | by eexists | by apply put_chain_contract |].
  intros k Hk2. rewrite (binding_lookup m ls k Hr Hk2), (binding_lookup _ _ k Hr' Hk2).
  rewrite lookup_put by done. case_decide as E.
  - rewrite assoc_set by done. destruct (key_match m key k); [done|].
    unfold lookup_in. by rewrite E, Hl.
  - destruct (key_match m key k) eqn:Em; [|done]. exfalso. apply E.
    unfold index_of. by rewrite (kc_hash key k Hk Hk2 Em).
Qed.

(** [dynmap_nochk_rm] keeps the map well formed, returns the removed value
    (NULL if the key was unbound), and afterwards the key, and every key the
    comparison equates with it, is unbound while every other key is untouched. *)
Theorem dynmap_rm_spec (m : dynmap) {Kc : KeyContract m} (key : ptr) :
  map_ok m -> key <> NULL ->
  exists m', dynmap_nochk_rm m key = Ok (m', default NULL (binding m key)) /\
    map_ok m' /\ KeyContract m' /\
    forall k, k <> NULL ->
      binding m' k = if key_match m key k then None else binding m k.
Proof.
  intros [ls Hr] Hk. destruct (map_rm_run m ls key Hr Hk) as (l & Hl & Hok & Hs).
  pose proof (proj2 (first_pair_ok m key (kc_range key))) as Hi.
  assert (binding m key = assoc m l key) as Hb.
  { rewrite (binding_lookup m ls) by done. unfold lookup_in. by rewrite Hl. }
  rewrite Hb, Hs. destruct (assoc m l key) as [v|] eqn:Ea.
  - pose proof (rep_put m ls _ _ Hr (rm_list_ok m _ l key Hok)) as Hr'.
    eexists. split_and!; [done | by eexists | by apply put_chain_contract |].
    intros k Hk2. rewrite (binding_lookup m ls k Hr Hk2), (binding_lookup _ _ k Hr' Hk2).
    rewrite lookup_put by done. case_decide as E.
    + erewrite assoc_rm by done. destruct (key_match m key k); [done|].
      unfold lookup_in. by rewrite E, Hl.
    + destruct (key_match m key k) eqn:Em; [|done]. exfalso. apply E.
      unfold index_of. by rewrite (kc_hash key k Hk Hk2 Em).
  - exists m. split_and!; [done | by exists ls | done |]. intros k Hk2.
    destruct (key_match m key k) eqn:Em; [|done].
    rewrite (binding_lookup m ls) by done. unfold lookup_in.
    assert (index_of m k = index_of m key) as -> by (unfold index_of; by rewrite (kc_hash key k Hk Hk2 Em)).
    rewrite Hl, <- Ea. symmetry. by apply assoc_match.
Qed.

(** ** Enumeration lemmas *)

Fixpoint distinct (m : dynmap) (es : list (ptr * ptr)) : Prop :=
  match es with
  | [] => True
  | kv :: es => (forall kv', kv' ∈ es -> key_match m kv.1 kv'.1 = false) /\ distinct m es
  end.

Lemma distinct_app m a b :
  distinct m a -> distinct m b ->
  (forall x y, x ∈ a -> y ∈ b -> key_match m x.1 y.1 = false) -> distinct m (a ++ b).
Proof.
  induction a as [|x a IH]; intros Ha Hb Hab; [done|]. destruct Ha as [Hx Ha]. simpl. split.
  - intros y [Hy|Hy]%elem_of_app; [by apply Hx|]. apply Hab; [set_solver|done].
  - apply IH; [done|done|]. intros; apply Hab; set_solver.
Qed.

Lemma idx_chain_bucket m i l n :
  bucket_ok m i l ->
  idx_chain (bucket_of l) (Z.of_nat n) =
    match l !! n with Some kv => inl kv | None => inr (Z.of_nat n - Z.of_nat (length l)) end.
Proof.
  intros Hl. assert (idx_chain (bucket_of l) (Z.of_nat n) = idx_chain (chain_of l) (Z.of_nat n)) as ->
    by (by destruct l).
  revert n Hl. induction l as [|[k v] l IH]; intros n Hl.
  - simpl. f_equal. lia.
  - destruct Hl as (Hk & _ & _ & Hl). cbn [chain_of idx_chain].
    destruct (Z.eqb_spec k NULL); [done|]. cbn [negb]. destruct n as [|n]; [done|].
    destruct (Z.eqb_spec (Z.of_nat (S n)) 0); [lia|].
    replace (Z.of_nat (S n) - 1) with (Z.of_nat n) by lia. rewrite IH by done. simpl.
    destruct (l !! n); [done|]. f_equal. lia.
Qed.

Lemma idx_table_concat m ls base n :
  (forall i l, ls !! i = Some l -> bucket_ok m (base + i) l) ->
  idx_table (map bucket_of ls) (Z.of_nat n) = concat ls !! n.
Proof.
  revert base n. induction ls as [|l ls IH]; intros base n Hok; [done|]. cbn [map idx_table concat].
  rewrite (idx_chain_bucket m (base + 0) l) by (apply Hok; done).
  destruct (l !! n) as [kv|] eqn:E; [by rewrite (lookup_app_l_Some _ _ _ _ E)|].
  apply lookup_ge_None in E. rewrite lookup_app_r by done.
  replace (Z.of_nat n - Z.of_nat (length l)) with (Z.of_nat (n - length l)) by lia.
  apply (IH (S base)). intros i l' Hi. replace (S base + i)%nat with (base + S i)%nat by lia. by apply Hok.
Qed.

Lemma bucket_distinct m i l {Kc : KeyContract m} :
  bucket_ok m i l -> distinct m l /\ (forall kv, kv ∈ l -> kv.1 <> NULL /\ index_of m kv.1 = i).
Proof.
  induction l as [|[k v] l IH]; intros Hl.
  - split; [done|]. intros kv H. by apply elem_of_nil in H.
  - destruct Hl as (Hk & Hi & Ha & Hl). destruct (IH Hl) as [Hd Hn]. split.
    + split; [|done]. clear -Ha Kc. intros [k' v'] Hin. simpl.
      induction l as [|[k2 v2] l IHl]; simpl in *; [by apply elem_of_nil in Hin|].
      destruct (key_match m k2 k) eqn:E; [done|]. apply elem_of_cons in Hin as [[= -> ->]|Hin]; [|auto].
      destruct (key_match m k k2) eqn:E2; [|done]. by rewrite (kc_sym _ _ E2) in E.
    + intros kv [->|Hin]%elem_of_cons; [done|]. by apply Hn.
Qed.

Lemma concat_distinct m ls base {Kc : KeyContract m} :
  (forall i l, ls !! i = Some l -> bucket_ok m (base + i) l) ->
  distinct m (concat ls) /\
  (forall kv, kv ∈ concat ls -> kv.1 <> NULL /\ (base <= index_of m kv.1)%nat).
Proof.
  revert base. induction ls as [|l ls IH]; intros base Hok; cbn [concat].
  - split; [done|]. intros kv H. by apply elem_of_nil in H.
  - destruct (IH (S base)) as [Hd Hn].
    { intros i l' Hi. replace (S base + i)%nat with (base + S i)%nat by lia. by apply Hok. }
    destruct (bucket_distinct m (base + 0) l (Hok 0%nat l eq_refl)) as [Hd0 Hn0]. split.
    + apply distinct_app; [done|done|]. intros x y Hx Hy.
      destruct (Hn0 x Hx) as [Hxn Hxi], (Hn y Hy) as [Hyn Hyi].
      destruct (key_match m x.1 y.1) eqn:E; [|done].
      unfold index_of in Hxi, Hyi. rewrite (kc_hash _ _ Hxn Hyn E) in Hxi. lia.
    + intros kv [H|H]%elem_of_app.
      * destruct (Hn0 kv H). split; [done|lia].
      * destruct (Hn kv H). split; [done|lia].
Qed.

Lemma assoc_elem m l key v {Kc : KeyContract m} :
  distinct m l ->
  assoc m l key = Some v <-> exists k0, (k0, v) ∈ l /\ key_match m k0 key = true.
Proof.
  induction l as [|[k w] l IH]; intros Hd.
  - split; [done|]. intros (k0 & H & _). by apply elem_of_nil in H.
  - destruct Hd as [Hk Hd]. simpl. destruct (key_match m k key) eqn:E.
    + split; [intros [= ->]; exists k; set_solver|].
      intros (k0 & [[= -> ->]|Hin]%elem_of_cons & Hm); [done|]. specialize (Hk _ Hin). simpl in Hk.
      by rewrite (kc_trans _ _ _ E (kc_sym _ _ Hm)) in Hk.
    + rewrite IH by done. split; intros (k0 & Hin & Hm); exists k0; [set_solver|].
      apply elem_of_cons in Hin as [[= -> ->]|Hin]; [congruence|done].
Qed.

Lemma lookup_concat m ls key v {Kc : KeyContract m} :
  rep m ls -> key <> NULL ->
  lookup_in m ls key = Some v <-> exists k0, (k0, v) ∈ concat ls /\ key_match m k0 key = true.
Proof.
  intros Hr Hk. destruct (rep_bucket m ls key Hr) as (l & Hl & Hok & _).
  destruct Hr as (_ & _ & Hall). unfold lookup_in. rewrite Hl.
  destruct (bucket_distinct m _ l Hok) as [Hd _]. rewrite (assoc_elem m l key v Hd).
  split; intros (k0 & Hin & Hm); exists k0; split; try done.
  - apply list_elem_of_In, in_concat. exists l. split; apply list_elem_of_In; [|done].
    by eapply list_elem_of_lookup_2.
  - apply list_elem_of_In, in_concat in Hin as (l' & Hl' & Hin).
    apply list_elem_of_In, list_elem_of_lookup in Hl' as [i Hi]. apply list_elem_of_In in Hin.
    destruct (bucket_distinct m _ l' (Hall i l' Hi)) as [_ Hn]. destruct (Hn _ Hin) as [Hk0 Hi0].
    assert (index_of m key = i) as E.
    { simpl in Hk0, Hi0. rewrite <- Hi0. unfold index_of. by rewrite (kc_hash _ _ Hk0 Hk Hm). }
    rewrite E in Hl. simplify_eq. done.
Qed.

(** Counting an index up from 0 until NULL enumerates the map: the pairs
    visited are exactly the map's bindings, each key once. *)
Theorem dynmap_enumerates (m : dynmap) {Kc : KeyContract m} :
  map_ok m ->
  exists es, distinct m es /\
    (forall n, dynmap_nochk_key (Some m) (Z.of_nat n) = default NULL (fst <$> es !! n) /\
               dynmap_nochk_value (Some m) (Z.of_nat n) = default NULL (snd <$> es !! n)) /\
    (forall k v, k <> NULL ->
       binding m k = Some v <-> exists k0, (k0, v) ∈ es /\ key_match m k0 k = true).
Proof.
  intros [ls Hr]. exists (concat ls). assert (Hr' := Hr). destruct Hr' as (_ & Hp & Hok).
  split_and!.
  - by apply (concat_distinct m ls 0).
  - intros n. unfold dynmap_nochk_key, dynmap_nochk_value, dynmap_nochk_idx.
    rewrite Hp, (idx_table_concat m ls 0) by done. by destruct (concat ls !! n) as [[]|].
  - intros k v Hk. rewrite (binding_lookup m ls) by done. by apply lookup_concat.
Qed.

(** What [get] and [exists] return, by the binding. *)
Lemma dynmap_get_run m key {Kc : KeyContract m} :
  map_ok m -> key <> NULL ->
  dynmap_nochk_get (Some m) key = Ok (default NULL (binding m key)) /\
  dynmap_nochk_exists (Some m) key = Ok (match binding m key with Some _ => true | None => false end).
Proof.
  intros [ls Hr] Hk. destruct (nochk_pair_run m ls key Hr Hk) as (l & _ & _ & _ & Hp).
  unfold dynmap_nochk_get, dynmap_nochk_exists, binding. rewrite Hp. run.
  by destruct (assoc_pos m l key 0) as [[]|].
Qed.

(** ** A concrete map: pointer keys hashed by their low bits *)

Definition addr_map : dynmap := dynmap_nochk_new None (fun k => u32 k).

#[export] Instance addr_contract : KeyContract addr_map.
Proof.
  constructor; unfold key_match, addr_map; simpl; intros; rewrite ?Z.eqb_eq in *; try congruence.
  by apply wrapu_range.
Qed.

Lemma dynmap_set_spec_witness :
  exists m', dynmap_nochk_set addr_map 70000 5 = Ok (m', NULL) /\
    map_ok m' /\ KeyContract m' /\
    forall k, k <> NULL -> binding m' k = if key_match addr_map 70000 k then Some 5 else binding addr_map k.
Proof. exact (dynmap_set_spec addr_map 70000 5 (new_ok _ _) ltac:(discriminate)). Defined.

Lemma dynmap_rm_spec_witness :
  exists m', dynmap_nochk_rm addr_map 7 = Ok (m', NULL) /\
    map_ok m' /\ KeyContract m' /\
    forall k, k <> NULL -> binding m' k = if key_match addr_map 7 k then None else binding addr_map k.
Proof. exact (dynmap_rm_spec addr_map 7 (new_ok _ _) ltac:(discriminate)). Defined.

Lemma dynmap_enumerates_witness :
  exists es, distinct addr_map es /\
    (forall n, dynmap_nochk_key (Some addr_map) (Z.of_nat n) = default NULL (fst <$> es !! n) /\
               dynmap_nochk_value (Some addr_map) (Z.of_nat n) = default NULL (snd <$> es !! n)) /\
    (forall k v, k <> NULL ->
       binding addr_map k = Some v <-> exists k0, (k0, v) ∈ es /\ key_match addr_map k0 k = true).
Proof. exact (dynmap_enumerates addr_map (new_ok _ _)). Defined.
