(* ===== verification/Triple.v ===== *)
(** * Target triples

    [src/src/util/triple.c]: parsing [arch-vendor-sys-abi], filling in what is
    missing, and printing. *)

From S2P Require Import Prelude.

(** ** Data *)

Inductive arch := ARCH_x86_64 | ARCH_i386.
Inductive vendor := VENDOR_pc | VENDOR_apple.
Inductive sys := SYS_linux | SYS_freebsd | SYS_darwin | SYS_cygwin.
Inductive abi := ABI_gnu | ABI_macho | ABI_elf.

Record triple : Type := mk_triple {
  t_arch : arch;
  t_vendor : vendor;
  t_sys : sys;
  t_abi : abi
}.

#[export] Instance sys_eq_dec : EqDecision sys.
Proof. solve_decision. Defined.

#[export] Instance triple_eq_dec : EqDecision triple.
Proof. intros x y. unfold Decision. repeat decide equality. Defined.

(** ** Operations *)

(** The [X] and [ALIAS] lines of [TARGET_ARCHES], in order. *)
Definition parse_arch (in_ : cstr) : option arch :=
  if streq in_ (str "x86_64") then Some ARCH_x86_64
  else if streq in_ (str "i386") then Some ARCH_i386
  else if streq in_ (str "amd64") then Some ARCH_x86_64
  else if streq in_ (str "i686") then Some ARCH_i386
  else None.

Definition parse_vendor (in_ : cstr) : option vendor :=
  if streq in_ (str "pc") then Some VENDOR_pc
  else if streq in_ (str "apple") then Some VENDOR_apple
  else None.

(** [X_ncmp] compares the first [n] characters only. *)
Definition strncmp0 (in_ post : cstr) (n : nat) : bool := streq (take n in_) (take n post).

Definition parse_sys (in_ : cstr) : option sys :=
  if streq in_ (str "linux") then Some SYS_linux
  else if streq in_ (str "freebsd") then Some SYS_freebsd
  else if strncmp0 in_ (str "darwin") 6 then Some SYS_darwin
  else if strncmp0 in_ (str "macos") 5 then Some SYS_darwin
  else if strncmp0 in_ (str "cygwin") 6 then Some SYS_cygwin
  else None.

Definition parse_abi (in_ : cstr) : option abi :=
  if streq in_ (str "gnu") then Some ABI_gnu
  else if streq in_ (str "macho") then Some ABI_macho
  else if streq in_ (str "elf") then Some ABI_elf
  else None.

Definition infer_vendor (s : sys) : vendor :=
  match s with
  | SYS_linux => VENDOR_pc
  | SYS_darwin => VENDOR_apple
  | SYS_cygwin => VENDOR_pc
  | SYS_freebsd => VENDOR_pc
  end.

Definition infer_abi (s : sys) : abi :=
  match s with
  | SYS_linux => ABI_gnu
  | SYS_darwin => ABI_macho
  | SYS_cygwin => ABI_elf
  | SYS_freebsd => ABI_elf
  end.

(** The tokens [strtok(_, "-")] yields; [acc] is the current one, reversed. *)
Fixpoint strtok_loop (s acc : cstr) : list cstr :=
  match s with
  | [] => match acc with [] => [] | _ => [rev acc] end
  | c :: s =>
      if c =c "-"%char then
        match acc with [] => strtok_loop s [] | _ => rev acc :: strtok_loop s [] end
      else strtok_loop s (c :: acc)
  end.

Definition strtok_all (s : cstr) : list cstr := strtok_loop s [].

(** The four locals of [triple_parse]; [None] is the initial [-1]. *)
Record parsing : Type := mk_parsing {
  p_arch : option arch;
  p_vendor : option vendor;
  p_sys : option sys;
  p_abi : option abi
}.

(** The token loop; [inr tok] is [*bad = ustrdup(tok)]. *)
Fixpoint parse_toks (toks : list cstr) (p : parsing) : parsing + cstr :=
  match toks with
  | [] => inl p
  | tok :: toks =>
      match parse_arch tok with
      | Some a => parse_toks toks (mk_parsing (Some a) (p_vendor p) (p_sys p) (p_abi p))
      | None =>
          match parse_vendor tok with
          | Some v => parse_toks toks (mk_parsing (p_arch p) (Some v) (p_sys p) (p_abi p))
          | None =>
              match parse_sys tok with
              | Some s => parse_toks toks (mk_parsing (p_arch p) (p_vendor p) (Some s) (p_abi p))
              | None =>
                  match parse_abi tok with
                  | Some b => parse_toks toks (mk_parsing (p_arch p) (p_vendor p) (p_sys p) (Some b))
                  | None => inr tok
                  end
              end
          end
      end
  end.

(** [inl] is success, [inr] the [*bad] of a failure. *)
Definition triple_parse (s : cstr) : triple + cstr :=
  match parse_toks (strtok_all s) (mk_parsing None None None None) with
  | inr bad => inr bad
  | inl p =>
      match p_arch p with
      | None => inr (str "no arch")
      | Some a =>
          match p_sys p with
          | None => inr (str "no sys")
          | Some s =>
              inl (mk_triple a (default (infer_vendor s) (p_vendor p)) s
                             (default (infer_abi s) (p_abi p)))
          end
      end
  end.

Definition arch_to_str (a : arch) : cstr :=
  match a with ARCH_x86_64 => str "x86_64" | ARCH_i386 => str "i386" end.

Definition vendor_to_str (v : vendor) : cstr :=
  match v with VENDOR_pc => str "pc" | VENDOR_apple => str "apple" end.

Definition sys_to_str (s : sys) : cstr :=
  match s with
  | SYS_linux => str "linux"
  | SYS_freebsd => str "freebsd"
  | SYS_darwin => str "darwin"
  | SYS_cygwin => str "cygwin"
  end.

Definition abi_to_str (b : abi) : cstr :=
  match b with ABI_gnu => str "gnu" | ABI_macho => str "macho" | ABI_elf => str "elf" end.

(** [snprintf] into a buffer of [size] bytes. *)
Definition snprintf (size : nat) (text : cstr) : cstr := take (size - 1) text.

Definition triple_to_str (t : triple) (showvendor : bool) : cstr :=
  snprintf 32
    (arch_to_str (t_arch t) ++
     (if showvendor then str "-" else []) ++
     (if showvendor then vendor_to_str (t_vendor t) else []) ++
     str "-" ++ sys_to_str (t_sys t) ++
     str "-" ++ abi_to_str (t_abi t)).

(** [uname(2)] is outside the program: its [machine] and [sysname] fields are
    arguments, [None] when it fails. *)
Definition filter_unam (machine sysname : cstr) : cstr * cstr :=
  let machine := if streq machine (str "amd64") then str "x86_64" else machine in
  let machine := if streq machine (str "i686") then str "i386" else machine in
  (machine, map tolower sysname).

(** [inr (Some s)] is a failure with [*unparsed = s]. *)
Definition triple_default (unam : option (cstr * cstr)) : triple + option cstr :=
  match unam with
  | None => inr None
  | Some (machine, sysname) =>
      let '(machine, sysname) := filter_unam machine sysname in
      match parse_arch machine with
      | None => inr (Some machine)
      | Some a =>
          match parse_sys sysname with
          | None => inr (Some sysname)
          | Some s => inl (mk_triple a (infer_vendor s) s (infer_abi s))
          end
      end
  end.

(** ** Lemmas *)

(** The parts of a triple joined with dashes. *)
Fixpoint dashed (toks : list cstr) : cstr :=
  match toks with
  | [] => []
  | [t] => t
  | t :: toks => t ++ str "-" ++ dashed toks
  end.

Definition tok_ok (t : cstr) : Prop := t <> [] /\ "-"%char ∉ t.

Lemma strtok_loop_tok t acc s :
  "-"%char ∉ t -> strtok_loop (t ++ s) acc = strtok_loop s (rev t ++ acc).
Proof.
  revert acc. induction t as [|c t IH]; intros acc H; [done|]. simpl.
  assert ((c =c "-"%char) = false) as -> by (apply eqc_false; set_solver).
  rewrite IH by set_solver. by rewrite <- app_assoc.
Qed.

Lemma strtok_dashed toks : Forall tok_ok toks -> strtok_all (dashed toks) = toks.
Proof.
  unfold strtok_all. induction 1 as [|t toks [Hne Hd] Ht IH]; [done|]. cbn [dashed].
  assert (rev t <> []) as Hr by (intros E; apply Hne; rewrite <- (rev_involutive t), E; done).
  destruct toks as [|t2 toks].
  - rewrite <- (app_nil_r t) at 1. rewrite strtok_loop_tok, app_nil_r by done. simpl.
    destruct (rev t) eqn:E; [done|]. by rewrite <- E, rev_involutive.
  - rewrite strtok_loop_tok, app_nil_r by done. simpl.
    destruct (rev t) eqn:E; [done|]. rewrite <- E, rev_involutive. f_equal. exact IH.
Qed.

(** What a token says, in the order the loop asks. *)
Inductive part := PArch (a : arch) | PVendor (v : vendor) | PSys (s : sys) | PAbi (b : abi).

Definition classify (tok : cstr) : option part :=
  match parse_arch tok with
  | Some a => Some (PArch a)
  | None => match parse_vendor tok with
    | Some v => Some (PVendor v)
    | None => match parse_sys tok with
      | Some s => Some (PSys s)
      | None => PAbi <$> parse_abi tok
      end end end.

(** The last part of each kind wins. *)
Definition last_arch (ps : list part) : option arch := last (omap (fun p => match p with PArch a => Some a | _ => None end) ps).
Definition last_vendor (ps : list part) : option vendor := last (omap (fun p => match p with PVendor v => Some v | _ => None end) ps).
Definition last_sys (ps : list part) : option sys := last (omap (fun p => match p with PSys s => Some s | _ => None end) ps).
Definition last_abi (ps : list part) : option abi := last (omap (fun p => match p with PAbi b => Some b | _ => None end) ps).

Definition or_else {A} (a b : option A) : option A := match a with Some _ => a | None => b end.

Lemma last_cons_or {A} (x : A) l : last (x :: l) = or_else (last l) (Some x).
Proof. rewrite last_cons. by destruct (last l). Qed.

Lemma parse_toks_spec toks ps p :
  map classify toks = map Some ps ->
  parse_toks toks p = inl (mk_parsing (or_else (last_arch ps) (p_arch p)) (or_else (last_vendor ps) (p_vendor p))
                                      (or_else (last_sys ps) (p_sys p)) (or_else (last_abi ps) (p_abi p))).
Proof.
  revert ps p. induction toks as [|t toks IH]; intros ps p; destruct ps as [|q ps]; try done.
  - intros _. by destruct p.
  - cbn [map]. intros [= Hq Hps]. cbn [parse_toks]. unfold classify in Hq.
    destruct (parse_arch t); [|destruct (parse_vendor t); [|destruct (parse_sys t); [|destruct (parse_abi t)]]];
      try done; injection Hq as <-; rewrite (IH ps) by done;
      unfold last_arch, last_vendor, last_sys, last_abi; cbn [omap list_omap p_arch p_vendor p_sys p_abi];
      rewrite ?last_cons_or; do 2 f_equal; try done; by destruct (last _).
Qed.

Lemma parse_toks_bad a bad b p :
  (forall t, t ∈ a -> classify t <> None) -> classify bad = None -> parse_toks (a ++ bad :: b) p = inr bad.
Proof.
  intros Ha Hb. revert p. induction a as [|t a IH]; intros p; cbn [app parse_toks].
  - unfold classify in Hb. destruct (parse_arch bad), (parse_vendor bad), (parse_sys bad), (parse_abi bad); done.
  - assert (classify t <> None) as Ht by (apply Ha; set_solver). unfold classify in Ht.
    destruct (parse_arch t), (parse_vendor t), (parse_sys t), (parse_abi t); try done;
      apply IH; intros; apply Ha; set_solver.
Qed.

(** ** Properties *)

(** Printing any triple and parsing the text gives the triple back, and the
    32-byte buffer of [triple_to_str] never truncates it. Without the vendor the
    round trip holds exactly for triples whose vendor is the one inferred from
    the system. *)
Theorem triple_roundtrip (t : triple) :
  triple_parse (triple_to_str t true) = inl t /\
  (triple_parse (triple_to_str t false) = inl t <-> t_vendor t = infer_vendor (t_sys t)) /\
  (forall b, length (triple_to_str t b) < 31)%nat.
Proof.
  destruct t as [[] [] [] []]; (split; [reflexivity|]; split;
    [split; [vm_compute; congruence | intros [=]; reflexivity]
    | intros []; vm_compute; lia]).
Qed.

(** Parsing a dashed list of parts reads every part, in any order: when all
    are known, the last architecture, vendor, system and ABI win, vendor and ABI
    default by system, and a missing architecture or system is an error; else
    the first unknown part is reported. *)
Theorem triple_parse_spec (toks : list cstr) :
  Forall tok_ok toks ->
  (forall ps, map classify toks = map Some ps ->
     triple_parse (dashed toks) =
       match last_arch ps, last_sys ps with
       | None, _ => inr (str "no arch")
       | Some _, None => inr (str "no sys")
       | Some a, Some s =>
           inl (mk_triple a (default (infer_vendor s) (last_vendor ps)) s
                            (default (infer_abi s) (last_abi ps)))
       end) /\
  (forall a bad b, toks = a ++ bad :: b -> (forall t, t ∈ a -> classify t <> None) -> classify bad = None ->
     triple_parse (dashed toks) = inr bad).
Proof.
  intros Ht. unfold triple_parse. rewrite strtok_dashed by done. split.
  - intros ps Hps. rewrite (parse_toks_spec toks ps) by done. cbn [p_arch p_vendor p_sys p_abi].
    destruct (last_arch ps), (last_vendor ps), (last_sys ps), (last_abi ps); done.
  - intros a bad b -> Ha Hb. by rewrite parse_toks_bad.
Qed.

Lemma triple_parse_spec_witness :
  triple_parse (str "amd64-darwin17") = inl (mk_triple ARCH_x86_64 VENDOR_apple SYS_darwin ABI_macho) /\
  triple_parse (str "x86_64-quux-gnu") = inr (str "quux").
Proof.
  split.
  - refine (proj1 (triple_parse_spec [str "amd64"; str "darwin17"] _) [PArch ARCH_x86_64; PSys SYS_darwin] eq_refl).
    repeat constructor; first [discriminate | by vm_compute; intros H; repeat (apply elem_of_cons in H as [H|H]; [discriminate H|]); apply elem_of_nil in H].
  - refine (proj2 (triple_parse_spec [str "x86_64"; str "quux"; str "gnu"] _) [str "x86_64"] (str "quux") [str "gnu"] eq_refl _ eq_refl).
    + repeat constructor; first [discriminate | by vm_compute; intros H; repeat (apply elem_of_cons in H as [H|H]; [discriminate H|]); apply elem_of_nil in H].
    + intros t H. apply list_elem_of_singleton in H as ->. discriminate.
Defined.
