(* ===== verification/Path.v ===== *)
(** * Path canonicalisation

    [src/src/util/path.c]. [canonicalise_path] rewrites its buffer in place: it
    cuts the path at the slashes, keeps pointers to the entries that survive and
    copies them down over the front of the same buffer. The buffer, with its
    terminator, is modelled as a list of characters and an entry as its offset. *)

From S2P Require Import Prelude CStr.

Abbreviation buffer := (list ascii).

(** ** Memory *)

Definition buf_get (b : buffer) (i : nat) : res ascii :=
  match b !! i with Some c => Ok c | None => Ub "read outside the buffer" end.

Definition buf_set (b : buffer) (i : nat) (c : ascii) : res buffer :=
  if i <? length b then Ok (<[i:=c]> b) else Ub "write outside the buffer".

(** The string that starts at an offset ([strcmp], [strlen] read this much). *)
Fixpoint upto_nul (b : buffer) : res cstr :=
  match b with
  | [] => Ub "read outside the buffer"
  | c :: b => if c =c NUL then Ok [] else (s ← upto_nul b; Ok (c :: s))
  end.

Definition str_at (b : buffer) (off : nat) : res cstr := upto_nul (drop off b).

(** [memmove(b + dest, b + src, len)] *)
Definition buf_move (b : buffer) (dest src len : nat) : res buffer :=
  if (src + len <=? length b) && (dest + len <=? length b)
  then Ok (take dest b ++ take len (drop src b) ++ drop (dest + len) b)
  else Ub "memmove outside the buffer".

(** ** Operations *)

Definition slash : ascii := "/"%char.
Definition dot : cstr := str ".".
Definition dotdot : cstr := str "..".

(** [pents] is a dynamic array of entry offsets; [dynarray_pop] of the last
    element leaves NULL, the empty array. *)
Definition canon_add (b : buffer) (pents : list nat) (ent : nat) : res (list nat) :=
  e ← str_at b ent;
  if streq e dot then Ok pents
  else if streq e dotdot then
    match last pents with
    | None => Ok (pents ++ [ent])
    | Some l =>
        le ← str_at b l;
        if streq le dotdot then Ok (pents ++ [ent]) else Ok (removelast pents)
    end
  else Ok (pents ++ [ent]).

(** [for(p = path; *p; p++)]; [n] counts the characters left. *)
Fixpoint cut_loop (n : nat) (b : buffer) (p last : nat) (ents : list nat)
  : res (buffer * nat * nat * list nat) :=
  match n with
  | O => Ok (b, p, last, ents)
  | S n =>
      c ← buf_get b p;
      if c =c slash then
        b ← buf_set b p NUL;
        ents ← (if last <? p then canon_add b ents last else Ok ents);
        cut_loop n b (p + 1) (p + 1) ents
      else cut_loop n b (p + 1) last ents
  end.

Fixpoint copy_loop (ents : list nat) (b : buffer) (dest : nat) : res (buffer * nat) :=
  match ents with
  | [] => Ok (b, dest)
  | i :: ents =>
      s ← str_at b i;
      let len := length s in
      b ← buf_move b dest i len;
      b ← buf_set b (dest + len) slash;
      copy_loop ents b (dest + len + 1)
  end.

(** The buffer on return. *)
Definition canonicalise_buf (path : cstr) : res buffer :=
  let b := path ++ [NUL] in
  let begin_slash := cur path =c slash in
  '(b, p, last, ents) ← cut_loop (length path) b 0 0 [];
  '(ents, trailing_slash) ←
    (if last <? p then (ents ← canon_add b ents last; Ok (ents, false)) else Ok (ents, true));
  '(b, dest) ← (if begin_slash then (b ← buf_set b 0 slash; Ok (b, 1)) else Ok (b, 0));
  '(b, dest) ← copy_loop ents b dest;
  if (trailing_slash : bool) then buf_set b dest NUL
  else match dest with
       | O => Ub "write before the buffer"
       | S d => buf_set b d NUL
       end.

Definition canonicalise_path (path : cstr) : res cstr :=
  b ← canonicalise_buf path; str_at b 0.

(** ** The same on lists of components *)

(** The components between slashes, empty ones included. *)
Fixpoint split_slash (s : cstr) : list cstr :=
  match s with
  | [] => [[]]
  | c :: s =>
      if c =c slash then [] :: split_slash s
      else match split_slash s with [] => [[c]] | w :: ws => (c :: w) :: ws end
  end.

Definition components (s : cstr) : list cstr := filter (fun w => w <> []) (split_slash s).

Definition add_comp (ents : list cstr) (e : cstr) : list cstr :=
  if streq e dot then ents
  else if streq e dotdot then
    match last ents with
    | None => ents ++ [e]
    | Some l => if streq l dotdot then ents ++ [e] else removelast ents
    end
  else ents ++ [e].

Definition normal (comps : list cstr) : list cstr := foldl add_comp [] comps.

(** A path ends in a slash (or is empty). *)
Definition trailing (s : cstr) : bool := match last s with Some c => c =c slash | None => true end.
Definition absolute (s : cstr) : bool := cur s =c slash.

Definition render (abs trail : bool) (ents : list cstr) : cstr :=
  let all := (if abs then [slash] else []) ++ concat (map (fun e => e ++ [slash]) ents) in
  if trail then all else take (length all - 1) all.

(** ** What a path means *)

(** Without symbolic links a path names a number of parents to climb and then a
    list of directories to enter. *)
Definition step (loc : nat * list cstr) (e : cstr) : nat * list cstr :=
  if streq e dot then loc
  else if streq e dotdot then
    match loc.2 with [] => (S loc.1, []) | _ => (loc.1, removelast loc.2) end
  else (loc.1, loc.2 ++ [e]).

Definition resolve (comps : list cstr) : nat * list cstr := foldl step (0, []) comps.

(** ** Strings in the buffer *)

Lemma upto_nul_Ok (b : buffer) (e : cstr) :
  upto_nul b = Ok e <-> NUL ∉ e /\ exists r, b = e ++ NUL :: r.
Proof.
  revert e. induction b as [|c b IH]; intros e; simpl.
  - split; [done | intros (_ & r & H); destruct e; discriminate H].
  - destruct (c =c NUL) eqn:E; [apply eqc_true in E as -> | apply eqc_false in E].
    + split; [intros [= <-]; split; [set_solver | by exists b]|].
      intros (He & r & H). destruct e as [|d e]; [done|]. injection H as <- _. set_solver.
    + rewrite bind_Ok. split.
      * intros (s & Hs & [= <-]). apply IH in Hs as (Hn & r & ->). split; [set_solver|by exists r].
      * intros (He & r & H). destruct e as [|d e]; injection H as -> H; [done|].
        exists e. split; [apply IH; split; [set_solver|by exists r] | done].
Qed.

Lemma str_at_Ok (b : buffer) (o : nat) (e : cstr) :
  str_at b o = Ok e <->
  NUL ∉ e /\ (forall i, i < length e -> b !! (o + i) = e !! i) /\ b !! (o + length e) = Some NUL.
Proof.
  unfold str_at. rewrite upto_nul_Ok. split.
  - intros (Hn & r & H). split; [done|].
    assert (forall i, b !! (o + i) = (e ++ NUL :: r) !! i) as L.
    { intros i. by rewrite <- lookup_drop, H. }
    split; [intros i Hi | ]; rewrite L; [by apply lookup_app_l|].
    by apply list_lookup_middle.
  - intros (Hn & Hl & Hz). split; [done|]. exists (drop (S (o + length e)) b).
    apply list_eq. intros i. rewrite lookup_drop.
    destruct (Nat.lt_ge_cases i (length e)) as [Hi|Hi].
    { rewrite lookup_app_l by done. by apply Hl. }
    rewrite lookup_app_r by done. destruct (i - length e) as [|j] eqn:Ej; simpl.
    + by replace i with (length e) by lia.
    + rewrite lookup_drop. f_equal. lia.
Qed.

(** The entries [names] lie in the buffer at [offs], in order, without
    overlapping, between [lo] and [hi]. *)
Fixpoint held (b : buffer) (lo hi : nat) (offs : list nat) (names : list cstr) : Prop :=
  match offs, names with
  | [], [] => lo <= hi
  | o :: offs, e :: names => lo <= o /\ str_at b o = Ok e /\ held b (o + length e + 1) hi offs names
  | _, _ => False
  end.

Lemma held_lo_hi (b : buffer) (lo hi : nat) (offs : list nat) (names : list cstr) :
  held b lo hi offs names -> lo <= hi.
Proof.
  revert lo names. induction offs as [|o offs IH]; intros lo [|e names]; simpl; try done.
  intros (? & _ & H%IH). lia.
Qed.

Lemma held_hi (b : buffer) (lo hi hi' : nat) (offs : list nat) (names : list cstr) :
  hi <= hi' -> held b lo hi offs names -> held b lo hi' offs names.
Proof.
  intros Hh. revert lo names.
  induction offs as [|o offs IH]; intros lo [|e names]; simpl; try done; [lia|naive_solver].
Qed.

Lemma held_snoc (b : buffer) (lo hi o : nat) (e : cstr) (offs : list nat) (names : list cstr) :
  held b lo hi offs names -> hi <= o -> str_at b o = Ok e ->
  held b lo (o + length e + 1) (offs ++ [o]) (names ++ [e]).
Proof.
  intros H Ho He. revert lo names H.
  induction offs as [|o' offs IH]; intros lo [|e' names]; simpl; try done.
  - intros H. repeat split; [lia|done|done].
  - intros (H1 & H2 & H3). eauto.
Qed.

Lemma held_removelast (b : buffer) (lo hi : nat) (offs : list nat) (names : list cstr) :
  held b lo hi offs names -> held b lo hi (removelast offs) (removelast names).
Proof.
  revert lo names. induction offs as [|o offs IH]; intros lo [|e names]; simpl; try done.
  intros (H1 & H2 & H3). pose proof (held_lo_hi _ _ _ _ _ H3).
  destruct offs as [|o' offs], names as [|e' names]; try done; [simpl in *; lia|].
  split; [done|]. split; [done|]. exact (IH _ _ H3).
Qed.

Lemma held_last (b : buffer) (lo hi : nat) (offs : list nat) (names : list cstr) :
  held b lo hi offs names ->
  match last offs, last names with
  | None, None => True
  | Some l, Some le => str_at b l = Ok le
  | _, _ => False
  end.
Proof.
  revert lo names. induction offs as [|o offs IH]; intros lo [|e names]; simpl; try done.
  intros (H1 & H2 & H3). destruct offs, names; simpl in *; try done. by eapply IH.
Qed.

(** Changing the buffer outside [lo .. hi) does not disturb the entries. *)
Lemma held_frame (b b' : buffer) (lo hi : nat) (offs : list nat) (names : list cstr) :
  (forall i, lo <= i < hi -> b !! i = b' !! i) ->
  held b lo hi offs names -> held b' lo hi offs names.
Proof.
  revert lo names. induction offs as [|o offs IH]; intros lo [|e names]; simpl; try done.
  intros Hb (H1 & H2 & H3). pose proof (held_lo_hi _ _ _ _ _ H3).
  apply str_at_Ok in H2 as (Hn & Hl & Hz).
  split; [done|]. split.
  - apply str_at_Ok. split; [done|]. split; [intros i Hi|]; rewrite <- Hb by lia; eauto.
  - apply IH; [|done]. intros i Hi. apply Hb. lia.
Qed.

(** ** Cutting *)

Lemma canon_add_held (b : buffer) (lo hi o : nat) (e : cstr) (offs : list nat) (names : list cstr) :
  held b lo hi offs names -> hi <= o -> str_at b o = Ok e ->
  exists offs', canon_add b offs o = Ok offs' /\
    held b lo (o + length e + 1) offs' (add_comp names e).
Proof.
  intros H Ho He. unfold canon_add, add_comp. rewrite He. run.
  pose proof (held_snoc _ _ _ _ _ _ _ H Ho He) as Hs.
  assert (held b lo (o + length e + 1) offs names) as Hk by (eapply held_hi; [|done]; lia).
  destruct (streq e dot); [by eexists|].
  destruct (streq e dotdot); [|by eexists].
  pose proof (held_last _ _ _ _ _ H) as L.
  destruct (last offs) as [l|], (last names) as [le|]; try done; [|by eexists].
  rewrite L. run. destruct (streq le dotdot); [by eexists|].
  eexists. split; [done|]. by apply held_removelast.
Qed.

Lemma split_slash_word (w : cstr) (s : cstr) :
  slash ∉ w -> split_slash (w ++ slash :: s) = w :: split_slash s.
Proof.
  induction w as [|c w IH]; simpl; [done|]. intros H.
  rewrite (proj2 (eqc_false c slash)) by set_solver. rewrite IH by set_solver. done.
Qed.

Lemma split_slash_end (w : cstr) : slash ∉ w -> split_slash w = [w].
Proof.
  induction w as [|c w IH]; simpl; [done|]. intros H.
  rewrite (proj2 (eqc_false c slash)) by set_solver. rewrite IH by set_solver. done.
Qed.

Lemma filter_nonempty (w : cstr) (ws : list cstr) :
  filter (fun w => w <> []) (w :: ws) =
  (if bool_decide (w = []) then [] else [w]) ++ filter (fun w => w <> []) ws.
Proof.
  case_bool_decide; [by rewrite filter_cons_False by naive_solver | by rewrite filter_cons_True].
Qed.

(** The state of the scan: [w] is the part already read of the current word,
    [s] what follows. *)
Lemma cut_loop_spec (s w : cstr) (b : buffer) (lo hi l : nat)
    (offs : list nat) (names : list cstr) :
  held b lo hi offs names -> hi <= l -> slash ∉ w -> NUL ∉ w ++ s ->
  drop l b = w ++ s ++ [NUL] ->
  exists b' l' offs' names' w',
    cut_loop (length s) b (l + length w) l offs
      = Ok (b', l + length w + length s, l', offs') /\
    held b' lo l' offs' names' /\ str_at b' l' = Ok w' /\
    length b' = length b /\ l' + length w' = l + length w + length s /\
    trailing (w ++ s) = bool_decide (w' = []) /\
    foldl add_comp names (components (w ++ s))
      = if bool_decide (w' = []) then names' else add_comp names' w'.
Proof.
  revert w b hi l offs names.
  induction s as [|c s IH]; intros w b hi l offs names Hh Hl Hw Hn Hb.
  - rewrite app_nil_r in *. simpl in Hb.
    exists b, l, offs, names, w. simpl. rewrite !Nat.add_0_r.
    split; [done|]. split; [by eapply held_hi|]. split.
    { apply upto_nul_Ok. split; [done|]. by exists []. }
    split; [done|]. split; [done|]. split.
    + unfold trailing. destruct (last w) as [z|] eqn:El'.
      * case_bool_decide as E; [by subst|]. apply eqc_false. intros ->.
        apply last_Some_elem_of in El'. done.
      * by apply last_None in El' as ->.
    + unfold components. rewrite split_slash_end by done.
      rewrite filter_nonempty. by case_bool_decide.
  - assert (length (drop l b) = length w + (length s + 2)) as El
      by (rewrite Hb; simpl; rewrite !length_app; simpl; rewrite length_app; simpl; lia).
    rewrite length_drop in El.
    assert (b !! (l + length w) = Some c) as Hc
      by (rewrite <- lookup_drop, Hb; by apply list_lookup_middle).
    cbn [cut_loop length]. unfold buf_get. rewrite Hc. run.
    destruct (c =c slash) eqn:Ec.
    + apply eqc_true in Ec as ->. unfold buf_set. if_true. run.
      set (b1 := <[l + length w := NUL]> b).
      assert (forall i, i <> l + length w -> b !! i = b1 !! i) as Hb1
        by (intros i Hi; symmetry; by apply list_lookup_insert_ne).
      assert (length b1 = length b) as Lb1 by apply length_insert.
      assert (drop (l + length w + 1) b1 = s ++ [NUL]) as Hd.
      { replace (drop (l + length w + 1) b1) with (drop (l + length w + 1) b)
          by (apply list_eq; intros i; rewrite !lookup_drop; apply Hb1; lia).
        rewrite <- Nat.add_assoc, <- drop_drop, Hb.
        rewrite drop_app. replace (length w + 1 - length w) with 1 by lia.
        rewrite drop_ge by lia. done. }
      assert (str_at b1 l = Ok w) as Hsw.
      { apply str_at_Ok. split; [set_solver|]. split.
        - intros i Hi. rewrite <- Hb1 by lia. rewrite <- lookup_drop, Hb.
          by apply lookup_app_l.
        - unfold b1. apply list_lookup_insert_eq. lia. }
      assert (held b1 lo hi offs names) as Hh1
        by (eapply held_frame; [|done]; intros i Hi; apply Hb1; lia).
      assert (trailing (w ++ slash :: s) = trailing s) as Tr.
      { unfold trailing. rewrite last_app_cons, last_cons. by destruct (last s). }
      assert (exists offs1 hi1, (if l <? l + length w then canon_add b1 offs l else Ok offs) = Ok offs1 /\
        hi1 <= l + length w + 1 /\
        held b1 lo hi1 offs1 (if bool_decide (w = []) then names else add_comp names w))
        as (offs1 & hi1 & Ho & Hi & Hk).
      { case_bool_decide as E.
        - subst. simpl. if_false. exists offs, hi. split; [done|]. split; [lia|done].
        - destruct w as [|x w]; [done|]. if_true.
          edestruct canon_add_held as (offs1 & -> & Hk); [exact Hh1|exact Hl|exact Hsw|].
          exists offs1, (l + length (x :: w) + 1). split; [done|]. split; [lia|done]. }
      rewrite Ho. run.
      destruct (IH [] b1 hi1 (l + length w + 1) offs1
                  (if bool_decide (w = []) then names else add_comp names w))
        as (b' & l' & offs' & names' & w' & R & H1 & H2 & H3 & H4 & H5 & H6);
        [done|done|set_solver|set_solver|done|].
      simpl in R, H5, H6. rewrite Nat.add_0_r in R.
      exists b', l', offs', names', w'. rewrite R.
      cbn [length].
      replace (l + length w + S (length s)) with (l + length w + 1 + length s) by lia.
      split; [done|]. split; [done|]. split; [done|]. split; [lia|].
      split; [simpl in *; lia|]. rewrite Tr. split; [done|]. rewrite <- H6.
      unfold components. rewrite split_slash_word by done. rewrite filter_nonempty.
      by case_bool_decide.
    + apply eqc_false in Ec.
      destruct (IH (w ++ [c]) b hi l offs names)
        as (b' & l' & offs' & names' & w' & R & H); [done|done|set_solver| |by rewrite <- app_assoc|].
      { by rewrite <- app_assoc. }
      rewrite <- app_assoc in H. simpl in H.
      rewrite length_app in R, H. simpl in R, H. rewrite Nat.add_assoc in R, H.
      exists b', l', offs', names', w'. rewrite R.
      replace (l + length w + S (length s)) with (l + length w + 1 + length s) by lia.
      split; [done|exact H].
Qed.

(** ** Copying down *)

Definition body (names : list cstr) : cstr := concat (map (fun e => e ++ [slash]) names).

Lemma body_length (b : buffer) (lo hi : nat) (offs : list nat) (names : list cstr) :
  held b lo hi offs names -> lo + length (body names) <= hi.
Proof.
  revert lo names. induction offs as [|o offs IH]; intros lo [|e names]; simpl; try done; [lia|].
  intros (H1 & _ & H3%IH). unfold body in *. simpl. rewrite !length_app. simpl. lia.
Qed.

Lemma buf_move_set (b : buffer) (dest o : nat) (e : cstr) (c : ascii) :
  dest <= o -> str_at b o = Ok e ->
  (b1 ← buf_move b dest o (length e); buf_set b1 (dest + length e) c)
  = Ok (take dest b ++ e ++ c :: drop (dest + length e + 1) b) /\
  dest + length e < length b.
Proof.
  intros Hd (Hn & r & Hb)%upto_nul_Ok.
  assert (length (drop o b) = length e + S (length r)) as El by (by rewrite Hb, length_app).
  rewrite length_drop in El. split; [|lia].
  unfold buf_move. if_true. run. rewrite Hb, take_app_length.
  destruct (lookup_lt_is_Some_2 b (dest + length e)) as [x Hx]; [lia|].
  rewrite (drop_S b x) by done. rewrite app_assoc.
  assert (length (take dest b ++ e) = dest + length e) as Ed
    by (rewrite length_app, length_take; lia).
  unfold buf_set. rewrite !length_app in *. simpl. if_true. f_equal.
  rewrite insert_app_r_alt by (rewrite length_app; lia).
  rewrite length_app, Ed, Nat.sub_diag. simpl. rewrite <- app_assoc.
  by rewrite Nat.add_1_r.
Qed.

Lemma copy_loop_spec (b : buffer) (lo hi dest : nat) (offs : list nat) (names : list cstr) :
  held b lo hi offs names -> dest <= lo -> hi <= length b ->
  exists b', copy_loop offs b dest = Ok (b', dest + length (body names)) /\
    length b' = length b /\ take (dest + length (body names)) b' = take dest b ++ body names.
Proof.
  revert b lo dest names. induction offs as [|o offs IH]; intros b lo dest [|e names] H Hd Hl;
    simpl in H; try done.
  - exists b. cbn [copy_loop]. rewrite Nat.add_0_r, app_nil_r. done.
  - destruct H as (H1 & H2 & H3). cbn [copy_loop]. rewrite H2. run.
    pose proof (held_lo_hi _ _ _ _ _ H3) as Hlh.
    destruct (buf_move_set b dest o e slash) as (R & Hde); [lia|done|].
    set (b2 := take dest b ++ e ++ slash :: drop (dest + length e + 1) b) in R.
    assert (length b2 = length b) as L2.
    { unfold b2. rewrite !length_app. simpl. rewrite length_take, length_drop. lia. }
    assert (take (dest + length e + 1) b2 = take dest b ++ e ++ [slash]) as T2.
    { unfold b2. rewrite cons_middle, !app_assoc.
      apply take_app_length'. rewrite !length_app, length_take. simpl. lia. }
    assert (drop (dest + length e + 1) b2 = drop (dest + length e + 1) b) as D2.
    { unfold b2. rewrite cons_middle, !app_assoc.
      apply drop_app_length'. rewrite !length_app, length_take. simpl. lia. }
    destruct (buf_move b dest o (length e)) as [b1| | | |] eqn:Em; try discriminate R.
    change (buf_set b1 (dest + length e) slash = Ok b2) in R. run. rewrite R. run.
    destruct (IH b2 (o + length e + 1) (dest + length e + 1) names) as (b' & C & Lb & T);
      [|lia|lia|].
    { eapply held_frame; [|exact H3]. intros i Hi.
      replace i with (dest + length e + 1 + (i - (dest + length e + 1))) by lia.
      by rewrite <- !lookup_drop, D2. }
    assert (length (body (e :: names)) = length e + 1 + length (body names)) as Lc
      by (unfold body; simpl; rewrite !length_app; simpl; lia).
    exists b'. rewrite C, Lc.
    replace (dest + (length e + 1 + length (body names)))
      with (dest + length e + 1 + length (body names)) by lia.
    split; [done|]. split; [lia|]. rewrite T2 in T.
    rewrite T. unfold body. simpl. by rewrite <- !app_assoc.
Qed.

(** ** The whole run *)

Definition in_bounds (path : cstr) : bool :=
  trailing path || absolute path || negb (bool_decide (normal (components path) = [])).

Lemma cstr_take_nul (b : buffer) (s : cstr) (d : nat) :
  NUL ∉ s -> take d b = s -> d < length b -> str_at (<[d:=NUL]> b) 0 = Ok s.
Proof.
  intros Hn <- Hd. apply upto_nul_Ok. split; [done|].
  exists (drop (S d) b). simpl. rewrite insert_take_drop by done. done.
Qed.

(** What the scan leaves behind. *)
Lemma cut_from_start (path : cstr) :
  NUL ∉ path ->
  exists b' l' offs' names' w',
    cut_loop (length path) (path ++ [NUL]) 0 0 [] = Ok (b', length path, l', offs') /\
    held b' (if absolute path then 1 else 0) l' offs' names' /\ str_at b' l' = Ok w' /\
    length b' = length path + 1 /\ l' + length w' = length path /\
    trailing path = bool_decide (w' = []) /\
    normal (components path) = if bool_decide (w' = []) then names' else add_comp names' w'.
Proof.
  intros Hn. destruct (absolute path) eqn:Ea; unfold absolute in Ea.
  - destruct path as [|c s]; [discriminate Ea|]. simpl in Ea. apply eqc_true in Ea as ->.
    destruct (cut_loop_spec s [] (NUL :: s ++ [NUL]) 1 1 1 [] [])
      as (b' & l' & offs' & names' & w' & R & H1 & H2 & H3 & H4 & H5 & H6);
      [simpl; lia|done|set_solver|set_solver|done|].
    exists b', l', offs', names', w'. simpl length in *.
    split.
    { cbn [cut_loop]. unfold buf_get. simpl lookup. run. rewrite (proj2 (eqc_true slash slash) eq_refl).
      unfold buf_set. if_true. run. simpl in R |- *. exact R. }
    split; [done|]. split; [done|]. rewrite length_app in H3; simpl in H3.
    split; [lia|]. split; [lia|]. split; [|exact H6].
    rewrite <- H5. unfold trailing. rewrite last_cons. simpl. by destruct (last s).
  - destruct (cut_loop_spec path [] (path ++ [NUL]) 0 0 0 [] [])
      as (b' & l' & offs' & names' & w' & R & H1 & H2 & H3 & H4 & H5 & H6);
      [simpl; lia|done|set_solver|done|done|].
    exists b', l', offs', names', w'. rewrite length_app in H3. simpl in *. done.
Qed.

Lemma render_length (abs trail : bool) (names : list cstr) :
  render abs trail names =
  let all := (if abs then [slash] else []) ++ body names in
  take (length all - if trail then 0 else 1) all.
Proof.
  unfold render. destruct trail; [|done]. cbv zeta. by rewrite Nat.sub_0_r, firstn_all.
Qed.

Lemma body_nul_free (b : buffer) (lo hi : nat) (offs : list nat) (names : list cstr) :
  held b lo hi offs names -> NUL ∉ body names.
Proof.
  revert lo names. induction offs as [|o offs IH]; intros lo [|e names]; simpl; try done; [set_solver|].
  intros (_ & (Hn & _)%str_at_Ok & H%IH). unfold body. simpl. rewrite !elem_of_app.
  set_solver.
Qed.

(** The copy and the terminator, from a buffer that holds the final entries. *)
Lemma finish_spec (path : cstr) (b : buffer) (hi : nat) (offs : list nat) (names : list cstr)
    (trail : bool) :
  held b (if absolute path then 1 else 0) hi offs names ->
  hi + (if trail then 1 else 0) <= length b -> 0 < length b ->
  ('(b, dest) ← (if cur path =c slash then (b ← buf_set b 0 slash; Ok (b, 1)) else Ok (b, 0));
   '(b, dest) ← copy_loop offs b dest;
   if (trail : bool) then buf_set b dest NUL
   else match dest with O => Ub "write before the buffer" | S d => buf_set b d NUL end) ≫=
    (fun b => str_at b 0)
  = if trail || absolute path || negb (bool_decide (names = []))
    then Ok (render (absolute path) trail names) else Ub "write before the buffer".
Proof.
  intros H Hl Hz. rewrite render_length. unfold absolute in *.
  pose proof (body_length _ _ _ _ _ H) as Hb. pose proof (body_nul_free _ _ _ _ _ H) as Hn.
  set (d0 := if cur path =c slash then 1 else 0) in *.
  assert (exists b0, (if cur path =c slash then (b ← buf_set b 0 slash; Ok (b, 1)) else Ok (b, 0)) = Ok (b0, d0)
    /\ length b0 = length b /\ take d0 b0 = (if cur path =c slash then [slash] else [])
    /\ held b0 d0 hi offs names) as (b0 & -> & L0 & T0 & H0).
  { unfold d0 in *. destruct (cur path =c slash) eqn:E; [|by exists b].
    unfold buf_set. if_true. run. eexists. split; [done|]. split; [apply length_insert|].
    split; [destruct b; [simpl in *; lia|done]|].
    eapply held_frame; [|done]. intros i Hi. rewrite list_lookup_insert_ne by lia. done. }
  run. destruct (copy_loop_spec _ _ _ d0 _ _ H0) as (b1 & -> & L1 & T1); [done|lia|].
  run. rewrite T0 in T1. set (all := (if cur path =c slash then [slash] else []) ++ body names) in *.
  assert (length all = d0 + length (body names)) as La
    by (unfold all, d0; rewrite length_app; by destruct (cur path =c slash)).
  assert (NUL ∉ all) as Na.
  { unfold all. rewrite elem_of_app. intros [Hs|Hs]; [|done].
    destruct (cur path =c slash); set_solver. }
  rewrite <- La in *.
  assert (forall d, d <= length all -> d < length b -> (buf_set b1 d NUL ≫= fun b => str_at b 0) = Ok (take d all)) as W.
  { intros d Hd Hd'. unfold buf_set. if_true. run. apply cstr_take_nul; [|by rewrite <- T1, take_take, Nat.min_l|lia].
    intros Hi. apply Na. eapply subseteq_take; exact Hi. }
  destruct trail; simpl.
  - rewrite Nat.sub_0_r. apply W; lia.
  - destruct (length all) as [|d] eqn:Ed.
    + destruct (cur path =c slash) eqn:E; [unfold d0 in La; lia|].
      destruct names as [|e names]; [done|].
      unfold body in La. simpl in La. rewrite !length_app in La. simpl in La. lia.
    + rewrite W by lia. simpl. rewrite Nat.sub_0_r.
      destruct (cur path =c slash) eqn:E; [done|]. simpl.
      case_bool_decide as En; [|done]. subst. unfold body, d0 in *. simpl in La. lia.
Qed.

(** The result as the entries are written out, and where it is not in the
    buffer. *)
Lemma canonicalise_run (path : cstr) :
  NUL ∉ path ->
  canonicalise_path path =
    if in_bounds path then Ok (render (absolute path) (trailing path) (normal (components path)))
    else Ub "write before the buffer".
Proof.
  intros Hn. unfold canonicalise_path, canonicalise_buf, in_bounds.
  destruct (cut_from_start path Hn) as (b & l & offs & names & w & -> & H1 & H2 & H3 & H4 & H5 & H6).
  run. rewrite H5, H6. case_bool_decide as Ew.
  - subst w. simpl in H4. if_false. run.
    eapply (finish_spec path b l offs names true); [done|lia|lia].
  - destruct w as [|x w]; [done|]. if_true.
    edestruct canon_add_held as (offs' & -> & Hk); [exact H1|done|exact H2|].
    run. eapply (finish_spec path b _ offs' _ false); [exact Hk|lia|lia].
Qed.

Lemma body_join (names : list cstr) : names <> [] -> body names = str_join names [slash] ++ [slash].
Proof.
  unfold body. induction names as [|e names IH]; [done|]. intros _. destruct names as [|f names]; [by cbn; rewrite app_nil_r|].
  cbn [map concat str_join] in *. rewrite IH by done. by rewrite <- !app_assoc.
Qed.

(** C39: [canonicalise_path] computes, in place, the path with its empty and "."
    components dropped and every ".." that follows a real component cancelled
    against it. Where components are left, they come out joined by slashes,
    after a slash exactly if the path began with one and before one exactly if
    it ended with one (or was empty); the copy never overtakes the entries it
    still has to read, and every access lies in the buffer. Where all cancel,
    the slash survives only in a path with both a leading and a trailing one:
    with one of them the result is empty, though an absolute path such as
    "/a/.." named the root, and with neither the terminator is written before
    the buffer. *)
Theorem canonicalise_path_spec (path : cstr) :
  NUL ∉ path ->
  let names := normal (components path) in
  (names <> [] ->
   canonicalise_path path =
     Ok ((if absolute path then [slash] else []) ++ str_join names [slash] ++ (if trailing path then [slash] else []))) /\
  (names = [] ->
   canonicalise_path path =
     match absolute path, trailing path with
     | true, true => Ok [slash]
     | true, false | false, true => Ok []
     | false, false => Ub "write before the buffer"
     end).
Proof.
  intros Hn names. rewrite canonicalise_run by done. unfold in_bounds. fold names.
  split; intros H.
  - rewrite (bool_decide_eq_false_2 (names = [])) by done. cbn [negb]. rewrite orb_true_r.
    rewrite render_length. cbv zeta. rewrite body_join by done. rewrite app_assoc. f_equal.
    destruct (trailing path).
    + rewrite Nat.sub_0_r, firstn_all. by rewrite <- app_assoc.
    + rewrite length_app. cbn [length]. rewrite Nat.add_sub, take_app_length. by rewrite app_nil_r.
  - rewrite (bool_decide_eq_true_2 (names = [])) by done. rewrite H. cbn [negb]. rewrite orb_false_r.
    by destruct (absolute path), (trailing path).
Qed.

Lemma canonicalise_path_spec_witness :
  NUL ∉ str "/a/./b/../c" /\ canonicalise_path (str "/a/./b/../c") = Ok (str "/a/c") /\
  canonicalise_path (str "/a/..") = Ok [].
Proof.
  assert (NUL ∉ str "/a/./b/../c") as H by by_decide. assert (NUL ∉ str "/a/..") as K by by_decide.
  split; [exact H|]. split.
  - rewrite (proj1 (canonicalise_path_spec _ H)) by discriminate. reflexivity.
  - by rewrite (proj2 (canonicalise_path_spec _ K)).
Defined.

(** ** Canonical paths name the same place *)

Definition plain (e : cstr) : Prop := e <> [] /\ e <> dot /\ e <> dotdot /\ slash ∉ e /\ NUL ∉ e.

Lemma streq_true (a b : cstr) : streq a b = true <-> a = b.
Proof. apply bool_decide_eq_true. Qed.

Lemma removelast_snoc {A} (l : list A) (x : A) : removelast (l ++ [x]) = l.
Proof. by rewrite removelast_app, app_nil_r. Qed.

(** The entries [canon_add] keeps are the climbs still owed, then the
    directories entered. *)
Lemma normal_resolve (comps : list cstr) :
  Forall (fun e => e <> [] /\ slash ∉ e /\ NUL ∉ e) comps ->
  normal comps = replicate (resolve comps).1 dotdot ++ (resolve comps).2 /\
  Forall plain (resolve comps).2.
Proof.
  unfold normal, resolve.
  induction comps as [|e comps IH] using rev_ind; [done|].
  rewrite Forall_app, Forall_singleton. intros (Hc & H1 & H2 & H3).
  destruct (IH Hc) as (E & P). rewrite !foldl_app. simpl. rewrite E.
  destruct (foldl step (0, []) comps) as [k ws]. simpl in *.
  unfold add_comp, step. simpl.
  destruct (streq e dot) eqn:Ed; [done|].
  destruct (streq e dotdot) eqn:Edd.
  - apply streq_true in Edd as ->.
    destruct ws as [|x ws _] using rev_ind.
    + rewrite !app_nil_r. simpl. split; [|done].
      destruct k as [|k]; [done|]. rewrite replicate_S_end, last_snoc. simpl.
      rewrite <- replicate_S_end. by rewrite <- (replicate_S_end (S k)).
    + apply Forall_app in P as (P & Px). rewrite Forall_singleton in Px.
      rewrite app_assoc, last_snoc, removelast_snoc.
      destruct (streq x dotdot) eqn:Ex; [apply streq_true in Ex as ->; unfold plain in Px; naive_solver|].
      destruct (ws ++ [x]) eqn:Ew; [by destruct ws|]. rewrite <- Ew, removelast_snoc. done.
  - simpl. rewrite <- app_assoc. split; [done|]. apply Forall_app. split; [done|].
    apply Forall_singleton. repeat split; try done; intros ->; [done | by vm_compute in Edd].
Qed.

Lemma components_ok (s : cstr) :
  NUL ∉ s -> Forall (fun e => e <> [] /\ slash ∉ e /\ NUL ∉ e) (components s).
Proof.
  intros Hn. unfold components. apply Forall_forall. intros e (He & Hs)%list_elem_of_filter.
  split; [done|]. revert e He Hs.
  assert (Forall (fun e => slash ∉ e /\ NUL ∉ e) (split_slash s)) as F.
  { induction s as [|c s IH]; simpl; [repeat constructor; set_solver|].
    destruct (c =c slash) eqn:Ec; [constructor; [split; set_solver | apply IH; set_solver]|].
    apply eqc_false in Ec.
    assert (Forall (fun e => slash ∉ e /\ NUL ∉ e) (split_slash s)) as F by (apply IH; set_solver).
    destruct (split_slash s); inversion F; subst; constructor; set_solver. }
  intros e _ Hs. rewrite Forall_forall in F. by apply F.
Qed.

Lemma components_body (names : list cstr) (w : cstr) :
  Forall (fun e => e <> [] /\ slash ∉ e /\ NUL ∉ e) names -> slash ∉ w ->
  components (body names ++ w) = names ++ (if bool_decide (w = []) then [] else [w]).
Proof.
  intros F Hw. induction F as [|e names (He & Hs & _) F IH].
  - unfold components. simpl. rewrite split_slash_end by done. rewrite filter_nonempty.
    by rewrite app_nil_r.
  - unfold body, components in *. simpl. rewrite <- app_assoc. simpl. rewrite <- app_assoc. simpl.
    rewrite split_slash_word by done. rewrite filter_nonempty, IH.
    by rewrite bool_decide_false.
Qed.

Lemma components_slash (s : cstr) : components (slash :: s) = components s.
Proof. done. Qed.

(** A rendered path reads back: same components, same slashes at both ends. *)
Lemma render_parse (abs trail : bool) (names : list cstr) :
  names <> [] -> Forall (fun e => e <> [] /\ slash ∉ e /\ NUL ∉ e) names ->
  components (render abs trail names) = names /\
  absolute (render abs trail names) = abs /\
  trailing (render abs trail names) = trail /\ NUL ∉ render abs trail names.
Proof.
  intros Hne F. destruct names as [|e names _] using rev_ind; [done|].
  apply Forall_app in F as (F & Fe). apply Forall_singleton in Fe as (He & Hs & Hz).
  set (hd := if abs then [slash] else []).
  assert (body (names ++ [e]) = (body names ++ e) ++ [slash]) as Eb
    by (unfold body; rewrite map_app, concat_app; simpl; by rewrite app_nil_r, app_assoc).
  assert (render abs trail (names ++ [e]) =
    hd ++ body names ++ e ++ (if trail then [slash] else [])) as R.
  { rewrite render_length. cbv zeta. fold hd. rewrite Eb, !app_assoc.
    rewrite length_app. simpl.
    destruct trail; [rewrite Nat.sub_0_r, take_ge by (rewrite !length_app; simpl; lia); done|].
    rewrite Nat.add_sub, take_app_length. by rewrite app_nil_r. }
  rewrite R. split; [|split; [|split]].
  - assert (components (hd ++ body names ++ e ++ (if trail then [slash] else []))
      = components (body names ++ e ++ (if trail then [slash] else []))) as -> by (by destruct abs).
    destruct trail.
    + rewrite (app_assoc (body names)), <- Eb, <- (app_nil_r (body _)).
      rewrite components_body; [by rewrite app_nil_r| |set_solver].
      apply Forall_app. by rewrite Forall_singleton.
    + rewrite app_nil_r, components_body by done. by rewrite bool_decide_false.
  - unfold absolute, hd. destruct abs; [done|]. simpl.
    destruct names as [|e' names]; simpl.
    + destruct e as [|c e]; [done|]. simpl. apply eqc_false. set_solver.
    + inversion F as [|? ? (? & ? & _)]; subst. destruct e' as [|c e']; [done|].
      simpl. apply eqc_false. set_solver.
  - unfold trailing. destruct trail.
    + rewrite !app_assoc, last_snoc. done.
    + rewrite app_nil_r. destruct e as [|c e _] using rev_ind; [done|].
      rewrite !app_assoc, last_snoc. apply eqc_false. set_solver.
  - assert (NUL ∉ body names).
    { clear Eb R Hne. induction F as [|e' names (_ & _ & ?) F IH]; unfold body in *; simpl; set_solver. }
    unfold hd. destruct abs, trail; set_solver.
Qed.

Lemma resolve_normal (comps : list cstr) :
  Forall (fun e => e <> [] /\ slash ∉ e /\ NUL ∉ e) comps ->
  resolve (normal comps) = resolve comps.
Proof.
  intros (E & P)%normal_resolve. rewrite E.
  destruct (resolve comps) as [k ws]. simpl in *. unfold resolve. rewrite foldl_app.
  assert (forall n j, foldl step (j, []) (replicate n dotdot) = (j + n, [])) as R.
  { induction n as [|n IH]; intros j; simpl; [by rewrite Nat.add_0_r|].
    unfold step at 2. simpl. rewrite IH. f_equal. lia. }
  rewrite R. simpl. clear R E. induction ws as [|w ws IH] using rev_ind; [done|].
  rewrite Forall_app, Forall_singleton in P. destruct P as (P & _ & P1 & P2 & _).
  specialize (IH P).
  rewrite foldl_app, IH. simpl. unfold step.
  rewrite (proj2 (bool_decide_eq_false _) P1 : streq w dot = false).
  rewrite (proj2 (bool_decide_eq_false _) P2 : streq w dotdot = false). done.
Qed.

(** a path and its canonical form name the same place - the same number of
    parents to climb, then the same directories to enter, from the same root -
    and keep their trailing slash; and canonicalising again changes nothing. *)
Theorem canonicalise_same_place (path q : cstr) :
  NUL ∉ path -> normal (components path) <> [] -> canonicalise_path path = Ok q ->
  resolve (components q) = resolve (components path) /\
  absolute q = absolute path /\ trailing q = trailing path /\
  canonicalise_path q = Ok q.
Proof.
  intros Hn Hne. rewrite canonicalise_run by done.
  destruct (in_bounds path); [|done]. intros [= <-].
  pose proof (components_ok path Hn) as Fc.
  pose proof (normal_resolve _ Fc) as (E & P).
  assert (Forall (fun e => e <> [] /\ slash ∉ e /\ NUL ∉ e) (normal (components path))) as F.
  { rewrite E. apply Forall_app. split; [|eapply Forall_impl; [done|]; unfold plain; naive_solver].
    apply Forall_replicate. split; [done|]. split; by_decide. }
  destruct (render_parse (absolute path) (trailing path) _ Hne F) as (R1 & R2 & R3 & R4).
  split; [by rewrite R1, resolve_normal|]. split; [done|]. split; [done|].
  rewrite canonicalise_run by done. unfold in_bounds. rewrite R1, R2, R3.
  assert (normal (normal (components path)) = normal (components path)) as I.
  { rewrite (proj1 (normal_resolve _ F)), resolve_normal by done. by rewrite <- E. }
  rewrite I, bool_decide_false by done. by rewrite orb_true_r.
Qed.

Lemma canonicalise_same_place_witness :
  canonicalise_path (str "../x/../a/./b/") = Ok (str "../a/b/") /\
  resolve (components (str "../a/b/")) = resolve (components (str "../x/../a/./b/")).
Proof.
  split; [reflexivity|].
  refine (proj1 (canonicalise_same_place (str "../x/../a/./b/") (str "../a/b/") _ _ _));
    [by_decide | by_decide | reflexivity].
Defined.

Example canon_ex : canonicalise_path (str "./a//b/../../../c/./d") = Ok (str "../c/d").
Proof. reflexivity. Qed.
Example canon_abs : canonicalise_path (str "/usr/./include/../lib/") = Ok (str "/usr/lib/").
Proof. reflexivity. Qed.

(** The paths that fall outside: these write before the buffer or lose the root. *)
Example canon_dot : canonicalise_path (str ".") = Ub "write before the buffer".
Proof. reflexivity. Qed.
Example canon_cancel : canonicalise_path (str "inc/..") = Ub "write before the buffer".
Proof. reflexivity. Qed.
Example canon_root : canonicalise_path (str "/a/..") = Ok [].
Proof. reflexivity. Qed.
