(* ===== verification/Escape.v ===== *)
(** * Numbers and escape sequences

    [src/src/util/escape.c]: reading digits in a base with [_] separators and
    overflow detection, and decoding the escapes of character and string
    literals. Pointers into the input are the suffixes they point at. *)

From S2P Require Import Prelude.
Open Scope Z_scope.

Inductive base := BIN | OCT | DEC | HEX.

(** The [errno] values reported through [warn] and [err]; 0 is [Enone]. *)
Inductive errno := Enone | EINVAL | ERANGE | EILSEQ | E2BIG.

#[global] Instance base_eq_dec : EqDecision base.
Proof. solve_decision. Defined.
#[global] Instance errno_eq_dec : EqDecision errno.
Proof. solve_decision. Defined.

Abbreviation digit_test := (ascii -> bool).

Definition escapechars : list (ascii * Z) :=
  [ ("n"%char, 10); ("t"%char, 9); ("b"%char, 8); ("r"%char, 13); ("v"%char, 11);
    ("f"%char, 12); ("0"%char, 0); ("a"%char, 7); ("e"%char, 27); (bslash, 92);
    (squote, 39); ("?"%char, 63); (dquote, 34) ].

Fixpoint escape_find (tbl : list (ascii * Z)) (c : ascii) : Z :=
  match tbl with
  | [] => -1
  | (from, to) :: tbl => if from =c c then to else escape_find tbl c
  end.

Definition escape_char1 (c : ascii) : Z := escape_find escapechars c.

(** The new [*val], and whether an overflow was noticed. *)
Definition inc_and_chk (val base inc : Z) : Z * bool :=
  let new := u64 (u64 (val * base) + inc) in
  (new, (new <? val) || (u64 (val * base) <? val)).

Fixpoint skip_while (test : digit_test) (s : cstr) : cstr :=
  match s with
  | [] => []
  | c :: s' => if test c then skip_while test s' else s
  end.

Definition overflow_handle (s : cstr) (test : digit_test) : cstr := skip_while test s.

Definition digit_val (c : ascii) : Z :=
  if isdigit c then code c - code "0" else code (tolower c) - code "a" + 10.

Definition underscore (c : ascii) : bool := c =c "_"%char.

(** The value, [*end] and [*of]. Every round eats a digit. *)
Fixpoint read_loop (fuel : nat) (test : digit_test) (s : cstr) (base max_chars val : Z)
  : res (Z * cstr * bool) :=
  match fuel with
  | O => NoFuel
  | S fuel =>
      match s with
      | [] => Ok (val, s, false)
      | c :: s' =>
          if test c then
            let '(val, over) := inc_and_chk val base (digit_val c) in
            if over then Ok (val, skip_while (fun c => test c || underscore c) s, true)
            else
              let s := skip_while underscore s' in
              if 0 <? max_chars then
                if max_chars - 1 =? 0 then Ok (val, s, false)
                else read_loop fuel test s base (max_chars - 1) val
              else read_loop fuel test s base max_chars val
          else Ok (val, s, false)
      end
  end.

Definition read_ap_num (test : digit_test) (s : cstr) (base max_chars : Z)
  : res (Z * cstr * bool) :=
  read_loop (S (length s)) test s base max_chars 0.

Definition isbdigit (c : ascii) : bool := (c =c "0"%char) || (c =c "1"%char).
Definition isodigit (c : ascii) : bool := in_range 48 55 c.
Definition isoct (c : ascii) : bool := in_range 48 55 c.

Definition bases (mode : base) : Z * Z * digit_test :=
  match mode with
  | BIN => (2, -1, isbdigit)
  | OCT => (8, 3, isodigit)
  | DEC => (10, -1, isdigit)
  | HEX => (16, -1, isxdigit)
  end.

Definition char_seq_to_ullong (s : cstr) (apply_limit : bool) (mode : base)
  : res (Z * cstr * bool) :=
  let '(b, max_chars, test) := bases mode in
  read_ap_num test s b (if apply_limit then max_chars else -1).

(** The character as an [int], the offset of [*end] from [start], [*warn] and
    [*err]. *)
Definition escape_char_1 (start : cstr) (is_wide : bool) (warn err : errno)
  : res (Z * nat * errno * errno) :=
  let esc := cur start in
  if (esc =c "x"%char) || isoct esc then
    let len := length start in
    let start := if esc =c "x"%char then drop 1 start else start in
    '(parsed, end_, overflow) ←
      char_seq_to_ullong start true (if esc =c "x"%char then HEX else OCT);
    let err := if (overflow : bool) then ERANGE else err in
    let err := if (length start =? length end_)%nat then EILSEQ else err in
    let err := if (if is_wide then 0x7fffffff else 0xff) <? parsed then ERANGE else err in
    Ok (s32 parsed, (len - length end_)%nat, warn, err)
  else
    let c := escape_char1 esc in
    let warn := if c =? -1 then EINVAL else warn in
    Ok (c, 1%nat, warn, err).

Definition UINT_MAX : Z := 4294967295.

(** Appending a character to a multi-character constant: the new [ret] and
    whether the warning is raised. *)
Definition escape_accumulate (ret this : Z) : res (Z * bool) :=
  let of1 := UINT_MAX / 256 <? u32 ret in
  let ret := s32 (u32 ret * 256) in
  let of2 := u32 (UINT_MAX - u32 this) <? u32 ret in
  if bool_decide (is_s 32 (ret + this)) then Ok (ret + this, of1 || of2)
  else Ub "signed overflow".

(** [i] and [limit] are offsets from [start]. Returns [ret], [*end] as an
    offset, [n], [*warn] and [*err]. *)
Fixpoint escape_loop (fuel : nat) (start : cstr) (i limit : nat) (is_wide : bool)
    (ret : Z) (n : nat) (warn err : errno) : res (Z * Z * nat * errno * errno) :=
  match fuel with
  | O => NoFuel
  | S fuel =>
      if (i =? limit)%nat then Ok (ret, Z.of_nat i, n, warn, err)
      else if (length start <? i)%nat then Ub "read past the terminator"
      else match drop i start with
      | [] => Ok (ret, Z.of_nat i - 1, n, warn, err)
      | c :: rest =>
          let add this (next : nat) warn err :=
            if is_wide then
              escape_loop fuel start next limit is_wide this (n + 1)
                (if this =? 0 then warn else E2BIG) err
            else
              '(ret, over) ← escape_accumulate ret this;
              escape_loop fuel start next limit is_wide ret (n + 1)
                (if (over : bool) then E2BIG else warn) err in
          if c =c bslash then
            if (i + 1 =? limit)%nat then Ok (ret, Z.of_nat (i + 1), n, warn, EILSEQ)
            else
              '(this, escfin, warn, err) ← escape_char_1 rest is_wide warn err;
              add this (i + 1 + escfin)%nat warn err
          else add (schar c) (i + 1)%nat warn err
      end
  end.

(** Returns the value, [*end] as an offset, [*multi], [*warn] and [*err]; [limit]
    is the offset of the closing quote, if there is one. *)
Definition escape_char (start : cstr) (limit : option nat) (is_wide : bool) (warn err : errno)
  : res (Z * Z * bool * errno * errno) :=
  match limit with
  | None => Ice "limit"
  | Some limit =>
      '(ret, end_, n, warn, err) ←
        escape_loop (S (length start)) start 0 limit is_wide 0 0 warn err;
      Ok (ret, end_, (1 <? n)%nat, warn, err)
  end.

Definition base_to_str (b : base) : string :=
  match b with
  | BIN => "binary" | OCT => "octal" | DEC => "decimal" | HEX => "hexadecimal"
  end.

(** ** Numerals *)

(** The number a sequence of digits and separators denotes. *)
Definition numeral (base : Z) (acc : Z) (ds : cstr) : Z :=
  foldl (fun v c => if underscore c then v else v * base + digit_val c) acc ds.

Example hex_ex : char_seq_to_ullong (str "ff_fFg") false HEX = Ok (0xffff, str "g", false).
Proof. reflexivity. Qed.
Example dec_over : char_seq_to_ullong (str "18446744073709551616+") false DEC = Ok (0, str "+", true).
Proof. reflexivity. Qed.
(** An overflow that the check does not notice: 5/4 of 2^64. *)
Example dec_missed :
  char_seq_to_ullong (str "23058430092136939520") false DEC = Ok (4611686018427387904, [], false).
Proof. reflexivity. Qed.
Example multi_ex :
  escape_char (str "a\n'") (Some 3%nat) false Enone Enone = Ok (97 * 256 + 10, 3, true, Enone, Enone).
Proof. reflexivity. Qed.

(** ** Lemmas *)

Lemma skip_while_suffix (t : digit_test) (s : cstr) : exists p, s = p ++ skip_while t s /\ forallb t p = true.
Proof.
  induction s as [|c s (p & E & F)]; [by exists []|]. simpl. destruct (t c) eqn:Et.
  - exists (c :: p). simpl. by rewrite Et, <- E.
  - by exists [].
Qed.

Lemma skip_while_length (t : digit_test) (s : cstr) : (length (skip_while t s) <= length s)%nat.
Proof. destruct (skip_while_suffix t s) as (p & E & _). rewrite E at 2. rewrite length_app. lia. Qed.

Lemma skip_while_skip (t u : digit_test) (s : cstr) :
  (forall c, u c = true -> t c = true) -> skip_while t (skip_while u s) = skip_while t s.
Proof.
  intros H. induction s as [|c s IH]; [done|]. simpl. destruct (u c) eqn:E; [|done].
  by rewrite (H c E).
Qed.

Lemma numeral_app (b acc : Z) (x y : cstr) : numeral b acc (x ++ y) = numeral b (numeral b acc x) y.
Proof. apply foldl_app. Qed.

Lemma numeral_underscores (b acc : Z) (u : cstr) : forallb underscore u = true -> numeral b acc u = acc.
Proof.
  induction u as [|c u IH]; [done|]. simpl. intros (Hc & H)%andb_true_iff.
  unfold numeral. simpl. rewrite Hc. by apply IH.
Qed.

(** What the four digit tests have in common. *)
Class Digits (test : digit_test) (b : Z) : Prop := {
  digits_base : 2 <= b;
  digits_nul : test NUL = false;
  digits_val : forall c, test c = true -> 0 <= digit_val c < b /\ underscore c = false
}.

Ltac digits_by_cases test b :=
  constructor; [lia | done |]; intros c Hc;
  pose proof (ascii_forall_dec
    (fun c => negb (test c) || ((0 <=? digit_val c) && (digit_val c <? b) && negb (underscore c)))
    ltac:(vm_compute; reflexivity) c) as H; simpl in H; rewrite Hc in H; simpl in H; lia.

#[export] Instance digits_bin : Digits isbdigit 2.
Proof. digits_by_cases isbdigit 2. Qed.
#[export] Instance digits_oct : Digits isodigit 8.
Proof. digits_by_cases isodigit 8. Qed.
#[export] Instance digits_dec : Digits isdigit 10.
Proof. digits_by_cases isdigit 10. Qed.
#[export] Instance digits_hex : Digits isxdigit 16.
Proof. digits_by_cases isxdigit 16. Qed.

Section Numerals.
  Context (test : digit_test) (b : Z) {D : Digits test b}.

Abbreviation part := (fun c => test c || underscore c).

(** Where the numeral at the front of [s] ends. *)
Definition numeral_end (s : cstr) : cstr := if test (cur s) then skip_while part s else s.

Lemma numeral_grows (acc : Z) (ds : cstr) :
  0 <= acc -> forallb part ds = true -> acc <= numeral b acc ds.
Proof using D.
  pose proof digits_base as Hb. revert acc.
  induction ds as [|c ds IH]; intros acc Ha H; [done|].
  simpl in H. apply andb_true_iff in H as (Hc & H).
  unfold numeral in *. simpl. destruct (underscore c) eqn:Eu; [by apply IH|].
  rewrite orb_false_r in Hc. destruct (digits_val c Hc) as (Hv & _).
  specialize (IH (acc * b + digit_val c) ltac:(nia) H). nia.
Qed.

Lemma inc_and_chk_spec (acc d : Z) :
  0 <= acc -> 0 <= d ->
  let '(v, over) := inc_and_chk (u64 acc) b d in
  v = u64 (acc * b + d) /\ (over = true -> 2 ^ 64 <= acc * b + d).
Proof using D.
  pose proof digits_base as Hb. intros Ha Hd. unfold inc_and_chk. split.
  - unfold wrapu. rewrite Zplus_mod_idemp_l, <- Zplus_mod_idemp_l, Zmult_mod_idemp_l.
    by rewrite Zplus_mod_idemp_l.
  - intros H. destruct (Z.lt_ge_cases (acc * b + d) (2 ^ 64)) as [Hlt|]; [|done]. exfalso.
    assert (acc < 2 ^ 64 /\ acc * b < 2 ^ 64 /\ acc <= acc * b) as (H1 & H2 & H3) by nia.
    rewrite !(wrapu_id 64 acc), (wrapu_id 64 (acc * b)), wrapu_id in H by (unfold is_u; lia).
    lia.
Qed.

Lemma read_loop_spec (fuel : nat) (s : cstr) (acc : Z) :
  (length s < fuel)%nat -> 0 <= acc ->
  exists val over, read_loop fuel test s b (-1) (u64 acc) = Ok (val, numeral_end s, over) /\
    let n := numeral b acc (take (length s - length (numeral_end s)) s) in
    if over : bool then 2 ^ 64 <= n else val = u64 n.
Proof using D.
  pose proof digits_base as Hb.
  revert s acc. induction fuel as [|fuel IH]; intros s acc Hf Ha; [lia|].
  unfold numeral_end. destruct s as [|c s];
    cbn [read_loop cur skip_while length].
  { rewrite digits_nul. by exists (u64 acc), false. }
  destruct (test c) eqn:Ec; [|exists (u64 acc), false; rewrite Nat.sub_diag; done].
  destruct (digits_val c Ec) as (Hv & Hu). cbn [orb length] in Hf |- *.
  pose proof (inc_and_chk_spec acc (digit_val c) Ha (proj1 Hv)) as Hi.
  destruct (inc_and_chk (u64 acc) b (digit_val c)) as [v over]. destruct Hi as (-> & Hover).
  set (acc' := acc * b + digit_val c) in *.
  assert (0 <= acc') as Ha' by (unfold acc'; nia).
  destruct (skip_while_suffix part s) as (p & Ep & Fp).
  assert (take (S (length s) - length (skip_while part s)) (c :: s) = c :: p) as Et.
  { rewrite Ep at 1. rewrite length_app.
    replace (S (length p + length (skip_while part s)) - length (skip_while part s))%nat
      with (S (length p)) by lia.
    simpl. f_equal. rewrite Ep. apply take_app_length. }
  cbv beta zeta in Et |- *. rewrite Et.
  assert (numeral b acc (c :: p) = numeral b acc' p) as En by (unfold numeral; simpl; by rewrite Hu).
  destruct over.
  - exists (u64 acc'), true. split; [done|]. rewrite En.
    pose proof (numeral_grows acc' p Ha' Fp). pose proof (Hover eq_refl). lia.
  - pose proof (skip_while_length underscore s) as Hl.
    destruct (IH (skip_while underscore s) acc' ltac:(lia) Ha') as (val & over & R & S).
    exists val, over.
    assert (numeral_end (skip_while underscore s) = skip_while part s) as Ee.
    { unfold numeral_end. rewrite <- (skip_while_skip part underscore s) by (intros; lia).
      destruct (test (cur (skip_while underscore s))) eqn:E; [done|].
      destruct (skip_while underscore s) as [|x y] eqn:Ex; [done|]. simpl in *. rewrite E.
      assert (underscore x = false) as ->; [|done].
      clear -Ex. induction s as [|z s IHs]; [done|]. simpl in Ex.
      destruct (underscore z) eqn:Ez; [auto|]. by injection Ex as -> ->. }
    rewrite Ee in R, S. rewrite R. split; [done|]. cbv zeta in S. rewrite En.
    destruct (skip_while_suffix underscore s) as (us & Eus & Fus).
    assert (exists q, p = us ++ q /\ skip_while underscore s = q ++ skip_while part s) as (q & Eq & Eq').
    { assert (skip_while part s = skip_while part (skip_while underscore s)) as Es
        by (symmetry; apply skip_while_skip; intros; lia).
      destruct (skip_while_suffix part (skip_while underscore s)) as (q & Hq & _).
      rewrite <- Es in Hq. exists q. split; [|done].
      apply (app_inv_tail (skip_while part s)). rewrite <- Ep, <- app_assoc, <- Hq. done. }
    assert (take (length (skip_while underscore s) - length (skip_while part s)) (skip_while underscore s) = q) as Etq
      by (rewrite Eq', length_app, Nat.add_sub; apply take_app_length).
    rewrite Etq in S. rewrite Eq, numeral_app, (numeral_underscores b acc' us Fus). exact S.
Qed.
End Numerals.

(** ** Reading numbers *)

Definition digit_of (mode : base) : digit_test := let '(_, _, test) := bases mode in test.
Definition radix (mode : base) : Z := let '(b, _, _) := bases mode in b.

#[export] Instance digits_mode (mode : base) : Digits (digit_of mode) (radix mode).
Proof. destruct mode; apply _. Qed.

(** C36: an integer literal's digits are read to the end, separators skipped, and
    a value that fits 64 bits is read exactly and without overflow. When
    overflow is reported the number truly does not fit; when it is not, the
    result is the number modulo 2^64. *)
Theorem char_seq_to_ullong_spec (mode : base) (s : cstr) :
  let rest := numeral_end (digit_of mode) s in
  let n := numeral (radix mode) 0 (take (length s - length rest) s) in
  exists val over, char_seq_to_ullong s false mode = Ok (val, rest, over) /\
    (n < 2 ^ 64 -> over = false /\ val = n) /\
    (over = true -> 2 ^ 64 <= n) /\ (over = false -> val = u64 n).
Proof.
  assert (char_seq_to_ullong s false mode = read_loop (S (length s)) (digit_of mode) s (radix mode) (-1) (u64 0))
    as -> by (unfold char_seq_to_ullong, read_ap_num, digit_of, radix; by destruct mode).
  intros rest n.
  destruct (read_loop_spec (digit_of mode) (radix mode) (S (length s)) s 0) as (val & over & R & H);
    [lia | lia |].
  exists val, over. split; [exact R|]. fold rest n in H. cbv zeta in H.
  assert (0 <= n) as Hn.
  { apply numeral_grows with (test := digit_of mode) (b := radix mode); [apply _|lia|].
    unfold rest, numeral_end. destruct (digit_of mode (cur s)); [|by rewrite Nat.sub_diag].
    destruct (skip_while_suffix (fun c => digit_of mode c || underscore c) s) as (p & Ep & Fp).
    rewrite Ep at 3. rewrite Ep at 1. rewrite length_app, Nat.add_sub, take_app_length. done. }
  destruct over; split_and!; try done; intros; [lia | split; [done|]; subst; by apply wrapu_id].
Qed.

Lemma char_seq_to_ullong_spec_witness :
  char_seq_to_ullong (str "1_000;") false DEC = Ok (1000, str ";", false).
Proof.
  destruct (char_seq_to_ullong_spec DEC (str "1_000;")) as (val & over & R & H & _ & _).
  destruct H as (-> & ->); [vm_compute; reflexivity|]. exact R.
Defined.

(** ** Termination *)

Lemma read_loop_fueled (fuel : nat) (test : digit_test) (s : cstr) (b m v : Z) :
  (length s < fuel)%nat -> fueled (read_loop fuel test s b m v).
Proof.
  revert s m v. induction fuel as [|fuel IH]; intros s m v Hf; [lia|].
  destruct s as [|c s]; cbn [read_loop]; [done|]. destruct (test c); [|done].
  destruct (inc_and_chk v b (digit_val c)) as [v' over]. destruct over; [done|].
  pose proof (skip_while_length underscore s). simpl in Hf. cbv zeta.
  destruct (0 <? m); [destruct (m - 1 =? 0); [done|]|]; apply IH; lia.
Qed.

Lemma escape_char_1_fueled (s : cstr) (w : bool) (wn er : errno) : fueled (escape_char_1 s w wn er).
Proof.
  unfold escape_char_1. destruct (_ || _); [|done]. cbv zeta. apply fueled_bind.
  - unfold char_seq_to_ullong. destruct (bases _) as [[b m] test]. apply read_loop_fueled. lia.
  - by intros [[parsed e] o] _.
Qed.

Lemma escape_accumulate_fueled (ret this : Z) : fueled (escape_accumulate ret this).
Proof. unfold escape_accumulate. cbv zeta. by destruct (bool_decide _). Qed.

Lemma escape_loop_fueled (fuel : nat) (s : cstr) (i limit : nat) (w : bool) (ret : Z) (n : nat) (wn er : errno) :
  (length s < i + fuel)%nat -> (0 < fuel)%nat -> fueled (escape_loop fuel s i limit w ret n wn er).
Proof.
  revert i ret n wn er. induction fuel as [|fuel IH]; intros i ret n wn er Hf H0; [lia|].
  cbn [escape_loop]. destruct (i =? limit)%nat; [done|].
  destruct (Nat.ltb_spec (length s) i); [done|].
  destruct (drop i s) as [|c rest] eqn:Ed; [done|].
  assert (i < length s)%nat as Hi.
  { destruct (Nat.lt_ge_cases i (length s)) as [|Hge]; [done|]. by rewrite drop_ge in Ed. }
  assert (forall this next wn er, (i < next)%nat ->
    fueled (if w then escape_loop fuel s next limit w this (n + 1) (if this =? 0 then wn else E2BIG) er
      else '(ret, over) ← escape_accumulate ret this;
           escape_loop fuel s next limit w ret (n + 1) (if (over : bool) then E2BIG else wn) er)) as K.
  { intros this next wn' er' Hn. destruct w; [apply IH; lia|]. apply fueled_bind; [apply escape_accumulate_fueled|].
    intros [r o] _. apply IH; lia. }
  cbv zeta. destruct (c =c bslash); [|apply K; lia].
  destruct (i + 1 =? limit)%nat; [done|]. apply fueled_bind; [apply escape_char_1_fueled|].
  intros [[[this e] wn'] er'] _. apply K. lia.
Qed.

Lemma escape_char_fueled (s : cstr) (limit : option nat) (w : bool) (wn er : errno) :
  fueled (escape_char s limit w wn er).
Proof.
  unfold escape_char. destruct limit as [l|]; [|done]. apply fueled_bind.
  - apply escape_loop_fueled; lia.
  - by intros [[[[r e] n] wn'] er'] _.
Qed.

(** A wide character constant warns of extraneous characters even when it has
    only one. *)
Example wide_warns :
  escape_char (str "a'") (Some 1%nat) true Enone Enone = Ok (97, 1, false, E2BIG, Enone).
Proof. reflexivity. Qed.
