(* ===== verification/StrLit.v ===== *)
(** * String literals

    [src/src/cc1/str.c]: literals as the compiler holds them, raw (as written),
    decoded to [char] or widened to [int]; escaping and unescaping, comparison,
    concatenation. [src/src/cc1/strings.c] interns them in a [dynmap] keyed by
    content, so that equal literals share a label. *)

From stdpp Require Import pretty.
From S2P Require Import Prelude Escape DynMap.
Open Scope Z_scope.

Inductive cstring_type := CSTRING_RAW | CSTRING_ASCII | CSTRING_WIDE.

#[global] Instance cstring_type_eq_dec : EqDecision cstring_type.
Proof. solve_decision. Defined.

(** [units] is the allocation behind [bits.ascii] or [bits.wides], element by
    element ([char] values are signed); [count] elements are in use. *)
Record cstring : Type := mk_cstring {
  type : cstring_type;
  units : list Z;
  count : nat
}.

#[global] Instance cstring_eq_dec : EqDecision cstring.
Proof. solve_decision. Defined.

Definition unit_get (u : list Z) (i : nat) : res Z :=
  match u !! i with Some v => Ok v | None => Ub "read outside the literal" end.

Definition unit_set (u : list Z) (i : nat) (v : Z) : res (list Z) :=
  if (i <? length u)%nat then Ok (<[i:=v]> u) else Ub "write outside the literal".

(** [memcpy(dst + at_, src, n)], counted in elements. *)
Definition units_copy (dst : list Z) (at_ : nat) (src : list Z) (n : nat) : res (list Z) :=
  if (n <=? length src)%nat && (at_ + n <=? length dst)%nat
  then Ok (take at_ dst ++ take n src ++ drop (at_ + n) dst)
  else Ub "memcpy outside the literal".

(** ** Construction *)

Definition cstring_init (t : cstring_type) (start : cstr) (len : nat) (include_nul : bool)
  : res cstring :=
  if (len <=? length start + 1)%nat then
    Ok {| type := t; units := map schar (take len (start ++ [NUL])) ++ [0];
          count := if include_nul then len + 1 else len |}
  else Ub "memcpy past the terminator".

Definition cstring_new (t : cstring_type) (start : cstr) (len : nat) (include_nul : bool)
  : res cstring := cstring_init t start len include_nul.

Definition cstring_char_at (c : cstring) (i : nat) : res Z := unit_get (units c) i.

(** An [int] stored in an element. *)
Definition conv (t : cstring_type) (v : Z) : Z :=
  match t with CSTRING_WIDE => s32 v | _ => wraps 8 v end.

Definition cstring_char_set (c : cstring) (i : nat) (to : Z) : res cstring :=
  u ← unit_set (units c) i (conv (type c) to);
  Ok {| type := type c; units := u; count := count c |}.

(** The first [count + 1] elements, converted. *)
Definition cstring_widen (c : cstring) : res cstring :=
  match type c with
  | CSTRING_WIDE => Ice "cstring_widen"
  | _ =>
      u ← units_copy (replicate (count c + 1) 0) 0 (units c) (count c + 1);
      Ok {| type := CSTRING_WIDE; units := u; count := count c |}
  end.

Definition cstring_asciify (c : cstring) : res cstring :=
  match type c with
  | CSTRING_WIDE =>
      u ← units_copy (replicate (count c + 1) 0) 0 (map (conv CSTRING_ASCII) (units c)) (count c + 1);
      Ok {| type := CSTRING_ASCII; units := u; count := count c |}
  | _ => Ice "cstring_asciify"
  end.

(** ** Unescaping *)

(** The C string at [&ascii[i]]. *)
Fixpoint c_string (u : list Z) : res cstr :=
  match u with
  | [] => Ub "read outside the literal"
  | v :: u => if v =? 0 then Ok [] else (s ← c_string u; Ok (chr v :: s))
  end.

(** A call [handle_escape_warn_err(w, e, escape_offset, ctx)]. *)
Definition report : Type := errno * errno * nat.

Fixpoint escape_copy (fuel : nat) (src : list Z) (n i iout : nat) (is_wide : bool)
    (out : list Z) : res (list Z * nat * list report) :=
  match fuel with
  | O => NoFuel
  | S fuel =>
      if (i <? n)%nat then
        v ← unit_get src i;
        '(add, next, reports) ←
          (if v =? code bslash then
             s ← c_string (drop (i + 1) src);
             '(add, end_, warn, err) ← escape_char_1 s is_wide Enone Enone;
             Ok (add, (i + 1 + end_)%nat, [(warn, err, (i + 1)%nat)])
           else Ok (v, (i + 1)%nat, []));
        out ← unit_set out iout (conv (if is_wide then CSTRING_WIDE else CSTRING_ASCII) add);
        if (iout + 1 <=? n)%nat then
          '(out, iout, rs) ← escape_copy fuel src n next (iout + 1) is_wide out;
          Ok (out, iout, reports ++ rs)
        else Ice "iout <= cstr->count"
      else Ok (out, iout, [])
  end.

(** The literal and the handler's calls, in order. *)
Definition cstring_escape (c : cstring) (is_wide : bool) : res (cstring * list report) :=
  match type c with
  | CSTRING_RAW =>
      '(u, iout, rs) ←
        escape_copy (S (count c)) (units c) (count c) 0 0 is_wide (replicate (count c + 1) 0);
      Ok ({| type := if is_wide then CSTRING_WIDE else CSTRING_ASCII; units := u; count := iout |}, rs)
  | _ => Ice "cstr->type == CSTRING_RAW"
  end.

(** ** Comparison *)

Definition NOT_EQUAL : Z := 1.

(** Of [memcmp] only being zero is used. *)
Definition cstring_eq (a b : cstring) : Z :=
  if negb (bool_decide (type a = type b)) then NOT_EQUAL
  else if negb (count a =? count b)%nat then NOT_EQUAL
  else if bool_decide (take (count a) (units a) = take (count b) (units b)) then 0 else 1.

Fixpoint cstring_hash_loop (us : list Z) (hash : Z) : Z :=
  match us with
  | [] => hash
  | v :: us => cstring_hash_loop us (u32 (u32 (u32 (Z.shiftl hash 5) + hash) + v))
  end.

Definition cstring_hash (c : cstring) : Z := cstring_hash_loop (take (count c) (units c)) 5381.

(** ** Concatenation *)

Section Append.
  (** What [realloc] leaves in the part it adds. *)
  Variable junk : Z.

Definition urealloc1 (u : list Z) (n : nat) : list Z := take n (u ++ replicate n junk).

(** [out] and [addend] afterwards. *)
Definition cstring_append (out addend : cstring) : res (cstring * cstring) :=
  let orig_out_count := count out in
  match orig_out_count with
  | O => Ub "read before the literal"
  | S last =>
      l ← unit_get (units out) last;
      let last_is_nul := l =? 0 in
      '(out, addend) ←
        (if negb (bool_decide (type addend = type out)) then
           if bool_decide (type addend = CSTRING_WIDE) then
             (out ← cstring_widen out; Ok (out, addend))
           else if bool_decide (type out = CSTRING_WIDE) then
             (addend ← cstring_widen addend; Ok (out, addend))
           else Ice "CSTRING_WIDE"
         else Ok (out, addend));
      let n := (count out + count addend)%nat in
      let u := urealloc1 (units out) (n + 1) in
      u ← units_copy u (n - count addend - (if last_is_nul then 1 else 0))%nat
            (units addend) (count addend + 1);
      Ok ({| type := type out; units := u; count := if last_is_nul then (n - 1)%nat else n |}, addend)
  end.
End Append.

(** ** Escaping for output *)

Definition isprint_int (v : Z) : bool := (32 <=? v) && (v <=? 126).

Definition escape_len (us : list Z) : nat :=
  foldr (fun v n =>
    if (v =? code bslash) || (v =? code dquote) then (3 + n)%nat
    else if negb (isprint_int v) then (4 + n)%nat else (1 + n)%nat) 0%nat us.

(** ["\\%03o"] of an [unsigned char]. *)
Definition octal3 (v : Z) : cstr :=
  [bslash; chr (48 + v / 64); chr (48 + v / 8 mod 8); chr (48 + v mod 8)].

Definition escape_unit (v : Z) : cstr :=
  if (v =? code bslash) || (v =? code dquote) then [bslash; chr v]
  else if negb (isprint_int v) then octal3 (wrapu 8 v)
  else [chr v].

Definition str_add_escape (c : cstring) : res cstr :=
  if (length (units c) <? count c)%nat then Ub "read outside the literal"
  else
    let us := take (count c) (units c) in
    let new := concat (map escape_unit us) in
    if (length new <=? escape_len us)%nat then Ok new else Ub "write past the buffer".

Definition literal_print (c : cstring) : res cstr := str_add_escape c.

(** ** Interning *)

Inductive out_label_store := STORE_P_CHAR | STORE_P_WCHAR | STORE_COMP_LIT | STORE_FLOAT.

Definition store_prefix (ty : out_label_store) : string :=
  match ty with
  | STORE_P_CHAR => "str" | STORE_P_WCHAR => "wstr" | STORE_COMP_LIT => "data" | STORE_FLOAT => "float"
  end.

Definition store_label (ty : out_label_store) (n : Z) : string := (store_prefix ty +:+ "." +:+ pretty n)%string.

(** The label, and the [int] [str_last] afterwards. [xsnprintf] aborts when the
    label and its terminator do not fit in the 16 bytes allocated. *)
Definition out_label_data_store (ty : out_label_store) (str_last : Z) : res (string * Z) :=
  if bool_decide (is_s 32 (str_last + 1)) then
    let ret := store_label ty str_last in
    if (16 <=? String.length ret)%nat then Ice "snprintf() overflow" else Ok (ret, str_last + 1)
  else Ub "signed overflow".

(** The counter can outgrow the buffer of a floating constant's label before it
    overflows, and it can overflow. *)
Example label_last_float : out_label_data_store STORE_FLOAT 1000000000 = Ice "snprintf() overflow".
Proof. reflexivity. Qed.
Example label_overflow : out_label_data_store STORE_P_CHAR 2147483647 = Ub "signed overflow".
Proof. reflexivity. Qed.

Record stringlit : Type := mk_stringlit { lbl : string; lit_cstr : ptr; use_cnt : N }.

(** The literals' table [*plit_tbl], the [stringlit]s allocated so far (the
    [n]th is at address [n + 1]) and the label counter. *)
Record strings : Type := mk_strings {
  lit_tbl : option dynmap;
  lits : list stringlit;
  str_last : Z
}.

Section Strings.
  (** The literals in memory: keys are their addresses, and a literal that is
      a key is not changed. *)
  Variable heap : ptr -> cstring.

Definition strings_new : dynmap :=
  dynmap_nochk_new (Some (fun a b => cstring_eq (heap a) (heap b))) (fun a => cstring_hash (heap a)).

(** The state and the literal's address. *)
Definition strings_lookup (st : strings) (c : ptr) : res (strings * ptr) :=
  let tbl := match lit_tbl st with None => strings_new | Some t => t end in
  lit ← dynmap_nochk_get (Some tbl) c;
  if lit =? NULL then
    '(l, n) ← out_label_data_store
      (if bool_decide (type (heap c) = CSTRING_WIDE) then STORE_P_WCHAR else STORE_P_CHAR) (str_last st);
    let lits' := lits st ++ [{| lbl := l; lit_cstr := c; use_cnt := 0 |}] in
    let lit := Z.of_nat (length lits') in
    '(tbl, prev) ← dynmap_nochk_set tbl c lit;
    if prev =? NULL then Ok ({| lit_tbl := Some tbl; lits := lits'; str_last := n |}, lit)
    else Ice "!prev"
  else Ok ({| lit_tbl := Some tbl; lits := lits st; str_last := str_last st |}, lit).

Definition stringlit_use (s : stringlit) : stringlit :=
  {| lbl := lbl s; lit_cstr := lit_cstr s; use_cnt := N.modulo (use_cnt s + 1) (2 ^ 32) |}.

Definition stringlit_empty (s : stringlit) : res bool :=
  let c := heap (lit_cstr s) in
  match count c with
  | O => Ok true
  | S O => v ← cstring_char_at c 0; Ok (v =? 0)
  | _ => Ok false
  end.
End Strings.

(** ** The content of a literal *)

(** The elements in use. *)
Definition content (c : cstring) : list Z := take (count c) (units c).

(** At least one element is allocated past the ones in use ([slack]), or none. *)
Definition wf_lit (slack : nat) (c : cstring) : Prop := (count c + slack <= length (units c))%nat.

Lemma content_length (n : nat) (c : cstring) : wf_lit n c -> length (content c) = count c.
Proof. unfold wf_lit, content. intros. rewrite length_take. lia. Qed.

Lemma cstring_eq_spec (a b : cstring) :
  cstring_eq a b = 0 <-> type a = type b /\ count a = count b /\ content a = content b.
Proof.
  unfold cstring_eq, NOT_EQUAL, content. split.
  - intros H. repeat case_bool_decide; simpl in H; try done;
      destruct (Nat.eqb_spec (count a) (count b)); done.
  - intros (H1 & H2 & H3). rewrite !bool_decide_true by done. rewrite H2, Nat.eqb_refl. done.
Qed.

Lemma units_copy_run (dst src : list Z) (i n : nat) :
  (n <= length src)%nat -> (i + n <= length dst)%nat ->
  units_copy dst i src n = Ok (take i dst ++ take n src ++ drop (i + n) dst).
Proof. intros. unfold units_copy. by if_true. Qed.

(** ** Escaping and unescaping *)

Lemma octal_digit (d : Z) :
  0 <= d < 8 ->
  isodigit (chr (48 + d)) = true /\ digit_val (chr (48 + d)) = d /\
  underscore (chr (48 + d)) = false /\ isoct (chr (48 + d)) = true /\ (chr (48 + d) =c "x"%char) = false.
Proof.
  intros H. assert (forallb (fun d => isodigit (chr (48 + d)) && (digit_val (chr (48 + d)) =? d)
    && negb (underscore (chr (48 + d))) && isoct (chr (48 + d)) && negb (chr (48 + d) =c "x"%char))
    [0; 1; 2; 3; 4; 5; 6; 7] = true) as F by (vm_compute; reflexivity).
  rewrite forallb_forall in F. specialize (F d ltac:(simpl; lia)). to_prop.
  split_and!; try done; [by apply Z.eqb_eq | by apply eqc_false].
Qed.

(** A unit printed as an octal escape, which a following separator would join. *)
Definition octal_unit (v : Z) : bool :=
  negb ((v =? code bslash) || (v =? code dquote)) && negb (isprint_int v).

Lemma read_octal3 (a b c : Z) (rest : cstr) :
  0 <= a < 8 -> 0 <= b < 8 -> 0 <= c < 8 -> underscore (cur rest) = false ->
  char_seq_to_ullong (chr (48 + a) :: chr (48 + b) :: chr (48 + c) :: rest) true OCT
  = Ok (a * 64 + b * 8 + c, rest, false).
Proof.
  intros Ha Hb Hc Hr.
  destruct (octal_digit a Ha) as (A1 & A2 & A3 & _), (octal_digit b Hb) as (B1 & B2 & B3 & _),
    (octal_digit c Hc) as (C1 & C2 & C3 & _).
  assert (forall v d, 0 <= v < 64 -> 0 <= d < 8 -> inc_and_chk v 8 d = (v * 8 + d, false)) as I.
  { intros v d Hv Hd. unfold inc_and_chk. rewrite (wrapu_id 64 (v * 8)) by (unfold is_u; lia).
    rewrite wrapu_id by (unfold is_u; lia). f_equal. lia. }
  unfold char_seq_to_ullong, read_ap_num, bases. cbn [length].
  cbn [read_loop]. rewrite A1, A2, (I 0 a) by lia. cbn [skip_while]. rewrite B3. simpl (0 <? 3). simpl (3 - 1 =? 0).
  cbn match. cbn [read_loop]. rewrite B1, B2, (I (0 * 8 + a) b) by lia. cbn [skip_while]. rewrite C3.
  simpl (0 <? 3 - 1). simpl (3 - 1 - 1 =? 0). cbn match.
  cbn [read_loop]. rewrite C1, C2, (I ((0 * 8 + a) * 8 + b) c) by lia. simpl (0 <? _). simpl (_ =? 0). cbn match.
  assert (skip_while underscore rest = rest) as ->.
  { destruct rest as [|x r]; [done|]. simpl in Hr |- *. by rewrite Hr. }
  repeat f_equal. lia.
Qed.

Lemma schar_range (c : ascii) : -128 <= schar c < 128.
Proof. unfold schar. pose proof (code_range c). destruct (code c <? 128) eqn:E; lia. Qed.

Lemma chr_schar (c : ascii) : chr (schar c) = c.
Proof.
  apply code_inj. rewrite code_chr. pose proof (code_range c). unfold schar.
  destruct (code c <? 128) eqn:E; [by apply Z.mod_small|].
  rewrite <- (Z.mod_add (code c - 256) 1 256) by lia. rewrite Z.mod_small; lia.
Qed.

Lemma schar_chr (v : Z) : -128 <= v < 128 -> schar (chr v) = v.
Proof.
  intros H. unfold schar. rewrite code_chr.
  destruct (Z.lt_ge_cases v 0).
  - replace (v mod 256) with (v + 256); [if_false; lia|].
    rewrite <- (Z.mod_add v 1 256) by lia. rewrite Z.mod_small; lia.
  - rewrite Z.mod_small by lia. by if_true.
Qed.

Lemma octal3_digits (v : Z) :
  -128 <= v < 128 ->
  let w := wrapu 8 v in
  exists a b c, octal3 w = [bslash; chr (48 + a); chr (48 + b); chr (48 + c)] /\
    0 <= a < 8 /\ 0 <= b < 8 /\ 0 <= c < 8 /\ a * 64 + b * 8 + c = w /\ 0 <= w < 256 /\ wraps 8 w = v.
Proof.
  intros H w. assert (0 <= w < 256) as Hw by (apply (wrapu_range 8); lia).
  exists (w / 64), (w / 8 mod 8), (w mod 8).
  split; [done|]. split; [split; [apply Z.div_pos; lia | apply Z.div_lt_upper_bound; lia]|].
  split; [apply Z.mod_pos_bound; lia|]. split; [apply Z.mod_pos_bound; lia|].
  split.
  { clearbody w. clear H Hw. pose proof (Z.div_mod w 8 ltac:(lia)) as H1.
    pose proof (Z.div_mod (w / 8) 8 ltac:(lia)) as H2.
    rewrite Z.div_div in H2 by lia. change (8 * 8) with 64 in H2. lia. }
  split; [done|]. unfold w, wraps, wrapu. rewrite Zplus_mod_idemp_l.
  rewrite Z.mod_small by (simpl; lia). lia.
Qed.

(** One unit, escaped and read back. *)
Lemma escape_unit_plain (v : Z) :
  -128 <= v < 128 -> (v =? code bslash) = false -> octal_unit v = false ->
  (v =? code dquote) = false -> escape_unit v = [chr v].
Proof.
  intros H Hb Ho Hq. unfold escape_unit, octal_unit in *. rewrite Hb, Hq in *. simpl in *.
  by destruct (isprint_int v).
Qed.

Lemma escape_char_1_quoted (v : Z) (rest : cstr) :
  (v =? code bslash) || (v =? code dquote) = true ->
  escape_char_1 (chr v :: rest) false Enone Enone = Ok (v, 1%nat, Enone, Enone).
Proof. intros [H|H]%orb_true_iff; apply Z.eqb_eq in H; subst; reflexivity. Qed.

Lemma escape_char_1_octal (a b c : Z) (rest : cstr) :
  0 <= a < 8 -> 0 <= b < 8 -> 0 <= c < 8 -> a * 64 + b * 8 + c < 256 -> underscore (cur rest) = false ->
  escape_char_1 (chr (48 + a) :: chr (48 + b) :: chr (48 + c) :: rest) false Enone Enone
  = Ok (a * 64 + b * 8 + c, 3%nat, Enone, Enone).
Proof.
  intros Ha Hb Hc Hw Hr. destruct (octal_digit a Ha) as (_ & _ & _ & O & X).
  unfold escape_char_1. cbn [cur]. rewrite X, O. cbn [orb].
  rewrite read_octal3 by done. run. cbn [length].
  destruct (Nat.eqb_spec (S (S (S (length rest)))) (length rest)); [lia|].
  destruct (Z.ltb_spec 255 (a * 64 + b * 8 + c)); [lia|].
  rewrite wraps_id by (try (unfold is_s; lia)). 
  replace (S (S (S (length rest))) - length rest)%nat with 3%nat by lia. done.
Qed.

Lemma escape_unit_length (v : Z) : (0 < length (escape_unit v))%nat.
Proof.
  unfold escape_unit. destruct ((v =? code bslash) || (v =? code dquote)); [simpl; lia|].
  destruct (negb (isprint_int v)); simpl; lia.
Qed.

(** No separator follows an octal escape. *)
Fixpoint no_join (us : list Z) : Prop :=
  match us with
  | [] => True
  | v :: us => (octal_unit v = true -> head us <> Some (code "_")) /\ no_join us
  end.

Definition text_of (us : list Z) : cstr := concat (map escape_unit us).

Lemma text_of_cur (us : list Z) :
  Forall (fun v => -128 <= v < 128) us -> head us <> Some (code "_") ->
  underscore (cur (text_of us)) = false.
Proof.
  intros F H. destruct us as [|v us]; [done|]. unfold text_of. simpl.
  inversion F as [|? ? Hv F']; subst. unfold escape_unit.
  destruct ((v =? code bslash) || (v =? code dquote)); [done|].
  destruct (negb (isprint_int v)); [done|]. simpl.
  unfold underscore. apply eqc_false. intros E. apply H. simpl. f_equal.
  rewrite <- (schar_chr v Hv), E. done.
Qed.

(** The C string at a position of a raw literal. *)
Lemma c_string_text (t : cstr) (r : list Z) :
  NUL ∉ t -> c_string (map schar t ++ 0 :: r) = Ok t.
Proof.
  induction t as [|c t IH]; intros Hn; [done|]. simpl.
  assert (schar c <> 0) as Hc.
  { intros E. apply Hn. assert (code c = 0) as E'.
    { unfold schar in E. pose proof (code_range c). destruct (code c <? 128) eqn:?; lia. }
    rewrite <- (chr_code c), E'. left. }
  destruct (Z.eqb_spec (schar c) 0); [done|]. rewrite IH by set_solver. run.
  by rewrite chr_schar.
Qed.

Lemma escape_unit_nul_free (us : list Z) : Forall (fun v => -128 <= v < 128) us -> NUL ∉ text_of us.
Proof.
  induction 1 as [|v us Hv F IH]; unfold text_of in *; simpl; [set_solver|].
  rewrite elem_of_app. intros [Hi|]; [|done]. revert Hi. unfold escape_unit.
  destruct ((v =? code bslash) || (v =? code dquote)) eqn:E.
  { apply orb_true_iff in E as [E|E]; apply Z.eqb_eq in E; subst;
      apply (bool_decide_unpack (NUL ∉ _)); vm_compute; exact I. }
  destruct (isprint_int v) eqn:P; simpl.
  - rewrite list_elem_of_singleton. intros Hc. unfold isprint_int in P.
    assert (v = 0); [|lia]. rewrite <- (schar_chr v Hv), <- Hc. done.
  - destruct (octal3_digits v Hv) as (a & b & c & -> & Ha & Hb & Hc & _).
    assert (forall d, 0 <= d < 8 -> NUL <> chr (48 + d)) as N.
    { intros d Hd E'. destruct (octal_digit d Hd) as (O & _). by rewrite <- E' in O. }
    rewrite !elem_of_cons. intros [?|[?|[?|[?|?%elem_of_nil]]]]; try done; (eapply N; [|eassumption]; done).
Qed.

Lemma unit_get_mid (a : list Z) (v : Z) (b : list Z) : unit_get (a ++ v :: b) (length a) = Ok v.
Proof. unfold unit_get. by rewrite list_lookup_middle. Qed.

Lemma unit_set_mid (a : list Z) (k : nat) (v : Z) :
  unit_set (a ++ replicate (S k) 0) (length a) v = Ok ((a ++ [v]) ++ replicate k 0).
Proof.
  unfold unit_set. rewrite length_app, length_replicate. if_true.
  rewrite insert_app_r_alt, Nat.sub_diag by lia. simpl. by rewrite <- app_assoc.
Qed.

(** The run over the escaped text of [us], after [pre] has been read and
    [done_] written. *)
Lemma escape_copy_spec (us pre done_ : list Z) (k fuel : nat) :
  let n := (length pre + length (text_of us))%nat in
  Forall (fun v => -128 <= v < 128) us -> no_join us ->
  (length done_ <= length pre)%nat -> (length us < fuel)%nat ->
  exists rs, escape_copy fuel (pre ++ map schar (text_of us) ++ [0]) n (length pre) (length done_) false
      (done_ ++ replicate (length us + k) 0)
    = Ok (done_ ++ us ++ replicate k 0, (length done_ + length us)%nat, rs) /\
    Forall (fun r => fst r = (Enone, Enone)) rs.
Proof.
  revert pre done_ fuel. induction us as [|v us IH]; intros pre done_ fuel n F J Hl Hf.
  - destruct fuel as [|fuel]; [simpl in Hf; lia|]. exists []. cbn [escape_copy].
    subst n. simpl length. if_false. by rewrite !Nat.add_0_r.
  - inversion F as [|? ? Hv F']; subst. destruct J as (J & J'). simpl in Hf.
    destruct fuel as [|fuel]; [lia|].
    assert (text_of (v :: us) = escape_unit v ++ text_of us) as Et by done.
    set (e := escape_unit v) in *.
    pose proof (escape_unit_length v) as He. fold e in He.
    assert (n = (length (pre ++ map schar e) + length (text_of us))%nat) as En
      by (subst n; rewrite Et, !length_app, length_map; lia).
    destruct (IH (pre ++ map schar e) (done_ ++ [v]) fuel F' J') as (rs & R & C);
      [rewrite !length_app, length_map; simpl; lia | lia |].
    cbv zeta in R. rewrite <- En in R.
    cbn [escape_copy]. rewrite Et, map_app.
    assert (length pre < n)%nat as Hn by (subst n; rewrite Et, length_app; lia).
    if_true. clearbody n.
    assert (forall add reps, conv CSTRING_ASCII add = v -> Forall (fun r => fst r = (Enone, Enone)) reps ->
      exists rs', (out ← unit_set (done_ ++ replicate (length (v :: us) + k) 0) (length done_) (conv CSTRING_ASCII add);
        if (length done_ + 1 <=? n)%nat then
          '(out, iout, rs) ← escape_copy fuel (pre ++ (map schar e ++ map schar (text_of us)) ++ [0]) n
             (length pre + length e) (length done_ + 1) false out;
          Ok (out, iout, reps ++ rs)
        else Ice "iout <= cstr->count") =
        Ok (done_ ++ (v :: us) ++ replicate k 0, (length done_ + length (v :: us))%nat, rs') /\
        Forall (fun r => fst r = (Enone, Enone)) rs') as Step.
    { intros add reps -> Hr. change (length (v :: us) + k)%nat with (S (length us + k)). rewrite unit_set_mid. run. if_true.
      rewrite !length_app, length_map in R. simpl length in R. rewrite <- !app_assoc in R |- *.
      rewrite R. run. exists (reps ++ rs). split; [|by apply Forall_app].
      replace (length done_ + 1 + length us)%nat with (length done_ + S (length us))%nat by lia. by rewrite <- app_assoc. }
    assert (forall e' add, e = bslash :: e' -> NUL ∉ e' ->
      escape_char_1 (e' ++ text_of us) false Enone Enone = Ok (add, length e', Enone, Enone) ->
      conv CSTRING_ASCII add = v ->
      exists rs', (v0 ← unit_get (pre ++ (map schar e ++ map schar (text_of us)) ++ [0]) (length pre);
        '(add, next, reports) ←
          (if v0 =? code bslash then
             s ← c_string (drop (length pre + 1) (pre ++ (map schar e ++ map schar (text_of us)) ++ [0]));
             '(add, end_, warn, err) ← escape_char_1 s false Enone Enone;
             Ok (add, (length pre + 1 + end_)%nat, [(warn, err, (length pre + 1)%nat)])
           else Ok (v0, (length pre + 1)%nat, []));
        out ← unit_set (done_ ++ replicate (length (v :: us) + k) 0) (length done_) (conv CSTRING_ASCII add);
        if (length done_ + 1 <=? n)%nat then
          '(out, iout, rs) ← escape_copy fuel (pre ++ (map schar e ++ map schar (text_of us)) ++ [0]) n
             next (length done_ + 1) false out;
          Ok (out, iout, reports ++ rs)
        else Ice "iout <= cstr->count") =
        Ok (done_ ++ (v :: us) ++ replicate k 0, (length done_ + length (v :: us))%nat, rs') /\
        Forall (fun r => fst r = (Enone, Enone)) rs') as Esc.
    { intros e' add Ee Hn' Hec Hc.
      set (src := pre ++ (map schar e ++ map schar (text_of us)) ++ [0]) in *.
      assert (src = pre ++ schar bslash :: (map schar (e' ++ text_of us) ++ 0 :: [])) as Es
        by (unfold src; rewrite Ee, map_app; done).
      assert (unit_get src (length pre) = Ok (schar bslash)) as -> by (rewrite Es; apply unit_get_mid).
      assert (c_string (drop (length pre + 1) src) = Ok (e' ++ text_of us)) as Ec.
      { rewrite Es, drop_app_add. apply c_string_text.
        pose proof (escape_unit_nul_free us F'). set_solver. }
      run. change (schar bslash =? code bslash) with true. cbn match. rewrite Ec.
      run. rewrite Hec. run.
      assert (length pre + 1 + length e' = length pre + length e)%nat as -> by (rewrite Ee; simpl; lia).
      apply (Step add [(Enone, Enone, (length pre + 1)%nat)] Hc). by constructor. }
    destruct ((v =? code bslash) || (v =? code dquote)) eqn:Eq; [|destruct (octal_unit v) eqn:Eo].
    + apply (Esc [chr v] v); [unfold e, escape_unit; by rewrite Eq | | by apply escape_char_1_quoted |].
      * apply orb_true_iff in Eq as [Eq|Eq]; apply Z.eqb_eq in Eq; subst; by_decide.
      * apply wraps_id; [lia|done].
    + destruct (octal3_digits v Hv) as (a & b & c & E3 & Ha & Hb & Hc & Hw & Hr & Hwr).
      assert (e = octal3 (wrapu 8 v)) as Ee.
      { unfold e, escape_unit, octal_unit in *. rewrite Eq in *. simpl in Eo. by rewrite Eo. }
      rewrite E3 in Ee.
      apply (Esc _ (a * 64 + b * 8 + c) Ee).
      * assert (forall d, 0 <= d < 8 -> NUL <> chr (48 + d)) as N.
        { intros d Hd E'. destruct (octal_digit d Hd) as (O & _). by rewrite <- E' in O. }
        rewrite !elem_of_cons. intros [?|[?|[?|?%elem_of_nil]]]; try done; (eapply N; [|eassumption]; done).
      * apply escape_char_1_octal; try done; [lia|]. apply text_of_cur; [done|]. by apply J.
      * rewrite Hw. exact Hwr.
    + assert (v =? code bslash = false /\ v =? code dquote = false) as (Eb & Ed) by lia.
      assert (e = [chr v]) as Ee by (by apply escape_unit_plain).
      assert (unit_get (pre ++ (map schar e ++ map schar (text_of us)) ++ [0]) (length pre) = Ok v) as ->
        by (rewrite Ee; cbn [map app]; rewrite unit_get_mid, schar_chr; done).
      run. rewrite Eb. run.
      assert (length pre + 1 = length pre + length e)%nat as -> by (by rewrite Ee).
      apply (Step v []); [apply wraps_id; [lia|done] | done].
Qed.

Lemma escape_len_bound (us : list Z) : (length (text_of us) <= escape_len us)%nat.
Proof.
  induction us as [|v us IH]; [done|]. unfold text_of, escape_len in *.
  cbn [map concat foldr]. rewrite length_app. unfold escape_unit at 1. destruct ((v =? code bslash) || (v =? code dquote)); [cbn [length]; lia|].
  destruct (negb (isprint_int v)); cbn [length octal3]; lia.
Qed.

(** C37: a narrow literal printed by [str_add_escape] (for the assembler, or for
    another reading) fits the buffer computed for it and, read back as a raw
    literal and unescaped, is the same string, without warnings or errors - as
    long as no octal escape is followed by an underscore, which the reader of
    escapes would take for a digit separator. *)
Theorem literal_escape_roundtrip (c : cstring) :
  wf_lit 0 c -> Forall (fun v => -128 <= v < 128) (content c) -> no_join (content c) ->
  exists text raw c' reports,
    str_add_escape c = Ok text /\ cstring_new CSTRING_RAW text (length text) false = Ok raw /\
    cstring_escape raw false = Ok (c', reports) /\
    content c' = content c /\ count c' = count c /\ type c' = CSTRING_ASCII /\
    Forall (fun r => fst r = (Enone, Enone)) reports.
Proof.
  intros W F J. pose proof (content_length 0 c W) as Lc. unfold wf_lit in W.
  pose proof (escape_len_bound (content c)) as Lb. set (text := text_of (content c)) in *.
  assert (length (content c) <= length text)%nat as Lt.
  { unfold text, text_of. clear. induction (content c) as [|v us IH]; [simpl; lia|]. simpl. rewrite length_app.
    pose proof (escape_unit_length v). lia. }
  destruct (escape_copy_spec (content c) [] [] (length text + 1 - length (content c)) (S (length text)) F J)
    as (rs & R & C); [done | lia |].
  cbn [app length Nat.add] in R. fold text in R.
  replace (length (content c) + (length text + 1 - length (content c)))%nat with (length text + 1)%nat in R by lia.
  assert (take (length text) (text ++ [NUL]) = text) as Tk by apply take_app_length.
  eexists text, _, _, rs. split; [|split; [|split; [|split; [|split; [|split]]]]].
  - unfold str_add_escape. if_false. fold (content c). unfold text, text_of in Lb |- *. if_true. done.
  - unfold cstring_new, cstring_init. if_true. done.
  - unfold cstring_escape. cbn [type units count]. rewrite Tk.
    cbn [Nat.add]. rewrite R. run. reflexivity.
  - unfold content at 1. cbn [units count]. apply take_app_length.
  - cbn [count]. exact Lc.
  - done.
  - done.
Qed.

Lemma literal_escape_roundtrip_witness :
  let c := {| type := CSTRING_ASCII; units := [97; 34; 10; -1; 0; 92]; count := 5 |} in
  exists text raw c' reports,
    str_add_escape c = Ok text /\ text = str "a\" ++ dquote :: str "\012\377\000" /\
    cstring_new CSTRING_RAW text (length text) false = Ok raw /\
    cstring_escape raw false = Ok (c', reports) /\ content c' = content c.
Proof.
  intros c. destruct (literal_escape_roundtrip c) as (text & raw & c' & reports & H1 & H2 & H3 & H4 & _).
  - vm_compute. lia.
  - vm_compute. repeat constructor; discriminate.
  - vm_compute. repeat split; discriminate.
  - exists text, raw, c', reports. split; [exact H1|]. split; [|by split_and!].
    injection H1 as <-. reflexivity.
Defined.

(** The separators of integer literals are eaten after an escape too. *)
Example escape_eats_underscore :
  cstring_escape {| type := CSTRING_RAW; units := map schar (str "\0_b") ++ [0]; count := 4 |} false
  = Ok ({| type := CSTRING_ASCII; units := [0; 98; 0; 0; 0]; count := 2 |}, [(Enone, Enone, 1%nat)]).
Proof. reflexivity. Qed.

(** ** Interning *)

Section Intern.
  Variable heap : ptr -> cstring.

Abbreviation same a b := (cstring_eq (heap a) (heap b) = 0).

Lemma same_spec (a b : ptr) :
  same a b <-> type (heap a) = type (heap b) /\ count (heap a) = count (heap b) /\ content (heap a) = content (heap b).
Proof. apply cstring_eq_spec. Qed.

Lemma hash_loop_range (us : list Z) (h : Z) : is_u 32 h -> is_u 32 (cstring_hash_loop us h).
Proof.
  revert h. induction us as [|v us IH]; intros h Hh; [done|]. simpl. apply IH, wrapu_range. lia.
Qed.

(** Interning keeps the contract of the hash map: literals compare by content,
    and the hash depends on the content alone. *)
#[export] Instance strings_contract : KeyContract (strings_new heap).
Proof.
  constructor; unfold strings_new, key_match; cbn [cmp hash].
  - intros a _. apply Z.eqb_eq, same_spec. done.
  - intros a b H. apply Z.eqb_eq in H. apply Z.eqb_eq, same_spec.
    apply same_spec in H. naive_solver.
  - intros a b c H1 H2. apply Z.eqb_eq in H1, H2. apply Z.eqb_eq, same_spec.
    apply same_spec in H1, H2. destruct_and!. split_and!; congruence.
  - intros a b _ _ H. apply Z.eqb_eq, same_spec in H as (_ & _ & Hc).
    change (cstring_hash_loop (content (heap a)) 5381 = cstring_hash_loop (content (heap b)) 5381).
    by rewrite Hc.
  - intros a. apply hash_loop_range. unfold is_u. lia.
Qed.

(** Every literal interned has been given the next label, and the table binds
    a key to the one literal of its content. *)
Record interned (st : strings) : Prop := {
  in_tbl : forall t, lit_tbl st = Some t -> map_ok t /\ KeyContract t /\ cmp t = cmp (strings_new heap);
  in_none : lit_tbl st = None -> lits st = [];
  in_binding : forall t k, lit_tbl st = Some t -> k <> NULL ->
    match binding t k with
    | Some v => exists i s, v = Z.of_nat (S i) /\ lits st !! i = Some s /\ same (lit_cstr s) k
    | None => forall i s, lits st !! i = Some s -> ~ same (lit_cstr s) k
    end;
  in_distinct : forall i j s s', lits st !! i = Some s -> lits st !! j = Some s' ->
    lbl s = lbl s' \/ same (lit_cstr s) (lit_cstr s') -> i = j;
  in_fresh : forall i s, lits st !! i = Some s -> exists ty n, lbl s = store_label ty n /\ n < str_last st;
  in_last : 1 <= str_last st
}.

Lemma interned_new : interned {| lit_tbl := None; lits := []; str_last := 1 |}.
Proof. by constructor. Qed.

Lemma pretty_go_length (k : nat) (x : N) (s : string) :
  (x < 10 ^ N.of_nat k)%N -> (String.length (pretty_N_go x s) <= k + String.length s)%nat.
Proof.
  revert x s. induction k as [|k IH]; intros x s H.
  - assert (x = 0)%N as -> by (simpl in H; lia). by rewrite pretty_N_go_0.
  - destruct (decide (x = 0)%N) as [->|N]; [rewrite pretty_N_go_0; lia|]. rewrite pretty_N_go_step by lia.
    etrans; [apply IH|simpl; lia]. apply N.Div0.div_lt_upper_bound.
    by replace (10 * 10 ^ N.of_nat k)%N with (10 ^ N.of_nat (S k))%N by (rewrite Nat2N.inj_succ, N.pow_succ_r'; lia).
Qed.

Lemma pretty_length (n : Z) : 0 < n < 2 ^ 31 -> (String.length (pretty n) <= 10)%nat.
Proof.
  intros H. destruct n as [|p|p]; try lia.
  change (pretty (Z.pos p)) with (pretty_N_go (N.pos p) ""). etrans; [apply (pretty_go_length 10)|simpl; lia].
  change (10 ^ N.of_nat 10)%N with 10000000000%N. lia.
Qed.

Lemma string_length_app (a b : string) : String.length (a +:+ b) = (String.length a + String.length b)%nat.
Proof. induction a as [|c a IH]; [done|]. exact (f_equal S IH). Qed.

(** The label of a literal fits. *)
Lemma label_store_ok (ty : out_label_store) (n : Z) :
  ty = STORE_P_CHAR \/ ty = STORE_P_WCHAR -> 0 < n < 2 ^ 31 - 1 ->
  out_label_data_store ty n = Ok (store_label ty n, n + 1).
Proof.
  intros Ht Hn. unfold out_label_data_store. rewrite bool_decide_eq_true_2 by (unfold is_s; lia).
  pose proof (pretty_length n ltac:(lia)) as L. cbv zeta.
  assert (String.length (store_label ty n) < 16)%nat as B; [|by apply Nat.leb_gt in B as ->].
  unfold store_label. rewrite !string_length_app. destruct Ht as [-> | ->]; cbn; lia.
Qed.

Lemma label_inj (ty ty' : out_label_store) (n n' : Z) :
  store_label ty n = store_label ty' n' -> ty = ty' /\ n = n'.
Proof.
  unfold store_label. simpl.
  destruct ty, ty'; simpl; intros H; try discriminate H; (split; [done|]);
    repeat (injection H as H); by apply (inj pretty).
Qed.

(** Whether a table entry matches a key. *)
Lemma tbl_match (t : dynmap) (a b : ptr) :
  cmp t = cmp (strings_new heap) -> key_match t a b = true <-> same a b.
Proof. intros H. unfold key_match. rewrite H. simpl. apply Z.eqb_eq. Qed.

Lemma same_equiv (a b c : ptr) : same a b -> (same a c <-> same b c).
Proof. rewrite !same_spec. intuition congruence. Qed.

Lemma same_sym (a b : ptr) : same a b -> same b a.
Proof. rewrite !same_spec. intuition congruence. Qed.

Lemma set_cmp (t t' : dynmap) (k v o : ptr) : dynmap_nochk_set t k v = Ok (t', o) -> cmp t' = cmp t.
Proof.
  unfold dynmap_nochk_set. destruct (k =? NULL); [done|].
  destruct (dynmap_nochk_pair t k) as [[i f]| | | |]; try done. run.
  destruct (get_chain t i); try done. run.
  destruct f as [[pos old]|]; [by intros [= <- _]|].
  destruct a; [done|]. destruct (negb _); by intros [= <- _].
Qed.

(** One lookup: the state stays sound, older literals stay where they are, and
    the result is the literal of this content. *)
Lemma strings_lookup_ok (st : strings) (c : ptr) :
  interned st -> c <> NULL -> str_last st < 2 ^ 31 - 1 ->
  exists st' i s, strings_lookup heap st c = Ok (st', Z.of_nat (S i)) /\ interned st' /\
    lits st `prefix_of` lits st' /\ lits st' !! i = Some s /\ same (lit_cstr s) c /\
    str_last st' <= str_last st + 1.
Proof.
  intros I Hc Hlast. pose proof (in_last _ I) as Hlast1.
  set (tbl := match lit_tbl st with None => strings_new heap | Some t => t end).
  assert (map_ok tbl /\ KeyContract tbl /\ cmp tbl = cmp (strings_new heap) /\
    (forall k, k <> NULL -> match binding tbl k with
      | Some v => exists i s, v = Z.of_nat (S i) /\ lits st !! i = Some s /\ same (lit_cstr s) k
      | None => forall i s, lits st !! i = Some s -> ~ same (lit_cstr s) k end))
    as (Mt & Kt & Ct & Bt).
  { unfold tbl. destruct (lit_tbl st) as [t|] eqn:Et.
    - destruct (in_tbl _ I t Et) as (? & ? & ?). split_and!; try done. intros k Hk. by apply in_binding.
    - split; [apply new_ok|]. split; [apply _|]. split; [done|]. intros k Hk.
      rewrite (in_none _ I Et).
      assert (binding (strings_new heap) k = None) as ->; [|done].
      apply binding_new; [apply strings_contract | done]. }
  unfold strings_lookup. fold tbl.
  destruct (dynmap_get_run tbl c Mt Hc) as (-> & _). run.
  pose proof (Bt c Hc) as Bc. destruct (binding tbl c) as [v|] eqn:Eb; simpl default.
  - destruct Bc as (i & s & -> & Hi & Hs).
    destruct (Z.eqb_spec (Z.of_nat (S i)) NULL); [unfold NULL in *; lia|].
    eexists _, i, s. split; [done|]. split; [|split_and!; try done; simpl; lia].
    constructor; simpl; [by intros t [= <-] | done | by intros t k [= <-]; apply Bt
      | by eapply in_distinct | by eapply in_fresh | done].
  - set (ty := if bool_decide _ then STORE_P_WCHAR else STORE_P_CHAR).
    rewrite label_store_ok by (unfold ty; first [lia|case_bool_decide; auto]). run.
    set (l := store_label ty (str_last st)). set (n := str_last st + 1).
    set (x := {| lbl := l; lit_cstr := c; use_cnt := 0 |}).
    destruct (dynmap_set_spec tbl c (Z.of_nat (length (lits st ++ [x]))) Mt Hc) as (t' & Hs & Mt' & Kt' & Bt').
    change (0 =? NULL) with true. cbn match. rewrite Hs. run. rewrite Eb.
    change (default NULL None =? NULL) with true. cbn match.
    rewrite length_app. simpl length. rewrite Nat.add_1_r.
    eexists _, (length (lits st)), x. split; [done|]. simpl lits.
    assert ((lits st ++ [x]) !! length (lits st) = Some x) as Hx by (by apply list_lookup_middle).
    assert (forall i s, (lits st ++ [x]) !! i = Some s -> lits st !! i = Some s \/ (i = length (lits st) /\ s = x)) as Hold.
    { intros i s H. apply lookup_app_Some in H as [H|[H1 H2]]; [by left|].
      destruct (i - length (lits st))%nat as [|j] eqn:Ej; [|by destruct j].
      injection H2 as ->. right. split; [lia|done]. }
    split; [|split_and!; [by exists [x] | done | by apply same_spec | simpl; lia]].
    constructor; simpl lit_tbl; simpl lits; simpl str_last.
    + intros t [= <-]. split_and!; try done. by rewrite (set_cmp _ _ _ _ _ Hs).
    + done.
    + intros t k [= <-] Hk. rewrite Bt' by done. destruct (key_match tbl c k) eqn:Ek.
      * apply tbl_match in Ek; [|done]. exists (length (lits st)), x.
        split_and!; [|done|done]. rewrite length_app. simpl. lia.
      * specialize (Bt k Hk). destruct (binding tbl k) as [v|].
        -- destruct Bt as (i & s & -> & Hi & Hsame). exists i, s. split_and!; try done.
           by apply lookup_app_l_Some.
        -- intros i s [H|[-> ->]]%Hold; [by eapply Bt|]. simpl.
           intros Hsame. apply (tbl_match tbl c k Ct) in Hsame. congruence.
    + assert (forall i s, lits st !! i = Some s -> lbl s = l \/ same (lit_cstr s) c -> False) as New.
      { intros i s H [E|E]; [|by eapply Bc].
        destruct (in_fresh _ I i s H) as (ty' & n' & Hn' & Hlt). rewrite Hn' in E.
        apply label_inj in E as [_ ->]. lia. }
      intros i j s s' [Hi|[-> ->]]%Hold [Hj|[-> ->]]%Hold Hor; simpl in Hor; [by eapply in_distinct| | |done];
        exfalso; (eapply New; [eassumption|]); naive_solver eauto using same_sym.
    + intros i s [H|[-> ->]]%Hold.
      * destruct (in_fresh _ I i s H) as (ty' & n' & ? & ?). exists ty', n'. split; [done|]. unfold n. lia.
      * exists ty, (str_last st). split; [done|]. unfold n. lia.
    + unfold n. lia.
Qed.

(** Looking literals up one after the other. *)
Fixpoint strings_lookup_all (st : strings) (cs : list ptr) : res (strings * list ptr) :=
  match cs with
  | [] => Ok (st, [])
  | c :: cs =>
      '(st, l) ← strings_lookup heap st c;
      '(st, ls) ← strings_lookup_all st cs;
      Ok (st, l :: ls)
  end.

(** The label of the [stringlit] at an address. *)
Definition label_at (st : strings) (l : ptr) : option string := lbl <$> lits st !! Z.to_nat (l - 1).

Lemma lookup_all_ok (cs : list ptr) (st : strings) :
  interned st -> Forall (fun c => c <> NULL) cs -> str_last st + Z.of_nat (length cs) < 2 ^ 31 ->
  exists st' is_, strings_lookup_all st cs = Ok (st', map (fun i => Z.of_nat (S i)) is_) /\
    interned st' /\ lits st `prefix_of` lits st' /\
    Forall2 (fun c i => exists s, lits st' !! i = Some s /\ same (lit_cstr s) c) cs is_.
Proof.
  revert st. induction cs as [|c cs IH]; intros st I F Hn; [by exists st, []|].
  inversion F as [|? ? Hc F']; subst. cbn [length] in Hn.
  destruct (strings_lookup_ok st c I Hc ltac:(lia)) as (st1 & i & s & H1 & I1 & P1 & L1 & S1 & B1).
  destruct (IH st1 I1 F' ltac:(lia)) as (st' & is_ & H2 & I2 & P2 & A2).
  exists st', (i :: is_). cbn [strings_lookup_all]. rewrite H1. run. rewrite H2. run.
  split_and!; [done | done | by etrans | constructor; [|done]].
  exists s. split; [|done]. by eapply prefix_lookup_Some.
Qed.

(** C38: string literals are interned by content. As long as the [int] that
    numbers the labels does not overflow, which needs 2^31 - 1 lookups, every
    lookup, in whatever order the literals are met, returns a literal whose
    label fits its buffer, and two of them get the same label exactly when they
    have the same type and the same elements; different literals never share a
    label. *)
Theorem strings_interned (cs : list ptr) :
  Forall (fun c => c <> NULL) cs -> Z.of_nat (length cs) < 2 ^ 31 - 1 ->
  exists st ls, strings_lookup_all {| lit_tbl := None; lits := []; str_last := 1 |} cs = Ok (st, ls) /\
    length ls = length cs /\
    forall i j ci cj li lj, cs !! i = Some ci -> cs !! j = Some cj -> ls !! i = Some li -> ls !! j = Some lj ->
      is_Some (label_at st li) /\
      (label_at st li = label_at st lj <-> cstring_eq (heap ci) (heap cj) = 0).
Proof.
  intros F Hn. destruct (lookup_all_ok cs _ interned_new F ltac:(simpl; lia)) as (st & is_ & H & I & _ & A).
  exists st, (map (fun i => Z.of_nat (S i)) is_). split; [done|].
  split; [rewrite length_map; symmetry; by eapply Forall2_length|].
  intros i j ci cj li lj Hi Hj Hli Hlj.
  rewrite list_lookup_fmap in Hli, Hlj.
  destruct (is_ !! i) as [a|] eqn:Ea; [|done]. destruct (is_ !! j) as [b|] eqn:Eb; [|done].
  simpl in Hli, Hlj. injection Hli as <-. injection Hlj as <-.
  destruct (Forall2_lookup_lr _ _ _ _ _ _ A Hi Ea) as (s & Hs & Ss).
  destruct (Forall2_lookup_lr _ _ _ _ _ _ A Hj Eb) as (s' & Hs' & Ss').
  assert (forall n, Z.to_nat (Z.of_nat (S n) - 1) = n) as Z1 by (intros; lia).
  unfold label_at. rewrite !Z1, Hs, Hs'. simpl. split; [by eexists|]. split.
  - intros [= E]. assert (a = b) as -> by (eapply in_distinct; eauto).
    rewrite Hs in Hs'. injection Hs' as <-. by apply (same_equiv _ _ cj Ss).
  - intros E. f_equal. assert (a = b) as ->; [|congruence].
    eapply in_distinct; [exact I|exact Hs|exact Hs'|]. right.
    apply same_sym in Ss'. rewrite !same_spec in *. intuition congruence.
Qed.
End Intern.

(** Three literals in memory, the first and the third alike. *)
Definition heap3 (p : ptr) : cstring :=
  {| type := CSTRING_ASCII; units := if p =? 2 then [98; 0] else [97; 0]; count := 2 |}.

Lemma strings_interned_witness :
  exists st ls, strings_lookup_all heap3 {| lit_tbl := None; lits := []; str_last := 1 |} [1; 2; 3] = Ok (st, ls) /\
    label_at st (nth 0 ls 0) = label_at st (nth 2 ls 0) /\ label_at st (nth 0 ls 0) <> label_at st (nth 1 ls 0).
Proof.
  destruct (strings_interned heap3 [1; 2; 3]) as (st & ls & H & Hl & S);
    [repeat constructor; discriminate|reflexivity|].
  exists st, ls. split; [exact H|].
  destruct ls as [|l0 [|l1 [|l2 [|]]]]; try discriminate Hl.
  split.
  - by apply (S 0%nat 2%nat 1 3 l0 l2).
  - intros E. by apply (S 0%nat 1%nat 1 2 l0 l1) in E.
Defined.

(** ** Concatenation *)

Lemma widen_run (c : cstring) :
  type c <> CSTRING_WIDE -> wf_lit 1 c ->
  cstring_widen c = Ok {| type := CSTRING_WIDE; units := take (count c + 1) (units c); count := count c |}.
Proof.
  unfold wf_lit, cstring_widen. intros Ht Hw.
  rewrite units_copy_run by (rewrite ?length_replicate; lia). run.
  rewrite drop_ge by (rewrite length_replicate; lia). rewrite app_nil_r. by destruct (type c).
Qed.

(** What both operands come to: the same elements, of the wider type. *)
Lemma append_types (out addend : cstring) :
  wf_lit 1 out -> wf_lit 1 addend ->
  type out = type addend \/ type out = CSTRING_WIDE \/ type addend = CSTRING_WIDE ->
  exists o a,
    (if negb (bool_decide (type addend = type out)) then
       if bool_decide (type addend = CSTRING_WIDE) then
         (out ← cstring_widen out; Ok (out, addend))
       else if bool_decide (type out = CSTRING_WIDE) then
         (addend ← cstring_widen addend; Ok (out, addend))
       else Ice "CSTRING_WIDE"
     else Ok (out, addend)) = Ok (o, a) /\
    type o = type a /\ (type o = if bool_decide (type out = type addend) then type out else CSTRING_WIDE) /\
    count o = count out /\ count a = count addend /\ content o = content out /\ content a = content addend /\
    wf_lit 1 o /\ wf_lit 1 a.
Proof.
  intros Wo Wa Ht.
  assert (forall c, wf_lit 1 c -> wf_lit 1 {| type := CSTRING_WIDE; units := take (count c + 1) (units c); count := count c |}
    /\ content {| type := CSTRING_WIDE; units := take (count c + 1) (units c); count := count c |} = content c) as K.
  { unfold wf_lit, content. intros c Hc. simpl. rewrite length_take, take_take. split; [lia|]. f_equal. lia. }
  destruct (decide (type addend = type out)) as [E|E].
  - rewrite bool_decide_true by done. simpl. exists out, addend. rewrite bool_decide_true by done. by split_and!.
  - rewrite bool_decide_false by done. simpl. rewrite (bool_decide_false (type out = type addend)) by done.
    case_bool_decide as Ea.
    + rewrite widen_run by congruence. run. eexists _, addend. split; [done|]. destruct (K out Wo). by split_and!.
    + rewrite bool_decide_true by naive_solver. rewrite widen_run by congruence. run.
      eexists out, _. split; [done|]. destruct (K addend Wa). split_and!; try done; naive_solver.
Qed.

(** adjacent literals concatenate: the result is the first literal without its
    final NUL, if it ends in one, followed by the second, its own NUL
    included; mixed with a wide literal a narrow one is widened first. Every
    access stays inside the two allocations when each keeps the spare element
    that construction gives it. *)
Theorem cstring_append_concat (junk : Z) (out addend : cstring) :
  wf_lit 1 out -> wf_lit 1 addend -> count out <> 0%nat ->
  type out = type addend \/ type out = CSTRING_WIDE \/ type addend = CSTRING_WIDE ->
  exists out' addend', cstring_append junk out addend = Ok (out', addend') /\
    type out' = (if bool_decide (type out = type addend) then type out else CSTRING_WIDE) /\
    content out' =
      (if bool_decide (last (content out) = Some 0) then removelast (content out) else content out)
      ++ content addend /\
    content addend' = content addend /\ wf_lit 1 out' /\ wf_lit 1 addend'.
Proof.
  intros Wo Wa Hc Ht. unfold cstring_append.
  destruct (count out) as [|n] eqn:En; [done|].
  assert (exists l, units out !! n = Some l) as (l & Hl) by (apply lookup_lt_is_Some_2; unfold wf_lit in Wo; lia).
  unfold unit_get. rewrite Hl. run.
  assert (content out = take n (units out) ++ [l]) as Eco
    by (unfold content; rewrite En; by apply take_S_r).
  rewrite Eco, last_snoc, removelast_app, app_nil_r by done.
  destruct (append_types out addend Wo Wa Ht) as (o & a & -> & T1 & T2 & Co & Ca & Cto & Cta & Wo' & Wa').
  run. rewrite Co, Ca, En.
  set (m := count addend) in *. pose proof (content_length 1 a Wa') as La. rewrite Cta, Ca in La.
  unfold wf_lit in Wo', Wa'. rewrite Co, En in Wo'. rewrite Ca in Wa'.
  assert (take (S n) (units o) = content out) as Eo by (rewrite <- Cto; unfold content; by rewrite Co, En).
  assert (take m (units a) = content addend) as Ea by (rewrite <- Cta; unfold content; by rewrite Ca).
  set (u := urealloc1 junk (units o) (S n + m + 1)).
  assert (length u = S n + m + 1)%nat as Lu.
  { unfold u, urealloc1. rewrite length_take, length_app, length_replicate. lia. }
  assert (forall k, (k <= S n)%nat -> take k u = take k (content out)) as Tu.
  { intros k Hk. unfold u, urealloc1. rewrite take_take, take_app_le by lia.
    rewrite <- Eo, take_take. f_equal. lia. }
  set (d := if l =? 0 then 1%nat else 0%nat).
  assert (d <= 1)%nat as Hd by (unfold d; destruct (l =? 0); lia).
  rewrite units_copy_run by lia. run. eexists _, a. split; [done|]. cbn [type].
  split; [exact T2|].
  assert (take (S n + m - d) (take (S n + m - m - d) u ++ take (m + 1) (units a) ++ drop (S n + m - m - d + (m + 1)) u)
    = take (S n - d) (content out) ++ content addend) as Final.
  { rewrite Tu by lia. replace (S n + m - m - d)%nat with (S n - d)%nat by lia.
    assert (length (content out) = S n) as Lc by (rewrite <- En; by apply (content_length 1)).
    rewrite take_app_ge by (rewrite length_take; lia). f_equal.
    rewrite length_take, Lc. replace (S n + m - d - (S n - d) `min` S n)%nat with m by lia.
    rewrite take_app_le by (rewrite length_take; lia). rewrite take_take.
    by replace (m `min` (m + 1))%nat with m by lia. }
  assert (length (take n (units out)) = n) as Ln by (rewrite length_take; unfold wf_lit in Wo; lia).
  split.
  - unfold content. cbn [count units]. unfold d in *.
    destruct (Z.eqb_spec l 0) as [->|Hne].
    + rewrite bool_decide_true by done. rewrite Final. f_equal. rewrite Eco.
      replace (S n - 1)%nat with (length (take n (units out))) by lia. apply take_app_length.
    + rewrite bool_decide_false by (intros [=]; done). rewrite Nat.sub_0_r in Final. rewrite Final. f_equal.
      rewrite Nat.sub_0_r, Eco. apply take_ge. rewrite length_app. simpl. lia.
  - split; [done|]. split; [|unfold wf_lit; lia].
    unfold wf_lit. cbn [count units]. rewrite !length_app, !length_take, length_drop, Lu.
    destruct (l =? 0); lia.
Qed.

Lemma cstring_append_concat_witness :
  let a := {| type := CSTRING_ASCII; units := [97; 0; 0]; count := 2 |} in
  let b := {| type := CSTRING_WIDE; units := [233; 0; 0]; count := 2 |} in
  exists out' addend', cstring_append 7 a b = Ok (out', addend') /\
    type out' = CSTRING_WIDE /\ content out' = [97; 233; 0].
Proof.
  intros a b. destruct (cstring_append_concat 7 a b) as (o & d & H & T & C & _);
    [vm_compute; lia | vm_compute; lia | done | by right; right |].
  exists o, d. split; [exact H|]. split; [exact T | exact C].
Defined.

(** A literal made with its NUL counted has no spare element until it is
    unescaped: concatenating it raw would read past it. *)
Example append_unescaped :
  (l ← cstring_new CSTRING_RAW (str "a") 1 true; cstring_append 7 l l) = Ub "memcpy outside the literal".
Proof. reflexivity. Qed.
