(* ===== verification/Libc.v ===== *)
(** * Library routines

    The functions of the C library the sources read numbers with. *)

From S2P Require Import Prelude CStr Escape.
Open Scope Z_scope.

Definition LONG_MAX : Z := 9223372036854775807.

(** [strtol(s, &ep, 0)] for a string that starts with a digit. *)
Definition strtol (s : cstr) : Z * cstr :=
  let hex := (cur s =c "0"%char) && ((at_ s 1 =c "x"%char) || (at_ s 1 =c "X"%char)) && isxdigit (at_ s 2) in
  let '(b, test, s) :=
    if hex then (16, isxdigit, drop 2 s)
    else if cur s =c "0"%char then (8, isodigit, s) else (10, isdigit, s) in
  let ep := skip_while test s in
  let ds := take (length s - length ep) s in
  (Z.min (foldl (fun v c => v * b + digit_val c) 0 ds) LONG_MAX, ep).

(** [strtol] with base 0 or 10: the value, truncated to [int], and [endp];
    nothing is read if there are no digits. *)
Definition strtol_int (auto : bool) (s : cstr) : Z * cstr :=
  let s1 := str_spc_skip s in
  let neg := cur s1 =c "-"%char in
  let s2 := if neg || (cur s1 =c "+"%char) then drop 1 s1 else s1 in
  if negb (isdigit (cur s2)) then (0, s)
  else
    let hex := (cur s2 =c "0"%char) && ((at_ s2 1 =c "x"%char) || (at_ s2 1 =c "X"%char)) && isxdigit (at_ s2 2) in
    let '(b, test, s3) :=
      if negb auto then (10, isdigit, s2)
      else if hex then (16, isxdigit, drop 2 s2)
      else if cur s2 =c "0"%char then (8, isodigit, s2) else (10, isdigit, s2) in
    let e := skip_while test s3 in
    let v := foldl (fun v c => v * b + digit_val c) 0 (take (length s3 - length e) s3) in
    (s32 (if neg then Z.max (- v) (- LONG_MAX - 1) else Z.min v LONG_MAX), e).
