(* ===== verification/CppExpr.v ===== *)
(** * Preprocessor expressions

    [src/src/cpp2/expr_tok.c] and [src/src/cpp2/expr.c]: tokenising, parsing and
    evaluating the controlling expression of [#if] and [#elif]. A token is an
    [int]: a negative constant, or the (signed) character itself. What an
    expression means is a relation of its own, [means], against which the
    evaluator is proved. *)

From S2P Require Import Prelude CStr Escape Libc.
Open Scope Z_scope.

(** ** Tokens *)

Definition tok_ident : Z := -1.
Definition tok_num : Z := -2.
Definition tok_eof : Z := 0.
Definition tok_orsc : Z := -3.
Definition tok_andsc : Z := -4.
Definition tok_shiftl : Z := -5.
Definition tok_shiftr : Z := -6.
Definition tok_eq : Z := -7.
Definition tok_ne : Z := -8.
Definition tok_le : Z := -9.
Definition tok_ge : Z := -10.
Definition MIN_OP : Z := -10.

Definition tok_lparen : Z := 40.   (* ( *)
Definition tok_rparen : Z := 41.   (* ) *)
Definition tok_multiply : Z := 42. (* * *)
Definition tok_divide : Z := 47.   (* / *)
Definition tok_modulus : Z := 37.  (* % *)
Definition tok_plus : Z := 43.
Definition tok_minus : Z := 45.
Definition tok_xor : Z := 94.
Definition tok_or : Z := 124.
Definition tok_and : Z := 38.
Definition tok_not : Z := 33.
Definition tok_bnot : Z := 126.
Definition tok_lt : Z := 60.
Definition tok_gt : Z := 62.
Definition tok_question : Z := 63.
Definition tok_colon : Z := 58.

(** The tokeniser's globals [tok_pos], [tok_cur] and [tok_cur_num]. *)
Record toks : Type := mk_toks { tok_pos : cstr; tok_cur : Z; tok_cur_num : Z }.

Definition num_suffix (c : ascii) : bool := (c =c "L"%char) || (c =c "U"%char).

Definition tok_begin (begin_ : cstr) (t : toks) : toks :=
  {| tok_pos := begin_; tok_cur := tok_cur t; tok_cur_num := tok_cur_num t |}.

(** A character constant, from after its opening quote. *)
Definition tok_char (pos : cstr) (wide : bool) : res toks :=
  l ← char_quotefin pos;
  let limit := match l with Some r => Some (length pos - length r)%nat | None => None end in
  '(v, end_, mchar, warn, err) ← escape_char pos limit wide Enone Enone;
  match err with
  | EILSEQ => Die "incomplete escape sequence in literal"
  | ERANGE => Die "character escape out of range"
  | _ => Ok {| tok_pos := drop (Z.to_nat (end_ + 1)) pos; tok_cur := tok_num; tok_cur_num := v |}
  end.

(** The operator that starts with [c]; [pos] is what follows [c]. *)
Definition tok_op (c : ascii) (pos : cstr) : Z * cstr :=
  let d := cur pos in
  if (d =c "|"%char) && (c =c "|"%char) then (tok_orsc, drop 1 pos)
  else if (d =c "&"%char) && (c =c "&"%char) then (tok_andsc, drop 1 pos)
  else if (d =c "<"%char) && (c =c "<"%char) then (tok_shiftl, drop 1 pos)
  else if (d =c ">"%char) && (c =c ">"%char) then (tok_shiftr, drop 1 pos)
  else if d =c "="%char then
    if c =c "="%char then (tok_eq, drop 1 pos)
    else if c =c "!"%char then (tok_ne, drop 1 pos)
    else if c =c "<"%char then (tok_le, drop 1 pos)
    else if c =c ">"%char then (tok_ge, drop 1 pos)
    else (schar c, pos)
  else (schar c, pos).

Definition tok_next (t : toks) : res toks :=
  let num := tok_cur_num t in
  match tok_pos t with
  | [] => Ok {| tok_pos := []; tok_cur := tok_eof; tok_cur_num := num |}
  | _ =>
      let pos := str_spc_skip (tok_pos t) in
      if isdigit (cur pos) then
        let '(n, ep) := strtol pos in
        Ok {| tok_pos := skip_while num_suffix ep; tok_cur := tok_num; tok_cur_num := n |}
      else if cur pos =c squote then tok_char (drop 1 pos) false
      else if (cur pos =c "L"%char) && (at_ pos 1 =c squote) then tok_char (drop 2 pos) true
      else if isalpha (cur pos) || (cur pos =c "_"%char) then
        Ok {| tok_pos := word_end pos; tok_cur := tok_ident; tok_cur_num := num |}
      else match pos with
      | [] => Ok {| tok_pos := []; tok_cur := tok_eof; tok_cur_num := num |}
      | c :: pos =>
          let '(op, pos) := tok_op c pos in
          Ok {| tok_pos := pos; tok_cur := op; tok_cur_num := num |}
      end
  end.

(** ** Parsing *)

Abbreviation e_op := Z.

Inductive expr : Type :=
  | E_IDENT
  | E_NUM (n : Z)
  | E_OP (op : e_op) (lhs rhs : expr)
  | E_UOP (op : e_op) (e : expr)
  | E_TOP (e if_true_ if_false_ : expr).

Definition is_op (op : e_op) : bool :=
  bool_decide (op ∈ [tok_multiply; tok_divide; tok_modulus; tok_plus; tok_minus; tok_xor; tok_or;
    tok_and; tok_orsc; tok_andsc; tok_shiftl; tok_shiftr; tok_not; tok_bnot; tok_eq; tok_ne; tok_le;
    tok_lt; tok_ge; tok_gt; tok_question]).

Definition MAX_PRI : Z := 20.

(** What [expr_init] stores: smaller binds tighter. *)
Definition pred_table : list (Z * Z) :=
  [ (tok_multiply, 1); (tok_divide, 1); (tok_modulus, 1); (tok_plus, 2); (tok_minus, 2);
    (tok_shiftl, 3); (tok_shiftr, 3); (tok_le, 4); (tok_lt, 4); (tok_ge, 4); (tok_gt, 4);
    (tok_eq, 5); (tok_ne, 5); (tok_and, 6); (tok_xor, 7); (tok_or, 8); (tok_andsc, 9);
    (tok_orsc, 10); (tok_question, 11) ].

Fixpoint pred_find (tbl : list (Z * Z)) (op : Z) : Z :=
  match tbl with
  | [] => MAX_PRI
  | (o, p) :: tbl => if o =? op then p else pred_find tbl op
  end.

(** [preds[op - MIN_OP]], an array of 255. *)
Definition PRECEDENCE (op : Z) : res Z :=
  if (MIN_OP <=? op) && (op <? 255 + MIN_OP) then Ok (pred_find pred_table op)
  else Ub "preds[] index out of range".

Fixpoint parse_primary (fuel : nat) (t : toks) : res (expr * toks) :=
  match fuel with
  | O => NoFuel
  | S fuel =>
      let c := tok_cur t in
      if c =? tok_ident then t ← tok_next t; Ok (E_IDENT, t)
      else if c =? tok_num then t ← tok_next t; Ok (E_NUM (tok_cur_num t), t)
      else if c =? tok_lparen then
        t ← tok_next t;
        '(e, t) ← parse fuel t;
        if tok_cur t =? tok_rparen then (t ← tok_next t; Ok (e, t))
        else Die "close paren expected"
      else if (c =? tok_not) || (c =? tok_bnot) || (c =? tok_minus) then
        t ← tok_next t;
        '(e, t) ← parse_primary fuel t;
        Ok (E_UOP c e, t)
      else Die "expression expected"
  end
with parse_rhs (fuel : nat) (lhs : expr) (priority : Z) (t : toks) : res (expr * toks) :=
  match fuel with
  | O => NoFuel
  | S fuel =>
      let op := tok_cur t in
      if negb (is_op op) then Ok (lhs, t)
      else
        this_pri ← PRECEDENCE op;
        if priority <? this_pri then Ok (lhs, t)
        else
          t ← tok_next t;
          if op =? tok_question then
            '(if_t, t) ← parse fuel t;
            if tok_cur t =? tok_colon then
              t ← tok_next t;
              '(rhs, t) ← parse fuel t;
              parse_rhs fuel (E_TOP lhs if_t rhs) priority t
            else Die "colon expected for ternary-? operator"
          else
            '(rhs, t) ← parse_primary fuel t;
            next_pri ← PRECEDENCE (tok_cur t);
            '(rhs, t) ← (if next_pri <? this_pri then parse_rhs fuel rhs next_pri t else Ok (rhs, t));
            parse_rhs fuel (E_OP op lhs rhs) priority t
  end
with parse (fuel : nat) (t : toks) : res (expr * toks) :=
  match fuel with
  | O => NoFuel
  | S fuel =>
      '(e, t) ← parse_primary fuel t;
      parse_rhs fuel e MAX_PRI t
  end.

(** Tokens still to come: every one read uses at least a character. *)
Definition weight (t : toks) : nat := length (tok_pos t) + (if tok_cur t =? tok_eof then 0 else 1).

(** [t0] is what an earlier use left in the globals. *)
Definition expr_parse_from (t0 : toks) (s : cstr) : res expr :=
  t ← tok_next (tok_begin s t0);
  '(e, t) ← parse (3 * weight t + 3) t;
  if tok_cur t =? tok_eof then Ok e else Die "at end of expression".

Definition expr_parse (s : cstr) : res expr :=
  expr_parse_from {| tok_pos := []; tok_cur := tok_eof; tok_cur_num := 0 |} s.

(** ** Evaluation *)

(** An [expr_n] ([long]) result of signed arithmetic. *)
Definition long (x : Z) : res Z :=
  if bool_decide (is_s 64 x) then Ok x else Ub "signed overflow".

Definition shift_ok (n : Z) : bool := (0 <=? n) && (n <? 64).

Definition eval_uop (op : e_op) (n : Z) : res Z :=
  if op =? tok_minus then long (- n)
  else if op =? tok_not then Ok (b2z (n =? 0))
  else if op =? tok_bnot then Ok (Z.lnot n)
  else Ice "bad op".

(** Division and remainder by a value that is not zero. *)
Definition eval_bop (op : e_op) (l r : Z) : res Z :=
  if op =? tok_divide then long (Z.quot l r)
  else if op =? tok_modulus then (_ ← long (Z.quot l r); Ok (Z.rem l r))
  else if op =? tok_multiply then long (l * r)
  else if op =? tok_plus then long (l + r)
  else if op =? tok_minus then long (l - r)
  else if op =? tok_xor then Ok (Z.lxor l r)
  else if op =? tok_or then Ok (Z.lor l r)
  else if op =? tok_and then Ok (Z.land l r)
  else if op =? tok_orsc then Ok (b2z (negb (l =? 0) || negb (r =? 0)))
  else if op =? tok_andsc then Ok (b2z (negb (l =? 0) && negb (r =? 0)))
  else if op =? tok_shiftl then
    if shift_ok r && (0 <=? l) then long (Z.shiftl l r) else Ub "shift"
  else if op =? tok_shiftr then
    if shift_ok r then Ok (Z.shiftr l r) else Ub "shift"
  else if op =? tok_eq then Ok (b2z (l =? r))
  else if op =? tok_ne then Ok (b2z (negb (l =? r)))
  else if op =? tok_le then Ok (b2z (l <=? r))
  else if op =? tok_lt then Ok (b2z (l <? r))
  else if op =? tok_ge then Ok (b2z (r <=? l))
  else if op =? tok_gt then Ok (b2z (r <? l))
  else Ice "bad op".

(** The value and [*had_ident]. *)
Fixpoint expr_eval (e : expr) (had_ident noop : bool) : res (Z * bool) :=
  match e with
  | E_IDENT => Ok (0, true)
  | E_NUM n => Ok (n, had_ident)
  | E_UOP op e =>
      '(n, hi) ← expr_eval e had_ident noop;
      if noop then Ok (0, hi) else (v ← eval_uop op n; Ok (v, hi))
  | E_OP op lhs rhs =>
      '(l, hi) ← expr_eval lhs had_ident noop;
      let skip_rhs :=
        if op =? tok_andsc then l =? 0
        else if op =? tok_orsc then negb (l =? 0) else false in
      '(r, hi) ← expr_eval rhs hi skip_rhs;
      if noop then Ok (0, hi)
      else if ((op =? tok_modulus) || (op =? tok_divide)) && (r =? 0) then
        Die (if op =? tok_divide then "division by zero" else "modulo by zero")
      else (v ← eval_bop op l r; Ok (v, hi))
  | E_TOP e t f =>
      '(a, hi) ← expr_eval e had_ident noop;
      '(b, hi) ← expr_eval t hi (a =? 0);
      '(c, hi) ← expr_eval f hi (negb (a =? 0));
      Ok (if negb (a =? 0) then b else c, hi)
  end.

Definition if_value (s : string) : res (Z * bool) := e ← expr_parse (str s); expr_eval e false false.

(** ** What an expression means *)

Fixpoint has_ident (e : expr) : bool :=
  match e with
  | E_IDENT => true
  | E_NUM _ => false
  | E_OP _ l r => has_ident l || has_ident r
  | E_UOP _ e => has_ident e
  | E_TOP e t f => has_ident e || has_ident t || has_ident f
  end.

(** What C gives an operator on two values of the widest signed type, where it
    gives anything: results in range, divisors that are not zero, shifts of
    non-negative values by less than the width. Division truncates: the
    remainder is smaller than the divisor and has the dividend's sign. *)
Definition divides_to (l r q m : Z) : Prop :=
  l = r * q + m /\ Z.abs m < Z.abs r /\ 0 <= l * m.

Definition bitwise (f : bool -> bool -> bool) (l r v : Z) : Prop :=
  forall k, 0 <= k -> Z.testbit v k = f (Z.testbit l k) (Z.testbit r k).

Definition truth_of (P : Prop) (v : Z) : Prop := (P /\ v = 1) \/ (~ P /\ v = 0).

Inductive bin_means : Z -> Z -> Z -> Z -> Prop :=
  | M_mul l r : is_s 64 (l * r) -> bin_means tok_multiply l r (l * r)
  | M_div l r q m : divides_to l r q m -> is_s 64 q -> bin_means tok_divide l r q
  | M_mod l r q m : divides_to l r q m -> is_s 64 q -> bin_means tok_modulus l r m
  | M_add l r : is_s 64 (l + r) -> bin_means tok_plus l r (l + r)
  | M_sub l r : is_s 64 (l - r) -> bin_means tok_minus l r (l - r)
  | M_xor l r v : bitwise xorb l r v -> bin_means tok_xor l r v
  | M_or l r v : bitwise orb l r v -> bin_means tok_or l r v
  | M_and l r v : bitwise andb l r v -> bin_means tok_and l r v
  | M_shl l r : 0 <= l -> 0 <= r < 64 -> is_s 64 (l * 2 ^ r) -> bin_means tok_shiftl l r (l * 2 ^ r)
  | M_shr l r v : 0 <= r < 64 -> v * 2 ^ r <= l < (v + 1) * 2 ^ r -> bin_means tok_shiftr l r v
  | M_eq l r v : truth_of (l = r) v -> bin_means tok_eq l r v
  | M_ne l r v : truth_of (l <> r) v -> bin_means tok_ne l r v
  | M_le l r v : truth_of (l <= r) v -> bin_means tok_le l r v
  | M_lt l r v : truth_of (l < r) v -> bin_means tok_lt l r v
  | M_ge l r v : truth_of (l >= r) v -> bin_means tok_ge l r v
  | M_gt l r v : truth_of (l > r) v -> bin_means tok_gt l r v.

Inductive un_means : Z -> Z -> Z -> Prop :=
  | M_neg n : is_s 64 (- n) -> un_means tok_minus n (- n)
  | M_not n v : truth_of (n = 0) v -> un_means tok_not n v
  | M_bnot n v : v + n = -1 -> un_means tok_bnot n v.

(** C's meaning of a controlling expression: identifiers are zero, and an
    operand that short-circuiting or [?:] skips does not matter. *)
Inductive means : expr -> Z -> Prop :=
  | M_ident : means E_IDENT 0
  | M_num n : means (E_NUM n) n
  | M_uop op e n v : means e n -> un_means op n v -> means (E_UOP op e) v
  | M_op op a b l r v : means a l -> means b r -> bin_means op l r v -> means (E_OP op a b) v
  | M_andsc_skip a b : means a 0 -> means (E_OP tok_andsc a b) 0
  | M_andsc a b l r v : means a l -> l <> 0 -> means b r -> truth_of (r <> 0) v -> means (E_OP tok_andsc a b) v
  | M_orsc_skip a b l : means a l -> l <> 0 -> means (E_OP tok_orsc a b) 1
  | M_orsc a b r v : means a 0 -> means b r -> truth_of (r <> 0) v -> means (E_OP tok_orsc a b) v
  | M_top a b c l v : means a l -> l <> 0 -> means b v -> means (E_TOP a b c) v
  | M_top_else a b c v : means a 0 -> means c v -> means (E_TOP a b c) v.

#[local] Hint Constructors bin_means un_means means : core.

Lemma truth_of_b2z (b : bool) (P : Prop) : (b = true <-> P) -> truth_of P (b2z b).
Proof. intros H. unfold truth_of. destruct b; cbn; [left|right]; naive_solver. Qed.

Lemma truth_of_inj (P : Prop) (v w : Z) : truth_of P v -> truth_of P w -> v = w.
Proof. unfold truth_of. naive_solver. Qed.

Lemma divides_quot (l r : Z) : r <> 0 -> divides_to l r (Z.quot l r) (Z.rem l r).
Proof.
  intros H. split; [by apply Z.quot_rem'|]. split; [by apply Z.rem_bound_abs|].
  rewrite Z.mul_comm. by apply Z.rem_sign_mul.
Qed.

Lemma divides_inj (l r q m q' m' : Z) : divides_to l r q m -> divides_to l r q' m' -> q = q' /\ m = m'.
Proof.
  intros (E & B & S) (E' & B' & S'). assert (r * (q - q') = m' - m) as K by lia.
  assert (Z.abs (m' - m) < Z.abs r) as K2.
  { destruct (Z.lt_trichotomy l 0) as [L|[->|L]]; [| |].
    - assert (m <= 0 /\ m' <= 0) by nia. lia.
    - assert (q = 0) by nia. assert (q' = 0) by nia. nia.
    - assert (0 <= m /\ 0 <= m') by nia. lia. }
  assert (q = q') by nia. subst. lia.
Qed.

Lemma bitwise_inj (f : bool -> bool -> bool) (l r v w : Z) : bitwise f l r v -> bitwise f l r w -> v = w.
Proof. intros H K. apply Z.bits_inj'. intros k Hk. by rewrite H, K. Qed.

Lemma bin_means_inj (op l r v w : Z) : bin_means op l r v -> bin_means op l r w -> v = w.
Proof.
  intros H K. inversion H; subst; inversion K; subst; try done; eauto using truth_of_inj, bitwise_inj.
  - match goal with D : divides_to _ _ v _, D' : divides_to _ _ w _ |- _ => by destruct (divides_inj _ _ _ _ _ _ D D') end.
  - match goal with D : divides_to _ _ _ v, D' : divides_to _ _ _ w |- _ => by destruct (divides_inj _ _ _ _ _ _ D D') end.
  - assert (0 < 2 ^ r) by (apply Z.pow_pos_nonneg; lia). nia.
Qed.

Lemma un_means_inj (op n v w : Z) : un_means op n v -> un_means op n w -> v = w.
Proof. intros H K. inversion H; subst; inversion K; subst; eauto using truth_of_inj; lia. Qed.

Ltac bool_prop := rewrite ?negb_true_iff, ?Z.eqb_neq, ?Z.eqb_eq, ?Z.leb_le, ?Z.ltb_lt; lia.

Lemma long_Ok (x v : Z) : long x = Ok v -> is_s 64 x /\ v = x.
Proof. unfold long. case_bool_decide; [by intros [= ->]|done]. Qed.

Lemma shift_ok_spec (n : Z) : shift_ok n = true <-> 0 <= n < 64.
Proof. unfold shift_ok. rewrite andb_true_iff, Z.leb_le, Z.ltb_lt. done. Qed.

Lemma shiftr_means (l r : Z) : 0 <= r -> Z.shiftr l r * 2 ^ r <= l < (Z.shiftr l r + 1) * 2 ^ r.
Proof.
  intros H. rewrite Z.shiftr_div_pow2 by done. assert (0 < 2 ^ r) as P by (apply Z.pow_pos_nonneg; lia).
  pose proof (Z.div_mod l (2 ^ r) ltac:(lia)). pose proof (Z.mod_pos_bound l (2 ^ r) P). lia.
Qed.

Lemma eval_uop_means (op n v : Z) : eval_uop op n = Ok v -> un_means op n v.
Proof.
  unfold eval_uop. destruct (Z.eqb_spec op tok_minus) as [->|_]; [by intros [H ->]%long_Ok; constructor|].
  destruct (Z.eqb_spec op tok_not) as [->|_]; [intros [= <-]; constructor; apply truth_of_b2z; bool_prop|].
  destruct (Z.eqb_spec op tok_bnot) as [->|_]; [|done]. intros [= <-]. constructor. unfold Z.lnot. lia.
Qed.

(** An operator that does not skip, and does not divide by zero. *)
Definition strict (op r : Z) : Prop :=
  op <> tok_andsc /\ op <> tok_orsc /\ ((op = tok_divide \/ op = tok_modulus) -> r <> 0).

Lemma eval_bop_means (op l r v : Z) : strict op r -> eval_bop op l r = Ok v -> bin_means op l r v.
Proof.
  intros (Na & No & Nz). unfold eval_bop.
  destruct (Z.eqb_spec op tok_divide) as [->|_].
  { intros [H ->]%long_Ok. econstructor; [apply divides_quot; auto|done]. }
  destruct (Z.eqb_spec op tok_modulus) as [->|_].
  { intros (q & [H ->]%long_Ok & [= <-])%bind_Ok. econstructor; [apply divides_quot; auto|done]. }
  do 3 (case Z.eqb_spec; [by intros -> [H ->]%long_Ok; constructor|intros _]).
  do 3 (case Z.eqb_spec; [intros -> [= <-]; constructor; intros k _;
    first [apply Z.lxor_spec|apply Z.lor_spec|apply Z.land_spec]|intros _]).
  do 2 (case Z.eqb_spec; [done|intros _]).
  case Z.eqb_spec; [intros ->|intros _].
  { destruct (shift_ok r) eqn:S; [|done]. destruct (0 <=? l) eqn:L; [|done]. cbn [andb].
    apply shift_ok_spec in S. apply Z.leb_le in L. rewrite Z.shiftl_mul_pow2 by lia.
    intros [H ->]%long_Ok. by constructor. }
  case Z.eqb_spec; [intros ->|intros _].
  { destruct (shift_ok r) eqn:S; [|done]. intros [= <-]. apply shift_ok_spec in S.
    constructor; [done|]. apply shiftr_means. lia. }
  do 6 (case Z.eqb_spec; [intros -> [= <-]; constructor; apply truth_of_b2z; bool_prop|intros _]). done.
Qed.

Lemma long_is (x : Z) : is_s 64 x -> long x = Ok x.
Proof. intros H. unfold long. by rewrite bool_decide_eq_true_2. Qed.

(** Where C gives a value the program does not stop. *)
Lemma means_eval_bop (op l r v : Z) : bin_means op l r v -> strict op r /\ is_ok (eval_bop op l r) = true.
Proof.
  assert (forall q m, divides_to l r q m -> r <> 0 /\ q = Z.quot l r) as Dv.
  { intros q m H. assert (r <> 0) as N by (intros ->; destruct H as (_ & H & _); lia).
    split; [done|]. by destruct (divides_inj _ _ _ _ _ _ H (divides_quot l r N)). }
  intros H. inversion H; subst; (split; [split; [done|split; [done|]]|]); try done; try (by intros [|]).
  2, 4: intros _; by eapply Dv.
  1, 4, 5: unfold eval_bop; cbn; by rewrite long_is.
  1, 2: destruct (Dv _ _ ltac:(eassumption)) as [N ->]; unfold eval_bop; cbn; by rewrite long_is.
  - unfold eval_bop. cbn. rewrite (proj2 (shift_ok_spec r)), (proj2 (Z.leb_le 0 l)) by done. cbn.
    rewrite Z.shiftl_mul_pow2 by lia. by rewrite long_is.
  - unfold eval_bop. cbn. by rewrite (proj2 (shift_ok_spec r)).
Qed.

Lemma means_eval_uop (op n v : Z) : un_means op n v -> is_ok (eval_uop op n) = true.
Proof. intros H. inversion H; subst; unfold eval_uop; cbn; by rewrite ?long_is. Qed.

(** An expression has one meaning. *)
Lemma means_inj (e : expr) (v : Z) : means e v -> forall w, means e w -> v = w.
Proof.
  induction 1; intros w K; inversion K; subst; try done; repeat match goal with
  | IH : forall w, means ?e w -> _ = w, H : means ?e _ |- _ => apply IH in H; subst
  | H : bin_means tok_andsc _ _ _ |- _ => inversion H
  | H : bin_means tok_orsc _ _ _ |- _ => inversion H
  end; eauto using un_means_inj, bin_means_inj, truth_of_inj; done.
Qed.

Lemma eval_ident (e : expr) (hi noop : bool) (n : Z) (hi' : bool) :
  expr_eval e hi noop = Ok (n, hi') -> hi' = hi || has_ident e.
Proof.
  revert hi noop n hi'. induction e; intros hi noop v hi'; cbn [expr_eval has_ident].
  - intros [= _ <-]. by rewrite orb_true_r.
  - intros [= _ <-]. by rewrite orb_false_r.
  - intros ([l h1] & H1 & ([r h2] & H2 & H)%bind_Ok)%bind_Ok.
    apply IHe1 in H1. apply IHe2 in H2. subst. rewrite orb_assoc.
    destruct noop; [by injection H|]. destruct (_ && _); [done|].
    apply bind_Ok in H as (x & _ & H). by injection H.
  - intros ([l h1] & H1 & H)%bind_Ok. apply IHe in H1. subst.
    destruct noop; [by injection H|]. apply bind_Ok in H as (x & _ & H). by injection H.
  - intros ([a h1] & H1 & ([b h2] & H2 & ([c h3] & H3 & H)%bind_Ok)%bind_Ok)%bind_Ok.
    apply IHe1 in H1. apply IHe2 in H2. apply IHe3 in H3. injection H as _ <-. subst.
    by rewrite !orb_assoc.
Qed.


Lemma eval_means (e : expr) (hi hi' : bool) (n : Z) : expr_eval e hi false = Ok (n, hi') -> means e n.
Proof.
  revert hi hi' n. induction e; intros hi hi' v; cbn [expr_eval]; [by intros [= <- _]..| | |].
  - intros ([l h1] & H1 & ([r h2] & H2 & H)%bind_Ok)%bind_Ok. apply IHe1 in H1. cbn [fst snd] in H2, H.
    destruct (Z.eqb_spec op tok_andsc) as [->|Na].
    { cbn in H. injection H as <- _. destruct (Z.eqb_spec l 0) as [->|N]; cbn; [by constructor|].
      eapply M_andsc; [done..|by eapply IHe2|]. apply truth_of_b2z. bool_prop. }
    destruct (Z.eqb_spec op tok_orsc) as [->|No].
    { cbn in H. injection H as <- _. destruct (Z.eqb_spec l 0) as [->|N]; cbn; [|by eapply M_orsc_skip].
      eapply M_orsc; [done|by eapply IHe2|]. apply truth_of_b2z. bool_prop. }
    apply IHe2 in H2. destruct (((op =? tok_modulus) || (op =? tok_divide)) && (r =? 0)) eqn:Z; [done|].
    apply bind_Ok in H as (x & Hx & H). injection H as <- _. eapply M_op; [done..|].
    apply eval_bop_means; [|done]. split; [done|]. split; [done|]. intros D ->.
    rewrite andb_true_r in Z. apply orb_false_iff in Z as [?%Z.eqb_neq ?%Z.eqb_neq]. naive_solver.
  - intros ([l h1] & H1 & H)%bind_Ok. apply IHe in H1.
    apply bind_Ok in H as (x & Hx & H). injection H as <- _. eapply M_uop; [done|]. by apply eval_uop_means.
  - intros ([a h1] & H1 & ([b h2] & H2 & ([c h3] & H3 & H)%bind_Ok)%bind_Ok)%bind_Ok.
    apply IHe1 in H1. injection H as <- _. cbn [fst snd] in *.
    destruct (Z.eqb_spec a 0) as [->|N]; cbn in *; [eapply M_top_else|eapply M_top]; eauto.
Qed.

(** Every operand has a value, the skipped ones too. *)
Fixpoint clean (e : expr) : Prop :=
  (exists n, means e n) /\
  match e with
  | E_IDENT | E_NUM _ => True
  | E_OP _ l r => clean l /\ clean r
  | E_UOP _ e => clean e
  | E_TOP e t f => clean e /\ clean t /\ clean f
  end.

Lemma clean_runs (e : expr) : clean e -> forall noop hi, exists n hi', expr_eval e hi noop = Ok (n, hi').
Proof.
  induction e; intros C np h; cbn [expr_eval]; [by eexists _, _..| | |]; cbn [clean] in C.
  - destruct C as ([v Hd] & C1 & C2). destruct (IHe1 C1 np h) as (l & h1 & E1). rewrite E1. run.
    match goal with |- context [expr_eval e2 h1 ?s] => destruct (IHe2 C2 s h1) as (r & h2 & E2) end.
    rewrite E2. run. destruct np; [by eexists _, _|]. apply eval_means in E1.
    inversion Hd; subst; try (cbn; by eexists _, _).
    match goal with H : means e1 ?x |- _ => pose proof (means_inj _ _ H _ E1) as -> end.
    match goal with H : bin_means _ _ _ _ |- _ => apply means_eval_bop in H as [(Na & No & Nz) Ok] end.
    apply Z.eqb_neq in Na, No. rewrite Na, No in E2. apply eval_means in E2.
    match goal with H : means e2 ?x |- _ => pose proof (means_inj _ _ H _ E2) as -> end.
    destruct (((op =? tok_modulus) || (op =? tok_divide)) && (r =? 0)) eqn:Z.
    { exfalso. apply andb_true_iff in Z as [Zo Zr]. apply Z.eqb_eq in Zr. apply orb_true_iff in Zo.
      rewrite !Z.eqb_eq in Zo. naive_solver. }
    destruct (eval_bop op l r); try done. by eexists _, _.
  - destruct C as ([v Hd] & C1). destruct (IHe C1 np h) as (l & h1 & E1). rewrite E1. run.
    destruct np; [by eexists _, _|]. apply eval_means in E1. inversion Hd; subst.
    match goal with H : means e ?x |- _ => pose proof (means_inj _ _ H _ E1) as -> end.
    match goal with H : un_means _ _ _ |- _ => apply means_eval_uop in H end.
    destruct (eval_uop op l); try done. by eexists _, _.
  - destruct C as (_ & C1 & C2 & C3). destruct (IHe1 C1 np h) as (a & h1 & ->). run.
    destruct (IHe2 C2 (a =? 0) h1) as (b & h2 & ->). run.
    destruct (IHe3 C3 (negb (a =? 0)) h2) as (c & h3 & ->). run. by eexists _, _.
Qed.



Example if_ex : if_value "(1 + 2) * 3 == 0x9L && !defined_" = Ok (1, true).
Proof. vm_compute. reflexivity. Qed.
Example if_ternary : if_value "0 ? 1 : 5 - 2 - 1" = Ok (2, false).
Proof. vm_compute. reflexivity. Qed.

(** Skipping is not passed down to the operands of a skipped operand. *)
Example dead_division : if_value "0 && (1 + 1/0)" = Die "division by zero".
Proof. vm_compute. reflexivity. Qed.

(** ** Termination *)

Lemma strtol_rest (s : cstr) :
  isdigit (cur s) = true -> (length (snd (strtol s)) < length s)%nat.
Proof.
  intros Hd. destruct s as [|c s]; [done|]. cbn [cur] in Hd. unfold strtol.
  set (h := (cur (c :: s) =c "0"%char) && _ && _).
  destruct h eqn:Eh; subst h.
  - destruct s as [|x s]; [to_prop; by vm_compute in H|].
    pose proof (skip_while_length isxdigit s). cbn [drop snd length]; rewrite drop_0. lia.
  - assert (forall t, t c = true -> (length (skip_while t (c :: s)) < length (c :: s))%nat) as K.
    { intros t Ht. simpl. rewrite Ht. pose proof (skip_while_length t s). lia. }
    cbn [cur]. destruct (c =c "0"%char) eqn:Ez; cbn [snd]; apply K; [|done].
    apply eqc_true in Ez as ->. reflexivity.
Qed.

Lemma tok_op_rest (c : ascii) (pos : cstr) : (length (snd (tok_op c pos)) <= length pos)%nat.
Proof.
  unfold tok_op.
  repeat match goal with |- context [if ?b then _ else _] => destruct b end;
    cbn [snd]; rewrite ?length_drop; lia.
Qed.

Lemma tok_char_rest (pos : cstr) (wide : bool) (t : toks) :
  tok_char pos wide = Ok t -> (length (tok_pos t) <= length pos)%nat /\ tok_cur t = tok_num.
Proof.
  unfold tok_char. intros (l & _ & ([[[[v e] m] w] er] & _ & H)%bind_Ok)%bind_Ok.
  destruct er; try done; injection H as <-; cbn [tok_pos tok_cur]; rewrite length_drop; split; try done; lia.
Qed.

(** Reading a token uses up a character, or reaches the end. *)
Lemma tok_next_weight (t t' : toks) :
  tok_next t = Ok t' -> tok_cur t <> tok_eof -> (weight t' < weight t)%nat.
Proof.
  intros H Hc. unfold weight. destruct (Z.eqb_spec (tok_cur t) tok_eof) as [|_]; [done|].
  unfold tok_next in H. destruct (tok_pos t) as [|c s] eqn:Ep; [injection H as <-; simpl; lia|].
  rewrite <- Ep in H. pose proof (str_spc_skip_length (tok_pos t)) as L.
  rewrite <- Ep. set (pos := str_spc_skip (tok_pos t)) in *.
  destruct (isdigit (cur pos)) eqn:Ed.
  { pose proof (strtol_rest pos Ed) as R. destruct (strtol pos) as [n ep]. cbn [snd] in R.
    injection H as <-. cbn [tok_pos tok_cur]. pose proof (skip_while_length num_suffix ep). simpl. lia. }
  destruct (cur pos =c squote) eqn:Eq.
  { apply eqc_true in Eq. destruct pos as [|x pos']; [done|].
    apply tok_char_rest in H as (R & Rc). rewrite Rc, length_drop in *. simpl in *. lia. }
  destruct ((cur pos =c "L"%char) && (at_ pos 1 =c squote)) eqn:Ew.
  { to_prop. destruct pos as [|x [|y pos']]; try done.
    apply tok_char_rest in H as (R & Rc). rewrite Rc, length_drop in *. simpl in *. lia. }
  destruct (isalpha (cur pos) || (cur pos =c "_"%char)) eqn:Ei.
  { injection H as <-. cbn [tok_pos tok_cur]. destruct pos as [|x pos']; [done|].
    assert (iswordpart x = true) as Hx.
    { pose proof (ascii_forall_dec (fun x => negb (isalpha x || (x =c "_"%char)) || iswordpart x)
        ltac:(vm_compute; reflexivity) x) as A. simpl in A, Ei. rewrite Ei in A. exact A. }
    cbn [word_end]. rewrite Hx. pose proof (word_end_length pos'). simpl in *. lia. }
  destruct pos as [|x pos'] eqn:Epos; [injection H as <-; simpl; lia|].
  pose proof (tok_op_rest x pos') as R. destruct (tok_op x pos') as [op pos2]. cbn [snd] in R.
  injection H as <-. cbn [tok_pos tok_cur]. simpl in L. destruct (op =? tok_eof); lia.
Qed.

Lemma is_op_nz (c : Z) : is_op c = true -> c <> tok_eof.
Proof. intros H ->. by vm_compute in H. Qed.

Lemma tok_next_fueled (t : toks) : fueled (tok_next t).
Proof.
  assert (forall pos w, fueled (tok_char pos w)) as K.
  { intros pos w. unfold tok_char. apply fueled_bind.
    - pose proof (str_quotefin2_cases pos squote) as C. unfold char_quotefin, fueled.
      by destruct (str_quotefin2 pos squote).
    - intros l _. apply fueled_bind; [apply escape_char_fueled|].
      intros [[[[v e] m] wn] er] _. by destruct er. }
  unfold tok_next. destruct (tok_pos t); [done|]. cbv zeta.
  destruct (isdigit _); [by destruct (strtol _)|].
  destruct (_ =c squote); [apply K|]. destruct (_ && _); [apply K|].
  destruct (_ || _); [done|]. destruct (str_spc_skip _) as [|x s]; [done|]. by destruct (tok_op x s).
Qed.

(** A parse that ends, with at most [w] tokens to come. *)
Definition spends (m : res (expr * toks)) (w : nat) : Prop :=
  fueled m /\ forall e t, m = Ok (e, t) -> (weight t <= w)%nat.

Lemma spends_bind (m : res (expr * toks)) (k : expr * toks -> res (expr * toks)) (v w : nat) :
  spends m v -> (forall e t, (weight t <= v)%nat -> spends (k (e, t)) w) -> spends (m ≫= k) w.
Proof.
  intros (F & W) K. split.
  - apply fueled_bind; [done|]. intros [e t] H. apply K. by eapply W.
  - intros e t ([e1 t1] & H1 & H)%bind_Ok. eapply K; [|exact H]. by eapply W.
Qed.

Lemma spends_next (t : toks) (k : toks -> res (expr * toks)) (w : nat) :
  tok_cur t <> tok_eof -> (forall t', (weight t' < weight t)%nat -> spends (k t') w) ->
  spends (tok_next t ≫= k) w.
Proof.
  intros Hc K. split.
  - apply fueled_bind; [apply tok_next_fueled|]. intros t' H. apply K. by eapply tok_next_weight.
  - intros e t2 (t1 & H1 & H)%bind_Ok. eapply K; [|exact H]. by eapply tok_next_weight.
Qed.

Lemma spends_Ok (e : expr) (t : toks) (w : nat) : (weight t <= w)%nat -> spends (Ok (e, t)) w.
Proof. split; [done|]. by intros e' t' [= _ <-]. Qed.

Lemma spends_Die (why : string) (w : nat) : spends (Die why) w.
Proof. by split. Qed.

Lemma PRECEDENCE_cases (c : Z) :
  (exists p, PRECEDENCE c = Ok p) \/ exists why, PRECEDENCE c = Ub why.
Proof. unfold PRECEDENCE. destruct (_ && _); eauto. Qed.

Section Parse.
  Variable fuel : nat.
  Hypothesis IHp : forall t, (3 * weight t + 1 <= fuel)%nat -> spends (parse_primary fuel t) (weight t - 1).
  Hypothesis IHr : forall lhs p t, (3 * weight t + 2 <= fuel)%nat -> spends (parse_rhs fuel lhs p t) (weight t).
  Hypothesis IHe : forall t, (3 * weight t + 3 <= fuel)%nat -> spends (parse fuel t) (weight t - 1).

Lemma parse_primary_spends (t : toks) :
  (3 * weight t + 1 <= S fuel)%nat -> spends (parse_primary (S fuel) t) (weight t - 1).
Proof using IHp IHe.
  intros Hf. cbn [parse_primary]. cbv zeta.
  destruct (Z.eqb_spec (tok_cur t) tok_ident) as [E|_].
  { apply spends_next; [by rewrite E|]. intros t1 H1. apply spends_Ok. lia. }
  destruct (Z.eqb_spec (tok_cur t) tok_num) as [E|_].
  { apply spends_next; [by rewrite E|]. intros t1 H1. apply spends_Ok. lia. }
  destruct (Z.eqb_spec (tok_cur t) tok_lparen) as [E|_].
  { apply spends_next; [by rewrite E|]. intros t1 H1.
    eapply spends_bind; [apply IHe; lia|]. intros e t2 H2.
    destruct (Z.eqb_spec (tok_cur t2) tok_rparen) as [E2|_]; [|apply spends_Die].
    apply spends_next; [by rewrite E2|]. intros t3 H3. apply spends_Ok. lia. }
  destruct (_ || _) eqn:E; [|apply spends_Die].
  apply spends_next; [intros E0; rewrite E0 in E; by vm_compute in E|]. intros t1 H1.
  eapply spends_bind; [apply IHp; lia|]. intros e t2 H2. apply spends_Ok. lia.
Qed.

Lemma parse_rhs_spends (lhs : expr) (p : Z) (t : toks) :
  (3 * weight t + 2 <= S fuel)%nat -> spends (parse_rhs (S fuel) lhs p t) (weight t).
Proof using IHp IHr IHe.
  intros Hf. cbn [parse_rhs]. cbv zeta.
  destruct (is_op (tok_cur t)) eqn:Eo; cbn [negb]; [|by apply spends_Ok].
  destruct (PRECEDENCE_cases (tok_cur t)) as [(pri & ->)|(? & ->)]; run; [|by split].
  destruct (p <? pri); [by apply spends_Ok|].
  apply spends_next; [by apply is_op_nz|]. intros t1 H1.
  assert (forall e t', (weight t' <= weight t - 1)%nat -> (0 < weight t)%nat -> spends (parse_rhs fuel e p t') (weight t)) as K.
  { intros e t' H H0. destruct (IHr e p t') as (F & W); [lia|]. split; [done|]. intros e2 t2 H2.
    specialize (W _ _ H2). lia. }
  destruct (tok_cur t =? tok_question).
  - eapply spends_bind; [apply IHe; lia|]. intros e2 t2 H2.
    destruct (Z.eqb_spec (tok_cur t2) tok_colon) as [Ec|_]; [|apply spends_Die].
    apply spends_next; [by rewrite Ec|]. intros t3 H3.
    eapply spends_bind; [apply IHe; lia|]. intros e4 t4 H4. apply K; lia.
  - eapply spends_bind; [apply IHp; lia|]. intros e2 t2 H2.
    destruct (PRECEDENCE_cases (tok_cur t2)) as [(np & ->)|(? & ->)]; run; [|by split].
    eapply (spends_bind _ _ (weight t - 1)).
    + destruct (np <? pri); [|apply spends_Ok; lia].
      destruct (IHr e2 np t2) as (F & W); [lia|]. split; [done|]. intros e3 t3 H3. specialize (W _ _ H3). lia.
    + intros e3 t3 H3. apply K; lia.
Qed.

Lemma parse_spends (t : toks) : (3 * weight t + 3 <= S fuel)%nat -> spends (parse (S fuel) t) (weight t - 1).
Proof using IHp IHr.
  intros Hf. cbn [parse]. eapply spends_bind; [apply IHp; lia|]. intros e t1 H1.
  destruct (IHr e MAX_PRI t1) as (F & W); [lia|]. split; [done|]. intros e2 t2 H2. specialize (W _ _ H2). lia.
Qed.
End Parse.

Lemma parse_all_spend (fuel : nat) :
  (forall t, (3 * weight t + 1 <= fuel)%nat -> spends (parse_primary fuel t) (weight t - 1)) /\
  (forall lhs p t, (3 * weight t + 2 <= fuel)%nat -> spends (parse_rhs fuel lhs p t) (weight t)) /\
  (forall t, (3 * weight t + 3 <= fuel)%nat -> spends (parse fuel t) (weight t - 1)).
Proof.
  induction fuel as [|fuel (IHp & IHr & IHe)]; [split_and!; intros; lia|].
  split_and!; intros; [by apply parse_primary_spends | by apply parse_rhs_spends | by apply parse_spends].
Qed.

(** C29: tokenising and parsing a controlling expression terminates on every
    string, whatever its bytes, with an expression, a diagnostic or an access
    out of bounds. *)
Theorem expr_parse_terminates (t0 : toks) (s : cstr) : expr_parse_from t0 s <> NoFuel.
Proof.
  unfold expr_parse_from. apply fueled_bind; [apply tok_next_fueled|]. intros t _.
  destruct (parse_all_spend (3 * weight t + 3)) as (_ & _ & P). destruct (P t ltac:(lia)) as (F & _).
  apply fueled_bind; [done|]. intros [e t'] _. by destruct (_ =? _).
Qed.

(** ** Bounds *)

(** ASCII without character constants. *)
Definition ascii_plain (s : cstr) : bool := forallb (fun c => (code c <? 128) && negb (c =c squote)) s.

Definition tame (t : toks) : Prop := ascii_plain (tok_pos t) = true /\ MIN_OP <= tok_cur t < 128.

Definition safe {A} (m : res A) (P : A -> Prop) : Prop :=
  match m with Ub _ => False | Ok a => P a | _ => True end.

Lemma safe_bind {A B} (m : res A) (k : A -> res B) (P : A -> Prop) (Q : B -> Prop) :
  safe m P -> (forall a, P a -> safe (k a) Q) -> safe (m ≫= k) Q.
Proof. destruct m; simpl; try done. intros Ha K. by apply K. Qed.

Lemma plain_suffix (p s : cstr) : ascii_plain (p ++ s) = true -> ascii_plain s = true.
Proof. unfold ascii_plain. rewrite forallb_app. by intros (_ & ?)%andb_true_iff. Qed.

Lemma plain_skip (test : digit_test) (s : cstr) : ascii_plain s = true -> ascii_plain (skip_while test s) = true.
Proof. destruct (skip_while_suffix test s) as (p & E & _). rewrite E at 1. apply plain_suffix. Qed.

Lemma plain_drop (n : nat) (s : cstr) : ascii_plain s = true -> ascii_plain (drop n s) = true.
Proof. rewrite <- (take_drop n s) at 1. apply plain_suffix. Qed.

Lemma plain_not_quote (s : cstr) : ascii_plain s = true -> (cur s =c squote) = false.
Proof. destruct s as [|c s]; [done|]. simpl. intros (H & _)%andb_true_iff. to_prop; by apply eqc_false. Qed.

Lemma tok_op_tame (c : ascii) (pos : cstr) :
  ascii_plain (c :: pos) = true ->
  ascii_plain (snd (tok_op c pos)) = true /\ MIN_OP <= fst (tok_op c pos) < 128.
Proof.
  intros H. assert (ascii_plain pos = true) as Hp by (by apply (plain_suffix [c])).
  assert (MIN_OP <= schar c < 128) as Hc.
  { simpl in H. to_prop. pose proof (code_range c). unfold schar, MIN_OP. destruct (Z.ltb_spec (code c) 128); lia. }
  unfold tok_op.
  repeat match goal with |- context [if ?b then _ else _] => destruct b end;
    cbn [fst snd]; (split; [first [exact Hp | by apply plain_drop] | first [exact Hc | by_decide]]).
Qed.

Lemma tok_next_tame (t : toks) : tame t -> safe (tok_next t) tame.
Proof.
  intros (Hp & _). unfold tok_next. destruct (tok_pos t) as [|c s] eqn:E; [done|]. rewrite <- E in *.
  assert (ascii_plain (str_spc_skip (tok_pos t)) = true) as Hs.
  { destruct (str_spc_skip_suffix (tok_pos t)) as (p & Ep & _). rewrite Ep in Hp. by eapply plain_suffix. }
  cbv zeta. set (pos := str_spc_skip (tok_pos t)) in *. clearbody pos.
  destruct (isdigit (cur pos)).
  { destruct (strtol pos) as [n ep] eqn:Es. simpl. split; [|done]. simpl. apply plain_skip.
    unfold strtol in Es. cbv zeta in Es.
    match type of Es with (let '(_, _) := ?x in _) = _ => destruct x as [[b test] s'] eqn:Ei end. injection Es as _ <-.
    apply plain_skip. destruct (_ && _ && _); [injection Ei as _ _ <-; by apply plain_drop|].
    by destruct (_ =c _); injection Ei as _ _ <-. }
  rewrite plain_not_quote by done.
  destruct ((cur pos =c "L"%char) && (at_ pos 1 =c squote)) eqn:Ew.
  { apply andb_true_iff in Ew as (_ & Ew).
    destruct pos as [|x [|y pos']]; [done|done|]. change (at_ (x :: y :: pos') 1) with y in Ew. simpl in Hs. to_prop. congruence. }
  destruct (_ || _).
  { split; [|done]. simpl. destruct (word_end_suffix pos) as (p & Ep & _). rewrite Ep in Hs. by eapply plain_suffix. }
  destruct pos as [|x pos']; [done|]. destruct (tok_op_tame x pos' Hs) as (H1 & H2).
  destruct (tok_op x pos') as [op pos2]. done.
Qed.

Lemma PRECEDENCE_tame (t : toks) : tame t -> safe (PRECEDENCE (tok_cur t)) (fun _ => True).
Proof.
  intros (_ & H). unfold PRECEDENCE. change (255 + MIN_OP) with 245. by if_true.
Qed.

Lemma parse_safe (fuel : nat) :
  (forall t, tame t -> safe (parse_primary fuel t) (fun r => tame (snd r))) /\
  (forall lhs p t, tame t -> safe (parse_rhs fuel lhs p t) (fun r => tame (snd r))) /\
  (forall t, tame t -> safe (parse fuel t) (fun r => tame (snd r))).
Proof.
  induction fuel as [|fuel (IHp & IHr & IHe)]; [by split_and!|].
  split_and!; intros; cbn [parse_primary parse_rhs parse]; cbv zeta.
  - pose proof (tok_next_tame t H) as N.
    destruct (_ =? _); [by eapply safe_bind|]. destruct (_ =? _); [by eapply safe_bind|].
    destruct (_ =? _).
    { eapply safe_bind; [done|]. intros t1 H1. eapply safe_bind; [by apply IHe|]. intros [e t2] H2.
      destruct (_ =? _); [|done]. eapply safe_bind; [by apply tok_next_tame|done]. }
    destruct (_ || _); [|done]. eapply safe_bind; [done|]. intros t1 H1.
    eapply safe_bind; [by apply IHp|]. by intros [e t2] H2.
  - destruct (negb _); [done|]. eapply safe_bind; [by apply PRECEDENCE_tame|]. intros pri _.
    destruct (_ <? _); [done|]. eapply safe_bind; [by apply tok_next_tame|]. intros t1 H1.
    destruct (_ =? _).
    + eapply safe_bind; [by apply IHe|]. intros [e2 t2] H2. destruct (_ =? _); [|done].
      eapply safe_bind; [by apply tok_next_tame|]. intros t3 H3.
      eapply safe_bind; [by apply IHe|]. intros [e4 t4] H4. by apply IHr.
    + eapply safe_bind; [by apply IHp|]. intros [e2 t2] H2.
      eapply safe_bind; [by apply PRECEDENCE_tame|]. intros np _.
      eapply (safe_bind _ _ (fun r => tame (snd r))); [destruct (_ <? _); [by apply IHr|done]|].
      intros [e3 t3] H3. by apply IHr.
  - eapply safe_bind; [by apply IHp|]. intros [e t1] H1. by apply IHr.
Qed.

(** on ASCII input without character constants the parser is defined: every
    token indexes the precedence table inside its bounds, and the outcome is an
    expression or a diagnostic. *)
Theorem expr_parse_defined (s : cstr) : ascii_plain s = true -> settled (expr_parse s) = true.
Proof.
  intros H. pose proof (expr_parse_terminates {| tok_pos := []; tok_cur := tok_eof; tok_cur_num := 0 |} s) as T.
  fold (expr_parse s) in T.
  assert (safe (expr_parse s) (fun _ => True)) as S.
  { unfold expr_parse, expr_parse_from. eapply safe_bind; [apply tok_next_tame; by split|]. intros t Ht.
    destruct (parse_safe (3 * weight t + 3)) as (_ & _ & P).
    eapply safe_bind; [by apply P|]. intros [e t'] _. by destruct (_ =? _). }
  by destruct (expr_parse s).
Qed.

Lemma expr_parse_defined_witness :
  ascii_plain (str "1 +) ?") = true /\ settled (expr_parse (str "1 +) ?")) = true.
Proof. split; [reflexivity|]. apply (expr_parse_defined (str "1 +) ?")). reflexivity. Defined.

(** A byte outside ASCII after an operand indexes before the table, and one
    that collides with a token constant is taken for it. *)
Example non_ascii_index : expr_parse (str "1+2" ++ [chr 0xc3; chr 0xa9]) = Ub "preds[] index out of range".
Proof. vm_compute. reflexivity. Qed.
Example non_ascii_ident : expr_parse [chr 0xff] = Ok E_IDENT.
Proof. vm_compute. reflexivity. Qed.
(** A binary [!] is accepted by the parser and fails an internal check later. *)
Example binary_not : if_value "1 ! 2" = Ice "bad op".
Proof. vm_compute. reflexivity. Qed.
(** The rest of an operand that bound tighter is not reconsidered. *)
Example precedence_lost : if_value "1 || 2 == 3 && 0" = Ok (0, false).
Proof. vm_compute. reflexivity. Qed.
(** Lower-case suffixes are not accepted. *)
Example lower_suffix : if_value "1l" = Die "at end of expression".
Proof. vm_compute. reflexivity. Qed.

(** ** Printing and parsing back *)

(** The operators with a spelling, [?:] apart. *)
Definition binops : list (Z * string) :=
  [ (tok_multiply, "*"); (tok_divide, "/"); (tok_modulus, "%"); (tok_plus, "+"); (tok_minus, "-");
    (tok_xor, "^"); (tok_or, "|"); (tok_and, "&"); (tok_orsc, "||"); (tok_andsc, "&&");
    (tok_shiftl, "<<"); (tok_shiftr, ">>"); (tok_eq, "=="); (tok_ne, "!="); (tok_le, "<=");
    (tok_lt, "<"); (tok_ge, ">="); (tok_gt, ">") ]%string.

Fixpoint op_find (tbl : list (Z * string)) (op : Z) : option string :=
  match tbl with
  | [] => None
  | (o, s) :: tbl => if o =? op then Some s else op_find tbl op
  end.

Definition op_text (op : Z) : cstr := str (default "" (op_find binops op))%string.

Definition hex_digit (d : Z) : ascii := chr (if d <? 10 then 48 + d else 87 + d).

(** The low [n] hexadecimal digits. *)
Fixpoint hex_digits (n : nat) (v : Z) : cstr :=
  match n with O => [] | S n => hex_digits n (v / 16) ++ [hex_digit (v mod 16)] end.

Fixpoint print (e : expr) : cstr :=
  match e with
  | E_IDENT => str "x"
  | E_NUM n => str "0x" ++ hex_digits 16 n
  | E_UOP op e => chr op :: print e
  | E_OP op l r => str "(" ++ print l ++ str " " ++ op_text op ++ str " " ++ print r ++ str ")"
  | E_TOP c t f => str "(" ++ print c ++ str " ? " ++ print t ++ str " : " ++ print f ++ str ")"
  end.

(** The expressions the parser can build out of operators C has. *)
Fixpoint spelled (e : expr) : Prop :=
  match e with
  | E_IDENT => True
  | E_NUM n => 0 <= n <= LONG_MAX
  | E_UOP op e => op ∈ [tok_not; tok_bnot; tok_minus] /\ spelled e
  | E_OP op l r => is_Some (op_find binops op) /\ spelled l /\ spelled r
  | E_TOP c t f => spelled c /\ spelled t /\ spelled f
  end.

Fixpoint size (e : expr) : nat :=
  match e with
  | E_IDENT | E_NUM _ => 1
  | E_UOP _ e => S (size e)
  | E_OP _ l r => S (size l + size r)
  | E_TOP c t f => S (size c + size t + size f)
  end.

(** At [r] the next token is [k], not a number, and [r'] follows it; no word or
    number runs on into [r]. *)
Definition follow (r : cstr) (k : Z) (r' : cstr) : Prop :=
  iswordpart (cur r) = false /\
  forall c n, tok_next {| tok_pos := r; tok_cur := c; tok_cur_num := n |}
    = Ok {| tok_pos := r'; tok_cur := k; tok_cur_num := n |}.

Lemma hex_digit_spec (d : Z) :
  0 <= d < 16 -> isxdigit (hex_digit d) = true /\ digit_val (hex_digit d) = d.
Proof.
  intros H. assert (forallb (fun d => isxdigit (hex_digit d) && (digit_val (hex_digit d) =? d))
    [0; 1; 2; 3; 4; 5; 6; 7; 8; 9; 10; 11; 12; 13; 14; 15] = true) as F by (vm_compute; reflexivity).
  rewrite forallb_forall in F. specialize (F d ltac:(simpl; lia)). to_prop. split; [done|]. by apply Z.eqb_eq.
Qed.

Lemma hex_digits_spec (n : nat) (v : Z) :
  0 <= v < 16 ^ Z.of_nat n ->
  length (hex_digits n v) = n /\ forallb isxdigit (hex_digits n v) = true /\
  foldl (fun v c => v * 16 + digit_val c) 0 (hex_digits n v) = v.
Proof.
  revert v. induction n as [|n IH]; intros v Hv; [simpl in *; split_and!; [done..|lia]|].
  rewrite Nat2Z.inj_succ, Z.pow_succ_r in Hv by lia.
  destruct (IH (v / 16)) as (L & F & V); [split; [apply Z.div_pos; lia | apply Z.div_lt_upper_bound; lia]|].
  destruct (hex_digit_spec (v mod 16) (Z.mod_pos_bound v 16 eq_refl)) as (D1 & D2).
  cbn [hex_digits]. rewrite length_app, forallb_app, foldl_app, L, F, V. simpl. rewrite D1, D2.
  split_and!; [lia | done |]. rewrite Z.mul_comm. symmetry. by apply Z.div_mod.
Qed.

Lemma skip_while_app (t : digit_test) (p r : cstr) :
  forallb t p = true -> t (cur r) = false -> skip_while t (p ++ r) = r.
Proof.
  intros F H. induction p as [|c p IH]; simpl in *.
  - destruct r as [|x r]; [done|]. simpl in *. by rewrite H.
  - apply andb_true_iff in F as (-> & F). by apply IH.
Qed.

Lemma not_word_skips (c : ascii) : iswordpart c = false -> isxdigit c = false /\ num_suffix c = false.
Proof.
  intros H. pose proof (ascii_forall_dec (fun c => iswordpart c || (negb (isxdigit c) && negb (num_suffix c)))
    ltac:(vm_compute; reflexivity) c) as A. simpl in A. rewrite H in A. simpl in A. by to_prop.
Qed.

Lemma tok_next_num (n c num : Z) (r : cstr) :
  0 <= n <= LONG_MAX -> iswordpart (cur r) = false ->
  tok_next {| tok_pos := print (E_NUM n) ++ r; tok_cur := c; tok_cur_num := num |}
  = Ok {| tok_pos := r; tok_cur := tok_num; tok_cur_num := n |}.
Proof.
  intros Hn Hr. destruct (not_word_skips _ Hr) as (H1 & H2).
  destruct (hex_digits_spec 16 n) as (L & F & V); [unfold LONG_MAX in Hn; simpl; lia|].
  set (ds := hex_digits 16 n) in *.
  assert (strtol (str "0x" ++ ds ++ r) = (n, r)) as E.
  { unfold strtol. destruct ds as [|d ds']; [done|].
    assert (isxdigit d = true) as Hd by (simpl in F; by apply andb_true_iff in F as (? & _)).
    cbn [str list_ascii_of_string app cur]. change (at_ _ 1) with "x"%char. change (at_ _ 2) with d.
    rewrite Hd. cbv zeta.
    match goal with |- context [if ?b then (16, _, _) else _] => replace b with true by done end.
    cbv beta iota zeta.
    change (drop 2 ("0"%char :: "x"%char :: d :: ds' ++ r)) with ((d :: ds') ++ r).
    rewrite skip_while_app by done. rewrite length_app, Nat.add_sub, take_app_length, V. f_equal. lia. }
  unfold tok_next, print. fold ds. rewrite <- app_assoc. cbn [tok_pos tok_cur_num].
  change (str_spc_skip (str "0x" ++ ds ++ r)) with (str "0x" ++ ds ++ r). rewrite E.
  cbn [str list_ascii_of_string app]. cbv zeta. simpl (isdigit _). cbn match.
  assert (skip_while num_suffix r = r) as ->; [|done].
  destruct r as [|x r]; [done|]. simpl in H2 |- *. by rewrite H2.
Qed.

Lemma tok_next_space (s : cstr) (c n : Z) :
  s <> [] ->
  tok_next {| tok_pos := str " " ++ s; tok_cur := c; tok_cur_num := n |}
  = tok_next {| tok_pos := s; tok_cur := c; tok_cur_num := n |}.
Proof. destruct s; done. Qed.

Lemma tok_op_single (c : ascii) (pos : cstr) :
  (c =c "|"%char) || (c =c "&"%char) || (c =c "<"%char) || (c =c ">"%char) || (c =c "="%char)
    || ((c =c "!"%char) && (cur pos =c "="%char)) = false ->
  tok_op c pos = (schar c, pos).
Proof.
  rewrite !orb_false_iff. unfold tok_op. intros (((((-> & ->) & ->) & ->) & ->) & H).
  rewrite !andb_false_r. destruct (cur pos =c "="%char); [|done].
  rewrite andb_true_r in H. by rewrite H.
Qed.

Lemma follow_op (op : Z) (r : cstr) :
  is_Some (op_find binops op) -> follow (str " " ++ op_text op ++ str " " ++ r) op (str " " ++ r).
Proof.
  intros [s H]. assert (exists s, (op, s) ∈ binops) as (s' & Hs).
  { exists s. revert H. generalize binops. induction l as [|[o x] l IH]; [done|]. simpl.
    destruct (Z.eqb_spec o op) as [->|]; [intros [= ->]; by left | intros Hl; right; by apply IH]. }
  unfold binops in Hs. rewrite !elem_of_cons in Hs.
  repeat destruct Hs as [[= -> _]|Hs]; try (split; [reflexivity | intros c n; reflexivity]).
  by apply elem_of_nil in Hs.
Qed.

Lemma follow_close (r : cstr) : follow (str ")" ++ r) tok_rparen r.
Proof.
  split; [done|]. intros c n. unfold tok_next. cbn [tok_pos str list_ascii_of_string app].
  change (str_spc_skip (")"%char :: r)) with (")"%char :: r). cbv zeta.
  change (drop 1 (")"%char :: r)) with r. cbn [cur].
  change (isdigit ")"%char) with false. change (")"%char =c squote) with false.
  change (")"%char =c "L"%char) with false. change (isalpha ")"%char || (")"%char =c "_"%char)) with false.
  cbn [andb]. by rewrite tok_op_single.
Qed.

Lemma follow_word (w : string) (k : Z) (r : cstr) :
  (w = " ? " /\ k = tok_question)%string \/ (w = " : " /\ k = tok_colon)%string ->
  follow (str w ++ r) k (str " " ++ r).
Proof. intros [(-> & ->)|(-> & ->)]; split; try reflexivity; intros c n; reflexivity. Qed.

Lemma print_cur (e : expr) (r : cstr) :
  spelled e -> print e <> [] /\ (cur (print e ++ r) =c "="%char) = false.
Proof.
  destruct e; cbn [print spelled]; try done. intros (Ho & _). split; [done|].
  rewrite !elem_of_cons, elem_of_nil in Ho. by destruct Ho as [->|[->|[->|[]]]].
Qed.

(** The printed [e] is read as a primary expression, up to the token after it. *)
Definition reads (e : expr) : Prop :=
  forall fuel r k r' c n, (3 * size e <= fuel)%nat -> follow r k r' ->
  exists t0 n', tok_next {| tok_pos := print e ++ r; tok_cur := c; tok_cur_num := n |} = Ok t0 /\
    parse_primary fuel t0 = Ok (e, {| tok_pos := r'; tok_cur := k; tok_cur_num := n' |}).

Lemma reads_parse (e : expr) (fuel : nat) (r r' : cstr) (k c n : Z) :
  reads e -> (3 * size e < fuel)%nat -> follow r k r' -> is_op k = false ->
  exists t0 n', tok_next {| tok_pos := print e ++ r; tok_cur := c; tok_cur_num := n |} = Ok t0 /\
    parse fuel t0 = Ok (e, {| tok_pos := r'; tok_cur := k; tok_cur_num := n' |}).
Proof.
  intros R Hf F Hk. destruct fuel as [|[|fuel]]; [lia| |].
  { destruct e; simpl in Hf; lia. }
  destruct (R (S fuel) r k r' c n ltac:(lia) F) as (t0 & n' & H1 & H2). exists t0, n'. split; [done|].
  cbn [parse]. rewrite H2. run. cbn [parse_rhs tok_cur]. by rewrite Hk.
Qed.

Lemma tok_next_ident (r : cstr) (c n : Z) :
  iswordpart (cur r) = false ->
  tok_next {| tok_pos := print E_IDENT ++ r; tok_cur := c; tok_cur_num := n |}
  = Ok {| tok_pos := r; tok_cur := tok_ident; tok_cur_num := n |}.
Proof.
  intros Hr. unfold tok_next. cbn [tok_pos print]. change (str "x" ++ r) with ("x"%char :: r). cbv zeta.
  change (str_spc_skip ("x"%char :: r)) with ("x"%char :: r). cbn [cur].
  change (isdigit "x"%char) with false. change ("x"%char =c squote) with false.
  change ("x"%char =c "L"%char) with false. change (isalpha "x"%char || ("x"%char =c "_"%char)) with true.
  cbn [andb]. assert (word_end ("x"%char :: r) = r) as ->; [|done].
  apply (word_end_app (str "x")); done.
Qed.

Lemma reads_ident : reads E_IDENT.
Proof.
  intros fuel r k r' c n Hf (Hr & F). simpl in Hf. destruct fuel as [|fuel]; [lia|].
  exists {| tok_pos := r; tok_cur := tok_ident; tok_cur_num := n |}, n. split.
  - by apply tok_next_ident.
  - cbn [parse_primary tok_cur]. change (tok_ident =? tok_ident) with true. cbv zeta. rewrite F. done.
Qed.

Lemma reads_num (v : Z) : 0 <= v <= LONG_MAX -> reads (E_NUM v).
Proof.
  intros Hv fuel r k r' c n Hf (Hr & F). simpl in Hf. destruct fuel as [|fuel]; [lia|].
  eexists _, v. split; [by apply tok_next_num|].
  cbn [parse_primary tok_cur]. change (tok_num =? tok_ident) with false.
  change (tok_num =? tok_num) with true. cbv zeta. by rewrite F.
Qed.

Lemma tok_next_uop (op : Z) (e : expr) (r : cstr) (c n : Z) :
  op ∈ [tok_not; tok_bnot; tok_minus] -> spelled e ->
  tok_next {| tok_pos := print (E_UOP op e) ++ r; tok_cur := c; tok_cur_num := n |}
  = Ok {| tok_pos := print e ++ r; tok_cur := op; tok_cur_num := n |}.
Proof.
  intros Ho Hs. destruct (print_cur e r Hs) as (_ & He). cbn [print].
  unfold tok_next. cbn [tok_pos app]. cbv zeta.
  rewrite !elem_of_cons, elem_of_nil in Ho. destruct Ho as [->|[->|[->|[]]]];
    match goal with |- context [str_spc_skip (?x :: ?y)] => change (str_spc_skip (x :: y)) with (x :: y) end;
    cbn [cur]; cbn -[tok_op cur print]; rewrite tok_op_single by (cbn -[print]; by rewrite ?He); reflexivity.
Qed.

Lemma reads_uop (op : Z) (e : expr) :
  op ∈ [tok_not; tok_bnot; tok_minus] -> spelled e -> reads e -> reads (E_UOP op e).
Proof.
  intros Ho Hs R fuel r k r' c n Hf F. cbn [size] in Hf. destruct fuel as [|fuel]; [lia|].
  destruct (R fuel r k r' op n ltac:(lia) F) as (t1 & n' & H1 & H2).
  eexists _, n'. split; [by apply tok_next_uop|].
  cbn [parse_primary tok_cur]. cbv zeta.
  rewrite !elem_of_cons, elem_of_nil in Ho. destruct Ho as [->|[->|[->|[]]]];
    cbn -[tok_next parse_primary print]; rewrite H1; run; by rewrite H2.
Qed.

Lemma tok_next_open (s : cstr) (c n : Z) :
  tok_next {| tok_pos := str "(" ++ s; tok_cur := c; tok_cur_num := n |}
  = Ok {| tok_pos := s; tok_cur := tok_lparen; tok_cur_num := n |}.
Proof.
  unfold tok_next. cbn [tok_pos str list_ascii_of_string app].
  change (str_spc_skip ("("%char :: s)) with ("("%char :: s). cbv zeta. cbn [cur].
  change (isdigit "("%char) with false. change ("("%char =c squote) with false.
  change ("("%char =c "L"%char) with false. change (isalpha "("%char || ("("%char =c "_"%char)) with false.
  cbn [andb]. by rewrite tok_op_single.
Qed.

Lemma binop_spelled (op : Z) :
  is_Some (op_find binops op) ->
  is_op op = true /\ (op =? tok_question) = false /\ exists p, PRECEDENCE op = Ok p /\ p <= 10.
Proof.
  intros [s H]. assert (exists s, (op, s) ∈ binops) as (s' & Hs).
  { exists s. revert H. generalize binops. induction l as [|[o x] l IH]; [done|]. simpl.
    destruct (Z.eqb_spec o op) as [->|]; [intros [= ->]; by left | intros Hl; right; by apply IH]. }
  unfold binops in Hs. rewrite !elem_of_cons in Hs.
  repeat destruct Hs as [[= -> _]|Hs];
    try (split; [reflexivity | split; [reflexivity | eexists; split; [vm_compute; reflexivity | lia]]]).
  by apply elem_of_nil in Hs.
Qed.

(** One binary operator, its operands in place, read by [parse_rhs]. *)
Lemma rhs_op (op : Z) (l e : expr) (fuel : nat) (r r' : cstr) (k n p q : Z) :
  is_Some (op_find binops op) -> reads e -> (3 * size e <= fuel)%nat -> follow r k r' ->
  PRECEDENCE op = Ok p -> PRECEDENCE k = Ok q -> p <= q ->
  exists n', forall pri, p <= pri ->
    parse_rhs (S fuel) l pri {| tok_pos := str " " ++ print e ++ r; tok_cur := op; tok_cur_num := n |}
    = parse_rhs fuel (E_OP op l e) pri {| tok_pos := r'; tok_cur := k; tok_cur_num := n' |}.
Proof.
  intros Ho R Hf F Ep Eq Hpq. destruct (binop_spelled op Ho) as (O1 & O2 & _).
  destruct (R fuel r k r' op n Hf F) as (t0 & n' & H1 & H2). exists n'. intros pri Hpri.
  cbn [parse_rhs tok_cur]. cbv zeta. rewrite O1, Ep. cbn [negb]. run. if_false.
  rewrite tok_next_space by (destruct e; done). rewrite H1. run. rewrite O2, H2. run. cbn [tok_cur].
  rewrite Eq. run. if_false. run. done.
Qed.

(** A parenthesised expression, from after its parenthesis. *)
Lemma reads_open (e : expr) (body : cstr) :
  print e = str "(" ++ body ->
  (forall fuel r k r' n, (3 * size e <= fuel)%nat -> follow r k r' ->
    exists n', parse_primary fuel {| tok_pos := body ++ r; tok_cur := tok_lparen; tok_cur_num := n |}
      = Ok (e, {| tok_pos := r'; tok_cur := k; tok_cur_num := n' |})) ->
  reads e.
Proof.
  intros Hp H fuel r k r' c n Hf F. destruct (H fuel r k r' n Hf F) as (n' & H').
  eexists _, n'. split; [|exact H']. rewrite Hp, <- app_assoc. apply tok_next_open.
Qed.

Lemma reads_op (op : Z) (l e : expr) :
  is_Some (op_find binops op) -> reads l -> reads e -> reads (E_OP op l e).
Proof.
  intros Ho Rl Re.
  apply (reads_open (E_OP op l e) (print l ++ str " " ++ op_text op ++ str " " ++ print e ++ str ")") eq_refl). intros fuel r k r' n Hf (Hr & F). cbn [size] in Hf.
  destruct fuel as [|[|[|fuel]]]; [lia..|].
  cbn [parse_primary tok_cur]. change (tok_lparen =? tok_ident) with false. change (tok_lparen =? tok_num) with false.
  change (tok_lparen =? tok_lparen) with true. cbv zeta.
  rewrite <- !app_assoc.
  pose proof (follow_op op (print e ++ str ")" ++ r) Ho) as Fo.
  destruct (Rl (S fuel) _ _ _ tok_lparen n ltac:(lia) Fo) as (t0 & n1 & H1 & H2).
  rewrite H1. run. cbn [parse]. rewrite H2. run.
  destruct (binop_spelled op Ho) as (_ & _ & p & Ep & Hp).
  destruct (rhs_op op l e fuel (str ")" ++ r) r tok_rparen n1 p MAX_PRI Ho Re ltac:(lia) (follow_close r) Ep eq_refl ltac:(unfold MAX_PRI; lia))
    as (n2 & H3).
  rewrite H3 by (unfold MAX_PRI; lia).
  assert (0 < fuel)%nat by (destruct l, e; simpl in Hf; lia).
  destruct fuel as [|fuel]; [lia|]. cbn [parse_rhs tok_cur]. cbv zeta.
  change (is_op tok_rparen) with false. cbn [negb]. run. cbn [tok_cur].
  change (tok_rparen =? tok_rparen) with true. rewrite F. run. by eexists.
Qed.

Lemma reads_top (c t f : expr) : reads c -> reads t -> reads f -> reads (E_TOP c t f).
Proof.
  intros Rc Rt Rf.
  apply (reads_open (E_TOP c t f) (print c ++ str " ? " ++ print t ++ str " : " ++ print f ++ str ")") eq_refl). intros fuel r k r' n Hf (Hr & F). cbn [size] in Hf.
  assert (0 < size c)%nat by (destruct c; simpl; lia).
  destruct fuel as [|[|[|fuel]]]; [lia..|].
  cbn [parse_primary tok_cur]. change (tok_lparen =? tok_ident) with false. change (tok_lparen =? tok_num) with false.
  change (tok_lparen =? tok_lparen) with true. cbv zeta.
  rewrite <- !app_assoc.
  pose proof (follow_word " ? " tok_question (print t ++ str " : " ++ print f ++ str ")" ++ r) ltac:(by left)) as Fq.
  destruct (Rc (S fuel) _ _ _ tok_lparen n ltac:(lia) Fq) as (t0 & n1 & H1 & H2).
  rewrite H1. run. cbn [parse]. rewrite H2. run.
  cbn [parse_rhs tok_cur]. cbv zeta. change (is_op tok_question) with true.
  change (PRECEDENCE tok_question) with (Ok 11). cbn [negb]. run. change (MAX_PRI <? 11) with false. cbn match.
  rewrite tok_next_space by (destruct t; done).
  pose proof (follow_word " : " tok_colon (print f ++ str ")" ++ r) ltac:(by right)) as Fc.
  destruct (reads_parse t fuel _ _ _ tok_question n1 Rt ltac:(lia) Fc eq_refl) as (t2 & n2 & H3 & H4).
  rewrite H3. run. change (tok_question =? tok_question) with true. cbn match. rewrite H4. run. cbn [tok_cur].
  change (tok_colon =? tok_colon) with true. cbn match.
  rewrite tok_next_space by (destruct f; done).
  destruct (reads_parse f fuel _ _ _ tok_colon n2 Rf ltac:(lia) (follow_close r) eq_refl) as (t3 & n3 & H5 & H6).
  rewrite H5. run. rewrite H6. run.
  destruct fuel as [|fuel]; [lia|]. cbn [parse_rhs tok_cur]. cbv zeta.
  change (is_op tok_rparen) with false. cbn [negb]. run. cbn [tok_cur].
  change (tok_rparen =? tok_rparen) with true. rewrite F. run. by eexists.
Qed.

Lemma print_reads (e : expr) : spelled e -> reads e.
Proof.
  induction e; cbn [spelled].
  - intros _. apply reads_ident.
  - apply reads_num.
  - intros (Ho & H1 & H2). apply reads_op; auto.
  - intros (Ho & H1). apply reads_uop; auto.
  - intros (H1 & H2 & H3). apply reads_top; auto.
Qed.

Lemma follow_end : follow [] tok_eof [].
Proof. by split. Qed.

Lemma print_size (e : expr) : (size e <= length (print e))%nat.
Proof.
  induction e; cbn [size print]; rewrite ?length_app; cbn [length str list_ascii_of_string]; lia.
Qed.

(** The tokens that follow the first are enough fuel. *)
Lemma first_weight (e : expr) (r : cstr) (t0 : toks) (c n : Z) :
  spelled e -> iswordpart (cur r) = false ->
  tok_next {| tok_pos := print e ++ r; tok_cur := c; tok_cur_num := n |} = Ok t0 ->
  (size e + length r <= weight t0)%nat.
Proof.
  assert (forall e body, print e = str "(" ++ body -> (size e <= length (print e))%nat ->
    tok_next {| tok_pos := print e ++ r; tok_cur := c; tok_cur_num := n |} = Ok t0 ->
    (size e + length r <= weight t0)%nat) as open_weight.
  { intros e' body -> L'. rewrite <- app_assoc, tok_next_open. intros [= <-].
    unfold weight. simpl in *. rewrite length_app. lia. }
  pose proof (print_size e) as L. intros Hs Hr. destruct e; cbn [spelled] in Hs.
  - rewrite tok_next_ident by done. intros [= <-]. unfold weight. simpl. lia.
  - rewrite tok_next_num by done. intros [= <-]. unfold weight. simpl. lia.
  - intros H. eapply open_weight; [reflexivity|exact L|exact H].
  - destruct Hs as (Ho & Hs). rewrite tok_next_uop by done. intros [= <-]. cbn [print length] in L.
    unfold weight. cbn [tok_pos tok_cur]. rewrite length_app.
    rewrite !elem_of_cons, elem_of_nil in Ho. destruct Ho as [->|[->|[->|[]]]]; cbn -[print size] ; lia.
  - intros H. eapply open_weight; [reflexivity|exact L|exact H].
Qed.

(** C30: parsing inverts printing: an expression written out with explicit
    parentheses - identifiers, every [long] numeral, every unary, binary and
    [?:] operator - is parsed back to exactly itself. *)
Theorem expr_parse_print (e : expr) : spelled e -> expr_parse (print e) = Ok e.
Proof.
  intros Hs. pose proof (print_reads e Hs) as R. unfold expr_parse, expr_parse_from, tok_begin.
  cbn [tok_cur tok_cur_num]. rewrite <- (app_nil_r (print e)).
  destruct (R (3 * size e)%nat [] tok_eof [] tok_eof 0 ltac:(lia) follow_end) as (t0 & _ & H1 & _).
  pose proof (first_weight e [] t0 _ _ Hs eq_refl H1).
  destruct (reads_parse e (3 * weight t0 + 3) [] [] tok_eof tok_eof 0 R ltac:(lia) follow_end eq_refl)
    as (t1 & n1 & H3 & H4).
  rewrite H1 in H3. injection H3 as <-. rewrite H1. run. rewrite H4. run. done.
Qed.

Lemma expr_parse_print_witness :
  let e := E_TOP (E_OP tok_shiftl (E_NUM 5) E_IDENT) (E_UOP tok_minus (E_UOP tok_minus (E_NUM 1))) E_IDENT in
  spelled e /\ expr_parse (print e) = Ok e.
Proof.
  intros e. assert (spelled e) as H.
  { unfold e. cbn [spelled]. split_and!; try by_decide; try done; by eexists. }
  split; [exact H|]. exact (expr_parse_print e H).
Defined.

(** ** Chains of operators *)

(** Operators bind ever looser, or equally. *)
Fixpoint loosening (p : Z) (l : list (Z * expr)) : Prop :=
  match l with
  | [] => True
  | (op, _) :: l => p <= pred_find pred_table op /\ loosening (pred_find pred_table op) l
  end.

Definition build_chain (e : expr) (l : list (Z * expr)) : expr :=
  foldl (fun a '(op, e) => E_OP op a e) e l.

Definition chain_text (l : list (Z * expr)) : cstr :=
  concat (map (fun '(op, e) => str " " ++ op_text op ++ str " " ++ print e) l).

Definition chain_size (l : list (Z * expr)) : nat := foldr (fun x n => 3 * size (snd x) + 1 + n)%nat 1%nat l.

Definition chain_ok (l : list (Z * expr)) : Prop :=
  Forall (fun x => is_Some (op_find binops (fst x)) /\ spelled (snd x)) l.

Lemma chain_follow (l : list (Z * expr)) :
  chain_ok l -> exists k r', follow (chain_text l) k r' /\
    match l with
    | [] => k = tok_eof /\ r' = []
    | (op, e) :: l => k = op /\ r' = str " " ++ print e ++ chain_text l
    end.
Proof.
  intros F. destruct l as [|[op e] l]; [exists tok_eof, []; split; [apply follow_end|done]|].
  inversion F as [|? ? (Ho & _) _]; subst. exists op, (str " " ++ print e ++ chain_text l).
  split; [|done]. unfold chain_text. cbn [map concat]. rewrite <- !app_assoc. by apply follow_op.
Qed.

Lemma chain_rhs (l : list (Z * expr)) (lhs : expr) (p fuel : nat) (q : Z) (t : toks) :
  chain_ok l -> loosening q l -> (chain_size l <= fuel)%nat ->
  match l with
  | [] => tok_cur t = tok_eof
  | (op, e) :: l => tok_cur t = op /\ tok_pos t = str " " ++ print e ++ chain_text l
  end ->
  exists t', parse_rhs fuel lhs MAX_PRI t = Ok (build_chain lhs l, t') /\ tok_cur t' = tok_eof.
Proof.
  revert lhs fuel q t. induction l as [|[op e] l IH]; intros lhs fuel q t F L Hf Ht.
  - destruct fuel as [|fuel]; [simpl in Hf; lia|]. exists t. cbn [parse_rhs]. rewrite Ht. split; done.
  - inversion F as [|? ? (Ho & Hs) F']; subst. destruct Ht as (Hc & Hp). destruct L as (_ & L).
    cbn [chain_size foldr snd fst] in *. destruct fuel as [|fuel]; [lia|].
    destruct (chain_follow l F') as (k & r' & Fo & Hk).
    destruct (binop_spelled op Ho) as (_ & _ & p' & Ep & Hp').
    assert (p' = pred_find pred_table op) as Epf.
    { unfold PRECEDENCE in Ep. destruct (_ && _); [by injection Ep|done]. }
    assert (exists q', PRECEDENCE k = Ok q' /\ p' <= q') as (q' & Eq & Hq).
    { destruct l as [|[op2 e2] l2].
      - destruct Hk as (-> & _). eexists. split; [reflexivity|]. change (p' <= 20). lia.
      - destruct Hk as (-> & _). inversion F' as [|? ? (Ho2 & _) _]; subst.
        destruct (binop_spelled op2 Ho2) as (_ & _ & q' & Eq & _). exists q'. split; [done|].
        destruct L as (L & _). unfold PRECEDENCE in Eq. destruct (_ && _); [|done]. injection Eq as <-. done. }
    destruct (rhs_op op lhs e fuel (chain_text l) r' k (tok_cur_num t) p' q' Ho (print_reads e Hs))
      as (n' & R); [unfold chain_size in Hf; lia|done..|].
    destruct t as [pos c num]. cbn [tok_pos tok_cur tok_cur_num] in *. subst pos c.
    rewrite R by (unfold MAX_PRI; lia).
    apply (IH (E_OP op lhs e) fuel (pred_find pred_table op)); [done|done|unfold chain_size in *; lia|].
    destruct l as [|[op2 e2] l2]; destruct Hk as (-> & ->); done.
Qed.

Lemma chain_text_size (l : list (Z * expr)) : (chain_size l <= 3 * length (chain_text l) + 1)%nat.
Proof.
  induction l as [|[op e] l IH]; [simpl; lia|].
  unfold chain_size, chain_text in *. cbn [foldr map concat snd].
  rewrite !length_app. change (length (str " ")) with 1%nat. pose proof (print_size e). lia.
Qed.

(** unparenthesised operators that bind ever looser to the right - chains of
    one operator among them - group to the left, as C has it. *)
Theorem expr_parse_chain (e : expr) (l : list (Z * expr)) :
  spelled e -> chain_ok l -> loosening 0 l ->
  expr_parse (print e ++ chain_text l) = Ok (build_chain e l).
Proof.
  intros Hs F L. unfold expr_parse, expr_parse_from, tok_begin. cbn [tok_cur tok_cur_num].
  destruct (chain_follow l F) as (k & r' & Fo & Hk).
  destruct (print_reads e Hs (3 * size e)%nat (chain_text l) k r' tok_eof 0 ltac:(lia) Fo) as (t0 & _ & H1 & _).
  pose proof (first_weight e (chain_text l) t0 _ _ Hs (proj1 Fo) H1) as W.
  pose proof (chain_text_size l) as Lc.
  destruct (print_reads e Hs (3 * weight t0 + 2)%nat (chain_text l) k r' tok_eof 0 ltac:(lia) Fo) as (t1 & n1 & H3 & H4).
  rewrite H1 in H3. injection H3 as <-. rewrite H1. run.
  replace (3 * weight t0 + 3)%nat with (S (3 * weight t0 + 2)) by lia. cbn [parse]. rewrite H4. run.
  assert (0 < size e)%nat by (destruct e; simpl; lia).
  destruct (chain_rhs l e 0 (3 * weight t0 + 2) 0 {| tok_pos := r'; tok_cur := k; tok_cur_num := n1 |} F L)
    as (t' & -> & Ht); [lia | destruct l as [|[op2 e2] l2]; by destruct Hk as (-> & ->) |].
  run. by rewrite Ht.
Qed.

Lemma expr_parse_chain_witness :
  expr_parse (str "0x0000000000000007 - x - x << x && x")
  = Ok (E_OP tok_andsc (E_OP tok_shiftl (E_OP tok_minus (E_OP tok_minus (E_NUM 7) E_IDENT) E_IDENT) E_IDENT) E_IDENT).
Proof.
  apply (expr_parse_chain (E_NUM 7) [(tok_minus, E_IDENT); (tok_minus, E_IDENT); (tok_shiftl, E_IDENT); (tok_andsc, E_IDENT)]).
  - by_decide.
  - repeat constructor; by eexists.
  - by_decide.
Defined.
