(* ===== verification/CppTok.v ===== *)
(** * Preprocessing tokens

    [src/src/cpp2/tokenise.c]: cutting a line into tokens, each knowing whether
    whitespace came before it, and joining tokens back into text. A
    [token **] is the list of the tokens it leads to, or nothing for NULL, which
    is what an empty line gives. *)

From S2P Require Import Prelude CStr.

Inductive ptok :=
  | TOKEN_WORD | TOKEN_OPEN_PAREN | TOKEN_CLOSE_PAREN | TOKEN_COMMA | TOKEN_ELIPSIS
  | TOKEN_STRING | TOKEN_HASH_QUOTE | TOKEN_HASH_JOIN | TOKEN_OTHER.

#[global] Instance ptok_eq_dec : EqDecision ptok.
Proof. solve_decision. Defined.

(** [w] is NULL for punctuation. *)
Record token : Type := mk_token { tok : ptok; w : option cstr; had_whitespace : bool }.

#[global] Instance token_eq_dec : EqDecision token.
Proof. solve_decision. Defined.

(** One round of the loop of [tokenise], from a [p] that is not at the end: the
    token and the next [p]. *)
Definition token_read (p : cstr) : res (token * cstr) :=
  let ws := isspace (cur p) in
  let mk t w := {| tok := t; w := w; had_whitespace := ws |} in
  let p := str_spc_skip p in
  match p with
  | [] => Ok (mk TOKEN_WORD (Some []), [])
  | c :: r =>
      if isalpha c || (c =c "_"%char) then Ok (mk TOKEN_WORD (Some (word_dup p)), word_end p)
      else if c =c ","%char then Ok (mk TOKEN_COMMA None, r)
      else if c =c "("%char then Ok (mk TOKEN_OPEN_PAREN None, r)
      else if c =c ")"%char then Ok (mk TOKEN_CLOSE_PAREN None, r)
      else if c =c dquote then
        end_ ← str_quotefin r;
        match end_ with
        | None => Ice "strip_comment() broken"
        | Some e => Ok (mk TOKEN_STRING (Some (take (length p - length e + 1) p)), drop 1 e)
        end
      else if c =c "#"%char then
        if cur r =c "#"%char then Ok (mk TOKEN_HASH_JOIN None, drop 1 r)
        else Ok (mk TOKEN_HASH_QUOTE None, r)
      else if has_prefix p (str "...") then Ok (mk TOKEN_ELIPSIS None, drop 3 p)
      else Ok (mk TOKEN_OTHER (Some [c]), r)
  end.

(** Every round uses a character. *)
Fixpoint tokenise_loop (fuel : nat) (p : cstr) : res (list token) :=
  match fuel with
  | O => NoFuel
  | S fuel =>
      match p with
      | [] => Ok []
      | _ => '(t, p) ← token_read p; ts ← tokenise_loop fuel p; Ok (t :: ts)
      end
  end.

Definition token_trim (t : token) : token :=
  {| tok := tok t; w := str_trim <$> w t; had_whitespace := had_whitespace t |}.

(** A NULL-terminated array, or NULL: that of a line without characters. *)
Definition token_array : Type := option (list token).

Definition tokenise (line : cstr) : res token_array :=
  ts ← tokenise_loop (S (length line)) line;
  Ok (match ts with [] => None | _ => Some (map token_trim ts) end).

Definition token_str (t : token) : res cstr :=
  match tok t with
  | TOKEN_OTHER | TOKEN_WORD | TOKEN_STRING =>
      match w t with Some w => Ok w | None => Ice "no word" end
  | TOKEN_OPEN_PAREN => Ok (str "(")
  | TOKEN_CLOSE_PAREN => Ok (str ")")
  | TOKEN_COMMA => Ok (str ",")
  | TOKEN_ELIPSIS => Ok (str "...")
  | TOKEN_HASH_QUOTE => Ok (str "#")
  | TOKEN_HASH_JOIN => Ok (str "##")
  end.

Fixpoint join_all (ts : list token) : res cstr :=
  match ts with
  | [] => Ok []
  | t :: ts =>
      s ← token_str t;
      r ← join_all ts;
      Ok ((if had_whitespace t then str " " else []) ++ s ++ r)
  end.

(** [lim] is -1 for all of them. The loops read the array first: NULL may not
    be joined. *)
Definition tokens_join_n (ts : token_array) (lim : Z) : res cstr :=
  match ts with
  | None => Ub "NULL array"
  | Some ts => join_all (if (lim =? -1)%Z then ts else take (Z.to_nat lim) ts)
  end.

Definition tokens_join (ts : token_array) : res cstr := tokens_join_n ts (-1).

Definition token_is_space (t : token) : bool :=
  match tok t with
  | TOKEN_WORD => negb (negb (bool_decide (str_spc_skip (default [] (w t)) = [])))
  | _ => false
  end.

Fixpoint tokens_skip_whitespace (ts : list token) : list token :=
  match ts with
  | [] => []
  | t :: ts' => if token_is_space t then tokens_skip_whitespace ts' else ts
  end.

(** The pointer returned by [tokens_skip_whitespace] is only NULL for NULL. *)
Definition tokens_just_whitespace (ts : option (list token)) : bool :=
  match tokens_skip_whitespace <$> ts with Some _ => false | None => true end.

Definition tokens_count_skip_spc (ts : list token) : nat :=
  length (filter (fun t => token_is_space t = false) ts).

Example tokenise_ex :
  tokenise (str "#define F(x, ...)  a##x") ≫= tokens_join = Ok (str "#define F(x, ...) a##x").
Proof. reflexivity. Qed.

(** ** Reading one token *)

(** Where a quoted string ends does not depend on what follows it. *)
Lemma quotefin_local (s p u u' : cstr) (q : ascii) :
  s = p ++ q :: u -> str_quotefin2 s q = Ok (Some (q :: u)) ->
  str_quotefin2 (p ++ q :: u') q = Ok (Some (q :: u')).
Proof.
  remember (length p) as n eqn:Hn. revert s p Hn.
  induction n as [n IH] using lt_wf_ind; intros s p Hn -> H.
  destruct p as [|c p]; simpl in *.
  - destruct (q =c bslash) eqn:E.
    + exfalso. destruct u as [|d u]; [done|]. apply str_quotefin2_length in H. simpl in H. lia.
    + by rewrite (proj2 (eqc_true q q) eq_refl).
  - revert H. destruct (c =c bslash); intros H.
    + destruct p as [|d p]; simpl in *.
      * apply str_quotefin2_length in H. simpl in H. lia.
      * by apply (IH (length p)) with (s := p ++ q :: u); [lia|..].
    + revert H. destruct (c =c q); intros H; [|by apply (IH (length p)) with (s := p ++ q :: u); [lia|..]].
      injection H as _ H. assert (length (p ++ q :: u) = length u) as L by (by rewrite H).
      rewrite length_app in L. simpl in L. lia.
Qed.

Lemma word_no_space (c : ascii) :
  isalpha c || (c =c "_"%char) = true -> isspace c = false /\ iswordpart c = true.
Proof.
  intros H. pose proof (ascii_forall_dec (fun c => negb (isalpha c || (c =c "_"%char)) || (negb (isspace c) && iswordpart c))
    ltac:(vm_compute; reflexivity) c) as A. simpl in A. rewrite H in A. simpl in A. by to_prop.
Qed.

(** What must follow a token so that it is not read on. *)
Definition stops (t : token) (q : cstr) : Prop :=
  match tok t with
  | TOKEN_WORD => (w t = Some [] -> q = []) /\ iswordpart (cur q) = false
  | TOKEN_HASH_QUOTE => (cur q =c "#"%char) = false
  | TOKEN_OTHER => w t = Some (str ".") -> has_prefix q (str "..") = false
  | _ => True
  end.

(** The text of a token as [join_all] writes it. *)
Definition spaced (t : token) (x : cstr) : cstr := (if had_whitespace t then str " " else []) ++ x.

(** The token read from the front of [p], with its text [x]: it stops at the rest
    and can be read again from its text. *)
Definition token_at (p : cstr) (t : token) (rest x : cstr) : Prop :=
  str_spc_skip p = x ++ rest /\ had_whitespace t = isspace (cur p) /\ token_str t = Ok x /\
  token_trim t = t /\ stops t rest /\ (x = [] -> tok t = TOKEN_WORD /\ rest = [] /\ had_whitespace t = true) /\
  forall q, stops t q -> token_read (spaced t x ++ q) = Ok (t, q).

Lemma isspace_skip (p : cstr) : p <> [] -> str_spc_skip p = [] -> isspace (cur p) = true.
Proof. destruct p as [|c p]; [done|]. simpl. by destruct (isspace c). Qed.

(** Reading text that starts with a space or with the token itself. *)
Lemma token_read_spaced (ws : bool) (x q : cstr) (t : token) :
  isspace (cur x) = false -> x <> [] ->
  token_read (x ++ q) = Ok ({| tok := tok t; w := w t; had_whitespace := false |}, q) ->
  token_read ((if ws then str " " else []) ++ x ++ q) = Ok ({| tok := tok t; w := w t; had_whitespace := ws |}, q).
Proof.
  intros Hs Hx. destruct ws; [|done]. destruct x as [|c x]; [done|]. simpl in Hs.
  unfold token_read. cbn [str list_ascii_of_string app cur]. rewrite Hs.
  change (isspace " "%char) with true. change (str_spc_skip (" "%char :: c :: x ++ q)) with (str_spc_skip (c :: x ++ q)).
  cbn [str_spc_skip]. rewrite Hs. cbv zeta.
  repeat match goal with
    | |- (if ?b then _ else _) = _ -> _ => destruct b
    end; try (intros H; injection H; intros; congruence).
  destruct (str_quotefin (x ++ q)) as [[e|]| | | |]; run; try done.
  intros H; injection H; intros; congruence.
Qed.

Lemma token_read_at (p : cstr) (t : token) (rest : cstr) :
  p <> [] -> token_read p = Ok (t, rest) -> exists x, token_at p t rest x.
Proof.
  intros Hp. unfold token_read. set (ws := isspace (cur p)). set (s := str_spc_skip p).
  assert (isspace (cur s) = false) as Hs by apply str_spc_skip_cur.
  assert (forall x k wd, s = x ++ rest -> x <> [] -> t = {| tok := k; w := wd; had_whitespace := ws |} ->
    token_str t = Ok x -> (wd = None \/ wd = Some x) -> stops t rest ->
    (forall q, stops t q -> token_read (x ++ q) = Ok ({| tok := k; w := wd; had_whitespace := false |}, q)) ->
    exists x, token_at p t rest x) as Build.
  { intros x k wd Es Hx Ht Hstr Hw Hst Hre. exists x.
    assert (isspace (cur x) = false) as Hsx by (destruct x; [done|]; rewrite Es in Hs; exact Hs).
    split; [exact Es|]. split; [by rewrite Ht|]. split; [done|]. split; [|split; [done|split; [done|]]].
    - rewrite Ht. unfold token_trim. cbn [tok w had_whitespace]. destruct Hw as [-> | ->]; [done|].
      simpl. by rewrite str_trim_skip, str_spc_skip_id.
    - intros q Hq. unfold spaced. rewrite <- app_assoc. subst t. cbn [had_whitespace].
      exact (token_read_spaced ws x q {| tok := k; w := wd; had_whitespace := ws |} Hsx Hx (Hre q Hq)). }
  destruct s as [|c r] eqn:Es.
  - intros [= <- <-]. exists [].
    assert (ws = true) as Hw by (by apply isspace_skip). rewrite Hw.
    split_and!; try done. intros q Hq. destruct Hq as (Hq & _). by rewrite (Hq eq_refl).
  - cbv zeta. destruct (isalpha c || (c =c "_"%char)) eqn:Ea.
    { intros H. assert (word_end (c :: r) = rest /\
        t = {| tok := TOKEN_WORD; w := Some (word_dup (c :: r)); had_whitespace := ws |}) as (Er & Et)
        by (split; congruence).
      clear H. destruct (word_no_space c Ea) as (Hc & Hcw).
      destruct (word_end_suffix (c :: r)) as (x & Ex & Fx). rewrite Er in Ex.
      assert (iswordpart (cur rest) = false) as Hr by (rewrite <- Er; apply word_end_cur).
      assert (word_dup (c :: r) = x) as Ed by (rewrite Ex; by apply word_dup_app).
      assert (x <> []) as Hx.
      { intros ->. simpl in Ex. rewrite <- Ex in Hr. simpl in Hr. congruence. }
      rewrite Ed in Et. apply (Build x TOKEN_WORD (Some x));
        [exact Ex|done|exact Et|by rewrite Et|by right|rewrite Et; split; [by intros [= E0]|done]|].
      intros q Hq. rewrite Et in Hq. destruct Hq as (_ & Hq). destruct x as [|c' x]; [done|]. injection Ex as <- Ex.
      unfold token_read. cbn [app cur]. rewrite Hc. cbn [str_spc_skip]. rewrite Hc. cbv zeta. rewrite Ea.
      change (c :: x ++ q) with ((c :: x) ++ q).
      assert (word_end ((c :: x) ++ q) = q) as -> by (by apply word_end_app).
      assert (word_dup ((c :: x) ++ q) = c :: x) as -> by (by apply word_dup_app). done. }
    assert (isspace c = false) as Hc by exact Hs.
    destruct (c =c ","%char) eqn:E1.
    { apply eqc_true in E1 as ->. intros [= <- <-].
      by apply (Build (str ",") TOKEN_COMMA None); try done; left. }
    destruct (c =c "("%char) eqn:E2.
    { apply eqc_true in E2 as ->. intros [= <- <-].
      by apply (Build (str "(") TOKEN_OPEN_PAREN None); try done; left. }
    destruct (c =c ")"%char) eqn:E3.
    { apply eqc_true in E3 as ->. intros [= <- <-].
      by apply (Build (str ")") TOKEN_CLOSE_PAREN None); try done; left. }
    destruct (c =c dquote) eqn:E4.
    { apply eqc_true in E4 as ->. destruct (str_quotefin r) as [[e|]| | | |] eqn:Eq; run; try done.
      intros H. destruct (str_quotefin2_suffix _ _ _ Eq) as (b & u & Er & ->).
      assert (take (length (dquote :: r) - length (dquote :: u) + 1) (dquote :: r) = dquote :: b ++ [dquote]) as Ex.
      { rewrite Er. cbn [length]. rewrite length_app. cbn [length].
        replace (S (length b + S (length u)) - S (length u) + 1)%nat with (S (length (b ++ [dquote])))
          by (rewrite length_app; cbn [length]; lia).
        cbn [take]. f_equal. change (dquote :: u) with ([dquote] ++ u). rewrite app_assoc. apply take_app_length. }
      rewrite Ex in H. change (drop 1 (dquote :: u)) with (drop 0 u) in H. rewrite drop_0 in H.
      injection H as <- <-.
      eapply (Build (dquote :: b ++ [dquote]) TOKEN_STRING (Some (dquote :: b ++ [dquote]))); [cbn [app]; rewrite <- app_assoc; by rewrite Er|done|reflexivity|done|by right|done|].
      intros q _. unfold token_read. cbn [app cur]. change (isspace dquote) with false.
      change (str_spc_skip (dquote :: (b ++ [dquote]) ++ q)) with (dquote :: (b ++ [dquote]) ++ q). cbv zeta.
      change (isalpha dquote || (dquote =c "_"%char)) with false. change (dquote =c ","%char) with false.
      change (dquote =c "("%char) with false. change (dquote =c ")"%char) with false.
      change (dquote =c dquote) with true. cbn match. rewrite <- app_assoc. cbn [app].
      assert (str_quotefin (b ++ dquote :: q) = Ok (Some (dquote :: q))) as -> by (by eapply quotefin_local).
      run. assert (take (length (dquote :: b ++ dquote :: q) - length (dquote :: q) + 1) (dquote :: b ++ dquote :: q)
        = dquote :: b ++ [dquote]) as ->.
      { cbn [length]. rewrite !length_app. cbn [length].
        replace (S (length b + S (length q)) - S (length q) + 1)%nat with (S (length (b ++ [dquote])))
          by (rewrite length_app; cbn [length]; lia).
        cbn [take]. f_equal. change (dquote :: q) with ([dquote] ++ q). rewrite app_assoc. apply take_app_length. }
      change (drop 1 (dquote :: q)) with (drop 0 q). by rewrite drop_0. }
    assert (forall q, token_read (c :: q) =
      if c =c "#"%char then
        if cur q =c "#"%char then Ok ({| tok := TOKEN_HASH_JOIN; w := None; had_whitespace := false |}, drop 1 q)
        else Ok ({| tok := TOKEN_HASH_QUOTE; w := None; had_whitespace := false |}, q)
      else if has_prefix (c :: q) (str "...") then
        Ok ({| tok := TOKEN_ELIPSIS; w := None; had_whitespace := false |}, drop 3 (c :: q))
      else Ok ({| tok := TOKEN_OTHER; w := Some [c]; had_whitespace := false |}, q)) as Rd.
    { intros q. unfold token_read. cbn [cur str_spc_skip]. rewrite Hc. cbv zeta. by rewrite Ea, E1, E2, E3, E4. }
    destruct (c =c "#"%char) eqn:E5.
    { apply eqc_true in E5 as ->. destruct (cur r =c "#"%char) eqn:E6; intros [= <- <-].
      - destruct r as [|d r]; [done|]. simpl in E6. apply eqc_true in E6 as ->.
        by apply (Build (str "##") TOKEN_HASH_JOIN None); try done; left.
      - apply (Build (str "#") TOKEN_HASH_QUOTE None); try done; try (by left). intros q Hq.
        cbn [app str list_ascii_of_string]. rewrite Rd. unfold stops in Hq. cbn [tok] in Hq. by rewrite Hq. }
    destruct (has_prefix (c :: r) (str "...")) eqn:E6.
    + intros H. apply has_prefix_spec in E6 as (u & Eu). rewrite Eu in H.
      change (drop 3 (str "..." ++ u)) with (drop 0 u) in H. rewrite drop_0 in H. injection H as <- <-.
      apply (Build (str "...") TOKEN_ELIPSIS None); try done; try (by left).
    + intros [= <- <-]. apply (Build [c] TOKEN_OTHER (Some [c])); try done; try (by right).
      * intros E7. cbn [w] in E7. injection E7 as ->. simpl in E6. exact E6.
      * intros q Hq. cbn [app]. rewrite Rd. unfold stops in Hq. cbn [tok w] in Hq.
        destruct (has_prefix (c :: q) (str "...")) eqn:E7; [|done]. exfalso.
        apply has_prefix_spec in E7 as (u & Eu). injection Eu as -> ->. specialize (Hq eq_refl). done.
Qed.

(** ** Lines *)

Lemma token_at_shrinks (p rest x : cstr) (t : token) :
  p <> [] -> token_at p t rest x -> (length rest < length p)%nat.
Proof.
  intros Hp (Es & Hw & _ & _ & _ & Hx & _). pose proof (str_spc_skip_length p) as L.
  rewrite Es, length_app in L. destruct x as [|c x]; [|simpl in L; lia].
  destruct (Hx eq_refl) as (_ & -> & _). destruct p; [done|simpl; lia].
Qed.

Lemma tokenise_loop_fueled (fuel : nat) (p : cstr) : (length p < fuel)%nat -> fueled (tokenise_loop fuel p).
Proof.
  revert p. induction fuel as [|fuel IH]; intros p Hf; [lia|]. destruct p as [|c p]; [done|].
  cbn [tokenise_loop]. apply fueled_bind.
  - unfold token_read. cbv zeta. destruct (str_spc_skip _) as [|d r]; [done|].
    repeat match goal with |- fueled (if ?b then _ else _) => destruct b end; try done.
    unfold str_quotefin. pose proof (str_quotefin2_cases r dquote).
    by destruct (str_quotefin2 r dquote) as [[]| | | |].
  - intros [t rest] H. destruct (token_read_at (c :: p) t rest ltac:(done) H) as (x & A).
    pose proof (token_at_shrinks (c :: p) rest x t ltac:(done) A). apply fueled_bind; [|done].
    apply IH. simpl in *. lia.
Qed.

(** How the joined text starts. *)
Lemma join_cur (fuel : nat) (p : cstr) (ts : list token) (q : cstr) :
  tokenise_loop fuel p = Ok ts -> join_all ts = Ok q ->
  cur q = if isspace (cur p) then " "%char else cur p.
Proof.
  destruct fuel as [|fuel]; [done|]. destruct p as [|c p]; cbn [tokenise_loop].
  - intros [= <-] [= <-]. done.
  - intros ([t rest] & H & (ts' & Hts & [= <-])%bind_Ok)%bind_Ok. cbn [join_all].
    destruct (token_read_at (c :: p) t rest ltac:(done) H) as (x & Es & Hw & Hx & _ & _ & He & _).
    intros (s & Hs & (r & Hr & [= <-])%bind_Ok)%bind_Ok. rewrite Hx in Hs. injection Hs as <-.
    rewrite Hw. destruct (isspace (cur (c :: p))) eqn:E; [done|].
    destruct x as [|d x]; [destruct (He eq_refl) as (_ & _ & ?); congruence|].
    rewrite str_spc_skip_id in Es by done. injection Es as -> _. done.
Qed.

Lemma stops_join (fuel : nat) (t : token) (rest : cstr) (ts : list token) (q : cstr) :
  tokenise_loop fuel rest = Ok ts -> join_all ts = Ok q -> stops t rest -> stops t q.
Proof.
  intros Ht Hq. pose proof (join_cur fuel rest ts q Ht Hq) as C. unfold stops. destruct (tok t); try done.
  - intros (H1 & H2). split.
    + intros Hw. specialize (H1 Hw). subst. destruct fuel; [done|]. injection Ht as <-. by injection Hq as <-.
    + rewrite C. by destruct (isspace (cur rest)).
  - rewrite C. by destruct (isspace (cur rest)).
  - intros H Hw. specialize (H Hw). destruct (has_prefix q (str "..")) eqn:E; [|done]. exfalso.
    apply has_prefix_spec in E as (u & ->). simpl in C.
    destruct (isspace (cur rest)) eqn:Esp; [done|].
    destruct fuel as [|fuel]; [done|]. destruct rest as [|c p]; [done|]. simpl in C. subst c.
    cbn [tokenise_loop] in Ht. apply bind_Ok in Ht as ([t2 rest2] & H2 & Ht).
    apply bind_Ok in Ht as (ts2 & Ht2 & Ht). injection Ht as <-. cbn [join_all] in Hq.
    destruct (token_read_at ("."%char :: p) t2 rest2 ltac:(done) H2) as (x & Es & Hws & Hx & _ & _ & He & _).
    apply bind_Ok in Hq as (s & Hs & Hq). apply bind_Ok in Hq as (r & Hr & Hq). rewrite Hx in Hs. injection Hs as <-.
    rewrite Hws in Hq. change (isspace (cur ("."%char :: p))) with false in Hq. injection Hq as Hq.
    rewrite str_spc_skip_id in Es by done. rewrite Es in H.
    destruct x as [|a [|b x]]; simpl in Hq.
    + destruct (He eq_refl) as (_ & _ & Hw2). rewrite Hws in Hw2. by vm_compute in Hw2.
    + injection Hq as -> ->. pose proof (join_cur _ _ _ _ Ht2 Hr) as C2. simpl in C2.
      destruct (isspace (cur rest2)); [done|]. destruct rest2 as [|z y]; [done|]. simpl in C2. subst z. done.
    + injection Hq as -> -> _. done.
Qed.

Lemma reread (fuel : nat) (p : cstr) (ts : list token) :
  tokenise_loop fuel p = Ok ts ->
  map token_trim ts = ts /\
  exists q, join_all ts = Ok q /\ forall fuel', (length q < fuel')%nat -> tokenise_loop fuel' q = Ok ts.
Proof.
  revert p ts. induction fuel as [|fuel IH]; intros p ts; [done|].
  destruct p as [|c p]; cbn [tokenise_loop].
  - intros [= <-]. split; [done|]. exists []. split; [done|]. intros [|fuel'] Hf; [simpl in Hf; lia|done].
  - intros ([t rest] & H & (ts' & Hts & [= <-])%bind_Ok)%bind_Ok.
    destruct (token_read_at (c :: p) t rest ltac:(done) H) as (x & Es & Hw & Hx & Htr & Hst & He & Hre).
    destruct (IH rest ts' Hts) as (Hmap & q & Hq & Hloop). cbn [map]. rewrite Htr, Hmap. split; [done|].
    cbn [join_all]. rewrite Hx, Hq. run. eexists. split; [done|]. intros fuel' Hf.
    change ((if had_whitespace t then str " " else []) ++ x ++ q) with ((if had_whitespace t then str " " else []) ++ (x ++ q)) in *.
    rewrite app_assoc in Hf |- *. fold (spaced t x) in Hf |- *.
    destruct fuel' as [|fuel']; [lia|].
    assert (0 < length (spaced t x))%nat as Hl.
    { unfold spaced. destruct x as [|d x]; [|rewrite length_app; simpl; lia].
      destruct (He eq_refl) as (_ & _ & ->). simpl. lia. }
    cbn [tokenise_loop].
    assert (stops t q) as Hsq by (by eapply stops_join).
    pose proof (Hre q Hsq) as R. destruct (spaced t x ++ q) as [|d y] eqn:Ey.
    { apply (f_equal length) in Ey. rewrite length_app in Ey. simpl in Ey. lia. }
    rewrite R. run. apply (f_equal length) in Ey. rewrite length_app in Ey. simpl in Ey, Hf.
    by rewrite Hloop by lia.
Qed.

(** C32: tokenising a line that has any character and joining the tokens loses
    nothing but the length of runs of blanks: the joined text tokenises to
    exactly the same tokens. So passing text from one macro expansion to the
    next never glues or splits tokens. A line without characters gives no array
    at all, and only it; that may not be joined. *)
Theorem tokenise_join_roundtrip (line : cstr) (ts : token_array) :
  tokenise line = Ok ts ->
  (ts = None <-> line = []) /\
  (line <> [] -> exists text, tokens_join ts = Ok text /\ text <> [] /\ tokenise text = Ok ts) /\
  (line = [] -> tokens_join ts = Ub "NULL array").
Proof.
  unfold tokenise. intros (ts' & H & [= <-])%bind_Ok.
  destruct (reread _ _ _ H) as (Ht & q & Hq & Hl). destruct line as [|c line].
  - injection H as <-. done.
  - destruct ts' as [|t ts'].
    { cbn [tokenise_loop] in H. by apply bind_Ok in H as ([? ?] & _ & (? & _ & H)%bind_Ok). }
    rewrite Ht. split; [done|]. split; [|done]. intros _. exists q. split; [exact Hq|]. split.
    { intros ->. specialize (Hl 1%nat ltac:(simpl; lia)). done. }
    rewrite Hl by lia. run. by rewrite Ht.
Qed.

Lemma tokenise_join_roundtrip_witness :
  exists ts text, tokenise (str " a  ...#b  c.. ") = Ok ts /\
    tokens_join ts = Ok text /\ text = str " a ...#b c.. " /\ tokenise text = Ok ts.
Proof.
  eexists. destruct (tokenise_join_roundtrip (str " a  ...#b  c.. ") _ eq_refl) as (_ & K & _).
  destruct (K ltac:(discriminate)) as (text & H1 & _ & H2).
  exists text. split; [reflexivity|]. split; [exact H1|]. split; [|exact H2].
  vm_compute in H1. injection H1 as <-. reflexivity.
Defined.
