(* ===== verification/CppMacro.v ===== *)
(** * The macro table

    [src/src/cpp2/macro.c]: the array [macros] and its operations, and
    [src/src/cpp2/snapshot.c]: snapshots of the macros' use counts, by which
    expansion finds which macros it has used. A [macro *] is an index. *)

From S2P Require Import Prelude CStr.
Open Scope Z_scope.

Inductive mtype := MACRO | FUNC | VARIADIC.

#[global] Instance mtype_eq_dec : EqDecision mtype.
Proof. solve_decision. Defined.

(** Where the macro was defined is left out; it only shows in diagnostics.
    [val] is NULL for the built-in macros. *)
Record macro : Type := mk_macro {
  nam : cstr;
  val : option cstr;
  mty : mtype;
  args : option (list cstr);
  blue : Z;
  use_cnt : Z;
  use_dump : Z;
  include_depth : Z
}.

Abbreviation table := (list macro).

Definition DEFINED_STR : cstr := str "defined".
Definition HAS_INCLUDE_STR : cstr := str "__has_include".
Definition VA_ARGS_STR : cstr := str "__VA_ARGS__".

(** ** Operations *)

Fixpoint macro_find (macros : table) (sp : cstr) : option nat :=
  match macros with
  | [] => None
  | m :: ms => if streq (nam m) sp then Some O else S <$> macro_find ms sp
  end.

Definition set_def (m : macro) (v : option cstr) (ty : mtype) (a : option (list cstr)) (depth : Z) : macro :=
  {| nam := nam m; val := v; mty := ty; args := a; blue := blue m; use_cnt := use_cnt m;
     use_dump := use_dump m; include_depth := depth |}.

Definition new_macro (n : cstr) : macro :=
  {| nam := n; val := None; mty := MACRO; args := None; blue := 0; use_cnt := 0; use_dump := 0;
     include_depth := 0 |}.

(** The table and the macro. The redefinition warning is not modelled. *)
Definition macro_add_nodup (macros : table) (n : cstr) (v : option cstr) (depth : Z) : res (table * nat) :=
  if streq n DEFINED_STR then Die "defined can't be used as a macro name"
  else
    match macro_find macros n with
    | Some i =>
        match macros !! i with
        | None => Ub "dangling macro"
        | Some m =>
            match val m, v with
            | None, _ => Die "redefining"
            | Some _, None => Ub "strcmp of NULL"
            | Some _, Some _ => Ok (<[i := set_def m v MACRO (args m) depth]> macros, i)
            end
        end
    | None => Ok (macros ++ [set_def (new_macro n) v MACRO None depth], length macros)
    end.

Definition macro_add (macros : table) (n : cstr) (v : option cstr) (depth : Z) : res (table * nat) :=
  macro_add_nodup macros n v depth.

Definition macro_add_func (macros : table) (n : cstr) (v : option cstr) (a : option (list cstr))
    (variadic : bool) (depth : Z) : res (table * nat) :=
  '(macros, i) ← macro_add macros n v depth;
  match macros !! i with
  | None => Ub "dangling macro"
  | Some m => Ok (<[i := set_def m (val m) (if variadic then VARIADIC else FUNC) a (include_depth m)]> macros, i)
  end.

(** [text] is what the format comes to. *)
Definition macro_add_sprintf (macros : table) (n : cstr) (text : cstr) : res (table * nat) :=
  macro_add_nodup macros n (Some text) 0.

Definition macro_remove (macros : table) (n : cstr) : table * bool :=
  match macro_find macros n with
  | Some i => (take i macros ++ drop (S i) macros, true)
  | None => (macros, false)
  end.

Definition adjust (m : macro) (adj : Z) : macro :=
  {| nam := nam m; val := val m; mty := mty m; args := args m; blue := blue m;
     use_cnt := use_cnt m + adj; use_dump := use_dump m + adj; include_depth := include_depth m |}.

Definition macro_use (macros : table) (i : nat) (adj : Z) : table := alter (fun m => adjust m adj) i macros.

Definition paint (m : macro) (adj : Z) : macro :=
  {| nam := nam m; val := val m; mty := mty m; args := args m; blue := blue m + adj;
     use_cnt := use_cnt m; use_dump := use_dump m; include_depth := include_depth m |}.

(** [m->blue += adj] *)
Definition macro_paint (macros : table) (i : nat) (adj : Z) : table := alter (fun m => paint m adj) i macros.

(** ** Snapshots *)

Record snapshot : Type := mk_snapshot { pre : list Z; post : option (list Z); sn : nat }.

Definition snapshot_take_1 (macros : table) (n : nat) : res (list Z) :=
  if (n <=? length macros)%nat then Ok (map use_cnt (take n macros)) else Ub "read outside the table".

Definition snapshot_take (macros : table) : res snapshot :=
  p ← snapshot_take_1 macros (length macros);
  Ok {| pre := p; post := None; sn := length macros |}.

Definition set_use (m : macro) (c : Z) : macro :=
  {| nam := nam m; val := val m; mty := mty m; args := args m; blue := blue m;
     use_cnt := c; use_dump := use_dump m; include_depth := include_depth m |}.

Fixpoint restore_loop (macros : table) (cnts : list Z) : res table :=
  match cnts, macros with
  | [], _ => Ok macros
  | c :: cnts, m :: ms => r ← restore_loop ms cnts; Ok (set_use m c :: r)
  | _ :: _, [] => Ub "write outside the table"
  end.

Definition snapshot_restore_used (macros : table) (s : snapshot) : res table :=
  restore_loop macros (pre s).

Definition snapshot_take_post (macros : table) (s : snapshot) : res snapshot :=
  p ← snapshot_take_1 macros (sn s);
  Ok {| pre := pre s; post := Some p; sn := sn s |}.

Fixpoint alter_loop (macros : table) (pr po : list Z) (change : Z) {struct pr} : res table :=
  match pr, po, macros with
  | [], _, _ => Ok macros
  | a :: pr, b :: po, m :: ms =>
      r ← alter_loop ms pr po change;
      Ok ((if negb (b =? a) then paint m change else m) :: r)
  | _, _, _ => Ub "outside the table"
  end.

Definition snapshot_alter_blue (macros : table) (s : snapshot) (change : Z) : res table :=
  match post s with
  | None => Ub "no post snapshot"
  | Some po => alter_loop macros (pre s) po change
  end.

Definition snapshot_blue_used (macros : table) (s : snapshot) : res table := snapshot_alter_blue macros s 1.
Definition snapshot_unblue_used (macros : table) (s : snapshot) : res table := snapshot_alter_blue macros s (-1).

(** ** Reports *)

Fixpoint dump_args (a : list cstr) : cstr :=
  match a with
  | [] => []
  | [x] => x
  | x :: a => x ++ str ", " ++ dump_args a
  end.

(** The line printed for a macro that is not built in. *)
Definition macro_dump (m : macro) : cstr :=
  match val m with
  | None => []
  | Some v =>
      str "#define " ++ nam m ++
      (match mty m with
       | MACRO => []
       | _ => str "(" ++ dump_args (default [] (args m))
              ++ (match mty m with VARIADIC => str ", ..." | _ => [] end) ++ str ")"
       end) ++ str " " ++ v ++ [newline]
  end.

Definition macros_dump (macros : table) : cstr := concat (map macro_dump macros).

(** The macros reported as unused. *)
Definition macros_warn_unused (macros : table) : list cstr :=
  map nam (filter (fun m => (use_dump m =? 0) && negb (cur (nam m) =c "_"%char) && (include_depth m =? 0) = true) macros).

(** ** The table as a finite map *)

Definition def : Type := option cstr * mtype * option (list cstr).

Definition def_of (m : macro) : def := (val m, mty m, args m).

Definition table_ok (macros : table) : Prop := NoDup (map nam macros).

(** The definition in force for a name. *)
Definition defs (macros : table) : gmap cstr def := list_to_map (map (fun m => (nam m, def_of m)) macros).

Inductive directive :=
  | Define (n v : cstr)
  | DefineFunc (n v : cstr) (a : option (list cstr)) (variadic : bool)
  | Undef (n : cstr).

Definition apply_directive (depth : Z) (d : directive) (macros : table) : res table :=
  match d with
  | Define n v => '(t, _) ← macro_add macros n (Some v) depth; Ok t
  | DefineFunc n v a variadic => '(t, _) ← macro_add_func macros n (Some v) a variadic depth; Ok t
  | Undef n => Ok (fst (macro_remove macros n))
  end.

(** What the directive does to the map: a parameter list outlives a later
    object-like definition, unused. *)
Definition spec_directive (d : directive) (m : gmap cstr def) : option (gmap cstr def) :=
  let redefinable n := negb (streq n DEFINED_STR) && match m !! n with Some (None, _, _) => false | _ => true end in
  match d with
  | Define n v =>
      if redefinable n then Some (<[n := (Some v, MACRO, match m !! n with Some (_, _, a) => a | None => None end)]> m)
      else None
  | DefineFunc n v a variadic =>
      if redefinable n then Some (<[n := (Some v, if variadic then VARIADIC else FUNC, a)]> m) else None
  | Undef n => Some (delete n m)
  end.

(** ** Lemmas *)

Lemma streq_eq (a b : cstr) : streq a b = true <-> a = b.
Proof. apply bool_decide_eq_true. Qed.

Lemma macro_find_Some (macros : table) (n : cstr) (i : nat) :
  macro_find macros n = Some i -> exists m, macros !! i = Some m /\ nam m = n.
Proof.
  revert i. induction macros as [|m ms IH]; intros i; [done|]. simpl.
  destruct (streq (nam m) n) eqn:E.
  - intros [= <-]. exists m. split; [done|]. by apply streq_eq.
  - destruct (macro_find ms n) as [j|]; [|done]. intros [= <-]. by apply IH.
Qed.

Lemma macro_find_None (macros : table) (n : cstr) : macro_find macros n = None <-> n ∉ map nam macros.
Proof.
  induction macros as [|m ms IH]; simpl; [split; [set_solver|done]|].
  destruct (streq (nam m) n) eqn:E.
  - apply streq_eq in E. split; [done|]. set_solver.
  - destruct (macro_find ms n); simpl; (split; [intros H | intros H]); try done.
    + exfalso. assert (n ∉ map nam ms) as K by set_solver. by apply IH in K.
    + rewrite elem_of_cons. intros [->|H2]; [unfold streq in E; by rewrite bool_decide_true in E|by apply IH].
Qed.

Lemma nam_set_def (m : macro) v ty a d : nam (set_def m v ty a d) = nam m.
Proof. done. Qed.

Lemma table_ok_replace (macros : table) (i : nat) (m m' : macro) :
  table_ok macros -> macros !! i = Some m -> nam m' = nam m -> table_ok (<[i:=m']> macros).
Proof.
  unfold table_ok. intros H Hi Hn.
  replace (map nam (<[i:=m']> macros)) with (map nam macros); [done|].
  apply list_eq. intros j. rewrite !list_lookup_fmap.
  destruct (decide (i = j)) as [<-|].
  - rewrite list_lookup_insert_eq by (by eapply lookup_lt_Some). rewrite Hi. simpl. by rewrite Hn.
  - by rewrite list_lookup_insert_ne.
Qed.

Lemma defs_lookup (macros : table) (n : cstr) (d : def) :
  table_ok macros -> defs macros !! n = Some d <-> exists i m, macros !! i = Some m /\ nam m = n /\ def_of m = d.
Proof.
  intros H. unfold defs.
  assert (NoDup (map fst (map (fun m => (nam m, def_of m)) macros))) as N
    by (rewrite map_map; exact H).
  rewrite <- elem_of_list_to_map by done. rewrite list_elem_of_lookup. split.
  - intros (i & Hi). rewrite list_lookup_fmap in Hi. destruct (macros !! i) as [m|] eqn:E; [|done].
    injection Hi as <- <-. by exists i, m.
  - intros (i & m & Hi & <- & <-). exists i. by rewrite list_lookup_fmap, Hi.
Qed.

Lemma table_ok_inj (macros : table) (i j : nat) (m m' : macro) :
  table_ok macros -> macros !! i = Some m -> macros !! j = Some m' -> nam m = nam m' -> i = j.
Proof.
  intros H Hi Hj E. eapply (NoDup_lookup (map nam macros)); [done| |]; rewrite list_lookup_fmap.
  - by rewrite Hi.
  - rewrite Hj. simpl. by rewrite E.
Qed.

Lemma defs_find (macros : table) (n : cstr) :
  table_ok macros ->
  defs macros !! n = match macro_find macros n with Some i => def_of <$> macros !! i | None => None end.
Proof.
  intros H. destruct (macro_find macros n) as [i|] eqn:E.
  - apply macro_find_Some in E as (m & Hm & Hn). rewrite Hm. simpl. apply defs_lookup; [done|]. by exists i, m.
  - apply macro_find_None in E. destruct (defs macros !! n) as [d|] eqn:D; [|done]. exfalso. apply E.
    apply defs_lookup in D as (i & m & Hm & <- & _); [|done]. apply list_elem_of_lookup. exists i.
    by rewrite list_lookup_fmap, Hm.
Qed.

Lemma defs_replace (macros : table) (i : nat) (m m' : macro) :
  table_ok macros -> macros !! i = Some m -> nam m' = nam m ->
  defs (<[i:=m']> macros) = <[nam m := def_of m']> (defs macros).
Proof.
  intros H Hi Hn. pose proof (table_ok_replace macros i m m' H Hi Hn) as H'.
  assert (i < length macros)%nat as Hl by (by eapply lookup_lt_Some).
  apply map_eq. intros n. apply option_eq. intros d. rewrite defs_lookup by done.
  rewrite lookup_insert_Some, defs_lookup by done. split.
  - intros (j & x & Hj & <- & <-). destruct (decide (i = j)) as [<-|Hij].
    + rewrite list_lookup_insert_eq in Hj by done. injection Hj as <-. by left.
    + rewrite list_lookup_insert_ne in Hj by done. right. split; [|by exists j, x].
      intros E. apply Hij. exact (table_ok_inj macros i j m x H Hi Hj E).
  - intros [(<- & <-)|(Hne & j & x & Hj & <- & <-)].
    + exists i, m'. split; [by apply list_lookup_insert_eq|]. by split.
    + exists j, x. split; [|done]. rewrite list_lookup_insert_ne; [done|]. intros ->. by simplify_eq.
Qed.

Lemma defs_append (macros : table) (m : macro) :
  table_ok macros -> nam m ∉ map nam macros ->
  table_ok (macros ++ [m]) /\ defs (macros ++ [m]) = <[nam m := def_of m]> (defs macros).
Proof.
  intros H Hn. split.
  - unfold table_ok. rewrite map_app. apply NoDup_app. split; [done|]. split; [|apply NoDup_singleton].
    intros x Hx [->|Hf]%elem_of_cons; [done|]. by apply elem_of_nil in Hf.
  - unfold defs. rewrite map_app, list_to_map_app. simpl.
    rewrite <- insert_union_r, (right_id_L ∅ (∪)); [done|].
    apply not_elem_of_list_to_map. by rewrite map_map.
Qed.

Lemma defs_remove (macros : table) (i : nat) (m : macro) :
  table_ok macros -> macros !! i = Some m ->
  table_ok (take i macros ++ drop (S i) macros) /\
  defs (take i macros ++ drop (S i) macros) = delete (nam m) (defs macros).
Proof.
  intros H Hi. pose proof (take_drop_middle macros i m Hi) as E.
  assert (table_ok (take i macros ++ drop (S i) macros)) as H'.
  { unfold table_ok in *. rewrite <- E in H. rewrite map_app in *. simpl in H.
    apply NoDup_app in H as (H1 & H2 & H3). apply NoDup_cons in H3 as (_ & H3).
    apply NoDup_app. split; [done|]. split; [|done]. intros x Hx Hx'. eapply H2; [done|by right]. }
  split; [done|]. apply map_eq. intros n. apply option_eq. intros d.
  rewrite defs_lookup, lookup_delete_Some, defs_lookup by done.
  assert (forall x, (exists j, (take i macros ++ drop (S i) macros) !! j = Some x) <-> x ∈ take i macros ++ drop (S i) macros) as EL
    by (intros; by rewrite list_elem_of_lookup).
  split.
  - intros (j & x & Hj & <- & <-). assert (x ∈ take i macros ++ drop (S i) macros) as Hx by (apply EL; eauto).
    split.
    + unfold table_ok in H. rewrite <- E, map_app in H. simpl in H.
      apply NoDup_app in H as (H1 & H2 & H3). apply NoDup_cons in H3 as (H3 & _).
      intros En. apply elem_of_app in Hx as [Hx|Hx].
      * eapply (H2 (nam x)); [by apply list_elem_of_fmap_2|]. rewrite <- En. left.
      * apply H3. rewrite En. by apply list_elem_of_fmap_2.
    + assert (x ∈ macros) as Hm by (rewrite <- E; set_solver).
      apply list_elem_of_lookup in Hm as (j' & Hj'). by exists j', x.
  - intros (Hne & j & x & Hj & <- & <-).
    assert (x ∈ take i macros ++ drop (S i) macros) as Hx.
    { assert (x ∈ macros) as Hm by (by eapply list_elem_of_lookup_2). rewrite <- E in Hm.
      rewrite elem_of_app, elem_of_cons in Hm. destruct Hm as [Hm|[-> |Hm]]; set_solver. }
    apply EL in Hx as (j' & Hj'). by exists j', x.
Qed.

(** ** Properties *)

(** C33: the macro table is a finite map from names to definitions. On a table of
    distinct names [#define], object-like or function-like, and [#undef] keep
    the names distinct and act on the map exactly as insertion and deletion;
    the only definitions refused, with a diagnostic, are those of [defined] and
    of a built-in macro. *)
Theorem macro_table_map (macros : table) (d : directive) (depth : Z) :
  table_ok macros ->
  match spec_directive d (defs macros) with
  | Some m => exists t, apply_directive depth d macros = Ok t /\ table_ok t /\ defs t = m
  | None => exists why, apply_directive depth d macros = Die why
  end.
Proof.
  intros H.
  assert (forall n v, 
    let r := negb (streq n DEFINED_STR) && match defs macros !! n with Some (None, _, _) => false | _ => true end in
    if r then exists t i m, macro_add macros n (Some v) depth = Ok (t, i) /\ table_ok t /\ t !! i = Some m /\ nam m = n /\
      val m = Some v /\
      defs t = <[n := (Some v, MACRO, match defs macros !! n with Some (_, _, a) => a | None => None end)]> (defs macros)
    else exists why, macro_add macros n (Some v) depth = Die why) as Add.
  { intros n v. unfold macro_add, macro_add_nodup. cbv zeta. destruct (streq n DEFINED_STR); simpl; [by eexists|].
    rewrite defs_find by done. destruct (macro_find macros n) as [i|] eqn:F; simpl.
    - apply macro_find_Some in F as (m & Hm & <-). rewrite Hm. simpl. change (def_of m) with (val m, mty m, args m).
      destruct (val m) as [v0|] eqn:Ev; [|by eexists].
      eexists _, i, _. split; [done|]. split; [by eapply table_ok_replace|].
      split; [apply list_lookup_insert_eq; by eapply lookup_lt_Some|].
      split; [done|]. split; [done|]. by erewrite defs_replace by done.
    - apply macro_find_None in F. eexists _, _, _. split; [done|].
      destruct (defs_append macros (set_def (new_macro n) (Some v) MACRO None depth) H F) as (T & D).
      split; [done|]. split; [by apply list_lookup_middle|]. done. }
  destruct d as [n v|n v a variadic|n]; cbn [spec_directive apply_directive]; cbv zeta.
  - specialize (Add n v). cbv zeta in Add. destruct (_ && _).
    + destruct Add as (t & i & m & -> & T & _ & _ & _ & D). run. by exists t.
    + destruct Add as (why & ->). by eexists.
  - specialize (Add n v). cbv zeta in Add. unfold macro_add_func. destruct (_ && _).
    + destruct Add as (t & i & m & -> & T & Hi & Hn & Hv & D). run. rewrite Hi. run.
      eexists. split; [done|]. split; [by eapply table_ok_replace|].
      erewrite defs_replace by done. rewrite D, Hn. unfold def_of, set_def. cbn [val mty args].
      by rewrite Hv, insert_insert_eq.
    + destruct Add as (why & ->). by eexists.
  - unfold macro_remove. destruct (macro_find macros n) as [i|] eqn:F; simpl; eexists; (split; [done|]).
    + apply macro_find_Some in F as (m & Hm & <-). by apply defs_remove.
    + split; [done|]. symmetry. apply delete_id. rewrite defs_find by done. by rewrite F.
Qed.

Lemma macro_table_map_witness :
  exists t, apply_directive 0 (DefineFunc (str "F") (str "x+1") (Some [str "x"]) false) [] = Ok t /\
    defs t !! str "F" = Some (Some (str "x+1"), FUNC, Some [str "x"]).
Proof.
  pose proof (macro_table_map [] (DefineFunc (str "F") (str "x+1") (Some [str "x"]) false) 0) as P.
  destruct P as (t & H & _ & D); [constructor|]. exists t. split; [exact H|]. rewrite D. reflexivity.
Defined.

Lemma alter_loop_paint (macros : table) (pr po : list Z) (c : Z) (t : table) :
  alter_loop macros pr po c = Ok t ->
  length t = length macros /\
  forall i, t !! i = match macros !! i, pr !! i, po !! i with
    | Some m, Some a, Some b => Some (if negb (b =? a) then paint m c else m)
    | Some m, _, _ => Some m
    | None, _, _ => None end.
Proof.
  revert po macros t. induction pr as [|a pr IH]; intros po macros t.
  - intros [= <-]. split; [done|]. intros i. by destruct (macros !! i).
  - destruct po as [|b po]; [by destruct macros|]. destruct macros as [|m ms]; [done|]. cbn [alter_loop].
    intros (r & H & [= <-])%bind_Ok. destruct (IH _ _ _ H) as (L & E). split; [simpl; lia|].
    intros [|i]; [done|]. apply E.
Qed.
