(* ===== verification/CppHas.v ===== *)
(** * Feature tests and include search

    [src/src/cpp2/has.c]: [__has_feature] and its relatives;
    [src/src/cpp2/include.c]: where [#include] looks for a file;
    [src/src/util/std.c]: the names of the C standards. The file system is a
    parameter: what [fopen] for reading makes of a path. *)

From S2P Require Import Prelude.

(** ** util/std.c *)

Inductive c_std := STD_C89 | STD_C90 | STD_C99 | STD_C11 | STD_C18 | STD_C2X.

Definition std_rank (s : c_std) : nat :=
  match s with STD_C89 => 0 | STD_C90 => 1 | STD_C99 => 2 | STD_C11 => 3 | STD_C18 => 4 | STD_C2X => 5 end.

Definition std_digits (s : cstr) : option c_std :=
  if streq s (str "99") then Some STD_C99
  else if streq s (str "90") then Some STD_C90
  else if streq s (str "89") then Some STD_C89
  else if streq s (str "11") then Some STD_C11
  else if streq s (str "17") || streq s (str "18") then Some STD_C18
  else if streq s (str "2x") then Some STD_C2X
  else None.

(** The standard and whether GNU extensions were asked for; [None] for a
    result other than 0. *)
Definition std_from_str (s : cstr) : option (c_std * bool) :=
  if streq s (str "-ansi") then Some (STD_C90, false)
  else if negb (has_prefix s (str "-std=")) then None
  else
    let s := drop 5 s in
    if has_prefix s (str "gnu") then (fun std => (std, true)) <$> std_digits (drop 3 s)
    else if cur s =c "c"%char then (fun std => (std, false)) <$> std_digits (drop 1 s)
    else None.

(** ** cpp2/has.c *)

Definition UCC_HAS_ATOMICS : bool := false.
Definition UCC_HAS_THREADS : bool := false.
Definition UCC_HAS_COMPLEX : bool := false.
Definition UCC_HAS_VLA : bool := true.

Definition c_tbl : list (c_std * string * bool) :=
  [ (STD_C11, "c_alignas", true); (STD_C11, "c_alignof", true); (STD_C11, "c_generic_selections", true);
    (STD_C11, "c_static_assert", true); (STD_C11, "c_atomic", UCC_HAS_ATOMICS);
    (STD_C11, "c_thread_local", UCC_HAS_THREADS); (STD_C11, "c_complex", UCC_HAS_COMPLEX);
    (STD_C99, "c_vla", UCC_HAS_VLA); (STD_C89, "address_sanitizer", false);
    (STD_C89, "enumerator_attributes", true); (STD_C89, "blocks", true) ]%string.

Fixpoint feat_loop (tbl : list (c_std * string * bool)) (cpp_std : c_std) (n : cstr) (as_ext : bool) : bool :=
  match tbl with
  | [] => false
  | (std, nam, has) :: tbl =>
      if streq (str nam) n then
        if as_ext then has else (std_rank std <=? std_rank cpp_std) && has
      else feat_loop tbl cpp_std n as_ext
  end.

Definition has_feat_ext (cpp_std : c_std) (n : cstr) (as_ext : bool) : bool := feat_loop c_tbl cpp_std n as_ext.

Definition has_extension (cpp_std : c_std) (n : cstr) : bool := has_feat_ext cpp_std n true.
Definition has_feature (cpp_std : c_std) (n : cstr) : bool := has_feat_ext cpp_std n false.

(** The spellings of [ATTRIBUTES]. *)
Definition attributes : list string :=
  [ "format"; "unused"; "used"; "warn_unused"; "section"; "enum_bitmask"; "flag_enum"; "noreturn";
    "noderef"; "nonnull"; "returns_nonnull"; "packed"; "sentinel"; "aligned"; "weak"; "alias"; "cleanup";
    "always_inline"; "noinline"; "flatten"; "constructor"; "destructor"; "visibility"; "stack_protect";
    "no_stack_protector"; "no_sanitize"; "fallthrough"; "designated_init"; "__ucc_debug"; "__cdecl";
    "warn_unused_result"; "cdecl"; "stdcall"; "fastcall"; "no_sanitize_undefined" ]%string.

Definition has_attribute (n : cstr) : bool :=
  existsb (fun a => streq n (str a) || streq (str "__" ++ str a ++ str "__") n) attributes.

Definition builtins : list string :=
  [ "offsetof"; "unreachable"; "trap"; "debugtrap"; "types_compatible_p"; "constant_p"; "frame_address";
    "return_address"; "extract_return_addr"; "expect"; "is_signed"; "nan"; "nanf"; "nanl"; "choose_expr";
    "has_attribute"; "add_overflow"; "sub_overflow"; "mul_overflow"; "va_start"; "va_arg"; "va_end";
    "va_copy" ]%string.

Definition has_builtin (n : cstr) : bool := existsb (fun b => streq (str "__builtin_" ++ str b) n) builtins.

(** [None] is the result -1. *)
Definition has_func (cpp_std : c_std) (fn arg1 : cstr) : option bool :=
  let fn := if has_prefix fn (str "__has_") then drop 6 fn else fn in
  if streq (str "feature") fn then Some (has_feature cpp_std arg1)
  else if streq (str "extension") fn then Some (has_extension cpp_std arg1)
  else if streq (str "attribute") fn then Some (has_attribute arg1)
  else if streq (str "builtin") fn then Some (has_builtin arg1)
  else None.

Example has_ex : has_func STD_C99 (str "__has_feature") (str "c_alignas") = Some false.
Proof. reflexivity. Qed.
Example has_ex2 : has_func STD_C99 (str "__has_attribute") (str "__packed__") = Some true.
Proof. reflexivity. Qed.

(** ** cpp2/include.c *)

(** [fopen(path, "r")]: a stream, [ENOENT], or another error. *)
Inductive opened := Opened | Missing | Failed.

#[global] Instance opened_eq_dec : EqDecision opened.
Proof. solve_decision. Defined.

(** The directories of [-I] and [-isystem]. *)
Record include_path : Type := mk_include_path { include_dirs : list cstr; include_dirs_sys : list cstr }.

Definition include_add_dir (ip : include_path) (d : cstr) (sysh : bool) : include_path :=
  if sysh then {| include_dirs := include_dirs ip; include_dirs_sys := include_dirs_sys ip ++ [d] |}
  else {| include_dirs := include_dirs ip ++ [d]; include_dirs_sys := include_dirs_sys ip |}.

(** What follows the last slash. *)
Fixpoint after_slash (s acc : cstr) : cstr :=
  match s with
  | [] => acc
  | c :: s => if c =c "/"%char then after_slash s s else after_slash s acc
  end.

Section Search.
  Variable fs : cstr -> opened.

Definition wrapped_fopen (fnam : cstr) : res bool :=
  match after_slash fnam fnam with
  | [] => Die "empty filename"
  | _ =>
      match fs fnam with
      | Opened => Ok true
      | Missing => Ok false
      | Failed => Die "open"
      end
  end.

Definition path_in (dir fname : cstr) : cstr := dir ++ str "/" ++ fname.

Fixpoint include_search (fname : cstr) (dirs : list cstr) : res (option cstr) :=
  match dirs with
  | [] => Ok None
  | d :: dirs =>
      let path := path_in d fname in
      f ← wrapped_fopen path;
      if (f : bool) then Ok (Some path) else include_search fname dirs
  end.

(** Whether a stream is returned, [*final_path], and [*is_sysh]. *)
Definition include_fopen (ip : include_path) (curdir fname : cstr) (is_angle : bool)
  : res (bool * option cstr * bool) :=
  if cur fname =c "/"%char then
    f ← wrapped_fopen fname; Ok (f, Some fname, false)
  else
    local ← (if is_angle then Ok false else wrapped_fopen (path_in curdir fname));
    if (local : bool) then Ok (true, Some (path_in curdir fname), false)
    else
      f ← include_search fname (include_dirs ip);
      match f with
      | Some path => Ok (true, Some path, false)
      | None =>
          f ← include_search fname (include_dirs_sys ip);
          Ok (match f with Some _ => true | None => false end, f, true)
      end.

(** ** The search order *)

(** The paths tried for a relative name, in order, and whether each is a system
    header's. *)
Definition candidates (ip : include_path) (curdir fname : cstr) (is_angle : bool) : list (cstr * bool) :=
  (if is_angle then [] else [(path_in curdir fname, false)])
  ++ map (fun d => (path_in d fname, false)) (include_dirs ip)
  ++ map (fun d => (path_in d fname, true)) (include_dirs_sys ip).

(** The first candidate that is there. *)
Fixpoint first_there (cs : list (cstr * bool)) : option (cstr * bool) :=
  match cs with
  | [] => None
  | (p, sysh) :: cs => if bool_decide (fs p = Opened) then Some (p, sysh) else first_there cs
  end.

Lemma after_slash_path (dir fname acc : cstr) :
  after_slash (path_in dir fname) acc = after_slash fname fname.
Proof.
  unfold path_in. revert acc. induction dir as [|c d IH]; intros acc; simpl; [done|].
  destruct (c =c "/"%char); apply IH.
Qed.

Lemma wrapped_there (p : cstr) :
  after_slash p p <> [] -> fs p <> Failed ->
  wrapped_fopen p = Ok (bool_decide (fs p = Opened)).
Proof.
  intros Hp Hf. unfold wrapped_fopen. destruct (after_slash p p); [done|]. by destruct (fs p).
Qed.

Lemma search_there (fname : cstr) (dirs : list cstr) (sysh : bool) :
  after_slash fname fname <> [] -> (forall d, d ∈ dirs -> fs (path_in d fname) <> Failed) ->
  include_search fname dirs = Ok (fst <$> first_there (map (fun d => (path_in d fname, sysh)) dirs)).
Proof.
  intros Hs. induction dirs as [|d dirs IH]; intros Hd; [done|]. cbn [include_search map first_there].
  rewrite wrapped_there; [|by rewrite after_slash_path|apply Hd; left]. run.
  case_bool_decide; [done|]. apply IH. intros d' Hd'. apply Hd. by right.
Qed.

Lemma first_there_app (a b : list (cstr * bool)) :
  first_there (a ++ b) = match first_there a with Some r => Some r | None => first_there b end.
Proof. induction a as [|[p s] a IH]; [done|]. simpl. by destruct (bool_decide _). Qed.

Lemma first_there_sysh (dirs : list cstr) (fname : cstr) (sysh : bool) (p : cstr) (s : bool) :
  first_there (map (fun d => (path_in d fname, sysh)) dirs) = Some (p, s) -> s = sysh.
Proof.
  induction dirs as [|d dirs IH]; [done|]. simpl. case_bool_decide; [by intros [= _ <-]|done].
Qed.

(** [#include] of a relative name opens the first file that is there: for a
    quoted name the current directory, then the [-I] directories in the order
    given, then the [-isystem] ones, and only a file found in the last is a
    system header. *)
Theorem include_first_found (ip : include_path) (curdir fname : cstr) (is_angle : bool) :
  (cur fname =c "/"%char) = false -> after_slash fname fname <> [] ->
  (forall p s, (p, s) ∈ candidates ip curdir fname is_angle -> fs p <> Failed) ->
  include_fopen ip curdir fname is_angle =
    match first_there (candidates ip curdir fname is_angle) with
    | Some (p, sysh) => Ok (true, Some p, sysh)
    | None => Ok (false, None, true)
    end.
Proof.
  intros Hs Hf Hc. unfold include_fopen.
  rewrite Hs.
  assert (forall d, d ∈ include_dirs ip -> fs (path_in d fname) <> Failed) as H1.
  { intros d Hd. apply (Hc _ false). unfold candidates. rewrite !elem_of_app. right; left.
    apply list_elem_of_fmap. by exists d. }
  assert (forall d, d ∈ include_dirs_sys ip -> fs (path_in d fname) <> Failed) as H2.
  { intros d Hd. apply (Hc _ true). unfold candidates. rewrite !elem_of_app. right; right.
    apply list_elem_of_fmap. by exists d. }
  assert ((if is_angle then Ok false else wrapped_fopen (path_in curdir fname))
    = Ok (negb is_angle && bool_decide (fs (path_in curdir fname) = Opened))) as ->.
  { destruct is_angle; [done|]. apply wrapped_there; [by rewrite after_slash_path|].
    apply (Hc _ false). unfold candidates. left. }
  run. rewrite (search_there fname (include_dirs ip) false), (search_there fname (include_dirs_sys ip) true) by done. run.
  unfold candidates. rewrite !first_there_app.
  assert (first_there (if is_angle then [] else [(path_in curdir fname, false)])
    = if negb is_angle && bool_decide (fs (path_in curdir fname) = Opened) then Some (path_in curdir fname, false) else None)
    as -> by (by destruct is_angle).
  destruct (negb is_angle && _); [done|].
  destruct (first_there (map _ (include_dirs ip))) as [[p s]|] eqn:E1; simpl.
  - by apply first_there_sysh in E1 as ->.
  - destruct (first_there (map _ (include_dirs_sys ip))) as [[p s]|] eqn:E2; [|done].
    by apply first_there_sysh in E2 as ->.
Qed.
End Search.

Lemma include_first_found_witness :
  let fs p := if streq p (str "inc2/a.h") then Opened else Missing in
  include_fopen fs {| include_dirs := [str "inc1"; str "inc2"]; include_dirs_sys := [str "sys"] |} (str ".") (str "a.h") false
  = Ok (true, Some (str "inc2/a.h"), false).
Proof.
  intros fs. rewrite include_first_found; [reflexivity | reflexivity | done |].
  intros p s _. unfold fs. by destruct (streq p _).
Defined.
