(* ===== verification/CppEval.v ===== *)
(** * Macro expansion

    [src/src/cpp2/eval.c] with [include_parse] of [src/src/cpp2/directive.c]:
    finding macro names in a line, splitting and substituting arguments,
    stringising and pasting, re-expansion with the used macros painted blue,
    and the [defined] and [__has_include] of controlling expressions.

    A line is a buffer, text and what lies behind its terminator, and a pointer
    into it is an offset. *)

From S2P Require Import Prelude CStr CppTok CppMacro CppHas.
Open Scope Z_scope.

(** The globals expansion changes: the macro table and the counter behind
    [__COUNTER__]. *)
Record estate : Type := mk_estate { macros : table; counter : Z }.

Definition with_macros (st : estate) (t : table) : estate := {| macros := t; counter := counter st |}.

(** The globals it reads, and the file system. *)
Record env : Type := mk_env {
  current_fname : cstr;
  current_line : Z;
  cpp_date : cstr;
  cpp_time : cstr;
  cpp_timestamp : cstr;
  cpp_basefile : cstr;
  cpp_std : c_std;
  curdir : cstr;
  inc_path : include_path;
  files : cstr -> opened
}.

Definition decimal (n : Z) : cstr :=
  let fix digits fuel n :=
    match fuel with
    | O => []
    | S fuel => (if n <? 10 then [] else digits fuel (n / 10)) ++ [chr (48 + n mod 10)]
    end in
  if n <? 0 then str "-" ++ digits 20%nat (- n) else digits 20%nat n.

(** ** Lines as buffers *)

(** An edit leaves a scan position where it was, perhaps past the new end of
    the text, and the scan then goes on in what earlier edits left there. So a
    line is its allocation: the text, the terminator and the bytes written
    behind it before. *)
Abbreviation buf := (list ascii).

Fixpoint c_str (b : buf) : option cstr :=
  match b with
  | [] => None
  | c :: b => if c =c NUL then Some [] else cons c <$> c_str b
  end.

(** The C string at an offset. *)
Definition c_str_at (b : buf) (i : nat) : res cstr :=
  match c_str (drop i b) with
  | Some s => Ok s
  | None => Ub "read outside what was written"
  end.

(** [str_replace] on allocations: in place when the text shrinks, else into a
    new one. *)
Definition buf_replace (b : buf) (start end_ : nat) (replace : cstr) : res buf :=
  tail ← c_str_at b end_;
  let len_replace := length replace in
  if (len_replace <? end_ - start)%nat then
    let copied := take start b ++ replace ++ drop (start + len_replace) b in
    Ok (take (start + len_replace) copied ++ (tail ++ [NUL])
        ++ drop (start + len_replace + (length tail + 1)) copied)
  else
    match c_str (take start b ++ [NUL]) with
    | Some head => Ok (head ++ replace ++ tail ++ [NUL])
    | None => Ub "no terminator"
    end.

(** ** Arguments *)

(** Positions are those of the token array, which has no tokens if it is NULL;
    [args] is empty for NULL. *)
Fixpoint split_loop (tokens rest : list token) (ti anchor : nat) (nest : Z) (args : list cstr)
  : res (list cstr * nat) :=
  match rest with
  | [] => Ok (args, anchor)
  | t :: rest =>
      match tok t with
      | TOKEN_COMMA =>
          if nest =? 0 then
            arg ← tokens_join_n (Some (drop anchor tokens)) (Z.of_nat (ti - anchor));
            split_loop tokens rest (ti + 1) (ti + 1) nest (args ++ [arg])
          else split_loop tokens rest (ti + 1) anchor nest args
      | TOKEN_OPEN_PAREN => split_loop tokens rest (ti + 1) anchor (u32 (nest + 1)) args
      | TOKEN_CLOSE_PAREN => split_loop tokens rest (ti + 1) anchor (u32 (nest - 1)) args
      | _ => split_loop tokens rest (ti + 1) anchor nest args
      end
  end.

Definition last_comma (tokens : list token) : bool :=
  match last tokens with Some t => bool_decide (tok t = TOKEN_COMMA) | None => false end.

Definition split_func_args (args_str : cstr) : res (list cstr) :=
  tokens ← tokenise args_str;
  let tokens := default [] tokens in
  '(args, anchor) ← split_loop tokens tokens 0 0 0 [];
  let ti := length tokens in
  if negb (anchor =? ti)%nat || last_comma tokens then
    arg ← tokens_join_n (Some (drop anchor tokens)) (Z.of_nat (ti - anchor));
    Ok (args ++ [arg])
  else Ok args.

Fixpoint param_index (ps : list cstr) (word : cstr) : option nat :=
  match ps with
  | [] => None
  | p :: ps => if streq p word then Some O else S <$> param_index ps word
  end.

(** The text for a word of the replacement list, and whether it is something
    other than the word itself. *)
Definition find_arg (m : macro) (word : cstr) (args : list cstr) : res (cstr * bool) :=
  if streq word VA_ARGS_STR then
    match args with
    | [] => Ok ([], true)
    | _ => Ok (str_join (drop (length (default [] (CppMacro.args m))) args) (str ", "), true)
    end
  else
    match param_index (default [] (CppMacro.args m)) word with
    | Some i => match args !! i with Some a => Ok (a, true) | None => Ub "NULL argument" end
    | None => Ok (word, false)
    end.

Definition noeval_hash (m : macro) (this : option token) (args : list cstr) (need_arg : bool) : res cstr :=
  match this with
  | None => Die "nothing to join or quote after '#'"
  | Some t =>
      match tok t, w t with
      | TOKEN_WORD, Some word =>
          '(word, found) ← find_arg m word args;
          if need_arg && negb found then Die "can't quote non-argument" else Ok word
      | TOKEN_WORD, None => Ub "NULL word"
      | _, _ => Die "can't join or quote a none-word"
      end
  end.

(** [APPEND(ws, fmt, text)] *)
Definition append_text (replace : cstr) (ws : bool) (text : cstr) : cstr :=
  replace ++ (match replace with [] => [] | _ => if ws then str " " else [] end) ++ text.

(** The [while] of pasting: the word and the tokens after it. *)
Fixpoint paste_loop (n : nat) (m : macro) (toks : list token) (args : list cstr) (word : cstr)
  : res (cstr * list token) :=
  match n with
  | O => NoFuel
  | S n =>
      match toks with
      | t :: rest =>
          if bool_decide (tok t = TOKEN_HASH_JOIN) then
            neh ← noeval_hash m (head rest) args false;
            paste_loop n m (tail rest) args (word ++ neh)
          else Ok (word, toks)
      | [] => Ok (word, [])
      end
  end.

Definition next_is_join (rest : list token) : bool :=
  match rest with t :: _ => bool_decide (tok t = TOKEN_HASH_JOIN) | [] => false end.

Section Expand.
Variable e : env.
(** [eval_expand_macros] with less fuel. *)
Variable expand : estate -> buf -> res (estate * buf).

(** Substituting the arguments into the replacement list. *)
Fixpoint subst_loop (n : nat) (m : macro) (toks : list token) (args : list cstr) (replace : cstr) (st : estate)
  : res (estate * cstr) :=
  match n with
  | O => NoFuel
  | S n =>
      match toks with
      | [] => Ok (st, replace)
      | this :: rest =>
          match tok this with
          | TOKEN_HASH_QUOTE =>
              word ← noeval_hash m (head rest) args true;
              subst_loop n m (tail rest) args (append_text replace (had_whitespace this) (str_quote word)) st
          | TOKEN_HASH_JOIN => Die "## with no prior argument"
          | TOKEN_WORD =>
              if next_is_join rest then
                word ← noeval_hash m (Some this) args false;
                '(word, rest) ← paste_loop (S (length rest)) m rest args word;
                subst_loop n m rest args (append_text replace (had_whitespace this) word) st
              else
                match w this with
                | None => Ub "NULL word"
                | Some w =>
                    '(word, found) ← find_arg m w args;
                    '(st, word) ←
                      (if (found : bool) then
                         snap ← snapshot_take (macros st);
                         '(st, b) ← expand st (word ++ [NUL]);
                         word ← c_str_at b 0;
                         t ← snapshot_restore_used (macros st) snap;
                         Ok (with_macros st t, word)
                       else Ok (st, word));
                    subst_loop n m rest args (append_text replace (had_whitespace this) word) st
                end
          | _ =>
              s ← token_str this;
              subst_loop n m rest args (append_text replace (had_whitespace this) s) st
          end
      end
  end.

Definition eval_func_macro (m : macro) (args_str : cstr) (st : estate) : res (estate * cstr) :=
  args ← split_func_args args_str;
  let got := length args in
  let exp := length (default [] (CppMacro.args m)) in
  match val m with
  | None =>
      match args with
      | [arg] =>
          match has_func (cpp_std e) (nam m) arg with
          | Some b => Ok (st, str (if b then "1" else "0"))
          | None => Die "unknown builtin macro"
          end
      | _ => Die "wrong number of arguments to builtin macro"
      end
  | Some v =>
      args ← (if (if bool_decide (mty m = VARIADIC) then (got <? exp)%nat else negb (got =? exp)%nat) then
                if ((got =? 0) && (exp =? 1))%nat then Ok [[]] else Die "wrong number of args to function macro"
              else Ok args);
      let args := map str_trim args in
      toks ← tokenise v;
      let toks := default [] toks in
      subst_loop (S (length toks)) m toks args [] st
  end.

(** The value of an object-like macro. *)
Definition object_value (m : macro) (st : estate) : res (estate * cstr) :=
  match val m with
  | Some v => Ok (st, v)
  | None =>
      if streq (nam m) (str "__FILE__") then Ok (st, str_quote (current_fname e))
      else if streq (nam m) (str "__LINE__") then Ok (st, decimal (current_line e))
      else if streq (nam m) (str "__COUNTER__") then
        Ok ({| macros := macros st; counter := counter st + 1 |}, decimal (counter st))
      else if streq (nam m) (str "__DATE__") then Ok (st, cpp_date e)
      else if streq (nam m) (str "__TIME__") then Ok (st, cpp_time e)
      else if streq (nam m) (str "__TIMESTAMP__") then Ok (st, cpp_timestamp e)
      else if streq (nam m) (str "__BASE_FILE__") then Ok (st, cpp_basefile e)
      else Ice "invalid macro"
  end.

(** The buffer, the state and the new [*pat]. *)
Definition eval_macro_r (i : nat) (m : macro) (start : buf) (pat : nat) (st : estate)
  : res (estate * buf * nat) :=
  if bool_decide (mty m = MACRO) then
    '(st, v) ← object_value m st;
    start ← buf_replace start pat (pat + length (nam m)) v;
    Ok (st, start, (pat + length v)%nat)
  else
    after ← c_str_at start (pat + length (nam m));
    let open_b := str_spc_skip after in
    if negb (cur open_b =c "("%char) then
      Ok (with_macros st (macro_use (macros st) i (-1)), start, pat)
    else
      match strchr_nest open_b ")"%char with
      | None => Die "unterminated function-macro"
      | Some close_b =>
          if streq (nam m) HAS_INCLUDE_STR then Ok (st, start, pat)
          else
            let all_args := take (length open_b - length close_b - 1) (drop 1 open_b) in
            '(st, eval_d) ← eval_func_macro m all_args st;
            let close_at := (pat + length (nam m) + (length after - length close_b))%nat in
            start ← buf_replace start pat (close_at + 1) eval_d;
            Ok (st, start, (pat + length eval_d)%nat)
      end.

Definition eval_macro_double_eval (i : nat) (m : macro) (start : buf) (pat : nat) (st : estate)
  : res (estate * buf * nat) :=
  snap ← snapshot_take (macros st);
  '(st, start, change) ← eval_macro_r i m start pat st;
  snap ← snapshot_take_post (macros st) snap;
  t ← snapshot_blue_used (macros st) snap;
  '(st, start) ← expand (with_macros st t) start;
  t ← snapshot_unblue_used (macros st) snap;
  Ok (with_macros st t, start, change).

Definition eval_macro (i : nat) (m : macro) (start : buf) (pat : nat) (st : estate)
  : res (estate * buf * nat) :=
  if negb (blue m =? 0) then Ok (st, start, (pat + length (nam m))%nat)
  else
    let st := with_macros st (macro_use (macros st) i 1) in
    let st := with_macros st (macro_paint (macros st) i 1) in
    match macros st !! i with
    | None => Ub "dangling macro"
    | Some m =>
        '(st, r, pat) ← eval_macro_double_eval i m start pat st;
        Ok (with_macros st (macro_paint (macros st) i (-1)), r, pat)
    end.
End Expand.

Section Eval.
Variable e : env.

(** The loop of [eval_expand_macros]: [line] is the offset in [anchor]. *)
Fixpoint expand_loop (fuel : nat) (st : estate) (anchor : buf) (line : nat) : res (estate * buf) :=
  match fuel with
  | O => NoFuel
  | S fuel =>
      s ← c_str_at anchor line;
      match s with
      | [] => Ok (st, anchor)
      | _ =>
          r ← word_find_any s;
          match r with
          | None => Ok (st, anchor)
          | Some word =>
              let line := (line + (length s - length word))%nat in
              let end_ := word_end word in
              let end_off := (line + (length word - length end_))%nat in
              if (cur end_ =c dquote) && (length word =? length end_ + 1)%nat && (cur word =c "L"%char) then
                expand_loop fuel st anchor (end_off + 1)
              else
                match macro_find (macros st) (word_dup word) with
                | Some i =>
                    match macros st !! i with
                    | None => Ub "dangling macro"
                    | Some m =>
                        '(st, anchor, line) ←
                          eval_macro e (fun st b => expand_loop fuel st b 0) i m anchor line st;
                        here ← c_str_at anchor line;
                        let c := cur here in
                        _ ← (if (c =c dquote) || (c =c squote) then
                               p ← str_quotefin2 (drop 1 here) c;
                               match p with None => Ice "no matching quote" | Some _ => Ok tt end
                             else Ok tt);
                        match here with
                        | [] => Ok (st, anchor)
                        | _ => expand_loop fuel st anchor (line + 1)
                        end
                    end
                | None =>
                    match end_ with
                    | [] => Ok (st, anchor)
                    | _ => expand_loop fuel st anchor (end_off + 1)
                    end
                end
          end
      end
  end.

(** On a line that fills its allocation; what the result's text is. *)
Definition eval_expand_macros (fuel : nat) (st : estate) (line : cstr) : res (estate * cstr) :=
  '(st, b) ← expand_loop fuel st (line ++ [NUL]) 0;
  s ← c_str_at b 0;
  Ok (st, s).

(** ** Controlling expressions *)

(** [eval_expand]: every [from] with its operand becomes [0] or [1]. *)
Fixpoint eval_expand (fuel : nat) (st : estate) (w from : cstr)
    (eval : estate -> cstr -> res (estate * bool)) (paren_optional : bool) : res (estate * cstr) :=
  match fuel with
  | O => NoFuel
  | S fuel =>
      f ← word_find w from;
      match f with
      | None => Ok (st, w)
      | Some entry =>
          let entry_end := str_spc_skip (word_end (drop entry w)) in
          let got_paren := cur entry_end =c "("%char in
          if negb got_paren && negb paren_optional then Die "open paren expected"
          else
            def_end ←
              (if got_paren then
                 match strchr_nest entry_end ")"%char with
                 | None => Die "close paren expected"
                 | Some d => Ok d
                 end
               else Ok (word_end entry_end));
            let operand := take (length entry_end - length def_end) entry_end in
            let replace_end := (length w - length def_end + if got_paren then 1 else 0)%nat in
            '(st, b) ← eval st (if got_paren then drop 1 operand else operand);
            eval_expand fuel st (str_replace w entry replace_end (str (if (b : bool) then "1" else "0")))
              from eval paren_optional
      end
  end.

Definition defined_macro_find (st : estate) (ident : cstr) : res (estate * bool) :=
  r ← word_find_any ident;
  match r with
  | None => Ub "word_end(NULL)"
  | Some ident =>
      Ok (st, match macro_find (macros st) (word_dup ident) with Some _ => true | None => false end)
  end.

Definition eval_expand_defined (st : estate) (w : cstr) : res (estate * cstr) :=
  eval_expand (S (length w)) st w DEFINED_STR defined_macro_find true.

(** [include_parse] (directive.c): the name and whether it was in angle
    brackets; the first argument is [eval_expand_macros]. *)
Definition include_parse_plain (anchor : cstr) : res (option (cstr * bool)) :=
  let arg := str_spc_skip anchor in
  let finish arg (fin : option cstr) lib :=
    match fin with
    | None => Die "unterminated #include directive"
    | Some fin => Ok (Some (take (length arg - length fin) arg, lib))
    end in
  if cur arg =c "<"%char then
    fin ← str_quotefin2 (drop 1 arg) ">"%char; finish (drop 1 arg) fin true
  else if cur arg =c dquote then
    fin ← str_quotefin (drop 1 arg); finish (drop 1 arg) fin false
  else Ok None.

Definition include_parse (fuel : nat) (st : estate) (anchor : cstr) : res (estate * (cstr * bool)) :=
  r ← include_parse_plain anchor;
  match r with
  | Some r => Ok (st, r)
  | None =>
      '(st, expanded) ← eval_expand_macros fuel st (str_spc_skip anchor);
      r ← include_parse_plain (str_trim expanded);
      match r with Some r => Ok (st, r) | None => Die "bad include start" end
  end.

Definition has_include (fuel : nat) (st : estate) (arg : cstr) : res (estate * bool) :=
  '(st, (fname, angle)) ← include_parse fuel st arg;
  '(f, _, _) ← include_fopen (files e) (inc_path e) (curdir e) fname angle;
  Ok (st, f).

Definition eval_expand_has_include (fuel : nat) (st : estate) (w : cstr) : res (estate * cstr) :=
  eval_expand (S (length w)) st w HAS_INCLUDE_STR (has_include fuel) false.
End Eval.

(** ** Trying it *)

Definition env0 : env :=
  {| current_fname := str "a.c"; current_line := 7; cpp_date := []; cpp_time := []; cpp_timestamp := [];
     cpp_basefile := str "a.c"; cpp_std := STD_C99; curdir := str "."; 
     inc_path := {| include_dirs := []; include_dirs_sys := [] |}; files := fun _ => Missing |}.

Definition obj (n v : string) : macro := set_def (new_macro (str n)) (Some (str v)) MACRO None 0.
Definition fn (n : string) (ps : list string) (v : string) : macro :=
  set_def (new_macro (str n)) (Some (str v)) FUNC (Some (map str ps)) 0.

Definition try_ (t : table) (s : string) : res string :=
  '(_, out) ← eval_expand_macros env0 60 {| macros := t; counter := 0 |} (str s);
  Ok (string_of_list_ascii out).

Example expand_object : try_ [obj "A" "B + 1"; obj "B" "(c)"] "x A; B" = Ok "x (c) + 1; (c)".
Proof. reflexivity. Qed.

Example expand_func : try_ [fn "F" ["x"] "G(x)"; fn "G" ["x"] "x+5"] "F(G(1))" = Ok "1+5+5".
Proof. reflexivity. Qed.

Example expand_blue : try_ [fn "f" ["a"] "a*g"; fn "g" ["a"] "f(a)"] "f(2)(9)" = Ok "2*f(9)".
Proof. reflexivity. Qed.

(** ** Lemmas on buffers *)

Lemma c_str_app (s r : cstr) : NUL ∉ s -> c_str (s ++ NUL :: r) = Some s.
Proof.
  induction s as [|c s IH]; intros H; [done|]. cbn [app c_str].
  destruct (c =c NUL) eqn:E; [apply eqc_true in E; set_solver|]. by rewrite IH by set_solver.
Qed.

Lemma not_elem_drop (x : ascii) (i : nat) (s : cstr) : x ∉ s -> x ∉ drop i s.
Proof. intros H K. apply H. by apply (subseteq_drop i). Qed.

Lemma not_elem_take (x : ascii) (i : nat) (s : cstr) : x ∉ s -> x ∉ take i s.
Proof. intros H K. apply H. by apply (subseteq_take i). Qed.

Lemma c_str_at_ok (s r : cstr) (i : nat) :
  NUL ∉ s -> (i <= length s)%nat -> c_str_at (s ++ NUL :: r) i = Ok (drop i s).
Proof.
  intros H Hi. unfold c_str_at. rewrite drop_app_le by done.
  by rewrite c_str_app by by apply not_elem_drop.
Qed.

Lemma buf_replace_ok (s r rep : cstr) (i j : nat) :
  NUL ∉ s -> (i <= j <= length s)%nat ->
  exists r', buf_replace (s ++ NUL :: r) i j rep = Ok ((take i s ++ rep ++ drop j s) ++ NUL :: r').
Proof.
  intros H [Hi Hj]. unfold buf_replace. rewrite c_str_at_ok by done. run.
  rewrite (take_app_le s) by lia. case_match eqn:E.
  - eexists. f_equal.
    replace (take (i + length rep) (take i s ++ rep ++ _)) with (take i s ++ rep).
    { rewrite <- !app_assoc. reflexivity. }
    rewrite app_assoc, take_app_length'; [done|]. rewrite length_app, length_take. lia.
  - rewrite c_str_app by by apply not_elem_take. exists []. by rewrite <- !app_assoc.
Qed.

(** ** The table across an expansion *)

(** All of a macro but its use counts. *)
Definition shape (m : macro) : cstr * option cstr * mtype * option (list cstr) * Z :=
  (nam m, val m, mty m, args m, blue m).

Definition same_shape (t t' : table) : Prop := map shape t' = map shape t.

Lemma same_shape_trans t1 t2 t3 : same_shape t1 t2 -> same_shape t2 t3 -> same_shape t1 t3.
Proof. unfold same_shape. congruence. Qed.

Lemma same_shape_length t t' : same_shape t t' -> length t' = length t.
Proof. intros H. apply (f_equal length) in H. by rewrite !length_map in H. Qed.

Lemma same_shape_lookup t t' i m :
  same_shape t t' -> t !! i = Some m -> exists m', t' !! i = Some m' /\ shape m' = shape m.
Proof.
  intros H Hi. apply (f_equal (.!! i)) in H. rewrite !list_lookup_fmap, Hi in H.
  destruct (t' !! i) as [m'|]; [|done]. exists m'. split; [done|]. simpl in H. congruence.
Qed.

Lemma same_shape_use t i a : same_shape t (macro_use t i a).
Proof.
  unfold same_shape, macro_use. apply list_eq. intros j. rewrite !list_lookup_fmap.
  destruct (decide (i = j)) as [<-|]; [rewrite list_lookup_alter_eq|by rewrite list_lookup_alter_ne].
  by destruct (t !! i).
Qed.

Lemma same_shape_restore t cs t' : restore_loop t cs = Ok t' -> same_shape t t'.
Proof.
  revert t t'. induction cs as [|c cs IH]; intros t t'; [destruct t; by intros [= <-]|].
  destruct t as [|m ms]; [done|]. cbn [restore_loop]. intros (r & H & [= <-])%bind_Ok.
  unfold same_shape. cbn [map]. f_equal. by apply IH.
Qed.

Lemma same_shape_blue t t' t1 t2 s :
  snapshot_blue_used t s = Ok t1 -> same_shape t1 t2 -> snapshot_unblue_used t2 s = Ok t' -> same_shape t t'.
Proof.
  unfold snapshot_blue_used, snapshot_unblue_used, snapshot_alter_blue. destruct (post s) as [po|]; [|done].
  intros (L1 & E1)%alter_loop_paint S (L2 & E2)%alter_loop_paint. unfold same_shape.
  apply list_eq. intros i. rewrite !list_lookup_fmap, E2. specialize (E1 i).
  destruct (t !! i) as [m|] eqn:Hm.
  - assert (exists m1, t1 !! i = Some m1) as (m1 & H1) by (rewrite E1; by repeat case_match; eauto).
    destruct (same_shape_lookup _ _ _ _ S H1) as (m2 & H2 & Sh). rewrite H2. rewrite H1 in E1.
    unfold shape in Sh. injection Sh as ? ? ? ? ?.
    destruct (pre s !! i), (po !! i); injection E1 as ->; try (simpl; unfold shape; congruence).
    destruct (negb _); simpl in *; unfold shape; simpl; [|congruence].
    replace (blue m2 + -1) with (blue m) by lia. congruence.
  - apply lookup_ge_None in E1. rewrite (lookup_ge_None_2 t2 i); [done|].
    apply same_shape_length in S. lia.
Qed.

(** The table while macro [i] is being expanded. *)
Definition painted (t : table) (i : nat) : table := macro_paint (macro_use t i 1) i 1.

Lemma painted_lookup t i j :
  painted t i !! j = if decide (i = j) then (fun m => paint (adjust m 1) 1) <$> t !! j else t !! j.
Proof.
  unfold painted, macro_paint, macro_use. case_decide as E.
  - subst j. rewrite !list_lookup_alter_eq. by destruct (t !! i).
  - by rewrite !list_lookup_alter_ne.
Qed.

Lemma unpainted_shape t t' i :
  same_shape (painted t i) t' -> same_shape t (macro_paint t' i (-1)).
Proof.
  unfold same_shape, macro_paint. intros H. apply list_eq. intros j. apply (f_equal (.!! j)) in H.
  rewrite !list_lookup_fmap, !painted_lookup in *.
  case_decide as E; [subst j; rewrite list_lookup_alter_eq|by rewrite list_lookup_alter_ne].
  destruct (t' !! i) as [x|], (t !! i) as [y|]; simpl in *; try done.
  unfold shape in *. cbn in *. injection H as ? ? ? ? ?. replace (blue x + -1) with (blue y) by lia. congruence.
Qed.

Section ExpandShape.
Context (e : env) (expand : estate -> buf -> res (estate * buf)).
Hypothesis expand_shape : forall st b st' b',
  expand st b = Ok (st', b') -> same_shape (macros st) (macros st').

Lemma subst_loop_shape n m toks args rep st st' out :
  subst_loop expand n m toks args rep st = Ok (st', out) -> same_shape (macros st) (macros st').
Proof using expand_shape.
  revert toks rep st. induction n as [|n IH]; intros toks rep st; [done|]. cbn [subst_loop].
  destruct toks as [|this rest]; [by intros [= <- _]|].
  destruct (tok this); try (intros (? & _ & H)%bind_Ok; by apply IH in H); try done.
  destruct (next_is_join rest).
  - intros (? & _ & ([w' r'] & _ & H)%bind_Ok)%bind_Ok. by apply IH in H.
  - destruct (w this) as [w'|]; [|done]. intros ([a found] & _ & H)%bind_Ok.
    apply bind_Ok in H as ([st1 w1] & H1 & H). apply IH in H. eapply same_shape_trans; [|exact H].
    destruct found; [|by injection H1 as <- <-].
    apply bind_Ok in H1 as (snap & _ & H1). apply bind_Ok in H1 as ([st2 b] & H2 & H1).
    apply bind_Ok in H1 as (? & _ & H1). apply bind_Ok in H1 as (t & H3 & [= <- <-]).
    apply expand_shape in H2. apply same_shape_restore in H3. by eapply same_shape_trans.
Qed.

Lemma eval_func_macro_shape m a st st' out :
  eval_func_macro e expand m a st = Ok (st', out) -> same_shape (macros st) (macros st').
Proof using expand_shape.
  unfold eval_func_macro. intros (args & _ & H)%bind_Ok. destruct (val m) as [v|].
  - apply bind_Ok in H as (? & _ & H). apply bind_Ok in H as (? & _ & H). by apply subst_loop_shape in H.
  - destruct args as [|arg [|? ?]]; try done. destruct (has_func _ _ _); [|done]. by injection H as <- _.
Qed.

Lemma object_value_shape m st st' v : object_value e m st = Ok (st', v) -> macros st' = macros st.
Proof. unfold object_value. repeat case_match; intros [= <- _]; done. Qed.

Lemma eval_macro_r_shape i m b pat st st' b' pat' :
  eval_macro_r e expand i m b pat st = Ok (st', b', pat') -> same_shape (macros st) (macros st').
Proof using expand_shape.
  unfold eval_macro_r. case_bool_decide.
  - intros ([st1 v] & H1 & (? & _ & [= <- _ _])%bind_Ok)%bind_Ok.
    apply object_value_shape in H1. by rewrite H1.
  - intros (after & _ & H1)%bind_Ok. destruct (negb _); [injection H1 as <- _ _; apply same_shape_use|].
    destruct (strchr_nest _ _); [|done]. destruct (streq _ _); [by injection H1 as <- _ _|].
    apply bind_Ok in H1 as ([st1 d] & H1 & (? & _ & [= <- _ _])%bind_Ok).
    by apply eval_func_macro_shape in H1.
Qed.

Lemma eval_macro_shape i m b pat st st' b' pat' :
  eval_macro e expand i m b pat st = Ok (st', b', pat') -> same_shape (macros st) (macros st').
Proof using expand_shape.
  unfold eval_macro. destruct (negb _); [by intros [= <- _ _]|].
  destruct (macros _ !! i) as [m1|]; [|done].
  intros ([[st1 r] p] & H & [= <- _ _])%bind_Ok. unfold eval_macro_double_eval in H.
  apply bind_Ok in H as (snap & _ & H). apply bind_Ok in H as ([[st2 b2] p2] & H2 & H).
  apply bind_Ok in H as (snap2 & _ & H). apply bind_Ok in H as (t3 & H3 & H).
  apply bind_Ok in H as ([st4 b4] & H4 & H). apply bind_Ok in H as (t5 & H5 & [= <- <- <-]).
  apply eval_macro_r_shape in H2. apply expand_shape in H4.
  pose proof (same_shape_blue _ _ _ _ _ H3 H4 H5) as S. cbn [macros with_macros] in *.
  by apply (unpainted_shape _ _ i), (same_shape_trans _ _ _ H2).
Qed.
End ExpandShape.

Lemma expand_loop_shape e fuel st b line st' b' :
  expand_loop e fuel st b line = Ok (st', b') -> same_shape (macros st) (macros st').
Proof.
  revert st b line st' b'. induction fuel as [|fuel IH]; intros st b line st' b'; [done|].
  cbn [expand_loop]. intros (s & _ & H)%bind_Ok. destruct s as [|c s]; [by injection H as <- _|].
  apply bind_Ok in H as (r & _ & H). destruct r as [word|]; [|by injection H as <- _].
  destruct (_ && _); [by apply IH in H|].
  destruct (macro_find _ _) as [i|].
  - destruct (macros st !! i) as [m|]; [|done].
    apply bind_Ok in H as ([[st1 b1] p1] & H1 & H).
    apply eval_macro_shape in H1; [|intros ? ? ? ?; apply IH].
    apply bind_Ok in H as (here & _ & H). apply bind_Ok in H as (? & _ & H).
    destruct here; [by injection H as <- _|]. apply IH in H. by eapply same_shape_trans.
  - destruct (word_end word); [by injection H as <- _|]. by apply IH in H.
Qed.

(** ** The words of a text *)

Definition on_word {A} (f : cstr -> list A) (w : cstr) : list A := match w with [] => [] | _ => f w end.

(** The maximal words replaced by [f], after [acc] of the current word. *)
Fixpoint subst_from (f : cstr -> cstr) (acc s : cstr) : cstr :=
  match s with
  | [] => on_word f acc
  | c :: s => if iswordpart c then subst_from f (acc ++ [c]) s else on_word f acc ++ c :: subst_from f [] s
  end.

Definition replace_words (f : cstr -> cstr) (s : cstr) : cstr := subst_from f [] s.

Fixpoint words_from (acc s : cstr) : list cstr :=
  match s with
  | [] => on_word (fun w => [w]) acc
  | c :: s => if iswordpart c then words_from (acc ++ [c]) s else on_word (fun w => [w]) acc ++ words_from [] s
  end.

Definition words (s : cstr) : list cstr := words_from [] s.

Definition is_word (w : cstr) : Prop := Forall (fun c => iswordpart c = true) w.

Lemma subst_from_app f a c b acc :
  iswordpart c = false -> subst_from f acc (a ++ c :: b) = subst_from f acc a ++ c :: replace_words f b.
Proof.
  intros Hc. revert acc. induction a as [|x a IH]; intros acc; cbn [app subst_from].
  - by rewrite Hc.
  - destruct (iswordpart x); [apply IH|]. by rewrite IH, <- app_assoc.
Qed.

Lemma words_from_app a c b acc :
  iswordpart c = false -> words_from acc (a ++ c :: b) = words_from acc a ++ words b.
Proof.
  intros Hc. revert acc. induction a as [|x a IH]; intros acc; cbn [app words_from].
  - by rewrite Hc.
  - destruct (iswordpart x); [apply IH|]. by rewrite IH, <- app_assoc.
Qed.

Lemma replace_app f a c b :
  iswordpart c = false -> replace_words f (a ++ c :: b) = replace_words f a ++ c :: replace_words f b.
Proof. apply subst_from_app. Qed.

Lemma words_app a c b : iswordpart c = false -> words (a ++ c :: b) = words a ++ words b.
Proof. apply words_from_app. Qed.

Lemma replace_word f w : is_word w -> replace_words f w = on_word f w.
Proof.
  intros H. unfold replace_words. assert (forall acc, subst_from f acc w = on_word f (acc ++ w)) as K; [|apply K].
  induction H as [|c w Hc Hw IH]; intros acc; cbn [subst_from]; [by rewrite app_nil_r|].
  by rewrite Hc, IH, <- app_assoc.
Qed.

Lemma words_word w : is_word w -> words w = on_word (fun w => [w]) w.
Proof.
  intros H. unfold words. assert (forall acc, words_from acc w = on_word (fun w => [w]) (acc ++ w)) as K; [|apply K].
  induction H as [|c w Hc Hw IH]; intros acc; cbn [words_from]; [by rewrite app_nil_r|].
  by rewrite Hc, IH, <- app_assoc.
Qed.

(** A text is its first word, perhaps empty, and a rest after one character. *)
Lemma word_split s :
  exists w t, s = w ++ t /\ is_word w /\ (t = [] \/ exists c t', t = c :: t' /\ iswordpart c = false).
Proof.
  induction s as [|c s (w & t & -> & Hw & Ht)]; [exists [], []; repeat split; auto; constructor|].
  destruct (iswordpart c) eqn:E.
  - exists (c :: w), t. repeat split; auto. by constructor.
  - exists [], (c :: w ++ t). repeat split; [constructor|right; eauto].
Qed.

Lemma word_ind (P : cstr -> Prop) :
  (forall w, is_word w -> P w) ->
  (forall w c t, is_word w -> iswordpart c = false -> P t -> P (w ++ c :: t)) -> forall s, P s.
Proof.
  intros H0 H1 s. remember (length s) as n eqn:En. revert s En. induction (lt_wf n) as [n _ IH]. intros s ->.
  destruct (word_split s) as (w & t & -> & Hw & [-> |(c & t' & -> & Hc)]).
  - rewrite app_nil_r. by apply H0.
  - apply H1; [done..|]. eapply IH; [|reflexivity]. rewrite length_app. simpl. lia.
Qed.

Lemma replace_cons f w c t :
  is_word w -> iswordpart c = false -> replace_words f (w ++ c :: t) = on_word f w ++ c :: replace_words f t.
Proof. intros Hw Hc. by rewrite replace_app, replace_word. Qed.

Lemma words_cons w c t :
  is_word w -> iswordpart c = false -> words (w ++ c :: t) = on_word (fun w => [w]) w ++ words t.
Proof. intros Hw Hc. by rewrite words_app, words_word. Qed.

Lemma replace_fixed f s : Forall (fun w => f w = w) (words s) -> replace_words f s = s.
Proof.
  induction s as [w Hw|w c t Hw Hc IH] using word_ind.
  - rewrite words_word, replace_word by done. destruct w; [done|]. cbn [on_word]. rewrite Forall_singleton. done.
  - rewrite words_cons, replace_cons by done. intros [H1 H2]%Forall_app. rewrite IH by done.
    destruct w; [done|]. cbn [on_word] in *. rewrite Forall_singleton in H1. by rewrite H1.
Qed.

(** Replacing what is left after replacing with texts that have nothing left. *)
Lemma replace_again f g s :
  Forall (fun w => replace_words f (on_word g w) = f w) (words s) ->
  replace_words f (replace_words g s) = replace_words f s.
Proof.
  induction s as [w Hw|w c t Hw Hc IH] using word_ind.
  - rewrite words_word, (replace_word g w), (replace_word f w) by done. destruct w; [done|]. cbn [on_word]. rewrite Forall_singleton. intros H. exact H.
  - rewrite words_cons, (replace_cons g), (replace_cons f w), replace_app by done. intros [H1 H2]%Forall_app. rewrite IH by done.
    destruct w; [done|]. cbn [on_word] in *. rewrite Forall_singleton in H1. cbn [on_word] in H1. by rewrite H1.
Qed.

Lemma words_replace f s : words (replace_words f s) = concat (map (fun w => words (f w)) (words s)).
Proof.
  induction s as [w Hw|w c t Hw Hc IH] using word_ind.
  - rewrite (words_word w), replace_word by done. destruct w; [done|]. simpl. by rewrite app_nil_r.
  - rewrite (words_cons w), replace_cons, words_app, IH by done. by destruct w.
Qed.

Lemma elem_replace f s x :
  x ∈ replace_words f s -> x ∈ s \/ exists w, w ∈ words s /\ x ∈ f w.
Proof.
  induction s as [w Hw|w c t Hw Hc IH] using word_ind.
  - rewrite words_word, replace_word by done. destruct w; [set_solver|]. cbn [on_word]. intros H. right.
    eexists. by split; [left|].
  - rewrite words_cons, replace_cons by done. rewrite !elem_of_app, elem_of_cons.
    intros [H|[->|H]]; [|set_solver|].
    + destruct w; [by apply elem_of_nil in H|]. right. eexists. by split; [apply elem_of_app; left; left|].
    + destruct (IH H) as [K|(w' & K1 & K2)]; [set_solver|]. right. exists w'. set_solver.
Qed.

Lemma words_is_word s w : w ∈ words s -> is_word w /\ w <> [].
Proof.
  induction s as [u Hu|u c t Hu Hc IH] using word_ind.
  - rewrite words_word by done. destruct u; [by intros ?%elem_of_nil|]. by intros ->%list_elem_of_singleton.
  - rewrite words_cons by done. rewrite elem_of_app. intros [H|H]; [|by apply IH].
    destruct u; [by apply elem_of_nil in H|]. by apply list_elem_of_singleton in H as ->.
Qed.

(** ** Scanning a text without quotes *)

(** A text without quotes, in which the scan sees every word. *)
Definition clean (s : cstr) : Prop := NUL ∉ s /\ dquote ∉ s /\ squote ∉ s.

Lemma clean_app a b : clean (a ++ b) <-> clean a /\ clean b.
Proof. unfold clean. set_solver. Qed.

Lemma word_end_word w s : is_word w -> iswordpart (cur s) = false -> word_end (w ++ s) = s.
Proof.
  intros Hw Hs. apply word_end_app; [|done]. apply forallb_forall. intros x Hx.
  unfold is_word in Hw. rewrite Forall_forall in Hw. apply Hw. by apply list_elem_of_In.
Qed.

Lemma word_dup_word w s : is_word w -> iswordpart (cur s) = false -> word_dup (w ++ s) = w.
Proof. intros Hw Hs. unfold word_dup. rewrite word_end_word, length_app by done. by rewrite Nat.add_sub, take_app_length. Qed.

Lemma clean_scan s :
  clean s ->
  (word_find_any s = Ok None /\ words s = []) \/
  exists sep w t, s = sep ++ w ++ t /\ Forall (fun c => iswordpart c = false) sep /\ is_word w /\ w <> [] /\
    iswordpart (cur t) = false /\ word_find_any s = Ok (Some (w ++ t)).
Proof.
  intros H. unfold word_find_any. assert (length s < S (length s))%nat as Hl by lia.
  revert Hl. generalize (S (length s)). induction s as [|c s IH]; intros n Hl.
  - left. destruct n; [lia|]. done.
  - destruct n as [|n]; [lia|]. cbn [word_find_any_loop].
    change (c :: s) with ([c] ++ s) in H. apply clean_app in H as (Hc & Hs).
    assert ((c =c dquote) || (c =c squote) = false) as Q.
    { destruct Hc as (_ & ? & ?). apply orb_false_iff. split; apply eqc_false; set_solver. }
    rewrite Q. destruct (iswordpart c) eqn:E.
    + right. exists []. destruct (word_split (c :: s)) as (w & t & Hw & Hi & Ht).
      exists w, t. rewrite Hw. repeat split; auto.
      * intros ->. destruct Ht as [->|(? & ? & -> & Hx)]; [done|]. injection Hw as <- <-. by rewrite E in Hx.
      * by destruct Ht as [->|(? & ? & -> & Hx)].
    + destruct (IH Hs n ltac:(simpl in Hl; lia)) as [[H1 H2]|(sep & w & t & -> & Hsep & H')].
      * left. split; [done|]. change (c :: s) with ([] ++ c :: s). by rewrite words_app, H2.
      * right. exists (c :: sep), w, t. split; [done|]. split; [by constructor|]. exact H'.
Qed.

(** A text that is empty or ends outside a word. *)
Definition ends_sep (p : cstr) : Prop := p = [] \/ exists q c, p = q ++ [c] /\ iswordpart c = false.

Lemma ends_sep_app p s : ends_sep p -> Forall (fun c => iswordpart c = false) s -> ends_sep (p ++ s).
Proof.
  intros Hp Hs. destruct s as [|c s _] using rev_ind; [by rewrite app_nil_r|]. right.
  exists (p ++ s), c. rewrite app_assoc. split; [done|]. apply Forall_app in Hs as [_ Hs].
  by rewrite Forall_singleton in Hs.
Qed.

Lemma words_sep p s : ends_sep p -> words (p ++ s) = words p ++ words s.
Proof.
  intros [->|(q & c & -> & Hc)]; [done|]. rewrite <- app_assoc. cbn [app]. rewrite !words_app by done.
  by rewrite app_nil_r.
Qed.

Lemma replace_sep f p s : ends_sep p -> replace_words f (p ++ s) = replace_words f p ++ replace_words f s.
Proof.
  intros [->|(q & c & -> & Hc)]; [done|]. rewrite <- app_assoc. cbn [app]. rewrite !replace_app by done.
  by rewrite <- app_assoc.
Qed.

Lemma words_seps s : Forall (fun c => iswordpart c = false) s -> words s = [].
Proof. induction 1 as [|c s Hc _ IH]; [done|]. change (c :: s) with ([] ++ c :: s). by rewrite words_app. Qed.

Lemma first_word sep w tl f :
  Forall (fun c => iswordpart c = false) sep -> is_word w -> w <> [] -> iswordpart (cur tl) = false ->
  replace_words f (sep ++ w ++ tl) = sep ++ f w ++ replace_words f tl /\
  words (sep ++ w ++ tl) = w :: words tl.
Proof.
  intros Hsep Hw Hn Ht. assert (ends_sep sep) as E by (apply (ends_sep_app []); [by left|done]).
  rewrite replace_sep, words_sep, words_seps, (replace_fixed f sep) by (done || by rewrite words_seps).
  destruct w as [|x w]; [done|]. destruct tl as [|c tl].
  - change (replace_words f []) with (@nil ascii).
    by rewrite !app_nil_r, replace_word, words_word by done.
  - rewrite (replace_cons f (x :: w)), (words_cons (x :: w)) by done.
    change (c :: tl) with ([] ++ c :: tl). by rewrite (replace_cons f []), (words_cons []) by (done || constructor).
Qed.

(** ** Tables of plain macros *)

(** Whether the word names a macro that is not painted. *)
Definition hot (t : table) (w : cstr) : bool :=
  match macro_find t w with
  | Some i => match t !! i with Some m => blue m =? 0 | None => false end
  | None => false
  end.

(** What such a word stands for. *)
Definition expansion (t : table) (w : cstr) : cstr :=
  match macro_find t w with
  | Some i => match t !! i with Some m => if blue m =? 0 then default w (val m) else w | None => w end
  | None => w
  end.

(** Every macro is object-like, and its value has no quotes and names no macro. *)
Definition plain (t : table) : Prop :=
  Forall (fun m => mty m = MACRO /\ exists v, val m = Some v /\ clean v /\
                   Forall (fun w => macro_find t w = None) (words v)) t.

Definition unpainted (t : table) : nat := length (List.filter (fun m => blue m =? 0) t).

Definition hots (t : table) (s : cstr) : nat := length (List.filter (hot t) (words s)).

Lemma macro_find_names t t' w : map nam t' = map nam t -> macro_find t' w = macro_find t w.
Proof.
  revert t'. induction t as [|m t IH]; intros [|m' t']; try done. cbn [map macro_find].
  intros [= E1 E2]. rewrite E1, (IH _ E2). done.
Qed.

Lemma same_shape_names t t' : same_shape t t' -> map nam t' = map nam t.
Proof.
  intros H. apply (f_equal (map (fun s => s.1.1.1.1))) in H. rewrite !map_map in H. exact H.
Qed.

Lemma expansion_shape t t' w : same_shape t t' -> expansion t' w = expansion t w /\ hot t' w = hot t w.
Proof.
  intros H. unfold expansion, hot. rewrite (macro_find_names _ _ w (same_shape_names _ _ H)).
  destruct (macro_find t w) as [i|] eqn:F; [|done]. apply macro_find_Some in F as (m & Hm & _).
  destruct (same_shape_lookup _ _ _ _ H Hm) as (m' & Hm' & S). rewrite Hm, Hm'. injection S as _ -> _ _ ->. done.
Qed.

Lemma painted_find t i w : macro_find (painted t i) w = macro_find t w.
Proof.
  apply macro_find_names, list_eq. intros j. rewrite !list_lookup_fmap, painted_lookup.
  case_decide; [|done]. by destruct (t !! j).
Qed.

Lemma painted_unpainted t i m : t !! i = Some m -> blue m = 0 -> (unpainted (painted t i) < unpainted t)%nat.
Proof.
  unfold painted, macro_paint, macro_use, unpainted.
  revert i. induction t as [|x t IH]; intros [|i]; cbn; intros H B; try done.
  - injection H as ->. rewrite B. change (0 + 1 =? 0) with false. cbn. lia.
  - specialize (IH i H B). destruct (blue x =? 0); cbn; [apply (proj1 (Nat.succ_lt_mono _ _))|]; exact IH.
Qed.

Lemma painted_plain t i : plain t -> plain (painted t i).
Proof.
  unfold plain. rewrite !Forall_lookup. intros H j m Hm. rewrite painted_lookup in Hm.
  assert (exists x, t !! j = Some x /\ mty m = mty x /\ val m = val x) as (x & Hx & E1 & E2).
  { case_decide; [|by exists m]. destruct (t !! j) as [x|]; [|done]. injection Hm as <-. by exists x. }
  destruct (H j x Hx) as (K1 & v & K2 & K3 & K4). rewrite E1, E2. split; [done|]. exists v. split; [done|].
  split; [done|]. eapply Forall_impl; [exact K4|]. intros w. by rewrite painted_find.
Qed.

Lemma painted_cases t i m w :
  t !! i = Some m -> blue m = 0 ->
  (expansion (painted t i) w = w /\ hot (painted t i) w = false /\ macro_find t w = Some i) \/
  (expansion (painted t i) w = expansion t w /\ hot (painted t i) w = hot t w).
Proof.
  intros Hm B. unfold expansion, hot. rewrite painted_find. destruct (macro_find t w) as [j|] eqn:F; [|by right].
  rewrite painted_lookup. case_decide as E; [|by right]. subst j. left. rewrite Hm. cbn. by rewrite B.
Qed.

Lemma not_hot_expansion t w : hot t w = false -> expansion t w = w.
Proof.
  unfold hot, expansion. destruct (macro_find t w); [|done]. destruct (t !! n); [|done]. by intros ->.
Qed.

Lemma hot_expansion t w :
  plain t -> hot t w = true ->
  clean (expansion t w) /\ Forall (fun u => macro_find t u = None) (words (expansion t w)).
Proof.
  intros P. unfold hot, expansion. destruct (macro_find t w) as [i|]; [|done].
  destruct (t !! i) as [m|] eqn:E; [|done]. intros ->. unfold plain in P. rewrite Forall_lookup in P.
  destruct (P i m E) as (_ & v & -> & H). exact H.
Qed.

Lemma unknown_not_hot t w : macro_find t w = None -> hot t w = false.
Proof. unfold hot. by intros ->. Qed.

Lemma replace_value t w : plain t -> hot t w = true -> replace_words (expansion t) (expansion t w) = expansion t w.
Proof.
  intros P H. apply replace_fixed. destruct (hot_expansion t w P H) as (_ & K).
  eapply Forall_impl; [exact K|]. intros u Hu. by apply not_hot_expansion, unknown_not_hot.
Qed.

Lemma plain_again t i m s :
  plain t -> t !! i = Some m -> blue m = 0 ->
  replace_words (expansion t) (replace_words (expansion (painted t i)) s) = replace_words (expansion t) s /\
  (hots t (replace_words (expansion (painted t i)) s) <= hots t s)%nat.
Proof.
  intros P Hm B. split.
  - apply replace_again, Forall_forall. intros w Hw. destruct (words_is_word _ _ Hw) as (Hi & Hn).
    assert (replace_words (expansion t) w = expansion t w) as K by (rewrite replace_word by done; by destruct w).
    replace (on_word (expansion (painted t i)) w) with (expansion (painted t i) w) by by destruct w.
    destruct (painted_cases t i m w Hm B) as [(-> & _)|(-> & _)]; [done|].
    destruct (hot t w) eqn:E; [by apply replace_value|]. by rewrite (not_hot_expansion _ _ E) in *.
  - unfold hots. rewrite words_replace.
    assert (forall w, w ∈ words s -> words w = [w]) as Hone.
    { intros w Hw. destruct (words_is_word _ _ Hw). rewrite words_word by done. by destruct w. }
    induction (words s) as [|w l IH]; [done|]. cbn [map concat List.filter].
    rewrite List.filter_app, length_app.
    assert (length (List.filter (hot t) (concat (map (fun w => words (expansion (painted t i) w)) l)))
            <= length (List.filter (hot t) l))%nat as IH' by (apply IH; intros; apply Hone; by right).
    assert (length (List.filter (hot t) (words (expansion (painted t i) w))) <= if hot t w then 1 else 0)%nat as K.
    { pose proof (Hone w ltac:(left)) as W.
      destruct (painted_cases t i m w Hm B) as [(-> & _)|(-> & _)].
      - rewrite W. cbn. by destruct (hot t w).
      - destruct (hot t w) eqn:E; [|by rewrite (not_hot_expansion _ _ E), W; cbn; rewrite E].
        destruct (hot_expansion t w P E) as (_ & F). clear -F.
        induction F as [|u us Hu _ IHu]; cbn; [lia|]. by rewrite (unknown_not_hot _ _ Hu). }
    destruct (hot t w); cbn [length]; lia.
Qed.

Lemma clean_replace t s : plain t -> clean s -> clean (replace_words (expansion t) s).
Proof.
  intros P (H1 & H2 & H3). repeat split; intros [K|(w & Hw & K)]%elem_replace; try done;
    (destruct (hot t w) eqn:E; [destruct (hot_expansion t w P E) as ((? & ? & ?) & _); done|];
     rewrite (not_hot_expansion _ _ E) in K).
  all: assert (forall x, x ∈ w -> iswordpart x = true) as W
    by (destruct (words_is_word _ _ Hw) as (Hi & _); unfold is_word in Hi; by rewrite Forall_forall in Hi).
  all: apply W in K; discriminate K.
Qed.

(** ** The scan over a text without quotes *)

Section Scan.
Variable e : env.

(** What the loop does after [eval_macro]. *)
Definition resume (fuel : nat) (r : estate * buf * nat) : res (estate * buf) :=
  let '(st, anchor, line) := r in
  here ← c_str_at anchor line;
  let c := cur here in
  _ ← (if (c =c dquote) || (c =c squote) then
         p ← str_quotefin2 (drop 1 here) c;
         match p with None => Ice "no matching quote" | Some _ => Ok tt end
       else Ok tt);
  match here with
  | [] => Ok (st, anchor)
  | _ => expand_loop e fuel st anchor (line + 1)
  end.

(** What it does after a word that it leaves, at the start of [tl]. *)
Definition go_on (fuel : nat) (st : estate) (b : buf) (tl : cstr) (line : nat) : res (estate * buf) :=
  match tl with [] => Ok (st, b) | _ => expand_loop e fuel st b (line + 1) end.

Lemma clean_cur s : clean s -> (cur s =c dquote) || (cur s =c squote) = false.
Proof.
  intros (_ & H1 & H2). destruct s as [|c s]; [done|]. apply orb_false_iff.
  split; apply eqc_false; simpl; set_solver.
Qed.

Lemma resume_ok fuel st a tl r :
  clean (a ++ tl) -> resume fuel (st, (a ++ tl) ++ NUL :: r, length a)
                     = go_on fuel st ((a ++ tl) ++ NUL :: r) tl (length a).
Proof.
  intros H. unfold resume. rewrite c_str_at_ok; [|apply H|rewrite length_app; lia].
  rewrite drop_app_length. run. apply clean_app in H as (_ & H). rewrite (clean_cur _ H). run. done.
Qed.

Lemma expand_loop_word fuel st p sep w tl r :
  clean (p ++ sep ++ w ++ tl) -> is_word w -> iswordpart (cur tl) = false -> w <> [] ->
  word_find_any (sep ++ w ++ tl) = Ok (Some (w ++ tl)) ->
  let b := (p ++ sep ++ w ++ tl) ++ NUL :: r in
  expand_loop e (S fuel) st b (length p) =
  match macro_find (macros st) w with
  | Some i =>
      match macros st !! i with
      | None => Ub "dangling macro"
      | Some m =>
          x ← eval_macro e (fun st b => expand_loop e fuel st b 0) i m b (length (p ++ sep)) st;
          resume fuel x
      end
  | None => go_on fuel st b tl (length (p ++ sep ++ w))
  end.
Proof.
  intros H Hw Ht Hn Hf. cbn zeta. cbn [expand_loop].
  rewrite c_str_at_ok; [|apply H|rewrite length_app; lia]. rewrite drop_app_length. run.
  destruct (sep ++ w ++ tl) as [|x xs] eqn:E; [by destruct sep, w|]. rewrite <- E in *. rewrite Hf. run.
  rewrite word_end_word, word_dup_word by done.
  assert (clean tl) as Hc by (rewrite !clean_app in H; tauto).
  apply clean_cur, orb_false_iff in Hc as [Hc _]. rewrite Hc. cbn [andb].
  replace (length p + (length (sep ++ w ++ tl) - length (w ++ tl)))%nat with (length (p ++ sep))
    by (rewrite !length_app; lia).
  destruct (macro_find (macros st) w) as [i|].
  - destruct (macros st !! i); [|done]. destruct (eval_macro _ _ _ _ _ _ _) as [[[? ?] ?]| | | |]; done.
  - unfold go_on. destruct tl; [done|]. f_equal. rewrite !length_app. lia.
Qed.
End Scan.

(** ** Plain macros expand to their values *)

Lemma alter_loop_same t cs c : (length cs <= length t)%nat -> alter_loop t cs cs c = Ok t.
Proof.
  revert t. induction cs as [|a cs IH]; intros t H; [by destruct t|]. destruct t as [|m t]; [simpl in H; lia|].
  cbn [alter_loop]. rewrite IH by (simpl in H; lia). run. by rewrite Z.eqb_refl.
Qed.

Lemma eval_macro_hot e expand i m v b b1 b2 pat st st2 :
  macros st !! i = Some m -> blue m = 0 -> mty m = MACRO -> val m = Some v ->
  buf_replace b pat (pat + length (nam m)) v = Ok b1 ->
  expand (with_macros st (painted (macros st) i)) b1 = Ok (st2, b2) ->
  same_shape (painted (macros st) i) (macros st2) ->
  eval_macro e expand i m b pat st
  = Ok (with_macros st2 (macro_paint (macros st2) i (-1)), b2, (pat + length v)%nat).
Proof.
  intros Hm B Ht Hv Hb He Hs. unfold eval_macro. rewrite B. cbn [negb Z.eqb].
  cbn [macros with_macros]. fold (painted (macros st) i).
  assert (with_macros (with_macros st (macro_use (macros st) i 1)) (painted (macros st) i)
          = with_macros st (painted (macros st) i)) as -> by done.
  rewrite painted_lookup, decide_True, Hm by done. cbn [fmap option_fmap option_map].
  unfold eval_macro_double_eval, snapshot_take, snapshot_take_1. cbn [macros with_macros].
  rewrite Nat.leb_refl. run. unfold eval_macro_r. cbn [mty paint adjust nam val].
  rewrite Ht, bool_decide_true by done. unfold object_value. cbn [val paint adjust]. rewrite Hv. run.
  rewrite Hb. run. unfold snapshot_take_post, snapshot_take_1. cbn [sn macros with_macros].
  rewrite Nat.leb_refl. run. unfold snapshot_blue_used, snapshot_unblue_used, snapshot_alter_blue. cbn [post pre].
  assert (forall t : table, length (map use_cnt (take (length t) t)) = length t) as L
    by (intros; by rewrite length_map, length_take, Nat.min_id).
  rewrite alter_loop_same by by rewrite L. run.
  match goal with |- context [expand ?a b1] => replace a with (with_macros st (painted (macros st) i)) by done end.
  rewrite He. run. rewrite alter_loop_same by (rewrite L; by rewrite (same_shape_length _ _ Hs)). done.
Qed.

Lemma painted_shape t t' i : same_shape t t' -> same_shape (painted t i) (painted t' i).
Proof.
  unfold same_shape. intros H. apply list_eq. intros j. apply (f_equal (.!! j)) in H.
  rewrite !list_lookup_fmap, !painted_lookup in *. case_decide; [|done].
  destruct (t' !! j) as [x|], (t !! j) as [y|]; simpl in *; try done.
  unfold shape in *. cbn. congruence.
Qed.

(** With enough fuel, from the end of [p], the scan replaces every hot word of [s]. *)
Definition scans (e : env) (t : table) (p s : cstr) : Prop :=
  exists n, forall fuel st r, (n <= fuel)%nat -> same_shape t (macros st) ->
  exists st' r', expand_loop e fuel st ((p ++ s) ++ NUL :: r) (length p)
                 = Ok (st', (p ++ replace_words (expansion t) s) ++ NUL :: r').

Section Plain.
Context (e : env) (t : table).
Hypothesis t_plain : plain t.

Lemma scans_none p s : clean (p ++ s) -> word_find_any s = Ok None -> words s = [] -> scans e t p s.
Proof using.
  intros H Hf Hw. exists 1%nat. intros fuel st r Hn _. destruct fuel as [|fuel]; [lia|].
  exists st, r. cbn [expand_loop].
  rewrite c_str_at_ok; [|apply H|rewrite length_app; lia]. rewrite drop_app_length. run. rewrite Hf.
  rewrite replace_fixed by by rewrite Hw. by destruct s.
Qed.

(** The text after the word at which the scan goes on: nothing, or the rest
    after one more character. *)
Definition then_scans (p tl : cstr) : Prop :=
  match tl with [] => True | c :: s => scans e t (p ++ [c]) s end.

Lemma go_on_ok p tl :
  then_scans p tl -> iswordpart (cur tl) = false ->
  exists n, forall fuel st r, (n <= fuel)%nat -> same_shape t (macros st) ->
  exists st' r', go_on e fuel st ((p ++ tl) ++ NUL :: r) tl (length p)
                 = Ok (st', (p ++ replace_words (expansion t) tl) ++ NUL :: r').
Proof using.
  intros H Hc. destruct tl as [|c s]; [exists O; intros; by exists st, r|].
  destruct H as (n & H). exists n. intros fuel st r Hn Hs. cbn [go_on].
  destruct (H fuel st r Hn Hs) as (st' & r' & E). exists st', r'.
  rewrite length_app in E. cbn [length] in E.
  replace ((p ++ [c]) ++ s) with (p ++ c :: s) in E by by rewrite <- app_assoc.
  rewrite E. do 3 f_equal. change (c :: s) with ([] ++ c :: s). rewrite replace_app by done.
  by rewrite <- app_assoc.
Qed.

Lemma scans_cold p sep w tl :
  clean (p ++ sep ++ w ++ tl) -> Forall (fun c => iswordpart c = false) sep -> is_word w -> w <> [] ->
  iswordpart (cur tl) = false -> word_find_any (sep ++ w ++ tl) = Ok (Some (w ++ tl)) ->
  hot t w = false -> then_scans (p ++ sep ++ w) tl -> scans e t p (sep ++ w ++ tl).
Proof using.
  intros H Hsep Hw Hn Ht Hf Hh Hgo. destruct (go_on_ok _ _ Hgo Ht) as (n & G).
  exists (S n). intros fuel st r Hfuel Hs. destruct fuel as [|fuel]; [lia|].
  destruct (G fuel st r ltac:(lia) Hs) as (st' & r' & E). exists st', r'.
  rewrite expand_loop_word by done.
  rewrite (proj1 (first_word sep w tl _ Hsep Hw Hn Ht)), (not_hot_expansion t w) by done.
  replace (p ++ sep ++ w ++ replace_words (expansion t) tl)
    with ((p ++ sep ++ w) ++ replace_words (expansion t) tl) by by rewrite <- !app_assoc.
  replace (p ++ sep ++ w ++ tl) with ((p ++ sep ++ w) ++ tl) in * by by rewrite <- !app_assoc.
  rewrite <- E. destruct (expansion_shape _ _ w Hs) as (_ & Hh'). rewrite Hh in Hh'. unfold hot in Hh'.
  destruct (macro_find (macros st) w) as [i|] eqn:F; [|done].
  destruct (macro_find_Some _ _ _ F) as (m & Hm & Hnam). rewrite Hm in *. unfold eval_macro.
  rewrite Hh'. cbn [negb]. run. rewrite <- resume_ok by done. rewrite Hnam. do 2 f_equal.
  rewrite !length_app. lia.
Qed.

Definition cold (p : cstr) : Prop := Forall (fun w => hot t w = false) (words p).

Lemma nested_text p sep v tl i m :
  t !! i = Some m -> blue m = 0 -> ends_sep p -> cold p -> Forall (fun c => iswordpart c = false) sep ->
  Forall (fun u => macro_find t u = None) (words v) -> iswordpart (cur tl) = false ->
  replace_words (expansion (painted t i)) (p ++ sep ++ v ++ tl)
  = (p ++ sep ++ v) ++ replace_words (expansion (painted t i)) tl.
Proof using.
  intros Hm B Hp Hc Hsep Hv Ht.
  assert (forall q, cold q -> replace_words (expansion (painted t i)) q = q) as Hcold.
  { intros q Hq. apply replace_fixed. eapply Forall_impl; [exact Hq|]. intros u Hu.
    destruct (painted_cases t i m u Hm B) as [(-> & _)|(-> & _)]; [done|]. by apply not_hot_expansion. }
  rewrite replace_sep by done. rewrite replace_sep by (apply (ends_sep_app []); [by left|done]).
  rewrite !(Hcold p), (Hcold sep) by (done || (unfold cold; by rewrite words_seps)).
  rewrite <- !app_assoc. do 2 f_equal.
  assert (cold v) as Hv' by (eapply Forall_impl; [exact Hv|]; intros; by apply unknown_not_hot).
  destruct tl as [|c tl]; [by rewrite app_nil_r, Hcold, app_nil_r|].
  change (c :: tl) with ([] ++ c :: tl). rewrite (replace_cons _ []) by (done || constructor).
  cbn [app on_word]. by rewrite replace_app, Hcold.
Qed.

Lemma scans_hot p sep w tl i m v :
  clean (p ++ sep ++ w ++ tl) -> Forall (fun c => iswordpart c = false) sep -> is_word w -> w <> [] ->
  iswordpart (cur tl) = false -> word_find_any (sep ++ w ++ tl) = Ok (Some (w ++ tl)) ->
  macro_find t w = Some i -> t !! i = Some m -> blue m = 0 -> mty m = MACRO -> val m = Some v -> clean v ->
  Forall (fun u => macro_find t u = None) (words v) -> ends_sep p -> cold p ->
  scans e (painted t i) [] (p ++ sep ++ v ++ tl) ->
  then_scans (p ++ sep ++ v) (replace_words (expansion (painted t i)) tl) ->
  scans e t p (sep ++ w ++ tl).
Proof using t_plain.
  intros H Hsep Hw Hn Ht Hf F Hm B Hty Hv Hvc Hvw Hp Hc (n1 & N) Hgo.
  set (R := replace_words (expansion (painted t i)) tl) in *.
  assert (iswordpart (cur R) = false) as HR.
  { subst R. destruct tl as [|c tl]; [done|]. change (c :: tl) with ([] ++ c :: tl).
    by rewrite (replace_cons _ []) by (done || constructor). }
  destruct (go_on_ok _ _ Hgo HR) as (n2 & G).
  exists (S (n1 + n2)). intros fuel st r Hfuel Hs. destruct fuel as [|fuel]; [lia|].
  rewrite expand_loop_word by done.
  assert (macro_find (macros st) w = Some i) as ->
    by (by rewrite (macro_find_names _ _ w (same_shape_names _ _ Hs))).
  destruct (same_shape_lookup _ _ _ _ Hs Hm) as (m' & Hm' & Sm). rewrite Hm'. injection Sm as E1 E2 E3 _ E5.
  assert (nam m' = w) as Hnam by (rewrite E1; destruct (macro_find_Some _ _ _ F) as (? & ? & ?); congruence).
  assert (clean (p ++ sep ++ v ++ tl)) as Hcl by (rewrite !clean_app in *; tauto).
  destruct (buf_replace_ok (p ++ sep ++ w ++ tl) r v (length (p ++ sep)) (length (p ++ sep) + length w))
    as (r1 & Eb); [apply H|rewrite !length_app; lia|].
  assert (take (length (p ++ sep)) (p ++ sep ++ w ++ tl) ++ v ++
          drop (length (p ++ sep) + length w) (p ++ sep ++ w ++ tl) = p ++ sep ++ v ++ tl) as Ed.
  { rewrite <- length_app. replace (p ++ sep ++ w ++ tl) with ((p ++ sep) ++ w ++ tl) by by rewrite <- app_assoc.
    rewrite take_app_length, (app_assoc (p ++ sep) w tl), drop_app_length. by rewrite <- app_assoc. }
  rewrite Ed in Eb. assert (same_shape (painted t i) (painted (macros st) i)) as Hs1 by by apply painted_shape.
  destruct (N fuel (with_macros st (painted (macros st) i)) r1 ltac:(lia) Hs1) as (st2 & r2 & E).
  cbn [app length] in E. rewrite (nested_text p sep v tl i m) in E by done. fold R in E.
  rewrite (eval_macro_hot e _ i m' v _ _ _ _ _ _ Hm' ltac:(congruence) ltac:(congruence)
             ltac:(congruence) ltac:(rewrite Hnam; exact Eb) E) by (by apply expand_loop_shape in E).
  run. replace (length (p ++ sep) + length v)%nat with (length (p ++ sep ++ v)) by (rewrite !length_app; lia).
  rewrite resume_ok.
  - destruct (G fuel (with_macros st2 (macro_paint (macros st2) i (-1))) r2 ltac:(lia)) as (st' & r' & Eg).
    { apply expand_loop_shape in E. apply (same_shape_trans _ _ _ Hs). by apply unpainted_shape. }
    exists st', r'. rewrite Eg. do 3 f_equal. rewrite (proj1 (first_word sep w tl _ Hsep Hw Hn Ht)).
    subst R. rewrite (proj1 (plain_again _ _ _ tl t_plain Hm B)). rewrite <- !app_assoc. do 3 f_equal.
    unfold expansion. rewrite F, Hm, B. cbn. by rewrite Hv.
  - subst R. rewrite <- (nested_text p sep v tl i m) by done. apply clean_replace; [by apply painted_plain|done].
Qed.
End Plain.

Lemma hots_first t sep w tl :
  Forall (fun c => iswordpart c = false) sep -> is_word w -> w <> [] -> iswordpart (cur tl) = false ->
  hots t (sep ++ w ++ tl) = ((if hot t w then 1 else 0) + hots t tl)%nat.
Proof.
  intros Hsep Hw Hn Ht. unfold hots. rewrite (proj2 (first_word sep w tl id Hsep Hw Hn Ht)). cbn.
  by destruct (hot t w).
Qed.

Lemma scans_all e k : forall t, plain t -> (unpainted t <= k)%nat ->
  forall n l p s, (hots t s <= n)%nat -> (length s <= l)%nat ->
  clean (p ++ s) -> ends_sep p -> cold t p -> scans e t p s.
Proof.
  induction k as [k IHk] using lt_wf_ind. intros t Pt Hk. induction n as [n IHn] using lt_wf_ind.
  induction l as [l IHl] using lt_wf_ind. intros p s Hn Hl Hc He Hp.
  pose proof Hc as Hs. apply clean_app in Hs as (_ & Hs).
  destruct (clean_scan s Hs) as [[Hf Hw]|(sep & w & tl & -> & Hsep & Hw & Hne & Ht & Hf)]; [by apply scans_none|].
  rewrite hots_first in Hn by done.
  assert (forall c q, iswordpart c = false -> hots t (c :: q) = hots t q) as Hcons.
  { intros c q Hq. unfold hots. change (c :: q) with ([] ++ c :: q). by rewrite words_app. }
  assert (1 <= length w)%nat by (destruct w; simpl; [done|lia]).
  assert (forall q, ends_sep ((p ++ sep ++ q) ++ [cur tl])) as Hends by (intros; right; eauto).
  assert (forall q, words ((p ++ sep ++ q) ++ [cur tl]) = words p ++ words q) as Hwords.
  { intros q. rewrite words_app by done. change (words []) with (@nil cstr).
    assert (ends_sep sep) by (apply (ends_sep_app []); [by left|done]).
    by rewrite app_nil_r, (words_sep p), (words_sep sep), (words_seps sep). }
  destruct (hot t w) eqn:Hh.
  - pose proof Hh as Hh'. unfold hot in Hh'. destruct (macro_find t w) as [i|] eqn:F; [|done].
    destruct (t !! i) as [m|] eqn:Hm; [|done]. apply Z.eqb_eq in Hh' as B.
    pose proof Pt as Pt'. unfold plain in Pt'. rewrite Forall_lookup in Pt'.
    destruct (Pt' i m Hm) as (Hty & v & Hv & Hvc & Hvw).
    assert (clean (p ++ sep ++ v ++ tl)) as Hcl by (rewrite !clean_app in *; tauto).
    apply (scans_hot e t Pt p sep w tl i m v); try done.
    + apply (IHk (unpainted (painted t i))) with (n := hots (painted t i) (p ++ sep ++ v ++ tl))
        (l := length (p ++ sep ++ v ++ tl)); try done.
      * pose proof (painted_unpainted t i m Hm B). lia.
      * by apply painted_plain.
      * by left.
      * constructor.
    + destruct tl as [|c tl]; [done|]. change (c :: tl) with ([] ++ c :: tl).
      rewrite replace_cons by (done || constructor). cbn [on_word app then_scans].
      rewrite Hcons in Hn by done.
      apply (IHn (hots t (replace_words (expansion (painted t i)) tl))) with
        (l := length (replace_words (expansion (painted t i)) tl)); try done.
      * pose proof (proj2 (plain_again t i m tl Pt Hm B)). lia.
      * assert (clean (replace_words (expansion (painted t i)) tl)).
        { apply clean_replace; [by apply painted_plain|]. change (c :: tl) with ([c] ++ tl) in Hcl.
          rewrite !clean_app in Hcl. tauto. }
        change (c :: tl) with ([c] ++ tl) in Hcl. rewrite !clean_app in *. tauto.
      * unfold cold. cbn [cur] in Hwords. rewrite Hwords. apply Forall_app. split; [done|].
        eapply Forall_impl; [exact Hvw|]. intros; by apply unknown_not_hot.
  - apply scans_cold; try done. destruct tl as [|c tl]; [done|]. cbn [then_scans]. rewrite Hcons in Hn by done.
    apply (IHl (length tl)); try done.
    + rewrite !length_app in Hl. simpl in Hl. lia.
    + rewrite <- !app_assoc. exact Hc.
    + unfold cold. cbn [cur] in Hwords. rewrite Hwords, (words_word w) by done. apply Forall_app. split; [done|].
      destruct w; [done|]. by constructor.
Qed.

(** ** Properties *)

(** C27: in a text without quotes, when every macro is object-like with a value
    that has no quotes and names no macro, expansion comes to an end and
    replaces exactly the words that name an unpainted macro, each by the
    macro's value, whatever re-scanning goes on meanwhile. *)
Theorem expand_plain_values (e : env) (st : estate) (s : cstr) :
  plain (macros st) -> clean s ->
  exists n, forall fuel, (n <= fuel)%nat ->
  exists st', eval_expand_macros e fuel st s = Ok (st', replace_words (expansion (macros st)) s).
Proof.
  intros P C.
  destruct (scans_all e (unpainted (macros st)) (macros st) P ltac:(lia) (hots (macros st) s) (length s) [] s)
    as (n & N); try done; [by left|constructor|].
  exists n. intros fuel Hf. destruct (N fuel st [] Hf eq_refl) as (st' & r' & E).
  exists st'. unfold eval_expand_macros. cbn [app length] in E. rewrite E. run.
  rewrite c_str_at_ok; [done| |lia]. by apply (clean_replace _ _ P C).
Qed.

Lemma expand_plain_values_witness :
  exists n, forall fuel, (n <= fuel)%nat ->
  exists st', eval_expand_macros env0 fuel {| macros := [obj "A" "1 + x"]; counter := 0 |} (str "A*(B-A)")
              = Ok (st', str "1 + x*(B-1 + x)").
Proof.
  apply (expand_plain_values env0 {| macros := [obj "A" "1 + x"]; counter := 0 |} (str "A*(B-A)")).
  - constructor; [|constructor]. split; [done|]. exists (str "1 + x"). split; [done|].
    split; [by_decide|]. repeat constructor.
  - by_decide.
Defined.

(** C28: expanding a line, arguments, pasting and re-scanning included, leaves the
    macro table as it was but for the use counts: no macro is added, removed,
    redefined or left painted. *)
Theorem expand_keeps_table (e : env) (fuel : nat) (st st' : estate) (s out : cstr) :
  eval_expand_macros e fuel st s = Ok (st', out) ->
  map shape (macros st') = map shape (macros st).
Proof.
  unfold eval_expand_macros. intros ([st1 b] & H & (? & _ & [= <- _])%bind_Ok)%bind_Ok.
  by apply expand_loop_shape in H.
Qed.

Lemma expand_keeps_table_witness :
  exists st', eval_expand_macros env0 40 {| macros := [fn "F" ["x"] "G(x)"; fn "G" ["x"] "x+5"]; counter := 0 |} (str "F(G(1))")
              = Ok (st', str "1+5+5") /\ map blue (macros st') = [0; 0] /\ map use_cnt (macros st') <> [0; 0].
Proof.
  destruct (eval_expand_macros env0 40 {| macros := [fn "F" ["x"] "G(x)"; fn "G" ["x"] "x+5"]; counter := 0 |} (str "F(G(1))"))
    as [[st' out]| | | |] eqn:E; try (vm_compute in E; discriminate E).
  exists st'. pose proof (expand_keeps_table _ _ _ _ _ _ E) as K. vm_compute in E. injection E as <- <-.
  split; [reflexivity|]. split; [reflexivity|discriminate].
Defined.

(** The text behind a word that a string literal follows is scanned as if it
    were outside the literal; a macro in it makes the check for a closing quote
    fail. *)
Example adjacent_literal :
  try_ [obj "A" "x"; obj "B" "y"] (string_of_list_ascii (str "A" ++ [dquote] ++ str "B" ++ [dquote] ++ str " B"))
  = Ice "no matching quote".
Proof. reflexivity. Qed.

(** Re-scanning the whole line forgets which words a macro's own expansion has
    left: the second [B] depends on the first [A]. *)
Example repaint : try_ [obj "A" "B + 1"; obj "B" "(A)"] "x A; B" = Ok "x (A) + 1; ((A) + 1)" /\
                  try_ [obj "A" "B + 1"; obj "B" "(A)"] "B" = Ok "(B + 1)".
Proof. split; reflexivity. Qed.

(** The name of a function-like macro that is not called is left from its second
    character on. *)
Example inside_name : try_ [fn "AB" ["x"] "x"; obj "B" "5"] "AB;" = Ok "A5;".
Proof. reflexivity. Qed.

Example paste_number : try_ [fn "F" ["x"] "x##1"] "F(a)" = Die "can't join or quote a none-word".
Proof. reflexivity. Qed.

Example literal_paren :
  try_ [fn "F" ["x"] "x"] (string_of_list_ascii (str "F(" ++ [squote] ++ str ")" ++ [squote] ++ str ")"))
  = Ice "no matching quote".
Proof. reflexivity. Qed.
