(* ===== verification/CppLine.v ===== *)
(** * Lines before macro expansion

    The translation phases of [src/src/cpp2/preproc.c] that work on a line of
    text alone: trigraphs, digraphs and comments; [fline] of
    [src/src/util/io.c] and [udirname] of [src/src/util/util.c]. *)

From S2P Require Import Prelude CStr CppTok CppHas.
Open Scope Z_scope.

(** ** util/io.c, util/util.c *)

(** What a C string routine sees of a line: it stops at a NUL. *)
Fixpoint c_text (s : cstr) : cstr :=
  match s with
  | [] => []
  | c :: s => if c =c NUL then [] else c :: c_text s
  end.

Fixpoint line_cut (s : cstr) : cstr * bool * cstr :=
  match s with
  | [] => ([], false, [])
  | c :: s => if c =c newline then ([], true, s) else let '(l, nl, r) := line_cut s in (c :: l, nl, r)
  end.

(** The line, [*newline] and the rest of the stream; NULL at its end. *)
Definition fline (f : cstr) : option (cstr * bool * cstr) :=
  match f with
  | [] => None
  | _ => let '(l, nl, r) := line_cut f in Some (c_text l, nl, r)
  end.

(** [strrchr(s, c)], as an offset. *)
Fixpoint strrchr (s : cstr) (c : ascii) : option nat :=
  match s with
  | [] => None
  | d :: s => match strrchr s c with Some i => Some (S i) | None => if d =c c then Some O else None end
  end.

Definition udirname (f : cstr) : cstr :=
  match strrchr f "/"%char with Some i => take i f | None => str "./" end.

(** ** Trigraphs and digraphs *)

Definition trigraph_map : list (ascii * ascii) :=
  [("("%char, "["%char); (")"%char, "]"%char); ("<"%char, "{"%char); (">"%char, "}"%char); ("="%char, "#"%char);
   ("/"%char, bslash); (squote, "^"%char); ("!"%char, "|"%char); ("-"%char, "~"%char)].

Fixpoint map_find (m : list (ascii * ascii)) (c : ascii) : option ascii :=
  match m with
  | [] => None
  | (from, to) :: m => if from =c c then Some to else map_find m c
  end.

(** The loop from [anchor]: [strstr] for two question marks, and on from the
    character after the first or after its replacement. *)
Fixpoint trigraph_scan (s : cstr) : cstr :=
  match s with
  | [] => []
  | q :: s1 =>
      if (q =c "?"%char) && (cur s1 =c "?"%char) then
        match s1 with
        | q2 :: c :: s3 =>
            match map_find trigraph_map c with
            | Some to => to :: trigraph_scan s3
            | None => q :: trigraph_scan s1
            end
        | _ => q :: trigraph_scan s1
        end
      else q :: trigraph_scan s1
  end.

Definition expand_trigraphs (line : cstr) : cstr := trigraph_scan line.

Definition digraph_map : list (cstr * ascii) :=
  [(str "<:", "["%char); (str ":>", "]"%char); (str "<%", "{"%char); (str "%>", "}"%char); (str "%:", "#"%char)].

(** One row of the map. [pos] stays on the replacement, which starts no
    further match. *)
Fixpoint digraph_row (a b to : ascii) (s : cstr) : cstr :=
  match s with
  | c :: ((d :: s2) as s1) =>
      if (c =c a) && (d =c b) then to :: digraph_row a b to s2 else c :: digraph_row a b to s1
  | _ => s
  end.

Definition expand_digraphs (line : cstr) : cstr :=
  foldl (fun line '(from, to) => digraph_row (at_ from 0) (at_ from 1) to line) line digraph_map.

(** ** Comments *)

Inductive block_state := NOT_IN_BLOCK | IN_BLOCK_BEGIN | IN_BLOCK_END | IN_BLOCK_FULL.
Inductive comment_strip := STRIP_ALL | STRIP_EXCEPT_DIRECTIVE | STRIP_NONE.

#[global] Instance block_state_eq_dec : EqDecision block_state.
Proof. solve_decision. Defined.
#[global] Instance comment_strip_eq_dec : EqDecision comment_strip.
Proof. solve_decision. Defined.

Definition in_block (b : block_state) : bool :=
  match b with IN_BLOCK_FULL | IN_BLOCK_BEGIN => true | _ => false end.

Section Strip.
Context (std : c_std) (strip : comment_strip) (is_directive : bool).

(** The loop from [s]: the text from there, and the state. *)
Fixpoint strip_loop (fuel : nat) (b : block_state) (s : cstr) : res (cstr * block_state) :=
  match fuel with
  | O => NoFuel
  | S fuel =>
      match s with
      | [] => Ok ([], b)
      | c :: r =>
          let keep (c : ascii) (x : res (cstr * block_state)) :=
            '(t, b) ← x; Ok (c :: t, b) in
          let clear := bool_decide (strip = STRIP_ALL) in
          if in_block b then
            if (c =c "*"%char) && (cur r =c "/"%char) then
              if clear then keep " "%char (keep " "%char (strip_loop fuel IN_BLOCK_END (drop 1 r)))
              else keep c (strip_loop fuel IN_BLOCK_END r)
            else keep (if clear then " "%char else c) (strip_loop fuel b r)
          else if (c =c dquote) || (c =c squote) then
            e ← str_quotefin2 r c;
            match e with
            | None => Ok (s, b)
            | Some e =>
                '(t, b) ← strip_loop fuel b (drop 1 e);
                Ok (take (length s - length e + 1) s ++ t, b)
            end
          else if c =c "/"%char then
            if (std_rank STD_C99 <=? std_rank std)%nat && (cur r =c "/"%char) then
              match strip with
              | STRIP_ALL => Ok ([], b)
              | STRIP_EXCEPT_DIRECTIVE => if is_directive then Ok ([], b) else Ok (c :: "*"%char :: drop 1 r ++ str "*/", b)
              | STRIP_NONE => Ok (c :: "*"%char :: drop 1 r ++ str "*/", b)
              end
            else if cur r =c "*"%char then
              if clear || (is_directive && bool_decide (strip = STRIP_EXCEPT_DIRECTIVE))
              then keep " "%char (keep " "%char (strip_loop fuel IN_BLOCK_BEGIN (drop 1 r)))
              else keep c (strip_loop fuel IN_BLOCK_BEGIN r)
            else keep c (strip_loop fuel b r)
          else keep c (strip_loop fuel b r)
      end
  end.
End Strip.

(** The line and the new [strip_in_block]. *)
Definition strip_comment (std : c_std) (strip : comment_strip) (b : block_state) (line : cstr)
  : res (cstr * block_state) :=
  let is_directive := cur (str_spc_skip line) =c "#"%char in
  let b := match b with IN_BLOCK_BEGIN => IN_BLOCK_FULL | IN_BLOCK_END => NOT_IN_BLOCK | b => b end in
  strip_loop std strip is_directive (S (length line)) b line.

Example strip_ex :
  strip_comment STD_C99 STRIP_ALL NOT_IN_BLOCK (str "a /* b */ c / d // e") = Ok (str "a         c / d ", IN_BLOCK_END).
Proof. reflexivity. Qed.

(** With comments kept, the slash that closes one comment opens another. *)
Example strip_reopen :
  strip_comment STD_C99 STRIP_NONE NOT_IN_BLOCK (str "/* b */* c") = Ok (str "/* b */* c", IN_BLOCK_BEGIN).
Proof. reflexivity. Qed.

Example strip_keep_slash :
  strip_comment STD_C99 STRIP_NONE NOT_IN_BLOCK (str "/*/ a") = Ok (str "/*/ a", IN_BLOCK_END).
Proof. reflexivity. Qed.

(** A line comment that holds a comment's end is cut short by the conversion. *)
Example strip_convert :
  strip_comment STD_C99 STRIP_NONE NOT_IN_BLOCK (str "// a */ b") = Ok (str "/* a */ b*/", NOT_IN_BLOCK).
Proof. reflexivity. Qed.

Example digraph_order : expand_digraphs (str "%:>") = str "%]".
Proof. reflexivity. Qed.

Example trigraph_ex : expand_trigraphs (str "???=define ??/ ??x") = str "?#define \ ??x".
Proof. reflexivity. Qed.

(** ** Lemmas *)

Lemma strip_loop_fuel std strip d n m b s :
  (length s < n)%nat -> (length s < m)%nat -> strip_loop std strip d n b s = strip_loop std strip d m b s.
Proof.
  revert m b s. induction n as [|n IH]; intros m b s Hn Hm; [lia|]. destruct m as [|m]; [lia|].
  destruct s as [|c r]; [done|]. cbn [length] in *. cbn [strip_loop].
  assert (length (drop 1 r) <= length r)%nat by (rewrite length_drop; lia).
  repeat match goal with |- context [strip_loop _ _ _ n ?b ?x] =>
    rewrite (IH m b x) by (first [lia | idtac]) end.
  destruct (in_block b); [done|]. destruct (_ || _); [|done].
  destruct (str_quotefin2 r c) as [[e|]| | | |] eqn:E; try done. run.
  pose proof (str_quotefin2_length _ _ _ E). rewrite (IH m) by (rewrite length_drop; lia). done.
Qed.

(** ** What a line is made of *)

Inductive piece :=
  | Code (a : cstr)             (** neither quotes nor slashes *)
  | Slash                       (** one that begins no comment *)
  | Literal (q : ascii) (s : cstr)
  | Comment (s : cstr).

(** How a line ends: outside comments, in a line comment, or in a comment that
    a later line closes. *)
Inductive ending := Plain | Line (s : cstr) | Unclosed (s : cstr).

Definition piece_text (p : piece) : cstr :=
  match p with
  | Code a => a
  | Slash => str "/"
  | Literal q s => q :: s ++ [q]
  | Comment s => str "/*" ++ s ++ str "*/"
  end.

Definition ending_text (e : ending) : cstr :=
  match e with Plain => [] | Line s => str "//" ++ s | Unclosed s => str "/*" ++ s end.

Definition line_text (ps : list piece) (e : ending) : cstr := concat (map piece_text ps) ++ ending_text e.

Definition spaces (n : nat) : cstr := replicate n " "%char.

(** The line without its comments, column by column. *)
Definition piece_blank (p : piece) : cstr :=
  match p with Comment s => spaces (length s + 4) | p => piece_text p end.

Definition ending_blank (e : ending) : cstr :=
  match e with Unclosed s => spaces (length s + 2) | _ => [] end.

Definition uncomment (ps : list piece) (e : ending) : cstr := concat (map piece_blank ps) ++ ending_blank e.

Definition is_comment (p : piece) : bool := match p with Comment _ => true | _ => false end.

(** [strip_in_block] after the line. *)
Definition line_state (ps : list piece) (e : ending) : block_state :=
  match e with
  | Unclosed _ => IN_BLOCK_BEGIN
  | _ => if existsb is_comment ps then IN_BLOCK_END else NOT_IN_BLOCK
  end.

Definition no_close (s : cstr) : Prop := forall u v, s <> u ++ str "*/" ++ v.

Definition code_char (c : ascii) : bool := negb ((c =c dquote) || (c =c squote) || (c =c "/"%char)).

Definition piece_ok (p : piece) (next : cstr) : Prop :=
  match p with
  | Code a => Forall (fun c => code_char c = true) a
  | Slash => (cur next =c "/"%char) || (cur next =c "*"%char) = false
  | Literal q s => (q = dquote \/ q = squote) /\ str_quotefin2 (s ++ [q]) q = Ok (Some [q])
  | Comment s => no_close s
  end.

Fixpoint line_ok (ps : list piece) (e : ending) : Prop :=
  match ps with
  | [] => match e with Unclosed s => no_close s | _ => True end
  | p :: ps => piece_ok p (line_text ps e) /\ line_ok ps e
  end.

Lemma no_close_tail c s : no_close (c :: s) -> no_close s.
Proof. intros H u v ->. by apply (H (c :: u) v). Qed.

Section Pieces.
Context (std : c_std) (d : bool).

Abbreviation go b s := (strip_loop std STRIP_ALL d (S (length s)) b s).

Lemma go_step n b s : (length s < n)%nat -> strip_loop std STRIP_ALL d n b s = go b s.
Proof using. intros H. by apply strip_loop_fuel; [|lia]. Qed.

(** One character of [strip_loop]. *)
Lemma strip_cons n b c r :
  strip_loop std STRIP_ALL d (S n) b (c :: r) =
  ltac:(let t := eval cbn [strip_loop] in (strip_loop std STRIP_ALL d (S n) b (c :: r)) in exact t).
Proof using. reflexivity. Qed.

Ltac strip_step := cbn [length]; rewrite strip_cons.

Definition outside (b : block_state) : Prop := in_block b = false.

Lemma go_code a s b :
  outside b -> Forall (fun c => code_char c = true) a ->
  go b (a ++ s) = ('(t, b) ← go b s; Ok (a ++ t, b)).
Proof using.
  intros Hb. induction 1 as [|c a Hc Ha IH]; [cbn [app]; by destruct (go b s) as [[? ?]| | | |]|].
  cbn [app]. strip_step. rewrite Hb. unfold code_char in Hc.
  apply negb_true_iff, orb_false_iff in Hc as [Hc Hs]. rewrite Hc, Hs. rewrite IH.
  by destruct (go b s) as [[? ?]| | | |].
Qed.

Lemma go_slash s b :
  outside b -> (cur s =c "/"%char) || (cur s =c "*"%char) = false ->
  go b ("/"%char :: s) = ('(t, b) ← go b s; Ok ("/"%char :: t, b)).
Proof using.
  intros Hb [H1 H2]%orb_false_iff. strip_step. rewrite Hb, H1, H2.
  rewrite andb_false_r. done.
Qed.

Lemma go_literal q x s b :
  outside b -> (q = dquote \/ q = squote) -> str_quotefin2 (x ++ [q]) q = Ok (Some [q]) ->
  go b (q :: x ++ q :: s) = ('(t, b) ← go b s; Ok (q :: x ++ q :: t, b)).
Proof using.
  intros Hb Hq Hf. assert ((q =c dquote) || (q =c squote) = true) as Hq' by (by destruct Hq as [->| ->]).
  cbn [length]. rewrite strip_cons, Hb, Hq'.
  rewrite (quotefin_local _ x [] s q eq_refl Hf). run. change (drop 1 (q :: s)) with s.
  rewrite (go_step (S (length (x ++ q :: s))) b s) by (rewrite length_app; simpl; lia).
  destruct (go b s) as [[t b']| | | |]; [|done..]. run. do 2 f_equal.
  replace (_ + 1)%nat with (length (q :: x ++ [q])) by (simpl; rewrite !length_app; simpl; lia).
  change (q :: x ++ q :: s) with ((q :: x) ++ [q] ++ s). rewrite app_assoc.
  change (q :: x ++ [q]) with ((q :: x) ++ [q]). rewrite take_app_length. simpl. by rewrite <- app_assoc.
Qed.

Lemma go_in_block x s b :
  in_block b = true -> no_close x -> (cur s =c "/"%char) = false ->
  go b (x ++ s) = ('(t, b) ← go b s; Ok (spaces (length x) ++ t, b)).
Proof using.
  intros Hb. induction x as [|c x IH]; intros Hx Hs; [cbn [app length spaces replicate]; by destruct (go b s) as [[? ?]| | | |]|].
  cbn [app]. strip_step. rewrite Hb. cbn [bool_decide decide_rel].
  assert ((c =c "*"%char) && (cur (x ++ s) =c "/"%char) = false) as ->.
  { apply andb_false_iff. destruct (c =c "*"%char) eqn:E; [|by left]. right. apply eqc_true in E as ->.
    destruct x as [|y x]; [done|]. apply eqc_false. simpl. intros ->. by apply (Hx [] x). }
  rewrite bool_decide_true by done. rewrite IH by (by eauto using no_close_tail).
  by destruct (go b s) as [[? ?]| | | |].
Qed.

Lemma go_close s b :
  in_block b = true -> go b ("*"%char :: "/"%char :: s) = ('(t, b) ← go IN_BLOCK_END s; Ok (" "%char :: " "%char :: t, b)).
Proof using.
  intros Hb. strip_step. rewrite Hb. change (drop 1 ("/"%char :: s)) with s. cbn [cur]. rewrite bool_decide_true by done.
  cbn [Ascii.eqb Bool.eqb andb]. rewrite (go_step (S (S (length s))) IN_BLOCK_END s) by lia. by destruct (go _ s) as [[? ?]| | | |].
Qed.

Lemma go_open s b :
  outside b -> go b ("/"%char :: "*"%char :: s) = ('(t, b) ← go IN_BLOCK_BEGIN s; Ok (" "%char :: " "%char :: t, b)).
Proof using.
  intros Hb. strip_step. rewrite Hb. change (drop 1 ("*"%char :: s)) with s. cbn [cur]. rewrite bool_decide_true by done.
  cbn [Ascii.eqb Bool.eqb andb orb dquote squote]. rewrite andb_false_r.
  rewrite (go_step (S (S (length s))) IN_BLOCK_BEGIN s) by lia. by destruct (go _ s) as [[? ?]| | | |].
Qed.

Lemma go_comment x s b :
  outside b -> no_close x ->
  go b (piece_text (Comment x) ++ s) = ('(t, b) ← go IN_BLOCK_END s; Ok (spaces (length x + 4) ++ t, b)).
Proof using.
  intros Hb Hx. unfold piece_text. rewrite <- !app_assoc. cbn [str list_ascii_of_string app].
  rewrite go_open, go_in_block, go_close by done. destruct (go _ s) as [[t b']| | | |]; [|done..]. run.
  do 2 f_equal. replace (length x + 4)%nat with (2 + (length x + 2))%nat by lia. unfold spaces.
  rewrite !replicate_add, <- !app_assoc. done.
Qed.

(** The state [b] is left by pieces without comments. *)
Definition state_after (b : block_state) (ps : list piece) : block_state :=
  if existsb is_comment ps then IN_BLOCK_END else b.

Lemma go_ending b e :
  (std_rank STD_C99 <= std_rank std)%nat -> outside b -> line_ok [] e ->
  go b (ending_text e) = Ok (ending_blank e, match e with Unclosed _ => IN_BLOCK_BEGIN | _ => b end).
Proof using.
  intros H99 Hb He. destruct e as [|x|x]; cbn [ending_text str list_ascii_of_string app]; [done| |].
  - strip_step. rewrite Hb, (proj2 (Nat.leb_le _ _) H99). done.
  - rewrite go_open by done. rewrite <- (app_nil_r x) at 1 2. rewrite go_in_block by done.
    cbn [strip_loop length]. run. cbn [ending_blank]. by rewrite Nat.add_comm, app_nil_r.
Qed.

Lemma go_pieces b ps e :
  (std_rank STD_C99 <= std_rank std)%nat -> outside b -> line_ok ps e ->
  go b (line_text ps e)
  = Ok (uncomment ps e, match e with Unclosed _ => IN_BLOCK_BEGIN | _ => state_after b ps end).
Proof using.
  intros H99. revert b. induction ps as [|p ps IH]; intros b Hb; [intros He; by apply go_ending|].
  intros [Hp Hps]. unfold line_text, uncomment, state_after. cbn [map concat existsb].
  rewrite <- !app_assoc. fold (line_text ps e) (uncomment ps e).
  destruct p as [a| |q x|x]; cbn [is_comment orb piece_blank piece_ok] in *.
  - cbn [piece_text]. rewrite go_code, IH by done. done.
  - cbn [piece_text str list_ascii_of_string app]. rewrite go_slash, IH by done. done.
  - destruct Hp as [Hq Hf]. cbn [piece_text app]. rewrite <- !app_assoc. cbn [app].
    rewrite go_literal, IH by done. done.
  - rewrite go_comment, IH by done. run. unfold state_after. by destruct (existsb _ _), e.
Qed.
End Pieces.

(** ** Properties *)

(** C35: under C99 or later, where line comments exist, and with all comments
    stripped, a line, read as code, literals, block comments and perhaps a line
    comment or the start of a block comment, comes out with every block comment
    blanked column by column, everything else in place and the line comment cut
    off; comment openers in literals are left alone, and [strip_in_block] says
    whether a comment is still open. *)
Theorem strip_comment_blanks (std : c_std) (ps : list piece) (e : ending) :
  (std_rank STD_C99 <= std_rank std)%nat -> line_ok ps e ->
  strip_comment std STRIP_ALL NOT_IN_BLOCK (line_text ps e) = Ok (uncomment ps e, line_state ps e).
Proof.
  intros H99 Hok. unfold strip_comment. rewrite go_pieces by done.
  by destruct e.
Qed.

Lemma strip_comment_blanks_witness :
  strip_comment STD_C99 STRIP_ALL NOT_IN_BLOCK (str "x = '//' / 2 /* a * b */ + 1; // rest")
  = Ok (str "x = '//' / 2             + 1; ", IN_BLOCK_END).
Proof.
  apply (strip_comment_blanks STD_C99
    [Code (str "x = "); Literal squote (str "//"); Code (str " "); Slash; Code (str " 2 ");
     Comment (str " a * b "); Code (str " + 1; ")] (Line (str " rest"))).
  - by_decide.
  - repeat split; try (by_decide || (right; reflexivity) || (left; reflexivity)); try (repeat constructor).
    intros u v. do 9 (destruct u as [|? u]; [discriminate|]). intros E. apply (f_equal length) in E.
    rewrite !length_app in E. simpl in E. lia.
Defined.
