(* ===== verification/CppDirective.v ===== *)
(** * Directives and the preprocessor's run

    [src/src/cpp2/directive.c], and the file stack, line splicing and main loop
    of [src/src/cpp2/preproc.c]. Diagnostics that do not stop the run, and
    where the conditional directives were, are left out. *)

From S2P Require Import Prelude CStr Arith Escape Libc CppExpr CppTok CppMacro CppHas CppEval CppLine Path.
Open Scope Z_scope.

(** ** State *)

(** Options, clock and files, which do not change. *)
Record options : Type := mk_options {
  o_std : c_std;
  strip_comments : comment_strip;
  option_trigraphs : bool;
  option_digraphs : bool;
  option_line_info : bool;
  missing_header_error : bool;
  o_inc_path : include_path;
  o_files : cstr -> opened;
  contents : cstr -> cstr;
  o_date : cstr;
  o_time : cstr;
  o_timestamp : cstr;
  o_basefile : cstr;
  eval_fuel : nat
}.

Inductive if_elif_state := NO_TRUTH | GOT_TRUTH | LAST_ELSE.

#[global] Instance if_elif_state_eq_dec : EqDecision if_elif_state.
Proof. solve_decision. Defined.

Record frame : Type := mk_frame { if_chosen : if_elif_state; f_noop : bool }.

(** The innermost frame is first; [if_idx] is the length. *)
Record ifs : Type := mk_ifs { if_stack : list frame; noop : bool; if_elif_chosen : if_elif_state }.

Record file_stack_entry : Type := mk_file { file : cstr; fname : cstr; line_no : Z; is_sysh : bool }.

(** Innermost first for the two stacks; [out] is what was printed. *)
Record world : Type := mk_world {
  est : estate;
  file_stack : list file_stack_entry;
  cur_fname : cstr;
  cur_line : Z;
  cd_stack : list cstr;
  strip_in_block : block_state;
  n_nls : nat;
  no_output : bool;
  depset : gset cstr;
  out : cstr
}.

Record pp : Type := mk_pp { w : world; ifstate : ifs }.

Definition set_est (s : pp) (e : estate) : pp :=
  let w := w s in
  {| w := mk_world e (file_stack w) (cur_fname w) (cur_line w) (cd_stack w) (strip_in_block w) (n_nls w)
            (no_output w) (depset w) (out w);
     ifstate := ifstate s |}.

Definition set_ifs (s : pp) (i : ifs) : pp := {| w := w s; ifstate := i |}.

Definition put (x : cstr) (wd : world) : world :=
  mk_world (est wd) (file_stack wd) (cur_fname wd) (cur_line wd) (cd_stack wd) (strip_in_block wd) (n_nls wd)
    (no_output wd) (depset wd) (out wd ++ x).

Definition set_where (n : cstr) (l : Z) (wd : world) : world :=
  mk_world (est wd) (file_stack wd) n l (cd_stack wd) (strip_in_block wd) (n_nls wd)
    (no_output wd) (depset wd) (out wd).

Definition set_files (fs : list file_stack_entry) (cds : list cstr) (wd : world) : world :=
  mk_world (est wd) fs (cur_fname wd) (cur_line wd) cds (strip_in_block wd) (n_nls wd)
    (no_output wd) (depset wd) (out wd).

Definition add_dep (d : cstr) (wd : world) : world :=
  mk_world (est wd) (file_stack wd) (cur_fname wd) (cur_line wd) (cd_stack wd) (strip_in_block wd) (n_nls wd)
    (no_output wd) ({[d]} ∪ depset wd) (out wd).

Definition set_block (b : block_state) (wd : world) : world :=
  mk_world (est wd) (file_stack wd) (cur_fname wd) (cur_line wd) (cd_stack wd) b (n_nls wd)
    (no_output wd) (depset wd) (out wd).

Definition set_nls (n : nat) (wd : world) : world :=
  mk_world (est wd) (file_stack wd) (cur_fname wd) (cur_line wd) (cd_stack wd) (strip_in_block wd) n
    (no_output wd) (depset wd) (out wd).

Definition set_no_output (b : bool) (wd : world) : world :=
  mk_world (est wd) (file_stack wd) (cur_fname wd) (cur_line wd) (cd_stack wd) (strip_in_block wd) (n_nls wd)
    b (depset wd) (out wd).

Definition upd (f : world -> world) (s : pp) : pp := {| w := f (w s); ifstate := ifstate s |}.

Section Run.
Variable o : options.

(** What expansion sees. *)
Definition env_of (wd : world) : env :=
  {| current_fname := cur_fname wd; current_line := cur_line wd; cpp_date := o_date o; cpp_time := o_time o;
     cpp_timestamp := o_timestamp o; cpp_basefile := o_basefile o; cpp_std := o_std o;
     curdir := default [] (head (cd_stack wd)); inc_path := o_inc_path o; files := o_files o |}.

Definition macros_of (s : pp) : table := macros (est (w s)).

Definition set_macros (s : pp) (t : table) : pp := set_est s (with_macros (est (w s)) t).

(** ** preproc.c: output and the file stack *)

Definition LINEINFO_START_OF_FILE : Z := 2.
Definition LINEINFO_RETURN_TO_FILE : Z := 4.
Definition LINEINFO_SYSHEADER : Z := 8.

(** The [while]: at most as many rounds as the word has bits. *)
Fixpoint lineinfo_bits (fuel : nat) (bits : Z) : res cstr :=
  match fuel with
  | O => NoFuel
  | S fuel =>
      if bits =? 0 then Ok []
      else
        let '(bit, bits) := extractbottombit bits in
        n ← log2i bit;
        r ← lineinfo_bits fuel bits;
        Ok (str " " ++ decimal n ++ r)
  end.

Definition preproc_emit_line_info (lineno : Z) (fn : cstr) (lineinfo : Z) (wd : world) : res world :=
  if no_output wd || negb (option_line_info o) then Ok wd
  else
    bits ← lineinfo_bits 33 lineinfo;
    Ok (put (str "# " ++ decimal lineno ++ str " " ++ [dquote] ++ fn ++ [dquote] ++ bits ++ [newline]) wd).

Definition preproc_emit_line_info_top (lineinfo : Z) (wd : world) : res world :=
  match file_stack wd with
  | [] => Ub "empty file stack"
  | f :: _ =>
      preproc_emit_line_info (line_no f) (fname f)
        (Z.lor lineinfo (if is_sysh f then LINEINFO_SYSHEADER else 0)) wd
  end.

Definition preproc_in_include (wd : world) : Z := if (1 <? length (file_stack wd))%nat then 1 else 0.

Definition FILE_STACK_MAX : nat := 64.

Definition save_line (wd : world) : list file_stack_entry :=
  match file_stack wd with
  | [] => []
  | f :: fs => mk_file (file f) (fname f) (cur_line wd) (is_sysh f) :: fs
  end.

Definition preproc_push (f : cstr) (fn : cstr) (sysh : bool) (wd : world) : res world :=
  let fs := save_line wd in
  if (length fs =? FILE_STACK_MAX)%nat then Die "too many includes"
  else
    preproc_emit_line_info_top LINEINFO_START_OF_FILE
      (set_where fn 1 (set_files (mk_file f fn 1 sysh :: fs) (cd_stack wd) wd)).

Definition preproc_pop (wd : world) : res world :=
  match file_stack wd with
  | _ :: ((f :: _) as fs) =>
      preproc_emit_line_info_top LINEINFO_RETURN_TO_FILE
        (set_where (fname f) (line_no f) (set_files fs (cd_stack wd) wd))
  | _ => Ice "file stack idx = 0 on pop()"
  end.

(** ** directive.c: conditional groups *)

Definition parse_should_noop (i : ifs) : bool := noop i || existsb f_noop (if_stack i).

Definition N_IFSTACK : nat := 64.

Definition if_push (i : ifs) (is_true : bool) : res ifs :=
  let st := {| if_chosen := if_elif_chosen i; f_noop := noop i |} :: if_stack i in
  if (length st =? N_IFSTACK)%nat then Die "ifdef stack exceeded"
  else Ok {| if_stack := st; noop := negb is_true; if_elif_chosen := if is_true then GOT_TRUTH else NO_TRUTH |}.

Definition if_pop (i : ifs) : res ifs :=
  match if_stack i with
  | [] => Ice "if_idx == 0 on if_pop()"
  | f :: st => Ok {| if_stack := st; noop := f_noop f; if_elif_chosen := if_chosen f |}
  end.

Definition push (s : pp) (b : bool) : res pp := i ← if_push (ifstate s) b; Ok (set_ifs s i).

(** [SINGLE_TOKEN]: the word. *)
Definition SINGLE_TOKEN (tokens : list token) : res cstr :=
  let tokens := tokens_skip_whitespace tokens in
  if negb (tokens_count_skip_spc tokens =? 1)%nat then Die "single token expected"
  else
    match tokens with
    | [] => Ub "NULL token"
    | t :: _ =>
        match tok t, CppTok.w t with
        | TOKEN_WORD, Some x => Ok x
        | TOKEN_WORD, None => Ub "NULL word"
        | _, _ => Die "single token expected"
        end
    end.

Definition handle_somedef (s : pp) (tokens : list token) (rev : bool) : res pp :=
  x ← SINGLE_TOKEN tokens;
  if noop (ifstate s) then push s false
  else push s (xorb rev (match macro_find (macros_of s) x with Some _ => true | None => false end)).

Definition handle_ifdef (s : pp) (tokens : list token) : res pp := handle_somedef s tokens false.
Definition handle_ifndef (s : pp) (tokens : list token) : res pp := handle_somedef s tokens true.

(** The filtering loop of [if_eval]. *)
Fixpoint filter_loop (fuel : nat) (e : env) (st : estate) (x : cstr) : res (estate * cstr) :=
  match fuel with
  | O => NoFuel
  | S fuel =>
      '(st, x) ← eval_expand_defined st x;
      '(st, x) ← eval_expand_has_include e (eval_fuel o) st x;
      '(st, x) ← eval_expand_macros e (eval_fuel o) st x;
      d ← word_find x DEFINED_STR;
      match d with Some _ => filter_loop fuel e st x | None => Ok (st, x) end
  end.

Definition if_eval (s : pp) (tokens : list token) : res (pp * bool) :=
  x ← tokens_join (Some tokens);
  '(st, x) ← filter_loop (eval_fuel o) (env_of (w s)) (est (w s)) x;
  e ← expr_parse x;
  '(r, _) ← expr_eval e false false;
  Ok (set_est s st, negb (r =? 0)).

Definition handle_if (s : pp) (tokens : list token) : res pp :=
  '(s, is_true) ← (if noop (ifstate s) then Ok (s, false) else if_eval s tokens);
  push s is_true.

Definition got_else (i : ifs) : res unit :=
  match if_stack i with [] => Die "unexpected" | _ => Ok tt end.

Definition handle_elif (s : pp) (tokens : list token) : res pp :=
  _ ← got_else (ifstate s);
  match if_elif_chosen (ifstate s) with
  | GOT_TRUTH => Ok (set_ifs s (mk_ifs (if_stack (ifstate s)) true GOT_TRUTH))
  | NO_TRUTH =>
      '(s, t) ← if_eval s tokens;
      Ok (set_ifs s (mk_ifs (if_stack (ifstate s)) (negb t) (if (t : bool) then GOT_TRUTH else NO_TRUTH)))
  | LAST_ELSE => Die "#else already encountered (now at #elif)"
  end.

Definition handle_else (s : pp) (tokens : list token) : res pp :=
  _ ← got_else (ifstate s);
  match if_elif_chosen (ifstate s) with
  | GOT_TRUTH => Ok (set_ifs s (mk_ifs (if_stack (ifstate s)) true LAST_ELSE))
  | NO_TRUTH => Ok (set_ifs s (mk_ifs (if_stack (ifstate s)) false LAST_ELSE))
  | LAST_ELSE => Die "#else already encountered (now at #else)"
  end.

Definition handle_endif (s : pp) (tokens : list token) : res pp :=
  match if_stack (ifstate s) with
  | [] => Die "endif unexpected"
  | _ => i ← if_pop (ifstate s); Ok (set_ifs s i)
  end.

Definition parse_end_validate (i : ifs) : res unit :=
  match if_stack i with [] => Ok tt | _ => Die "endif expected" end.

(** ** directive.c: the other directives *)

(** The parameters, from after the parenthesis, whether there was an ellipsis,
    and the tokens of the replacement. *)
Fixpoint define_params (ts : list token) (args : list cstr) : res (list cstr * bool * list token) :=
  match ts with
  | [] => Ok (args, false, [])
  | t :: ts =>
      match tok t with
      | TOKEN_CLOSE_PAREN => Ok (args, false, ts)
      | TOKEN_ELIPSIS =>
          match ts with
          | [] => Ub "NULL token"
          | t2 :: ts => if bool_decide (tok t2 = TOKEN_CLOSE_PAREN) then Ok (args, true, ts)
                        else Die "expected: close paren"
          end
      | TOKEN_WORD =>
          x ← token_str t;
          match ts with
          | [] => Ub "NULL token"
          | t2 :: ts =>
              match tok t2 with
              | TOKEN_COMMA => define_params ts (args ++ [x])
              | TOKEN_CLOSE_PAREN => Ok (args ++ [x], false, ts)
              | TOKEN_ELIPSIS => Die "GNU-variadic macros aren't supported"
              | _ => Die "expected: comma or close paren"
              end
          end
      | _ => Die "unexpected token"
      end
  end.

(** Without the whitespace before the first token. *)
Definition no_leading (ts : list token) : list token :=
  match ts with
  | [] => []
  | t :: ts => {| tok := tok t; CppTok.w := CppTok.w t; had_whitespace := false |} :: ts
  end.

Definition handle_define (s : pp) (tokens : list token) : res pp :=
  match tokens with
  | [] => Ub "NULL token"
  | t0 :: ts =>
      if negb (bool_decide (tok t0 = TOKEN_WORD)) then Die "word expected"
      else if parse_should_noop (ifstate s) then Ok s
      else
        match CppTok.w t0 with
        | None => Ub "NULL word"
        | Some nm =>
            let depth := preproc_in_include (w s) in
            let object : res pp :=
              v ← tokens_join (Some (no_leading ts));
              '(t, _) ← macro_add (macros_of s) nm (Some v) depth;
              Ok (set_macros s t) in
            match ts with
            | t1 :: ts2 =>
                if bool_decide (tok t1 = TOKEN_OPEN_PAREN) && negb (had_whitespace t1) then
                  '(args, variadic, body) ← define_params ts2 [];
                  v ← tokens_join (Some (no_leading body));
                  '(t, _) ← macro_add_func (macros_of s) nm (Some v)
                              (match args with [] => None | _ => Some args end) variadic depth;
                  Ok (set_macros s t)
                else object
            | [] => object
            end
        end
  end.

Definition handle_undef (s : pp) (tokens : list token) : res pp :=
  nm ← SINGLE_TOKEN tokens;
  if parse_should_noop (ifstate s) then Ok s
  else Ok (set_macros s (fst (macro_remove (macros_of s) nm))).

(** [#warning] only reports. *)
Definition handle_warning (s : pp) (tokens : list token) : res pp :=
  if parse_should_noop (ifstate s) then Ok s else (_ ← tokens_join (Some tokens); Ok s).

Definition handle_error (s : pp) (tokens : list token) : res pp :=
  if parse_should_noop (ifstate s) then Ok s else (_ ← tokens_join (Some tokens); Die "#error").

Definition handle_pragma (s : pp) (tokens : list token) : res pp :=
  x ← tokens_join (Some tokens); Ok (upd (put (str "#pragma " ++ x ++ [newline])) s).

Definition handle_include (s : pp) (include_arg : cstr) : res pp :=
  if parse_should_noop (ifstate s) then Ok s
  else
    '(st, (fn, is_angle)) ← include_parse (env_of (w s)) (eval_fuel o) (est (w s)) include_arg;
    let s := set_est s st in
    match cd_stack (w s) with
    | [] => Ub "empty cd_stack"
    | curdir :: _ =>
        '(f, final_path, sysh) ← include_fopen (o_files o) (o_inc_path o) curdir fn is_angle;
        match f, final_path with
        | true, Some path =>
            let stream := contents o path in
            path ← canonicalise_path path;
            let wd := if (is_angle : bool) then w s else add_dep path (w s) in
            wd ← preproc_push stream path sysh wd;
            Ok (upd (fun _ => set_files (file_stack wd) (udirname path :: cd_stack wd) wd) s)
        | true, None => Ub "no path"
        | false, _ =>
            if missing_header_error o then Die "can't find include file"
            else Ok (upd (add_dep fn) s)
        end
    end.

(** [strchr] of the standard library *)
Fixpoint strchr (s : cstr) (c : ascii) : option cstr :=
  match s with
  | [] => None
  | d :: s' => if d =c c then Some s else strchr s' c
  end.

(** Whether it was a line directive. *)
Definition handle_line_directive (s : pp) (line : cstr) : res (option pp) :=
  let line := str_spc_skip line in
  let need_line := has_prefix line (str "line") in
  if need_line && negb (length (word_end line) =? length line - 4)%nat then Ok None
  else
    let line := str_spc_skip (if need_line then drop 4 line else line) in
    let '(n, endp) := strtol_int true line in
    if (length endp =? length line)%nat then
      if need_line then Die "invalid #line directive" else Ok None
    else if n <? 0 then Die "#line directive with a negative argument"
    else
      let text := take (length line - length endp) line in
      let rest := if isspace (cur endp) then str_spc_skip endp else [] in
      fn ← (if cur rest =c dquote then
              match strchr (drop 1 rest) dquote with
              | Some e => if (length (drop 1 rest) =? 0)%nat then Die "unterminated double-quote"
                          else Ok (take (length (drop 1 rest) - length e) (drop 1 rest))
              | None => Die "unterminated double-quote"
              end
            else Ok (cur_fname (w s)));
      wd ← preproc_emit_line_info (fst (strtol_int false text)) fn 0 (w s);
      Ok (Some (upd (fun _ => set_where fn (n - 1) wd) s)).

Definition directive_sync (s : pp) : pp := if no_output (w s) then s else upd (put [newline]) s.

(** [parse_directive] from the tokens on; there are none if the array is NULL. *)
Definition dispatch (s : pp) (tokens : list token) : res pp :=
  match tokens with
  | [] => Ok s
  | t0 :: ts =>
      if negb (bool_decide (tok t0 = TOKEN_WORD)) then
        if parse_should_noop (ifstate s) then Ok s else Die "invalid preproc token"
      else
        match CppTok.w t0 with
        | None => Ub "NULL word"
        | Some d =>
            let s := directive_sync s in
            if streq d (str "ifdef") then handle_ifdef s ts
            else if streq d (str "ifndef") then handle_ifndef s ts
            else if streq d (str "if") then handle_if s ts
            else if streq d (str "elif") then handle_elif s ts
            else if streq d (str "else") then handle_else s ts
            else if streq d (str "endif") then handle_endif s ts
            else if parse_should_noop (ifstate s) then Ok s
            else if streq d (str "define") then handle_define s ts
            else if streq d (str "undef") then handle_undef s ts
            else if streq d (str "warning") then handle_warning s ts
            else if streq d (str "error") then handle_error s ts
            else if streq d (str "pragma") then handle_pragma s ts
            else Die "unrecognised preproc command"
        end
  end.

Definition parse_directive (s : pp) (line : cstr) : res pp :=
  l ← handle_line_directive s line;
  match l with
  | Some s => Ok s
  | None =>
      let start := str_spc_skip line in
      if negb (parse_should_noop (ifstate s)) && streq (word_dup start) (str "include") then
        handle_include (directive_sync s) (drop 7 start)
      else tokens ← tokenise line; dispatch s (default [] tokens)
  end.

Definition parse_internal_directive (s : pp) (line : cstr) : res pp :=
  s ← parse_directive (upd (set_no_output true) s) line;
  Ok (upd (set_no_output false) s).

(** ** preproc.c: reading and the main loop *)

(** The fuel bounds the files left at their end. *)
Fixpoint read_line (fuel : nat) (wd : world) : res (world * option cstr) :=
  match fuel with
  | O => NoFuel
  | S fuel =>
      match file_stack wd with
      | [] => Ice "file stack idx = 0 on read()"
      | f :: fs =>
          match fline (file f) with
          | None =>
              match fs with
              | [] => Ok (wd, None)
              | _ =>
                  wd ← preproc_pop (set_files (file_stack wd) (tail (cd_stack wd)) wd);
                  read_line fuel wd
              end
          | Some (line, nl, r) =>
              Ok (set_where (cur_fname wd) (cur_line wd + 1)
                    (set_files (mk_file r (fname f) (line_no f) (is_sysh f) :: fs) (cd_stack wd) wd), Some line)
          end
      end
  end.

(** Whether only whitespace follows the last backslash: where to cut. *)
Definition splice_at (line : cstr) : option nat :=
  match strrchr line bslash with
  | Some i => match str_spc_skip (drop (i + 1) line) with [] => Some i | _ => None end
  | None => None
  end.

(** The line and [*peof]. *)
Fixpoint splice_lines (fuel : nat) (wd : world) (eof : bool) : res (world * option cstr * bool) :=
  match fuel with
  | O => NoFuel
  | S fuel =>
      match n_nls wd with
      | S n => Ok (set_nls n wd, Some [], eof)
      | O =>
          '(wd, line) ← read_line (S (length (file_stack wd))) wd;
          match line with
          | None => Ok (wd, None, true)
          | Some line =>
              let line := if option_trigraphs o then expand_trigraphs line else line in
              match splice_at line with
              | None => Ok (wd, Some line, eof)
              | Some i =>
                  '(wd, next, eof) ← splice_lines fuel wd eof;
                  match next with
                  | Some next => Ok (set_nls (S (n_nls wd)) wd, Some (take i line ++ next), eof)
                  | None => Ok (wd, Some (take i line), true)
                  end
              end
          end
      end
  end.

(** The state and the line to print. *)
Definition filter_macros (s : pp) (line : cstr) : res (pp * option cstr) :=
  let hash := str_spc_skip line in
  if cur hash =c "#"%char then
    s ← parse_directive s (drop 1 hash); Ok (s, None)
  else if parse_should_noop (ifstate s) then Ok (s, Some [])
  else
    '(st, line) ← eval_expand_macros (env_of (w s)) (eval_fuel o) (est (w s)) line;
    Ok (set_est s st, Some line).

(** One round of the loop of [preprocess] with the line read. *)
Definition process_line (s : pp) (line : cstr) : res pp :=
  let line := if option_digraphs o then expand_digraphs line else line in
  '(line, b) ← strip_comment (o_std o) (strip_comments o) (strip_in_block (w s)) line;
  let s := upd (set_block b) s in
  '(s, line) ← (match b with IN_BLOCK_FULL => Ok (s, Some line) | _ => filter_macros s line end);
  Ok (match line with
      | Some line => if no_output (w s) then s else upd (put (line ++ [newline])) s
      | None => s
      end).

Fixpoint preprocess_loop (fuel : nat) (s : pp) : res pp :=
  match fuel with
  | O => NoFuel
  | S fuel =>
      '(wd, line, eof) ← splice_lines fuel (w s) false;
      let s := upd (fun _ => wd) s in
      match line with
      | None => Ok s
      | Some line =>
          s ← process_line s line;
          if (eof : bool) then Ok s else preprocess_loop fuel s
      end
  end.

Definition preprocess (fuel : nat) (stdin : cstr) (s : pp) : res pp :=
  wd ← preproc_push stdin (cur_fname (w s)) false (w s);
  s ← preprocess_loop fuel (upd (fun _ => wd) s);
  match strip_in_block (w s) with
  | IN_BLOCK_BEGIN | IN_BLOCK_FULL => Die "no terminating block comment"
  | _ => _ ← parse_end_validate (ifstate s); Ok s
  end.
End Run.

(** ** Trying it *)

Definition options0 : options :=
  {| o_std := STD_C99; strip_comments := STRIP_ALL; option_trigraphs := false; option_digraphs := false;
     option_line_info := true; missing_header_error := true;
     o_inc_path := {| include_dirs := []; include_dirs_sys := [] |};
     o_files := fun p => if streq p (str "./b.h") || streq p (str "b.h") then Opened else Missing;
     contents := fun p => str "#define B 2" ++ [newline] ++ str "int b;" ++ [newline];
     o_date := []; o_time := []; o_timestamp := []; o_basefile := []; eval_fuel := 100 |}.

Definition pp0 : pp :=
  {| w := mk_world {| macros := []; counter := 0 |} [] (str "a.c") 1 [str "."] NOT_IN_BLOCK 0 false ∅ [];
     ifstate := {| if_stack := []; noop := false; if_elif_chosen := NO_TRUTH |} |}.

Definition lines (ls : list string) : cstr := concat (map (fun l => str l ++ [newline]) ls).

Definition cpp (ls : list string) : res string :=
  s ← preprocess options0 100 (lines ls) pp0; Ok (string_of_list_ascii (out (w s))).

Example cpp_if :
  cpp ["#define X 1"; "#if X == 1 /* c */"; "a X"; "#else"; "b"; "#endif"; "c \"; "d"]
  = Ok (string_of_list_ascii (lines [string_of_list_ascii (str "# 1 " ++ [dquote] ++ str "a.c" ++ [dquote] ++ str " 1");
                                     ""; ""; "a 1"; ""; ""; ""; "c d"; ""])).
Proof. vm_compute. reflexivity. Qed.

(** [#elif] of a group that is itself skipped is evaluated. *)
Example dead_elif : cpp ["#if 0"; "#if 1"; "#elif 1/0"; "#endif"; "#endif"] = Die "division by zero".
Proof. vm_compute. reflexivity. Qed.

(** A null directive with a space after the hash is an error. *)
Example null_directive : cpp ["# "] = Die "unrecognised preproc command".
Proof. vm_compute. reflexivity. Qed.

(** One without it loses its line of the output. *)
Example null_line :
  cpp ["#"; "a"] = Ok (string_of_list_ascii
    (lines [string_of_list_ascii (str "# 1 " ++ [dquote] ++ str "a.c" ++ [dquote] ++ str " 1"); "a"])).
Proof. vm_compute. reflexivity. Qed.

(** A line directive counts in a skipped group. *)
Example dead_line :
  cpp ["#if 0"; "#line 50"; "#endif"; "__LINE__"] <> cpp ["#if 0"; ""; "#endif"; "__LINE__"] /\
  is_ok (cpp ["#if 0"; "#line 50"; "#endif"; "__LINE__"]) = true.
Proof. split; [vm_compute; discriminate|reflexivity]. Qed.

(** A parameter list that is not closed is taken as it is. *)
Example open_params : is_ok (cpp ["#define F("; "F()"]) = true.
Proof. reflexivity. Qed.

(** ** Conditional groups, nested *)

(** A line that is not a conditional directive: another directive, by its
    tokens, or text. *)
Inductive line := LDir (tokens : list token) | LText (text : cstr).

(** What opens a group. *)
Inductive opener := If (ts : list token) | Ifdef (ts : list token) | Ifndef (ts : list token).

(** A file as nested groups: what follows an opener is its body and then arms. *)
Inductive items :=
  | Nil
  | Cons (l : line) (rest : items)
  | Group (c : opener) (body : items) (a : arms) (rest : items)
with arms :=
  | Endif (ts : list token)
  | Elif (ts : list token) (body : items) (a : arms)
  | Else (ts : list token) (body : items) (ends : list token).

Scheme items_mut := Induction for items Sort Prop
with arms_mut := Induction for arms Sort Prop.
Combined Scheme items_arms_ind from items_mut, arms_mut.

Definition word_token (s : string) : token := {| tok := TOKEN_WORD; CppTok.w := Some (str s); had_whitespace := false |}.

Definition opener_line (c : opener) : line :=
  match c with
  | If ts => LDir (word_token "if" :: ts)
  | Ifdef ts => LDir (word_token "ifdef" :: ts)
  | Ifndef ts => LDir (word_token "ifndef" :: ts)
  end.

(** The lines of the file. *)
Fixpoint flatten (it : items) : list line :=
  match it with
  | Nil => []
  | Cons l rest => l :: flatten rest
  | Group c body a rest => opener_line c :: flatten body ++ flatten_arms a ++ flatten rest
  end
with flatten_arms (a : arms) : list line :=
  match a with
  | Endif ts => [LDir (word_token "endif" :: ts)]
  | Elif ts body a => LDir (word_token "elif" :: ts) :: flatten body ++ flatten_arms a
  | Else ts body ends => LDir (word_token "else" :: ts) :: flatten body ++ [LDir (word_token "endif" :: ends)]
  end.

Definition conditional (d : cstr) : bool :=
  existsb (fun x => streq d (str x)) ["ifdef"; "ifndef"; "if"; "elif"; "else"; "endif"]%string.

Definition ordinary (l : line) : Prop :=
  match l with
  | LDir (t :: _) => tok t = TOKEN_WORD -> exists d, CppTok.w t = Some d /\ conditional d = false
  | _ => True
  end.

Fixpoint ordinary_items (it : items) : Prop :=
  match it with
  | Nil => True
  | Cons l rest => ordinary l /\ ordinary_items rest
  | Group c body a rest => ordinary_items body /\ ordinary_arms a /\ ordinary_items rest
  end
with ordinary_arms (a : arms) : Prop :=
  match a with
  | Endif _ => True
  | Elif _ body a => ordinary_items body /\ ordinary_arms a
  | Else _ body _ => ordinary_items body
  end.

Section Groups.
Variable o : options.

(** The program on one line: [parse_directive] after [tokenise], or the text
    part of [filter_macros], printed. *)
Definition step (s : pp) (l : line) : res pp :=
  match l with
  | LDir ts => dispatch o s ts
  | LText t =>
      if parse_should_noop (ifstate s) then Ok (upd (put [newline]) s)
      else
        '(st, t) ← eval_expand_macros (env_of o (w s)) (eval_fuel o) (est (w s)) t;
        Ok (upd (put (t ++ [newline])) (set_est s st))
  end.

Fixpoint run_lines (ls : list line) (s : pp) : res pp :=
  match ls with
  | [] => Ok s
  | l :: ls => s ← step s l; run_lines ls s
  end.

(** *** The meaning of nested groups, without a stack *)

Definition sync (wd : world) : world := if no_output wd then wd else put [newline] wd.

(** A skipped line changes no table, counter or file: it only keeps the lines of
    the output in step, except that a null directive, and one that does not
    start with a word, print nothing. *)
Definition skipped (wd : world) (l : line) : world :=
  match l with
  | LText _ => put [newline] wd
  | LDir (t :: _) => if bool_decide (tok t = TOKEN_WORD) then sync wd else wd
  | LDir [] => wd
  end.

Definition in_est (wd : world) (e : estate) : world :=
  mk_world e (file_stack wd) (cur_fname wd) (cur_line wd) (cd_stack wd) (strip_in_block wd) (n_nls wd)
    (no_output wd) (depset wd) (out wd).

Definition in_table (wd : world) (t : table) : world := in_est wd (with_macros (est wd) t).

(** The table after the definition that the tokens write: the name, then, where
    a parenthesis touches it, parameters, then the replacement. *)
Definition defines (wd : world) (ts : list token) : res world :=
  match ts with
  | [] => Ub "NULL token"
  | t0 :: ts =>
      if bool_decide (tok t0 = TOKEN_WORD) then
        match CppTok.w t0 with
        | None => Ub "NULL word"
        | Some nm =>
            '(t, _) ← (match ts with
                       | {| tok := TOKEN_OPEN_PAREN; had_whitespace := false |} :: ts =>
                           '(args, variadic, body) ← define_params ts [];
                           v ← tokens_join (Some (no_leading body));
                           macro_add_func (macros (est wd)) nm (Some v)
                             (match args with [] => None | _ => Some args end) variadic (preproc_in_include wd)
                       | _ =>
                           v ← tokens_join (Some (no_leading ts));
                           macro_add (macros (est wd)) nm (Some v) (preproc_in_include wd)
                       end);
            Ok (in_table wd t)
        end
      else Die "word expected"
  end.

(** What the directive [d] with the tokens [ts] after it does. *)
Definition directive_effect (wd : world) (d : cstr) (ts : list token) : res world :=
  if streq d (str "define") then defines wd ts
  else if streq d (str "undef") then
    nm ← SINGLE_TOKEN ts; Ok (in_table wd (fst (macro_remove (macros (est wd)) nm)))
  else if streq d (str "warning") then _ ← tokens_join (Some ts); Ok wd
  else if streq d (str "error") then _ ← tokens_join (Some ts); Die "#error"
  else if streq d (str "pragma") then x ← tokens_join (Some ts); Ok (put (str "#pragma " ++ x ++ [newline]) wd)
  else Die "unrecognised preproc command".

(** A processed line. *)
Definition processed (wd : world) (l : line) : res world :=
  match l with
  | LText t =>
      '(st, t) ← eval_expand_macros (env_of o wd) (eval_fuel o) (est wd) t;
      Ok (put (t ++ [newline]) (in_est wd st))
  | LDir [] => Ok wd
  | LDir (t :: ts) =>
      if bool_decide (tok t = TOKEN_WORD) then
        match CppTok.w t with None => Ub "NULL word" | Some d => directive_effect (sync wd) d ts end
      else Die "invalid preproc token"
  end.

Definition line_effect (live : bool) (wd : world) (l : line) : res world :=
  if live then processed wd l else Ok (skipped wd l).

(** Whether the expression, once expanded, is not zero. *)
Definition condition (wd : world) (ts : list token) : res (world * bool) :=
  x ← tokens_join (Some ts);
  '(st, x) ← filter_loop o (eval_fuel o) (env_of o wd) (est wd) x;
  e ← expr_parse x;
  '(r, _) ← expr_eval e false false;
  Ok (in_est wd st, negb (r =? 0)).

Definition defined (wd : world) (x : cstr) : bool :=
  match macro_find (macros (est wd)) x with Some _ => true | None => false end.

(** Whether the group's first body is chosen; [skip] if the innermost group
    around it is being skipped. *)
Definition open_group (skip : bool) (wd : world) (c : opener) : res (world * bool) :=
  match c with
  | If ts => if skip then Ok (wd, false) else condition wd ts
  | Ifdef ts => x ← SINGLE_TOKEN ts; Ok (wd, negb skip && defined wd x)
  | Ifndef ts => x ← SINGLE_TOKEN ts; Ok (wd, negb skip && negb (defined wd x))
  end.

(** [live]: nothing around is skipped. [depth]: the groups around. *)
Fixpoint exec (it : items) (live skip : bool) (depth : nat) (wd : world) : res world :=
  match it with
  | Nil => Ok wd
  | Cons l rest => wd ← line_effect live wd l; exec rest live skip depth wd
  | Group c body a rest =>
      '(wd, b) ← open_group skip (sync wd) c;
      if (S depth =? N_IFSTACK)%nat then Die "ifdef stack exceeded"
      else
        wd ← exec body (live && b) (negb b) (S depth) wd;
        wd ← exec_arms a live b (S depth) wd;
        exec rest live skip depth wd
  end
(** [chosen]: an earlier body of the group was. *)
with exec_arms (a : arms) (live chosen : bool) (depth : nat) (wd : world) : res world :=
  match a with
  | Endif _ => Ok (sync wd)
  | Elif ts body a =>
      '(wd, b) ← (if chosen then Ok (sync wd, false) else condition (sync wd) ts);
      wd ← exec body (live && b) (negb b) depth wd;
      exec_arms a live (chosen || b) depth wd
  | Else ts body _ =>
      wd ← exec body (live && negb chosen) chosen depth (sync wd);
      Ok (sync wd)
  end.

(** *** The stack implements it *)

Definition live_in (i : ifs) : bool := negb (parse_should_noop i).

Lemma sync_state wd i :
  directive_sync {| w := wd; ifstate := i |} = {| w := sync wd; ifstate := i |}.
Proof. unfold directive_sync, sync. cbn. by destruct (no_output wd). Qed.

(** Split on what decides the outcome, innermost first. *)
Ltac decide_case :=
  repeat (run; match goal with
  | |- context [match ?x with _ => _ end] =>
      lazymatch x with
      | context [match _ with _ => _ end] => fail
      | _ => destruct x eqn:?; try done
      end
  end).

(** A skipped line. *)
Lemma step_skipped wd i l :
  ordinary l -> parse_should_noop i = true ->
  step {| w := wd; ifstate := i |} l = Ok {| w := skipped wd l; ifstate := i |}.
Proof.
  intros Hl Hi. destruct l as [[|t ts]|x]; cbn [step skipped ifstate]; [done| |by rewrite Hi].
  unfold dispatch. cbn [ifstate]. rewrite Hi. case_bool_decide as Et; [|done]. cbn [negb].
  destruct (Hl Et) as (d & -> & Hc). unfold conditional in Hc. cbn [existsb] in Hc.
  repeat rewrite orb_false_iff in Hc. destruct Hc as (-> & -> & -> & -> & -> & -> & _).
  rewrite sync_state. cbn [ifstate]. by rewrite Hi.
Qed.

Lemma handle_define_live wd i ts :
  parse_should_noop i = false ->
  handle_define {| w := wd; ifstate := i |} ts = (wd ← defines wd ts; Ok {| w := wd; ifstate := i |}).
Proof.
  intros Hi. unfold handle_define, defines. destruct ts as [|t0 ts]; [done|]. cbn [ifstate]. rewrite Hi.
  case_bool_decide; [|done]. cbn [negb]. destruct (CppTok.w t0) as [nm|]; [|done].
  unfold macros_of, set_macros, set_est, in_table, in_est. cbn [w ifstate].
  destruct ts as [|[[] x []] ts]; cbn [tok had_whitespace negb andb];
    repeat rewrite bool_decide_true by done; repeat rewrite bool_decide_false by done; cbn [andb];
    unfold mbind, res_bind; decide_case.
Qed.

Lemma step_processed wd i l :
  ordinary l -> parse_should_noop i = false ->
  step {| w := wd; ifstate := i |} l = (wd ← processed wd l; Ok {| w := wd; ifstate := i |}).
Proof.
  intros Hl Hi. destruct l as [[|t ts]|x]; cbn [step processed]; [done| |].
  - unfold dispatch. cbn [ifstate]. rewrite Hi. case_bool_decide as Et; [|done]. cbn [negb].
    destruct (Hl Et) as (d & -> & Hc). unfold conditional in Hc. cbn [existsb] in Hc.
    repeat rewrite orb_false_iff in Hc. destruct Hc as (-> & -> & -> & -> & -> & -> & _).
    rewrite sync_state. cbn [ifstate]. rewrite Hi. unfold directive_effect.
    destruct (streq d (str "define")); [by apply handle_define_live|].
    unfold handle_undef, handle_warning, handle_error, handle_pragma, macros_of, set_macros, set_est, upd, in_table, in_est.
    cbn [ifstate w]. rewrite Hi. unfold mbind, res_bind. decide_case.
  - cbn [ifstate w]. rewrite Hi. unfold mbind, res_bind. decide_case.
Qed.

Lemma step_effect s l :
  ordinary l -> step s l = (wd ← line_effect (live_in (ifstate s)) (w s) l; Ok {| w := wd; ifstate := ifstate s |}).
Proof.
  intros Hl. destruct s as [wd i]. unfold line_effect, live_in. cbn [w ifstate].
  destruct (parse_should_noop i) eqn:Hi; [by apply step_skipped|by apply step_processed].
Qed.

Lemma condition_eval s ts :
  if_eval o s ts = ('(wd, b) ← condition (w s) ts; Ok ({| w := wd; ifstate := ifstate s |}, b)).
Proof.
  destruct s as [wd i]. unfold condition, if_eval, set_est, in_est. cbn [w ifstate]. unfold mbind, res_bind. decide_case.
Qed.

Lemma run_lines_app a b s : run_lines (a ++ b) s = (s ← run_lines a s; run_lines b s).
Proof. revert s. induction a as [|l a IH]; intros s; cbn; [done|]. destruct (step s l); run; [apply IH|done..]. Qed.

Definition with_ifs (wd : world) (i : ifs) : pp := {| w := wd; ifstate := i |}.

(** What a group saves of the state around it. *)
Definition saved (i : ifs) : frame := {| if_chosen := if_elif_chosen i; f_noop := noop i |}.

(** The state inside a group. *)
Definition inside (i : ifs) (skip : bool) (ch : if_elif_state) : ifs :=
  {| if_stack := saved i :: if_stack i; noop := skip; if_elif_chosen := ch |}.

Definition truth (b : bool) : if_elif_state := if b then GOT_TRUTH else NO_TRUTH.

Lemma live_inside i b ch : live_in (inside i (negb b) ch) = live_in i && b.
Proof.
  unfold live_in, parse_should_noop, inside, saved. cbn. destruct b; cbn.
  - by rewrite andb_true_r.
  - by rewrite andb_false_r.
Qed.

Lemma push_inside wd i b :
  push (with_ifs wd i) b
  = if (S (length (if_stack i)) =? N_IFSTACK)%nat then Die "ifdef stack exceeded"
    else Ok (with_ifs wd (inside i (negb b) (truth b))).
Proof. unfold push, if_push. cbn [ifstate with_ifs length]. by destruct (_ =? _)%nat. Qed.

Lemma keyword_step wd i (d : string) ts :
  step (with_ifs wd i) (LDir (word_token d :: ts))
  = (let s := with_ifs (sync wd) i in
     if streq (str d) (str "ifdef") then handle_ifdef s ts
     else if streq (str d) (str "ifndef") then handle_ifndef s ts
     else if streq (str d) (str "if") then handle_if o s ts
     else if streq (str d) (str "elif") then handle_elif o s ts
     else if streq (str d) (str "else") then handle_else s ts
     else if streq (str d) (str "endif") then handle_endif s ts
     else step (with_ifs wd i) (LDir (word_token d :: ts))).
Proof.
  cbn [step]. unfold dispatch, word_token. cbn [tok CppTok.w]. rewrite bool_decide_true by done. cbn [negb].
  unfold with_ifs. rewrite sync_state. cbn zeta.
  by repeat match goal with |- context [if streq ?d ?x then _ else _] => destruct (streq d x) end.
Qed.

Lemma open_step wd i c :
  step (with_ifs wd i) (opener_line c)
  = ('(wd, b) ← open_group (noop i) (sync wd) c; push (with_ifs wd i) b).
Proof.
  destruct c as [ts|ts|ts]; cbn [opener_line]; rewrite keyword_step.
  - change (handle_if o (with_ifs (sync wd) i) ts = '(wd, b) ← open_group (noop i) (sync wd) (If ts); push (with_ifs wd i) b).
    unfold handle_if. cbn [ifstate open_group with_ifs]. destruct (noop i); [done|].
    rewrite condition_eval. cbn [w ifstate with_ifs]. by destruct (condition _ _) as [[? ?]| | | |].
  - change (handle_ifdef (with_ifs (sync wd) i) ts = '(wd, b) ← open_group (noop i) (sync wd) (Ifdef ts); push (with_ifs wd i) b).
    unfold handle_ifdef, handle_somedef. cbn [open_group]. destruct (SINGLE_TOKEN ts); try done. run.
    cbn [ifstate with_ifs]. destruct (noop i); [done|]. by rewrite xorb_false_l.
  - change (handle_ifndef (with_ifs (sync wd) i) ts = '(wd, b) ← open_group (noop i) (sync wd) (Ifndef ts); push (with_ifs wd i) b).
    unfold handle_ifndef, handle_somedef. cbn [open_group]. destruct (SINGLE_TOKEN ts); try done. run.
    cbn [ifstate with_ifs]. destruct (noop i); [done|]. by rewrite xorb_true_l.
Qed.

Lemma endif_step wd i skip ch ts :
  step (with_ifs wd (inside i skip ch)) (LDir (word_token "endif" :: ts)) = Ok (with_ifs (sync wd) i).
Proof.
  rewrite keyword_step. change (handle_endif (with_ifs (sync wd) (inside i skip ch)) ts = Ok (with_ifs (sync wd) i)).
  unfold handle_endif, set_ifs. cbn. by destruct i.
Qed.

Lemma elif_step wd i skip b ts :
  step (with_ifs wd (inside i skip (truth b))) (LDir (word_token "elif" :: ts))
  = ('(wd, t) ← (if b then Ok (sync wd, false) else condition (sync wd) ts);
     Ok (with_ifs wd (inside i (negb t) (truth (b || t))))).
Proof.
  rewrite keyword_step.
  change (handle_elif o (with_ifs (sync wd) (inside i skip (truth b))) ts
          = ('(wd, t) ← (if b then Ok (sync wd, false) else condition (sync wd) ts);
             Ok (with_ifs wd (inside i (negb t) (truth (b || t)))))).
  unfold handle_elif, got_else. cbn [ifstate inside with_ifs if_stack]. run.
  destruct b; cbn [truth if_elif_chosen]; [done|].
  rewrite condition_eval. cbn [w ifstate with_ifs]. destruct (condition _ _) as [[? []]| | | |]; done.
Qed.

Lemma else_step wd i skip b ts :
  step (with_ifs wd (inside i skip (truth b))) (LDir (word_token "else" :: ts))
  = Ok (with_ifs (sync wd) (inside i b LAST_ELSE)).
Proof.
  rewrite keyword_step.
  change (handle_else (with_ifs (sync wd) (inside i skip (truth b))) ts
          = Ok (with_ifs (sync wd) (inside i b LAST_ELSE))).
  unfold handle_else, got_else. cbn [ifstate inside with_ifs if_stack]. run. by destruct b.
Qed.

Definition runs_items (it : items) : Prop := ordinary_items it -> forall wd i,
  run_lines (flatten it) (with_ifs wd i)
  = (wd ← exec it (live_in i) (noop i) (length (if_stack i)) wd; Ok (with_ifs wd i)).

Definition runs_arms (a : arms) : Prop := ordinary_arms a -> forall wd i skip b,
  run_lines (flatten_arms a) (with_ifs wd (inside i skip (truth b)))
  = (wd ← exec_arms a (live_in i) b (S (length (if_stack i))) wd; Ok (with_ifs wd i)).

Lemma runs_body body : runs_items body -> ordinary_items body -> forall wd i b ch,
  run_lines (flatten body) (with_ifs wd (inside i (negb b) ch))
  = (wd ← exec body (live_in i && b) (negb b) (S (length (if_stack i))) wd;
     Ok (with_ifs wd (inside i (negb b) ch))).
Proof. intros H Ho wd i b ch. rewrite H by done. by rewrite live_inside. Qed.

Lemma runs_all : (forall it, runs_items it) /\ (forall a, runs_arms a).
Proof.
  apply items_arms_ind; unfold runs_items, runs_arms.
  - done.
  - intros l rest IH [Hl Hr] wd i. cbn [flatten run_lines exec]. rewrite step_effect by done. cbn [w ifstate with_ifs].
    destruct (line_effect _ _ _); try done. run. by apply IH.
  - intros c body IHb a IHa rest IHr (Hb & Ha & Hr) wd i. cbn [flatten run_lines exec].
    rewrite open_step. destruct (open_group _ _ c) as [[wd1 b]| | | |]; try done. run.
    rewrite push_inside. destruct (_ =? _)%nat; [done|]. run.
    rewrite run_lines_app, (runs_body body IHb Hb). destruct (exec body _ _ _ _); try done. run.
    rewrite run_lines_app, IHa by done. destruct (exec_arms a _ _ _ _); try done. run. by apply IHr.
  - intros ts _ wd i skip b. cbn [flatten_arms run_lines exec_arms]. by rewrite endif_step.
  - intros ts body IHb a IHa [Hb Ha] wd i skip b. cbn [flatten_arms run_lines exec_arms].
    rewrite elif_step. destruct (if b then _ else _) as [[wd1 t]| | | |]; try done. run.
    rewrite run_lines_app, (runs_body body IHb Hb). destruct (exec body _ _ _ _); try done. run. by apply IHa.
  - intros ts body IHb ends Hb wd i skip b. cbn [flatten_arms run_lines exec_arms].
    rewrite else_step. run. replace (inside i b LAST_ELSE) with (inside i (negb (negb b)) LAST_ELSE) by by rewrite negb_involutive.
    rewrite run_lines_app, (runs_body body IHb Hb). rewrite !negb_involutive.
    destruct (exec body _ _ _ _); try done. run. cbn [run_lines]. by rewrite endif_step.
Qed.
End Groups.

(** ** Properties *)

(** C25: conditional inclusion. The lines of properly nested groups, split into
    tokens and run one by one over the stack of [if_idx], [noop] and
    [if_elif_chosen], do what the nesting says: in each group the first body
    whose condition holds is processed, and the [#else] if none does; a line of
    any other body changes no macro and expands nothing, and prints at most the
    empty line that keeps the output in step; a processed one expands, defines,
    undefines, warns, prints its pragma or stops the run; groups nested too deep
    are an error; and the stack comes back as it was. The test before the
    handlers are called is the one that skips; theirs repeat it. A skipped group's
    [#elif]s are still evaluated until one holds. The lines are those that reach
    the tokens: not [#line], which is obeyed in a skipped group too
    ([dead_line]), nor [#include], which would bring in lines of another file. *)
Theorem groups_refine (o : options) (it : items) (s : pp) :
  ordinary_items it ->
  run_lines o (flatten it) s
  = (wd ← exec o it (live_in (ifstate s)) (noop (ifstate s)) (length (if_stack (ifstate s))) (w s);
     Ok {| w := wd; ifstate := ifstate s |}).
Proof. intros H. destruct s as [wd i]. by apply runs_all. Qed.

Lemma groups_refine_witness :
  let num c := {| tok := TOKEN_OTHER; CppTok.w := Some [c]; had_whitespace := true |} in
  let it := Group (If [num "0"%char]) (Cons (LText (str "a")) Nil)
              (Elif [num "1"%char] (Cons (LText (str "b")) Nil) (Else [] (Cons (LText (str "c")) Nil) [])) Nil in
  exists s, run_lines options0 (flatten it) pp0 = Ok s /\ ifstate s = ifstate pp0 /\
            out (w s) = lines [""; ""; ""; "b"; ""; ""; ""].
Proof.
  intros num it. rewrite (groups_refine options0 it pp0) by (repeat split).
  eexists. split; [vm_compute; reflexivity|]. split; reflexivity.
Defined.

(** ** A file without directives *)

Section PlainFile.
Context (o : options) (t : table).
Hypothesis no_tri : option_trigraphs o = false.
Hypothesis no_di : option_digraphs o = false.
Hypothesis t_plain : CppEval.plain t.

(** Text with nothing in it for the phases before expansion. *)
Definition plain_text (l : cstr) : Prop :=
  Forall (fun c => code_char c = true /\ c <> NUL /\ c <> newline /\ c <> bslash) l /\
  (cur (str_spc_skip l) =c "#"%char) = false.

Lemma plain_text_clean l : plain_text l -> clean l.
Proof using Type.
  intros [H _]. rewrite Forall_forall in H. repeat split; intros K; apply H in K as (K & K' & _); try done.
Qed.

Lemma fline_plain l r : plain_text l -> fline (l ++ newline :: r) = Some (l, true, r).
Proof using.
  intros [H _]. assert (line_cut (l ++ newline :: r) = (l, true, r) /\ c_text l = l) as [E1 E2].
  { induction H as [|c l (_ & H1 & H2 & _) _ [IH1 IH2]]; [done|]. cbn [app line_cut c_text].
    apply eqc_false in H1, H2. by rewrite H1, H2, IH1, IH2. }
  unfold fline. rewrite E1, E2. by destruct l.
Qed.

Lemma splice_plain l : plain_text l -> splice_at l = None.
Proof using.
  intros [H _]. unfold splice_at. assert (strrchr l bslash = None) as ->; [|done].
  induction H as [|c l (_ & _ & _ & H) _ IH]; [done|]. cbn [strrchr]. apply eqc_false in H. by rewrite IH, H.
Qed.

Lemma strip_plain l : plain_text l -> strip_comment (o_std o) (strip_comments o) NOT_IN_BLOCK l = Ok (l, NOT_IN_BLOCK).
Proof using.
  clear no_tri no_di t_plain. intros [H _]. unfold strip_comment. generalize (cur (str_spc_skip l) =c "#"%char) as d. intros d.
  assert (forall n, (length l < n)%nat ->
    strip_loop (o_std o) (strip_comments o) d n NOT_IN_BLOCK l = Ok (l, NOT_IN_BLOCK)) as K; [|apply K; lia].
  induction H as [|c l (H & _) _ IH]; intros [|n] Hn; try (simpl in Hn; lia); [done|].
  cbn [strip_loop in_block]. unfold code_char in H. apply negb_true_iff, orb_false_iff in H as [-> ->].
  rewrite IH by (simpl in Hn; lia). done.
Qed.

(** The preprocessor between two lines of the file [fn]. *)
Definition between (s : pp) (fn : cstr) (line : Z) (cds : list cstr) (input : cstr) : Prop :=
  same_shape t (macros_of s) /\ n_nls (w s) = O /\ strip_in_block (w s) = NOT_IN_BLOCK /\
  no_output (w s) = false /\ live_in (ifstate s) = true /\
  cur_fname (w s) = fn /\ cur_line (w s) = line /\ cd_stack (w s) = cds /\
  exists f, file_stack (w s) = [f] /\ file f = input.

Definition with_fuel (n : nat) : options :=
  {| o_std := o_std o; strip_comments := strip_comments o; option_trigraphs := option_trigraphs o;
     option_digraphs := option_digraphs o; option_line_info := option_line_info o;
     missing_header_error := missing_header_error o; o_inc_path := o_inc_path o; o_files := o_files o;
     contents := contents o; o_date := o_date o; o_time := o_time o; o_timestamp := o_timestamp o;
     o_basefile := o_basefile o; eval_fuel := n |}.

Lemma expand_shaped e l : clean l ->
  exists n, forall fuel st, (n <= fuel)%nat -> same_shape t (macros st) ->
  exists st', eval_expand_macros e fuel st l = Ok (st', replace_words (expansion t) l) /\ same_shape t (macros st').
Proof using t_plain.
  clear no_tri no_di. intros C. destruct (scans_all e (unpainted t) t t_plain ltac:(lia) (hots t l) (length l) [] l) as (n & N);
    try done; [by left|constructor|].
  exists n. intros fuel st Hf Hs. destruct (N fuel st [] Hf Hs) as (st' & r' & E). exists st'.
  pose proof (expand_loop_shape _ _ _ _ _ _ _ E) as K. unfold eval_expand_macros.
  cbn [app length] in E. rewrite E. run.
  rewrite c_str_at_ok; [|by apply (clean_replace _ _ t_plain C)|lia]. split; [done|]. by eapply same_shape_trans.
Qed.

Lemma plain_line_step fn line cds l :
  plain_text l -> exists n, forall fuel s input, (n <= fuel)%nat ->
  between s fn line cds (l ++ newline :: input) ->
  exists wd s', (forall j, splice_lines (with_fuel fuel) (S j) (w s) false = Ok (wd, Some l, false)) /\
    process_line (with_fuel fuel) (upd (fun _ => wd) s) l = Ok s' /\
    between s' fn (line + 1) cds input /\ ifstate s' = ifstate s /\
    out (w s') = out (w s) ++ replace_words (expansion t) l ++ [newline].
Proof.
  intros Hl.
  set (e := {| current_fname := fn; current_line := line + 1; cpp_date := o_date o; cpp_time := o_time o;
               cpp_timestamp := o_timestamp o; cpp_basefile := o_basefile o; cpp_std := o_std o;
               curdir := default [] (head cds); inc_path := o_inc_path o; files := o_files o |}).
  destruct (expand_shaped e l (plain_text_clean l Hl)) as (n & N). exists n.
  intros fuel s input Hf (Hs & Hn & Hb & Ho & Hi & Hfn & Hli & Hcd & f & Hst & Hin).
  destruct (N fuel (est (w s)) Hf Hs) as (st' & E & Hs').
  eexists _, _. split.
  { intros j. cbn [splice_lines]. rewrite Hn, Hst. cbn [length read_line]. rewrite Hst, Hin, fline_plain by done.
    run. cbn [option_trigraphs with_fuel]. by rewrite no_tri, splice_plain. }
  unfold process_line. cbn [option_digraphs with_fuel]. rewrite no_di.
  cbn [strip_in_block upd w set_where set_files]. rewrite Hb. cbn [o_std strip_comments with_fuel].
  rewrite strip_plain by done. run. unfold filter_macros. rewrite (proj2 Hl). cbn [ifstate upd].
  unfold live_in in Hi. apply negb_true_iff in Hi. rewrite Hi.
  match goal with |- context [env_of ?x ?y] =>
    replace (env_of x y) with e by (unfold env_of, e; cbn; by rewrite Hfn, Hli, Hcd) end.
  cbn [upd w est set_block set_where set_files eval_fuel with_fuel]. rewrite E. run.
  cbn [no_output set_est upd w set_block set_where set_files]. rewrite Ho. split; [done|].
  split; [|split; [done|]].
  - unfold between. cbn. rewrite Hn, Ho, Hfn, Hli, Hcd. unfold live_in. rewrite Hi.
    repeat split; [done|]. eexists. by split.
  - done.
Qed.

Definition file_text (ls : list cstr) : cstr := concat (map (fun l => l ++ [newline]) ls).

Lemma plain_lines_loop ls : Forall plain_text ls -> forall fn line cds,
  exists n, forall fuel s k, (n <= fuel)%nat -> (length ls + 1 < k)%nat ->
  between s fn line cds (file_text ls) ->
  exists s', preprocess_loop (with_fuel fuel) k s = Ok s' /\ strip_in_block (w s') = NOT_IN_BLOCK /\
    ifstate s' = ifstate s /\ out (w s') = out (w s) ++ file_text (map (replace_words (expansion t)) ls).
Proof.
  induction 1 as [|l ls Hl Hls IH]; intros fn line cds.
  - exists O. intros fuel s k _ Hk (Hs & Hn & Hb & Ho & Hi & Hfn & Hli & Hcd & f & Hst & Hin).
    destruct k as [|[|k]]; try (simpl in Hk; lia). exists s. cbn [preprocess_loop splice_lines].
    rewrite Hn, Hst. cbn [length read_line]. rewrite Hst, Hin. cbn [fline file_text concat map]. run.
    split; [by destruct s|]. by rewrite app_nil_r.
  - destruct (plain_line_step fn line cds l Hl) as (n1 & N1). destruct (IH fn (line + 1) cds) as (n2 & N2).
    exists (n1 + n2)%nat. intros fuel s k Hf Hk Hbt. destruct k as [|[|k]]; try (simpl in Hk; lia).
    unfold file_text in Hbt. cbn [map concat] in Hbt. rewrite <- app_assoc in Hbt.
    destruct (N1 fuel s _ ltac:(lia) Hbt) as (wd & s1 & E1 & E2 & Hbt1 & Hi1 & Ho1).
    destruct (N2 fuel s1 (S k) ltac:(lia) ltac:(simpl in Hk; lia) Hbt1) as (s' & E & Hb' & Hi' & Ho').
    exists s'. cbn [preprocess_loop]. rewrite E1. run. rewrite E2. run. split; [exact E|].
    split; [done|]. split; [congruence|]. rewrite Ho', Ho1. unfold file_text. cbn [map concat].
    by rewrite <- !app_assoc.
Qed.

(** The line information that starts the output. *)
Definition first_line_info (fn : cstr) : cstr :=
  if option_line_info o then str "# 1 " ++ [dquote] ++ fn ++ [dquote] ++ str " 1" ++ [newline] else [].

Lemma preprocess_plain_lines ls s :
  Forall plain_text ls -> same_shape t (macros_of s) -> n_nls (w s) = O -> strip_in_block (w s) = NOT_IN_BLOCK ->
  no_output (w s) = false -> file_stack (w s) = [] -> if_stack (ifstate s) = [] -> noop (ifstate s) = false ->
  exists n, forall fuel k, (n <= fuel)%nat -> (length ls + 1 < k)%nat ->
  exists s', preprocess (with_fuel fuel) k (file_text ls) s = Ok s' /\
    out (w s') = out (w s) ++ first_line_info (cur_fname (w s)) ++ file_text (map (replace_words (expansion t)) ls).
Proof.
  intros Hls Hs Hn Hb Ho Hst Hif Hno.
  destruct (plain_lines_loop ls Hls (cur_fname (w s)) 1 (cd_stack (w s))) as (n & N). exists n.
  intros fuel k Hf Hk. unfold preprocess, preproc_push, save_line. rewrite Hst. cbn [length Nat.eqb FILE_STACK_MAX].
  unfold preproc_emit_line_info_top. cbn [file_stack set_where set_files line_no fname is_sysh].
  unfold preproc_emit_line_info. cbn [no_output set_where set_files option_line_info with_fuel]. rewrite Ho.
  change (lineinfo_bits 33 (Z.lor LINEINFO_START_OF_FILE 0)) with (Ok (str " 1")). run.
  unfold first_line_info.
  destruct (option_line_info o); cbn [orb negb]; run.
  all: match goal with |- context [preprocess_loop _ _ ?s0] =>
    assert (between s0 (cur_fname (w s)) 1 (cd_stack (w s)) (file_text ls)) as Hbt end.
  1, 3: unfold between; cbn; rewrite Hn, Hb, Ho; unfold live_in, parse_should_noop; rewrite Hif, Hno.
  1, 2: repeat split; [exact Hs|]; eexists; by split.
  all: destruct (N fuel _ k Hf Hk Hbt) as (s' & E & Hb' & Hi' & Ho'); exists s'; rewrite E; run.
  all: rewrite Hb', Hi'; cbn [ifstate upd]; unfold parse_end_validate; rewrite Hif; run.
  all: split; [done|]; rewrite Ho'; cbn; change (chr (48 + 1 mod 10)) with "1"%char; repeat (rewrite <- ?app_assoc; cbn); done.
Qed.
End PlainFile.

(** C26: with trigraphs and digraphs off, a file of plain lines (no quotes,
    slashes, backslashes, nor a leading hash) under a table of plain macros is
    preprocessed to the same lines, in order and one for one, with the words
    that name macros replaced, after one line of line information; the run ends
    and nothing else is printed. *)
Theorem preprocess_plain_file (o : options) (s : pp) (ls : list cstr) :
  option_trigraphs o = false -> option_digraphs o = false ->
  CppEval.plain (macros_of s) -> Forall plain_text ls ->
  n_nls (w s) = O -> strip_in_block (w s) = NOT_IN_BLOCK -> no_output (w s) = false -> file_stack (w s) = [] ->
  if_stack (ifstate s) = [] -> noop (ifstate s) = false ->
  exists n, forall fuel k, (n <= fuel)%nat -> (length ls + 1 < k)%nat ->
  exists s', preprocess (with_fuel o fuel) k (file_text ls) s = Ok s' /\
    out (w s') = out (w s) ++ first_line_info o (cur_fname (w s))
                 ++ file_text (map (replace_words (expansion (macros_of s))) ls).
Proof. intros. by apply preprocess_plain_lines. Qed.

Lemma preprocess_plain_file_witness :
  let s := set_macros pp0 [obj "N" "10"] in
  exists n, forall fuel k, (n <= fuel)%nat -> (3 < k)%nat ->
  exists s', preprocess (with_fuel options0 fuel) k (lines ["int a[N];"; "N + NN"]) s = Ok s' /\
    out (w s') = str "# 1 " ++ [dquote] ++ str "a.c" ++ [dquote] ++ str " 1" ++ [newline]
                 ++ lines ["int a[10];"; "10 + NN"].
Proof.
  apply (preprocess_plain_file options0 (set_macros pp0 [obj "N" "10"]) [str "int a[N];"; str "N + NN"]); try done.
  - constructor; [|constructor]. split; [done|]. exists (str "10"). split; [done|].
    split; [by_decide|]. repeat constructor.
  - repeat constructor; try discriminate; by_decide.
Defined.

