(* ===== verification/Types.v ===== *)
(** * The types of the C front end

    [src/src/cc1/btype.c], [type_is.c], [type.c], [attribute.c], [sue.c] and the
    parts of [type_nav.c] that build types: basic types and their sizes, the
    chain of type constructors and the ways through it, the comparison of two
    types ([type_cmp]), sizes and alignments, qualification and decay.

    A [type *] is modelled by the tree it points at. Struct, union and enum
    definitions live in a table indexed by [sue_id], the identity of their
    [struct_union_enum_st]; the sharing of equal types that [type_nav.c] does
    ([type_uptree_find_or_new]) is not modelled. Diagnostics that let the
    compiler go on, and the flag they set, are left out: a function returns what
    the code returns. *)

From S2P Require Import Prelude Triple.

Abbreviation sue_id := nat (only parsing).
Abbreviation decl_id := nat (only parsing).

(** ** Basic types *)

(** [enum type_primitive], in the order of the source. *)
Inductive type_primitive :=
  | type_void | type__Bool
  | type_nchar | type_schar | type_uchar
  | type_int | type_uint
  | type_short | type_ushort
  | type_long | type_ulong
  | type_llong | type_ullong
  | type_float | type_double | type_ldouble
  | type_struct | type_union | type_enum
  | type_unknown.

#[export] Instance type_primitive_eq_dec : EqDecision type_primitive.
Proof. solve_decision. Defined.

Definition all_primitives : list type_primitive :=
  [type_void; type__Bool; type_nchar; type_schar; type_uchar; type_int; type_uint;
   type_short; type_ushort; type_long; type_ulong; type_llong; type_ullong;
   type_float; type_double; type_ldouble; type_struct; type_union; type_enum; type_unknown].

(** The value of the enumerator. *)
Definition prim_val (p : type_primitive) : Z :=
  match p with
  | type_void => 0 | type__Bool => 1 | type_nchar => 2 | type_schar => 3 | type_uchar => 4
  | type_int => 5 | type_uint => 6 | type_short => 7 | type_ushort => 8
  | type_long => 9 | type_ulong => 10 | type_llong => 11 | type_ullong => 12
  | type_float => 13 | type_double => 14 | type_ldouble => 15
  | type_struct => 16 | type_union => 17 | type_enum => 18 | type_unknown => 19
  end.

(** The enumerator of a value, for the arithmetic of [TYPE_PRIMITIVE_TO_UNSIGNED]. *)
Definition val_prim (v : Z) : type_primitive :=
  nth (Z.to_nat v) all_primitives type_unknown.

Definition TYPE_PRIMITIVE_TO_UNSIGNED (p : type_primitive) : type_primitive :=
  val_prim (prim_val p + 1).
Definition TYPE_PRIMITIVE_TO_SIGNED (p : type_primitive) : type_primitive :=
  val_prim (prim_val p - 1).
Definition TYPE_PRIMITIVE_IS_CHAR (p : type_primitive) : bool :=
  (2 <=? prim_val p)%Z && (prim_val p <=? 4)%Z.

Record btype : Type := mk_btype {
  primitive : type_primitive;
  bt_sue : option sue_id
}.

#[export] Instance btype_eq_dec : EqDecision btype.
Proof. solve_decision. Defined.

(** [enum type_cmp]. *)
Inductive cmp :=
  | TYPE_EQUAL | TYPE_EQUAL_TYPEDEF
  | TYPE_QUAL_ADD | TYPE_QUAL_SUB
  | TYPE_QUAL_POINTED_ADD | TYPE_QUAL_POINTED_SUB | TYPE_QUAL_NESTED_CHANGE
  | TYPE_CONVERTIBLE_IMPLICIT | TYPE_CONVERTIBLE_EXPLICIT
  | TYPE_NOT_EQUAL.

#[export] Instance cmp_eq_dec : EqDecision cmp.
Proof. solve_decision. Defined.

Definition TYPE_EQUAL_ANY (c : cmp) : bool :=
  match c with TYPE_EQUAL | TYPE_EQUAL_TYPEDEF => true | _ => false end.

(** ** Attributes *)

(** [enum attribute_type]. *)
Inductive attribute_type :=
  | attr_format | attr_unused | attr_used | attr_warn_unused | attr_section
  | attr_enum_bitmask | attr_noreturn | attr_noderef | attr_nonnull
  | attr_returns_nonnull | attr_packed | attr_sentinel | attr_aligned | attr_weak
  | attr_alias | attr_cleanup | attr_always_inline | attr_noinline | attr_flatten
  | attr_constructor | attr_destructor | attr_visibility | attr_stack_protect
  | attr_no_stack_protector | attr_no_sanitize | attr_fallthrough
  | attr_desig_init | attr_ucc_debug | attr_call_conv.

#[export] Instance attribute_type_eq_dec : EqDecision attribute_type.
Proof. solve_decision. Defined.

(** Of an attribute's payload only the alignment matters here: the constant
    [bits.align] folds to, if it is there. *)
Record attribute : Type := mk_attribute {
  a_type : attribute_type;
  a_align : option Z
}.

(** The second column of [ATTRIBUTES]: the attribute travels with the type. *)
Definition attribute_is_typrop (a : attribute) : bool :=
  match a_type a with
  | attr_noreturn | attr_noderef | attr_packed | attr_aligned => true
  | _ => false
  end.

(** The attributes whose third column is set, in order. *)
Definition tymismatch_attrs : list attribute_type :=
  [attr_section; attr_enum_bitmask; attr_noderef; attr_nonnull; attr_returns_nonnull; attr_packed].

Fixpoint attr_present (attrs : list attribute) (t : attribute_type) : option attribute :=
  match attrs with
  | [] => None
  | a :: attrs => if decide (a_type a = t) then Some a else attr_present attrs t
  end.

(** ** Types *)

Inductive vla_kind := VLA_NO | VLA | VLA_STAR.

#[export] Instance vla_kind_eq_dec : EqDecision vla_kind.
Proof. solve_decision. Defined.

(** [bits.array.size]: absent, an expression that folds to a constant, or one
    that does not. *)
Inductive array_size :=
  | size_none
  | size_const (n : Z)
  | size_expr (e : nat).

#[export] Instance array_size_eq_dec : EqDecision array_size.
Proof. solve_decision. Defined.

(** [struct type], by [type_kind]. A [type_tdef] is either a typedef name, whose
    declaration [d] has its own attributes and type, or a [typeof]; both carry
    the attributes found on the expression [type_of] (a cast's operand, the
    identifier's declaration) and that expression's [tree_type]. A function's
    [funcargs] has an identity, for the comparison of pointers. *)
Inductive type :=
  | type_btype (bt : btype)
  | type_tdef (d : decl_id) (dattr : list attribute) (dref : type)
              (eattr : list attribute) (tree : type)
  | type_typeof (eattr : list attribute) (tree : type)
  | type_ptr (ref : type) (decayed_from : option type)
  | type_block (ref : type)
  | type_func (ref : type) (args : nat) (args_void variadic : bool) (arglist : list type)
  | type_array (ref : type) (size : array_size) (is_static : bool) (vla : vla_kind)
  | type_auto
  | type_cast (ref : type) (qual : Z)
  | type_attr (ref : type) (attrs : list attribute)
  | type_where (ref : type).

Inductive type_kind :=
  | kind_btype | kind_tdef | kind_ptr | kind_block | kind_func | kind_array | kind_auto
  | kind_cast | kind_attr | kind_where.

#[export] Instance type_kind_eq_dec : EqDecision type_kind.
Proof. solve_decision. Defined.

Definition kind (t : type) : type_kind :=
  match t with
  | type_btype _ => kind_btype
  | type_tdef _ _ _ _ _ | type_typeof _ _ => kind_tdef
  | type_ptr _ _ => kind_ptr
  | type_block _ => kind_block
  | type_func _ _ _ _ _ => kind_func
  | type_array _ _ _ _ => kind_array
  | type_auto => kind_auto
  | type_cast _ _ => kind_cast
  | type_attr _ _ => kind_attr
  | type_where _ => kind_where
  end.

(** [enum type_qualifier]: a mask. *)
Definition qual_none : Z := 0.
Definition qual_const : Z := 1.
Definition qual_volatile : Z := 2.
Definition qual_restrict : Z := 4.

(** ** Struct, union and enum definitions *)

Inductive membs_progress := SUE_MEMBS_NO | SUE_MEMBS_PARSING | SUE_MEMBS_COMPLETE.
Inductive foldprog := SUE_FOLDED_NO | SUE_FOLDED_PARTIAL | SUE_FOLDED_FULLY.

#[export] Instance membs_progress_eq_dec : EqDecision membs_progress.
Proof. solve_decision. Defined.
#[export] Instance foldprog_eq_dec : EqDecision foldprog.
Proof. solve_decision. Defined.

(** What is written after an enumerator folds to: nothing is written, an integer
    with its suffix, or something that is no integer constant. *)
Inductive enum_val :=
  | val_missing
  | val_num (v suffix : Z)
  | val_bad.

(** The part of a member's [decl] that matters for its place: the name, the
    type, the width of a bitfield (its folded constant), the alignment asked for
    (0 when there is none), the attributes, and [bits.var]'s place. *)
Record member : Type := mk_member {
  m_spel : option cstr;
  m_ref : type;
  field_width : option Z;
  align_resolved : Z;
  m_attr : list attribute;
  struct_offset : Z;
  struct_offset_bitfield : Z;
  first_bitfield : bool;
  bitfield_master_ty : option type
}.

(** [union sue_member]. *)
Inductive sue_member :=
  | struct_member (d : member)
  | enum_member (spel : cstr) (val : enum_val).

Record sue : Type := mk_sue {
  s_primitive : type_primitive;
  s_attr : list attribute;
  s_anon : bool;
  s_membs : membs_progress;
  s_fold : foldprog;
  s_flexarr : bool;
  s_contains_const : bool;
  s_align : Z;
  s_size : Z;
  s_members : list sue_member
}.

(** The target and the options the functions below read: [platform.c]'s two
    statics and the [cc1_fopt] flags. *)
Record target : Type := mk_target {
  platform_type : arch;
  platform_sys : sys;
  signed_char : bool;
  ms_extensions : bool;
  plan9_extensions : bool
}.

(** ** Basic type operations *)

Definition platform_word_size (g : target) : Z :=
  match platform_type g with ARCH_i386 => 4 | ARCH_x86_64 => 8 end.

Definition platform_32bit (g : target) : bool := (platform_word_size g =? 4)%Z.

Definition platform_align_max (g : target) : Z :=
  match platform_type g with ARCH_i386 => 8 | ARCH_x86_64 => 16 end.

Definition FOPT_TAG_ANON_STRUCT_EXT (g : target) : bool :=
  ms_extensions g || plan9_extensions g.

Definition type_convertible (p : type_primitive) : bool :=
  match p with
  | type__Bool
  | type_nchar | type_schar | type_uchar
  | type_int | type_uint
  | type_short | type_ushort
  | type_long | type_ulong
  | type_llong | type_ullong
  | type_float | type_double | type_ldouble
  | type_enum => true
  | type_void | type_struct | type_union | type_unknown => false
  end.

Definition btype_cmp (a b : btype) : res cmp :=
  let convertible_check :=
    Ok (if type_convertible (primitive a) && type_convertible (primitive b)
        then TYPE_CONVERTIBLE_IMPLICIT else TYPE_NOT_EQUAL) in
  match primitive a with
  | type_void =>
      Ok (if decide (primitive b = type_void) then TYPE_EQUAL else TYPE_CONVERTIBLE_IMPLICIT)
  | type_struct | type_union =>
      Ok (if decide (bt_sue a = bt_sue b) then TYPE_EQUAL else TYPE_NOT_EQUAL)
  | type_unknown => Ice "type unknown in btype_cmp"
  | type_enum =>
      if decide (primitive b = type_enum) then
        if decide (bt_sue a = bt_sue b) then Ok TYPE_EQUAL else convertible_check
      else convertible_check
  | _ => if decide (primitive a = primitive b) then Ok TYPE_EQUAL else convertible_check
  end.

Definition type_primitive_is_signed (g : target) (p : type_primitive) (hard_err_on_su : bool)
    : res bool :=
  match p with
  | type_nchar => Ok (signed_char g)
  | type_schar | type_int | type_short | type_long | type_llong
  | type_float | type_double | type_ldouble => Ok true
  | type_struct | type_union =>
      if hard_err_on_su then Ice "type_primitive_is_signed" else Ok false
  | type_enum => Ok false
  | type_void | type__Bool | type_uchar | type_uint | type_ushort | type_ulong | type_ullong =>
      Ok false
  | type_unknown => Ice "type_unknown in type_primitive_is_signed"
  end.

Definition btype_is_signed (g : target) (t : btype) : res bool :=
  type_primitive_is_signed g (primitive t) true.

Definition type_intrank (p : type_primitive) : Z :=
  match p with
  | type_nchar | type_schar | type_uchar | type_int | type_uint | type_short | type_ushort
  | type_long | type_ulong | type_llong | type_ullong => prim_val p
  | _ => -1
  end.

Definition type_floating (p : type_primitive) : bool :=
  match p with type_float | type_double | type_ldouble => true | _ => false end.

(** [limits.h]. *)
Definition UCC_SZ_CHAR : Z := 1.
Definition UCC_SZ_SHORT : Z := 2.
Definition UCC_SZ_INT : Z := 4.
Definition UCC_SZ_LONG : Z := 8.
Definition UCC_SZ_LONG_LONG : Z := 8.
Definition UCC_SCHAR_MAX : Z := 127.
Definition UCC_SHRT_MAX : Z := 32767.
Definition UCC_INT_MAX : Z := 2147483647.
Definition UCC_LONG_MAX : Z := 9223372036854775807.
Definition UCC_LONG_LONG_MAX : Z := 9223372036854775807.

Definition type_primitive_size (g : target) (tp : type_primitive) : res Z :=
  match tp with
  | type__Bool | type_void => Ok 1%Z
  | type_schar | type_uchar | type_nchar => Ok UCC_SZ_CHAR
  | type_short | type_ushort => Ok UCC_SZ_SHORT
  | type_int | type_uint => Ok UCC_SZ_INT
  | type_float => Ok 4%Z
  | type_long | type_ulong => Ok (if platform_32bit g then 4%Z else UCC_SZ_LONG)
  | type_llong | type_ullong => Ok UCC_SZ_LONG_LONG
  | type_double => Ok (if platform_32bit g then 4%Z else 8%Z)
  | type_ldouble => Ok (if platform_32bit g then 12%Z else 16%Z)
  | type_enum | type_union | type_struct => Ice "s/u/e size"
  | type_unknown => Ice "type unknown in type_primitive_size()"
  end.

(** The result has the width of [unsigned long long]. *)
Definition type_primitive_max (p : type_primitive) (is_signed : bool) : res Z :=
  let fin max := Ok (if is_signed then max else (max * 2 + 1) `mod` 2 ^ 64)%Z in
  match p with
  | type__Bool => Ok 1%Z
  | type_nchar | type_schar | type_uchar => fin UCC_SCHAR_MAX
  | type_short => fin UCC_SHRT_MAX
  | type_int => fin UCC_INT_MAX
  | type_long => fin UCC_LONG_MAX
  | type_llong => fin UCC_LONG_LONG_MAX
  | type_float | type_double | type_ldouble => Ice "TODO: float max"
  | type_union | type_struct | type_enum => Ice "sue max"
  | _ => Ice "bad primitive"
  end.

(** The loop over [prims] is written out; the answer is the first (largest)
    primitive that is no larger than [sz]. *)
Definition type_primitive_not_less_than_size (g : target) (sz : Z) (is_signed : bool)
    : res type_primitive :=
  let fix loop (prims : list type_primitive) : res type_primitive :=
    match prims with
    | [] => Ok type_unknown
    | prim :: prims =>
        psz ← type_primitive_size g prim;
        if (psz <=? sz)%Z then
          Ok (if is_signed
              then if TYPE_PRIMITIVE_IS_CHAR prim then type_schar else TYPE_PRIMITIVE_TO_SIGNED prim
              else prim)
        else loop prims
    end in
  loop [type_ulong; type_uint; type_ushort; type_uchar].

Section types.
Context (g : target) (sues : sue_id -> sue).

(** ** Struct, union and enum queries *)

Definition sue_is_complete (s : sue) : bool :=
  bool_decide (s_membs s = SUE_MEMBS_COMPLETE) && bool_decide (s_fold s = SUE_FOLDED_FULLY).

(** The message and [fold_had_error] apart. *)
Definition sue_incomplete_chk (s : sue) : res bool :=
  if negb (sue_is_complete s) then Ok true
  else if bool_decide (s_primitive s = type_enum) && (s_size s <=? 0)%Z
  then Ice "zero-sized enum" else Ok false.

Definition sue_size (s : sue) : res Z :=
  inc ← sue_incomplete_chk s; if inc : bool then Ok 1%Z else Ok (s_size s).

Definition sue_align (s : sue) : res Z :=
  inc ← sue_incomplete_chk s; if inc : bool then Ok 1%Z else Ok (s_align s).

Definition btype_size (t : btype) : res Z :=
  match bt_sue t with
  | Some s => if decide (primitive t <> type_int) then sue_size (sues s)
              else type_primitive_size g (primitive t)
  | None => type_primitive_size g (primitive t)
  end.

Definition btype_align (t : btype) : res Z :=
  match bt_sue t with
  | Some s => sue_align (sues s)
  | None =>
      match primitive t with
      | type_double =>
          Ok (if platform_32bit g
              then if decide (platform_sys g = SYS_cygwin) then 8%Z else 4%Z
              else 8%Z)
      | type_ldouble => Ok (if platform_32bit g then 4%Z else 16%Z)
      | p => type_primitive_size g p
      end
  end.

(** ** Along the chain *)

(** [None] is the null pointer: nothing follows a basic type. *)
Definition type_next_1 (t : type) : option type :=
  match t with
  | type_tdef _ _ dref _ _ => Some dref
  | type_typeof _ tree => Some tree
  | type_ptr ref _ | type_block ref | type_func ref _ _ _ _ | type_array ref _ _ _
  | type_cast ref _ | type_attr ref _ | type_where ref => Some ref
  | type_btype _ | type_auto => None
  end.

(** [enum type_skippage]; a set of them is its membership test. *)
Inductive type_skippage :=
  | STOP_AT_TDEF | STOP_AT_CAST | STOP_AT_QUAL_CASTS | STOP_AT_ATTR | STOP_AT_WHERE.

Fixpoint type_skip (skippage : type_skippage -> bool) (t : type) : type :=
  match t with
  | type_tdef _ _ dref _ _ => if skippage STOP_AT_TDEF then t else type_skip skippage dref
  | type_typeof _ tree => if skippage STOP_AT_TDEF then t else type_skip skippage tree
  | type_cast ref _ =>
      if skippage STOP_AT_CAST then t
      else if skippage STOP_AT_QUAL_CASTS then t
      else type_skip skippage ref
  | type_attr ref _ => if skippage STOP_AT_ATTR then t else type_skip skippage ref
  | type_where ref => if skippage STOP_AT_WHERE then t else type_skip skippage ref
  | _ => t
  end.

Definition type_skip_all : type -> type := type_skip (fun _ => false).
Definition type_skip_non_tdefs : type -> type :=
  type_skip (fun s => match s with STOP_AT_TDEF => true | _ => false end).
Definition type_skip_non_casts : type -> type :=
  type_skip (fun s => match s with STOP_AT_CAST => true | _ => false end).
Definition type_skip_wheres : type -> type :=
  type_skip (fun s => match s with STOP_AT_WHERE => false | _ => true end).
Definition type_skip_tdefs : type -> type :=
  type_skip (fun s => match s with STOP_AT_TDEF | STOP_AT_WHERE | STOP_AT_ATTR => false | _ => true end).
Definition type_skip_attrs : type -> type :=
  type_skip (fun s => match s with STOP_AT_ATTR => false | _ => true end).
Definition type_skip_non_tdefs_consts : type -> type :=
  type_skip (fun s => match s with STOP_AT_TDEF | STOP_AT_QUAL_CASTS => true | _ => false end).
Definition type_skip_non_wheres : type -> type :=
  type_skip (fun s => match s with STOP_AT_WHERE => true | _ => false end).
Definition type_skip_non_attr : type -> type :=
  type_skip (fun s => match s with STOP_AT_ATTR => true | _ => false end).

(** [type_is_tdef]: the typedef's declaration, null for a [typeof]. *)
Definition type_is_tdef (t : type) : option decl_id :=
  match type_skip_non_tdefs t with type_tdef d _ _ _ _ => Some d | _ => None end.

Definition type_next (r : type) : res (option type) :=
  match type_skip_all r with
  | type_auto => Ice "__auto_type"
  | type_btype _ => Ok None
  | t => Ok (type_next_1 t)
  end.

Definition type_is (r : type) (k : type_kind) : option type :=
  let r := type_skip_all r in
  if decide (kind r = k) then Some r else None.

Definition type_get_type (t : type) : option btype :=
  match type_skip_all t with type_btype bt => Some bt | _ => None end.

Definition type_get_primitive (t : type) : type_primitive :=
  match type_get_type t with Some bt => primitive bt | None => type_unknown end.

(** The tests that return a type or null are used as conditions only: they are
    booleans here, unless the type is used. *)
Definition type_is_primitive (t : type) (p : type_primitive) : bool :=
  match type_get_type t with Some bt => bool_decide (primitive bt = p) | None => false end.

Definition type_is_ptr (r : type) : option type :=
  match type_skip_all r with type_ptr ref _ => Some ref | _ => None end.

Definition type_is_ptr_or_block (r : type) : option type :=
  match type_is_ptr r with
  | Some t => Some t
  | None => match type_skip_all r with type_block ref => Some ref | _ => None end
  end.

Definition type_is_array (r : type) : option type :=
  match type_skip_all r with type_array ref _ _ _ => Some ref | _ => None end.

Definition type_is_s_or_u_or_e (r : type) : option sue_id :=
  match type_get_type r with Some bt => bt_sue bt | None => None end.

Definition type_is_enum (t : type) : option sue_id :=
  match type_is_s_or_u_or_e t with
  | Some s => if decide (s_primitive (sues s) = type_enum) then Some s else None
  | None => None
  end.

Definition type_is_s_or_u (r : type) : option sue_id :=
  match type_is_s_or_u_or_e r with
  | Some s => if decide (s_primitive (sues s) <> type_enum) then Some s else None
  | None => None
  end.

Definition type_is_scalar (r : type) : bool :=
  match type_is_s_or_u r, type_is_array r with None, None => true | _, _ => false end.

Definition type_is_fptr (r : type) : bool :=
  match type_is_ptr r with
  | Some t => bool_decide (kind (type_skip_all t) = kind_func)
  | None => false
  end.

Definition type_is_nonfptr (r : type) : bool :=
  match type_is_ptr r with
  | Some t => bool_decide (kind (type_skip_all t) <> kind_func)
  | None => false
  end.

Definition type_is_void (r : type) : bool := type_is_primitive r type_void.

Definition type_is_void_ptr (r : type) : bool :=
  match type_is_ptr r with Some t => type_is_void t | None => false end.

Definition type_is_nonvoid_ptr (r : type) : bool :=
  match type_is_ptr r with Some t => negb (type_is_void t) | None => false end.

Definition integral_primitive (p : type_primitive) : bool :=
  match p with
  | type_int | type_uint | type_nchar | type_schar | type_uchar | type__Bool
  | type_short | type_ushort | type_long | type_ulong | type_llong | type_ullong
  | type_enum => true
  | type_unknown | type_void | type_struct | type_union
  | type_float | type_double | type_ldouble => false
  end.

Definition type_is_integral (r : type) : bool :=
  match type_get_type r with Some bt => integral_primitive (primitive bt) | None => false end.

Definition type_is_floating (r : type) : bool :=
  match type_get_type r with Some bt => type_floating (primitive bt) | None => false end.

Definition type_is_arith (t : type) : bool :=
  match type_get_type t with
  | Some _ => type_is_integral t || type_is_floating t
  | None => false
  end.

(** [enum type_boolish]. *)
Inductive type_boolish := TYPE_BOOLISH_NO | TYPE_BOOLISH_OK | TYPE_BOOLISH_CONV.

Definition type_bool_category (t : type) : type_boolish :=
  match type_is_ptr_or_block t with
  | Some _ => TYPE_BOOLISH_OK
  | None =>
      if type_is_integral t then TYPE_BOOLISH_OK
      else if type_is_floating t then TYPE_BOOLISH_CONV
      else TYPE_BOOLISH_NO
  end.

Fixpoint type_is_complete (r : type) : res bool :=
  match r with
  | type_auto => Ice "__auto_type"
  | type_btype t =>
      match primitive t with
      | type_void => Ok false
      | type_struct | type_union | type_enum =>
          match bt_sue t with Some s => Ok (sue_is_complete (sues s)) | None => Ub "null sue" end
      | _ => Ok true
      end
  | type_array ref size _ vla =>
      if bool_decide (vla <> VLA_NO) || bool_decide (size <> size_none)
      then type_is_complete ref else Ok false
  | type_func _ _ _ _ _ | type_ptr _ _ | type_block _ => Ok true
  | type_tdef _ _ next _ _ | type_typeof _ next | type_attr next _ | type_cast next _
  | type_where next => type_is_complete next
  end.

(** The first variable dimension, at the top ([VLA_TOP_DIMENSION]) or at any
    level of an array of arrays. *)
Fixpoint type_is_vla (any_dimension : bool) (ty : type) : bool :=
  match ty with
  | type_array ref _ _ vla =>
      if decide (vla <> VLA_NO) then true
      else if any_dimension then type_is_vla any_dimension ref else false
  | type_tdef _ _ next _ _ | type_typeof _ next | type_attr next _ | type_cast next _
  | type_where next => type_is_vla any_dimension next
  | _ => false
  end.

(** Down to the basic type. *)
Fixpoint type_is_variably_modified (ty : type) : res bool :=
  match ty with
  | type_auto => Ice "__auto_type"
  | type_btype _ => Ok false
  | type_array ref _ _ vla =>
      if decide (vla <> VLA_NO) then Ok true else type_is_variably_modified ref
  | type_tdef _ _ next _ _ | type_typeof _ next | type_attr next _ | type_cast next _
  | type_where next | type_ptr next _ | type_block next | type_func next _ _ _ _ =>
      type_is_variably_modified next
  end.

Definition type_is_incomplete_array (r : type) : bool :=
  match type_skip_all r with
  | type_array _ size _ _ => bool_decide (size = size_none)
  | _ => false
  end.

Definition type_decayable (r : type) : bool :=
  match kind (type_skip_all r) with kind_array | kind_func => true | _ => false end.

Fixpoint type_is_signed (r : type) : res bool :=
  match r with
  | type_btype bt => btype_is_signed g bt
  | type_ptr _ _ => Ok true
  | type_auto => Ok false
  | type_tdef _ _ next _ _ | type_typeof _ next | type_attr next _ | type_cast next _
  | type_where next | type_block next | type_func next _ _ _ _ | type_array next _ _ _ =>
      type_is_signed next
  end.

Fixpoint type_qual (r : type) : Z :=
  match r with
  | type_btype _ | type_auto | type_func _ _ _ _ _ | type_array _ _ _ _ => qual_none
  | type_where ref | type_attr ref _ => type_qual ref
  | type_cast ref qual => Z.lor qual (type_qual ref)
  | type_ptr _ _ | type_block _ => qual_none
  | type_tdef _ _ _ _ tree | type_typeof _ tree => type_qual tree
  end.

Definition type_is_callable (r : type) : bool :=
  match type_is_ptr_or_block r with
  | Some ref => bool_decide (kind (type_skip_all ref) = kind_func)
  | None => false
  end.

Definition type_is_const (ty : type) : bool :=
  let nonarray := default ty (type_is_array ty) in
  negb (Z.land (type_qual nonarray) qual_const =? 0)%Z.

Definition type_is_variadic_func (r : type) : bool :=
  match type_skip_all r with type_func _ _ _ variadic _ => variadic | _ => false end.

Definition type_is_decayed_array (r : type) : option type :=
  match type_skip_all r with type_ptr _ from => from | _ => None end.

(** [char[]] and [char *], and the wide ones. *)
Inductive type_str_type_ := type_str_no | type_str_char | type_str_wchar.

Definition type_str_type (r : type) : type_str_type_ :=
  match match type_is_array r with Some t => Some t | None => type_is_ptr r end with
  | None => type_str_no
  | Some t =>
      match type_get_primitive t with
      | type_schar | type_nchar | type_uchar => type_str_char
      | type_int => type_str_wchar
      | _ => type_str_no
      end
  end.

(** ** Attributes of a type *)

(** The first attribute of kind [t] on the way to the basic type. *)
Fixpoint type_attr_present (t : attribute_type) (r : type) : res (option attribute) :=
  match r with
  | type_auto => Ice "__auto_type"
  | type_btype bt =>
      Ok (match bt_sue bt with Some s => attr_present (s_attr (sues s)) t | None => None end)
  | type_tdef _ dattr _ eattr tree =>
      match attr_present dattr t with
      | Some da => Ok (Some da)
      | None =>
          match attr_present eattr t with
          | Some da => Ok (Some da)
          | None => type_attr_present t tree
          end
      end
  | type_typeof eattr tree =>
      match attr_present eattr t with
      | Some da => Ok (Some da)
      | None => type_attr_present t tree
      end
  | type_attr ref attrs =>
      match attr_present attrs t with
      | Some da => Ok (Some da)
      | None => type_attr_present t ref
      end
  | type_ptr ref _ | type_block ref | type_func ref _ _ _ _ | type_array ref _ _ _
  | type_cast ref _ | type_where ref => type_attr_present t ref
  end.

(** ** Size and alignment *)

(** [const_fold_val_i] of an array's size. *)
Definition fold_size (n : array_size) : res Z :=
  match n with
  | size_const n => Ok n
  | size_expr _ => Ice "not a constant"
  | size_none => Ub "null size"
  end.

(** [unsigned]: an array's size is cut to 32 bits. *)
Fixpoint type_size (r : type) : res Z :=
  match r with
  | type_auto => Ice "__auto_type"
  | type_btype bt => btype_size bt
  | type_tdef _ _ next _ _ | type_typeof _ next | type_attr next _ | type_cast next _
  | type_where next => type_size next
  | type_ptr _ _ | type_block _ => Ok (platform_word_size g)
  | type_func _ _ _ _ _ => Ok 1%Z
  | type_array ref size _ _ =>
      if type_is_void ref then Die "array of void"
      else if decide (size = size_none) then Die "array has an incomplete size"
      else
        sz ← fold_size size;
        elem ← type_size ref;
        Ok ((sz * elem) `mod` 2 ^ 64 `mod` 2 ^ 32)%Z
  end.

(** [type_align_no_attr] and [type_align], by [with_attributes]; an array's
    alignment is always its element's [type_align]. The [attr_aligned] without
    an expression asks for the platform's largest alignment. *)
Fixpoint type_align_with_attr (with_attributes : bool) (r : type) : res Z :=
  let unattributed :=
    match r with
    | type_ptr _ _ | type_block _ => Ok (platform_word_size g)
    | type_btype bt =>
        match bt_sue bt with
        | Some s =>
            if decide (s_primitive (sues s) <> type_enum) then
              if decide (s_fold (sues s) = SUE_FOLDED_FULLY) then sue_align (sues s)
              else Ice "sue->foldprog == SUE_FOLDED_FULLY"
            else btype_align bt
        | None => btype_align bt
        end
    | type_array ref _ _ _ => type_align_with_attr true ref
    | type_tdef _ _ next _ _ | type_typeof _ next | type_attr next _ | type_cast next _
    | type_where next => type_align_with_attr false next
    | type_func _ _ _ _ _ | type_auto => Ok 1%Z
    end in
  if with_attributes then
    al ← type_attr_present attr_aligned r;
    match al with
    | Some a => Ok (match a_align a with Some n => (n `mod` 2 ^ 32)%Z | None => platform_align_max g end)
    | None => unattributed
    end
  else unattributed.

Definition type_align : type -> res Z := type_align_with_attr true.
Definition type_align_no_attr : type -> res Z := type_align_with_attr false.

(** [INTEGRAL_BITS] is 64; shifting by 64 bits or more has no meaning. *)
Definition type_max (r : type) : res Z :=
  sz ← type_size r;
  let bits := ((sz * 8) `mod` 2 ^ 32)%Z in
  is_signed ← type_is_signed r;
  if ((64 <? bits) || (bits =? 0))%Z then Ub "shift out of range" else
  let max := Z.shiftr (2 ^ 64 - 1) (64 - bits) in
  Ok (if is_signed : bool then ((max / 2 - 1) `mod` 2 ^ 64)%Z else max).

(** The type it is promoted to, if it is. *)
Definition type_is_promotable (t : type) : res (option type_primitive) :=
  if negb (type_is_arith t) then Ok None
  else
    let prim := if type_is_floating t then type_double else type_int in
    sz ← type_size t;
    psz ← type_primitive_size g prim;
    Ok (if (sz <? psz)%Z then Some prim else None).

(** [type_sign]: the primitive of the basic type it returns. *)
Definition type_sign (ty : type) (make_signed : bool) : res type_primitive :=
  let prim := type_get_primitive ty in
  if decide (prim = type_unknown) then Ice "prim != type_unknown"
  else if (type_intrank prim =? -1)%Z then Ice "type_intrank(prim) != -1"
  else
    is_signed ← type_primitive_is_signed g prim true;
    Ok (if make_signed then
          if is_signed : bool then prim
          else if TYPE_PRIMITIVE_IS_CHAR prim then type_schar else TYPE_PRIMITIVE_TO_SIGNED prim
        else
          if is_signed then
            if TYPE_PRIMITIVE_IS_CHAR prim then type_uchar else TYPE_PRIMITIVE_TO_UNSIGNED prim
          else prim).

(** ** Comparison *)

(** Is [needle] the struct or union of a member of [inn]? *)
Definition struct_union_member_find_sue (inn needle : sue_id) : res bool :=
  if decide (s_primitive (sues inn) = type_enum) then Ice "enum"
  else Ok (existsb (fun m =>
    match m with
    | struct_member d => bool_decide (type_is_s_or_u (m_ref d) = Some needle)
    | enum_member _ _ => false
    end) (s_members (sues inn))).

Definition type_qual_cmp_1 (a b mask : Z) : Z :=
  let has x := if (Z.land x mask =? 0)%Z then 0%Z else 1%Z in
  match (has a - has b)%Z with
  | 0%Z => 0
  | 1%Z => -1
  | _ => 1
  end%Z.

Definition type_qual_cmp (a b : Z) : Z :=
  let a := Z.ldiff a qual_restrict in
  let b := Z.ldiff b qual_restrict in
  if (a =? b)%Z then 0%Z
  else
    let r := type_qual_cmp_1 a b qual_const in
    if negb (r =? 0)%Z then r
    else
      let r := type_qual_cmp_1 a b qual_volatile in
      if negb (r =? 0)%Z then r else 0%Z.

Definition type_attribute_missing1 (ta tb : type) (attr : attribute_type) : res bool :=
  pb ← type_attr_present attr tb;
  match pb with
  | None => Ok false
  | Some _ => pa ← type_attr_present attr ta; Ok (match pa with None => true | Some _ => false end)
  end.

Definition type_attribute_missing (ta tb : type) : res bool :=
  let fix loop (attrs : list attribute_type) : res bool :=
    match attrs with
    | [] => Ok false
    | attr :: attrs =>
        missing ← type_attribute_missing1 ta tb attr;
        if missing : bool then Ok true else loop attrs
    end in
  loop tymismatch_attrs.

(** [enum funcargs_cmp]. *)
Inductive funcargs_cmp_ :=
  | FUNCARGS_EXACT_EQUAL | FUNCARGS_IMPLICIT_CONV | FUNCARGS_MISMATCH_TYPES | FUNCARGS_MISMATCH_COUNT.

Section with_type_cmp.
Context (type_cmp : type -> type -> bool -> res cmp).

(** The argument loop of [funcargs_cmp]. *)
Fixpoint funcargs_loop (to from : list type) : res funcargs_cmp_ :=
  match to, from with
  | [], _ => Ok FUNCARGS_EXACT_EQUAL
  | _, [] => Ub "null argument"
  | t :: to, f :: from =>
      c ← type_cmp t f false;
      match c with
      | TYPE_EQUAL | TYPE_QUAL_ADD | TYPE_QUAL_SUB | TYPE_EQUAL_TYPEDEF => funcargs_loop to from
      | _ => Ok FUNCARGS_MISMATCH_TYPES
      end
  end.

(** The arguments are the fields of the two [funcargs]. *)
Definition funcargs_cmp (id_to : nat) (void_to variadic_to : bool) (to : list type)
    (id_from : nat) (void_from : bool) (from : list type) : res funcargs_cmp_ :=
  if decide (id_to = id_from) then Ok FUNCARGS_EXACT_EQUAL
  else if (bool_decide (to = []) && negb void_to) || (bool_decide (from = []) && negb void_from)
  then Ok FUNCARGS_IMPLICIT_CONV
  else if negb (if variadic_to then length to <=? length from else length to =? length from)%nat
  then Ok FUNCARGS_MISMATCH_COUNT
  else funcargs_loop to from.

End with_type_cmp.

(** The kinds differ: what still converts. *)
Definition type_cmp_kinds (a b : type) : cmp :=
  let ptr_or_block t := match type_is_ptr_or_block t with Some _ => true | None => false end in
  let is_ptr t := match type_is_ptr t with Some _ => true | None => false end in
  if type_is_primitive a type__Bool && is_ptr b then TYPE_CONVERTIBLE_IMPLICIT
  else if (ptr_or_block a && type_is_integral b) || (ptr_or_block b && type_is_integral a)
  then TYPE_CONVERTIBLE_EXPLICIT
  else if type_is_void a then TYPE_CONVERTIBLE_IMPLICIT
  else if (type_is_fptr a && bool_decide (kind (type_skip_all b) = kind_block))
       || (type_is_fptr b && bool_decide (kind (type_skip_all a) = kind_block))
  then TYPE_CONVERTIBLE_EXPLICIT
  else TYPE_NOT_EQUAL.

(** Do the dimensions stop the comparison of two arrays? [tentative] is
    [TYPE_CMP_ALLOW_TENATIVE_ARRAY]. *)
Definition type_cmp_dims (tentative : bool) (sa : array_size) (va : vla_kind)
    (sb : array_size) (vb : vla_kind) : res bool :=
  if bool_decide (va <> VLA_NO) || bool_decide (vb <> VLA_NO) then Ok false
  else
    match sa, sb with
    | size_none, size_none => Ok false
    | size_none, _ | _, size_none => Ok (negb tentative)
    | _, _ =>
        av ← fold_size sa;
        bv ← fold_size sb;
        Ok (negb (av =? bv)%Z)
    end.

(** The fixups of [TYPE_NOT_EQUAL]: the new result, and
    [skip_pointer_explicit_decay]. *)
Definition type_cmp_fixup (a b : type) (ret : cmp) : res (cmp * bool) :=
  if decide (ret = TYPE_NOT_EQUAL) then
    match a with
    | type_func _ _ _ _ _ => Ok (TYPE_CONVERTIBLE_EXPLICIT, false)
    | type_ptr aref _ =>
        if plan9_extensions g then
          match b with
          | type_ptr bref _ =>
              match type_is_s_or_u aref, type_is_s_or_u bref with
              | Some a_sue, Some b_sue =>
                  found ← struct_union_member_find_sue b_sue a_sue;
                  Ok (if found : bool then (TYPE_CONVERTIBLE_IMPLICIT, true) else (ret, false))
              | _, _ => Ok (ret, false)
              end
          | _ => Ok (ret, false)
          end
        else Ok (TYPE_CONVERTIBLE_EXPLICIT, false)
    | _ => Ok (ret, false)
    end
  else Ok (ret, false).

(** One level of pointer moves the qualifier results down. *)
Definition type_cmp_pointed (ret : cmp) : cmp :=
  match ret with
  | TYPE_QUAL_ADD => TYPE_QUAL_POINTED_ADD
  | TYPE_QUAL_SUB => TYPE_QUAL_POINTED_SUB
  | TYPE_QUAL_POINTED_ADD => TYPE_QUAL_NESTED_CHANGE
  | TYPE_QUAL_POINTED_SUB => TYPE_QUAL_NESTED_CHANGE
  | _ => ret
  end.

(** The qualifiers of two types that are equal without them. *)
Definition type_cmp_quals (orig_a orig_b : type) (ret : cmp) : cmp :=
  if TYPE_EQUAL_ANY ret then
    let a_qual := type_qual orig_a in
    let b_qual := type_qual orig_b in
    let has q := negb (q =? 0)%Z in
    if has a_qual && has b_qual then
      match type_qual_cmp a_qual b_qual with
      | (-1)%Z => TYPE_QUAL_ADD
      | 1%Z => TYPE_QUAL_SUB
      | _ => ret
      end
    else if has a_qual then TYPE_QUAL_ADD
    else if has b_qual then TYPE_QUAL_SUB
    else ret
  else ret.

Definition type_cmp_attrs (orig_a orig_b : type) (ret : cmp) : res cmp :=
  if TYPE_EQUAL_ANY ret then
    missing ← type_attribute_missing orig_a orig_b;
    Ok (if missing : bool then TYPE_QUAL_POINTED_SUB else ret)
  else Ok ret.

Definition type_cmp_tdefs (orig_a orig_b : type) (ret : cmp) : cmp :=
  if decide (ret = TYPE_EQUAL) then
    let decl t := match t with type_tdef d _ _ _ _ => Some d | _ => None end in
    let at_ := bool_decide (kind orig_a = kind_tdef) in
    let bt := bool_decide (kind orig_b = kind_tdef) in
    if negb (Bool.eqb at_ bt) then TYPE_EQUAL_TYPEDEF
    else if at_ then if decide (decl orig_a = decl orig_b) then ret else TYPE_EQUAL_TYPEDEF
    else ret
  else ret.

(** From the result for what [a] and [b] are made of to theirs. *)
Definition type_cmp_finish (orig_a orig_b a b : type) (ret : cmp) : res cmp :=
  '(ret, skip) ← type_cmp_fixup a b ret;
  let ret := if bool_decide (ret = TYPE_CONVERTIBLE_IMPLICIT) && bool_decide (kind a = kind_ptr)
                && negb skip
             then TYPE_CONVERTIBLE_EXPLICIT else ret in
  let ret := if bool_decide (kind a = kind_ptr) || bool_decide (kind a = kind_block)
             then type_cmp_pointed ret else ret in
  let ret := type_cmp_quals orig_a orig_b ret in
  ret ← type_cmp_attrs orig_a orig_b ret;
  Ok (type_cmp_tdefs orig_a orig_b ret).

(** [type_cmp]'s own part: [void *] converts both ways. *)
Definition type_cmp_void_ptr (a b : type) (c : cmp) : cmp :=
  let is_ptr t := match type_is_ptr t with Some _ => true | None => false end in
  if decide (c = TYPE_CONVERTIBLE_EXPLICIT) then
    if type_is_void_ptr a && is_ptr b then TYPE_CONVERTIBLE_IMPLICIT
    else if type_is_void_ptr b && is_ptr a then TYPE_CONVERTIBLE_IMPLICIT
    else c
  else c.

Fixpoint type_cmp_r (fuel : nat) (orig_a orig_b : type) (tentative : bool) : res cmp :=
  match fuel with
  | O => NoFuel
  | S fuel =>
      let a := type_skip_all orig_a in
      let b := type_skip_all orig_b in
      if decide (kind a <> kind b) then Ok (type_cmp_kinds a b)
      else
        match a, b with
        | type_btype ba, type_btype bb =>
            ret ← btype_cmp ba bb; type_cmp_finish orig_a orig_b a b ret
        | type_array aref sa _ va, type_array bref sb _ vb =>
            differ ← type_cmp_dims tentative sa va sb vb;
            if differ : bool then Ok TYPE_NOT_EQUAL
            else ret ← type_cmp_r fuel aref bref tentative; type_cmp_finish orig_a orig_b a b ret
        | type_ptr aref _, type_ptr bref _ | type_block aref, type_block bref =>
            ret ← type_cmp_r fuel aref bref tentative; type_cmp_finish orig_a orig_b a b ret
        | type_func aref aid avoid avar aargs, type_func bref bid bvoid _ bargs =>
            let arg_cmp t f tentative :=
              c ← type_cmp_r fuel t f tentative; Ok (type_cmp_void_ptr t f c) in
            fc ← funcargs_cmp arg_cmp aid avoid avar aargs bid bvoid bargs;
            match fc with
            | FUNCARGS_EXACT_EQUAL | FUNCARGS_IMPLICIT_CONV =>
                ret ← type_cmp_r fuel aref bref tentative; type_cmp_finish orig_a orig_b a b ret
            | _ => Ok TYPE_CONVERTIBLE_EXPLICIT
            end
        | type_auto, _ => Ice "__auto_type"
        | _, _ => Ice "should've been skipped"
        end
  end.

Definition type_cmp (fuel : nat) (a b : type) (tentative : bool) : res cmp :=
  c ← type_cmp_r fuel a b tentative; Ok (type_cmp_void_ptr a b c).

(** ** Building types *)

(** [type_attributed], [type_array_of], [type_ptr_to], [type_decayed_ptr_to]:
    without the search for an equal type already built. *)
Definition type_attributed (ty : type) (attrs : list attribute) : type :=
  match attrs with [] => ty | _ => type_attr ty attrs end.

Definition type_array_of (to : type) (new_sz : array_size) : type :=
  type_array to new_sz false VLA_NO.

Definition type_ptr_to (pointee : type) : type := type_ptr pointee None.

Definition type_decayed_ptr_to (pointee array_from : type) : type :=
  type_ptr pointee (Some array_from).

(** The qualifiers to add to [unqualified], [None] when there is nothing new. *)
Definition new_quals (unqualified : type) (qual : Z) : option Z :=
  if (qual =? 0)%Z then None
  else
    let existing := type_qual unqualified in
    if negb (existing =? 0)%Z && (Z.lor qual existing =? existing)%Z then None
    else Some (Z.ldiff qual existing).

(** Looking for an array below [whole], at [t]: [type_qualify3] with
    [transform_array_qual] once there is something to add. *)
Fixpoint qualify_array (whole : type) (qual : Z) (t : type) : type :=
  match t with
  | type_array ref size _ _ =>
      type_array_of (match new_quals ref qual with
                     | None => ref
                     | Some q => qualify_array ref q ref
                     end) size
  | type_tdef _ _ next _ _ | type_typeof _ next | type_attr next _ | type_cast next _
  | type_where next => qualify_array whole qual next
  | _ => type_cast whole qual
  end.

Definition type_qualify3 (unqualified : type) (qual : Z) (transform_array_qual : bool) : type :=
  match new_quals unqualified qual with
  | None => unqualified
  | Some q => if transform_array_qual then qualify_array unqualified q unqualified
              else type_cast unqualified q
  end.

Definition type_qualify (unqualified : type) (qual : Z) : type :=
  type_qualify3 unqualified qual true.

(** [type_has_loc]: is there a location? *)
Fixpoint type_has_loc (t : type) : bool :=
  match t with
  | type_where _ => true
  | type_tdef _ _ next _ _ | type_typeof _ next | type_cast next _ | type_attr next _ =>
      type_has_loc next
  | type_ptr _ (Some from) => type_has_loc from
  | type_array _ size _ _ => bool_decide (size <> size_none)
  | _ => false
  end.

(** [type_at_where] of a type that is not at that location already. *)
Definition type_at_where (t : type) : type := type_where (type_skip_wheres t).

Definition type_keep_w_attr (t : type) (loc : bool) (attr : list attribute) : type :=
  let t := type_attributed t attr in
  if loc && negb (type_has_loc t) then type_at_where t else t.

(** The loop of [type_decay] at [test], with its locals. *)
Fixpoint decay_loop (ty : type) (loc : bool) (attr : list attribute) (last_qual : Z) (test : type)
    : res type :=
  match test with
  | type_auto => Ice "__auto_type"
  | type_where ref => decay_loop ty true attr last_qual ref
  | type_attr ref attrs => decay_loop ty loc (attr ++ attrs) last_qual ref
  | type_cast ref qual => decay_loop ty loc attr (Z.lor last_qual qual) ref
  | type_tdef _ _ next _ _ | type_typeof _ next => decay_loop ty loc attr last_qual next
  | type_btype _ | type_ptr _ _ | type_block _ => Ok ty
  | type_array ref _ _ _ =>
      Ok (type_keep_w_attr (type_qualify (type_decayed_ptr_to ref test) last_qual) loc attr)
  | type_func _ _ _ _ _ => Ok (type_keep_w_attr (type_ptr_to test) loc attr)
  end.

Definition type_decay (ty : type) : res type := decay_loop ty false [] qual_none ty.

(** [type_unattribute]. *)
Fixpoint unattribute_loop (loc : bool) (last_qual : Z) (i : type) : res type :=
  match i with
  | type_auto => Ice "__auto_type"
  | type_where ref => unattribute_loop true last_qual ref
  | type_cast ref qual => unattribute_loop loc (Z.lor last_qual qual) ref
  | type_attr next _ | type_tdef _ _ next _ _ | type_typeof _ next =>
      unattribute_loop loc last_qual next
  | _ => Ok (type_keep_w_attr (type_qualify i last_qual) loc [])
  end.

Definition type_unattribute (t : type) : res type := unattribute_loop false qual_none t.

(** [type_unqualify]: [prev] is the last cast met, [t_restrict] the last one
    that has [restrict], with a mark that it is [prev]. *)
Fixpoint unqualify_loop (t_restrict : option (type * bool)) (attr : list attribute) (i : type)
    : res type :=
  match i with
  | type_cast ref qual =>
      if negb (Z.land qual qual_restrict =? 0)%Z
      then unqualify_loop (Some (i, true)) attr ref
      else unqualify_loop (match t_restrict with Some (t, _) => Some (t, false) | None => None end)
                          attr ref
  | type_attr ref attrs => unqualify_loop t_restrict (attr ++ attrs) ref
  | type_where next | type_tdef _ _ next _ _ | type_typeof _ next =>
      unqualify_loop t_restrict attr next
  | type_auto => Ice "assert(i)"
  | _ =>
      Ok (type_attributed
            (match t_restrict with
             | Some (t, true) => t
             | Some (_, false) => type_qualify i qual_restrict
             | None => i
             end) attr)
  end.

Definition type_unqualify (qualified : type) : res type := unqualify_loop None [] qualified.

(** [type_dereference_decay]. *)
Definition type_dereference_decay (ty_ptr : type) : res type :=
  match type_is_ptr ty_ptr with
  | None => Ice "assert(pointee)"
  | Some pointee =>
      match kind (type_skip_all pointee) with
      | kind_func => Ok ty_ptr
      | kind_array => type_decay pointee
      | _ => Ok pointee
      end
  end.

(** ** Running out of fuel *)

(** How deep the constructors of a type nest. *)
Fixpoint type_depth (t : type) : nat :=
  match t with
  | type_btype _ | type_auto => 1
  | type_tdef _ _ dref _ tree => S (Nat.max (type_depth dref) (type_depth tree))
  | type_typeof _ tree => S (type_depth tree)
  | type_func ref _ _ _ args =>
      S (Nat.max (type_depth ref) (foldr (fun t n => Nat.max (type_depth t) n) 0 args))
  | type_ptr ref _ | type_block ref | type_array ref _ _ _ | type_cast ref _ | type_attr ref _
  | type_where ref => S (type_depth ref)
  end.

Lemma skip_depth (p : type_skippage -> bool) (t : type) : type_depth (type_skip p t) <= type_depth t.
Proof.
  induction t; simpl; repeat (case_match; simpl); try lia.
Qed.

Lemma args_depth (args : list type) (t : type) :
  t ∈ args -> type_depth t <= foldr (fun t n => Nat.max (type_depth t) n) 0 args.
Proof.
  induction args as [|a args IH]; intros H; [by apply not_elem_of_nil in H|].
  apply elem_of_cons in H as [->|H]; simpl; [lia|]. specialize (IH H). lia.
Qed.

(** What [type_skip_all] stops at is a constructor of its own. *)
Lemma skip_all_kind (t : type) :
  match kind (type_skip_all t) with
  | kind_tdef | kind_cast | kind_attr | kind_where => False
  | _ => True
  end.
Proof. unfold type_skip_all. induction t; simpl; auto. Qed.

Lemma skip_all_idem (t : type) : type_skip_all (type_skip_all t) = type_skip_all t.
Proof. unfold type_skip_all. induction t; simpl; auto. Qed.

Lemma attr_present_fueled (t : attribute_type) (r : type) : fueled (type_attr_present t r).
Proof. induction r; simpl; repeat case_match; done. Qed.

Lemma missing_fueled (a b : type) : fueled (type_attribute_missing a b).
Proof.
  assert (Hone : forall attr, fueled (type_attribute_missing1 a b attr)).
  { intros attr. apply fueled_bind; [apply attr_present_fueled|]. intros [x|] _; [|done].
    apply fueled_bind; [apply attr_present_fueled|done]. }
  unfold type_attribute_missing. induction tymismatch_attrs as [|attr attrs IH]; [done|].
  apply fueled_bind; [apply Hone|]. intros [|] _; [done|exact IH].
Qed.

Lemma finish_fueled (oa ob a b : type) (ret : cmp) : fueled (type_cmp_finish oa ob a b ret).
Proof.
  apply fueled_bind.
  { unfold type_cmp_fixup, struct_union_member_find_sue. repeat (case_match; simpl; try done). }
  intros [ret' skip] _. apply fueled_bind; [|done].
  unfold type_cmp_attrs. case_match; [|done]. apply fueled_bind; [apply missing_fueled|done].
Qed.

Lemma funcargs_loop_fueled (cmp : type -> type -> bool -> res cmp) (to from : list type) :
  (forall t f, t ∈ to -> fueled (cmp t f false)) -> fueled (funcargs_loop cmp to from).
Proof.
  revert from. induction to as [|t to IH]; intros [|f from] H; try done; simpl.
  apply fueled_bind; [apply H; left|]. intros c _.
  destruct c; try done; apply IH; intros; apply H; by right.
Qed.

Lemma funcargs_fueled (cmp : type -> type -> bool -> res cmp) aid avoid avar aargs bid bvoid bargs :
  (forall t f, t ∈ aargs -> fueled (cmp t f false)) ->
  fueled (funcargs_cmp cmp aid avoid avar aargs bid bvoid bargs).
Proof.
  intros H. unfold funcargs_cmp. repeat (case_match; try done).
  all: by apply funcargs_loop_fueled.
Qed.

Lemma type_cmp_r_fueled (n : nat) (a b : type) (tentative : bool) :
  type_depth a < n -> fueled (type_cmp_r n a b tentative).
Proof.
  revert a b tentative. induction n as [|n IH]; intros a b tentative Hn; [lia|].
  pose proof (skip_depth (fun _ => false) a) as Hs. fold type_skip_all in Hs.
  simpl. case_match; [done|].
  destruct (type_skip_all a) as [| | |aref|aref|aref aid av avar aargs|aref| | | |] eqn:Ea;
    destruct (type_skip_all b); try done; simpl in Hs.
  - apply fueled_bind; [|intros; apply finish_fueled].
    unfold btype_cmp. repeat case_match; done.
  - apply fueled_bind; [apply IH; lia|intros; apply finish_fueled].
  - apply fueled_bind; [apply IH; lia|intros; apply finish_fueled].
  - apply fueled_bind.
    { apply funcargs_fueled. intros ta fa Ht. apply args_depth in Ht.
      apply fueled_bind; [apply IH; lia|done]. }
    intros [] _; try done; (apply fueled_bind; [apply IH; lia|intros; apply finish_fueled]).
  - apply fueled_bind.
    { unfold type_cmp_dims, fold_size. repeat (case_match; simpl; try done). }
    intros [|] _; [done|]. apply fueled_bind; [apply IH; lia|intros; apply finish_fueled].
Qed.

(** C24: comparing two types ends: a fuel above the depth of the first one is
    never used up, so [type_cmp] gives a verdict or the diagnosis of a broken
    type, whatever the second type is. *)
Theorem type_cmp_terminates (n : nat) (a b : type) (tentative : bool) :
  type_depth a < n -> fueled (type_cmp n a b tentative).
Proof.
  intros H. apply fueled_bind; [by apply type_cmp_r_fueled|done].
Qed.

(** ** Reflexivity *)

(** A type all of whose parts can be looked at: no [__auto_type], no unknown
    primitive, no dimension that does not fold. *)
Fixpoint comparable (t : type) : bool :=
  match t with
  | type_btype bt => negb (bool_decide (primitive bt = type_unknown))
  | type_auto => false
  | type_tdef _ _ dref _ tree => comparable dref && comparable tree
  | type_typeof _ tree => comparable tree
  | type_array ref size _ vla =>
      comparable ref
      && (bool_decide (vla <> VLA_NO) || match size with size_expr _ => false | _ => true end)
  | type_ptr ref _ | type_block ref | type_func ref _ _ _ _ | type_cast ref _ | type_attr ref _
  | type_where ref => comparable ref
  end.

Lemma comparable_skip (t : type) : comparable t = true -> comparable (type_skip_all t) = true.
Proof.
  unfold type_skip_all. induction t; simpl; auto; rewrite ?andb_true_iff; intuition.
Qed.

Lemma comparable_attrs (attr : attribute_type) (t : type) :
  comparable t = true -> exists o, type_attr_present attr t = Ok o.
Proof.
  induction t; simpl; rewrite ?andb_true_iff; try discriminate; intros H; eauto;
    repeat case_match; eauto; naive_solver.
Qed.

Lemma missing_refl (t : type) : comparable t = true -> type_attribute_missing t t = Ok false.
Proof.
  intros H. unfold type_attribute_missing, type_attribute_missing1.
  induction tymismatch_attrs as [|attr attrs IH]; [done|].
  destruct (comparable_attrs attr t H) as [o Ho].
  rewrite Ho. destruct o; simpl; rewrite ?Ho; exact IH.
Qed.

Lemma qual_cmp_refl (q : Z) : type_qual_cmp q q = 0%Z.
Proof. unfold type_qual_cmp. by rewrite Z.eqb_refl. Qed.

Lemma finish_refl (t a : type) :
  comparable t = true -> type_cmp_finish t t a a TYPE_EQUAL = Ok TYPE_EQUAL.
Proof.
  intros H. unfold type_cmp_finish, type_cmp_attrs, type_cmp_quals. simpl.
  rewrite qual_cmp_refl.
  replace (if _ || _ then TYPE_EQUAL else TYPE_EQUAL) with TYPE_EQUAL by (by case_match).
  destruct (type_qual t =? 0)%Z; simpl; rewrite (missing_refl t H); simpl;
    unfold type_cmp_tdefs; simpl; rewrite Bool.eqb_reflx; simpl;
    (case_match; [by rewrite decide_True|done]).
Qed.

Lemma btype_cmp_refl (bt : btype) :
  primitive bt <> type_unknown -> btype_cmp bt bt = Ok TYPE_EQUAL.
Proof. intros H. unfold btype_cmp. destruct (primitive bt); simpl; by rewrite ?decide_True. Qed.

Lemma dims_refl (tentative : bool) (size : array_size) (vla : vla_kind) :
  bool_decide (vla <> VLA_NO) || match size with size_expr _ => false | _ => true end = true ->
  type_cmp_dims tentative size vla size vla = Ok false.
Proof.
  unfold type_cmp_dims. destruct (bool_decide (vla <> VLA_NO)); simpl; [done|].
  destruct size; simpl; intros; by rewrite ?Z.eqb_refl.
Qed.

Lemma type_cmp_r_refl (n : nat) (t : type) (tentative : bool) :
  comparable t = true -> type_depth t < n -> type_cmp_r n t t tentative = Ok TYPE_EQUAL.
Proof.
  revert t tentative. induction n as [|n IH]; intros t tentative H Hn; [lia|].
  pose proof (skip_depth (fun _ => false) t) as Hs. fold type_skip_all in Hs.
  pose proof (comparable_skip t H) as Hc. pose proof (skip_all_kind t) as Hk.
  simpl. rewrite decide_False by auto.
  destruct (type_skip_all t) as [bt| | |ref|ref|ref|ref size st vla| | | |];
    simpl in Hs, Hc, Hk; try done.
  - rewrite btype_cmp_refl by (by apply negb_true_iff, bool_decide_eq_false in Hc).
    by apply finish_refl.
  - rewrite IH by (done || lia). by apply finish_refl.
  - rewrite IH by (done || lia). by apply finish_refl.
  - unfold funcargs_cmp. rewrite decide_True by done. simpl.
    rewrite IH by (done || lia). by apply finish_refl.
  - apply andb_true_iff in Hc as [Hc Hd]. rewrite dims_refl by done. simpl.
    rewrite IH by (done || lia). by apply finish_refl.
Qed.

(** every type is equal to itself: whatever its qualifiers, attributes,
    typedefs and array bounds, [type_cmp(t, t)] is [TYPE_EQUAL] as long as the
    type is complete enough to be looked at. *)
Theorem type_cmp_refl (n : nat) (t : type) (tentative : bool) :
  comparable t = true -> type_depth t < n -> type_cmp n t t tentative = Ok TYPE_EQUAL.
Proof. intros H Hn. unfold type_cmp. by rewrite type_cmp_r_refl. Qed.

(** ** Equal types have equal sizes *)

(** A basic type with the definition it needs: its own kind of definition for a
    struct, union or enum, an enum's for an [int] that stands for one. *)
Definition wf_btype (bt : btype) : bool :=
  match primitive bt, bt_sue bt with
  | (type_struct | type_union | type_enum) as p, Some s => bool_decide (s_primitive (sues s) = p)
  | type_int, Some s => bool_decide (s_primitive (sues s) = type_enum)
  | (type_struct | type_union | type_enum), None => false
  | _, None => true
  | _, Some _ => false
  end.

(** The part of a type [sizeof] looks at is well formed and of fixed size. *)
Fixpoint wf_sized (t : type) : bool :=
  match t with
  | type_btype bt => wf_btype bt
  | type_tdef _ _ next _ _ | type_typeof _ next | type_cast next _ | type_attr next _
  | type_where next => wf_sized next
  | type_array ref _ _ vla => bool_decide (vla = VLA_NO) && wf_sized ref
  | type_ptr _ _ | type_block _ | type_func _ _ _ _ _ | type_auto => true
  end.

(** Equal up to typedef names and qualifiers. *)
Definition same_layout (c : cmp) : bool :=
  match c with
  | TYPE_EQUAL | TYPE_EQUAL_TYPEDEF | TYPE_QUAL_ADD | TYPE_QUAL_SUB => true
  | _ => false
  end.

Lemma size_skip (t : type) : type_size t = type_size (type_skip_all t).
Proof. unfold type_skip_all. induction t; simpl; auto. Qed.

Lemma void_skip (t : type) : type_is_void t = type_is_void (type_skip_all t).
Proof.
  unfold type_is_void, type_is_primitive, type_get_type. by rewrite skip_all_idem.
Qed.

Lemma wf_sized_skip (t : type) : wf_sized t = true -> wf_sized (type_skip_all t) = true.
Proof. unfold type_skip_all. induction t; simpl; auto. Qed.

Lemma kinds_no_layout (a b : type) : same_layout (type_cmp_kinds a b) = false.
Proof. unfold type_cmp_kinds. repeat case_match; done. Qed.

Lemma void_ptr_layout (a b : type) (c : cmp) :
  same_layout (type_cmp_void_ptr a b c) = true -> same_layout c = true.
Proof. unfold type_cmp_void_ptr. repeat case_match; done. Qed.

Lemma tdefs_layout (a b : type) (c : cmp) : same_layout (type_cmp_tdefs a b c) = same_layout c.
Proof. unfold type_cmp_tdefs. repeat case_match; subst; done. Qed.

Lemma quals_layout (a b : type) (c : cmp) : same_layout (type_cmp_quals a b c) = same_layout c.
Proof. unfold type_cmp_quals. destruct c; simpl; try done; repeat case_match; done. Qed.

Lemma attrs_layout (a b : type) (c c' : cmp) :
  type_cmp_attrs a b c = Ok c' -> same_layout c' = true -> same_layout c = true.
Proof.
  unfold type_cmp_attrs. case_match.
  - destruct c; done.
  - intros [= <-]. done.
Qed.

(** For a basic type or an array the verdict on the parts carries over. *)
Lemma finish_layout (oa ob a b : type) (ret c : cmp) :
  kind a = kind_btype \/ kind a = kind_array ->
  type_cmp_finish oa ob a b ret = Ok c -> same_layout c = true -> same_layout ret = true.
Proof.
  intros Hk H Hc. unfold type_cmp_finish in H.
  assert (Hf : type_cmp_fixup a b ret = Ok (ret, false)).
  { unfold type_cmp_fixup. destruct (decide (ret = TYPE_NOT_EQUAL)); [|done].
    destruct Hk; by destruct a. }
  rewrite Hf in H. simpl in H. apply bind_Ok in H as (c1 & H & [= <-]).
  rewrite tdefs_layout in Hc. apply (attrs_layout _ _ _ _ H) in Hc.
  rewrite quals_layout in Hc.
  destruct Hk; destruct a; try done; simpl in Hc; by rewrite andb_false_r in Hc.
Qed.

Lemma btype_layout (ba bb : btype) (c : cmp) :
  wf_btype ba = true -> wf_btype bb = true ->
  btype_cmp ba bb = Ok c -> same_layout c = true ->
  (primitive ba = type_void <-> primitive bb = type_void) /\ btype_size ba = btype_size bb.
Proof.
  unfold wf_btype, btype_cmp, btype_size.
  destruct ba as [pa sa], bb as [pb sb]; simpl.
  destruct pa; simpl; intros Ha Hb Hc Hl; repeat (case_match; simplify_eq/=; try done);
    rewrite ?bool_decide_eq_true in *; (split; [split; intros; congruence|congruence]).
Qed.

Lemma type_cmp_r_size (n : nat) (a b : type) (c : cmp) :
  wf_sized a = true -> wf_sized b = true ->
  type_cmp_r n a b false = Ok c -> same_layout c = true ->
  type_size a = type_size b /\ type_is_void a = type_is_void b.
Proof.
  revert a b c. induction n as [|n IH]; intros a b c Ha Hb H Hc; [done|].
  rewrite (size_skip a), (size_skip b), (void_skip a), (void_skip b).
  apply wf_sized_skip in Ha, Hb. simpl in H.
  case_match; [simplify_eq; by rewrite kinds_no_layout in Hc|].
  destruct (type_skip_all a) as [ba| | |aref|aref|aref|aref sa sta va| | | |] eqn:Ea;
    destruct (type_skip_all b) as [bb| | |bref|bref|bref|bref sb stb vb| | | |] eqn:Eb;
    try done.
  - apply bind_Ok in H as (ret & Hret & H).
    apply finish_layout in H; auto. simpl in Ha, Hb.
    destruct (btype_layout ba bb ret Ha Hb Hret H) as [Hv Hs].
    split; [exact Hs|]. apply Bool.eq_iff_eq_true.
    unfold type_is_void, type_is_primitive, type_get_type; simpl. by rewrite !bool_decide_eq_true.
  - simpl in Ha, Hb. apply andb_true_iff in Ha as [Hva Ha], Hb as [Hvb Hb].
    rewrite bool_decide_eq_true in Hva, Hvb. subst va vb.
    apply bind_Ok in H as ([|] & Hd & H); [by simplify_eq|].
    apply bind_Ok in H as (ret & Hret & H). apply finish_layout in H; auto.
    destruct (IH aref bref ret Ha Hb Hret H) as [Hs Hv].
    split; [|done]. simpl. rewrite Hv, Hs.
    unfold type_cmp_dims in Hd; simpl in Hd.
    destruct sa as [|na|ea], sb as [|nb|eb]; simpl in Hd; try done.
    injection Hd as Hd. apply negb_false_iff, Z.eqb_eq in Hd. by subst nb.
Qed.

(** C23: types without variable arrays, whose struct, union and enum types have
    definitions of their kind ([wf_sized]), that compare as equal - not in the
    mode for tentative definitions, where an array without a size equals any - up
    to typedef names and qualifiers, have the same size: an assignment or a call
    that [type_cmp] lets through copies what the other side has room for. It holds of the errors of [type_size] too: an incomplete array is equal
    to incomplete arrays only. A variable array may equal one of constant length
    (Example vla_equal). *)
Theorem type_cmp_size (n : nat) (a b : type) (c : cmp) :
  wf_sized a = true -> wf_sized b = true ->
  type_cmp n a b false = Ok c -> same_layout c = true -> type_size a = type_size b.
Proof.
  intros Ha Hb H Hc. apply bind_Ok in H as (c' & H & [= <-]).
  apply void_ptr_layout in Hc. by destruct (type_cmp_r_size n a b c' Ha Hb H Hc).
Qed.

(** ** Decay *)

Lemma keep_skip (t : type) (loc : bool) (attr : list attribute) :
  type_skip_all (type_keep_w_attr t loc attr) = type_skip_all t.
Proof.
  assert (Ha : forall u, type_skip_all (type_attributed u attr) = type_skip_all u)
    by (intros u; by destruct attr).
  assert (Hw : forall u, type_skip_all (type_skip_wheres u) = type_skip_all u).
  { unfold type_skip_all, type_skip_wheres. intros u. by induction u. }
  unfold type_keep_w_attr. case_match; [|apply Ha].
  unfold type_at_where. rewrite <- (Ha t). apply (Hw (type_attributed t attr)).
Qed.

Lemma qualify_ptr_skip (ref : type) (from : option type) (q : Z) :
  type_skip_all (type_qualify (type_ptr ref from) q) = type_ptr ref from.
Proof. unfold type_qualify, type_qualify3. case_match; done. Qed.

(** Where the loop stops: at a type that does not decay, or at a pointer. *)
Lemma decay_loop_spec (ty : type) (loc : bool) (attr : list attribute) (q : Z) (test : type) :
  match type_skip_all test with
  | type_auto => exists w, decay_loop ty loc attr q test = Ice w
  | type_array ref _ _ _ =>
      exists t', decay_loop ty loc attr q test = Ok t'
                 /\ type_skip_all t' = type_ptr ref (Some (type_skip_all test))
  | type_func _ _ _ _ _ =>
      exists t', decay_loop ty loc attr q test = Ok t'
                 /\ type_skip_all t' = type_ptr (type_skip_all test) None
  | _ => decay_loop ty loc attr q test = Ok ty
  end.
Proof.
  revert loc attr q. unfold type_skip_all.
  induction test; intros loc attr_ q; simpl; try done;
    try (by apply IHtest); try (by apply IHtest1); fold type_skip_all; eauto.
  - eexists. split; [done|]. by rewrite keep_skip.
  - eexists. split; [done|]. rewrite keep_skip. apply qualify_ptr_skip.
Qed.

(** decay turns arrays into pointers to their first element, remembering
    the array, turns functions into pointers to them, leaves every other type
    as it is, and is done after one step: what it returns is a pointer or was
    not decayable, so it has the size of a pointer whenever anything changed
    and decaying it again does nothing. *)
Theorem type_decay_spec (t t' : type) :
  type_decay t = Ok t' ->
  type_decayable t' = false /\ type_decay t' = Ok t'
  /\ (type_decayable t = true -> type_size t' = Ok (platform_word_size g)
      /\ match type_is_array t with
         | Some elem => type_is_ptr t' = Some elem
                        /\ type_is_decayed_array t' = Some (type_skip_all t)
         | None => type_is_fptr t' = true
         end)
  /\ (type_decayable t = false -> t' = t).
Proof.
  unfold type_decay. intros H.
  pose proof (decay_loop_spec t false [] qual_none t) as S.
  unfold type_decayable, type_is_array, type_is_ptr, type_is_decayed_array, type_is_fptr.
  assert (Hdone : forall u, match kind (type_skip_all u) with
                  | kind_array | kind_func | kind_auto => False | _ => True end ->
                  decay_loop u false [] qual_none u = Ok u).
  { intros u Hu. pose proof (decay_loop_spec u false [] qual_none u) as Su.
    by destruct (type_skip_all u). }
  rewrite (size_skip t').
  assert (Hptr : forall u ref from, type_skip_all u = type_ptr ref from ->
                 decay_loop u false [] qual_none u = Ok u)
    by (intros u ref from Hu; apply Hdone; by rewrite Hu).
  destruct (type_skip_all t) as [bt| | |ref from|ref|ref|ref size st vla| | | |] eqn:Et; simpl;
    first [ rewrite S in H; injection H as <-; rewrite Et; simpl; rewrite S; by split_and!
          | destruct S as (u & S & Su); rewrite S in H; injection H as <-; rewrite Su; simpl;
            rewrite (Hptr _ _ _ Su); unfold type_is_ptr; rewrite ?Su; by split_and!
          | destruct S as (w & S); by rewrite S in H ].
Qed.

(** ** Qualification *)

Lemma qualify_array_skip (whole : type) (q : Z) (t : type) :
  qualify_array whole q t
  = match type_skip_all t with
    | type_array ref size _ _ => type_array_of (type_qualify ref q) size
    | _ => type_cast whole q
    end.
Proof. unfold type_skip_all. induction t; simpl; auto. Qed.

Lemma lor_ldiff (a b : Z) : Z.lor (Z.ldiff a b) b = Z.lor a b.
Proof.
  apply Z.bits_inj'. intros i Hi. rewrite !Z.lor_spec, Z.ldiff_spec.
  by destruct (Z.testbit a i), (Z.testbit b i).
Qed.

Lemma new_quals_lor (t : type) (q : Z) :
  match new_quals t q with
  | None => Z.lor q (type_qual t) = type_qual t
  | Some q' => Z.lor q' (type_qual t) = Z.lor q (type_qual t)
  end.
Proof.
  unfold new_quals. destruct (q =? 0)%Z eqn:Eq.
  { apply Z.eqb_eq in Eq. by subst. }
  destruct (_ && _) eqn:E; [|apply lor_ldiff].
  apply andb_true_iff in E as [_ E]. by apply Z.eqb_eq.
Qed.

(** qualifying a type adds the qualifiers to those it has and keeps what it
    is a type of; an array's elements get them instead of the array, at every
    dimension. *)
Theorem type_qualify_spec (t : type) (q : Z) :
  match type_is_array t with
  | None => type_qual (type_qualify t q) = Z.lor q (type_qual t)
            /\ type_skip_all (type_qualify t q) = type_skip_all t
  | Some elem =>
      match new_quals t q with
      | None => type_qualify t q = t
      | Some q' => type_is_array (type_qualify t q) = Some (type_qualify elem q')
      end
  end.
Proof.
  pose proof (new_quals_lor t q) as Hq.
  assert (Hn : type_qualify t q
               = match new_quals t q with None => t | Some q' => qualify_array t q' t end) by done.
  unfold type_is_array. destruct (new_quals t q) as [q'|]; rewrite Hn.
  - rewrite qualify_array_skip.
    destruct (type_skip_all t) eqn:Et; try done; (split; [exact Hq|exact Et]).
  - by destruct (type_skip_all t).
Qed.

End types.

(** ** The library at work *)

(** Linux on x86_64, the default options, and no definitions. *)
Definition linux64 : target := mk_target ARCH_x86_64 SYS_linux true false false.
Definition linux32 : target := mk_target ARCH_i386 SYS_linux true false false.
Definition no_sue : sue :=
  mk_sue type_struct [] false SUE_MEMBS_COMPLETE SUE_FOLDED_FULLY false false 1 0 [].
Definition no_sues : sue_id -> sue := fun _ => no_sue.

Definition ty (p : type_primitive) : type := type_btype (mk_btype p None).
Definition const_ (t : type) : type := type_cast t qual_const.
Definition ptr_ (t : type) : type := type_ptr t None.

(** A typedef of a pointer to a function from [const int[3]] to a pointer to a
    constant pointer to constant characters. *)
Definition sample_arg : type := type_array (const_ (ty type_int)) (size_const 3) false VLA_NO.
Definition sample : type :=
  type_tdef 7 [] (type_where (ptr_ (type_func (ptr_ (const_ (ptr_ (const_ (ty type_nchar)))))
                                    1 false false [sample_arg]))) [] (ty type_int).

Lemma type_cmp_terminates_witness :
  type_depth sample < 10 /\ fueled (type_cmp linux64 no_sues 10 sample sample_arg false).
Proof.
  split; [apply (Nat.ltb_lt (type_depth sample) 10); vm_compute; reflexivity|].
  apply type_cmp_terminates. apply (Nat.ltb_lt (type_depth sample) 10). vm_compute. reflexivity.
Defined.

Lemma type_cmp_refl_witness : type_cmp linux64 no_sues 10 sample sample false = Ok TYPE_EQUAL.
Proof.
  apply type_cmp_refl; [reflexivity|].
  apply (Nat.ltb_lt (type_depth sample) 10). vm_compute. reflexivity.
Defined.

(** [const int[3]] and a typedef of [int[3]]. *)
Lemma type_cmp_size_witness :
  type_size linux64 no_sues sample_arg = Ok 12%Z
  /\ type_size linux64 no_sues sample_arg
     = type_size linux64 no_sues
         (type_tdef 1 [] (type_array (ty type_int) (size_const 3) false VLA_NO) [] (ty type_int)).
Proof.
  split; [reflexivity|].
  apply (type_cmp_size linux64 no_sues 10 _ _ TYPE_QUAL_ADD); reflexivity.
Defined.

Lemma type_decay_spec_witness :
  type_decay sample_arg = Ok (type_ptr (const_ (ty type_int)) (Some sample_arg))
  /\ type_decayable (type_ptr (const_ (ty type_int)) (Some sample_arg)) = false.
Proof.
  split; [reflexivity|].
  apply (type_decay_spec linux64 no_sues sample_arg). reflexivity.
Defined.

(** The size of an array is cut to 32 bits: 2^32 characters have size 0. *)
Example array_wraps :
  type_size linux64 no_sues (type_array (ty type_nchar) (size_const (2 ^ 32)) false VLA_NO) = Ok 0%Z.
Proof. reflexivity. Qed.

(** A variable array against a constant one: the intended
    [TYPE_EQUAL_TYPEDEF] is overwritten by the comparison of the elements. *)
Example vla_equal :
  type_cmp linux64 no_sues 5 (type_array (ty type_int) (size_expr 1) false VLA)
           (type_array (ty type_int) (size_const 3) false VLA_NO) false = Ok TYPE_EQUAL.
Proof. reflexivity. Qed.

(** With [-fplan9-extensions] pointers to different things no longer convert
    by a cast. *)
Example plan9_no_cast :
  let t a := ptr_ (ptr_ (ty a)) in
  (type_cmp linux64 no_sues 5 (t type_int) (ptr_ (type_block (ty type_int))) false,
   type_cmp (mk_target ARCH_x86_64 SYS_linux true false true) no_sues 5
            (t type_int) (ptr_ (type_block (ty type_int))) false)
  = (Ok TYPE_CONVERTIBLE_EXPLICIT, Ok TYPE_NOT_EQUAL).
Proof. reflexivity. Qed.

(** The attributes of the second type only are asked for: equality is not
    symmetric. *)
Example attribute_one_way :
  let a := type_attr (ty type_int) [mk_attribute attr_noderef None] in
  (type_cmp linux64 no_sues 5 a (ty type_int) false, type_cmp linux64 no_sues 5 (ty type_int) a false)
  = (Ok TYPE_EQUAL, Ok TYPE_QUAL_POINTED_SUB).
Proof. reflexivity. Qed.

(** [const restrict] in one step: [type_unqualify] keeps the [const]. *)
Example unqualify_keeps_const :
  let t := type_qualify (ptr_ (ty type_int)) (Z.lor qual_const qual_restrict) in
  ((type_unqualify t : res type), type_qual t) = (Ok t, 5%Z).
Proof. reflexivity. Qed.

(** A qualifier on a variable array forgets that it is one. *)
Example qualify_drops_vla :
  let t := type_array (ty type_int) (size_expr 1) false VLA in
  (type_is_vla true t, type_is_vla true (type_qualify t qual_const)) = (true, false).
Proof. reflexivity. Qed.

(** An [int] that stands for a one-byte enum: its size is [int]'s, its
    alignment the enum's. *)
Example int_enum_align :
  let e := mk_sue type_enum [] false SUE_MEMBS_COMPLETE SUE_FOLDED_FULLY false false 1 1 [] in
  let t := type_btype (mk_btype type_int (Some 0)) in
  (type_size linux64 (fun _ => e) t, type_align linux64 (fun _ => e) t) = (Ok 4%Z, Ok 1%Z).
Proof. reflexivity. Qed.

(** The largest [signed char] is 127, [type_max] says 126. *)
Example type_max_signed :
  (type_max linux64 no_sues (ty type_schar), type_max linux64 no_sues (ty type_uchar))
  = (Ok 126%Z, Ok 255%Z).
Proof. reflexivity. Qed.

(** [short] ranks above [int]. *)
Example intrank_short : (type_intrank type_int <? type_intrank type_short)%Z = true.
Proof. reflexivity. Qed.

(** For 8 bytes on a 32-bit target: an [unsigned long] of 4. *)
Example not_less_than_32 :
  (type_primitive_not_less_than_size linux32 8 false, type_primitive_size linux32 type_ulong)
  = (Ok type_ulong, Ok 4%Z).
Proof. reflexivity. Qed.
