(* ===== verification/Consts.v ===== *)
(** * Constant folding of integers

    [src/src/cc1/num.c], [op.c], the integer part of [const.c] and of
    [ops/expr_op.c]: truncation to a width, arithmetic on constants of a type,
    what an expression's operands fold to, short circuits, and the types the
    operands of an operator are converted to. Floating constants are not
    modelled. *)

From S2P Require Import Prelude Triple Types.

(** ** Operators *)

(** [enum op_type]. *)
Inductive op_type :=
  | op_multiply | op_divide | op_modulus
  | op_plus | op_minus
  | op_xor | op_or | op_and
  | op_orsc | op_andsc
  | op_shiftl | op_shiftr
  | op_not | op_bnot
  | op_eq | op_ne
  | op_le | op_lt
  | op_ge | op_gt
  | op_signbit | op_no_signbit
  | op_unknown.

#[export] Instance op_type_eq_dec : EqDecision op_type.
Proof. solve_decision. Defined.

Definition op_can_compound (o : op_type) : bool :=
  match o with
  | op_plus | op_minus | op_multiply | op_divide | op_modulus | op_not | op_bnot
  | op_and | op_or | op_xor | op_shiftl | op_shiftr => true
  | _ => false
  end.

Definition op_can_float (o : op_type) : bool :=
  match o with
  | op_modulus | op_xor | op_or | op_and | op_shiftl | op_shiftr | op_bnot => false
  | _ => true
  end.

Definition op_is_commutative (o : op_type) : res bool :=
  match o with
  | op_multiply | op_plus | op_xor | op_or | op_and | op_eq | op_ne
  | op_signbit | op_no_signbit => Ok true
  | op_unknown => Ice "assert(0)"
  | _ => Ok false
  end.

Definition op_is_comparison (o : op_type) : bool :=
  match o with op_eq | op_ne | op_le | op_lt | op_ge | op_gt => true | _ => false end.

Definition op_is_shortcircuit (o : op_type) : bool :=
  match o with op_andsc | op_orsc => true | _ => false end.

Definition op_returns_bool (o : op_type) : bool :=
  bool_decide (o = op_not) || op_is_comparison o || op_is_shortcircuit o.

Definition op_increases (o : op_type) : res bool :=
  match o with
  | op_unknown => Ice "assert(0)"
  | op_multiply | op_plus | op_or | op_shiftl => Ok true
  | _ => Ok false
  end.

(** ** Widths *)

(** An [integral_t] is a [Z] in the range of 64 unsigned bits, an [sintegral_t]
    one in that of 64 signed ones. *)
Definition INTEGRAL_BITS : Z := 64.
Definition NUMERIC_T_MAX : Z := 2 ^ 64 - 1.

(** The truncated value and [*signed_iv]. The left shift of the signed value is
    taken modulo 2^64, as the compilers the program is built with do. *)
Definition integral_truncate_bits (cast_w_builtin_types : bool) (val bits : Z) : res (Z * Z) :=
  let pos_mask := if (bits <? INTEGRAL_BITS)%Z
                  then u64 (Z.lnot (u64 (Z.shiftl NUMERIC_T_MAX bits)))
                  else NUMERIC_T_MAX in
  let truncated := Z.land val pos_mask in
  let shamt := (INTEGRAL_BITS - bits)%Z in
  let not_builtin :=
    if ((shamt <? 0) || (INTEGRAL_BITS <=? shamt))%Z then Ub "shift out of range"
    else Ok (truncated, Z.shiftr (s64 (Z.shiftl (s64 val) shamt)) shamt) in
  if cast_w_builtin_types then
    if (bits =? 8)%Z then Ok (wrapu 8 val, wraps 8 val)
    else if (bits =? 16)%Z then Ok (wrapu 16 val, wraps 16 val)
    else if (bits =? 32)%Z then Ok (wrapu 32 val, wraps 32 val)
    else if (bits =? 64)%Z then Ok (wrapu 64 val, wraps 64 val)
    else not_builtin
  else not_builtin.

Definition integral_truncate (cast_w_builtin_types : bool) (val bytes : Z) : res (Z * Z) :=
  integral_truncate_bits cast_w_builtin_types val (u32 (bytes * 8)).

(** [enum numeric_suffix], as the mask it is. *)
Definition VAL_UNSIGNED : Z := 1.
Definition VAL_LONG : Z := 2.
Definition VAL_LLONG : Z := 4.

(** [numeric_cmp] of two integers: their values and suffixes. *)
Definition numeric_cmp (a : Z) (asuf : Z) (b : Z) (bsuf : Z) : Z :=
  let au := negb (Z.land asuf VAL_UNSIGNED =? 0)%Z in
  let bu := negb (Z.land bsuf VAL_UNSIGNED =? 0)%Z in
  let la := if au && bu then a else s64 a in
  let lb := if au && bu then b else s64 b in
  if (lb <? la)%Z then 1%Z else if (la <? lb)%Z then (-1)%Z else 0%Z.

(** ** Arithmetic on constants *)

Section folding.
Context (g : target) (sues : sue_id -> sue) (cast_w_builtin_types : bool).

(** The loop that counts the bits below the highest one. *)
Fixpoint high_bit_loop (fuel : nat) (r val : Z) : res Z :=
  match fuel with
  | O => NoFuel
  | S fuel => if (val =? 0)%Z then Ok r else high_bit_loop fuel (r + 1)%Z (Z.shiftr val 1)
  end.

Definition integral_high_bit (val : Z) (ty : type) : res Z :=
  is_signed ← type_is_signed g ty;
  val ← (if (is_signed : bool) && (s64 val <? 0)%Z
         then sz ← type_size g sues ty;
              t ← integral_truncate cast_w_builtin_types val sz; Ok t.1
         else Ok val);
  high_bit_loop 65 (-1) val.

(** [(S)lval o (S)rval] and [(U)lval o (U)rval] as an [integral_t]. A signed
    result out of range has no meaning; neither has a shift by a negative count
    or by 64 and more, or a left shift of a negative number. *)
Definition s_op (op : op_type) (l r : Z) : res Z :=
  let exact v := if bool_decide (is_s 64 v) then Ok (u64 v) else Ub "signed overflow" in
  let count_ok := ((0 <=? r) && (r <? 64))%Z in
  match op with
  | op_multiply => exact (l * r)%Z
  | op_divide => if (r =? 0)%Z then Ub "division by zero" else exact (Z.quot l r)
  | op_modulus => if (r =? 0)%Z then Ub "division by zero"
                  else if bool_decide (is_s 64 (Z.quot l r)) then Ok (u64 (Z.rem l r))
                  else Ub "signed overflow"
  | op_eq => Ok (b2z (l =? r)%Z)
  | op_ne => Ok (b2z (negb (l =? r)%Z))
  | op_le => Ok (b2z (l <=? r)%Z)
  | op_lt => Ok (b2z (l <? r)%Z)
  | op_ge => Ok (b2z (r <=? l)%Z)
  | op_gt => Ok (b2z (r <? l)%Z)
  | op_shiftl => if count_ok && (0 <=? l)%Z then exact (Z.shiftl l r) else Ub "shift"
  | op_shiftr => if count_ok then Ok (u64 (Z.shiftr l r)) else Ub "shift"
  | op_xor => Ok (u64 (Z.lxor l r))
  | op_or => Ok (u64 (Z.lor l r))
  | op_and => Ok (u64 (Z.land l r))
  | op_orsc => Ok (b2z (negb (l =? 0)%Z || negb (r =? 0)%Z))
  | op_andsc => Ok (b2z (negb (l =? 0)%Z && negb (r =? 0)%Z))
  | _ => Ice "not a binary operator"
  end.

Definition u_op (op : op_type) (l r : Z) : res Z :=
  let count_ok := (r <? 64)%Z in
  match op with
  | op_divide => Ok (l / r)%Z
  | op_modulus => Ok (l mod r)%Z
  | op_le => Ok (b2z (l <=? r)%Z)
  | op_lt => Ok (b2z (l <? r)%Z)
  | op_ge => Ok (b2z (r <=? l)%Z)
  | op_gt => Ok (b2z (r <? l)%Z)
  | op_shiftl => if count_ok then Ok (u64 (Z.shiftl l r)) else Ub "shift"
  | op_shiftr => if count_ok then Ok (Z.shiftr l r) else Ub "shift"
  | _ => Ice "not an unsigned operator"
  end.

(** The right operand, which must be there. *)
Definition deref_rval (rval : option Z) : res Z :=
  match rval with Some r => Ok r | None => Ub "null rval" end.

(** The wrap-around of an unsigned type narrower than [integral_t]. *)
Definition const_op_wrap (op : op_type) (arithty : type) (result : Z) : res Z :=
  max ← type_max g sues arithty;
  if (max =? NUMERIC_T_MAX)%Z then Ok result
  else if (max <? result)%Z then
    inc ← op_increases op;
    Ok (if inc : bool then u64 (result - (max + 1))
        else u64 (result - NUMERIC_T_MAX + max))
  else Ok result.

(** The result, and [*error] when it is set. *)
Definition const_op_exec (lval : Z) (rval : option Z) (op : op_type) (arithty : type)
    : res (Z * option string) :=
  is_signed ← type_is_signed g arithty;
  let S_OP : res Z := r ← deref_rval rval; s_op op (s64 lval) (s64 r) in
  let U_OP : res Z := r ← deref_rval rval; u_op op lval r in
  out ← (
    match op with
    | op_multiply | op_eq | op_ne | op_xor | op_or | op_and | op_orsc | op_andsc =>
        v ← S_OP; Ok (v, None)
    | op_le | op_lt | op_ge | op_gt | op_shiftl | op_shiftr =>
        v ← (if is_signed : bool then S_OP else U_OP); Ok (v, None)
    | op_modulus | op_divide =>
        r ← deref_rval rval;
        if negb (r =? 0)%Z then v ← (if is_signed : bool then S_OP else U_OP); Ok (v, None)
        else Ok (0%Z, Some "division by zero"%string)
    | op_plus => Ok (u64 (lval + default 0%Z rval), None)
    | op_minus => Ok (match rval with Some r => u64 (lval - r) | None => u64 (- lval) end, None)
    | op_not => Ok (b2z (lval =? 0)%Z, None)
    | op_bnot => Ok (u64 (Z.lnot lval), None)
    | op_signbit | op_no_signbit => Ub "unreachable"
    | op_unknown => Ice "unhandled type"
    end : res (Z * option string));
  result ← (if is_signed : bool then Ok (out.1) else const_op_wrap op arithty (out.1));
  Ok (result, out.2).

End folding.
(** ** What an expression folds to *)

(** [bits.addr]: a number used as an address, or a label. *)
Inductive addr :=
  | CONST_LBL_MEMADDR (memaddr : Z)
  | CONST_LBL_TRUE (lbl : cstr)
  | CONST_LBL_WEAK (lbl : cstr).

(** [type] and the member of [bits] it selects; the number is an integer with
    its suffix, the string literal its label. *)
Inductive const_val :=
  | CONST_NO
  | CONST_NUM (i suffix : Z)
  | CONST_ADDR (a : addr)
  | CONST_STRK (lbl : cstr)
  | CONST_NEED_ADDR (a : addr).

(** [consty]; expressions are known by number. *)
Record consty : Type := mk_consty {
  k_val : const_val;
  k_offset : Z;
  nonstandard_const : option nat;
  nonconst : option nat
}.

Definition CONST_AT_COMPILE_TIME (k : consty) : bool :=
  match k_val k with CONST_NO | CONST_NEED_ADDR _ => false | _ => true end.

(** [CONST_FOLD_LEAF]: all zero. *)
Definition CONST_FOLD_LEAF : consty := mk_consty CONST_NO 0 None None.

Definition set_val (k : consty) (v : const_val) : consty :=
  mk_consty v (k_offset k) (nonstandard_const k) (nonconst k).

Definition CONST_FOLD_NO (k : consty) (e : nat) : consty :=
  mk_consty CONST_NO (k_offset k) (nonstandard_const k)
    (match nonconst k with Some n => Some n | None => Some e end).

(** [const_fold_no] of two operands and their numbers. *)
Definition const_fold_no (k klhs : consty) (lhs : nat) (krhs : consty) (rhs : nat) : consty :=
  mk_consty CONST_NO (k_offset k) (nonstandard_const k)
    (if CONST_AT_COMPILE_TIME klhs
     then match nonconst krhs with Some n => Some n | None => Some rhs end
     else match nonconst klhs with Some n => Some n | None => Some lhs end).

(** [const_expr_zero] of what the expression folds to. *)
Definition const_expr_zero (k : consty) (zero : bool) : bool :=
  match k_val k with
  | CONST_NUM i _ => Bool.eqb (i =? 0)%Z zero
  | CONST_ADDR (CONST_LBL_MEMADDR m) => (m =? 0)%Z
  | _ => false
  end.

Definition const_expr_and_zero (k : consty) : bool := const_expr_zero k true.
Definition const_expr_and_non_zero (k : consty) : bool := const_expr_zero k false.

Definition const_fold_integral_try (k : consty) : option (Z * Z) :=
  match k_val k with
  | CONST_NUM i suffix => if (k_offset k =? 0)%Z then Some (i, suffix) else None
  | _ => None
  end.

Definition const_fold_val_i (k : consty) : res Z :=
  match const_fold_integral_try k with
  | Some (i, _) => Ok i
  | None => Ice "not an integer constant"
  end.

(** From a pointer to an integer and back, for casts. *)
Definition const_intify (k : consty) (owner : nat) : consty :=
  match k_val k with
  | CONST_NO => CONST_FOLD_NO k owner
  | CONST_NUM _ _ | CONST_STRK _ => k
  | CONST_NEED_ADDR (CONST_LBL_MEMADDR m) | CONST_ADDR (CONST_LBL_MEMADDR m) =>
      set_val CONST_FOLD_LEAF (CONST_NUM (u64 (m + k_offset k)) 0)
  | CONST_NEED_ADDR _ | CONST_ADDR _ => k
  end.

Definition const_memify (k : consty) : consty :=
  match k_val k with
  | CONST_NUM i _ => set_val CONST_FOLD_LEAF (CONST_ADDR (CONST_LBL_MEMADDR (u64 (i + k_offset k))))
  | _ => k
  end.

Definition is_lvalue_pointerish (t : type) : bool :=
  match kind (type_skip_all t) with
  | kind_ptr | kind_array | kind_func | kind_block => true
  | _ => false
  end.

Definition const_ensure_num_or_memaddr (g : target) (sues : sue_id -> sue)
    (k : consty) (from to : type) (owner : nat) (set_nonstandard_const : bool) : res consty :=
  let from_ptr := is_lvalue_pointerish from in
  let to_ptr := is_lvalue_pointerish to in
  if Bool.eqb from_ptr to_ptr then Ok k
  else
    let k := if from_ptr && negb to_ptr then const_intify k owner else const_memify k in
    if from_ptr && negb to_ptr then
      fs ← type_size g sues from;
      ts ← type_size g sues to;
      Ok (if (ts <? fs)%Z && set_nonstandard_const
             && match nonstandard_const k with None => true | Some _ => false end
          then mk_consty (k_val k) (k_offset k) (Some owner) (nonconst k) else k)
    else Ok k.

(** ** Operators on constants *)

Record collapsed_consty : Type := mk_collapsed {
  c_lbl : option cstr;
  c_offset : Z;
  is_weak : bool
}.

Inductive eval_truth := EVAL_FALSE | EVAL_TRUE | EVAL_UNKNOWN.

#[export] Instance eval_truth_eq_dec : EqDecision eval_truth.
Proof. solve_decision. Defined.

Definition collapse_const (k : consty) : res collapsed_consty :=
  match k_val k with
  | CONST_NO => Ice "assert(0)"
  | CONST_NUM i _ => Ok (mk_collapsed None (u64 (i + k_offset k)) false)
  | CONST_STRK lbl => Ok (mk_collapsed (Some lbl) (u64 (k_offset k)) false)
  | CONST_NEED_ADDR a | CONST_ADDR a =>
      match a with
      | CONST_LBL_TRUE lbl => Ok (mk_collapsed (Some lbl) (u64 (k_offset k)) false)
      | CONST_LBL_WEAK lbl => Ok (mk_collapsed (Some lbl) (u64 (k_offset k)) true)
      | CONST_LBL_MEMADDR m => Ok (mk_collapsed None (u64 (m + k_offset k)) false)
      end
  end.

Definition has_lbl (c : collapsed_consty) : bool :=
  match c_lbl c with Some _ => true | None => false end.

Definition collapsed_consty_to_truth (k : collapsed_consty) : eval_truth :=
  if is_weak k then EVAL_UNKNOWN
  else if has_lbl k || negb (c_offset k =? 0)%Z then EVAL_TRUE else EVAL_FALSE.

Definition eval_truth_to_consty (t : eval_truth) (k : consty) (e : nat) : consty :=
  match t with
  | EVAL_TRUE => set_val k (CONST_NUM 1 0)
  | EVAL_FALSE => set_val k (CONST_NUM 0 0)
  | EVAL_UNKNOWN => CONST_FOLD_NO k e
  end.

(** The table: [op] is [op_andsc], or it is taken for [op_orsc]. *)
Definition eval_shortcircuit (op : op_type) (lhs rhs : eval_truth) : eval_truth :=
  let is_and := bool_decide (op = op_andsc) in
  match lhs, is_and, rhs with
  | EVAL_FALSE, true, EVAL_FALSE => EVAL_FALSE
  | EVAL_FALSE, true, EVAL_TRUE => EVAL_FALSE
  | EVAL_FALSE, true, EVAL_UNKNOWN => EVAL_FALSE
  | EVAL_FALSE, false, EVAL_FALSE => EVAL_FALSE
  | EVAL_FALSE, false, EVAL_TRUE => EVAL_TRUE
  | EVAL_FALSE, false, EVAL_UNKNOWN => EVAL_UNKNOWN
  | EVAL_TRUE, true, EVAL_FALSE => EVAL_FALSE
  | EVAL_TRUE, true, EVAL_TRUE => EVAL_TRUE
  | EVAL_TRUE, true, EVAL_UNKNOWN => EVAL_UNKNOWN
  | EVAL_TRUE, false, EVAL_FALSE => EVAL_TRUE
  | EVAL_TRUE, false, EVAL_TRUE => EVAL_TRUE
  | EVAL_TRUE, false, EVAL_UNKNOWN => EVAL_TRUE
  | EVAL_UNKNOWN, _, _ => EVAL_UNKNOWN
  end.

(** An operator expression: its number, operator and type, and its operands'
    numbers and types. *)
Record op_expr : Type := mk_op_expr {
  e_id : nat;
  e_op : op_type;
  e_type : type;
  e_lhs : nat;
  e_lhs_type : type;
  e_rhs : option (nat * type)
}.

Section operators.
Context (g : target) (sues : sue_id -> sue).

(** The pointer arithmetic: the side that is no pointer counts elements. *)
Definition scale_pointer (e : op_expr) (l r : collapsed_consty)
    : res (collapsed_consty * collapsed_consty) :=
  let scale c step := mk_collapsed (c_lbl c) (u64 (c_offset c * step)) (is_weak c) in
  if negb (has_lbl l && has_lbl r) && (bool_decide (e_op e = op_plus) || bool_decide (e_op e = op_minus))
  then
    match type_is_ptr (e_lhs_type e), e_rhs e with
    | Some ptr, _ =>
        step ← type_size g sues ptr;
        if has_lbl r then Ice "assert(!lbl)" else Ok (l, scale r step)
    | None, Some (_, rt) =>
        match type_is_ptr rt with
        | Some ptr =>
            step ← type_size g sues ptr;
            if has_lbl l then Ice "assert(!lbl)" else Ok (scale l step, r)
        | None => Ok (l, r)
        end
    | None, None => Ok (l, r)
    end
  else Ok (l, r).

(** One label and one number: [lk] and [rk] are the operands as they were. *)
Definition label_and_num (e : op_expr) (k lk : consty) (rk : option consty)
    (l r : collapsed_consty) : res consty :=
  let num_side := if has_lbl l then r else l in
  let lbl_side := if has_lbl l then l else r in
  match e_op e with
  | op_not =>
      match rk with
      | Some _ => Ice "assert(!rhs)"
      | None =>
          Ok (if is_weak lbl_side then CONST_FOLD_NO k (e_id e) else set_val k (CONST_NUM 0 0))
      end
  | op_eq | op_ne =>
      Ok (if (c_offset num_side =? 0)%Z && negb (is_weak lbl_side)
          then set_val k (CONST_NUM (b2z (negb (bool_decide (e_op e = op_eq)))) 0)
          else CONST_FOLD_NO k (e_id e))
  | op_plus | op_minus =>
      match rk with
      | None => Ok (CONST_FOLD_NO k (e_id e))
      | Some rk =>
          let lk := if has_lbl l then lk else rk in
          let off := if decide (e_op e = op_plus)
                     then (k_offset lk + c_offset num_side)%Z
                     else (k_offset lk - c_offset num_side)%Z in
          Ok (mk_consty (k_val lk) (s64 off) (nonstandard_const lk) (nonconst lk))
      end
  | _ => Ok (CONST_FOLD_NO k (e_id e))
  end.

(** Two labels. *)
Definition label_and_label (e : op_expr) (k : consty) (l r : collapsed_consty) : res consty :=
  let same := bool_decide (c_lbl l = c_lbl r) in
  match e_op e with
  | op_not => Ice "binary not?"
  | op_unknown | op_orsc | op_andsc => Ice "assert(0)"
  | op_eq | op_ne =>
      Ok (if is_weak l || is_weak r then CONST_FOLD_NO k (e_id e)
          else set_val k (CONST_NUM (b2z (Bool.eqb (bool_decide (e_op e = op_eq)) same)) 0))
  | op_minus =>
      if negb (is_weak l) && negb (is_weak r) && same then
        match type_is_ptr (e_lhs_type e) with
        | None => Ice "assert(tnext)"
        | Some tnext =>
            sz ← type_size g sues tnext;
            if (sz =? 0)%Z then Ub "division by zero"
            else Ok (mk_consty (CONST_NUM (u64 (c_offset l - c_offset r) / sz) 0) (k_offset k)
                               (Some (e_id e)) (nonconst k))
        end
      else Ok k
  | _ => Ok (CONST_FOLD_NO k (e_id e))
  end.

(** The suffix of a number the operator gives. *)
Definition num_suffix_of (e : op_expr) (is_signed : bool) : Z :=
  let s := if is_signed then 0%Z else VAL_UNSIGNED in
  match type_get_primitive (e_type e) with
  | type_long => Z.lor s VAL_LONG
  | type_llong => Z.lor s VAL_LLONG
  | _ => s
  end.

(** [k]'s old contents are cleared once the operands are collapsed. *)
Definition const_op_num_int (e : op_expr) (lhs : consty) (rhs : option consty) : res consty :=
  ls ← type_is_signed g (e_lhs_type e);
  is_signed ← (if ls : bool then Ok true
               else match e_rhs e with Some (_, rt) => type_is_signed g rt | None => Ok false end);
  l ← collapse_const lhs;
  lr ← (match rhs with
        | Some rhs => r ← collapse_const rhs; scale_pointer e l r
        | None => Ok (l, mk_collapsed None 0 false)
        end : res (collapsed_consty * collapsed_consty));
  let l := lr.1 in
  let r := lr.2 in
  let k := CONST_FOLD_LEAF in
  if op_is_shortcircuit (e_op e) then
    Ok (eval_truth_to_consty
          (eval_shortcircuit (e_op e) (collapsed_consty_to_truth l) (collapsed_consty_to_truth r))
          k (e_id e))
  else
    match has_lbl l, has_lbl r with
    | true, true => label_and_label e k l r
    | false, false =>
        out ← const_op_exec g sues (c_offset l)
                (match rhs with Some _ => Some (c_offset r) | None => None end)
                (e_op e) (e_type e);
        Ok (match out.2 with
            | Some _ => CONST_FOLD_NO k (e_id e)
            | None => set_val k (CONST_NUM out.1 (num_suffix_of e is_signed))
            end)
    | _, _ => label_and_num e k lhs rhs l r
    end.

Definition const_shortcircuit (e : op_expr) (k lhs rhs : consty) : res consty :=
  if negb (CONST_AT_COMPILE_TIME lhs) then Ok k
  else if CONST_AT_COMPILE_TIME rhs then Ice "assert(!CONST_AT_COMPILE_TIME(rhs->type))"
  else
    clhs ← collapse_const lhs;
    Ok (eval_truth_to_consty
          (eval_shortcircuit (e_op e) (collapsed_consty_to_truth clhs) EVAL_UNKNOWN)
          k (e_id e)).

(** [fold_const_expr_op] of an operator whose operands are no floats: [lhs] and
    [rhs] are what they fold to. *)
Definition fold_const_expr_op (e : op_expr) (lhs : consty) (rhs : option consty) : res consty :=
  let krhs := default (mk_consty (CONST_NUM 0 0) 0 None None) rhs in
  if negb (CONST_AT_COMPILE_TIME lhs) || negb (CONST_AT_COMPILE_TIME krhs) then
    let rid := match e_rhs e with Some (n, _) => n | None => 0 end in
    let k := const_fold_no CONST_FOLD_LEAF lhs (e_lhs e) krhs rid in
    if op_is_shortcircuit (e_op e) then
      k ← const_shortcircuit e k lhs krhs;
      Ok (match k_val k with
          | CONST_NO => k
          | _ => mk_consty (k_val k) (k_offset k) (nonstandard_const k) None
          end)
    else Ok k
  else
    k ← const_op_num_int e lhs rhs;
    Ok (match nonstandard_const k with
        | Some _ => k
        | None =>
            mk_consty (k_val k) (k_offset k)
              (match nonstandard_const lhs with
               | Some n => Some n
               | None => nonstandard_const krhs
               end) (nonconst k)
        end).

End operators.
(** ** The types the operands are converted to *)

Section promotion.
Context (g : target) (sues : sue_id -> sue).

Definition type_nav_btype (p : type_primitive) : type := type_btype (mk_btype p None).
Definition BOOLEAN_TYPE : type_primitive := type_int.
Definition type_intptr_t : type_primitive := type_long.

(** The warning apart. *)
Definition check_enum_cmp (lhs rhs : type) : bool :=
  match type_is_enum sues lhs, type_is_enum sues rhs with
  | Some sl, Some sr => negb (bool_decide (sl = sr))
  | _, _ => false
  end.

(** Is a cast needed from [trhs] to [tlhs]? What is said about it is left out. *)
Definition fold_type_chk_warn (tlhs trhs : type) (is_comparison : bool) : res bool :=
  c ← type_cmp g sues (S (type_depth tlhs)) tlhs trhs true;
  Ok (match c with
      | TYPE_CONVERTIBLE_IMPLICIT => true
      | TYPE_EQUAL => check_enum_cmp tlhs trhs
      | TYPE_QUAL_ADD | TYPE_QUAL_SUB | TYPE_EQUAL_TYPEDEF => false
      | TYPE_CONVERTIBLE_EXPLICIT | TYPE_QUAL_NESTED_CHANGE => true
      | TYPE_QUAL_POINTED_ADD => false
      | TYPE_QUAL_POINTED_SUB => negb is_comparison
      | TYPE_NOT_EQUAL => false
      end).

(** The type of the result, and the types the left and right operands are cast
    to, if they are. *)
Record promotion : Type := mk_promotion {
  resolved : type;
  cast_lhs : option type;
  cast_rhs : option type
}.

Definition bool_or (op : op_type) (t : type) : type :=
  if op_returns_bool op then type_nav_btype BOOLEAN_TYPE else t.

(** A comparison that involves a pointer ([ptr_relation]). *)
Definition ptr_relation (op : op_type) (tlhs trhs : type) : res promotion :=
  let done pl pr := mk_promotion (type_nav_btype BOOLEAN_TYPE) pl pr in
  if op_is_comparison op then
    mismatch ← fold_type_chk_warn tlhs trhs true;
    Ok (if mismatch : bool then
          if type_is_void_ptr tlhs then done (Some trhs) None
          else if type_is_void_ptr trhs then done None (Some tlhs)
          else match type_is_ptr tlhs with
               | Some _ => done None (Some tlhs)
               | None => done (Some trhs) None
               end
        else done None None)
  else Ok (done None None).

(** The usual arithmetic conversions, between types neither of which is a
    pointer and which are both floating or neither. *)
Definition arith_promotion (op : op_type) (tlhs trhs : type) : res promotion :=
  ls ← type_is_signed g tlhs;
  rs ← type_is_signed g trhs;
  let l_unsigned := negb ls in
  let r_unsigned := negb rs in
  let l_rank := type_intrank (type_get_primitive tlhs) in
  let r_rank := type_intrank (type_get_primitive trhs) in
  _ ← fold_type_chk_warn tlhs trhs true;
  if Bool.eqb l_unsigned r_unsigned then
    larger ← (if (l_rank =? r_rank)%Z && (l_rank =? -1)%Z then
                l_sz ← type_size g sues tlhs;
                r_sz ← type_size g sues trhs;
                Ok (Z.compare l_sz r_sz)
              else Ok (Z.compare l_rank r_rank));
    Ok (match (larger : comparison) with
        | Gt => mk_promotion (bool_or op tlhs) None (Some tlhs)
        | Lt => mk_promotion (bool_or op trhs) (Some trhs) None
        | Eq => mk_promotion (bool_or op trhs) None None
        end)
  else if (if l_unsigned then r_rank <=? l_rank else l_rank <=? r_rank)%Z then
    Ok (if l_unsigned then mk_promotion (bool_or op tlhs) None (Some tlhs)
        else mk_promotion (bool_or op trhs) (Some trhs) None)
  else
    l_sz ← type_size g sues tlhs;
    r_sz ← type_size g sues trhs;
    if (if l_unsigned then l_sz <? r_sz else r_sz <? l_sz)%Z then
      Ok (if l_unsigned then mk_promotion (bool_or op trhs) (Some trhs) None
          else mk_promotion (bool_or op tlhs) None (Some tlhs))
    else
      p ← type_sign g (if l_unsigned then trhs else tlhs) false;
      let t := type_nav_btype p in
      Ok (mk_promotion (bool_or op t) (Some t) (Some t)).

(** Diagnostics apart. *)
Definition op_required_promotion (op : op_type) (tlhs trhs : type) : res promotion :=
  let floating_lhs := type_is_floating tlhs in
  if negb (Bool.eqb floating_lhs (type_is_floating trhs)) then
    Ok (if floating_lhs then mk_promotion (bool_or op tlhs) None (Some tlhs)
        else mk_promotion (bool_or op trhs) (Some trhs) None)
  else
    match type_is_ptr tlhs, type_is_ptr trhs with
    | Some _, Some _ =>
        if decide (op = op_minus) then Ok (mk_promotion (type_nav_btype type_intptr_t) None None)
        else if op_returns_bool op then ptr_relation op tlhs trhs
        else Ok (mk_promotion (type_nav_btype BOOLEAN_TYPE) None None)
    | None, None =>
        match op with
        | op_shiftl | op_shiftr =>
            Ok (if (type_intrank (type_get_primitive tlhs) <? type_intrank type_int)%Z
                then mk_promotion (type_nav_btype type_int) (Some (type_nav_btype type_int)) None
                else mk_promotion tlhs None None)
        | op_andsc | op_orsc => Ok (mk_promotion (type_nav_btype BOOLEAN_TYPE) None None)
        | _ => arith_promotion op tlhs trhs
        end
    | l_ptr, _ =>
        if op_returns_bool op then ptr_relation op tlhs trhs
        else
          let int := Some (type_nav_btype type_intptr_t) in
          Ok (match l_ptr with
              | Some _ => mk_promotion tlhs None int
              | None => mk_promotion trhs int None
              end)
    end.

End promotion.

(** ** Truncation *)

Lemma ones_testbit (n i : Z) : (0 <= n)%Z -> (0 <= i)%Z -> Z.testbit (2 ^ n - 1) i = (i <? n)%Z.
Proof.
  intros Hn Hi. rewrite Z.sub_1_r, <- Z.ones_equiv. destruct (Z.ltb_spec i n).
  - by apply Z.ones_spec_low.
  - by apply Z.ones_spec_high.
Qed.

Lemma wrapu_testbit (n x i : Z) :
  (0 <= n)%Z -> (0 <= i)%Z -> Z.testbit (wrapu n x) i = (i <? n)%Z && Z.testbit x i.
Proof.
  intros Hn Hi. unfold wrapu. destruct (Z.ltb_spec i n).
  - by rewrite Z.mod_pow2_bits_low by lia.
  - by rewrite Z.mod_pow2_bits_high by lia.
Qed.

(** The mask keeps the low bits. *)
Lemma truncate_mask (val bits : Z) :
  (0 <= bits < 64)%Z ->
  Z.land val (u64 (Z.lnot (u64 (Z.shiftl NUMERIC_T_MAX bits)))) = wrapu bits val.
Proof.
  intros Hb. apply Z.bits_inj'. intros i Hi. unfold NUMERIC_T_MAX.
  rewrite Z.land_spec, !wrapu_testbit, Z.lnot_spec, wrapu_testbit, Z.shiftl_spec by lia.
  destruct (Z.ltb_spec i 64), (Z.ltb_spec i bits); simpl; rewrite ?andb_false_r; try done; try lia.
  - rewrite (Z.testbit_neg_r _ (i - bits)) by lia. simpl. by rewrite andb_true_r.
  - rewrite ones_testbit by lia. replace (i - bits <? 64)%Z with true by lia.
    simpl. apply andb_false_r.
Qed.

Lemma wraps_shift (w x k : Z) : (0 < w)%Z -> wraps w (x + k * 2 ^ w) = wraps w x.
Proof.
  intros Hw. assert (0 < 2 ^ w)%Z by (apply Z.pow_pos_nonneg; lia).
  unfold wraps. f_equal. rewrite <- (Z.mod_add (x + 2 ^ (w - 1)) k) by lia. f_equal. lia.
Qed.

Lemma wraps_mod (w n x : Z) : (0 < w <= n)%Z -> wraps w (wraps n x) = wraps w x.
Proof.
  intros H.
  assert (0 < 2 ^ n)%Z by (apply Z.pow_pos_nonneg; lia).
  assert (Hd : (2 ^ n = 2 ^ w * 2 ^ (n - w))%Z) by (rewrite <- Z.pow_add_r by lia; f_equal; lia).
  pose proof (Z.div_mod (x + 2 ^ (n - 1)) (2 ^ n) ltac:(lia)) as E.
  rewrite <- (wraps_shift w (wraps n x) (2 ^ (n - w) * ((x + 2 ^ (n - 1)) / 2 ^ n))) by lia.
  f_equal. unfold wraps. nia.
Qed.

(** Shifting up and back down keeps the low bits, sign extended. *)
Lemma sign_extend (val bits : Z) :
  (1 <= bits <= 64)%Z ->
  Z.shiftr (s64 (Z.shiftl (s64 val) (64 - bits))) (64 - bits) = wraps bits val.
Proof.
  intros Hb. rewrite <- (wraps_mod bits 64 val) by lia. set (v := s64 val).
  rewrite Z.shiftl_mul_pow2, Z.shiftr_div_pow2 by lia. unfold wraps.
  assert (H64 : (2 ^ 64 = 2 ^ bits * 2 ^ (64 - bits))%Z) by (rewrite <- Z.pow_add_r by lia; f_equal; lia).
  assert (H63 : (2 ^ (64 - 1) = 2 ^ (bits - 1) * 2 ^ (64 - bits))%Z)
    by (rewrite <- Z.pow_add_r by lia; f_equal; lia).
  assert (0 < 2 ^ (64 - bits))%Z by (apply Z.pow_pos_nonneg; lia).
  assert (0 < 2 ^ bits)%Z by (apply Z.pow_pos_nonneg; lia).
  rewrite H64, H63, <- Z.mul_add_distr_r, Z.mul_mod_distr_r by lia.
  rewrite <- Z.mul_sub_distr_r. by rewrite Z.div_mul by lia.
Qed.

(** The two ways agree, and are right. *)
Lemma truncate_any (builtin : bool) (val bits : Z) :
  is_u 64 val -> (1 <= bits <= 64)%Z ->
  integral_truncate_bits builtin val bits = Ok (wrapu bits val, wraps bits val).
Proof.
  intros Hv Hb. unfold integral_truncate_bits, INTEGRAL_BITS.
  assert (Hnot : (if (bits <? 64)%Z then Z.land val (u64 (Z.lnot (u64 (Z.shiftl NUMERIC_T_MAX bits))))
                  else Z.land val NUMERIC_T_MAX) = wrapu bits val).
  { destruct (Z.ltb_spec bits 64); [apply truncate_mask; lia|].
    replace bits with 64%Z by lia. unfold NUMERIC_T_MAX.
    by rewrite Z.sub_1_r, <- Z.ones_equiv, Z.land_ones by lia. }
  replace ((64 - bits <? 0) || (64 <=? 64 - bits))%Z with false by lia.
  rewrite sign_extend by lia.
  replace (Z.land val _) with (wrapu bits val) by (rewrite <- Hnot; by case_match).
  destruct builtin; [|done].
  destruct (Z.eqb_spec bits 8); [by subst|]. destruct (Z.eqb_spec bits 16); [by subst|].
  destruct (Z.eqb_spec bits 32); [by subst|]. destruct (Z.eqb_spec bits 64); by subst.
Qed.

(** truncation to any width from 1 to 64 bits, through the host's types or
    by masks and shifts, gives the value modulo 2^bits and the value that those
    bits mean in two's complement. *)
Theorem integral_truncate_bits_spec (builtin : bool) (val bits : Z) :
  is_u 64 val -> (1 <= bits <= 64)%Z ->
  integral_truncate_bits builtin val bits = Ok (wrapu bits val, wraps bits val).
Proof. apply truncate_any. Qed.
(** ** Arithmetic *)

Lemma s64_u64 (x : Z) : is_s 64 x -> s64 (u64 x) = x.
Proof.
  intros H. unfold wrapu. rewrite Z.mod_eq by lia.
  replace (x - 2 ^ 64 * (x / 2 ^ 64))%Z with (x + (- (x / 2 ^ 64)) * 2 ^ 64)%Z by lia.
  rewrite wraps_shift by lia. by apply wraps_id.
Qed.

Lemma u64_s64 (x : Z) : u64 (s64 x) = u64 x.
Proof.
  unfold wrapu, wraps.
  replace ((x + 2 ^ (64 - 1)) mod 2 ^ 64 - 2 ^ (64 - 1))%Z
    with (x + (- ((x + 2 ^ (64 - 1)) / 2 ^ 64)) * 2 ^ 64)%Z.
  { by rewrite Z.mod_add by lia. }
  pose proof (Z.div_mod (x + 2 ^ (64 - 1)) (2 ^ 64) ltac:(lia)). lia.
Qed.

Lemma u64_b2z (b : bool) : u64 (b2z b) = b2z b.
Proof. by destruct b. Qed.

(** The bits of an operator that works bit by bit are those of the truncated
    operands. *)
Lemma bitwise_u64 (f : Z -> Z -> Z) (h : bool -> bool -> bool) (l r : Z) :
  (forall a b i, Z.testbit (f a b) i = h (Z.testbit a i) (Z.testbit b i)) ->
  u64 (f (s64 l) (s64 r)) = u64 (f l r).
Proof.
  intros Hf. apply Z.bits_inj'. intros i Hi.
  rewrite !wrapu_testbit, !Hf by lia. destruct (Z.ltb_spec i 64); [|done]. simpl.
  assert (Hs : forall x, Z.testbit (s64 x) i = Z.testbit x i).
  { intros x. assert (E : Z.testbit (u64 (s64 x)) i = Z.testbit (u64 x) i) by (by rewrite u64_s64).
    rewrite !wrapu_testbit in E by lia. by replace (i <? 64)%Z with true in E by lia. }
  by rewrite !Hs.
Qed.

Lemma bitwise_range (f : Z -> Z -> Z) (h : bool -> bool -> bool) (w l r : Z) :
  (forall a b i, Z.testbit (f a b) i = h (Z.testbit a i) (Z.testbit b i)) -> h false false = false ->
  (0 <= w)%Z -> is_u w l -> is_u w r -> is_u w (f l r).
Proof.
  intros Hf Hh Hw Hl Hr.
  replace (f l r) with (wrapu w (f l r)); [by apply wrapu_range|].
  apply Z.bits_inj'. intros i Hi. rewrite wrapu_testbit, Hf by lia.
  rewrite <- (wrapu_id w l Hl), <- (wrapu_id w r Hr), !wrapu_testbit by lia.
  destruct (i <? w)%Z; simpl; [done|]. by rewrite Hh.
Qed.

(** The value an operator has in the integers, where C gives it one. *)
Definition c_value (op : op_type) (l r : Z) : option Z :=
  let count_ok := ((0 <=? r) && (r <? 64))%Z in
  match op with
  | op_multiply => Some (l * r)%Z
  | op_divide => if (r =? 0)%Z then None else Some (Z.quot l r)
  | op_modulus => if (r =? 0)%Z then None else Some (Z.rem l r)
  | op_plus => Some (l + r)%Z
  | op_minus => Some (l - r)%Z
  | op_xor => Some (Z.lxor l r)
  | op_or => Some (Z.lor l r)
  | op_and => Some (Z.land l r)
  | op_orsc => Some (b2z (negb (l =? 0)%Z || negb (r =? 0)%Z))
  | op_andsc => Some (b2z (negb (l =? 0)%Z && negb (r =? 0)%Z))
  | op_shiftl => if count_ok && (0 <=? l)%Z then Some (Z.shiftl l r) else None
  | op_shiftr => if count_ok then Some (Z.shiftr l r) else None
  | op_eq => Some (b2z (l =? r)%Z)
  | op_ne => Some (b2z (negb (l =? r)%Z))
  | op_le => Some (b2z (l <=? r)%Z)
  | op_lt => Some (b2z (l <? r)%Z)
  | op_ge => Some (b2z (r <=? l)%Z)
  | op_gt => Some (b2z (r <? l)%Z)
  | _ => None
  end.

(** The C value at a signed width: no result where it overflows; the remainder
    of the least number by -1 counts as an overflow. *)
Definition c_signed (w : Z) (op : op_type) (l r : Z) : option Z :=
  match c_value op l r with
  | Some v =>
      if bool_decide (is_s w v)
         && (negb (bool_decide (op = op_modulus)) || bool_decide (is_s w (Z.quot l r)))
      then Some v else None
  | None => None
  end.

Lemma is_s_mono (w x : Z) : (0 < w <= 64)%Z -> is_s w x -> is_s 64 x.
Proof.
  unfold is_s. intros Hw Hx. assert (2 ^ (w - 1) <= 2 ^ 63)%Z by (apply Z.pow_le_mono_r; lia).
  replace (64 - 1)%Z with 63%Z by lia. lia.
Qed.

Section arithmetic.
Context (g : target) (sues : sue_id -> sue).

Lemma exec_signed (w : Z) (ty : type) (op : op_type) (l r v : Z) :
  (0 < w <= 64)%Z -> type_is_signed g ty = Ok true -> is_s w l -> is_s w r ->
  c_signed w op l r = Some v ->
  const_op_exec g sues (u64 l) (Some (u64 r)) op ty = Ok (u64 v, None).
Proof.
  intros Hw Hty Hl Hr Hv. apply (is_s_mono w) in Hl, Hr; try done.
  unfold c_signed in Hv.
  destruct (c_value op l r) as [x|] eqn:Hc; [|done].
  destruct (bool_decide (is_s w x)) eqn:Hx; [|done]. simpl in Hv.
  apply bool_decide_eq_true in Hx. apply (is_s_mono w) in Hx; [|done].
  destruct (_ || _) eqn:Hq; [|done]. injection Hv as <-.
  assert (Hr0 : (u64 r =? 0)%Z = (r =? 0)%Z).
  { apply Bool.eq_iff_eq_true. rewrite !Z.eqb_eq. split; [|by intros ->].
    intros E. rewrite <- (s64_u64 r Hr), E. done. }
  unfold const_op_exec. rewrite Hty. simpl.
  rewrite (s64_u64 l Hl), (s64_u64 r Hr).
  destruct op; simpl in Hc |- *; try done; try injection Hc as <-; rewrite ?u64_b2z; try done.
  - rewrite bool_decide_true by done. done.
  - rewrite Hr0. destruct (r =? 0)%Z; [done|]. injection Hc as <-. simpl.
    rewrite bool_decide_true by done. done.
  - rewrite Hr0. destruct (r =? 0)%Z; [done|]. injection Hc as <-. simpl.
    simpl in Hq. apply bool_decide_eq_true in Hq.
    rewrite bool_decide_true by (by apply (is_s_mono w)). done.
  - unfold wrapu. by rewrite <- Zplus_mod.
  - unfold wrapu. by rewrite <- Zminus_mod.
  - case_match; [|done]. injection Hc as <-. by rewrite bool_decide_true by done.
  - case_match; [|done]. by injection Hc as <-.
Qed.

(** The largest value of an unsigned type. *)
Lemma type_max_unsigned (ty : type) (sz : Z) :
  type_size g sues ty = Ok sz -> (0 < sz <= 8)%Z -> type_is_signed g ty = Ok false ->
  type_max g sues ty = Ok (2 ^ (8 * sz) - 1)%Z.
Proof.
  intros Hs Hz Hty. unfold type_max. rewrite Hs. simpl. rewrite Hty. simpl.
  rewrite (Z.mod_small (sz * 8)) by lia.
  replace ((64 <? sz * 8) || (sz * 8 =? 0))%Z with false by lia.
  assert (Hc : (sz = 1 \/ sz = 2 \/ sz = 3 \/ sz = 4 \/ sz = 5 \/ sz = 6 \/ sz = 7 \/ sz = 8)%Z) by lia.
  by repeat destruct Hc as [->|Hc]; [..|subst].
Qed.

(** What the wrap-around makes of a result that is right modulo 2^64, and
    within one turn of the range. *)
Lemma wrap_small (w : Z) (ty : type) (op : op_type) (v : Z) :
  type_max g sues ty = Ok (2 ^ w - 1)%Z -> (0 < w <= 64)%Z -> is_u w v ->
  const_op_wrap g sues op ty v = Ok v.
Proof.
  intros Hm Hw Hv. unfold const_op_wrap. rewrite Hm. simpl.
  case_match; [done|]. unfold is_u in Hv. by replace (2 ^ w - 1 <? v)%Z with false by lia.
Qed.

Lemma wrap_plus (w : Z) (ty : type) (l r : Z) :
  type_max g sues ty = Ok (2 ^ w - 1)%Z -> (0 < w <= 64)%Z -> is_u w l -> is_u w r ->
  const_op_wrap g sues op_plus ty (u64 (l + r)) = Ok (wrapu w (l + r)).
Proof.
  intros Hm Hw Hl Hr. unfold const_op_wrap. rewrite Hm. simpl. unfold NUMERIC_T_MAX, is_u in *.
  destruct (Z.eqb_spec (2 ^ w - 1) (2 ^ 64 - 1)) as [E|E].
  { replace w with 64%Z; [done|]. apply (Z.pow_inj_r 2); lia. }
  assert (w < 64)%Z by (destruct (Z.eq_dec w 64%Z); [subst; done|lia]).
  assert (2 ^ w <= 2 ^ 63)%Z by (apply Z.pow_le_mono_r; lia).
  unfold wrapu. rewrite (Z.mod_small _ (2 ^ 64)) by lia.
  destruct (Z.ltb_spec (2 ^ w - 1) (l + r)).
  - simpl. f_equal. rewrite (Z.mod_small _ (2 ^ 64)) by lia.
    rewrite <- (Z.mod_add (l + r) (-1)) by lia. rewrite Z.mod_small; lia.
  - by rewrite Z.mod_small by lia.
Qed.

Lemma wrap_minus (w : Z) (ty : type) (l r : Z) :
  type_max g sues ty = Ok (2 ^ w - 1)%Z -> (0 < w <= 64)%Z -> is_u w l -> is_u w r ->
  const_op_wrap g sues op_minus ty (u64 (l - r)) = Ok (wrapu w (l - r)).
Proof.
  intros Hm Hw Hl Hr. unfold const_op_wrap. rewrite Hm. simpl. unfold NUMERIC_T_MAX, is_u in *.
  destruct (Z.eqb_spec (2 ^ w - 1) (2 ^ 64 - 1)) as [E|E].
  { replace w with 64%Z; [done|]. apply (Z.pow_inj_r 2); lia. }
  assert (w < 64)%Z by (destruct (Z.eq_dec w 64%Z); [subst; done|lia]).
  assert (2 ^ w <= 2 ^ 63)%Z by (apply Z.pow_le_mono_r; lia).
  unfold wrapu. destruct (Z.ltb_spec l r).
  - rewrite <- (Z.mod_add (l - r) 1 (2 ^ 64)), (Z.mod_small (l - r + _)) by lia.
    replace (2 ^ w - 1 <? l - r + 1 * 2 ^ 64)%Z with true by lia. simpl. f_equal.
    rewrite Z.mod_small by lia.
    rewrite <- (Z.mod_add (l - r) 1 (2 ^ w)), Z.mod_small by lia. lia.
  - rewrite (Z.mod_small (l - r) (2 ^ 64)), (Z.mod_small (l - r) (2 ^ w)) by lia.
    replace (2 ^ w - 1 <? l - r)%Z with false by lia. done.
Qed.

(** Unsigned values as the [sintegral_t] they are read as. *)
Lemma is_u_64 (w x : Z) : (0 < w <= 64)%Z -> is_u w x -> is_u 64 x.
Proof. unfold is_u. intros Hw. assert (2 ^ w <= 2 ^ 64)%Z by (apply Z.pow_le_mono_r; lia). lia. Qed.

Lemma is_u_b2z (w : Z) (b : bool) : (0 < w <= 64)%Z -> is_u w (b2z b).
Proof.
  unfold is_u. intros Hw. assert (2 ^ 1 <= 2 ^ w)%Z by (apply Z.pow_le_mono_r; lia). destruct b; simpl; lia.
Qed.

Lemma s64_zero_test (x : Z) : is_u 64 x -> (s64 x =? 0)%Z = (x =? 0)%Z.
Proof.
  intros Hx. apply Bool.eq_iff_eq_true. rewrite !Z.eqb_eq. split; [|by intros ->].
  intros E. pose proof (u64_s64 x) as U. rewrite E, (wrapu_id 64 x Hx) in U. done.
Qed.

Lemma s64_eq_test (l r : Z) : is_u 64 l -> is_u 64 r -> (s64 l =? s64 r)%Z = (l =? r)%Z.
Proof.
  intros Hl Hr. apply Bool.eq_iff_eq_true. rewrite !Z.eqb_eq. split; [|by intros ->].
  intros E. rewrite <- (wrapu_id 64 l Hl), <- (wrapu_id 64 r Hr). by rewrite <- u64_s64, E, u64_s64.
Qed.

Lemma s64_product (l r : Z) : (0 <= l)%Z -> (0 <= r)%Z -> is_s 64 (l * r) -> (s64 l * s64 r = l * r)%Z.
Proof.
  intros Hl Hr H. assert (Hid : forall x, (0 <= x)%Z -> (x < 2 ^ 63)%Z -> s64 x = x)
    by (intros x Hx1 Hx2; apply wraps_id; [lia|unfold is_s; lia]).
  unfold is_s in *. destruct (Z.eq_dec l 0%Z) as [->|]; [done|].
  destruct (Z.eq_dec r 0%Z) as [->|]; [by rewrite !Z.mul_0_r|]. rewrite !Hid by (try done; nia). done.
Qed.

(** C12: [const_op_exec], given an unsigned type of at most 8 bytes and two
    operands in its range, wraps as the type does: for sum, difference, division
    and remainder by a number other than zero, the bitwise operators, a right
    shift by less than 64, comparisons and [&&], [||], the result is the one in
    the integers modulo 2^bits of the type, with no error; a product and a left
    shift are right when the exact result fits the type and 64 bits with a sign
    (Example unsigned_multiply shows one that does not). A comparison is done
    without a sign because the type given is: out/op.c gives the operands' type;
    expr_op.c gives the result's, [int], and so folds a comparison of unsigned
    constants as a signed one (Example unsigned_compare), which is not this
    property. *)
Theorem const_op_exec_unsigned (ty : type) (sz : Z) (op : op_type) (l r v : Z) :
  type_size g sues ty = Ok sz -> (0 < sz <= 8)%Z -> type_is_signed g ty = Ok false ->
  is_u (8 * sz) l -> is_u (8 * sz) r -> c_value op l r = Some v ->
  (op = op_multiply \/ op = op_shiftl -> is_s 64 v /\ is_u (8 * sz) v) ->
  const_op_exec g sues l (Some r) op ty = Ok (wrapu (8 * sz) v, None).
Proof.
  intros Hs Hz Hty Hl Hr Hv Hmul.
  pose proof (type_max_unsigned ty sz Hs Hz Hty) as Hm. set (w := (8 * sz)%Z) in *.
  assert (Hw : (0 < w <= 64)%Z) by lia.
  pose proof (fun x => is_u_64 w x Hw) as Hmono.
  assert (Hsmall : forall x, is_u w x ->
            (result ← const_op_wrap g sues op ty x; Ok (result, None : option string)) = Ok (wrapu w x, None)).
  { intros x Hx. rewrite (wrap_small w) by done. simpl. by rewrite (wrapu_id w x). }
  pose proof (fun b => is_u_b2z w b Hw) as Hb.
  pose proof (fun x Hx => s64_zero_test x (Hmono x Hx)) as H0.
  pose proof (s64_eq_test l r (Hmono l Hl) (Hmono r Hr)) as He.
  unfold const_op_exec. rewrite Hty. simpl.
  destruct op; simpl in Hv |- *; try done; try injection Hv as <-; rewrite ?He, ?H0 by done;
    try (by apply Hsmall).
  - destruct (Hmul ltac:(auto)) as [Hx Hx'].
    unfold is_u in Hl, Hr; rewrite (s64_product l r), bool_decide_true by first [done|lia]. simpl. rewrite (wrapu_id 64) by auto. by apply Hsmall.
  - destruct (Z.eqb_spec r 0); [done|]. injection Hv as <-. simpl. unfold is_u in Hl, Hr.
    rewrite Z.quot_div_nonneg by lia. apply Hsmall.
    pose proof (Z.div_le_upper_bound l r l). pose proof (Z.div_pos l r). unfold is_u. nia.
  - destruct (Z.eqb_spec r 0); [done|]. injection Hv as <-. simpl. unfold is_u in Hl, Hr.
    rewrite Z.rem_mod_nonneg by lia. apply Hsmall.
    pose proof (Z.mod_pos_bound l r). unfold is_u. lia.
  - by rewrite (wrap_plus w).
  - by rewrite (wrap_minus w).
  - rewrite (bitwise_u64 Z.lxor xorb) by apply Z.lxor_spec.
    assert (is_u w (Z.lxor l r)) by (apply (bitwise_range _ xorb); [apply Z.lxor_spec|done|lia|done|done]).
    rewrite (wrapu_id 64) by auto. by apply Hsmall.
  - rewrite (bitwise_u64 Z.lor orb) by apply Z.lor_spec.
    assert (is_u w (Z.lor l r)) by (apply (bitwise_range _ orb); [apply Z.lor_spec|done|lia|done|done]).
    rewrite (wrapu_id 64) by auto. by apply Hsmall.
  - rewrite (bitwise_u64 Z.land andb) by apply Z.land_spec.
    assert (is_u w (Z.land l r)) by (apply (bitwise_range _ andb); [apply Z.land_spec|done|lia|done|done]).
    rewrite (wrapu_id 64) by auto. by apply Hsmall.
  - destruct (_ && _) eqn:E; [|done]. injection Hv as <-.
    replace (r <? 64)%Z with true by lia. simpl.
    destruct (Hmul ltac:(auto)) as [_ Hx]. rewrite (wrapu_id 64) by auto. by apply Hsmall.
  - destruct (_ && _) eqn:E; [|done]. injection Hv as <-.
    replace (r <? 64)%Z with true by lia. simpl. apply Hsmall.
    unfold is_u in *. rewrite Z.shiftr_div_pow2 by lia.
    assert (0 < 2 ^ r)%Z by (apply Z.pow_pos_nonneg; lia).
    pose proof (Z.div_le_upper_bound l (2 ^ r) l). pose proof (Z.div_pos l (2 ^ r)). nia.
Qed.

End arithmetic.
(** ** Folding whole expressions *)

(** One bind done. *)
Ltac go := cbn [mbind res_bind mret res_ret fst snd].

(** Integer expressions over one signed type: constants, other operands that
    are not constant, unary and binary operators. *)
Inductive iexpr :=
  | ILeaf (v : Z)
  | IVar (n : nat)
  | IUn (op : op_type) (e : iexpr)
  | IBin (op : op_type) (l r : iexpr).

Section whole.
Context (g : target) (sues : sue_id -> sue) (ty : type) (w : Z).
Hypothesis ty_signed : type_is_signed g ty = Ok true.
Hypothesis ty_no_ptr : type_is_ptr ty = None.
Hypothesis w_range : (1 < w <= 64)%Z.

(** Comparisons and logical operators have type [int]. *)
Definition itype (e : iexpr) : type :=
  match e with
  | ILeaf _ | IVar _ => ty
  | IUn op _ | IBin op _ _ => bool_or op ty
  end.

(** [const_fold] down the tree. *)
Fixpoint ifold (e : iexpr) : res consty :=
  match e with
  | ILeaf v => Ok (mk_consty (CONST_NUM (u64 v) 0) 0 None None)
  | IVar n => Ok (mk_consty CONST_NO 0 None (Some n))
  | IUn op l =>
      kl ← ifold l;
      fold_const_expr_op g sues (mk_op_expr 0 op (itype e) 1 (itype l) None) kl None
  | IBin op l r =>
      kl ← ifold l;
      kr ← ifold r;
      fold_const_expr_op g sues (mk_op_expr 0 op (itype e) 1 (itype l) (Some (2, itype r))) kl (Some kr)
  end.

(** What C says: [None] when the expression is undefined, [Some None] when it
    is no constant expression, or its value. *)
Definition c_unary (op : op_type) (v : Z) : option Z :=
  let in_range v := if bool_decide (is_s w v) then Some v else None in
  match op with
  | op_plus => Some v
  | op_minus => in_range (- v)%Z
  | op_not => Some (b2z (v =? 0)%Z)
  | op_bnot => Some (Z.lnot v)
  | _ => None
  end.

Fixpoint ceval (e : iexpr) : option (option Z) :=
  match e with
  | ILeaf v => if bool_decide (is_s w v) then Some (Some v) else None
  | IVar _ => Some None
  | IUn op e =>
      match ceval e with
      | Some (Some v) => match c_unary op v with Some v => Some (Some v) | None => None end
      | o => match op with op_plus | op_minus | op_not | op_bnot => o | _ => None end
      end
  | IBin op l r =>
      match ceval l, ceval r with
      | Some cl, Some cr =>
          match op, cl, cr with
          | op_orsc, Some a, _ =>
              if negb (a =? 0)%Z then Some (Some 1%Z)
              else Some (match cr with Some b => Some (b2z (negb (b =? 0)%Z)) | None => None end)
          | op_andsc, Some a, _ =>
              if (a =? 0)%Z then Some (Some 0%Z)
              else Some (match cr with Some b => Some (b2z (negb (b =? 0)%Z)) | None => None end)
          | (op_divide | op_modulus), Some a, Some b =>
              if (b =? 0)%Z then Some None
              else match c_signed w op a b with Some v => Some (Some v) | None => None end
          | _, Some a, Some b =>
              match c_signed w op a b with Some v => Some (Some v) | None => None end
          | _, _, _ => Some None
          end
      | _, _ => None
      end
  end.

(** A constant that folded to a value, or to nothing. *)
Definition folded (k : consty) (o : option Z) : Prop :=
  match o with
  | Some v => exists s n, k = mk_consty (CONST_NUM (u64 v) s) 0 None n
  | None => exists n, k = mk_consty CONST_NO 0 None n
  end.

Lemma itype_signed (e : iexpr) : type_is_signed g (itype e) = Ok true.
Proof using ty_signed. unfold itype, bool_or. destruct e; try done; by case_match. Qed.

Lemma itype_no_ptr (e : iexpr) : type_is_ptr (itype e) = None.
Proof using ty_no_ptr. unfold itype, bool_or. destruct e; try done; by case_match. Qed.

Lemma u64_zero (v : Z) : is_s w v -> (u64 v =? 0)%Z = (v =? 0)%Z.
Proof using w_range.
  intros H. apply (is_s_mono w) in H; [|lia]. apply Bool.eq_iff_eq_true. rewrite !Z.eqb_eq.
  split; [|by intros ->]. intros E. rewrite <- (s64_u64 v H), E. done.
Qed.

Lemma is_s_b2z (b : bool) : is_s w (b2z b).
Proof using w_range.
  unfold is_s. assert (2 ^ 1 <= 2 ^ (w - 1))%Z by (apply Z.pow_le_mono_r; lia). destruct b; simpl; lia.
Qed.

(** Values stay in the range of the type. *)
Lemma ceval_range (e : iexpr) (v : Z) : ceval e = Some (Some v) -> is_s w v.
Proof using w_range.
  assert (Hc : forall op a b x, c_signed w op a b = Some x -> is_s w x).
  { unfold c_signed. intros op a b x H. repeat case_match; simplify_eq.
    by apply andb_true_iff in H1 as [H1%bool_decide_eq_true _]. }
  revert v. induction e as [x|n|op e IH|op l IHl r IHr]; intros v H; simpl in H.
  - case_match; [|done]. simplify_eq. by apply bool_decide_eq_true in H0.
  - done.
  - destruct (ceval e) as [[x|]|]; [|by destruct op..]. specialize (IH x eq_refl).
    destruct op; simpl in H; simplify_eq; try done; try apply is_s_b2z.
    + destruct (bool_decide (is_s w (- x))) eqn:E; [|done]. simplify_eq.
      by apply bool_decide_eq_true in E.
    + unfold is_s, Z.lnot in *. lia.
  - repeat case_match; simplify_eq; eauto using is_s_b2z.
    + apply (is_s_b2z true).
    + apply (is_s_b2z false).
Qed.

Lemma collapse_num (v s : Z) (n : option nat) :
  collapse_const (mk_consty (CONST_NUM (u64 v) s) 0 None n) = Ok (mk_collapsed None (u64 v) false).
Proof. unfold collapse_const. simpl. rewrite Z.add_0_r. f_equal. f_equal. apply wrapu_id, wrapu_range. lia. Qed.

Lemma truth_num (v : Z) : is_s w v ->
  collapsed_consty_to_truth (mk_collapsed None (u64 v) false)
  = if (v =? 0)%Z then EVAL_FALSE else EVAL_TRUE.
Proof using w_range.
  intros H. unfold collapsed_consty_to_truth. simpl. rewrite (u64_zero v H). by destruct (v =? 0)%Z.
Qed.

(** Two constants under an operator. *)
Lemma fold_two (e : op_expr) (a b sa sb : Z) (na nb : option nat) :
  is_s w a -> is_s w b ->
  type_is_signed g (e_lhs_type e) = Ok true -> type_is_ptr (e_lhs_type e) = None ->
  type_is_signed g (e_type e) = Ok true ->
  (exists n t, e_rhs e = Some (n, t) /\ type_is_ptr t = None) ->
  forall o,
  match e_op e with
  | op_orsc => o = Some (b2z (negb (a =? 0)%Z || negb (b =? 0)%Z))
  | op_andsc => o = Some (b2z (negb (a =? 0)%Z && negb (b =? 0)%Z))
  | op_divide | op_modulus =>
      if (b =? 0)%Z then o = None else exists v, c_signed w (e_op e) a b = Some v /\ o = Some v
  | op => exists v, c_signed w op a b = Some v /\ o = Some v
  end ->
  exists k, fold_const_expr_op g sues e (mk_consty (CONST_NUM (u64 a) sa) 0 None na)
              (Some (mk_consty (CONST_NUM (u64 b) sb) 0 None nb)) = Ok k /\ folded k o.
Proof using w_range.
  intros Ha Hb Hls Hlp Hs (n & t & Hr & Hrp) o Ho.
  assert (Hexec : forall v, c_signed w (e_op e) a b = Some v ->
            const_op_exec g sues (u64 a) (Some (u64 b)) (e_op e) (e_type e) = Ok (u64 v, None))
    by (intros v Hv; apply (exec_signed g sues w); try done; lia).
  unfold fold_const_expr_op, const_op_num_int. cbn [default CONST_AT_COMPILE_TIME k_val negb orb].
  rewrite Hls. go. rewrite !collapse_num. go. unfold scale_pointer. rewrite Hlp, Hr, Hrp.
  replace (if _ && _ then _ else _)
    with (Ok (mk_collapsed None (u64 a) false, mk_collapsed None (u64 b) false) : res (collapsed_consty * collapsed_consty))
    by (by case_match).
  go. rewrite (truth_num a Ha), (truth_num b Hb).
  destruct (op_is_shortcircuit (e_op e)) eqn:Esc.
  - destruct (e_op e); try done; subst o;
      destruct (a =? 0)%Z, (b =? 0)%Z; simpl; (eexists; split; [done|]; simpl; eauto).
  - simpl. assert (Hdiv : o = None -> (u64 b =? 0)%Z = true /\ (e_op e = op_divide \/ e_op e = op_modulus)).
    { intros ->. rewrite (u64_zero b Hb).
      destruct (e_op e); try done; try (by destruct Ho as (? & _ & ?)); case_match;
        try (by destruct Ho as (? & _ & ?)); auto. }
    destruct o as [v|].
    + assert (Hv : c_signed w (e_op e) a b = Some v).
      { destruct (e_op e); try done; try (destruct Ho as (? & Hc & [= ->]); exact Hc);
          (case_match; [done|]; destruct Ho as (? & Hc & [= ->]); exact Hc). }
      rewrite (Hexec v Hv). simpl. eexists. split; [done|]. simpl. eauto.
    + destruct (Hdiv eq_refl) as [Hz Hop]. unfold const_op_exec. rewrite Hs. simpl.
      rewrite Hz. destruct Hop as [-> | ->]; simpl; (eexists; split; [done|]; simpl; eauto).
Qed.

(** One constant under a unary operator. *)
Lemma fold_one (e : op_expr) (a v s : Z) (n : option nat) :
  is_s w a -> type_is_signed g (e_lhs_type e) = Ok true -> type_is_signed g (e_type e) = Ok true ->
  c_unary (e_op e) a = Some v ->
  exists k, fold_const_expr_op g sues e (mk_consty (CONST_NUM (u64 a) s) 0 None n) None = Ok k
            /\ folded k (Some v).
Proof using w_range.
  intros Ha Hls Hs Hv.
  unfold fold_const_expr_op, const_op_num_int. cbn [default CONST_AT_COMPILE_TIME k_val negb orb].
  rewrite Hls. go. rewrite collapse_num. go.
  unfold const_op_exec. rewrite Hs. go.
  destruct (e_op e); simpl in Hv |- *; try done.
  - injection Hv as <-. rewrite Z.add_0_r. eexists. split; [done|]. simpl.
    unfold wrapu. rewrite Z.mod_mod by lia. eauto.
  - case_match; [|done]. injection Hv as <-. eexists. split; [done|]. simpl.
    unfold wrapu. rewrite <- (Z.sub_0_l (a mod _)), Zminus_mod_idemp_r, Z.sub_0_l. eauto.
  - injection Hv as <-. eexists. split; [done|]. simpl.
    rewrite (u64_zero a Ha), u64_b2z. eauto.
  - injection Hv as <-. eexists. split; [done|]. simpl. unfold Z.lnot, Z.pred, wrapu.
    replace (- (a mod 2 ^ 64) + -1)%Z with (-1 - a mod 2 ^ 64)%Z by lia.
    rewrite Zminus_mod_idemp_r. replace (-1 - a)%Z with (- a + -1)%Z by lia. eauto.
Qed.

(** An operand that is no constant. *)
Lemma fold_none (e : op_expr) (kl kr : consty) (cl cr : option Z) :
  (forall a, cl = Some a -> is_s w a) -> folded kl cl -> folded kr cr -> cl = None \/ cr = None ->
  exists k, fold_const_expr_op g sues e kl (Some kr) = Ok k
            /\ folded k match e_op e, cl with
                        | op_orsc, Some a => if (a =? 0)%Z then None else Some 1%Z
                        | op_andsc, Some a => if (a =? 0)%Z then Some 0%Z else None
                        | _, _ => None
                        end.
Proof using w_range.
  intros Ha Hl Hr Hno.
  destruct cl as [a|]; [|destruct cr]; simpl in Hl, Hr.
  - destruct cr; [by destruct Hno|]. destruct Hl as (s & n & ->), Hr as (n' & ->).
    specialize (Ha a eq_refl).
    unfold fold_const_expr_op. cbn [default CONST_AT_COMPILE_TIME k_val negb orb].
    destruct (op_is_shortcircuit (e_op e)) eqn:Esc;
      [|by destruct (e_op e); try done; (eexists; split; [done|]; simpl; eauto)].
    unfold const_shortcircuit. cbn [CONST_AT_COMPILE_TIME k_val negb]. rewrite collapse_num. go.
    rewrite (truth_num a Ha).
    destruct (e_op e); try done; destruct (a =? 0)%Z; simpl; (eexists; split; [done|]; simpl; eauto).
  - destruct Hl as (n & ->), Hr as (s & n' & ->). unfold fold_const_expr_op. simpl.
    destruct (e_op e); simpl; (eexists; split; [done|]; simpl; eauto).
  - destruct Hl as (n & ->), Hr as (n' & ->). unfold fold_const_expr_op. simpl.
    destruct (e_op e); simpl; (eexists; split; [done|]; simpl; eauto).
Qed.

(** What C says of a binary operator, by what it says of the operands. *)
Lemma ceval_bin (op : op_type) (cl cr o : option Z) (l r : iexpr) :
  ceval l = Some cl -> ceval r = Some cr -> ceval (IBin op l r) = Some o ->
  match cl, cr with
  | Some a, Some b =>
      match op with
      | op_orsc => o = Some (b2z (negb (a =? 0)%Z || negb (b =? 0)%Z))
      | op_andsc => o = Some (b2z (negb (a =? 0)%Z && negb (b =? 0)%Z))
      | op_divide | op_modulus =>
          if (b =? 0)%Z then o = None else exists v, c_signed w op a b = Some v /\ o = Some v
      | op => exists v, c_signed w op a b = Some v /\ o = Some v
      end
  | _, _ => o = match op, cl with
                | op_orsc, Some a => if (a =? 0)%Z then None else Some 1%Z
                | op_andsc, Some a => if (a =? 0)%Z then Some 0%Z else None
                | _, _ => None
                end
  end.
Proof.
  intros Hl Hr H. simpl in H. rewrite Hl, Hr in H.
  destruct cl as [a|], cr as [b|]; destruct op; try (injection H as <-; done);
    try (destruct (a =? 0)%Z; injection H as <-; done);
    try (destruct (b =? 0)%Z; [by injection H as <-|]);
    (destruct (c_signed w _ a b) as [v|]; [|done]; injection H as <-; eauto).
Qed.

(** C11: constant folding computes what C says: an integer expression over a
    signed type whose value is defined folds to exactly that value, however
    deep, with short circuits deciding where the left operand decides; and one
    that divides by zero or depends on an operand that is not constant folds to
    no constant. *)
Theorem fold_exact (e : iexpr) (o : option Z) :
  ceval e = Some o -> exists k, ifold e = Ok k /\ folded k o.
Proof using ty_signed ty_no_ptr w_range.
  revert o. induction e as [x|n|op e IH|op l IHl r IHr]; intros o H; simpl in H.
  - case_match; [|done]. simplify_eq. eexists. split; [done|]. simpl. eauto.
  - simplify_eq. eexists. split; [done|]. simpl. eauto.
  - destruct (ceval e) as [[x|]|] eqn:Ee; [| |by destruct op].
    + destruct (IH (Some x) eq_refl) as (k & Hk & s & n & ->). apply ceval_range in Ee.
      destruct (c_unary op x) as [v|] eqn:Hv; [|done]. simplify_eq.
      destruct (fold_one (mk_op_expr 0 op (itype (IUn op e)) 1 (itype e) None) x v s n)
        as (k & Hf & Hko); simpl; try done; try apply itype_signed.
      { apply (itype_signed (IUn op e)). }
      exists k. split; [|done]. simpl. rewrite Hk. go. exact Hf.
    + destruct (IH None eq_refl) as (k & Hk & n & ->). simpl. rewrite Hk. go.
      destruct op; simplify_eq; (eexists; split; [done|]; simpl; eauto).
  - destruct (ceval l) as [cl|] eqn:El; [|done]. destruct (ceval r) as [cr|] eqn:Er; [|done].
    assert (H' : ceval (IBin op l r) = Some o) by (simpl; by rewrite El, Er).
    pose proof (ceval_bin op cl cr o l r El Er H') as Hb. clear H H'.
    destruct (IHl cl eq_refl) as (kl & Hkl & Hl), (IHr cr eq_refl) as (kr & Hkr & Hr).
    assert (Hal : forall a, cl = Some a -> is_s w a) by (intros a ->; by apply (ceval_range l)).
    assert (Har : forall a, cr = Some a -> is_s w a) by (intros a ->; by apply (ceval_range r)).
    set (e := mk_op_expr 0 op (itype (IBin op l r)) 1 (itype l) (Some (2, itype r))).
    change (exists k, (kl ← ifold l; kr ← ifold r; fold_const_expr_op g sues e kl (Some kr)) = Ok k
                      /\ folded k o).
    rewrite Hkl, Hkr. go.
    destruct cl as [a|]; [destruct cr as [b|]|].
    + destruct Hl as (s & n & ->), Hr as (s' & n' & ->).
      apply fold_two; auto.
      * apply (itype_signed l).
      * apply (itype_no_ptr l).
      * apply (itype_signed (IBin op l r)).
      * exists 2, (itype r). split; [done|apply itype_no_ptr].
      * simpl. by destruct op.
    + subst o. destruct (fold_none e kl kr (Some a) None) as (k & Hk & Hn); auto.
      exists k. split; [done|]. by destruct op.
    + assert (o = None) as -> by (by destruct cr, op).
      destruct (fold_none e kl kr None cr) as (k & Hk & Hn); auto.
      exists k. split; [done|]. by destruct op.
Qed.

End whole.

(** ** The usual arithmetic conversions *)

Definition promoted : list type_primitive :=
  [type_int; type_uint; type_long; type_ulong; type_llong; type_ullong].

(** The rank of C11 6.3.1.1, and the unsigned types. *)
Definition c_rank (p : type_primitive) : Z :=
  match p with
  | type_int | type_uint => 1
  | type_long | type_ulong => 2
  | _ => 3
  end.

Definition c_unsigned (p : type_primitive) : bool :=
  match p with type_uint | type_ulong | type_ullong => true | _ => false end.

Definition c_to_unsigned (p : type_primitive) : type_primitive :=
  match p with type_int => type_uint | type_long => type_ulong | _ => type_ullong end.

Definition c_size (g : target) (p : type_primitive) : Z :=
  match p with
  | type_int | type_uint => 4
  | type_long | type_ulong => platform_word_size g
  | _ => 8
  end.

(** C11 6.3.1.8, for promoted integer types. *)
Definition usual_conversions (g : target) (a b : type_primitive) : type_primitive :=
  if Bool.eqb (c_unsigned a) (c_unsigned b) then
    if (c_rank b <? c_rank a)%Z then a else b
  else
    let u := if c_unsigned a then a else b in
    let s := if c_unsigned a then b else a in
    if (c_rank s <=? c_rank u)%Z then u
    else if (c_size g u <? c_size g s)%Z then s
    else c_to_unsigned s.

Lemma arith_promotion_usual (g : target) (sues : sue_id -> sue) (op : op_type)
    (a b : type_primitive) :
  a ∈ promoted -> b ∈ promoted ->
  let t := type_nav_btype (usual_conversions g a b) in
  exists p, arith_promotion g sues op (type_nav_btype a) (type_nav_btype b) = Ok p
            /\ resolved p = bool_or op t
            /\ default (type_nav_btype a) (cast_lhs p) = t
            /\ default (type_nav_btype b) (cast_rhs p) = t.
Proof.
  unfold promoted. rewrite !elem_of_cons, !elem_of_nil.
  destruct g as [[] s sc ms p9]; intros Ha Hb;
    repeat destruct Ha as [->|Ha]; try done; repeat destruct Hb as [->|Hb]; try done;
    (eexists; split; [reflexivity|]; by split_and!).
Qed.

(** C13: for two promoted integer types every operator but the shifts and the
    logical ones converts both operands to the type C11 6.3.1.8 gives them, on
    both word sizes, and has that type, or [int] for a comparison. *)
Theorem op_promotion_usual (g : target) (sues : sue_id -> sue) (op : op_type)
    (a b : type_primitive) :
  a ∈ promoted -> b ∈ promoted ->
  op ∉ [op_shiftl; op_shiftr; op_andsc; op_orsc] ->
  let t := type_nav_btype (usual_conversions g a b) in
  exists p, op_required_promotion g sues op (type_nav_btype a) (type_nav_btype b) = Ok p
            /\ resolved p = (if op_returns_bool op then type_nav_btype type_int else t)
            /\ default (type_nav_btype a) (cast_lhs p) = t
            /\ default (type_nav_btype b) (cast_rhs p) = t.
Proof.
  intros Ha Hb Hop t.
  replace (op_required_promotion g sues op (type_nav_btype a) (type_nav_btype b))
    with (arith_promotion g sues op (type_nav_btype a) (type_nav_btype b)).
  { by apply arith_promotion_usual. }
  rewrite !elem_of_cons in Hop. unfold op_required_promotion.
  assert (Hf : forall p, p ∈ promoted -> type_is_floating (type_nav_btype p) = false).
  { unfold promoted. intros p. rewrite !elem_of_cons, elem_of_nil. intros Hp.
    by repeat destruct Hp as [->|Hp]. }
  rewrite (Hf a Ha), (Hf b Hb). simpl. destruct op; tauto.
Qed.

(** ** The library at work *)

Definition num (v : Z) : consty := mk_consty (CONST_NUM v 0) 0 None None.

(** 5 of the low bits of 0xf7: 23, or -9. *)
Lemma integral_truncate_bits_spec_witness :
  integral_truncate_bits true 247 5 = Ok (23%Z, (-9)%Z).
Proof. rewrite integral_truncate_bits_spec; [reflexivity|unfold is_u; lia|lia]. Defined.

(** [3u - 5u]. *)
Lemma const_op_exec_unsigned_witness :
  const_op_exec linux64 no_sues 3 (Some 5%Z) op_minus (ty type_uint) = Ok (4294967294%Z, None).
Proof.
  rewrite (const_op_exec_unsigned linux64 no_sues (ty type_uint) 4 op_minus 3 5 (-2)).
  - reflexivity.
  - reflexivity.
  - lia.
  - reflexivity.
  - unfold is_u; lia.
  - unfold is_u; lia.
  - reflexivity.
  - intros [H|H]; discriminate H.
Defined.

(** [(7 - 2 * 3) || 1 / 0], and [-(40 % 9) << 1 | n] with a variable. *)
Lemma fold_exact_witness :
  let e := IBin op_orsc (IBin op_minus (ILeaf 7) (IBin op_multiply (ILeaf 2) (ILeaf 3)))
                        (IBin op_divide (ILeaf 1) (ILeaf 0)) in
  exists k, ifold linux64 no_sues (ty type_int) e = Ok k /\ folded k (Some 1%Z).
Proof.
  apply (fold_exact linux64 no_sues (ty type_int) 32);
    [reflexivity|reflexivity|lia|vm_compute; reflexivity].
Defined.

Lemma op_promotion_usual_witness :
  exists p, op_required_promotion linux32 no_sues op_lt (ty type_uint) (ty type_long) = Ok p
            /\ resolved p = ty type_int
            /\ default (ty type_uint) (cast_lhs p) = ty type_ulong
            /\ default (ty type_long) (cast_rhs p) = ty type_ulong.
Proof.
  apply (op_promotion_usual linux32 no_sues op_lt type_uint type_long);
    apply (bool_decide_unpack _); vm_compute; reflexivity.
Defined.

(** [4294967295u * 3]: one turn of the range is taken off, two are needed. *)
Example unsigned_multiply :
  const_op_exec linux64 no_sues 4294967295 (Some 3%Z) op_multiply (ty type_uint)
  = Ok (8589934589%Z, None).
Proof. reflexivity. Qed.

(** [18446744073709551615u > 1u] folds to 0: the comparison is done in the
    signed type of its result. *)
Example unsigned_compare :
  fold_const_expr_op linux64 no_sues
    (mk_op_expr 0 op_gt (ty type_int) 1 (ty type_ulong) (Some (2, ty type_ulong)))
    (num (2 ^ 64 - 1)) (Some (num 1))
  = Ok (mk_consty (CONST_NUM 0 VAL_UNSIGNED) 0 None None).
Proof. reflexivity. Qed.

(** [&a[0] - &a[2]] of [int a[]]: the byte difference is divided as unsigned. *)
Example pointer_difference :
  let at_ n := mk_consty (CONST_ADDR (CONST_LBL_TRUE (str "a"))) n None None in
  fold_const_expr_op linux64 no_sues
    (mk_op_expr 0 op_minus (ty type_long) 1 (ptr_ (ty type_int)) (Some (2, ptr_ (ty type_int))))
    (at_ 0%Z) (Some (at_ 8%Z))
  = Ok (mk_consty (CONST_NUM 4611686018427387902 0) 0 (Some 0) None).
Proof. reflexivity. Qed.

(** The constant address 4 is not zero, and [const_expr_and_non_zero] denies
    that; it holds of the null address. *)
Example memaddr_zero :
  let at_ n := mk_consty (CONST_ADDR (CONST_LBL_MEMADDR n)) 0 None None in
  (const_expr_and_non_zero (at_ 4%Z), const_expr_and_non_zero (at_ 0%Z)) = (false, true).
Proof. reflexivity. Qed.

(** On 32 bits [double] is no larger than [float], and their sum is the type
    of the right operand. *)
Example double_plus_float :
  op_required_promotion linux32 no_sues op_plus (ty type_double) (ty type_float)
  = Ok (mk_promotion (ty type_float) None None).
Proof. reflexivity. Qed.
