(* ===== verification/Layout.v ===== *)
(** * Struct, union and enum layout

    [src/src/cc1/fold_sue.c], the sizes of [decl.c] and the member lookup of
    [sue.c]: where [fold_sue] puts the members of a struct or union, bitfields
    included, what size and alignment the whole gets, the values and the size of
    an enum, and the offset at which [struct_union_member_find] sees a member,
    through anonymous structs. Each definition is laid out in a table of
    definitions; the definitions its members refer to are laid out before. *)

From S2P Require Import Prelude Arith Triple Types Consts.
Local Open Scope Z_scope.

(** ** Declarations *)

Section layout.
Context (g : target) (sues : sue_id -> sue).

Definition decl_size (d : member) : res Z :=
  if type_is_void (m_ref d) then Die "is void"
  else if bool_decide (kind (type_skip_all (m_ref d)) <> kind_func)
          && match field_width d with Some _ => true | None => false end
  then Die "can't take size of a bitfield"
  else type_size g sues (m_ref d).

(** A member has no prototypes. *)
Definition decl_align (d : member) : res Z :=
  if bool_decide (kind (type_skip_all (m_ref d)) <> kind_func) && negb (align_resolved d =? 0)
  then Ok (align_resolved d)
  else type_align g sues (m_ref d).

(** [attribute_present], without prototypes. *)
Definition attribute_present (d : member) (t : attribute_type) : res bool :=
  match attr_present (m_attr d) t with
  | Some _ => Ok true
  | None =>
      a ← type_attr_present sues t (m_ref d);
      Ok (match a with Some _ => true | None => false end)
  end.

Definition type_nav_MAX_FOR (sz : Z) (is_signed : bool) : res type :=
  p ← type_primitive_not_less_than_size g sz is_signed;
  if decide (p = type_unknown) then Ice "no type max" else Ok (type_nav_btype p).

(** The bytes a bitfield's own bits need, as a type. *)
Definition decl_type_for_bitfield (d : member) : res type :=
  if decide (kind (type_skip_all (m_ref d)) = kind_func) then Ice "assert(!func)"
  else
    match field_width d with
    | Some width =>
        let bits := u32 width in
        is_signed ← type_is_signed g (m_ref d);
        let bytes := bits / 8 in
        let bytes := if negb (bits mod 8 =? 0) then bytes + 1 else bytes in
        type_nav_MAX_FOR bytes is_signed
    | None => Ok (m_ref d)
    end.

Definition decl_size_align_inc_bitfield (d : member) : res (Z * Z) :=
  ty ← decl_type_for_bitfield d;
  sz ← type_size g sues ty;
  align ← type_align g sues ty;
  Ok (sz, align).

(** ** Packing *)

Record bitfield_state : Type := mk_bitfield {
  master_ty : option type;
  current_off : Z;
  first_off : Z;
  current_limit : Z
}.

(** The locals of [fold_sue]'s loop, and the struct's [flexarr]. *)
Record layout : Type := mk_layout {
  align_max : Z;
  sz_max : Z;
  offset : Z;
  realign_next : bool;
  submemb_const : bool;
  flexarr : bool;
  bitfield : bitfield_state
}.

Definition set_place (d : member) (off : Z) : member :=
  mk_member (m_spel d) (m_ref d) (field_width d) (align_resolved d) (m_attr d)
    (u32 off) (struct_offset_bitfield d) (first_bitfield d) (bitfield_master_ty d).

Definition set_bitfield (d : member) (bit_off : Z) (first : bool) (master : option type) : member :=
  mk_member (m_spel d) (m_ref d) (field_width d) (align_resolved d) (m_attr d)
    (struct_offset d) (u32 bit_off) first master.

(** The member with its [struct_offset], and the new [*poffset]. *)
Definition struct_pack (d : member) (poffset sz align : Z) : res (member * Z) :=
  r ← pack_next poffset sz align;
  Ok (set_place d r.2, r.1).

Definition round_size_to_align (size align : Z) : res Z :=
  r ← pack_to_align size align; Ok (u32 r).

Definition struct_pack_finish_bitfield (offset : Z) (b : bitfield_state) : res Z :=
  match master_ty b with
  | None => Ok offset
  | Some ty =>
      master_ty_size ← type_size g sues ty;
      if master_ty_size =? 0 then Ub "division by zero"
      else
        let over := offset mod master_ty_size in
        Ok (if negb (over =? 0) then u64 (offset + (master_ty_size - over)) else offset)
  end.

(** What a member of width 0 does, a member that starts a new unit, one that
    goes into the current unit: the member, [sz], [align], and the locals
    changed. *)
Definition bitfield_start (d : member) (realign_next : bool) (offset bits : Z) (b : bitfield_state)
    : res (member * Z * Z * Z * bitfield_state) :=
  offset ← (if realign_next || negb (current_off b =? 0)
            then struct_pack_finish_bitfield offset b else Ok offset);
  limit ← type_size g sues (m_ref d);
  sa ← decl_size_align_inc_bitfield d;
  sz ← round_size_to_align sa.1 sa.2;
  r ← struct_pack d offset sz sa.2;
  align ← type_align g sues (m_ref d);
  let d := set_bitfield r.1 (struct_offset_bitfield r.1) true (Some (m_ref d)) in
  Ok (d, sz, align, r.2, mk_bitfield (Some (m_ref d)) 0 (struct_offset d) (u32 (8 * limit))).

Definition fold_sue_calc_fieldwidth (d : member) (width : Z) (realign_next : bool) (offset : Z)
    (b : bitfield_state) : res (member * Z * Z * bool * Z * bitfield_state) :=
  let bits := u32 width in
  placed ← (
    if bits =? 0 then Ok (set_place d offset, 0, 0, true, offset, b)
    else if realign_next || (current_off b =? 0) || (current_limit b <? u32 (current_off b + bits)) then
      s ← bitfield_start d realign_next offset bits b;
      let '(d, sz, align, offset, b) := s in
      Ok (d, sz, align, false, offset, b)
    else
      Ok (set_bitfield (set_place d (first_off b)) (struct_offset_bitfield d) (first_bitfield d)
                       (master_ty b), 0, 0, realign_next, offset, b)
    : res (member * Z * Z * bool * Z * bitfield_state));
  let '(d, sz, align, realign_next, offset, b) := placed in
  let d := set_bitfield d (current_off b) (first_bitfield d) (bitfield_master_ty d) in
  let off := u32 (current_off b + bits) in
  if off =? current_limit b then
    let b := mk_bitfield (master_ty b) 0 (first_off b) (current_limit b) in
    offset ← struct_pack_finish_bitfield offset b;
    Ok (d, sz, align, realign_next, offset, b)
  else
    Ok (d, sz, align, realign_next, offset,
        mk_bitfield (master_ty b) off (first_off b) (current_limit b)).

Definition populate_size_align (d : member) : res (Z * Z) :=
  sz ← (if negb (type_is_incomplete_array (m_ref d)) then decl_size d else Ok 0);
  align ← decl_align d;
  Ok (sz, align).

(** [last]: there is no member after this one. The third result is [flexarr]. *)
Definition fold_sue_calc_normal (d : member) (prim : type_primitive) (last : bool) (flex : bool)
    : res (Z * Z * bool) :=
  sa ← populate_size_align d;
  if type_is_incomplete_array (m_ref d) then
    if negb last then Die "flexible array not at end of struct"
    else if bool_decide (prim <> type_struct) then Die "flexible array in a union"
    else Ok (0, sa.2, true)
  else Ok (sa.1, sa.2, flex).

Definition fold_sue_apply_normal_offset (d : member) (sz align offset : Z) (b : bitfield_state)
    : res (member * Z * bitfield_state) :=
  let b := if negb (current_off b =? 0)
           then mk_bitfield (master_ty b) 0 (first_off b) (current_limit b) else b in
  r ← struct_pack d offset sz align;
  Ok (r.1, r.2, b).

(** [enum sue_anonextkind]. *)
Inductive sue_anonextkind := SUE_ANONEXT_ALLOW | SUE_ANONEXT_DENY | SUE_ANONEXT_ALLOW_C11.

Definition sue_anonext_type (d : member) (sub_sue : sue) : sue_anonextkind :=
  if FOPT_TAG_ANON_STRUCT_EXT g then SUE_ANONEXT_ALLOW
  else if negb (s_anon sub_sue) || match type_is_tdef (m_ref d) with Some _ => true | None => false end
  then SUE_ANONEXT_DENY
  else SUE_ANONEXT_ALLOW_C11.

(** Is the member dropped? *)
Definition fold_sue_check_unnamed (d : member) (sub_sue : option sue_id) : bool :=
  match m_spel d, field_width d, sub_sue with
  | None, None, Some s =>
      match sue_anonext_type d (sues s) with SUE_ANONEXT_DENY => true | _ => false end
  | _, _, _ => false
  end.

(** One turn of the loop: [None] when the member is dropped. A member that is
    variably modified or incomplete is reported and passed over. [sub_sue] is
    laid out already: it would be incomplete otherwise. *)
Definition fold_member (prim : type_primitive) (packed : bool) (last : bool) (d : member) (l : layout)
    : res (option member * layout) :=
  let sub_sue := type_is_s_or_u sues (m_ref d) in
  vm ← type_is_variably_modified (m_ref d);
  if vm : bool then Ok (Some d, l)
  else if fold_sue_check_unnamed d sub_sue then Ok (None, l)
  else
    complete ← type_is_complete sues (m_ref d);
    if negb complete && negb (type_is_incomplete_array (m_ref d)) then Ok (Some d, l)
    else
      let const := submemb_const l || type_is_const (m_ref d) in
      calc ← (
        match sub_sue, field_width d with
        | Some s, _ =>
            sa ← populate_size_align d;
            Ok (d, sa.1, sa.2, realign_next l, offset l, bitfield l,
                const || s_contains_const (sues s), flexarr l)
        | None, Some width =>
            r ← fold_sue_calc_fieldwidth d width (realign_next l) (offset l) (bitfield l);
            let '(d, sz, align, realign, offset, b) := r in
            Ok (d, sz, align, realign, offset, b, const, flexarr l)
        | None, None =>
            r ← fold_sue_calc_normal d prim last (flexarr l);
            Ok (d, r.1.1, r.1.2, realign_next l, offset l, bitfield l, const, r.2)
        end : res (member * Z * Z * bool * Z * bitfield_state * bool * bool));
      let '(d, sz, align, realign, offset, b, const, flex) := calc in
      pk ← (if packed then Ok true else attribute_present d attr_packed);
      let align := if pk : bool then 1 else align in
      placed ← (
        if bool_decide (prim = type_struct) && match field_width d with None => true | Some _ => false end
        then fold_sue_apply_normal_offset d sz align offset b
        else Ok (d, offset, b) : res (member * Z * bitfield_state));
      let '(d, offset, b) := placed in
      Ok (Some d, mk_layout (Z.max (align_max l) align) (Z.max (sz_max l) sz) offset realign const flex b).

Fixpoint fold_members (prim : type_primitive) (packed : bool) (members : list sue_member) (l : layout)
    : res (list sue_member * layout) :=
  match members with
  | [] => Ok ([], l)
  | enum_member _ _ :: _ => Ub "an enumerator in a struct"
  | struct_member d :: members =>
      r ← fold_member prim packed (bool_decide (members = [])) d l;
      rest ← fold_members prim packed members r.2;
      Ok (match r.1 with Some d => struct_member d :: rest.1 | None => rest.1 end, rest.2)
  end.

Definition layout0 : layout := mk_layout 1 0 0 false false false (mk_bitfield None 0 0 0).

(** [fold_get_max_align_attribute]; what is wrong with an alignment is reported
    and the alignment taken all the same. *)
Fixpoint fold_get_max_align_attribute (attribs : list attribute) (max : Z) : Z :=
  match attribs with
  | [] => max
  | a :: attribs =>
      fold_get_max_align_attribute attribs
        (if decide (a_type a = attr_aligned) then
           match a_align a with
           | Some al => Z.max max (s32 al)
           | None => max
           end
         else max)
  end.

Definition fold_struct (st : sue) : res sue :=
  let packed := match attr_present (s_attr st) attr_packed with Some _ => true | None => false end in
  r ← fold_members (s_primitive st) packed (s_members st) layout0;
  let l := r.2 in
  size ← pack_to_align (if decide (s_primitive st = type_struct) then offset l else sz_max l)
                       (align_max l);
  size ← round_size_to_align (u32 size) (align_max l);
  let align := u32 (fold_get_max_align_attribute (s_attr st) (s32 (align_max l))) in
  size ← round_size_to_align size align;
  Ok (mk_sue (s_primitive st) (s_attr st) (s_anon st) (s_membs st) SUE_FOLDED_FULLY
        (flexarr l) (submemb_const l) align size r.1).

(** ** Enums *)

(** The locals of [fold_enum]'s loop. *)
Record enum_state : Type := mk_enum {
  defval : Z;
  en_max : Z;
  en_min : Z;
  en_signed : bool
}.

(** One enumerator; one that is no integer constant is reported and passed
    over. [negative] starts as 0 for each, and stays 0 for an implicit value. *)
Definition fold_enumerator (has_bitmask : bool) (val : enum_val) (e : enum_state)
    : enum_val * enum_state :=
  let next v negative :=
    let lt_min := (s64 v <? s64 (en_min e)) in
    let gt_max := (en_max e <? v) in
    mk_enum (s32 (if has_bitmask then Z.shiftl v 1 else v + 1))
      (if negb negative && gt_max then v else en_max e)
      (if negative && lt_min then v else en_min e)
      (en_signed e || negative) in
  match val with
  | val_missing => (val_num (u64 (defval e)) 0, next (u64 (defval e)) false)
  | val_num v suffix =>
      (val, next v (if negb (Z.land suffix VAL_UNSIGNED =? 0) then false else s64 v <? 0))
  | val_bad => (val, e)
  end.

Fixpoint fold_enumerators (has_bitmask : bool) (members : list sue_member) (e : enum_state)
    : res (list sue_member * enum_state) :=
  match members with
  | [] => Ok ([], e)
  | struct_member _ :: _ => Ub "a member in an enum"
  | enum_member spel val :: members =>
      let r := fold_enumerator has_bitmask val e in
      rest ← fold_enumerators has_bitmask members r.2;
      Ok (enum_member spel r.1 :: rest.1, rest.2)
  end.

(** [short_enums]: the smallest type that is taken to hold the values. *)
Definition enum_type (short_enums : bool) (e : enum_state) : res type :=
  if short_enums then
    lo ← round2 (u64 (- en_min e + 1));
    hi ← round2 (u64 (en_max e + 1));
    lo ← log2ll lo;
    hi ← log2ll hi;
    bits ← round2 (u32 (Z.max lo hi));
    let bits := if bits <? 8 then 8 else bits in
    type_nav_MAX_FOR (u32 (bits / 8)) (en_signed e)
  else Ok (type_nav_btype type_int).

Definition fold_enum (short_enums : bool) (en : sue) : res sue :=
  let has_bitmask := match attr_present (s_attr en) attr_enum_bitmask with Some _ => true | None => false end in
  r ← fold_enumerators has_bitmask (s_members en) (mk_enum (b2z has_bitmask) 0 0 false);
  contained_ty ← enum_type short_enums r.2;
  size ← type_size g sues contained_ty;
  align ← type_align g sues contained_ty;
  size ← round_size_to_align size align;
  Ok (mk_sue (s_primitive en) (s_attr en) (s_anon en) (s_membs en) SUE_FOLDED_FULLY
        (s_flexarr en) (s_contains_const en) align size r.1).

End layout.

(** ** The definition in its table *)

Definition set_fold (s : sue) (f : foldprog) : sue :=
  mk_sue (s_primitive s) (s_attr s) (s_anon s) (s_membs s) f (s_flexarr s) (s_contains_const s)
         (s_align s) (s_size s) (s_members s).

Definition sue_update (sues : sue_id -> sue) (id : sue_id) (s : sue) : sue_id -> sue :=
  fun i => if decide (i = id) then s else sues i.

Definition fold_sue (g : target) (short_enums : bool) (sues : sue_id -> sue) (id : sue_id)
    : res (sue_id -> sue) :=
  let st := sues id in
  if negb (bool_decide (s_fold st = SUE_FOLDED_NO)) || negb (bool_decide (s_membs st = SUE_MEMBS_COMPLETE))
  then Ok sues
  else
    let st := set_fold st SUE_FOLDED_PARTIAL in
    let sues := sue_update sues id st in
    st ← (if decide (s_primitive st = type_enum) then fold_enum g sues short_enums st
          else fold_struct g sues st);
    Ok (sue_update sues id st).

(** ** Members that are no bitfields *)

Section plain.
Context (g : target) (sues : sue_id -> sue).

(** A complete member of a fixed size that keeps its alignment [2^k]. *)
Record fits (d : member) (sz k : Z) : Prop := mk_fits {
  fits_plain : field_width d = None;
  fits_vm : type_is_variably_modified (m_ref d) = Ok false;
  fits_complete : type_is_complete sues (m_ref d) = Ok true;
  fits_sized : type_is_incomplete_array (m_ref d) = false;
  fits_kept : fold_sue_check_unnamed g sues d (type_is_s_or_u sues (m_ref d)) = false;
  fits_unpacked : attribute_present sues d attr_packed = Ok false;
  fits_size : decl_size g sues d = Ok sz;
  fits_align : decl_align g sues d = Ok (2 ^ k);
  fits_bound : 0 <= sz /\ 0 <= k < 31
}.

(** What a turn of the loop does with it. *)
Lemma fold_member_plain (prim : type_primitive) (last : bool) (d : member) (sz k : Z) (l : layout) :
  fits d sz k -> 0 <= offset l -> offset l + sz + 2 ^ k < 2 ^ 31 ->
  exists d' l',
    fold_member g sues prim false last d l = Ok (Some d', l')
    /\ align_max l' = Z.max (align_max l) (2 ^ k) /\ sz_max l' = Z.max (sz_max l) sz
    /\ if decide (prim = type_struct)
       then (2 ^ k | struct_offset d') /\ d' = set_place d (struct_offset d')
            /\ offset l <= struct_offset d' < offset l + 2 ^ k
            /\ offset l' = struct_offset d' + sz
       else d' = d /\ offset l' = offset l.
Proof.
  intros [Hw Hvm Hc Hs Hk Hp Hsz Hal [Hb Hkb]] Ho Hl.
  assert (Hpop : populate_size_align g sues d = Ok (sz, 2 ^ k))
    by (unfold populate_size_align; rewrite Hs; simpl; by rewrite Hsz; simpl; rewrite Hal).
  unfold fold_member. rewrite Hvm, Hk, Hc, Hs, Hw. go. simpl.
  assert (Hcalc : exists const flex,
    match type_is_s_or_u sues (m_ref d) with
    | Some s =>
        sa ← populate_size_align g sues d;
        Ok (d, sa.1, sa.2, realign_next l, offset l, bitfield l,
            (submemb_const l || type_is_const (m_ref d)) || s_contains_const (sues s), flexarr l)
    | None =>
        r ← fold_sue_calc_normal g sues d prim last (flexarr l);
        Ok (d, r.1.1, r.1.2, realign_next l, offset l, bitfield l,
            submemb_const l || type_is_const (m_ref d), r.2)
    end = Ok (d, sz, 2 ^ k, realign_next l, offset l, bitfield l, const, flex)).
  { destruct (type_is_s_or_u sues (m_ref d)).
    - rewrite Hpop. simpl. eauto.
    - unfold fold_sue_calc_normal. rewrite Hpop, Hs. simpl. eauto. }
  destruct Hcalc as (const & flex & ->). simpl. rewrite Hp. simpl. rewrite Hw.
  destruct (decide (prim = type_struct)) as [->|Hn].
  - simpl. unfold fold_sue_apply_normal_offset, struct_pack, pack_next.
    destruct (pack_to_align_pow2 (offset l) k) as (r & Hr & Hd & Hle); [lia..|].
    rewrite Hr. simpl. rewrite wrapu_id by (unfold is_u; lia).
    eexists _, _. split; [done|]. simpl. rewrite wrapu_id by (unfold is_u; lia).
    by split_and!; try lia.
  - rewrite bool_decide_false by done. simpl. eauto 10.
Qed.

(** Members at their offsets, with sizes and alignments: from [off] on, in
    order, aligned, none into the next, all before [end_]. *)
Fixpoint in_order (off : Z) (ms : list (Z * Z * Z)) (end_ : Z) : Prop :=
  match ms with
  | [] => off <= end_
  | (at_, sz, k) :: ms => off <= at_ /\ (2 ^ k | at_) /\ in_order (at_ + sz) ms end_
  end.

Fixpoint budget (dims : list (Z * Z)) : Z :=
  match dims with [] => 0 | (sz, k) :: dims => sz + 2 ^ k + budget dims end.

Definition offsets (ms : list member) (dims : list (Z * Z)) : list (Z * Z * Z) :=
  zip_with (fun d dim => (struct_offset d, dim.1, dim.2)) ms dims.

Lemma budget_nonneg (ds : list member) (dims : list (Z * Z)) :
  Forall2 (fun d dim => fits d dim.1 dim.2) ds dims -> 0 <= budget dims.
Proof.
  induction 1 as [|d [sz k] ds dims H _ IH]; simpl; [done|].
  destruct (fits_bound d sz k H). assert (0 < 2 ^ k) by (apply Z.pow_pos_nonneg; lia). lia.
Qed.

Lemma fold_members_plain (prim : type_primitive) (ds : list member) (dims : list (Z * Z)) (l : layout) :
  Forall2 (fun d dim => fits d dim.1 dim.2) ds dims ->
  0 <= offset l -> offset l + budget dims < 2 ^ 31 ->
  exists ds' l',
    fold_members g sues prim false (map struct_member ds) l = Ok (map struct_member ds', l')
    /\ align_max l' = foldl Z.max (align_max l) (map (fun d => 2 ^ d.2) dims)
    /\ sz_max l' = foldl Z.max (sz_max l) (map fst dims)
    /\ map m_ref ds' = map m_ref ds /\ map m_spel ds' = map m_spel ds
    /\ if decide (prim = type_struct)
       then in_order (offset l) (offsets ds' dims) (offset l')
            /\ offset l <= offset l' <= offset l + budget dims
       else ds' = ds /\ offset l' = offset l.
Proof.
  intros H. revert l. induction H as [|d [sz k] ds dims H Hds IH]; intros l Ho Hb.
  { exists [], l. simpl. split_and!; try done. case_decide; [split; lia|done]. }
  simpl in H, Hb. pose proof (budget_nonneg ds dims Hds) as Hn.
  pose proof (fits_bound d sz k H) as [Hsz Hk].
  assert (0 < 2 ^ k) by (apply Z.pow_pos_nonneg; lia).
  destruct (fold_member_plain prim (bool_decide (map struct_member ds = [])) d sz k l H)
    as (d' & l1 & Hd & Hal & Hszm & Hat); [lia..|].
  assert (Ho1 : 0 <= offset l1 /\ offset l1 + budget dims < 2 ^ 31).
  { case_decide; [destruct Hat as (_ & _ & ? & ->)|destruct Hat as [_ ->]]; lia. }
  destruct (IH l1 (proj1 Ho1) (proj2 Ho1)) as (ds' & l2 & Hds' & Hal2 & Hsz2 & Href & Hspel & Hrest).
  exists (d' :: ds'), l2. cbn [fold_members map]. rewrite Hd. go. rewrite Hds'. go.
  split; [done|]. simpl. rewrite Hal2, Hsz2, Hal, Hszm, Href, Hspel.
  assert (Hkeep : m_ref d' = m_ref d /\ m_spel d' = m_spel d)
    by (case_decide; [destruct Hat as (_ & -> & _)|destruct Hat as [-> _]]; done).
  destruct Hkeep as [-> ->]. split_and!; try done.
  case_decide.
  - destruct Hat as (Hdiv & _ & Hle & Hoff), Hrest as [Hord Hend].
    rewrite Hoff in Hord, Hend. simpl. split_and!; try done; lia.
  - destruct Hat as [-> Hoff], Hrest as [-> Hend]. by rewrite Hend.
Qed.

(** The largest of the alignments is a power of two, and they all divide it. *)
Lemma max_pow2 (ks : list Z) (k0 : Z) :
  0 <= k0 -> Forall (fun k => 0 <= k) ks ->
  exists k, foldl Z.max (2 ^ k0) (map (fun k => 2 ^ k) ks) = 2 ^ k
            /\ k0 <= k /\ Forall (fun k' => k' <= k) ks /\ (k = k0 \/ k ∈ ks).
Proof.
  intros H0 H. revert k0 H0. induction H as [|k1 ks H1 H IH]; intros k0 H0; simpl.
  { exists k0. auto with lia. }
  replace (Z.max (2 ^ k0) (2 ^ k1)) with (2 ^ Z.max k0 k1).
  2: { destruct (Z.max_spec k0 k1) as [[? ->] | [? ->]];
       [rewrite Z.max_r|rewrite Z.max_l]; try done; apply Z.pow_le_mono_r; lia. }
  destruct (IH (Z.max k0 k1)) as (k & Hk & Hle & Hall & Hin); [lia|].
  exists k. split; [done|]. split; [lia|]. split; [constructor; [lia|done]|].
  rewrite elem_of_cons. destruct Hin as [->|?]; [|auto].
  destruct (Z.max_spec k0 k1) as [[? ->] | [? ->]]; auto.
Qed.

Lemma foldl_max_ge (xs : list Z) (x0 : Z) :
  x0 <= foldl Z.max x0 xs /\ Forall (fun x => x <= foldl Z.max x0 xs) xs
  /\ (foldl Z.max x0 xs = x0 \/ foldl Z.max x0 xs ∈ xs).
Proof.
  revert x0. induction xs as [|x xs IH]; intros x0; simpl; [auto with lia|].
  destruct (IH (Z.max x0 x)) as (H0 & Hall & Hin).
  split; [lia|]. split; [constructor; [lia|done]|]. rewrite elem_of_cons.
  destruct Hin as [->|?]; [|auto]. destruct (Z.max_spec x0 x) as [[? ->] | [? ->]]; auto.
Qed.
(** What is aligned already is not moved. *)
Lemma round_aligned (x k : Z) :
  0 <= k < 31 -> 0 <= x < 2 ^ 31 -> (2 ^ k | x) -> round_size_to_align x (2 ^ k) = Ok x.
Proof.
  intros Hk Hx Hd. assert (0 < 2 ^ k) by (apply Z.pow_pos_nonneg; lia).
  assert (2 ^ k <= 2 ^ 30) by (apply Z.pow_le_mono_r; lia).
  destruct (pack_to_align_pow2 x k) as (r & Hr & Hrd & Hle); [lia..|].
  unfold round_size_to_align. rewrite Hr. simpl. f_equal.
  rewrite wrapu_id by (unfold is_u; lia).
  destruct Hd as [a ->], Hrd as [b ->]. f_equal. nia.
Qed.

(** C8: the layout of a struct or union without bitfields is sound: in a struct
    the members lie in order, each at an offset that suits its alignment, none
    reaching into the next and the last ending inside; in a union all stay at
    the start and fit; the alignment of the whole is a power of two that every
    member's alignment divides, the size is a multiple of it, and there is less
    than one alignment of padding at the end. The definition itself has no
    attributes (neither packed nor aligned); its members are complete, of a
    fixed size (no flexible array, nothing variably modified), not packed, and
    kept (an unnamed one is an anonymous struct or union); all together they are
    smaller than 2^30 bytes. *)
Theorem struct_layout (st : sue) (ds : list member) (dims : list (Z * Z)) :
  s_members st = map struct_member ds -> s_attr st = [] ->
  Forall2 (fun d dim => fits d dim.1 dim.2) ds dims -> budget dims < 2 ^ 30 ->
  exists st' ds' k end_,
    fold_struct g sues st = Ok st'
    /\ s_members st' = map struct_member ds' /\ map m_ref ds' = map m_ref ds
    /\ map m_spel ds' = map m_spel ds
    /\ s_align st' = 2 ^ k /\ Forall (fun dim => dim.2 <= k) dims
    /\ (2 ^ k | s_size st') /\ end_ <= s_size st' < end_ + 2 ^ k
    /\ if decide (s_primitive st = type_struct) then in_order 0 (offsets ds' dims) end_
       else ds' = ds /\ Forall (fun dim => dim.1 <= end_) dims.
Proof.
  intros Hms Hattr Hfits Hb.
  destruct (fold_members_plain (s_primitive st) ds dims layout0 Hfits) as
    (ds' & l & Hl & Hal & Hsz & Href & Hspel & Hplace); [done|simpl; lia|].
  pose proof (budget_nonneg ds dims Hfits) as Hn0.
  assert (Hks : Forall (fun k => 0 <= k < 31) (map snd dims)
                /\ Forall (fun s => 0 <= s <= budget dims) (map fst dims)).
  { clear - Hfits. induction Hfits as [|d [sz k] ds dims H Hf IH]; simpl; [by split|].
    pose proof (fits_bound d sz k H). pose proof (budget_nonneg ds dims Hf).
    assert (0 < 2 ^ k) by (apply Z.pow_pos_nonneg; lia). destruct IH as [IH1 IH2].
    split; constructor; try done; try lia. eapply Forall_impl; [exact IH2|]. simpl. intros; lia. }
  destruct Hks as [Hks Hss].
  destruct (max_pow2 (map snd dims) 0) as (k & Hk & Hk0 & Hkall & Hkin); [lia| |].
  { eapply Forall_impl; [exact Hks|]. simpl. intros; lia. }
  rewrite map_map in Hk. change (align_max layout0) with (2 ^ 0) in Hal. rewrite Hk in Hal.
  assert (Hk31 : 0 <= k < 31).
  { split; [lia|]. destruct Hkin as [->|Hin]; [lia|].
    rewrite Forall_forall in Hks. by apply Hks. }
  assert (0 < 2 ^ k) by (apply Z.pow_pos_nonneg; lia).
  assert (2 ^ k <= 2 ^ 30) by (apply Z.pow_le_mono_r; lia).
  destruct (foldl_max_ge (map fst dims) 0) as (Hs0 & Hsall & Hsin).
  assert (Hszb : 0 <= sz_max l <= budget dims).
  { rewrite Hsz. simpl. split; [lia|]. destruct Hsin as [->|Hin]; [lia|].
    rewrite Forall_forall in Hss. by apply Hss. }
  set (end_ := if decide (s_primitive st = type_struct) then offset l else sz_max l).
  assert (Hend : 0 <= end_ <= budget dims).
  { unfold end_. case_decide; [|done]. simpl in Hplace. destruct Hplace as [Hord Hle].
    lia. }
  destruct (pack_to_align_pow2 end_ k) as (size & Hpk & Hdiv & Hle); [lia..|].
  assert (Hround : round_size_to_align size (2 ^ k) = Ok size) by (apply round_aligned; try done; lia).
  eexists _, ds', k, end_. unfold fold_struct. rewrite Hattr. simpl. rewrite Hms, Hl. simpl.
  replace (if decide (s_primitive st = type_struct) then offset l else sz_max l) with end_ by done.
  rewrite Hal, Hpk. simpl. rewrite (wrapu_id 32 size) by (unfold is_u; lia). rewrite Hround. simpl.
  rewrite (wraps_id 32), (wrapu_id 32) by (unfold is_u, is_s; lia). rewrite Hround. simpl.
  split; [done|]. simpl. split_and!; try done; try lia.
  - rewrite List.Forall_map in Hkall. exact Hkall.
  - unfold end_. simpl in Hplace. case_decide; [by destruct Hplace|].
    destruct Hplace as [-> _]. split; [done|]. simpl in Hsz. rewrite Hsz.
    rewrite List.Forall_map in Hsall. exact Hsall.
Qed.

End plain.

(** ** Runs of bitfields *)

Section bitfields.
Context (g : target) (sues : sue_id -> sue).

(** The type the bits are stored as has its size as alignment, a power of two
    no larger than the bytes asked for. *)
Lemma max_for_spec (bytes : Z) (sg : bool) :
  1 <= bytes <= 8 ->
  exists t i, type_nav_MAX_FOR g bytes sg = Ok t /\ type_size g sues t = Ok (2 ^ i)
              /\ type_align g sues t = Ok (2 ^ i) /\ 0 <= i <= 3 /\ 2 ^ i <= bytes.
Proof.
  intros Hb. assert (Hc : In bytes [1; 2; 3; 4; 5; 6; 7; 8]) by (simpl; lia).
  destruct g as [[] s sc ms p9], sg; simpl in Hc;
    repeat destruct Hc as [<-|Hc]; try done;
    first [ eexists _, 0; split_and!; [reflexivity..|lia|lia|lia]
          | eexists _, 1; split_and!; [reflexivity..|lia|lia|lia]
          | eexists _, 2; split_and!; [reflexivity..|lia|lia|lia]
          | eexists _, 3; split_and!; [reflexivity..|lia|lia|lia] ].
Qed.

(** The bitfields of one type [t] of [2^j] bytes. *)
Context (t : type) (j : Z) (sg : bool).
Hypothesis t_size : type_size g sues t = Ok (2 ^ j).
Hypothesis t_align : type_align g sues t = Ok (2 ^ j).
Hypothesis t_signed : type_is_signed g t = Ok sg.
Hypothesis t_complete : type_is_complete sues t = Ok true.
Hypothesis t_vm : type_is_variably_modified t = Ok false.
Hypothesis t_scalar : type_is_s_or_u sues t = None.
Hypothesis t_no_func : kind (type_skip_all t) <> kind_func.
Hypothesis j_range : 0 <= j <= 3.

Record bitfield_of (d : member) (w : Z) : Prop := mk_bitfield_of {
  bf_type : m_ref d = t;
  bf_width : field_width d = Some w;
  bf_unpacked : attribute_present sues d attr_packed = Ok false;
  bf_range : 0 < w <= 8 * 2 ^ j
}.

(** Where the next bit may go: at the start of a unit, or inside the unit that
    starts at [first_off]; [lo] is the end of the bits taken so far. *)
Definition run_inv (l : layout) (lo : Z) : Prop :=
  let b := bitfield l in
  realign_next l = false /\ 0 <= offset l
  /\ ((current_off b = 0 /\ (2 ^ j | offset l) /\ lo <= 8 * offset l)
      \/ (0 < current_off b < 8 * 2 ^ j /\ current_limit b = 8 * 2 ^ j /\ master_ty b = Some t
          /\ 0 <= first_off b /\ (2 ^ j | first_off b)
          /\ first_off b < offset l <= first_off b + 2 ^ j
          /\ lo = 8 * first_off b + current_off b)).

Lemma unit_size : 1 <= 2 ^ j <= 8.
Proof using j_range.
  split; [apply (Z.pow_le_mono_r 2 0)|apply (Z.pow_le_mono_r 2 _ 3)]; clear - j_range; lia.
Qed.

(** The end of the unit that [offset] is in. *)
Lemma finish_unit (b : bitfield_state) (off first : Z) :
  master_ty b = Some t -> (2 ^ j | first) -> 0 <= first -> first < off <= first + 2 ^ j ->
  first + 2 ^ j < 2 ^ 32 ->
  struct_pack_finish_bitfield g sues off b = Ok (first + 2 ^ j).
Proof using t_size j_range.
  intros Hm [a ->] H0 Hoff Hmax. pose proof unit_size. unfold struct_pack_finish_bitfield.
  rewrite Hm, t_size. simpl. replace (2 ^ j =? 0) with false by lia. f_equal.
  destruct (Z.eq_dec off (a * 2 ^ j + 2 ^ j)) as [->|Hne].
  - replace (a * 2 ^ j + 2 ^ j) with ((a + 1) * 2 ^ j) by lia. by rewrite Z.mod_mul by lia.
  - assert (Hmod : off mod 2 ^ j = off - a * 2 ^ j).
    { replace off with ((off - a * 2 ^ j) + a * 2 ^ j) at 1 by lia.
      rewrite Z.mod_add by lia. apply Z.mod_small. lia. }
    rewrite Hmod. replace (off - a * 2 ^ j =? 0) with false by lia. simpl.
    rewrite wrapu_id by (unfold is_u; lia). lia.
Qed.

(** A new unit at an offset that suits it. *)
Lemma start_unit (d : member) (w off0 off : Z) (b : bitfield_state) :
  bitfield_of d w -> (2 ^ j | off) -> 0 <= off -> off + 16 < 2 ^ 31 ->
  (if negb (current_off b =? 0) then struct_pack_finish_bitfield g sues off0 b else Ok off0) = Ok off ->
  exists d' sz off',
    bitfield_start g sues d false off0 w b
    = Ok (d', sz, 2 ^ j, off', mk_bitfield (Some t) 0 off (8 * 2 ^ j))
    /\ struct_offset d' = off /\ field_width d' = Some w
    /\ attribute_present sues d' attr_packed = Ok false
    /\ off < off' <= off + 2 ^ j.
Proof using t_size t_align t_signed t_no_func j_range.
  intros [Ht Hw Hpk Hr] Hdiv H0 Hb Hcur. pose proof unit_size as Hu.
  unfold bitfield_start. simpl. rewrite Hcur, Ht, t_size. go.
  unfold decl_size_align_inc_bitfield, decl_type_for_bitfield. rewrite Ht, decide_False, Hw, t_signed by done.
  go. rewrite (wrapu_id 32 w) by (unfold is_u; lia).
  set (bytes := if negb (w mod 8 =? 0) then w / 8 + 1 else w / 8).
  assert (Hbytes : 1 <= bytes <= 2 ^ j).
  { unfold bytes. pose proof (Z.div_mod w 8 ltac:(lia)). pose proof (Z.mod_pos_bound w 8 ltac:(lia)).
    destruct (Z.eqb_spec (w mod 8) 0); simpl; lia. }
  destruct (max_for_spec bytes sg ltac:(lia)) as (t' & i & -> & Hts & Hta & Hi & Hle).
  go. rewrite Hts. go. rewrite Hta. go.
  assert (0 < 2 ^ i) by lia.
  rewrite (round_aligned (2 ^ i) i) by (try apply Z.divide_refl; lia). go.
  assert (Hij : (2 ^ i | off)).
  { apply Z.divide_trans with (2 ^ j); [|done].
    assert (i <= j) by (apply (Z.pow_le_mono_r_iff 2); lia).
    exists (2 ^ (j - i)). rewrite <- Z.pow_add_r by lia. f_equal. lia. }
  unfold struct_pack, pack_next.
  destruct (pack_to_align_pow2 off i) as (r & Hpr & Hrd & Hrl); [lia..|].
  assert (r = off) as -> by (destruct Hij as [x ->], Hrd as [y ->]; f_equal; nia).
  rewrite Hpr. go. rewrite t_align. go.
  rewrite (wrapu_id 64) by (unfold is_u; lia). simpl.
  rewrite (wrapu_id 32 off), (wrapu_id 32 (8 * 2 ^ j)) by (unfold is_u; lia).
  rewrite Ht. eexists _, _, _. split; [done|]. simpl.
  split_and!; try done; try lia. by rewrite wrapu_id by (unfold is_u; lia).
Qed.

Lemma calc_width (d : member) (w off lo : Z) (b : bitfield_state) (l : layout) :
  bitfield_of d w -> bitfield l = b -> offset l = off -> run_inv l lo -> off + 32 < 2 ^ 31 ->
  exists d' sz al off' b',
    fold_sue_calc_fieldwidth g sues d w false off b = Ok (d', sz, al, false, off', b')
    /\ (al = 2 ^ j \/ (al = 0 /\ current_off b <> 0)) /\ field_width d' = Some w
    /\ attribute_present sues d' attr_packed = Ok false
    /\ lo <= 8 * struct_offset d' + struct_offset_bitfield d'
    /\ (2 ^ j | struct_offset d') /\ 0 <= struct_offset_bitfield d'
    /\ struct_offset_bitfield d' + w <= 8 * 2 ^ j
    /\ off <= off' <= off + 2 * 2 ^ j
    /\ forall am sm sc fl,
         run_inv (mk_layout am sm off' false sc fl b') (8 * struct_offset d' + struct_offset_bitfield d' + w).
Proof using t_size t_align t_signed t_no_func j_range.
  intros Hd Hbl Hol (_ & H0 & Hinv) Hmax. pose proof unit_size as Hu. rewrite Hbl, Hol in *.
  pose proof Hd as [Ht Hw Hpk Hr].
  unfold fold_sue_calc_fieldwidth. rewrite (wrapu_id 32 w) by (unfold is_u; lia).
  replace (w =? 0) with false by lia.
  (* a new unit at [off1], and what the rest of the function makes of it *)
  assert (Hnew : forall off1,
    (if negb (current_off b =? 0) then struct_pack_finish_bitfield g sues off b else Ok off) = Ok off1 ->
    (2 ^ j | off1) -> off <= off1 <= off + 2 ^ j -> lo <= 8 * off1 ->
    exists d' sz al off' b',
      (placed ← (s ← bitfield_start g sues d false off w b;
                 let '(d, sz, align, offset, b) := s in
                 Ok (d, sz, align, false, offset, b) : res (member * Z * Z * bool * Z * bitfield_state));
       let '(d, sz, align, realign_next, offset, b) := placed in
       let d := set_bitfield d (current_off b) (first_bitfield d) (bitfield_master_ty d) in
       let off := u32 (current_off b + w) in
       if off =? current_limit b then
         let b := mk_bitfield (master_ty b) 0 (first_off b) (current_limit b) in
         offset ← struct_pack_finish_bitfield g sues offset b;
         Ok (d, sz, align, realign_next, offset, b)
       else Ok (d, sz, align, realign_next, offset,
                mk_bitfield (master_ty b) off (first_off b) (current_limit b)))
      = Ok (d', sz, al, false, off', b')
      /\ al = 2 ^ j /\ field_width d' = Some w
      /\ attribute_present sues d' attr_packed = Ok false
      /\ struct_offset d' = off1 /\ struct_offset_bitfield d' = 0
      /\ off1 <= off' <= off1 + 2 ^ j
      /\ forall am sm sc fl, run_inv (mk_layout am sm off' false sc fl b') (8 * off1 + w)).
  { intros off1 Hfin Hdiv Hle Hlo.
    destruct (start_unit d w off off1 b) as (d' & sz & off' & -> & Hso & Hfw & Hap & Ho'); try done; [lia..|].
    go. cbn [current_off current_limit master_ty first_off].
    rewrite (wrapu_id 32 (0 + w)) by (unfold is_u; lia). destruct (Z.eqb_spec (0 + w) (8 * 2 ^ j)).
    - rewrite (finish_unit _ off' off1); try done; [|lia..]. go.
      eexists _, _, _, _, _. split; [done|]. split_and!; simpl; try done; try lia.
      intros. split; [done|]. simpl. split; [lia|]. left. split; [done|]. split; [|lia].
      by apply Z.divide_add_r; [|apply Z.divide_refl].
    - eexists _, _, _, _, _. split; [done|]. split_and!; simpl; try done; try lia.
      intros. split; [done|]. simpl. split; [lia|]. right. split_and!; try done; lia. }
  destruct Hinv as [(Hc & Hdiv & Hlo)|(Hc & Hlim & Hm & Hf0 & Hfd & Hfo & Hlo)].
  - rewrite Hc. simpl.
    destruct (Hnew off) as (d' & sz & al & off' & b' & Heq & Ha & Hfw & Hap & Hso & Hbo & Ho' & Hi);
      try done; [by rewrite Hc|lia|].
    eexists d', sz, al, off', b'. rewrite Hso, Hbo. split; [exact Heq|].
    split_and!; try done; try lia. intros. replace (8 * off + 0 + w) with (8 * off + w) by lia. apply Hi.
  - replace (current_off b =? 0) with false by lia. rewrite Hlim. cbn [orb].
    rewrite (wrapu_id 32 (current_off b + w)) by (unfold is_u; lia).
    destruct (Z.ltb_spec (8 * 2 ^ j) (current_off b + w)).
    + assert (Hfin : struct_pack_finish_bitfield g sues off b = Ok (first_off b + 2 ^ j))
        by (apply finish_unit; try done; lia).
      destruct (Hnew (first_off b + 2 ^ j))
        as (d' & sz & al & off' & b' & Heq & Ha & Hfw & Hap & Hso & Hbo & Ho' & Hi); try lia.
      { by replace (current_off b =? 0) with false by lia. }
      { by apply Z.divide_add_r; [|apply Z.divide_refl]. }
      eexists d', sz, al, off', b'. rewrite Hso, Hbo. split; [exact Heq|].
      split_and!; try done; try lia; [by apply Z.divide_add_r; [|apply Z.divide_refl]|].
      intros. replace (8 * (first_off b + 2 ^ j) + 0 + w) with (8 * (first_off b + 2 ^ j) + w) by lia.
      apply Hi.
    + go. cbn [current_off current_limit master_ty first_off].
      rewrite (wrapu_id 32 (current_off b + w)) by (unfold is_u; lia). rewrite Hlim.
      assert (Hplace : u32 (first_off b) = first_off b) by (apply wrapu_id; unfold is_u; lia).
      assert (Hbit : u32 (current_off b) = current_off b) by (apply wrapu_id; unfold is_u; lia).
      destruct (Z.eqb_spec (current_off b + w) (8 * 2 ^ j)).
      * rewrite (finish_unit _ off (first_off b)); try done; [|lia]. go.
        eexists _, _, _, _, _. split; [done|]. simpl. rewrite Hplace, Hbit.
        split_and!; try done; try lia.
        intros. split; [done|]. simpl. split; [lia|]. left. split; [done|]. split; [|lia].
        by apply Z.divide_add_r; [|apply Z.divide_refl].
      * eexists _, _, _, _, _. split; [done|]. simpl. rewrite Hplace, Hbit.
        split_and!; try done; try lia.
        intros. split; [done|]. simpl. split; [lia|]. right. split_and!; try done; lia.
Qed.


(** One turn of the loop on a bitfield. *)
Lemma fold_member_bitfield (last : bool) (d : member) (w lo : Z) (l : layout) :
  bitfield_of d w -> run_inv l lo -> offset l + 32 < 2 ^ 31 ->
  (align_max l = 2 ^ j \/ (align_max l = 1 /\ current_off (bitfield l) = 0)) ->
  exists d' l',
    fold_member g sues type_struct false last d l = Ok (Some d', l')
    /\ align_max l' = 2 ^ j /\ offset l <= offset l' <= offset l + 2 * 2 ^ j
    /\ lo <= 8 * struct_offset d' + struct_offset_bitfield d'
    /\ (2 ^ j | struct_offset d') /\ 0 <= struct_offset_bitfield d'
    /\ struct_offset_bitfield d' + w <= 8 * 2 ^ j
    /\ run_inv l' (8 * struct_offset d' + struct_offset_bitfield d' + w).
Proof using t_size t_align t_signed t_complete t_vm t_scalar t_no_func j_range.
  intros Hd Hinv Hmax Hal. pose proof unit_size. pose proof Hd as [Ht Hw Hpk Hr].
  destruct (calc_width d w (offset l) lo (bitfield l) l Hd eq_refl eq_refl Hinv Hmax)
    as (d' & sz & al & off' & b' & Heq & Ha & Hfw & Hap & Hlo & Hdiv & Hb0 & Hbit & Hoff & Hi).
  assert (Hrl : realign_next l = false) by apply Hinv.
  unfold fold_member. rewrite Ht, t_vm, t_scalar. go.
  unfold fold_sue_check_unnamed. rewrite Hw, t_complete.
  replace (match m_spel d with Some _ => false | None => false end) with false by (by destruct (m_spel d)).
  go. cbn [negb andb]. rewrite Hrl, Heq. go. rewrite Hap. go. rewrite Hfw, andb_false_r. go.
  eexists _, _. split; [done|]. cbn [align_max offset].
  split_and!; try done; try lia.
Qed.

(** The bits of the members from [lo] on, up to [end_]: in order, none shared,
    each member inside one unit at a multiple of the unit's size. *)
Fixpoint bits_in_order (lo : Z) (ds : list member) (ws : list Z) (end_ : Z) : Prop :=
  match ds, ws with
  | d :: ds, w :: ws =>
      let first := 8 * struct_offset d + struct_offset_bitfield d in
      lo <= first /\ (2 ^ j | struct_offset d)
      /\ 0 <= struct_offset_bitfield d /\ struct_offset_bitfield d + w <= 8 * 2 ^ j
      /\ bits_in_order (first + w) ds ws end_
  | _, _ => lo <= end_
  end.

Lemma bits_end (lo : Z) (ds : list member) (ws : list Z) (a b : Z) :
  a <= b -> bits_in_order lo ds ws a -> bits_in_order lo ds ws b.
Proof.
  intros Hab. revert lo ws.
  induction ds as [|d ds IH]; intros lo [|w ws]; simpl; try (by (clear - Hab; lia)).
  intros (? & ? & ? & ? & ?). split_and!; auto.
Qed.

Lemma fold_members_bitfields (ds : list member) (ws : list Z) (l : layout) (lo : Z) :
  Forall2 bitfield_of ds ws -> run_inv l lo -> offset l + 32 * Z.of_nat (length ds) < 2 ^ 31 ->
  (align_max l = 2 ^ j \/ (align_max l = 1 /\ current_off (bitfield l) = 0)) ->
  exists ds' l' end_,
    fold_members g sues type_struct false (map struct_member ds) l = Ok (map struct_member ds', l')
    /\ bits_in_order lo ds' ws end_ /\ length ds' = length ds /\ run_inv l' end_
    /\ offset l' <= offset l + 32 * Z.of_nat (length ds) /\ (align_max l' = 2 ^ j \/ (align_max l' = align_max l /\ l' = l)).
Proof using t_size t_align t_signed t_complete t_vm t_scalar t_no_func j_range.
  intros H. pose proof unit_size as Hu. revert l lo. induction H as [|d w ds ws Hd Hds IH]; intros l lo Hinv Hb Hal.
  { exists [], l, lo. simpl. split_and!; try done; [lia|by right]. }
  cbn [length] in Hb.
  destruct (fold_member_bitfield (bool_decide (map struct_member ds = [])) d w lo l Hd Hinv)
    as (d' & l1 & Hd' & Hal1 & Hoff & Hlo & Hdiv & Hb0 & Hbit & Hinv1); [lia|done|].
  destruct (IH l1 _ Hinv1) as (ds' & l2 & end_ & Hds' & Hbits & Hlen & Hinv2 & Hb2 & Hal2); [lia|by left|].
  exists (d' :: ds'), l2, end_. cbn [fold_members map]. rewrite Hd'. go. rewrite Hds'. go.
  split; [done|]. simpl. split_and!; try done; try lia.
Qed.

Lemma bits_le (lo : Z) (ds : list member) (ws : list Z) (end_ : Z) :
  Forall (fun w => 0 < w) ws -> bits_in_order lo ds ws end_ -> lo <= end_.
Proof.
  intros H. revert lo ds. induction H as [|w ws Hw _ IH]; intros lo [|d ds]; simpl; try done.
  intros (H1 & _ & _ & _ & H2%IH). lia.
Qed.

(** The units of the members do not reach beyond a size that is a multiple of
    the unit and holds the bits. *)
Lemma units_inside (lo : Z) (ds : list member) (ws : list Z) (n : Z) :
  length ds = length ws -> Forall (fun w => 0 < w) ws -> (2 ^ j | n) -> bits_in_order lo ds ws (8 * n) ->
  Forall (fun d => struct_offset d + 2 ^ j <= n) ds.
Proof using j_range.
  intros Hl H [y ->]. pose proof unit_size. revert lo ds Hl.
  induction H as [|w ws Hw Hws IH]; intros lo [|d ds] Hl; simpl; try done.
  intros (_ & [x Hx] & Hb & _ & Hr). injection Hl as Hl. constructor; [|by eapply IH].
  apply bits_le in Hr; [|done]. rewrite Hx in *. assert (x + 1 <= y) by nia. nia.
Qed.

(** C9: a struct, not packed, whose members are all bitfields of one type, none
    of them packed or of width zero, is laid out soundly: their bits lie in
    order and share nothing, each bitfield is inside one storage unit whose
    offset is a multiple of its size, so that it can be accessed with one
    aligned load, and every such unit is inside the struct. *)
Theorem bitfields_packed (st : sue) (ds : list member) (ws : list Z) :
  s_primitive st = type_struct -> s_members st = map struct_member ds -> s_attr st = [] ->
  Forall2 bitfield_of ds ws -> 32 * Z.of_nat (length ds) < 2 ^ 30 ->
  exists st' ds',
    fold_struct g sues st = Ok st' /\ s_members st' = map struct_member ds'
    /\ length ds' = length ds /\ bits_in_order 0 ds' ws (8 * s_size st')
    /\ Forall (fun d => struct_offset d + 2 ^ j <= s_size st') ds'.
Proof using t_size t_align t_signed t_complete t_vm t_scalar t_no_func j_range.
  intros Hp Hms Hattr H Hb. pose proof unit_size as Hu.
  assert (Hinv0 : run_inv layout0 0).
  { split; [done|]. simpl. split; [lia|]. left. split_and!; [done|apply Z.divide_0_r|lia]. }
  destruct (fold_members_bitfields ds ws layout0 0 H Hinv0)
    as (ds' & l & end_ & Hl & Hbits & Hlen & Hinv & Hoff & Hal); [simpl; lia|by right|].
  assert (Hk : exists k, align_max l = 2 ^ k /\ 0 <= k <= 3
                         /\ (k = j \/ (k = 0 /\ offset l = 0 /\ end_ <= 0))).
  { destruct Hal as [Hal|[Hal ->]]; [exists j; auto|exists 0].
    destruct Hinv as (_ & _ & [(_ & _ & Hle)|(Hc & _)]); simpl in *; [|lia].
    split; [done|]. split; [lia|]. right. by split_and!. }
  destruct Hk as (k & Hak & Hk3 & Hkj).
  assert (1 <= 2 ^ k <= 8)
    by (split; [apply (Z.pow_le_mono_r 2 0)|apply (Z.pow_le_mono_r 2 _ 3)]; lia).
  assert (Hoff0 : 0 <= offset l) by apply Hinv.
  change (offset layout0) with 0 in Hoff.
  destruct (pack_to_align_pow2 (offset l) k) as (size & Hpk & Hdiv & Hle); [lia..|].
  assert (Hround : round_size_to_align size (2 ^ k) = Ok size) by (apply round_aligned; try done; lia).
  eexists _, ds'. unfold fold_struct. rewrite Hattr, Hp. simpl.
  rewrite Hms, Hl. go. rewrite Hak, Hpk. go. rewrite (wrapu_id 32 size) by (unfold is_u; lia).
  rewrite Hround. go. rewrite (wraps_id 32), (wrapu_id 32) by (unfold is_u, is_s; lia).
  rewrite Hround. go. split; [done|]. simpl.
  assert (Hin : bits_in_order 0 ds' ws (8 * size)).
  { apply (bits_end _ _ _ end_); [|done].
    destruct Hkj as [->|(_ & Ho0 & He)]; [|lia].
    destruct Hinv as (_ & _ & [(_ & _ & Hlo)|(Hc & _ & _ & _ & [x Hx] & Hfo & Hlo)]); [lia|].
    destruct Hdiv as [y ->]. rewrite Hx in *. assert (x + 1 <= y) by nia. nia. }
  split_and!; try done. eapply units_inside; [by rewrite Hlen; eapply Forall2_length| | |exact Hin].
  - eapply Forall2_Forall_r; [exact H|]. apply Forall_forall. by intros d _ w [_ _ _ [? _]].
  - destruct Hkj as [->|(-> & Ho0 & _)]; [done|]. replace size with 0 by lia. apply Z.divide_0_r.
Qed.

End bitfields.

(** ** Looking a member up *)

(** What [sue_member_find] returns: an enumerator, a member, or, with the Plan 9
    extensions, the typedef that names an anonymous member's type. *)
Inductive found :=
  | found_enumerator (val : enum_val)
  | found_member (d : member)
  | found_tdef (d : decl_id).

Section lookup.
Context (g : target) (sues : sue_id -> sue) (decl_spel : decl_id -> cstr).

(** With [*extra_off]'s increment and [*pin]. The fuel is for the nesting. *)
Fixpoint sue_member_find (fuel : nat) (id : sue_id) (spel : cstr)
    : res (option (found * Z * option sue_id)) :=
  match fuel with
  | O => NoFuel
  | S fuel =>
      let is_enum := bool_decide (s_primitive (sues id) = type_enum) in
      (fix loop (members : list sue_member) : res (option (found * Z * option sue_id)) :=
         match members with
         | [] => Ok None
         | enum_member sp val :: members =>
             if is_enum then
               if streq spel sp then Ok (Some (found_enumerator val, 0, None)) else loop members
             else Ub "an enumerator in a struct"
         | struct_member d :: members =>
             if is_enum then Ub "a member in an enum"
             else
               match m_spel d, type_is_s_or_u sues (m_ref d) with
               | Some sp, _ =>
                   if streq sp spel then Ok (Some (found_member d, 0, None)) else loop members
               | None, Some sub =>
                   if negb (FOPT_TAG_ANON_STRUCT_EXT g || s_anon (sues sub)) then loop members
                   else
                     let named := match type_is_tdef (m_ref d) with
                                  | Some tdef => if plan9_extensions g && streq (decl_spel tdef) spel
                                                 then Some tdef else None
                                  | None => None
                                  end in
                     r ← (match named with
                          | Some tdef => Ok (Some (found_tdef tdef, 0, None))
                          | None => sue_member_find fuel sub spel
                          end : res (option (found * Z * option sue_id)));
                     match r with
                     | Some (dsub, off, _) => Ok (Some (dsub, u32 (off + struct_offset d), Some sub))
                     | None => loop members
                     end
               | None, None => loop members
               end
         end) (s_members (sues id))
  end.

Definition struct_union_member_find := sue_member_find.

(** Every member of the definition is inside it, as [fold_sue] puts them. *)
Definition members_inside (id : sue_id) : Prop :=
  0 <= s_size (sues id) < 2 ^ 32 /\
  forall d, struct_member d ∈ s_members (sues id) ->
    exists sz, wf_sized sues (m_ref d) = true /\ type_size g sues (m_ref d) = Ok sz
               /\ 0 <= sz /\ 0 <= struct_offset d /\ struct_offset d + sz <= s_size (sues id).

Hypothesis all_inside : forall id, members_inside id.
Hypothesis all_complete : forall id, sue_is_complete (sues id) = true.

Lemma s_or_u_size (t : type) (s : sue_id) (sz : Z) :
  wf_sized sues t = true -> type_is_s_or_u sues t = Some s -> type_size g sues t = Ok sz ->
  sz = s_size (sues s).
Proof using all_complete.
  intros Hwf Hs Hsz. rewrite (size_skip g sues t) in Hsz. apply wf_sized_skip in Hwf.
  unfold type_is_s_or_u, type_is_s_or_u_or_e, type_get_type in Hs.
  destruct (type_skip_all t) as [bt| | | | | | | | | |]; try done.
  simpl in Hwf, Hsz, Hs. unfold btype_size in Hsz. unfold wf_btype in Hwf.
  destruct (bt_sue bt) as [s'|]; [|done].
  destruct (decide (s_primitive (sues s') <> type_enum)) as [Hne|]; [|done]. simplify_eq.
  destruct (decide (primitive bt <> type_int)) as [|Hi].
  - unfold sue_size, sue_incomplete_chk in Hsz. rewrite all_complete in Hsz. simpl in Hsz.
    rewrite bool_decide_false in Hsz by done. simpl in Hsz. by simplify_eq.
  - destruct (primitive bt); try done; try (by destruct Hi).
    apply bool_decide_eq_true in Hwf. done.
Qed.


(** Definitions nest: a member's definition comes before the one it is in. *)
Context (rank : sue_id -> nat).
Hypothesis nests : forall id d s,
  struct_member d ∈ s_members (sues id) -> type_is_s_or_u sues (m_ref d) = Some s ->
  (rank s < rank id)%nat.

(** The member [d] named [spel] is in the definition [id], or in an anonymous
    struct or union of it that lookup descends into, at [off] bytes from the
    start: the sum of the offsets on the way and its own. *)
Inductive placed (spel : cstr) (d : member) : sue_id -> Z -> Prop :=
  | placed_here id :
      struct_member d ∈ s_members (sues id) -> m_spel d = Some spel -> placed spel d id (struct_offset d)
  | placed_below id m sub off :
      struct_member m ∈ s_members (sues id) -> m_spel m = None -> type_is_s_or_u sues (m_ref m) = Some sub ->
      FOPT_TAG_ANON_STRUCT_EXT g || s_anon (sues sub) = true ->
      placed spel d sub off -> placed spel d id (struct_offset m + off).

(** Nothing named [spel] is, or is below, this member. *)
Definition misses (spel : cstr) (m : sue_member) : Prop :=
  forall d, m = struct_member d ->
    m_spel d <> Some spel /\
    (m_spel d = None -> forall sub, type_is_s_or_u sues (m_ref d) = Some sub ->
     FOPT_TAG_ANON_STRUCT_EXT g || s_anon (sues sub) = true -> forall d' off, ~ placed spel d' sub off).

Lemma misses_all (spel : cstr) (id : sue_id) (d : member) (off : Z) :
  (forall m, m ∈ s_members (sues id) -> misses spel m) -> ~ placed spel d id off.
Proof using.
  intros H P. inversion P; subst.
  - by destruct (H _ ltac:(eassumption) d eq_refl).
  - destruct (H _ ltac:(eassumption) m eq_refl) as [_ K]. by eapply K.
Qed.

(** A lookup among the members [ms] of [id]. *)
Record looked_up (spel : cstr) (id : sue_id) (ms : list sue_member)
    (r : res (option (found * Z * option sue_id))) : Prop := mk_looked_up {
  lu_ends : fueled r;
  lu_found : forall d off pin, r = Ok (Some (found_member d, off, pin)) ->
    placed spel d id (off + struct_offset d) /\
    exists sz, type_size g sues (m_ref d) = Ok sz /\ 0 <= off /\ 0 <= struct_offset d /\ 0 <= sz
               /\ off + struct_offset d + sz <= s_size (sues id);
  lu_missed : r = Ok None -> forall m, m ∈ ms -> misses spel m
}.

Lemma looked_up_cons (spel : cstr) (id : sue_id) (m : sue_member) (ms : list sue_member) r :
  looked_up spel id ms r -> (r = Ok None -> misses spel m) -> looked_up spel id (m :: ms) r.
Proof using.
  intros [H1 H2 H3] Hm. constructor; [done..|]. intros E x [->|Hx]%elem_of_cons; [by apply Hm|by apply H3].
Qed.

Lemma looked_up_stop (spel : cstr) (id : sue_id) (ms : list sue_member) r :
  fueled r -> (forall d off pin, r <> Ok (Some (found_member d, off, pin))) -> r <> Ok None ->
  looked_up spel id ms r.
Proof using. intros H1 H2 H3. constructor; [done|by intros d off pin ?%H2|done]. Qed.

Lemma sue_member_find_looks (fuel : nat) (id : sue_id) (spel : cstr) :
  (rank id < fuel)%nat -> looked_up spel id (s_members (sues id)) (sue_member_find fuel id spel).
Proof using all_inside all_complete nests.
  revert id. induction fuel as [|fuel IH]; intros id Hr; [lia|].
  destruct (all_inside id) as [Hsize Hin].
  assert (Hsub : forall m, m ∈ s_members (sues id) -> m ∈ s_members (sues id)) by done.
  simpl. revert Hsub. generalize (s_members (sues id)) at 1 3 4 as ms.
  induction ms as [|m ms IHms]; intros Hsub; [constructor; [done..|by intros _ m ?%not_elem_of_nil]|].
  specialize (IHms ltac:(intros; apply Hsub; by right)). pose proof (Hsub m ltac:(left)) as Hm.
  destruct m as [d|sp val].
  2: { case_match; [|by apply looked_up_stop]. case_match; [by apply looked_up_stop|].
       apply looked_up_cons; [exact IHms|by intros _ d]. }
  case_match; [by apply looked_up_stop|]. destruct (Hin d Hm) as (sz & Hwf & Hsz & H0 & Hso & Hle).
  destruct (m_spel d) as [sp|] eqn:Esp.
  { destruct (streq sp spel) eqn:E.
    - apply bool_decide_eq_true in E as ->. constructor; [done| |done]. intros d' off pin [= <- <- <-].
      split; [by apply placed_here|]. exists sz. split_and!; try done; lia.
    - apply bool_decide_eq_false in E. apply looked_up_cons; [exact IHms|].
      intros _ d' [= <-]. rewrite Esp. split; [congruence|done]. }
  destruct (type_is_s_or_u sues (m_ref d)) as [sub|] eqn:Es.
  2: { apply looked_up_cons; [exact IHms|]. intros _ d' [= <-]. rewrite Esp, Es. done. }
  destruct (FOPT_TAG_ANON_STRUCT_EXT g || s_anon (sues sub)) eqn:Ea; cbn [negb].
  2: { apply looked_up_cons; [exact IHms|]. intros _ d' [= <-]. rewrite Esp, Es. split; [done|].
       intros _ sub' [= <-]. by rewrite Ea. }
  destruct (IH sub) as [IHf IHin IHm]; [pose proof (nests id d sub Hm Es); lia|].
  pose proof (s_or_u_size _ _ _ Hwf Es Hsz) as ->.
  destruct (match type_is_tdef (m_ref d) with Some tdef => _ | None => None end) as [tdef|];
    [by apply looked_up_stop|].
  destruct (sue_member_find fuel sub spel) as [[[[dsub off] pin]|]|y|y|y|]; simpl;
    [|apply looked_up_cons; [exact IHms|]|by apply looked_up_stop..|by destruct IHf].
  - constructor; [done| |done]. intros d' off' pin' [= -> <- <-].
    destruct (IHin d' off pin eq_refl) as (Hp & sz' & Hsz' & Hoff & Hso' & Hpos & Hend).
    rewrite wrapu_id by (unfold is_u; lia). split.
    + replace (off + struct_offset d + struct_offset d') with (struct_offset d + (off + struct_offset d')) by lia.
      by eapply placed_below.
    + exists sz'. split_and!; try done; lia.
  - intros _ d' [= <-]. rewrite Esp, Es. split; [done|]. intros _ sub' [= <-] _ d' off.
    apply misses_all. by apply IHm.
Qed.

(** C10: looking a member up ends. A member it finds is the one that is asked
    for, and the offset the code adds up is that of the anonymous structs and
    unions it is below, however many: with the member's own offset it is the
    sum of the offsets on the way from the start of the definition, and the
    member's place and size never reach beyond the end of it. When nothing is
    found, no member of that name is there, nor below any anonymous one that
    lookup descends into. Every definition holds its own members, which C8 and
    C9 show of the layouts they cover, and which bitfields of a union can
    violate ([union_bitfields]); definitions nest. *)
Theorem member_find_inside (fuel : nat) (id : sue_id) (spel : cstr) :
  (rank id < fuel)%nat ->
  fueled (struct_union_member_find fuel id spel)
  /\ (forall d off pin,
       struct_union_member_find fuel id spel = Ok (Some (found_member d, off, pin)) ->
       placed spel d id (off + struct_offset d)
       /\ exists sz, type_size g sues (m_ref d) = Ok sz
                  /\ 0 <= off /\ 0 <= struct_offset d /\ 0 <= sz
                  /\ off + struct_offset d + sz <= s_size (sues id))
  /\ (struct_union_member_find fuel id spel = Ok None -> forall d off, ~ placed spel d id off).
Proof using all_inside all_complete nests.
  intros Hr. destruct (sue_member_find_looks fuel id spel Hr) as [H1 H2 H3].
  split; [exact H1|]. split; [exact H2|]. intros E d off. apply misses_all. by apply H3.
Qed.

End lookup.

(** ** The library at work *)

Definition member_ (name : string) (t : type) (w : option Z) : member :=
  mk_member (Some (str name)) t w 0 [] 0 0 false None.
Definition bits_ (name : string) (w : Z) : sue_member :=
  struct_member (member_ name (ty type_int) (Some w)).
Definition char_ (name : string) : sue_member := struct_member (member_ name (ty type_nchar) None).
Definition sue_ (p : type_primitive) (ms : list sue_member) : sue :=
  mk_sue p [] false SUE_MEMBS_COMPLETE SUE_FOLDED_NO false false 0 0 ms.

(** Byte offset, bit offset and width of the members, and size and alignment. *)
Definition places (r : res (sue_id -> sue)) : option (list (Z * Z * option Z) * Z * Z) :=
  match r with
  | Ok sues =>
      let st := sues 0%nat in
      Some (omap (fun m => match m with
                           | struct_member d => Some (struct_offset d, struct_offset_bitfield d, field_width d)
                           | _ => None
                           end) (s_members st), s_size st, s_align st)
  | _ => None
  end.

Definition lay (st : sue) : option (list (Z * Z * option Z) * Z * Z) :=
  places (fold_sue linux64 false (fun _ => st) 0).

(** [struct { char c; int i; short s[3]; }] *)
Definition sample_members : list member :=
  [member_ "c" (ty type_nchar) None; member_ "i" (ty type_int) None;
   member_ "s" (type_array (ty type_short) (size_const 3) false VLA_NO) None].

Lemma sample_fits :
  Forall2 (fun d dim => fits linux64 no_sues d dim.1 dim.2) sample_members [(1, 0); (4, 2); (6, 1)].
Proof. repeat constructor; simpl; lia. Defined.

Lemma struct_layout_witness :
  exists st' ds' k end_,
    fold_struct linux64 no_sues (sue_ type_struct (map struct_member sample_members)) = Ok st'
    /\ s_align st' = 2 ^ k /\ (2 ^ k | s_size st')
    /\ in_order 0 (offsets ds' [(1, 0); (4, 2); (6, 1)]) end_ /\ end_ <= s_size st'.
Proof.
  destruct (struct_layout linux64 no_sues (sue_ type_struct (map struct_member sample_members))
              sample_members [(1, 0); (4, 2); (6, 1)] eq_refl eq_refl sample_fits)
    as (st' & ds' & k & end_ & H & _ & _ & _ & Ha & _ & Hd & He & Ho); [reflexivity|].
  exists st', ds', k, end_. split; [exact H|]. split; [exact Ha|]. split; [exact Hd|].
  split; [exact Ho|apply He].
Defined.

Lemma bitfields_packed_witness :
  exists st' ds',
    fold_struct linux64 no_sues (sue_ type_struct [bits_ "a" 3; bits_ "b" 20; bits_ "c" 12; bits_ "d" 20])
    = Ok st'
    /\ bits_in_order 2 0 ds' [3; 20; 12; 20] (8 * s_size st')
    /\ Forall (fun d => struct_offset d + 4 <= s_size st') ds'.
Proof.
  destruct (bitfields_packed linux64 no_sues (ty type_int) 2 true eq_refl eq_refl eq_refl eq_refl
              eq_refl eq_refl ltac:(discriminate) ltac:(lia)
              (sue_ type_struct [bits_ "a" 3; bits_ "b" 20; bits_ "c" 12; bits_ "d" 20])
              [member_ "a" (ty type_int) (Some 3); member_ "b" (ty type_int) (Some 20);
               member_ "c" (ty type_int) (Some 12); member_ "d" (ty type_int) (Some 20)]
              [3; 20; 12; 20] eq_refl eq_refl eq_refl) as (st' & ds' & H & _ & _ & Hb).
  - repeat constructor; simpl; lia.
  - simpl. lia.
  - exists st', ds'. split; [exact H|exact Hb].
Defined.

(** [char], bitfields, alignment and padding. *)
Example lay_sample :
  lay (sue_ type_struct (map struct_member sample_members))
  = Some ([(0, 0, None); (4, 0, None); (8, 0, None)], 16, 4).
Proof. reflexivity. Qed.

Example lay_bits :
  lay (sue_ type_struct [bits_ "a" 3; bits_ "b" 20; bits_ "c" 12; bits_ "d" 20])
  = Some ([(0, 0, Some 3); (0, 3, Some 20); (4, 0, Some 12); (4, 12, Some 20)], 8, 4).
Proof. reflexivity. Qed.

(** [struct { int a : 3; int b : 20; char c; }]: the member after the bitfields
    is put after the first one's byte, on top of the second's bits. *)
Example bitfield_overlap :
  lay (sue_ type_struct [bits_ "a" 3; bits_ "b" 20; char_ "c"])
  = Some ([(0, 0, Some 3); (0, 3, Some 20); (1, 0, None)], 4, 4).
Proof. reflexivity. Qed.

(** [struct { int a : 20; char c; }]: for three bytes a two-byte type is taken. *)
Example bitfield_three_bytes :
  lay (sue_ type_struct [bits_ "a" 20; char_ "c"]) = Some ([(0, 0, Some 20); (2, 0, None)], 4, 4).
Proof. reflexivity. Qed.

(** [struct { char x; int a : 3; int b : 29; int c : 5; }]: the unit of [a] and
    [b] starts at byte 1, that of [c] at byte 4. *)
Example bitfield_units_overlap :
  lay (sue_ type_struct [char_ "x"; bits_ "a" 3; bits_ "b" 29; bits_ "c" 5])
  = Some ([(0, 0, None); (1, 0, Some 3); (1, 3, Some 29); (4, 0, Some 5)], 8, 4).
Proof. reflexivity. Qed.

(** [union { int a : 20; int b : 20; }]: the second bitfield is at byte 4 of a
    union of 4 bytes; two narrow ones share no bits either. *)
Example union_bitfields :
  (lay (sue_ type_union [bits_ "a" 20; bits_ "b" 20]), lay (sue_ type_union [bits_ "a" 4; bits_ "b" 4]))
  = (Some ([(0, 0, Some 20); (4, 0, Some 20)], 4, 4),
     Some ([(0, 0, Some 4); (0, 4, Some 4)], 4, 4)).
Proof. reflexivity. Qed.

(** [enum { A = -2, B }] with [-fshort-enums]: -1 counts as the largest value. *)
Example enum_negative :
  match fold_sue linux64 true
          (fun _ => sue_ type_enum [enum_member (str "A") (val_num (2 ^ 64 - 2) 0);
                                    enum_member (str "B") val_missing]) 0 with
  | Ok sues => Some (s_members (sues 0%nat), s_size (sues 0%nat))
  | _ => None
  end
  = Some ([enum_member (str "A") (val_num (2 ^ 64 - 2) 0); enum_member (str "B") (val_num (2 ^ 64 - 1) 0)], 1).
Proof. vm_compute. reflexivity. Qed.

(** [struct { char x; struct { int y; char z; }; }], laid out. *)
Definition inner_ : sue :=
  mk_sue type_struct [] true SUE_MEMBS_COMPLETE SUE_FOLDED_NO false false 0 0
    [struct_member (member_ "y" (ty type_int) None); char_ "z"].
Definition outer_ : sue :=
  sue_ type_struct
    [char_ "x"; struct_member (mk_member None (type_btype (mk_btype type_struct (Some 1%nat))) None 0 [] 0 0 false None)].
Definition nested0 (id : sue_id) : sue :=
  match id with 0%nat => outer_ | 1%nat => inner_ | _ => no_sue end.

(** The table [fold_sue] leaves, as it is evaluated. *)
Definition folded_table (sues : sue_id -> sue) (ids : list sue_id) : sue_id -> sue :=
  foldl (fun sues id => match fold_sue linux64 false sues id with Ok s => s | _ => sues end) sues ids.
Definition nested (id : sue_id) : sue :=
  Eval vm_compute in
    match id with
    | 0%nat => folded_table nested0 [1%nat; 0%nat] 0%nat
    | 1%nat => folded_table nested0 [1%nat; 0%nat] 1%nat
    | _ => no_sue
    end.

Lemma nested_inside (id : sue_id) : members_inside linux64 nested id.
Proof.
  destruct id as [|[|id]]; (split; [vm_compute; split; done|]); intros d Hd; simpl in Hd;
    repeat (apply elem_of_cons in Hd as [[= ->]|Hd];
            [eexists; split; [reflexivity|]; split; [vm_compute; reflexivity|]; vm_compute; split_and!; congruence|]);
    by apply not_elem_of_nil in Hd.
Qed.

Lemma member_find_inside_witness :
  struct_union_member_find linux64 nested (fun _ => []) 2 0 (str "z")
  = Ok (Some (found_member (mk_member (Some (str "z")) (ty type_nchar) None 0 [] 4 0 false None), 4, Some 1%nat))
  /\ placed linux64 nested (str "z") (mk_member (Some (str "z")) (ty type_nchar) None 0 [] 4 0 false None) 0%nat 8
  /\ exists sz, type_size linux64 nested (ty type_nchar) = Ok sz /\ 4 + 4 + sz <= s_size (nested 0).
Proof.
  split; [vm_compute; reflexivity|].
  destruct (member_find_inside linux64 nested (fun _ => []) nested_inside
              ltac:(intros [|[|id]]; reflexivity)
              (fun id => match id with 0%nat => 1%nat | _ => 0%nat end)
              ltac:(intros [|[|id]] d s Hd Hs; simpl in Hd;
                    repeat (apply elem_of_cons in Hd as [[= ->]|Hd];
                            [vm_compute in Hs; simplify_eq; simpl; lia|]);
                    by apply not_elem_of_nil in Hd)
              2 0 (str "z") ltac:(simpl; lia)) as (_ & H & _).
  destruct (H (mk_member (Some (str "z")) (ty type_nchar) None 0 [] 4 0 false None) 4 (Some 1%nat))
    as (Hp & sz & Hsz & _ & _ & _ & Hle); [vm_compute; reflexivity|].
  split; [exact Hp|]. exists sz. split; [exact Hsz|exact Hle].
Defined.
