(* ===== verification/Cast.v ===== *)
(** * Casts of constants

    [src/src/cc1/ops/expr_cast.c], the folding of a cast between integers,
    pointers and labels. *)

From S2P Require Import Prelude Triple Types Consts.
Local Open Scope Z_scope.

Section cast.
Context (g : target) (sues : sue_id -> sue) (cast_w_builtin_types : bool).

(** ** Conversions *)

(** Between two integer types, warnings apart. *)
Definition convert_integral_to_integral (in_ : Z) (tin tout : type) : res Z :=
  sz_out ← type_size g sues tout;
  sz_in ← type_size g sues tin;
  signed_in ← type_is_signed g tin;
  signed_out ← type_is_signed g tout;
  t ← integral_truncate cast_w_builtin_types in_ sz_out;
  let to_iv := t.1 in
  let to_iv_sign_ext := t.2 in
  if negb signed_out && (signed_in : bool) then
    let sz_in_bits := u32 (8 * sz_in) in
    let sz_out_bits := u32 (8 * sz_out) in
    if (sz_in_bits =? 0) || (64 <? sz_in_bits) then Ub "shift" else
    if negb (Z.land to_iv (Z.shiftl 1 (sz_in_bits - 1)) =? 0) && negb (sz_in_bits =? sz_out_bits) then
      if sz_in_bits =? 64 then Ub "shift"
      else
        let ret := Z.lor to_iv (u64 (Z.shiftl (2 ^ 64 - 1) sz_in_bits)) in
        Ok (if 64 <=? sz_out_bits then ret else Z.land ret (Z.shiftr (2 ^ 64 - 1) sz_out_bits))
    else Ok to_iv
  else Ok (u64 to_iv_sign_ext).

(** An integer constant cast to the integer type [to]; the suffix stays. *)
Definition fold_cast_num (i suffix : Z) (from to : type) : res (Z * Z) :=
  if type_is_primitive to type__Bool then Ok (b2z (negb (i =? 0)), suffix)
  else i ← convert_integral_to_integral i from to; Ok (i, suffix).

Definition check_addr_int_cast (k : consty) (l : Z) (owner : nat) : res consty :=
  match k_val k with
  | CONST_STRK _ => Ok (CONST_FOLD_NO k owner)
  | CONST_NEED_ADDR a | CONST_ADDR a =>
      match a with
      | CONST_LBL_TRUE _ | CONST_LBL_WEAK _ => Ok (CONST_FOLD_NO k owner)
      | CONST_LBL_MEMADDR memaddr =>
          if l <? platform_word_size g then
            t ← integral_truncate cast_w_builtin_types memaddr l;
            Ok (if negb (memaddr =? t.1) then CONST_FOLD_NO k owner else k)
          else Ok (CONST_FOLD_NO k owner)
      end
  | _ => Ice "bad switch"
  end.

Definition cast_addr (k : consty) (from to : type) (owner : nat) : res consty :=
  l ← type_size g sues to;
  r ← (if type_decayable from then Ok (platform_word_size g) else type_size g sues from);
  if l <? r then check_addr_int_cast k l owner else Ok k.

(** [fold_const_expr_cast]: [k] is what the operand folds to; neither type is a
    floating type. *)
Definition fold_const_expr_cast (k : consty) (from to : type) (e : nat)
    (implicit lval2rval : bool) : res consty :=
  if type_is_void to then Ok (CONST_FOLD_NO CONST_FOLD_LEAF e)
  else
    let set_nonstandard_const := negb implicit in
    if lval2rval then const_ensure_num_or_memaddr g sues k from to e set_nonstandard_const
    else
      k ← (match k_val k with
           | CONST_NO => Ok k
           | CONST_NUM i suffix =>
               n ← fold_cast_num i suffix from to; Ok (set_val k (CONST_NUM n.1 n.2))
           | _ => cast_addr k from to e
           end);
      match k_val k with
      | CONST_NO => Ok k
      | _ => const_ensure_num_or_memaddr g sues k from to e set_nonstandard_const
      end.

(** ** What a conversion should give *)

(** The [integral_t] a value of a type is kept as: sign extended if the type is
    signed, zero extended if not. *)
Definition stored (signed : bool) (bits v x : Z) : Prop :=
  (if signed then is_s bits v else is_u bits v) /\ x = u64 v.

(** C11 6.3.1.3. *)
Definition c_convert (signed_out : bool) (bits_out v : Z) : Z :=
  if signed_out then wraps bits_out v else wrapu bits_out v.

Lemma size_cases (sz : Z) : sz ∈ [1; 2; 4; 8] -> sz = 1 \/ sz = 2 \/ sz = 4 \/ sz = 8.
Proof. rewrite !elem_of_cons, elem_of_nil. intuition. Qed.

Lemma truncate_size (in_ sz : Z) :
  is_u 64 in_ -> sz ∈ [1; 2; 4; 8] ->
  integral_truncate cast_w_builtin_types in_ sz = Ok (wrapu (8 * sz) in_, wraps (8 * sz) in_).
Proof.
  intros Hi Hs. apply size_cases in Hs. unfold integral_truncate.
  rewrite (wrapu_id 32) by (unfold is_u; lia). rewrite (Z.mul_comm sz).
  apply truncate_any; [done|lia].
Qed.

(** Above its sign bit a number is all sign. *)
Lemma sign_bits (b v i : Z) :
  0 < b -> is_s b v -> b - 1 <= i -> Z.testbit v i = (v <? 0).
Proof.
  intros Hb Hv Hi. unfold is_s in Hv.
  assert (Hpos : forall x, 0 <= x < 2 ^ (b - 1) -> Z.testbit x i = false).
  { intros x Hx. rewrite <- (Z.mod_small x (2 ^ (b - 1))) by lia.
    by rewrite Z.mod_pow2_bits_high by lia. }
  destruct (Z.ltb_spec v 0); [|apply Hpos; lia].
  rewrite <- (Z.lnot_involutive v), Z.lnot_spec by lia.
  rewrite Hpos; [done|]. unfold Z.lnot. lia.
Qed.

Lemma shift_ones (n i : Z) :
  0 <= n -> 0 <= i -> Z.testbit (u64 (Z.shiftl (2 ^ 64 - 1) n)) i = (i <? 64) && (n <=? i).
Proof.
  intros Hn Hi. rewrite wrapu_testbit, Z.shiftl_spec by lia.
  destruct (Z.ltb_spec i 64), (Z.leb_spec n i); simpl; try done.
  - rewrite ones_testbit by lia. lia.
  - by rewrite Z.testbit_neg_r by lia.
Qed.

(** Setting the bits above the sign of a negative number changes nothing. *)
Lemma or_sign (b o v : Z) :
  0 < b < o -> o <= 64 -> is_s b v -> v < 0 ->
  wrapu o (Z.lor (wrapu o v) (u64 (Z.shiftl (2 ^ 64 - 1) b))) = wrapu o v.
Proof.
  intros Hb Ho Hv Hneg. apply Z.bits_inj'. intros i Hi.
  rewrite !wrapu_testbit, Z.lor_spec, wrapu_testbit, shift_ones by lia.
  destruct (Z.ltb_spec i o); [|done]. simpl.
  destruct (Z.leb_spec b i); [|by rewrite andb_false_r, orb_false_r].
  rewrite (sign_bits b v i) by (try done; lia). by replace (v <? 0) with true by lia.
Qed.

Lemma bit_of_wrapped (b o v : Z) :
  0 < b -> 0 < o -> is_s b v -> negb (Z.land (wrapu o v) (Z.shiftl 1 (b - 1)) =? 0) = (b <=? o) && (v <? 0).
Proof.
  intros Hb Ho Hv.
  assert (Hbit : Z.testbit (wrapu o v) (b - 1) = (b <=? o) && (v <? 0)).
  { rewrite wrapu_testbit, (sign_bits b v) by (try done; lia). f_equal. lia. }
  rewrite <- Hbit, Z.shiftl_1_l.
  destruct (Z.testbit (wrapu o v) (b - 1)) eqn:E.
  - apply negb_true_iff, Z.eqb_neq. intros H.
    assert (Z.testbit (Z.land (wrapu o v) (2 ^ (b - 1))) (b - 1) = true)
      by (rewrite Z.land_spec, E, Z.pow2_bits_true by lia; done).
    by rewrite H, Z.bits_0 in *.
  - apply negb_false_iff, Z.eqb_eq. apply Z.bits_inj'. intros i Hi.
    rewrite Z.land_spec, Z.pow2_bits_eqb, Z.bits_0 by lia.
    destruct (Z.eqb_spec (b - 1) i) as [<-|]; [by rewrite E|apply andb_false_r].
Qed.

Lemma wraps_u64 (n v : Z) : 0 < n <= 64 -> wraps n (u64 v) = wraps n v.
Proof.
  intros Hn. rewrite <- (wraps_mod n 64 (u64 v)), <- (wraps_mod n 64 v) by lia. f_equal.
  rewrite <- (s64_u64 (s64 v)) by (apply wraps_range; lia). by rewrite u64_s64.
Qed.

Lemma wrapu_u64 (n v : Z) : 0 <= n <= 64 -> wrapu n (u64 v) = wrapu n v.
Proof.
  intros Hn. apply Z.bits_inj'. intros i Hi. rewrite !wrapu_testbit by lia.
  destruct (Z.ltb_spec i n); [|done]. by replace (i <? 64) with true by lia.
Qed.

(** C21: converting an integer constant to an integer type gives the value C11
    6.3.1.3 asks for, kept the way that type's constants are kept: always into a
    signed type; from a signed into an unsigned type but for negative characters
    into 16 bits; between unsigned types as long as the top bit of the result is
    clear or the result has 64 bits. *)
Theorem convert_spec (tin tout : type) (sin sout : Z) (signed_in signed_out : bool) (v x : Z) :
  type_size g sues tin = Ok sin -> type_size g sues tout = Ok sout ->
  type_is_signed g tin = Ok signed_in -> type_is_signed g tout = Ok signed_out ->
  sin ∈ [1; 2; 4; 8] -> sout ∈ [1; 2; 4; 8] -> stored signed_in (8 * sin) v x ->
  (signed_in = true -> signed_out = false -> sin = 1 -> sout = 2 -> 0 <= v) ->
  (signed_in = false -> signed_out = false -> sout = 8 \/ wrapu (8 * sout) v < 2 ^ (8 * sout - 1)) ->
  convert_integral_to_integral x tin tout = Ok (u64 (c_convert signed_out (8 * sout) v)).
Proof.
  intros Hsi Hso Hgi Hgo Hi Ho [Hv ->] Hc1 Hc2.
  unfold convert_integral_to_integral. rewrite Hso, Hsi, Hgi, Hgo. go.
  rewrite truncate_size by (try done; apply wrapu_range; lia). go.
  apply size_cases in Hi, Ho.
  assert (Hno : 0 < 8 * sout <= 64) by lia.
  rewrite wraps_u64, wrapu_u64 by lia.
  destruct signed_out; simpl; [done|].
  destruct signed_in; simpl.
  - rewrite !(wrapu_id 32) by (unfold is_u; lia).
    replace ((8 * sin =? 0) || (64 <? 8 * sin)) with false by lia.
    rewrite bit_of_wrapped by (try done; lia).
    assert (Hres : u64 (wrapu (8 * sout) v) = wrapu (8 * sout) v).
    { apply wrapu_id. pose proof (wrapu_range (8 * sout) v ltac:(lia)) as Hr. unfold is_u in *.
      assert (2 ^ (8 * sout) <= 2 ^ 64) by (apply Z.pow_le_mono_r; lia). lia. }
    rewrite Hres. destruct (Z.ltb_spec v 0) as [Hneg|]; [|by rewrite andb_false_r].
    rewrite andb_true_r. destruct (Z.eqb_spec (8 * sin) (8 * sout)); [by rewrite andb_false_r|].
    destruct (Z.leb_spec (8 * sin) (8 * sout)); [|done]. simpl.
    replace (8 * sin =? 64) with false by lia.
    pose proof (or_sign (8 * sin) (8 * sout) v ltac:(lia) ltac:(lia) Hv Hneg) as Hor.
    assert (Hcase : sout = 8 \/ sout = 4).
    { destruct Ho as [-> | [-> | [-> | ->]]]; auto; exfalso; [lia|].
      assert (sin = 1) as -> by lia. specialize (Hc1 eq_refl eq_refl eq_refl eq_refl). lia. }
    destruct Hcase as [-> | ->].
    + change (64 <=? 8 * 8) with true. cbv iota. f_equal. rewrite <- Hor at 2. symmetry. apply wrapu_id.
      apply (bitwise_range _ orb); [apply Z.lor_spec|done|lia| |]; apply wrapu_range; lia.
    + change (64 <=? 8 * 4) with false. cbv iota. f_equal.
      change (Z.shiftr (2 ^ 64 - 1) (8 * 4)) with (Z.ones 32).
      rewrite Z.land_ones by lia. exact Hor.
  - f_equal. destruct (Hc2 eq_refl eq_refl) as [->|Hsmall].
    + rewrite u64_s64. unfold wrapu. change (8 * 8) with 64. by rewrite Z.mod_mod by lia.
    + f_equal. unfold wrapu, wraps in *. set (m := 2 ^ (8 * sout)) in *.
      assert (Hm : m = 2 * 2 ^ (8 * sout - 1))
        by (unfold m; rewrite <- (Z.pow_succ_r 2) by lia; f_equal; lia).
      assert (0 < m) by (apply Z.pow_pos_nonneg; lia).
      rewrite <- Z.add_mod_idemp_l by lia. pose proof (Z.mod_pos_bound v m ltac:(lia)).
      rewrite (Z.mod_small (v mod m + _)) by lia. lia.
Qed.
End cast.

(** ** Witnesses and examples *)

Lemma convert_spec_witness :
  convert_integral_to_integral linux64 no_sues true (2 ^ 64 - 1) (ty type_int) (ty type_uint)
    = Ok 4294967295.
Proof.
  refine (convert_spec linux64 no_sues true (ty type_int) (ty type_uint) 4 4 true false (-1) (2 ^ 64 - 1)
    eq_refl eq_refl eq_refl eq_refl _ _ _ _ _).
  - by_decide.
  - by_decide.
  - split; [by_decide|reflexivity].
  - discriminate.
  - discriminate.
Defined.

(** [(unsigned short)(signed char)-1]: [-1ULL >> sz_out_bits] keeps the lower 48
    bits, not 16. *)
Example char_to_ushort :
  convert_integral_to_integral linux64 no_sues true (2 ^ 64 - 1) (ty type_schar) (ty type_ushort)
    = Ok (2 ^ 48 - 1).
Proof. reflexivity. Qed.

(** [(unsigned char)255u] is kept as 2{^64} - 1, and widening it to [unsigned
    long] gives that value in place of 255. *)
Example uint_to_uchar :
  convert_integral_to_integral linux64 no_sues true 255 (ty type_uint) (ty type_uchar) = Ok (2 ^ 64 - 1) /\
  convert_integral_to_integral linux64 no_sues true (2 ^ 64 - 1) (ty type_uchar) (ty type_ulong)
    = Ok (2 ^ 64 - 1).
Proof. split; reflexivity. Qed.

(** A label cast to [int] is not a constant, and one cast to a pointer is. *)
Example label_casts :
  let k := mk_consty (CONST_ADDR (CONST_LBL_TRUE (str "x"))) 0 None None in
  (r ← fold_const_expr_cast linux64 no_sues true k (ptr_ (ty type_int)) (ty type_int) 7 false false; Ok (k_val r))
    = Ok CONST_NO /\
  (r ← fold_const_expr_cast linux64 no_sues true k (ptr_ (ty type_int)) (ptr_ (ty type_nchar)) 7 false false; Ok (k_val r))
    = Ok (CONST_ADDR (CONST_LBL_TRUE (str "x"))).
Proof. split; reflexivity. Qed.
