(* ===== verification/Token.v ===== *)
(** * The compiler's tokens

    [src/src/cc1/tokenise.c]: lines, line markers, white space, comments,
    identifiers, keywords, numbers, characters, strings and punctuators, and the
    token buffer of [tokconv.c]. Warnings that do not count as errors, and the
    text kept to show with them, are left out. *)

From S2P Require Import Prelude CStr Escape Libc StrLit Types Consts CppHas.
Open Scope Z_scope.

(** ** Tokens *)

Inductive token :=
  | token_do | token_if | token_else | token_while | token_for | token_break | token_continue
  | token_return | token_switch | token_case | token_default | token_goto | token__Generic
  | token_sizeof | token_typeof | token___auto_type | token__Static_assert | token_asm
  | token_attribute | token___extension__ | token___label__ | token_identifier | token_integer
  | token_floater | token_character | token_elipsis | token_string | token_void | token_char
  | token_short | token_int | token_long | token_float | token_double | token__Bool
  | token___builtin_va_list | token_inline | token__Noreturn | token_const | token_volatile
  | token_restrict | token_signed | token_unsigned | token_auto | token_static | token_extern
  | token_register | token__Alignof | token___alignof | token__Alignas | token_typedef
  | token_struct | token_union | token_enum | token_open_paren | token_open_block
  | token_open_square | token_close_paren | token_close_block | token_close_square | token_comma
  | token_semicolon | token_colon | token_question | token_plus | token_plus_assign | token_minus
  | token_minus_assign | token_multiply | token_multiply_assign | token_divide
  | token_divide_assign | token_modulus | token_modulus_assign | token_not | token_not_assign
  | token_bnot | token_bnot_assign | token_and | token_and_assign | token_or | token_or_assign
  | token_xor | token_xor_assign | token_shiftl | token_shiftl_assign | token_shiftr
  | token_shiftr_assign | token_increment | token_decrement | token_assign | token_dot | token_ptr
  | token_eq | token_le | token_lt | token_ge | token_gt | token_ne | token_andsc | token_orsc
  | token_eof | token_unknown.

#[global] Instance token_eq_dec : EqDecision token.
Proof. solve_decision. Defined.

(** [enum keyword_mode] *)
Definition KW_ALL : Z := 1.
Definition KW_C99 : Z := 2.
Definition KW_EXT : Z := 4.

Definition KEYWORD (mode : Z) (x : string) (t : token) : list (string * token * Z) := [(x, t, mode)].
Definition KEYWORD__ (x : string) (t : token) : list (string * token * Z) :=
  [(("__" ++ x)%string, t, KW_ALL); (("__" ++ x ++ "__")%string, t, KW_ALL)].
Definition KEYWORD__ALL (mode : Z) (x : string) (t : token) : list (string * token * Z) :=
  KEYWORD mode x t ++ KEYWORD__ x t.

Definition keywords : list (string * token * Z) := concat [
  KEYWORD KW_ALL "if" token_if; KEYWORD KW_ALL "else" token_else;
  KEYWORD KW_ALL "switch" token_switch; KEYWORD KW_ALL "case" token_case;
  KEYWORD KW_ALL "default" token_default; KEYWORD KW_ALL "break" token_break;
  KEYWORD KW_ALL "return" token_return; KEYWORD KW_ALL "continue" token_continue;
  KEYWORD KW_ALL "goto" token_goto; KEYWORD KW_ALL "do" token_do;
  KEYWORD KW_ALL "while" token_while; KEYWORD KW_ALL "for" token_for;
  KEYWORD KW_ALL "void" token_void; KEYWORD KW_ALL "char" token_char;
  KEYWORD KW_ALL "int" token_int; KEYWORD KW_ALL "short" token_short;
  KEYWORD KW_ALL "long" token_long; KEYWORD KW_ALL "float" token_float;
  KEYWORD KW_ALL "double" token_double; KEYWORD KW_ALL "auto" token_auto;
  KEYWORD KW_ALL "static" token_static; KEYWORD KW_ALL "extern" token_extern;
  KEYWORD KW_ALL "register" token_register; KEYWORD__ALL KW_EXT "asm" token_asm;
  KEYWORD__ALL (Z.lor KW_EXT KW_C99) "inline" token_inline;
  KEYWORD__ALL KW_ALL "const" token_const; KEYWORD__ALL KW_ALL "volatile" token_volatile;
  KEYWORD__ALL KW_C99 "restrict" token_restrict; KEYWORD__ALL KW_ALL "signed" token_signed;
  KEYWORD__ALL KW_ALL "unsigned" token_unsigned; KEYWORD KW_ALL "typedef" token_typedef;
  KEYWORD KW_ALL "struct" token_struct; KEYWORD KW_ALL "union" token_union;
  KEYWORD KW_ALL "enum" token_enum; KEYWORD KW_ALL "_Bool" token__Bool;
  KEYWORD KW_ALL "_Noreturn" token__Noreturn; KEYWORD KW_ALL "_Alignof" token__Alignof;
  KEYWORD__ "alignof" token___alignof; KEYWORD KW_ALL "_Alignas" token__Alignas;
  KEYWORD__ "alignas" token__Alignas; KEYWORD KW_ALL "sizeof" token_sizeof;
  KEYWORD__ALL KW_EXT "typeof" token_typeof; KEYWORD KW_ALL "_Generic" token__Generic;
  KEYWORD KW_ALL "_Static_assert" token__Static_assert;
  KEYWORD KW_ALL "__builtin_va_list" token___builtin_va_list;
  KEYWORD KW_ALL "__auto_type" token___auto_type;
  KEYWORD KW_ALL "__extension__" token___extension__; KEYWORD__ "attribute" token_attribute;
  KEYWORD KW_ALL "__label__" token___label__ ].

(** The first keyword enabled by [keyword_mode] spelled [s]. *)
Fixpoint keyword_find (k : list (string * token * Z)) (keyword_mode : Z) (s : cstr) : option token :=
  match k with
  | [] => None
  | (x, t, mode) :: k =>
      if negb (Z.land mode keyword_mode =? 0) && streq (str x) s then Some t
      else keyword_find k keyword_mode s
  end.

(** ** Numbers *)

(** The host's floating arithmetic, which rounds as it does: [strtold] with the
    text it leaves, the conversion of an integer, multiplication by a power of
    ten, and the conversions to [float] and [double]. *)
Class Floats := mk_floats {
  floating_t : Type;
  ucc_strtold : cstr -> floating_t * cstr;
  of_integral : Z -> floating_t;
  times_pow10 : floating_t -> Z -> floating_t;
  as_float : floating_t -> floating_t;
  as_double : floating_t -> floating_t
}.

(** The suffixes beyond [VAL_UNSIGNED], [VAL_LONG] and [VAL_LLONG]. *)
Definition VAL_OCTAL : Z := 8.
Definition VAL_HEX : Z := 16.
Definition VAL_BIN : Z := 32.
Definition VAL_FLOAT : Z := 64.
Definition VAL_DOUBLE : Z := 128.
Definition VAL_LDOUBLE : Z := 256.
Definition VAL_FLOATING : Z := Z.lor VAL_FLOAT (Z.lor VAL_DOUBLE VAL_LDOUBLE).
Definition VAL_NON_DECIMAL : Z := Z.lor VAL_OCTAL (Z.lor VAL_HEX VAL_BIN).

(** What [read_integer] starts the suffix with. *)
Definition mode_bits (mode : base) : Z :=
  match mode with BIN => VAL_BIN | HEX => VAL_HEX | OCT => VAL_OCTAL | DEC => 0 end.

Definition has (suffix mask : Z) : bool := negb (Z.land suffix mask =? 0).

Section lexer.
Context `{Floats}.

(** The member of the union last written. *)
Inductive num_val := VI (i : Z) | VF (f : floating_t).

Record numeric : Type := mk_numeric { val : num_val; suffix : Z }.

(** ** State *)

Record loc : Type := mk_loc { line : Z; col : Z }.

Record fnam_stack : Type := mk_fnam { fnam : cstr; lno : Z; fs_sysh : bool }.

(** [current_fname_stack], outermost file first. *)
Record files : Type := mk_files {
  stack : list fnam_stack;
  current_fname : option cstr;
  in_sysh : bool;
  cc1_first_fname : option cstr
}.

(** What reading characters changes. [input] is what [in_func] has still to
    give; [bufferpos] is the rest of the line, [None] for NULL; [ungetch] is
    [EOF] when empty. *)
Record reader : Type := mk_reader {
  input : list cstr;
  buffereof : bool;
  bufferpos : option cstr;
  ungetch : ascii;
  in_comment : bool;
  loc_now : loc;
  loc_tok : loc;
  fs : files;
  ucc_namespace : option cstr;
  parse_had_error : bool
}.

(** Where a token was. *)
Record where_ : Type := mk_where { w_fname : option cstr; w_loc : loc; w_sysh : bool }.

Record lexer : Type := mk_lexer {
  rd : reader;
  curtok : token;
  curtok_save : token;
  parse_finished : bool;
  currentspelling : option cstr;
  currentval : numeric;
  currentstring : option cstring;
  currentstringwhere : option where_;
  cc1_error_limit : Z
}.

Definition set_rd (s : lexer) (r : reader) : lexer :=
  mk_lexer r (curtok s) (curtok_save s) (parse_finished s) (currentspelling s) (currentval s)
    (currentstring s) (currentstringwhere s) (cc1_error_limit s).
Definition set_tok (s : lexer) (t : token) : lexer :=
  mk_lexer (rd s) t (curtok_save s) (parse_finished s) (currentspelling s) (currentval s)
    (currentstring s) (currentstringwhere s) (cc1_error_limit s).
Definition set_save (s : lexer) (t : token) : lexer :=
  mk_lexer (rd s) (curtok s) t (parse_finished s) (currentspelling s) (currentval s)
    (currentstring s) (currentstringwhere s) (cc1_error_limit s).
Definition set_finished (s : lexer) : lexer :=
  mk_lexer (rd s) (curtok s) (curtok_save s) true (currentspelling s) (currentval s)
    (currentstring s) (currentstringwhere s) (cc1_error_limit s).
Definition set_spelling (s : lexer) (sp : option cstr) : lexer :=
  mk_lexer (rd s) (curtok s) (curtok_save s) (parse_finished s) sp (currentval s)
    (currentstring s) (currentstringwhere s) (cc1_error_limit s).
Definition set_numeric (s : lexer) (v : numeric) : lexer :=
  mk_lexer (rd s) (curtok s) (curtok_save s) (parse_finished s) (currentspelling s) v
    (currentstring s) (currentstringwhere s) (cc1_error_limit s).
Definition set_string (s : lexer) (c : option cstring) (w : option where_) : lexer :=
  mk_lexer (rd s) (curtok s) (curtok_save s) (parse_finished s) (currentspelling s) (currentval s)
    c w (cc1_error_limit s).
Definition set_limit (s : lexer) (n : Z) : lexer :=
  mk_lexer (rd s) (curtok s) (curtok_save s) (parse_finished s) (currentspelling s) (currentval s)
    (currentstring s) (currentstringwhere s) n.

(** A [char] read as an [int] is [EOF] if it is the character 255. *)
Definition EOF : ascii := "255".

Definition set_input (r : reader) (i : list cstr) (e : bool) : reader :=
  mk_reader i e (bufferpos r) (ungetch r) (in_comment r) (loc_now r) (loc_tok r) (fs r)
    (ucc_namespace r) (parse_had_error r).
Definition set_pos (r : reader) (p : option cstr) : reader :=
  mk_reader (input r) (buffereof r) p (ungetch r) (in_comment r) (loc_now r) (loc_tok r) (fs r)
    (ucc_namespace r) (parse_had_error r).
Definition set_ungetch (r : reader) (c : ascii) : reader :=
  mk_reader (input r) (buffereof r) (bufferpos r) c (in_comment r) (loc_now r) (loc_tok r) (fs r)
    (ucc_namespace r) (parse_had_error r).
Definition set_comment (r : reader) (b : bool) : reader :=
  mk_reader (input r) (buffereof r) (bufferpos r) (ungetch r) b (loc_now r) (loc_tok r) (fs r)
    (ucc_namespace r) (parse_had_error r).
Definition set_now (r : reader) (l : loc) : reader :=
  mk_reader (input r) (buffereof r) (bufferpos r) (ungetch r) (in_comment r) l (loc_tok r) (fs r)
    (ucc_namespace r) (parse_had_error r).
Definition set_tok_loc (r : reader) (l : loc) : reader :=
  mk_reader (input r) (buffereof r) (bufferpos r) (ungetch r) (in_comment r) (loc_now r) l (fs r)
    (ucc_namespace r) (parse_had_error r).
Definition set_files (r : reader) (f : files) : reader :=
  mk_reader (input r) (buffereof r) (bufferpos r) (ungetch r) (in_comment r) (loc_now r) (loc_tok r) f
    (ucc_namespace r) (parse_had_error r).
Definition set_namespace (r : reader) (n : cstr) : reader :=
  mk_reader (input r) (buffereof r) (bufferpos r) (ungetch r) (in_comment r) (loc_now r) (loc_tok r)
    (fs r) (Some n) (parse_had_error r).
Definition had_error (r : reader) : reader :=
  mk_reader (input r) (buffereof r) (bufferpos r) (ungetch r) (in_comment r) (loc_now r) (loc_tok r)
    (fs r) (ucc_namespace r) true.

Definition advance (r : reader) (n : Z) : reader :=
  set_now r (mk_loc (line (loc_now r)) (u32 (col (loc_now r) + n))).

Definition where_cc1_current (r : reader) : where_ :=
  mk_where (current_fname (fs r)) (loc_tok r) (in_sysh (fs r)).

(** ** Files *)

Definition set_current_fname (f : files) (fn : cstr) : files :=
  mk_files (stack f) (Some fn) (in_sysh f) (cc1_first_fname f).

(** On the top of a stack that is not empty. *)
Definition update_stack (f : files) (no : Z) (sysh : bool) : files :=
  mk_files
    (match last (stack f) with
     | Some p => take (length (stack f) - 1) (stack f) ++ [mk_fnam (fnam p) no sysh]
     | None => [] end)
    (current_fname f) sysh (cc1_first_fname f).

Definition FNAME_STACK_N : nat := 32.

Definition push_fname (f : files) (fn : cstr) (no : Z) (sysh : bool) : files :=
  let f := mk_files (stack f) (Some fn) sysh (cc1_first_fname f) in
  if (length (stack f) <? FNAME_STACK_N)%nat then
    update_stack (mk_files (stack f ++ [mk_fnam fn 0 false]) (current_fname f) (in_sysh f) (cc1_first_fname f))
      no sysh
  else f.

Definition pop_fname (f : files) : files :=
  if (0 <? length (stack f))%nat then
    let rest := take (length (stack f) - 1) (stack f) in
    match last rest with
    | Some top => mk_files rest (Some (fnam top)) (fs_sysh top) (cc1_first_fname f)
    | None => mk_files rest (current_fname f) (in_sysh f) (cc1_first_fname f)
    end
  else f.

Fixpoint pop_n (n : nat) (f : files) : files :=
  match n with O => f | S n => pop_n n (pop_fname f) end.

(** The flags of a line marker, a bit each. *)
Definition SOF : Z := 1.
Definition RTF : Z := 2.
Definition SYSH : Z := 4.

Fixpoint marker_flags (fuel : nat) (haystack state : option cstr) (iflag : Z) : res Z :=
  match fuel with
  | O => NoFuel
  | S fuel =>
      match str_split haystack " "%char state with
      | (None, _) => Ok iflag
      | (Some tok, state) =>
          let bit := if streq tok (str "1") then SOF else if streq tok (str "2") then RTF
                     else if streq tok (str "3") then SYSH else 0 in
          marker_flags fuel None state (Z.lor iflag bit)
      end
  end.

(** The index of the innermost entry of file [fn], searching below [i]. *)
Fixpoint find_file (st : list fnam_stack) (fn : cstr) (i : nat) : option nat :=
  match i with
  | O => None
  | S j => match st !! j with
           | Some p => if streq fn (fnam p) then Some j else find_file st fn j
           | None => None
           end
  end.

Definition handle_line_file_directive (f : files) (fn : cstr) (no : Z) (flags : cstr) : res files :=
  iflag ← marker_flags (S (S (length flags))) (Some flags) None 0;
  let cnt := length (stack f) in
  let top := last (stack f) in
  let f := mk_files (stack f) (current_fname f) (in_sysh f)
             (match cc1_first_fname f with Some n => Some n | None => Some fn end) in
  let '(f, top) :=
    if has iflag SOF || (negb (has iflag RTF) &&
         match top with Some t => negb (streq (fnam t) fn) | None => true end)
    then (push_fname f fn no (has iflag SYSH), top)
    else if has iflag RTF then
      match find_file (stack f) fn cnt with
      | Some i =>
          let n := (cnt - i - 1)%nat in
          let f := pop_n n f in
          (f, if (length (stack f) =? 0)%nat || (length (stack f) <=? cnt - 1)%nat then None else top)
      | None => (f, if (cnt =? 0)%nat then None else top)
      end
    else (f, top) in
  Ok (if negb (has iflag SOF) then
        match top, head (stack f) with
        | Some t, Some first =>
            if (iflag =? 0) && negb (cnt =? 1)%nat && (lno first =? no) && streq (fnam first) fn
            then pop_n (length (stack f) - 1) f
            else if streq (fnam t) fn then update_stack f no (has iflag SYSH)
            else f
        | _, _ => f
        end
      else f).

(** ** Pragmas and line markers *)

Definition pragma_handle (r : reader) (pragma : cstr) : reader :=
  if has_prefix pragma (str "STDC") then r
  else if has_prefix pragma (str "ucc") then
    let p := str_spc_skip (drop 3 pragma) in
    if has_prefix p (str "namespace ") then set_namespace r (drop 10 p) else r
  else r.

(** [l] starts with [#]. *)
Definition parse_line_directive (r : reader) (l : cstr) : res reader :=
  let l := str_spc_skip (drop 1 l) in
  if has_prefix l (str "pragma") then Ok (pragma_handle r (str_spc_skip (drop 6 l)))
  else
    let l := if has_prefix l (str "line") then drop 4 l else l in
    let '(no, ep) := strtol_int true l in
    if (length ep =? length l)%nat then Ok r
    else if no <? 0 then Ok r
    else
      let r := set_now r (mk_loc (u32 (no - 1)) (col (loc_now r))) in
      match str_spc_skip ep with
      | [] => Ok r
      | c :: ep =>
          if c =c dquote then
            p ← str_quotefin ep;
            match p with
            | None => Ok r
            | Some p =>
                f ← handle_line_file_directive (fs r) (take (length ep - length p) ep) no
                      (str_spc_skip (drop 1 p));
                Ok (set_files r f)
            end
          else Ok r
      end.

(** ** Characters *)

(** [next_line] of [cc1.c], which [in_func] is. *)
Definition next_line (l : cstr) : cstr := map (fun c => if c =c "013"%char then " "%char else c) l.

Fixpoint read_line_loop (ls : list cstr) (r : reader) : res (reader * option cstr) :=
  match ls with
  | [] => Ok (set_input r [] true, None)
  | l :: ls =>
      let l := next_line l in
      if negb (in_comment r) && (cur l =c "#"%char) then
        r ← parse_line_directive r l; read_line_loop ls r
      else
        let now := mk_loc (u32 (line (loc_now r) + 1)) 0 in
        let r := set_tok_loc (set_now (set_input r ls false) now) now in
        let f := fs r in
        let f := match last (stack f) with
                 | Some p => mk_files (take (length (stack f) - 1) (stack f)
                                        ++ [mk_fnam (fnam p) (s32 (line now)) (fs_sysh p)])
                               (current_fname f) (in_sysh f) (cc1_first_fname f)
                 | None => f end in
        Ok (set_files r f, Some l)
  end.

Definition tokenise_read_line (r : reader) : res (reader * option cstr) :=
  if buffereof r then Ok (r, None) else read_line_loop (input r) r.

Definition tokenise_next_line (r : reader) : res reader :=
  '(r, new) ← tokenise_read_line r;
  Ok (set_pos r new).

Fixpoint raw_loop (fuel : nat) (r : reader) : res (reader * ascii) :=
  match fuel with
  | O => NoFuel
  | S fuel =>
      match bufferpos r with
      | Some (c :: p) => Ok (advance (set_pos r (Some p)) 1, c)
      | _ =>
          r ← tokenise_next_line r;
          if buffereof r then Ok (r, EOF) else raw_loop fuel r
      end
  end.

Definition rawnextchar (r : reader) : res (reader * ascii) :=
  if buffereof r then Ok (r, EOF) else raw_loop (S (S (length (input r)))) r.

(** The characters still to come. *)
Definition pending (r : reader) : nat :=
  (length (default [] (bufferpos r)) + list_sum (map (fun l => S (length l)) (input r)))%nat.

Fixpoint next_loop (fuel : nat) (r : reader) : res (reader * ascii) :=
  match fuel with
  | O => NoFuel
  | S fuel =>
      '(r, c) ← rawnextchar r;
      if isspace c then next_loop fuel r else Ok (r, c)
  end.

Definition nextchar (r : reader) : res (reader * ascii) := next_loop (S (pending r)) r.

Definition peeknextchar (r : reader) : res (reader * ascii) :=
  r ← (match bufferpos r with None => tokenise_next_line r | Some _ => Ok r end);
  if buffereof r then Ok (r, EOF)
  else match bufferpos r with
       | Some p => Ok (r, cur p)
       | None => Ub "NULL buffer"
       end.

Definition pos_of (r : reader) : res cstr :=
  match bufferpos r with Some p => Ok p | None => Ub "NULL buffer" end.

(** To the suffix [new] of the line, or to the character before [bufferpos]. *)
Definition update_bufferpos (r : reader) (new : cstr) : reader :=
  set_pos (advance r (Z.of_nat (length (default [] (bufferpos r))) - Z.of_nat (length new))) (Some new).

(** ** Numbers *)

Definition skip_to_end_of_num (r : reader) : res reader :=
  p ← pos_of r;
  Ok (update_bufferpos r (skip_while (fun c => isalnum c || (c =c "."%char)) p)).

(** The new [currentval]. *)
Definition read_integer (mode : base) (r : reader) (v : numeric) : res (reader * numeric) :=
  p ← pos_of r;
  let suf := mode_bits mode in
  '(i, end_, over) ← char_seq_to_ullong p false mode;
  let v := if (over : bool) then mk_numeric (VI NUMERIC_T_MAX) (Z.lor VAL_LLONG VAL_UNSIGNED)
           else mk_numeric (VI i) suf in
  if (length end_ =? length p)%nat then Ok (had_error r, v)
  else Ok (update_bufferpos r end_, v).

Definition get_i (v : numeric) : res Z :=
  match val v with VI i => Ok i | VF _ => Ub "the other member" end.
Definition get_f (v : numeric) : res floating_t :=
  match val v with VF f => Ok f | VI _ => Ub "the other member" end.

Definition read_suffix_float_exp (r : reader) (v : numeric) : res (reader * numeric) :=
  '(r, just_read) ← nextchar r;
  if negb (tolower just_read =c "e"%char) then Ice "tolower(just_read) == 'e'"
  else
    v ← (if negb (has (suffix v) VAL_FLOATING) then
           i ← get_i v; Ok (mk_numeric (VF (of_integral i)) VAL_DOUBLE)
         else Ok v);
    let mantissa := v in
    '(r, c) ← peeknextchar r;
    '(r, powmul) ← (if c =c "+"%char then '(r, _) ← nextchar r; Ok (r, 1)
                    else if c =c "-"%char then '(r, _) ← nextchar r; Ok (r, -1)
                    else Ok (r, 1));
    '(r, c) ← peeknextchar r;
    if negb (isdigit c) then r ← skip_to_end_of_num (had_error r); Ok (r, v)
    else
      '(r, v) ← read_integer DEC r v;
      i ← get_i v;
      f ← get_f mantissa;
      let e := powmul * s64 i in
      if bool_decide (is_s 64 e) then Ok (r, mk_numeric (VF (times_pow10 f e)) (suffix mantissa))
      else Ub "signed overflow".

Definition read_suffix_float (r : reader) (v : numeric) : res (reader * numeric) :=
  '(r, c) ← peeknextchar r;
  '(r, v) ← (if tolower c =c "e"%char then read_suffix_float_exp r v else Ok (r, v));
  '(r, c) ← peeknextchar r;
  '(r, suf) ← (if tolower c =c "f"%char then '(r, _) ← nextchar r; Ok (r, VAL_FLOAT)
               else if tolower c =c "l"%char then '(r, _) ← nextchar r; Ok (r, VAL_LDOUBLE)
               else Ok (r, VAL_DOUBLE));
  Ok (r, mk_numeric (val v) (Z.land suf VAL_FLOATING)).

(** The suffixes read; every round eats a character. *)
Fixpoint suffix_loop (fuel : nat) (r : reader) (suff : Z) : res (reader * Z) :=
  match fuel with
  | O => NoFuel
  | S fuel =>
      '(r, c) ← peeknextchar r;
      if (c =c "U"%char) || (c =c "u"%char) then
        if has suff VAL_UNSIGNED then Die "duplicate U suffix"
        else '(r, _) ← nextchar r; suffix_loop fuel r (Z.lor suff VAL_UNSIGNED)
      else if (c =c "L"%char) || (c =c "l"%char) then
        if has suff (Z.lor VAL_LLONG VAL_LONG) then Die "already have a L/LL suffix"
        else
          '(r, _) ← nextchar r;
          '(r, d) ← peeknextchar r;
          if d =c c then '(r, _) ← nextchar r; suffix_loop fuel r (Z.lor suff VAL_LLONG)
          else suffix_loop fuel r (Z.lor suff VAL_LONG)
      else Ok (r, suff)
  end.

Definition read_suffix_int (r : reader) (v : numeric) : res (reader * numeric) :=
  '(r, suff) ← suffix_loop (S (pending r)) r 0;
  Ok (r, mk_numeric (val v) (Z.lor (suffix v) suff)).

Definition read_suffix (r : reader) (v : numeric) : res (reader * numeric) :=
  '(r, c) ← peeknextchar r;
  let fp := has (suffix v) VAL_FLOATING
            || (negb (has (suffix v) (Z.lor VAL_HEX VAL_BIN)) && (tolower c =c "e"%char)) in
  '(r, v) ← (if fp then read_suffix_float r v else read_suffix_int r v);
  '(r, c) ← peeknextchar r;
  if isalpha c || (c =c "."%char) then r ← skip_to_end_of_num (had_error r); Ok (r, v)
  else Ok (r, v).

(** The base, and whether the number is a lone zero; [p0] follows [first]. *)
Definition number_prefix (first : ascii) (p0 : cstr) (r : reader) : res (reader * base * bool) :=
  if first =c "0"%char then
    let next := cur p0 in
    if tolower next =c "x"%char then Ok (update_bufferpos r (drop 1 p0), HEX, false)
    else if tolower next =c "b"%char then Ok (update_bufferpos r (drop 1 p0), BIN, false)
    else if isoct next then Ok (r, OCT, false)
    else if isdigit next then Die "invalid oct character"
    else Ok (update_bufferpos r (first :: p0), OCT, true)
  else Ok (update_bufferpos r (first :: p0), DEC, false).

Definition number_value (num_start : cstr) (mode : base) (just_zero : bool) (r : reader) (v : numeric)
  : res (reader * numeric) :=
  pos ← pos_of r;
  let p := skip_while (if bool_decide (mode = HEX) then isxdigit else isdigit) pos in
  if (cur p =c "."%char) || (bool_decide (mode = HEX) && (cur p =c "p"%char)) then
    let '(f, new) := ucc_strtold num_start in
    let v := mk_numeric (VF f) VAL_FLOATING in
    let r := update_bufferpos r new in
    match mode with
    | DEC => Ok (r, v)
    | HEX =>
        if negb (has_prefix num_start (str "0x")) then Ice "0x"
        else
          let p := skip_while (fun c => isxdigit c || (c =c "."%char)) (drop 2 num_start) in
          if negb (tolower (cur p) =c "p"%char) then r ← skip_to_end_of_num (had_error r); Ok (r, v)
          else Ok (r, v)
    | OCT => if negb just_zero then r ← skip_to_end_of_num (had_error r); Ok (r, v) else Ok (r, v)
    | BIN => r ← skip_to_end_of_num (had_error r); Ok (r, v)
    end
  else if just_zero then Ok (update_bufferpos r p, mk_numeric (VI 0) VAL_OCTAL)
  else read_integer mode r v.

(** [first] is the character before [bufferpos]. *)
Definition read_number (first : ascii) (r : reader) (v : numeric) : res (reader * numeric * token) :=
  p0 ← pos_of r;
  '(r, mode, just_zero) ← number_prefix first p0 r;
  '(r, v) ← number_value (first :: p0) mode just_zero r v;
  '(r, v) ← read_suffix r v;
  Ok (r, v, if has (suffix v) VAL_FLOATING then token_floater else token_integer).

(** ** Strings and characters *)

(** The standard, the keywords enabled and what [realloc] leaves in new memory. *)
Context (keyword_mode : Z) (junk : Z).

Definition handle_escape_warn_err (warn err : errno) (r : reader) : res reader :=
  r ← (match err with
       | Enone => Ok r
       | EILSEQ | ERANGE => Ok (had_error r)
       | _ => Ice "unhandled escape error"
       end);
  match warn with
  | Enone | E2BIG => Ok r
  | EINVAL => Ok (had_error r)
  | _ => Ice "unhandled escape warning"
  end.

Fixpoint handle_reports (rs : list report) (r : reader) : res reader :=
  match rs with
  | [] => Ok r
  | (warn, err, _) :: rs => r ← handle_escape_warn_err warn err r; handle_reports rs r
  end.

Definition read_string (is_wide : bool) (r : reader) : res (reader * cstring) :=
  p ← pos_of r;
  end_ ← str_quotefin p;
  let '(r, start, len) := match end_ with
                          | Some e => (r, p, length p - length e)
                          | None => (had_error r, [], 1)
                          end%nat in
  ret ← cstring_new CSTRING_RAW start len true;
  if (length p <? len + 1)%nat then Ub "past the line"
  else
    let r := update_bufferpos r (drop (len + 1) p) in
    '(ret, rs) ← cstring_escape ret is_wide;
    r ← handle_reports rs r;
    Ok (r, ret).

Definition ungetchar (r : reader) (c : ascii) : res reader :=
  if negb (ungetch r =c EOF) then Ice "ungetch" else Ok (set_ungetch r c).

(** The literals that follow the first. *)
Fixpoint string_loop (fuel : nat) (is_wide : bool) (cstr : cstring) (r : reader) : res (reader * cstring) :=
  match fuel with
  | O => NoFuel
  | S fuel =>
      '(r, c) ← nextchar r;
      let wide_next := (c =c "L"%char) && (cur (default [] (bufferpos r)) =c dquote) in
      if (c =c dquote) || wide_next then
        let is_wide := is_wide || wide_next in
        let r := if wide_next then set_pos r (Some (drop 1 (default [] (bufferpos r)))) else r in
        '(r, appendstr) ← read_string is_wide r;
        '(cstr, _) ← cstring_append junk cstr appendstr;
        string_loop fuel is_wide cstr r
      else r ← ungetchar r c; Ok (r, cstr)
  end.

Definition read_string_multiple (is_wide : bool) (s : lexer) : res lexer :=
  let w := where_cc1_current (rd s) in
  '(r, cstr) ← read_string is_wide (rd s);
  '(r, cstr) ← string_loop (S (pending r)) is_wide cstr r;
  Ok (set_tok (set_string (set_rd s r) (Some cstr) (Some w)) token_string).

Definition read_char (is_wide : bool) (s : lexer) : res lexer :=
  let r := rd s in
  begin ← pos_of r;
  end_ ← char_quotefin begin;
  '(r, ch, multichar) ←
    (match end_ with
     | Some e =>
         let len := (length begin - length e)%nat in
         '(ch, endesc, multichar, warn, err) ← escape_char begin (Some len) is_wide Enone Enone;
         let r := if negb (endesc =? Z.of_nat len) then had_error r else r in
         if negb (multichar : bool) && (len =? 0)%nat then Ok (had_error r, ch, multichar)
         else r ← handle_escape_warn_err warn err r; Ok (r, ch, multichar)
     | None => Ok (had_error r, 0, false)
     end);
  let r := match end_ with Some e => update_bufferpos r (drop 1 e) | None => r end in
  let i := if is_wide || (multichar : bool) then u64 ch else u64 (wraps 8 ch) in
  Ok (set_tok (set_numeric (set_rd s r) (mk_numeric (VI i) 0))
        (if is_wide then token_integer else token_character)).

(** ** The tokeniser *)

Definition curtok_to_xequal (t : token) : token :=
  match t with
  | token_plus => token_plus_assign | token_minus => token_minus_assign
  | token_multiply => token_multiply_assign | token_divide => token_divide_assign
  | token_modulus => token_modulus_assign | token_not => token_not_assign
  | token_bnot => token_bnot_assign | token_and => token_and_assign | token_or => token_or_assign
  | token_xor => token_xor_assign | token_shiftl => token_shiftl_assign
  | token_shiftr => token_shiftr_assign
  | _ => token_unknown
  end.

Definition curtok_is_xequal (t : token) : bool := negb (bool_decide (curtok_to_xequal t = token_unknown)).

(** To the end of the comment; a comment that does not end is read for ever. *)
Fixpoint comment_loop (fuel : nat) (r : reader) : res reader :=
  match fuel with
  | O => NoFuel
  | S fuel =>
      '(r, nextc) ← rawnextchar r;
      if (nextc =c "*"%char) && (cur (default [] (bufferpos r)) =c "/"%char) then
        '(r, _) ← rawnextchar r; Ok (set_comment r false)
      else comment_loop fuel r
  end.

(** The rest of an identifier. *)
Fixpoint ident_loop (fuel : nat) (r : reader) (acc : cstr) : res (reader * cstr) :=
  match fuel with
  | O => NoFuel
  | S fuel =>
      '(r, c) ← peeknextchar r;
      if isalnum c || (c =c "_"%char) || (c =c "$"%char) then
        '(r, _) ← nextchar r; ident_loop fuel r (acc ++ [c])
      else Ok (r, acc)
  end.

(** If the next character is [a], [t] and it is eaten, else what [k] gives. *)
Definition if_next (a : ascii) (t : token) (k : reader -> res (reader * token)) (r : reader)
  : res (reader * token) :=
  '(r, d) ← peeknextchar r;
  if d =c a then '(r, _) ← nextchar r; Ok (r, t) else k r.

Definition then_ (t : token) (r : reader) : res (reader * token) := Ok (r, t).

(** The punctuators but those that start with a dot, and comments. *)
Definition punctuator (c : ascii) : reader -> res (reader * token) :=
  if c =c "(" then then_ token_open_paren
  else if c =c ")" then then_ token_close_paren
  else if c =c "+" then if_next "+" token_increment (then_ token_plus)
  else if c =c "-" then if_next "-" token_decrement (if_next ">" token_ptr (then_ token_minus))
  else if c =c "*" then then_ token_multiply
  else if c =c "/" then then_ token_divide
  else if c =c "%" then then_ token_modulus
  else if c =c "<" then if_next "=" token_le (if_next "<" token_shiftl (then_ token_lt))
  else if c =c ">" then if_next "=" token_ge (if_next ">" token_shiftr (then_ token_gt))
  else if c =c "=" then if_next "=" token_eq (then_ token_assign)
  else if c =c "!" then if_next "=" token_ne (then_ token_not)
  else if c =c "&" then if_next "&" token_andsc (then_ token_and)
  else if c =c "|" then if_next "|" token_orsc (then_ token_or)
  else if c =c "," then then_ token_comma
  else if c =c ":" then then_ token_colon
  else if c =c "?" then then_ token_question
  else if c =c ";" then then_ token_semicolon
  else if c =c "]" then then_ token_close_square
  else if c =c "[" then then_ token_open_square
  else if c =c "}" then then_ token_close_block
  else if c =c "{" then then_ token_open_block
  else if c =c "~" then then_ token_bnot
  else if c =c "^" then then_ token_xor
  else fun _ => Die "unknown character".

(** [.] and [...]; two dots are one token. *)
Definition dots (r : reader) : res (reader * token) :=
  '(r, d) ← peeknextchar r;
  if d =c "."%char then
    '(r, _) ← nextchar r;
    if_next "." token_elipsis (then_ token_dot) r
  else Ok (r, token_dot).

(** [eat2], given [nexttoken]; its warning aside. *)
Definition eat2 (nexttoken : lexer -> res lexer) (t : token) (die : Z) (s : lexer) : res (lexer * bool) :=
  if negb (bool_decide (t = curtok s)) then
    let s := set_rd s (had_error (rd s)) in
    if die =? 2 then Ice "invalid token parse state"
    else if negb (die =? 0) then Die "expecting token"
    else
      let s := set_limit s (cc1_error_limit s - 1) in
      if cc1_error_limit s <=? 0 then Die "expecting token" else Ok (s, false)
  else if negb (bool_decide (curtok_save s = token_unknown)) then
    Ok (set_save (set_tok s (curtok_save s)) token_unknown, true)
  else s ← nexttoken s; Ok (s, true).

Definition cstring_text (c : cstring) : res cstr :=
  c ← (match StrLit.type c with CSTRING_WIDE => cstring_asciify c | _ => Ok c end);
  c_string (units c).

(** After the word [_Pragma]. *)
Definition pragma_operator (nexttoken : lexer -> res lexer) (s : lexer) : res lexer :=
  s ← nexttoken s;
  '(s, _) ← eat2 nexttoken token_open_paren 0 s;
  let pragma := currentstring s in
  let s := set_string s None (currentstringwhere s) in
  s ← nexttoken s;
  '(s, _) ← eat2 nexttoken token_close_paren 0 s;
  match pragma with
  | Some p => t ← cstring_text p; Ok (set_rd s (pragma_handle (rd s) t))
  | None => Ok (set_rd s (had_error (rd s)))
  end.

(** A punctuator, with the [=] that may follow it. *)
Definition operator (c : ascii) (s : lexer) (r : reader) : res lexer :=
  '(r, t) ← punctuator c r;
  if curtok_is_xequal t then
    '(r, d) ← peeknextchar r;
    if d =c "="%char then
      '(r, _) ← nextchar r; Ok (set_tok (set_rd s r) (curtok_to_xequal t))
    else Ok (set_tok (set_rd s r) t)
  else Ok (set_tok (set_rd s r) t).

(** The token that starts with [c], given [nexttoken] for what follows a
    comment or [_Pragma]. *)
Definition token_from (nexttoken : lexer -> res lexer) (fuel : nat) (s : lexer) (r : reader) (c : ascii)
  : res lexer :=
  '(r, number) ← (if isdigit c then Ok (r, true)
                  else if c =c "."%char then '(r, d) ← peeknextchar r; Ok (r, isdigit d)
                  else Ok (r, false));
  if (number : bool) then
    '(r, v, t) ← read_number c r (currentval s);
    Ok (set_tok (set_numeric (set_rd s r) v) t)
  else if c =c "."%char then
    '(r, t) ← dots r; Ok (set_tok (set_rd s r) t)
  else
    '(r, d) ← (if c =c "L"%char then peeknextchar r else Ok (r, NUL));
    if d =c dquote then '(r, _) ← nextchar r; read_string_multiple true (set_rd s r)
    else if d =c squote then '(r, _) ← nextchar r; read_char true (set_rd s r)
    else if isalpha c || (c =c "_"%char) || (c =c "$"%char) then
      '(r, word) ← ident_loop (S (pending r)) r [c];
      let s := set_rd s r in
      match keyword_find keywords keyword_mode word with
      | Some t => Ok (set_tok s t)
      | None =>
          if streq (str "_Pragma") word then pragma_operator nexttoken s
          else Ok (set_tok (set_spelling s (Some word)) token_identifier)
      end
    else if c =c dquote then read_string_multiple false (set_rd s r)
    else if c =c squote then read_char false (set_rd s r)
    else
      '(r, d) ← (if c =c "/"%char then peeknextchar r else Ok (r, NUL));
      if d =c "*"%char then
        r ← comment_loop fuel (set_comment r true);
        nexttoken (set_rd s r)
      else if d =c "/"%char then
        r ← tokenise_next_line r;
        nexttoken (set_rd s r)
      else operator c s r.

Fixpoint nexttoken (fuel : nat) (s : lexer) : res lexer :=
  match fuel with
  | O => NoFuel
  | S fuel =>
      let s := if bool_decide (curtok s = token_string) then
                 let now := loc_now (rd s) in
                 set_rd s (set_tok_loc (rd s) (mk_loc (line now) (u32 (col now - 1))))
               else s in
      if buffereof (rd s) then Ok (set_tok (set_finished s) token_eof)
      else
        let c := ungetch (rd s) in
        let r := set_ungetch (rd s) EOF in
        '(r, c) ← (if c =c EOF then
                     '(r, c) ← nextchar r;
                     Ok (set_tok_loc r (mk_loc (line (loc_tok r)) (u32 (col (loc_now r) - 1))), c)
                   else Ok (r, c));
        if c =c EOF then Ok (set_tok (set_rd s r) token_eof)
        else token_from (nexttoken fuel) fuel s r c
  end.

(** ** Input and the token buffer *)

Definition tokenise_set_input (fuel : nat) (track_initial_fnam : bool) (lines : list cstr) (nam : cstr)
    (s : lexer) : res lexer :=
  let r := rd s in
  let f := if track_initial_fnam then push_fname (fs r) nam 1 false else set_current_fname (fs r) nam in
  let r := mk_reader lines false (bufferpos r) (ungetch r) (in_comment r) (mk_loc 0 (col (loc_now r)))
             (loc_tok r) f (ucc_namespace r) (parse_had_error r) in
  nexttoken fuel (mk_lexer r (curtok s) (curtok_save s) false (currentspelling s) (currentval s)
    (currentstring s) (currentstringwhere s) (cc1_error_limit s)).

Definition token_accept_identifier (fuel : nat) (s : lexer) : res (lexer * option (option cstr)) :=
  if negb (bool_decide (curtok s = token_identifier)) then Ok (s, None)
  else
    let sp := currentspelling s in
    s ← nexttoken fuel (set_spelling s None);
    Ok (s, Some sp).

Definition token_eat_identifier (fuel : nat) (fallback : option cstr) (s : lexer) : res (lexer * option cstr) :=
  '(s, got) ← token_accept_identifier fuel s;
  match got with
  | Some None => Ice "ret"
  | Some ret => Ok (s, ret)
  | None => '(s, _) ← eat2 (nexttoken fuel) token_identifier 0 s; Ok (s, fallback)
  end.

Definition accept_where (fuel : nat) (t : token) (s : lexer) : res (lexer * bool) :=
  if bool_decide (t = curtok s) then '(s, _) ← eat2 (nexttoken fuel) t 0 s; Ok (s, true)
  else Ok (s, false).

Definition uneat (t : token) (s : lexer) : res lexer :=
  if negb (bool_decide (curtok_save s = token_unknown)) then Ice "curtok regurgitate buffer full"
  else if bool_decide (curtok_save s = token_identifier) && bool_decide (t = token_identifier) then
    Ice "can't save another identifier"
  else Ok (set_tok (set_save s (curtok s)) t).

Definition token_get_current_str (s : lexer) : lexer * option cstring * option where_ :=
  (set_string s None (currentstringwhere s), currentstring s, currentstringwhere s).

(** [tok_at_label] behind an identifier: whether the next character that is no
    space is a colon, on this line or one it reads. [urealloc1] is taken to leave
    the line where it is, which only matters to the column. *)
Fixpoint at_label_loop (n : nat) (r : reader) : res (reader * bool) :=
  match n with
  | O => NoFuel
  | S n =>
      p ← pos_of r;
      let at_line_end (r : reader) (q : cstr) :=
        '(r, new) ← tokenise_read_line r;
        match new with
        | None => Ok (r, false)
        | Some new => at_label_loop n (set_pos (advance r (Z.of_nat (length p) - Z.of_nat (length q))) (Some new))
        end in
      if cur p =c "#"%char then r ← parse_line_directive r p; at_line_end r p
      else match skip_while isspace p with
           | c :: _ => Ok (r, c =c ":"%char)
           | [] => at_line_end r []
           end
  end.

Definition tok_at_label (s : lexer) : res (lexer * bool) :=
  if negb (bool_decide (curtok s = token_identifier)) then Ok (s, false)
  else '(r, b) ← at_label_loop (S (length (input (rd s)))) (rd s); Ok (set_rd s r, b).
End lexer.
