(* ===== verification/Lexing.v ===== *)
(** * What the tokeniser reads

    Theorems about [Token]: a file of words, integer literals and punctuators
    is read back as those tokens, each at its line and column, and literals get
    the value and suffix they are written with. *)

From S2P Require Import Prelude CStr Escape Libc StrLit Types Consts CppHas Token.
Open Scope Z_scope.

Section lexing.
Context `{Floats} (keyword_mode junk : Z).

Implicit Types (r : reader) (s : lexer) (p q : cstr).

(** ** Moving along a line *)

Definition on r p : Prop :=
  bufferpos r = Some p /\ buffereof r = false /\ u32 (col (loc_now r)) = col (loc_now r).

Lemma u32_add (a b c : Z) : u32 (u32 (a + b) + c) = u32 (a + (b + c)).
Proof. unfold wrapu. rewrite Z.add_mod_idemp_l by lia. f_equal. lia. Qed.

Lemma u32_twice (a : Z) : u32 (u32 a) = u32 a.
Proof. apply Z.mod_mod. lia. Qed.

Lemma on_update r p q : on r p -> on (update_bufferpos r q) q.
Proof. intros (_ & He & _). split_and!; [done|done|apply u32_twice]. Qed.

Lemma update_update r p q : update_bufferpos (update_bufferpos r p) q = update_bufferpos r q.
Proof.
  unfold update_bufferpos, advance, set_pos, set_now. simpl. f_equal. f_equal.
  rewrite u32_add. f_equal. lia.
Qed.

Lemma raw_on r (c : ascii) p : on r (c :: p) -> rawnextchar r = Ok (update_bufferpos r p, c).
Proof.
  intros (Hp & He & _). unfold rawnextchar. rewrite He. simpl. rewrite Hp.
  unfold update_bufferpos, advance, set_now, set_pos. simpl. rewrite Hp. simpl length.
  do 4 f_equal. unfold default, id. cbn [length]. f_equal. f_equal. lia.
Qed.

Lemma peek_on r p : on r p -> peeknextchar r = Ok (r, cur p).
Proof. intros (Hp & He & _). unfold peeknextchar. rewrite Hp. simpl. by rewrite He, Hp. Qed.

Lemma pos_on r p : on r p -> pos_of r = Ok p.
Proof. intros [Hp _]. unfold pos_of. by rewrite Hp. Qed.

Lemma next_loop_on (n : nat) r (sp : cstr) (c : ascii) p :
  on r (sp ++ c :: p) -> forallb isspace sp = true -> isspace c = false -> (length sp < n)%nat ->
  next_loop n r = Ok (update_bufferpos r p, c).
Proof.
  revert n r; induction sp as [|d sp IH]; intros [|n] r Hr Hs Hc Hn; simpl in Hn; try lia; simpl in *.
  - rewrite (raw_on r c p) by done. simpl. by rewrite Hc.
  - apply andb_true_iff in Hs as [Hd Hs]. rewrite (raw_on r d (sp ++ c :: p)) by done. simpl.
    rewrite Hd, IH by (try done; try lia; by eapply on_update). by rewrite update_update.
Qed.

Lemma pending_on r p : on r p -> (length p <= pending r)%nat.
Proof. intros [Hp _]. unfold pending. rewrite Hp. simpl. lia. Qed.

Lemma next_on r (sp : cstr) (c : ascii) p :
  on r (sp ++ c :: p) -> forallb isspace sp = true -> isspace c = false ->
  nextchar r = Ok (update_bufferpos r p, c).
Proof.
  intros Hr Hs Hc. apply (next_loop_on _ r sp c p); try done.
  pose proof (pending_on r _ Hr) as Hl. rewrite length_app in Hl. simpl in Hl. lia.
Qed.

Lemma next_here r (c : ascii) p : on r (c :: p) -> isspace c = false -> nextchar r = Ok (update_bufferpos r p, c).
Proof. intros. by apply (next_on r []). Qed.

(** ** Words *)

Lemma update_here r p : on r p -> update_bufferpos r p = r.
Proof.
  intros (Hp & He & Hc). destruct r as [? ? ? ? ? [? ?] ? ? ? ?]. simpl in *. subst.
  unfold update_bufferpos, advance, set_pos, set_now. simpl. by rewrite Z.sub_diag, Z.add_0_r, Hc.
Qed.

Lemma wordpart_not_space (c : ascii) : iswordpart c = true -> isspace c = false.
Proof.
  intros Hc. pose proof (ascii_forall_dec (fun c => negb (iswordpart c && isspace c)) eq_refl c) as Hd.
  cbv beta in Hd. rewrite Hc in Hd. by apply negb_true_iff in Hd.
Qed.

Lemma ident_on (n : nat) r (w acc : cstr) p :
  on r (w ++ p) -> forallb iswordpart w = true -> iswordpart (cur p) = false -> (length w < n)%nat ->
  ident_loop n r acc = Ok (update_bufferpos r p, acc ++ w).
Proof.
  revert n r acc; induction w as [|c w IH]; intros [|n] r acc Hr Hw Hp Hn; simpl in Hn; try lia; simpl.
  - rewrite (peek_on r p) by done. simpl. unfold iswordpart in Hp. rewrite Hp, app_nil_r.
    by rewrite update_here.
  - apply andb_true_iff in Hw as [Hc Hw]. rewrite (peek_on r (c :: w ++ p)) by done.
    cbn [mbind res_bind cur]. pose proof Hc as Hc'. unfold iswordpart in Hc'. rewrite Hc'.
    rewrite (next_here r c (w ++ p)) by (try done; by apply wordpart_not_space). simpl.
    rewrite IH by (try done; try lia; by eapply on_update). by rewrite update_update, <- app_assoc.
Qed.

(** ** Lexemes *)

Definition punctuators : list (string * token) := [
  ("(", token_open_paren); (")", token_close_paren); ("{", token_open_block); ("}", token_close_block);
  ("[", token_open_square); ("]", token_close_square); (",", token_comma); (";", token_semicolon);
  (":", token_colon); ("?", token_question); (".", token_dot); ("...", token_elipsis);
  ("+", token_plus); ("+=", token_plus_assign); ("++", token_increment);
  ("-", token_minus); ("-=", token_minus_assign); ("--", token_decrement); ("->", token_ptr);
  ("*", token_multiply); ("*=", token_multiply_assign); ("/", token_divide); ("/=", token_divide_assign);
  ("%", token_modulus); ("%=", token_modulus_assign); ("!", token_not); ("!=", token_ne);
  ("~", token_bnot); ("~=", token_bnot_assign); ("&", token_and); ("&=", token_and_assign);
  ("&&", token_andsc); ("|", token_or); ("|=", token_or_assign); ("||", token_orsc);
  ("^", token_xor); ("^=", token_xor_assign); ("<", token_lt); ("<=", token_le); ("<<", token_shiftl);
  ("<<=", token_shiftl_assign); (">", token_gt); (">=", token_ge); (">>", token_shiftr);
  (">>=", token_shiftr_assign); ("=", token_assign); ("==", token_eq) ]%string.

(** Whether [c] after the punctuator [sp] reads as part of a longer token. *)
Definition extends (sp : string) (c : ascii) : bool :=
  existsb (fun '(x, _) => has_prefix (str x) (str sp ++ [c])) punctuators
  || (streq (str sp) (str "/") && ((c =c "/"%char) || (c =c "*"%char)))
  || (streq (str sp) (str ".") && isdigit c).

Lemma operator_start nt (f : nat) s r (c : ascii) p :
  isdigit c = false -> (c =c "."%char) = false -> (c =c "L"%char) = false ->
  isalpha c || (c =c "_"%char) || (c =c "$"%char) = false -> (c =c dquote) = false -> (c =c squote) = false ->
  on r p -> (c =c "/"%char) && ((cur p =c "/"%char) || (cur p =c "*"%char)) = false ->
  token_from keyword_mode junk nt f s r c = operator c s r.
Proof.
  intros H1 H2 H3 H4 H5 H6 Hr H7. unfold token_from. rewrite H1, H2, H3. run.
  change (NUL =c dquote) with false. change (NUL =c squote) with false. cbv iota. rewrite H4, H5, H6.
  destruct (c =c "/"%char); run; [|done].
  rewrite (peek_on r p) by done. run. simpl in H7. apply orb_false_iff in H7 as [-> ->]. done.
Qed.

Definition punct_reads (x : string) (t : token) : Prop :=
  forall nt (f : nat) s r (c : ascii) p q,
    str x = c :: p -> on r (p ++ q) -> extends x (cur q) = false ->
    token_from keyword_mode junk nt f s r c = Ok (set_tok (set_rd s (update_bufferpos r q)) t).

Lemma if_next_hit (a : ascii) (t : token) k r p :
  on r (a :: p) -> isspace a = false -> if_next a t k r = Ok (update_bufferpos r p, t).
Proof.
  intros Hr Ha. unfold if_next. rewrite (peek_on r _ Hr). run. cbn [cur].
  rewrite (proj2 (eqc_true a a) eq_refl). by rewrite (next_here r a p).
Qed.

Lemma if_next_miss (a : ascii) (t : token) k r p :
  on r p -> (cur p =c a) = false -> if_next a t k r = k r.
Proof. intros Hr Ha. unfold if_next. rewrite (peek_on r _ Hr). run. by rewrite Ha. Qed.

Lemma operator_plain (c : ascii) s r r' (t : token) p :
  punctuator c r = Ok (r', t) -> on r' p -> curtok_is_xequal t && (cur p =c "="%char) = false ->
  operator c s r = Ok (set_tok (set_rd s r') t).
Proof.
  intros Hp Hr Hx. unfold operator. rewrite Hp. run. destruct (curtok_is_xequal t); [|done].
  rewrite (peek_on r' p Hr). run. simpl in Hx. by rewrite Hx.
Qed.

Lemma operator_assign (c : ascii) s r r' (t : token) p :
  punctuator c r = Ok (r', t) -> on r' ("="%char :: p) -> curtok_is_xequal t = true ->
  operator c s r = Ok (set_tok (set_rd s (update_bufferpos r' p)) (curtok_to_xequal t)).
Proof.
  intros Hp Hr Hx. unfold operator. rewrite Hp. run. rewrite Hx, (peek_on r' _ Hr). run.
  by rewrite (next_here r' "="%char p).
Qed.

Lemma dots_one r p : on r p -> (cur p =c "."%char) = false -> dots r = Ok (r, token_dot).
Proof. intros Hr Hp. unfold dots. rewrite (peek_on r p Hr). run. by rewrite Hp. Qed.

Lemma dots_three r p :
  on r (["."; "."]%char ++ p) -> dots r = Ok (update_bufferpos r p, token_elipsis).
Proof.
  intros Hr. unfold dots. rewrite (peek_on r _ Hr). run. simpl cur.
  rewrite (next_here r "."%char (["."%char] ++ p) Hr eq_refl). run.
  rewrite (if_next_hit _ _ _ _ p) by (try done; by eapply on_update). by rewrite update_update.
Qed.

Lemma not_extended (x : string) (a : ascii) p :
  extends x (cur p) = false -> extends x a = true -> (cur p =c a) = false.
Proof. intros Hx Ha. apply eqc_false. intros E. congruence. Qed.

Lemma dot_start nt (f : nat) s r p :
  on r p -> isdigit (cur p) = false ->
  token_from keyword_mode junk nt f s r "."%char = '(r, t) ← dots r; Ok (set_tok (set_rd s r) t).
Proof.
  intros Hr Hp. unfold token_from. change (isdigit ".") with false. change ("." =c ".")%char with true.
  run. rewrite (peek_on r p Hr). run. by rewrite Hp.
Qed.

(** Run [punctuator] on a given character, [Hx] saying that the token ends at
    [q]. *)
Ltac missed Hx := apply (not_extended _ _ _ Hx); vm_compute; reflexivity.
Ltac punctuate Hr Hx q :=
  match goal with |- context [punctuator ?c ?r] =>
    let f := eval cbv [punctuator Ascii.eqb Bool.eqb andb] in (punctuator c) in
    change (punctuator c r) with (f r) end;
  repeat first [ rewrite (if_next_hit _ _ _ _ q) by (exact Hr || reflexivity)
               | rewrite (if_next_hit _ _ _ _ ("="%char :: q)) by (exact Hr || reflexivity)
               | rewrite (if_next_miss _ _ _ _ _ Hr) by (first [missed Hx | reflexivity]) ];
  reflexivity.
Ltac no_equals Hx := first [reflexivity | apply andb_false_iff; right; missed Hx].

Lemma punctuators_read : Forall (fun e => punct_reads (fst e) (snd e)) punctuators.
Proof.
  unfold punctuators. repeat apply Forall_cons_2; [..|apply Forall_nil_2]; cbn [fst snd].
  all: intros nt f s r c p q E Hr Hx; injection E as <- <-; cbn [app] in Hr.
  11: { rewrite (update_here r q Hr), (dot_start _ _ _ _ q Hr), (dots_one r q Hr); [done|missed Hx|].
        by apply orb_false_iff in Hx as [_ Hx]. }
  11: by rewrite (dot_start _ _ _ _ (["."; "."]%char ++ q) Hr), (dots_three r q Hr).
  all: erewrite operator_start by
    (first [exact Hr | reflexivity | apply orb_false_iff; split; missed Hx]).
  all: try (rewrite (update_here r q Hr); eapply operator_plain; [punctuate Hr Hx q | exact Hr | no_equals Hx]).
  all: try (eapply operator_plain; [punctuate Hr Hx q | eapply on_update; exact Hr | no_equals Hx]).
  all: etransitivity; [eapply (operator_assign _ _ _ _ _ q);
    [punctuate Hr Hx q | first [exact Hr | eapply on_update; exact Hr] | reflexivity]
    | by rewrite ?update_update].
Qed.

(** ** Integer literals *)

Definition int_suffixes : list (string * Z) := [
  (""%string, 0); ("u"%string, 1); ("U"%string, 1); ("l"%string, 2); ("L"%string, 2);
  ("ll"%string, 4); ("LL"%string, 4);
  ("ul"%string, 3); ("uL"%string, 3); ("Ul"%string, 3); ("UL"%string, 3);
  ("ull"%string, 5); ("uLL"%string, 5); ("Ull"%string, 5); ("ULL"%string, 5);
  ("lu"%string, 3); ("lU"%string, 3); ("Lu"%string, 3); ("LU"%string, 3);
  ("llu"%string, 5); ("llU"%string, 5); ("LLu"%string, 5); ("LLU"%string, 5) ].

Definition in_suffix (c : ascii) : bool :=
  (c =c "u"%char) || (c =c "U"%char) || (c =c "l"%char) || (c =c "L"%char).

(** A character a number does not go on with. *)
Definition ends_number (c : ascii) : bool := negb (iswordpart c || (c =c "."%char)).

Lemma suffix_stop (n : nat) r (suff : Z) p :
  on r p -> in_suffix (cur p) = false -> suffix_loop (S n) r suff = Ok (r, suff).
Proof.
  intros Hr Hp. simpl. rewrite (peek_on r p Hr). run. unfold in_suffix in Hp.
  apply orb_false_iff in Hp as [Hp ->]. apply orb_false_iff in Hp as [Hp ->].
  apply orb_false_iff in Hp as [-> ->]. done.
Qed.

Lemma suffix_u (n : nat) r (suff : Z) (c : ascii) p :
  on r (c :: p) -> (c =c "U"%char) || (c =c "u"%char) = true -> has suff VAL_UNSIGNED = false ->
  suffix_loop (S n) r suff = suffix_loop n (update_bufferpos r p) (Z.lor suff VAL_UNSIGNED).
Proof.
  intros Hr Hc Hs. simpl. rewrite (peek_on r _ Hr). run. cbn [cur]. rewrite Hc, Hs.
  rewrite (next_here r c p Hr) by (apply orb_true_iff in Hc as [?%eqc_true | ?%eqc_true]; by subst). done.
Qed.

Lemma suffix_l (n : nat) r (suff : Z) (c : ascii) p :
  on r (c :: p) -> (c =c "L"%char) || (c =c "l"%char) = true -> has suff (Z.lor VAL_LLONG VAL_LONG) = false ->
  (cur p =c c) = false ->
  suffix_loop (S n) r suff = suffix_loop n (update_bufferpos r p) (Z.lor suff VAL_LONG).
Proof.
  intros Hr Hc Hs Hp. simpl. rewrite (peek_on r _ Hr). run. cbn [cur].
  replace ((c =c "U"%char) || (c =c "u"%char)) with false
    by (by apply orb_true_iff in Hc as [?%eqc_true | ?%eqc_true]; subst).
  rewrite Hc, Hs, (next_here r c p Hr) by (apply orb_true_iff in Hc as [?%eqc_true | ?%eqc_true]; by subst).
  run. rewrite (peek_on _ p) by (by eapply on_update). run. by rewrite Hp.
Qed.

Lemma suffix_ll (n : nat) r (suff : Z) (c : ascii) p :
  on r (c :: c :: p) -> (c =c "L"%char) || (c =c "l"%char) = true ->
  has suff (Z.lor VAL_LLONG VAL_LONG) = false ->
  suffix_loop (S n) r suff = suffix_loop n (update_bufferpos r p) (Z.lor suff VAL_LLONG).
Proof.
  intros Hr Hc Hs. simpl. rewrite (peek_on r _ Hr). run. cbn [cur].
  replace ((c =c "U"%char) || (c =c "u"%char)) with false
    by (by apply orb_true_iff in Hc as [?%eqc_true | ?%eqc_true]; subst).
  assert (Hsp : isspace c = false) by (apply orb_true_iff in Hc as [?%eqc_true | ?%eqc_true]; by subst).
  rewrite Hc, Hs, (next_here r c (c :: p) Hr Hsp). run.
  assert (Hr' : on (update_bufferpos r (c :: p)) (c :: p)) by (by eapply on_update).
  rewrite (peek_on _ _ Hr'). run. cbn [cur]. rewrite (proj2 (eqc_true c c) eq_refl).
  rewrite (next_here _ c p Hr' Hsp). run. by rewrite update_update.
Qed.

Ltac ons Hr := repeat first [exact Hr | eapply on_update].

Lemma in_suffix_not (a c : ascii) : in_suffix c = false -> in_suffix a = true -> (c =c a) = false.
Proof. intros Hc Ha. apply eqc_false. intros ->. congruence. Qed.

Definition suffix_reads (x : string) (bits : Z) : Prop :=
  forall (n : nat) r q,
    on r (str x ++ q) -> in_suffix (cur q) = false -> (String.length x < n)%nat ->
    suffix_loop n r 0 = Ok (update_bufferpos r q, bits).

Lemma suffixes_read : Forall (fun e => suffix_reads (fst e) (snd e)) int_suffixes.
Proof.
  unfold int_suffixes. repeat apply Forall_cons_2; [..|apply Forall_nil_2]; cbn [fst snd].
  all: intros n r q Hr Hq Hn; simpl in Hr, Hn.
  all: do 4 (try (destruct n as [|n]; [lia|])).
  all: repeat first
    [ rewrite (suffix_stop _ _ _ q) by (first [exact Hq | ons Hr])
    | etransitivity; [eapply suffix_ll; [ons Hr | reflexivity | reflexivity] |]
    | etransitivity; [eapply suffix_l; [ons Hr | reflexivity | reflexivity |
        first [reflexivity | apply in_suffix_not; [exact Hq|reflexivity]]] |]
    | etransitivity; [eapply suffix_u; [ons Hr | reflexivity | reflexivity] |] ].
  all: first [by rewrite (update_here r q Hr) | by rewrite ?update_update].
Qed.

Definition int_prefix (mode : base) (upper : bool) : string :=
  match mode with
  | DEC => "" | OCT => "0"
  | HEX => if upper then "0X" else "0x"
  | BIN => if upper then "0B" else "0b"
  end.

(** The digits that may follow the prefix of a literal. *)
Definition digits_ok (mode : base) (ds : cstr) : bool :=
  forallb (digit_of mode) ds &&
  match mode with
  | DEC => match ds with [] => false | d :: _ => negb (d =c "0"%char) end
  | OCT => true
  | HEX | BIN => negb (bool_decide (ds = []))
  end.

Lemma skip_while_stop (test : digit_test) (ds q : cstr) :
  forallb test ds = true -> (q = [] \/ test (cur q) = false) -> skip_while test (ds ++ q) = q.
Proof.
  intros Hd Hq. induction ds as [|d ds IH]; simpl in *.
  - destruct q as [|c q]; [done|]. destruct Hq as [Hq|Hq]; [done|]. simpl in *. by rewrite Hq.
  - apply andb_true_iff in Hd as [-> Hd]. by apply IH.
Qed.

(** What follows the digits: a suffix, or what a number does not go on with. *)
Definition quiet (c : ascii) : bool := in_suffix c || ends_number c.

Lemma quiet_facts (c : ascii) :
  quiet c = true ->
  isdigit c = false /\ isxdigit c = false /\ isoct c = false /\ isbdigit c = false /\
  underscore c = false /\ (c =c "."%char) = false /\ (c =c "p"%char) = false /\
  (tolower c =c "e"%char) = false /\ (tolower c =c "x"%char) = false /\ (tolower c =c "b"%char) = false.
Proof.
  intros Hc.
  pose proof (ascii_forall_dec (fun c => negb (quiet c) ||
    negb (isdigit c || isxdigit c || isoct c || isbdigit c || underscore c || (c =c ".") || (c =c "p")
          || (tolower c =c "e") || (tolower c =c "x") || (tolower c =c "b"))) eq_refl c) as Hd.
  cbv beta in Hd. rewrite Hc in Hd. simpl in Hd. apply negb_true_iff in Hd.
  by repeat (apply orb_false_iff in Hd as [Hd ?]).
Qed.

Lemma quiet_digit (mode : base) (c : ascii) : quiet c = true -> digit_of mode c || underscore c = false.
Proof. intros Hc%quiet_facts. destruct mode; simpl; apply orb_false_iff; tauto. Qed.

Lemma digits_spec (mode : base) (ds q : cstr) :
  forallb (digit_of mode) ds = true -> quiet (cur q) = true -> numeral (radix mode) 0 ds < 2 ^ 64 ->
  char_seq_to_ullong (ds ++ q) false mode = Ok (numeral (radix mode) 0 ds, q, false).
Proof.
  intros Hd Hq Hn. pose proof (quiet_digit mode _ Hq) as Hq'. apply orb_false_iff in Hq' as [Hq1 Hq2].
  assert (Hend : numeral_end (digit_of mode) (ds ++ q) = q).
  { unfold numeral_end. destruct ds as [|d ds]; simpl app in *; simpl in Hd.
    - by rewrite Hq1.
    - apply andb_true_iff in Hd as [Hd Hds]. cbn [cur]. rewrite Hd.
      change (d :: ds ++ q) with ((d :: ds) ++ q). apply skip_while_stop.
      + simpl. rewrite Hd. simpl. apply forallb_forall. intros x Hx.
        rewrite (proj1 (forallb_forall _ _) Hds x Hx). done.
      + right. by rewrite Hq1, Hq2. }
  assert (0 <= numeral (radix mode) 0 ds).
  { apply (numeral_grows (digit_of mode) (radix mode)); [lia|]. apply forallb_forall. intros x Hx.
    by rewrite (proj1 (forallb_forall _ _) Hd x Hx). }
  destruct (read_loop_spec (digit_of mode) (radix mode) (S (length (ds ++ q))) (ds ++ q) 0)
    as (val & over & R & Hv); [lia|lia|].
  rewrite Hend, length_app, Nat.add_sub, take_app_length in Hv. cbv zeta in Hv.
  unfold char_seq_to_ullong, read_ap_num. rewrite Hend in R.
  destruct over; [lia|]. rewrite wrapu_id in Hv by (unfold is_u; lia). subst val.
  rewrite <- R. destruct mode; reflexivity.
Qed.

Lemma read_integer_on (mode : base) r (v : numeric) (ds q : cstr) :
  on r (ds ++ q) -> ds <> [] -> forallb (digit_of mode) ds = true -> quiet (cur q) = true ->
  numeral (radix mode) 0 ds < 2 ^ 64 ->
  read_integer mode r v
    = Ok (update_bufferpos r q, mk_numeric (VI (numeral (radix mode) 0 ds)) (mode_bits mode)).
Proof.
  intros Hr Hne Hd Hq Hn. unfold read_integer. rewrite (pos_on r _ Hr). run.
  rewrite (digits_spec mode ds q) by done. run.
  replace (length q =? length (ds ++ q))%nat with false; [by destruct mode|].
  symmetry. apply Nat.eqb_neq. rewrite length_app. destruct ds; [done|simpl; lia].
Qed.

Lemma suffix_cases (x : string) (bits : Z) (q : cstr) :
  (x, bits) ∈ int_suffixes -> ends_number (cur q) = true ->
  quiet (cur (str x ++ q)) = true /\ 0 <= bits < 8 /\ suffix_reads x bits.
Proof.
  intros Hx Hq. pose proof (proj1 (Forall_forall _ _) suffixes_read _ Hx) as Hread. split; [|split; [|exact Hread]].
  - unfold int_suffixes in Hx. rewrite ?elem_of_cons, elem_of_nil in Hx.
    destruct_or! Hx; try done; injection Hx as -> ->; try reflexivity.
    simpl. unfold quiet. rewrite Hq. apply orb_true_r.
  - assert (Hb : Forall (fun e => 0 <= e.2 < 8) int_suffixes) by by_decide.
    exact (proj1 (Forall_forall _ _) Hb _ Hx).
Qed.

Lemma ends_not_suffix (c : ascii) :
  ends_number c = true -> in_suffix c = false /\ isalpha c = false /\ (c =c "."%char) = false.
Proof.
  intros Hc. pose proof (ascii_forall_dec (fun c => negb (ends_number c) ||
    negb (in_suffix c || isalpha c || (c =c "."))) eq_refl c) as Hd.
  cbv beta in Hd. rewrite Hc in Hd. apply negb_true_iff in Hd.
  by apply orb_false_iff in Hd as [[-> ->]%orb_false_iff ->].
Qed.

Lemma read_suffix_on r (v : numeric) (x : string) (bits : Z) (q : cstr) :
  on r (str x ++ q) -> (x, bits) ∈ int_suffixes -> ends_number (cur q) = true ->
  has (suffix v) VAL_FLOATING = false ->
  read_suffix r v = Ok (update_bufferpos r q, mk_numeric (val v) (Z.lor (suffix v) bits)).
Proof.
  intros Hr Hx Hq Hv. destruct (suffix_cases x bits q Hx Hq) as (Hquiet & _ & Hread).
  apply ends_not_suffix in Hq as (Hi & Ha & Hdot).
  apply quiet_facts in Hquiet as (_ & _ & _ & _ & _ & _ & _ & He & _).
  unfold read_suffix. rewrite (peek_on r _ Hr). run. rewrite Hv, He, andb_false_r. simpl orb. cbv iota.
  unfold read_suffix_int. rewrite (Hread _ r q Hr Hi).
  - run. rewrite (peek_on _ q) by (by eapply on_update). run. by rewrite Ha, Hdot.
  - pose proof (pending_on r _ Hr) as Hl. rewrite length_app in Hl.
    assert (length (str x) = String.length x) by (clear; unfold str; induction x; simpl; congruence). lia.
Qed.

Lemma no_floating (a b : Z) : 0 <= a < 64 -> 0 <= b < 8 -> has (Z.lor a b) VAL_FLOATING = false.
Proof.
  intros Ha Hb. unfold has. apply negb_false_iff, Z.eqb_eq. apply Z.bits_inj'. intros i Hi.
  rewrite Z.land_spec, Z.lor_spec, Z.bits_0.
  destruct (Z.ltb_spec i 6).
  - replace (Z.testbit VAL_FLOATING i) with false; [apply andb_false_r|].
    assert (i = 0 \/ i = 1 \/ i = 2 \/ i = 3 \/ i = 4 \/ i = 5) as Hc by lia. by destruct_or! Hc; subst.
  - assert (Hz : forall x, 0 <= x < 2 ^ 6 -> Z.testbit x i = false).
    { intros y Hy. rewrite <- (Z.mod_small y (2 ^ 6)) by lia. by rewrite Z.mod_pow2_bits_high by lia. }
    by rewrite (Hz a), (Hz b) by lia.
Qed.

(** The literal's text, and what is read. *)
Definition int_spelling (mode : base) (upper : bool) (ds : cstr) (x : string) : cstr :=
  str (int_prefix mode upper) ++ ds ++ str x.

Lemma value_on (num_start : cstr) (mode : base) r (v : numeric) (ds q : cstr) :
  on r (ds ++ q) -> ds <> [] -> forallb (digit_of mode) ds = true -> quiet (cur q) = true ->
  numeral (radix mode) 0 ds < 2 ^ 64 ->
  number_value num_start mode false r v
    = Ok (update_bufferpos r q, mk_numeric (VI (numeral (radix mode) 0 ds)) (mode_bits mode)).
Proof.
  intros Hr Hne Hd Hq Hn. pose proof (quiet_facts _ Hq) as (Q1 & Q2 & _ & _ & _ & Q6 & Q7 & _).
  unfold number_value. rewrite (pos_on r _ Hr). run.
  assert (Hskip : skip_while (if bool_decide (mode = HEX) then isxdigit else isdigit) (ds ++ q) = q).
  { apply skip_while_stop; [|right; by destruct mode].
    apply forallb_forall. intros c Hc. pose proof (proj1 (forallb_forall _ _) Hd c Hc) as Hdc.
    pose proof (ascii_forall_dec (fun c => negb (isbdigit c || isodigit c) || isdigit c) eq_refl c) as Hdig.
    cbv beta in Hdig. destruct mode; [change (isbdigit c = true) in Hdc|change (isodigit c = true) in Hdc|done|done];
      rewrite Hdc in Hdig; [by destruct (isodigit c)|by rewrite orb_true_r in Hdig]. }
  rewrite Hskip, Q6, Q7, andb_false_r. simpl orb. cbv iota. by apply read_integer_on.
Qed.

Lemma zero_on (num_start : cstr) r (v : numeric) q :
  on r ("0"%char :: q) -> quiet (cur q) = true ->
  number_value num_start OCT true r v = Ok (update_bufferpos r q, mk_numeric (VI 0) VAL_OCTAL).
Proof.
  intros Hr Hq. pose proof (quiet_facts _ Hq) as (Q1 & _ & _ & _ & _ & Q6 & _).
  unfold number_value. rewrite (pos_on r _ Hr). run. change (bool_decide (OCT = HEX)) with false. cbv iota.
  change ("0"%char :: q) with (str "0" ++ q). rewrite skip_while_stop by (try done; by right).
  by rewrite Q6.
Qed.

Lemma octal_digit_on (d : ascii) :
  isodigit d = true ->
  (tolower d =c "x"%char) = false /\ (tolower d =c "b"%char) = false /\ isoct d = true.
Proof.
  intros Hd. pose proof (ascii_forall_dec (fun d => negb (isodigit d) ||
    (negb (tolower d =c "x") && negb (tolower d =c "b") && isoct d)) eq_refl d) as Hc.
  cbv beta in Hc. rewrite Hd in Hc. apply andb_true_iff in Hc as [[H1 H2]%andb_true_iff H3].
  by apply negb_true_iff in H1, H2.
Qed.

(** Prefix and digits. *)
Lemma digits_on (mode : base) (upper : bool) (ds t : cstr) (first : ascii) (p : cstr) r (v : numeric) :
  digits_ok mode ds = true -> numeral (radix mode) 0 ds < 2 ^ 64 -> quiet (cur t) = true ->
  str (int_prefix mode upper) ++ ds ++ t = first :: p -> on r p ->
  ('(r, mode, just_zero) ← number_prefix first p r; number_value (first :: p) mode just_zero r v)
    = Ok (update_bufferpos r t, mk_numeric (VI (numeral (radix mode) 0 ds)) (mode_bits mode)).
Proof.
  intros Hok Hn Hq Hsp Hr. unfold digits_ok in Hok. apply andb_true_iff in Hok as [Hd Hok].
  pose proof (quiet_facts _ Hq) as (Q1 & _ & Q3 & _ & _ & _ & _ & _ & Q9 & Q10).
  unfold number_prefix. destruct mode; cbn [int_prefix] in Hsp.
  - assert (first = "0"%char /\ exists b, p = b :: ds ++ t /\ tolower b = "b"%char) as (-> & b & -> & Hb)
      by (destruct upper; injection Hsp as <- <-; eauto).
    change ("0" =c "0")%char with true. cbn [cur]. rewrite Hb.
    change ("b" =c "x")%char with false. change ("b" =c "b")%char with true. run. cbn [drop].
    rewrite (value_on _ BIN _ _ ds t) by first [done | by eapply on_update | by destruct ds].
    by rewrite update_update.
  - injection Hsp as <- <-. change ("0" =c "0")%char with true. cbv iota. destruct ds as [|d ds].
    + cbn [app] in *. rewrite Q9, Q10, Q3, Q1. run.
      rewrite (zero_on _ _ _ t) by (try done; by eapply on_update). by rewrite update_update.
    + pose proof Hd as Hd'. simpl in Hd'. apply andb_true_iff in Hd' as [Hd' _].
      destruct (octal_digit_on d Hd') as (H1 & H2 & H3). cbn [app cur]. rewrite H1, H2, H3. run.
      by rewrite (value_on _ OCT _ _ (d :: ds) t).
  - destruct ds as [|d ds]; [done|]. injection Hsp as <- <-. apply negb_true_iff in Hok. rewrite Hok. run.
    rewrite (value_on _ DEC _ _ (d :: ds) t) by (try done; by eapply on_update). by rewrite update_update.
  - assert (first = "0"%char /\ exists b, p = b :: ds ++ t /\ tolower b = "x"%char) as (-> & b & -> & Hb)
      by (destruct upper; injection Hsp as <- <-; eauto).
    change ("0" =c "0")%char with true. cbn [cur]. rewrite Hb. change ("x" =c "x")%char with true. run.
    cbn [drop].
    rewrite (value_on _ HEX _ _ ds t) by first [done | by eapply on_update | by destruct ds].
    by rewrite update_update.
Qed.

Lemma read_number_on (mode : base) (upper : bool) (ds : cstr) (x : string) (bits : Z)
    (first : ascii) (p q : cstr) r (v : numeric) :
  digits_ok mode ds = true -> (x, bits) ∈ int_suffixes -> numeral (radix mode) 0 ds < 2 ^ 64 ->
  ends_number (cur q) = true -> int_spelling mode upper ds x = first :: p -> on r (p ++ q) ->
  read_number first r v
    = Ok (update_bufferpos r q,
          mk_numeric (VI (numeral (radix mode) 0 ds)) (Z.lor (mode_bits mode) bits), token_integer).
Proof.
  intros Hok Hx Hn Hq Hsp Hr. destruct (suffix_cases x bits q Hx Hq) as (Hquiet & Hb & _).
  unfold read_number. rewrite (pos_on r _ Hr). run.
  pose proof (digits_on mode upper ds (str x ++ q) first (p ++ q) r v Hok Hn Hquiet) as Hval.
  assert (Hsp' : str (int_prefix mode upper) ++ ds ++ str x ++ q = first :: p ++ q)
    by (rewrite app_comm_cons, <- Hsp; unfold int_spelling; by rewrite <- !app_assoc).
  specialize (Hval Hsp' Hr). apply bind_Ok in Hval as ([[r1 m1] z] & -> & Hval). run. rewrite Hval. run.
  rewrite (read_suffix_on _ _ x bits q) by first [done | by eapply on_update | by destruct mode]. run.
  cbn [suffix val]. rewrite update_update, no_floating by (try done; destruct mode; vm_compute; split; congruence).
  done.
Qed.

(** ** One lexeme *)

Inductive lexeme :=
  | Word (w : cstr)
  | Int (mode : base) (upper : bool) (ds : cstr) (x : string)
  | Punct (x : string).

Fixpoint assoc {A} (x : string) (tbl : list (string * A)) : option A :=
  match tbl with
  | [] => None
  | (y, a) :: tbl => if String.eqb x y then Some a else assoc x tbl
  end.

Definition spelling (l : lexeme) : cstr :=
  match l with
  | Word w => w
  | Int mode upper ds x => int_spelling mode upper ds x
  | Punct x => str x
  end.

Definition word_start (c : ascii) : bool := isalpha c || (c =c "_"%char) || (c =c "$"%char).

Definition lexeme_ok (l : lexeme) : bool :=
  match l with
  | Word w => word_start (cur w) && forallb iswordpart w && negb (streq (str "_Pragma") w)
  | Int mode _ ds x =>
      digits_ok mode ds && bool_decide (is_Some (assoc x int_suffixes)) && (numeral (radix mode) 0 ds <? 2 ^ 64)
  | Punct x => bool_decide (is_Some (assoc x punctuators))
  end.

(** Whether the lexeme stops before [c]. *)
Definition stops (l : lexeme) (c : ascii) : bool :=
  match l with
  | Word w => negb (iswordpart c) && negb (streq w (str "L") && ((c =c dquote) || (c =c squote)))
  | Int _ _ _ _ => ends_number c
  | Punct x => negb (extends x c)
  end.

Definition token_of (l : lexeme) : token :=
  match l with
  | Word w => default token_identifier (keyword_find keywords keyword_mode w)
  | Int _ _ _ _ => token_integer
  | Punct x => default token_unknown (assoc x punctuators)
  end.

Definition value_of (mode : base) (ds : cstr) (x : string) : numeric :=
  mk_numeric (VI (numeral (radix mode) 0 ds)) (Z.lor (mode_bits mode) (default 0 (assoc x int_suffixes))).

(** The lexer with the lexeme as its current token. *)
Definition shown (l : lexeme) s : lexer :=
  set_tok
    (match l with
     | Word w => if bool_decide (keyword_find keywords keyword_mode w = None)
                 then set_spelling s (Some w) else s
     | Int mode _ ds x => set_numeric s (value_of mode ds x)
     | Punct _ => s
     end) (token_of l).

Lemma assoc_in {A} (x : string) (tbl : list (string * A)) (a : A) : assoc x tbl = Some a -> (x, a) ∈ tbl.
Proof.
  induction tbl as [|[y b] tbl IH]; simpl; [done|]. rewrite elem_of_cons.
  destruct (String.eqb_spec x y) as [->|]; [intros [= ->]; by left|]. auto.
Qed.

Lemma word_start_facts (c : ascii) :
  word_start c = true ->
  isdigit c = false /\ (c =c "."%char) = false /\ isspace c = false /\ (c =c EOF) = false /\
  (c =c "#"%char) = false.
Proof.
  intros Hc. pose proof (ascii_forall_dec (fun c => negb (word_start c) ||
    negb (isdigit c || (c =c ".") || isspace c || (c =c EOF) || (c =c "#"))) eq_refl c) as Hd.
  cbv beta in Hd. rewrite Hc in Hd. apply negb_true_iff in Hd.
  by apply orb_false_iff in Hd as [[[[-> ->]%orb_false_iff ->]%orb_false_iff ->]%orb_false_iff ->].
Qed.

Lemma wordpart_not_quote (c : ascii) : iswordpart c = true -> (c =c dquote) = false /\ (c =c squote) = false.
Proof.
  intros Hc. pose proof (ascii_forall_dec (fun c => negb (iswordpart c) ||
    negb ((c =c dquote) || (c =c squote))) eq_refl c) as Hd.
  cbv beta in Hd. rewrite Hc in Hd. apply negb_true_iff in Hd. by apply orb_false_iff in Hd as [-> ->].
Qed.

Lemma word_from nt (f : nat) s r (c : ascii) (p q : cstr) :
  lexeme_ok (Word (c :: p)) = true -> stops (Word (c :: p)) (cur q) = true -> on r (p ++ q) ->
  token_from keyword_mode junk nt f s r c = Ok (shown (Word (c :: p)) (set_rd s (update_bufferpos r q))).
Proof.
  intros Hok Hq Hr. cbn [lexeme_ok cur forallb] in Hok.
  apply andb_true_iff in Hok as [[Hc [_ Hp]%andb_true_iff]%andb_true_iff Hprag].
  apply negb_true_iff in Hprag. apply andb_true_iff in Hq as [Hq HL]. apply negb_true_iff in Hq, HL.
  destruct (word_start_facts c Hc) as (H1 & H2 & _).
  unfold token_from. rewrite H1, H2. run.
  assert (Hd : exists d, (if c =c "L"%char then peeknextchar r else Ok (r, NUL)) = Ok (r, d)
                         /\ (d =c dquote) = false /\ (d =c squote) = false).
  { destruct (c =c "L"%char) eqn:EL; [|by exists NUL]. apply eqc_true in EL. subst c.
    rewrite (peek_on r _ Hr). eexists; split; [done|]. destruct p as [|d p]; cbn [app cur].
    - by apply orb_false_iff in HL.
    - apply wordpart_not_quote. simpl in Hp. by apply andb_true_iff in Hp as [-> _]. }
  destruct Hd as (d & -> & Hd1 & Hd2). run. rewrite Hd1, Hd2. unfold word_start in Hc. rewrite Hc.
  rewrite (ident_on _ r p [c] q Hr Hp Hq).
  - run. change ([c] ++ p) with (c :: p). unfold shown, token_of.
    destruct (keyword_find keywords keyword_mode (c :: p)); [done|]. by rewrite Hprag.
  - pose proof (pending_on r _ Hr) as Hl. rewrite length_app in Hl. clear - Hl. lia.
Qed.

Lemma first_digit (mode : base) (upper : bool) (ds t : cstr) (c : ascii) (p : cstr) :
  digits_ok mode ds = true -> str (int_prefix mode upper) ++ ds ++ t = c :: p -> isdigit c = true.
Proof.
  intros Hok Hsp. unfold digits_ok in Hok. apply andb_true_iff in Hok as [Hd Hok].
  destruct mode; cbn [int_prefix] in Hsp; [destruct upper; by injection Hsp as <- _|by injection Hsp as <- _|
    |destruct upper; by injection Hsp as <- _].
  destruct ds as [|d ds]; [done|]. injection Hsp as <- _. cbn [forallb] in Hd. by apply andb_true_iff in Hd as [Hd _].
Qed.

Lemma int_from nt (f : nat) s r (c : ascii) (p q : cstr) (mode : base) (upper : bool) (ds : cstr) (x : string) :
  lexeme_ok (Int mode upper ds x) = true -> spelling (Int mode upper ds x) = c :: p ->
  ends_number (cur q) = true -> on r (p ++ q) ->
  token_from keyword_mode junk nt f s r c
    = Ok (shown (Int mode upper ds x) (set_rd s (update_bufferpos r q))).
Proof.
  intros Hok Hsp Hq Hr. cbn [lexeme_ok] in Hok.
  apply andb_true_iff in Hok as [[Hds [bits Hx]%bool_decide_eq_true]%andb_true_iff Hn%Z.ltb_lt].
  unfold token_from. rewrite (first_digit _ _ _ _ _ _ Hds Hsp). run.
  rewrite (read_number_on mode upper ds x bits c p q) by (done || by apply assoc_in). run.
  unfold shown, value_of, token_of. by rewrite Hx.
Qed.

Lemma lexeme_from nt (f : nat) s r (c : ascii) (p q : cstr) (l : lexeme) :
  lexeme_ok l = true -> spelling l = c :: p -> stops l (cur q) = true -> on r (p ++ q) ->
  token_from keyword_mode junk nt f s r c = Ok (shown l (set_rd s (update_bufferpos r q))).
Proof.
  destruct l as [w|mode upper ds x|x]; intros Hok Hsp Hq Hr.
  - cbn [spelling] in Hsp. subst w. by apply word_from.
  - by apply (int_from nt f s r c p q).
  - apply bool_decide_eq_true in Hok as [t Ht]. apply negb_true_iff in Hq.
    unfold shown, token_of. rewrite Ht.
    by apply (proj1 (Forall_forall _ _) punctuators_read _ (assoc_in _ _ _ Ht) nt f s r c p q).
Qed.

(** ** Whole files *)

(** A line: lexemes, each after some space, and the space at its end. *)
Definition lex_line : Type := list (cstr * lexeme) * cstr.

Fixpoint items_text (items : list (cstr * lexeme)) (tail : cstr) : cstr :=
  match items with
  | [] => tail
  | (sp, l) :: items => sp ++ spelling l ++ items_text items tail
  end.

Definition line_text (l : lex_line) : cstr := items_text l.1 l.2.

Definition blank (c : ascii) : bool := isspace c && negb (c =c "013"%char).

Fixpoint items_ok (items : list (cstr * lexeme)) (tail : cstr) : bool :=
  match items with
  | [] => forallb blank tail
  | (sp, l) :: items =>
      forallb blank sp && lexeme_ok l && stops l (cur (items_text items tail)) && items_ok items tail
  end.

Definition line_ok (l : lex_line) : bool :=
  items_ok l.1 l.2 && (Z.of_nat (length (line_text l)) <? 2 ^ 32).

(** A token as it was seen: its word or value, and where it was. *)
Record seen : Type := mk_seen {
  seen_token : token; seen_word : option cstr; seen_value : option numeric; seen_line : Z; seen_col : Z }.

Definition view s : seen :=
  mk_seen (curtok s)
    (if bool_decide (curtok s = token_identifier) then currentspelling s else None)
    (if bool_decide (curtok s = token_integer) then Some (currentval s) else None)
    (line (loc_tok (rd s))) (col (loc_tok (rd s))).

Definition see (l : lexeme) (n k : Z) : seen :=
  mk_seen (token_of l)
    (match l with
     | Word w => if bool_decide (token_of l = token_identifier) then Some w else None
     | _ => None end)
    (match l with Int mode _ ds x => Some (value_of mode ds x) | _ => None end) n k.

Fixpoint see_items (n k : Z) (items : list (cstr * lexeme)) : list seen :=
  match items with
  | [] => []
  | (sp, l) :: items =>
      let k := k + Z.of_nat (length sp) in
      see l n k :: see_items n (k + Z.of_nat (length (spelling l))) items
  end.

Fixpoint see_lines (n : Z) (ls : list lex_line) : list seen :=
  match ls with
  | [] => []
  | l :: ls => see_items n 0 l.1 ++ see_lines (n + 1) ls
  end.

(** The tokens from the current one to the end. *)
Fixpoint collect (n fuel : nat) s : res (list seen) :=
  match n with
  | O => NoFuel
  | S n =>
      if bool_decide (curtok s = token_eof) then Ok []
      else s' ← nexttoken keyword_mode junk fuel s; rest ← collect n fuel s'; Ok (view s :: rest)
  end.

(** ** Every character read uses one up *)

Definition left_in (ls : list cstr) : nat := list_sum (map (fun l => S (length l)) ls).

Lemma read_line_shrinks (ls : list cstr) r r' (l : option cstr) :
  read_line_loop ls r = Ok (r', l) ->
  match l with
  | None => buffereof r' = true
  | Some l => buffereof r' = false /\ (length l + left_in (input r') < left_in ls)%nat
  end.
Proof.
  revert r; induction ls as [|x ls IH]; intros r; simpl.
  - by intros [= <- <-].
  - destruct (negb (in_comment r) && _).
    + intros (r1 & Hr1 & Hr)%bind_Ok. apply IH in Hr. destruct l; [|done].
      destruct Hr as [? Hr]. split; [done|]. unfold left_in in *. simpl. lia.
    + intros [= <- <-]. simpl. split; [done|]. unfold left_in, next_line. rewrite length_map. simpl. lia.
Qed.

Lemma next_line_shrinks r r' :
  tokenise_next_line r = Ok r' -> buffereof r' = false -> (pending r' < left_in (input r))%nat.
Proof.
  unfold tokenise_next_line, tokenise_read_line. destruct (buffereof r) eqn:He.
  - run. intros [= <-]. simpl. congruence.
  - intros ([r1 l] & Hl & Hr)%bind_Ok He'. apply read_line_shrinks in Hl.
    injection Hr as <-. simpl in He'. destruct l as [l|]; [|congruence].
    unfold pending. simpl. fold (left_in (input r1)). lia.
Qed.

Lemma pending_eq r : pending r = (length (default [] (bufferpos r)) + left_in (input r))%nat.
Proof. done. Qed.

Lemma raw_loop_shrinks (n : nat) r r' (c : ascii) :
  raw_loop n r = Ok (r', c) -> c = EOF \/ (pending r' < pending r)%nat.
Proof.
  revert r; induction n as [|n IH]; intros r; simpl; [done|].
  destruct (bufferpos r) as [[|d p]|] eqn:Hp.
  2: { intros [= <- <-]. right. rewrite !pending_eq, Hp. simpl. lia. }
  all: intros (r1 & Hr1 & Hr)%bind_Ok; destruct (buffereof r1) eqn:He; [injection Hr as _ <-; by left|].
  all: apply IH in Hr; pose proof (next_line_shrinks _ _ Hr1 He); rewrite (pending_eq r); destruct Hr; [by left|right; lia].
Qed.

Lemma next_loop_fuel (m m' : nat) r :
  (pending r < m)%nat -> (pending r < m')%nat -> next_loop m r = next_loop m' r.
Proof.
  revert r m'; induction m as [|m IH]; intros r [|m'] Hm Hm'; try lia. simpl.
  destruct (rawnextchar r) as [[r1 c]| | | |] eqn:Hr; try done. run.
  destruct (isspace c) eqn:Hc; [|done]. unfold rawnextchar in Hr. destruct (buffereof r).
  - by injection Hr as <- <-.
  - apply raw_loop_shrinks in Hr as [->|Hr]; [done|]. apply IH; lia.
Qed.

Lemma nextchar_same r r' :
  (pending r' <= pending r)%nat -> rawnextchar r = rawnextchar r' -> nextchar r = nextchar r'.
Proof.
  intros Hp Hr. unfold nextchar. rewrite (next_loop_fuel (S (pending r')) (S (pending r)) r') by lia.
  cbn [next_loop]. by rewrite Hr.
Qed.

Lemma nextchar_space r (c : ascii) p :
  on r (c :: p) -> isspace c = true -> nextchar r = nextchar (update_bufferpos r p).
Proof.
  intros Hr Hc. unfold nextchar at 1. cbn [next_loop]. rewrite (raw_on r c p Hr). run. rewrite Hc.
  unfold nextchar. apply next_loop_fuel; [|lia].
  destruct Hr as [Hr _]. rewrite !pending_eq, Hr. simpl. lia.
Qed.

Lemma nextchar_spaces r (sp : cstr) p :
  on r (sp ++ p) -> forallb isspace sp = true -> nextchar r = nextchar (update_bufferpos r p).
Proof.
  revert r; induction sp as [|c sp IH]; intros r Hr Hs.
  - by rewrite (update_here r p Hr).
  - simpl in Hs. apply andb_true_iff in Hs as [Hc Hs]. rewrite (nextchar_space r c (sp ++ p)) by done.
    rewrite IH by (try done; by eapply on_update). by rewrite update_update.
Qed.

(** ** Line ends *)

Definition eol r : Prop := default [] (bufferpos r) = [] /\ buffereof r = false.

(** [r] is at [p] on line [n], column [k], with the lines [ls] to come. *)
Record at_ r (n k : Z) p (ls : list cstr) : Prop := mk_at {
  at_on : on r p;
  at_input : input r = ls;
  at_ungetch : ungetch r = EOF;
  at_comment : in_comment r = false;
  at_now : loc_now r = mk_loc n k;
  at_tok : line (loc_tok r) = n
}.

Lemma raw_newline r (l : cstr) (ls : list cstr) :
  eol r -> input r = l :: ls -> in_comment r = false -> next_line l = l -> (cur l =c "#"%char) = false ->
  ungetch r = EOF ->
  exists r', at_ r' (u32 (line (loc_now r) + 1)) 0 l ls /\ rawnextchar r = rawnextchar r' /\
    (pending r' < pending r)%nat.
Proof.
  intros [Hp He] Hi Hc Hl Hh Hu.
  assert (exists r', tokenise_next_line r = Ok r') as [r' Hraw].
  { unfold tokenise_next_line, tokenise_read_line. rewrite He, Hi. cbn [read_line_loop].
    rewrite Hl, Hc, Hh. eexists. reflexivity. }
  pose proof Hraw as Hn. unfold tokenise_next_line, tokenise_read_line in Hn.
  rewrite He, Hi in Hn. cbn [read_line_loop] in Hn. rewrite Hl, Hc, Hh in Hn. simpl in Hn.
  exists r'. injection Hn as Hn.
  assert (Hat : at_ r' (u32 (line (loc_now r) + 1)) 0 l ls).
  { subst r'. by split. }
  split; [done|]. split.
  - unfold rawnextchar. rewrite He. cbn [raw_loop].
    rewrite Hraw. run. destruct (at_on _ _ _ _ _ Hat) as (_ & He' & _). rewrite He', Hi, (at_input _ _ _ _ _ Hat).
    by destruct (bufferpos r) as [[|? ?]|].
  - rewrite !pending_eq, Hp, Hi. subst r'. unfold left_in. simpl. lia.
Qed.

Lemma nextchar_newline r (l : cstr) (ls : list cstr) :
  eol r -> input r = l :: ls -> in_comment r = false -> next_line l = l -> (cur l =c "#"%char) = false ->
  ungetch r = EOF ->
  exists r', at_ r' (u32 (line (loc_now r) + 1)) 0 l ls /\ nextchar r = nextchar r'.
Proof.
  intros. destruct (raw_newline r l ls) as (r' & Hat & Hr & Hp); try done. exists r'. split; [done|].
  apply nextchar_same; [lia|done].
Qed.

Lemma nextchar_end r : eol r -> input r = [] -> nextchar r = Ok (set_pos (set_input r [] true) None, EOF).
Proof.
  intros [Hp He] Hi. unfold nextchar. cbn [next_loop].
  assert (Hr : rawnextchar r = Ok (set_pos (set_input r [] true) None, EOF)).
  { unfold rawnextchar. rewrite He, Hi. simpl. unfold tokenise_next_line, tokenise_read_line.
    rewrite He, Hi. simpl. by destruct (bufferpos r) as [[|? ?]|]. }
  rewrite Hr. done.
Qed.

(** ** The tokens of a file *)

Lemma table_tokens :
  Forall (fun e => e.2 <> token_eof /\ e.2 <> token_string /\ e.2 <> token_identifier /\ e.2 <> token_integer)
    punctuators /\
  Forall (fun e => e.1.2 <> token_eof /\ e.1.2 <> token_string /\ e.1.2 <> token_identifier
                   /\ e.1.2 <> token_integer) keywords.
Proof. split; by_decide. Qed.

Lemma keyword_find_in (tbl : list (string * token * Z)) (m : Z) (w : cstr) (t : token) :
  keyword_find tbl m w = Some t -> exists x mode, (x, t, mode) ∈ tbl.
Proof.
  induction tbl as [|[[x u] mode] tbl IH]; simpl; [done|].
  destruct (negb _ && _).
  - intros [= ->]. exists x, mode. by left.
  - intros (y & m' & Hin)%IH. exists y, m'. by right.
Qed.

Lemma token_of_word (w : cstr) :
  token_of (Word w) <> token_eof /\ token_of (Word w) <> token_string /\ token_of (Word w) <> token_integer /\
  (token_of (Word w) = token_identifier <-> keyword_find keywords keyword_mode w = None).
Proof.
  unfold token_of. destruct (keyword_find keywords keyword_mode w) as [t|] eqn:Hk; simpl.
  - apply keyword_find_in in Hk as (x & mode & Hin).
    destruct (proj1 (Forall_forall _ _) (proj2 table_tokens) _ Hin) as (H1 & H2 & H3 & H4). simpl in *.
    split_and!; try done.
  - split_and!; done.
Qed.

Lemma token_of_punct (x : string) :
  lexeme_ok (Punct x) = true ->
  token_of (Punct x) <> token_eof /\ token_of (Punct x) <> token_string /\
  token_of (Punct x) <> token_identifier /\ token_of (Punct x) <> token_integer.
Proof.
  intros [t Ht]%bool_decide_eq_true. unfold token_of. rewrite Ht. simpl.
  exact (proj1 (Forall_forall _ _) (proj1 table_tokens) _ (assoc_in _ _ _ Ht)).
Qed.

Lemma shown_tok (l : lexeme) s :
  lexeme_ok l = true ->
  curtok (shown l s) = token_of l /\ token_of l <> token_eof /\ token_of l <> token_string /\ rd (shown l s) = rd s
  /\ curtok_save (shown l s) = curtok_save s.
Proof.
  intros Hok. destruct l as [w|mode upper ds x|x].
  - destruct (token_of_word w) as (H1 & H2 & _). split_and!; try done; unfold shown; by destruct (bool_decide _).
  - done.
  - by destruct (token_of_punct x Hok) as (H1 & H2 & _).
Qed.

Lemma view_shown (l : lexeme) s :
  lexeme_ok l = true -> view (shown l s) = see l (line (loc_tok (rd s))) (col (loc_tok (rd s))).
Proof.
  intros Hok. destruct l as [w|mode upper ds x|x]; unfold view, see.
  - destruct (token_of_word w) as (_ & _ & H3 & H4).
    destruct (shown_tok (Word w) s Hok) as (-> & _ & _ & -> & _).
    rewrite (bool_decide_eq_false_2 (token_of (Word w) = token_integer)) by done. f_equal.
    case_bool_decide as Hi; [|done]. unfold shown. by rewrite bool_decide_eq_true_2 by tauto.
  - done.
  - destruct (token_of_punct x Hok) as (_ & _ & H3 & H4).
    destruct (shown_tok (Punct x) s Hok) as (-> & _ & _ & -> & _).
    by rewrite !bool_decide_eq_false_2 by done.
Qed.

Lemma blank_spaces (sp : cstr) : forallb blank sp = true -> forallb isspace sp = true.
Proof.
  intros Hs. apply forallb_forall. intros c Hc. pose proof (proj1 (forallb_forall _ _) Hs c Hc) as Hb.
  unfold blank in Hb. by apply andb_true_iff in Hb as [-> _].
Qed.

(** The first character of a lexeme. *)
Lemma spelling_start (l : lexeme) :
  lexeme_ok l = true ->
  exists c p, spelling l = c :: p /\ isspace c = false /\ (c =c EOF) = false /\ (c =c "#"%char) = false.
Proof.
  destruct l as [w|mode upper ds x|x]; intros Hok.
  - cbn [lexeme_ok] in Hok. apply andb_true_iff in Hok as [[Hc _]%andb_true_iff _].
    destruct w as [|c w]; [done|]. destruct (word_start_facts c Hc) as (_ & _ & H3 & H4 & H5).
    exists c, w. done.
  - cbn [lexeme_ok] in Hok. apply andb_true_iff in Hok as [[Hds _]%andb_true_iff _]. cbn [spelling].
    destruct (int_spelling mode upper ds x) as [|c p] eqn:E.
    { unfold int_spelling in E. unfold digits_ok in Hds. apply andb_true_iff in Hds as [_ Hds].
      destruct mode, upper; try done; by destruct ds. }
    pose proof (first_digit _ _ _ _ _ _ Hds E) as Hd. exists c, p. split; [done|].
    pose proof (ascii_forall_dec (fun c => negb (isdigit c) ||
      negb (isspace c || (c =c EOF) || (c =c "#"))) eq_refl c) as Hx.
    cbv beta in Hx. rewrite Hd in Hx. apply negb_true_iff in Hx.
    by apply orb_false_iff in Hx as [[-> ->]%orb_false_iff ->].
  - apply bool_decide_eq_true in Hok as [t Ht]. cbn [spelling].
    assert (Hall : Forall (fun e => match str e.1 with
                                    | c :: _ => negb (isspace c || (c =c EOF) || (c =c "#"%char))
                                    | [] => false end = true) punctuators) by by_decide.
    pose proof (proj1 (Forall_forall _ _) Hall _ (assoc_in _ _ _ Ht)) as Hx. cbn [fst] in Hx.
    destruct (str x) as [|c p]; [done|]. exists c, p. split; [done|]. apply negb_true_iff in Hx.
    by apply orb_false_iff in Hx as [[-> ->]%orb_false_iff ->].
Qed.

(** [next_line] changes nothing in the text of a line. *)
Lemma plain_text (c : ascii) : blank c || negb (isspace c) = true -> (c =c "013"%char) = false.
Proof.
  intros Hc. pose proof (ascii_forall_dec (fun c => negb (blank c || negb (isspace c)) ||
    negb (c =c "013")) eq_refl c) as Hd.
  cbv beta in Hd. rewrite Hc in Hd. by apply negb_true_iff in Hd.
Qed.

Lemma spelling_plain (l : lexeme) : lexeme_ok l = true -> forallb (fun c => negb (isspace c)) (spelling l) = true.
Proof.
  assert (Hsub : forall (P : ascii -> bool) (x : cstr),
    forallb (fun c => negb (P c) || negb (isspace c)) (map ascii_of_nat (seq 0 256)) = true ->
    forallb P x = true -> forallb (fun c => negb (isspace c)) x = true).
  { intros P x Hall Hx. apply forallb_forall. intros c Hc.
    pose proof (ascii_forall_dec _ Hall c) as Hd. cbv beta in Hd.
    by rewrite (proj1 (forallb_forall _ _) Hx c Hc) in Hd. }
  destruct l as [w|mode upper ds x|x]; intros Hok; cbn [lexeme_ok spelling] in *.
  - apply andb_true_iff in Hok as [[_ Hw]%andb_true_iff _]. by apply (Hsub iswordpart).
  - apply andb_true_iff in Hok as [[Hds [bits Hx]%bool_decide_eq_true]%andb_true_iff _].
    apply andb_true_iff in Hds as [Hds _]. unfold int_spelling. rewrite !forallb_app.
    rewrite (Hsub (digit_of mode) ds) by (try done; by destruct mode).
    assert (Hall : Forall (fun e => forallb (fun c => negb (isspace c)) (str e.1) = true) int_suffixes)
      by by_decide.
    pose proof (proj1 (Forall_forall _ _) Hall _ (assoc_in _ _ _ Hx)) as Hs. cbn [fst] in Hs. rewrite Hs.
    by destruct mode, upper.
  - apply bool_decide_eq_true in Hok as [t Ht].
    assert (Hall : Forall (fun e => forallb (fun c => negb (isspace c)) (str e.1) = true) punctuators)
      by by_decide.
    exact (proj1 (Forall_forall _ _) Hall _ (assoc_in _ _ _ Ht)).
Qed.

Lemma text_plain (items : list (cstr * lexeme)) (tail : cstr) :
  items_ok items tail = true -> next_line (items_text items tail) = items_text items tail /\
  (cur (items_text items tail) =c "#"%char) = false.
Proof.
  assert (Hmap : forall x : cstr, forallb (fun c => blank c || negb (isspace c)) x = true -> next_line x = x).
  { intros x Hx. unfold next_line. induction x as [|c x IH]; [done|].
    simpl in *. apply andb_true_iff in Hx as [Hc Hx]. by rewrite (plain_text c Hc), (IH Hx). }
  assert (Hblank : forall x : cstr, forallb blank x = true -> next_line x = x).
  { intros x Hx. apply Hmap. apply forallb_forall. intros c Hc. by rewrite (proj1 (forallb_forall _ _) Hx c Hc). }
  assert (Hhash : forall c, blank c = true -> (c =c "#"%char) = false).
  { intros c Hc. apply andb_true_iff in Hc as [Hc _]. apply eqc_false. by intros ->. }
  induction items as [|[sp l] items IH]; simpl; intros Hok.
  - split; [by apply Hblank|]. destruct tail as [|c tail]; [done|]. simpl in *.
    apply andb_true_iff in Hok as [Hc _]. by apply Hhash.
  - apply andb_true_iff in Hok as [[[Hsp Hl]%andb_true_iff _]%andb_true_iff Hok].
    destruct (IH Hok) as [IHn _]. split.
    + unfold next_line in *. rewrite !map_app, IHn. f_equal; [by apply Hblank|]. f_equal. apply Hmap.
      apply forallb_forall. intros c Hc.
      by rewrite (proj1 (forallb_forall _ _) (spelling_plain l Hl) c Hc), orb_true_r.
    + destruct sp as [|c sp]; simpl in *.
      * destruct (spelling_start l Hl) as (c & p & -> & _ & _ & Hc). done.
      * apply andb_true_iff in Hsp as [Hc _]. by apply Hhash.
Qed.

Lemma at_update r n k p q ls :
  at_ r n k (p ++ q) ls -> 0 <= k -> k + Z.of_nat (length p) < 2 ^ 32 ->
  at_ (update_bufferpos r q) n (k + Z.of_nat (length p)) q ls.
Proof.
  intros [Hon Hi Hu Hc Hn Ht] Hk Hb. split; try done.
  - by eapply on_update.
  - unfold update_bufferpos, advance, set_now, set_pos. simpl. rewrite Hn, (proj1 Hon). cbn [line col default].
    unfold id. rewrite length_app, wrapu_id by (unfold is_u; lia). f_equal. lia.
Qed.

Lemma set_ungetch_same r : ungetch r = EOF -> set_ungetch r EOF = r.
Proof. destruct r. simpl. by intros ->. Qed.

(** [nexttoken] when the last token was not a string and nothing was pushed
    back. *)
Lemma nexttoken_eq (f : nat) s :
  curtok s <> token_string -> ungetch (rd s) = EOF -> buffereof (rd s) = false ->
  nexttoken keyword_mode junk (S f) s =
    '(r, c) ← nextchar (rd s);
    let r := set_tok_loc r (mk_loc (line (loc_tok r)) (u32 (col (loc_now r) - 1))) in
    if c =c EOF then Ok (set_tok (set_rd s r) token_eof)
    else token_from keyword_mode junk (nexttoken keyword_mode junk f) f s r c.
Proof.
  intros Ht Hu He. cbn [nexttoken]. rewrite (bool_decide_eq_false_2 _ Ht), He, Hu.
  rewrite (set_ungetch_same _ Hu). change (EOF =c EOF) with true. cbv iota.
  by destruct (nextchar (rd s)) as [[r c]| | | |].
Qed.

Lemma next_lexeme (f : nat) s n k (sp : cstr) (l : lexeme) q ls :
  at_ (rd s) n k (sp ++ spelling l ++ q) ls -> forallb blank sp = true -> lexeme_ok l = true ->
  stops l (cur q) = true -> curtok s <> token_string -> 0 <= k ->
  k + Z.of_nat (length sp) + Z.of_nat (length (spelling l)) < 2 ^ 32 ->
  exists s', nexttoken keyword_mode junk (S f) s = Ok s' /\
    at_ (rd s') n (k + Z.of_nat (length sp) + Z.of_nat (length (spelling l))) q ls /\
    view s' = see l n (k + Z.of_nat (length sp)) /\
    curtok s' <> token_eof /\ curtok s' <> token_string /\ curtok_save s' = curtok_save s.
Proof.
  intros Hat Hsp Hl Hq Ht Hk Hb. pose proof Hat as [Hon Hi Hu Hc Hn Htl].
  destruct (spelling_start l Hl) as (c & p & E & H1 & H2 & _). rewrite E in *.
  rewrite nexttoken_eq by (try done; apply Hon).
  rewrite (next_on _ sp c (p ++ q) Hon (blank_spaces _ Hsp) H1). run. rewrite H2.
  set (r := update_bufferpos (rd s) (p ++ q)).
  assert (Hr : at_ r n (k + Z.of_nat (length sp) + 1) (p ++ q) ls).
  { assert (Hat' : at_ (rd s) n k ((sp ++ [c]) ++ (p ++ q)) ls) by (by rewrite <- app_assoc).
    pose proof (at_update _ _ _ _ _ _ Hat' Hk) as Hx. rewrite length_app in Hx. cbn [length] in Hx, Hb.
    replace (k + Z.of_nat (length sp) + 1) with (k + Z.of_nat (length sp + 1)) by lia. apply Hx. lia. }
  pose proof Hr as [Hon' _ _ _ Hn' Htl'].
  rewrite Hn', Htl'. cbn [col].
  replace (u32 (k + Z.of_nat (length sp) + 1 - 1)) with (k + Z.of_nat (length sp))
    by (cbn [length] in Hb; rewrite wrapu_id by (unfold is_u; lia); lia).
  set (r1 := set_tok_loc r _).
  assert (Hr1 : at_ r1 n (k + Z.of_nat (length sp) + 1) (p ++ q) ls) by (destruct Hr; by split).
  rewrite (lexeme_from _ f s r1 c p q l Hl E Hq (at_on _ _ _ _ _ Hr1)).
  eexists; split; [done|]. destruct (shown_tok l (set_rd s (update_bufferpos r1 q)) Hl) as (Hct & Hne & Hns & Hrd & Hsv).
  rewrite Hct, Hrd, Hsv, view_shown by done. split; [|done].
  replace (k + Z.of_nat (length sp) + Z.of_nat (length (c :: p)))
    with (k + Z.of_nat (length sp) + 1 + Z.of_nat (length p)) by (cbn [length]; lia).
  apply at_update; [done|lia|cbn [length] in Hb; lia].
Qed.

Definition lexemes (ls : list lex_line) : nat := list_sum (map (fun l => length l.1) ls).

(** The lexer holds these tokens up to the end of the file, with [save] pushed
    back; taking a token does not depend on the last word's spelling. *)
Fixpoint holds (f : nat) (save : token) s (xs : list seen) : Prop :=
  curtok_save s = save /\
  match xs with
  | [] => curtok s = token_eof
  | x :: xs =>
      view s = x /\ curtok s <> token_eof
      /\ forall sp, exists s', nexttoken keyword_mode junk (S f) (set_spelling s sp) = Ok s' /\ holds f save s' xs
  end.

(** What is still to be shown of a position: the rest of the line and the lines
    after it are read. *)
Definition reads_on (f : nat) (items : list (cstr * lexeme)) (tail : cstr) (ls : list lex_line) : Prop :=
  forall s n k,
    at_ (rd s) n k (items_text items tail) (map line_text ls) -> items_ok items tail = true ->
    forallb line_ok ls = true -> curtok s <> token_string -> 0 <= k ->
    k + Z.of_nat (length (items_text items tail)) < 2 ^ 32 -> 0 <= n -> n + Z.of_nat (length ls) < 2 ^ 32 ->
    exists s', nexttoken keyword_mode junk (S f) s = Ok s' /\
      holds f (curtok_save s) s' (see_items n k items ++ see_lines (n + 1) ls).

Lemma reads_item (f : nat) (sp : cstr) (l : lexeme) items tail ls :
  reads_on f items tail ls -> reads_on f ((sp, l) :: items) tail ls.
Proof.
  intros IH s n k Hat Hok Hls Ht Hk Hlen Hn Hnl.
  cbn [items_text items_ok] in Hat, Hok, Hlen.
  apply andb_true_iff in Hok as [[[Hsp Hl]%andb_true_iff Hstop]%andb_true_iff Hok].
  rewrite !length_app in Hlen.
  destruct (next_lexeme f s n k sp l _ _ Hat Hsp Hl Hstop Ht Hk ltac:(clear - Hlen; lia))
    as (s1 & Hs1 & Hat1 & Hview & Hne & Hns & Hsv).
  exists s1; split; [exact Hs1|]. cbn [see_items app holds]. split; [done|]. split; [done|]. split; [done|].
  intros x. destruct (IH (set_spelling s1 x) n _ Hat1 Hok Hls Hns ltac:(clear - Hk; lia) ltac:(clear - Hlen; lia) Hn Hnl)
    as (s2 & Hs2 & Hc2).
  exists s2. split; [exact Hs2|]. rewrite <- Hsv. exact Hc2.
Qed.

Lemma at_eol r n k (tail : cstr) ls :
  at_ r n k tail ls -> forallb blank tail = true ->
  nextchar r = nextchar (update_bufferpos r []) /\ eol (update_bufferpos r []) /\
  input (update_bufferpos r []) = ls /\ in_comment (update_bufferpos r []) = false /\
  ungetch (update_bufferpos r []) = EOF /\ line (loc_now (update_bufferpos r [])) = n.
Proof.
  intros [Hon Hi Hu Hc Hn Ht] Hb. split.
  - apply (nextchar_spaces r tail []); [by rewrite app_nil_r|by apply blank_spaces].
  - unfold eol. simpl. rewrite Hn. split_and!; try done. apply Hon.
Qed.

Lemma reads_end (f : nat) (tail : cstr) : reads_on f [] tail [].
Proof.
  intros s n k Hat Hok _ Ht _ _ _ _. cbn [items_text items_ok] in Hat, Hok.
  destruct (at_eol _ _ _ _ _ Hat Hok) as (Hnext & He & Hi & _). cbn [map] in Hi.
  rewrite nexttoken_eq by (try done; apply Hat). rewrite Hnext, (nextchar_end _ He Hi). run.
  change (EOF =c EOF) with true. cbv iota. eexists; split; [reflexivity|]. by split.
Qed.

Lemma reads_newline (f : nat) (tail : cstr) (l : lex_line) (ls : list lex_line) :
  reads_on f l.1 l.2 ls -> reads_on f [] tail (l :: ls).
Proof.
  intros IH s n k Hat Hok Hls Ht Hk _ Hn Hnl. cbn [items_text items_ok] in Hat, Hok.
  cbn [forallb] in Hls. apply andb_true_iff in Hls as [[Hl Hlen%Z.ltb_lt]%andb_true_iff Hls].
  destruct (at_eol _ _ _ _ _ Hat Hok) as (Hnext & He & Hi & Hc & Hu & Hline). cbn [map] in Hi.
  destruct (text_plain _ _ Hl) as [Hplain Hhash].
  destruct (nextchar_newline _ _ _ He Hi Hc Hplain Hhash Hu) as (r1 & Hat1 & Hnext1).
  rewrite Hline, wrapu_id in Hat1 by (unfold is_u; clear - Hn Hnl; cbn [length] in Hnl; lia).
  destruct (IH (set_rd s r1) (n + 1) 0 Hat1 Hl Hls Ht ltac:(done) Hlen ltac:(clear - Hn; lia)
    ltac:(clear - Hnl; cbn [length] in Hnl; lia)) as (s' & Hs' & Hcol).
  exists s'. split; [|exact Hcol]. rewrite <- Hs', !nexttoken_eq by (try done; apply Hat || apply Hat1).
  cbn [rd set_rd]. by rewrite Hnext, Hnext1.
Qed.

Lemma reads_lines (f : nat) (items : list (cstr * lexeme)) (tail : cstr) (ls : list lex_line) :
  reads_on f items tail ls.
Proof.
  revert items tail. induction ls as [|l ls IHls]; intros items tail;
    induction items as [|[sp x] items IH]; auto using reads_item, reads_end.
  by apply reads_newline.
Qed.

(** The tokens held, one by one. *)
Lemma holds_collect (f : nat) (save : token) s (xs : list seen) :
  holds f save s xs -> collect (S (length xs)) (S f) s = Ok xs.
Proof.
  revert s. induction xs as [|x xs IH]; intros s [_ H2]; cbn [collect length].
  - by rewrite bool_decide_eq_true_2.
  - destruct H2 as (Hv & Hne & Hn). destruct (Hn (currentspelling s)) as (s' & Hs' & H3).
    replace (set_spelling s (currentspelling s)) with s in Hs' by (by destruct s).
    rewrite bool_decide_eq_false_2, Hs' by done. run. cbn [collect] in IH. rewrite (IH _ H3). run. by rewrite Hv.
Qed.

Lemma see_length (n : Z) (ls : list lex_line) : length (see_lines n ls) = lexemes ls.
Proof.
  assert (Hi : forall m items k, length (see_items m k items) = length items).
  { intros m items. induction items as [|[sp l] items IH]; intros k; simpl; [done|by rewrite IH]. }
  revert n. induction ls as [|l ls IH]; intros n; [done|].
  unfold lexemes in *. simpl. by rewrite length_app, Hi, IH.
Qed.

(** Reading a file, the lexer holds its lexemes. *)
Lemma file_holds (f : nat) (track : bool) (ls : list lex_line) (nam : cstr) s :
  bufferpos (rd s) = None -> ungetch (rd s) = EOF -> in_comment (rd s) = false -> curtok s <> token_string ->
  forallb line_ok ls = true -> Z.of_nat (length ls) < 2 ^ 32 ->
  exists s', tokenise_set_input keyword_mode junk (S f) track (map line_text ls) nam s = Ok s'
             /\ holds f (curtok_save s) s' (see_lines 1 ls).
Proof.
  intros Hp Hu Hc Ht Hls Hn. unfold tokenise_set_input.
  set (s0 := mk_lexer _ _ _ _ _ _ _ _ _).
  assert (eol (rd s0)) as He by (unfold eol; simpl; by rewrite Hp).
  assert (Hu0 : ungetch (rd s0) = EOF) by done. assert (Hc0 : in_comment (rd s0) = false) by done.
  destruct ls as [|l ls].
  - rewrite nexttoken_eq by done. rewrite (nextchar_end _ He) by done. run.
    change (EOF =c EOF) with true. cbv iota. eexists. split; [reflexivity|]. by split.
  - cbn [forallb] in Hls. apply andb_true_iff in Hls as [[Hl Hlen%Z.ltb_lt]%andb_true_iff Hls].
    destruct (text_plain _ _ Hl) as [Hplain Hhash].
    destruct (nextchar_newline (rd s0) _ _ He eq_refl Hc0 Hplain Hhash Hu0) as (r1 & Hat1 & Hnext1).
    destruct (reads_lines f l.1 l.2 ls (set_rd s0 r1) 1 0 Hat1 Hl Hls Ht
      ltac:(done) Hlen ltac:(done) ltac:(clear - Hn; cbn [length] in Hn; lia)) as (s' & Hs' & Hcol).
    assert (nexttoken keyword_mode junk (S f) s0 = nexttoken keyword_mode junk (S f) (set_rd s0 r1)) as ->
      by (rewrite !nexttoken_eq by (try done; apply Hat1); by rewrite Hnext1).
    exists s'. split; [exact Hs'|exact Hcol].
Qed.

(** C19: reading a file and taking its tokens one by one gives, for lines of
    words, integer literals and punctuators with white space where two of them
    would read as one, those lexemes in order: each with its keyword or its
    spelling, its value and suffixes, and the line and column it starts at; then
    the end of the file. *)
Theorem tokens_of_file (fuel : nat) (track : bool) (ls : list lex_line) (nam : cstr) s :
  bufferpos (rd s) = None -> ungetch (rd s) = EOF -> in_comment (rd s) = false -> curtok s <> token_string ->
  forallb line_ok ls = true -> Z.of_nat (length ls) < 2 ^ 32 -> (0 < fuel)%nat ->
  (s' ← tokenise_set_input keyword_mode junk fuel track (map line_text ls) nam s;
   collect (S (lexemes ls)) fuel s') = Ok (see_lines 1 ls).
Proof.
  intros Hp Hu Hc Ht Hls Hn Hf. destruct fuel as [|f]; [lia|].
  destruct (file_holds f track ls nam s Hp Hu Hc Ht Hls Hn) as (s' & Hs' & Hh). rewrite Hs'. run.
  rewrite <- (see_length 1). exact (holds_collect _ _ _ _ Hh).
Qed.

End lexing.

(** ** Witnesses and examples *)

(** A lexer before its first file. *)
Definition lexer0 `{Floats} : lexer :=
  mk_lexer (mk_reader [] false None EOF false (mk_loc 0 0) (mk_loc 0 0) (mk_files [] None false None) None false)
    token_do token_unknown false None (mk_numeric (VI 0) 0) None None 16.

(** A host whose numbers are their texts. *)
#[local] Instance text_floats : Floats :=
  mk_floats cstr (fun s => let e := skip_while (fun c => isalnum c || (c =c "."%char)) s in
                           (take (length s - length e) s, e))
    (fun _ => []) (fun f _ => f) (fun f => f) (fun f => f).

(** The tokens of a file and whether an error was reported. *)
Definition lex_file (fuel n : nat) (lines : list cstr) : res (list token) :=
  s ← tokenise_set_input KW_ALL 0 fuel true lines (str "a.c") lexer0;
  l ← collect KW_ALL 0 n fuel s;
  Ok (map seen_token l).

Definition sample_lines : list lex_line := [
  ([([], Word (str "int")); ([" "]%char, Word (str "x")); ([], Punct "=");
    ([], Int HEX true (str "Ff") "uLL"); ([], Punct ">>="); (["009"]%char, Int OCT false [] "");
    ([], Punct ";")], [" "]%char);
  ([], [" "; "012"]%char);
  ([([" "; " "]%char, Word (str "L_1")); ([], Punct "..."); ([], Punct "+"); ([" "]%char, Punct "++")], []) ].

Lemma tokens_of_file_witness :
  (s ← tokenise_set_input KW_ALL 0 1 true (map line_text sample_lines) (str "a.c") lexer0;
   collect KW_ALL 0 12 1 s) = Ok (see_lines KW_ALL 1 sample_lines).
Proof.
  refine (tokens_of_file KW_ALL 0 1 true sample_lines (str "a.c") lexer0 _ _ _ _ _ _ _).
  - reflexivity.
  - reflexivity.
  - reflexivity.
  - discriminate.
  - vm_compute. reflexivity.
  - vm_compute. reflexivity.
  - lia.
Defined.

(** [/*/] is a whole comment: the star is used twice. *)
Example comment_slash :
  lex_file 20 20 [str "a /*/ b"] = Ok [token_identifier; token_identifier].
Proof. vm_compute. reflexivity. Qed.

(** A byte 255 ends the file. *)
Example byte_255 : lex_file 20 20 [str "a " ++ [EOF] ++ str " b"; str "c"] = Ok [token_identifier].
Proof. vm_compute. reflexivity. Qed.

(** A quote that ends a line is stepped over past the end of the line. *)
Example quote_at_end : lex_file 20 20 [str "a" ++ [dquote]] = Ub "past the line".
Proof. vm_compute. reflexivity. Qed.

(** [0X1.8p3] trips an assertion that expects [0x]. *)
Example hex_float_upper : lex_file 20 20 [str "0X1.8p3"] = Ice "0x".
Proof. vm_compute. reflexivity. Qed.

(** [0x1P3] is not a floating literal, [0x1p3] is. *)
Example hex_float_exponent :
  lex_file 20 20 [str "0x1p3"] = Ok [token_floater] /\ lex_file 20 20 [str "0x1P3"] = Ok [token_integer].
Proof. split; vm_compute; reflexivity. Qed.

(** Two dots are one token. *)
Example two_dots : lex_file 20 20 [str "a..b"] = Ok [token_identifier; token_dot; token_identifier].
Proof. vm_compute. reflexivity. Qed.

(** The end of a file inside a comment is never noticed. *)
Lemma comment_spins (fuel : nat) (r : reader) : buffereof r = true -> bufferpos r = None -> comment_loop fuel r = NoFuel.
Proof.
  intros He Hp. induction fuel as [|fuel IH]; [done|]. cbn [comment_loop]. unfold rawnextchar. by rewrite He.
Qed.
