(* ===== verification/Labels.v ===== *)
(** * Looking for a label's colon

    [tok_at_label] of [Token] on lines of lexemes: it tells whether the next
    lexeme is a colon, and leaves a place in the text from where the same lexemes
    are read. *)

From S2P Require Import Prelude CStr Escape Libc StrLit Types Consts CppHas Token Lexing.
Open Scope Z_scope.

Definition all_lexemes (ls : list lex_line) : list lexeme := concat (map (fun l => map snd l.1) ls).

(** The characters of lines. *)
Definition text_size (ls : list lex_line) : Z := Z.of_nat (list_sum (map (fun l => length (line_text l)) ls)).

(** Lines whose numbers and columns fit their counters, whatever lines are taken
    together. *)
Definition small_text (ls : list lex_line) : Prop := Z.of_nat (length ls) + text_size ls < 2 ^ 32.

Lemma text_size_cons (l : lex_line) (ls : list lex_line) :
  text_size (l :: ls) = Z.of_nat (length (line_text l)) + text_size ls.
Proof. unfold text_size. simpl. lia. Qed.

Lemma text_size_nonneg (ls : list lex_line) : 0 <= text_size ls.
Proof. unfold text_size. lia. Qed.

Section labels.

Implicit Types (r : reader) (p q : cstr).

(** A place in a text: the rest of a line and the lines after it. *)
Record place : Type := mk_place { items : list (cstr * lexeme); tail : cstr; lines : list lex_line }.

Definition lexemes_at (x : place) : list lexeme := map snd (items x) ++ all_lexemes (lines x).

(** [r] is there, and nothing overflows from there on. *)
Definition stands r (x : place) : Prop :=
  exists n k, at_ r n k (items_text (items x) (tail x)) (map line_text (lines x))
    /\ items_ok (items x) (tail x) = true /\ forallb line_ok (lines x) = true
    /\ 0 <= n /\ n + Z.of_nat (length (lines x)) < 2 ^ 32
    /\ 0 <= k /\ k + Z.of_nat (length (items_text (items x) (tail x))) + text_size (lines x) < 2 ^ 32.

Lemma items_lexemes (its : list (cstr * lexeme)) (tl : cstr) :
  items_ok its tl = true -> forallb lexeme_ok (map snd its) = true.
Proof.
  induction its as [|[sp l] its IH]; [done|]. cbn [items_ok map snd forallb].
  intros [[[_ ->]%andb_true_iff _]%andb_true_iff Hok]%andb_true_iff. by apply IH.
Qed.

Lemma stands_lexemes r (x : place) : stands r x -> forallb lexeme_ok (lexemes_at x) = true.
Proof.
  intros (n & k & _ & Hok & Hls & _). unfold lexemes_at, all_lexemes. rewrite forallb_app.
  rewrite (items_lexemes _ _ Hok). induction (lines x) as [|l ls IH]; [done|]. cbn [forallb map concat] in *.
  apply andb_true_iff in Hls as [[Hl _]%andb_true_iff Hls]. rewrite forallb_app, (items_lexemes _ _ Hl). by apply IH.
Qed.

(** At the end of the text. *)
Definition stands_at_end r : Prop :=
  buffereof r = true /\ exists p, bufferpos r = Some p /\ forallb blank p = true.

Definition is_colon (ls : list lexeme) : bool :=
  match ls with Punct x :: _ => streq (str x) (str ":") | _ => false end.

Lemma blank_cur p : forallb blank p = true -> (cur p =c "#"%char) = false.
Proof.
  destruct p as [|c p]; [done|]. simpl. intros [Hc _]%andb_true_iff. unfold blank in Hc.
  apply andb_true_iff in Hc as [Hc _]. apply eqc_false. by intros ->.
Qed.

(** A lexeme begins with a colon when it is one. *)
Lemma colon_start (l : lexeme) (c : ascii) p :
  lexeme_ok l = true -> spelling l = c :: p ->
  (c =c ":"%char) = is_colon [l].
Proof.
  destruct l as [w|mode upper ds x|x]; intros Hok Hsp; cbn [is_colon].
  - cbn [lexeme_ok] in Hok. apply andb_true_iff in Hok as [[Hc _]%andb_true_iff _]. cbn [spelling] in Hsp. subst w.
    pose proof (ascii_forall_dec (fun c => negb (word_start c) || negb (c =c ":")) eq_refl c) as Hd. cbv beta in Hd.
    cbn [cur] in Hc. rewrite Hc in Hd. by apply negb_true_iff in Hd.
  - cbn [lexeme_ok] in Hok. apply andb_true_iff in Hok as [[Hds _]%andb_true_iff _].
    pose proof (first_digit _ _ _ _ _ _ Hds Hsp) as Hc.
    pose proof (ascii_forall_dec (fun c => negb (isdigit c) || negb (c =c ":")) eq_refl c) as Hd. cbv beta in Hd.
    rewrite Hc in Hd. by apply negb_true_iff in Hd.
  - apply bool_decide_eq_true in Hok as [t Ht]. cbn [spelling] in Hsp.
    assert (Hall : Forall (fun e => match str e.1 with
                                    | c :: _ => Bool.eqb (c =c ":"%char) (streq (str e.1) (str ":"))
                                    | [] => false end = true) punctuators) by by_decide.
    pose proof (proj1 (Forall_forall _ _) Hall _ (assoc_in _ _ _ Ht)) as Hx. cbn [fst] in Hx. rewrite Hsp in Hx |- *.
    by apply Bool.eqb_prop.
Qed.

(** Before a lexeme, on its line. *)
Lemma look_here (n : nat) r (x : place) :
  stands r x -> items x <> [] -> at_label_loop (S n) r = Ok (r, is_colon (lexemes_at x)).
Proof.
  intros (m & k & Hat & Hok & _) Hne. destruct x as [[|[sp l] its] tl ls]; [done|]. cbn [items tail lines] in *.
  cbn [items_text items_ok] in Hat, Hok.
  apply andb_true_iff in Hok as [[[Hsp Hl]%andb_true_iff _]%andb_true_iff _].
  destruct (spelling_start l Hl) as (c & p & E & H1 & _ & H3). rewrite E in Hat. cbn [at_label_loop].
  rewrite (pos_on _ _ (at_on _ _ _ _ _ Hat)). run.
  assert (Hc : (cur (sp ++ (c :: p) ++ items_text its tl) =c "#"%char) = false).
  { destruct sp as [|d sp]; [done|]. by apply (blank_cur (d :: sp)). }
  rewrite Hc. rewrite (skip_while_stop isspace sp) by (try (by apply blank_spaces); by right).
  unfold lexemes_at. cbn [items map snd app]. rewrite (colon_start l c p Hl E). by destruct l.
Qed.

(** At the end of a line: on to the next one. *)
Lemma look_on (n : nat) r (tl : cstr) (l : lex_line) (ls : list lex_line) :
  stands r (mk_place [] tl (l :: ls)) ->
  exists r', at_label_loop (S n) r = at_label_loop n r' /\ stands r' (mk_place l.1 l.2 ls).
Proof.
  intros (m & k & Hat & Hok & Hls & Hm & Hml & Hk & Hlen). cbn [items tail lines items_text items_ok] in *.
  cbn [forallb] in Hls. apply andb_true_iff in Hls as [[Hl _]%andb_true_iff Hls].
  destruct (text_plain _ _ Hl) as [Hplain Hhash]. pose proof Hat as [Hon Hi Hu Hc Hn Ht].
  pose proof (text_size_nonneg ls). rewrite text_size_cons in Hlen. unfold line_text in Hlen. cbn [length] in Hml.
  cbn [at_label_loop]. rewrite (pos_on _ _ Hon). run. rewrite (blank_cur tl Hok).
  pose proof (skip_while_stop isspace tl [] (blank_spaces _ Hok) (or_introl eq_refl)) as Hsk.
  rewrite app_nil_r in Hsk. rewrite Hsk. unfold tokenise_read_line. rewrite (proj1 (proj2 Hon)), Hi. cbn [map read_line_loop].
  unfold line_text at 1 2 3 4. rewrite Hplain, Hc, Hhash. cbn [negb andb mbind res_bind].
  eexists. split; [reflexivity|]. exists (m + 1), (Z.of_nat (length tl)). cbn [items tail lines].
  split_and!; [|done|done|lia|lia|lia|lia].
  assert (Hline : u32 (m + 1) = m + 1) by (apply wrapu_id; unfold is_u; lia).
  split; try done; simpl; rewrite Hn; simpl; [|by rewrite Hline, wrapu_id by (unfold is_u; lia); f_equal; lia|done].
  split_and!; [by unfold line_text; simpl; rewrite Hplain|done|apply u32_twice].
Qed.

(** At the end of the last line. *)
Lemma look_end (n : nat) r (tl : cstr) :
  stands r (mk_place [] tl []) -> exists r', at_label_loop (S n) r = Ok (r', false) /\ stands_at_end r'.
Proof.
  intros (m & k & Hat & Hok & _). cbn [items tail lines items_text items_ok] in *. pose proof Hat as [Hon Hi _ _ _ _].
  cbn [at_label_loop]. rewrite (pos_on _ _ Hon). run. rewrite (blank_cur tl Hok).
  pose proof (skip_while_stop isspace tl [] (blank_spaces _ Hok) (or_introl eq_refl)) as Hsk.
  rewrite app_nil_r in Hsk. rewrite Hsk. unfold tokenise_read_line. rewrite (proj1 (proj2 Hon)), Hi. cbn [map read_line_loop].
  run. eexists. split; [reflexivity|]. split; [done|]. exists tl. split; [apply Hon|done].
Qed.

Lemma look_at_end (n : nat) r : stands_at_end r -> at_label_loop (S n) r = Ok (r, false).
Proof.
  intros (He & p & Hp & Hb). cbn [at_label_loop]. unfold pos_of. rewrite Hp. run. rewrite (blank_cur p Hb).
  pose proof (skip_while_stop isspace p [] (blank_spaces _ Hb) (or_introl eq_refl)) as Hsk.
  rewrite app_nil_r in Hsk. rewrite Hsk. unfold tokenise_read_line. by rewrite He.
Qed.

(** Where looking for a colon leaves the text: at the next lexeme, the lexemes to
    come being the same, or at the end. *)
Lemma look (ls : list lex_line) : forall (its : list (cstr * lexeme)) (tl : cstr) (n : nat) r,
  let x := mk_place its tl ls in
  stands r x -> (length ls < n)%nat ->
  exists r', at_label_loop n r = Ok (r', is_colon (lexemes_at x))
    /\ (stands_at_end r' /\ lexemes_at x = []
        \/ exists y, stands r' y /\ items y <> [] /\ lexemes_at y = lexemes_at x
                    /\ (y = x \/ its = [] /\ (length (lines y) < length ls)%nat)).
Proof.
  induction ls as [|l ls IH]; intros its tl n r x Hs Hn; unfold x in *; (destruct n as [|n]; [lia|]); destruct its as [|i its].
  - destruct (look_end n r tl Hs) as (r' & E & He). exists r'. split; [done|]. by left.
  - exists r. split; [by apply (look_here n r _ Hs)|]. right. eexists. split_and!; [exact Hs|done|done|by left].
  - destruct (look_on n r tl l ls Hs) as (r1 & E1 & Hs1). simpl in Hn.
    destruct (IH l.1 l.2 n r1 Hs1 ltac:(lia)) as (r' & E & Hy). exists r'. split; [by rewrite E1|].
    destruct Hy as [Hy|(y & Hy & Hne & Hl & Hlt)]; [by left|]. right. exists y. split_and!; [done|done|done|].
    right. split; [done|]. destruct Hlt as [-> |[_ Hlt]]; simpl; lia.
  - exists r. split; [by apply (look_here n r _ Hs)|]. right. eexists. split_and!; [exact Hs|done|done|by left].
Qed.

End labels.
