(* ===== verification/Literal.v ===== *)
(** * The types of integer literals

    [fold_expr_val] of [src/src/cc1/ops/expr_val.c], which gives a literal its
    type from its value, its suffixes, its base and the standard. *)

From S2P Require Import Prelude Escape Triple Types Consts CppHas Token.
Open Scope Z_scope.

Section literal.
Context `{Floats} (g : target) (cc1_std : c_std).

(** [integral_high_bit] of a value whose type is not yet known. *)
Definition untyped_high_bit (v : Z) : res Z := high_bit_loop 65 (-1) v.

Definition primitive_le (p q : type_primitive) : bool := prim_val p <=? prim_val q.

Definition set_unsigned (suf : Z) (is_signed : bool) : Z :=
  if is_signed then Z.ldiff suf VAL_UNSIGNED else Z.lor suf VAL_UNSIGNED.

(** The type chosen for an integer and whether it is signed, from [p] on. *)
Definition choose_int (p : type_primitive) (is_signed can_change_sign : bool) (long_max_bit highest_bit : Z)
  : type_primitive * bool :=
  if primitive_le p type_int && (highest_bit <? 31) then (type_int, can_change_sign || is_signed)
  else if primitive_le p type_int && (highest_bit =? 31) && (can_change_sign || negb is_signed) then
    (type_int, false)
  else if primitive_le p type_long && (highest_bit <? long_max_bit) then
    (type_long, can_change_sign || is_signed)
  else if primitive_le p type_long && (highest_bit =? long_max_bit)
          && (negb is_signed || can_change_sign || (std_rank cc1_std <=? std_rank STD_C89)%nat) then
    (type_long, false)
  else if primitive_le p type_llong && (highest_bit <? 63) then (type_llong, can_change_sign || is_signed)
  else if primitive_le p type_llong && (highest_bit =? 63) then (type_llong, false)
  else (p, is_signed).

(** The literal, its suffix adjusted, and its type. *)
Definition fold_expr_val (num : numeric) : res (numeric * type) :=
  let suf := suffix num in
  let is_signed := negb (has suf VAL_UNSIGNED) in
  let can_change_sign := is_signed && has suf VAL_NON_DECIMAL in
  sz ← type_primitive_size g type_long;
  let long_max_bit := 8 * sz - 1 in
  let p := if has suf VAL_LLONG then type_llong else if has suf VAL_LONG then type_long else type_int in
  '(v, p, is_signed) ←
    (if has suf VAL_FLOATING then
       f ← get_f num;
       if has suf VAL_FLOAT then Ok (VF (as_float f), type_float, true)
       else if has suf VAL_DOUBLE then Ok (VF (as_double f), type_double, true)
       else if has suf VAL_LDOUBLE then Ok (VF f, type_ldouble, true)
       else Ice "floating?"
     else
       i ← get_i num;
       highest_bit ← untyped_high_bit i;
       if i =? 0 then Ok (VI i, p, is_signed)
       else if highest_bit =? -1 then Ice "highest_bit != -1"
       else
         let c := choose_int p is_signed can_change_sign long_max_bit highest_bit in
         Ok (VI i, c.1, c.2));
  let p := if is_signed : bool then p else TYPE_PRIMITIVE_TO_UNSIGNED p in
  Ok (mk_numeric v (set_unsigned suf is_signed), type_nav_btype p).

(** ** The standard's rule *)

(** C11 6.4.4.1, table 6, the suffix given by its [u] and its number of [l]s. *)
Definition candidates (decimal u : bool) (l : nat) : list type_primitive :=
  if u then drop l [type_uint; type_ulong; type_ullong]
  else if decimal then drop l [type_int; type_long; type_llong]
  else drop (2 * l) [type_int; type_uint; type_long; type_ulong; type_llong; type_ullong].

(** The width of the type and whether it is signed. *)
Definition width_of (p : type_primitive) : Z * bool :=
  match p with
  | type_int => (32, true) | type_uint => (32, false)
  | type_long => (if platform_32bit g then 32 else 64, true)
  | type_ulong => (if platform_32bit g then 32 else 64, false)
  | type_llong => (64, true) | _ => (64, false)
  end.

Definition represents (p : type_primitive) (v : Z) : bool :=
  let '(w, s) := width_of p in v <? 2 ^ (if s then w - 1 else w).

(** The first candidate that can represent the value; none can for a decimal
    literal over [LLONG_MAX], which is made [unsigned long long]. *)
Definition literal_type (decimal u : bool) (l : nat) (v : Z) : type_primitive :=
  default type_ullong (List.find (fun p => represents p v) (candidates decimal u l)).

(** The bits of a suffix. *)
Definition suffix_bits (u : bool) (l : nat) : Z :=
  Z.lor (b2z u) (match l with O => 0 | S O => VAL_LONG | _ => VAL_LLONG end).

(** ** Lemmas *)

Lemma high_bit_step (fuel : nat) (r v : Z) :
  high_bit_loop (S fuel) r v = if v =? 0 then Ok r else high_bit_loop fuel (r + 1) (Z.shiftr v 1).
Proof. done. Qed.

Lemma high_bit_loop_spec (fuel : nat) (r v : Z) :
  0 < v -> v < 2 ^ Z.of_nat fuel -> high_bit_loop (S fuel) r v = Ok (r + 1 + Z.log2 v).
Proof.
  revert r v. induction fuel as [|fuel IH]; intros r v Hv Hb; [simpl in Hb; lia|].
  rewrite high_bit_step. destruct (Z.eqb_spec v 0) as [->|Hne]; [lia|].
  destruct (Z.le_gt_cases 2 v) as [H2|H2].
  - assert (Hs : Z.shiftr v 1 = v / 2) by (by rewrite Z.shiftr_div_pow2).
    rewrite IH; rewrite Hs.
    + f_equal. rewrite <- Hs, Z.log2_shiftr by lia.
      pose proof (Z.log2_le_mono 2 v H2) as Hl. change (Z.log2 2) with 1 in Hl. lia.
    + apply Z.div_str_pos. lia.
    + apply Z.div_lt_upper_bound; [lia|]. by rewrite <- Z.pow_succ_r, <- Nat2Z.inj_succ by lia.
  - assert (v = 1) as -> by lia. rewrite high_bit_step. simpl. f_equal. lia.
Qed.

Lemma log2_ltb (v n : Z) : 0 < v -> 0 <= n -> (Z.log2 v <? n) = (v <? 2 ^ n).
Proof.
  intros Hv Hn. pose proof (Z.log2_lt_pow2 v n Hv) as Hl.
  destruct (Z.ltb_spec (Z.log2 v) n), (Z.ltb_spec v (2 ^ n)); try done; exfalso; intuition lia.
Qed.

Lemma log2_eqb (v n : Z) : 0 < v -> 0 <= n -> (Z.log2 v =? n) = negb (v <? 2 ^ n) && (v <? 2 ^ (n + 1)).
Proof.
  intros Hv Hn. rewrite <- !log2_ltb by lia.
  destruct (Z.eqb_spec (Z.log2 v) n), (Z.ltb_spec (Z.log2 v) n), (Z.ltb_spec (Z.log2 v) (n + 1)); simpl; lia.
Qed.

(** What is chosen for a value that is not zero, whose bounds are known. *)
Lemma choose_int_spec (dec u : bool) (l : nat) (v : Z) :
  (std_rank cc1_std <=? std_rank STD_C89)%nat = false -> 0 < v < 2 ^ 64 -> (l <= 2)%nat ->
  let p := match l with O => type_int | S O => type_long | _ => type_llong end in
  let c := choose_int p (negb u) (negb u && negb dec) (if platform_32bit g then 31 else 63) (Z.log2 v) in
  let t := literal_type dec u l v in
  c.2 = snd (width_of t) /\ (if c.2 then c.1 else TYPE_PRIMITIVE_TO_UNSIGNED c.1) = t.
Proof.
  intros Hrank [Hv Hlt] Hl p c t. subst c p t. unfold choose_int. rewrite Hrank.
  unfold literal_type, candidates.
  rewrite !(log2_ltb v), !(log2_eqb v) by (try lia; by destruct (platform_32bit g)).
  unfold represents, width_of.
  assert (Hc : v < 2 ^ 31 \/ 2 ^ 31 <= v < 2 ^ 32 \/ 2 ^ 32 <= v < 2 ^ 63 \/ 2 ^ 63 <= v < 2 ^ 64) by lia.
  assert (exists a b c, (v <? 2 ^ 31) = a /\ (v <? 2 ^ 32) = b /\ (v <? 2 ^ 63) = c /\ (v <? 2 ^ 64) = true /\
    ((a = true /\ b = true /\ c = true) \/ (a = false /\ b = true /\ c = true) \/
     (a = false /\ b = false /\ c = true) \/ (a = false /\ b = false /\ c = false)))
    as (a & b & c & E1 & E2 & E3 & E4 & Hcase).
  { do 3 eexists. split_and!; try reflexivity; lia. }
  clear Hc Hrank Hv Hlt.
  destruct Hcase as [(-> & -> & ->)|[(-> & -> & ->)|[(-> & -> & ->)|(-> & -> & ->)]]].
  all: destruct (platform_32bit g), dec, u, l as [|[|[|l]]]; try lia.
  all: repeat (cbn -[Z.ltb Z.pow Z.add Z.sub TYPE_PRIMITIVE_TO_UNSIGNED];
    change (31 + 1) with 32; change (63 + 1) with 64; change (32 - 1) with 31; change (64 - 1) with 63;
    rewrite ?E1, ?E2, ?E3, ?E4); done.
Qed.

(** C20: the type of an integer literal is the one C11 6.4.4.1 gives it, from C99
    on: the first type of the list for its base and suffix that can represent
    its value, on 64-bit and 32-bit targets, and [unsigned long long] if there is
    none; its value is kept and its suffix says [u] just if that type is
    unsigned. *)
Theorem literal_typed (mode : base) (u : bool) (l : nat) (v : Z) :
  (std_rank STD_C99 <= std_rank cc1_std)%nat -> is_u 64 v -> (l <= 2)%nat ->
  let t := literal_type (bool_decide (mode = DEC)) u l v in
  let suf := Z.lor (mode_bits mode) (suffix_bits u l) in
  fold_expr_val (mk_numeric (VI v) suf)
    = Ok (mk_numeric (VI v) (set_unsigned suf (snd (width_of t))), type_nav_btype t).
Proof.
  intros Hstd [Hv Hlt] Hl t suf. unfold fold_expr_val.
  assert (Hfl : has suf VAL_FLOATING = false) by (subst suf; destruct mode, u, l as [|[|l]]; done).
  assert (Hrank : (std_rank cc1_std <=? std_rank STD_C89)%nat = false)
    by (apply Nat.leb_gt; change (std_rank STD_C99) with 2%nat in Hstd; change (std_rank STD_C89) with 0%nat; lia).
  assert (Hu : has suf VAL_UNSIGNED = u) by (subst suf; destruct mode, u, l as [|[|l]]; done).
  assert (Hn : has suf VAL_NON_DECIMAL = negb (bool_decide (mode = DEC)))
    by (subst suf; destruct mode, u, l as [|[|l]]; done).
  assert (Hp : (if has suf VAL_LLONG then type_llong else if has suf VAL_LONG then type_long else type_int)
               = match l with O => type_int | S O => type_long | _ => type_llong end)
    by (subst suf; destruct mode, u, l as [|[|l]]; done).
  cbn [suffix val get_i]. rewrite Hfl, Hp, Hu, Hn. unfold type_primitive_size. run.
  destruct (Z.eqb_spec v 0) as [->|Hne].
  - subst t. destruct (bool_decide (mode = DEC)), u, l as [|[|[|l]]]; try lia;
      unfold literal_type, represents, width_of; cbn; by destruct (platform_32bit g).
  - unfold untyped_high_bit. rewrite (high_bit_loop_spec 64) by lia. run.
    pose proof (Z.log2_nonneg v). destruct (Z.eqb_spec (-1 + 1 + Z.log2 v) (-1)); [lia|].
    destruct (choose_int_spec (bool_decide (mode = DEC)) u l v Hrank ltac:(lia) Hl) as [H1 H2].
    replace (8 * (if platform_32bit g then 4 else UCC_SZ_LONG) - 1) with (if platform_32bit g then 31 else 63)
      by (by destruct (platform_32bit g)).
    replace (-1 + 1 + Z.log2 v) with (Z.log2 v) by lia. run. by rewrite H2, H1.
Qed.
End literal.

(** ** Witness and examples *)

#[local] Instance no_floats : Floats :=
  mk_floats unit (fun s => (tt, s)) (fun _ => tt) (fun f _ => f) (fun f => f) (fun f => f).

(** [0xffffffff] is an [unsigned int]. *)
Lemma literal_typed_witness :
  fold_expr_val linux64 STD_C11 (mk_numeric (VI 4294967295) 16)
    = Ok (mk_numeric (VI 4294967295) 17, type_nav_btype type_uint).
Proof.
  refine (literal_typed linux64 STD_C11 HEX false 0 4294967295 _ _ _).
  - vm_compute. lia.
  - by_decide.
  - lia.
Defined.

(** [9223372036854775808] is an [unsigned long] with [-std=c89], but not with
    [-std=c90] or [-ansi]. *)
Example c90_large :
  fold_expr_val linux64 STD_C89 (mk_numeric (VI (2 ^ 63)) 0)
    = Ok (mk_numeric (VI (2 ^ 63)) 1, type_nav_btype type_ulong) /\
  fold_expr_val linux64 STD_C90 (mk_numeric (VI (2 ^ 63)) 0)
    = Ok (mk_numeric (VI (2 ^ 63)) 1, type_nav_btype type_ullong).
Proof. split; reflexivity. Qed.
