(* ===== verification/Tokconv.v ===== *)
(** * What tokens mean to the parser

    [src/src/cc1/tokconv.c]: the operator, type, qualifier or storage class a
    token stands for, and how tokens are spelled in messages. *)

From S2P Require Import Prelude CStr Types Consts Token.

Definition curtok_to_type_primitive (curtok : token) : type_primitive :=
  match curtok with
  | token_void => type_void | token__Bool => type__Bool | token_char => type_nchar
  | token_short => type_short | token_int => type_int | token_long => type_long
  | token_float => type_float | token_double => type_double
  | _ => type_unknown
  end.

Definition curtok_to_type_qualifier (curtok : token) : Z :=
  match curtok with
  | token_const => qual_const | token_volatile => qual_volatile | token_restrict => qual_restrict
  | _ => qual_none
  end.

(** [enum decl_storage]; [None] is the -1 of no storage class. *)
Inductive decl_storage :=
  | store_default | store_auto | store_static | store_extern | store_register | store_typedef
  | store_inline.

Definition curtok_to_decl_storage (curtok : token) : option decl_storage :=
  match curtok with
  | token_auto => Some store_auto | token_extern => Some store_extern
  | token_static => Some store_static | token_typedef => Some store_typedef
  | token_register => Some store_register
  | _ => None
  end.

Definition curtok_to_op (curtok : token) : op_type :=
  match curtok with
  | token_multiply => op_multiply | token_divide => op_divide | token_plus => op_plus
  | token_minus => op_minus | token_modulus => op_modulus
  | token_eq => op_eq | token_ne => op_ne | token_le => op_le | token_lt => op_lt
  | token_ge => op_ge | token_gt => op_gt
  | token_xor => op_xor | token_or => op_or | token_and => op_and | token_orsc => op_orsc
  | token_andsc => op_andsc | token_not => op_not | token_bnot => op_bnot
  | token_shiftl => op_shiftl | token_shiftr => op_shiftr
  | _ => op_unknown
  end.

Definition curtok_is_type_primitive (curtok : token) : bool :=
  negb (bool_decide (curtok_to_type_primitive curtok = type_unknown)).

Definition curtok_is_type_qual (curtok : token) : bool :=
  negb (curtok_to_type_qualifier curtok =? qual_none)%Z.

Definition curtok_is_decl_store (curtok : token) : bool :=
  match curtok_to_decl_storage curtok with Some _ => true | None => false end.

Definition curtok_to_compound_op (curtok : token) : op_type :=
  match curtok with
  | token_plus_assign => op_plus | token_minus_assign => op_minus
  | token_multiply_assign => op_multiply | token_divide_assign => op_divide
  | token_modulus_assign => op_modulus | token_not_assign => op_not | token_bnot_assign => op_bnot
  | token_and_assign => op_and | token_or_assign => op_or | token_xor_assign => op_xor
  | token_shiftl_assign => op_shiftl | token_shiftr_assign => op_shiftr
  | _ => op_unknown
  end.

Definition curtok_is_compound_assignment (curtok : token) : bool :=
  negb (bool_decide (curtok_to_compound_op curtok = op_unknown)).

(** [None] is NULL. *)
Definition token_to_str (t : token) : option cstr :=
  let s x := Some (str x) in
  match t with
  | token_do => s "do" | token_if => s "if" | token_else => s "else" | token_while => s "while"
  | token_for => s "for" | token_break => s "break" | token_return => s "return"
  | token_switch => s "switch" | token_case => s "case" | token_default => s "default"
  | token_continue => s "continue" | token_goto => s "goto" | token_asm => s "asm"
  | token_sizeof => s "sizeof" | token_typeof => s "typeof" | token__Generic => s "_Generic"
  | token__Static_assert => s "_Static_assert" | token_extern => s "extern"
  | token_static => s "static" | token_auto => s "auto" | token_register => s "register"
  | token__Alignof => s "_Alignof" | token___alignof => s "__alignof" | token__Alignas => s "_Alignas"
  | token_inline => s "inline" | token__Noreturn => s "_Noreturn" | token_const => s "const"
  | token_volatile => s "volatile" | token_restrict => s "restrict" | token_void => s "void"
  | token_char => s "char" | token_short => s "short" | token_int => s "int" | token_long => s "long"
  | token_float => s "float" | token_double => s "double" | token__Bool => s "_Bool"
  | token_signed => s "signed" | token_unsigned => s "unsigned" | token_typedef => s "typedef"
  | token_struct => s "struct" | token_union => s "union" | token_enum => s "enum"
  | token___builtin_va_list => s "__builtin_va_list" | token_identifier => s "identifier"
  | token_character => s "character" | token_string => s "string"
  | token___extension__ => s "__extension__" | token___auto_type => s "__auto_type"
  | token___label__ => s "__label__" | token_integer => s "integer-literal"
  | token_floater => s "float-literal" | token_attribute => s "__attribute__"
  | token_elipsis => s "'...'" | token_open_paren => s "'('" | token_open_block => s "'{'"
  | token_open_square => s "'['" | token_close_paren => s "')'" | token_close_block => s "'}'"
  | token_close_square => s "']'" | token_comma => s "','" | token_semicolon => s "';'"
  | token_colon => s "':'" | token_plus => s "'+'" | token_minus => s "'-'" | token_multiply => s "'*'"
  | token_divide => s "'/'" | token_modulus => s "'%'" | token_increment => s "'++'"
  | token_decrement => s "'--'" | token_assign => s "'='" | token_dot => s "'.'" | token_eq => s "'=='"
  | token_le => s "'<='" | token_lt => s "'<'" | token_ge => s "'>='" | token_gt => s "'>'"
  | token_ne => s "'!='" | token_not => s "'!'" | token_bnot => s "'~'" | token_andsc => s "'&&'"
  | token_and => s "'&'" | token_orsc => s "'||'" | token_or => s "'|'" | token_xor => s "'^'"
  | token_question => s "'?'" | token_plus_assign => s "'+='" | token_minus_assign => s "'-='"
  | token_multiply_assign => s "'*='" | token_divide_assign => s "'/='"
  | token_modulus_assign => s "'%='" | token_not_assign => s "'!='" | token_bnot_assign => s "'~='"
  | token_and_assign => s "'&='" | token_or_assign => s "'|='" | token_xor_assign => s "'^='"
  | token_shiftl => s "'<<'" | token_shiftr => s "'>>'" | token_shiftl_assign => s "'<<='"
  | token_shiftr_assign => s "'>>='" | token_ptr => s "'->'" | token_eof => s "eof"
  | token_unknown => None
  end.

(** The tokens [eat_curtok_to_identifier] takes for their spelling. *)
Definition is_word_token (t : token) : bool :=
  match t with
  | token_do | token_if | token_else | token_while | token_for | token_break | token_return
  | token_switch | token_case | token_default | token_continue | token_goto | token_asm | token_sizeof
  | token_typeof | token__Generic | token__Static_assert | token_extern | token_static | token_auto
  | token_register | token__Alignof | token___alignof | token__Alignas | token_inline | token__Noreturn
  | token_const | token_volatile | token_restrict | token_void | token_char | token_short | token_int
  | token_long | token_float | token_double | token__Bool | token_signed | token_unsigned
  | token_typedef | token_struct | token_union | token_enum | token___builtin_va_list | token_attribute
  | token___extension__ | token___auto_type | token___label__ => true
  | _ => false
  end.

Section tokens.
Context `{Floats} (keyword_mode junk : Z).

Definition eat_curtok_to_identifier (fuel : nat) (s : lexer) : res (lexer * option cstr) :=
  if is_word_token (curtok s) then
    let sp := token_to_str (curtok s) in
    s ← nexttoken keyword_mode junk fuel s;
    Ok (s, sp)
  else if bool_decide (curtok s = token_identifier) then
    token_eat_identifier keyword_mode junk fuel None s
  else Ok (s, None).
End tokens.

(** ** Consistency of the tables *)

(** A compound assignment's operator is that of the token before the [=]. *)
Lemma compound_op (t : token) :
  curtok_is_xequal t = true -> curtok_to_compound_op (curtok_to_xequal t) = curtok_to_op t.
Proof. by destruct t. Qed.

(** A keyword's name reads as that keyword, when every keyword is enabled. *)
Lemma word_token_spelled (t : token) :
  is_word_token t = true -> exists sp, token_to_str t = Some sp /\ keyword_find keywords 7 sp = Some t.
Proof. destruct t; try discriminate; intros _; eexists; split; reflexivity. Qed.
