(* ===== verification/Switch.v ===== *)
(** * Switch statements

    [src/src/cc1/ops/stmt_switch.c], [stmt_case.c] and [stmt_case_range.c]: the
    checks on the cases of a switch, for duplicates and against the enumerators
    of an enum, and the chain of tests it is compiled to; of
    [src/src/cc1/out/x86_64.c] the comparison of two integers, at the width of
    the wider and with the sign of the left one. *)

From Stdlib Require Import Sorted Permutation.
From S2P Require Import Prelude Triple Types Consts Cast.
Open Scope Z_scope.

(** ** Collecting the cases *)

(** The constants' values and suffixes, if the expressions fold to integers, and
    the types of the expressions. *)
Record case_stmt : Type := mk_case {
  c_expr : option (Z * Z);
  c_type : type;
  c_expr2 : option (Z * Z);
  c_type2 : type;
  c_range : bool
}.

(** [const_fold_val_i] of a constant case. *)
Definition val_i (e : option (Z * Z)) : res Z :=
  match e with Some (i, _) => Ok i | None => Ice "not an integer constant" end.

(** The guard of [fold_stmt_case_range]. *)
Definition fold_stmt_case_range (s : case_stmt) : res unit :=
  lv ← val_i (c_expr s);
  rv ← val_i (c_expr2 s);
  if rv <=? lv then Die "case range equal or inverse" else Ok tt.

(** The type of the value switched on, and what the cases fill in. *)
Record switch_ : Type := mk_switch { sw_type : type; cases : list case_stmt; default_case : bool }.

Section collect.
Context (g : target) (sues : sue_id -> sue) (cast_w_builtin_types : bool).

(** [fold_insert_casts] on a case's value, folded through the cast. *)
Definition cast_case (t : type) (c : case_stmt) : res case_stmt :=
  e ← (match c_expr c with
       | Some (i, suf) => '(i, suf) ← fold_cast_num g sues cast_w_builtin_types i suf (c_type c) t; Ok (Some (i, suf))
       | None => Ok None
       end);
  Ok (mk_case e t (c_expr2 c) (c_type2 c) (c_range c)).

(** [None] is a default label; [sw] is [None] outside a switch. The upper bound
    of a range is not cast. *)
Definition fold_stmt_and_add_to_curswitch (cse : option case_stmt) (sw : option switch_)
  : res (option switch_ * bool) :=
  match sw with
  | None => Ok (None, true)
  | Some sw =>
      match cse with
      | Some c => c ← cast_case (sw_type sw) c;
                  Ok (Some (mk_switch (sw_type sw) (cases sw ++ [c]) (default_case sw)), false)
      | None => if default_case sw then Ok (Some sw, true)
                else Ok (Some (mk_switch (sw_type sw) (cases sw) true), false)
      end
  end.

(** Cases have the type switched on. *)
Definition typed (sw : switch_) : Prop := Forall (fun c => c_type c = sw_type sw) (cases sw).

Lemma add_typed (cse : option case_stmt) (sw sw' : switch_) (err : bool) :
  typed sw -> fold_stmt_and_add_to_curswitch cse (Some sw) = Ok (Some sw', err) ->
  typed sw' /\ sw_type sw' = sw_type sw.
Proof using.
  intros H. unfold fold_stmt_and_add_to_curswitch, typed in *. destruct cse as [c|].
  - intros (c' & Hc & [= <- <-])%bind_Ok. split; [|done]. cbn. apply Forall_app. split; [done|].
    unfold cast_case in Hc. apply bind_Ok in Hc as (e & _ & [= <-]). by repeat constructor.
  - destruct (default_case sw); by intros [= <- <-].
Qed.
End collect.

(** ** Duplicates *)

(** [vals[i]]: the first and last values, with their suffixes. *)
Record vals : Type := mk_vals { v_start : Z * Z; v_end : Z * Z }.

Fixpoint gather (cs : list case_stmt) : option (list vals) :=
  match cs with
  | [] => Some []
  | c :: cs =>
      match c_expr c with
      | None => None
      | Some s =>
          match (if c_range c then c_expr2 c else Some s) with
          | None => None
          | Some e => (fun l => mk_vals s e :: l) <$> gather cs
          end
      end
  end.

Definition vals_cmp (a b : vals) : Z :=
  numeric_cmp (v_start a).1 (v_start a).2 (v_start b).1 (v_start b).2.

(** [qsort] with [vals_cmp], by insertion. *)
Fixpoint insert_val (x : vals) (l : list vals) : list vals :=
  match l with
  | [] => [x]
  | y :: l => if vals_cmp x y <=? 0 then x :: y :: l else y :: insert_val x l
  end.

Fixpoint qsort (l : list vals) : list vals :=
  match l with [] => [] | x :: l => insert_val x (qsort l) end.

(** What the loop over neighbours reports: whether the word is [overlapping],
    and the number shown. *)
Fixpoint dups (l : list vals) : list (bool * Z) :=
  match l with
  | prev :: ((this :: _) as l') =>
      let last_prev := s64 (v_end prev).1 in
      let first_this := s64 (v_start this).1 in
      (if first_this <=? last_prev then
         [(negb ((v_end this).1 =? (v_start this).1) || negb ((v_end prev).1 =? (v_start prev).1),
           s64 (v_start this).1)]
       else []) ++ dups l'
  | _ => []
  end.

Definition fold_switch_dups (sw : switch_) : list (bool * Z) :=
  match gather (cases sw) with
  | None => []
  | Some vs => dups (qsort vs)
  end.

(** ** Switching on an enum *)

(** The values of [for(; v <= w; v++)] that are visited, [n] at most. *)
Fixpoint visited (n : nat) (v w : Z) : list Z :=
  match n with
  | O => []
  | S n => if v <=? w then v :: (if v =? NUMERIC_T_MAX then [] else visited n (v + 1) w) else []
  end.

Definition span (v w : Z) : list Z := visited (S (Z.to_nat (w - v))) v w.

(** The case's values, as [fold_switch_enum] walks them. *)
Definition case_span (c : case_stmt) : res (list Z) :=
  v ← val_i (c_expr c);
  w ← (if c_range c then val_i (c_expr2 c) else Ok v);
  Ok (span v w).

Fixpoint spans (cs : list case_stmt) : res (list Z) :=
  match cs with
  | [] => Ok []
  | c :: cs => l ← case_span c; ls ← spans cs; Ok (l ++ ls)
  end.

(** What is reported: values that are not members, members that are not
    handled, and whether a default label is said to be covered. *)
Record enum_report : Type := mk_report {
  not_members : list Z; not_handled : list nat; default_covered : bool }.

(** [ents] are the values of the enumerators, in order; [even_when_default] is
    the warning of that name. A mark is a [char]. *)
Definition fold_switch_enum (sw : switch_) (ents : list Z) (even_when_default : bool) : res enum_report :=
  vs ← spans (cases sw);
  let marks := negb (default_case sw) || even_when_default in
  let handled m := negb (Z.of_nat (length (filter (fun v => v = m) vs)) mod 256 =? 0) in
  let missing := if marks then filter (fun i => handled (default 0 (ents !! i)) = false) (seq 0 (length ents))
                 else [] in
  Ok (mk_report (filter (fun v => existsb (Z.eqb v) ents = false) vs) missing
        (default_case sw && match missing with [] => true | _ => false end)).

(** ** The tests *)

Inductive target := Case (i : nat) | Default | End.

(** A conditional branch on [cmp_with]: the constant with its type, and where it
    goes; if a comparison fails, on to the next case. *)
Inductive test :=
  | Test_eq (c : type * Z) (then_ : nat)
  | Test_range (lo hi : type * Z) (then_ : nat).

Definition case_test (i : nat) (c : case_stmt) : res test :=
  iv ← val_i (c_expr c);
  if c_range c then max ← val_i (c_expr2 c); Ok (Test_range (c_type c, iv) (c_type2 c, max) i)
  else Ok (Test_eq (c_type c, iv) i).

Fixpoint gen_tests (i : nat) (cs : list case_stmt) : res (list test) :=
  match cs with
  | [] => Ok []
  | c :: cs => t ← case_test i c; ts ← gen_tests (S i) cs; Ok (t :: ts)
  end.

Section dispatch.
Context (g : Types.target) (sues : sue_id -> sue).

(** [maybe_promote], one operand of [sz] bytes to [sz_to]: the narrower one is
    extended by its own signedness. *)
Definition maybe_promote (v sz sz_to : Z) (sg : bool) : Z :=
  if sz <? sz_to then (if sg then wraps (8 * sz) v else wrapu (8 * sz) v) else v.

(** [impl_op] for a comparison of two integers, not both constants: [cmp] at the
    width of the wider operand, its flags read by the signedness of the left one.
    A [test] against zero gives the same. *)
Definition impl_op (op : op_type) (l r : type * Z) : res bool :=
  is_signed ← type_is_signed g l.1;
  signed_r ← type_is_signed g r.1;
  sz_l ← type_size g sues l.1;
  sz_r ← type_size g sues r.1;
  let sz := Z.max sz_l sz_r in
  let flags v := if (is_signed : bool) then wraps (8 * sz) v else wrapu (8 * sz) v in
  let a := flags (maybe_promote l.2 sz_l sz is_signed) in
  let b := flags (maybe_promote r.2 sz_r sz signed_r) in
  match op with
  | op_eq => Ok (a =? b)
  | op_lt => Ok (a <? b)
  | op_gt => Ok (b <? a)
  | _ => Ice "not a comparison of a switch"
  end.

(** The branches taken for the value [cmp_with], with its type. *)
Fixpoint run_tests (ts : list test) (pdefault : bool) (cmp_with : type * Z) : res target :=
  match ts with
  | [] => Ok (if pdefault then Default else End)
  | Test_eq c i :: ts =>
      b ← impl_op op_eq c cmp_with;
      if (b : bool) then Ok (Case i) else run_tests ts pdefault cmp_with
  | Test_range lo hi i :: ts =>
      b ← impl_op op_lt cmp_with lo;
      if (b : bool) then run_tests ts pdefault cmp_with
      else
        b ← impl_op op_gt cmp_with hi;
        if (b : bool) then run_tests ts pdefault cmp_with else Ok (Case i)
  end.

Definition gen_stmt_switch (sw : switch_) (x : Z) : res target :=
  ts ← gen_tests 0 (cases sw);
  run_tests ts (default_case sw) (sw_type sw, x).
End dispatch.

(** ** What the checks should find *)

(** The case covers the value [x], as a signed number. *)
Definition within (a : vals) (x : Z) : Prop := s64 (v_start a).1 <= x <= s64 (v_end a).1.

(** A case as [fold_stmt_case] and [fold_stmt_case_range] leave it: a constant
    that is signed or below 2^63, and a range that is not empty. *)
Definition proper (a : vals) : Prop :=
  (Z.land (v_start a).2 VAL_UNSIGNED = 0 \/ 0 <= (v_start a).1 < 2 ^ 63) /\ s64 (v_start a).1 <= s64 (v_end a).1.

Definition disjoint (a b : vals) : Prop := forall x, within a x -> within b x -> False.

Fixpoint all_disjoint (l : list vals) : Prop :=
  match l with [] => True | a :: l => Forall (disjoint a) l /\ all_disjoint l end.

Definition starts_le (a b : vals) : Prop := s64 (v_start a).1 <= s64 (v_start b).1.

Lemma vals_cmp_signed (a b : vals) :
  proper a -> proper b -> (vals_cmp a b <=? 0) = (s64 (v_start a).1 <=? s64 (v_start b).1).
Proof.
  intros [Ha _] [Hb _]. unfold vals_cmp, numeric_cmp.
  set (au := negb (Z.land (v_start a).2 VAL_UNSIGNED =? 0)). set (bu := negb (Z.land (v_start b).2 VAL_UNSIGNED =? 0)).
  assert (au && bu = true -> s64 (v_start a).1 = (v_start a).1 /\ s64 (v_start b).1 = (v_start b).1) as E.
  { unfold au, bu. rewrite andb_true_iff, !negb_true_iff, !Z.eqb_neq. intros [Na Nb].
    destruct Ha as [?|Ha]; [done|]. destruct Hb as [?|Hb]; [done|].
    split; apply wraps_id; unfold is_s; lia. }
  destruct (au && bu); [destruct (E eq_refl) as [-> ->]|].
  - destruct (Z.ltb_spec (v_start b).1 (v_start a).1), (Z.ltb_spec (v_start a).1 (v_start b).1); lia.
  - destruct (Z.ltb_spec (s64 (v_start b).1) (s64 (v_start a).1)), (Z.ltb_spec (s64 (v_start a).1) (s64 (v_start b).1)); lia.
Qed.

Lemma insert_val_perm (x : vals) (l : list vals) : insert_val x l ≡ₚ x :: l.
Proof.
  induction l as [|y l IH]; simpl; [done|]. destruct (_ <=? _); [done|]. rewrite IH. apply perm_swap.
Qed.

Lemma qsort_perm (l : list vals) : qsort l ≡ₚ l.
Proof. induction l as [|x l IH]; simpl; [done|]. by rewrite insert_val_perm, IH. Qed.

Lemma insert_val_sorted (x : vals) (l : list vals) :
  proper x -> Forall proper l -> StronglySorted starts_le l -> StronglySorted starts_le (insert_val x l).
Proof.
  intros Hx Hp Hl. induction Hl as [|y l Hl IH Hy]; simpl.
  - by repeat constructor.
  - apply Forall_cons in Hp as [Hpy Hp]. specialize (IH Hp). rewrite vals_cmp_signed by done. destruct (Z.leb_spec (s64 (v_start x).1) (s64 (v_start y).1)).
    + constructor; [by constructor|]. constructor; [done|].
      eapply List.Forall_impl; [|exact Hy]. unfold starts_le. simpl. intros. lia.
    + constructor; [done|]. rewrite insert_val_perm. constructor; [unfold starts_le; lia|done].
Qed.

Lemma qsort_sorted (l : list vals) : Forall proper l -> StronglySorted starts_le (qsort l).
Proof. induction 1; simpl; [constructor|]. apply insert_val_sorted; [done|by rewrite qsort_perm|done]. Qed.

Lemma disjoint_sym (a b : vals) : disjoint a b -> disjoint b a.
Proof. unfold disjoint. eauto. Qed.

Lemma all_disjoint_perm (l l' : list vals) : l ≡ₚ l' -> all_disjoint l -> all_disjoint l'.
Proof.
  induction 1 as [|a l l' Hp IH|a b l|l1 l2 l3 H1 IH1 H2 IH2]; simpl; auto.
  - intros [Ha Hl]. split; [by rewrite <- Hp|auto].
  - intros ([Hba Hb]%List.Forall_cons_iff & Ha & Hl). split_and!; try done.
    by constructor; [apply disjoint_sym|].
Qed.

Lemma dups_sorted (l : list vals) :
  Forall proper l -> StronglySorted starts_le l -> dups l = [] <-> all_disjoint l.
Proof.
  intros Hp Hs. induction l as [|prev [|this l] IH]; [done|by split; [split|]|].
  inversion Hp as [|? ? [_ Hprev] Hp']; subst. inversion Hs as [|? ? Hs' Hle]; subst.
  inversion Hp' as [|? ? [_ Hthis] _]; subst. specialize (IH Hp' Hs').
  cbn [dups]. destruct (Z.leb_spec (s64 (v_start this).1) (s64 (v_end prev).1)) as [Ho|Ho].
  - split; [done|]. intros [Hd _]. inversion Hd as [|? ? Hdis _]; subst. exfalso.
    apply (Hdis (s64 (v_start this).1)); unfold within; inversion Hle; unfold starts_le in *; lia.
  - cbn [app]. rewrite IH. split; [|by intros [_ ?]]. intros Hall. split; [|done].
    inversion Hs' as [|? ? _ Hge]; subst.
    assert (Forall (starts_le this) (this :: l)) as Hall' by (constructor; [unfold starts_le; lia|done]).
    eapply List.Forall_impl; [|exact Hall']. intros b Hb x. unfold within, starts_le in *. lia.
Qed.

Lemma all_disjoint_lookup (l : list vals) :
  all_disjoint l <->
  forall (i j : nat) a b x, i <> j -> l !! i = Some a -> l !! j = Some b -> within a x -> within b x -> False.
Proof.
  induction l as [|c l IH]; simpl; [by split|]. split.
  - intros [Hc Hl] [|i] [|j] a b x Hij Ha Hb Hax Hbx; simpl in *; try done.
    + injection Ha as <-. apply (proj1 (Forall_lookup _ _) Hc j b Hb x); done.
    + injection Hb as <-. apply (proj1 (Forall_lookup _ _) Hc i a Ha x); done.
    + apply (proj1 IH Hl i j a b x); auto.
  - intros Hall. split.
    + apply Forall_lookup. intros i b Hb x Hx Hy. by apply (Hall 0%nat (S i) c b x).
    + apply IH. intros i j a b x Hij Ha Hb. apply (Hall (S i) (S j) a b x); auto.
Qed.

Lemma dups_iff (vs : list vals) : Forall proper vs -> dups (qsort vs) = [] <-> all_disjoint vs.
Proof.
  intros Hp. rewrite dups_sorted; [|by rewrite qsort_perm|by apply qsort_sorted].
  split; apply all_disjoint_perm; [|symmetry]; apply qsort_perm.
Qed.

(** a switch gets no error for duplicate or overlapping cases, all signed or
    below 2^63, just if no value is in two of its cases, ranges included and in
    whatever order the cases are written. *)
Theorem switch_dups_spec (sw : switch_) (vs : list vals) :
  gather (cases sw) = Some vs -> Forall proper vs ->
  fold_switch_dups sw = [] <->
  forall (i j : nat) a b x, i <> j -> vs !! i = Some a -> vs !! j = Some b -> within a x -> within b x -> False.
Proof.
  intros Hg Hp. unfold fold_switch_dups. rewrite Hg, dups_iff by done. apply all_disjoint_lookup.
Qed.

(** ** Dispatch *)

Lemma gather_vals (cs : list case_stmt) (vs : list vals) :
  gather cs = Some vs ->
  length cs = length vs /\
  forall i c a, cs !! i = Some c -> vs !! i = Some a ->
    c_expr c = Some (v_start a) /\ (if c_range c then c_expr2 c = Some (v_end a) else v_end a = v_start a).
Proof.
  revert vs; induction cs as [|c cs IH]; intros vs; simpl.
  - intros [= <-]. split; [done|]. by intros [|i].
  - destruct (c_expr c) as [s|] eqn:Ec; [|done].
    destruct (if c_range c then c_expr2 c else Some s) as [e|] eqn:Ee; [|done].
    destruct (gather cs) as [l|]; [|done]. intros [= <-]. destruct (IH l eq_refl) as [Hl Hi].
    split; [simpl; congruence|]. intros [|i] d a; simpl; [|apply Hi].
    intros [= <-] [= <-]. simpl. split; [done|]. destruct (c_range c); [done|congruence].
Qed.

(** The first of the cases, numbered from [i], that covers [x]. *)
Fixpoint first_covering (i : nat) (vs : list vals) (x : Z) : option nat :=
  match vs with
  | [] => None
  | a :: vs => if (s64 (v_start a).1 <=? x) && (x <=? s64 (v_end a).1) then Some i
               else first_covering (S i) vs x
  end.

(** The value is one of a type of [sz] bytes. *)
Definition in_type (sg : bool) (sz v : Z) : Prop := if sg then is_s (8 * sz) v else is_u (8 * sz) v.

Lemma in_type_wider (sg : bool) (sz sz' v : Z) : 1 <= sz <= sz' -> in_type sg sz v -> in_type sg sz' v.
Proof.
  intros H. assert (2 ^ (8 * sz) <= 2 ^ (8 * sz') /\ 2 ^ (8 * sz - 1) <= 2 ^ (8 * sz' - 1))
    by (split; apply Z.pow_le_mono_r; lia).
  destruct sg; unfold in_type, is_s, is_u; lia.
Qed.

(** Cut to the type's width, and read with its sign, a number that is the value
    but for the higher bits. *)
Lemma in_type_read (sg : bool) (sz v raw : Z) :
  1 <= sz <= 8 -> in_type sg sz v -> u64 raw = u64 v ->
  (if sg then wraps (8 * sz) raw else wrapu (8 * sz) raw) = v.
Proof.
  intros Hsz Hv E. destruct sg; cbn in Hv.
  - rewrite <- (wraps_u64 (8 * sz) raw), E, wraps_u64 by lia. apply wraps_id; [lia|done].
  - rewrite <- (wrapu_u64 (8 * sz) raw), E, wrapu_u64 by lia. by apply wrapu_id.
Qed.

Section compare.
Context (g : Types.target) (sues : sue_id -> sue).
Context (t : type) (sz : Z) (sg : bool).
Hypothesis t_size : type_size g sues t = Ok sz.
Hypothesis t_signed : type_is_signed g t = Ok sg.
Hypothesis t_wide : 1 <= sz <= 8.

(** A constant of a type of its own whose value is one of [t] too. *)
Record bound (c : type * Z) (v : Z) : Prop := mk_bound {
  bd_type : exists sz' sg', type_size g sues c.1 = Ok sz' /\ type_is_signed g c.1 = Ok sg' /\
                            1 <= sz' <= 8 /\ in_type sg' sz' v;
  bd_in : in_type sg sz v;
  bd_raw : u64 c.2 = u64 v
}.

Lemma bound_self (x : Z) : in_type sg sz x -> bound (t, x) x.
Proof using t_size t_signed t_wide. intros H. constructor; [exists sz, sg; split_and!; (done || lia)|done|done]. Qed.

(** An operand as the comparison reads it. *)
Lemma promoted (v raw sz' W : Z) (sg' : bool) :
  in_type sg' sz' v -> in_type sg sz v -> 1 <= sz' <= W -> sz <= W -> W <= 8 -> u64 raw = u64 v ->
  (if sg then wraps (8 * W) (maybe_promote raw sz' W sg') else wrapu (8 * W) (maybe_promote raw sz' W sg')) = v.
Proof using t_wide.
  intros H1 H2 Hsz Hw Hw8 E. apply (in_type_wider _ _ W) in H2; [|lia].
  unfold maybe_promote. destruct (Z.ltb_spec sz' W); [|by apply in_type_read; [lia|..]].
  rewrite (in_type_read sg' sz' v raw) by (try done; lia). apply in_type_read; [lia|done|done].
Qed.

Lemma impl_op_bounds (op : op_type) (l r : type * Z) (a b : Z) :
  bound l a -> bound r b -> (l.1 = t) ->
  impl_op g sues op l r
  = match op with
    | op_eq => Ok (a =? b) | op_lt => Ok (a <? b) | op_gt => Ok (b <? a)
    | _ => Ice "not a comparison of a switch"
    end.
Proof using t_size t_signed t_wide.
  intros [_ Ha Ra] [(sz' & sg' & Hsz' & Hsg' & Hw & Hb') Hb Rb] El.
  unfold impl_op. rewrite El, t_signed, t_size, Hsg', Hsz'. go. cbv zeta.
  rewrite (promoted a l.2 sz (Z.max sz sz') sg) by (try done; lia).
  by rewrite (promoted b r.2 sz' (Z.max sz sz') sg') by (try done; lia).
Qed.

(** What the case's constants are: the first of the type switched on, and both
    values of that type, the second of its own type as well. *)
Definition case_bounds (c : case_stmt) : Prop :=
  forall lo, c_expr c = Some lo -> bound (c_type c, lo.1) (s64 lo.1) /\ c_type c = t /\
  (c_range c = true -> forall hi, c_expr2 c = Some hi -> bound (c_type2 c, hi.1) (s64 hi.1)).

Lemma tests_dispatch (cs : list case_stmt) (i : nat) (vs : list vals) (d : bool) (x : Z) :
  gather cs = Some vs -> Forall case_bounds cs -> in_type sg sz x ->
  exists ts, gen_tests i cs = Ok ts /\
    run_tests g sues ts d (t, x) = Ok (match first_covering i vs x with
                                       | Some j => Case j | None => if d then Default else End end).
Proof using t_size t_signed t_wide.
  intros Hg Hb Hx. apply bound_self in Hx. revert i vs Hg; induction Hb as [|c cs Hc _ IH]; intros i vs Hg; simpl in Hg.
  - injection Hg as <-. by exists [].
  - destruct (c_expr c) as [lo|] eqn:Ec; [|done].
    destruct (if c_range c then c_expr2 c else Some lo) as [hi|] eqn:Ee; [|done].
    destruct (gather cs) as [l|]; [|done]. injection Hg as <-.
    destruct (IH (S i) l eq_refl) as (ts & Hts & Hrun). destruct (Hc lo Ec) as (Hlo & Et & Hhi).
    simpl. unfold case_test, val_i. rewrite Ec. destruct lo as [lo sl], hi as [hi sh]. simpl in *.
    destruct (c_range c).
    + rewrite Ee. simpl. rewrite Hts. simpl. eexists; split; [done|]. cbn [run_tests].
      rewrite (impl_op_bounds op_lt _ _ x (s64 lo)) by done. go.
      rewrite (impl_op_bounds op_gt _ _ x (s64 hi)) by (try done; by apply (Hhi eq_refl (hi, sh))). go.
      destruct (Z.ltb_spec x (s64 lo)), (Z.leb_spec (s64 lo) x); try lia; simpl; [done|].
      destruct (Z.ltb_spec (s64 hi) x), (Z.leb_spec x (s64 hi)); try lia; done.
    + injection Ee as <- _. simpl. rewrite Hts. simpl. eexists; split; [done|]. cbn [run_tests].
      rewrite (impl_op_bounds op_eq _ _ (s64 lo) x) by done. go.
      destruct (Z.eqb_spec (s64 lo) x), (Z.leb_spec (s64 lo) x), (Z.leb_spec x (s64 lo)); try lia; done.
Qed.
End compare.

Lemma first_covering_spec (vs : list vals) (i : nat) (x : Z) :
  match first_covering i vs x with
  | Some j => exists k a, j = (i + k)%nat /\ vs !! k = Some a /\ within a x
  | None => forall k a, vs !! k = Some a -> ~ within a x
  end.
Proof.
  revert i; induction vs as [|a vs IH]; intros i; simpl; [by intros [|k]|].
  destruct ((s64 (v_start a).1 <=? x) && (x <=? s64 (v_end a).1)) eqn:E.
  - exists 0%nat, a. apply andb_true_iff in E as [H1%Z.leb_le H2%Z.leb_le].
    split_and!; [lia|done|by split].
  - specialize (IH (S i)). destruct (first_covering (S i) vs x) as [j|].
    + destruct IH as (k & b & -> & Hk & Hb). exists (S k), b. split; [lia|done].
    + intros [|k] b Hb; simpl in Hb; [|eauto]. injection Hb as <-. intros [H1 H2].
      apply andb_false_iff in E as [E%Z.leb_gt|E%Z.leb_gt]; lia.
Qed.

(** C22: the chain of tests of a switch that had no error for its cases takes a
    value of the type switched on, held in a register, to the case that covers
    it, which is the only one, and to the default label, or past the switch,
    just if no case does. Each constant is compared at the width of the wider of
    the two types and with the sign of the type switched on, so the bounds must
    be values of that type: they are for a [case], which is cast to it, but the
    upper bound of a range keeps its own type ([range_bound_unsigned]). They are
    also signed constants, or below 2^63, for the check for duplicates to see
    them in order. *)
Theorem switch_dispatch (g : Types.target) (sues : sue_id -> sue) (sz : Z) (sg : bool)
    (sw : switch_) (vs : list vals) (x : Z) :
  type_size g sues (sw_type sw) = Ok sz -> type_is_signed g (sw_type sw) = Ok sg -> 1 <= sz <= 8 ->
  Forall (case_bounds g sues (sw_type sw) sz sg) (cases sw) ->
  gather (cases sw) = Some vs -> Forall proper vs -> fold_switch_dups sw = [] -> in_type sg sz x ->
  exists t, gen_stmt_switch g sues sw x = Ok t /\
    (forall i a, vs !! i = Some a -> within a x -> t = Case i) /\
    ((forall i a, vs !! i = Some a -> ~ within a x) -> t = if default_case sw then Default else End).
Proof.
  intros Hsz Hsg Hw Hb Hg Hp Hd Hx.
  destruct (tests_dispatch g sues _ sz sg Hsz Hsg Hw _ 0 vs (default_case sw) x Hg Hb Hx) as (ts & Hts & Hrun).
  unfold gen_stmt_switch. rewrite Hts. simpl. eexists; split; [exact Hrun|].
  pose proof (first_covering_spec vs 0 x) as Hf. unfold fold_switch_dups in Hd. rewrite Hg, dups_iff in Hd by done.
  destruct (first_covering 0 vs x) as [j|].
  - destruct Hf as (k & b & -> & Hk & Hb'). split.
    + intros i a Ha Hax. simpl. f_equal. destruct (decide (k = i)) as [|Hne]; [done|]. exfalso.
      by apply (proj1 (all_disjoint_lookup vs) Hd k i b a x).
    + intros Hall. by destruct (Hall k b Hk).
  - split; [|done]. intros i a Ha Hax. by destruct (Hf i a Ha).
Qed.

(** ** Enumerators *)

Lemma visited_spec (n : nat) (v w x : Z) :
  (Z.to_nat (w - v) < n)%nat -> w <= NUMERIC_T_MAX -> x ∈ visited n v w <-> v <= x <= w.
Proof.
  revert v; induction n as [|n IH]; intros v Hn Hw; [lia|]. cbn [visited].
  destruct (Z.leb_spec v w).
  - rewrite elem_of_cons. destruct (Z.eqb_spec v NUMERIC_T_MAX).
    + rewrite elem_of_nil. lia.
    + destruct (Z.eq_dec v w) as [->|].
      * destruct n as [|n]; cbn [visited]; [rewrite elem_of_nil; lia|].
        replace (w + 1 <=? w) with false by lia. rewrite elem_of_nil. lia.
      * rewrite IH by lia. lia.
  - rewrite elem_of_nil. lia.
Qed.

Lemma span_spec (v w x : Z) : w <= NUMERIC_T_MAX -> x ∈ span v w <-> v <= x <= w.
Proof. intros Hw. apply visited_spec; [lia|done]. Qed.

Lemma spans_spec (cs : list case_stmt) (vs : list vals) :
  gather cs = Some vs -> Forall (fun a => is_u 64 (v_end a).1) vs ->
  exists l, spans cs = Ok l /\ forall x, x ∈ l <-> exists a, a ∈ vs /\ (v_start a).1 <= x <= (v_end a).1.
Proof.
  revert vs; induction cs as [|c cs IH]; intros vs Hg Hb; simpl in Hg.
  - injection Hg as <-. exists []. split; [done|]. intros x. rewrite elem_of_nil. split; [done|].
    by intros (a & Ha%elem_of_nil & _).
  - destruct (c_expr c) as [s|] eqn:Ec; [|done].
    destruct (if c_range c then c_expr2 c else Some s) as [e|] eqn:Ee; [|done].
    destruct (gather cs) as [r|]; [|done]. injection Hg as <-. inversion Hb as [|? ? [_ He] Hb']; subst.
    destruct (IH r eq_refl Hb') as (l & Hl & Hin).
    assert (Hspan : case_span c = Ok (span s.1 e.1)).
    { unfold case_span, val_i. rewrite Ec. destruct s as [lo ls], e as [hi hs]. simpl.
      destruct (c_range c); [by rewrite Ee|by injection Ee as <- _]. }
    simpl. rewrite Hspan. simpl. rewrite Hl. simpl. eexists; split; [done|]. intros x.
    rewrite elem_of_app, span_spec, Hin by (unfold NUMERIC_T_MAX in *; simpl in He; lia). split.
    + intros [Hx|(a & Ha & Hx)]; [eexists; split; [by left|done]|exists a; split; [by right|done]].
    + intros (a & [->|Ha]%elem_of_cons & Hx); [by left|]. right. by exists a.
Qed.

Lemma handled_iff (vs : list Z) (m : Z) :
  (length vs < 256)%nat ->
  (negb (Z.of_nat (length (filter (fun v => v = m) vs)) mod 256 =? 0) = true <-> m ∈ vs).
Proof.
  intros Hl. pose proof (length_filter (fun v => v = m) vs) as Hf.
  rewrite Z.mod_small by lia. rewrite negb_true_iff, Z.eqb_neq. split.
  - intros Hne. destruct (filter (fun v => v = m) vs) as [|v f] eqn:E; [done|].
    assert (v ∈ filter (fun v => v = m) vs) as Hin by (rewrite E; by left).
    apply list_elem_of_filter in Hin as [-> Hin]. done.
  - intros Hin. assert (m ∈ filter (fun v => v = m) vs) as Hf' by (by apply list_elem_of_filter).
    destruct (filter (fun v => v = m) vs); [by apply elem_of_nil in Hf'|]. simpl. lia.
Qed.

(** in a switch on an enum without a default label, whose case ranges visit
    fewer than 256 values in all, an enumerator is reported as not handled just
    if no case covers its value, and a value is reported as not a member just if
    a case covers it and no enumerator has it. *)
Theorem switch_enum_spec (sw : switch_) (vs : list vals) (ents : list Z) (w : bool) (visits : list Z) :
  gather (cases sw) = Some vs -> Forall (fun a => is_u 64 (v_end a).1) vs -> default_case sw = false ->
  spans (cases sw) = Ok visits -> (length visits < 256)%nat ->
  exists r, fold_switch_enum sw ents w = Ok r /\
    (forall i, i ∈ not_handled r <->
       exists m, ents !! i = Some m /\ forall a, a ∈ vs -> ~ (v_start a).1 <= m <= (v_end a).1) /\
    (forall v, v ∈ not_members r <->
       v ∉ ents /\ exists a, a ∈ vs /\ (v_start a).1 <= v <= (v_end a).1).
Proof.
  intros Hg Hb Hd Hv Hl. destruct (spans_spec _ _ Hg Hb) as (l & Hl' & Hin).
  rewrite Hv in Hl'. injection Hl' as <-. unfold fold_switch_enum. rewrite Hv, Hd. simpl.
  eexists; split; [done|]. simpl. split.
  - intros i. rewrite list_elem_of_filter. split.
    + intros [Hh Hi]. apply elem_of_seq in Hi as [_ Hi]. simpl in Hi.
      destruct (lookup_lt_is_Some_2 ents i Hi) as [m Hm]. rewrite Hm in Hh. simpl in Hh.
      exists m. split; [done|]. intros a Ha Hx.
      assert (m ∈ visits) as Hmv by (apply Hin; eauto). apply (handled_iff visits m Hl) in Hmv. congruence.
    + intros (m & Hm & Hn). split.
      * rewrite Hm. simpl. apply not_true_is_false. rewrite (handled_iff visits m Hl), Hin.
        intros (a & Ha & Hx). by apply (Hn a).
      * apply elem_of_seq. apply lookup_lt_Some in Hm. lia.
  - intros v. rewrite list_elem_of_filter, Hin. apply and_iff_compat_r.
    rewrite <- not_true_iff_false, existsb_exists. split.
    + intros Hn Hv'. apply Hn. exists v. split; [by apply list_elem_of_In|apply Z.eqb_refl].
    + intros Hn (x & Hx & ->%Z.eqb_eq). apply Hn. by apply list_elem_of_In.
Qed.

(** ** Witnesses and examples *)

Definition one_case (v suf : Z) : case_stmt :=
  mk_case (Some (v, suf)) (ty type_int) None (ty type_int) false.
Definition range_case (v w : Z) : case_stmt :=
  mk_case (Some (v, 0)) (ty type_int) (Some (w, 0)) (ty type_int) true.
Definition switch_int (cs : list case_stmt) (d : bool) : switch_ := mk_switch (ty type_int) cs d.

(** [case 5: case 1 ... 3: case -2: case 4:], and with [case 2 ... 7:] too. *)
Definition sample_switch : switch_ :=
  switch_int [one_case 5 0; range_case 1 3; one_case (2 ^ 64 - 2) 0; one_case 4 0] true.
Definition sample_overlap : switch_ :=
  switch_int [one_case 5 0; range_case 1 3; range_case 2 7] true.
Definition sample_vals : list vals :=
  [mk_vals (5, 0) (5, 0); mk_vals (1, 0) (3, 0); mk_vals (2 ^ 64 - 2, 0) (2 ^ 64 - 2, 0); mk_vals (4, 0) (4, 0)].

Example overlap_reported : fold_switch_dups sample_overlap = [(true, 2); (true, 5)].
Proof. reflexivity. Qed.

Lemma sample_proper : Forall proper sample_vals.
Proof. repeat constructor; vm_compute; congruence. Defined.

Lemma int_bound (v : Z) : u64 v = v -> is_s 32 (s64 v) -> bound linux64 no_sues 4 true (ty type_int, v) (s64 v).
Proof.
  intros E H. constructor; [exists 4, true; split_and!; try done; lia|exact H|]. by rewrite u64_s64.
Qed.

Lemma sample_bounds : Forall (case_bounds linux64 no_sues (ty type_int) 4 true) (cases sample_switch).
Proof.
  assert (forall v suf, u64 v = v -> is_s 32 (s64 v) ->
    case_bounds linux64 no_sues (ty type_int) 4 true (one_case v suf)) as One.
  { intros v suf E H lo [= <-]. split; [by apply int_bound|]. by split. }
  cbn [cases sample_switch switch_int]. rewrite !Forall_cons, Forall_nil.
  split_and!; try done; try (apply One; [reflexivity|by_decide]).
  intros lo [= <-]. split; [apply int_bound; [reflexivity|by_decide]|]. split; [done|].
  intros _ hi [= <-]. apply int_bound; [reflexivity|by_decide].
Qed.

Lemma switch_dups_spec_witness : fold_switch_dups sample_switch = [].
Proof.
  refine (proj2 (switch_dups_spec sample_switch sample_vals eq_refl sample_proper) _).
  apply all_disjoint_lookup, dups_iff; [exact sample_proper|reflexivity].
Defined.

Lemma switch_dispatch_witness :
  exists t, gen_stmt_switch linux64 no_sues sample_switch (-2) = Ok t /\ t = Case 2.
Proof.
  destruct (switch_dispatch linux64 no_sues 4 true sample_switch sample_vals (-2) eq_refl eq_refl ltac:(lia)
    sample_bounds eq_refl sample_proper eq_refl) as (t & Ht & Hc & _); [by_decide|].
  exists t. split; [exact Ht|]. apply (Hc 2%nat (mk_vals (2 ^ 64 - 2, 0) (2 ^ 64 - 2, 0)) eq_refl).
  split; vm_compute; congruence.
Defined.

(** [switch(x){ case 1 ... 3000000000u: }]: the upper bound is compared as a
    negative [int], so no value is in the range. *)
Definition unsigned_bound : switch_ :=
  switch_int [mk_case (Some (1, 0)) (ty type_int) (Some (3000000000, VAL_UNSIGNED)) (ty type_uint) true] false.
Example range_bound_unsigned :
  gen_stmt_switch linux64 no_sues unsigned_bound 5 = Ok End /\ fold_switch_dups unsigned_bound = [] /\
  within (mk_vals (1, 0) (3000000000, VAL_UNSIGNED)) 5.
Proof. split; [reflexivity|]. split; [reflexivity|]. split; vm_compute; congruence. Qed.

(** A case is cast to the type switched on. *)
Example case_cast :
  fold_stmt_and_add_to_curswitch linux64 no_sues true
    (Some (mk_case (Some (2 ^ 32 + 7, 0)) (ty type_long) None (ty type_int) false)) (Some (switch_int [] false))
  = Ok (Some (switch_int [one_case 7 0] false), false).
Proof. reflexivity. Qed.

Lemma switch_enum_spec_witness :
  exists r, fold_switch_enum (switch_int [one_case 2 0; range_case 4 5] false) [1; 2; 4] true = Ok r /\
    0%nat ∈ not_handled r /\ 5 ∈ not_members r.
Proof.
  destruct (switch_enum_spec (switch_int [one_case 2 0; range_case 4 5] false)
    [mk_vals (2, 0) (2, 0); mk_vals (4, 0) (5, 0)] [1; 2; 4] true [2; 4; 5] eq_refl) as (r & Hr & Hh & Hm).
  - by_decide.
  - reflexivity.
  - reflexivity.
  - simpl. lia.
  - exists r. split; [exact Hr|]. split.
    + apply Hh. exists 1. split; [done|]. intros a Ha. rewrite !elem_of_cons, elem_of_nil in Ha.
      destruct Ha as [->|[->|[]]]; simpl; lia.
    + apply Hm. split; [by_decide|]. eexists; split; [right; left|simpl; lia].
Defined.

(** [case 1ul: case -1ul:] are said to be duplicates: they are sorted as unsigned
    and compared as [long]. *)
Example unsigned_cases :
  fold_switch_dups (switch_int [one_case 1 3; one_case (2 ^ 64 - 1) 3] false) = [(false, -1)].
Proof. reflexivity. Qed.

(** [case -5 ... 5:] is said to be an inverse range, compared as unsigned. *)
Example negative_range : fold_stmt_case_range (range_case (2 ^ 64 - 5) 5) = Die "case range equal or inverse".
Proof. reflexivity. Qed.

(** With a default label nothing is marked, and the label is said to cover all
    the values. *)
Example default_not_covered :
  fold_switch_enum (switch_int [] true) [1; 2] false = Ok (mk_report [] [] true).
Proof. reflexivity. Qed.
