(* ===== verification/Data.v ===== *)
(** * Static data

    [src/src/cc1/out/asm.c]: the directives an initialised object is emitted as,
    after [decl_init.c] has put the initialiser in shape (a brace for each
    aggregate, the members in order), and the representation it has in memory
    according to the layout of its type. *)

From S2P Require Import Prelude Arith Triple Types Consts Layout.
Local Open Scope Z_scope.

(** ** Initialisers *)

(** [decl_init]. An expression is what matters of it here: its type, what
    [const_fold] makes of it, and the initialiser of the compound literal it is
    (or reads). A floating constant is the host's. An array of initialisers
    holds [DYNARRAY_NULL] where one is missing; it is null when it is empty. An
    initialiser for a range points at the one it copies. *)
Inductive folded (F : Type) :=
  | folded_num (k : consty)
  | folded_float (f : F).
Arguments folded_num {F} k.
Arguments folded_float {F} f.

Inductive decl_init (F : Type) :=
  | decl_init_scalar (tree_type : type) (k : folded F) (comp_lit : option (decl_init F))
  | decl_init_brace (inits : list (option (decl_init F)))
  | decl_init_copy (range_init : decl_init F).
Arguments decl_init_scalar {F} tree_type k comp_lit.
Arguments decl_init_brace {F} inits.
Arguments decl_init_copy {F} range_init.

(** ** Assembly *)

(** What a data directive is given, and the offset printed after it. *)
Inductive datum :=
  | datum_num (v : Z)
  | datum_lbl (lbl : cstr).

Inductive item :=
  | item_space (n : Z)
  | item_data (directive : string) (v : datum) (offset : Z)
  | item_comment
  | item_align (n : Z)
  | item_label (lbl : cstr)
  | item_local (lbl : cstr)
  | item_comm (lbl : cstr) (size align : Z).

Definition asm_type_table : list (Z * string) :=
  [(1, "byte"); (2, "word"); (4, "long"); (8, "quad")]%string.

Section emit.
Context (g : target) (sues : sue_id -> sue) (cast_w_builtin_types : bool).
(** The host's floating constants and the bits of their [float] and [double]. *)
Context {F : Type} (float_bits double_bits : F -> Z).
(** The fuel of [type_cmp]. *)
Context (fuel : nat).

Fixpoint table_find (sz : Z) (table : list (Z * string)) : option string :=
  match table with
  | [] => None
  | (n, name) :: table => if n =? sz then Some name else table_find sz table
  end.

(** The entry found, for a type that is there. *)
Definition asm_table_lookup (r : type) : res string :=
  sz ← (match kind (type_skip_all r) with
        | kind_array | kind_func => Ok (platform_word_size g)
        | _ => type_size g sues r
        end);
  match table_find sz asm_type_table with
  | Some name => Ok name
  | None => Ice "no asm type index for byte size"
  end.

Definition asm_type_directive (r : type) : res string := asm_table_lookup r.

Definition asm_declare_pad (pad : Z) : list item := if pad =? 0 then [] else [item_space pad].

(** *** Bitfields *)

Record bitfield_val : Type := mk_bitfield_val {
  bf_val : Z;
  bf_offset : Z;
  bf_width : Z
}.

(** [integral_truncate_bits] without a [signed_iv]. *)
Definition truncate_bits (val bits : Z) : Z :=
  let truncated := Z.land val (if bits <? INTEGRAL_BITS
                               then u64 (Z.lnot (u64 (Z.shiftl NUMERIC_T_MAX bits)))
                               else NUMERIC_T_MAX) in
  if cast_w_builtin_types && ((bits =? 8) || (bits =? 16) || (bits =? 32) || (bits =? 64))
  then wrapu bits val else truncated.

(** The loop: [v] and [width]. *)
Fixpoint bitfields_value (vals : list bitfield_val) (v width : Z) : res (Z * Z) :=
  match vals with
  | [] => Ok (v, width)
  | b :: vals =>
      let this := truncate_bits (bf_val b) (bf_width b) in
      if 64 <=? bf_offset b then Ub "shift out of range"
      else bitfields_value vals (Z.lor v (u64 (Z.shiftl this (bf_offset b)))) (u32 (width + bf_width b))
  end.

Definition asm_declare_init_bitfields (vals : list bitfield_val) (ty : type) : res (list item) :=
  r ← bitfields_value vals 0 0;
  if 0 <? r.2 then
    name ← asm_type_directive ty;
    Ok [item_data name (datum_num (s64 r.1)) 0]
  else Ok [item_comment].

(** [kval] is the folded scalar, none for 0. *)
Definition folded_val_i (k : folded F) : res Z :=
  match k with folded_num k => const_fold_val_i k | folded_float _ => Ice "not an integer constant" end.

Definition bitfield_val_set (kval : option (folded F)) (field_w : Z) : res bitfield_val :=
  v ← (match kval with Some k => folded_val_i k | None => Ok 0 end);
  Ok (mk_bitfield_val v 0 (u32 field_w)).

Definition assert_scalar (di : option (decl_init F)) : res (option (folded F)) :=
  match di with
  | None => Ok None
  | Some (decl_init_scalar _ k _) => Ok (Some k)
  | Some _ => Ice "scalar expected for bitfield init"
  end.

Definition bitfields_add (bfs : list bitfield_val) (mem : member) (field_w : Z)
    (di : option (decl_init F)) : res (list bitfield_val) :=
  k ← assert_scalar di;
  b ← bitfield_val_set k field_w;
  Ok (bfs ++ [mk_bitfield_val (bf_val b) (struct_offset_bitfield mem) (bf_width b)]).

(** *** Scalars *)

Definition asm_out_fp (ty : type) (f : F) : res (list item) :=
  match type_get_primitive ty with
  | type_float => Ok [item_data "long" (datum_num (float_bits f)) 0]
  | type_double => Ok [item_data "quad" (datum_num (double_bits f)) 0]
  | type_ldouble => Ice "TODO"
  | _ => Ice "bad float type"
  end.

(** [integral_str]: the number printed. *)
Definition integral_str (v : Z) (ty : type) : res Z :=
  is_signed ← type_is_signed g ty;
  sz ← type_size g sues ty;
  r ← integral_truncate cast_w_builtin_types v sz;
  Ok (if is_signed : bool then r.2 else r.1).

Definition static_val (ty : type) (k : folded F) : res (list item) :=
  match k with
  | folded_float f => asm_out_fp ty f
  | folded_num k =>
      match k_val k with
      | CONST_NO | CONST_NEED_ADDR _ => Ice "non-constant expr"
      | CONST_NUM i _ =>
          name ← asm_type_directive ty;
          v ← integral_str i ty;
          Ok [item_data name (datum_num v) (k_offset k)]
      | CONST_ADDR (CONST_LBL_TRUE lbl) | CONST_ADDR (CONST_LBL_WEAK lbl) | CONST_STRK lbl =>
          name ← asm_type_directive ty;
          Ok [item_data name (datum_lbl lbl) (k_offset k)]
      | CONST_ADDR (CONST_LBL_MEMADDR m) =>
          name ← asm_type_directive ty;
          Ok [item_data name (datum_num (s64 m)) (k_offset k)]
      end
  end.

(** *** Structs *)

(** An initialiser with what emitting it for a type comes to. *)
Abbreviation child := (decl_init F * (type -> res (list item)))%type.

(** The locals of the loop over the members. *)
Record struct_state : Type := mk_struct_state {
  end_of_last : Z;
  bitfields : list bitfield_val;
  first_bf : option member
}.

(** Bitfields put off so far, before a member that starts a group or is none:
    [type_of] is the type they are emitted as. *)
Definition flush_bitfields (s : struct_state) (type_of : member -> res type) : res (list item) :=
  match bitfields s with
  | [] => Ok []
  | bfs =>
      match first_bf s with
      | Some d => ty ← type_of d; asm_declare_init_bitfields bfs ty
      | None => Ub "null first_bf"
      end
  end.

(** A bitfield member: a new group may start, and the member joins it. *)
Definition struct_bitfield (d : member) (width : Z) (di : option child) (s : struct_state)
    : res (list item * struct_state) :=
  let zero_width := s32 width =? 0 in
  grp ← (
    match first_bf s with
    | Some first =>
        if first_bitfield d then
          out ← asm_declare_init_bitfields (bitfields s) (m_ref first);
          Ok (out, [], if zero_width then None else Some d)
        else Ok ([], bitfields s, first_bf s)
    | None => Ok ([], bitfields s, if zero_width then None else Some d)
    end : res (list item * list bitfield_val * option member));
  let '(out, bfs, first) := grp in
  bfs ← (if zero_width then Ok bfs else bitfields_add bfs d width (option_map fst di));
  Ok (out, mk_struct_state (end_of_last s) bfs first).

(** The memory a null initialiser stands for. *)
Definition asm_declare_null (tfor : type) : res (list item) :=
  if type_is_incomplete_array tfor then Ok [item_comment]
  else sz ← type_size g sues tfor; Ok (asm_declare_pad sz).

Definition emit_child (di : option child) (tfor : type) : res (list item) :=
  match di with Some c => c.2 tfor | None => asm_declare_null tfor end.

(** One member. [last]: no member follows. *)
Definition struct_member_init (d : member) (last : bool) (di : option child) (s : struct_state)
    : res (list item * struct_state) :=
  pad ← (
    if bool_decide (field_width d = None) || bool_decide (first_bf s = None) then
      if struct_offset d <? end_of_last s then Ice "negative struct pad"
      else Ok (asm_declare_pad (u32 (struct_offset d - end_of_last s)))
    else Ok []);
  r ← (
    match field_width d with
    | Some width => struct_bitfield d width di s
    | None =>
        out ← flush_bitfields s (decl_type_for_bitfield g);
        val ← emit_child di (m_ref d);
        Ok (out ++ val, mk_struct_state (end_of_last s) []
              (match bitfields s with [] => first_bf s | _ => None end))
    end : res (list item * struct_state));
  let '(out, s) := r in
  if type_is_incomplete_array (m_ref d) then
    if last then Ok (pad ++ out, s) else Ice "flex-arr not at end"
  else if bool_decide (field_width d = None) || first_bitfield d then
    sa ← decl_size_align_inc_bitfield g sues d;
    Ok (pad ++ out, mk_struct_state (u32 (struct_offset d + sa.1)) (bitfields s) (first_bf s))
  else Ok (pad ++ out, s).

(** The loop: the initialisers run along with the members, and may end first. *)
Fixpoint struct_members_init (members : list sue_member) (inits : list (option child))
    (s : struct_state) : res (list item * struct_state) :=
  match members with
  | [] => Ok ([], s)
  | enum_member _ _ :: _ => Ub "an enumerator in a struct"
  | struct_member d :: members =>
      let '(di, inits) := match inits with [] => (None, []) | di :: inits => (di, inits) end in
      r ← struct_member_init d (bool_decide (members = [])) di s;
      rest ← struct_members_init members inits r.2;
      Ok (r.1 ++ rest.1, rest.2)
  end.

Definition struct_init (st : sue) (inits : list (option child)) : res (list item) :=
  r ← struct_members_init (s_members st) inits (mk_struct_state 0 [] None);
  tail ← flush_bitfields r.2 (fun d => Ok (m_ref d));
  size ← sue_size st;
  Ok (r.1 ++ tail ++ asm_declare_pad (u32 (size - end_of_last r.2))).

(** *** Arrays and unions *)

(** [len] elements; when the initialisers run out the rest are null. The array
    of initialisers is read even when it is the null pointer. *)
Fixpoint array_elements (next : type) (len : nat) (inits : list (option child)) : res (list item) :=
  match len with
  | O => Ok []
  | S len =>
      let '(this, inits) := match inits with [] => (None, []) | di :: inits => (di, inits) end in
      out ← emit_child this next;
      rest ← array_elements next len inits;
      Ok (out ++ rest)
  end.

Definition array_init (tfor : type) (inits : list (option child)) : res (list item) :=
  match type_skip_all tfor with
  | type_array next size _ _ =>
      len ← (
        if type_is_incomplete_array tfor then Ok (Z.of_nat (length inits))
        else
          complete ← type_is_complete sues tfor;
          if complete : bool then n ← fold_size size; Ok (u32 n) else Ice "incomplete array/type init");
      if bool_decide (inits = []) && negb (len =? 0) then Ub "null initialisers"
      else array_elements next (Z.to_nat len) inits
  | _ => Ice "type_next"
  end.

(** The first initialiser that is there, and its index. *)
Fixpoint union_find (inits : list (option child)) (i : nat) : option (nat * child) :=
  match inits with
  | [] => None
  | Some c :: _ => Some (i, c)
  | None :: inits => union_find inits (S i)
  end.

Definition union_init (st : sue) (tfor : type) (inits : list (option child)) : res (list item) :=
  if bool_decide (inits = []) then Ub "null initialisers"
  else
    r ← (
      match union_find inits 0 with
      | None => Ok ([], 0)
      | Some (i, c) =>
          match s_members st !! i with
          | Some (struct_member mem) =>
              out ← (
                match field_width mem with
                | Some width =>
                    k ← assert_scalar (Some c.1);
                    bfv ← bitfield_val_set k width;
                    asm_declare_init_bitfields [bfv] (m_ref mem)
                | None => c.2 (m_ref mem)
                end);
              sub ← type_size g sues (m_ref mem);
              Ok (out, sub)
          | _ => Ub "no such member"
          end
      end : res (list item * Z));
    size ← type_size g sues tfor;
    Ok (r.1 ++ asm_declare_pad (u32 (size - r.2))).

(** *** Any type *)

Definition scalar_init (tree_type tfor : type) (k : folded F) : res (list item) :=
  c ← type_cmp g sues fuel tree_type tfor true;
  if bool_decide (c = TYPE_NOT_EQUAL) then Ice "mismatching init types" else static_val tfor k.

(** [decl_init_is_struct_copy] for a struct's brace: the compound literal's
    initialiser takes the place of the brace. *)
Definition is_struct_copy (inits : list (option (decl_init F))) (constraint : option sue_id) : bool :=
  match inits with
  | [Some (decl_init_scalar t _ _)] =>
      match type_is_s_or_u sues t, constraint with
      | None, _ => false
      | Some su, None => true
      | Some su, Some c => bool_decide (c = su)
      end
  | _ => false
  end.

Fixpoint asm_declare_init (init : decl_init F) (tfor : type) : res (list item) :=
  let sub (o : option (decl_init F)) : option child :=
    match o with Some d => Some (d, asm_declare_init d) | None => None end in
  let element (o : option (decl_init F)) : option child :=
    match o with
    | Some (decl_init_copy r) => Some (r, asm_declare_init r)
    | Some d => Some (d, asm_declare_init d)
    | None => None
    end in
  if type_is_primitive tfor type_struct then
    match type_is_s_or_u sues tfor, init with
    | Some id, decl_init_brace inits =>
        if is_struct_copy inits (Some id) then
          match inits with
          | [Some (decl_init_scalar _ _ (Some (decl_init_brace ar)))] =>
              struct_init (sues id) (map sub ar)
          | _ => Ice "unhandled expression init"
          end
        else struct_init (sues id) (map sub inits)
    | _, _ => Ice "unbraced struct"
    end
  else if bool_decide (kind (type_skip_all tfor) = kind_array) then
    match init with
    | decl_init_brace inits => array_init tfor (map element inits)
    | _ => Ice "unbraced struct"
    end
  else if type_is_primitive tfor type_union then
    match type_is_s_or_u sues tfor, init with
    | Some id, decl_init_brace inits => union_init (sues id) tfor (map sub inits)
    | _, _ => Ice "brace init expected"
    end
  else
    match init with
    | decl_init_scalar tree_type k _ => scalar_init tree_type tfor k
    | _ => Ice "scalar init expected"
    end.

(** *** Objects *)

(** [const_expr_and_zero], of floating constants too. *)
Definition folded_is_zero (float_is_zero : F -> bool) (k : folded F) : bool :=
  match k with folded_num k => const_expr_and_zero k | folded_float f => float_is_zero f end.

Fixpoint decl_init_is_zero (float_is_zero : F -> bool) (d : decl_init F) : bool :=
  match d with
  | decl_init_scalar _ k _ => folded_is_zero float_is_zero k
  | decl_init_brace inits =>
      forallb (fun o => match o with Some d => decl_init_is_zero float_is_zero d | None => true end) inits
  | decl_init_copy r => decl_init_is_zero float_is_zero r
  end.

(** What [asm_declare_decl_init] asks of a declaration, its section and the
    options; [d_align] is [decl_align]'s answer. *)
Record object : Type := mk_object {
  store_extern : bool;
  asm_spel : cstr;
  d_ref : type;
  d_align : Z;
  dinit : option (decl_init F);
  compiler_generated : bool;
  weak : bool;
  linkage_internal : bool
}.

Record asm_options : Type := mk_asm_options {
  section_builtin : bool;
  fopt_common : bool;
  supports_local_common : bool;
  ALIGN_IS_POW2 : bool
}.

Definition asm_out_align (o : asm_options) (align : Z) : res (list item) :=
  align ← (if ALIGN_IS_POW2 o then n ← log2i align; Ok (u32 n) else Ok align);
  Ok (if align =? 0 then [] else [item_align align]).

Definition asm_nam_begin (o : asm_options) (d : object) : res (list item) :=
  al ← asm_out_align o (d_align d);
  Ok (al ++ [item_label (asm_spel d)]).

(** [decl_size] of an object. *)
Definition object_size (d : object) : res Z :=
  if type_is_void (d_ref d) then Die "is void" else type_size g sues (d_ref d).

(** Common symbols, or else [fallback]. *)
Definition fallback_or_common (o : asm_options) (d : object) (fallback : res (list item))
    : res (list item) :=
  if section_builtin o && compiler_generated d && fopt_common o && negb (weak d) then
    if linkage_internal d && negb (supports_local_common o) then fallback
    else
      align ← (if ALIGN_IS_POW2 o then n ← log2i (d_align d); Ok (u32 n) else Ok (d_align d));
      size ← object_size d;
      Ok ((if linkage_internal d then [item_local (asm_spel d)] else [])
          ++ [item_comm (asm_spel d) size align])
  else fallback.

Definition asm_declare_decl_init (float_is_zero : F -> bool) (o : asm_options) (d : object)
    : res (list item) :=
  let fallback :=
    nam ← asm_nam_begin o d;
    size ← object_size d;
    Ok (nam ++ asm_declare_pad size) in
  if store_extern d then Ok []
  else
    match dinit d with
    | Some init =>
        if decl_init_is_zero float_is_zero init then fallback_or_common o d fallback
        else
          nam ← asm_nam_begin o d;
          val ← asm_declare_init init (d_ref d);
          Ok (nam ++ val)
    | None => fallback_or_common o d fallback
    end.

End emit.

(** ** What the assembler makes of it *)

(** The bytes of a number, the lowest first. *)
Fixpoint le_bytes (n : nat) (v : Z) : list Z :=
  match n with
  | O => []
  | S n => v mod 256 :: le_bytes n (v / 256)
  end.

Definition zeros (n : Z) : list Z := replicate (Z.to_nat n) 0.

Fixpoint table_size (name : string) (table : list (Z * string)) : Z :=
  match table with
  | [] => 0
  | (n, name') :: table => if decide (name = name') then n else table_size name table
  end.

(** [addr]: where the labels end up. *)
Section memory.
Context (addr : cstr -> Z).

Definition datum_value (v : datum) : Z :=
  match v with datum_num v => v | datum_lbl lbl => addr lbl end.

Definition item_bytes (i : item) : list Z :=
  match i with
  | item_space n => zeros n
  | item_data name v off =>
      le_bytes (Z.to_nat (table_size name asm_type_table)) (datum_value v + off)
  | _ => []
  end.

Definition bytes (items : list item) : list Z := flat_map item_bytes items.

(** ** The representation of an initialised object

    A zeroed object in which every scalar is stored where the layout of the type
    puts it. *)

Context (g : target) (sues : sue_id -> sue).
Context {F : Type} (float_bits double_bits : F -> Z).

Definition store (at_ : nat) (bs m : list Z) : list Z :=
  take at_ m ++ bs ++ drop (at_ + length bs) m.

Definition size_of (t : type) : nat :=
  match type_size g sues t with Ok n => Z.to_nat n | _ => 0%nat end.

Definition scalar_value (tfor : type) (k : folded F) : Z :=
  match k with
  | folded_float f =>
      if decide (type_get_primitive tfor = type_float) then float_bits f else double_bits f
  | folded_num k =>
      k_offset k +
      match k_val k with
      | CONST_NUM i _ => i
      | CONST_ADDR (CONST_LBL_TRUE lbl) | CONST_ADDR (CONST_LBL_WEAK lbl) | CONST_STRK lbl => addr lbl
      | CONST_ADDR (CONST_LBL_MEMADDR m) => m
      | CONST_NO | CONST_NEED_ADDR _ => 0
      end
  end.

(** Storing an initialiser for a type, at a place of the memory. *)
Abbreviation placer := (type -> nat -> list Z -> list Z).

Definition place_child (p : option placer) (tfor : type) (base : nat) (m : list Z) : list Z :=
  match p with Some p => p tfor base m | None => m end.

Fixpoint place_members (members : list sue_member) (inits : list (option placer)) (base : nat)
    (m : list Z) : list Z :=
  match members, inits with
  | struct_member d :: members, p :: inits =>
      place_members members inits base (place_child p (m_ref d) (base + Z.to_nat (struct_offset d)) m)
  | _, _ => m
  end.

Fixpoint place_elements (next : type) (len : nat) (inits : list (option placer)) (base : nat)
    (m : list Z) : list Z :=
  match len, inits with
  | S len, p :: inits =>
      place_elements next len inits (base + size_of next) (place_child p next base m)
  | _, _ => m
  end.

Fixpoint place_union (members : list sue_member) (inits : list (option placer)) (base : nat)
    (m : list Z) : list Z :=
  match members, inits with
  | struct_member d :: _, Some p :: _ => p (m_ref d) base m
  | _ :: members, None :: inits => place_union members inits base m
  | _, _ => m
  end.

Definition array_length (tfor : type) : nat :=
  match type_skip_all tfor with type_array _ (size_const n) _ _ => Z.to_nat n | _ => 0%nat end.

Definition array_next (tfor : type) : type :=
  match type_skip_all tfor with type_array next _ _ _ => next | t => t end.

Definition is_array (t : type) : bool := bool_decide (kind (type_skip_all t) = kind_array).

Fixpoint represent (init : decl_init F) (tfor : type) (base : nat) (m : list Z) : list Z :=
  let sub (o : option (decl_init F)) : option placer :=
    match o with Some d => Some (represent d) | None => None end in
  match init with
  | decl_init_scalar _ k _ => store base (le_bytes (size_of tfor) (scalar_value tfor k)) m
  | decl_init_copy r => represent r tfor base m
  | decl_init_brace inits =>
      match type_is_s_or_u sues tfor with
      | None => place_elements (array_next tfor) (array_length tfor) (map sub inits) base m
      | Some id =>
          if type_is_primitive tfor type_union then place_union (s_members (sues id)) (map sub inits) base m
          else
            match inits with
            | [Some (decl_init_scalar t _ (Some (decl_init_brace ar)))] =>
                if bool_decide (type_is_s_or_u sues t = Some id)
                then place_members (s_members (sues id)) (map sub ar) base m
                else place_members (s_members (sues id)) (map sub inits) base m
            | _ => place_members (s_members (sues id)) (map sub inits) base m
            end
      end
  end.

End memory.

(** ** Directives and bytes *)

Lemma le_bytes_length (n : nat) (v : Z) : length (le_bytes n v) = n.
Proof. revert v. induction n as [|n IH]; intros v; simpl; [done|by rewrite IH]. Qed.

Lemma le_bytes_congr (n : nat) (v w : Z) :
  v mod 2 ^ (8 * Z.of_nat n) = w mod 2 ^ (8 * Z.of_nat n) -> le_bytes n v = le_bytes n w.
Proof.
  revert v w. induction n as [|n IH]; intros v w H; [done|].
  replace (2 ^ (8 * Z.of_nat (S n))) with (256 * 2 ^ (8 * Z.of_nat n)) in H
    by (replace (8 * Z.of_nat (S n)) with (8 + 8 * Z.of_nat n) by lia; by rewrite Z.pow_add_r by lia).
  assert (0 < 2 ^ (8 * Z.of_nat n)) by (apply Z.pow_pos_nonneg; lia).
  rewrite !Z.rem_mul_r in H by lia.
  pose proof (Z.mod_pos_bound v 256). pose proof (Z.mod_pos_bound w 256).
  simpl. f_equal; [lia|]. apply IH. lia.
Qed.

Lemma table_find_size (sz : Z) :
  sz ∈ [1; 2; 4; 8] ->
  exists name, table_find sz asm_type_table = Some name /\ table_size name asm_type_table = sz.
Proof.
  rewrite !elem_of_cons, elem_of_nil. intros [->|[->|[->|[->|[]]]]]; eexists; split; reflexivity.
Qed.

Lemma bytes_app (addr : cstr -> Z) (xs ys : list item) : bytes addr (xs ++ ys) = bytes addr xs ++ bytes addr ys.
Proof. apply flat_map_app. Qed.

Lemma zeros_length (n : Z) : length (zeros n) = Z.to_nat n.
Proof. apply length_replicate. Qed.

Lemma zeros_split (a b : Z) : 0 <= a -> 0 <= b -> zeros (a + b) = zeros a ++ zeros b.
Proof. intros Ha Hb. unfold zeros. by rewrite Z2Nat.inj_add, replicate_add by lia. Qed.

Lemma pad_bytes (addr : cstr -> Z) (n : Z) : 0 <= n -> bytes addr (asm_declare_pad n) = zeros n.
Proof.
  intros Hn. unfold asm_declare_pad. destruct (Z.eqb_spec n 0) as [->|]; simpl; [done|]. apply app_nil_r.
Qed.

Lemma store_zeros (pre post bs : list Z) (sz : Z) :
  length bs = Z.to_nat sz -> store (length pre) bs (pre ++ zeros sz ++ post) = pre ++ bs ++ post.
Proof.
  intros H. unfold store. rewrite take_app_length, <- drop_drop, drop_app_length.
  by rewrite H, <- (zeros_length sz), drop_app_length.
Qed.

(** ** Emission and representation agree *)

Section image.
Context (g : target) (sues : sue_id -> sue) (cast_w_builtin_types : bool) (fuel : nat).
Context {F : Type} (float_bits double_bits : F -> Z) (addr : cstr -> Z).

Local Abbreviation child := (option (decl_init F * (type -> res (list item)))) (only parsing).
Local Abbreviation placer := (option (type -> nat -> list Z -> list Z)) (only parsing).
Local Abbreviation bytes := (bytes addr).

(** What is emitted for an initialiser of a type of [sz] bytes is [sz] bytes,
    those that storing it in a zeroed object leaves there. *)
Definition shows (items : list item) (place : nat -> list Z -> list Z) (sz : Z) : Prop :=
  length (bytes items) = Z.to_nat sz
  /\ forall pre post, place (length pre) (pre ++ zeros sz ++ post) = pre ++ bytes items ++ post.

Definition emits (c : child) (p : placer) (t : type) (sz : Z) : Prop :=
  type_size g sues t = Ok sz /\ 0 <= sz
  /\ exists items, emit_child g sues c t = Ok items /\ shows items (place_child p t) sz.

Lemma emits_none (t : type) (sz : Z) :
  type_size g sues t = Ok sz -> 0 <= sz -> type_is_incomplete_array t = false -> emits None None t sz.
Proof.
  intros Hsz H0 Hinc. split; [done|]. split; [done|]. exists (asm_declare_pad sz). split.
  { simpl. unfold asm_declare_null. by rewrite Hinc, Hsz. }
  split; [by rewrite pad_bytes, zeros_length|]. intros pre post. simpl. by rewrite pad_bytes.
Qed.

Lemma shows_app (xs ys : list item) (p q : nat -> list Z -> list Z) (a b : Z) :
  0 <= a -> 0 <= b -> shows xs p a -> shows ys q b ->
  shows (xs ++ ys) (fun base m => q (base + Z.to_nat a)%nat (p base m)) (a + b).
Proof.
  intros Ha Hb [Hx Hp] [Hy Hq]. unfold shows. rewrite bytes_app, length_app. split; [lia|].
  intros pre post. rewrite zeros_split, <- app_assoc, Hp by done.
  replace (length pre + Z.to_nat a)%nat with (length (pre ++ bytes xs)) by (rewrite length_app; lia).
  rewrite (app_assoc pre), Hq. by rewrite <- !app_assoc.
Qed.

Lemma shows_pad (n : Z) : 0 <= n -> shows (asm_declare_pad n) (fun _ m => m) n.
Proof. intros Hn. split; [by rewrite pad_bytes, zeros_length|]. intros. by rewrite pad_bytes. Qed.

Lemma shows_ext (items : list item) (p q : nat -> list Z -> list Z) (sz : Z) :
  (forall base m, p base m = q base m) -> shows items p sz -> shows items q sz.
Proof. intros H [Hl Hp]. split; [done|]. intros. by rewrite <- H, Hp. Qed.

(** A member that is no bitfield and no flexible array, laid out at or after [off]. *)
Record plain (d : member) (sz : Z) : Prop := mk_plain {
  plain_width : field_width d = None;
  plain_complete : type_is_incomplete_array (m_ref d) = false;
  plain_func : kind (type_skip_all (m_ref d)) <> kind_func;
  plain_align : exists a, type_align g sues (m_ref d) = Ok a
}.

(** Members in order between two offsets, with what is emitted and stored for
    each; the initialisers may end first. *)
Inductive follows : list sue_member -> list child -> list placer -> Z -> Z -> Prop :=
  | follows_nil cs ps off end_ : off <= end_ -> follows [] cs ps off end_
  | follows_cons d members c cs p ps sz off end_ :
      plain d sz -> off <= struct_offset d -> emits c p (m_ref d) sz ->
      follows members cs ps (struct_offset d + sz) end_ ->
      follows (struct_member d :: members) (c :: cs) (p :: ps) off end_
  | follows_none d members sz off end_ :
      plain d sz -> off <= struct_offset d -> emits None None (m_ref d) sz ->
      follows members [] [] (struct_offset d + sz) end_ ->
      follows (struct_member d :: members) [] [] off end_.

Lemma follows_le (members : list sue_member) (cs : list child) (ps : list placer) (off end_ : Z) :
  follows members cs ps off end_ -> off <= end_.
Proof. induction 1 as [| ? ? ? ? ? ? ? ? ? ? ? (_ & ? & _)| ? ? ? ? ? ? ? (_ & ? & _)]; lia. Qed.

Lemma place_members_nil (members : list sue_member) (base : nat) (m : list Z) :
  place_members members [] base m = m.
Proof. by destruct members as [|[]]. Qed.

Local Abbreviation members_init :=
  (struct_members_init g sues cast_w_builtin_types (F := F)) (only parsing).

(** One member that is no bitfield, without bitfields before it. *)
Lemma member_init_plain (d : member) (last : bool) (c : child) (p : placer) (sz : Z) (s : struct_state) :
  plain d sz -> emits c p (m_ref d) sz -> bitfields s = [] -> first_bf s = None ->
  0 <= end_of_last s <= struct_offset d -> struct_offset d + sz < 2 ^ 32 ->
  exists items,
    struct_member_init g sues cast_w_builtin_types d last c s
    = Ok (items, mk_struct_state (struct_offset d + sz) [] None)
    /\ shows items (fun base => place_child p (m_ref d) (base + Z.to_nat (struct_offset d - end_of_last s)))
             (struct_offset d + sz - end_of_last s).
Proof.
  intros [Hw Hc Hf [a Ha]] (Hsz & H0 & items & He & Hs) Hb Hfb Ho Hlt.
  exists (asm_declare_pad (struct_offset d - end_of_last s) ++ items). split.
  - unfold struct_member_init. rewrite Hw, Hfb, bool_decide_true by done. simpl.
    replace (struct_offset d <? end_of_last s) with false by lia. simpl.
    rewrite (wrapu_id 32) by (unfold is_u; lia). unfold flush_bitfields. rewrite Hb. simpl.
    rewrite He. simpl. rewrite Hc. unfold decl_size_align_inc_bitfield, decl_type_for_bitfield.
    destruct (decide _); [done|]. rewrite Hw. simpl. rewrite Hsz. simpl. rewrite Ha. simpl.
    by rewrite (wrapu_id 32) by (unfold is_u; lia).
  - replace (struct_offset d + sz - end_of_last s) with ((struct_offset d - end_of_last s) + sz) by lia.
    eapply shows_ext; [|apply shows_app; [lia|done|apply shows_pad; lia|exact Hs]]. done.
Qed.

(** What the loop emits from [off] on, and that it stays before [end_]. *)
Definition members_show (members : list sue_member) (cs : list child) (ps : list placer) (off end_ : Z) : Prop :=
  exists items s',
    members_init members cs (mk_struct_state off [] None) = Ok (items, s') /\ bitfields s' = []
    /\ off <= end_of_last s' <= end_
    /\ length (bytes items) = Z.to_nat (end_of_last s' - off)
    /\ forall base pre post,
         length pre = (base + Z.to_nat off)%nat ->
         place_members members ps base (pre ++ zeros (end_of_last s' - off) ++ post)
         = pre ++ bytes items ++ post.

Lemma members_show_cons (d : member) (members : list sue_member) (c : child) (cs : list child) (p : placer)
    (ps : list placer) (sz off end_ : Z) :
  plain d sz -> 0 <= off <= struct_offset d -> struct_offset d + sz <= end_ < 2 ^ 32 ->
  emits c p (m_ref d) sz -> members_show members cs ps (struct_offset d + sz) end_ ->
  members_show (struct_member d :: members) (c :: cs) (p :: ps) off end_.
Proof.
  intros Hd Ho Hlt He (r2 & s' & Hr2 & Hb & Hend & Hl2 & Hs2). pose proof He as (_ & Hsz & _).
  destruct (member_init_plain d (bool_decide (members = [])) c p sz (mk_struct_state off [] None))
    as (r1 & Hr1 & Hl1 & Hs1); try done; [simpl; lia|]. cbn [end_of_last] in Hl1, Hs1.
  exists (r1 ++ r2), s'. split; [cbn [struct_members_init]; rewrite Hr1; simpl; by rewrite Hr2|].
  rewrite bytes_app, length_app. split_and!; try done; try lia.
  intros base pre post Hpre. cbn [place_members].
  replace (end_of_last s' - off)
    with ((struct_offset d + sz - off) + (end_of_last s' - (struct_offset d + sz))) by lia.
  rewrite zeros_split, <- app_assoc by lia.
  replace (base + Z.to_nat (struct_offset d))%nat
    with (length pre + Z.to_nat (struct_offset d - off))%nat by lia.
  rewrite Hs1, (app_assoc pre), Hs2 by (rewrite length_app; lia). by rewrite <- !app_assoc.
Qed.

(** Running out of initialisers is finding none. *)
Lemma members_show_none (d : member) (members : list sue_member) (off end_ : Z) :
  members_show (struct_member d :: members) [None] [None] off end_ ->
  members_show (struct_member d :: members) [] [] off end_.
Proof.
  intros (items & s' & H & Hb & Hend & Hl & Hs). exists items, s'. split_and!; try done; [lia..|].
  intros base pre post Hpre. rewrite <- (Hs base pre post Hpre). cbn [place_members].
  by rewrite place_members_nil.
Qed.

Lemma follows_show (members : list sue_member) (cs : list child) (ps : list placer) (off end_ : Z) :
  follows members cs ps off end_ -> 0 <= off -> end_ < 2 ^ 32 -> members_show members cs ps off end_.
Proof.
  induction 1 as [cs ps off end_ Hle|d members c cs p ps sz off end_ Hd Ho He Hf IH
                 |d members sz off end_ Hd Ho He Hf IH]; intros H0 Hlt.
  - exists [], (mk_struct_state off [] None). simpl. rewrite Z.sub_diag. by split_and!.
  - pose proof (follows_le _ _ _ _ _ Hf). pose proof He as (_ & Hsz & _).
    eapply members_show_cons; try done. apply IH; lia.
  - pose proof (follows_le _ _ _ _ _ Hf). pose proof He as (_ & Hsz & _).
    apply members_show_none. eapply members_show_cons; try done. apply IH; lia.
Qed.

Lemma struct_init_shows (st : sue) (cs : list child) (ps : list placer) (end_ size : Z) :
  follows (s_members st) cs ps 0 end_ -> sue_size st = Ok size -> end_ <= size < 2 ^ 32 ->
  exists items,
    struct_init g sues cast_w_builtin_types st cs = Ok items
    /\ shows items (fun base => place_members (s_members st) ps base) size.
Proof.
  intros Hf Hsz Hlt. destruct (follows_show _ _ _ _ _ Hf) as (items & s' & Hi & Hb & Hend & Hl & Hs); [lia..|].
  exists (items ++ asm_declare_pad (size - end_of_last s')). split.
  { unfold struct_init. rewrite Hi. simpl. unfold flush_bitfields. rewrite Hb. simpl. rewrite Hsz. simpl.
    by rewrite (wrapu_id 32) by (unfold is_u; lia). }
  unfold shows. rewrite bytes_app, length_app, pad_bytes, zeros_length by lia. split; [lia|].
  intros pre post. replace (zeros size) with (zeros (end_of_last s' - 0) ++ zeros (size - end_of_last s'))
    by (rewrite <- zeros_split by lia; f_equal; lia).
  rewrite <- app_assoc, Hs by (simpl; lia). by rewrite <- !app_assoc.
Qed.

Definition elements_show (next : type) (sz : Z) (len : nat) (cs : list child) (ps : list placer) : Prop :=
  exists items,
    array_elements g sues next len cs = Ok items
    /\ shows items (place_elements g sues next len ps) (Z.of_nat len * sz).

Lemma elements_show_cons (next : type) (sz : Z) (len : nat) (c : child) (cs : list child) (p : placer)
    (ps : list placer) :
  emits c p next sz -> elements_show next sz len cs ps -> elements_show next sz (S len) (c :: cs) (p :: ps).
Proof.
  intros (Hsz & H0 & r1 & Hr1 & Hs1) (r2 & Hr2 & Hs2). exists (r1 ++ r2). split.
  - simpl. rewrite Hr1. simpl. by rewrite Hr2.
  - replace (Z.of_nat (S len) * sz) with (sz + Z.of_nat len * sz) by lia.
    eapply shows_ext; [|apply shows_app; [done|lia|exact Hs1|exact Hs2]].
    intros base m. simpl. unfold size_of. by rewrite Hsz.
Qed.

Lemma place_elements_nil (next : type) (len : nat) (base : nat) (m : list Z) :
  place_elements g sues next len [] base m = m.
Proof. by destruct len. Qed.

Lemma elements_show_nil (next : type) (sz : Z) (len : nat) :
  emits None None next sz -> elements_show next sz len [] [].
Proof.
  intros H. induction len as [|len IH]; [by exists []|].
  destruct (elements_show_cons next sz len None [] None [] H IH) as (items & Hr & Hs).
  exists items. split; [exact Hr|]. eapply shows_ext; [|exact Hs]. intros base m. simpl.
  apply place_elements_nil.
Qed.

Lemma array_elements_show (next : type) (sz : Z) (len : nat) (cs : list child) (ps : list placer) :
  Forall2 (fun c p => emits c p next sz) cs ps -> emits None None next sz -> elements_show next sz len cs ps.
Proof.
  intros H Hnone. revert len. induction H as [|c p cs ps Hc H IH]; intros len; [by apply elements_show_nil|].
  destruct len as [|len]; [by exists []|]. by apply elements_show_cons.
Qed.

(** The initialiser of a union's member, after those that are missing. *)
Inductive picks (size : Z) : list sue_member -> list child -> list placer -> Prop :=
  | picks_end members : picks size members [] []
  | picks_next m members cs ps : picks size members cs ps -> picks size (m :: members) (None :: cs) (None :: ps)
  | picks_here d members c cs p ps sub :
      field_width d = None -> sub <= size -> emits (Some c) (Some p) (m_ref d) sub ->
      picks size (struct_member d :: members) (Some c :: cs) (Some p :: ps).

Lemma picks_show (size : Z) (members : list sue_member) (cs : list child) (ps : list placer) (k : nat) :
  picks size members cs ps ->
  match union_find cs k with
  | None => forall base m, place_union members ps base m = m
  | Some (i, c) =>
      exists d p sub, members !! (i - k)%nat = Some (struct_member d) /\ (k <= i)%nat
        /\ field_width d = None /\ sub <= size /\ emits (Some c) (Some p) (m_ref d) sub
        /\ forall base m, place_union members ps base m = p (m_ref d) base m
  end.
Proof.
  intros H. revert k. induction H as [members|m members cs ps H IH|d members c cs p ps sub Hw Hle He]; intros k; simpl.
  - intros base m. by destruct members as [|[]].
  - specialize (IH (S k)). destruct (union_find cs (S k)) as [[i c]|].
    + destruct IH as (d & p & sub & Hi & Hk & Hw & Hle & He & Hpl). exists d, p, sub.
      replace (i - k)%nat with (S (i - S k)) by lia.
      split_and!; [done|lia|done|done|exact He|intros; destruct m; apply Hpl].
    + intros base mm. destruct m; apply IH.
  - exists d, p, sub. rewrite Nat.sub_diag. by split_and!.
Qed.

Lemma union_init_shows (st : sue) (t : type) (cs : list child) (ps : list placer) (size : Z) :
  picks size (s_members st) cs ps -> cs <> [] -> type_size g sues t = Ok size -> 0 <= size < 2 ^ 32 ->
  exists items,
    union_init g sues cast_w_builtin_types st t cs = Ok items
    /\ shows items (fun base => place_union (s_members st) ps base) size.
Proof.
  intros H Hne Hsz Hlt. pose proof (picks_show _ _ _ _ 0 H) as Hp. unfold union_init.
  rewrite bool_decide_false by done. destruct (union_find cs 0) as [[i c]|].
  - destruct Hp as (d & p & sub & Hi & _ & Hw & Hle & (Hsub & H0 & r & Hr & Hs) & Hpl).
    rewrite Nat.sub_0_r in Hi. rewrite Hi, Hw. simpl in Hr. rewrite Hr. simpl. rewrite Hsub. simpl. rewrite Hsz.
    simpl. rewrite (wrapu_id 32) by (unfold is_u; lia). eexists. split; [done|].
    replace size with (sub + (size - sub)) at 2 by lia.
    eapply shows_ext; [|apply shows_app; [done|lia|exact Hs|apply shows_pad; lia]].
    intros base m. by rewrite Hpl.
  - simpl. rewrite Hsz. simpl. rewrite Z.sub_0_r, (wrapu_id 32) by (unfold is_u; lia).
    eexists. split; [done|]. eapply shows_ext; [|apply shows_pad; lia]. intros base m. by rewrite Hp.
Qed.

(** *** Scalars *)

(** Constants that can be emitted for a type of [sz] bytes. *)
Inductive constant_ok (t : type) (sz : Z) : folded F -> Prop :=
  | const_num k i suffix sg :
      k_val k = CONST_NUM i suffix -> is_u 64 i -> type_is_signed g t = Ok sg -> constant_ok t sz (folded_num k)
  | const_memaddr k m : k_val k = CONST_ADDR (CONST_LBL_MEMADDR m) -> constant_ok t sz (folded_num k)
  | const_true k lbl : k_val k = CONST_ADDR (CONST_LBL_TRUE lbl) -> constant_ok t sz (folded_num k)
  | const_weak k lbl : k_val k = CONST_ADDR (CONST_LBL_WEAK lbl) -> constant_ok t sz (folded_num k)
  | const_str k lbl : k_val k = CONST_STRK lbl -> constant_ok t sz (folded_num k)
  | const_float f : type_get_primitive t = type_float -> sz = 4 -> constant_ok t sz (folded_float f)
  | const_double f : type_get_primitive t = type_double -> sz = 8 -> constant_ok t sz (folded_float f).

Lemma directive_found (t : type) (sz : Z) :
  type_size g sues t = Ok sz -> sz ∈ [1; 2; 4; 8] ->
  kind (type_skip_all t) <> kind_array -> kind (type_skip_all t) <> kind_func ->
  exists name, asm_type_directive g sues t = Ok name /\ table_size name asm_type_table = sz.
Proof.
  intros Hsz Hin Ha Hf. destruct (table_find_size sz Hin) as (name & Hn & Hs). exists name. split; [|done].
  unfold asm_type_directive, asm_table_lookup.
  destruct (kind (type_skip_all t)); try done; rewrite Hsz; go; by rewrite Hn.
Qed.

Lemma directive_shows (name : string) (v : datum) (off w sz : Z) :
  table_size name asm_type_table = sz -> 0 <= sz ->
  (datum_value addr v + off) mod 2 ^ (8 * sz) = w mod 2 ^ (8 * sz) ->
  shows [item_data name v off] (fun base => store base (le_bytes (Z.to_nat sz) w)) sz.
Proof.
  intros Hn H0 Hw. assert (Hb : bytes [item_data name v off] = le_bytes (Z.to_nat sz) w).
  { unfold Data.bytes. cbn [flat_map item_bytes]. rewrite app_nil_r, Hn. apply le_bytes_congr. by rewrite Z2Nat.id by lia. }
  split; [by rewrite Hb, le_bytes_length|]. intros pre post. rewrite Hb. apply store_zeros, le_bytes_length.
Qed.

(** A number as it is printed, and 64-bit addresses, are right modulo the size. *)
Lemma wraps_mod_size (bits v : Z) : 0 < bits -> wraps bits v mod 2 ^ bits = v mod 2 ^ bits.
Proof.
  intros Hb. unfold wraps. assert (0 < 2 ^ bits) by (apply Z.pow_pos_nonneg; lia).
  rewrite Zminus_mod, Z.mod_mod, <- Zminus_mod by lia. f_equal. lia.
Qed.

Lemma mod_shrink (bits n v w : Z) :
  0 <= bits <= n -> v mod 2 ^ n = w mod 2 ^ n -> v mod 2 ^ bits = w mod 2 ^ bits.
Proof.
  intros Hb H. assert (H1 : 0 < 2 ^ bits) by (apply Z.pow_pos_nonneg; lia).
  assert (H2 : 0 < 2 ^ (n - bits)) by (apply Z.pow_pos_nonneg; lia).
  assert (Hn : 2 ^ n = 2 ^ bits * 2 ^ (n - bits)) by (rewrite <- Z.pow_add_r by lia; f_equal; lia).
  assert (Hx : forall x, (x mod 2 ^ n) mod 2 ^ bits = x mod 2 ^ bits).
  { intros x. rewrite Hn, Z.rem_mul_r, (Z.mul_comm (2 ^ bits)), Z.mod_add, Z.mod_mod by lia. done. }
  by rewrite <- (Hx v), H, Hx.
Qed.

Lemma static_val_shows (t : type) (sz : Z) (k : folded F) :
  type_size g sues t = Ok sz -> sz ∈ [1; 2; 4; 8] ->
  kind (type_skip_all t) <> kind_array -> kind (type_skip_all t) <> kind_func -> constant_ok t sz k ->
  exists items,
    static_val g sues cast_w_builtin_types float_bits double_bits t k = Ok items
    /\ shows items (fun base => store base
                (le_bytes (Z.to_nat sz) (scalar_value addr float_bits double_bits t k))) sz.
Proof.
  intros Hsz Hin Ha Hf H. destruct (directive_found t sz Hsz Hin Ha Hf) as (name & Hn & Hts).
  assert (Hs : 1 <= sz <= 8) by (rewrite !elem_of_cons, elem_of_nil in Hin; lia).
  destruct H as [k i suf sg Hk Hi Hsg|k m Hk|k lbl Hk|k lbl Hk|k lbl Hk|f Hp ->|f Hp ->];
    unfold static_val, scalar_value; rewrite ?Hk, ?Hn; go.
  - assert (Hstr : integral_str g sues cast_w_builtin_types i t
                   = Ok (if sg then wraps (8 * sz) i else wrapu (8 * sz) i)).
    { unfold integral_str. rewrite Hsg, Hsz. simpl. unfold integral_truncate.
      rewrite (wrapu_id 32), (Z.mul_comm sz), truncate_any by (unfold is_u; lia || done). by destruct sg. }
    rewrite Hstr. go. eexists. split; [done|]. apply directive_shows; [done|lia|]. simpl.
    rewrite Z.add_comm, Zplus_mod, (Zplus_mod (k_offset k) i). do 2 f_equal.
    destruct sg; [by apply wraps_mod_size; lia|]. apply Z.mod_mod.
    assert (0 < 2 ^ (8 * sz)) by (apply Z.pow_pos_nonneg; lia). lia.
  - eexists. split; [done|]. apply directive_shows; [done|lia|]. simpl. rewrite Z.add_comm.
    apply (mod_shrink (8 * sz) 64); [lia|]. rewrite Zplus_mod, (Zplus_mod (k_offset k) m). do 2 f_equal.
    by apply wraps_mod_size.
  - eexists. split; [done|]. apply directive_shows; [done|lia|]. simpl. f_equal. lia.
  - eexists. split; [done|]. apply directive_shows; [done|lia|]. simpl. f_equal. lia.
  - eexists. split; [done|]. apply directive_shows; [done|lia|]. simpl. f_equal. lia.
  - unfold asm_out_fp. rewrite Hp. eexists. split; [done|].
    rewrite decide_True by done. apply directive_shows; [done|lia|]. simpl. f_equal. lia.
  - unfold asm_out_fp. rewrite Hp. eexists. split; [done|].
    rewrite decide_False by done. apply directive_shows; [done|lia|]. simpl. f_equal. lia.
Qed.

(** *** Well-formed initialisers *)

(** An initialiser in the shape [decl_init.c] leaves, for a type whose structs
    are laid out with their members in order: a scalar or a constant, a brace or
    a compound literal for a struct, a brace for an array, with copies for
    ranges, and for a union. *)
Inductive init_ok : decl_init F -> type -> Prop :=
  | scalar_ok t sz tree k lit c :
      type_is_primitive t type_struct = false -> type_is_primitive t type_union = false ->
      kind (type_skip_all t) <> kind_array -> kind (type_skip_all t) <> kind_func ->
      type_size g sues t = Ok sz -> sz ∈ [1; 2; 4; 8] ->
      type_cmp g sues fuel tree t true = Ok c -> c <> TYPE_NOT_EQUAL -> constant_ok t sz k ->
      init_ok (decl_init_scalar tree k lit) t
  | struct_ok t id inits end_ size :
      type_is_primitive t type_struct = true -> type_is_s_or_u sues t = Some id ->
      is_struct_copy sues inits (Some id) = false ->
      members_ok (s_members (sues id)) inits 0 end_ -> sue_size (sues id) = Ok size -> end_ <= size < 2 ^ 32 ->
      init_ok (decl_init_brace inits) t
  | struct_copy_ok t id tree k ar end_ size :
      type_is_primitive t type_struct = true -> type_is_s_or_u sues t = Some id ->
      type_is_s_or_u sues tree = Some id ->
      members_ok (s_members (sues id)) ar 0 end_ -> sue_size (sues id) = Ok size -> end_ <= size < 2 ^ 32 ->
      init_ok (decl_init_brace [Some (decl_init_scalar tree k (Some (decl_init_brace ar)))]) t
  | array_ok t next n st vla inits sz :
      type_skip_all t = type_array next (size_const n) st vla -> type_is_complete sues t = Ok true ->
      inits <> [] -> 0 <= n < 2 ^ 32 -> n * sz < 2 ^ 32 -> child_ok None next sz -> elements_ok inits next sz ->
      init_ok (decl_init_brace inits) t
  | union_ok t id inits size :
      type_is_primitive t type_union = true -> type_is_s_or_u sues t = Some id -> inits <> [] ->
      picked_ok (s_members (sues id)) inits size -> sue_size (sues id) = Ok size -> size < 2 ^ 32 ->
      init_ok (decl_init_brace inits) t
with child_ok : option (decl_init F) -> type -> Z -> Prop :=
  | child_none t sz :
      type_size g sues t = Ok sz -> 0 <= sz -> type_is_incomplete_array t = false -> child_ok None t sz
  | child_some d t sz : type_size g sues t = Ok sz -> 0 <= sz -> init_ok d t -> child_ok (Some d) t sz
with members_ok : list sue_member -> list (option (decl_init F)) -> Z -> Z -> Prop :=
  | members_nil inits off end_ : off <= end_ -> members_ok [] inits off end_
  | members_cons d members o inits sz off end_ :
      plain d sz -> off <= struct_offset d -> child_ok o (m_ref d) sz ->
      members_ok members inits (struct_offset d + sz) end_ ->
      members_ok (struct_member d :: members) (o :: inits) off end_
  | members_none d members sz off end_ :
      plain d sz -> off <= struct_offset d -> child_ok None (m_ref d) sz ->
      members_ok members [] (struct_offset d + sz) end_ ->
      members_ok (struct_member d :: members) [] off end_
with elements_ok : list (option (decl_init F)) -> type -> Z -> Prop :=
  | elements_nil t sz : elements_ok [] t sz
  | elements_cons o inits t sz :
      match o with Some (decl_init_copy _) => False | _ => True end ->
      child_ok o t sz -> elements_ok inits t sz -> elements_ok (o :: inits) t sz
  | elements_copy r inits t sz :
      child_ok (Some r) t sz -> elements_ok inits t sz -> elements_ok (Some (decl_init_copy r) :: inits) t sz
with picked_ok : list sue_member -> list (option (decl_init F)) -> Z -> Prop :=
  | picked_end members size : picked_ok members [] size
  | picked_next m members inits size : picked_ok members inits size -> picked_ok (m :: members) (None :: inits) size
  | picked_here d members i inits sub size :
      field_width d = None -> sub <= size -> child_ok (Some i) (m_ref d) sub ->
      picked_ok (struct_member d :: members) (Some i :: inits) size.

Scheme init_ok_mut := Minimality for init_ok Sort Prop
  with child_ok_mut := Minimality for child_ok Sort Prop
  with members_ok_mut := Minimality for members_ok Sort Prop
  with elements_ok_mut := Minimality for elements_ok Sort Prop
  with picked_ok_mut := Minimality for picked_ok Sort Prop.

Local Abbreviation emit :=
  (asm_declare_init g sues cast_w_builtin_types float_bits double_bits fuel) (only parsing).
Local Abbreviation put := (represent addr g sues float_bits double_bits) (only parsing).

Definition sub_child (o : option (decl_init F)) : child :=
  match o with Some d => Some (d, emit d) | None => None end.
Definition sub_placer (o : option (decl_init F)) : placer :=
  match o with Some d => Some (put d) | None => None end.
Definition element_child (o : option (decl_init F)) : child :=
  match o with
  | Some (decl_init_copy r) => Some (r, emit r)
  | Some d => Some (d, emit d)
  | None => None
  end.

(** What the induction shows of an initialiser. *)
Definition implements (d : decl_init F) (t : type) : Prop :=
  forall sz, type_size g sues t = Ok sz -> 0 <= sz ->
  exists items, emit d t = Ok items /\ shows items (put d t) sz.

Lemma sue_type_size (t : type) (p : type_primitive) (id : sue_id) :
  type_is_primitive t p = true -> p <> type_int -> type_is_s_or_u sues t = Some id ->
  type_size g sues t = sue_size (sues id).
Proof.
  unfold type_is_primitive, type_is_s_or_u, type_is_s_or_u_or_e, type_get_type. rewrite size_skip.
  destruct (type_skip_all t); try done. intros Hp Hn Hs. simpl. unfold btype_size.
  apply bool_decide_eq_true in Hp. destruct (bt_sue bt); [|done]. destruct (decide _) in Hs; [|done].
  injection Hs as ->. by rewrite decide_True by congruence.
Qed.

Lemma not_primitive (t : type) (p q : type_primitive) :
  type_is_primitive t p = true -> p <> q -> type_is_primitive t q = false.
Proof.
  unfold type_is_primitive. destruct (type_get_type t); [|done].
  rewrite bool_decide_eq_true, bool_decide_eq_false. congruence.
Qed.

Lemma primitive_no_array (t : type) (p : type_primitive) :
  type_is_primitive t p = true -> kind (type_skip_all t) <> kind_array.
Proof. unfold type_is_primitive, type_get_type. by destruct (type_skip_all t). Qed.

Lemma scalar_implements (t : type) (sz : Z) (tree : type) (k : folded F) lit (c : cmp) :
  type_is_primitive t type_struct = false -> type_is_primitive t type_union = false ->
  kind (type_skip_all t) <> kind_array -> kind (type_skip_all t) <> kind_func ->
  type_size g sues t = Ok sz -> sz ∈ [1; 2; 4; 8] ->
  type_cmp g sues fuel tree t true = Ok c -> c <> TYPE_NOT_EQUAL -> constant_ok t sz k ->
  implements (decl_init_scalar tree k lit) t.
Proof.
  intros Hst Hun Ha Hf Hsz Hin Hc Hne Hk sz' Hsz' H0. rewrite Hsz in Hsz'. injection Hsz' as <-.
  destruct (static_val_shows t sz k Hsz Hin Ha Hf Hk) as (items & Hi & Hs). exists items. split.
  - cbn [asm_declare_init]. rewrite Hst, Hun, bool_decide_false by done. unfold scalar_init. rewrite Hc. go.
    by rewrite bool_decide_false.
  - eapply shows_ext; [|exact Hs]. intros base m. simpl. unfold size_of. by rewrite Hsz.
Qed.

Lemma struct_implements (t : type) (id : sue_id) inits (end_ size : Z) :
  type_is_primitive t type_struct = true -> type_is_s_or_u sues t = Some id ->
  is_struct_copy sues inits (Some id) = false ->
  follows (s_members (sues id)) (map sub_child inits) (map sub_placer inits) 0 end_ ->
  sue_size (sues id) = Ok size -> end_ <= size < 2 ^ 32 ->
  implements (decl_init_brace inits) t.
Proof.
  intros Hst Hid Hcopy Hf Hsize Hend sz Hsz H0.
  rewrite (sue_type_size t type_struct id), Hsize in Hsz by done. injection Hsz as <-.
  destruct (struct_init_shows _ _ _ _ _ Hf Hsize Hend) as (items & Hi & Hs). exists items. split.
  - cbn [asm_declare_init]. rewrite Hst, Hid, Hcopy. exact Hi.
  - eapply shows_ext; [|exact Hs]. intros base m. cbn [represent].
    rewrite Hid, (not_primitive t type_struct type_union) by done.
    destruct inits as [|[[tree k [[]|]| |]|] [|]]; try done.
    rewrite bool_decide_false; [done|]. intros E. simpl in Hcopy. rewrite E in Hcopy.
    by rewrite bool_decide_true in Hcopy.
Qed.

Lemma struct_copy_implements (t : type) (id : sue_id) (tree : type) (k : folded F) ar (end_ size : Z) :
  type_is_primitive t type_struct = true -> type_is_s_or_u sues t = Some id ->
  type_is_s_or_u sues tree = Some id ->
  follows (s_members (sues id)) (map sub_child ar) (map sub_placer ar) 0 end_ ->
  sue_size (sues id) = Ok size -> end_ <= size < 2 ^ 32 ->
  implements (decl_init_brace [Some (decl_init_scalar tree k (Some (decl_init_brace ar)))]) t.
Proof.
  intros Hst Hid Htree Hf Hsize Hend sz Hsz H0.
  rewrite (sue_type_size t type_struct id), Hsize in Hsz by done. injection Hsz as <-.
  destruct (struct_init_shows _ _ _ _ _ Hf Hsize Hend) as (items & Hi & Hs). exists items. split.
  - cbn [asm_declare_init]. rewrite Hst, Hid. unfold is_struct_copy. rewrite Htree, bool_decide_true by done.
    exact Hi.
  - eapply shows_ext; [|exact Hs]. intros base m. cbn [represent].
    by rewrite Hid, (not_primitive t type_struct type_union), Htree, bool_decide_true by done.
Qed.

Lemma array_implements (t next : type) (n : Z) st vla inits (sz : Z) :
  type_skip_all t = type_array next (size_const n) st vla -> type_is_complete sues t = Ok true ->
  inits <> [] -> 0 <= n < 2 ^ 32 -> n * sz < 2 ^ 32 -> emits None None next sz ->
  Forall2 (fun c p => emits c p next sz) (map element_child inits) (map sub_placer inits) ->
  implements (decl_init_brace inits) t.
Proof.
  intros Ht Hc Hne Hn Hlt Hnone Hall sz' Hsz' H0. pose proof Hnone as (Hsz & H1 & _).
  assert (Hk : kind (type_skip_all t) = kind_array) by (by rewrite Ht).
  assert (Hp : forall p, type_is_primitive t p = false).
  { intros p. destruct (type_is_primitive t p) eqn:E; [|done]. by apply primitive_no_array in E. }
  assert (sz' = n * sz) as ->.
  { rewrite size_skip, Ht in Hsz'. simpl in Hsz'. destruct (type_is_void next); [done|].
    rewrite Hsz in Hsz'. simpl in Hsz'. injection Hsz' as <-.
    assert (0 <= n * sz) by (apply Z.mul_nonneg_nonneg; lia).
    rewrite (Z.mod_small _ (2 ^ 64)), Z.mod_small by lia. done. }
  destruct (array_elements_show next sz (Z.to_nat n) _ _ Hall Hnone) as (items & Hi & Hs).
  rewrite Z2Nat.id in Hs by lia. exists items. split.
  - cbn [asm_declare_init]. rewrite !Hp, Hk. rewrite bool_decide_true by done. unfold array_init.
    rewrite Ht. unfold type_is_incomplete_array. rewrite Ht.
    replace (bool_decide (size_const n = size_none)) with false by done. rewrite Hc. go. cbn [fold_size]. go. rewrite (wrapu_id 32) by (unfold is_u; lia).
    rewrite bool_decide_false by (by destruct inits). exact Hi.
  - eapply shows_ext; [|exact Hs]. intros base m. cbn [represent].
    assert (type_is_s_or_u sues t = None) as ->.
    { unfold type_is_s_or_u, type_is_s_or_u_or_e, type_get_type. by rewrite Ht. }
    unfold array_next, array_length. by rewrite Ht.
Qed.

Lemma union_implements (t : type) (id : sue_id) inits (size : Z) :
  type_is_primitive t type_union = true -> type_is_s_or_u sues t = Some id -> inits <> [] ->
  picks size (s_members (sues id)) (map sub_child inits) (map sub_placer inits) ->
  sue_size (sues id) = Ok size -> size < 2 ^ 32 ->
  implements (decl_init_brace inits) t.
Proof.
  intros Hun Hid Hne Hp Hsize Hlt sz Hsz H0. pose proof Hsz as Htsz.
  rewrite (sue_type_size t type_union id), Hsize in Hsz by done. injection Hsz as <-.
  destruct (union_init_shows (sues id) t _ _ size Hp) as (items & Hi & Hs); [by destruct inits|done|lia|].
  exists items. split.
  - cbn [asm_declare_init]. rewrite (not_primitive t type_union type_struct), bool_decide_false, Hun, Hid
      by first [done|by eapply primitive_no_array]. exact Hi.
  - eapply shows_ext; [|exact Hs]. intros base m. cbn [represent]. by rewrite Hid, Hun.
Qed.

Lemma image (d : decl_init F) (t : type) : init_ok d t -> implements d t.
Proof.
  apply (init_ok_mut implements
    (fun o t sz => emits (sub_child o) (sub_placer o) t sz)
    (fun members inits off end_ => follows members (map sub_child inits) (map sub_placer inits) off end_)
    (fun inits t sz => Forall2 (fun c p => emits c p t sz) (map element_child inits) (map sub_placer inits))
    (fun members inits size => picks size members (map sub_child inits) (map sub_placer inits))).
  - intros. by eapply scalar_implements.
  - intros. by eapply struct_implements.
  - intros. by eapply struct_copy_implements.
  - intros. by eapply array_implements.
  - intros. by eapply union_implements.
  - intros. by apply emits_none.
  - intros i ty sz Hsz H0 _ H. split; [done|]. split; [done|]. by apply H.
  - intros. by apply follows_nil.
  - intros. by eapply follows_cons.
  - intros. by eapply follows_none.
  - intros. apply Forall2_nil_2.
  - intros o inits ty sz Ho _ He _ H. apply Forall2_cons_2; [|done].
    destruct o as [[]|]; done.
  - intros r inits ty sz _ He _ H. by apply Forall2_cons_2.
  - intros. apply picks_end.
  - intros. by apply picks_next.
  - intros. by eapply picks_here.
Qed.

(** C6: for an initialiser in the shape [init_ok] describes, the directives
    emitted for it assemble to the object's representation: as many bytes as the
    type has, those of a zeroed object in which every scalar is stored at the
    place the layout gives it, through nested structs, arrays, ranges, unions
    and compound literals; padding and what has no initialiser is zero.
    [init_ok] asks for: scalars of 1, 2, 4 or 8 bytes with a constant of a kind
    their type allows; structs none of whose members is a bitfield, with members
    in increasing places inside the struct that do not overlap; arrays of constant
    length, below 2^32 in elements and bytes, and unions, with something between
    the braces; in a union one initialised member, no bitfield. Bitfields are C7's:
    Examples bitfield_tail and bitfield_after_padding show that a struct with some
    need not come out right. The property is of [asm_declare_init]; an object
    that [decl_init_is_zero] takes for all zero never gets there but is emitted as
    so many zero bytes, and that takes in -0.0 and an offset from a null address
    (Examples negative_zero and offset_of_null). *)
Theorem static_image (d : decl_init F) (t : type) (sz : Z) :
  init_ok d t -> type_size g sues t = Ok sz -> 0 <= sz ->
  exists items,
    emit d t = Ok items /\ length (bytes items) = Z.to_nat sz /\ bytes items = put d t 0 (zeros sz).
Proof.
  intros H Hsz H0. destruct (image d t H sz Hsz H0) as (items & Hi & Hl & Hs). exists items.
  split; [done|]. split; [done|]. specialize (Hs [] []). simpl in Hs. by rewrite !app_nil_r in Hs.
Qed.

End image.

(** ** Bitfields in a unit *)

Section unit.
Context (cast_w_builtin_types : bool).

Lemma truncate_bits_wrapu (val bits : Z) :
  is_u 64 val -> 1 <= bits <= 64 -> truncate_bits cast_w_builtin_types val bits = wrapu bits val.
Proof.
  intros Hv Hb. pose proof (truncate_any cast_w_builtin_types val bits Hv Hb) as H.
  unfold integral_truncate_bits in H. unfold truncate_bits.
  destruct cast_w_builtin_types; simpl in H |- *.
  - destruct (Z.eqb_spec bits 8) as [->|]; [done|]. destruct (Z.eqb_spec bits 16) as [->|]; [done|].
    destruct (Z.eqb_spec bits 32) as [->|]; [done|]. destruct (Z.eqb_spec bits 64) as [->|]; [done|].
    simpl. destruct (_ || _)%bool in H; [done|]. by injection H.
  - destruct (_ || _)%bool in H; [done|]. by injection H.
Qed.

(** A bitfield's bits in the unit, and where they are. *)
Definition unit_bits (b : bitfield_val) : Prop :=
  is_u 64 (bf_val b) /\ 1 <= bf_width b /\ 0 <= bf_offset b /\ bf_offset b + bf_width b <= 64.

Definition covers (b : bitfield_val) (i : Z) : bool :=
  (bf_offset b <=? i) && (i <? bf_offset b + bf_width b).

Lemma bitfields_value_bits (vals : list bitfield_val) (v w : Z) :
  Forall unit_bits vals -> is_u 64 v ->
  exists r w', bitfields_value cast_w_builtin_types vals v w = Ok (r, w') /\ is_u 64 r
    /\ forall i, 0 <= i -> Z.testbit r i
         = Z.testbit v i || existsb (fun b => covers b i && Z.testbit (bf_val b) (i - bf_offset b)) vals.
Proof.
  intros H. revert v w. induction H as [|b vals (Hv & Hw & Ho & Hend) _ IH]; intros v w Hr.
  { exists v, w. split; [done|]. split; [done|]. intros i Hi. simpl. by rewrite orb_false_r. }
  cbn [bitfields_value]. replace (64 <=? bf_offset b) with false by lia.
  rewrite truncate_bits_wrapu by (done || lia).
  set (piece := u64 (Z.shiftl (wrapu (bf_width b) (bf_val b)) (bf_offset b))).
  assert (Hp : is_u 64 piece) by (apply wrapu_range; lia).
  destruct (IH (Z.lor v piece) (u32 (w + bf_width b))) as (r & w' & Hval & Hru & Hbits).
  { apply (bitwise_range _ orb); [apply Z.lor_spec|done|lia|done|done]. }
  exists r, w'. split; [done|]. split; [done|]. intros i Hi. rewrite Hbits, Z.lor_spec by done.
  rewrite <- orb_assoc. f_equal. simpl. f_equal. unfold piece, covers.
  rewrite wrapu_testbit, Z.shiftl_spec by lia.
  destruct (Z.leb_spec (bf_offset b) i);
    [|by rewrite !(Z.testbit_neg_r _ (i - bf_offset b)), !andb_false_r by lia].
  rewrite wrapu_testbit by lia.
  replace (i - bf_offset b <? bf_width b) with (i <? bf_offset b + bf_width b) by lia. simpl.
  destruct (Z.ltb_spec i (bf_offset b + bf_width b)); simpl; [|by rewrite andb_false_r].
  by replace (i <? 64) with true by lia.
Qed.

(** Bitfields in order, none over the next. *)
Fixpoint apart (lo : Z) (vals : list bitfield_val) : Prop :=
  match vals with
  | [] => lo <= 64
  | b :: vals => lo <= bf_offset b /\ apart (bf_offset b + bf_width b) vals
  end.

Lemma apart_before (lo i : Z) (vals : list bitfield_val) :
  Forall unit_bits vals -> apart lo vals -> i < lo ->
  existsb (fun b => covers b i && Z.testbit (bf_val b) (i - bf_offset b)) vals = false.
Proof.
  intros H. revert lo. induction H as [|b vals (_ & Hw & _) _ IH]; intros lo Ha Hi; [done|].
  simpl in Ha |- *. destruct Ha as [Hlo Ha]. unfold covers.
  replace (bf_offset b <=? i) with false by lia. simpl. apply (IH _ Ha). lia.
Qed.

Lemma apart_after (lo : Z) (b : bitfield_val) (vals : list bitfield_val) :
  Forall unit_bits vals -> apart lo vals -> b ∈ vals -> lo <= bf_offset b.
Proof.
  intros H. revert lo. induction H as [|x vals (_ & Hx & _) _ IH]; intros lo Ha Hin.
  { by rewrite elem_of_nil in Hin. }
  destruct Ha as [Hlo Ha]. rewrite elem_of_cons in Hin. destruct Hin as [->|Hin]; [done|].
  specialize (IH _ Ha Hin). lia.
Qed.

Lemma apart_at (lo : Z) (vals : list bitfield_val) (b : bitfield_val) (i : Z) :
  Forall unit_bits vals -> apart lo vals -> b ∈ vals -> covers b i = true ->
  existsb (fun b => covers b i && Z.testbit (bf_val b) (i - bf_offset b)) vals
  = Z.testbit (bf_val b) (i - bf_offset b).
Proof.
  intros H. revert lo. induction H as [|b' vals (Hv & Hw & Ho & Hend) Hall IH]; intros lo Ha Hin Hc.
  { by rewrite elem_of_nil in Hin. }
  simpl in Ha |- *. destruct Ha as [Hlo Ha]. rewrite elem_of_cons in Hin. destruct Hin as [->|Hin].
  - rewrite Hc. simpl. unfold covers in Hc.
    rewrite (apart_before _ i vals Hall Ha) by lia. by rewrite orb_false_r.
  - pose proof (apart_after _ b vals Hall Ha Hin).
    unfold covers at 1. unfold covers in Hc.
    replace (i <? bf_offset b' + bf_width b') with false by lia. rewrite andb_false_r. simpl.
    apply (IH _ Ha Hin). unfold covers. lia.
Qed.

(** C7: the value emitted for a storage unit holds its bitfields: shifted down by
    its offset and cut to its width, the unit gives each bitfield's initialiser
    cut to that width, whatever the others are. *)
Theorem bitfield_unit (vals : list bitfield_val) :
  Forall unit_bits vals -> apart 0 vals ->
  exists v w, bitfields_value cast_w_builtin_types vals 0 0 = Ok (v, w) /\ is_u 64 v
    /\ forall b, b ∈ vals ->
         wrapu (bf_width b) (Z.shiftr v (bf_offset b)) = wrapu (bf_width b) (bf_val b).
Proof.
  intros H Ha. destruct (bitfields_value_bits vals 0 0 H) as (v & w & Hval & Hv & Hbits); [unfold is_u; lia|].
  exists v, w. split; [done|]. split; [done|]. intros b Hin. apply Z.bits_inj'. intros i Hi.
  pose proof (proj1 (Forall_forall _ _) H b Hin) as (_ & Hw & Ho & _).
  rewrite !wrapu_testbit, Z.shiftr_spec by lia. destruct (Z.ltb_spec i (bf_width b)); [|by rewrite !andb_false_l].
  simpl. rewrite Hbits, Z.testbit_0_l by lia. simpl.
  rewrite (apart_at 0 vals b (i + bf_offset b) H Ha Hin) by (unfold covers; lia). f_equal. lia.
Qed.

End unit.

(** ** The library at work *)

(** [struct S { char c; int i; short s[3]; }],
    [struct T { struct S a[2]; char *p; union { short h; int i; } u; }] and the
    union, laid out by [fold_sue]. *)
Definition short3 : type := type_array (ty type_short) (size_const 3) false VLA_NO.
Definition sue_of (p : type_primitive) (id : sue_id) : type := type_btype (mk_btype p (Some id)).
Definition plain_ (name : string) (t : type) : sue_member := struct_member (member_ name t None).

Definition sample_sues : sue_id -> sue :=
  fun id =>
    match id with
    | 0%nat => sue_ type_struct [plain_ "c" (ty type_nchar); plain_ "i" (ty type_int); plain_ "s" short3]
    | 1%nat => sue_ type_union [plain_ "h" (ty type_short); plain_ "i" (ty type_int)]
    | 2%nat => sue_ type_struct
                 [plain_ "a" (type_array (sue_of type_struct 0) (size_const 2) false VLA_NO);
                  plain_ "p" (ptr_ (ty type_nchar)); plain_ "u" (sue_of type_union 1)]
    | _ => no_sue
    end.

Definition sample_table (id : sue_id) : sue :=
  Eval vm_compute in
    match id with
    | 0%nat => folded_table sample_sues [0; 1; 2]%nat 0%nat
    | 1%nat => folded_table sample_sues [0; 1; 2]%nat 1%nat
    | 2%nat => folded_table sample_sues [0; 1; 2]%nat 2%nat
    | _ => no_sue
    end.

Definition num_ (t : type) (v : Z) : decl_init Z :=
  decl_init_scalar t (folded_num (set_val CONST_FOLD_LEAF (CONST_NUM (u64 v) 0))) None.

(** [struct T x = { { { 'a', -2, { 1, [2] = 3 } } }, "str" + 1, { .i = 7 } };] *)
Definition sample_init : decl_init Z :=
  decl_init_brace
    [Some (decl_init_brace
       [Some (decl_init_brace
          [Some (num_ (ty type_nchar) 97); Some (num_ (ty type_int) (-2));
           Some (decl_init_brace [Some (num_ (ty type_short) 1); None; Some (num_ (ty type_short) 3)])])]);
     Some (decl_init_scalar (ptr_ (ty type_nchar))
             (folded_num (mk_consty (CONST_STRK (str ".Lstr")) 1 None None)) None);
     Some (decl_init_brace [None; Some (num_ (ty type_int) 7)])].

Definition sample_emit : res (list item) :=
  asm_declare_init linux64 sample_table true id id 20 sample_init (sue_of type_struct 2).

Example sample_emitted :
  sample_emit
  = Ok [item_data "byte" (datum_num 97) 0; item_space 3; item_data "long" (datum_num (-2)) 0;
        item_data "word" (datum_num 1) 0; item_space 2; item_data "word" (datum_num 3) 0; item_space 2;
        item_space 16; item_data "quad" (datum_lbl (str ".Lstr")) 1;
        item_data "long" (datum_num 7) 0; item_space 4].
Proof. vm_compute. reflexivity. Qed.

Ltac scalar_ok_tac :=
  eapply scalar_ok with (c := TYPE_EQUAL);
  [reflexivity|reflexivity|done|done|vm_compute; reflexivity|set_solver
  |vm_compute; reflexivity|done|].

Lemma num_ok (p : type_primitive) (v : Z) :
  p ∈ [type_nchar; type_short; type_int] ->
  init_ok linux64 sample_table 20 (num_ (ty p) v) (ty p).
Proof.
  rewrite !elem_of_cons, elem_of_nil. intros [-> | [-> | [-> | []]]]; scalar_ok_tac;
    (eapply const_num; [reflexivity|apply wrapu_range; lia|reflexivity]).
Qed.

(** The goals that are facts about the sample's types. *)
Ltac data_fact :=
  first [ reflexivity | discriminate | vm_compute; reflexivity | vm_compute; congruence
        | split; vm_compute; congruence | by eexists; vm_compute ].

Lemma plain_ok (d : member) (sz : Z) :
  field_width d = None -> type_is_incomplete_array (m_ref d) = false ->
  kind (type_skip_all (m_ref d)) <> kind_func -> is_ok (type_align linux64 sample_table (m_ref d)) = true ->
  plain linux64 sample_table d sz.
Proof. intros Hw Hi Hf Ha. split; try done. destruct (type_align _ _ _); eauto; done. Qed.

Lemma sample_ok : init_ok linux64 sample_table 20 sample_init (sue_of type_struct 2).
Proof.
  assert (Hs : init_ok linux64 sample_table 20
                 (decl_init_brace [Some (num_ (ty type_short) 1); None; Some (num_ (ty type_short) 3)]) short3).
  { eapply array_ok with (n := 3) (sz := 2); try data_fact; [apply child_none; data_fact|].
    apply elements_cons; [done|apply child_some; [data_fact..|apply num_ok; set_solver]|].
    apply elements_cons; [done|apply child_none; data_fact|].
    apply elements_cons; [done|apply child_some; [data_fact..|apply num_ok; set_solver]|]. constructor. }
  eapply struct_ok with (id := 2%nat) (end_ := 48) (size := 48); try data_fact.
  eapply members_cons; [apply plain_ok; data_fact|data_fact|apply child_some; [data_fact..|]|].
  { eapply array_ok with (n := 2) (sz := 16); try data_fact; [apply child_none; data_fact|].
    apply elements_cons; [done|apply child_some; [data_fact..|]|constructor].
    eapply struct_ok with (id := 0%nat) (end_ := 14) (size := 16); try data_fact.
    eapply members_cons; [apply plain_ok; data_fact|data_fact|apply child_some; [data_fact..|apply num_ok; set_solver]|].
    eapply members_cons; [apply plain_ok; data_fact|data_fact|apply child_some; [data_fact..|apply num_ok; set_solver]|].
    eapply members_cons; [apply plain_ok; data_fact|data_fact|apply child_some; [data_fact..|exact Hs]|].
    constructor. data_fact. }
  eapply members_cons; [apply plain_ok; data_fact|data_fact|apply child_some; [data_fact..|]|].
  { scalar_ok_tac. eapply const_str. reflexivity. }
  eapply members_cons; [apply plain_ok; data_fact|data_fact|apply child_some; [data_fact..|]|].
  { eapply union_ok with (id := 1%nat) (size := 4); try data_fact. apply picked_next.
    eapply picked_here; [data_fact| |apply child_some; [data_fact..|apply num_ok; set_solver]]. data_fact. }
  constructor. data_fact.
Qed.

Lemma static_image_witness :
  exists items,
    sample_emit = Ok items /\ length (bytes (fun _ => 4096) items) = 48%nat
    /\ bytes (fun _ => 4096) items
       = [97; 0; 0; 0; 254; 255; 255; 255; 1; 0; 0; 0; 3; 0; 0; 0] ++ zeros 16
         ++ [1; 16; 0; 0; 0; 0; 0; 0; 7; 0; 0; 0] ++ zeros 4.
Proof.
  destruct (static_image linux64 sample_table true 20 id id (fun _ => 4096) sample_init (sue_of type_struct 2) 48
              sample_ok eq_refl ltac:(lia)) as (items & Hi & Hl & Hb).
  exists items. split; [exact Hi|]. split; [exact Hl|]. rewrite Hb. vm_compute. reflexivity.
Defined.

Lemma bitfield_unit_witness :
  exists v w,
    bitfields_value true [mk_bitfield_val 5 0 3; mk_bitfield_val (2 ^ 64 - 1) 3 4; mk_bitfield_val 300 8 8] 0 0
    = Ok (v, w)
    /\ wrapu 4 (Z.shiftr v 3) = 15 /\ wrapu 8 (Z.shiftr v 8) = 44.
Proof.
  destruct (bitfield_unit true [mk_bitfield_val 5 0 3; mk_bitfield_val (2 ^ 64 - 1) 3 4; mk_bitfield_val 300 8 8])
    as (v & w & Hv & _ & H).
  - repeat apply Forall_cons_2; [..|apply Forall_nil_2]; split_and!; simpl; try lia; unfold is_u; lia.
  - simpl. lia.
  - exists v, w. split; [exact Hv|]. split.
    + exact (H (mk_bitfield_val (2 ^ 64 - 1) 3 4) ltac:(set_solver)).
    + exact (H (mk_bitfield_val 300 8 8) ltac:(set_solver)).
Defined.

(** *** What goes wrong *)

Definition bitfield_table : sue_id -> sue :=
  folded_table (fun id =>
    match id with
    | 0%nat => sue_ type_struct [bits_ "a" 3; plain_ "b" (ty type_int)]
    | _ => sue_ type_struct [bits_ "a" 3]
    end) [0; 1]%nat.

Definition bitfield_emit (init : decl_init Z) (t : type) : res (list item) :=
  asm_declare_init linux64 bitfield_table true id id 20 init t.

(** [struct { int a : 3; int b; } x = { 1, 2 };]: [a] is in byte 0, but the
    padding before [b] is emitted ahead of it. *)
Example bitfield_after_padding :
  bitfield_emit (decl_init_brace [Some (num_ (ty type_int) 1); Some (num_ (ty type_int) 2)]) (sue_of type_struct 0)
  = Ok [item_space 3; item_data "byte" (datum_num 1) 0; item_data "long" (datum_num 2) 0].
Proof. vm_compute. reflexivity. Qed.

(** [struct { int a : 3; } x[2] = { { 1 }, { 2 } };]: seven bytes an element, of
    a type of four. *)
Example bitfield_tail :
  bitfield_emit (decl_init_brace [Some (decl_init_brace [Some (num_ (ty type_int) 1)]);
                                  Some (decl_init_brace [Some (num_ (ty type_int) 2)])])
    (type_array (sue_of type_struct 1) (size_const 2) false VLA_NO)
  = Ok [item_data "long" (datum_num 1) 0; item_space 3; item_data "long" (datum_num 2) 0; item_space 3]
  /\ type_size linux64 bitfield_table (sue_of type_struct 1) = Ok 4.
Proof. vm_compute. split; reflexivity. Qed.

(** A global of one scalar; the host's [double]s are given by their bits. *)
Definition declare (t : type) (k : folded Z) : res (list item) :=
  asm_declare_decl_init linux64 no_sues true id id 20 (fun f => wrapu 63 f =? 0)
    (mk_asm_options true true true false)
    (mk_object false (str "x") t 8 (Some (decl_init_scalar t k None)) false false false).

(** The address of a member of the null pointer: a null address with an offset counts as zero. *)
Example offset_of_null :
  declare (ptr_ (ty type_int)) (folded_num (mk_consty (CONST_ADDR (CONST_LBL_MEMADDR 0)) 4 None None))
  = Ok [item_align 8; item_label (str "x"); item_space 8].
Proof. vm_compute. reflexivity. Qed.

(** [double x = -0.0;]: a zero of either sign is emitted as zero bytes. *)
Example negative_zero :
  declare (ty type_double) (folded_float (2 ^ 63)) = Ok [item_align 8; item_label (str "x"); item_space 8].
Proof. vm_compute. reflexivity. Qed.
