(* ===== verification/Bracing.v ===== *)
(** * Initialisers put in shape

    [src/src/cc1/decl_init.c]: an initialiser as it is parsed, with braces left
    out and designators anywhere, becomes one brace for each aggregate with the
    members in order ([decl_init_brace_up_fold]); and an initialised automatic
    object becomes a sequence of assignments ([decl_init_create_assignments_base]).
    Warnings are left out, and so are the checks of the type by [fold_type],
    made before. *)

From S2P Require Import Prelude Arith Triple StrLit Types Consts Layout Data.
Local Open Scope Z_scope.

(** ** Expressions *)

(** What is asked of the expressions of an initialiser: the type once folded,
    what [const_fold] makes of it, a string literal's content, the initialiser
    of the compound literal it is or reads, the expression after [FOLD_EXPR]
    (with decays and the reading of lvalues), [expr_new_val], and
    [fold_type_chk_and_cast_ty], which casts it to a type and tells whether it
    reported an error. *)
Class InitExpr := mk_init_expr {
  E : Type;
  F : Type;
  e_type : E -> type;
  e_folded : E -> folded F;
  e_str : E -> option cstring;
  e_comp_lit : E -> option (decl_init F);
  e_rval : E -> E;
  e_new_val : Z -> E;
  e_assign : type -> E -> E * bool
}.

#[export] Instance type_str_type_eq_dec : EqDecision type_str_type_.
Proof. solve_decision. Defined.

Section bracing.
Context `{InitExpr}.

(** [struct desig], and the initialisers of the parser. A brace's array is null
    when it is empty. *)
Inductive desig :=
  | desig_ar (lo : E) (hi : option E)
  | desig_struct (member : cstr).

Inductive init :=
  | init_scalar (ds : list desig) (e : E)
  | init_brace (ds : list desig) (inits : list init).

Definition desigs (i : init) : list desig :=
  match i with init_scalar ds _ | init_brace ds _ => ds end.

(** [this->desig = ds] *)
Definition set_desig (i : init) (ds : list desig) : init :=
  match i with init_scalar _ e => init_scalar ds e | init_brace _ inits => init_brace ds inits end.

(** Initialisers put in shape: the designators are used up, a missing one is
    [DYNARRAY_NULL], and one for a range points at its [init_cpy] [p], which
    holds the one it copies. *)
Inductive dinit :=
  | d_scalar (e : E)
  | d_brace (inits : list (option dinit))
  | d_copy (p : nat) (r : dinit).

(** [init_iter]: the initialisers still to be used. *)
Definition iter : Type := list init.

(** ** Errors *)

(** [fold_had_error], which an error that does not stop the compiler sets, and
    how many [init_cpy]s were made. *)
Record istate : Type := mk_istate {
  had_error : bool;
  cpys : nat
}.

Definition I (A : Type) : Type := istate -> res (istate * A).

#[export] Instance I_ret : MRet I := fun A a s => Ok (s, a).
#[export] Instance I_bind : MBind I := fun A B k m s => r ← m s; k r.2 r.1.

Definition lift {A} (r : res A) : I A := fun s => a ← r; Ok (s, a).

Definition err (s : istate) (e : bool) : istate := mk_istate (had_error s || e) (cpys s).
Definition report_error (e : bool) : I unit := fun s => Ok (err s e, tt).

(** [init_cpy_from_dinit] *)
Definition init_cpy_new : I nat := fun s => Ok (mk_istate (had_error s) (S (cpys s)), cpys s).

Context (g : target) (sues : sue_id -> sue) (decl_spel : decl_id -> cstr).

(** ** Arrays of initialisers *)

(** [dynarray_padinsert] *)
Definition padinsert {A} (none : A) (l : list A) (i : nat) (x : A) : list A :=
  if (i <? length l)%nat then <[i := x]> l else l ++ replicate (i - length l) none ++ [x].

(** [decl_init_is_const], with no place for [nonstd]: the initialiser of a
    struct that copies a compound literal would be written there. *)
Fixpoint decl_init_is_const (d : dinit) (expected_ty : type) : res bool :=
  match d with
  | d_scalar e =>
      Ok (match e_folded (e_rval e) with folded_num k => CONST_AT_COMPILE_TIME k | folded_float _ => true end)
  | d_brace inits =>
      let all (next : nat -> res type) : nat -> list (option dinit) -> res bool :=
        fix all (i : nat) (inits : list (option dinit)) : res bool :=
          match inits with
          | [] => Ok true
          | None :: inits => _ ← next i; all (S i) inits
          | Some d :: inits =>
              ty ← next i;
              c ← decl_init_is_const d ty;
              if c : bool then all (S i) inits else Ok false
          end in
      match type_is_s_or_u sues expected_ty with
      | Some id =>
          let copies :=
            match inits with
            | [Some (d_scalar e)] =>
                bool_decide (type_is_s_or_u sues (e_type e) = Some id) && bool_decide (e_comp_lit e <> None)
            | _ => false
            end in
          if copies then Ub "null nonstd"
          else
            all (fun i => match s_members (sues id) !! i with
                          | Some (struct_member m) => Ok (m_ref m)
                          | _ => Ub "no such member"
                          end) O inits
      | None =>
          match inits, type_is_array expected_ty with
          | [], _ => Ok true
          | _, Some sub => all (fun _ => Ok sub) O inits
          | _, None => Ice "assert(su)"
          end
      end
  | d_copy _ r => decl_init_is_const r expected_ty
  end.

(** [decl_init_copy_const] reads the array of a brace even when it is null. *)
Fixpoint decl_init_copy_const (d : dinit) : res dinit :=
  match d with
  | d_scalar _ | d_copy _ _ => Ok d
  | d_brace [] => Ub "null initialisers"
  | d_brace inits =>
      l ← (fix go (inits : list (option dinit)) : res (list (option dinit)) :=
             match inits with
             | [] => Ok []
             | None :: inits => l ← go inits; Ok (None :: l)
             | Some d :: inits => c ← decl_init_copy_const d; l ← go inits; Ok (Some c :: l)
             end) inits;
      Ok (d_brace l)
  end.

(** The initialisers in [current], of the object that is written over. *)
Definition current_inits (current : option dinit) : res (list (option dinit)) :=
  match current with
  | None => Ok []
  | Some (d_brace inits) => Ok inits
  | Some _ => Ub "not a brace"
  end.

(** [find_desig] *)
Fixpoint find_desig (it : iter) : option nat :=
  match it with
  | [] => None
  | d :: it => match desigs d with [] => option_map S (find_desig it) | _ => Some O end
  end.

(** ** The functions, given those they call again *)

(** [decl_init_brace_up_r], and [decl_init_brace_up_aggregate] with
    [decl_init_brace_up_sue2] for an anonymous member. *)
Record braces : Type := mk_braces {
  up_r : option dinit -> iter -> type -> bool -> I (dinit * iter);
  up_anon : sue_id -> option dinit -> iter -> I (dinit * iter)
}.

(** [brace_up_f] with its [arg1] and [arg2]: given the initialisers to write
    over, those to use, [allow_struct_copy] and [nested]. *)
Abbreviation brace_up_f := (list (option dinit) -> iter -> bool -> bool -> I (list (option dinit) * iter)).

(** The initialisers of an array being built; each with whether it is a copy
    that points into the ranges of another brace. *)
Abbreviation slots := (list (option dinit * bool)).

Section functions.
Context (fuel : nat) (self : braces).

(** *** Scalars *)

(** The initialiser that is replaced is freed. *)
Definition decl_init_brace_up_scalar (current : option dinit) (it : iter) (tfor : type) : I (dinit * iter) :=
  match it with
  | [] => mret (d_scalar (e_rval (e_new_val 0)), [])
  | first_init :: it =>
      match desigs first_init with
      | _ :: _ => lift (Die "initialising scalar with designator")
      | [] =>
          match first_init with
          | init_brace _ inits =>
              match current with
              | Some _ => lift (Ub "freed initialiser")
              | None => r ← up_r self None inits tfor false; mret (r.1, it)
              end
          | init_scalar _ e =>
              let e := e_rval e in
              if type_is_primitive (e_type e) type_void then
                _ ← report_error true; mret (d_scalar e, it)
              else
                let '(e, err) := e_assign tfor e in
                _ ← report_error err; mret (d_scalar e, it)
          end
      end
  end.

(** *** Aggregates *)

(** A brace is an iterator of its own, with what is left of its designators
    around it; otherwise initialisers are taken up to the next designator. *)
Definition decl_init_brace_up_aggregate (f : brace_up_f) (current : option dinit) (it : iter) (nested : bool)
    : I (dinit * iter) :=
  match it with
  | [] => lift (Ub "null initialiser")
  | init_brace _ [] :: rest => mret (d_brace [None], rest)
  | init_brace ds inits as first :: rest =>
      let '(sub, current) := match ds with [] => (inits, None) | _ :: _ => ([first], current) end in
      cur ← lift (current_inits current);
      r ← f cur sub false nested;
      mret (d_brace r.1, rest)
  | init_scalar _ _ :: rest =>
      cur ← lift (current_inits current);
      match find_desig rest with
      | Some k =>
          r ← f cur (take (S k) it) true true;
          mret (d_brace r.1, r.2 ++ drop (S k) it)
      | None =>
          r ← f cur it true true;
          mret (d_brace r.1, r.2)
      end
  end.

(** *** Arrays *)

Definition is_copy (o : option dinit) : bool := match o with Some (d_copy _ _) => true | _ => false end.
Definition slots_of (cur : list (option dinit)) : slots := map (fun o => (o, is_copy o)) cur.
Definition no_slot : option dinit * bool := (None, false).

(** The bounds of an array designator. *)
Definition desig_index (e : E) : res (option Z) :=
  match e_folded (e_rval e) with
  | folded_float _ => Ok None
  | folded_num k => match k_val k with CONST_NUM i _ => Ok (Some i) | _ => Die "non-constant array-designator" end
  end.

Definition desig_range (limit : Z) (lo : E) (hi : option E) : res (nat * nat) :=
  i ← desig_index lo;
  j ← match hi with Some hi => desig_index hi | None => Ok i end;
  match i, j with
  | Some i, Some j =>
      if (s64 i <? 0) || (s64 j <? 0) then Die "negative array index initialiser"
      else if (-1 <? limit) && ((limit <=? i) || (limit <=? j)) then Die "designating outside of array bounds"
      else Ok (Z.to_nat i, Z.to_nat j)
  | _, _ => Die "non-integral array-designator"
  end.

(** The object written over at [i]: kept, to be changed in part, when it is an
    aggregate's. The initialisers, what is given on and whether it is. *)
Definition array_replacing (next_type : type) (i : nat) (cur : slots)
    : res (slots * option dinit) :=
  match cur !! i with
  | Some (Some d, _) =>
      if type_is_scalar sues next_type then Ok (cur, None)
      else
        c ← decl_init_is_const d next_type;
        if c : bool then
          match d with
          | d_copy _ r => r ← decl_init_copy_const r; Ok (<[i := (Some r, false)]> cur, Some r)
          | _ => Ok (cur, Some d)
          end
        else Die "can't replace _part_ of array-range subobject without braces"
  | _ => Ok (cur, None)
  end.

(** [range_store_add] finds the place of each copy in the ranges of this brace. *)
Definition range_store_add (cur : slots) : res unit :=
  if existsb snd cur then Ub "copy of another brace's range" else Ok tt.

(** The copies of [braced] at [i] and the [n] indices after it. *)
Fixpoint range_fill (n i p : nat) (braced : dinit) (cur : slots) : slots :=
  let cur := padinsert no_slot cur i (Some (d_copy p braced), false) in
  match n with O => cur | S n => range_fill n (S i) p braced cur end.

(** Elements [i] to [j]; a range that changes an object in part is refused when
    the first element is found to be there. *)
Definition array_element (next_type : type) (i j : nat) (cur : slots) (it : iter) : I (slots * iter) :=
  r ← lift (array_replacing next_type i cur);
  let '(cur, replacing) := r in
  _ ← lift (match replacing with
            | Some d => if (i <? j)%nat then _ ← decl_init_copy_const d; Ok tt else Ok tt
            | None => Ok tt
            end);
  b ← up_r self replacing it next_type true;
  let cur := padinsert no_slot cur i (Some b.1, false) in
  if (i <? j)%nat then
    p ← init_cpy_new;
    _ ← lift (range_store_add cur);
    match replacing with
    | Some _ => lift (Die "can't replace with a range currently")
    | None => mret (range_fill (j - i) i p b.1 cur, b.2)
    end
  else mret (cur, b.2).

(** [limit] is negative when the array has no bound. *)
Fixpoint array2_loop (fuel : nat) (next_type : type) (limit : Z) (i : nat) (cur : slots) (it : iter)
    : I (slots * iter) :=
  match it with
  | [] => mret (cur, [])
  | this :: tl =>
      match fuel with
      | O => lift NoFuel
      | S fuel =>
          at_ ← lift (
            match desigs this with
            | desig_ar lo hi :: ds => ij ← desig_range limit lo hi; Ok (Some (ij, set_desig this ds))
            | desig_struct _ :: _ => Die "struct designator can't designate array"
            | [] => Ok (if (-1 <? limit) && (limit <=? Z.of_nat i) then None else Some ((i, i), this))
            end);
          match at_ with
          | None => mret (cur, it)
          | Some ((i, j), this) =>
              r ← array_element next_type i j cur (this :: tl);
              array2_loop fuel next_type limit (S j) r.1 r.2
          end
      end
  end.

Definition decl_init_brace_up_array2 (next_type : type) (limit : Z) : brace_up_f :=
  fun cur it _ _ =>
    r ← array2_loop fuel next_type limit O (slots_of cur) it;
    mret (map fst r.1, r.2).

(** *** Structs and unions *)

Definition DECL_IS_ANON_BITFIELD (d : member) : bool :=
  bool_decide (field_width d <> None) && bool_decide (m_spel d = None).

Definition is_member (p : member -> bool) (m : sue_member) : bool :=
  match m with struct_member d => p d | enum_member _ _ => false end.

(** The index of the member a designator names, and whether it is the anonymous
    one that contains it. *)
Definition desig_member (id : sue_id) (spel : cstr) : res (option (nat * option sue_id)) :=
  r ← struct_union_member_find g sues decl_spel fuel id spel;
  match r with
  | None => Ok None
  | Some (_, _, pin) =>
      let here (d : member) : bool :=
        match pin with
        | None => match m_spel d with Some sp => streq sp spel | None => false end
        | Some sub => bool_decide (m_spel d = None) && bool_decide (type_is_s_or_u sues (m_ref d) = Some sub)
        end in
      match list_find (fun m => is_member here m = true) (s_members (sues id)) with
      | Some (j, _) => Ok (Some (j, pin))
      | None => Ice "couldn't find member"
      end
  end.

Definition member_at (cur : list (option dinit)) (i : nat) : option dinit :=
  match cur !! i with Some (Some d) => Some d | _ => None end.

(** The initialiser that a member's new one replaces: none, when a designator
    goes into an object that was copied whole. [into]: designators are left. *)
Definition member_replacing (cur : list (option dinit)) (i : nat) (into : bool) : res (option dinit) :=
  match member_at cur i with
  | Some (d_brace [o] as d) =>
      if into then
        match o with
        | None => Ub "null initialiser"
        | Some (d_scalar e) => Ok (match type_is_s_or_u sues (e_type e) with Some _ => None | None => Some d end)
        | Some _ => Ok (Some d)
        end
      else Ok (Some d)
  | o => Ok o
  end.

(** An anonymous member's initialiser is looked at again after its array was
    given to the members inside, which may have moved it. *)
Definition anon_replaced (replacing : option dinit) (this : init) (braced : dinit) : res unit :=
  match replacing, braced with
  | Some (d_brace old), d_brace new =>
      let now := match this with init_brace _ [] => old | _ => new end in
      if (length old <? length now)%nat then Ub "freed initialisers"
      else match now with [None] => Ub "null initialiser" | _ => Ok tt end
  | _, _ => Ok tt
  end.

(** Which member the next initialiser is for: its index, the initialisers to
    use, and that of an anonymous member when it was made on the way; none when
    the initialiser is not for this struct. [into]: designators are left. *)
Record target_member : Type := mk_target_member {
  tm_index : nat;
  tm_iter : iter;
  tm_into : bool;
  tm_braced : option dinit
}.

Definition sue_target (id : sue_id) (is_anon : bool) (i : nat) (cur : list (option dinit)) (this : init)
    (tl : iter) : I (option target_member) :=
  match desigs this with
  | [] => mret (Some (mk_target_member i (this :: tl) false None))
  | desig_ar _ _ :: _ => lift (Die "array designator can't designate struct")
  | desig_struct m :: ds =>
      j ← lift (desig_member id m);
      match j with
      | None => if is_anon then mret None else lift (Die "no such member")
      | Some (j, None) =>
          mret (Some (mk_target_member j (set_desig this ds :: tl) (bool_decide (ds <> [])) None))
      | Some (j, Some sub) =>
          let replacing := member_at cur j in
          b ← up_anon self sub replacing (this :: tl);
          _ ← lift (anon_replaced replacing this b.1);
          mret (Some (mk_target_member j b.2 false (Some b.1)))
      end
  end.

(** One member's initialiser; [Some] when it was made already. *)
Definition sue_member_init (d : member) (i : nat) (nested : bool) (t : target_member) (cur : list (option dinit))
    : I (list (option dinit) * iter) :=
  replacing ← lift (member_replacing cur i (tm_into t));
  _ ← report_error (type_is_incomplete_array (m_ref d) && nested);
  b ← match tm_braced t with
      | Some b => mret (b, tm_iter t)
      | None => up_r self replacing (tm_iter t) (m_ref d) true
      end;
  let cur := padinsert None cur i (Some b.1) in
  match field_width d, b.1 with
  | Some _, d_brace _ | Some _, d_copy _ _ => lift (Ice "scalar init expected for bitfield")
  | _, _ => mret (cur, b.2)
  end.

Fixpoint sue2_loop (fuel : nat) (id : sue_id) (is_anon nested : bool) (i : nat) (cur : list (option dinit))
    (it : iter) : I (list (option dinit) * iter) :=
  match it with
  | [] => mret (cur, [])
  | this :: tl =>
      match fuel with
      | O => lift NoFuel
      | S fuel =>
          t ← sue_target id is_anon i cur this tl;
          match t with
          | None => mret (cur, it)
          | Some t =>
              let i := tm_index t in
              match s_members (sues id) !! i with
              | None => mret (cur, tm_iter t)
              | Some (enum_member _ _) => lift (Ub "an enumerator in a struct")
              | Some (struct_member d) =>
                  if DECL_IS_ANON_BITFIELD d then sue2_loop fuel id is_anon nested (S i) cur (tm_iter t)
                  else
                    r ← sue_member_init d i nested t cur;
                    if bool_decide (s_primitive (sues id) = type_union) then mret r
                    else sue2_loop fuel id is_anon nested (S i) r.1 r.2
              end
          end
      end
  end.

(** The whole object is copied when the first initialiser is of its type. *)
Definition decl_init_brace_up_sue2 (id : sue_id) (is_anon : bool) : brace_up_f :=
  fun cur it allow_struct_copy nested =>
    if negb (sue_is_complete (sues id)) then lift (Ice "should've checked sue completeness")
    else
      match it with
      | init_scalar _ e :: tl =>
          if allow_struct_copy && bool_decide (type_is_s_or_u sues (e_type e) = Some id)
          then mret (padinsert None cur O (Some (d_scalar e)), tl)
          else sue2_loop fuel id is_anon nested O cur it
      | _ => sue2_loop fuel id is_anon nested O cur it
      end.

(** *** Any type *)

(** A string literal, perhaps in braces of its own, for an array of characters. *)
Definition is_char_init (ty : type) (it : iter) : option cstring :=
  match it with
  | init_scalar _ chosen :: _ | init_brace _ [init_scalar _ chosen] :: _ =>
      match e_str chosen with
      | Some s =>
          if bool_decide (type_str_type (e_type chosen) = type_str_no) then None
          else if bool_decide (type_str_type (e_type chosen) = type_str_type ty) then Some s else None
      | None => None
      end
  | _ => None
  end.

(** The bound of an array, negative when it has none. *)
Definition array_limit (t : type) : res Z :=
  if type_is_incomplete_array t then Ok (-1)
  else
    vm ← type_is_variably_modified t;
    if vm : bool then Ok (-1)
    else
      match type_is t kind_array with
      | Some (type_array _ size _ _) => n ← fold_size size; Ok (s32 n)
      | _ => Ice "not an array"
      end.

(** The characters of a literal, with its NUL if there is room. *)
Fixpoint char_inits (s : cstring) (i n : nat) : res (list (option dinit)) :=
  match n with
  | O => Ok []
  | S n => c ← cstring_char_at s i; l ← char_inits s (S i) n; Ok (Some (d_scalar (e_rval (e_new_val c))) :: l)
  end.

Definition emit_incomplete_error (tfor : type) : I unit :=
  match type_is_s_or_u_or_e tfor with
  | Some id => inc ← lift (sue_incomplete_chk (sues id)); report_error inc
  | None => mret tt
  end.

Definition decl_init_dummy (current : option dinit) : dinit :=
  match current with Some d => d | None => d_brace [] end.

Definition decl_init_brace_up_array_chk_char (current : option dinit) (it : iter) (array : type) (nested : bool)
    : I (dinit * iter) :=
  limit ← lift (array_limit array);
  array_of ← lift (r ← type_next array; match r with Some t => Ok t | None => Ub "null type" end);
  complete ← lift (type_is_complete sues array_of);
  if negb complete then
    _ ← emit_incomplete_error array; mret (decl_init_dummy current, it)
  else
    match is_char_init array it with
    | Some s =>
        let n := if (limit =? -1) || (Z.of_nat (count s) <=? u32 limit) then count s else Z.to_nat (u32 limit) in
        l ← lift (char_inits s O n);
        mret (d_brace l, tail it)
    | None => decl_init_brace_up_aggregate (decl_init_brace_up_array2 array_of limit) current it nested
    end.

Definition brace_up_r_body (current : option dinit) (it : iter) (tfor : type) (nested : bool)
    : I (dinit * iter) :=
  if bool_decide (kind (type_skip_all tfor) = kind_array) then
    decl_init_brace_up_array_chk_char current it tfor nested
  else
    complete ← lift (type_is_complete sues tfor);
    if negb complete then
      _ ← emit_incomplete_error tfor; mret (decl_init_dummy current, it)
    else
      match type_is_s_or_u sues tfor with
      | Some id => decl_init_brace_up_aggregate (decl_init_brace_up_sue2 id false) current it nested
      | None => decl_init_brace_up_scalar current it tfor
      end.

End functions.

(** ** Tied together *)

Definition no_fuel : braces :=
  mk_braces (fun _ _ _ _ => lift NoFuel) (fun _ _ _ => lift NoFuel).

Fixpoint braces_at (n : nat) : braces :=
  match n with
  | O => no_fuel
  | S n =>
      let self := braces_at n in
      mk_braces (brace_up_r_body n self)
        (fun id current it => decl_init_brace_up_aggregate (decl_init_brace_up_sue2 n self id true) current it true)
  end.

Definition decl_init_brace_up_r (n : nat) : option dinit -> iter -> type -> bool -> I (dinit * iter) :=
  up_r (braces_at n).

(** [type_get_attrs_toplvl] and [type_complete_array] *)
Fixpoint type_get_attrs_toplvl (t : type) : list attribute :=
  match t with
  | type_attr ref attrs => List.filter attribute_is_typrop attrs ++ type_get_attrs_toplvl ref
  | type_tdef _ _ ref _ _ | type_typeof _ ref | type_cast ref _ | type_where ref => type_get_attrs_toplvl ref
  | _ => []
  end.

Definition type_complete_array (orig : type) (n : Z) : res type :=
  match type_skip_all orig with
  | type_array ref _ _ _ =>
      Ok (type_attributed (type_array_of ref (size_const n)) (type_get_attrs_toplvl orig))
  | _ => Ice "not an array"
  end.

(** The initialiser of an object: one that is left as it is when it is refused,
    and the object's type, completed if it is an array without a size. *)
Definition decl_init_brace_up_start (n : nat) (i : init) (tfor : type) : I (dinit * type) :=
  refused ← lift (
    match i with
    | init_scalar _ e =>
        let for_array := bool_decide (type_is_array tfor <> None) in
        if for_array || bool_decide (type_is_s_or_u sues tfor <> None) then
          c ← type_cmp g sues n (e_type e) tfor false;
          Ok (match c with
              | TYPE_EQUAL | TYPE_EQUAL_TYPEDEF | TYPE_QUAL_ADD | TYPE_QUAL_SUB => None
              | _ => if negb for_array || bool_decide (is_char_init tfor [i] = None) then Some e else None
              end)
        else Ok None
    | init_brace _ _ => Ok None
    end);
  match refused with
  | Some e => _ ← report_error true; mret (d_scalar e, tfor)
  | None =>
      ret ← decl_init_brace_up_r n None [i] tfor false;
      if type_is_incomplete_array tfor then
        match ret.1 with
        | d_brace inits => t ← lift (type_complete_array tfor (Z.of_nat (length inits))); mret (ret.1, t)
        | _ => lift (Ice "unbraced array")
        end
      else mret (ret.1, tfor)
  end.

(** [maybe_complete_array_from_prev]: the type of an array without a size is the
    earlier declaration's. *)
Definition maybe_complete_array_from_prev (ref : type) (proto : option type) : type :=
  if negb (type_is_incomplete_array ref) then ref
  else
    match proto with
    | Some prev =>
        if bool_decide (type_is_array prev = None) || type_is_incomplete_array prev then ref else prev
    | None => ref
    end.

(** A declaration is done once: the initialiser and the type it leaves, none
    when they stay. *)
Definition decl_init_brace_up_fold (n : nat) (normalised : bool) (ref : type) (proto : option type) (i : init)
    : I (option (dinit * type)) :=
  if normalised then mret None
  else if type_is_vla true ref then _ ← report_error true; mret None
  else r ← decl_init_brace_up_start n i (maybe_complete_array_from_prev ref proto); mret (Some r).

(** ** Positional initialisers

    The scalars of an object in the order of C11 6.7.9p17, each with the place
    it has: an array's elements, the members of a struct but the unnamed
    bitfields, the first member of a union. *)

Definition prefix {A} (i : nat) (l : list (list nat * A)) : list (list nat * A) :=
  map (fun x => (i :: x.1, x.2)) l.

(** The places of [m] elements, from index [i]. *)
Fixpoint elements_from {A} (i m : nat) (l : list (list nat * A)) : list (list nat * A) :=
  match m with
  | O => []
  | S m => prefix i l ++ elements_from (S i) m l
  end.

Definition scalar_type (t : type) : Prop :=
  kind (type_skip_all t) <> kind_array /\ type_is_complete sues t = Ok true /\ type_is_s_or_u sues t = None.

Inductive leaves : type -> list (list nat * type) -> Prop :=
  | leaves_scalar t : scalar_type t -> leaves t [([], t)]
  | leaves_array t next n st vla ls :
      type_skip_all t = type_array next (size_const n) st vla -> type_is_variably_modified t = Ok false ->
      type_is_complete sues next = Ok true -> 0 <= n < 2 ^ 31 -> leaves next ls ->
      leaves t (elements_from 0 (Z.to_nat n) ls)
  | leaves_sue t id ls :
      kind (type_skip_all t) <> kind_array -> type_is_complete sues t = Ok true ->
      type_is_s_or_u sues t = Some id -> sue_is_complete (sues id) = true ->
      member_leaves (bool_decide (s_primitive (sues id) = type_union)) 0 (s_members (sues id)) ls ->
      leaves t ls
with member_leaves : bool -> nat -> list sue_member -> list (list nat * type) -> Prop :=
  | members_end one i : member_leaves one i [] []
  | members_skip one i d ms ls :
      DECL_IS_ANON_BITFIELD d = true -> member_leaves one (S i) ms ls ->
      member_leaves one i (struct_member d :: ms) ls
  | members_more i d ms ls ls' :
      DECL_IS_ANON_BITFIELD d = false -> (field_width d <> None -> scalar_type (m_ref d)) ->
      leaves (m_ref d) ls -> member_leaves false (S i) ms ls' ->
      member_leaves false i (struct_member d :: ms) (prefix i ls ++ ls')
  | members_first i d ms ls :
      DECL_IS_ANON_BITFIELD d = false -> (field_width d <> None -> scalar_type (m_ref d)) ->
      leaves (m_ref d) ls -> member_leaves true i (struct_member d :: ms) (prefix i ls).

Scheme leaves_mut := Minimality for leaves Sort Prop
  with member_leaves_mut := Minimality for member_leaves Sort Prop.
Combined Scheme leaves_both from leaves_mut, member_leaves_mut.

(** The scalars an initialiser holds, with their places. *)
Fixpoint placed (d : dinit) : list (list nat * E) :=
  match d with
  | d_scalar e => [([], e)]
  | d_copy _ r => placed r
  | d_brace inits =>
      (fix go (i : nat) (l : list (option dinit)) : list (list nat * E) :=
         match l with
         | [] => []
         | o :: l => match o with Some d => prefix i (placed d) | None => [] end ++ go (S i) l
         end) O inits
  end.

Fixpoint placed_from (i : nat) (l : list (option dinit)) : list (list nat * E) :=
  match l with
  | [] => []
  | o :: l => match o with Some d => prefix i (placed d) | None => [] end ++ placed_from (S i) l
  end.

Lemma placed_brace (l : list (option dinit)) : placed (d_brace l) = placed_from 0 l.
Proof. simpl. generalize O. induction l as [|o l IH]; intros i; simpl; congruence. Qed.

Lemma placed_from_app (i : nat) (l l' : list (option dinit)) :
  placed_from i (l ++ l') = placed_from i l ++ placed_from (i + length l) l'.
Proof.
  revert i. induction l as [|o l IH]; intros i; simpl; [by rewrite Nat.add_0_r|].
  rewrite IH, <- app_assoc. do 3 f_equal. lia.
Qed.

Lemma placed_from_none (i n : nat) : placed_from i (replicate n None) = [].
Proof. revert i. induction n as [|n IH]; intros i; simpl; [done|apply IH]. Qed.

Lemma placed_padinsert (l : list (option dinit)) (i : nat) (d : dinit) :
  (length l <= i)%nat -> placed_from 0 (padinsert None l i (Some d)) = placed_from 0 l ++ prefix i (placed d).
Proof.
  intros Hi. unfold padinsert. destruct (Nat.ltb_spec i (length l)); [lia|].
  rewrite !placed_from_app, placed_from_none, length_replicate. simpl. rewrite app_nil_r. do 2 f_equal. lia.
Qed.

Lemma length_padinsert {A} (z : A) (l : list A) (i : nat) (x : A) :
  (length l <= i)%nat -> length (padinsert z l i x) = S i.
Proof.
  intros Hi. unfold padinsert. destruct (Nat.ltb_spec i (length l)); [lia|].
  rewrite !length_app, length_replicate. simpl. lia.
Qed.

(** An expression given to each place in turn, cast to its type. *)
Definition cast_at (l : list nat * type) (e : E) : list nat * E := (l.1, (e_assign l.2 (e_rval e)).1).
Definition give (ls : list (list nat * type)) (es : list E) : list (list nat * E) := zip_with cast_at ls es.

(** Whether one of them does not fit its place. *)
Definition misfit (ls : list (list nat * type)) (es : list E) : bool :=
  existsb id (zip_with (fun l e => (e_assign l.2 (e_rval e)).2) ls es).

Lemma zip_with_app_drop {A B C} (f : A -> B -> C) (l l' : list A) (k : list B) :
  zip_with f (l ++ l') k = zip_with f l k ++ zip_with f l' (drop (length l) k).
Proof.
  revert k. induction l as [|x l IH]; intros [|y k]; simpl; [by destruct l'|done|by destruct l'|by rewrite IH].
Qed.

Lemma give_app (ls ls' : list (list nat * type)) (es : list E) :
  give (ls ++ ls') es = give ls es ++ give ls' (drop (length ls) es).
Proof. apply zip_with_app_drop. Qed.

Lemma misfit_app (ls ls' : list (list nat * type)) (es : list E) :
  misfit (ls ++ ls') es = misfit ls es || misfit ls' (drop (length ls) es).
Proof. unfold misfit. by rewrite zip_with_app_drop, existsb_app. Qed.

Lemma give_prefix (i : nat) (ls : list (list nat * type)) (es : list E) :
  give (prefix i ls) es = prefix i (give ls es).
Proof. revert es. induction ls as [|l ls IH]; intros [|e es]; simpl; try done. by rewrite IH. Qed.

Lemma misfit_prefix (i : nat) (ls : list (list nat * type)) (es : list E) :
  misfit (prefix i ls) es = misfit ls es.
Proof.
  unfold misfit. revert es. induction ls as [|l ls IH]; intros [|e es]; simpl; try done. by rewrite IH.
Qed.

Lemma length_prefix {A} (i : nat) (ls : list (list nat * A)) : length (prefix i ls) = length ls.
Proof. apply length_map. Qed.

(** Running the error monad. *)
Lemma err_false (b : istate) : err b false = b.
Proof. destruct b. unfold err. by rewrite orb_false_r. Qed.

Lemma err_err (b : istate) (x y : bool) : err b (x || y) = err (err b x) y.
Proof. unfold err. simpl. by rewrite orb_assoc. Qed.

Lemma I_step {A B} (m : I A) (k : A -> I B) (b b' : istate) (a : A) :
  m b = Ok (b', a) -> (m ≫= k) b = k a b'.
Proof. intros Hm. unfold mbind, I_bind. by rewrite Hm. Qed.

Lemma I_lift {A B} (a : A) (k : A -> I B) (b : istate) : (lift (Ok a) ≫= k) b = k a b.
Proof. done. Qed.

Lemma I_report {B} (e : bool) (k : unit -> I B) (b : istate) : (report_error e ≫= k) b = k tt (err b e).
Proof. done. Qed.

Lemma I_no_fuel {A B} (m : I A) (k : A -> I B) (b : istate) : m b = NoFuel -> (m ≫= k) b = NoFuel.
Proof. intros Hm. unfold mbind, I_bind. by rewrite Hm. Qed.

Lemma I_ret_step {A B} (a : A) (k : A -> I B) (b : istate) : (mret a ≫= k) b = k a b.
Proof. done. Qed.

(** Scalars without designators that are neither strings nor whole objects. *)
Definition plain_value (e : E) : Prop :=
  e_str e = None /\ type_is_s_or_u sues (e_type e) = None
  /\ type_is_primitive (e_type (e_rval e)) type_void = false.

Abbreviation scalars es := (map (init_scalar []) es).

Lemma give_nil (ls : list (list nat * type)) : give ls [] = [].
Proof. by destruct ls. Qed.
Lemma misfit_nil (ls : list (list nat * type)) : misfit ls [] = false.
Proof. by destruct ls. Qed.

Lemma no_desig (es : list E) : find_desig (scalars es) = None.
Proof. induction es as [|e es IH]; simpl; [done|by rewrite IH]. Qed.

(** A type's places are filled, with enough fuel. *)
Definition fills (t : type) (ls : list (list nat * type)) : Prop :=
  exists N, forall n es nested b,
    (N <= n)%nat -> es <> [] -> Forall plain_value es ->
    exists d,
      up_r (braces_at n) None (scalars es) t nested b = Ok (err b (misfit ls es), (d, scalars (drop (length ls) es)))
      /\ placed d = give ls es /\ (scalar_type t -> exists e, d = d_scalar e).

Definition fills_members (one : bool) (i : nat) (ms : list sue_member) (ls : list (list nat * type)) : Prop :=
  exists N, forall n f id pre cur es nested b,
    (N <= n)%nat -> (N <= f)%nat -> s_members (sues id) = pre ++ ms -> length pre = i -> (length cur <= i)%nat ->
    bool_decide (s_primitive (sues id) = type_union) = one -> Forall plain_value es ->
    exists cur',
      sue2_loop n (braces_at n) f id false nested i cur (scalars es) b
      = Ok (err b (misfit ls es), (cur', scalars (drop (length ls) es)))
      /\ placed_from 0 cur' = placed_from 0 cur ++ give ls es.

Lemma aggregate_scalars (f : list (option dinit) -> iter -> bool -> bool -> I (list (option dinit) * iter))
    (e : E) (es : list E) (nested : bool) (b b' : istate) (l : list (option dinit)) (it : iter) :
  f [] (scalars (e :: es)) true true b = Ok (b', (l, it)) ->
  decl_init_brace_up_aggregate f None (scalars (e :: es)) nested b = Ok (b', (d_brace l, it)).
Proof.
  intros Hf. cbn [map] in Hf |- *. unfold decl_init_brace_up_aggregate. rewrite no_desig.
  unfold mbind, I_bind, lift. cbn [current_inits mbind res_bind fst snd]. by rewrite Hf.
Qed.

Lemma scalar_fills (t : type) : scalar_type t -> fills t [([], t)].
Proof.
  intros (Hk & Hc & Hs). exists 1%nat. intros n es nested b Hn Hne Hp.
  destruct n as [|n]; [lia|]. destruct es as [|e es]; [done|]. inversion_clear Hp as [|? ? (_ & _ & Hv) _].
  exists (d_scalar (e_assign t (e_rval e)).1). split_and!; [|done|by eexists].
  cbn [braces_at up_r map]. unfold brace_up_r_body. rewrite bool_decide_false by done. rewrite Hc, I_lift.
  cbn [negb]. rewrite Hs. unfold decl_init_brace_up_scalar. cbn [desigs]. rewrite Hv.
  unfold misfit, cast_at. cbn [zip_with existsb length drop snd].
  destruct (e_assign t (e_rval e)) as [e' er]. rewrite I_report. simpl. by rewrite orb_false_r.
Qed.

(** An initialiser without a designator is for the next element. *)
Lemma array2_append (self : braces) (f : nat) (next : type) (limit : Z) (cur : slots) (e : E) (tl : iter) (b : istate) :
  (-1 <? limit) && (limit <=? Z.of_nat (length cur)) = false ->
  array2_loop self (S f) next limit (length cur) cur (init_scalar [] e :: tl) b
  = (v ← up_r self None (init_scalar [] e :: tl) next true;
     array2_loop self f next limit (S (length cur)) (cur ++ [(Some v.1, false)]) v.2) b.
Proof.
  intros Hl. cbn [array2_loop desigs]. rewrite Hl, I_lift.
  unfold array_element, array_replacing. rewrite lookup_ge_None_2 by done. rewrite Nat.ltb_irrefl.
  unfold mbind at 1, I_bind at 1. rewrite !I_lift. unfold mbind at 2 3, I_bind.
  destruct (up_r self None (init_scalar [] e :: tl) next true b) as [[b' [d it]]| | | |]; try done.
  unfold padinsert. rewrite Nat.ltb_irrefl, Nat.sub_diag. done.
Qed.

Lemma array2_fills (next : type) (ls : list (list nat * type)) (n : nat) :
  (forall es nested b, es <> [] -> Forall plain_value es -> exists d,
     up_r (braces_at n) None (scalars es) next nested b = Ok (err b (misfit ls es), (d, scalars (drop (length ls) es)))
     /\ placed d = give ls es) ->
  forall m f limit cur es b,
    (m < f)%nat -> limit = Z.of_nat (length cur + m) -> Forall plain_value es ->
    let all := elements_from (length cur) m ls in
    exists cur',
      array2_loop (braces_at n) f next limit (length cur) cur (scalars es) b
      = Ok (err b (misfit all es), (cur', scalars (drop (length all) es)))
      /\ placed_from 0 (map fst cur') = placed_from 0 (map fst cur) ++ give all es.
Proof.
  intros Hn m. induction m as [|m IH]; intros f limit cur es b Hf Hm Hp all;
    (destruct f as [|f]; [lia|]);
    (destruct es as [|e es];
     [exists cur; rewrite misfit_nil, give_nil, drop_nil, err_false, app_nil_r; done|]).
  - exists cur. subst all. cbn [elements_from]. unfold misfit, give. cbn. rewrite err_false, app_nil_r. split; [|done].
    cbn. replace ((-1 <? limit) && (limit <=? Z.of_nat (length cur))) with true by lia. done.
  - destruct (Hn (e :: es) true b) as (d & Hd & Hpl); [done..|]. cbn [map] in Hd |- *.
    rewrite array2_append by lia. erewrite I_step by exact Hd. cbn [fst snd]. specialize (IH f limit (cur ++ [(Some d, false)]) (drop (length ls) (e :: es)) (err b (misfit ls (e :: es)))).
    rewrite length_app in IH. cbn [length] in IH. rewrite Nat.add_1_r in IH.
    destruct IH as (cur' & Hc & Hpl'); [lia|lia|by apply Forall_drop|]. exists cur'. subst all. cbn [elements_from].
    rewrite misfit_app, misfit_prefix, give_app, give_prefix, length_prefix, length_app, length_prefix, err_err.
    rewrite <- drop_drop. split; [exact Hc|]. rewrite Hpl', map_app, placed_from_app, length_map, <- Hpl. simpl.
    by rewrite app_nil_r, <- app_assoc.
Qed.

(** How the initialisers of an aggregate are found, and that they fill it. *)
Definition aggregate_by (t : type) (f : nat -> brace_up_f) : Prop :=
  forall n it nested b, is_char_init t it = None ->
    up_r (braces_at (S n)) None it t nested b = decl_init_brace_up_aggregate (f n) None it nested b.

Definition fills_by (f : nat -> brace_up_f) (ls : list (list nat * type)) : Prop :=
  exists N, forall n es allow nested b,
    (N <= n)%nat -> es <> [] -> Forall plain_value es -> exists l,
      f n [] (scalars es) allow nested b = Ok (err b (misfit ls es), (l, scalars (drop (length ls) es)))
      /\ placed_from 0 l = give ls es.

Lemma aggregate_fills (t : type) (f : nat -> brace_up_f) (ls : list (list nat * type)) :
  ~ scalar_type t -> aggregate_by t f -> fills_by f ls -> fills t ls.
Proof.
  intros Ht Hf (N & HN). exists (S N). intros n es nested b Hn Hne Hp. destruct n as [|n]; [lia|].
  destruct es as [|e es]; [done|]. destruct (HN n (e :: es) true true b) as (l & Hl & Hpl); [lia|done|done|].
  exists (d_brace l). split_and!; [|by rewrite placed_brace|done].
  inversion_clear Hp as [|? ? (Hs & _) _].
  rewrite Hf by (cbn [map is_char_init]; by rewrite Hs). by apply aggregate_scalars.
Qed.

Lemma array_by (t next : type) (n : Z) (st : bool) (vla : vla_kind) :
  type_skip_all t = type_array next (size_const n) st vla -> type_is_variably_modified t = Ok false ->
  type_is_complete sues next = Ok true -> 0 <= n < 2 ^ 31 ->
  aggregate_by t (fun k => decl_init_brace_up_array2 k (braces_at k) next n).
Proof.
  intros Hk Hv Hc Hb k it nested b Hs.
  cbn [braces_at up_r]. unfold brace_up_r_body. rewrite bool_decide_true by (by rewrite Hk).
  unfold decl_init_brace_up_array_chk_char, array_limit, type_next, type_is_incomplete_array, type_is. rewrite Hk, Hv.
  cbn [kind type_next_1 mbind res_bind]. rewrite bool_decide_false by done. rewrite decide_True by done.
  cbn [fold_size mbind res_bind]. rewrite I_lift, I_lift, Hc, I_lift. cbn [negb]. rewrite Hs.
  by replace (s32 n) with n by (symmetry; apply wraps_id; unfold is_s; lia).
Qed.

Lemma array_fills (next : type) (n : Z) (ls : list (list nat * type)) :
  0 <= n -> fills next ls ->
  fills_by (fun k => decl_init_brace_up_array2 k (braces_at k) next n) (elements_from 0 (Z.to_nat n) ls).
Proof.
  intros Hb (N & HN). exists (N + S (Z.to_nat n))%nat. intros k es allow nested b Hn Hne Hp.
  destruct (array2_fills next ls k) with (m := Z.to_nat n) (f := k) (limit := n) (cur := @nil (option dinit * bool))
    (es := es) (b := b) as (cur' & Hcur & Hpl); [|lia|simpl; lia|done|].
  { intros es' nested' b' Hne' Hp'. destruct (HN k es' nested' b') as (d & Hd & Hpl & _); [lia|done|done|]. by exists d. }
  exists (map fst cur'). split; [|exact Hpl]. unfold decl_init_brace_up_array2.
  by erewrite I_step by exact Hcur.
Qed.

(** Members: a bitfield without a name is passed over. *)
Lemma members_end_fill (one : bool) (i : nat) : fills_members one i [] [].
Proof.
  exists 1%nat. intros n f id pre cur es nested b Hn Hf Hs Hi Hc Ho Hp. exists cur.
  rewrite err_false, app_nil_r. split; [|done]. cbn [length drop].
  destruct f as [|f]; [lia|]. destruct es as [|e es]; [done|]. cbn [map sue2_loop sue_target desigs].
  rewrite I_ret_step. cbn [tm_index tm_iter].
  by rewrite Hs, app_nil_r, lookup_ge_None_2 by lia.
Qed.

Lemma member_step (n f i : nat) (id : sue_id) (pre ms : list sue_member) (d : member) (cur : list (option dinit))
    (e : E) (es : list E) (nested : bool) (b : istate) :
  s_members (sues id) = pre ++ struct_member d :: ms -> length pre = i ->
  sue2_loop n (braces_at n) (S f) id false nested i cur (scalars (e :: es)) b
  = (if DECL_IS_ANON_BITFIELD d then sue2_loop n (braces_at n) f id false nested (S i) cur (scalars (e :: es))
     else
       r ← sue_member_init (braces_at n) d i nested (mk_target_member i (scalars (e :: es)) false None) cur;
       if bool_decide (s_primitive (sues id) = type_union) then mret r
       else sue2_loop n (braces_at n) f id false nested (S i) r.1 r.2) b.
Proof.
  intros Hs Hi. cbn [map sue2_loop sue_target desigs]. rewrite I_ret_step. cbn [tm_index tm_iter].
  rewrite Hs, lookup_app_r, Hi, Nat.sub_diag by lia. cbn [lookup list_lookup]. by destruct (DECL_IS_ANON_BITFIELD d).
Qed.

(** A member's initialiser, appended to those before. *)
Lemma member_fill (n i : nat) (d : member) (ls : list (list nat * type)) (cur : list (option dinit)) (e : E)
    (es : list E) (nested : bool) (b : istate) (v : dinit) :
  (length cur <= i)%nat -> type_is_incomplete_array (m_ref d) = false ->
  (field_width d <> None -> scalar_type (m_ref d)) ->
  up_r (braces_at n) None (scalars (e :: es)) (m_ref d) true b
  = Ok (err b (misfit ls (e :: es)), (v, scalars (drop (length ls) (e :: es)))) ->
  (scalar_type (m_ref d) -> exists e, v = d_scalar e) ->
  sue_member_init (braces_at n) d i nested (mk_target_member i (scalars (e :: es)) false None) cur b
  = Ok (err b (misfit ls (e :: es)), (padinsert None cur i (Some v), scalars (drop (length ls) (e :: es)))).
Proof.
  intros Hi Hinc Hw Hup Hv. unfold sue_member_init, member_replacing, member_at. cbn [tm_into tm_braced tm_iter].
  rewrite lookup_ge_None_2 by done. rewrite I_lift, Hinc, I_report. cbn [andb]. rewrite err_false.
  erewrite I_step by exact Hup. cbn [fst snd]. destruct (field_width d) as [w|]; [|done].
  destruct Hv as [x ->]; [by apply Hw|]. done.
Qed.

Lemma leaves_sized (t : type) (ls : list (list nat * type)) : leaves t ls -> type_is_incomplete_array t = false.
Proof.
  intros [? (Hk & _)|? ? ? ? ? ? Hk|? ? ? Hk]; unfold type_is_incomplete_array; [by destruct (type_skip_all _)| |
    by destruct (type_skip_all _)]. rewrite Hk. by rewrite bool_decide_false.
Qed.

Lemma members_skip_fill (one : bool) (i : nat) (d : member) (ms : list sue_member) (ls : list (list nat * type)) :
  DECL_IS_ANON_BITFIELD d = true -> fills_members one (S i) ms ls ->
  fills_members one i (struct_member d :: ms) ls.
Proof.
  intros Hd (N & HN). exists (S N). intros n f id pre cur es nested b Hn Hf Hs Hi Hc Ho Hp.
  destruct f as [|f]; [lia|]. destruct es as [|e es].
  { exists cur. by rewrite misfit_nil, give_nil, drop_nil, err_false, app_nil_r. }
  rewrite (member_step _ _ _ _ pre ms d) by done. rewrite Hd.
  apply (HN n f id (pre ++ [struct_member d])); try lia; try done; [by rewrite <- app_assoc|].
  rewrite length_app. simpl. lia.
Qed.

Lemma members_fill (one : bool) (i : nat) (d : member) (ms : list sue_member) (ls ls' : list (list nat * type)) :
  DECL_IS_ANON_BITFIELD d = false -> (field_width d <> None -> scalar_type (m_ref d)) ->
  leaves (m_ref d) ls -> fills (m_ref d) ls -> (if one then ls' = [] else fills_members one (S i) ms ls') ->
  fills_members one i (struct_member d :: ms) (prefix i ls ++ ls').
Proof.
  intros Hd Hw Hl (N & HN) Hms.
  assert (exists M, if one then ls' = [] else (N <= M)%nat /\ forall n f id pre cur es nested b,
    (M <= n)%nat -> (M <= f)%nat -> s_members (sues id) = pre ++ ms -> length pre = S i -> (length cur <= S i)%nat ->
    bool_decide (s_primitive (sues id) = type_union) = false -> Forall plain_value es ->
    exists cur',
      sue2_loop n (braces_at n) f id false nested (S i) cur (scalars es) b
      = Ok (err b (misfit ls' es), (cur', scalars (drop (length ls') es)))
      /\ placed_from 0 cur' = placed_from 0 cur ++ give ls' es) as [M HM].
  { destruct one; [by exists O|]. destruct Hms as [M HM]. exists (N + M)%nat. split; [lia|]. intros. eapply HM; eauto; lia. }
  exists (S (N + M)). intros n f id pre cur es nested b Hn Hf Hs Hi Hc Ho Hp.
  destruct f as [|f]; [lia|]. destruct es as [|e es].
  { exists cur. by rewrite misfit_nil, give_nil, drop_nil, err_false, app_nil_r. }
  destruct (HN n (e :: es) true b) as (v & Hv & Hpl & Hsc); [lia|done|done|].
  rewrite (member_step _ _ _ _ pre ms d) by done. rewrite Hd.
  erewrite I_step by (apply member_fill with (ls := ls); [lia|by eapply leaves_sized|done|exact Hv|done]).
  cbn [fst snd]. rewrite Ho, misfit_app, misfit_prefix, give_app, give_prefix, length_prefix, length_app, length_prefix.
  destruct one.
  - subst ls'. exists (padinsert None cur i (Some v)). rewrite orb_false_r, app_nil_r, Nat.add_0_r. split; [done|].
    by rewrite placed_padinsert, Hpl by lia.
  - destruct HM as [HNM HM].
    destruct (HM n f id (pre ++ [struct_member d]) (padinsert None cur i (Some v)) (drop (length ls) (e :: es)) nested
                (err b (misfit ls (e :: es)))) as (cur' & Hcur & Hpl'); try done; try lia.
    + by rewrite <- app_assoc.
    + rewrite length_app. simpl. lia.
    + by rewrite length_padinsert by lia.
    + by apply Forall_drop.
    + exists cur'. rewrite err_err, <- drop_drop. split; [exact Hcur|].
      by rewrite Hpl', placed_padinsert, Hpl, <- app_assoc by lia.
Qed.

Lemma sue_by (t : type) (id : sue_id) :
  kind (type_skip_all t) <> kind_array -> type_is_complete sues t = Ok true -> type_is_s_or_u sues t = Some id ->
  aggregate_by t (fun k => decl_init_brace_up_sue2 k (braces_at k) id false).
Proof.
  intros Hk Hc Hs k it nested b _. cbn [braces_at up_r]. unfold brace_up_r_body.
  rewrite bool_decide_false by done. rewrite Hc, I_lift. cbn [negb]. by rewrite Hs.
Qed.

Lemma sue_fills (id : sue_id) (ls : list (list nat * type)) :
  sue_is_complete (sues id) = true ->
  fills_members (bool_decide (s_primitive (sues id) = type_union)) 0 (s_members (sues id)) ls ->
  fills_by (fun k => decl_init_brace_up_sue2 k (braces_at k) id false) ls.
Proof.
  intros Hsc (N & HN). exists N. intros n es allow nested b Hn Hne Hp. destruct es as [|e es]; [done|].
  destruct (HN n n id [] [] (e :: es) nested b) as (cur' & Hcur & Hpl); [lia|lia|done|done|simpl; lia|done|done|].
  exists cur'. split; [|by rewrite Hpl]. unfold decl_init_brace_up_sue2. rewrite Hsc.
  inversion_clear Hp as [|? ? (_ & Hv & _) _]. cbn [map negb]. rewrite Hv.
  by rewrite (bool_decide_false (None = Some id)), andb_false_r.
Qed.

Lemma leaves_fill :
  (forall t ls, leaves t ls -> fills t ls)
  /\ (forall one i ms ls, member_leaves one i ms ls -> fills_members one i ms ls).
Proof.
  apply leaves_both.
  - apply scalar_fills.
  - intros t next n st vla ls Hk Hv Hc Hn _ Hf. eapply aggregate_fills; [|by eapply array_by|by apply array_fills; [lia|]].
    intros [Hs _]. by rewrite Hk in Hs.
  - intros t id ls Hk Hc Hs Hsc _ Hf. eapply aggregate_fills; [|by eapply sue_by|by apply sue_fills].
    intros (_ & _ & Hns). congruence.
  - apply members_end_fill.
  - intros. by apply members_skip_fill.
  - intros. by apply members_fill.
  - intros i d ms l Hd Hw Hl Hf. rewrite <- (app_nil_r (prefix i l)). by apply members_fill.
Qed.

Lemma leaves_aggregate (t : type) (ls : list (list nat * type)) :
  leaves t ls -> ~ scalar_type t -> exists f, aggregate_by t f /\ fills_by f ls.
Proof.
  intros [? Hsc|? next n st vla ls' Hk Hv Hc Hn Hl|? id ? Hk Hc Hid Hsc Hl] Hns; [done| |].
  - eexists. split; [by eapply array_by|]. apply array_fills; [lia|]. by apply leaves_fill.
  - eexists. split; [by eapply sue_by|]. apply sue_fills; [done|]. by apply leaves_fill.
Qed.

(** C4: when no expression is a string literal, void, or of struct or union type
    ([plain_value]; one of these may fill an array or a struct by itself), an
    initialiser without inner braces and designators gives its expressions to
    the scalars of the object in order, however the object's arrays, structs and
    unions are nested: in braces for a complete aggregate, its arrays of constant length, it
    comes out, with enough fuel, as a tree with the [k]th expression, cast to its type, at the
    place of the [k]th scalar, passing over unnamed bitfields and all members of
    a union but the first; scalars without an expression have no place in it and
    expressions without a scalar are dropped. An error is reported just when
    one does not fit its place. *)
Theorem positional_init (t : type) (ls : list (list nat * type)) (es : list E) (b : istate) :
  leaves t ls -> ~ scalar_type t -> Forall plain_value es ->
  exists N, forall n, (N <= n)%nat -> exists d,
    decl_init_brace_up_start n (init_brace [] (scalars es)) t b = Ok (err b (misfit ls es), (d, t))
    /\ placed d = give ls es.
Proof.
  intros Hl Hns Hp. destruct (leaves_aggregate t ls Hl Hns) as (f & Hby & N & HN).
  assert (Hc : is_char_init t [init_brace [] (scalars es)] = None).
  { destruct Hp as [|e es (Hs & _) Hp]; [done|]. destruct es; [|done]. cbn [map is_char_init]. by rewrite Hs. }
  exists (S N). intros n Hn. destruct n as [|n]; [lia|].
  unfold decl_init_brace_up_start. rewrite I_lift. unfold decl_init_brace_up_r.
  destruct es as [|e es].
  - exists (d_brace [None]). rewrite misfit_nil, give_nil, err_false. split; [|done].
    erewrite I_step by (rewrite Hby by done; reflexivity). cbn [fst snd]. by rewrite (leaves_sized t ls).
  - destruct (HN n (e :: es) false false b) as (l & Hf & Hpl); [lia|done|done|].
    exists (d_brace l). split; [|by rewrite placed_brace].
    assert (Hr : up_r (braces_at (S n)) None [init_brace [] (scalars (e :: es))] t false b
                 = Ok (err b (misfit ls (e :: es)), (d_brace l, []))).
    { rewrite Hby by done. cbn [map decl_init_brace_up_aggregate current_inits]. rewrite I_lift.
      erewrite I_step by exact Hf. reflexivity. }
    erewrite I_step by exact Hr. cbn [fst snd]. by rewrite (leaves_sized t ls).
Qed.

(** ** The shape of the result

    Designators, ranges and braces anywhere: what comes out has a scalar for
    each scalar and a brace for each aggregate, with no more entries than it has
    room for (and one that is missing in an empty brace), each in shape for its
    element or member. *)

Definition source (d : dinit) : dinit := match d with d_copy _ r => r | _ => d end.

Inductive shaped : dinit -> type -> Prop :=
  | shaped_scalar t e : scalar_type t -> shaped (d_scalar e) t
  | shaped_array t next size st vla inits :
      type_skip_all t = type_array next size st vla ->
      (forall limit, array_limit t = Ok limit -> 0 <= limit -> Z.of_nat (length inits) <= Z.max 1 limit) ->
      (forall i d, inits !! i = Some (Some d) -> shaped (source d) next) ->
      shaped (d_brace inits) t
  | shaped_sue t id inits :
      kind (type_skip_all t) <> kind_array -> type_is_s_or_u sues t = Some id ->
      (length inits <= Nat.max 1 (length (s_members (sues id))))%nat ->
      (forall i d, inits !! i = Some (Some d) -> exists m,
         s_members (sues id) !! i = Some (struct_member m) /\ DECL_IS_ANON_BITFIELD m = false /\ shaped d (m_ref m)) ->
      shaped (d_brace inits) t.

(** Types whose scalars are complete; the members of the definitions have such
    types, a bitfield a scalar's. *)
Inductive good : type -> Prop :=
  | good_scalar t : scalar_type t -> good t
  | good_array t next size st vla : type_skip_all t = type_array next size st vla -> good next -> good t
  | good_sue t id :
      kind (type_skip_all t) <> kind_array -> type_is_s_or_u sues t = Some id ->
      type_get_primitive t = type_struct \/ type_get_primitive t = type_union -> good t.

(** No expression is of a struct's or union's type. *)
Inductive uncopied : init -> Prop :=
  | uncopied_scalar ds e : type_is_s_or_u sues (e_type e) = None -> uncopied (init_scalar ds e)
  | uncopied_brace ds inits : Forall uncopied inits -> uncopied (init_brace ds inits).

Definition members_shaped (id : sue_id) (inits : list (option dinit)) : Prop :=
  (length inits <= Nat.max 1 (length (s_members (sues id))))%nat
  /\ forall i d, inits !! i = Some (Some d) -> exists m,
       s_members (sues id) !! i = Some (struct_member m) /\ DECL_IS_ANON_BITFIELD m = false /\ shaped d (m_ref m).

Definition elements_shaped (next : type) (limit : Z) (inits : list (option dinit)) : Prop :=
  (0 <= limit -> Z.of_nat (length inits) <= Z.max 1 limit)
  /\ forall i d, inits !! i = Some (Some d) -> shaped (source d) next.

Lemma I_inv {A B} (m : I A) (k : A -> I B) (b b' : istate) (y : B) :
  (m ≫= k) b = Ok (b', y) -> exists b1 a, m b = Ok (b1, a) /\ k a b1 = Ok (b', y).
Proof. unfold mbind, I_bind. intros H'. destruct (m b) as [[b1 a]| | | |] eqn:E'; try done. by exists b1, a. Qed.

Lemma lift_inv {A} (r : res A) (b b' : istate) (a : A) : lift r b = Ok (b', a) -> r = Ok a /\ b' = b.
Proof. unfold lift. destruct r; simpl; naive_solver. Qed.

Lemma padinsert_lookup {A} (z : A) (l : list A) (i j : nat) (x y : A) :
  padinsert z l i x !! j = Some y -> (j = i /\ y = x) \/ l !! j = Some y \/ y = z.
Proof.
  unfold padinsert. destruct (Nat.ltb_spec i (length l)) as [Hi|Hi].
  - destruct (decide (j = i)) as [->|Hj]; [rewrite list_lookup_insert_eq by done|rewrite list_lookup_insert_ne by done]; naive_solver.
  - rewrite !lookup_app. destruct (l !! j) eqn:El; [naive_solver|].
    destruct (decide (j - length l < i - length l)%nat) as [Hlt|Hge].
    + rewrite lookup_replicate_2 by done. naive_solver.
    + rewrite (proj1 (lookup_replicate_None _ _ _)) by lia. rewrite length_replicate.
      destruct (j - length l - (i - length l))%nat as [|n] eqn:En; simpl; [|done].
      intros [= <-]. left. split; [|done]. apply lookup_ge_None in El. lia.
Qed.

Lemma padinsert_length {A} (z : A) (l : list A) (i : nat) (x : A) :
  length (padinsert z l i x) = Nat.max (length l) (S i).
Proof.
  unfold padinsert. destruct (Nat.ltb_spec i (length l)); [rewrite length_insert; lia|].
  rewrite !length_app, length_replicate. simpl. lia.
Qed.

Lemma source_shaped (d : dinit) (t : type) : shaped d t -> source d = d.
Proof. by intros []. Qed.

Section dinit_ind.
Context (P : dinit -> Prop) (Hs : forall e, P (d_scalar e)) (Hc : forall p r, P r -> P (d_copy p r)).
Context (Hb : forall l, Forall (fun o => match o with Some d => P d | None => True end) l -> P (d_brace l)).
Fixpoint dinit_ind' (d : dinit) : P d :=
  match d with
  | d_scalar e => Hs e
  | d_copy p r => Hc p r (dinit_ind' r)
  | d_brace l =>
      Hb l ((fix go (l : list (option dinit)) : Forall (fun o => match o with Some d => P d | None => True end) l :=
               match l with
               | [] => @List.Forall_nil _ _
               | Some d :: l => @List.Forall_cons _ _ (Some d) l (dinit_ind' d) (go l)
               | None :: l => @List.Forall_cons _ _ None l Logic.I (go l)
               end) l)
  end.
End dinit_ind.

Fixpoint copy_list (inits : list (option dinit)) : res (list (option dinit)) :=
  match inits with
  | [] => Ok []
  | None :: inits => l ← copy_list inits; Ok (None :: l)
  | Some d :: inits => c ← decl_init_copy_const d; l ← copy_list inits; Ok (Some c :: l)
  end.

(** A copy has the same initialisers. *)
Lemma copy_const_same (d : dinit) : forall d', decl_init_copy_const d = Ok d' -> d' = d.
Proof.
  induction d as [e|p r _|l IH] using dinit_ind'; [simpl; congruence..|]. intros d' Hd. destruct l as [|o l]; [done|].
  change (decl_init_copy_const (d_brace (o :: l))) with (x ← copy_list (o :: l); Ok (d_brace x)) in Hd.
  apply bind_Ok in Hd as (l' & Hl & [= <-]). f_equal. revert l' Hl.
  induction IH as [|[d|] l1 Ho _ IHl]; intros l'; cbn [copy_list]; [congruence| |].
  - rewrite bind_Ok. intros (c & Ec & Hk). apply bind_Ok in Hk as (l0 & Hl & [= <-]).
    by rewrite (Ho c Ec), (IHl l0 Hl).
  - rewrite bind_Ok. intros (l0 & Hl & [= <-]). by rewrite (IHl l0 Hl).
Qed.

Context (table_good : forall id m, struct_member m ∈ s_members (sues id) -> good (m_ref m)).

Definition brace_of (Q : list (option dinit) -> Prop) (d : dinit) : Prop := exists l, d = d_brace l /\ Q l.

(** A function that builds initialisers from those given it keeps [Q]. *)
Definition keeps (Q : list (option dinit) -> Prop) (f : brace_up_f) : Prop :=
  forall cur it allow nested b b' l rest,
    Q cur -> Forall uncopied it -> f cur it allow nested b = Ok (b', (l, rest)) -> Q l /\ Forall uncopied rest.

Lemma aggregate_keeps (Q : list (option dinit) -> Prop) (f : brace_up_f) (current : option dinit) (it rest : iter)
    (nested : bool) (b b' : istate) (d : dinit) :
  keeps Q f -> Q [] -> Q [None] -> (forall c, current = Some c -> brace_of Q c) -> Forall uncopied it ->
  decl_init_brace_up_aggregate f current it nested b = Ok (b', (d, rest)) ->
  brace_of Q d /\ Forall uncopied rest.
Proof.
  intros Hf H0 H1 Hcur Hit Hd.
  assert (Hc : forall c l, (c = None \/ c = current) -> current_inits c = Ok l -> Q l).
  { intros c l [-> | ->]; [by intros [= <-]|]. destruct current as [c|]; [|by intros [= <-]].
    destruct (Hcur c eq_refl) as (l' & -> & Hl). by intros [= <-]. }
  destruct Hit as [|i it Hi Hit]; [done|]. cbn [decl_init_brace_up_aggregate] in Hd.
  assert (Hone : forall c sub allow nest tl, (c = None \/ c = current) -> Forall uncopied sub ->
    ((cur ← lift (current_inits c); r ← f cur sub allow nest; mret (d_brace r.1, tl r)) : I (dinit * iter)) b
    = Ok (b', (d, rest)) -> (forall r, Forall uncopied r.2 -> Forall uncopied (tl r)) ->
    brace_of Q d /\ Forall uncopied rest).
  { intros c sub allow nest tl Hcc Hsub Hr Htl. apply I_inv in Hr as (b1 & cur & Hcu & Hr).
    apply lift_inv in Hcu as [Hcu ->]. apply I_inv in Hr as (b2 & [l r] & Hfl & [= <- <- <-]).
    destruct (Hf cur sub allow nest b b2 l r) as [Hl Hr']; [by eapply Hc|done|done|]. split; [by exists l|]. by apply Htl. }
  destruct i as [ds e|ds inits].
  - destruct (find_desig it) as [k|].
    + assert (Hs : ((cur ← lift (current_inits current);
        r ← f cur (take (S k) (init_scalar ds e :: it)) true true;
        mret (d_brace r.1, r.2 ++ drop (S k) (init_scalar ds e :: it))) : I (dinit * iter)) b = Ok (b', (d, rest)))
        by exact Hd.
      apply (Hone _ _ _ _ (fun r => r.2 ++ drop (S k) (init_scalar ds e :: it))) in Hs; [done|by right| |].
      * apply Forall_take. by apply Forall_cons_2.
      * intros r Hr. apply Forall_app_2; [done|]. by apply Forall_drop, Forall_cons_2.
    + apply (Hone _ _ _ _ (fun r => r.2)) in Hd; [done|by right|by apply Forall_cons_2|done].
  - destruct inits as [|i inits].
    + injection Hd as <- <- <-. split; [by eexists|done].
    + assert (Hin : Forall uncopied (i :: inits)) by (by inversion Hi).
      destruct ds as [|de ds].
      * apply (Hone _ _ _ _ (fun _ => it)) in Hd; [done|by left|done|done].
      * apply (Hone _ _ _ _ (fun _ => it)) in Hd; [done|by right| |done]. apply Forall_cons_2; [done|by apply Forall_nil_2].
Qed.

(** *** Arrays *)

Lemma elements_padinsert (next : type) (limit : Z) (l : list (option dinit)) (i : nat) (d : dinit) :
  elements_shaped next limit l -> (0 <= limit -> Z.of_nat i < Z.max 1 limit) -> shaped (source d) next ->
  elements_shaped next limit (padinsert None l i (Some d)).
Proof.
  intros [Hl Hs] Hi Hd. split; [intros H0; rewrite padinsert_length; specialize (Hl H0); specialize (Hi H0); lia|].
  intros j d' Hj. apply padinsert_lookup in Hj as [[_ [= ->]]|[Hj|Hj]]; [done|by eapply Hs|done].
Qed.

Lemma slots_padinsert (cur : slots) (i : nat) (x : option dinit) (c : bool) :
  map fst (padinsert no_slot cur i (x, c)) = padinsert None (map fst cur) i x.
Proof.
  unfold padinsert. rewrite length_map. destruct (i <? length cur)%nat; [by rewrite list_fmap_insert|].
  by rewrite !map_app, fmap_replicate.
Qed.

Lemma range_fill_shaped (next : type) (limit : Z) (d : dinit) (n i p : nat) (cur : slots) :
  elements_shaped next limit (map fst cur) -> (0 <= limit -> Z.of_nat (i + n) < Z.max 1 limit) -> shaped d next ->
  elements_shaped next limit (map fst (range_fill n i p d cur)).
Proof.
  revert i cur. induction n as [|n IH]; intros i cur Hs Hi Hd; cbn [range_fill];
    (assert (Hp : elements_shaped next limit (map fst (padinsert no_slot cur i (Some (d_copy p d), false))))
      by (rewrite slots_padinsert; apply elements_padinsert; [done|lia|done])); [done|].
  apply IH; [done|lia|done].
Qed.

Lemma replacing_shaped (next : type) (limit : Z) (i : nat) (cur cur' : slots) (replacing : option dinit) :
  elements_shaped next limit (map fst cur) -> array_replacing next i cur = Ok (cur', replacing) ->
  elements_shaped next limit (map fst cur') /\ (forall d, replacing = Some d -> shaped d next).
Proof.
  intros Hs. unfold array_replacing. destruct (cur !! i) as [[[d|] c]|] eqn:Ec; [|by intros [= <- <-]..].
  assert (Hd : shaped (source d) next) by (eapply (proj2 Hs i d); by rewrite list_lookup_fmap, Ec).
  assert (Hi : (i < length cur)%nat) by (by eapply lookup_lt_Some).
  destruct (type_is_scalar sues next); [by intros [= <- <-]|].
  destruct (decl_init_is_const d next) as [[]| | | |]; try done. cbn [mbind res_bind].
  destruct d as [e|l|p r]; [intros [= <- <-]..|].
  - split; [done|]. by intros d [= <-].
  - split; [done|]. by intros d [= <-].
  - rewrite bind_Ok. intros (r' & Hr & [= <- <-]). apply copy_const_same in Hr as ->. split; [|by intros d [= <-]].
    assert (He : map fst (<[i:=(Some r, false)]> cur) = padinsert None (map fst cur) i (Some r)).
    { unfold padinsert. rewrite length_map. destruct (Nat.ltb_spec i (length cur)); [|lia]. by rewrite list_fmap_insert. }
    simpl in Hd. destruct Hs as [Hl Hs]. rewrite He. split.
    + intros H0. rewrite padinsert_length, length_map. specialize (Hl H0). rewrite length_map in Hl. lia.
    + intros j d' Hj. apply padinsert_lookup in Hj as [[_ [= ->]]|[Hj|Hj]]; [|by eapply Hs|done].
      by rewrite (source_shaped _ _ Hd).
Qed.

(** What the functions called again keep. *)
Definition up_keeps (self : braces) : Prop :=
  forall cur it t nested b b' d rest,
    (forall c, cur = Some c -> shaped c t) -> good t -> Forall uncopied it ->
    up_r self cur it t nested b = Ok (b', (d, rest)) -> shaped d t /\ Forall uncopied rest.

Definition anon_keeps (self : braces) : Prop :=
  forall id cur it b b' d rest,
    (forall c, cur = Some c -> brace_of (members_shaped id) c) -> Forall uncopied it ->
    up_anon self id cur it b = Ok (b', (d, rest)) -> brace_of (members_shaped id) d /\ Forall uncopied rest.

Lemma uncopied_desig (i : init) (ds : list desig) : uncopied i -> uncopied (set_desig i ds).
Proof. intros []; by constructor. Qed.

Lemma desig_range_inside (limit : Z) (lo : E) (hi : option E) (i j : nat) :
  desig_range limit lo hi = Ok (i, j) -> 0 <= limit -> Z.of_nat i < Z.max 1 limit /\ Z.of_nat j < Z.max 1 limit.
Proof.
  unfold desig_range. rewrite bind_Ok. intros (a & _ & Hk). apply bind_Ok in Hk as (c & _ & Hk).
  destruct a as [a|], c as [c|]; try done. destruct (_ || _); [done|].
  destruct ((-1 <? limit) && ((limit <=? a) || (limit <=? c))) eqn:Eb; [done|]. injection Hk as <- <-. lia.
Qed.

Section self.
Context (self : braces) (Hself : up_keeps self) (Hanon : anon_keeps self).

Lemma array_element_keeps (next : type) (limit : Z) (i j : nat) (cur cur' : slots) (it rest : iter) (b b' : istate) :
  good next -> (0 <= limit -> Z.of_nat i < Z.max 1 limit /\ Z.of_nat j < Z.max 1 limit) -> Forall uncopied it ->
  elements_shaped next limit (map fst cur) -> array_element self next i j cur it b = Ok (b', (cur', rest)) ->
  elements_shaped next limit (map fst cur') /\ Forall uncopied rest.
Proof using Hself decl_spel.
  intros Hg Hb Hit Hs Ha. apply I_inv in Ha as (b1 & [cur1 replacing] & Hr & Ha). apply lift_inv in Hr as [Hr ->].
  destruct (replacing_shaped _ _ _ _ _ _ Hs Hr) as [Hs1 Hrep].
  apply I_inv in Ha as (b2 & [] & Hu & Ha). apply lift_inv in Hu as [_ ->].
  apply I_inv in Ha as (b3 & [d rest0] & Hup & Ha). destruct (Hself _ _ _ _ _ _ _ _ Hrep Hg Hit Hup) as [Hd Hrest].
  cbn [fst snd] in Ha.
  assert (Hp : elements_shaped next limit (map fst (padinsert no_slot cur1 i (Some d, false)))).
  { rewrite slots_padinsert. apply elements_padinsert; [done| |by rewrite (source_shaped _ _ Hd)].
    intros H0. by apply Hb. }
  destruct (Nat.ltb_spec i j) as [Hij|Hij].
  - apply I_inv in Ha as (b4 & p & _ & Ha). apply I_inv in Ha as (b5 & [] & _ & Ha). destruct replacing; [done|]. injection Ha as <- <- <-. split; [|done].
    apply range_fill_shaped; [done| |done]. intros H0. destruct (Hb H0). lia.
  - by injection Ha as <- <- <-.
Qed.

Lemma array2_loop_keeps (next : type) (limit : Z) (f : nat) :
  good next -> forall i cur it b b' cur' rest,
  Forall uncopied it -> elements_shaped next limit (map fst cur) ->
  array2_loop self f next limit i cur it b = Ok (b', (cur', rest)) ->
  elements_shaped next limit (map fst cur') /\ Forall uncopied rest.
Proof using Hself decl_spel.
  intros Hg. induction f as [|f IH]; intros i cur it b b' cur' rest Hit Hs Ha;
    (destruct Hit as [|this tl Hthis Htl]; [by injection Ha as <- <- <-|]); [done|].
  cbn [array2_loop] in Ha. apply I_inv in Ha as (b1 & at_ & Hat & Ha). apply lift_inv in Hat as [Hat ->].
  destruct at_ as [[[i1 j1] this']|].
  - apply I_inv in Ha as (b2 & [cur1 it1] & He & Ha).
    assert (Hb : uncopied this' /\ (0 <= limit -> Z.of_nat i1 < Z.max 1 limit /\ Z.of_nat j1 < Z.max 1 limit)).
    { destruct (desigs this) as [|[lo hi|m] ds]; [|apply bind_Ok in Hat as ([i2 j2] & Hr & Hat)|done].
      - destruct ((-1 <? limit) && (limit <=? Z.of_nat i)) eqn:Eb; simplify_eq. split; [done|]. lia.
      - simplify_eq. split; [by apply uncopied_desig|]. by eapply desig_range_inside. }
    destruct Hb as [Ht Hb].
    destruct (array_element_keeps _ _ _ _ _ _ _ _ _ _ Hg Hb (Forall_cons_2 _ _ _ Ht Htl) Hs He) as [Hs1 Hit1].
    exact (IH _ _ _ _ _ _ _ Hit1 Hs1 Ha).
  - injection Ha as <- <- <-. split; [done|by apply Forall_cons_2].
Qed.

Lemma array2_keeps (n : nat) (next : type) (limit : Z) :
  good next -> keeps (elements_shaped next limit) (decl_init_brace_up_array2 n self next limit).
Proof using Hself decl_spel.
  intros Hg cur it allow nested b b' l rest Hcur Hit Ha.
  apply I_inv in Ha as (b1 & [cur' it'] & Ha & [= <- <- <-]).
  apply (array2_loop_keeps next limit n Hg) in Ha; [done|done|].
  unfold slots_of. rewrite map_map. by rewrite map_id.
Qed.

End self.

(** *** Structs and unions *)

Lemma s_or_u_no_array (t : type) (id : sue_id) :
  type_is_s_or_u sues t = Some id -> kind (type_skip_all t) <> kind_array.
Proof. unfold type_is_s_or_u, type_is_s_or_u_or_e, type_get_type. by destruct (type_skip_all t). Qed.

Lemma shaped_as_brace (d : dinit) (t : type) (id : sue_id) :
  type_is_s_or_u sues t = Some id -> shaped d t <-> brace_of (members_shaped id) d.
Proof.
  intros Hid. split.
  - intros Hd. inversion Hd as [? e (_ & _ & Hn)|? next size st vla inits Hk _ _|? id' inits _ Hid' Hl Hs]; subst;
      [congruence| |].
    + exfalso. apply (s_or_u_no_array _ _ Hid). by rewrite Hk.
    + simplify_eq. by exists inits.
  - intros (inits & -> & Hl & Hs). eapply shaped_sue; [by eapply s_or_u_no_array|done..].
Qed.

Lemma members_padinsert (id : sue_id) (l : list (option dinit)) (i : nat) (m : member) (v : dinit) :
  members_shaped id l -> s_members (sues id) !! i = Some (struct_member m) -> DECL_IS_ANON_BITFIELD m = false ->
  shaped v (m_ref m) -> members_shaped id (padinsert None l i (Some v)).
Proof.
  intros [Hl Hs] Hm Ha Hv. split.
  - rewrite padinsert_length. apply lookup_lt_Some in Hm. lia.
  - intros j d Hj. apply padinsert_lookup in Hj as [[-> [= ->]]|[Hj|Hj]]; [by exists m|by apply Hs|done].
Qed.

Lemma member_at_shaped (id : sue_id) (cur : list (option dinit)) (i : nat) (c : dinit) (m : member) :
  members_shaped id cur -> member_at cur i = Some c -> s_members (sues id) !! i = Some (struct_member m) ->
  shaped c (m_ref m).
Proof.
  intros [_ Hs]. unfold member_at. destruct (cur !! i) as [[d|]|] eqn:Ec; [|done..]. intros [= ->] Hm.
  destruct (Hs _ _ Ec) as (m' & Hm' & _ & Hd). by simplify_eq.
Qed.

Lemma member_replacing_at (cur : list (option dinit)) (i : nat) (into : bool) (c : dinit) :
  member_replacing cur i into = Ok (Some c) -> member_at cur i = Some c.
Proof.
  unfold member_replacing. destruct (member_at cur i) as [[e|[|o [|o' l]]|p r]|]; try congruence.
  destruct into; [|congruence]. destruct o as [[e|l|p r]|]; try congruence. destruct (type_is_s_or_u _ _); congruence.
Qed.

Lemma desig_member_anon (n : nat) (id sub : sue_id) (m : cstr) (j : nat) :
  desig_member n id m = Ok (Some (j, Some sub)) ->
  exists d, s_members (sues id) !! j = Some (struct_member d) /\ type_is_s_or_u sues (m_ref d) = Some sub.
Proof.
  unfold desig_member. rewrite bind_Ok. intros ([[[f off] pin]|] & _ & Hk); [|done].
  destruct (list_find _ _) as [[j' mem]|] eqn:Ef; [|done]. injection Hk as -> ->.
  apply list_find_Some in Ef as (Hj & Hm & _). destruct mem as [d|]; [|done]. exists d. split; [done|].
  cbn [is_member] in Hm. apply andb_true_iff in Hm as [_ Hm]. by apply bool_decide_eq_true in Hm.
Qed.

Section self_sue.
Context (self : braces) (Hself : up_keeps self) (Hanon : anon_keeps self).

Definition target_ok (id : sue_id) (t : target_member) : Prop :=
  Forall uncopied (tm_iter t)
  /\ forall v, tm_braced t = Some v -> exists d sub,
       s_members (sues id) !! tm_index t = Some (struct_member d)
       /\ type_is_s_or_u sues (m_ref d) = Some sub /\ brace_of (members_shaped sub) v.

Lemma sue_target_ok (n : nat) (id : sue_id) (is_anon : bool) (i : nat) (cur : list (option dinit)) (this : init)
    (tl : iter) (b b' : istate) (t : target_member) :
  members_shaped id cur -> uncopied this -> Forall uncopied tl ->
  sue_target n self id is_anon i cur this tl b = Ok (b', Some t) -> target_ok id t.
Proof using Hanon.
  intros Hs Hthis Htl Ht. unfold sue_target in Ht. destruct (desigs this) as [|[lo hi|m] ds]; [|done|].
  - injection Ht as <- <-. split; [by apply Forall_cons_2|done].
  - apply I_inv in Ht as (b1 & j & Hj & Ht). apply lift_inv in Hj as [Hj ->].
    destruct j as [[j [sub|]]|]; [| |by destruct is_anon].
    + destruct (desig_member_anon _ _ _ _ _ Hj) as (d & Hd & Hsub).
      apply I_inv in Ht as (b2 & [v it] & Ha & Ht). apply I_inv in Ht as (b3 & [] & _ & [= <- <-]).
      apply Hanon in Ha as [Hv Hit]; [|intros c Hc|by apply Forall_cons_2].
      * split; [done|]. intros v' [= <-]. by exists d, sub.
      * apply (shaped_as_brace c (m_ref d) sub Hsub). by eapply member_at_shaped.
    + injection Ht as <- <-. split; [|done]. apply Forall_cons_2; [by apply uncopied_desig|done].
Qed.

Lemma sue_member_init_keeps (id : sue_id) (d : member) (nested : bool) (t : target_member)
    (cur cur' : list (option dinit)) (rest : iter) (b b' : istate) :
  s_members (sues id) !! tm_index t = Some (struct_member d) -> DECL_IS_ANON_BITFIELD d = false ->
  members_shaped id cur -> target_ok id t ->
  sue_member_init self d (tm_index t) nested t cur b = Ok (b', (cur', rest)) ->
  members_shaped id cur' /\ Forall uncopied rest.
Proof using Hself decl_spel table_good.
  intros Hd Ha Hs [Hit Hb] Hm. apply I_inv in Hm as (b1 & replacing & Hr & Hm). apply lift_inv in Hr as [Hr ->].
  apply I_inv in Hm as (b2 & [] & _ & Hm). apply I_inv in Hm as (b3 & [v it] & Hv & Hm).
  assert (Hvv : shaped v (m_ref d) /\ Forall uncopied it).
  { destruct (tm_braced t) as [v'|].
    - injection Hv as <- <- <-. destruct (Hb v' eq_refl) as (d' & sub & Hd' & Hsub & Hv). simplify_eq.
      split; [|done]. by apply (shaped_as_brace _ _ sub).
    - eapply Hself; [|by eapply table_good, list_elem_of_lookup_2|exact Hit|exact Hv].
      intros c ->. apply member_replacing_at in Hr. by eapply member_at_shaped. }
  destruct Hvv as [Hsh Hit']. cbn [fst snd] in Hm.
  assert (Hp : members_shaped id (padinsert None cur (tm_index t) (Some v))) by (by eapply members_padinsert).
  destruct (field_width d), v; try done; by injection Hm as <- <- <-.
Qed.

Lemma sue2_loop_keeps (n : nat) (id : sue_id) (is_anon nested : bool) (f : nat) : forall i cur it b b' cur' rest,
  Forall uncopied it -> members_shaped id cur ->
  sue2_loop n self f id is_anon nested i cur it b = Ok (b', (cur', rest)) ->
  members_shaped id cur' /\ Forall uncopied rest.
Proof using Hself Hanon decl_spel table_good.
  induction f as [|f IH]; intros i cur it b b' cur' rest Hit Hs Ha;
    (destruct Hit as [|this tl Hthis Htl]; [by injection Ha as <- <- <-|]); [done|].
  cbn [sue2_loop] in Ha. apply I_inv in Ha as (b1 & [t|] & Ht & Ha).
  2: { injection Ha as <- <- <-. split; [done|by apply Forall_cons_2]. }
  pose proof (sue_target_ok _ _ _ _ _ _ _ _ _ _ Hs Hthis Htl Ht) as Hto. cbv zeta in Ha.
  destruct (s_members (sues id) !! tm_index t) as [[d|]|] eqn:Ed; [|done|].
  2: { injection Ha as <- <- <-. split; [done|apply Hto]. }
  destruct (DECL_IS_ANON_BITFIELD d) eqn:Eb; [exact (IH _ _ _ _ _ _ _ (proj1 Hto) Hs Ha)|].
  apply I_inv in Ha as (b2 & [cur1 it1] & Hm & Ha).
  destruct (sue_member_init_keeps _ _ _ _ _ _ _ _ _ Ed Eb Hs Hto Hm) as [Hs1 Hit1].
  destruct (bool_decide _); [by injection Ha as <- <- <-|]. exact (IH _ _ _ _ _ _ _ Hit1 Hs1 Ha).
Qed.

Lemma sue2_keeps (n : nat) (id : sue_id) (is_anon : bool) :
  keeps (members_shaped id) (decl_init_brace_up_sue2 n self id is_anon).
Proof using Hself Hanon decl_spel table_good.
  intros cur it allow nested b b' l rest Hcur Hit Ha. unfold decl_init_brace_up_sue2 in Ha.
  destruct (negb _); [done|]. destruct Hit as [|i it Hi Hit]; [by eapply sue2_loop_keeps in Ha|].
  assert (Hall : Forall uncopied (i :: it)) by (by apply Forall_cons_2).
  destruct i as [ds e|ds inits]; [|by eapply sue2_loop_keeps in Ha].
  assert (He : type_is_s_or_u sues (e_type e) = None) by (by inversion Hi). rewrite He in Ha.
  rewrite (bool_decide_false (None = Some id)), andb_false_r in Ha by done. by eapply sue2_loop_keeps in Ha.
Qed.

End self_sue.

(** *** Any type *)

Lemma char_inits_scalars (s : cstring) (n : nat) : forall i l,
  char_inits s i n = Ok l -> length l = n /\ Forall (fun o => exists e, o = Some (d_scalar e)) l.
Proof.
  induction n as [|n IH]; intros i l; cbn [char_inits]; [by intros [= <-]|].
  rewrite bind_Ok. intros (c & _ & Hk). apply bind_Ok in Hk as (l' & Hl & [= <-]).
  destruct (IH _ _ Hl) as [Hlen Hall]. split; [simpl; by rewrite Hlen|]. apply Forall_cons_2; [by eexists|done].
Qed.

Lemma char_array_element (t next : type) (size : array_size) (st : bool) (vla : vla_kind) :
  type_skip_all t = type_array next size st vla -> type_str_type t <> type_str_no -> good next -> scalar_type next.
Proof.
  intros Hk Hs Hg. unfold type_str_type, type_is_array in Hs. rewrite Hk in Hs. unfold type_get_primitive in Hs.
  inversion Hg as [|? ? ? ? ? Hk'|? id Hk' Hid Hp]; subst; [done| |].
  - unfold type_get_type in Hs. by rewrite Hk' in Hs.
  - exfalso. apply Hs. unfold type_get_primitive in Hp. destruct (type_get_type next) as [bt|]; [|done].
    by destruct Hp as [-> | ->].
Qed.

Lemma good_element (t next : type) (size : array_size) (st : bool) (vla : vla_kind) :
  type_skip_all t = type_array next size st vla -> good t -> good next.
Proof.
  intros Hk Hg. inversion Hg as [? (Hn & _)|? ? ? ? ? Hk'|? id Hn]; subst; [by rewrite Hk in Hn|congruence|by rewrite Hk in Hn].
Qed.

Lemma shaped_as_elements (d : dinit) (t next : type) (size : array_size) (st : bool) (vla : vla_kind) (limit : Z) :
  type_skip_all t = type_array next size st vla -> array_limit t = Ok limit ->
  shaped d t <-> brace_of (elements_shaped next limit) d.
Proof.
  intros Hk Hlim. split.
  - intros Hd. inversion Hd as [? e (Hn & _)|? ? ? ? ? inits Hk' Hl Hs|? id inits Hn]; subst;
      [by rewrite Hk in Hn| |by rewrite Hk in Hn].
    rewrite Hk in Hk'. simplify_eq. exists inits. split; [done|]. split; [by apply Hl|done].
  - intros (inits & -> & Hl & Hs). eapply shaped_array; [exact Hk| |exact Hs]. intros limit'. rewrite Hlim. intros [= <-].
    apply Hl.
Qed.

Lemma char_init_shaped (t next : type) (size : array_size) (st : bool) (vla : vla_kind) (limit : Z) (it : iter)
    (s : cstring) (l : list (option dinit)) :
  type_skip_all t = type_array next size st vla -> array_limit t = Ok limit -> good next -> limit < 2 ^ 31 ->
  is_char_init t it = Some s ->
  char_inits s O (if (limit =? -1) || (Z.of_nat (count s) <=? u32 limit) then count s else Z.to_nat (u32 limit)) = Ok l ->
  shaped (d_brace l) t.
Proof.
  intros Hk Hlim Hg Hb Hs Hl.
  assert (Ht : type_str_type t <> type_str_no).
  { destruct it as [|[ds e|ds [|[ds' e|] [|]]] it]; try done; cbn [is_char_init] in Hs;
      (destruct (e_str e); [|done]; destruct (bool_decide_reflect (type_str_type (e_type e) = type_str_no)) as [|Hn]; [done|];
       destruct (bool_decide_reflect (type_str_type (e_type e) = type_str_type t)) as [Heq|]; [|done]; by rewrite <- Heq). }
  apply char_inits_scalars in Hl as [Hlen Hall]. eapply shaped_as_elements; [done..|]. exists l. split; [done|]. split.
  - intros H0. assert (Hu : u32 limit = limit) by (apply wrapu_id; unfold is_u; lia). rewrite Hu in Hlen.
    destruct (Z.eqb_spec limit (-1)); [lia|]. destruct (Z.leb_spec (Z.of_nat (count s)) limit); simpl in Hlen; lia.
  - intros i d Hi. rewrite Forall_lookup in Hall. destruct (Hall _ _ Hi) as (e & [= ->]).
    apply shaped_scalar. by eapply char_array_element.
Qed.

Lemma dummy_shaped (cur : option dinit) (t : type) :
  (forall c, cur = Some c -> shaped c t) -> shaped (d_brace []) t -> shaped (decl_init_dummy cur) t.
Proof. intros Hc H0. destruct cur as [c|]; [by apply Hc|done]. Qed.

Lemma array_limit_bound (t : type) (limit : Z) : array_limit t = Ok limit -> limit < 2 ^ 31.
Proof.
  unfold array_limit. destruct (type_is_incomplete_array t); [intros [= <-]; lia|].
  rewrite bind_Ok. intros ([] & _ & Hk); [injection Hk as <-; lia|].
  destruct (type_is t kind_array) as [[]|]; try done. apply bind_Ok in Hk as (n & _ & [= <-]).
  pose proof (wraps_range 32 n ltac:(lia)) as Hr. unfold is_s in Hr. lia.
Qed.

Lemma array_keeps (n : nat) (self : braces) (cur : option dinit) (it rest : iter) (t next : type)
    (size : array_size) (st : bool) (vla : vla_kind) (nested : bool) (b b' : istate) (d : dinit) :
  up_keeps self -> (forall c, cur = Some c -> shaped c t) -> good t -> Forall uncopied it ->
  type_skip_all t = type_array next size st vla ->
  decl_init_brace_up_array_chk_char n self cur it t nested b = Ok (b', (d, rest)) ->
  shaped d t /\ Forall uncopied rest.
Proof.
  intros Hself Hcur Hg Hit Hk Ha. pose proof (good_element _ _ _ _ _ Hk Hg) as Hgn.
  apply I_inv in Ha as (b1 & limit & Hlim & Ha). apply lift_inv in Hlim as [Hlim ->].
  pose proof (shaped_as_elements (d_brace []) _ _ _ _ _ _ Hk Hlim) as Hnil.
  assert (H0 : elements_shaped next limit []) by (split; [simpl; lia|done]).
  assert (H1 : elements_shaped next limit [None]).
  { split; [simpl; lia|]. by intros [|i] c Hc. }
  apply I_inv in Ha as (b2 & next' & Hn & Ha). apply lift_inv in Hn as [Hn ->].
  unfold type_next in Hn. rewrite Hk in Hn. injection Hn as <-.
  apply I_inv in Ha as (b3 & complete & _ & Ha). destruct complete; cbn [negb] in Ha.
  - destruct (is_char_init t it) as [s|] eqn:Es.
    + apply I_inv in Ha as (b4 & l & Hl & [= <- <- <-]). apply lift_inv in Hl as [Hl _].
      split; [|by destruct Hit]. eapply char_init_shaped; try done. by apply array_limit_bound with (t := t).
    + apply (aggregate_keeps (elements_shaped next limit)) in Ha as [Hd Hr]; [|by apply array2_keeps|done..| |done].
      * split; [|done]. by eapply shaped_as_elements.
      * intros c Hc. by eapply shaped_as_elements; [..|apply Hcur].
  - apply I_inv in Ha as (b4 & [] & _ & [= <- <- <-]). split; [|done]. apply dummy_shaped; [done|].
    apply Hnil. by exists [].
Qed.

Lemma body_keeps (n : nat) (self : braces) (cur : option dinit) (it rest : iter) (t : type) (nested : bool) (b b' : istate)
    (d : dinit) :
  up_keeps self -> anon_keeps self -> (forall c, cur = Some c -> shaped c t) -> good t -> Forall uncopied it ->
  brace_up_r_body n self cur it t nested b = Ok (b', (d, rest)) -> shaped d t /\ Forall uncopied rest.
Proof using table_good.
  intros Hself Hanon Hcur Hg Hit Ha. unfold brace_up_r_body in Ha.
  case_bool_decide as Hk.
  { destruct (type_skip_all t) eqn:Et; try done. by eapply array_keeps. }
  apply I_inv in Ha as (b1 & complete & Hc & Ha). apply lift_inv in Hc as [Hc ->].
  destruct (type_is_s_or_u sues t) as [id|] eqn:Hid.
  - assert (H0 : members_shaped id []) by (split; [simpl; lia|done]).
    destruct complete; cbn [negb] in Ha.
    + apply (aggregate_keeps (members_shaped id)) in Ha as [Hd Hr]; [|by apply sue2_keeps|done| | |done].
      * split; [|done]. by apply (shaped_as_brace _ _ id).
      * split; [simpl; lia|]. by intros [|i] c Hcc.
      * intros c Hcc. by apply (shaped_as_brace c t id), Hcur.
    + apply I_inv in Ha as (b4 & [] & _ & [= <- <- <-]). split; [|done]. apply dummy_shaped; [done|].
      apply (shaped_as_brace _ _ id); [done|]. by exists [].
  - assert (Hs : scalar_type t).
    { inversion Hg as [|? ? ? ? ? Hk'|? id' _ Hid']; subst; [done|by rewrite Hk' in Hk|congruence]. }
    destruct complete; cbn [negb] in Ha; [|by destruct Hs as (_ & Hs & _); congruence].
    unfold decl_init_brace_up_scalar in Ha. destruct Hit as [|i it Hi Hit].
    { injection Ha as <- <- <-. split; [by constructor|done]. }
    destruct (desigs i); [|done]. destruct i as [ds e|ds inits].
    + destruct (type_is_primitive _ _); [|destruct (e_assign t (e_rval e))];
        apply I_inv in Ha as (b4 & [] & _ & [= <- <- <-]); (split; [by constructor|done]).
    + destruct cur; [done|]. apply I_inv in Ha as (b4 & [d' rest'] & Hr & [= <- <- <-]).
      apply Hself in Hr as [Hd _]; [done..|by inversion Hi].
Qed.

Lemma braces_keep (n : nat) : up_keeps (braces_at n) /\ anon_keeps (braces_at n).
Proof using table_good.
  induction n as [|n [IHu IHa]]; (split; [intros cur it t nested b b' d rest Hcur Hg Hit Ha
                                        |intros id cur it b b' d rest Hcur Hit Ha]); try done.
  - exact (body_keeps n (braces_at n) cur it rest t nested b b' d IHu IHa Hcur Hg Hit Ha).
  - cbn [braces_at up_anon] in Ha. apply (aggregate_keeps (members_shaped id)) in Ha; [done|by apply sue2_keeps| | |done|done].
    + split; [simpl; lia|done].
    + split; [simpl; lia|]. by intros [|i] c Hc.
Qed.

(** C5: in an initialiser none of whose expressions is of struct or union type
    ([uncopied]; where an object is copied over an earlier initialiser, parts of
    that one stay behind, Example copy_leaves_members), with designators, ranges,
    string literals and braces anywhere: when the compiler accepts it for a type
    that is [good], over definitions whose members are, what it makes of it is in
    shape for the type: scalars for scalars, a brace for each array with at most
    as many entries as the array has elements, a brace for each struct and union
    with entries for no more members than there are (one entry may be there for
    an array or a struct of none) and none for an unnamed bitfield, each entry in
    shape for its own type. *)
Theorem init_shaped (n : nat) (i : init) (t t' : type) (d : dinit) (b b' : istate) :
  good t -> uncopied i -> decl_init_brace_up_start n i t b = Ok (b', (d, t')) -> had_error b' = false -> shaped d t.
Proof using table_good.
  intros Hg Hi Hd He. unfold decl_init_brace_up_start in Hd.
  apply I_inv in Hd as (b1 & refused & _ & Hd). destruct refused as [e|].
  { apply I_inv in Hd as (b2 & [] & [= <-] & [= <- _ _]). simpl in He. by rewrite orb_true_r in He. }
  apply I_inv in Hd as (b2 & [d' rest] & Hr & Hd).
  destruct (braces_keep n) as [Hu _]. apply Hu in Hr as [Hs _]; [|done..|by apply Forall_cons_2].
  destruct (type_is_incomplete_array t); [|by injection Hd as _ <- _].
  cbn [fst] in Hd. destruct d' as [|inits|]; try done.
  apply I_inv in Hd as (b3 & t1 & _ & Hd). by injection Hd as _ <- _.
Qed.

End bracing.

(** ** Initialisers at work *)

(** Expressions of the examples: numbers, string literals, objects and compound
    literals. *)
Inductive ex :=
  | ex_num (t : type) (v : Z)
  | ex_str (s : cstring)
  | ex_obj (t : type) (comp_lit : bool).

Definition num_k (v : Z) : folded Z := folded_num (mk_consty (CONST_NUM v 0) 0 None None).

#[local] Instance ex_init : InitExpr :=
  mk_init_expr ex Z
    (fun e => match e with
              | ex_num t _ | ex_obj t _ => t
              | ex_str s => type_array (ty type_nchar) (size_const (Z.of_nat (count s))) true VLA_NO
              end)
    (fun e => match e with ex_num _ v => num_k v | _ => folded_num CONST_FOLD_LEAF end)
    (fun e => match e with ex_str s => Some s | _ => None end)
    (fun e => match e with ex_obj _ true => Some (decl_init_brace []) | _ => None end)
    (fun e => e)
    (ex_num (ty type_int))
    (fun t e => (match e with ex_num _ v => ex_num t v | _ => e end, false)).

Definition n_ (v : Z) : init := init_scalar [] (ex_num (ty type_int) v).
Definition dn_ (ds : list desig) (v : Z) : init := init_scalar ds (ex_num (ty type_int) v).
Definition dot (m : string) : desig := desig_struct (str m).
Definition at_ (i : Z) : desig := desig_ar (ex_num (ty type_int) i) None.
Definition upto (i j : Z) : desig := desig_ar (ex_num (ty type_int) i) (Some (ex_num (ty type_int) j)).
Definition iarray (n : Z) : type := type_array (ty type_int) (size_const n) false VLA_NO.
Definition sued (p : type_primitive) (id : sue_id) : type := type_btype (mk_btype p (Some id)).

(** [struct { int x, y; }], [union { int a; char b; }], [struct { struct 0 p; int z[2]; union 1 u; }],
    [struct {}], [struct { struct { int a, b; }; }]. *)
Definition ex_table : sue_id -> sue := fun id =>
  let mk p ms := mk_sue p [] true SUE_MEMBS_COMPLETE SUE_FOLDED_FULLY false false 4 8 ms in
  let m x t := struct_member (mk_member (Some (str x)) t None 0 [] 0 0 false None) in
  match id with
  | 0%nat => mk type_struct [m "x" (ty type_int); m "y" (ty type_int)]
  | 1%nat => mk type_union [m "a" (ty type_int); m "b" (ty type_nchar)]
  | 2%nat => mk type_struct [m "p" (sued type_struct 0); m "z" (iarray 2); m "u" (sued type_union 1)]
  | 3%nat => mk type_struct []
  | _ => mk type_struct [struct_member (mk_member None (sued type_struct 0) None 0 [] 0 0 false None)]
  end%string.

Definition start : istate := mk_istate false 0.

(** A shorter view of the result. *)
Inductive view := N (v : Z) | B (l : list view) | O | C (v : view) | X.
Fixpoint view_of (d : dinit) : view :=
  match d with
  | d_scalar (ex_num _ v) => N v
  | d_scalar _ => X
  | d_brace l => B (map (fun o => match o with Some d => view_of d | None => O end) l)
  | d_copy _ d => C (view_of d)
  end.

Definition shape_in (i : init) (t : type) : res (bool * view) :=
  r ← decl_init_brace_up_start linux64 ex_table (fun _ => []) 20 i t start;
  Ok (had_error r.1, view_of r.2.1).

(** *** Witnesses *)

Lemma num_scalar (p : type_primitive) :
  p ∈ [type_nchar; type_int] -> scalar_type ex_table (ty p).
Proof. rewrite !elem_of_cons, elem_of_nil. by intros [-> | [-> | []]]. Qed.

Lemma iarray_leaves (n : Z) :
  0 <= n < 2 ^ 31 -> leaves ex_table (iarray n) (elements_from 0 (Z.to_nat n) [([], ty type_int)]).
Proof. intros Hn. eapply leaves_array; [done..|apply leaves_scalar, num_scalar]. set_solver. Qed.

Lemma struct_leaves : leaves ex_table (sued type_struct 2)
  [([0; 0], ty type_int); ([0; 1], ty type_int); ([1; 0], ty type_int); ([1; 1], ty type_int); ([2; 0], ty type_int)]%nat.
Proof.
  assert (Hint : leaves ex_table (ty type_int) [([], ty type_int)]) by (apply leaves_scalar, num_scalar; set_solver).
  eapply (leaves_sue _ _ 2%nat); [done..|].
  apply (members_more _ 0 _ _ [([0], ty type_int); ([1], ty type_int)]%nat); [done|done| |].
  { eapply (leaves_sue _ _ 0%nat); [done..|]. apply (members_more _ 0 _ _ [([], ty type_int)]); [done|done|done|].
    apply (members_more _ 1 _ _ [([], ty type_int)] []); [done|done|done|constructor]. }
  apply (members_more _ 1 _ _ [([0], ty type_int); ([1], ty type_int)]%nat); [done|done|by apply (iarray_leaves 2)|].
  apply (members_more _ 2 _ _ [([0], ty type_int)]%nat []); [done|done| |constructor].
  eapply (leaves_sue _ _ 1%nat); [done..|]. by apply (members_first _ 0 _ _ [([], ty type_int)]).
Qed.

(** [{ 1, 2, 3, 4, 5, 6 }] for [struct { struct 0 p; int z[2]; union 1 u; }] *)
Lemma positional_init_witness :
  exists N, forall n, (N <= n)%nat -> exists d,
    decl_init_brace_up_start linux64 ex_table (fun _ => []) n
      (init_brace [] (map n_ [1; 2; 3; 4; 5; 6])) (sued type_struct 2) start
    = Ok (start, (d, sued type_struct 2))
    /\ placed d = [([0; 0], ex_num (ty type_int) 1); ([0; 1], ex_num (ty type_int) 2); ([1; 0], ex_num (ty type_int) 3);
                   ([1; 1], ex_num (ty type_int) 4); ([2; 0], ex_num (ty type_int) 5)]%nat.
Proof.
  refine (positional_init linux64 ex_table (fun _ => []) (sued type_struct 2) _
            (map (ex_num (ty type_int)) [1; 2; 3; 4; 5; 6]) start struct_leaves _ _).
  - by intros (_ & _ & Hs).
  - repeat apply Forall_cons_2; [..|apply Forall_nil_2]; by split_and!.
Defined.

Lemma ex_table_good (id : sue_id) (m : member) : struct_member m ∈ s_members (ex_table id) -> good ex_table (m_ref m).
Proof.
  assert (Hn : forall p, p ∈ [type_nchar; type_int] -> good ex_table (ty p)) by (intros p Hp; by apply good_scalar, num_scalar).
  destruct id as [|[|[|[|id]]]]; simpl; rewrite ?elem_of_cons, ?elem_of_nil; intros Hm;
    repeat (destruct Hm as [[= ->]|Hm]; [simpl|]); try done.
  all: try (apply Hn; set_solver).
  - eapply (good_sue _ _ 0%nat); [done..|by left].
  - eapply good_array; [done|apply Hn; set_solver].
  - eapply (good_sue _ _ 1%nat); [done..|by right].
  - eapply (good_sue _ _ 0%nat); [done..|by left].
Qed.

(** [{ .z[1] = 4, { .b = 5 }, .p = { 1 }, .p.y = 2 }] *)
Definition designated : init :=
  init_brace [] [dn_ [dot "z"; at_ 1] 4; init_brace [] [dn_ [dot "b"] 5]; init_brace [dot "p"] [n_ 1];
                 dn_ [dot "p"; dot "y"] 2].

Lemma init_shaped_witness :
  exists d, decl_init_brace_up_start linux64 ex_table (fun _ => []) 20 designated (sued type_struct 2) start
            = Ok (start, (d, sued type_struct 2))
            /\ view_of d = B [B [N 1; N 2]; B [O; N 4]; B [O; N 5]]
            /\ shaped ex_table d (sued type_struct 2).
Proof.
  eexists. split; [vm_compute; reflexivity|]. split; [reflexivity|].
  eapply (init_shaped linux64 ex_table (fun _ => []) ex_table_good 20 designated (sued type_struct 2)
            (sued type_struct 2) _ start start).
  - eapply (good_sue _ _ 2%nat); [done..|by left].
  - repeat (first [apply uncopied_brace|apply Forall_cons_2|apply Forall_nil_2|apply uncopied_scalar; reflexivity]).
  - vm_compute. reflexivity.
  - reflexivity.
Defined.

(** *** What goes wrong *)

(** [struct { int x, y; } s = { .x = 1, .x = { 2 } };]: the first initialiser is
    freed and used again. *)
Example scalar_freed_twice :
  shape_in (init_brace [] [dn_ [dot "x"] 1; init_brace [dot "x"] [n_ 2]]) (sued type_struct 0) = Ub "freed initialiser".
Proof. reflexivity. Qed.

(** [{ .p = {}, .p.x = 1 }]: the missing initialiser of the empty brace is read. *)
Example empty_brace_read :
  shape_in (init_brace [] [init_brace [dot "p"] []; dn_ [dot "p"; dot "x"] 1]) (sued type_struct 2)
  = Ub "null initialiser".
Proof. reflexivity. Qed.

(** [int a[2][4] = { { [0 ... 1] = 1 }, [0][2 ... 3] = 1 };]: the copies of the
    first brace are taken for places in the ranges of the second. *)
Example range_of_another_brace :
  shape_in (init_brace [] [init_brace [] [dn_ [upto 0 1] 1]; dn_ [at_ 0; upto 2 3] 1])
    (type_array (iarray 4) (size_const 2) false VLA_NO) = Ub "copy of another brace's range".
Proof. reflexivity. Qed.

(** [struct s a[2] = { { 1, 2 }, [0] = s1 };]: the second member's initialiser
    stays behind the object that is copied. *)
Example copy_leaves_members :
  shape_in (init_brace [] [init_brace [] [n_ 1; n_ 2]; init_scalar [at_ 0] (ex_obj (sued type_struct 0) false)])
    (type_array (sued type_struct 0) (size_const 2) false VLA_NO) = Ok (false, B [B [X; N 2]]).
Proof. reflexivity. Qed.

(** [struct s a[2] = { (struct s){ 1 }, [0].x = 3 };] *)
Example complit_replaced :
  shape_in (init_brace [] [init_scalar [] (ex_obj (sued type_struct 0) true); dn_ [at_ 0; dot "x"] 3])
    (type_array (sued type_struct 0) (size_const 2) false VLA_NO) = Ub "null nonstd".
Proof. reflexivity. Qed.

(** [{ .u.a = 1, .u.b = 2 }]: both members of the union stay. *)
Example union_keeps_both :
  shape_in (init_brace [] [dn_ [dot "u"; dot "a"] 1; dn_ [dot "u"; dot "b"] 2]) (sued type_struct 2)
  = Ok (false, B [O; O; B [N 1; N 2]]).
Proof. reflexivity. Qed.

(** [{ .p = { 1, 2 }, .p.x = {} }]: an empty brace loses its designator, and
    [p.y] its initialiser. *)
Example empty_brace_desig :
  shape_in (init_brace [] [init_brace [dot "p"] [n_ 1; n_ 2]; init_brace [dot "p"; dot "x"] []]) (sued type_struct 2)
  = Ok (false, B [B [O]]).
Proof. reflexivity. Qed.

(** The members of an anonymous struct, one by one: the array of the first
    initialiser has moved. *)
Example anonymous_member_freed :
  shape_in (init_brace [] [dn_ [dot "x"] 1; dn_ [dot "y"] 2]) (sued type_struct 4) = Ub "freed initialisers".
Proof. reflexivity. Qed.

(** [struct { int x, y; } a[3] = { { 1, 2 }, [0 ... 1].y = 3 };] is refused. *)
Example range_into_object :
  shape_in (init_brace [] [init_brace [] [n_ 1; n_ 2]; dn_ [upto 0 1; dot "y"] 3])
    (type_array (sued type_struct 0) (size_const 3) false VLA_NO) = Die "can't replace with a range currently".
Proof. reflexivity. Qed.

(** [struct {} a[] = { 1 };]: an element without members uses no initialiser, so
    that the array never ends. *)
Lemma empty_elements_spin (n : nat) :
  decl_init_brace_up_start linux64 ex_table (fun _ => []) n (init_brace [] [n_ 1])
    (type_array (sued type_struct 3) size_none false VLA_NO) start = NoFuel.
Proof.
  assert (Hup : forall k b, up_r (braces_at linux64 ex_table (fun _ => []) k) None [n_ 1] (sued type_struct 3) true b = NoFuel
                        \/ up_r (braces_at linux64 ex_table (fun _ => []) k) None [n_ 1] (sued type_struct 3) true b
                           = Ok (b, (d_brace [], [n_ 1]))).
  { intros [|[|k]] b; [by left..|by right]. }
  assert (Hloop : forall k f cur b,
    array2_loop ex_table (braces_at linux64 ex_table (fun _ => []) k) f (sued type_struct 3) (-1) (length cur) cur [n_ 1] b
    = NoFuel).
  { intros k. induction f as [|f IH]; intros cur b; [done|]. unfold n_. rewrite array2_append by done. fold (n_ 1).
    unfold mbind at 1, I_bind at 1. destruct (Hup k b) as [Hn|Hn]; rewrite Hn; [done|]. cbn [fst snd mbind res_bind].
    specialize (IH (cur ++ [(Some (d_brace []), false)]) b). rewrite length_app in IH. cbn [length] in IH.
    rewrite Nat.add_1_r in IH. exact IH. }
  destruct n as [|n]; [done|].
  assert (Hr : forall b, up_r (braces_at linux64 ex_table (fun _ => []) (S n)) None [init_brace [] [n_ 1]]
                 (type_array (sued type_struct 3) size_none false VLA_NO) false b
               = (r ← decl_init_brace_up_array2 ex_table n (braces_at linux64 ex_table (fun _ => []) n) (sued type_struct 3) (-1)
                        [] [n_ 1] false false; mret (d_brace r.1, [])) b) by done.
  unfold decl_init_brace_up_start. rewrite I_lift. apply I_no_fuel. unfold decl_init_brace_up_r. rewrite Hr.
  apply I_no_fuel. unfold decl_init_brace_up_array2. apply I_no_fuel. exact (Hloop n n [] start).
Qed.
