(* ===== verification/Blk.v ===== *)
(** * Basic blocks and their control flow: cc1/out/blk.h, blk.c and ctrl.c

    A function under generation is an [out_ctx]: its basic blocks, the block
    instructions are being added to ([current_blk], NULL in unreachable code),
    and the blocks its labels stand for.  The operations of ctrl.c terminate
    the current block and select another one; their [assert]s are [Ice]
    outcomes here.  What ctrl.c takes from the rest of the code generator, the
    instructions that spill and move values, is the interface [Backend].
    [gstep] runs a graph of blocks on a machine. *)

From S2P Require Import Prelude.

(** A block is its index in the order of [out_blk_new]. *)
Abbreviation bid := nat.

(** What a block stands for besides its place in a construct: a label of the
    source, or a [case] or [default] statement ([cse->bits.case_blk]). *)
Inductive key : Set := Lbl (spel : string) | Cse (stmt : nat).

#[global] Instance key_eq_dec : EqDecision key.
Proof. solve_decision. Defined.
#[global] Instance key_countable : Countable key.
Proof.
  refine (inj_countable' (fun k => match k with Lbl s => inl s | Cse n => inr n end)
    (fun x => match x with inl s => Lbl s | inr n => Cse n end) _).
  by intros [].
Defined.

Section Blocks.
Context {insn jcc addr oval : Type}.

(** [enum { BLK_UNINIT, ... } type] with the union's member it selects. *)
Inductive blk_type : Type :=
  | BLK_UNINIT
  | BLK_TERMINAL
  | BLK_NEXT_BLOCK (next : bid)
  | BLK_NEXT_EXPR (exp : addr)
  | BLK_COND (cinsn : jcc) (if_0_blk if_1_blk : bid) (unlikely : bool).

Record out_blk : Type := mk_blk {
  insns : list insn; type : blk_type; phi_val : option oval }.

(** [merge_preds] is kept beside the blocks; [label_to_blk] also holds the
    [case_blk]s; [nvals] counts the values ([out_val]) made so far; [inline_rets]
    is [inline_.rets] of the [cc1_out_ctx] that goes with this one. *)
Record out_ctx : Type := mk_ctx {
  blocks : list out_blk;
  merge_preds : gmap bid (list bid);
  current_blk : option bid;
  last_used_blk : option bid;
  label_to_blk : gmap key bid;
  epilogue_blk : bid;
  mustgen : list bid;
  nvals : nat;
  inline_rets : list bid }.

(** ** Generators: functions on the context that can fail an assertion *)

Definition G (A : Type) : Type := out_ctx -> res (A * out_ctx).

#[global] Instance G_ret : MRet G := fun A a o => Ok (a, o).
#[global] Instance G_bind : MBind G := fun A B k m o =>
  match m o with
  | Ok (a, o') => k a o'
  | Die w => Die w
  | Ice w => Ice w
  | Ub w => Ub w
  | NoFuel => NoFuel
  end.

Definition ice {A} (w : string) : G A := fun _ => Ice w.
Definition ub {A} (w : string) : G A := fun _ => Ub w.
Definition get : G out_ctx := fun o => Ok (o, o).
Definition put (o : out_ctx) : G unit := fun _ => Ok (tt, o).
Definition assert (b : bool) (w : string) : G unit := if b then mret tt else ice w.

Definition set_blocks (l : list out_blk) (o : out_ctx) : out_ctx :=
  mk_ctx l (merge_preds o) (current_blk o) (last_used_blk o) (label_to_blk o)
    (epilogue_blk o) (mustgen o) (nvals o) (inline_rets o).
Definition set_current (b : option bid) (o : out_ctx) : out_ctx :=
  mk_ctx (blocks o) (merge_preds o) b (last_used_blk o) (label_to_blk o)
    (epilogue_blk o) (mustgen o) (nvals o) (inline_rets o).
Definition set_used (b : option bid) (o : out_ctx) : out_ctx :=
  mk_ctx (blocks o) (merge_preds o) (current_blk o) b (label_to_blk o)
    (epilogue_blk o) (mustgen o) (nvals o) (inline_rets o).
Definition set_preds (m : gmap bid (list bid)) (o : out_ctx) : out_ctx :=
  mk_ctx (blocks o) m (current_blk o) (last_used_blk o) (label_to_blk o)
    (epilogue_blk o) (mustgen o) (nvals o) (inline_rets o).
Definition set_labels (m : gmap key bid) (o : out_ctx) : out_ctx :=
  mk_ctx (blocks o) (merge_preds o) (current_blk o) (last_used_blk o) m
    (epilogue_blk o) (mustgen o) (nvals o) (inline_rets o).
Definition set_mustgen (l : list bid) (o : out_ctx) : out_ctx :=
  mk_ctx (blocks o) (merge_preds o) (current_blk o) (last_used_blk o) (label_to_blk o)
    (epilogue_blk o) l (nvals o) (inline_rets o).
Definition set_nvals (n : nat) (o : out_ctx) : out_ctx :=
  mk_ctx (blocks o) (merge_preds o) (current_blk o) (last_used_blk o) (label_to_blk o)
    (epilogue_blk o) (mustgen o) n (inline_rets o).
Definition set_rets (l : list bid) (o : out_ctx) : out_ctx :=
  mk_ctx (blocks o) (merge_preds o) (current_blk o) (last_used_blk o) (label_to_blk o)
    (epilogue_blk o) (mustgen o) (nvals o) l.

(** ** blk.c *)

Definition blk_new : out_blk := mk_blk [] BLK_UNINIT None.

Definition out_blk_new : G bid := fun o =>
  Ok (length (blocks o), set_blocks (blocks o ++ [blk_new]) o).

Definition blk_add_insns (code : list insn) (blk : out_blk) : out_blk :=
  mk_blk (insns blk ++ code) (type blk) (phi_val blk).

(** [blk_add_insn] for each instruction of [out_asm]; nothing in unreachable
    code. *)
Definition out_asm (code : list insn) : G unit := fun o =>
  match current_blk o with
  | None => Ok (tt, o)
  | Some b => Ok (tt, set_blocks (alter (blk_add_insns code) b (blocks o)) o)
  end.

Definition blk_is_empty (blk : out_blk) : bool :=
  match insns blk with [] => true | _ => false end.

Definition out_ctx_current_blk_is_empty (o : out_ctx) : bool :=
  match current_blk o with
  | None => true
  | Some b => match blocks o !! b with Some blk => blk_is_empty blk | None => true end
  end.

Definition is_uninit (t : blk_type) : bool :=
  match t with BLK_UNINIT => true | _ => false end.

Definition set_term (t : blk_type) (phi : option oval) (blk : out_blk) : out_blk :=
  mk_blk (insns blk) t phi.

(** Terminating the current block, whose type must still be unset. *)
Definition terminate (t : blk_type) (phi : option oval) : G unit := fun o =>
  match current_blk o with
  | None => Ok (tt, o)
  | Some b =>
      match blocks o !! b with
      | None => Ub "a block that was never made"
      | Some blk =>
          if is_uninit (type blk)
          then Ok (tt, set_current None (set_blocks (<[b := set_term t phi blk]> (blocks o)) o))
          else Ice "current->type == BLK_UNINIT"
      end
  end.

Definition blk_terminate_condjmp (condinsn : jcc) (condto uncondto : bid) (unlikely : bool) : G unit :=
  terminate (BLK_COND condinsn condto uncondto unlikely) None.

(** [impl_undefined] then [current_blk = NULL] ([out_ctrl_end_undefined]). *)
Definition out_ctrl_end_undefined (ud2 : insn) : G unit :=
  out_asm [ud2] ≫= fun _ => terminate BLK_TERMINAL None.

Definition out_blk_mustgen (b : bid) : G unit := fun o =>
  Ok (tt, set_mustgen (mustgen o ++ [b]) o).

(** [label_getblk] of label.c. *)
Definition label_getblk (k : key) : G bid := fun o =>
  match label_to_blk o !! k with
  | Some b => Ok (b, o)
  | None =>
      let b := length (blocks o) in
      Ok (b, set_labels (<[k := b]> (label_to_blk o)) (set_blocks (blocks o ++ [blk_new]) o))
  end.

(** ** ctrl.c *)

(** [out_current_blk]: every transfer has turned the flags still wanted into
    registers, so that [v_decay_flags] finds none here. *)
Definition out_current_blk (new_blk : bid) : G unit := fun o =>
  Ok (tt, set_current (Some new_blk) (set_used (Some new_blk) o)).

(** How [impl_branch] (x86_64.c) reaches the condition, by its [type]: a
    register is tested and jumps to the false block on zero; a flag jumps to
    the true block; a constant is no jump at all; what is in memory is loaded
    and normalised to a flag first. *)
Inductive branch_view : Type :=
  | V_REG (test : list insn) (jz : jcc)
  | V_FLAG (j : jcc)
  | V_CONST (flag : bool)
  | V_MEM (load : list insn) (j : jcc).

Inductive case_op : Set := op_eq | op_lt | op_gt.

(** What control flow takes from the value side of the code generator (out.c,
    virt.c and the x86 backend). *)
Class Backend : Type := mk_backend {
  spill : out_ctx -> option oval -> list insn;
    (** [v_decay_flags_except1] and [v_transfer_spill]: the code that puts
        values still wanted where a jump keeps them, one value excepted *)
  view : oval -> branch_view;
  likely : oval -> bool;
  phi_move : nat -> oval -> list insn;
    (** [v_to_reg_given] and the cast of [out_ctrl_merge_n] *)
  merge_val : nat -> oval;
  normalise : nat -> oval -> list insn * oval;
    (** [out_normalise] *)
  out_new_l : Z -> oval;
  case_cmp : nat -> case_op -> oval -> Z -> list insn * oval;
    (** [out_op] of a switch's value with a case's number *)
  force_read : oval -> list insn;
  to_retreg : option oval -> list insn;
  undefined : insn;
  jmp_addr : oval -> addr;
    (** what [impl_jmp_expr] jumps to *)
  call_sanitize_handler : list insn
    (** the call of [cc1_sanitize_handler_fn], if there is one *) }.

Context `{!Backend}.

Definition add_pred (to from : bid) (o : out_ctx) : out_ctx :=
  set_preds (<[to := default [] (merge_preds o !! to) ++ [from]]> (merge_preds o)) o.

(** The value of a call is [*mergee], the block left. *)
Definition out_ctrl_transfer (to : bid) (phi : option oval) : G (option bid) :=
  from ← (o ← get; mret (current_blk o));
  o ← get;
  _ ← out_asm (spill o phi);
  o ← get;
  match from, last_used_blk o with
  | _, None => ice "octx->last_used_blk"
  | None, Some last =>
      _ ← put (add_pred to last o);
      mret None
  | Some f, Some _ =>
      _ ← put (add_pred to f o);
      blk ← (match blocks o !! f with Some blk => mret blk | None => ub "a block that was never made" end);
      _ ← assert (match phi_val blk with None => true | Some _ => false end) "!from->phi_val";
      _ ← terminate (BLK_NEXT_BLOCK to) phi;
      mret (Some f)
  end.

Definition out_ctrl_transfer_make_current (to : bid) : G unit :=
  _ ← out_ctrl_transfer to None;
  out_current_blk to.

Definition impl_branch (cond : oval) (bt bf : bid) (unlikely : bool) : G unit :=
  match view cond with
  | V_REG test jz =>
      _ ← out_asm test;
      blk_terminate_condjmp jz bf bt unlikely
  | V_FLAG j => blk_terminate_condjmp j bt bf unlikely
  | V_CONST flag =>
      _ ← out_ctrl_transfer (if flag then bt else bf) None;
      mret tt
  | V_MEM load j =>
      _ ← out_asm load;
      blk_terminate_condjmp j bt bf unlikely
  end.

Definition out_ctrl_branch (cond : oval) (if_true if_false : bid) : G unit :=
  o ← get;
  _ ← out_asm (spill o (Some cond));
  _ ← impl_branch cond if_true if_false (likely cond);
  out_current_blk if_true.

Definition out_ctrl_end_ret (ret : option oval) : G unit :=
  _ ← (match ret with Some _ => out_asm (to_retreg ret) | None => mret tt end);
  o ← get;
  _ ← out_ctrl_transfer (epilogue_blk o) None;
  o ← get;
  put (set_current None o).

(** [out_ctrl_transfer_exp]; [impl_jmp_expr] puts the jump itself. *)
Definition out_ctrl_transfer_exp (v : oval) : G unit :=
  o ← get;
  _ ← out_asm (spill o (Some v));
  terminate (BLK_NEXT_EXPR (jmp_addr v)) None.

(** One round of the loop of [out_ctrl_merge_n] that puts a block's value in
    the common register. *)
Definition merge_into (k : nat) (b : bid) : G unit :=
  o ← get;
  match blocks o !! b with
  | Some blk =>
      match phi_val blk with
      | Some phi =>
          _ ← out_current_blk b;
          out_asm (phi_move k phi)
      | None => ice "phi"
      end
  | None => ub "a block that was never made"
  end.

Definition only_phi (b : bid) : G oval :=
  o ← get;
  match blocks o !! b with
  | Some blk => match phi_val blk with Some phi => mret phi | None => ub "phi_val is NULL" end
  | None => ub "a block that was never made"
  end.

Definition new_val : G nat := fun o => Ok (nvals o, set_nvals (S (nvals o)) o).

(** [out_ctrl_merge]; with no block to come from, [rets[0]] is NULL and its
    [phi_val] is read all the same. *)
Definition out_ctrl_merge (from_a from_b : option bid) : G oval :=
  match from_a, from_b with
  | Some a, Some b =>
      o ← get;
      match current_blk o with
      | None => ice "new_blk"
      | Some saved_current_blk =>
          k ← new_val;
          _ ← merge_into k a;
          _ ← merge_into k b;
          _ ← out_current_blk saved_current_blk;
          mret (merge_val k)
      end
  | Some a, None => only_phi a
  | None, Some b => only_phi b
  | None, None => ub "rets[0]->phi_val of NULL"
  end.

(** ** Running a graph of blocks *)

Class Machine (mst : Type) : Type := mk_machine {
  exec : insn -> mst -> mst;
  taken : jcc -> mst -> bool;
  target : addr -> mst -> option bid }.

Context {mst : Type} `{!Machine mst}.

Definition execs (code : list insn) (m : mst) : mst := fold_left (fun m i => exec i m) code m.

(** A place in the graph: before instruction [k] of block [b]. *)
Definition pc : Type := (bid * nat)%type.

Inductive gstep (g : list out_blk) : pc * mst -> pc * mst -> Prop :=
  | g_insn b k m blk i :
      g !! b = Some blk -> insns blk !! k = Some i -> gstep g ((b, k), m) ((b, S k), exec i m)
  | g_next b m blk n :
      g !! b = Some blk -> type blk = BLK_NEXT_BLOCK n ->
      gstep g ((b, length (insns blk)), m) ((n, 0%nat), m)
  | g_cond b m blk j t f u :
      g !! b = Some blk -> type blk = BLK_COND j t f u ->
      gstep g ((b, length (insns blk)), m) ((if taken j m then t else f, 0%nat), m)
  | g_expr b m blk a n :
      g !! b = Some blk -> type blk = BLK_NEXT_EXPR a -> target a m = Some n ->
      gstep g ((b, length (insns blk)), m) ((n, 0%nat), m).

End Blocks.

Arguments blk_type : clear implicits.
Arguments out_blk : clear implicits.
Arguments out_ctx : clear implicits.
Arguments G : clear implicits.
Arguments Backend : clear implicits.
Arguments Machine : clear implicits.
