(* ===== verification/Flow.v ===== *)
(** * Code generation for control flow: stmt_*.c, expr_if.c, expr_comma.c and
    the short circuits of expr_op.c

    The generator of every statement as basic blocks ([gen_stmt]), over any
    expressions that generate themselves ([GenExpr]), and the meaning of
    statements in C ([exec_stmt]).  Scopes are left the way the generator
    leaves them ([gen_scope_leave] at each jump) and, in the semantics, block
    by block on the way out.  FlowSem proves the two agree. *)

From S2P Require Import Prelude Blk.
Local Open Scope Z_scope.

(** ** The semantics' vocabulary *)

(** How a statement ends. *)
Inductive outcome : Type := Normal | Brk | Cont | Goto (l : string) | Ret (v : option Z).

(** Where a statement is entered: at its top, at a label inside it, or, for a
    loop, where it goes round. *)
Inductive entry : Type := Start | At (k : key) | Again.

(** What expressions are to statements: code, and a value or no return. *)
Class GenExpr (insn jcc addr oval sst E : Type) : Type := mk_gen_expr {
  gen_expr : E -> G insn jcc addr oval oval;
  is_ptr_or_block : E -> bool; (* [type_is_ptr_or_block] of its type *)
  eval : E -> sst -> option (sst * Z) }.
#[global] Hint Mode GenExpr - - - - - ! : typeclass_instances.

Section Flow.
Context {insn jcc addr oval sst E : Type} `{!Backend insn jcc addr oval}.
Context `{!GenExpr insn jcc addr oval sst E}.

Local Notation G := (G insn jcc addr oval).

(** ** Expressions that branch *)

(** [a && b] ([op_andsc]), [a || b], [a ? b : c], [a ?: c] and [a, b], over
    the other expressions. *)
Inductive cexpr : Type :=
  | Leaf (e : E)
  | Shortcircuit (andsc : bool) (lhs rhs : cexpr)
  | If (e : cexpr) (lhs : option cexpr) (rhs : cexpr)
  | Comma (lhs rhs : cexpr).

Definition out_normalise (v : oval) : G oval :=
  k ← new_val;
  let '(code, r) := normalise k v in
  _ ← out_asm code;
  mret r.

(** [op_shortcircuit] *)
Definition op_shortcircuit (andsc : bool) (gen_lhs gen_rhs : G oval) : G oval :=
  blk_rhs ← out_blk_new;
  blk_empty ← out_blk_new;
  landing ← out_blk_new;
  lhs ← gen_lhs;
  lhs ← out_normalise lhs;
  _ ← out_ctrl_branch lhs
        (if andsc then blk_rhs else blk_empty) (if andsc then blk_empty else blk_rhs);
  _ ← out_current_blk blk_rhs;
  rhs ← gen_rhs;
  rhs ← out_normalise rhs;
  from_rhs ← out_ctrl_transfer landing (Some rhs);
  _ ← out_current_blk blk_empty;
  from_empty ← out_ctrl_transfer landing (Some (out_new_l (if andsc then 0 else 1)));
  _ ← out_current_blk landing;
  out_ctrl_merge from_empty from_rhs.

Definition gen_expr_if (gen_cond : G oval) (gen_lhs : option (G oval)) (gen_rhs : G oval) : G oval :=
  landing ← out_blk_new;
  blk_lhs ← out_blk_new;
  blk_rhs ← out_blk_new;
  cond ← gen_cond;
  _ ← out_ctrl_branch cond blk_lhs blk_rhs;
  _ ← out_current_blk blk_lhs;
  lhs ← (match gen_lhs with Some g => g | None => mret cond end);
  from_lhs ← out_ctrl_transfer landing (Some lhs);
  _ ← out_current_blk blk_rhs;
  rhs ← gen_rhs;
  from_rhs ← out_ctrl_transfer landing (Some rhs);
  _ ← out_current_blk landing;
  out_ctrl_merge from_lhs from_rhs.

Definition gen_expr_comma (gen_lhs gen_rhs : G oval) : G oval :=
  _ ← gen_lhs;
  gen_rhs.

(** [gen_expr] of gen_asm.c: an expression [const_fold] can do is its number. *)
Fixpoint gen_cexpr (const_fold : cexpr -> option Z) (e : cexpr) : G oval :=
  match const_fold e with
  | Some n => mret (out_new_l n)
  | None =>
      match e with
      | Leaf e => gen_expr e
      | Shortcircuit andsc lhs rhs =>
          op_shortcircuit andsc (gen_cexpr const_fold lhs) (gen_cexpr const_fold rhs)
      | If e lhs rhs =>
          gen_expr_if (gen_cexpr const_fold e) (option_map (gen_cexpr const_fold) lhs)
            (gen_cexpr const_fold rhs)
      | Comma lhs rhs => gen_expr_comma (gen_cexpr const_fold lhs) (gen_cexpr const_fold rhs)
      end
  end.

(** Their meaning (C11 6.5.13-15, 6.5.17). *)
Fixpoint eval_cexpr (e : cexpr) (s : sst) : option (sst * Z) :=
  match e with
  | Leaf e => eval e s
  | Shortcircuit andsc lhs rhs =>
      '(s1, n) ← eval_cexpr lhs s;
      if Bool.eqb (n =? 0) andsc then Some (s1, if andsc then 0 else 1)
      else '(s2, m) ← eval_cexpr rhs s1; Some (s2, if m =? 0 then 0 else 1)
  | If e lhs rhs =>
      '(s1, n) ← eval_cexpr e s;
      if n =? 0 then eval_cexpr rhs s1
      else match lhs with Some l => eval_cexpr l s1 | None => Some (s1, n) end
  | Comma lhs rhs =>
      '(s1, _) ← eval_cexpr lhs s;
      eval_cexpr rhs s1
  end.

(** Whether the type of one is a pointer or a block: a null pointer constant
    takes the other arm's type. *)
Fixpoint cexpr_ptr_or_block (e : cexpr) : bool :=
  match e with
  | Leaf e => is_ptr_or_block e
  | Shortcircuit _ _ _ => false
  | If e lhs rhs => (match lhs with Some l => cexpr_ptr_or_block l | None => cexpr_ptr_or_block e end) || cexpr_ptr_or_block rhs
  | Comma _ rhs => cexpr_ptr_or_block rhs
  end.

(** ** Statements *)

(** What a declaration in a scope generates: the size of a variable length
    array, its initialiser, its [cleanup] call, the stack pointer a variable
    length array gives back.  Static and extern declarations generate none. *)
Record decl : Type := mk_decl {
  vla_init : option E; init : option E; cleanup : option E; vla_restore : option E }.

(** A [symtable], known by a number. *)
Record scope : Type := mk_scope { sid : nat; decls : list decl }.

(** A member of [sw->bits.switch_.cases]: the statement, its value, and the
    upper bound of a range. *)
Record case_ : Type := mk_case { c_stmt : nat; c_expr : Z; c_expr2 : option Z }.

(** [if], [while], [for] and [switch] have a scope of their own
    ([parse_test_init_expr], [flow->for_init_symtab]). *)
Inductive stmt : Type :=
  | s_noop
  | s_expr (e : E) (is_volatile : bool)
  | s_code (symtab : scope) (stmts : list stmt)
  | s_if (symtab : scope) (e : E) (lhs : stmt) (rhs : option stmt)
  | s_while (symtab : scope) (e : E) (lhs : stmt)
  | s_do (e : E) (lhs : stmt)
  | s_for (symtab : scope) (for_init for_while for_inc : option E) (lhs : stmt)
  | s_switch (symtab : scope) (e : E) (cases : list case_) (default_case : option nat) (lhs : stmt)
  | s_case (cse : nat) (lhs : stmt)
  | s_label (spel : string) (mustgen_spel : bool) (lhs : stmt)
  | s_goto (spel : string)
  | s_goto_exp (e : E)
  | s_break
  | s_continue
  | s_return (e : option E).

(** Induction on statements, the ones inside a compound statement included. *)
Lemma stmt_ind' (P : stmt -> Prop) :
  P s_noop -> (forall e b, P (s_expr e b)) ->
  (forall sc ss, Forall P ss -> P (s_code sc ss)) ->
  (forall sc e lhs rhs, P lhs -> (forall r, rhs = Some r -> P r) -> P (s_if sc e lhs rhs)) ->
  (forall sc e lhs, P lhs -> P (s_while sc e lhs)) ->
  (forall e lhs, P lhs -> P (s_do e lhs)) ->
  (forall sc i w inc lhs, P lhs -> P (s_for sc i w inc lhs)) ->
  (forall sc e cs d lhs, P lhs -> P (s_switch sc e cs d lhs)) ->
  (forall c lhs, P lhs -> P (s_case c lhs)) ->
  (forall l must lhs, P lhs -> P (s_label l must lhs)) ->
  (forall l, P (s_goto l)) -> (forall e, P (s_goto_exp e)) -> P s_break -> P s_continue -> (forall e, P (s_return e)) ->
  forall s, P s.
Proof.
  intros Hn He Hc Hi Hw Hd Hf Hs Hca Hl Hg Hge Hb Hco Hr. fix IH 1. intros s.
  destruct s as [|e b|sc ss|sc e lhs rhs|sc e lhs|e lhs|sc i w inc lhs|sc e cs d lhs|c lhs|l must lhs|l|e| | |e].
  - exact Hn.
  - apply He.
  - apply Hc. induction ss as [|s ss IHs]; constructor; [apply IH | exact IHs].
  - apply Hi; [apply IH|]. destruct rhs as [r|]; [|discriminate]. intros r' [= <-]. apply IH.
  - apply Hw, IH.
  - apply Hd, IH.
  - apply Hf, IH.
  - apply Hs, IH.
  - apply Hca, IH.
  - apply Hl, IH.
  - apply Hg.
  - apply Hge.
  - exact Hb.
  - exact Hco.
  - apply Hr.
Qed.

(** What a statement's fields say of its surroundings: the scopes it is in
    ([s->symtab] and its parents), where [break] and [continue] go (the block
    and the scopes of [s->parent]) and the scopes of each label; of the function,
    whether its returns are checked ([attr_returns_nonnull] with the sanitizer
    for it) and, while it is generated inline, the block its returns go to. *)
Record env : Type := mk_env {
  path : list scope;
  blk_break : option (bid * list nat);
  blk_continue : option (bid * list nat);
  label_scope : string -> list nat;
  returns_nonnull : bool;
  inline_phi : option bid }.

Definition sids (p : list scope) : list nat := map sid p.

Definition push (sc : scope) (v : env) : env :=
  mk_env (sc :: path v) (blk_break v) (blk_continue v) (label_scope v) (returns_nonnull v) (inline_phi v).
Definition targets (br cont : bid) (v : env) : env :=
  mk_env (path v) (Some (br, sids (path v))) (Some (cont, sids (path v))) (label_scope v) (returns_nonnull v) (inline_phi v).
Definition break_to (br : bid) (v : env) : env :=
  mk_env (path v) (Some (br, sids (path v))) (blk_continue v) (label_scope v) (returns_nonnull v) (inline_phi v).

Definition gen_opt (e : option E) : G unit :=
  match e with
  | Some e => _ ← gen_expr e; mret tt
  | None => mret tt
  end.

(** *** Scopes: stmt_code.c *)

Definition new_block_for_scope : G unit :=
  o ← get;
  if out_ctx_current_blk_is_empty o then mret tt
  else
    b ← out_blk_new;
    out_ctrl_transfer_make_current b.

Fixpoint gen_decls (ds : list decl) : G unit :=
  match ds with
  | [] => mret tt
  | d :: ds =>
      _ ← gen_opt (vla_init d);
      _ ← gen_opt (init d);
      gen_decls ds
  end.

Definition gen_block_decls (stab : scope) : G unit :=
  _ ← new_block_for_scope;
  gen_decls (decls stab).

Definition gen_block_decls_dealloca : G unit := new_block_for_scope.

(** The declarations of a scope, last first. *)
Fixpoint gen_destructors (ds : list decl) : G unit :=
  match ds with
  | [] => mret tt
  | d :: ds =>
      _ ← gen_opt (cleanup d);
      _ ← gen_opt (vla_restore d);
      gen_destructors ds
  end.

Definition gen_scope_destructors (stab : scope) : G unit := gen_destructors (rev (decls stab)).

(** From the scope [s_from] is the innermost of outwards, to the first one
    that is [s_to] or around it. *)
Fixpoint gen_scope_leave (s_from : list scope) (s_to : list nat) : G unit :=
  match s_from with
  | [] => mret tt
  | s_iter :: rest =>
      if decide (sid s_iter ∈ s_to) then mret tt
      else
        _ ← gen_scope_destructors s_iter;
        gen_scope_leave rest s_to
  end.

Definition gen_scope_leave_parent (stab : scope) (parents : list scope) : G unit :=
  gen_scope_leave (stab :: parents) (sids parents).

(** [flow_gen] and [flow_end] of stmt_if.c; a statement's [symtab] is its
    [for_init_symtab] when it has one. *)
Definition flow_gen (stab : scope) : G unit := gen_block_decls stab.

Definition flow_end (stab : scope) (parents : list scope) : G unit :=
  _ ← gen_scope_leave_parent stab parents;
  gen_block_decls_dealloca.

(** *** Switches: the tests before the body *)

Definition new_case_blk (stmt : nat) : G bid :=
  b ← out_blk_new;
  o ← get;
  _ ← put (set_labels (<[Cse stmt := b]> (label_to_blk o)) o);
  mret b.

Definition case_test (op : case_op) (cmp_with : oval) (n : Z) : G oval :=
  k ← new_val;
  let '(code, r) := case_cmp k op cmp_with n in
  _ ← out_asm code;
  mret r.

Definition gen_case (cmp_with : oval) (cse : case_) : G unit :=
  blk_cancel ← out_blk_new;
  case_blk ← new_case_blk (c_stmt cse);
  _ ← (match c_expr2 cse with
       | Some max =>
           blk_test2 ← out_blk_new;
           t ← case_test op_lt cmp_with (c_expr cse);
           _ ← out_ctrl_branch t blk_cancel blk_test2;
           _ ← out_current_blk blk_test2;
           t ← case_test op_gt cmp_with max;
           out_ctrl_branch t blk_cancel case_blk
       | None =>
           t ← case_test op_eq cmp_with (c_expr cse);
           out_ctrl_branch t case_blk blk_cancel
       end);
  out_current_blk blk_cancel.

Fixpoint gen_cases (cmp_with : oval) (cases : list case_) : G unit :=
  match cases with
  | [] => mret tt
  | cse :: cases =>
      _ ← gen_case cmp_with cse;
      gen_cases cmp_with cases
  end.

(** *** Statements *)

Definition case_blk (stmt : nat) : G bid :=
  o ← get;
  match label_to_blk o !! Cse stmt with Some b => mret b | None => ub "s->bits.case_blk is NULL" end.

Definition jump_to (to : bid) : G unit :=
  _ ← out_ctrl_transfer to None;
  mret tt.

(** The statements of a compound statement, one after the other. *)
Definition gen_stmts (gen : stmt -> G unit) : list stmt -> G unit :=
  fix go ss := match ss with
  | [] => mret tt
  | s :: ss => _ ← gen s; go ss
  end.

Definition gen_stmt_expr (e : E) (is_volatile : bool) : G unit :=
  x ← gen_expr e;
  if is_volatile then out_asm (force_read x) else mret tt.

Definition gen_stmt_code (v : env) (symtab : scope) (gen_code : env -> G unit) : G unit :=
  _ ← gen_block_decls symtab;
  _ ← gen_code (push symtab v);
  _ ← gen_scope_leave_parent symtab (path v);
  gen_block_decls_dealloca.

Definition gen_stmt_if (v : env) (symtab : scope) (e : E) (gen_lhs gen_rhs : env -> G unit) : G unit :=
  blk_true ← out_blk_new;
  blk_false ← out_blk_new;
  blk_fi ← out_blk_new;
  _ ← flow_gen symtab;
  cond ← gen_expr e;
  _ ← out_ctrl_branch cond blk_true blk_false;
  _ ← out_current_blk blk_true;
  _ ← gen_lhs (push symtab v);
  _ ← jump_to blk_fi;
  _ ← out_current_blk blk_false;
  _ ← gen_rhs (push symtab v);
  _ ← jump_to blk_fi;
  _ ← out_current_blk blk_fi;
  flow_end symtab (path v).

Definition gen_stmt_while (v : env) (symtab : scope) (e : E) (gen_lhs : env -> G unit) : G unit :=
  blk_body ← out_blk_new;
  blk_cont ← out_blk_new;
  blk_brk ← out_blk_new;
  _ ← jump_to blk_cont;
  _ ← out_current_blk blk_cont;
  _ ← flow_gen symtab;
  cond ← gen_expr e;
  _ ← out_ctrl_branch cond blk_body blk_brk;
  _ ← out_current_blk blk_body;
  _ ← gen_lhs (targets blk_brk blk_cont (push symtab v));
  _ ← jump_to blk_cont;
  _ ← out_current_blk blk_brk;
  flow_end symtab (path v).

Definition gen_stmt_do (v : env) (e : E) (gen_lhs : env -> G unit) : G unit :=
  begin ← out_blk_new;
  blk_cont ← out_blk_new;
  blk_brk ← out_blk_new;
  _ ← jump_to begin;
  _ ← out_current_blk begin;
  _ ← gen_lhs (targets blk_brk blk_cont v);
  _ ← jump_to blk_cont;
  _ ← out_current_blk blk_cont;
  cond ← gen_expr e;
  _ ← out_ctrl_branch cond begin blk_brk;
  out_current_blk blk_brk.

Definition gen_stmt_for (v : env) (symtab : scope) (for_init for_while for_inc : option E)
    (gen_lhs : env -> G unit) : G unit :=
  blk_test ← out_blk_new;
  blk_body ← out_blk_new;
  blk_end ← out_blk_new;
  blk_inc ← out_blk_new;
  _ ← flow_gen symtab;
  _ ← gen_opt for_init;
  _ ← out_ctrl_transfer_make_current blk_test;
  _ ← (match for_while with
       | Some w => for_cond ← gen_expr w; out_ctrl_branch for_cond blk_body blk_end
       | None => jump_to blk_body
       end);
  _ ← out_current_blk blk_body;
  _ ← gen_lhs (targets blk_end blk_inc (push symtab v));
  _ ← jump_to blk_inc;
  _ ← out_current_blk blk_inc;
  _ ← gen_opt for_inc;
  _ ← jump_to blk_test;
  _ ← out_current_blk blk_end;
  flow_end symtab (path v).

Definition gen_stmt_switch (v : env) (symtab : scope) (e : E) (cases : list case_)
    (default_case : option nat) (gen_lhs : env -> G unit) : G unit :=
  blk_switch_end ← out_blk_new;
  _ ← flow_gen symtab;
  cmp_with ← gen_expr e;
  _ ← gen_cases cmp_with cases;
  dest ← (match default_case with Some d => new_case_blk d | None => mret blk_switch_end end);
  _ ← jump_to dest;
  body ← out_blk_new;
  _ ← out_current_blk body;
  _ ← gen_lhs (break_to blk_switch_end (push symtab v));
  _ ← jump_to blk_switch_end;
  _ ← out_current_blk blk_switch_end;
  flow_end symtab (path v).

(** [gen_stmt_case], [gen_stmt_case_range] and [gen_stmt_default]. *)
Definition gen_stmt_case (v : env) (cse : nat) (gen_lhs : env -> G unit) : G unit :=
  b ← case_blk cse;
  _ ← out_ctrl_transfer_make_current b;
  gen_lhs v.

Definition gen_stmt_label (v : env) (spel : string) (mustgen_spel : bool) (gen_lhs : env -> G unit) : G unit :=
  thisblk ← label_getblk (Lbl spel);
  _ ← (if mustgen_spel then out_blk_mustgen thisblk else mret tt);
  _ ← out_ctrl_transfer_make_current thisblk;
  gen_lhs v.

Definition gen_stmt_goto (v : env) (spel : string) : G unit :=
  _ ← gen_scope_leave (path v) (label_scope v spel);
  target ← label_getblk (Lbl spel);
  jump_to target.

(** The computed one. No scope is left: there is no telling where it goes. *)
Definition gen_stmt_goto_exp (e : E) : G unit :=
  target ← gen_expr e;
  out_ctrl_transfer_exp target.

Definition gen_stmt_break (v : env) : G unit :=
  match blk_break v with
  | Some (b, stab) => _ ← gen_scope_leave (path v) stab; jump_to b
  | None => ub "s->parent is NULL"
  end.

Definition gen_stmt_continue (v : env) : G unit :=
  match blk_continue v with
  | Some (b, stab) => _ ← gen_scope_leave (path v) stab; jump_to b
  | None => ub "s->parent is NULL"
  end.

Definition sanitize_fail : G unit :=
  _ ← out_asm call_sanitize_handler;
  out_ctrl_end_undefined undefined.

Definition sanitize_assert (cond : oval) : G unit :=
  land ← out_blk_new;
  blk_undef ← out_blk_new;
  _ ← out_ctrl_branch cond land blk_undef;
  _ ← out_current_blk blk_undef;
  _ ← sanitize_fail;
  out_current_blk land.

Definition inline_ret_add (phi : bid) (v : option oval) : G unit :=
  mergee ← out_ctrl_transfer phi v;
  match v, mergee with
  | Some _, Some b => o ← get; put (set_rets (inline_rets o ++ [b]) o)
  | _, _ => mret tt
  end.

Definition gen_ret_exp (e : option E) : G (option oval) :=
  match e with Some e => x ← gen_expr e; mret (Some x) | None => mret None end.

Definition gen_stmt_return (v : env) (e : option E) : G unit :=
  ret_exp ← gen_ret_exp e;
  _ ← (match e, ret_exp with
       | Some e, Some x => if is_ptr_or_block e && returns_nonnull v then sanitize_assert x else mret tt
       | _, _ => mret tt
       end);
  _ ← gen_scope_leave (path v) [];
  match inline_phi v with
  | Some phi => inline_ret_add phi ret_exp
  | None => out_ctrl_end_ret ret_exp
  end.

(** [gen_stmt]: the statement's [f_gen]. *)
Fixpoint gen_stmt (s : stmt) (v : env) {struct s} : G unit :=
  match s with
  | s_noop => mret tt
  | s_expr e is_volatile => gen_stmt_expr e is_volatile
  | s_code symtab stmts => gen_stmt_code v symtab (fun v => gen_stmts (fun s => gen_stmt s v) stmts)
  | s_if symtab e lhs rhs =>
      gen_stmt_if v symtab e (gen_stmt lhs) (match rhs with Some r => gen_stmt r | None => fun _ => mret tt end)
  | s_while symtab e lhs => gen_stmt_while v symtab e (gen_stmt lhs)
  | s_do e lhs => gen_stmt_do v e (gen_stmt lhs)
  | s_for symtab for_init for_while for_inc lhs =>
      gen_stmt_for v symtab for_init for_while for_inc (gen_stmt lhs)
  | s_switch symtab e cases default_case lhs => gen_stmt_switch v symtab e cases default_case (gen_stmt lhs)
  | s_case cse lhs => gen_stmt_case v cse (gen_stmt lhs)
  | s_label spel mustgen_spel lhs => gen_stmt_label v spel mustgen_spel (gen_stmt lhs)
  | s_goto spel => gen_stmt_goto v spel
  | s_goto_exp e => gen_stmt_goto_exp e
  | s_break => gen_stmt_break v
  | s_continue => gen_stmt_continue v
  | s_return e => gen_stmt_return v e
  end.

(** ** What statements mean *)

Definition eval_opt (e : option E) (s : sst) : option sst :=
  match e with
  | Some e => '(s', _) ← eval e s; Some s'
  | None => Some s
  end.

Fixpoint run_inits (ds : list decl) (s : sst) : option sst :=
  match ds with
  | [] => Some s
  | d :: ds => s1 ← eval_opt (vla_init d) s; s2 ← eval_opt (init d) s1; run_inits ds s2
  end.

Fixpoint run_destructors (ds : list decl) (s : sst) : option sst :=
  match ds with
  | [] => Some s
  | d :: ds => s1 ← eval_opt (cleanup d) s; s2 ← eval_opt (vla_restore d) s1; run_destructors ds s2
  end.

Definition enter (sc : scope) (s : sst) : option sst := run_inits (decls sc) s.
Definition leave (sc : scope) (s : sst) : option sst := run_destructors (rev (decls sc)) s.

(** The labels, [case]s and [default]s inside a statement. *)
Fixpoint labels (s : stmt) : list key :=
  match s with
  | s_code _ ss => concat (map labels ss)
  | s_if _ _ lhs rhs => labels lhs ++ match rhs with Some r => labels r | None => [] end
  | s_while _ _ lhs | s_do _ lhs | s_for _ _ _ _ lhs | s_switch _ _ _ _ lhs => labels lhs
  | s_case c lhs => Cse c :: labels lhs
  | s_label l _ lhs => Lbl l :: labels lhs
  | _ => []
  end.

Definition holds (s : stmt) (k : key) : bool := bool_decide (k ∈ labels s).

Definition runner : Type := stmt -> entry -> sst -> option (outcome * sst).

Fixpoint run_seq (ex : runner) (ss : list stmt) (en : entry) (s : sst) : option (outcome * sst) :=
  match ss with
  | [] => match en with Start => Some (Normal, s) | _ => None end
  | st :: ss =>
      let here :=
        '(out, s') ← ex st en s;
        match out with Normal => run_seq ex ss Start s' | _ => Some (out, s') end in
      match en with
      | At k => if holds st k then here else run_seq ex ss en s
      | _ => here
      end
  end.

(** Ending a statement that has a scope: a jump to a label inside it stays in
    the scope; anything else leaves it. *)
Definition unscope (ex : runner) (st : stmt) (sc : scope) (r : outcome * sst) : option (outcome * sst) :=
  let out_of := s' ← leave sc r.2; Some (r.1, s') in
  match r.1 with
  | Goto l => if holds st (Lbl l) then ex st (At (Lbl l)) r.2 else out_of
  | _ => out_of
  end.

Definition matches (x : Z) (c : case_) : bool :=
  match c_expr2 c with
  | Some max => (c_expr c <=? x) && (x <=? max)
  | None => x =? c_expr c
  end.

(** The [case] a switch on [x] goes to. *)
Definition pick (x : Z) (cases : list case_) (default_case : option nat) : option nat :=
  match List.find (matches x) cases with Some c => Some (c_stmt c) | None => default_case end.

(** One round of a loop with its body's result; [next] goes round. *)
Definition loop_round (next : sst -> option (outcome * sst)) (stop : outcome * sst -> option (outcome * sst))
    (r : outcome * sst) : option (outcome * sst) :=
  match r.1 with
  | Normal | Cont => next r.2
  | Brk => stop (Normal, r.2)
  | _ => stop r
  end.

(** [exec_stmt n]: the statement entered at [en], with [n] bounding the jumps
    and the depth; [None] when that is not enough, an expression does not
    return, or a computed [goto] is reached: where it goes is up to the
    machine. *)
Fixpoint exec_stmt (n : nat) (st : stmt) (en : entry) (s : sst) {struct n} : option (outcome * sst) :=
  match n with
  | O => None
  | S n =>
      let ex := exec_stmt n in
      match st with
      | s_noop => Some (Normal, s)
      | s_expr e _ => '(s', _) ← eval e s; Some (Normal, s')
      | s_code sc ss =>
          r ← (match en with
               | Start => s1 ← enter sc s; run_seq ex ss Start s1
               | _ => run_seq ex ss en s
               end);
          unscope ex st sc r
      | s_if sc e lhs rhs =>
          let other en s := match rhs with Some r => ex r en s | None => Some (Normal, s) end in
          r ← (match en with
               | At k => if holds lhs k then ex lhs en s else other en s
               | _ =>
                   s1 ← enter sc s;
                   '(s2, x) ← eval e s1;
                   if x =? 0 then other Start s2 else ex lhs Start s2
               end);
          unscope ex st sc r
      | s_while sc e lhs =>
          let round := loop_round (ex st Again) (unscope ex st sc) in
          match en with
          | At _ => r ← ex lhs en s; round r
          | _ =>
              s1 ← enter sc s;
              '(s2, x) ← eval e s1;
              if x =? 0 then unscope ex st sc (Normal, s2)
              else r ← ex lhs Start s2; round r
          end
      | s_do e lhs =>
          let test s :=
            '(s', x) ← eval e s;
            if x =? 0 then Some (Normal, s') else ex st Again s' in
          r ← (match en with At _ => ex lhs en s | _ => ex lhs Start s end);
          loop_round test Some r
      | s_for sc for_init for_while for_inc lhs =>
          let next s := s' ← eval_opt for_inc s; ex st Again s' in
          let round := loop_round next (unscope ex st sc) in
          match en with
          | At _ => r ← ex lhs en s; round r
          | Start =>
              s1 ← enter sc s;
              s2 ← eval_opt for_init s1;
              ex st Again s2
          | Again =>
              match for_while with
              | Some w =>
                  '(s1, x) ← eval w s;
                  if x =? 0 then unscope ex st sc (Normal, s1)
                  else r ← ex lhs Start s1; round r
              | None => r ← ex lhs Start s; round r
              end
          end
      | s_switch sc e cases default_case lhs =>
          r ← (match en with
               | At _ => ex lhs en s
               | _ =>
                   s1 ← enter sc s;
                   '(s2, x) ← eval e s1;
                   match pick x cases default_case with
                   | Some c => ex lhs (At (Cse c)) s2
                   | None => Some (Normal, s2)
                   end
               end);
          unscope ex st sc (match r.1 with Brk => (Normal, r.2) | _ => r end)
      | s_case c lhs =>
          match en with
          | At k => if decide (k = Cse c) then ex lhs Start s else ex lhs en s
          | _ => ex lhs Start s
          end
      | s_label l _ lhs =>
          match en with
          | At k => if decide (k = Lbl l) then ex lhs Start s else ex lhs en s
          | _ => ex lhs Start s
          end
      | s_goto l => Some (Goto l, s)
      | s_goto_exp _ => None
      | s_break => Some (Brk, s)
      | s_continue => Some (Cont, s)
      | s_return None => Some (Ret None, s)
      | s_return (Some e) => '(s', x) ← eval e s; Some (Ret (Some x), s')
      end
  end.

(** ** A function *)

(** The scopes of the labels ([l->scope], set by [fold_stmt_label]). *)
Fixpoint label_scopes (p : list nat) (s : stmt) : list (string * list nat) :=
  match s with
  | s_code sc ss => concat (map (label_scopes (sid sc :: p)) ss)
  | s_if sc _ lhs rhs =>
      label_scopes (sid sc :: p) lhs ++
      match rhs with Some r => label_scopes (sid sc :: p) r | None => [] end
  | s_while sc _ lhs | s_for sc _ _ _ lhs | s_switch sc _ _ _ lhs => label_scopes (sid sc :: p) lhs
  | s_do _ lhs | s_case _ lhs => label_scopes p lhs
  | s_label l _ lhs => (l, p) :: label_scopes p lhs
  | _ => []
  end.

Definition find_label (l : list (string * list nat)) (spel : string) : list nat :=
  match List.find (fun x => bool_decide (x.1 = spel)) l with Some x => x.2 | None => [] end.

(** [out_perfunc_init]'s blocks, as far as statements meet them, and the
    context user code starts in. *)
Definition func_ctx : out_ctx insn jcc addr oval :=
  mk_ctx [blk_new; blk_new] ∅ (Some 0%nat) (Some 0%nat) ∅ 1%nat [] 0%nat [].

(** The body of a function, and what [out_func_epilogue] does first: falling
    off the end goes to the epilogue, which is terminated. The function is not
    generated inline, nor are its returns checked by the sanitizer. *)
Definition gen_func (code : stmt) (epilogue : list insn) : G unit :=
  _ ← gen_stmt code (mk_env [] None None (find_label (label_scopes [] code)) false None);
  o ← get;
  _ ← (match current_blk o with Some _ => jump_to (epilogue_blk o) | None => mret tt end);
  _ ← out_current_blk (epilogue_blk o);
  _ ← out_asm epilogue;
  terminate BLK_TERMINAL None.

(** A call: the body runs, jumps between its labels included. *)
Definition exec_func (n : nat) (code : stmt) (s : sst) : option (option Z * sst) :=
  '(out, s') ← exec_stmt n code Start s;
  match out with
  | Normal => Some (None, s')
  | Ret x => Some (x, s')
  | _ => None
  end.

End Flow.

Arguments cexpr : clear implicits.
Arguments decl : clear implicits.
Arguments scope : clear implicits.
Arguments stmt : clear implicits.
Arguments env : clear implicits.
