(* ===== verification/FlowLaws.v ===== *)
(** * The laws of generated code

    What the code generator's value side promises to control flow
    ([BackendOk]), the invariant of a context under generation ([wf]), what
    generating leaves alone ([grows]), and each operation of ctrl.c and blk.c
    as one lemma: it succeeds, keeps the invariant, and its code runs. *)

From S2P Require Import Prelude Blk Flow.
From stdpp Require Import relations.
Local Open Scope Z_scope.

Section Laws.
Context {insn jcc addr oval sst mst : Type}.
Context `{!Backend insn jcc addr oval} `{!Machine insn jcc addr mst}.

Local Notation ctx := (out_ctx insn jcc addr oval).
Local Notation block := (out_blk insn jcc addr oval).
Local Notation G := (G insn jcc addr oval).

Definition truth (n : Z) : Z := if n =? 0 then 0 else 1.
Definition compare (op : case_op) (x n : Z) : bool :=
  match op with op_eq => x =? n | op_lt => x <? n | op_gt => n <? x end.

(** ** The promises of the value side

    [R] relates a state of the source to one of the machine; [denotes] says
    what number a value stands for in a machine state; [live k] are the values
    among the first [k] made; [returned] is the number in the return register. *)
Class BackendOk (R : sst -> mst -> Prop) (denotes : oval -> mst -> Z -> Prop)
    (live : nat -> oval -> Prop) (returned : mst -> Z -> Prop) : Prop := {
  live_mono k k' v : (k <= k')%nat -> live k v -> live k' v;
  spill_R o skip s m : R s m -> R s (execs (spill o skip) m);
  spill_keeps o skip v m n : live (nvals o) v -> denotes v m n -> denotes v (execs (spill o skip) m) n;
  spill_returned o m n : returned m n -> returned (execs (spill o None) m) n;
  view_R v s m : R s m ->
    match view v with V_REG c _ | V_MEM c _ => R s (execs c m) | _ => True end;
  view_keeps v w m n : denotes w m n ->
    match view v with V_REG c _ | V_MEM c _ => denotes w (execs c m) n | _ => True end;
  view_taken v m n : denotes v m n ->
    match view v with
    | V_REG c jz => taken jz (execs c m) = (n =? 0)
    | V_FLAG j => taken j m = negb (n =? 0)
    | V_CONST b => b = negb (n =? 0)
    | V_MEM c j => taken j (execs c m) = negb (n =? 0)
    end;
  phi_R k v s m : R s m -> R s (execs (phi_move k v) m);
  phi_keeps k v w m n : live k w -> denotes w m n -> denotes w (execs (phi_move k v) m) n;
  phi_value k v m n : live k v -> denotes v m n -> denotes (merge_val k) (execs (phi_move k v) m) n;
  phi_live k : live (S k) (merge_val k);
  normalise_R k v s m : R s m -> R s (execs (normalise k v).1 m);
  normalise_keeps k v w m n : live k w -> denotes w m n -> denotes w (execs (normalise k v).1 m) n;
  normalise_value k v m n : live k v -> denotes v m n ->
    denotes (normalise k v).2 (execs (normalise k v).1 m) (truth n);
  normalise_live k v : live k v -> live (S k) (normalise k v).2;
  new_l_live k n : live k (out_new_l n);
  new_l_value m n : denotes (out_new_l n) m n;
  case_R k op v c s m : R s m -> R s (execs (case_cmp k op v c).1 m);
  case_keeps k op v c w m n : live k w -> denotes w m n -> denotes w (execs (case_cmp k op v c).1 m) n;
  case_value k op v c m n : live k v -> denotes v m n ->
    denotes (case_cmp k op v c).2 (execs (case_cmp k op v c).1 m) (if compare op n c then 1 else 0);
  case_live k op v c : live k v -> live (S k) (case_cmp k op v c).2;
  force_read_R v s m : R s m -> R s (execs (force_read v) m);
  force_read_keeps v w m n : denotes w m n -> denotes w (execs (force_read v) m) n;
  retreg_R v s m : R s m -> R s (execs (to_retreg v) m);
  retreg_value v m n : denotes v m n -> returned (execs (to_retreg (Some v)) m) n }.

Context (R : sst -> mst -> Prop) (denotes : oval -> mst -> Z -> Prop).
Context (live : nat -> oval -> Prop) (returned : mst -> Z -> Prop).
Context `{!BackendOk R denotes live returned}.

(** ** The invariant of a context *)

Definition open (blk : block) : Prop := type blk = BLK_UNINIT /\ phi_val blk = None.

Record wf (o : ctx) : Prop := mk_wf {
  wf_open b blk : blocks o !! b = Some blk -> type blk = BLK_UNINIT -> phi_val blk = None;
  wf_cur b : current_blk o = Some b -> exists blk, blocks o !! b = Some blk /\ open blk;
  wf_used : is_Some (last_used_blk o);
  wf_lbl k b : label_to_blk o !! k = Some b -> (b < length (blocks o))%nat;
  wf_inj k k' b : label_to_blk o !! k = Some b -> label_to_blk o !! k' = Some b -> k = k' }.

(** A block made but not begun: a jump can go to it and its code still starts
    at its first instruction. *)
Definition clean (o : ctx) (b : bid) : Prop :=
  blocks o !! b = Some blk_new /\ current_blk o <> Some b.

Definition unlabelled (o : ctx) (b : bid) : Prop := forall k, label_to_blk o !! k <> Some b.

(** The place the next instruction goes. *)
Definition here (o : ctx) (p : pc) : Prop :=
  exists b blk, current_blk o = Some b /\ blocks o !! b = Some blk /\ p = (b, length (insns blk)).

Definition later (blk blk' : block) : Prop :=
  insns blk `prefix_of` insns blk' /\ (type blk <> BLK_UNINIT -> blk' = blk).

Lemma later_refl blk : later blk blk.
Proof. split; [done | auto]. Qed.

Lemma later_trans a b c : later a b -> later b c -> later a c.
Proof.
  intros [P1 E1] [P2 E2]. split; [by etrans|].
  intros H. rewrite (E1 H) in E2. auto.
Qed.

(** What generating from [o] to [o'] does to what was there: nothing but add
    to the block that was current, and begin or close the blocks in [T]; the
    only labels that get a block are those in [D]. *)
Record grows (T : bid -> Prop) (D : key -> Prop) (o o' : ctx) : Prop := mk_grows {
  gr_later b blk : blocks o !! b = Some blk -> exists blk', blocks o' !! b = Some blk' /\ later blk blk';
  gr_lbl : label_to_blk o ⊆ label_to_blk o';
  gr_new k b : label_to_blk o' !! k = Some b ->
    label_to_blk o !! k = Some b \/
    ((length (blocks o) <= b)%nat /\ D k);
  gr_vals : (nvals o <= nvals o')%nat;
  gr_epi : epilogue_blk o' = epilogue_blk o;
  gr_same b : (b < length (blocks o))%nat -> current_blk o <> Some b -> ~ T b ->
    blocks o' !! b = blocks o !! b /\ current_blk o' <> Some b }.

Abbreviation none := (fun _ => False).

Lemma gr_len T C o o' : grows T C o o' -> (length (blocks o) <= length (blocks o'))%nat.
Proof.
  intros Gr. destruct (decide (length (blocks o) = 0%nat)) as [|Hn]; [lia|].
  destruct (lookup_lt_is_Some_2 (blocks o) (pred (length (blocks o)))) as [blk Hb]; [lia|].
  destruct (gr_later _ _ _ _ Gr _ _ Hb) as (blk' & Hb' & _).
  apply lookup_lt_Some in Hb'. lia.
Qed.

Lemma grows_refl o : grows none none o o.
Proof. split; auto using later_refl. intros b blk H. eauto using later_refl. Qed.

Lemma grows_trans T1 T2 C1 C2 o o1 o2 :
  grows T1 C1 o o1 -> grows T2 C2 o1 o2 ->
  grows (fun b => T1 b \/ T2 b) (fun k => C1 k \/ C2 k) o o2.
Proof.
  intros G1 G2. pose proof (gr_len _ _ _ _ G1) as HL. split.
  - intros b blk H. destruct (gr_later _ _ _ _ G1 _ _ H) as (b1 & H1 & L1).
    destruct (gr_later _ _ _ _ G2 _ _ H1) as (b2 & H2 & L2). eauto using later_trans.
  - etrans; [apply G1 | apply G2].
  - intros k b H. destruct (gr_new _ _ _ _ G2 _ _ H) as [H1 | [H1 H1']].
    + destruct (gr_new _ _ _ _ G1 _ _ H1) as [| [? ?]]; [auto | right; split; [lia | auto]].
    + right. split; [lia | auto].
  - pose proof (gr_vals _ _ _ _ G1). pose proof (gr_vals _ _ _ _ G2). lia.
  - rewrite (gr_epi _ _ _ _ G2). apply G1.
  - intros b Hb Hc HT. destruct (gr_same _ _ _ _ G1 b) as [E1 E1']; [done | done | tauto |].
    destruct (gr_same _ _ _ _ G2 b) as [E2 E2']; [lia | done | tauto |]. split; congruence.
Qed.

(** Blocks begun that are new do not count; nor does the current block. *)
Lemma grows_weaken T (T' : bid -> Prop) C (C' : key -> Prop) o o' :
  grows T C o o' ->
  (forall b, (b < length (blocks o))%nat -> current_blk o <> Some b -> T b -> T' b) ->
  (forall c, C c -> C' c) ->
  grows T' C' o o'.
Proof.
  intros Gr HT HC. split; try apply Gr.
  - intros k b H. destruct (gr_new _ _ _ _ Gr _ _ H) as [| [? ?]]; [auto | right; eauto].
  - intros b Hb Hc HT'. apply (gr_same _ _ _ _ Gr); auto.
Qed.

Lemma clean_lt o b : clean o b -> (b < length (blocks o))%nat.
Proof. intros [H _]. by eapply lookup_lt_Some. Qed.

Lemma grows_clean T C o o' b : grows T C o o' -> clean o b -> ~ T b -> clean o' b.
Proof.
  intros Gr Hc HT. pose proof (clean_lt _ _ Hc) as Hlt. destruct Hc as [Hb Hc].
  destruct (gr_same _ _ _ _ Gr b Hlt Hc HT) as [E E']. split; [congruence | done].
Qed.

Lemma grows_unlabelled T C o o' b :
  grows T C o o' -> (b < length (blocks o))%nat -> unlabelled o b -> unlabelled o' b.
Proof.
  intros Gr Hlt Hu k Hk. destruct (gr_new _ _ _ _ Gr _ _ Hk) as [|[]]; [by apply (Hu k) | lia].
Qed.

(** ** The graph a context is growing into *)

(** [g] has what the context has, the blocks in [X] apart (those whose value
    is still to be put in the common register). *)
Definition agree (X : bid -> Prop) (o : ctx) (g : list block) : Prop :=
  forall b blk, ~ X b -> blocks o !! b = Some blk -> exists blk', g !! b = Some blk' /\ later blk blk'.

Definition closed (o : ctx) (X : bid -> Prop) : Prop :=
  forall b, X b -> exists blk, blocks o !! b = Some blk /\ type blk <> BLK_UNINIT.

Lemma agree_grows T C X o o' g : grows T C o o' -> agree X o' g -> agree X o g.
Proof.
  intros Gr A b blk HX Hb. destruct (gr_later _ _ _ _ Gr _ _ Hb) as (b1 & H1 & L1).
  destruct (A _ _ HX H1) as (b2 & H2 & L2). eauto using later_trans.
Qed.

Lemma closed_grows T C X o o' : grows T C o o' -> closed o X -> closed o' X.
Proof.
  intros Gr Hc b Hb. destruct (Hc _ Hb) as (blk & H & Ht).
  destruct (gr_later _ _ _ _ Gr _ _ H) as (blk' & H' & _ & E). exists blk'. by rewrite (E Ht) in *.
Qed.

Lemma closed_cur o X b : wf o -> closed o X -> current_blk o = Some b -> ~ X b.
Proof.
  intros W Hc Hb HX. destruct (Hc _ HX) as (blk & H & Ht).
  destruct (wf_cur _ W _ Hb) as (blk' & H' & Ho & _). congruence.
Qed.

(** ** Running *)

Local Notation runs g := (rtc (gstep (mst := mst) g)).

Lemma execs_app a b (m : mst) : execs (a ++ b) m = execs b (execs a m).
Proof. apply fold_left_app. Qed.

(** The instructions of a block from place [k] on. *)
Lemma runs_code (g : list block) b blk k code m :
  g !! b = Some blk -> (forall j i, code !! j = Some i -> insns blk !! (k + j)%nat = Some i) ->
  runs g ((b, k), m) ((b, (k + length code)%nat), execs code m).
Proof.
  intros Hb. revert k m. induction code as [|i code IH]; intros k m Hc; simpl.
  - rewrite Nat.add_0_r. constructor.
  - eapply rtc_l.
    + eapply g_insn; [done|]. specialize (Hc 0%nat i eq_refl). by rewrite Nat.add_0_r in Hc.
    + replace (k + S (length code))%nat with (S k + length code)%nat by lia. apply IH.
      intros j i' Hj. specialize (Hc (S j) i' Hj). by replace (S k + j)%nat with (k + S j)%nat by lia.
Qed.

Definition keep (k : nat) (m m' : mst) : Prop :=
  forall v n, live k v -> denotes v m n -> denotes v m' n.

Lemma keep_refl k m : keep k m m.
Proof. intros v n; auto. Qed.

Lemma keep_trans k k' m m1 m2 : (k <= k')%nat -> keep k m m1 -> keep k' m1 m2 -> keep k m m2.
Proof. intros Hk H1 H2 v n Hl Hd. apply H2; [by eapply live_mono | auto]. Qed.

(** ** One lemma for each operation *)

Lemma G_step {A B} (x : G A) (k : A -> G B) o a o' : x o = Ok (a, o') -> (x ≫= k) o = k a o'.
Proof. unfold mbind, G_bind. by intros ->. Qed.

Lemma here_fun o p p' : here o p -> here o p' -> p = p'.
Proof. intros (b & blk & H1 & H2 & ->) (b' & blk' & H1' & H2' & ->). congruence. Qed.

Lemma wf_here o b : wf o -> current_blk o = Some b -> exists p, here o p.
Proof. intros W H. destruct (wf_cur _ W _ H) as (blk & Hb & _). eexists. exists b, blk. eauto. Qed.

(** *** [out_blk_new] *)

Lemma blk_new_ok o :
  wf o ->
  let o' := set_blocks (blocks o ++ [blk_new]) o in
  out_blk_new o = Ok (length (blocks o), o') /\ wf o' /\ grows none none o o' /\
  clean o' (length (blocks o)) /\ unlabelled o' (length (blocks o)) /\
  current_blk o' = current_blk o /\ (forall p, here o p -> here o' p).
Proof.
  intros W o'. split; [done|].
  assert (Hold : forall b blk, blocks o !! b = Some blk -> blocks o' !! b = Some blk).
  { intros b blk H. simpl. rewrite lookup_app_l; [done | by eapply lookup_lt_Some]. }
  assert (Hnew : blocks o' !! length (blocks o) = Some blk_new) by (simpl; by rewrite list_lookup_middle).
  split_and!.
  - split; simpl.
    + intros b blk H Ht. apply lookup_app_Some in H as [H | [_ H]]; [by eapply wf_open|].
      apply list_lookup_singleton_Some in H as [_ <-]. done.
    + intros b H. destruct (wf_cur _ W _ H) as (blk & Hb & Ho). eauto.
    + apply W.
    + intros k b H. rewrite length_app. simpl. pose proof (wf_lbl _ W _ _ H). lia.
    + apply W.
  - split; simpl; auto.
    + intros b blk H. eauto using later_refl.
    + intros b Hb Hc _. split; [by rewrite lookup_app_l | done].
  - split; [done|]. intros H. destruct (wf_cur _ W _ H) as (blk & Hb & _).
    apply lookup_lt_Some in Hb. lia.
  - intros k H. pose proof (wf_lbl _ W _ _ H). lia.
  - done.
  - intros p (b & blk & H1 & H2 & ->). exists b, blk. eauto.
Qed.

(** *** [out_current_blk] *)

Lemma current_blk_ok o b :
  wf o -> clean o b ->
  exists o', out_current_blk b o = Ok (tt, o') /\ wf o' /\ grows (eq b) none o o' /\
    current_blk o' = Some b /\ blocks o' = blocks o /\ label_to_blk o' = label_to_blk o /\
    nvals o' = nvals o /\ here o' (b, 0%nat).
Proof.
  intros W [Hb Hc]. eexists. split; [done|]. split_and!; try done.
  - split; simpl; try apply W.
    + intros b' [= <-]. eexists. split; [done | split; done].
    + by eexists.
  - split; simpl; auto.
    + intros b' blk H. eauto using later_refl.
    + intros b' _ _ Hne. split; [done | congruence].
  - exists b, blk_new. simpl. auto.
Qed.

(** Selecting the block that is current already. *)
Lemma current_blk_again o b :
  wf o -> current_blk o = Some b ->
  exists o', out_current_blk b o = Ok (tt, o') /\ wf o' /\ grows none none o o' /\
    current_blk o' = Some b /\ blocks o' = blocks o /\ label_to_blk o' = label_to_blk o /\
    nvals o' = nvals o /\ (forall p, here o p -> here o' p).
Proof.
  intros W Hc. eexists. split; [done|]. split_and!; try done.
  - split; simpl; try apply W.
    + intros b' [= <-]. by apply W.
    + by eexists.
  - split; simpl; auto.
    + intros b' blk H. eauto using later_refl.
    + intros b' _ H _. split; [done | congruence].
  - intros p (b' & blk & H1 & H2 & ->). exists b', blk. simpl. by rewrite <-Hc.
Qed.

(** *** [out_asm] *)

Lemma asm_ok code o :
  wf o ->
  exists o', out_asm code o = Ok (tt, o') /\ wf o' /\ grows none none o o' /\
    current_blk o' = current_blk o /\ label_to_blk o' = label_to_blk o /\ nvals o' = nvals o /\
    last_used_blk o' = last_used_blk o /\
    forall g X p m, agree X o' g -> closed o X -> here o p ->
      exists p', here o' p' /\ runs g (p, m) (p', execs code m).
Proof.
  intros W. unfold out_asm. destruct (current_blk o) as [b|] eqn:Hc; eexists.
  2: { split; [done|]. split_and!; auto using grows_refl.
       intros g X p m _ _ (b & blk & H & _). congruence. }
  split; [done|]. destruct (wf_cur _ W _ Hc) as (blk & Hb & Hu & Hp).
  assert (Ha : alter (blk_add_insns code) b (blocks o) !! b = Some (blk_add_insns code blk))
    by (rewrite list_lookup_alter_eq, Hb; done).
  split_and!; try done.
  - split; simpl; try apply W.
    + intros b' blk' H Ht. destruct (decide (b = b')) as [<-|Hne].
      * rewrite Ha in H. injection H as <-. done.
      * rewrite list_lookup_alter_ne in H by done. by eapply wf_open.
    + intros b' H. assert (b' = b) as -> by congruence. eexists. split; [done|]. split; done.
    + intros k b' H. rewrite length_alter. by eapply wf_lbl.
  - split; simpl; auto.
    + intros b' blk' H. destruct (decide (b = b')) as [<-|Hne].
      * rewrite Ha. assert (blk' = blk) as -> by congruence. eexists. split; [done|]. split; simpl.
        -- by eexists.
        -- congruence.
      * rewrite list_lookup_alter_ne by done. eauto using later_refl.
    + intros b' _ H _. split; [|congruence]. apply list_lookup_alter_ne. congruence.
  - intros g X p m A HX (b' & blk' & H1 & H2 & ->). assert (b' = b) as -> by congruence.
    assert (blk' = blk) as -> by congruence.
    destruct (A b _ (closed_cur _ _ _ W HX Hc) Ha) as (gb & Hg & [[tl Htl] _]).
    eexists. split; [exists b, (blk_add_insns code blk); simpl; eauto|]. simpl. rewrite length_app.
    apply (runs_code _ _ gb); [done|]. intros j i Hj. rewrite Htl. simpl.
    rewrite <-app_assoc, lookup_app_r by lia.
    replace (length (insns blk) + j - length (insns blk))%nat with j by lia.
    rewrite lookup_app_l; [done | by eapply lookup_lt_Some].
Qed.

(** *** Ending a block *)

Lemma terminate_ok t phi o :
  wf o -> is_uninit t = false ->
  exists o', terminate t phi o = Ok (tt, o') /\ wf o' /\ grows none none o o' /\
    current_blk o' = None /\ label_to_blk o' = label_to_blk o /\ nvals o' = nvals o /\
    last_used_blk o' = last_used_blk o /\
    forall b, current_blk o = Some b -> exists blk, blocks o !! b = Some blk /\ open blk /\
      blocks o' = <[b := set_term t phi blk]> (blocks o).
Proof.
  intros W Ht. unfold terminate. destruct (current_blk o) as [b|] eqn:Hc.
  2: { eexists. split; [done|]. split_and!; auto using grows_refl. done. }
  destruct (wf_cur _ W _ Hc) as (blk & Hb & Hu & Hp). rewrite Hb, Hu. simpl.
  assert (Hlt := lookup_lt_Some _ _ _ Hb).
  assert (Hs : <[b := set_term t phi blk]> (blocks o) !! b = Some (set_term t phi blk))
    by (by apply list_lookup_insert_eq).
  eexists. split; [done|]. split_and!; try done.
  - split; simpl; try apply W.
    + intros b' blk' H Ht'. destruct (decide (b = b')) as [<-|Hne].
      * rewrite Hs in H. injection H as <-. simpl in Ht'. by subst t.
      * rewrite list_lookup_insert_ne in H by done. by eapply wf_open.
    + intros b' [=].
    + intros k b' H. rewrite length_insert. by eapply wf_lbl.
  - split; simpl; auto.
    + intros b' blk' H. destruct (decide (b = b')) as [<-|Hne].
      * rewrite Hs. assert (blk' = blk) as -> by congruence. eexists. split; [done|].
        split; simpl; [done | congruence].
      * rewrite list_lookup_insert_ne by done. eauto using later_refl.
    + intros b' _ H _. split; [|done]. apply list_lookup_insert_ne. congruence.
  - intros b' H. assert (b' = b) as -> by congruence. exists blk. split_and!; [done | by split | done].
Qed.

Lemma wf_preds m o : wf o -> wf (set_preds m o).
Proof. intros []. by split. Qed.

Lemma grows_preds m o : grows none none o (set_preds m o).
Proof. destruct (grows_refl o). by split. Qed.

Lemma grows_none T C o o1 o2 : grows none none o o1 -> grows T C o1 o2 -> grows T C o o2.
Proof. intros G1 G2. eapply grows_weaken; [by eapply grows_trans | |].
  - by intros b _ _ [[] | H].
  - by intros c [[] | H]. Qed.

Lemma transfer_ok to phi o :
  wf o ->
  exists o', out_ctrl_transfer to phi o = Ok (current_blk o, o') /\ wf o' /\ grows none none o o' /\
    current_blk o' = None /\ label_to_blk o' = label_to_blk o /\ nvals o' = nvals o /\
    forall b, current_blk o = Some b -> exists blk blk', blocks o !! b = Some blk /\
      blocks o' !! b = Some blk' /\ insns blk' = insns blk ++ spill o phi /\
      type blk' = BLK_NEXT_BLOCK to /\ phi_val blk' = phi.
Proof.
  intros W. unfold out_ctrl_transfer. rewrite (G_step _ _ o (current_blk o) o) by done.
  rewrite (G_step _ _ o o o) by done.
  destruct (asm_ok (spill o phi) o W) as (o1 & E1 & W1 & G1 & C1 & L1 & V1 & U1 & _).
  rewrite (G_step _ _ _ _ _ E1), (G_step _ _ o1 o1 o1) by done.
  destruct (wf_used _ W1) as [last Hl]. rewrite Hl.
  destruct (current_blk o) as [b|] eqn:Hc.
  2: { eexists. split; [done|]. split_and!; try done.
       - by apply wf_preds.
       - eapply grows_none; [done | apply grows_preds]. }
  destruct (wf_cur _ W1 _ C1) as (blk & Hb & Hu & Hp).
  rewrite (G_step _ _ _ _ _ (eq_refl : put (add_pred to b o1) o1 = Ok (tt, add_pred to b o1))).
  rewrite Hb. rewrite (G_step _ _ _ blk (add_pred to b o1)) by done. rewrite Hp.
  rewrite (G_step _ _ _ tt (add_pred to b o1)) by done.
  destruct (terminate_ok (BLK_NEXT_BLOCK to) phi (add_pred to b o1)) as
    (o2 & E2 & W2 & G2 & C2 & L2 & V2 & U2 & B2); [by apply wf_preds | done |].
  rewrite (G_step _ _ _ _ _ E2). eexists. split; [done|]. split_and!; try done.
  - eapply grows_none; [done|]. eapply grows_none; [apply grows_preds | done].
  - by rewrite L2, <-L1.
  - by rewrite V2, <-V1.
  - intros b' [= <-]. destruct (B2 b C1) as (blk2 & Hb2 & _ & Hi). simpl in Hb2, Hi.
    unfold out_asm in E1. rewrite Hc in E1. injection E1 as <-. simpl in *.
    rewrite list_lookup_alter_eq in Hb2. destruct (blocks o !! b) as [blk0|] eqn:Hb0; [|done].
    injection Hb2 as <-. exists blk0. eexists. split; [done|]. split.
    + rewrite Hi. apply list_lookup_insert_eq. rewrite length_alter. by eapply lookup_lt_Some.
    + done.
Qed.

(** What a jump with no value does. *)
Lemma transfer_runs to phi o o' g X p m :
  wf o -> out_ctrl_transfer to phi o = Ok (current_blk o, o') -> agree X o' g -> closed o X -> here o p ->
  runs g (p, m) ((to, 0%nat), execs (spill o phi) m).
Proof.
  intros W E A HX (b & blk & Hc & Hb & ->).
  destruct (transfer_ok to phi o W) as (o2 & E2 & _ & _ & _ & _ & _ & B).
  assert (o2 = o') as -> by congruence. destruct (B _ Hc) as (blk0 & blk' & H0 & H' & Hi & Ht & _).
  assert (blk0 = blk) as -> by congruence.
  destruct (A b blk' (closed_cur _ _ _ W HX Hc) H') as (gb & Hg & _ & He).
  rewrite He in Hg by (rewrite Ht; done). etrans.
  - apply (runs_code g b blk' _ (spill o phi)); [done|]. intros j i Hj. rewrite Hi.
    rewrite lookup_app_r by lia.
    by replace (length (insns blk) + j - length (insns blk))%nat with j by lia.
  - rewrite <-length_app, <-Hi. apply rtc_once. by eapply g_next.
Qed.

(** *** [out_ctrl_branch] *)

Lemma condjmp_ok j if0 if1 u o :
  wf o ->
  exists o', blk_terminate_condjmp j if0 if1 u o = Ok (tt, o') /\ wf o' /\ grows none none o o' /\
    current_blk o' = None /\ label_to_blk o' = label_to_blk o /\ nvals o' = nvals o /\
    forall g X p m, agree X o' g -> closed o X -> here o p ->
      runs g (p, m) ((if taken j m then if0 else if1, 0%nat), m).
Proof.
  intros W. destruct (terminate_ok (BLK_COND j if0 if1 u) None o W eq_refl)
    as (o3 & E3 & W3 & G3 & C3 & L3 & V3 & U3 & B3).
  exists o3. split_and!; try done. intros g X p m A HX (b & blk & Hc & Hb & ->).
  destruct (B3 _ Hc) as (blk0 & H0 & _ & Hi). assert (blk0 = blk) as -> by congruence.
  set (fin := set_term (BLK_COND j if0 if1 u) None blk) in *.
  destruct (A b fin) as (gb & Hg & _ & He).
  { by apply (closed_cur o). }
  { rewrite Hi. apply list_lookup_insert_eq. by eapply lookup_lt_Some. }
  rewrite He in Hg by done. apply rtc_once. by apply (g_cond g b m fin j if0 if1 u).
Qed.

(** The terminating half of a branch, once the condition is at hand. *)
Definition branches cond (t f : bid) (o o' : ctx) : Prop :=
  wf o' /\ grows none none o o' /\ current_blk o' = None /\ label_to_blk o' = label_to_blk o /\
  nvals o' = nvals o /\
  forall g X p s m n, agree X o' g -> closed o X -> here o p -> R s m -> denotes cond m n ->
    exists m', runs g (p, m) ((if n =? 0 then f else t, 0%nat), m') /\ R s m' /\ keep (nvals o) m m'.

Lemma test_jump_ok cond code j if0 if1 u t f o :
  wf o ->
  (forall s m, R s m -> R s (execs code m)) ->
  (forall w m n, denotes w m n -> denotes w (execs code m) n) ->
  (forall m n, denotes cond m n ->
     (if taken j (execs code m) then if0 else if1) = (if n =? 0 then f else t)) ->
  exists o', (_ ← out_asm code; blk_terminate_condjmp j if0 if1 u) o = Ok (tt, o') /\
    branches cond t f o o'.
Proof.
  intros W HR' HK' HT'. destruct (asm_ok code o W) as (o2 & E2 & W2 & G2 & C2 & L2 & V2 & U2 & S2).
  rewrite (G_step _ _ _ _ _ E2).
  destruct (condjmp_ok j if0 if1 u o2 W2) as (o3 & E3 & W3 & G3 & C3 & L3 & V3 & S3).
  exists o3. split; [done|]. split_and!; try done; try congruence; [by eapply grows_none|].
  intros g X p s m n A HX Hp HR Hd.
  destruct (S2 g X p m) as (p2 & Hp2 & R2); [by eapply agree_grows | done | done |].
  exists (execs code m). split; [etrans; [done|] | split; [auto | by intros v x _; apply HK']].
  rewrite <-(HT' m n Hd). eapply S3; [done | by eapply closed_grows | done].
Qed.

Lemma impl_branch_ok cond t f u o :
  wf o -> exists o', impl_branch cond t f u o = Ok (tt, o') /\ branches cond t f o o'.
Proof.
  intros W. pose proof (view_R cond) as VR. pose proof (view_keeps cond) as VK.
  pose proof (view_taken cond) as VT. unfold impl_branch. destruct (view cond) as [c j | j | fl | c j].
  - apply test_jump_ok; auto. intros m n Hd. rewrite (VT m n Hd). by destruct (n =? 0).
  - destruct (condjmp_ok j t f u o W) as (o' & E & W' & G' & C' & L' & V' & S').
    exists o'. split; [done|]. split_and!; try done. intros g X p s m n A HX Hp HR Hd.
    exists m. split_and!; [| done | apply keep_refl].
    replace (if n =? 0 then f else t) with (if taken j m then t else f)
      by (rewrite (VT m n Hd); by destruct (n =? 0)).
    by eapply S'.
  - destruct (transfer_ok (if fl then t else f) None o W) as (o2 & E2 & W2 & G2 & C2 & L2 & V2 & B2).
    rewrite (G_step _ _ _ _ _ E2). exists o2. split; [done|]. split_and!; try done.
    intros g X p s m n A HX Hp HR Hd. exists (execs (spill o None) m). split_and!.
    + replace (if n =? 0 then f else t) with (if fl then t else f)
        by (rewrite (VT m n Hd); by destruct (n =? 0)).
      by eapply transfer_runs.
    + by apply spill_R.
    + intros v x Hv Hvd. by apply spill_keeps.
  - apply test_jump_ok; auto. intros m n Hd. rewrite (VT m n Hd). by destruct (n =? 0).
Qed.

Lemma branch_ok cond t f o :
  wf o -> clean o t -> live (nvals o) cond ->
  exists o', out_ctrl_branch cond t f o = Ok (tt, o') /\ wf o' /\ grows (eq t) none o o' /\
    current_blk o' = Some t /\ label_to_blk o' = label_to_blk o /\ nvals o' = nvals o /\
    here o' (t, 0%nat) /\
    (forall b, clean o b -> b <> t -> clean o' b) /\
    forall g X p s m n, agree X o' g -> closed o X -> here o p -> R s m -> denotes cond m n ->
      exists m', runs g (p, m) ((if n =? 0 then f else t, 0%nat), m') /\ R s m' /\ keep (nvals o) m m'.
Proof.
  intros W Ht Hl. unfold out_ctrl_branch. rewrite (G_step _ _ o o o) by done.
  destruct (asm_ok (spill o (Some cond)) o W) as (o1 & E1 & W1 & G1 & C1 & L1 & V1 & U1 & S1).
  rewrite (G_step _ _ _ _ _ E1).
  destruct (impl_branch_ok cond t f (likely cond) o1 W1) as (o2 & E2 & W2 & G2 & C2 & L2 & V2 & S2).
  rewrite (G_step _ _ _ _ _ E2). pose proof (grows_none _ _ _ _ _ G1 G2) as G12.
  assert (Ht2 : clean o2 t) by (eapply grows_clean; eauto).
  destruct (current_blk_ok o2 t W2 Ht2) as (o3 & E3 & W3 & G3 & C3 & B3 & L3 & V3 & H3).
  rewrite E3. exists o3. split_and!; try done; try congruence.
  - by eapply grows_none.
  - intros b Hb Hne. assert (Hb2 : clean o2 b) by (eapply grows_clean; eauto).
    split; [rewrite B3; apply Hb2 | rewrite C3; congruence].
  - intros g X p s m n A HX Hp HR Hd. assert (A2 : agree X o2 g) by (by eapply agree_grows).
    destruct (S1 g X p m) as (p1 & Hp1 & R1); [by eapply agree_grows | done | done |].
    destruct (S2 g X p1 s (execs (spill o (Some cond)) m) n) as (m2 & R2 & HR2 & K2); try done.
    + by eapply closed_grows.
    + by apply spill_R.
    + by apply spill_keeps.
    + exists m2. split; [by etrans|]. split; [done|]. intros v x Hv Hvd.
      apply K2; [by rewrite V1 | by apply spill_keeps].
Qed.

(** *** Labels *)

Lemma add_label_ok k o :
  wf o -> label_to_blk o !! k = None ->
  let b := length (blocks o) in
  let o' := set_labels (<[k := b]> (label_to_blk o)) (set_blocks (blocks o ++ [blk_new]) o) in
  wf o' /\ grows none (eq k) o o' /\ clean o' b /\ current_blk o' = current_blk o /\
  (forall p, here o p -> here o' p).
Proof.
  intros W Hk b o'. destruct (blk_new_ok o W) as (_ & W1 & G1 & Hc1 & Hu1 & _ & H1).
  assert (Hb : (b < length (blocks o'))%nat) by (by eapply clean_lt).
  split_and!; [ | | by destruct Hc1 | done | done].
  - split; try apply W1.
    + intros k' b' H. simpl in H. apply lookup_insert_Some in H as [[_ <-] | [_ H]]; [done|].
      by eapply (wf_lbl _ W1).
    + intros k1 k2 b' H H'. simpl in H, H'. apply lookup_insert_Some in H as [[<- <-] | [_ H]];
        apply lookup_insert_Some in H' as [[<- E] | [_ H']]; try done.
      * by destruct (Hu1 k2).
      * subst b'. by destruct (Hu1 k1).
      * by eapply (wf_inj _ W1).
  - split; try apply G1.
    + simpl. by apply insert_subseteq.
    + intros k' b' H. simpl in H. apply lookup_insert_Some in H as [[<- <-] | [_ H]]; [right | by left].
      split; [done | auto].
Qed.

Lemma label_getblk_ok l o :
  wf o ->
  exists b o', label_getblk (Lbl l) o = Ok (b, o') /\ wf o' /\ grows none (eq (Lbl l)) o o' /\
    current_blk o' = current_blk o /\ label_to_blk o' !! Lbl l = Some b /\
    (forall p, here o p -> here o' p) /\
    (label_to_blk o' = label_to_blk o \/
     (label_to_blk o !! Lbl l = None /\ clean o' b /\ label_to_blk o' = <[Lbl l := b]> (label_to_blk o))).
Proof.
  intros W. unfold label_getblk. destruct (label_to_blk o !! Lbl l) as [b|] eqn:Hl.
  - exists b, o. split_and!; auto. eapply grows_weaken; [apply grows_refl | auto | by intros].
  - destruct (add_label_ok (Lbl l) o W Hl) as (W' & G' & Hc & C' & H').
    eexists _, _. split; [done|]. split_and!; auto. simpl. by apply lookup_insert_eq.
Qed.

Lemma new_case_blk_ok c o :
  wf o -> label_to_blk o !! Cse c = None ->
  exists b o', new_case_blk c o = Ok (b, o') /\ wf o' /\ grows none (eq (Cse c)) o o' /\
    current_blk o' = current_blk o /\ label_to_blk o' = <[Cse c := b]> (label_to_blk o) /\
    nvals o' = nvals o /\ (forall p, here o p -> here o' p) /\ clean o' b /\
    (length (blocks o) <= b)%nat.
Proof.
  intros W Hl. destruct (add_label_ok (Cse c) o W Hl) as (W' & G' & Hc & C' & H').
  eexists _, _. split; [done|]. by split_and!.
Qed.

(** ** What an expression's generator promises

    [gens o x P ret]: from [o], generator [x] succeeds with a value, and its
    code takes every source state to the one [P] gives, the value denoting
    [P]'s number; when [ret] holds control comes back. *)
Definition gens (o : ctx) (x : G oval) (P : sst -> mst -> sst -> Z -> Prop) (ret : bool) : Prop :=
  exists v o', x o = Ok (v, o') /\ wf o' /\ grows none none o o' /\ live (nvals o') v /\
    (ret = true -> current_blk o <> None -> current_blk o' <> None) /\
    forall g X, agree X o' g -> closed o X ->
    forall p s m s' n, here o p -> R s m -> P s m s' n ->
      exists p' m', here o' p' /\ runs g (p, m) (p', m') /\ R s' m' /\ denotes v m' n /\
        keep (nvals o) m m'.

Definition gen_ok (x : G oval) (ev : sst -> option (sst * Z)) (ret : bool) : Prop :=
  forall o, wf o -> gens o x (fun s _ s' n => ev s = Some (s', n)) ret.

(** The interface of expressions to statements, with its promise; [returns]
    tells whether control comes back (no call of a [noreturn] function). *)
Class GenExprOk (E : Type) `{!GenExpr insn jcc addr oval sst E} : Type := mk_gen_expr_ok {
  returns : E -> bool;
  expr_ok (e : E) : gen_ok (gen_expr e) (eval e) (returns e) }.

Lemma normalise_ok o x P ret :
  gens o x P ret ->
  gens o (v ← x; out_normalise v) (fun s m s' n => exists n0, P s m s' n0 /\ n = truth n0) ret.
Proof.
  intros (v & o1 & E1 & W1 & G1 & L1 & C1 & S1). unfold out_normalise, gens.
  rewrite (G_step _ _ _ _ _ E1).
  set (o2 := set_nvals (S (nvals o1)) o1).
  assert (W2 : wf o2) by (by destruct W1).
  assert (G2 : grows none none o1 o2).
  { destruct (grows_refl o1) as [? ? ? ? ? ?]. split; try done. simpl. lia. }
  rewrite (G_step _ _ _ _ _ (eq_refl : new_val o1 = Ok (nvals o1, o2))).
  pose proof (normalise_R (nvals o1) v) as NR. pose proof (normalise_keeps (nvals o1) v) as NK.
  pose proof (normalise_value (nvals o1) v) as NV. pose proof (normalise_live (nvals o1) v L1) as NL.
  destruct (normalise (nvals o1) v) as [code r]. simpl in NR, NK, NV, NL.
  destruct (asm_ok code o2 W2) as (o3 & E3 & W3 & G3 & C3 & L3 & V3 & U3 & S3).
  rewrite (G_step _ _ _ _ _ E3). pose proof (grows_none _ _ _ _ _ G2 G3) as G23.
  exists r, o3. split; [done|]. split_and!; [done | by eapply grows_none | by rewrite V3 | |].
  - intros Hr Hc. rewrite C3. simpl. auto.
  - intros g X A HX p s m s' n Hp HR (n0 & HP & ->).
    destruct (S1 g X (agree_grows _ _ _ _ _ _ G23 A) HX p s m s' n0 Hp HR HP) as (p1 & m1 & Hp1 & R1 & HR1 & D1 & K1).
    destruct (S3 g X p1 m1 A) as (p3 & Hp3 & R3).
    { apply (closed_grows _ _ _ _ _ G2), (closed_grows _ _ _ _ _ G1), HX. }
    { done. }
    exists p3, (execs code m1). split_and!; [done | by etrans | auto | auto |].
    eapply keep_trans; [apply (gr_vals _ _ _ _ G1) | done |]. intros w n Hw Hd. auto.
Qed.

(** ** Two arms that meet *)

(** The common shape of [op_shortcircuit] and [gen_expr_if] after the branch;
    [swap] says which arm is [out_ctrl_merge]'s first. *)
Definition arms (swap : bool) (x2 landing : bid) (gen1 gen2 : G oval) : G oval :=
  v1 ← gen1;
  f1 ← out_ctrl_transfer landing (Some v1);
  _ ← out_current_blk x2;
  v2 ← gen2;
  f2 ← out_ctrl_transfer landing (Some v2);
  _ ← out_current_blk landing;
  if swap then out_ctrl_merge f2 f1 else out_ctrl_merge f1 f2.

(** What [out_ctrl_merge] does to two blocks and leaves of the rest. *)
Definition merged (o : ctx) (a b : bid) (o' : ctx) : Prop :=
  exists ba bb pa pb, let k := nvals o in
    blocks o !! a = Some ba /\ phi_val ba = Some pa /\ blocks o !! b = Some bb /\ phi_val bb = Some pb /\
    (forall c, c <> a -> c <> b -> blocks o' !! c = blocks o !! c) /\
    blocks o' !! a = Some (blk_add_insns (phi_move k pa) ba) /\
    blocks o' !! b = Some (blk_add_insns (phi_move k pb) bb) /\
    current_blk o' = current_blk o /\ label_to_blk o' = label_to_blk o /\ nvals o' = S k /\
    epilogue_blk o' = epilogue_blk o /\ last_used_blk o' = current_blk o.

Lemma merge_into_eq k b o blk phi :
  blocks o !! b = Some blk -> phi_val blk = Some phi ->
  merge_into k b o = Ok (tt, set_blocks (alter (blk_add_insns (phi_move k phi)) b (blocks o))
    (set_current (Some b) (set_used (Some b) o))).
Proof.
  intros Hb Hp. unfold merge_into. rewrite (G_step _ _ o o o) by done. by rewrite Hb, Hp.
Qed.

Lemma merge_ok a b ba bb pa pb l o :
  blocks o !! a = Some ba -> phi_val ba = Some pa -> blocks o !! b = Some bb -> phi_val bb = Some pb ->
  a <> b -> current_blk o = Some l ->
  exists o', out_ctrl_merge (Some a) (Some b) o = Ok (merge_val (nvals o), o') /\ merged o a b o'.
Proof.
  intros Ha Hpa Hb Hpb Hne Hc. unfold out_ctrl_merge. rewrite (G_step _ _ o o o) by done. rewrite Hc.
  set (o1 := set_nvals (S (nvals o)) o).
  rewrite (G_step _ _ _ _ _ (eq_refl : new_val o = Ok (nvals o, o1))).
  rewrite (G_step _ _ _ _ _ (merge_into_eq _ a o1 ba pa Ha Hpa)).
  set (o2 := set_blocks _ _). assert (Hb2 : blocks o2 !! b = Some bb).
  { simpl. by rewrite list_lookup_alter_ne. }
  rewrite (G_step _ _ _ _ _ (merge_into_eq _ b o2 bb pb Hb2 Hpb)).
  eexists. split; [done|]. exists ba, bb, pa, pb. simpl. split_and!; try done.
  - intros c Hca Hcb. by rewrite !list_lookup_alter_ne.
  - rewrite list_lookup_alter_ne, list_lookup_alter_eq, Ha by done. done.
  - rewrite list_lookup_alter_eq. by rewrite list_lookup_alter_ne, Hb by done.
Qed.

Lemma merged_sym o a b o' : merged o a b o' -> merged o b a o'.
Proof.
  intros (ba & bb & pa & pb & H1 & H2 & H3 & H4 & H5 & H6 & H7 & H8). exists bb, ba, pb, pa. naive_solver.
Qed.

(** What was there before the arms were ended is as it was, as far as it was
    open then. *)
Lemma merged_later o0 o a b o' T C c blk :
  grows T C o0 o -> merged o a b o' -> (c = a \/ c = b -> type blk = BLK_UNINIT) ->
  blocks o0 !! c = Some blk -> exists blk', blocks o' !! c = Some blk' /\ later blk blk'.
Proof.
  intros Gr (ba & bb & pa & pb & Ha & _ & Hb & _ & Ho & Ha' & Hb' & _) Hu Hc.
  destruct (gr_later _ _ _ _ Gr _ _ Hc) as (blk1 & H1 & [P1 L1]).
  destruct (decide (c = a)) as [->|Hca]; [|destruct (decide (c = b)) as [->|Hcb]].
  - eexists. split; [done|]. split; [|intros Ht; by destruct (Ht (Hu (or_introl eq_refl)))].
    simpl. rewrite Ha in H1. injection H1 as <-. etrans; [done | by eexists].
  - eexists. split; [done|]. split; [|intros Ht; by destruct (Ht (Hu (or_intror eq_refl)))].
    simpl. rewrite Hb in H1. injection H1 as <-. etrans; [done | by eexists].
  - rewrite Ho by done. exists blk1. by split.
Qed.

Lemma merged_agree o0 o a b o' T C X g :
  grows T C o0 o -> merged o a b o' ->
  (forall c blk, c = a \/ c = b -> ~ X c -> blocks o0 !! c = Some blk -> type blk = BLK_UNINIT) ->
  agree X o' g -> agree X o0 g.
Proof.
  intros Gr M Hu A c blk HX Hc.
  destruct (merged_later _ _ _ _ _ _ _ c blk Gr M) as (blk' & Hc' & L); [naive_solver | done |].
  destruct (A c blk' HX Hc') as (gb & Hg & Lg). eauto using later_trans.
Qed.

Lemma agree_more (X X' : bid -> Prop) o g : (forall b, X b -> X' b) -> agree X o g -> agree X' o g.
Proof. intros H A b blk HX. apply A. auto. Qed.

Lemma merged_wf o a b o' l :
  wf o -> merged o a b o' -> current_blk o = Some l ->
  (forall c blk, c = a \/ c = b -> blocks o !! c = Some blk -> type blk <> BLK_UNINIT) -> wf o'.
Proof.
  intros W (ba & bb & pa & pb & Ha & Hpa & Hb & Hpb & Ho & Ha' & Hb' & Hc & Hl & _ & _ & Hu) Hcur Ht.
  assert (Hc' : forall c blk, blocks o' !! c = Some blk -> type blk = BLK_UNINIT -> blocks o !! c = Some blk).
  { intros c blk H Hty. destruct (decide (c = a)) as [->|]; [|destruct (decide (c = b)) as [->|]].
    - rewrite Ha' in H. injection H as <-. by destruct (Ht a ba (or_introl eq_refl) Ha).
    - rewrite Hb' in H. injection H as <-. by destruct (Ht b bb (or_intror eq_refl) Hb).
    - by rewrite Ho in H. }
  split.
  - intros c blk H Hty. eapply wf_open; [done | by apply Hc' | done].
  - intros c H. rewrite Hc in H. destruct (wf_cur _ W _ H) as (blk & Hbk & Hop). exists blk. split; [|done].
    rewrite Ho; [done | |]; intros ->; [eapply (Ht a) | eapply (Ht b)]; eauto; by destruct Hop.
  - rewrite Hu, Hcur. by eexists.
  - intros k c H. rewrite Hl in H. pose proof (wf_lbl _ W _ _ H) as Hlt.
    destruct (lookup_lt_is_Some_2 _ _ Hlt) as [blk Hbk].
    enough (is_Some (blocks o' !! c)) by (by eapply lookup_lt_is_Some_1).
    destruct (decide (c = a)) as [->|]; [by eexists | destruct (decide (c = b)) as [->|]; [by eexists|]].
    rewrite Ho by done. by eexists.
  - intros k k' c. rewrite Hl. apply (wf_inj _ W).
Qed.

Lemma merged_grows T C o0 o a b o' :
  grows T C o0 o -> merged o a b o' ->
  (forall c blk, c = a \/ c = b -> blocks o0 !! c = Some blk -> type blk = BLK_UNINIT) ->
  (forall c, c = a \/ c = b -> (c < length (blocks o0))%nat -> current_blk o0 <> Some c -> T c) ->
  grows T C o0 o'.
Proof.
  intros Gr M Hu HT. pose proof M as (ba & bb & pa & pb & _ & _ & _ & _ & Ho & _ & _ & Hc & Hl & Hv & He & _).
  split.
  - intros c blk H. eapply merged_later; eauto.
  - rewrite Hl. apply Gr.
  - rewrite Hl. apply Gr.
  - pose proof (gr_vals _ _ _ _ Gr). lia.
  - rewrite He. apply Gr.
  - intros c Hlt Hcur HnT. destruct (gr_same _ _ _ _ Gr c Hlt Hcur HnT) as [E E'].
    rewrite Hc. split; [|done]. rewrite Ho; [done | |]; intros ->; eauto.
Qed.

(** Leaving an arm: what its block was given last, and the jump. *)
Lemma exit_runs (g : list block) X o a (blk fin : block) code l m :
  agree X o g -> ~ X a -> blocks o !! a = Some fin -> type fin = BLK_NEXT_BLOCK l ->
  insns fin = insns blk ++ code ->
  runs g ((a, length (insns blk)), m) ((l, 0%nat), execs code m).
Proof.
  intros A HX Ha Ht Hi. destruct (A a fin HX Ha) as (gb & Hg & _ & E). rewrite E in Hg by (by rewrite Ht).
  etrans.
  - apply (runs_code g a fin _ code); [done|]. intros j i Hj. rewrite Hi, lookup_app_r by lia.
    by replace (length (insns blk) + j - length (insns blk))%nat with j by lia.
  - rewrite <-length_app, <-Hi. apply rtc_once. by eapply g_next.
Qed.

Lemma keep_mono k k' m m' : (k <= k')%nat -> keep k' m m' -> keep k m m'.
Proof. intros Hk H v n Hl Hd. apply H; [by eapply live_mono | done]. Qed.

(** An arm, from the context it starts in to the one its jump leaves. *)
Record arm (o : ctx) (l : bid) (v : oval) (P : sst -> mst -> sst -> Z -> Prop) (o1 o2 : ctx) : Prop := {
  arm_wf : wf o1; arm_wf2 : wf o2; arm_grows : grows none none o o1; arm_grows2 : grows none none o1 o2;
  arm_live : live (nvals o1) v; arm_cur : current_blk o2 = None;
  arm_end : forall a, current_blk o1 = Some a -> exists blk blk', blocks o1 !! a = Some blk /\
    blocks o2 !! a = Some blk' /\ insns blk' = insns blk ++ spill o1 (Some v) /\
    type blk' = BLK_NEXT_BLOCK l /\ phi_val blk' = Some v;
  arm_runs : forall g X, agree X o1 g -> closed o X ->
    forall p s m s' n, here o p -> R s m -> P s m s' n ->
      exists p' m', here o1 p' /\ runs g (p, m) (p', m') /\ R s' m' /\ denotes v m' n /\ keep (nvals o) m m' }.

Lemma arm_ok o l x P ret :
  wf o -> gens o x P ret ->
  exists v o1 o2, x o = Ok (v, o1) /\ out_ctrl_transfer l (Some v) o1 = Ok (current_blk o1, o2) /\
    arm o l v P o1 o2 /\ (ret = true -> current_blk o <> None -> current_blk o1 <> None).
Proof.
  intros W (v & o1 & E1 & W1 & G1 & L1 & C1 & S1).
  destruct (transfer_ok l (Some v) o1 W1) as (o2 & E2 & W2 & G2 & C2 & L2 & V2 & B2).
  exists v, o1, o2. split_and!; try done.
Qed.

(** What an arm's code does when the block it ends in has [code] after its
    last instruction and goes to [l]. *)
Lemma arm_exit o l v P o1 o2 o' g X a blk fin code p s m s' n :
  arm o l v P o1 o2 -> closed o X -> agree X o1 g -> agree X o' g -> ~ X a ->
  here o p -> R s m -> P s m s' n ->
  current_blk o1 = Some a -> blocks o1 !! a = Some blk ->
  blocks o' !! a = Some fin -> type fin = BLK_NEXT_BLOCK l ->
  insns fin = insns blk ++ spill o1 (Some v) ++ code ->
  exists m1, let m2 := execs (spill o1 (Some v)) m1 in
    runs g (p, m) ((l, 0%nat), execs code m2) /\ R s' m2 /\ denotes v m2 n /\ keep (nvals o) m m2.
Proof.
  intros Ar HX A1 A' HXa Hp HR HP Hc Hb Hf Ht Hi.
  destruct (arm_runs _ _ _ _ _ _ Ar g X A1 HX p s m s' n Hp HR HP) as (p1 & m1 & Hp1 & R1 & HR1 & D1 & K1).
  exists m1. simpl. split_and!.
  - etrans; [exact R1|]. destruct Hp1 as (a' & blk' & Hc' & Hb' & ->).
    assert (a' = a) as -> by congruence. assert (blk' = blk) as -> by congruence.
    rewrite <-execs_app. by eapply exit_runs.
  - by apply spill_R.
  - apply spill_keeps; [apply Ar | done].
  - eapply keep_trans; [apply (gr_vals _ _ _ _ (arm_grows _ _ _ _ _ _ Ar)) | exact K1 |].
    intros w x Hw Hd. by apply spill_keeps.
Qed.
End Laws.

Arguments returns {insn jcc addr oval sst mst _ R denotes live E _ _} e.
Arguments expr_ok {insn jcc addr oval sst mst _ R denotes live E _ _} e.
