(* ===== verification/FlowExpr.v ===== *)
(** * Expressions that branch generate what they mean

    [&&], [||], [?:] and the comma operator, over expressions that do
    ([gen_cexpr] of Flow against [eval_cexpr]). *)

From S2P Require Import Prelude Blk Flow FlowLaws.
From stdpp Require Import relations.
Local Open Scope Z_scope.

Section FlowExpr.
Context {insn jcc addr oval sst mst : Type}.
Context `{!Backend insn jcc addr oval} `{!Machine insn jcc addr mst}.
Context (R : sst -> mst -> Prop) (denotes : oval -> mst -> Z -> Prop).
Context (live : nat -> oval -> Prop) (returned : mst -> Z -> Prop).
Context `{Laws : !BackendOk R denotes live returned}.

Local Notation ctx := (out_ctx insn jcc addr oval).
Local Notation G := (G insn jcc addr oval).
Local Notation runs g := (rtc (gstep (mst := mst) g)).
Local Notation gens := (gens R denotes live).
Local Notation gen_ok := (gen_ok R denotes live).
Local Notation arm := (arm R denotes live).
Local Notation keep := (keep denotes live).

(** Control reaches the place [o'] goes on at, with the value. *)
Definition arrives (k : nat) (g : list (out_blk insn jcc addr oval)) (o' : ctx) (v : oval) (p : pc)
    (m : mst) (s' : sst) (n : Z) : Prop :=
  exists p' m', here o' p' /\ runs g (p, m) (p', m') /\ R s' m' /\ denotes v m' n /\ keep k m m'.

Lemma open_before T C (o o' : ctx) b blk :
  grows T C o o' -> wf o' -> current_blk o' = Some b -> blocks o !! b = Some blk ->
  type blk = BLK_UNINIT.
Proof.
  intros Gr W Hc Hb. destruct (gr_later _ _ _ _ Gr _ _ Hb) as (blk' & Hb' & _ & E).
  destruct (wf_cur _ W _ Hc) as (blk2 & H2 & Ht & _).
  destruct (type blk) eqn:Hty; try done; rewrite E in Hb' by done; congruence.
Qed.

Lemma closed_stays T C (o o' : ctx) b blk :
  grows T C o o' -> blocks o !! b = Some blk -> type blk <> BLK_UNINIT -> blocks o' !! b = Some blk.
Proof. intros Gr Hb Ht. destruct (gr_later _ _ _ _ Gr _ _ Hb) as (blk' & Hb' & _ & E). by rewrite E in Hb'. Qed.

(** *** Two arms, one after the other

    [o] to [o2] is the first, from the current block; [o3] to [o5] the second,
    from [x2]; in [o6] the block they meet at is current. *)
Section Arms.
Context (o o1 o2 o3 o4 o5 o6 : ctx) (x2 landing : bid) (v1 v2 : oval).
Context (P1 P2 : sst -> mst -> sst -> Z -> Prop).
Hypothesis Ar1 : arm o landing v1 P1 o1 o2.
Hypothesis G23 : grows (eq x2) (fun _ => False) o2 o3.
Hypothesis H3 : here o3 (x2, 0%nat).
Hypothesis Ar2 : arm o3 landing v2 P2 o4 o5.
Hypothesis W6 : wf o6.
Hypothesis G56 : grows (eq landing) (fun _ => False) o5 o6.
Hypothesis B6 : blocks o6 = blocks o5.
Hypothesis C6 : current_blk o6 = Some landing.
Hypothesis Hl6 : blocks o6 !! landing = Some blk_new.

Definition meets (v : oval) (o' : ctx) : Prop :=
  wf o' /\ grows (fun b => b = x2 \/ b = landing) (fun _ => False) o o' /\ live (nvals o') v /\
  current_blk o' = Some landing /\
  forall g X, agree X o' g -> closed o X -> forall s m s' n, R s m ->
    (forall p, here o p -> P1 s m s' n -> arrives (nvals o) g o' v p m s' n) /\
    (P2 s m s' n -> arrives (nvals o) g o' v (x2, 0%nat) m s' n).

Lemma arms_01 : grows (fun _ => False) (fun _ => False) o o1. Proof using Ar1. apply Ar1. Qed.
Lemma arms_34 : grows (fun _ => False) (fun _ => False) o3 o4. Proof using Ar2. apply Ar2. Qed.
Lemma arms_46 : grows (eq landing) (fun _ => False) o4 o6.
Proof using Ar2 G56. eapply grows_none; [apply Ar2 | done]. Qed.
Lemma arms_13 : grows (eq x2) (fun _ => False) o1 o3.
Proof using Ar1 G23. eapply grows_none; [apply Ar1 | done]. Qed.
Lemma arms_36 : grows (eq landing) (fun _ => False) o3 o6.
Proof using Ar2 G56. eapply grows_none; [apply Ar2 | apply arms_46]. Qed.
Lemma arms_16 : grows (fun b => x2 = b \/ landing = b) (fun _ => False \/ False) o1 o6.
Proof using Ar1 Ar2 G23 G56. eapply grows_trans; [apply arms_13 | apply arms_36]. Qed.
Lemma arms_26 : grows (fun b => x2 = b \/ landing = b) (fun _ => False \/ False) o2 o6.
Proof using Ar2 G23 G56. eapply grows_trans; [done | apply arms_36]. Qed.
Lemma arms_03 : grows (eq x2) (fun _ => False) o o3.
Proof using Ar1 G23. eapply grows_none; [apply Ar1 | apply arms_13]. Qed.
Lemma arms_06 : grows (fun b => b = x2 \/ b = landing) (fun _ => False) o o6.
Proof using Ar1 Ar2 G23 G56.
  eapply grows_weaken; [apply (grows_trans _ _ _ _ _ _ _ arms_03 arms_36) | |].
  - intros b _ _ [<- | <-]; auto.
  - by intros c [[] | []].
Qed.

(** Where each arm left its block. *)
Lemma arm1_end a :
  current_blk o1 = Some a -> exists blk fin, blocks o1 !! a = Some blk /\ blocks o6 !! a = Some fin /\
    insns fin = insns blk ++ spill o1 (Some v1) /\ type fin = BLK_NEXT_BLOCK landing /\ phi_val fin = Some v1.
Proof using Ar1 Ar2 G23 G56.
  intros Ca. destruct (arm_end _ _ _ _ _ _ _ _ _ Ar1 a Ca) as (blk & fin & H1 & H2 & Hi & Ht & Hp).
  exists blk, fin. split_and!; try done. eapply closed_stays; [apply arms_26 | done | by rewrite Ht].
Qed.

Lemma arm2_end b :
  current_blk o4 = Some b -> exists blk fin, blocks o4 !! b = Some blk /\ blocks o6 !! b = Some fin /\
    insns fin = insns blk ++ spill o4 (Some v2) /\ type fin = BLK_NEXT_BLOCK landing /\ phi_val fin = Some v2.
Proof using Ar2 B6.
  intros Cb. destruct (arm_end _ _ _ _ _ _ _ _ _ Ar2 b Cb) as (blk & fin & H1 & H2 & Hi & Ht & Hp).
  exists blk, fin. rewrite B6. by split_and!.
Qed.

(** Only the first arm comes back: its value is the value. *)
Lemma meets_first a : current_blk o1 = Some a -> current_blk o4 = None -> meets v1 o6.
Proof using All.
  intros Ca Cb. destruct (arm1_end a Ca) as (blk & fin & Hb & Hf & Hi & Ht & Hp).
  assert (W1 : wf o1) by apply Ar1.
  split_and!; [done | apply arms_06 | | done |].
  - eapply live_mono; [|apply Ar1]. apply (gr_vals _ _ _ _ arms_16).
  - intros g X A HX s m s' n HR. split.
    + intros p Hp' HP. assert (HXa : ~ X a).
      { eapply (closed_cur o1); [done | eapply closed_grows; [apply arms_01 | done] | done]. }
      destruct (arm_exit R denotes live returned o landing v1 P1 o1 o2 o6 g X a blk fin [] p s m s' n)
        as (m1 & R1 & HR1 & D1 & K1); try done.
      { eapply agree_grows; [apply arms_16 | done]. }
      { by rewrite app_nil_r. }
      eexists _, _. split_and!; [| exact R1 | done..]. by exists landing, blk_new.
    + intros HP. destruct (arm_runs _ _ _ _ _ _ _ _ _ Ar2 g X) with (x2, 0%nat) s m s' n
        as (p' & _ & (b & _ & Hc & _) & _); try done; [| | congruence].
      * eapply agree_grows; [apply arms_46 | done].
      * eapply closed_grows; [apply arms_03 | done].
Qed.

(** Only the second does. *)
Lemma meets_second b : current_blk o1 = None -> current_blk o4 = Some b -> meets v2 o6.
Proof using All.
  intros Ca Cb. destruct (arm2_end b Cb) as (blk & fin & Hb & Hf & Hi & Ht & Hp).
  assert (W4 : wf o4) by apply Ar2.
  split_and!; [done | apply arms_06 | | done |].
  - eapply live_mono; [|apply Ar2]. apply (gr_vals _ _ _ _ arms_46).
  - intros g X A HX s m s' n HR. assert (HX3 : closed o3 X) by (eapply closed_grows; [apply arms_03 | done]).
    assert (A4 : agree X o4 g) by (eapply agree_grows; [apply arms_46 | done]). split.
    + intros p Hp' HP. destruct (arm_runs _ _ _ _ _ _ _ _ _ Ar1 g X) with p s m s' n
        as (p' & _ & (a & _ & Hc & _) & _); try done; [|congruence].
      eapply agree_grows; [apply arms_16 | done].
    + intros HP. assert (HXb : ~ X b).
      { eapply (closed_cur o4); [done | eapply closed_grows; [apply arms_34 | done] | done]. }
      destruct (arm_exit R denotes live returned o3 landing v2 P2 o4 o5 o6 g X b blk fin []
        (x2, 0%nat) s m s' n) as (m1 & R1 & HR1 & D1 & K1); try done.
      { by rewrite app_nil_r. }
      eexists _, _. split_and!; [| exact R1 | done | done |]; [by exists landing, blk_new|].
      eapply keep_mono; [done | apply (gr_vals _ _ _ _ arms_03) | done].
Qed.

(** The arms end in different blocks. *)
Lemma arms_apart a b : current_blk o1 = Some a -> current_blk o4 = Some b -> a <> b.
Proof using Ar1 G23 Ar2.
  intros Ca Cb ->. destruct (arm_end _ _ _ _ _ _ _ _ _ Ar1 b Ca) as (blk & fin & _ & H2 & _ & Ht & _).
  assert (G24 : grows (eq x2) (fun _ => False) o2 o4).
  { eapply grows_weaken; [apply (grows_trans _ _ _ _ _ _ _ G23 arms_34) | |].
    - by intros c _ _ [|[]].
    - by intros c [[]|[]]. }
  assert (W4 : wf o4) by apply Ar2.
  pose proof (open_before _ _ _ _ _ _ G24 W4 Cb H2) as Hu.
  rewrite Hu in Ht. done.
Qed.

(** Both come back: each puts its value in the common register. *)
Section Both.
Context (a b : bid) (o7 : ctx).
Hypothesis Ca : current_blk o1 = Some a.
Hypothesis Cb : current_blk o4 = Some b.
Hypothesis M : merged o6 a b o7.

(** Before it ends, each arm's block is open. *)
Lemma both_open_1 c blk : c = a \/ c = b -> blocks o1 !! c = Some blk -> type blk = BLK_UNINIT.
Proof using All.
  assert (W1 : wf o1) by apply Ar1. assert (W4 : wf o4) by apply Ar2.
  intros [-> | ->] Hc.
  - destruct (wf_cur _ W1 _ Ca) as (blk' & H & Hu & _). congruence.
  - eapply open_before; [|exact W4 | exact Cb | exact Hc].
    eapply (grows_trans _ _ _ _ _ _ _ arms_13 arms_34).
Qed.

Lemma both_open_0 c blk : c = a \/ c = b -> blocks o !! c = Some blk -> type blk = BLK_UNINIT.
Proof using All.
  intros H Hc. destruct (gr_later _ _ _ _ arms_01 _ _ Hc) as (blk' & Hc' & _ & E).
  pose proof (both_open_1 c blk' H Hc') as Hu.
  destruct (type blk) eqn:Ht; try done; rewrite E in Hu by done; congruence.
Qed.

(** The arms' blocks in the end, and the place they meet. *)
Lemma both_fin1 : exists blk fin, blocks o1 !! a = Some blk /\ blocks o7 !! a = Some fin /\
  type fin = BLK_NEXT_BLOCK landing /\ insns fin = insns blk ++ spill o1 (Some v1) ++ phi_move (nvals o6) v1.
Proof using All.
  destruct (arm1_end a Ca) as (blk1 & fin1 & Hb1 & Hf1 & Hi1 & Ht1 & Hp1).
  destruct M as (ba & bb & pa & pb & Ma & Mpa & Mb & Mpb & Mo & Ma' & _).
  assert (ba = fin1) as -> by congruence. assert (pa = v1) as -> by congruence.
  eexists _, _. split_and!; [exact Hb1 | exact Ma' | done |]. simpl. by rewrite Hi1, <-app_assoc.
Qed.

Lemma both_fin2 : exists blk fin, blocks o4 !! b = Some blk /\ blocks o7 !! b = Some fin /\
  type fin = BLK_NEXT_BLOCK landing /\ insns fin = insns blk ++ spill o4 (Some v2) ++ phi_move (nvals o6) v2.
Proof using All.
  destruct (arm2_end b Cb) as (blk2 & fin2 & Hb2 & Hf2 & Hi2 & Ht2 & Hp2).
  destruct M as (ba & bb & pa & pb & Ma & Mpa & Mb & Mpb & Mo & _ & Mb' & _).
  assert (bb = fin2) as -> by congruence. assert (pb = v2) as -> by congruence.
  eexists _, _. split_and!; [exact Hb2 | exact Mb' | done |]. simpl. by rewrite Hi2, <-app_assoc.
Qed.

Lemma both_closed c blk : c = a \/ c = b -> blocks o6 !! c = Some blk -> type blk <> BLK_UNINIT /\ phi_val blk <> None.
Proof using All.
  destruct (arm1_end a Ca) as (blk1 & fin1 & _ & Hf1 & _ & Ht1 & Hp1).
  destruct (arm2_end b Cb) as (blk2 & fin2 & _ & Hf2 & _ & Ht2 & Hp2).
  intros [-> | ->] Hc; [assert (blk = fin1) as -> by congruence | assert (blk = fin2) as -> by congruence];
    rewrite ?Ht1, ?Ht2, ?Hp1, ?Hp2; done.
Qed.

Lemma both_lands : here o7 (landing, 0%nat).
Proof using All.
  destruct M as (_ & _ & _ & _ & _ & _ & _ & _ & Mo & _ & _ & Mc & _).
  exists landing, blk_new. split_and!; [congruence | | done].
  rewrite Mo; [done | |]; intros E.
  - by destruct (both_closed landing blk_new (or_introl E) Hl6).
  - by destruct (both_closed landing blk_new (or_intror E) Hl6).
Qed.

(** After an arm's own code its value moves to the common register. *)
Lemma both_value k v s' m n p g m0 :
  live (nvals o6) v -> (k <= nvals o6)%nat ->
  runs g (p, m0) ((landing, 0%nat), execs (phi_move (nvals o6) v) m) ->
  R s' m -> denotes v m n -> keep k m0 m ->
  arrives k g o7 (merge_val (nvals o6)) p m0 s' n.
Proof using All.
  intros Hl Hk Hr HR Hd Hkp. eexists _, _. split_and!; [exact both_lands | exact Hr | | |].
  - by apply (phi_R (BackendOk := Laws)).
  - by apply (phi_value (BackendOk := Laws)).
  - intros w x Hw Hdw. apply (phi_keeps (BackendOk := Laws)); [by eapply live_mono | by apply Hkp].
Qed.

Lemma both_first g X s m s' n p :
  agree X o7 g -> closed o X -> R s m -> here o p -> P1 s m s' n ->
  arrives (nvals o) g o7 (merge_val (nvals o6)) p m s' n.
Proof using All.
  intros A HX HR Hp HP. destruct both_fin1 as (blk & fin & Hb & Hf & Ht & Hi).
  assert (W1 : wf o1) by apply Ar1. assert (HXa : ~ X a).
  { eapply (closed_cur o1); [done | eapply closed_grows; [apply arms_01 | done] | done]. }
  assert (A1 : agree X o1 g).
  { eapply merged_agree; [apply arms_16 | exact M | | done]. intros c blk' Hc _. by apply both_open_1. }
  destruct (arm_exit R denotes live returned o landing v1 P1 o1 o2 o7 g X a blk fin
    (phi_move (nvals o6) v1) p s m s' n Ar1 HX A1 A HXa Hp HR HP Ca Hb Hf Ht Hi)
    as (m1 & R1 & HR1 & D1 & K1).
  eapply both_value; [| apply (gr_vals _ _ _ _ arms_06) | exact R1 | done | done | done].
  eapply live_mono; [apply (gr_vals _ _ _ _ arms_16) | apply Ar1].
Qed.

Lemma both_second g X s m s' n :
  agree X o7 g -> closed o X -> R s m -> P2 s m s' n ->
  arrives (nvals o) g o7 (merge_val (nvals o6)) (x2, 0%nat) m s' n.
Proof using All.
  intros A HX HR HP. destruct both_fin2 as (blk & fin & Hb & Hf & Ht & Hi).
  assert (W4 : wf o4) by apply Ar2. set (X' c := X c \/ c = a).
  assert (HX3 : closed o3 X').
  { intros c [Hc | ->]; [by eapply closed_grows; [apply arms_03 | exact HX | exact Hc]|].
    destruct (arm_end _ _ _ _ _ _ _ _ _ Ar1 a Ca) as (blk1 & fin1 & _ & H2 & _ & Ht1 & _).
    exists fin1. split; [|by rewrite Ht1]. eapply closed_stays; [exact G23 | done | by rewrite Ht1]. }
  assert (HXb : ~ X' b) by (eapply (closed_cur o4); [done | eapply closed_grows; [apply arms_34 | done] | done]).
  assert (A' : agree X' o7 g) by (by eapply agree_more; [|exact A]; left).
  assert (A4 : agree X' o4 g).
  { eapply merged_agree; [apply arms_46 | exact M | | done].
    intros c blk' [-> | ->] HnX Hc; [by destruct HnX; right|].
    destruct (wf_cur _ W4 _ Cb) as (blk'' & H & Hu & _). congruence. }
  destruct (arm_exit R denotes live returned o3 landing v2 P2 o4 o5 o7 g X' b blk fin
    (phi_move (nvals o6) v2) (x2, 0%nat) s m s' n Ar2 HX3 A4 A' HXb H3 HR HP Cb Hb Hf Ht Hi)
    as (m1 & R1 & HR1 & D1 & K1).
  eapply both_value; [| apply (gr_vals _ _ _ _ arms_06) | exact R1 | done | done |].
  - eapply live_mono; [apply (gr_vals _ _ _ _ arms_46) | apply Ar2].
  - eapply keep_mono; [done | apply (gr_vals _ _ _ _ arms_03) | done].
Qed.

Lemma meets_both : meets (merge_val (nvals o6)) o7.
Proof using All.
  pose proof M as (_ & _ & _ & _ & _ & _ & _ & _ & _ & _ & _ & Mc & _ & Mv & _).
  split_and!.
  - apply (merged_wf o6 a b o7 landing W6 M C6). intros c blk Hc Hb. by apply (both_closed c).
  - eapply merged_grows; [apply arms_06 | exact M | apply both_open_0 |].
    intros c [-> | ->] Hlt Hcur.
    + destruct (gr_same _ _ _ _ arms_01 a Hlt Hcur) as [_ []]; [auto | done].
    + destruct (decide (b = x2)) as [|Hx]; [auto|].
      destruct (gr_same _ _ _ _ arms_03 b Hlt Hcur) as [_ Hc3]; [congruence|].
      destruct (gr_same _ _ _ _ arms_34 b) as [_ []]; [| done | auto | done].
      pose proof (gr_len _ _ _ _ arms_03). lia.
  - rewrite Mv. apply (phi_live (BackendOk := Laws)).
  - congruence.
  - intros g X A HX s m s' n HR. split.
    + intros p Hp HP. by eapply both_first.
    + intros HP. by eapply both_second.
Qed.
End Both.
End Arms.

(** The arms of [arms], whichever of them comes back. *)
Lemma arms_ok swap x1 x2 landing gen1 gen2 o P1 P2 r1 r2 :
  wf o -> current_blk o = Some x1 -> clean o x2 -> clean o landing -> x2 <> landing ->
  gens o gen1 P1 r1 -> (forall o', wf o' -> gens o' gen2 P2 r2) -> r1 || r2 = true ->
  exists v o', arms swap x2 landing gen1 gen2 o = Ok (v, o') /\ meets o x2 landing P1 P2 v o'.
Proof using Laws.
  intros W Hx1 Hx2 Hl Hne Hg1 Hg2 Hr. unfold arms.
  destruct (arm_ok R denotes live o landing gen1 P1 r1 W Hg1) as (v1 & o1 & o2 & E1 & E2 & Ar1 & C1).
  rewrite (G_step _ _ _ _ _ E1), (G_step _ _ _ _ _ E2).
  assert (G02 : grows (fun _ => False) (fun _ => False) o o2) by (eapply grows_none; apply Ar1).
  assert (Hx2' : clean o2 x2) by (eapply grows_clean; eauto).
  destruct (current_blk_ok o2 x2 (arm_wf2 _ _ _ _ _ _ _ _ _ Ar1) Hx2')
    as (o3 & E3 & W3 & G3 & C3 & B3 & L3 & V3 & H3).
  rewrite (G_step _ _ _ _ _ E3). pose proof (grows_none _ _ _ _ _ G02 G3) as G03.
  destruct (arm_ok R denotes live o3 landing gen2 P2 r2 W3 (Hg2 o3 W3))
    as (v2 & o4 & o5 & E4 & E5 & Ar2 & C4).
  rewrite (G_step _ _ _ _ _ E4), (G_step _ _ _ _ _ E5).
  assert (G35 : grows (fun _ => False) (fun _ => False) o3 o5) by (eapply grows_none; apply Ar2).
  assert (Hl5 : clean o5 landing).
  { eapply grows_clean; [exact G35 | | auto]. eapply (grows_clean _ _ _ _ _ G03); [done | congruence]. }
  destruct (current_blk_ok o5 landing (arm_wf2 _ _ _ _ _ _ _ _ _ Ar2) Hl5)
    as (o6 & E6 & W6 & G6 & C6 & B6 & L6 & V6 & H6).
  rewrite (G_step _ _ _ _ _ E6).
  assert (Hl6 : blocks o6 !! landing = Some blk_new) by (rewrite B6; apply Hl5).
  assert (Hr' : current_blk o1 <> None \/ current_blk o4 <> None).
  { destruct r1; [left; apply C1; [done | congruence] | right; apply C4; [done | congruence]]. }
  destruct (current_blk o1) as [a|] eqn:Ca; destruct (current_blk o4) as [b|] eqn:Cb; [| | |by destruct Hr'].
  - pose proof (arms_apart o o1 o2 o3 o4 o5 x2 landing v1 v2 P1 P2 Ar1 G3 Ar2 a b Ca Cb) as Hab.
    destruct (arm1_end o o1 o2 o3 o4 o5 o6 x2 landing v1 v2 P1 P2 Ar1 G3 Ar2 G6 a Ca)
      as (_ & fa & _ & Ha & _ & _ & Hpa).
    destruct (arm2_end o3 o4 o5 o6 landing v2 P2 Ar2 B6 b Cb) as (_ & fb & _ & Hb & _ & _ & Hpb).
    destruct swap.
    + destruct (merge_ok b a fb fa v2 v1 landing o6 Hb Hpb Ha Hpa (not_eq_sym Hab) C6) as (o7 & E7 & M).
      rewrite E7. eexists _, _. split; [done|]. apply merged_sym in M.
      by apply (meets_both o o1 o2 o3 o4 o5 o6 x2 landing v1 v2 P1 P2 Ar1 G3 H3 Ar2 W6 G6 B6 C6 Hl6 a b).
    + destruct (merge_ok a b fa fb v1 v2 landing o6 Ha Hpa Hb Hpb Hab C6) as (o7 & E7 & M).
      rewrite E7. eexists _, _. split; [done|].
      by apply (meets_both o o1 o2 o3 o4 o5 o6 x2 landing v1 v2 P1 P2 Ar1 G3 H3 Ar2 W6 G6 B6 C6 Hl6 a b).
  - destruct (arm1_end o o1 o2 o3 o4 o5 o6 x2 landing v1 v2 P1 P2 Ar1 G3 Ar2 G6 a Ca)
      as (_ & fa & _ & Ha & _ & _ & Hpa).
    exists v1, o6. split.
    + destruct swap; simpl; unfold only_phi; rewrite (G_step _ _ o6 o6 o6) by done; by rewrite Ha, Hpa.
    + by apply (meets_first o o1 o2 o3 o4 o5 o6 x2 landing v1 v2 P1 P2 Ar1 G3 H3 Ar2 W6 G6 B6 C6 Hl6 a).
  - destruct (arm2_end o3 o4 o5 o6 landing v2 P2 Ar2 B6 b Cb) as (_ & fb & _ & Hb & _ & _ & Hpb).
    exists v2, o6. split.
    + destruct swap; simpl; unfold only_phi; rewrite (G_step _ _ o6 o6 o6) by done; by rewrite Hb, Hpb.
    + by apply (meets_second o o1 o2 o3 o4 o5 o6 x2 landing v1 v2 P1 P2 Ar1 G3 H3 Ar2 W6 G6 B6 C6 Hl6 b).
Qed.

(** ** The operators *)

Lemma G_assoc {A B C} (x : G A) (f : A -> G B) (h : B -> G C) o :
  ((x ≫= f) ≫= h) o = (x ≫= fun a => f a ≫= h) o.
Proof. unfold mbind, G_bind. by destruct (x o) as [[a o']| | | |]. Qed.

Lemma G_ext {A B} (x : G A) (f h : A -> G B) o :
  (forall a o', f a o' = h a o') -> (x ≫= f) o = (x ≫= h) o.
Proof. intros H. unfold mbind, G_bind. destruct (x o) as [[a o']| | | |]; [apply H | done..]. Qed.

Lemma const_ok o n : wf o -> gens o (mret (out_new_l n)) (fun s _ s' x => s' = s /\ x = n) true.
Proof using Laws.
  intros W. exists (out_new_l n), o. split_and!; try done.
  - apply grows_refl.
  - apply (new_l_live (BackendOk := Laws)).
  - intros g X A HX p s m s' x Hp HR [-> ->]. exists p, m.
    split_and!; [done | apply rtc_refl | done | apply (new_l_value (BackendOk := Laws)) | apply keep_refl].
Qed.

Lemma value_ok o v : wf o -> live (nvals o) v ->
  gens o (mret v) (fun s m s' x => s' = s /\ denotes v m x) true.
Proof.
  intros W Hl. exists v, o. split_and!; try done; [apply grows_refl|].
  intros g X A HX p s m s' x Hp HR [-> Hd]. exists p, m.
  split_and!; [done | apply rtc_refl | done | done | apply keep_refl].
Qed.

(** A block just selected is as it was made. *)
Lemma here_new (o : ctx) b : wf o -> here o (b, 0%nat) -> blocks o !! b = Some blk_new.
Proof.
  intros W (b' & blk & Hc & Hb & [= -> Hn]). rewrite Hb. f_equal.
  destruct (wf_cur _ W _ Hc) as (blk' & Hb' & Ht & Hp). assert (blk' = blk) as -> by congruence.
  destruct blk as [code ty phi]. simpl in *. destruct code; [|done]. by subst.
Qed.

(** Three new blocks, as each operator and statement makes them. *)
Lemma three_blks (o : ctx) :
  wf o ->
  exists b1 b2 b3 oa ob o', out_blk_new o = Ok (b1, oa) /\ out_blk_new oa = Ok (b2, ob) /\
    out_blk_new ob = Ok (b3, o') /\
    wf o' /\ grows (fun _ => False) (fun _ => False) o o' /\ current_blk o' = current_blk o /\
    (forall p, here o p -> here o' p) /\ clean o' b1 /\ clean o' b2 /\ clean o' b3 /\
    unlabelled o' b1 /\ unlabelled o' b2 /\ unlabelled o' b3 /\
    (length (blocks o) = b1 /\ b1 < b2 < b3)%nat.
Proof.
  intros W. destruct (blk_new_ok o W) as (E1 & W1 & G1 & K1 & U1 & C1 & H1).
  set (o1 := set_blocks _ o) in *.
  destruct (blk_new_ok o1 W1) as (E2 & W2 & G2 & K2 & U2 & C2 & H2).
  set (o2 := set_blocks _ o1) in *.
  destruct (blk_new_ok o2 W2) as (E3 & W3 & G3 & K3 & U3 & C3 & H3).
  set (o3 := set_blocks _ o2) in *.
  pose proof (clean_lt _ _ K1) as L1. pose proof (clean_lt _ _ K2) as L2.
  pose proof (clean_lt _ _ K3) as L3.
  exists (length (blocks o)), (length (blocks o1)), (length (blocks o2)), o1, o2, o3.
  split_and!; try done; try lia.
  - eapply grows_none; [done|]. by eapply grows_none.
  - auto.
  - eapply (grows_clean _ _ _ _ _ G3); [|auto]. eapply (grows_clean _ _ _ _ _ G2); auto.
  - eapply (grows_clean _ _ _ _ _ G3); auto.
Qed.

(** Selecting a block that is new or current already. *)
Lemma select_ok (o : ctx) b :
  wf o -> clean o b \/ here o (b, 0%nat) ->
  exists o', out_current_blk b o = Ok (tt, o') /\ wf o' /\ current_blk o' = Some b /\
    blocks o' = blocks o /\ nvals o' = nvals o /\ here o' (b, 0%nat) /\ label_to_blk o' = label_to_blk o /\
    grows (eq b) (fun _ => False) o o'.
Proof.
  intros W [Hc | Hh].
  - destruct (current_blk_ok o b W Hc) as (o' & E & W' & G' & C' & B' & L' & V' & H').
    exists o'. by split_and!.
  - assert (Hb : current_blk o = Some b) by (destruct Hh as (b' & blk & Hc & _ & [= -> _]); done).
    destruct (current_blk_again o b W Hb) as (o' & E & W' & G' & C' & B' & L' & V' & H').
    exists o'. split_and!; auto. eapply grows_weaken; [done | by intros ? _ _ [] | done].
Qed.

(** A branch whose two targets are the arms; [fst] when the first arm is the
    one for true. *)
Lemma branch_arms_ok (fst : bool) swap gen_cond P0 r0 x1 x2 landing gen1 gen2 P1 P2 r1 r2 o :
  let t := if fst then x1 else x2 in let f := if fst then x2 else x1 in
  wf o -> clean o x1 -> clean o x2 -> clean o landing -> x1 <> x2 -> x1 <> landing -> x2 <> landing ->
  gens o gen_cond P0 r0 ->
  (forall o' v, wf o' -> live (nvals o') v -> gens o' (gen1 v) (P1 v) r1) ->
  (forall o', wf o' -> gens o' gen2 P2 r2) -> r1 || r2 = true ->
  exists c v o', (c ← gen_cond; _ ← out_ctrl_branch c t f; _ ← out_current_blk x1;
                  arms swap x2 landing (gen1 c) gen2) o = Ok (v, o') /\ wf o' /\
    grows (fun b => b = x1 \/ b = x2 \/ b = landing) (fun _ => False) o o' /\ live (nvals o') v /\
    current_blk o' = Some landing /\
    forall g X, agree X o' g -> closed o X -> forall p s m s1 n, here o p -> R s m -> P0 s m s1 n ->
      exists m1, denotes c m1 n /\
        forall s' n', (if Bool.eqb (n =? 0) fst then P2 s1 m1 s' n' else P1 c s1 m1 s' n') ->
          arrives (nvals o) g o' v p m s' n'.
Proof using Laws.
  intros t f W Hx1 Hx2 Hl Hne1 Hne2 Hne3 (c & o1 & E1 & W1 & G1 & L1 & C1 & S1) Hg1 Hg2 Hr.
  rewrite (G_step _ _ _ _ _ E1).
  assert (K1 : forall b, clean o b -> clean o1 b) by (intros b Hb; eapply grows_clean; eauto).
  assert (Ht : clean o1 t) by (destruct fst; auto).
  destruct (branch_ok R denotes live returned c t f o1 W1 Ht L1)
    as (o2 & E2 & W2 & G2 & C2 & L2 & V2 & H2 & K2 & S2).
  rewrite (G_step _ _ _ _ _ E2).
  destruct (select_ok o2 x1 W2) as (o3 & E3 & W3 & C3 & B3 & V3 & H3 & L3 & G3).
  { destruct fst; [right; apply H2 | left; apply K2; [by apply K1 | done]]. }
  rewrite (G_step _ _ _ _ _ E3).
  assert (K3 : forall b, b <> x1 -> b = x2 \/ b = landing -> clean o3 b).
  { intros b Hb1 Hb. split; [|rewrite C3; congruence]. rewrite B3.
    destruct (decide (b = t)) as [->|Hbt]; [by apply here_new|].
    apply (K2 b); [|done]. apply K1. by destruct Hb as [-> | ->]. }
  destruct (arms_ok swap x1 x2 landing (gen1 c) gen2 o3 (P1 c) P2 r1 r2) as (v & o4 & E4 & M4); auto.
  { apply Hg1; [done|]. by rewrite V3, V2. }
  destruct M4 as (W4 & G4 & L4 & C4 & S4). exists c, v, o4. rewrite E4.
  assert (G13 : grows (fun b => t = b \/ x1 = b) (fun _ => False \/ False) o1 o3) by (by eapply grows_trans).
  assert (G03 : grows (fun b => t = b \/ x1 = b) (fun _ => False \/ False) o o3) by (by eapply grows_none).
  split_and!; try done.
  - eapply grows_weaken; [apply (grows_trans _ _ _ _ _ _ _ G03 G4) | | by intros ? [[]|]].
    subst t. intros b _ _ [[<- | <-] | [<- | <-]]; destruct fst; auto.
  - intros g X A HX p s m s1 n Hp HR HP.
    assert (A3 : agree X o3 g) by (by eapply agree_grows).
    assert (A2 : agree X o2 g) by (by eapply agree_grows).
    assert (X1 : closed o1 X) by (by eapply closed_grows).
    destruct (S1 g X) with p s m s1 n as (p1 & m1 & Hp1 & R1 & HR1 & D1 & Kp1); try done.
    { by eapply agree_grows. }
    destruct (S2 g X p1 s1 m1 n A2 X1 Hp1 HR1 D1) as (m2 & R2 & HR2 & Kp2).
    assert (Kp : keep (nvals o) m m2).
    { eapply keep_trans; [done | apply (gr_vals _ _ _ _ G1) | exact Kp1 | exact Kp2]. }
    exists m2. split; [by apply Kp2|]. intros s' n' HP'.
    destruct (S4 g X A ltac:(by eapply closed_grows) s1 m2 s' n' HR2) as [F1 F2].
    assert (Hgo : arrives (nvals o3) g o4 v (if n =? 0 then f else t, 0%nat) m2 s' n').
    { subst t f. destruct (n =? 0), fst; simpl in HP'; auto. }
    destruct Hgo as (p' & m' & Hp' & R' & HR' & D' & Kp'). exists p', m'. split_and!; try done.
    + etrans; [exact R1|]. by etrans.
    + eapply keep_trans; [done | apply (gr_vals _ _ _ _ G03) | exact Kp | exact Kp'].
Qed.

(** [&&] and [||]: C11 6.5.13, 6.5.14. *)
Lemma shortcircuit_ok andsc gen_lhs gen_rhs ev1 ev2 r1 r2 :
  gen_ok gen_lhs ev1 r1 -> gen_ok gen_rhs ev2 r2 ->
  gen_ok (op_shortcircuit andsc gen_lhs gen_rhs)
    (fun s => '(s1, n) ← ev1 s;
      if Bool.eqb (n =? 0) andsc then Some (s1, if andsc then 0 else 1)
      else '(s2, m) ← ev2 s1; Some (s2, if m =? 0 then 0 else 1)) true.
Proof using Laws.
  intros H1 H2 o W. unfold op_shortcircuit, FlowLaws.gens.
  destruct (three_blks o W) as (x1 & x2 & l & oa & ob & o0 & E1 & E2 & E3 & W0 & G0 & C0 & P0 & K1 & K2 & K3
    & _ & _ & _ & Hlen & Hlt).
  rewrite (G_step _ _ _ _ _ E1), (G_step _ _ _ _ _ E2), (G_step _ _ _ _ _ E3).
  destruct (branch_arms_ok andsc true (v ← gen_lhs; out_normalise v)
    (fun s m s' n => exists n0, ev1 s = Some (s', n0) /\ n = truth n0) r1 x1 x2 l
    (fun _ => v ← gen_rhs; out_normalise v) (mret (out_new_l (if andsc then 0 else 1)))
    (fun _ s m s' n => exists n0, ev2 s = Some (s', n0) /\ n = truth n0)
    (fun s _ s' x => s' = s /\ x = if andsc then 0 else 1) r2 true o0)
    as (c & v & o' & E & W' & G' & L' & C' & S'); try done; try lia.
  { apply (normalise_ok R denotes live returned), H1, W0. }
  { intros o1 _ W1 _. apply (normalise_ok R denotes live returned), H2, W1. }
  { intros o1 W1. by apply const_ok. }
  exists v, o'. split_and!; try done.
  - rewrite <-E, G_assoc. do 4 (apply G_ext; intros ? ?). unfold arms. rewrite G_assoc.
    do 2 (apply G_ext; intros ? ?). done.
  - eapply grows_weaken; [apply (grows_none _ _ _ _ _ G0 G') | | by intros].
    intros b Hb _ [-> | [-> | ->]]; lia.
  - intros _ _. congruence.
  - intros g X A HX p s m s' n Hp HR Hev.
    destruct (ev1 s) as [[s1 n1]|] eqn:Hev1; [|done]. simpl in Hev.
    destruct (S' g X A ltac:(by eapply closed_grows) p s m s1 (truth n1) (P0 _ Hp) HR) as (m1 & D1 & F1).
    { by exists n1. }
    destruct (F1 s' n) as (p' & m' & Hgo).
    { unfold truth. destruct (n1 =? 0) eqn:Hz; simpl in *.
      - destruct andsc; simpl in *; [by injection Hev as <- <-|].
        destruct (ev2 s1) as [[s2 n2]|] eqn:Hev2; [|done]. injection Hev as <- <-. by exists n2.
      - destruct andsc; simpl in *; [|by injection Hev as <- <-].
        destruct (ev2 s1) as [[s2 n2]|] eqn:Hev2; [|done]. injection Hev as <- <-. by exists n2. }
    exists p', m'. destruct Hgo as (? & ? & ? & ? & ?). split_and!; try done.
    eapply keep_mono; [done | apply (gr_vals _ _ _ _ G0) | done].
Qed.

(** [a ? b : c] and [a ?: c]: C11 6.5.15. *)
Lemma if_ok gen_cond gen_lhs gen_rhs ev0 ev1 ev2 r0 r1 r2 :
  gen_ok gen_cond ev0 r0 ->
  match gen_lhs, ev1 with Some g1, Some e1 => gen_ok g1 e1 r1 | None, None => r1 = true | _, _ => False end ->
  gen_ok gen_rhs ev2 r2 -> r1 || r2 = true ->
  gen_ok (gen_expr_if gen_cond gen_lhs gen_rhs)
    (fun s => '(s1, n) ← ev0 s;
      if n =? 0 then ev2 s1 else match ev1 with Some e1 => e1 s1 | None => Some (s1, n) end) true.
Proof using Laws.
  intros H0 H1 H2 Hr o W. unfold gen_expr_if, FlowLaws.gens.
  destruct (three_blks o W) as (l & x1 & x2 & oa & ob & o0 & E1 & E2 & E3 & W0 & G0 & C0 & P0 & K1 & K2 & K3
    & _ & _ & _ & Hlen & Hlt).
  rewrite (G_step _ _ _ _ _ E1), (G_step _ _ _ _ _ E2), (G_step _ _ _ _ _ E3).
  set (Q c s m s' n := match ev1 with Some e1 => e1 s = Some (s', n) | None => s' = s /\ denotes c m n end).
  destruct (branch_arms_ok true false gen_cond (fun s _ s' n => ev0 s = Some (s', n)) r0 x1 x2 l
    (fun c => match gen_lhs with Some g => g | None => mret c end) gen_rhs Q
    (fun s _ s' n => ev2 s = Some (s', n)) r1 r2 o0)
    as (c & v & o' & E & W' & G' & L' & C' & S'); try done; try lia.
  { by apply H0. }
  { intros o1 c W1 Hc. subst Q. destruct gen_lhs as [g1|], ev1 as [e1|]; try done; [by apply H1|].
    rewrite H1. by apply value_ok. }
  exists v, o'. split_and!; try done.
  - eapply grows_weaken; [apply (grows_none _ _ _ _ _ G0 G') | | by intros].
    intros b Hb _ [-> | [-> | ->]]; lia.
  - intros _ _. congruence.
  - intros g X A HX p s m s' n Hp HR Hev.
    destruct (ev0 s) as [[s1 n1]|] eqn:Hev0; [|done]. simpl in Hev.
    destruct (S' g X A ltac:(by eapply closed_grows) p s m s1 n1 (P0 _ Hp) HR Hev0) as (m1 & D1 & F1).
    destruct (F1 s' n) as (p' & m' & Hgo).
    { subst Q. destruct (n1 =? 0); simpl; [done|]. destruct ev1; [done|]. by injection Hev as <- <-. }
    exists p', m'. destruct Hgo as (? & ? & ? & ? & ?). split_and!; try done.
    eapply keep_mono; [done | apply (gr_vals _ _ _ _ G0) | done].
Qed.

(** [a, b]: C11 6.5.17. *)
Lemma comma_ok gen_lhs gen_rhs ev1 ev2 r1 r2 :
  gen_ok gen_lhs ev1 r1 -> gen_ok gen_rhs ev2 r2 ->
  gen_ok (gen_expr_comma gen_lhs gen_rhs) (fun s => '(s1, _) ← ev1 s; ev2 s1) (r1 && r2).
Proof using Laws.
  intros H1 H2 o W. unfold gen_expr_comma, FlowLaws.gens.
  destruct (H1 o W) as (v1 & o1 & E1 & W1 & G1 & L1 & C1 & S1). rewrite (G_step _ _ _ _ _ E1).
  destruct (H2 o1 W1) as (v2 & o2 & E2 & W2 & G2 & L2 & C2 & S2).
  exists v2, o2. split_and!; try done.
  - by eapply grows_none.
  - intros [Hr1 Hr2]%andb_true_iff Hc. auto.
  - intros g X A HX p s m s' n Hp HR Hev. destruct (ev1 s) as [[s1 n1]|] eqn:Hev1; [|done]. simpl in Hev.
    destruct (S1 g X) with p s m s1 n1 as (p1 & m1 & Hp1 & R1 & HR1 & D1 & Kp1); try done.
    { by eapply agree_grows. }
    destruct (S2 g X) with p1 s1 m1 s' n as (p2 & m2 & Hp2 & R2 & HR2 & D2 & Kp2); try done.
    { by eapply closed_grows. }
    exists p2, m2. split_and!; try done; [by etrans|].
    eapply keep_trans; [done | apply (gr_vals _ _ _ _ G1) | done | done].
Qed.

(** *** Arms that do not come back *)

(** A generator after which no code can run: a call of a [noreturn] function,
    or a statement expression that returns. *)
Definition ends (x : G oval) : Prop :=
  forall o, wf o -> exists v o', x o = Ok (v, o') /\ wf o' /\
    grows (fun _ => False) (fun _ => False) o o' /\ current_blk o' = None.

(** C34: A conditional expression neither of whose arms comes back, as in
    [c ? abort() : exit(1)], breaks the code generator: [out_ctrl_merge] is
    left no block to come from and reads [phi_val] of a null pointer. *)
Theorem no_arm_returns gen_cond gen_lhs gen_rhs ev r o :
  wf o -> gen_ok gen_cond ev r -> ends gen_lhs -> ends gen_rhs ->
  gen_expr_if gen_cond (Some gen_lhs) gen_rhs o = Ub "rets[0]->phi_val of NULL".
Proof using Laws.
  intros W Hc H1 H2. unfold gen_expr_if.
  destruct (three_blks o W) as (l & x1 & x2 & oa & ob & o0 & E1 & E2 & E3 & W0 & G0 & C0 & P0 & K1 & K2 & K3
    & _ & _ & _ & Hlen & Hlt).
  rewrite (G_step _ _ _ _ _ E1), (G_step _ _ _ _ _ E2), (G_step _ _ _ _ _ E3).
  destruct (Hc o0 W0) as (c & o1 & Ec & W1 & G1 & L1 & _). rewrite (G_step _ _ _ _ _ Ec).
  destruct (branch_ok R denotes live returned c x1 x2 o1 W1) as (o2 & Eb & W2 & G2 & C2 & _ & _ & Hh2 & Kb & _).
  { eapply grows_clean; eauto. }
  { done. }
  rewrite (G_step _ _ _ _ _ Eb).
  destruct (select_ok o2 x1 W2 (or_intror Hh2)) as (o3 & Es & W3 & C3 & B3 & V3 & Hh3 & L3 & G3).
  rewrite (G_step _ _ _ _ _ Es).
  assert (Hk : forall b, b <> x1 -> clean o0 b -> clean o3 b).
  { intros b Hb Hcl. eapply grows_clean; [exact G3 | | by intros <-]. apply Kb; [|done]. eapply grows_clean; eauto. }
  destruct (H1 o3 W3) as (v1 & o4 & E4 & W4 & G4 & C4). rewrite (G_step _ _ _ _ _ E4).
  destruct (transfer_ok l (Some v1) o4 W4) as (o5 & E5 & W5 & G5 & C5 & _).
  rewrite C4 in E5. rewrite (G_step _ _ _ _ _ E5).
  pose proof (grows_none _ _ _ _ _ G4 G5) as G45.
  assert (K5 : clean o5 x2 /\ clean o5 l).
  { split; (eapply grows_clean; [exact G45 | apply Hk; [lia | done] | by intros []]). }
  destruct K5 as [K5 K5'].
  destruct (select_ok o5 x2 W5 (or_introl K5)) as (o6 & Es' & W6 & C6 & B6 & V6 & Hh6 & L6 & G6).
  rewrite (G_step _ _ _ _ _ Es').
  destruct (H2 o6 W6) as (v2 & o7 & E7 & W7 & G7 & C7). rewrite (G_step _ _ _ _ _ E7).
  destruct (transfer_ok l (Some v2) o7 W7) as (o8 & E8 & W8 & G8 & C8 & _).
  rewrite C7 in E8. rewrite (G_step _ _ _ _ _ E8). by rewrite (G_step _ _ o8 tt (set_current (Some l) (set_used (Some l) o8))).
Qed.

(** ** All of them together *)

Section Cexpr.
Context {E : Type} `{!GenExpr insn jcc addr oval sst E} `{!GenExprOk R denotes live E}.

Local Notation cexpr := (cexpr E).

(** [const_fold] gives the number an expression has wherever it is evaluated. *)
Context (const_fold : cexpr -> option Z).
Hypothesis const_fold_sound : forall e n s s' x,
  const_fold e = Some n -> eval_cexpr e s = Some (s', x) -> s' = s /\ x = n.

Fixpoint cexpr_returns (e : cexpr) : bool :=
  match const_fold e with
  | Some _ => true
  | None => match e with
            | Leaf e => returns e
            | Comma lhs rhs => cexpr_returns lhs && cexpr_returns rhs
            | _ => true
            end
  end.

(** No conditional both of whose arms never return (see [no_arm_returns]). *)
Fixpoint mergeable (e : cexpr) : bool :=
  match const_fold e with
  | Some _ => true
  | None => match e with
            | Leaf _ => true
            | Shortcircuit _ lhs rhs | Comma lhs rhs => mergeable lhs && mergeable rhs
            | If e lhs rhs =>
                mergeable e && match lhs with Some l => mergeable l | None => true end && mergeable rhs &&
                (match lhs with Some l => cexpr_returns l | None => true end || cexpr_returns rhs)
            end
  end.

Lemma folded_ok e n : const_fold e = Some n -> gen_ok (mret (out_new_l n)) (eval_cexpr e) true.
Proof using Laws const_fold_sound.
  intros He o W. destruct (const_ok o n W) as (v & o' & Ev & W' & G' & L' & C' & S').
  exists v, o'. split_and!; try done. intros g X A HX p s m s' x Hp HR Hev.
  eapply S'; eauto.
Qed.

Lemma gen_cexpr_ok e :
  mergeable e = true -> gen_ok (gen_cexpr const_fold e) (eval_cexpr e) (cexpr_returns e).
Proof using Laws const_fold_sound.
  revert e. fix IH 1. intros e Hm.
  destruct e as [e | andsc lhs rhs | e lhs rhs | lhs rhs]; simpl in *;
    (destruct (const_fold _) as [n|] eqn:Hf; [by apply folded_ok in Hf|]).
  - apply expr_ok.
  - apply andb_true_iff in Hm as [H1 H2]. by eapply shortcircuit_ok; apply IH.
  - apply andb_true_iff in Hm as [Hm Hr]. apply andb_true_iff in Hm as [Hm H3].
    apply andb_true_iff in Hm as [H1 H2].
    pose proof (if_ok (gen_cexpr const_fold e) (option_map (gen_cexpr const_fold) lhs)
      (gen_cexpr const_fold rhs) (eval_cexpr e) (option_map eval_cexpr lhs) (eval_cexpr rhs)
      (cexpr_returns e) (match lhs with Some l => cexpr_returns l | None => true end)
      (cexpr_returns rhs)) as K.
    destruct lhs as [l|]; simpl in *; apply K; try done; by apply IH.
  - apply andb_true_iff in Hm as [H1 H2]. by apply comma_ok; apply IH.
Qed.

(** The expressions that can be generated, as expressions of statements. *)
Definition mexpr : Type := { e : cexpr | mergeable e = true }.

#[global] Instance mexpr_gen : GenExpr insn jcc addr oval sst mexpr :=
  {| gen_expr := fun e : mexpr => gen_cexpr const_fold (`e);
     is_ptr_or_block := fun e : mexpr => cexpr_ptr_or_block (`e);
     eval := fun e : mexpr => eval_cexpr (`e) |}.

#[global] Instance mexpr_gen_ok : GenExprOk R denotes live mexpr :=
  mk_gen_expr_ok R denotes live mexpr _ (fun e => cexpr_returns (`e)) (fun e => gen_cexpr_ok (`e) (proj2_sig e)).

End Cexpr.
End FlowExpr.
