(* ===== verification/FlowSem.v ===== *)
(** * Statements generate what they mean

    [gen_stmt] of Flow against [exec_stmt]: the code generator fails no
    assertion, and the blocks it makes take a machine where the statement
    takes the program, through every jump and out of every scope. *)

From S2P Require Import Prelude Blk Flow FlowLaws FlowExpr.
From stdpp Require Import relations.
Local Open Scope Z_scope.

Section FlowSem.
Context {insn jcc addr oval sst mst E : Type}.
Context `{!Backend insn jcc addr oval} `{!Machine insn jcc addr mst}.
Context (R : sst -> mst -> Prop) (denotes : oval -> mst -> Z -> Prop).
Context (live : nat -> oval -> Prop) (returned : mst -> Z -> Prop).
Context `{Laws : !BackendOk R denotes live returned}.
Context `{!GenExpr insn jcc addr oval sst E} `{ExprLaws : !GenExprOk R denotes live E}.

Local Notation ctx := (out_ctx insn jcc addr oval).
Local Notation block := (out_blk insn jcc addr oval).
Local Notation G := (G insn jcc addr oval).
Local Notation runs g := (rtc (gstep (mst := mst) g)).
Local Notation keep := (keep denotes live).
Local Notation stmt := (stmt E).
Local Notation scope := (scope E).
Local Notation env := (env E).
Abbreviation nob := (fun _ : bid => False).
Abbreviation nok := (fun _ : key => False).

(** ** Straight code *)

(** [frag x ev]: the code of [x] goes on from where it starts, as [ev]. *)
Definition frag (x : G unit) (ev : sst -> option sst) : Prop :=
  forall o, wf o -> exists o', x o = Ok (tt, o') /\ wf o' /\ grows nob nok o o' /\
    forall g, agree nob o' g -> forall p s m s', here o p -> R s m -> ev s = Some s' ->
      exists p' m', here o' p' /\ runs g (p, m) (p', m') /\ R s' m' /\ keep (nvals o) m m'.

Lemma closed_nob (o : ctx) : closed o nob.
Proof. by intros b []. Qed.
#[local] Hint Resolve closed_nob : core.

Lemma frag_ret : frag (mret tt) Some.
Proof.
  intros o W. exists o. split_and!; [done | done | apply grows_refl |].
  intros g A p s m s' Hp HR [= <-]. exists p, m. split_and!; [done | apply rtc_refl | done | apply keep_refl].
Qed.

Lemma frag_bind x y e1 e2 : frag x e1 -> frag y e2 -> frag (_ ← x; y) (fun s => e1 s ≫= e2).
Proof using Laws.
  intros H1 H2 o W. destruct (H1 o W) as (o1 & E1 & W1 & G1 & S1).
  rewrite (G_step _ _ _ _ _ E1). destruct (H2 o1 W1) as (o2 & E2 & W2 & G2 & S2).
  exists o2. split_and!; [done | done | by eapply grows_none |].
  intros g A p s m s' Hp HR Hev. apply bind_Some in Hev as (s1 & Hs1 & Hs2).
  destruct (S1 g (agree_grows _ _ _ _ _ _ G2 A) p s m s1 Hp HR Hs1) as (p1 & m1 & Hp1 & R1 & HR1 & K1).
  destruct (S2 g A p1 s1 m1 s' Hp1 HR1 Hs2) as (p2 & m2 & Hp2 & R2 & HR2 & K2).
  exists p2, m2. split_and!; [done | by etrans | done |].
  eapply keep_trans; [done | apply (gr_vals _ _ _ _ G1) | done | done].
Qed.

Lemma frag_ext x e1 e2 : (forall s, e1 s = e2 s) -> frag x e1 -> frag x e2.
Proof.
  intros He H o W. destruct (H o W) as (o1 & E1 & W1 & G1 & S1). exists o1. split_and!; try done.
  intros g A p s m s' Hp HR Hev. eapply S1; eauto. by rewrite He.
Qed.

Lemma gen_expr_frag (e : E) : frag (_ ← gen_expr e; mret tt) (eval_opt (Some e)).
Proof using ExprLaws.
  intros o W. destruct (expr_ok e o W) as (v & o1 & E1 & W1 & G1 & L1 & C1 & S1).
  rewrite (G_step _ _ _ _ _ E1). exists o1. split_and!; try done.
  intros g A p s m s' Hp HR Hev. simpl in Hev. destruct (eval e s) as [[s1 n]|] eqn:He; [|done].
  injection Hev as <-.
  destruct (S1 g nob A (closed_nob o) p s m s1 n Hp HR He) as (p1 & m1 & Hp1 & R1 & HR1 & _ & K1).
  exists p1, m1. by split_and!.
Qed.

Lemma gen_opt_frag (e : option E) : frag (gen_opt e) (eval_opt e).
Proof using ExprLaws. destruct e as [e|]; [apply gen_expr_frag | apply frag_ret]. Qed.

Lemma decls_frag (ds : list (decl E)) : frag (gen_decls ds) (run_inits ds).
Proof using Laws ExprLaws.
  induction ds as [|d ds IH]; simpl; [apply frag_ret|].
  eapply frag_bind; [apply gen_opt_frag|]. eapply frag_bind; [apply gen_opt_frag | exact IH].
Qed.

Lemma destructors_frag (ds : list (decl E)) : frag (gen_destructors ds) (run_destructors ds).
Proof using Laws ExprLaws.
  induction ds as [|d ds IH]; simpl; [apply frag_ret|].
  eapply frag_bind; [apply gen_opt_frag|]. eapply frag_bind; [apply gen_opt_frag | exact IH].
Qed.

(** What [gen_scope_leave] does. *)
Fixpoint unwind (s_from : list scope) (s_to : list nat) (s : sst) : option sst :=
  match s_from with
  | [] => Some s
  | sc :: rest =>
      if decide (sid sc ∈ s_to) then Some s
      else s' ← leave sc s; unwind rest s_to s'
  end.

Lemma scope_leave_frag (p : list scope) to : frag (gen_scope_leave p to) (unwind p to).
Proof using Laws ExprLaws.
  induction p as [|sc p IH]; simpl; [apply frag_ret|].
  destruct (decide (sid sc ∈ to)); [apply frag_ret|].
  eapply frag_bind; [apply destructors_frag | exact IH].
Qed.

Lemma unwind_parent (sc : scope) p s :
  sid sc ∉ sids p -> unwind (sc :: p) (sids p) s = leave sc s.
Proof.
  intros H. simpl. rewrite decide_False by done. destruct (leave sc s) as [s'|]; [|done]. simpl.
  destruct p as [|sc' p]; [done|]. simpl. rewrite decide_True; [done | left].
Qed.

(** A fresh block as the next one: nothing happens on the way. *)
Lemma make_current_ok o b :
  wf o -> clean o b ->
  exists o', out_ctrl_transfer_make_current b o = Ok (tt, o') /\ wf o' /\ grows (eq b) nok o o' /\
    current_blk o' = Some b /\ label_to_blk o' = label_to_blk o /\ here o' (b, 0%nat) /\
    (forall c, clean o c -> c <> b -> clean o' c) /\
    forall g, agree nob o' g -> forall p s m, here o p -> R s m ->
      exists m', runs g (p, m) ((b, 0%nat), m') /\ R s m' /\ keep (nvals o) m m'.
Proof using Laws.
  intros W Hb. unfold out_ctrl_transfer_make_current.
  destruct (transfer_ok b None o W) as (o1 & E1 & W1 & G1 & C1 & L1 & V1 & _).
  rewrite (G_step _ _ _ _ _ E1).
  destruct (current_blk_ok o1 b W1) as (o2 & E2 & W2 & G2 & C2 & B2 & L2 & V2 & H2).
  { eapply grows_clean; eauto. }
  exists o2. split_and!; try done; [by eapply grows_none | congruence | |].
  - intros c Hc Hne. eapply (grows_clean _ _ _ _ _ G2); [eapply grows_clean; eauto | congruence].
  - intros g A p s m Hp HR. exists (execs (spill o None) m). split_and!.
    + eapply (transfer_runs b None o o1 g nob); eauto. by eapply agree_grows.
    + by apply (spill_R (BackendOk := Laws)).
    + intros v n Hv Hd. by apply (spill_keeps (BackendOk := Laws)).
Qed.

Lemma new_scope_block_frag : frag new_block_for_scope Some.
Proof using Laws.
  intros o W. unfold new_block_for_scope. rewrite (G_step _ _ o o o) by done.
  destruct (out_ctx_current_blk_is_empty o).
  { apply (frag_ret o W). }
  destruct (blk_new_ok o W) as (E1 & W1 & G1 & K1 & U1 & C1 & H1).
  rewrite (G_step _ _ _ _ _ E1). set (o1 := set_blocks _ o) in *.
  destruct (make_current_ok o1 _ W1 K1) as (o2 & E2 & W2 & G2 & C2 & L2 & H2 & K2 & S2).
  exists o2. split_and!; try done.
  - eapply grows_weaken; [apply (grows_none _ _ _ _ _ G1 G2) | | done]. intros b Hb _ <-. lia.
  - intros g A p s m s' Hp HR [= <-]. destruct (S2 g A p s m (H1 _ Hp) HR) as (m2 & R2 & HR2 & K).
    exists (length (blocks o), 0%nat), m2. split_and!; try done.
Qed.

Lemma block_decls_frag (sc : scope) : frag (gen_block_decls sc) (enter sc).
Proof using Laws ExprLaws.
  eapply frag_ext; [|eapply frag_bind; [apply new_scope_block_frag | apply decls_frag]]. done.
Qed.

Lemma leave_parent_frag (sc : scope) p :
  sid sc ∉ sids p -> frag (_ ← gen_scope_leave_parent sc p; gen_block_decls_dealloca) (leave sc).
Proof using Laws ExprLaws.
  intros H. eapply frag_ext; [|eapply frag_bind; [apply scope_leave_frag | apply new_scope_block_frag]].
  intros s. cbv beta. rewrite (unwind_parent sc p s H). by destruct (leave sc s).
Qed.

(** ** What generating a statement does to the context *)

Definition ready_key (o : ctx) (k : key) : Prop :=
  forall b, label_to_blk o !! k = Some b -> clean o b.

(** [adv B K o o']: apart from blocks without a label, those in [B], only the
    blocks of the labels in [K] were begun; every other label that has a block
    has one not begun. *)
Record adv (B : bid -> Prop) (K : key -> Prop) (o o' : ctx) : Prop := mk_adv {
  adv_grows : grows (fun b => B b \/ exists k, K k /\ label_to_blk o !! k = Some b)
    (fun k => K k \/ exists l, k = Lbl l) o o';
  adv_ready k : ~ K k -> ready_key o k -> ready_key o' k;
  adv_unl b : B b -> (b < length (blocks o))%nat -> unlabelled o b }.

Lemma adv_trans B1 B2 K1 K2 o o1 o2 :
  adv B1 K1 o o1 -> adv B2 K2 o1 o2 -> adv (fun b => B1 b \/ B2 b) (fun k => K1 k \/ K2 k) o o2.
Proof.
  intros [G1 R1 U1] [G2 R2 U2]. pose proof (gr_len _ _ _ _ G1) as HL. split.
  - eapply grows_weaken; [by eapply grows_trans | |].
    + intros b Hb _ [[H | (k & Hk & Hl)] | [H | (k & Hk & Hl)]]; eauto.
      destruct (gr_new _ _ _ _ G1 _ _ Hl) as [Hl' | [Hlt _]]; [eauto | lia].
    + naive_solver.
  - intros k Hk H. apply R2; [tauto|]. apply R1; tauto.
  - intros b [H | H] Hb; [auto|]. intros k Hk. apply (U2 b H ltac:(lia) k).
    eapply lookup_weaken; [done | apply (gr_lbl _ _ _ _ G1)].
Qed.

Lemma adv_weaken B (B' : bid -> Prop) K (K' : key -> Prop) o o' :
  adv B K o o' -> (forall b, (b < length (blocks o))%nat -> B b -> B' b /\ unlabelled o b) ->
  (forall b, B' b -> (b < length (blocks o))%nat -> unlabelled o b) -> (forall k, K k -> K' k) -> adv B' K' o o'.
Proof.
  intros [G1 R1 U1] HB HB' HK. split; [|auto | done].
  eapply grows_weaken; [exact G1 | |].
  - intros b Hb _ [H | (k & Hk & Hl)]; [left; by apply HB | right; eauto].
  - naive_solver.
Qed.

(** Blocks that are new all along do not count. *)
Lemma adv_new B K (K' : key -> Prop) o o' :
  adv B K o o' -> (forall b, B b -> (length (blocks o) <= b)%nat) -> (forall k, K k -> K' k) -> adv nob K' o o'.
Proof.
  intros A HB HK. eapply adv_weaken; [exact A | | by intros | done].
  intros b Hb HBb. specialize (HB b HBb). lia.
Qed.

Lemma adv_refl o : adv nob nok o o.
Proof. split; [|auto | by intros]. eapply grows_weaken; [apply grows_refl | tauto | tauto]. Qed.

(** Code that leaves the labels as they are. *)
Lemma grows_adv (T : bid -> Prop) o o' :
  grows T nok o o' -> (forall b, T b -> (b < length (blocks o))%nat -> unlabelled o b) -> adv T nok o o'.
Proof.
  intros Gr HT. split; [eapply grows_weaken; [exact Gr | tauto | tauto] | | done].
  intros k _ H b Hb. destruct (gr_new _ _ _ _ Gr _ _ Hb) as [Hb' | [_ []]].
  pose proof (H _ Hb') as Hc. eapply grows_clean; [exact Gr | exact Hc|].
  intros HTb. by apply (HT b HTb (clean_lt _ _ Hc) k).
Qed.

Definition free (o : ctx) (b : bid) : Prop := clean o b /\ unlabelled o b.

Lemma adv_free B K o o' b : adv B K o o' -> free o b -> ~ B b -> free o' b.
Proof.
  intros A [Hc Hu] HB. split.
  - eapply grows_clean; [apply A | done|]. intros [? | (k & _ & Hk)]; [done | by apply (Hu k)].
  - eapply grows_unlabelled; [apply A | by apply clean_lt | done].
Qed.

Lemma adv_len B K o o' : adv B K o o' -> (length (blocks o) <= length (blocks o'))%nat.
Proof. intros A. eapply gr_len, A. Qed.

Lemma adv_agree B K X o o' g : adv B K o o' -> agree X o' g -> agree X o g.
Proof. intros A. eapply agree_grows, A. Qed.

Lemma adv_lbl B K o o' k b : adv B K o o' -> label_to_blk o !! k = Some b -> label_to_blk o' !! k = Some b.
Proof. intros A H. eapply lookup_weaken; [done | apply A]. Qed.

Lemma adv_case B K o o' c :
  adv B K o o' -> ~ K (Cse c) -> label_to_blk o !! Cse c = None -> label_to_blk o' !! Cse c = None.
Proof.
  intros A HK H. destruct (label_to_blk o' !! Cse c) as [b|] eqn:Hb; [|done].
  destruct (gr_new _ _ _ _ (adv_grows _ _ _ _ A) _ _ Hb) as [|[_ [|[l [=]]]]]; [congruence | done].
Qed.


(** ** What is asked of a statement

    The [case]s of the switch around a statement that are in it. *)
Fixpoint frees (s : stmt) : list nat :=
  match s with
  | s_code _ ss => concat (map frees ss)
  | s_if _ _ lhs rhs => frees lhs ++ match rhs with Some r => frees r | None => [] end
  | s_while _ _ lhs | s_do _ lhs | s_for _ _ _ _ lhs | s_label _ _ lhs => frees lhs
  | s_case c lhs => c :: frees lhs
  | _ => []
  end.

Definition own_cases (cases : list case_) (default_case : option nat) : list nat :=
  map c_stmt cases ++ match default_case with Some d => [d] | None => [] end.

(** [break] and [continue] have somewhere to go, and a switch has the [case]s
    that are in its body ([fold_stmt_break_continue],
    [fold_stmt_and_add_to_curswitch]). *)
Fixpoint wf_stmt (brk cont : bool) (s : stmt) : Prop :=
  match s with
  | s_code _ ss => fold_right (fun s P => wf_stmt brk cont s /\ P) True ss
  | s_if _ _ lhs rhs =>
      wf_stmt brk cont lhs /\ match rhs with Some r => wf_stmt brk cont r | None => True end
  | s_while _ _ lhs | s_do _ lhs | s_for _ _ _ _ lhs => wf_stmt true true lhs
  | s_switch _ _ cases d lhs =>
      wf_stmt true cont lhs /\ NoDup (own_cases cases d) /\
      forall c, c ∈ own_cases cases d <-> c ∈ frees lhs
  | s_case _ lhs | s_label _ _ lhs => wf_stmt brk cont lhs
  | s_break => brk = true
  | s_continue => cont = true
  | _ => True
  end.

(** The scopes of the labels are where the labels are: [ls] gives the scopes
    of a label, [p] those the statement is in. *)
Definition outside (ls : string -> list nat) (i : nat) (s : stmt) : Prop :=
  forall l, Lbl l ∉ labels s -> i ∉ ls l.

Fixpoint scopes_ok (ls : string -> list nat) (p : list nat) (s : stmt) : Prop :=
  let scoped sc := sid sc ∉ p /\ outside ls (sid sc) s in
  match s with
  | s_code sc ss => scoped sc /\ fold_right (fun s P => scopes_ok ls (sid sc :: p) s /\ P) True ss
  | s_if sc _ lhs rhs =>
      scoped sc /\ scopes_ok ls (sid sc :: p) lhs /\
      match rhs with Some r => scopes_ok ls (sid sc :: p) r | None => True end
  | s_while sc _ lhs | s_for sc _ _ _ lhs | s_switch sc _ _ _ lhs =>
      scoped sc /\ scopes_ok ls (sid sc :: p) lhs
  | s_do _ lhs | s_case _ lhs => scopes_ok ls p lhs
  | s_label l _ lhs => ls l = p /\ scopes_ok ls p lhs
  | _ => True
  end.

Record env_ok (v : env) (brk cont : bool) : Prop := {
  eo_brk : brk = true -> is_Some (blk_break v);
  eo_cont : cont = true -> is_Some (blk_continue v);
  eo_brk_in b to : blk_break v = Some (b, to) -> to ⊆ sids (path v);
  eo_cont_in b to : blk_continue v = Some (b, to) -> to ⊆ sids (path v);
  eo_nonnull : returns_nonnull v = false;
  eo_inline : inline_phi v = None }.

(** The context before the statement: the blocks its labels have are not
    begun, the [case]s of the switch around it have theirs and no other has. *)
Record ready (s : stmt) (o : ctx) : Prop := {
  rd_key k : k ∈ labels s -> ready_key o k;
  rd_free c : c ∈ frees s -> is_Some (label_to_blk o !! Cse c);
  rd_case c : Cse c ∈ labels s -> c ∉ frees s -> label_to_blk o !! Cse c = None }.

(** ** What a statement's code does *)

Definition reaches (g : list block) (p : pc) (m : mst) (s : sst) (b : bid) : Prop :=
  exists m', runs g (p, m) ((b, 0%nat), m') /\ R s m'.

(** The ways out of a statement: each is where C says, after the scopes left
    have been cleaned up. *)
Definition jumps (v : env) (L : gmap key bid) (epi : bid) (g : list block) (p : pc) (m : mst)
    (r : outcome * sst) : Prop :=
  match r.1 with
  | Normal => True
  | Brk => forall b to s', blk_break v = Some (b, to) -> unwind (path v) to r.2 = Some s' -> reaches g p m s' b
  | Cont => forall b to s', blk_continue v = Some (b, to) -> unwind (path v) to r.2 = Some s' -> reaches g p m s' b
  | Goto l => forall b s', L !! Lbl l = Some b -> unwind (path v) (label_scope v l) r.2 = Some s' -> reaches g p m s' b
  | Ret x => forall s', unwind (path v) [] r.2 = Some s' ->
      exists m', runs g (p, m) ((epi, 0%nat), m') /\ R s' m' /\ forall n, x = Some n -> returned m' n
  end.

Definition falls (o' : ctx) (g : list block) (p : pc) (m : mst) (r : outcome * sst) : Prop :=
  r.1 = Normal -> exists p' m', here o' p' /\ runs g (p, m) (p', m') /\ R r.2 m'.

Definition loop_head (s : stmt) (o : ctx) : option bid :=
  match s with
  | s_while _ _ _ => Some (S (length (blocks o)))
  | s_do _ _ | s_for _ _ _ _ _ => Some (length (blocks o))
  | _ => None
  end.

Definition begins (o : ctx) (s : stmt) (L : gmap key bid) (en : entry) (p : pc) : Prop :=
  match en with
  | Start => here o p
  | At k => k ∈ labels s /\ exists b, L !! k = Some b /\ p = (b, 0%nat)
  | Again => exists b, loop_head s o = Some b /\ p = (b, 0%nat)
  end.

(** The statement's code, from [o] to [o'], is the statement. *)
Record implements (v : env) (s : stmt) (o o' : ctx) : Prop := mk_implements {
  im_wf : wf o';
  im_adv : adv nob (fun k => k ∈ labels s) o o';
  im_lbl k : k ∈ labels s -> is_Some (label_to_blk o' !! k);
  im_run g L : agree nob o' g -> label_to_blk o' ⊆ L ->
    forall n en st p m r, exec_stmt n s en st = Some r -> begins o s L en p -> R st m ->
      falls o' g p m r /\ jumps v L (epilogue_blk o') g p m r }.

Definition correct (v : env) (s : stmt) : Prop :=
  forall o, wf o -> ready s o -> exists o', gen_stmt s v o = Ok (tt, o') /\ implements v s o o'.

(** ** Ways out *)

Lemma reaches_after g p m p1 m1 s b : runs g (p, m) (p1, m1) -> reaches g p1 m1 s b -> reaches g p m s b.
Proof. intros H (m' & H' & HR). exists m'. split; [by etrans | done]. Qed.

Lemma jumps_after v L epi g p m p1 m1 r :
  runs g (p, m) (p1, m1) -> jumps v L epi g p1 m1 r -> jumps v L epi g p m r.
Proof.
  intros H. unfold jumps. destruct r.1; eauto using reaches_after.
  intros Hj s' Hs. destruct (Hj s' Hs) as (m' & R' & HR). exists m'. split; [by etrans | done].
Qed.

Lemma falls_after o' g p m p1 m1 r : runs g (p, m) (p1, m1) -> falls o' g p1 m1 r -> falls o' g p m r.
Proof.
  intros H Hf Hn. destruct (Hf Hn) as (p' & m' & Hp & R' & HR). exists p', m'. split_and!; [done | by etrans | done].
Qed.

(** ** Statements without a scope *)

Lemma jump_ok x ev b o :
  frag x ev -> wf o ->
  exists o', (_ ← x; jump_to b) o = Ok (tt, o') /\ wf o' /\ grows nob nok o o' /\ current_blk o' = None /\
    forall g, agree nob o' g -> forall p s m s', here o p -> R s m -> ev s = Some s' -> reaches g p m s' b.
Proof using Laws.
  intros Hx W. destruct (Hx o W) as (o1 & E1 & W1 & G1 & S1). rewrite (G_step _ _ _ _ _ E1).
  unfold jump_to. destruct (transfer_ok b None o1 W1) as (o2 & E2 & W2 & G2 & C2 & L2 & V2 & _).
  rewrite (G_step _ _ _ _ _ E2). exists o2. split_and!; try done; [by eapply grows_none|].
  intros g A p s m s' Hp HR Hev.
  destruct (S1 g) with p s m s' as (p1 & m1 & Hp1 & R1 & HR1 & _); try done; [by eapply agree_grows|].
  exists (execs (spill o1 None) m1). split; [|by apply (spill_R (BackendOk := Laws))]. etrans; [exact R1|].
  eapply (transfer_runs b None o1 o2 g nob); eauto.
Qed.

(** A jump to a block from where the context is. *)
Lemma goto_blk_ok b o :
  wf o ->
  exists o', jump_to b o = Ok (tt, o') /\ wf o' /\ grows nob nok o o' /\ current_blk o' = None /\
    forall g, agree nob o' g -> forall p s m, here o p -> R s m -> reaches g p m s b.
Proof using Laws.
  intros W. destruct (jump_ok (mret tt) Some b o frag_ret W) as (o' & E' & W' & G' & C' & S').
  exists o'. split_and!; try done. intros g A p s m Hp HR. by eapply S'.
Qed.

Lemma grows_adv_nob o o' (K : key -> Prop) : grows nob nok o o' -> adv nob K o o'.
Proof. intros Gr. eapply adv_weaken; [by apply grows_adv | by intros | by intros | by intros]. Qed.

Lemma frag_correct v s x ev :
  gen_stmt s v = x -> frag x ev -> labels s = [] -> loop_head s = (fun _ => None) ->
  (forall n st, exec_stmt (S n) s Start st = (st' ← ev st; Some (Normal, st'))) -> correct v s.
Proof.
  intros Hg Hx Hl Hh Hex o W Hr. rewrite Hg. destruct (Hx o W) as (o1 & E1 & W1 & G1 & S1).
  exists o1. split; [done|]. split; [done | by apply grows_adv_nob | rewrite Hl; intros k Hk; inversion Hk|].
  intros g L A HL n en st p m r He Hb HR. destruct n as [|n]; [done|].
  destruct en as [|k|]; [| destruct Hb as [Hk _]; rewrite Hl in Hk; inversion Hk
    | destruct Hb as (b & Hb & _); rewrite Hh in Hb; done].
  rewrite Hex in He. apply bind_Some in He as (st' & Hev & [= <-]).
  destruct (S1 g A p st m st' Hb HR Hev) as (p1 & m1 & Hp1 & R1 & HR1 & _).
  split; [intros _; by exists p1, m1 | done].
Qed.

(** A jumping statement: its code goes to a block, the statement out. *)
Lemma jump_correct v s x ev b :
  gen_stmt s v = (_ ← x; jump_to b) -> frag x ev -> labels s = [] -> loop_head s = (fun _ => None) ->
  (forall n st r, exec_stmt (S n) s Start st = Some r ->
     r.1 <> Normal /\ forall L epi g p m, (forall s', ev st = Some s' -> reaches g p m s' b) -> jumps v L epi g p m r) ->
  correct v s.
Proof using Laws.
  intros Hg Hx Hl Hh Hex o W Hr. rewrite Hg.
  destruct (jump_ok x ev b o Hx W) as (o1 & E1 & W1 & G1 & C1 & S1).
  exists o1. split; [done|]. split; [done | by apply grows_adv_nob | rewrite Hl; intros k Hk; inversion Hk|].
  intros g L A HL n en st p m r He Hb HR. destruct n as [|n]; [done|].
  destruct en as [|k|]; [| destruct Hb as [Hk _]; rewrite Hl in Hk; inversion Hk
    | destruct Hb as (c & Hc & _); rewrite Hh in Hc; done].
  destruct (Hex n st r He) as [Hn Hj]. split; [intros ?; by destruct Hn|]. apply Hj. intros s' Hs. by eapply S1.
Qed.

Lemma break_correct v : is_Some (blk_break v) -> correct v s_break.
Proof using Laws ExprLaws.
  intros [[b to] Hb]. eapply (jump_correct v _ (gen_scope_leave (path v) to) (unwind (path v) to) b);
    [by simpl; unfold gen_stmt_break, gen_stmt_continue; rewrite Hb | apply scope_leave_frag | done | done |].
  intros n st r [= <-]. split; [done|]. intros L epi g p m H b' to' s' Hb' Hs. simpl in Hs.
  assert (b' = b) as -> by congruence. assert (to' = to) as -> by congruence. auto.
Qed.

Lemma continue_correct v : is_Some (blk_continue v) -> correct v s_continue.
Proof using Laws ExprLaws.
  intros [[b to] Hb]. eapply (jump_correct v _ (gen_scope_leave (path v) to) (unwind (path v) to) b);
    [by simpl; unfold gen_stmt_break, gen_stmt_continue; rewrite Hb | apply scope_leave_frag | done | done |].
  intros n st r [= <-]. split; [done|]. intros L epi g p m H b' to' s' Hb' Hs. simpl in Hs.
  assert (b' = b) as -> by congruence. assert (to' = to) as -> by congruence. auto.
Qed.


Lemma noop_correct v : correct v s_noop.
Proof. by eapply (frag_correct v _ (mret tt) Some); [| apply frag_ret | | |]. Qed.

Lemma expr_correct v e is_volatile : correct v (s_expr e is_volatile).
Proof using Laws ExprLaws.
  eapply (frag_correct v _ (x ← gen_expr e; if is_volatile : bool then out_asm (force_read x) else mret tt)
    (fun s => '(s', _) ← eval e s; Some s')); [done | | done | done |].
  2: { intros n st. simpl. by destruct (eval e st) as [[]|]. }
  intros o W. destruct (expr_ok e o W) as (x & o1 & E1 & W1 & G1 & L1 & C1 & S1).
  rewrite (G_step _ _ _ _ _ E1). destruct is_volatile.
  - destruct (asm_ok (force_read x) o1 W1) as (o2 & E2 & W2 & G2 & C2 & L2 & V2 & U2 & S2).
    exists o2. split_and!; try done; [by eapply grows_none|].
    intros g A p s m s' Hp HR Hev. apply bind_Some in Hev as ([s1 n] & He & [= <-]).
    destruct (S1 g nob) with p s m s1 n as (p1 & m1 & Hp1 & R1 & HR1 & D1 & K1); try done.
    { by eapply agree_grows. }
    destruct (S2 g nob p1 m1 A) as (p2 & Hp2 & R2); try done.
    exists p2, (execs (force_read x) m1).
    split_and!; [done | by etrans | by apply (force_read_R (BackendOk := Laws)) |].
    intros w c Hw Hd. by apply (force_read_keeps (BackendOk := Laws)), K1.
  - exists o1. split_and!; try done. intros g A p s m s' Hp HR Hev.
    apply bind_Some in Hev as ([s1 n] & He & [= <-]).
    destruct (S1 g nob) with p s m s1 n as (p1 & m1 & Hp1 & R1 & HR1 & D1 & K1); try done.
    by exists p1, m1.
Qed.

(** [out_ctrl_end_ret]: the value, if any, is in the return register. *)
Lemma end_ret_ok x o :
  wf o -> (forall v, x = Some v -> live (nvals o) v) ->
  exists o', out_ctrl_end_ret x o = Ok (tt, o') /\ wf o' /\ grows nob nok o o' /\ current_blk o' = None /\
    forall g, agree nob o' g -> forall p s m, here o p -> R s m ->
      exists m', runs g (p, m) ((epilogue_blk o, 0%nat), m') /\ R s m' /\
        forall v n, x = Some v -> denotes v m n -> returned m' n.
Proof using Laws.
  intros W Hx. unfold out_ctrl_end_ret.
  assert (H1 : exists o1, (match x with Some _ => out_asm (to_retreg x) | None => mret tt end) o = Ok (tt, o1) /\
    wf o1 /\ grows nob nok o o1 /\
    forall g, agree nob o1 g -> forall p s m, here o p -> R s m -> exists p1 m1, here o1 p1 /\
      runs g (p, m) (p1, m1) /\ R s m1 /\ forall v n, x = Some v -> denotes v m n -> returned m1 n).
  { destruct x as [v|].
    - destruct (asm_ok (to_retreg (Some v)) o W) as (o1 & E1 & W1 & G1 & C1 & L1 & V1 & U1 & S1).
      exists o1. split_and!; try done. intros g A p s m Hp HR.
      destruct (S1 g nob p m A) as (p1 & Hp1 & R1); try done.
      exists p1, (execs (to_retreg (Some v)) m). split_and!; [done | done | |].
      + by apply (retreg_R (BackendOk := Laws)).
      + intros w n [= <-] Hd. by apply (retreg_value (BackendOk := Laws)).
    - exists o. split_and!; try done; [apply grows_refl|]. intros g A p s m Hp HR.
      exists p, m. split_and!; [done | apply rtc_refl | done | done]. }
  destruct H1 as (o1 & E1 & W1 & G1 & S1).
  rewrite (G_step _ _ _ _ _ E1), (G_step _ _ o1 o1 o1) by done.
  destruct (transfer_ok (epilogue_blk o1) None o1 W1) as (o2 & E2 & W2 & G2 & C2 & L2 & V2 & _).
  rewrite (G_step _ _ _ _ _ E2), (G_step _ _ o2 o2 o2) by done.
  assert (Hs : set_current None o2 = o2) by (destruct o2; simpl in *; by subst).
  exists o2. rewrite Hs. split_and!; try done; [by eapply grows_none|].
  intros g A p s m Hp HR.
  destruct (S1 g) with p s m as (p1 & m1 & Hp1 & R1 & HR1 & V); try done; [by eapply agree_grows|].
  exists (execs (spill o1 None) m1). split_and!.
  - etrans; [exact R1|]. rewrite <-(gr_epi _ _ _ _ G1).
    eapply (transfer_runs (epilogue_blk o1) None o1 o2 g nob); eauto.
  - by apply (spill_R (BackendOk := Laws)).
  - intros v n Hv Hd. apply (spill_returned (BackendOk := Laws)). by eapply V.
Qed.

(** The value of a [return], where control is after it. *)
Lemma return_value_ok (e : option E) o :
  wf o ->
  exists x o', (match e with Some e => x ← gen_expr e; mret (Some x) | None => mret None end) o = Ok (x, o') /\
    wf o' /\ grows nob nok o o' /\ (forall v, x = Some v -> live (nvals o') v) /\
    forall g, agree nob o' g -> forall p s m s' y, here o p -> R s m ->
      match e with Some e => '(s1, n) ← eval e s; Some (s1, Some n) | None => Some (s, None) end = Some (s', y) ->
      exists p' m', here o' p' /\ runs g (p, m) (p', m') /\ R s' m' /\
        forall n, y = Some n -> exists v, x = Some v /\ denotes v m' n.
Proof using ExprLaws.
  intros W. destruct e as [e|].
  - destruct (expr_ok e o W) as (x & o1 & E1 & W1 & G1 & L1 & C1 & S1).
    rewrite (G_step _ _ _ _ _ E1). exists (Some x), o1. split_and!; try done; [by intros ? [= <-]|].
    intros g A p s m s' y Hp HR Hev. apply bind_Some in Hev as ([s1 n] & He & [= <- <-]).
    destruct (S1 g nob) with p s m s1 n as (p1 & m1 & Hp1 & R1 & HR1 & D1 & K1); try done.
    exists p1, m1. split_and!; try done. intros n' [= <-]. eauto.
  - exists None, o. split_and!; try done; [apply grows_refl|].
    intros g A p s m s' y Hp HR [= <- <-]. exists p, m. split_and!; [done | apply rtc_refl | done | done].
Qed.

(** A return that is neither checked nor inline. *)
Lemma gen_return_plain (v : env) (e : option E) o :
  returns_nonnull v = false -> inline_phi v = None ->
  gen_stmt_return v e o
  = (ret_exp ← gen_ret_exp e; _ ← gen_scope_leave (path v) []; out_ctrl_end_ret ret_exp) o.
Proof.
  intros Hn Hi. unfold gen_stmt_return. rewrite Hi. unfold mbind, G_bind. destruct (gen_ret_exp e o) as [[x o1]| | | |]; try done.
  destruct e as [e|], x as [x|]; try done. by rewrite Hn, andb_false_r.
Qed.

Lemma return_correct v e : returns_nonnull v = false -> inline_phi v = None -> correct v (s_return e).
Proof using Laws ExprLaws.
  intros Hn Hi o W _. simpl. rewrite gen_return_plain by done. unfold gen_ret_exp. destruct (return_value_ok e o W) as (x & o1 & E1 & W1 & G1 & V1 & S1).
  rewrite (G_step _ _ _ _ _ E1).
  destruct (scope_leave_frag (path v) [] o1 W1) as (o2 & E2 & W2 & G2 & S2).
  rewrite (G_step _ _ _ _ _ E2).
  destruct (end_ret_ok x o2 W2) as (o3 & E3 & W3 & G3 & C3 & S3).
  { intros w Hw. eapply live_mono; [apply (gr_vals _ _ _ _ G2) | by apply V1]. }
  rewrite E3. exists o3. split; [done|].
  pose proof (grows_none _ _ _ _ _ G2 G3) as G13. pose proof (grows_none _ _ _ _ _ G1 G13) as G03.
  split; [done | by apply grows_adv_nob | by intros k Hk; inversion Hk|].
  intros g L A HL n en st p m r He Hb HR. destruct n as [|n]; [done|].
  destruct en as [|k|]; [| destruct Hb as [Hk _]; inversion Hk | by destruct Hb as (b & [=] & _)].
  assert (Hr : exists s1 y, r = (Ret y, s1) /\
    match e with Some e => '(s1, n) ← eval e st; Some (s1, Some n) | None => Some (st, None) end = Some (s1, y)).
  { simpl in He. destruct e as [e|]; [|injection He as <-; by eexists _, _].
    destruct (eval e st) as [[s1 y]|]; [|done]. injection He as <-. by eexists _, _. }
  destruct Hr as (s1 & y & -> & Hev). split; [by intros [=]|]. intros s' Hs. simpl in Hs.
  destruct (S1 g) with p st m s1 y as (p1 & m1 & Hp1 & R1 & HR1 & D1); try done; [by eapply agree_grows|].
  destruct (S2 g) with p1 s1 m1 s' as (p2 & m2 & Hp2 & R2 & HR2 & K2); try done; [by eapply agree_grows|].
  destruct (S3 g A p2 s' m2 Hp2 HR2) as (m3 & R3 & HR3 & D3).
  exists m3. split_and!; [| done |].
  - rewrite (gr_epi _ _ _ _ G03), <-(gr_epi _ _ _ _ (grows_none _ _ _ _ _ G1 G2)).
    etrans; [exact R1|]. by etrans.
  - intros n' Hn'. destruct (D1 n' Hn') as (w & Hw & Hd). apply (D3 w n' Hw), K2; [by apply V1 | done].
Qed.

(** A computed [goto]: its code is there, and the block ends. *)
Lemma transfer_exp_ok x o :
  wf o -> exists o', out_ctrl_transfer_exp x o = Ok (tt, o') /\ wf o' /\ grows nob nok o o' /\ current_blk o' = None.
Proof.
  intros W. unfold out_ctrl_transfer_exp. rewrite (G_step _ _ o o o) by done.
  destruct (asm_ok (mst := mst) (spill o (Some x)) o W) as (o1 & E1 & W1 & G1 & _). rewrite (G_step _ _ _ _ _ E1).
  destruct (terminate_ok (BLK_NEXT_EXPR (jmp_addr x)) None o1 W1 eq_refl) as (o2 & E2 & W2 & G2 & C2 & _).
  exists o2. split_and!; try done. by eapply grows_none.
Qed.

Lemma goto_exp_correct v e : correct v (s_goto_exp e).
Proof using Laws ExprLaws.
  intros o W _. simpl. unfold gen_stmt_goto_exp. destruct (expr_ok e o W) as (x & o1 & E1 & W1 & G1 & _).
  rewrite (G_step _ _ _ _ _ E1). destruct (transfer_exp_ok x o1 W1) as (o2 & E2 & W2 & G2 & C2).
  exists o2. split; [done|]. pose proof (grows_none _ _ _ _ _ G1 G2) as G02.
  split; [done | by apply grows_adv_nob | by intros k Hk; inversion Hk|].
  intros g L A HL n en st p m r He. destruct n as [|n]; done.
Qed.

(** ** Labels *)

Lemma getblk_adv l o :
  wf o ->
  exists b o', label_getblk (Lbl l) o = Ok (b, o') /\ wf o' /\ adv nob nok o o' /\
    current_blk o' = current_blk o /\ label_to_blk o' !! Lbl l = Some b /\
    (forall p, here o p -> here o' p) /\ (ready_key o (Lbl l) -> clean o' b).
Proof.
  intros W. destruct (label_getblk_ok l o W) as (b & o' & Eb & W' & G' & C' & Hb & H' & Hnew).
  exists b, o'. split_and!; try done.
  - split; [| | by intros].
    + eapply grows_weaken; [exact G' | auto | intros k <-; right; by eexists].
    + intros k _ Hk b' Hb'. destruct (gr_new _ _ _ _ G' _ _ Hb') as [Hold | [Hlt <-]].
      * eapply grows_clean; [exact G' | by apply Hk | auto].
      * destruct Hnew as [Heq | (Hn & Hc & Heq)]; [|congruence].
        rewrite Heq in Hb'. eapply grows_clean; [exact G' | by apply Hk | auto].
  - intros Hr. destruct Hnew as [Heq | (Hn & Hc & Heq)]; [|done].
    eapply grows_clean; [exact G' | apply Hr; by rewrite <-Heq | auto].
Qed.

Lemma goto_correct v l : correct v (s_goto l).
Proof using Laws ExprLaws.
  intros o W _. simpl. unfold gen_stmt_goto.
  destruct (scope_leave_frag (path v) (label_scope v l) o W) as (o1 & E1 & W1 & G1 & S1).
  rewrite (G_step _ _ _ _ _ E1).
  destruct (getblk_adv l o1 W1) as (b & o2 & E2 & W2 & A2 & C2 & Hb & H2 & _).
  rewrite (G_step _ _ _ _ _ E2).
  destruct (goto_blk_ok b o2 W2) as (o3 & E3 & W3 & G3 & C3 & S3). rewrite E3.
  exists o3. split; [done|]. pose proof (grows_adv_nob _ _ nok G3) as A3.
  pose proof (adv_trans _ _ _ _ _ _ _ A2 A3) as A13.
  split; [done | | by intros k Hk; inversion Hk |].
  - eapply adv_new; [apply (adv_trans _ _ _ _ _ _ _ (grows_adv_nob _ _ nok G1) A13) | by intros ? [[]|[[]|[]]] |].
    by intros ? [[]|[[]|[]]].
  - intros g L A HL n en st p m r He Hbe HR. destruct n as [|n]; [done|].
    destruct en as [|k|]; [| destruct Hbe as [Hk _]; inversion Hk | by destruct Hbe as (c & [=] & _)].
    injection He as <-. split; [by intros [=]|]. intros b' s' Hb' Hs. simpl in Hs.
    assert (b' = b) as ->.
    { pose proof (lookup_weaken _ _ _ _ (adv_lbl _ _ _ _ _ _ A3 Hb) HL). congruence. }
    destruct (S1 g) with p st m s' as (p1 & m1 & Hp1 & R1 & HR1 & _); try done; [by eapply adv_agree|].
    eapply reaches_after; [exact R1|]. eapply S3; [done | by apply H2 | done].
Qed.

Lemma frees_labels c s : c ∈ frees s -> Cse c ∈ labels s.
Proof.
  induction s as [| |sc ss IH|sc e lhs rhs IHl IHr|sc e lhs IH|e lhs IH|sc i w inc lhs IH|sc e cs d lhs IH
    |c' lhs IH|l b lhs IH| | | | |] using stmt_ind'; simpl; intros H; try (by inversion H); try (by apply IH).
  - induction IH as [|s ss Hs _ IHs]; simpl in *; [by inversion H|].
    apply elem_of_app in H as [H | H]; apply elem_of_app; [left; by apply Hs | right; by apply IHs].
  - apply elem_of_app in H as [H | H]; apply elem_of_app; [left; by apply IHl|].
    right. destruct rhs as [r|]; [by apply (IHr r) | by inversion H].
  - apply elem_of_cons in H as [-> | H]; [left | right; by apply IH].
  - right. by apply IH.
Qed.

(** Getting to a part of a statement: what the part asks for is still there. *)
Lemma ready_part B (K : key -> Prop) s part o o' :
  ready s o -> adv B K o o' ->
  (forall k, k ∈ labels part -> k ∈ labels s /\ ~ K k) ->
  (forall c, c ∈ frees part <-> c ∈ frees s /\ Cse c ∈ labels part) -> ready part o'.
Proof.
  intros [H1 H2 H3] A HK HF. split.
  - intros k Hk. destruct (HK k Hk) as [Hs HnK]. apply (adv_ready _ _ _ _ A); auto.
  - intros c Hc. apply HF in Hc as [Hc _]. destruct (H2 c Hc) as [b Hb]. exists b. by eapply adv_lbl.
  - intros c Hc Hn. destruct (HK _ Hc) as [Hs HnK]. eapply adv_case; [exact A | done |].
    apply H3; [done|]. intros Hf. apply Hn, HF. auto.
Qed.

(** Beginning the block of a label. *)
Lemma grows_adv_key k b o o' :
  wf o -> grows (eq b) nok o o' -> label_to_blk o !! k = Some b -> adv nob (eq k) o o'.
Proof.
  intros W Gr Hb. split; [| | by intros].
  - eapply grows_weaken; [exact Gr | | by intros ? []]. intros c _ _ <-. right. by exists k.
  - intros k' Hne H c Hc. destruct (gr_new _ _ _ _ Gr _ _ Hc) as [Hc' | [_ []]].
    eapply grows_clean; [exact Gr | by apply H |]. intros ->. by apply Hne, (wf_inj _ W k k' c).
Qed.

(** A label, a [case] or a [default]: its block, then the statement after. *)
Lemma labelled_correct v s lhs k :
  labels s = k :: labels lhs -> loop_head s = (fun _ => None) -> NoDup (labels s) ->
  (forall c, c ∈ frees lhs <-> c ∈ frees s /\ Cse c ∈ labels lhs) ->
  (forall n en st, exec_stmt (S n) s en st =
     match en with
     | At k' => if decide (k' = k) then exec_stmt n lhs Start st else exec_stmt n lhs en st
     | _ => exec_stmt n lhs Start st
     end) ->
  (forall o, wf o -> ready s o -> exists b o1, gen_stmt s v o = gen_stmt lhs v o1 /\ wf o1 /\
     adv nob (eq k) o o1 /\ label_to_blk o1 !! k = Some b /\ here o1 (b, 0%nat) /\
     forall g, agree nob o1 g -> forall p s m, here o p -> R s m -> reaches g p m s b) ->
  correct v lhs -> correct v s.
Proof.
  intros Hl Hh Hnd Hf Hex Hgen Hlhs o W Hr.
  destruct (Hgen o W Hr) as (b & o1 & Eg & W1 & A1 & Hb & H1 & S1). rewrite Eg.
  rewrite Hl in Hnd. apply NoDup_cons in Hnd as [Hk Hnd].
  destruct (Hlhs o1 W1) as (o2 & E2 & [W2 A2 L2 S2]).
  { eapply ready_part; [exact Hr | exact A1 | | done]. intros k' Hk'. rewrite Hl. split; [by right|].
    by intros <-. }
  exists o2. split; [done|]. split; [done | | |].
  - eapply adv_new; [apply (adv_trans _ _ _ _ _ _ _ A1 A2) | by intros ? [[]|[]] |].
    rewrite Hl. intros k' [<- | H]; [left | by right].
  - intros k'. rewrite Hl. intros [-> | H]%elem_of_cons; [exists b; by eapply adv_lbl | by apply L2].
  - intros g L A HL n en st p m r He Hbe HR. destruct n as [|n]; [done|]. rewrite Hex in He.
    assert (Hb2 : L !! k = Some b).
    { eapply lookup_weaken; [|exact HL]. by eapply adv_lbl. }
    assert (Hgo : forall m0, R st m0 -> exec_stmt n lhs Start st = Some r ->
      falls o2 g (b, 0%nat) m0 r /\ jumps v L (epilogue_blk o2) g (b, 0%nat) m0 r).
    { intros m0 HR0 He'. by eapply (S2 g L A HL n Start). }
    destruct en as [|k'|].
    + destruct (S1 g (adv_agree _ _ _ _ _ _ A2 A) p st m Hbe HR) as (m1 & R1 & HR1).
      destruct (Hgo m1 HR1 He) as [F J]. split; [by eapply falls_after | by eapply jumps_after].
    + destruct Hbe as (Hk' & b' & Hb' & ->). destruct (decide (k' = k)) as [->|Hne].
      * assert (b' = b) as -> by congruence. by apply Hgo.
      * eapply (S2 g L A HL n (At k')); [done | | done]. split; [|by eexists].
        rewrite Hl in Hk'. by apply elem_of_cons in Hk' as [].
    + destruct Hbe as (c & Hc & _). by rewrite Hh in Hc.
Qed.

Lemma label_correct v l must lhs :
  NoDup (labels (s_label l must lhs)) -> correct v lhs -> correct v (s_label l must lhs).
Proof using Laws.
  intros Hnd. apply (labelled_correct v _ lhs (Lbl l)); try done.
  { intros c. simpl. split; [intros H; split; [done | by apply frees_labels] | tauto]. }
  intros o W Hr. simpl. unfold gen_stmt_label. destruct (getblk_adv l o W) as (b & o1 & E1 & W1 & A1 & C1 & Hb & H1 & K1).
  rewrite (G_step _ _ _ _ _ E1). set (om := if must then set_mustgen (mustgen o1 ++ [b]) o1 else o1).
  assert (Em : (if must : bool then out_blk_mustgen b else mret tt) o1 = Ok (tt, om)) by (by destruct must).
  rewrite (G_step _ _ _ _ _ Em).
  assert (Hsame : blocks om = blocks o1 /\ current_blk om = current_blk o1 /\
    label_to_blk om = label_to_blk o1 /\ wf om /\ grows nob nok o1 om /\ forall p, here o1 p -> here om p).
  { destruct must; subst om; split_and!; try done.
    - by destruct W1.
    - destruct (grows_refl o1). by split.
    - apply grows_refl. }
  destruct Hsame as (Bm & Cm & Lm & Wm & Gm & Hm).
  assert (Hclean : clean o1 b) by (apply K1, Hr; left).
  assert (Km : clean om b) by (unfold clean; by rewrite Bm, Cm).
  destruct (make_current_ok om b Wm Km) as (o2 & E2 & W2 & G2 & C2 & L2 & H2 & K2 & S2).
  rewrite (G_step _ _ _ _ _ E2). exists b, o2. split_and!; try done.
  - assert (Ak : adv nob (eq (Lbl l)) om o2) by (by apply (grows_adv_key _ b); [| | rewrite Lm]).
    eapply adv_new; [apply (adv_trans _ _ _ _ _ _ _ A1 (adv_trans _ _ _ _ _ _ _ (grows_adv_nob _ _ nok Gm) Ak)) | |].
    + by intros ? [[]|[[]|[]]].
    + by intros ? [[]|[[]|]].
  - by rewrite L2, Lm.
  - intros g A p s m Hp HR. destruct (S2 g A p s m (Hm _ (H1 _ Hp)) HR) as (m' & R' & HR' & _). by exists m'.
Qed.

Lemma case_correct v c lhs :
  NoDup (labels (s_case c lhs)) -> correct v lhs -> correct v (s_case c lhs).
Proof using Laws.
  intros Hnd. pose proof Hnd as Hnd'. simpl in Hnd'. apply NoDup_cons in Hnd' as [Hc _].
  apply (labelled_correct v _ lhs (Cse c)); try done.
  { intros c'. simpl. rewrite elem_of_cons. split.
    - intros H. split; [by right | by apply frees_labels].
    - intros [[-> | H] H']; [by destruct Hc | done]. }
  intros o W Hr. simpl. unfold gen_stmt_case. destruct (rd_free _ _ Hr c ltac:(left)) as [b Hb].
  assert (Eb : case_blk c o = Ok (b, o)).
  { unfold case_blk. rewrite (G_step _ _ o o o) by done. by rewrite Hb. }
  rewrite (G_step _ _ _ _ _ Eb).
  destruct (make_current_ok o b W (rd_key _ _ Hr (Cse c) ltac:(left) b Hb))
    as (o2 & E2 & W2 & G2 & C2 & L2 & H2 & K2 & S2).
  rewrite (G_step _ _ _ _ _ E2). exists b, o2. split_and!; try done.
  - by apply (grows_adv_key _ b).
  - by rewrite L2.
  - intros g A p s m Hp HR. destruct (S2 g A p s m Hp HR) as (m' & R' & HR' & _). by exists m'.
Qed.

(** ** One statement after the other *)

Definition all_labels (ss : list stmt) : list key := concat (map labels ss).
Definition all_frees (ss : list stmt) : list nat := concat (map frees ss).

Record implements_seq (v : env) (ss : list stmt) (o o' : ctx) : Prop := {
  is_wf : wf o';
  is_adv : adv nob (fun k => k ∈ all_labels ss) o o';
  is_lbl k : k ∈ all_labels ss -> is_Some (label_to_blk o' !! k);
  is_run g L : agree nob o' g -> label_to_blk o' ⊆ L ->
    forall n en st p m r, run_seq (exec_stmt n) ss en st = Some r ->
      match en with
      | Start => here o p
      | At k => k ∈ all_labels ss /\ exists b, L !! k = Some b /\ p = (b, 0%nat)
      | Again => False
      end -> R st m ->
      falls o' g p m r /\ jumps v L (epilogue_blk o') g p m r }.

Lemma adv_epi B K o o' : adv B K o o' -> epilogue_blk o' = epilogue_blk o.
Proof. intros A. apply (gr_epi _ _ _ _ (adv_grows _ _ _ _ A)). Qed.

Lemma adv_lbls B K o o' : adv B K o o' -> label_to_blk o ⊆ label_to_blk o'.
Proof. intros A. apply (gr_lbl _ _ _ _ (adv_grows _ _ _ _ A)). Qed.

Lemma seq_correct v ss o :
  Forall (correct v) ss -> NoDup (all_labels ss) -> wf o ->
  (forall k, k ∈ all_labels ss -> ready_key o k) ->
  (forall c, c ∈ all_frees ss -> is_Some (label_to_blk o !! Cse c)) ->
  (forall c, Cse c ∈ all_labels ss -> c ∉ all_frees ss -> label_to_blk o !! Cse c = None) ->
  exists o', gen_stmts (fun s => gen_stmt s v) ss o = Ok (tt, o') /\ implements_seq v ss o o'.
Proof using Laws ExprLaws.
  intros HF. revert o. induction HF as [|s ss Hs HF IH]; intros o Hnd W H1 H2 H3.
  { exists o. split; [done|]. split; [done | apply grows_adv_nob, grows_refl | by intros k Hk; inversion Hk |].
    intros g L A HL n en st p m r He Hb HR. destruct en as [|k|]; simpl in He; [| done | done].
    injection He as <-. split; [|done]. intros _. exists p, m. split_and!; [done | apply rtc_refl | done]. }
  unfold all_labels, all_frees in *. simpl in *. apply NoDup_app in Hnd as (Hnd1 & Hdis & Hnd2).
  destruct (Hs o W) as (o1 & E1 & [W1 A1 L1 S1]).
  { split.
    - intros k Hk. apply H1, elem_of_app. by left.
    - intros c Hc. apply H2, elem_of_app. by left.
    - intros c Hc Hn. apply H3; [apply elem_of_app; by left|]. intros [H|H]%elem_of_app; [done|].
      apply (Hdis _ Hc). clear - H. induction ss as [|s' ss IHs]; simpl in *; [by inversion H|].
      apply elem_of_app in H as [H|H]; apply elem_of_app; [left; by apply frees_labels | right; auto]. }
  rewrite (G_step _ _ _ _ _ E1).
  assert (Hdis' : forall k, k ∈ concat (map labels ss) -> k ∉ labels s).
  { intros k Hk Hk'. by apply (Hdis k). }
  destruct (IH o1) as (o2 & E2 & [W2 A2 L2 S2]); [done | done | | | |].
  { intros k Hk. apply (adv_ready _ _ _ _ A1); [by apply Hdis' | apply H1, elem_of_app; by right]. }
  { intros c Hc. destruct (H2 c) as [b Hb]; [apply elem_of_app; by right|]. exists b. by eapply adv_lbl. }
  { intros c Hc Hn. eapply adv_case; [exact A1 | by apply Hdis'|].
    apply H3; [apply elem_of_app; by right|]. intros [H|H]%elem_of_app; [|done].
    by apply (Hdis' _ Hc), frees_labels. }
  exists o2. split; [done|]. split; [done | | |].
  - eapply adv_new; [apply (adv_trans _ _ _ _ _ _ _ A1 A2) | by intros ? [[]|[]] |].
    intros k Hk. by apply elem_of_app.
  - intros k [Hk | Hk]%elem_of_app; [|by apply L2]. destruct (L1 k Hk) as [b Hb].
    exists b. by eapply adv_lbl.
  - intros g L A HL n en st p m r He Hb HR. pose proof (adv_agree _ _ _ _ _ _ A2 A) as A01.
    assert (HL1 : label_to_blk o1 ⊆ L) by (etrans; [by eapply adv_lbls | done]).
    assert (Hhere : forall en' r', exec_stmt n s en' st = Some r' -> begins o s L en' p ->
      (match r'.1 with Normal => run_seq (exec_stmt n) ss Start r'.2 | _ => Some r' end) = Some r ->
      falls o2 g p m r /\ jumps v L (epilogue_blk o2) g p m r).
    { intros en' r' He' Hb' Hr'. destruct (S1 g L A01 HL1 n en' st p m r' He' Hb' HR) as [F1 J1].
      rewrite (adv_epi _ _ _ _ A2). destruct r' as [out s']. unfold falls in F1.
      destruct out; try (injection Hr' as <-; split; [by intros [=] | exact J1]).
      destruct (F1 eq_refl) as (p1 & m1 & Hp1 & R1 & HR1).
      destruct (S2 g L A HL n Start s' p1 m1 r Hr' Hp1 HR1) as [F2 J2].
      rewrite (adv_epi _ _ _ _ A2) in J2.
      split; [by eapply falls_after | by eapply jumps_after]. }
    destruct en as [|k|]; [| | done].
    + simpl in He. apply bind_Some in He as ([out s'] & He & Hr). by eapply (Hhere Start).
    + destruct Hb as (Hk & b & Hb & ->). simpl in He. unfold holds in He.
      destruct (bool_decide (k ∈ labels s)) eqn:Hks.
      * apply bool_decide_eq_true in Hks. apply bind_Some in He as ([out s'] & He & Hr).
        eapply (Hhere (At k)); [done | by split; [|exists b] | done].
      * apply bool_decide_eq_false in Hks. eapply (S2 g L A HL n (At k)); [done | | done].
        apply elem_of_app in Hk as [|Hk]; [done|]. by split; [|exists b].
Qed.

(** ** Statements with a scope *)

Lemma located ls p s l : scopes_ok ls p s -> Lbl l ∈ labels s -> exists q, ls l = q ++ p.
Proof.
  revert p. induction s as [| |sc ss IH|sc e lhs rhs IHl IHr|sc e lhs IH|e lhs IH|sc i w inc lhs IH
    |sc e cs d lhs IH|c lhs IH|l' b lhs IH| | | | |] using stmt_ind'; intros p H Hl; simpl in *; try (by inversion Hl).
  - destruct H as [_ H]. induction IH as [|s ss Hs _ IHs]; simpl in *; [by inversion Hl|].
    destruct H as [H1 H2]. apply elem_of_app in Hl as [Hl | Hl]; [|by apply IHs].
    destruct (Hs _ H1 Hl) as [q Hq]. exists (q ++ [sid sc]). by rewrite <-app_assoc.
  - destruct H as (_ & H1 & H2). apply elem_of_app in Hl as [Hl | Hl].
    + destruct (IHl _ H1 Hl) as [q Hq]. exists (q ++ [sid sc]). by rewrite <-app_assoc.
    + destruct rhs as [r|]; [|by inversion Hl]. destruct (IHr r eq_refl _ H2 Hl) as [q Hq].
      exists (q ++ [sid sc]). by rewrite <-app_assoc.
  - destruct H as [_ H]. destruct (IH _ H Hl) as [q Hq]. exists (q ++ [sid sc]). by rewrite <-app_assoc.
  - by apply IH.
  - destruct H as [_ H]. destruct (IH _ H Hl) as [q Hq]. exists (q ++ [sid sc]). by rewrite <-app_assoc.
  - destruct H as [_ H]. destruct (IH _ H Hl) as [q Hq]. exists (q ++ [sid sc]). by rewrite <-app_assoc.
  - apply elem_of_cons in Hl as [[=] | Hl]. by apply IH.
  - destruct H as [Hp H]. apply elem_of_cons in Hl as [[= ->] | Hl]; [by exists [] | by apply IH].
Qed.

(** A statement [s] with scope [sc], and the context [v'] of what is in it. *)
Record scoped (v v' : env) (sc : scope) (s : stmt) : Prop := {
  sd_path : path v' = sc :: path v;
  sd_labels : label_scope v' = label_scope v;
  sd_new : sid sc ∉ sids (path v);
  sd_out : outside (label_scope v) (sid sc) s;
  sd_in l : Lbl l ∈ labels s -> sid sc ∈ label_scope v l;
  sd_brk b to : blk_break v = Some (b, to) -> to ⊆ sids (path v);
  sd_cont b to : blk_continue v = Some (b, to) -> to ⊆ sids (path v) }.

(** The end of what is in a scope: falling out runs its destructors, jumping
    out runs them first, and jumping to a label in it does not. *)
Lemma scope_end v v' sc s L epi g o3 p m r r' n :
  scoped v v' sc s ->
  (r.1 = Brk -> blk_break v' = blk_break v) -> (r.1 = Cont -> blk_continue v' = blk_continue v) ->
  (r.1 = Normal -> forall s', leave sc r.2 = Some s' ->
     exists p' m', here o3 p' /\ runs g (p, m) (p', m') /\ R s' m') ->
  jumps v' L epi g p m r ->
  (forall l b m1 r', Lbl l ∈ labels s -> L !! Lbl l = Some b -> R r.2 m1 ->
     exec_stmt n s (At (Lbl l)) r.2 = Some r' ->
     falls o3 g (b, 0%nat) m1 r' /\ jumps v L epi g (b, 0%nat) m1 r') ->
  (forall k, k ∈ labels s -> is_Some (L !! k)) ->
  unscope (exec_stmt n) s sc r = Some r' -> falls o3 g p m r' /\ jumps v L epi g p m r'.
Proof.
  intros [Hp Hls Hn Ho Hi Hb Hc] Hbrk Hcont F J IH HL Hu. destruct r as [out s1].
  unfold jumps, falls, unscope in *. rewrite Hp, Hls in J. simpl in *.
  assert (Hout : forall to s2 s', to ⊆ sids (path v) -> leave sc s1 = Some s2 -> unwind (path v) to s2 = Some s' ->
    (if decide (sid sc ∈ to) then Some s1 else s' ← leave sc s1; unwind (path v) to s') = Some s').
  { intros to s2 s' Hto Hl Hs. rewrite decide_False by (intros H; by apply Hn, Hto). by rewrite Hl. }
  destruct out as [| | |l|x].
  - apply bind_Some in Hu as (s2 & Hl & [= <-]). split; [|done]. intros _. by apply F.
  - apply bind_Some in Hu as (s2 & Hl & [= <-]). split; [by intros [=]|]. simpl.
    intros b to s' Hbt Hs. rewrite Hbrk in J by done. eapply J; [exact Hbt|]. eapply Hout; eauto.
  - apply bind_Some in Hu as (s2 & Hl & [= <-]). split; [by intros [=]|]. simpl.
    intros b to s' Hbt Hs. rewrite Hcont in J by done. eapply J; [exact Hbt|]. eapply Hout; eauto.
  - unfold holds in Hu. destruct (bool_decide (Lbl l ∈ labels s)) eqn:Hin.
    + apply bool_decide_eq_true in Hin. destruct (HL _ Hin) as [b Hbl].
      destruct (J b s1 Hbl) as (m1 & R1 & HR1); [simpl; by rewrite decide_True by auto|].
      destruct (IH l b m1 r' Hin Hbl HR1 Hu) as [F' J']. split; [|by eapply jumps_after].
      intros Hr'. destruct (F' Hr') as (p2 & m2 & Hp2 & R2 & HR2). exists p2, m2. split_and!; [done | by etrans | done].
    + apply bool_decide_eq_false in Hin. apply bind_Some in Hu as (s2 & Hl & [= <-]). split; [by intros [=]|]. simpl.
      intros b s' Hbl Hs. apply (J b s' Hbl). simpl. rewrite decide_False by (by apply Ho). by rewrite Hl.
  - apply bind_Some in Hu as (s2 & Hl & [= <-]). split; [by intros [=]|]. simpl.
    intros s' Hs. apply J. cbn [unwind]. by rewrite Hl.
Qed.

Lemma code_correct v sc ss :
  scoped v (push sc v) sc (s_code sc ss) -> NoDup (all_labels ss) -> Forall (correct (push sc v)) ss ->
  correct v (s_code sc ss).
Proof using Laws ExprLaws.
  intros Hsd Hnd HF o W Hr. simpl. unfold gen_stmt_code. destruct (block_decls_frag sc o W) as (o1 & E1 & W1 & G1 & S1).
  rewrite (G_step _ _ _ _ _ E1). pose proof (grows_adv_nob _ _ nok G1) as A1.
  destruct (seq_correct (push sc v) ss o1 HF Hnd W1) as (o2 & E2 & [W2 A2 L2 S2]).
  { intros k Hk. apply (adv_ready _ _ _ _ A1); [by intros []|]. by apply Hr. }
  { intros c Hc. destruct (rd_free _ _ Hr c Hc) as [b Hb]. exists b. exact (adv_lbl _ _ _ _ _ _ A1 Hb). }
  { intros c Hc Hn. eapply adv_case; [exact A1 | by intros [] | by apply (rd_case _ _ Hr)]. }
  rewrite (G_step _ _ _ _ _ E2).
  destruct (leave_parent_frag sc (path v) (sd_new _ _ _ _ Hsd) o2 W2) as (o3 & E3 & W3 & G3 & S3).
  rewrite E3. exists o3. split; [done|]. pose proof (grows_adv_nob _ _ nok G3) as A3.
  pose proof (adv_trans _ _ _ _ _ _ _ A2 A3) as A23.
  assert (A03 : adv nob (fun k => k ∈ labels (s_code sc ss)) o o3).
  { eapply adv_new; [apply (adv_trans _ _ _ _ _ _ _ A1 A23) | by intros ? [[]|[[]|[]]] |].
    by intros k [[]|[H|[]]]. }
  assert (L3 : forall k, k ∈ labels (s_code sc ss) -> is_Some (label_to_blk o3 !! k)).
  { intros k Hk. destruct (L2 k Hk) as [b Hb]. exists b. exact (adv_lbl _ _ _ _ _ _ A3 Hb). }
  split; try done. intros g L A HL.
  assert (A2' : agree nob o2 g) by exact (adv_agree _ _ _ _ _ _ A3 A).
  assert (HL2 : label_to_blk o2 ⊆ L) by (etrans; [exact (adv_lbls _ _ _ _ A3) | done]).
  assert (HLs : forall k, k ∈ labels (s_code sc ss) -> is_Some (L !! k)).
  { intros k Hk. destruct (L3 k Hk) as [b Hb]. exists b. by eapply lookup_weaken. }
  induction n as [|n IH]; intros en st p m r He Hb HR; [done|]. simpl in He.
  apply bind_Some in He as (r1 & He & Hu).
  assert (Hr1 : falls o2 g p m r1 /\ jumps (push sc v) L (epilogue_blk o3) g p m r1).
  { rewrite (adv_epi _ _ _ _ A3). destruct en as [|k|].
    - apply bind_Some in He as (s1 & Hs1 & He).
      destruct (S1 g) with p st m s1 as (p1 & m1 & Hp1 & R1 & HR1 & _); try done; [exact (adv_agree _ _ _ _ _ _ A23 A)|].
      destruct (S2 g L A2' HL2 n Start s1 p1 m1 r1 He Hp1 HR1) as [F J].
      split; [by eapply falls_after | by eapply jumps_after].
    - by apply (S2 g L A2' HL2 n (At k) st p m r1 He).
    - by destruct Hb as (b & [=] & _). }
  destruct Hr1 as [F1 J1].
  eapply (scope_end v (push sc v) sc _ L _ g o3 p m r1 r n Hsd); try done.
  - intros Hn s' Hl. destruct (F1 Hn) as (p1 & m1 & Hp1 & R1 & HR1).
    destruct (S3 g A p1 _ m1 s' Hp1 HR1 Hl) as (p2 & m2 & Hp2 & R2 & HR2 & _).
    exists p2, m2. split_and!; [done | by etrans | done].
  - intros l b m1 r' Hl Hbl HR1 He'. eapply (IH (At (Lbl l))); [done | | done]. split; [done|]. by exists b.
Qed.

(** ** The pieces of a flow statement *)

(** Selecting a block made for the statement. *)
Lemma select_adv (o : ctx) b :
  wf o -> unlabelled o b -> clean o b \/ here o (b, 0%nat) ->
  exists o', out_current_blk b o = Ok (tt, o') /\ wf o' /\ adv (eq b) nok o o' /\ here o' (b, 0%nat).
Proof.
  intros W Hu H. destruct (select_ok o b W H) as (o' & Es & W' & C' & B' & V' & H' & L' & G').
  exists o'. split_and!; try done. apply grows_adv; [done|]. by intros ? <- _.
Qed.

(** A test: its expression, and the branch. *)
Lemma test_ok (e : E) t f o :
  wf o -> free o t ->
  exists c oa o', gen_expr e o = Ok (c, oa) /\ out_ctrl_branch c t f oa = Ok (tt, o') /\ wf o' /\
    adv (eq t) nok o o' /\ here o' (t, 0%nat) /\ (forall b, clean o b -> b <> t -> clean o' b) /\
    forall g, agree nob o' g -> forall p s m s' n, here o p -> R s m -> eval e s = Some (s', n) ->
      reaches g p m s' (if n =? 0 then f else t).
Proof using Laws ExprLaws.
  intros W [Hc Hu]. destruct (expr_ok e o W) as (c & o1 & E1 & W1 & G1 & L1 & C1 & S1).
  destruct (branch_ok R denotes live returned c t f o1 W1) as (o2 & E2 & W2 & G2 & C2 & L2 & V2 & H2 & K2 & S2).
  { eapply grows_clean; eauto. }
  { done. }
  exists c, o1, o2. split_and!; try done.
  - apply grows_adv; [by eapply grows_none|]. by intros ? <- _.
  - intros b Hb Hne. apply K2; [eapply grows_clean; eauto | done].
  - intros g A p s m s' n Hp HR Hev.
    destruct (S1 g nob) with p s m s' n as (p1 & m1 & Hp1 & R1 & HR1 & D1 & _); try done.
    { by eapply agree_grows. }
    destruct (S2 g nob p1 s' m1 n A) as (m2 & R2 & HR2 & _); try done.
    exists m2. split; [by etrans | done].
Qed.

(** What a part of a statement does, its falling out excepted. *)
Definition part_runs (v : env) (run : nat -> entry -> sst -> option (outcome * sst)) (keys : list key)
    (o o' : ctx) (to : bid) : Prop :=
  forall g L, agree nob o' g -> label_to_blk o' ⊆ L ->
  forall n en st p m r, run n en st = Some r ->
    match en with
    | Start => here o p
    | At k => k ∈ keys /\ exists b, L !! k = Some b /\ p = (b, 0%nat)
    | Again => False
    end -> R st m ->
    (r.1 = Normal -> reaches g p m r.2 to) /\ jumps v L (epilogue_blk o') g p m r.

(** A part, and the jump after it. *)
Lemma part_ok v s to o :
  correct v s -> wf o -> ready s o ->
  exists oa o', gen_stmt s v o = Ok (tt, oa) /\ jump_to to oa = Ok (tt, o') /\ wf o' /\
    adv nob (fun k => k ∈ labels s) o o' /\ (forall k, k ∈ labels s -> is_Some (label_to_blk o' !! k)) /\
    part_runs v (fun n => exec_stmt n s) (labels s) o o' to.
Proof using Laws.
  intros Hs W Hr. destruct (Hs o W Hr) as (o1 & E1 & [W1 A1 L1 S1]).
  destruct (goto_blk_ok to o1 W1) as (o2 & E2 & W2 & G2 & C2 & S2).
  pose proof (grows_adv_nob _ _ nok G2) as A2.
  exists o1, o2. split_and!; try done.
  - eapply adv_new; [apply (adv_trans _ _ _ _ _ _ _ A1 A2) | by intros ? [[]|[]] | by intros k [H|[]]].
  - intros k Hk. destruct (L1 k Hk) as [b Hb]. exists b. exact (adv_lbl _ _ _ _ _ _ A2 Hb).
  - intros g L A HL n en st p m r He Hb HR. rewrite (adv_epi _ _ _ _ A2).
    destruct (S1 g L (adv_agree _ _ _ _ _ _ A2 A) ltac:(etrans; [exact (adv_lbls _ _ _ _ A2) | done])
      n en st p m r He) as [F J]; [by destruct en | done |].
    split; [|done]. intros Hn. destruct (F Hn) as (p1 & m1 & Hp1 & R1 & HR1).
    eapply reaches_after; [exact R1|]. by eapply S2.
Qed.

(** The same for an [else] that may not be there. *)
Definition run_opt (s : option stmt) (n : nat) (en : entry) (st : sst) : option (outcome * sst) :=
  match s with Some s => exec_stmt n s en st | None => Some (Normal, st) end.
Definition labels_opt (s : option stmt) : list key := match s with Some s => labels s | None => [] end.

Lemma part_opt_ok v (s : option stmt) to o :
  (forall x, s = Some x -> correct v x) -> wf o -> (forall x, s = Some x -> ready x o) ->
  exists oa o', (match s with Some s => gen_stmt s | None => fun _ => mret tt end) v o = Ok (tt, oa) /\
    jump_to to oa = Ok (tt, o') /\ wf o' /\
    adv nob (fun k => k ∈ labels_opt s) o o' /\
    (forall k, k ∈ labels_opt s -> is_Some (label_to_blk o' !! k)) /\
    part_runs v (run_opt s) (labels_opt s) o o' to.
Proof using Laws.
  intros Hs W Hr. destruct s as [s|]; [apply part_ok; auto|].
  destruct (goto_blk_ok to o W) as (o2 & E2 & W2 & G2 & C2 & S2).
  exists o, o2. split_and!; try done; [by apply grows_adv_nob | by intros k Hk; inversion Hk|].
  intros g L A HL n en st p m r [= <-] Hb HR. split; [|done]. intros _.
  destruct en as [|k|]; [by eapply S2 | destruct Hb as [Hk _]; inversion Hk | done].
Qed.

(** A block made before is still there to be selected. *)
Lemma free_after B K o o' b : adv B K o o' -> free o b -> ~ B b -> clean o' b /\ unlabelled o' b.
Proof. intros A Hb HB. exact (adv_free _ _ _ _ _ A Hb HB). Qed.

(** The chain of steps of a statement, with the blocks begun and the labels
    met as lists. *)
Definition advl (B : list bid) (K : list key) (o o' : ctx) : Prop :=
  adv (fun b => b ∈ B) (fun k => k ∈ K) o o'.

Lemma advl_none K o o' : adv nob (fun k => k ∈ K) o o' -> advl [] K o o'.
Proof.
  intros A. eapply adv_weaken; [exact A | by intros ? _ [] | | done].
  intros b Hb. by apply not_elem_of_nil in Hb.
Qed.

Lemma advl_grows o o' : grows nob nok o o' -> advl [] [] o o'.
Proof. intros Gr. by apply advl_none, grows_adv_nob. Qed.

Lemma advl_one b o o' : adv (eq b) nok o o' -> advl [b] [] o o'.
Proof.
  intros A. eapply adv_weaken; [exact A | | | by intros ? []].
  - intros c Hc <-. split; [left | by apply (adv_unl _ _ _ _ A)].
  - intros c Hc Hlt. apply list_elem_of_singleton in Hc as ->. by apply (adv_unl _ _ _ _ A).
Qed.

Lemma advl_trans B1 B2 K1 K2 o o1 o2 :
  advl B1 K1 o o1 -> advl B2 K2 o1 o2 -> advl (B1 ++ B2) (K1 ++ K2) o o2.
Proof.
  intros A1 A2. pose proof (adv_trans _ _ _ _ _ _ _ A1 A2) as A.
  eapply adv_weaken; [exact A | | |].
  - intros b Hb H. split; [by apply elem_of_app | by apply (adv_unl _ _ _ _ A)].
  - intros b H Hb. apply elem_of_app in H. by apply (adv_unl _ _ _ _ A).
  - intros k H. by apply elem_of_app.
Qed.

Lemma advl_free B K o o' b : advl B K o o' -> free o b -> b ∉ B -> free o' b.
Proof. intros A. by apply (adv_free _ _ _ _ _ A). Qed.

Lemma advl_new B K (K' : list key) o o' :
  advl B K o o' -> (forall b, b ∈ B -> (length (blocks o) <= b)%nat) -> (forall k, k ∈ K -> k ∈ K') ->
  adv nob (fun k => k ∈ K') o o'.
Proof. intros A. by apply (adv_new _ _ _ _ _ A). Qed.

Lemma advl_is B K o o' k : advl B K o o' -> is_Some (label_to_blk o !! k) -> is_Some (label_to_blk o' !! k).
Proof. intros A [b Hb]. exists b. exact (adv_lbl _ _ _ _ _ _ A Hb). Qed.

Lemma advl_sub B K o o' L : advl B K o o' -> label_to_blk o' ⊆ L -> label_to_blk o ⊆ L.
Proof. intros A H. etrans; [exact (adv_lbls _ _ _ _ A) | done]. Qed.

Ltac not_in := rewrite ?elem_of_app, ?elem_of_cons, ?elem_of_nil; intuition lia.

Lemma if_correct v sc e lhs rhs :
  scoped v (push sc v) sc (s_if sc e lhs rhs) -> NoDup (labels (s_if sc e lhs rhs)) ->
  correct (push sc v) lhs -> (forall r, rhs = Some r -> correct (push sc v) r) ->
  correct v (s_if sc e lhs rhs).
Proof using Laws ExprLaws.
  intros Hsd Hnd Hl Hrhs o W Hr. simpl in Hnd. fold (labels_opt rhs) in Hnd.
  apply NoDup_app in Hnd as (_ & Hdis & _). simpl. unfold gen_stmt_if.
  destruct (three_blks o W) as (bt & bf & fi & oa & ob & o1 & Ea & Eb & Ec & W1 & G1 & C1 & P1 & Kt & Kf & Ki
    & Ut & Uf & Ui & Hlen & Hlt).
  rewrite (G_step _ _ _ _ _ Ea), (G_step _ _ _ _ _ Eb), (G_step _ _ _ _ _ Ec).
  destruct (block_decls_frag sc o1 W1) as (o2 & E2 & W2 & G2 & S2). unfold flow_gen.
  rewrite (G_step _ _ _ _ _ E2). pose proof (advl_grows _ _ G2) as A12.
  assert (F2 : free o2 bt) by (eapply advl_free; [exact A12 | by split | not_in]).
  destruct (test_ok e bt bf o2 W2 F2) as (c & oc & o3 & E3 & E3' & W3 & A3 & H3 & _ & S3).
  rewrite (G_step _ _ _ _ _ E3), (G_step _ _ _ _ _ E3').
  pose proof (advl_trans _ _ _ _ _ _ _ A12 (advl_one _ _ _ A3)) as A13.
  destruct (select_adv o3 bt W3) as (o4 & E4 & W4 & A4 & H4); [|by right|].
  { eapply grows_unlabelled; [apply A13 | by apply clean_lt | done]. }
  rewrite (G_step _ _ _ _ _ E4). pose proof (advl_trans _ _ _ _ _ _ _ A13 (advl_one _ _ _ A4)) as A14.
  pose proof (advl_trans _ _ _ _ _ _ _ (advl_grows _ _ G1) A14) as A04.
  destruct (part_ok (push sc v) lhs fi o4 Hl W4) as (od & o5 & E5 & E5' & W5 & A5 & L5 & S5).
  { eapply ready_part; [exact Hr | exact A04 | |].
    - intros k Hk. split; [apply elem_of_app; by left | by not_in].
    - intros c'. simpl. rewrite elem_of_app. split; [intros H; split; [by left | by apply frees_labels]|].
      intros [[H|H] Hc]; [done|]. destruct rhs as [r|]; [|by inversion H]. destruct (Hdis _ Hc). by apply frees_labels. }
  rewrite (G_step _ _ _ _ _ E5), (G_step _ _ _ _ _ E5').
  pose proof (advl_trans _ _ _ _ _ _ _ A14 (advl_none _ _ _ A5)) as A15.
  pose proof (advl_trans _ _ _ _ _ _ _ (advl_grows _ _ G1) A15) as A05.
  destruct (advl_free _ _ _ _ bf A15) as [K5 U5]; [by split | not_in |].
  destruct (select_adv o5 bf W5 U5 (or_introl K5)) as (o6 & E6 & W6 & A6 & H6).
  rewrite (G_step _ _ _ _ _ E6). pose proof (advl_trans _ _ _ _ _ _ _ A15 (advl_one _ _ _ A6)) as A16.
  pose proof (advl_trans _ _ _ _ _ _ _ (advl_grows _ _ G1) A16) as A06.
  destruct (part_opt_ok (push sc v) rhs fi o6 Hrhs W6) as (oe & o7 & E7 & E7' & W7 & A7 & L7 & S7).
  { intros r ->. eapply ready_part; [exact Hr | exact A06 | |].
    - intros k Hk. split; [apply elem_of_app; by right |]. intros Hk'.
      assert (k ∈ labels lhs) as Hk2 by (revert Hk'; not_in). by apply (Hdis k).
    - intros c'. simpl. rewrite elem_of_app. split; [intros H; split; [by right | by apply frees_labels]|].
      intros [[H|H] Hc]; [|done]. destruct (Hdis (Cse c')); [by apply frees_labels | done]. }
  rewrite (G_step _ _ _ _ _ E7), (G_step _ _ _ _ _ E7').
  pose proof (advl_trans _ _ _ _ _ _ _ A16 (advl_none _ _ _ A7)) as A17.
  destruct (advl_free _ _ _ _ fi A17) as [K7 U7]; [by split | not_in |].
  destruct (select_adv o7 fi W7 U7 (or_introl K7)) as (o8 & E8 & W8 & A8 & H8).
  rewrite (G_step _ _ _ _ _ E8). unfold flow_end.
  destruct (leave_parent_frag sc (path v) (sd_new _ _ _ _ Hsd) o8 W8) as (o9 & E9 & W9 & G9 & S9).
  rewrite E9. exists o9. split; [done|].
  pose proof (advl_grows _ _ G9) as A9.
  assert (A09 : adv nob (fun k => k ∈ labels (s_if sc e lhs rhs)) o o9).
  { eapply advl_new.
    - apply (advl_trans _ _ _ _ _ _ _ (advl_grows _ _ G1)
        (advl_trans _ _ _ _ _ _ _ A17 (advl_trans _ _ _ _ _ _ _ (advl_one _ _ _ A8) A9))).
    - intros b. not_in.
    - intros k. simpl. fold (labels_opt rhs). not_in. }
  assert (L9 : forall k, k ∈ labels (s_if sc e lhs rhs) -> is_Some (label_to_blk o9 !! k)).
  { intros k Hk. apply (advl_is _ _ _ _ k (advl_trans _ _ _ _ _ _ _ (advl_one _ _ _ A8) A9)).
    simpl in Hk. fold (labels_opt rhs) in Hk. apply elem_of_app in Hk as [Hk | Hk]; [|by apply L7].
    apply (advl_is _ _ _ _ k (advl_trans _ _ _ _ _ _ _ (advl_one _ _ _ A6) (advl_none _ _ _ A7))). by apply L5. }
  split; try done. intros g L A HL.
  assert (g8 : agree nob o8 g) by exact (adv_agree _ _ _ _ _ _ A9 A).
  assert (g7 : agree nob o7 g) by exact (adv_agree _ _ _ _ _ _ A8 g8).
  assert (g6 : agree nob o6 g) by exact (adv_agree _ _ _ _ _ _ A7 g7).
  assert (g5 : agree nob o5 g) by exact (adv_agree _ _ _ _ _ _ A6 g6).
  assert (g4 : agree nob o4 g) by exact (adv_agree _ _ _ _ _ _ A5 g5).
  assert (g3 : agree nob o3 g) by exact (adv_agree _ _ _ _ _ _ A4 g4).
  assert (g2 : agree nob o2 g) by exact (adv_agree _ _ _ _ _ _ A3 g3).
  assert (l7 : label_to_blk o7 ⊆ L).
  { exact (advl_sub _ _ _ _ _ (advl_trans _ _ _ _ _ _ _ (advl_one _ _ _ A8) A9) HL). }
  assert (l5 : label_to_blk o5 ⊆ L).
  { exact (advl_sub _ _ _ _ _ (advl_trans _ _ _ _ _ _ _ (advl_one _ _ _ A6) (advl_none _ _ _ A7)) l7). }
  assert (e7 : epilogue_blk o7 = epilogue_blk o9) by (rewrite (adv_epi _ _ _ _ A9), (adv_epi _ _ _ _ A8); done).
  assert (e5 : epilogue_blk o5 = epilogue_blk o9) by (rewrite <-e7, (adv_epi _ _ _ _ A7), (adv_epi _ _ _ _ A6); done).
  assert (HLs : forall k, k ∈ labels (s_if sc e lhs rhs) -> is_Some (L !! k)).
  { intros k Hk. destruct (L9 k Hk) as [b Hb]. exists b. by eapply lookup_weaken. }
  specialize (S5 g L g5 l5). specialize (S7 g L g7 l7). rewrite e5 in S5. rewrite e7 in S7.
  induction n as [|n IH]; intros en st p m r He Hb HR; [done|]. simpl in He. fold (run_opt rhs n) in He.
  apply bind_Some in He as (r1 & He & Hu).
  assert (Hin : (r1.1 = Normal -> reaches g p m r1.2 fi) /\ jumps (push sc v) L (epilogue_blk o9) g p m r1).
  { destruct en as [|k|].
    - apply bind_Some in He as (s1 & Hs1 & He). apply bind_Some in He as ([s2 x] & Hx & He).
      destruct (S2 g g2 p st m s1) as (p1 & m1 & Hp1 & R1 & HR1 & _); [by apply P1 | done | done |].
      destruct (S3 g g3 p1 s1 m1 s2 x Hp1 HR1 Hx) as (m2 & R2 & HR2).
      assert (R12 : runs g (p, m) ((if x =? 0 then bf else bt, 0%nat), m2)) by (by etrans).
      destruct (x =? 0).
      + destruct (S7 n Start s2 _ m2 r1 He H6 HR2) as [F J].
        split; [intros Hn; by eapply reaches_after; [|apply F] | by eapply jumps_after].
      + destruct (S5 n Start s2 _ m2 r1 He H4 HR2) as [F J].
        split; [intros Hn; by eapply reaches_after; [|apply F] | by eapply jumps_after].
    - destruct Hb as (Hk & b & Hb & ->). simpl in Hk. fold (labels_opt rhs) in Hk.
      unfold holds in He. destruct (bool_decide (k ∈ labels lhs)) eqn:Hkl.
      + apply bool_decide_eq_true in Hkl. apply (S5 n (At k) st _ m r1 He); [|done]. split; [done | by exists b].
      + apply bool_decide_eq_false in Hkl. apply (S7 n (At k) st _ m r1 He); [|done].
        apply elem_of_app in Hk as [|Hk]; [done|]. split; [done | by exists b].
    - by destruct Hb as (b & [=] & _). }
  destruct Hin as [F1 J1].
  eapply (scope_end v (push sc v) sc _ L _ g o9 p m r1 r n Hsd); try done.
  - intros Hn s' Hle. destruct (F1 Hn) as (m1 & R1 & HR1).
    destruct (S9 g A _ _ m1 s' H8 HR1 Hle) as (p2 & m2 & Hp2 & R2 & HR2 & _).
    exists p2, m2. split_and!; [done | by etrans | done].
  - intros l b m1 r' Hll Hbl HR1 He'. eapply (IH (At (Lbl l))); [done | | done]. split; [done|]. by exists b.
Qed.

(** ** Loops *)

Lemma unwind_self (p : list scope) s : unwind p (sids p) s = Some s.
Proof. destruct p as [|sc p]; [done|]. simpl. by rewrite decide_True by left. Qed.

(** The end of a round, by how the body ended. *)
Lemma loop_round_ok (Q : outcome * sst -> Prop) v' L epi g p m cont brk next stop r r' :
  blk_break v' = Some (brk, sids (path v')) -> blk_continue v' = Some (cont, sids (path v')) ->
  (r.1 = Normal -> reaches g p m r.2 cont) -> jumps v' L epi g p m r ->
  (forall s r', reaches g p m s cont -> next s = Some r' -> Q r') ->
  (forall r1 r', (r1.1 = Normal -> reaches g p m r1.2 brk) -> jumps v' L epi g p m r1 ->
     r1.1 <> Brk -> r1.1 <> Cont -> stop r1 = Some r' -> Q r') ->
  loop_round next stop r = Some r' -> Q r'.
Proof.
  intros Hb Hc F J Hn Hs. destruct r as [out s]. unfold loop_round. simpl in *.
  destruct out as [| | |l|x]; simpl in *.
  - apply Hn. auto.
  - apply Hs; [| done | done | done]. intros _. eapply (J brk); [exact Hb | apply unwind_self].
  - apply Hn. eapply (J cont); [exact Hc | apply unwind_self].
  - apply Hs; [by intros [=] | exact J | done | done].
  - apply Hs; [by intros [=] | exact J | done | done].
Qed.

(** A part of a statement in the finished graph: from [start], or from a label
    in it, to [to] when it falls out. *)
Definition part_at (v' : env) (run : nat -> entry -> sst -> option (outcome * sst)) (keys : list key)
    (g : list block) (L : gmap key bid) (epi start to : bid) : Prop :=
  forall n en st p m r, run n en st = Some r ->
    match en with
    | Start => p = (start, 0%nat)
    | At k => k ∈ keys /\ exists b, L !! k = Some b /\ p = (b, 0%nat)
    | Again => False
    end -> R st m ->
    (r.1 = Normal -> reaches g p m r.2 to) /\ jumps v' L epi g p m r.

Lemma part_at_intro v' run keys o o' start to g L epi :
  part_runs v' run keys o o' to -> here o (start, 0%nat) -> agree nob o' g -> label_to_blk o' ⊆ L ->
  epilogue_blk o' = epi -> part_at v' run keys g L epi start to.
Proof.
  intros HP Hh A HL <- n en st p m r He Hb HR. apply (HP g L A HL n en st p m r He); [|done].
  destruct en; [by subst | done | done].
Qed.

(** Code from [start] that evaluates and chooses where to go by the value. *)
Definition chooses {A} (g : list block) (start : bid) (ev : sst -> option (sst * A)) (to : A -> bid) : Prop :=
  forall st m s' x, R st m -> ev st = Some (s', x) -> reaches g (start, 0%nat) m s' (to x).

(** Code from [start] that leaves the scope and falls out of the statement. *)
Definition leaves (g : list block) (start : bid) (sc : scope) (o' : ctx) : Prop :=
  forall st m s', R st m -> leave sc st = Some s' ->
    exists p' m', here o' p' /\ runs g ((start, 0%nat), m) (p', m') /\ R s' m'.

Definition runs_to (v : env) (L : gmap key bid) (epi : bid) (o' : ctx) (g : list block) (p : pc) (m : mst)
    (r : outcome * sst) : Prop := falls o' g p m r /\ jumps v L epi g p m r.

Lemma runs_to_after v L epi o' g p m s b r :
  reaches g p m s b -> (forall m', R s m' -> runs_to v L epi o' g (b, 0%nat) m' r) -> runs_to v L epi o' g p m r.
Proof.
  intros (m' & R' & HR') H. destruct (H m' HR') as [F J].
  split; [by eapply falls_after | by eapply jumps_after].
Qed.

(** The statement entered at one of its labels, with less fuel. *)
Definition reenters (v : env) (s : stmt) (L : gmap key bid) (epi : bid) (o' : ctx) (g : list block) (n : nat) : Prop :=
  forall l b m st r, Lbl l ∈ labels s -> L !! Lbl l = Some b -> R st m ->
    exec_stmt n s (At (Lbl l)) st = Some r -> runs_to v L epi o' g (b, 0%nat) m r.

(** Where a scoped statement ends: at [stop], its scope is left. *)
Lemma scoped_stop v v' sc s L epi o' g stop p m r r' n :
  scoped v v' sc s ->
  (r.1 = Brk -> blk_break v' = blk_break v) -> (r.1 = Cont -> blk_continue v' = blk_continue v) ->
  (r.1 = Normal -> reaches g p m r.2 stop) -> jumps v' L epi g p m r ->
  leaves g stop sc o' -> reenters v s L epi o' g n -> (forall k, k ∈ labels s -> is_Some (L !! k)) ->
  unscope (exec_stmt n) s sc r = Some r' -> runs_to v L epi o' g p m r'.
Proof.
  intros Hsd Hb Hc F J Hl Hre HL Hu.
  eapply (scope_end v v' sc s L epi g o' p m r r' n Hsd); try done.
  - intros Hn s' Hs. destruct (F Hn) as (m1 & R1 & HR1).
    destruct (Hl _ m1 s' HR1 Hs) as (p2 & m2 & Hp2 & R2 & HR2).
    exists p2, m2. split_and!; [done | by etrans | done].
  - intros l b m1 r2 Hll Hbl HR1 He. by eapply Hre.
Qed.

(** A round of a scoped loop. *)
Lemma scoped_round v v' sc s L epi o' g cont stop next p m r r' n :
  scoped v v' sc s -> blk_break v' = Some (stop, sids (path v')) ->
  blk_continue v' = Some (cont, sids (path v')) ->
  (r.1 = Normal -> reaches g p m r.2 cont) -> jumps v' L epi g p m r ->
  leaves g stop sc o' -> reenters v s L epi o' g n -> (forall k, k ∈ labels s -> is_Some (L !! k)) ->
  (forall st m' r2, R st m' -> next st = Some r2 -> runs_to v L epi o' g (cont, 0%nat) m' r2) ->
  loop_round next (unscope (exec_stmt n) s sc) r = Some r' -> runs_to v L epi o' g p m r'.
Proof.
  intros Hsd Hb Hc F J Hl Hre HL Hnext.
  eapply (loop_round_ok (runs_to v L epi o' g p m) v' L epi g p m cont stop); try done.
  - intros st r2 Hst He. eapply runs_to_after; [exact Hst|]. intros m' HR'. by eapply Hnext.
  - intros r2 r3 F2 J2 Hn1 Hn2. by eapply (scoped_stop v v').
Qed.

(** The loops, in the finished graph. *)
Lemma while_runs v v' sc e lhs L epi o' g co bb br :
  let s := s_while sc e lhs in
  scoped v v' sc s -> blk_break v' = Some (br, sids (path v')) -> blk_continue v' = Some (co, sids (path v')) ->
  chooses g co (fun st => s1 ← enter sc st; eval e s1) (fun x => if x =? 0 then br else bb) ->
  part_at v' (fun n => exec_stmt n lhs) (labels lhs) g L epi bb co ->
  leaves g br sc o' -> (forall k, k ∈ labels s -> is_Some (L !! k)) ->
  forall n en st p m r, exec_stmt n s en st = Some r ->
    match en with
    | At k => k ∈ labels s /\ exists b, L !! k = Some b /\ p = (b, 0%nat)
    | _ => p = (co, 0%nat)
    end -> R st m -> runs_to v L epi o' g p m r.
Proof.
  intros s Hsd Hb Hc Ht Hp Hl HL. induction n as [|n IH]; intros en st p m r He Hbe HR; [done|].
  assert (Hre : reenters v s L epi o' g n).
  { intros l b m0 st0 r0 Hin Hbl HR0 He0. eapply (IH (At (Lbl l))); [done | | done]. split; [done|]. by exists b. }
  assert (Hround : forall p m r0 r', (r0.1 = Normal -> reaches g p m r0.2 co) -> jumps v' L epi g p m r0 ->
    loop_round (exec_stmt n s Again) (unscope (exec_stmt n) s sc) r0 = Some r' -> runs_to v L epi o' g p m r').
  { intros p0 m0 r0 r' F J. eapply (scoped_round v v'); try done.
    intros st1 m1 r2 HR1 He1. by eapply (IH Again). }
  simpl in He. fold s in He. destruct en as [|k|]; [|destruct Hbe as (Hk & b & Hkb & ->)|].
  2: { apply bind_Some in He as (r1 & He & Hu).
       destruct (Hp n (At k) st (b, 0%nat) m r1 He) as [F J]; [by split; [|exists b] | done | by eapply Hround]. }
  all: subst p; apply bind_Some in He as (s1 & Hs1 & He); apply bind_Some in He as ([s2 x] & Hx & He).
  all: (eapply runs_to_after; [apply (Ht st m s2 x HR); by rewrite Hs1|]; intros m' HR'; destruct (x =? 0);
    [ eapply (scoped_stop v v' sc s L epi o' g br _ m' (Normal, s2) r n Hsd); try done; intros _;
        exists m'; (split; [apply rtc_refl | done])
    | apply bind_Some in He as (r1 & He1 & He); destruct (Hp n Start s2 _ m' r1 He1 eq_refl HR') as [F J];
      by eapply Hround ]).
Qed.

Lemma while_correct v sc e lhs :
  (forall b c, scoped v (targets b c (push sc v)) sc (s_while sc e lhs)) ->
  (forall b c, correct (targets b c (push sc v)) lhs) -> correct v (s_while sc e lhs).
Proof using Laws ExprLaws.
  intros Hsd Hl o W Hr. simpl. unfold gen_stmt_while.
  destruct (three_blks o W) as (bb & co & br & oa & ob & o1 & Ea & Eb & Ec & W1 & G1 & C1 & P1 & Kb & Kc & Kr
    & Ub & Uc & Ur & Hlen & Hlt).
  assert (Hco : co = S (length (blocks o))).
  { unfold out_blk_new in Ea, Eb. injection Ea as <- <-. injection Eb as <- <-. simpl. rewrite length_app. simpl. lia. }
  rewrite (G_step _ _ _ _ _ Ea), (G_step _ _ _ _ _ Eb), (G_step _ _ _ _ _ Ec).
  specialize (Hsd br co). specialize (Hl br co). set (v' := targets br co (push sc v)) in *.
  destruct (goto_blk_ok co o1 W1) as (o2 & E2 & W2 & G2 & C2 & S2). rewrite (G_step _ _ _ _ _ E2).
  pose proof (advl_grows _ _ G2) as A12.
  destruct (advl_free _ _ _ _ co A12) as [K2 U2]; [by split | not_in |].
  destruct (select_adv o2 co W2 U2 (or_introl K2)) as (o3 & E3 & W3 & A3 & H3).
  rewrite (G_step _ _ _ _ _ E3). pose proof (advl_trans _ _ _ _ _ _ _ A12 (advl_one _ _ _ A3)) as A13.
  destruct (block_decls_frag sc o3 W3) as (o4 & E4 & W4 & G4 & S4). unfold flow_gen.
  rewrite (G_step _ _ _ _ _ E4). pose proof (advl_trans _ _ _ _ _ _ _ A13 (advl_grows _ _ G4)) as A14.
  assert (F4 : free o4 bb) by (eapply advl_free; [exact A14 | by split | not_in]).
  destruct (test_ok e bb br o4 W4 F4) as (c & oc & o5 & E5 & E5' & W5 & A5 & H5 & _ & S5).
  rewrite (G_step _ _ _ _ _ E5), (G_step _ _ _ _ _ E5').
  pose proof (advl_trans _ _ _ _ _ _ _ A14 (advl_one _ _ _ A5)) as A15.
  destruct (select_adv o5 bb W5) as (o6 & E6 & W6 & A6 & H6); [|by right|].
  { eapply grows_unlabelled; [apply A15 | by apply clean_lt | done]. }
  rewrite (G_step _ _ _ _ _ E6). pose proof (advl_trans _ _ _ _ _ _ _ A15 (advl_one _ _ _ A6)) as A16.
  pose proof (advl_trans _ _ _ _ _ _ _ (advl_grows _ _ G1) A16) as A06.
  destruct (part_ok v' lhs co o6 Hl W6) as (od & o7 & E7 & E7' & W7 & A7 & L7 & S7).
  { eapply ready_part; [exact Hr | exact A06 | |].
    - intros k Hk. split; [done | by not_in].
    - intros c'. simpl. split; [intros H; split; [done | by apply frees_labels] | tauto]. }
  rewrite (G_step _ _ _ _ _ E7), (G_step _ _ _ _ _ E7').
  pose proof (advl_trans _ _ _ _ _ _ _ A16 (advl_none _ _ _ A7)) as A17.
  destruct (advl_free _ _ _ _ br A17) as [K7 U7]; [by split | not_in |].
  destruct (select_adv o7 br W7 U7 (or_introl K7)) as (o8 & E8 & W8 & A8 & H8).
  rewrite (G_step _ _ _ _ _ E8). unfold flow_end.
  destruct (leave_parent_frag sc (path v) (sd_new _ _ _ _ Hsd) o8 W8) as (o9 & E9 & W9 & G9 & S9).
  rewrite E9. exists o9. split; [done|].
  pose proof (advl_grows _ _ G9) as A9. pose proof (advl_trans _ _ _ _ _ _ _ (advl_one _ _ _ A8) A9) as A79.
  assert (L9 : forall k, k ∈ labels (s_while sc e lhs) -> is_Some (label_to_blk o9 !! k)).
  { intros k Hk. apply (advl_is _ _ _ _ k A79). by apply L7. }
  split; [done | | done |].
  { eapply advl_new.
    - apply (advl_trans _ _ _ _ _ _ _ (advl_grows _ _ G1) (advl_trans _ _ _ _ _ _ _ A17 A79)).
    - intros b. not_in.
    - intros k. simpl. not_in. }
  intros g L A HL n en st p m r He Hb HR.
  assert (g7 : agree nob o7 g) by exact (adv_agree _ _ _ _ _ _ A79 A).
  assert (g5 : agree nob o5 g).
  { exact (adv_agree _ _ _ _ _ _ (advl_trans _ _ _ _ _ _ _ (advl_one _ _ _ A6) (advl_none _ _ _ A7)) g7). }
  assert (g4 : agree nob o4 g) by exact (adv_agree _ _ _ _ _ _ A5 g5).
  assert (g2 : agree nob o2 g).
  { exact (adv_agree _ _ _ _ _ _ (advl_trans _ _ _ _ _ _ _ (advl_one _ _ _ A3) (advl_grows _ _ G4)) g4). }
  assert (Hw : forall en st p m r, exec_stmt n (s_while sc e lhs) en st = Some r ->
    match en with
    | At k => k ∈ labels (s_while sc e lhs) /\ exists b, L !! k = Some b /\ p = (b, 0%nat)
    | _ => p = (co, 0%nat)
    end -> R st m -> runs_to v L (epilogue_blk o9) o9 g p m r).
  { apply (while_runs v v' sc e lhs L _ o9 g co bb br Hsd); try done.
    - intros st0 m0 s' x HR0 Hev. apply bind_Some in Hev as (s1 & Hs1 & Hx).
      destruct (S4 g g4 _ st0 m0 s1 H3 HR0 Hs1) as (p1 & m1 & Hp1 & R1 & HR1 & _).
      eapply reaches_after; [exact R1|]. by eapply (S5 g g5).
    - eapply part_at_intro; [exact S7 | done | done | exact (advl_sub _ _ _ _ _ A79 HL) |].
      rewrite (adv_epi _ _ _ _ A9), (adv_epi _ _ _ _ A8). done.
    - intros st0 m0 s' HR0 Hs. destruct (S9 g A _ st0 m0 s' H8 HR0 Hs) as (p1 & m1 & ? & ? & ? & _). by exists p1, m1.
    - intros k Hk. destruct (L9 k Hk) as [b Hkb]. exists b. by eapply lookup_weaken. }
  destruct en as [|k|].
  - eapply runs_to_after; [eapply (S2 g g2); [by apply P1 | exact HR] |]. intros m' HR'. by eapply (Hw Start).
  - by eapply (Hw (At k)).
  - destruct Hb as (b & [= <-] & ->). eapply (Hw Again); [done | by rewrite Hco | done].
Qed.

(** *** [do] *)

(** A test that jumps back: [out_ctrl_branch] makes the block it goes back to
    current for a moment. *)
Lemma test_back_ok (e : E) t f o :
  wf o -> free o f ->
  exists c oa ob o', gen_expr e o = Ok (c, oa) /\ out_ctrl_branch c t f oa = Ok (tt, ob) /\
    out_current_blk f ob = Ok (tt, o') /\ wf o' /\ adv (eq f) nok o o' /\ here o' (f, 0%nat) /\
    forall g, agree nob o' g -> forall p s m s' n, here o p -> R s m -> eval e s = Some (s', n) ->
      reaches g p m s' (if n =? 0 then f else t).
Proof using Laws ExprLaws.
  intros W [Hc Hu]. destruct (expr_ok e o W) as (c & o1 & E1 & W1 & G1 & L1 & C1 & S1).
  assert (Hb : exists o2 o3, out_ctrl_branch c t f o1 = Ok (tt, o2) /\ out_current_blk f o2 = Ok (tt, o3) /\
    wf o3 /\ grows (eq f) nok o1 o3 /\ here o3 (f, 0%nat) /\
    forall g, agree nob o3 g -> forall p s m n, here o1 p -> R s m -> denotes c m n ->
      reaches g p m s (if n =? 0 then f else t)).
  { unfold out_ctrl_branch. rewrite (G_step _ _ o1 o1 o1) by done.
    destruct (asm_ok (spill o1 (Some c)) o1 W1) as (o2 & E2 & W2 & G2 & C2 & L2 & V2 & U2 & S2).
    rewrite (G_step _ _ _ _ _ E2).
    destruct (impl_branch_ok R denotes live returned c t f (likely c) o2 W2) as (o3 & E3 & W3 & G3 & C3 & L3 & V3 & S3).
    rewrite (G_step _ _ _ _ _ E3). pose proof (grows_none _ _ _ _ _ G2 G3) as G13.
    destruct (current_blk_ok o3 f W3) as (o4 & E4 & W4 & G4 & C4 & B4 & L4 & V4 & H4).
    { eapply grows_clean; [exact G13 | eapply grows_clean; eauto | auto]. }
    eexists _, o4. split_and!; [done | | done | by eapply grows_none | done |].
    - rewrite <-E4. by destruct o3.
    - intros g A p s m n Hp HR Hd. assert (A3 : agree nob o3 g) by (by eapply agree_grows).
      destruct (S2 g nob p m) as (p2 & Hp2 & R2); try done; [by eapply agree_grows|].
      destruct (S3 g nob p2 s (execs (spill o1 (Some c)) m) n) as (m3 & R3 & HR3 & _); try done.
      + by apply (spill_R (BackendOk := Laws)).
      + by apply (spill_keeps (BackendOk := Laws)).
      + exists m3. split; [by etrans | done]. }
  destruct Hb as (o2 & o3 & E2 & E3 & W3 & G3 & H3 & S3).
  exists c, o1, o2, o3. split_and!; try done.
  - apply grows_adv; [by eapply grows_none|]. by intros ? <- _.
  - intros g A p s m s' n Hp HR Hev.
    destruct (S1 g nob) with p s m s' n as (p1 & m1 & Hp1 & R1 & HR1 & D1 & _); try done.
    { by eapply agree_grows. }
    eapply reaches_after; [exact R1|]. by eapply S3.
Qed.

Lemma do_runs (v v' : env) (e : E) (lhs : stmt) L epi o' g co bg br :
  let s := s_do e lhs in
  path v' = path v -> label_scope v' = label_scope v ->
  blk_break v' = Some (br, sids (path v')) -> blk_continue v' = Some (co, sids (path v')) ->
  chooses g co (eval e) (fun x => if x =? 0 then br else bg) ->
  part_at v' (fun n => exec_stmt n lhs) (labels lhs) g L epi bg co -> here o' (br, 0%nat) ->
  forall n en st p m r, exec_stmt n s en st = Some r ->
    match en with
    | At k => k ∈ labels s /\ exists b, L !! k = Some b /\ p = (b, 0%nat)
    | _ => p = (bg, 0%nat)
    end -> R st m -> runs_to v L epi o' g p m r.
Proof.
  intros s Hpv Hlv Hb Hc Ht Hp Hh. induction n as [|n IH]; intros en st p m r He Hbe HR; [done|].
  simpl in He. fold s in He. apply bind_Some in He as (r1 & He1 & He).
  assert (Hfall : forall p m s1, reaches g p m s1 br -> runs_to v L epi o' g p m (Normal, s1)).
  { intros p0 m0 s1 (m1 & R1 & HR1). split; [|done]. intros _. by exists (br, 0%nat), m1. }
  assert (HJ : (r1.1 = Normal -> reaches g p m r1.2 co) /\ jumps v' L epi g p m r1).
  { destruct en as [|k|]; [| destruct Hbe as (Hk & b & Hkb & ->) |].
    - subst p. by apply (Hp n Start st _ m r1).
    - apply (Hp n (At k) st _ m r1); [done | | done]. split; [done | by exists b].
    - subst p. by apply (Hp n Start st _ m r1). }
  destruct HJ as [F J].
  eapply (loop_round_ok (runs_to v L epi o' g p m) v' L epi g p m co br); try done.
  - intros s1 r2 Hre Hev. eapply runs_to_after; [exact Hre|]. intros m' HR'.
    apply bind_Some in Hev as ([s2 x] & Hx & Hev).
    eapply runs_to_after; [by apply (Ht s1 m' s2 x)|]. intros m2 HR2.
    destruct (x =? 0); [injection Hev as <- | by apply (IH Again s2)].
    apply Hfall. exists m2. split; [apply rtc_refl | done].
  - intros [out s1] r2 F2 J2 Hn1 Hn2 [= <-]. destruct out as [| | |l|x]; try done; [by apply Hfall, F2 | |];
      (split; [by intros [=]|]); unfold jumps in *; simpl in *; by rewrite Hpv, ?Hlv in J2.
Qed.

Lemma do_correct v e lhs :
  (forall b c, correct (targets b c v) lhs) -> correct v (s_do e lhs).
Proof using Laws ExprLaws.
  intros Hl o W Hr. simpl. unfold gen_stmt_do.
  destruct (three_blks o W) as (bg & co & br & oa & ob & o1 & Ea & Eb & Ec & W1 & G1 & C1 & P1 & Kb & Kc & Kr
    & Ub & Uc & Ur & Hlen & Hlt).
  rewrite (G_step _ _ _ _ _ Ea), (G_step _ _ _ _ _ Eb), (G_step _ _ _ _ _ Ec).
  specialize (Hl br co). set (v' := targets br co v) in *.
  destruct (goto_blk_ok bg o1 W1) as (o2 & E2 & W2 & G2 & C2 & S2). rewrite (G_step _ _ _ _ _ E2).
  pose proof (advl_grows _ _ G2) as A12.
  destruct (advl_free _ _ _ _ bg A12) as [K2 U2]; [by split | not_in |].
  destruct (select_adv o2 bg W2 U2 (or_introl K2)) as (o3 & E3 & W3 & A3 & H3).
  rewrite (G_step _ _ _ _ _ E3). pose proof (advl_trans _ _ _ _ _ _ _ A12 (advl_one _ _ _ A3)) as A13.
  pose proof (advl_trans _ _ _ _ _ _ _ (advl_grows _ _ G1) A13) as A03.
  destruct (part_ok v' lhs co o3 Hl W3) as (od & o4 & E4 & E4' & W4 & A4 & L4 & S4).
  { eapply ready_part; [exact Hr | exact A03 | |].
    - intros k Hk. split; [done | by not_in].
    - intros c'. simpl. split; [intros H; split; [done | by apply frees_labels] | tauto]. }
  rewrite (G_step _ _ _ _ _ E4), (G_step _ _ _ _ _ E4').
  pose proof (advl_trans _ _ _ _ _ _ _ A13 (advl_none _ _ _ A4)) as A14.
  destruct (advl_free _ _ _ _ co A14) as [K4 U4]; [by split | not_in |].
  destruct (select_adv o4 co W4 U4 (or_introl K4)) as (o5 & E5 & W5 & A5 & H5).
  rewrite (G_step _ _ _ _ _ E5). pose proof (advl_trans _ _ _ _ _ _ _ A14 (advl_one _ _ _ A5)) as A15.
  assert (F5 : free o5 br) by (eapply advl_free; [exact A15 | by split | not_in]).
  destruct (test_back_ok e bg br o5 W5 F5) as (c & oe & o6' & o6 & E6 & E6' & E6'' & W6 & A6 & H6 & S6).
  rewrite (G_step _ _ _ _ _ E6), (G_step _ _ _ _ _ E6'), E6''. exists o6. split; [done|].
  pose proof (advl_trans _ _ _ _ _ _ _ (advl_one _ _ _ A5) (advl_one _ _ _ A6)) as A46.
  assert (L6 : forall k, k ∈ labels (s_do e lhs) -> is_Some (label_to_blk o6 !! k)).
  { intros k Hk. apply (advl_is _ _ _ _ k A46). by apply L4. }
  split; [done | | done |].
  { eapply advl_new.
    - apply (advl_trans _ _ _ _ _ _ _ (advl_grows _ _ G1) (advl_trans _ _ _ _ _ _ _ A14 A46)).
    - intros b. not_in.
    - intros k. simpl. not_in. }
  intros g L A HL n en st p m r He Hb HR.
  assert (g5 : agree nob o5 g) by exact (adv_agree _ _ _ _ _ _ A6 A).
  assert (g4 : agree nob o4 g) by exact (adv_agree _ _ _ _ _ _ A5 g5).
  assert (g2 : agree nob o2 g).
  { exact (adv_agree _ _ _ _ _ _ (advl_trans _ _ _ _ _ _ _ (advl_one _ _ _ A3) (advl_none _ _ _ A4)) g4). }
  assert (Hw : forall en st p m r, exec_stmt n (s_do e lhs) en st = Some r ->
    match en with
    | At k => k ∈ labels (s_do e lhs) /\ exists b, L !! k = Some b /\ p = (b, 0%nat)
    | _ => p = (bg, 0%nat)
    end -> R st m -> runs_to v L (epilogue_blk o6) o6 g p m r).
  { apply (do_runs v v' e lhs L _ o6 g co bg br); try done.
    - intros st0 m0 s' x HR0 Hx. by eapply (S6 g A).
    - eapply part_at_intro; [exact S4 | done | done | exact (advl_sub _ _ _ _ _ A46 HL) |].
      rewrite (adv_epi _ _ _ _ A6), (adv_epi _ _ _ _ A5). done. }
  destruct en as [|k|].
  - eapply runs_to_after; [eapply (S2 g g2); [by apply P1 | exact HR] |]. intros m' HR'. by eapply (Hw Start).
  - by eapply (Hw (At k)).
  - destruct Hb as (b & [= <-] & ->). eapply (Hw Again); [done | by rewrite Hlen | done].
Qed.

(** *** [for] *)

Definition eval_test (w : option E) (st : sst) : option (sst * Z) :=
  match w with Some w => eval w st | None => Some (st, 1) end.

Lemma for_test_ok (w : option E) t f o :
  wf o -> free o t ->
  exists oa o', (match w with Some w => c ← gen_expr w; out_ctrl_branch c t f | None => jump_to t end) o = Ok (tt, oa) /\
    out_current_blk t oa = Ok (tt, o') /\ wf o' /\ advl [t; t] [] o o' /\ here o' (t, 0%nat) /\
    forall g, agree nob o' g -> forall p s m s' n, here o p -> R s m -> eval_test w s = Some (s', n) ->
      reaches g p m s' (if n =? 0 then f else t).
Proof using Laws ExprLaws.
  intros W Ht. destruct w as [w|].
  - destruct (test_ok w t f o W Ht) as (c & oa & o1 & E1 & E1' & W1 & A1 & H1 & _ & S1).
    rewrite (G_step _ _ _ _ _ E1).
    destruct (select_adv o1 t W1) as (o2 & E2 & W2 & A2 & H2); [|by right|].
    { eapply grows_unlabelled; [apply A1 | by apply clean_lt, Ht | by apply Ht]. }
    exists o1, o2. split_and!; try done.
    + apply (advl_trans _ _ _ _ _ _ _ (advl_one _ _ _ A1) (advl_one _ _ _ A2)).
    + intros g A. apply S1. exact (adv_agree _ _ _ _ _ _ A2 A).
  - destruct (goto_blk_ok t o W) as (o1 & E1 & W1 & G1 & C1 & S1). rewrite E1.
    destruct (advl_free _ _ _ _ t (advl_grows _ _ G1)) as [K1 U1]; [done | not_in |].
    destruct (select_adv o1 t W1 U1 (or_introl K1)) as (o2 & E2 & W2 & A2 & H2).
    exists o1, o2. split_and!; try done.
    + eapply adv_weaken; [apply (advl_trans _ _ _ _ _ _ _ (advl_grows _ _ G1) (advl_one _ _ _ A2)) | | |];
        [| | by intros k].
      * intros b Hb Hin. apply list_elem_of_singleton in Hin as ->. split; [left | apply Ht].
      * intros b Hin Hb. assert (b = t) as -> by (revert Hin; not_in). apply Ht.
    + intros g A p s m s' n Hp HR [= <- <-]. eapply (S1 g); [|done|done]. exact (adv_agree _ _ _ _ _ _ A2 A).
Qed.

Lemma for_runs (v v' : env) sc init w inc (lhs : stmt) L epi o' g te bb en_ ic :
  let s := s_for sc init w inc lhs in
  scoped v v' sc s -> blk_break v' = Some (en_, sids (path v')) -> blk_continue v' = Some (ic, sids (path v')) ->
  chooses g te (eval_test w) (fun x => if x =? 0 then en_ else bb) ->
  chooses g ic (fun st => st' ← eval_opt inc st; Some (st', tt)) (fun _ => te) ->
  part_at v' (fun n => exec_stmt n lhs) (labels lhs) g L epi bb ic ->
  leaves g en_ sc o' -> (forall k, k ∈ labels s -> is_Some (L !! k)) ->
  forall n en st p m r, exec_stmt n s en st = Some r ->
    match en with
    | Start => forall s2, (s1 ← enter sc st; eval_opt init s1) = Some s2 -> reaches g p m s2 te
    | At k => k ∈ labels s /\ exists b, L !! k = Some b /\ p = (b, 0%nat)
    | Again => p = (te, 0%nat)
    end -> R st m -> runs_to v L epi o' g p m r.
Proof.
  intros s Hsd Hb Hc Ht Hi Hp Hl HL. induction n as [|n IH]; intros en st p m r He Hbe HR; [done|].
  assert (Hre : reenters v s L epi o' g n).
  { intros l b m0 st0 r0 Hin Hbl HR0 He0. eapply (IH (At (Lbl l))); [done | | done]. split; [done|]. by exists b. }
  assert (Hround : forall p m r0 r', (r0.1 = Normal -> reaches g p m r0.2 ic) -> jumps v' L epi g p m r0 ->
    loop_round (fun s0 => s' ← eval_opt inc s0; exec_stmt n s Again s') (unscope (exec_stmt n) s sc) r0 = Some r' ->
    runs_to v L epi o' g p m r').
  { intros p0 m0 r0 r' F J. eapply (scoped_round v v'); try done.
    intros st1 m1 r2 HR1 He1. apply bind_Some in He1 as (st2 & Hst2 & He1).
    eapply runs_to_after; [apply (Hi st1 m1 st2 tt HR1); by rewrite Hst2|].
    intros m2 HR2. by eapply (IH Again). }
  simpl in He. fold s in He. destruct en as [|k|]; [|destruct Hbe as (Hk & b & Hkb & ->)|].
  - apply bind_Some in He as (s1 & Hs1 & He). apply bind_Some in He as (s2 & Hs2 & He).
    eapply runs_to_after; [apply (Hbe s2); by rewrite Hs1|]. intros m2 HR2. by eapply (IH Again).
  - apply bind_Some in He as (r1 & He & Hu).
    destruct (Hp n (At k) st (b, 0%nat) m r1 He) as [F J]; [by split; [|exists b] | done | by eapply Hround].
  - subst p. assert (Ht' : exists s1 x, eval_test w st = Some (s1, x) /\
      (if x =? 0 then unscope (exec_stmt n) s sc (Normal, s1)
       else r ← exec_stmt n lhs Start s1; loop_round (fun s0 => s' ← eval_opt inc s0; exec_stmt n s Again s')
         (unscope (exec_stmt n) s sc) r) = Some r).
    { destruct w as [w|]; [|by exists st, 1]. apply bind_Some in He as ([s1 x] & Hx & He). by exists s1, x. }
    clear He. destruct Ht' as (s1 & x & Hx & He).
    eapply runs_to_after; [apply (Ht st m s1 x HR Hx)|]. intros m' HR'. destruct (x =? 0).
    + eapply (scoped_stop v v' sc s L epi o' g en_ _ m' (Normal, s1) r n Hsd); try done.
      intros _. exists m'. split; [apply rtc_refl | done].
    + apply bind_Some in He as (r1 & He1 & He). destruct (Hp n Start s1 _ m' r1 He1 eq_refl HR') as [F J].
      by eapply Hround.
Qed.

Lemma for_correct v sc init w inc lhs :
  (forall b c, scoped v (targets b c (push sc v)) sc (s_for sc init w inc lhs)) ->
  (forall b c, correct (targets b c (push sc v)) lhs) -> correct v (s_for sc init w inc lhs).
Proof using Laws ExprLaws.
  intros Hsd Hl o W Hr. simpl. unfold gen_stmt_for.
  destruct (three_blks o W) as (te & bb & br & oa & ob & o1 & Ea & Eb & Ec & W1 & G1 & C1 & P1 & Kt & Kb & Kr
    & Ut & Ub & Ur & Hlen & Hlt).
  rewrite (G_step _ _ _ _ _ Ea), (G_step _ _ _ _ _ Eb), (G_step _ _ _ _ _ Ec).
  destruct (blk_new_ok o1 W1) as (Ed & W2 & G2 & Ki & Ui & C2 & P2). rewrite (G_step _ _ _ _ _ Ed).
  set (ic := length (blocks o1)) in *. set (o2 := set_blocks _ o1) in *.
  assert (Hic : (br < ic)%nat) by (pose proof (clean_lt _ _ Kr); lia).
  specialize (Hsd br ic). specialize (Hl br ic). set (v' := targets br ic (push sc v)) in *.
  pose proof (grows_none _ _ _ _ _ G1 G2) as G02.
  assert (F2 : free o2 te /\ free o2 bb /\ free o2 br /\ free o2 ic).
  { split_and!; try (by split); (eapply advl_free; [apply (advl_grows _ _ G2) | by split | not_in]). }
  destruct F2 as (Ft & Fb & Fr & Fi).
  destruct (block_decls_frag sc o2 W2) as (o3 & E3 & W3 & G3 & S3). unfold flow_gen.
  rewrite (G_step _ _ _ _ _ E3).
  destruct (gen_opt_frag init o3 W3) as (o4 & E4 & W4 & G4 & S4). rewrite (G_step _ _ _ _ _ E4).
  pose proof (advl_grows _ _ (grows_none _ _ _ _ _ G3 G4)) as A24.
  destruct (advl_free _ _ _ _ te A24) as [Kt4 Ut4]; [done | not_in |].
  destruct (make_current_ok o4 te W4 Kt4) as (o5 & E5 & W5 & G5 & C5 & L5 & H5 & _ & S5).
  rewrite (G_step _ _ _ _ _ E5).
  assert (A5 : adv (eq te) nok o4 o5) by (apply grows_adv; [done | by intros ? <- _]).
  pose proof (advl_trans _ _ _ _ _ _ _ A24 (advl_one _ _ _ A5)) as A25.
  assert (Fb5 : free o5 bb) by (eapply advl_free; [exact A25 | done | not_in]).
  destruct (for_test_ok w bb br o5 W5 Fb5) as (oc & o6 & E6 & E6' & W6 & A6 & H6 & S6).
  rewrite (G_step _ _ _ _ _ E6), (G_step _ _ _ _ _ E6').
  pose proof (advl_trans _ _ _ _ _ _ _ A25 A6) as A26.
  pose proof (advl_trans _ _ _ _ _ _ _ (advl_grows _ _ G02) A26) as A06.
  destruct (part_ok v' lhs ic o6 Hl W6) as (od & o7 & E7 & E7' & W7 & A7 & L7 & S7).
  { eapply ready_part; [exact Hr | exact A06 | |].
    - intros k Hk. split; [done | by not_in].
    - intros c'. simpl. split; [intros H; split; [done | by apply frees_labels] | tauto]. }
  rewrite (G_step _ _ _ _ _ E7), (G_step _ _ _ _ _ E7').
  pose proof (advl_trans _ _ _ _ _ _ _ A26 (advl_none _ _ _ A7)) as A27.
  destruct (advl_free _ _ _ _ ic A27) as [Ki7 Ui7]; [done | not_in |].
  destruct (select_adv o7 ic W7 Ui7 (or_introl Ki7)) as (o8 & E8 & W8 & A8 & H8).
  rewrite (G_step _ _ _ _ _ E8).
  destruct (gen_opt_frag inc o8 W8) as (o9 & E9 & W9 & G9 & S9). rewrite (G_step _ _ _ _ _ E9).
  destruct (goto_blk_ok te o9 W9) as (o10 & E10 & W10 & G10 & C10 & S10). rewrite (G_step _ _ _ _ _ E10).
  pose proof (advl_grows _ _ (grows_none _ _ _ _ _ G9 G10)) as A810.
  pose proof (advl_trans _ _ _ _ _ _ _ (advl_one _ _ _ A8) A810) as A710.
  pose proof (advl_trans _ _ _ _ _ _ _ A27 A710) as A210.
  destruct (advl_free _ _ _ _ br A210) as [Kr10 Ur10]; [done | not_in |].
  destruct (select_adv o10 br W10 Ur10 (or_introl Kr10)) as (o11 & E11 & W11 & A11 & H11).
  rewrite (G_step _ _ _ _ _ E11). unfold flow_end.
  destruct (leave_parent_frag sc (path v) (sd_new _ _ _ _ Hsd) o11 W11) as (o12 & E12 & W12 & G12 & S12).
  rewrite E12. exists o12. split; [done|].
  pose proof (advl_trans _ _ _ _ _ _ _ (advl_one _ _ _ A11) (advl_grows _ _ G12)) as A1012.
  pose proof (advl_trans _ _ _ _ _ _ _ A710 A1012) as A712.
  assert (L12 : forall k, k ∈ labels (s_for sc init w inc lhs) -> is_Some (label_to_blk o12 !! k)).
  { intros k Hk. apply (advl_is _ _ _ _ k A712). by apply L7. }
  split; [done | | done |].
  { eapply advl_new.
    - apply (advl_trans _ _ _ _ _ _ _ (advl_grows _ _ G02) (advl_trans _ _ _ _ _ _ _ A210 A1012)).
    - intros b. not_in.
    - intros k. simpl. not_in. }
  intros g L A HL n en st p m r He Hbe HR.
  assert (g10 : agree nob o10 g) by exact (adv_agree _ _ _ _ _ _ A1012 A).
  assert (g7 : agree nob o7 g) by exact (adv_agree _ _ _ _ _ _ A712 A).
  assert (g6 : agree nob o6 g) by exact (adv_agree _ _ _ _ _ _ A7 g7).
  assert (g5 : agree nob o5 g) by exact (adv_agree _ _ _ _ _ _ A6 g6).
  assert (g4 : agree nob o4 g) by exact (adv_agree _ _ _ _ _ _ A5 g5).
  eapply (for_runs v v' sc init w inc lhs L _ o12 g te bb br ic Hsd); try done.
  - intros st0 m0 s' x HR0 Hx. by eapply (S6 g g6).
  - intros st0 m0 s' x HR0 Hx. apply bind_Some in Hx as (s1 & Hs1 & [= <- <-]).
    destruct (S9 g) with (ic, 0%nat) st0 m0 s1 as (p1 & m1 & Hp1 & R1 & HR1 & _); try done.
    { eapply agree_grows; [exact G10 | done]. }
    eapply reaches_after; [exact R1|]. by eapply (S10 g g10).
  - eapply part_at_intro; [exact S7 | done | done | exact (advl_sub _ _ _ _ _ A712 HL) |].
    symmetry. exact (adv_epi _ _ _ _ A712).
  - intros st0 m0 s' HR0 Hs. destruct (S12 g A _ st0 m0 s' H11 HR0 Hs) as (p1 & m1 & ? & ? & ? & _). by exists p1, m1.
  - intros k Hk. destruct (L12 k Hk) as [b Hkb]. exists b. by eapply lookup_weaken.
  - destruct en as [|k|]; [|done|].
    + intros s2 Hs2. apply bind_Some in Hs2 as (s1 & Hs1 & Hs2).
      destruct (S3 g) with p st m s1 as (p1 & m1 & Hp1 & R1 & HR1 & _); try done.
      { eapply agree_grows; [exact G4 | done]. }
      { by apply P2, P1. }
      destruct (S4 g g4 p1 s1 m1 s2 Hp1 HR1 Hs2) as (p2 & m2 & Hp2 & R2 & HR2 & _).
      destruct (S5 g g5 p2 s2 m2 Hp2 HR2) as (m3 & R3 & HR3 & _). exists m3. split; [|done].
      etrans; [exact R1|]. by etrans.
    + destruct Hbe as (b & [= <-] & ->). by rewrite Hlen.
Qed.

(** ** [switch]: the tests before the body *)

Lemma here_current (o : ctx) b : here o (b, 0%nat) -> current_blk o = Some b.
Proof. by intros (b' & blk & Hc & _ & [= -> _]). Qed.

Lemma case_test_ok op v c o :
  wf o -> live (nvals o) v ->
  exists r o', case_test op v c o = Ok (r, o') /\ wf o' /\ grows nob nok o o' /\ live (nvals o') r /\
    label_to_blk o' = label_to_blk o /\
    forall g, agree nob o' g -> forall p s m x, here o p -> R s m -> denotes v m x ->
      exists p' m', here o' p' /\ runs g (p, m) (p', m') /\ R s m' /\
        denotes r m' (if compare op x c then 1 else 0) /\ keep (nvals o) m m'.
Proof using Laws.
  intros W Hl. unfold case_test. set (o2 := set_nvals (S (nvals o)) o).
  assert (W2 : wf o2) by (by destruct W).
  assert (G2 : grows nob nok o o2).
  { destruct (grows_refl o) as [? ? ? ? ? ?]. split; try done. simpl. lia. }
  rewrite (G_step _ _ _ _ _ (eq_refl : new_val o = Ok (nvals o, o2))).
  pose proof (case_R (BackendOk := Laws) (nvals o) op v c) as CR.
  pose proof (case_keeps (BackendOk := Laws) (nvals o) op v c) as CK.
  pose proof (case_value (BackendOk := Laws) (nvals o) op v c) as CV.
  pose proof (case_live (BackendOk := Laws) (nvals o) op v c Hl) as CL.
  destruct (case_cmp (nvals o) op v c) as [code r]. simpl in CR, CK, CV, CL.
  destruct (asm_ok code o2 W2) as (o3 & E3 & W3 & G3 & C3 & L3 & V3 & U3 & S3).
  rewrite (G_step _ _ _ _ _ E3). exists r, o3. split_and!; try done.
  - by eapply grows_none.
  - by rewrite V3.
  - intros g A p s m x Hp HR Hd. destruct (S3 g nob p m A) as (p' & Hp' & R'); [apply closed_nob | done |].
    exists p', (execs code m). split_and!; auto. intros w n Hw Hwd. auto.
Qed.

(** A test of the value and its branch; the value stays for the next. *)
Lemma case_branch_ok op v c t f o :
  wf o -> live (nvals o) v -> clean o t ->
  exists r oa o', case_test op v c o = Ok (r, oa) /\ out_ctrl_branch r t f oa = Ok (tt, o') /\ wf o' /\
    grows (eq t) nok o o' /\ here o' (t, 0%nat) /\ label_to_blk o' = label_to_blk o /\
    (forall b, clean o b -> b <> t -> clean o' b) /\
    forall g, agree nob o' g -> forall p s m x, here o p -> R s m -> denotes v m x ->
      exists m', runs g (p, m) ((if compare op x c then t else f, 0%nat), m') /\ R s m' /\ keep (nvals o) m m'.
Proof using Laws.
  intros W Hl Ht. destruct (case_test_ok op v c o W Hl) as (r & o1 & E1 & W1 & G1 & L1 & B1 & S1).
  destruct (branch_ok R denotes live returned r t f o1 W1) as (o2 & E2 & W2 & G2 & C2 & L2 & V2 & H2 & K2 & S2).
  { eapply grows_clean; eauto. }
  { done. }
  exists r, o1, o2. split_and!; try done.
  - by eapply grows_none.
  - congruence.
  - intros b Hb Hne. apply K2; [eapply grows_clean; eauto | done].
  - intros g A p s m x Hp HR Hd.
    destruct (S1 g) with p s m x as (p1 & m1 & Hp1 & R1 & HR1 & D1 & K1); try done; [by eapply agree_grows|].
    destruct (S2 g nob p1 s m1 _ A (closed_nob o1) Hp1 HR1 D1) as (m2 & R2 & HR2 & K').
    exists m2. split_and!; [|done|].
    + etrans; [exact R1|]. by destruct (compare op x c).
    + eapply keep_trans; [done | apply (gr_vals _ _ _ _ G1) | done | done].
Qed.

Lemma select_grows (o : ctx) b :
  wf o -> clean o b \/ here o (b, 0%nat) ->
  exists o', out_current_blk b o = Ok (tt, o') /\ wf o' /\ grows (eq b) nok o o' /\ here o' (b, 0%nat) /\
    label_to_blk o' = label_to_blk o /\
    forall c, c <> b -> clean o c \/ here o (c, 0%nat) -> clean o' c.
Proof.
  intros W H. destruct (select_ok o b W H) as (o' & Es & W' & C' & B' & V' & H' & L' & G').
  exists o'. split_and!; try done. intros c Hne Hc. split; [|congruence]. rewrite B'.
  destruct Hc as [[Hc _] | Hc]; [done | by apply here_new].
Qed.

(** The tests of one [case], between where control is and [blk_cancel], where
    it goes on to the next. *)
Definition tests (v : oval) (c : case_) (cancel case_blk : bid) (o o' : ctx) : Prop :=
  wf o' /\ grows (fun b => b = cancel \/ b = case_blk \/ (length (blocks o) <= b)%nat) nok o o' /\
  label_to_blk o' = label_to_blk o /\ here o' (cancel, 0%nat) /\ clean o' case_blk /\
  forall g, agree nob o' g -> forall p s m x, here o p -> R s m -> denotes v m x ->
    exists m', runs g (p, m) ((if matches x c then case_blk else cancel, 0%nat), m') /\ R s m' /\
      keep (nvals o) m m'.

Lemma tests_value_ok v c cancel cb o :
  wf o -> live (nvals o) v -> clean o cancel -> clean o cb -> cancel <> cb -> c_expr2 c = None ->
  exists o', (t ← case_test op_eq v (c_expr c);
      _ ← out_ctrl_branch t cb cancel; out_current_blk cancel) o = Ok (tt, o') /\ tests v c cancel cb o o'.
Proof using Laws.
  intros W Hl Hk Hcb Hne He.
  destruct (case_branch_ok op_eq v (c_expr c) cb cancel o W Hl Hcb)
    as (r & o1 & o2 & E1 & E2 & W2 & G2 & H2 & L2 & K2 & S2).
  rewrite (G_step _ _ _ _ _ E1), (G_step _ _ _ _ _ E2).
  destruct (select_grows o2 cancel W2 (or_introl (K2 _ Hk Hne))) as (o3 & E3 & W3 & G3 & H3 & L3 & K3).
  exists o3. split; [done|]. split_and!; try done.
  - eapply grows_weaken; [by eapply grows_trans | | by intros ? [[]|[]]]. intros b _ _ [<- | <-]; auto.
  - congruence.
  - apply K3; auto.
  - intros g A p s m x Hp HR Hd. unfold matches. rewrite He.
    apply (S2 g (agree_grows _ _ _ _ _ _ G3 A) p s m x Hp HR Hd).
Qed.

Lemma tests_range_ok v c cancel cb max o :
  wf o -> live (nvals o) v -> clean o cancel -> clean o cb -> cancel <> cb -> c_expr2 c = Some max ->
  exists o', (blk_test2 ← out_blk_new;
      t ← case_test op_lt v (c_expr c);
      _ ← out_ctrl_branch t cancel blk_test2;
      _ ← out_current_blk blk_test2;
      t ← case_test op_gt v max;
      _ ← out_ctrl_branch t cancel cb;
      out_current_blk cancel) o = Ok (tt, o') /\ tests v c cancel cb o o'.
Proof using Laws.
  intros W Hl Hk Hcb Hne He.
  destruct (blk_new_ok o W) as (E0 & W0 & G0 & K0 & U0 & C0 & P0). rewrite (G_step _ _ _ _ _ E0).
  set (b2 := length (blocks o)) in *. set (o0 := set_blocks _ o) in *.
  assert (N2 : cancel <> b2 /\ cb <> b2) by (pose proof (clean_lt _ _ Hk); pose proof (clean_lt _ _ Hcb); lia).
  destruct N2 as [N2 N2'].
  assert (Ck : clean o0 cancel /\ clean o0 cb) by (split; (eapply grows_clean; [exact G0 | done | by intros []])).
  destruct Ck as [Ck Ckb].
  destruct (case_branch_ok op_lt v (c_expr c) cancel b2 o0 W0 Hl Ck)
    as (r & o1 & o2 & E1 & E2 & W2 & G2 & H2 & L2 & K2 & S2).
  rewrite (G_step _ _ _ _ _ E1), (G_step _ _ _ _ _ E2).
  destruct (select_grows o2 b2 W2 (or_introl (K2 _ K0 (not_eq_sym N2)))) as (o3 & E3 & W3 & G3 & H3 & L3 & K3).
  rewrite (G_step _ _ _ _ _ E3).
  pose proof (grows_none _ _ _ _ _ G0 (grows_trans _ _ _ _ _ _ _ G2 G3)) as G03.
  assert (Hl3 : live (nvals o3) v) by (eapply live_mono; [apply (gr_vals _ _ _ _ G03) | done]).
  destruct (case_branch_ok op_gt v max cancel cb o3 W3 Hl3) as (r' & o4 & o5 & E4 & E5 & W5 & G5 & H5 & L5 & K5 & S5).
  { apply K3; auto. }
  rewrite (G_step _ _ _ _ _ E4), (G_step _ _ _ _ _ E5).
  destruct (select_grows o5 cancel W5 (or_intror H5)) as (o6 & E6 & W6 & G6 & H6 & L6 & K6).
  exists o6. split; [done|]. split_and!; try done.
  - eapply grows_weaken; [eapply (grows_trans _ _ _ _ _ _ _ G03); by eapply grows_trans | | by intros ? [[[]|[]]|[[]|[]]]].
    intros b _ _ [[<- | <-] | [<- | <-]]; auto.
  - rewrite L6, L5, L3, L2. done.
  - apply K6; [done|]. left. apply K5; [|done]. apply K3; auto.
  - intros g A p s m x Hp HR Hd. unfold matches. rewrite He.
    assert (g5 : agree nob o5 g) by (by eapply agree_grows).
    assert (g3 : agree nob o3 g) by (by eapply agree_grows).
    destruct (S2 g (agree_grows _ _ _ _ _ _ G3 g3) p s m x (P0 _ Hp) HR Hd) as (m1 & R1 & HR1 & K1).
    simpl in R1. rewrite Z.leb_antisym. destruct (x <? c_expr c); [by exists m1|]. simpl.
    destruct (S5 g g5 (b2, 0%nat) s m1 x H3 HR1 (K1 v x Hl Hd)) as (m2 & R2 & HR2 & K2').
    exists m2. split_and!; [|done|].
    + etrans; [exact R1|]. simpl in R2. rewrite Z.leb_antisym. by destruct (max <? x).
    + eapply keep_trans; [done | apply (gr_vals _ _ _ _ G03) | done | done].
Qed.

Lemma gen_case_ok v c o :
  wf o -> live (nvals o) v -> label_to_blk o !! Cse (c_stmt c) = None ->
  exists b o', gen_case v c o = Ok (tt, o') /\ wf o' /\ grows nob (eq (Cse (c_stmt c))) o o' /\
    label_to_blk o' = <[Cse (c_stmt c) := b]> (label_to_blk o) /\ clean o' b /\
    forall g, agree nob o' g -> forall p s m x, here o p -> R s m -> denotes v m x ->
      exists m', R s m' /\ keep (nvals o) m m' /\
        if matches x c then runs g (p, m) ((b, 0%nat), m')
        else exists p', here o' p' /\ runs g (p, m) (p', m').
Proof using Laws.
  intros W Hl Hn. unfold gen_case.
  destruct (blk_new_ok o W) as (E1 & W1 & G1 & K1 & U1 & C1 & P1). rewrite (G_step _ _ _ _ _ E1).
  set (cancel := length (blocks o)) in *. set (o1 := set_blocks _ o) in *.
  destruct (new_case_blk_ok (c_stmt c) o1 W1 Hn) as (b & o2 & E2 & W2 & G2 & C2 & L2 & V2 & P2 & K2 & Hb).
  rewrite (G_step _ _ _ _ _ E2). pose proof (clean_lt _ _ K1) as Hlt.
  pose proof (grows_none _ _ _ _ _ G1 G2) as G02.
  assert (Hl2 : live (nvals o2) v) by (by rewrite V2).
  assert (Kc : clean o2 cancel) by (eapply grows_clean; [exact G2 | done | by intros []]).
  set (code := match c_expr2 c with Some max => _ | None => _ end).
  assert (HT : exists o3, (_ ← code; out_current_blk cancel) o2 = Ok (tt, o3) /\ tests v c cancel b o2 o3).
  { subst code. destruct (c_expr2 c) as [max|] eqn:Hc2.
    - destruct (tests_range_ok v c cancel b max o2 W2 Hl2 Kc K2 ltac:(lia) Hc2) as (o3 & E3 & T).
      exists o3. split; [|exact T]. rewrite <-E3. unfold mbind, G_bind. repeat case_match; congruence.
    - destruct (tests_value_ok v c cancel b o2 W2 Hl2 Kc K2 ltac:(lia) Hc2) as (o3 & E3 & T).
      exists o3. split; [|exact T]. rewrite <-E3. unfold mbind, G_bind. repeat case_match; congruence. }
  destruct HT as (o3 & E3 & W3 & G3 & L3 & H3 & K3 & S3).
  assert (Hlen : (cancel <= length (blocks o2))%nat) by (pose proof (gr_len _ _ _ _ G02); done).
  exists b, o3. split_and!; try done.
  - eapply grows_weaken; [eapply (grows_trans _ _ _ _ _ _ _ G02 G3) | | by intros k [<- | []]].
    intros c' Hc' _ [[] | [-> | [-> | H]]]; subst cancel; lia.
  - by rewrite L3, L2.
  - intros g A p s m x Hp HR Hd. destruct (S3 g A p s m x) as (m' & R' & HR' & K'); try done; [by apply P2, P1|].
    exists m'. split_and!; [done | by rewrite V2 in K' | ]. destruct (matches x c); [done|]. by exists (cancel, 0%nat).
Qed.

(** All of them: to the first [case] that matches, or on. *)
Lemma gen_cases_ok v cases o :
  wf o -> live (nvals o) v -> NoDup (map c_stmt cases) ->
  (forall c, c ∈ map c_stmt cases -> label_to_blk o !! Cse c = None) ->
  exists o', gen_cases v cases o = Ok (tt, o') /\ wf o' /\
    grows nob (fun k => k ∈ map Cse (map c_stmt cases)) o o' /\
    (forall c, c ∈ map c_stmt cases -> exists b, label_to_blk o' !! Cse c = Some b /\ clean o' b) /\
    forall g, agree nob o' g -> forall p s m x, here o p -> R s m -> denotes v m x ->
      match List.find (matches x) cases with
      | Some c => forall b, label_to_blk o' !! Cse (c_stmt c) = Some b -> reaches g p m s b
      | None => exists p' m', here o' p' /\ runs g (p, m) (p', m') /\ R s m'
      end.
Proof using Laws.
  revert o. induction cases as [|c cases IH]; intros o W Hl Hnd Hn.
  { exists o. split; [done|]. split_and!; [done | | by intros c Hc; inversion Hc |].
    - eapply grows_weaken; [apply grows_refl | tauto | by intros ? []].
    - intros g A p s m x Hp HR Hd. exists p, m. split_and!; [done | apply rtc_refl | done]. }
  simpl in Hnd, Hn. apply NoDup_cons in Hnd as [Hc Hnd]. cbn [gen_cases].
  destruct (gen_case_ok v c o W Hl) as (b & o1 & E1 & W1 & G1 & L1 & K1 & S1); [apply Hn; left|].
  rewrite (G_step _ _ _ _ _ E1).
  destruct (IH o1) as (o2 & E2 & W2 & G2 & L2 & S2); [done | | done | |].
  { eapply live_mono; [apply (gr_vals _ _ _ _ G1) | done]. }
  { intros c' Hc'. rewrite L1, lookup_insert_ne by congruence. apply Hn. by right. }
  exists o2. split; [done|].
  assert (Hb : label_to_blk o2 !! Cse (c_stmt c) = Some b).
  { eapply lookup_weaken; [|apply (gr_lbl _ _ _ _ G2)]. rewrite L1. apply lookup_insert_eq. }
  split_and!; [done | | |].
  - eapply grows_weaken; [eapply (grows_trans _ _ _ _ _ _ _ G1 G2) | by intros ? _ _ [[]|[]] |].
    intros k [<- | H]; simpl; [left | by right].
  - simpl. intros c' [-> | Hc']%elem_of_cons; [|by apply L2]. exists b. split; [done|].
    eapply grows_clean; [exact G2 | done | by intros []].
  - intros g A p s m x Hp HR Hd.
    destruct (S1 g (agree_grows _ _ _ _ _ _ G2 A) p s m x Hp HR Hd) as (m1 & HR1 & Kp & Hgo).
    simpl. destruct (matches x c).
    + intros b' Hb'. assert (b' = b) as -> by congruence. by exists m1.
    + destruct Hgo as (p1 & Hp1 & R1). specialize (S2 g A p1 s m1 x Hp1 HR1 (Kp v x Hl Hd)).
      destruct (List.find (matches x) cases) as [c'|].
      * intros b' Hb'. eapply reaches_after; [exact R1 | by apply S2].
      * destruct S2 as (p2 & m2 & Hp2 & R2 & HR2). exists p2, m2. split_and!; [done | by etrans | done].
Qed.

Lemma default_ok (d : option nat) (e : bid) (o : ctx) :
  wf o -> (forall c, d = Some c -> label_to_blk o !! Cse c = None) ->
  exists dest o', (match d with Some d => new_case_blk d | None => mret e end) o = Ok (dest, o') /\ wf o' /\
    grows nob (fun k => exists c, d = Some c /\ k = Cse c) o o' /\ (forall p, here o p -> here o' p) /\
    match d with
    | Some c => label_to_blk o' !! Cse c = Some dest /\ clean o' dest
    | None => dest = e
    end.
Proof.
  intros W Hn. destruct d as [c|].
  - destruct (new_case_blk_ok c o W (Hn c eq_refl)) as (b & o' & Ed & W' & G' & C' & L' & V' & P' & K' & _).
    exists b, o'. split_and!; try done; [|rewrite L'; apply lookup_insert_eq].
    eapply grows_weaken; [exact G' | auto | intros k <-; eauto].
  - exists e, o. split_and!; try done. eapply grows_weaken; [apply grows_refl | auto | by intros ? []].
Qed.

(** Everything before the body: control goes where the value says. *)
Lemma dispatch_ok (v : oval) cases (d : option nat) (e : bid) (o : ctx) :
  wf o -> live (nvals o) v -> NoDup (own_cases cases d) ->
  (forall c, c ∈ own_cases cases d -> label_to_blk o !! Cse c = None) ->
  exists oa dest ob o', gen_cases v cases o = Ok (tt, oa) /\
    (match d with Some d => new_case_blk d | None => mret e end) oa = Ok (dest, ob) /\
    jump_to dest ob = Ok (tt, o') /\ wf o' /\ grows nob (fun k => k ∈ map Cse (own_cases cases d)) o o' /\
    (forall c, c ∈ own_cases cases d -> exists b, label_to_blk o' !! Cse c = Some b /\ clean o' b) /\
    forall g, agree nob o' g -> forall p s m x, here o p -> R s m -> denotes v m x ->
      match pick x cases d with
      | Some c => forall b, label_to_blk o' !! Cse c = Some b -> reaches g p m s b
      | None => reaches g p m s e
      end.
Proof using Laws.
  intros W Hl Hnd Hn. unfold own_cases in *. apply NoDup_app in Hnd as (Hnd & Hdis & _).
  destruct (gen_cases_ok v cases o W Hl Hnd) as (o1 & E1 & W1 & G1 & L1 & S1).
  { intros c Hc. apply Hn, elem_of_app. by left. }
  destruct (default_ok d e o1 W1) as (dest & o2 & E2 & W2 & G2 & P2 & D2).
  { intros c ->. destruct (label_to_blk o1 !! Cse c) as [b|] eqn:Hb; [|done].
    destruct (gr_new _ _ _ _ G1 _ _ Hb) as [Hb' | [_ Hk]].
    - rewrite Hn in Hb'; [done|]. apply elem_of_app. right. by left.
    - apply list_elem_of_fmap in Hk as (c' & [= <-] & Hk). destruct (Hdis c Hk). by left. }
  destruct (goto_blk_ok dest o2 W2) as (o3 & E3 & W3 & G3 & C3 & S3).
  exists o1, dest, o2, o3. split_and!; try done.
  - eapply grows_weaken; [eapply (grows_trans _ _ _ _ _ _ _ G1 (grows_trans _ _ _ _ _ _ _ G2 G3)) | |].
    + by intros ? _ _ [[]|[[]|[]]].
    + intros k [H | [(c & -> & ->) | []]]; rewrite map_app; apply elem_of_app; [by left | right; by left].
  - assert (Hmono : forall c b, label_to_blk o2 !! Cse c = Some b -> clean o2 b ->
      exists b, label_to_blk o3 !! Cse c = Some b /\ clean o3 b).
    { intros c b Hb Hcl. exists b. split; [eapply lookup_weaken; [done | apply (gr_lbl _ _ _ _ G3)]|].
      eapply grows_clean; [exact G3 | done | by intros []]. }
    intros c [Hc | Hc]%elem_of_app.
    + destruct (L1 c Hc) as (b & Hb & Hcl). apply (Hmono c b).
      * eapply lookup_weaken; [done | apply (gr_lbl _ _ _ _ G2)].
      * eapply grows_clean; [exact G2 | done | by intros []].
    + destruct d as [d|]; [|by inversion Hc]. apply list_elem_of_singleton in Hc as ->.
      destruct D2 as [Hb Hcl]. by apply (Hmono d dest).
  - intros g A p s m x Hp HR Hd. assert (g2 : agree nob o2 g) by (by eapply agree_grows).
    specialize (S1 g (agree_grows _ _ _ _ _ _ G2 g2) p s m x Hp HR Hd). unfold pick.
    assert (Hup : forall c b, label_to_blk o1 !! Cse c = Some b -> label_to_blk o3 !! Cse c = Some b).
    { intros c b Hb. eapply lookup_weaken; [|apply (gr_lbl _ _ _ _ G3)].
      eapply lookup_weaken; [done | apply (gr_lbl _ _ _ _ G2)]. }
    destruct (List.find (matches x) cases) as [c|] eqn:Hf.
    + apply find_some in Hf as [Hin _]. intros b Hb.
      destruct (L1 (c_stmt c)) as (b' & Hb' & _); [apply list_elem_of_In, in_map, Hin|].
      assert (b' = b) as -> by (pose proof (Hup _ _ Hb'); congruence). by apply S1.
    + destruct S1 as (p1 & m1 & Hp1 & R1 & HR1).
      pose proof (S3 g A p1 s m1 (P2 _ Hp1) HR1) as HT. apply (reaches_after _ _ _ _ _ _ _ R1) in HT.
      destruct d as [c|]; [|by rewrite D2 in HT]. intros b Hb. destruct D2 as [Hb' _].
      assert (label_to_blk o3 !! Cse c = Some dest) by (eapply lookup_weaken; [done | apply (gr_lbl _ _ _ _ G3)]).
      by assert (b = dest) as -> by congruence.
Qed.

Lemma grows_adv_keys (K : key -> Prop) (o o' : ctx) : grows nob K o o' -> adv nob K o o'.
Proof.
  intros Gr. split; [eapply grows_weaken; [exact Gr | by intros ? _ _ [] | auto] | | by intros].
  intros k Hk H b Hb. destruct (gr_new _ _ _ _ Gr _ _ Hb) as [Hb' | [_ HK]]; [|done].
  eapply grows_clean; [exact Gr | by apply H | by intros []].
Qed.

(** The switch in the finished graph. *)
Lemma switch_runs v v' sc e cases d lhs L epi o' g body se :
  let s := s_switch sc e cases d lhs in
  scoped v v' sc s -> blk_break v' = Some (se, sids (path v')) -> blk_continue v' = blk_continue v ->
  (forall c, pick c cases d = None \/ exists x, pick c cases d = Some x /\ Cse x ∈ labels lhs) ->
  part_at v' (fun n => exec_stmt n lhs) (labels lhs) g L epi body se ->
  leaves g se sc o' -> (forall k, k ∈ labels s -> is_Some (L !! k)) ->
  forall n en st p m r, exec_stmt n s en st = Some r ->
    match en with
    | At k => k ∈ labels s /\ exists b, L !! k = Some b /\ p = (b, 0%nat)
    | _ => forall s1 s2 x, enter sc st = Some s1 -> eval e s1 = Some (s2, x) ->
        match pick x cases d with
        | Some c => forall b, L !! Cse c = Some b -> reaches g p m s2 b
        | None => reaches g p m s2 se
        end
    end -> R st m -> runs_to v L epi o' g p m r.
Proof.
  intros s Hsd Hb Hc Hpick Hp Hl HL. induction n as [|n IH]; intros en st p m r He Hbe HR; [done|].
  assert (Hre : reenters v s L epi o' g n).
  { intros l b m0 st0 r0 Hin Hbl HR0 He0. eapply (IH (At (Lbl l))); [done | | done]. split; [done|]. by exists b. }
  assert (Hstop : forall p m r1, (r1.1 = Normal -> reaches g p m r1.2 se) -> jumps v' L epi g p m r1 ->
    unscope (exec_stmt n) s sc (match r1.1 with Brk => (Normal, r1.2) | _ => r1 end) = Some r ->
    runs_to v L epi o' g p m r).
  { intros p0 m0 [out s1] F J Hu.
    eapply (scoped_stop v v' sc s L epi o' g se p0 m0 (match out with Brk => (Normal, s1) | _ => (out, s1) end) r n Hsd);
      try done; destruct out as [| | |l|x]; try done.
    intros _. by apply (J se _ s1 Hb), unwind_self. }
  assert (Hbody : forall k b st m r1, k ∈ labels lhs -> L !! k = Some b -> R st m ->
    exec_stmt n lhs (At k) st = Some r1 ->
    unscope (exec_stmt n) s sc (match r1.1 with Brk => (Normal, r1.2) | _ => r1 end) = Some r ->
    runs_to v L epi o' g (b, 0%nat) m r).
  { intros k b st0 m0 r1 Hk Hkb HR0 He1 Hu.
    destruct (Hp n (At k) st0 (b, 0%nat) m0 r1 He1) as [F J]; [by split; [|exists b] | done | by eapply Hstop]. }
  simpl in He. fold s in He. apply bind_Some in He as (r1 & He & Hu).
  assert (Hgo : match en with At _ => False | _ => True end ->
    (s1 ← enter sc st; '(s2, x) ← eval e s1;
     match pick x cases d with Some c => exec_stmt n lhs (At (Cse c)) s2 | None => Some (Normal, s2) end) = Some r1 ->
    runs_to v L epi o' g p m r).
  { intros Hen He1. apply bind_Some in He1 as (s1 & Hs1 & He1). apply bind_Some in He1 as ([s2 x] & Hx & He1).
    assert (Hbe' := Hbe). destruct en as [|k|]; [| done |]; specialize (Hbe' s1 s2 x Hs1 Hx);
      (destruct (Hpick x) as [Hn | (c & Hn & Hin)]; rewrite Hn in *;
       [injection He1 as <-; by apply (Hstop p m (Normal, s2))|];
       destruct (HL (Cse c) Hin) as [b Hkb]; eapply runs_to_after; [by apply Hbe'|];
       intros m' HR'; by eapply Hbody). }
  destruct en as [|k|]; [by apply Hgo | | by apply Hgo].
  destruct Hbe as (Hk & b & Hkb & ->). by eapply Hbody.
Qed.

Lemma pick_own x cases d c : pick x cases d = Some c -> c ∈ own_cases cases d.
Proof.
  unfold pick, own_cases. destruct (List.find (matches x) cases) as [y|] eqn:Hf.
  - intros [= <-]. apply find_some in Hf as [Hin _]. apply elem_of_app. left. apply list_elem_of_In, in_map, Hin.
  - intros ->. apply elem_of_app. right. by left.
Qed.

(** The switch around a body takes its [case]s. *)
Lemma ready_body s lhs (cs : list nat) o o' :
  ready s o -> labels s = labels lhs -> frees s = [] -> (forall c, c ∈ cs <-> c ∈ frees lhs) ->
  adv nob (fun k => k ∈ map Cse cs) o o' ->
  (forall c, c ∈ cs -> exists b, label_to_blk o' !! Cse c = Some b /\ clean o' b) -> ready lhs o'.
Proof.
  intros [H1 H2 H3] Hl Hf Hcs A Hc. rewrite Hl, Hf in *. split.
  - intros k Hk. destruct (decide (k ∈ map Cse cs)) as [Hin|Hin].
    + apply list_elem_of_fmap in Hin as (c & -> & Hin). destruct (Hc c Hin) as (b & Hb & Hcl).
      intros b' Hb'. by assert (b' = b) as -> by congruence.
    + apply (adv_ready _ _ _ _ A); auto.
  - intros c Hin. destruct (Hc c) as (b & Hb & _); [by apply Hcs | by exists b].
  - intros c Hin Hn. eapply adv_case; [exact A | |].
    + intros Hk. apply list_elem_of_fmap in Hk as (c' & [= <-] & Hk). by apply Hn, Hcs.
    + apply H3; [done | by intros Hx; inversion Hx].
Qed.

Lemma switch_correct v sc e cases d lhs :
  (forall b, scoped v (break_to b (push sc v)) sc (s_switch sc e cases d lhs)) ->
  NoDup (own_cases cases d) -> (forall c, c ∈ own_cases cases d <-> c ∈ frees lhs) ->
  (forall b, correct (break_to b (push sc v)) lhs) -> correct v (s_switch sc e cases d lhs).
Proof using Laws ExprLaws.
  intros Hsd Hnd Hcs Hl o W Hr. simpl. unfold gen_stmt_switch.
  destruct (blk_new_ok o W) as (E1 & W1 & G1 & K1 & U1 & C1 & P1). rewrite (G_step _ _ _ _ _ E1).
  set (se := length (blocks o)) in *. set (o1 := set_blocks _ o) in *.
  specialize (Hsd se). specialize (Hl se). set (v' := break_to se (push sc v)) in *.
  destruct (block_decls_frag sc o1 W1) as (o2 & E2 & W2 & G2 & S2). unfold flow_gen.
  rewrite (G_step _ _ _ _ _ E2).
  destruct (expr_ok e o2 W2) as (x & o3 & E3 & W3 & G3 & Lx & C3 & S3). rewrite (G_step _ _ _ _ _ E3).
  pose proof (advl_grows _ _ (grows_none _ _ _ _ _ G2 G3)) as A13.
  pose proof (advl_trans _ _ _ _ _ _ _ (advl_grows _ _ G1) A13) as A03.
  destruct (dispatch_ok x cases d se o3 W3 Lx Hnd) as (o4 & dest & o5 & o6 & E4 & E5 & E6 & W6 & G6 & L6 & S6).
  { intros c Hc. apply (adv_case _ _ _ _ _ A03); [by not_in|]. apply (rd_case _ _ Hr); [|by intros Hx; inversion Hx].
    by apply (frees_labels c lhs), Hcs. }
  rewrite (G_step _ _ _ _ _ E4), (G_step _ _ _ _ _ E5), (G_step _ _ _ _ _ E6).
  pose proof (advl_none _ _ _ (grows_adv_keys _ _ _ G6)) as A36.
  destruct (blk_new_ok o6 W6) as (E7 & W7 & G7 & K7 & U7 & C7 & P7). rewrite (G_step _ _ _ _ _ E7).
  set (body := length (blocks o6)) in *. set (o7 := set_blocks _ o6) in *.
  destruct (select_adv o7 body W7 U7 (or_introl K7)) as (o8 & E8 & W8 & A8 & H8).
  rewrite (G_step _ _ _ _ _ E8).
  assert (A68 : advl [] [] o6 o8).
  { apply advl_none. eapply advl_new; [apply (advl_trans _ _ _ _ _ _ _ (advl_grows _ _ G7) (advl_one _ _ _ A8)) | |].
    - intros b Hb. assert (b = body) as -> by (revert Hb; not_in). done.
    - intros k. not_in. }
  pose proof (advl_trans _ _ _ _ _ _ _ A13 (advl_trans _ _ _ _ _ _ _ A36 A68)) as A18.
  pose proof (advl_trans _ _ _ _ _ _ _ (advl_grows _ _ G1) A18) as A08.
  destruct (part_ok v' lhs se o8 Hl W8) as (o9' & o9 & E9 & E9' & W9 & A9 & L9 & S9).
  { apply (ready_body (s_switch sc e cases d lhs) _ (own_cases cases d) o); try done.
    - eapply advl_new; [exact A08 | by intros b; not_in |]. intros k. rewrite !elem_of_app, !elem_of_nil. tauto.
    - intros c Hc. destruct (L6 c Hc) as (b & Hb & Hcl). exists b.
      split; [exact (adv_lbl _ _ _ _ _ _ A68 Hb)|]. apply (grows_clean _ _ _ _ b (adv_grows _ _ _ _ A68) Hcl).
      intros [Hx | (k & Hx & _)]; by inversion Hx. }
  rewrite (G_step _ _ _ _ _ E9), (G_step _ _ _ _ _ E9').
  pose proof (advl_trans _ _ _ _ _ _ _ A18 (advl_none _ _ _ A9)) as A19.
  destruct (advl_free _ _ _ _ se A19) as [K9 U9]; [by split | by not_in |].
  destruct (select_adv o9 se W9 U9 (or_introl K9)) as (o10 & E10 & W10 & A10 & H10).
  rewrite (G_step _ _ _ _ _ E10). unfold flow_end.
  destruct (leave_parent_frag sc (path v) (sd_new _ _ _ _ Hsd) o10 W10) as (o11 & E11 & W11 & G11 & S11).
  rewrite E11. exists o11. split; [done|].
  pose proof (advl_trans _ _ _ _ _ _ _ (advl_one _ _ _ A10) (advl_grows _ _ G11)) as A911.
  assert (L11 : forall k, k ∈ labels lhs -> is_Some (label_to_blk o11 !! k)).
  { intros k Hk. apply (advl_is _ _ _ _ k A911). by apply L9. }
  split; [done | | done |].
  { eapply advl_new.
    - apply (advl_trans _ _ _ _ _ _ _ (advl_grows _ _ G1) (advl_trans _ _ _ _ _ _ _ A19 A911)).
    - intros b Hb. assert (b = se) as -> by (revert Hb; not_in). done.
    - intros k. simpl. rewrite !elem_of_app, !elem_of_nil. intros H.
      assert (k ∈ map Cse (own_cases cases d) \/ k ∈ labels lhs) as [Hk|Hk] by (intuition); [|done].
      apply list_elem_of_fmap in Hk as (c & -> & Hk). by apply frees_labels, Hcs. }
  intros g L A HL n en st p m r He Hbe HR.
  assert (g9 : agree nob o9 g) by exact (adv_agree _ _ _ _ _ _ A911 A).
  assert (g8 : agree nob o8 g) by exact (adv_agree _ _ _ _ _ _ A9 g9).
  assert (g6 : agree nob o6 g) by exact (adv_agree _ _ _ _ _ _ A68 g8).
  assert (g3 : agree nob o3 g) by exact (adv_agree _ _ _ _ _ _ A36 g6).
  pose proof (advl_sub _ _ _ _ _ A911 HL) as l9.
  pose proof (advl_sub _ _ _ _ _ (advl_trans _ _ _ _ _ _ _ A68 (advl_none _ _ _ A9)) l9) as l6.
  eapply (switch_runs v v' sc e cases d lhs L _ o11 g body se Hsd); try done.
  - intros y. destruct (pick y cases d) as [c|] eqn:Hc; [right | by left].
    exists c. split; [done|]. by apply frees_labels, Hcs, (pick_own y).
  - eapply part_at_intro; [exact S9 | done | done | done | symmetry; exact (adv_epi _ _ _ _ A911)].
  - intros st0 m0 s' HR0 Hs. destruct (S11 g A _ st0 m0 s' H10 HR0 Hs) as (p1 & m1 & ? & ? & ? & _). by exists p1, m1.
  - intros k Hk. destruct (L11 k Hk) as [b Hkb]. exists b. by eapply lookup_weaken.
  - destruct en as [|k|]; [|done | by destruct Hbe as (b & [=] & _)].
    intros s1 s2 y Hs1 Hy.
    destruct (S2 g) with p st m s1 as (p1 & m1 & Hp1 & R1 & HR1 & _); [by eapply agree_grows | by apply P1 | done | done |].
    destruct (S3 g nob g3 (closed_nob o2) p1 s1 m1 s2 y Hp1 HR1 Hy) as (p2 & m2 & Hp2 & R2 & HR2 & D2 & _).
    specialize (S6 g g6 p2 s2 m2 y Hp2 HR2 D2). assert (R12 : runs g (p, m) (p2, m2)) by (by etrans).
    destruct (pick y cases d) as [c|] eqn:Hpk; [|by eapply reaches_after].
    intros b Hb. eapply reaches_after; [exact R12|]. apply S6.
    destruct (L6 c (pick_own _ _ _ _ Hpk)) as (b' & Hb' & _).
    by assert (b' = b) as <- by (pose proof (lookup_weaken _ _ _ _ Hb' l6); congruence).
Qed.

(** ** Every statement *)

Lemma scoped_ok v v' brk cont sc s :
  path v' = sc :: path v -> label_scope v' = label_scope v ->
  sid sc ∉ sids (path v) /\ outside (label_scope v) (sid sc) s -> env_ok v brk cont ->
  (forall l, Lbl l ∈ labels s -> exists q, label_scope v l = q ++ sid sc :: sids (path v)) ->
  scoped v v' sc s.
Proof.
  intros Hp Hl [Hn Ho] [] Hin. split; try done.
  intros l Hk. destruct (Hin l Hk) as [q ->]. apply elem_of_app. right. by left.
Qed.

Lemma env_push v brk cont sc : env_ok v brk cont -> env_ok (push sc v) brk cont.
Proof.
  intros [H1 H2 H3 H4 H5 H6]. split; simpl; try done; intros b to Hb; [apply H3 in Hb | apply H4 in Hb];
    intros i Hi; right; by apply Hb.
Qed.

Lemma env_targets v brk cont b c : env_ok v brk cont -> env_ok (targets b c v) true true.
Proof. intros []. split; simpl; try done; try (by intros; eexists); by intros ? ? [= _ <-]. Qed.

Lemma env_break_to v brk cont b : env_ok v brk cont -> env_ok (break_to b v) true cont.
Proof. intros [H1 H2 H3 H4 H5 H6]. split; simpl; try done. by intros ? ? [= _ <-]. Qed.

Lemma fold_and {A} (P : A -> Prop) l : fold_right (fun x Q => P x /\ Q) True l <-> Forall P l.
Proof. induction l as [|x l IH]; simpl; [by split|]. by rewrite Forall_cons, IH. Qed.

Lemma NoDup_part {A B} (f : A -> list B) l x : NoDup (concat (map f l)) -> x ∈ l -> NoDup (f x).
Proof.
  induction l as [|y l IH]; simpl; [by intros _ Hx; inversion Hx|].
  intros (H1 & _ & H2)%NoDup_app [-> | Hx]%elem_of_cons; auto.
Qed.

Lemma elem_concat {A B} (f : A -> list B) l y : y ∈ concat (map f l) -> exists x, x ∈ l /\ y ∈ f x.
Proof.
  induction l as [|x l IH]; simpl; [by intros Hx; inversion Hx|].
  intros [H | H]%elem_of_app; [exists x; split; [left | done]|].
  destruct (IH H) as (z & Hz & Hy). exists z. split; [by right | done].
Qed.

Lemma stmt_correct s : forall v brk cont,
  wf_stmt brk cont s -> NoDup (labels s) -> scopes_ok (label_scope v) (sids (path v)) s -> env_ok v brk cont ->
  correct v s.
Proof using Laws ExprLaws.
  induction s as [|e b|sc ss IH|sc e lhs rhs IHl IHr|sc e lhs IH|e lhs IH|sc i w inc lhs IH
    |sc e cs d lhs IH|c lhs IH|l b lhs IH| l | e | | |e] using stmt_ind'; intros v brk cont Hwf Hnd Hsc Hv; simpl in Hwf, Hsc.
  - apply noop_correct.
  - apply expr_correct.
  - destruct Hsc as [Hs Hss]. rewrite fold_and in Hwf, Hss. rewrite Forall_forall in IH, Hwf, Hss.
    apply code_correct; [| done |].
    + eapply scoped_ok; [done | done | done | exact Hv |]. intros l (s & Hin & Hl)%elem_concat.
      by apply (located _ _ s), Hl; apply Hss.
    + apply Forall_forall. intros s Hin. eapply (IH s Hin); [by apply Hwf | by eapply NoDup_part | by apply Hss |].
      by apply env_push.
  - destruct Hwf as [Hw1 Hw2], Hsc as (Hs & H1 & H2). simpl in Hnd.
    pose proof Hnd as Hnd'. apply NoDup_app in Hnd' as (Hn1 & _ & Hn2). apply if_correct; try done.
    + eapply scoped_ok; [done | done | done | exact Hv |]. intros l Hl. simpl in Hl.
      apply elem_of_app in Hl as [Hl | Hl]; [by apply (located _ _ lhs)|].
      destruct rhs as [r|]; [by apply (located _ _ r) | by inversion Hl].
    + eapply IHl; [done | done | done | by apply env_push].
    + intros r ->. eapply (IHr r eq_refl); [done | done | done | by apply env_push].
  - destruct Hsc as [Hs Hl]. apply while_correct; intros b c.
    + eapply scoped_ok; [done | done | done | exact Hv |]. intros l Hin. by apply (located _ _ lhs).
    + eapply IH; [done | done | done | by eapply env_targets, env_push].
  - apply do_correct. intros b c. eapply IH; [done | done | done | by eapply env_targets].
  - destruct Hsc as [Hs Hl]. apply for_correct; intros b c.
    + eapply scoped_ok; [done | done | done | exact Hv |]. intros l Hin. by apply (located _ _ lhs).
    + eapply IH; [done | done | done | by eapply env_targets, env_push].
  - destruct Hsc as [Hs Hl], Hwf as (Hw & Hnc & Hcs). apply switch_correct; [intros b | done | done | intros b].
    + eapply scoped_ok; [done | done | done | exact Hv |]. intros l Hin. by apply (located _ _ lhs).
    + eapply IH; [done | done | done | by eapply env_break_to, env_push].
  - apply case_correct; [done|]. eapply IH; [done | | done | exact Hv]. by apply NoDup_cons in Hnd as [_ ?].
  - apply label_correct; [done|]. destruct Hsc as [_ Hsc]. eapply IH; [done | | done | exact Hv].
    by apply NoDup_cons in Hnd as [_ ?].
  - apply goto_correct.
  - apply goto_exp_correct.
  - apply break_correct, Hv, Hwf.
  - apply continue_correct, Hv, Hwf.
  - apply return_correct; apply Hv.
Qed.
End FlowSem.
