(* ===== verification/FlowFunc.v ===== *)
(** * Functions: the body's blocks run as the body

    [gen_func] against [exec_func] on every body C's constraints allow
    ([wf_func]), and a small code generator for values on which the laws asked
    of the value side hold. *)

From S2P Require Import Prelude Blk Flow FlowLaws FlowExpr FlowSem.
From stdpp Require Import relations.
Local Open Scope Z_scope.

(** ** Scopes and labels of a body *)

Section Scopes.
Context {E : Type}.
Local Notation stmt := (stmt E).

(** The scopes made inside a statement. *)
Fixpoint scope_ids (s : stmt) : list nat :=
  match s with
  | s_code sc ss => sid sc :: concat (map scope_ids ss)
  | s_if sc _ lhs rhs => sid sc :: scope_ids lhs ++ match rhs with Some r => scope_ids r | None => [] end
  | s_while sc _ lhs | s_for sc _ _ _ lhs | s_switch sc _ _ _ lhs => sid sc :: scope_ids lhs
  | s_do _ lhs | s_case _ lhs | s_label _ _ lhs => scope_ids lhs
  | _ => []
  end.

(** What folding has checked of a function's body: [break], [continue] and
    [case] are inside what they belong to, and no label is there twice; each
    scope is an object of its own. *)
Definition wf_func (code : stmt) : Prop :=
  wf_stmt false false code /\ frees code = [] /\ NoDup (labels code) /\ NoDup (scope_ids code).

Lemma label_scopes_labels (s : stmt) p l q : (l, q) ∈ label_scopes p s -> Lbl l ∈ labels s.
Proof.
  revert p. induction s as [| |sc ss IH|sc e lhs rhs IHl IHr|sc e lhs IH|e lhs IH|sc i w inc lhs IH
    |sc e cs d lhs IH|c lhs IH|l' b lhs IH| | | | |] using stmt_ind'; intros p H; simpl in *;
    try (by inversion H); try (by eapply IH).
  - apply elem_concat in H as (s & Hs & H). rewrite Forall_forall in IH. specialize (IH s Hs _ H).
    clear - Hs IH. induction ss as [|s' ss IHs]; [by inversion Hs|]. simpl. apply elem_of_app.
    apply elem_of_cons in Hs as [-> | Hs]; auto.
  - apply elem_of_app in H as [H | H]; apply elem_of_app; [left; by eapply IHl|].
    right. destruct rhs as [r|]; [by eapply (IHr r) | by inversion H].
  - right. by eapply IH.
  - apply elem_of_cons in H as [[= -> ->] | H]; [left | right; by eapply IH].
Qed.

Lemma labels_label_scopes (s : stmt) p l : Lbl l ∈ labels s -> exists q, (l, q) ∈ label_scopes p s.
Proof.
  revert p. induction s as [| |sc ss IH|sc e lhs rhs IHl IHr|sc e lhs IH|e lhs IH|sc i w inc lhs IH
    |sc e cs d lhs IH|c lhs IH|l' b lhs IH| | | | |] using stmt_ind'; intros p H; simpl in *;
    try (by inversion H); try (by eapply IH).
  - apply elem_concat in H as (s & Hs & H). rewrite Forall_forall in IH.
    destruct (IH s Hs (sid sc :: p) H) as [q Hq]. exists q. apply list_elem_of_In, in_concat.
    exists (label_scopes (sid sc :: p) s). split; [by apply in_map, list_elem_of_In | by apply list_elem_of_In].
  - apply elem_of_app in H as [H | H].
    + destruct (IHl (sid sc :: p) H) as [q Hq]. exists q. apply elem_of_app. by left.
    + destruct rhs as [r|]; [|by inversion H].
      destruct (IHr r eq_refl (sid sc :: p) H) as [q Hq]. exists q. apply elem_of_app. by right.
  - apply elem_of_cons in H as [[=] | H]. by apply IH.
  - apply elem_of_cons in H as [[= ->] | H]; [exists p; left|]. destruct (IH p H) as [q Hq]. exists q. by right.
Qed.

(** A label's scopes are those around the statement and some inside it. *)
Lemma label_scopes_in (s : stmt) p l q i : (l, q) ∈ label_scopes p s -> i ∈ q -> i ∈ p \/ i ∈ scope_ids s.
Proof.
  revert p. induction s as [| |sc ss IH|sc e lhs rhs IHl IHr|sc e lhs IH|e lhs IH|sc x w inc lhs IH
    |sc e cs d lhs IH|c lhs IH|l' b lhs IH| | | | |] using stmt_ind'; intros p H Hi; simpl in *;
    try (by inversion H); try (by eapply IH);
    try (rewrite elem_of_cons; destruct (IH _ H Hi) as [[-> | ?]%elem_of_cons | ?]; by auto).
  - apply elem_concat in H as (s & Hs & H). rewrite Forall_forall in IH. rewrite elem_of_cons.
    destruct (IH s Hs _ H Hi) as [[-> | ?]%elem_of_cons | Hin]; [by auto | by auto |].
    right. right. apply list_elem_of_In, in_concat. exists (scope_ids s).
    split; [by apply in_map, list_elem_of_In | by apply list_elem_of_In].
  - rewrite elem_of_cons, elem_of_app. apply elem_of_app in H as [H | H].
    + destruct (IHl _ H Hi) as [[-> | ?]%elem_of_cons | ?]; auto.
    + destruct rhs as [r|]; [|by inversion H]. destruct (IHr r eq_refl _ H Hi) as [[-> | ?]%elem_of_cons | ?]; auto.
  - apply elem_of_cons in H as [[= -> ->] | H]; [by left | by eapply IH].
Qed.

Lemma concat_same {A B} (f : A -> list B) l x y i :
  NoDup (concat (map f l)) -> x ∈ l -> y ∈ l -> i ∈ f x -> i ∈ f y -> x = y.
Proof.
  assert (Hin : forall z l, z ∈ l -> i ∈ f z -> i ∈ concat (map f l)).
  { intros z l' Hz Hi. apply list_elem_of_In, in_concat. exists (f z).
    split; [by apply in_map, list_elem_of_In | by apply list_elem_of_In]. }
  induction l as [|z l IH]; simpl; [by intros _ Hx; inversion Hx|].
  intros (_ & Hd & Hnd)%NoDup_app [-> | Hx]%elem_of_cons [-> | Hy]%elem_of_cons Hix Hiy; auto;
    (destruct (Hd i); [done | by eapply Hin]).
Qed.

Lemma in_concat_map {A B} (f : A -> list B) l x i : x ∈ l -> i ∈ f x -> i ∈ concat (map f l).
Proof.
  intros Hx Hi. apply list_elem_of_In, in_concat. exists (f x).
  split; [by apply in_map, list_elem_of_In | by apply list_elem_of_In].
Qed.

(** The scopes found for the labels of a body are where the labels are. *)
Definition located_by (ls : string -> list nat) (s : stmt) : Prop := forall p,
  NoDup (scope_ids s) -> (forall i, i ∈ scope_ids s -> i ∉ p) ->
  (forall l q, (l, q) ∈ label_scopes p s -> ls l = q) ->
  (forall l i, i ∈ scope_ids s -> i ∈ ls l -> Lbl l ∈ labels s) -> scopes_ok ls p s.

Lemma parts_located ls ss p :
  Forall (located_by ls) ss -> NoDup (concat (map scope_ids ss)) ->
  (forall i, i ∈ concat (map scope_ids ss) -> i ∉ p) ->
  (forall l q, (l, q) ∈ concat (map (label_scopes p) ss) -> ls l = q) ->
  (forall l i, i ∈ concat (map scope_ids ss) -> i ∈ ls l -> Lbl l ∈ concat (map labels ss)) ->
  Forall (scopes_ok ls p) ss.
Proof.
  intros IH Hn Hp Hls Hin. rewrite Forall_forall in *. intros s Hs. apply (IH s Hs).
  - by eapply NoDup_part.
  - intros i Hi. by eapply Hp, in_concat_map.
  - intros l q Hq. by eapply Hls, (in_concat_map (label_scopes p)).
  - intros l i Hi Hil. assert (Hi' : i ∈ concat (map scope_ids ss)) by (by eapply in_concat_map).
    destruct (elem_concat labels ss (Lbl l)) as (t & Ht & Hl); [by apply (Hin l i)|].
    destruct (labels_label_scopes t p l Hl) as [q Hq].
    assert (Hlq : ls l = q) by (by eapply Hls, (in_concat_map (label_scopes p))). rewrite Hlq in Hil.
    destruct (label_scopes_in t _ l q i Hq Hil) as [Hx | Hx]; [by destruct (Hp i Hi')|].
    by rewrite (concat_same scope_ids ss s t i Hn Hs Ht Hi Hx).
Qed.

Lemma scopes_ok_intro ls (s : stmt) : located_by ls s.
Proof.
  assert (Hout : forall i (s : stmt) ids, i :: ids = scope_ids s ->
    (forall l i, i ∈ scope_ids s -> i ∈ ls l -> Lbl l ∈ labels s) -> outside ls i s).
  { intros i s' ids Hs H l Hl Hi. apply Hl, (H l i); [rewrite <-Hs; left | done]. }
  assert (H1 : forall i p (ids : list nat), NoDup (i :: ids) -> (forall j, j ∈ i :: ids -> j ∉ p) ->
    i ∉ p /\ NoDup ids /\ forall j, j ∈ ids -> j ∉ i :: p).
  { intros i p ids [Hi Hn]%NoDup_cons H. split_and!; [apply H; left | done |].
    intros j Hj [-> | Hp]%elem_of_cons; [done|]. by apply (H j); [right|]. }
  induction s as [| |sc ss IH|sc e lhs rhs IHl IHr|sc e lhs IH|e lhs IH|sc x w inc lhs IH
    |sc e cs d lhs IH|c lhs IH|l' b lhs IH| | | | |] using stmt_ind'; intros p Hnd Hp Hls Hin; simpl in *; try done;
    try (destruct (H1 _ _ _ Hnd Hp) as (Hi & Hn & Hp'); split_and!;
      [done | by eapply Hout | apply IH; try done; intros l i Hii; apply Hin; by right]).
  - destruct (H1 _ _ _ Hnd Hp) as (Hi & Hn & Hp'). split; [split; [done | by eapply Hout]|].
    apply fold_and, parts_located; try done. intros l i Hii. apply Hin. by right.
  - destruct (H1 _ _ _ Hnd Hp) as (Hi & Hn & Hp'). split; [split; [done | by eapply Hout]|].
    assert (HF : Forall (scopes_ok ls (sid sc :: p)) (lhs :: match rhs with Some r => [r] | None => [] end)).
    { apply parts_located; destruct rhs as [r|]; simpl; rewrite ?app_nil_r in *; try done; auto;
        try (intros l i Hii; apply Hin; by right). }
    destruct rhs as [r|]; [by rewrite !Forall_cons in HF; destruct HF as (? & ? & _) | by rewrite Forall_cons in HF; destruct HF].
  - by apply IH.
  - apply IH; try done. intros l i Hii Hil. specialize (Hin l i Hii Hil). by apply elem_of_cons in Hin as [[=]|].
  - split; [apply Hls; left|]. apply IH; try done.
    + intros l q Hq. apply Hls. by right.
    + intros l i Hii Hil. pose proof (Hin l i Hii Hil) as Hx. apply elem_of_cons in Hx as [[= ->] | Hx]; [|done].
      rewrite (Hls l' p) in Hil by left. by destruct (Hp i).
Qed.

(** Which label [find_label] finds. *)
Lemma label_scopes_fun (s : stmt) l q q' : forall p,
  NoDup (labels s) -> (l, q) ∈ label_scopes p s -> (l, q') ∈ label_scopes p s -> q = q'.
Proof.
  induction s as [| |sc ss IH|sc e lhs rhs IHl IHr|sc e lhs IH|e lhs IH|sc x w inc lhs IH
    |sc e cs d lhs IH|c lhs IH|l' b lhs IH| | | | |] using stmt_ind'; intros p Hnd H H'; simpl in *;
    try (by inversion H); try (by eapply IH).
  - apply elem_concat in H as (t & Ht & H). apply elem_concat in H' as (t' & Ht' & H').
    assert (t' = t) as ->.
    { eapply (concat_same labels ss); [done | done | done | by eapply label_scopes_labels | by eapply label_scopes_labels]. }
    rewrite Forall_forall in IH. eapply (IH t Ht); [by eapply NoDup_part | done | done].
  - apply NoDup_app in Hnd as (Hn1 & Hd & Hn2).
    assert (Hx : forall a b, (l, a) ∈ label_scopes (sid sc :: p) lhs ->
      (l, b) ∈ match rhs with Some r => label_scopes (sid sc :: p) r | None => [] end -> False).
    { intros a b Ha Hb. destruct rhs as [r|]; [|by inversion Hb].
      apply (Hd (Lbl l)); by eapply label_scopes_labels. }
    apply elem_of_app in H as [H | H]; apply elem_of_app in H' as [H' | H']; [by eapply IHl | | |].
    + by destruct (Hx _ _ H H').
    + by destruct (Hx _ _ H' H).
    + destruct rhs as [r|]; [by eapply (IHr r eq_refl) | by inversion H].
  - apply NoDup_cons in Hnd as [_ Hnd]. by eapply IH.
  - apply NoDup_cons in Hnd as [Hl Hnd].
    assert (Hx : forall a, (l', a) ∉ label_scopes p lhs) by (intros a Ha; by eapply Hl, label_scopes_labels).
    apply elem_of_cons in H as [? | H]; apply elem_of_cons in H' as [? | H']; simplify_eq; try done;
      [by destruct (Hx _ H') | by destruct (Hx _ H) | by eapply IH].
Qed.

Lemma find_label_In p (s : stmt) l q :
  NoDup (labels s) -> (l, q) ∈ label_scopes p s -> find_label (label_scopes p s) l = q.
Proof.
  intros Hnd Hq. unfold find_label. destruct (List.find _ _) as [[l' q']|] eqn:Hf.
  - apply find_some in Hf as [Hin He]. apply bool_decide_eq_true in He. simpl in He. subst l'.
    eapply label_scopes_fun; [done | | done]. by apply list_elem_of_In.
  - pose proof (find_none _ _ Hf (l, q)) as Hn. apply list_elem_of_In in Hq. specialize (Hn Hq).
    by rewrite bool_decide_eq_false in Hn.
Qed.

Lemma find_label_none p (s : stmt) l : Lbl l ∉ labels s -> find_label (label_scopes p s) l = [].
Proof.
  intros Hl. unfold find_label. destruct (List.find _ _) as [[l' q]|] eqn:Hf; [|done].
  apply find_some in Hf as [Hin He]. apply bool_decide_eq_true in He. simpl in He. subst l'.
  destruct Hl. eapply label_scopes_labels, list_elem_of_In, Hin.
Qed.

Lemma func_scopes_ok (code : stmt) :
  wf_func code -> scopes_ok (find_label (label_scopes [] code)) [] code.
Proof.
  intros (_ & _ & Hnl & Hns). apply scopes_ok_intro; try done.
  - by intros i _ Hi; inversion Hi.
  - intros l q Hq. by apply find_label_In.
  - intros l i Hi Hil. destruct (decide (Lbl l ∈ labels code)) as [|Hl]; [done|].
    rewrite find_label_none in Hil by done. inversion Hil.
Qed.

End Scopes.

(** ** A function's blocks *)

Section Func.
Context {insn jcc addr oval sst mst E : Type}.
Context `{!Backend insn jcc addr oval} `{!Machine insn jcc addr mst}.
Context (R : sst -> mst -> Prop) (denotes : oval -> mst -> Z -> Prop).
Context (live : nat -> oval -> Prop) (returned : mst -> Z -> Prop).
Context `{Laws : !BackendOk R denotes live returned}.
Context `{!GenExpr insn jcc addr oval sst E} `{ExprLaws : !GenExprOk R denotes live E}.

Local Notation runs g := (rtc (gstep (mst := mst) g)).
Local Notation func_ctx := (func_ctx (insn := insn) (jcc := jcc) (addr := addr) (oval := oval)).

Lemma func_ctx_wf : wf func_ctx /\ here func_ctx (0%nat, 0%nat) /\ clean func_ctx 1.
Proof.
  split_and!; [split; simpl | by exists 0%nat, blk_new | by split].
  - intros b blk Hb _. by destruct b as [|[|b]]; simpl in Hb; simplify_eq.
  - intros b [= <-]. by exists blk_new.
  - by eexists.
  - by intros k b Hk.
  - by intros k k' b Hk.
Qed.

Lemma func_ready (code : stmt E) : wf_func code -> ready code func_ctx.
Proof.
  intros (_ & Hf & _). split.
  - by intros k _ b Hb.
  - rewrite Hf. intros c Hc. inversion Hc.
  - done.
Qed.

(** What [out_func_epilogue] does first. *)
Lemma epilogue_ok epilogue o :
  wf o -> clean o (epilogue_blk o) ->
  exists o1 o2 o3 o4, (match current_blk o with Some _ => jump_to (epilogue_blk o) | None => mret tt end) o = Ok (tt, o1) /\
    out_current_blk (epilogue_blk o) o1 = Ok (tt, o2) /\ out_asm epilogue o2 = Ok (tt, o3) /\
    terminate BLK_TERMINAL None o3 = Ok (tt, o4) /\
    blocks o4 !! epilogue_blk o = Some (mk_blk epilogue BLK_TERMINAL None) /\
    grows (eq (epilogue_blk o)) (fun _ => False) o o4 /\
    forall p s m, here o p -> R s m -> exists m', runs (blocks o4) (p, m) ((epilogue_blk o, 0%nat), m') /\ R s m'.
Proof using Laws.
  intros W Hcl. assert (Hgo : exists o1, (match current_blk o with Some _ => jump_to (epilogue_blk o) | None => mret tt end) o
      = Ok (tt, o1) /\ wf o1 /\ grows (fun _ => False) (fun _ => False) o o1 /\
      forall g, agree (fun _ => False) o1 g -> forall p s m, here o p -> R s m ->
        exists m', runs g (p, m) ((epilogue_blk o, 0%nat), m') /\ R s m').
  { destruct (current_blk o) as [b|] eqn:Hc.
    - destruct (goto_blk_ok R denotes live returned (epilogue_blk o) o W) as (o1 & E1 & W1 & G1 & C1 & S1).
      by exists o1.
    - exists o. split_and!; [done | done | apply grows_refl |].
      intros g _ p s m (b & blk & Hb & _). congruence. }
  destruct Hgo as (o1 & E1 & W1 & G1 & S1).
  destruct (current_blk_ok o1 (epilogue_blk o) W1) as (o2 & E2 & W2 & G2 & C2 & B2 & L2 & V2 & H2).
  { eapply grows_clean; eauto. }
  destruct (asm_ok epilogue o2 W2) as (o3 & E3 & W3 & G3 & C3 & L3 & V3 & U3 & S3).
  destruct (terminate_ok BLK_TERMINAL None o3 W3 eq_refl) as (o4 & E4 & W4 & G4 & C4 & L4 & V4 & U4 & B4).
  assert (Hc3 : current_blk o3 = Some (epilogue_blk o)) by congruence.
  destruct (B4 _ Hc3) as (blk & Hb & _ & HB).
  pose proof (grows_none _ _ _ _ _ G3 G4) as G24.
  exists o1, o2, o3, o4. split_and!; try done.
  - rewrite HB, list_lookup_insert_eq by (by eapply lookup_lt_Some).
    unfold out_asm in E3. rewrite C2 in E3. injection E3 as <-. simpl in Hb.
    rewrite list_lookup_alter_eq, (here_new o2 (epilogue_blk o) W2 H2) in Hb. by injection Hb as <-.
  - eapply grows_weaken; [eapply (grows_trans _ _ _ _ _ _ _ G1 (grows_trans _ _ _ _ _ _ _ G2 G24)) | |].
    + by intros b _ _ [[] | [<- | []]].
    + by intros k [[] | [[] | []]].
  - intros p s m Hp HR. apply S1; [|done|done]. apply (agree_grows _ _ _ _ _ _ (grows_trans _ _ _ _ _ _ _ G2 G24)).
    intros b blk' _ Hb'. exists blk'. split; [done | apply later_refl].
Qed.

(** The blocks of a function's body run as the body. *)
Lemma gen_func_runs (code : stmt E) (epilogue : list insn) :
  wf_func code ->
  exists o', gen_func code epilogue func_ctx = Ok (tt, o') /\
    blocks o' !! 1%nat = Some (mk_blk epilogue BLK_TERMINAL None) /\
    forall n s m x s', exec_func n code s = Some (x, s') -> R s m ->
      exists m', runs (blocks o') ((0%nat, 0%nat), m) ((1%nat, 0%nat), m') /\ R s' m' /\
        forall k, x = Some k -> returned m' k.
Proof using Laws ExprLaws.
  intros Hwf. destruct func_ctx_wf as (W0 & H0 & Hcl).
  set (v := mk_env [] None None (find_label (label_scopes [] code)) false None : env E).
  destruct (stmt_correct R denotes live returned code v false false) with (o := func_ctx)
    as (o1 & E1 & [W1 A1 L1 S1]); try done; try apply Hwf.
  { by apply func_scopes_ok. }
  { by apply func_ready. }
  assert (He : epilogue_blk o1 = 1%nat) by (apply (adv_epi _ _ _ _ A1)).
  destruct (epilogue_ok epilogue o1 W1) as (o2 & o3 & o4 & o5 & E2 & E3 & E4 & E5 & B5 & G5 & S5).
  { rewrite He. eapply grows_clean; [apply A1 | done |]. by intros [[] | (k & _ & Hk)]. }
  exists o5. unfold gen_func. fold v. rewrite (G_step _ _ _ _ _ E1), (G_step _ _ o1 o1 o1) by done.
  rewrite (G_step _ _ _ _ _ E2), (G_step _ _ _ _ _ E3), (G_step _ _ _ _ _ E4). rewrite He in *.
  split; [done | split; [done|]]. intros n s m x s' Hx HR. unfold exec_func in Hx.
  apply bind_Some in Hx as ([out s1] & Hx & Ho).
  destruct (S1 (blocks o5) (label_to_blk o1)) with n (@Start) s (0%nat, 0%nat) m (out, s1) as [F J]; try done.
  { eapply agree_grows; [exact G5|]. intros b blk _ Hb. exists blk. split; [done | apply later_refl]. }
  destruct out as [| | |l|y]; try done; injection Ho as <- <-.
  - destruct (F eq_refl) as (p1 & m1 & Hp1 & R1 & HR1). destruct (S5 p1 s1 m1 Hp1 HR1) as (m2 & R2 & HR2).
    exists m2. split_and!; [by etrans | done | done].
  - exact (J s1 eq_refl).
Qed.

End Func.
