(* ===== verification/FlowMachine.v ===== *)
(** * A code generator for values, and functions generated with it

    The interfaces of Blk and Flow filled in: integer variables, numbered
    value slots for registers, and jumps on a slot being zero.  Every law of
    [BackendOk] and [GenExprOk] is proved of it, so that the theorems on
    functions apply to whole programs ([prog], run in Compile). *)

From S2P Require Import Prelude Blk Flow FlowLaws FlowExpr FlowSem FlowFunc.
From stdpp Require Import relations.
Local Open Scope Z_scope.

(** ** The machine *)

(** A value: a number known now, or what an instruction put in a slot. *)
Inductive operand : Type := VConst (n : Z) | VSlot (k : nat).

Inductive instr : Type :=
  | ILoad (k x : nat)
  | IStore (x : nat) (v : operand)
  | ISub (k : nat) (a b : operand)
  | ILess (k : nat) (a b : operand)
  | IMove (k : nat) (v : operand)
  | INorm (k : nat) (v : operand)
  | ICmp (k : nat) (op : case_op) (v : operand) (n : Z)
  | IRet (v : operand)
  | IUd2.

Record mach : Type := mk_mach { vars : nat -> Z; slots : nat -> Z; retreg : Z }.

Definition upd (f : nat -> Z) (k : nat) (n : Z) : nat -> Z := fun j => if (j =? k)%nat then n else f j.

Definition value (v : operand) (m : mach) : Z := match v with VConst n => n | VSlot k => slots m k end.
Definition put_slot (k : nat) (n : Z) (m : mach) : mach := mk_mach (vars m) (upd (slots m) k n) (retreg m).

Definition exec_instr (i : instr) (m : mach) : mach :=
  match i with
  | ILoad k x => put_slot k (vars m x) m
  | IStore x v => mk_mach (upd (vars m) x (value v m)) (slots m) (retreg m)
  | ISub k a b => put_slot k (value a m - value b m) m
  | ILess k a b => put_slot k (if value a m <? value b m then 1 else 0) m
  | IMove k v => put_slot k (value v m) m
  | INorm k v => put_slot k (truth (value v m)) m
  | ICmp k op v n => put_slot k (if compare op (value v m) n then 1 else 0) m
  | IRet v => mk_mach (vars m) (slots m) (value v m)
  | IUd2 => m
  end.

(** A jump taken when a value is zero. *)
Definition jz : Type := operand.

#[global] Instance mach_machine : Machine instr jz operand mach :=
  {| exec := exec_instr;
     taken := fun j m => value j m =? 0;
     target := fun (a : operand) _ => None |}.

#[global] Instance mach_backend : Backend instr jz operand operand :=
  {| spill := fun _ _ => [];
     view := fun v => match v with VConst n => V_CONST (negb (n =? 0)) | VSlot _ => V_REG [] v end;
     likely := fun _ => false;
     phi_move := fun k v => [IMove k v];
     merge_val := VSlot;
     normalise := fun k v => ([INorm k v], VSlot k);
     out_new_l := VConst;
     case_cmp := fun k op v n => ([ICmp k op v n], VSlot k);
     force_read := fun _ => [];
     to_retreg := fun v => match v with Some v => [IRet v] | None => [] end;
     undefined := IUd2;
     jmp_addr := id;
     call_sanitize_handler := [] |}.

(** The states: the variables. *)
Definition vst : Type := nat -> Z.
Definition same_vars (s : vst) (m : mach) : Prop := vars m = s.
Definition is_value (v : operand) (m : mach) (n : Z) : Prop := value v m = n.
Definition made (k : nat) (v : operand) : Prop := match v with VConst _ => True | VSlot j => (j < k)%nat end.
Definition in_retreg (m : mach) (n : Z) : Prop := retreg m = n.

Lemma upd_same f k n : upd f k n k = n.
Proof. unfold upd. by rewrite Nat.eqb_refl. Qed.

Lemma put_slot_keeps k v w m n : made k w -> is_value w m n -> is_value w (put_slot k v m) n.
Proof.
  unfold is_value. destruct w as [c|j]; simpl; [done|]. intros Hj <-. unfold upd.
  by rewrite (proj2 (Nat.eqb_neq j k)) by lia.
Qed.

Lemma put_slot_value k n m : is_value (VSlot k) (put_slot k n m) n.
Proof. unfold is_value. simpl. apply upd_same. Qed.

#[global] Instance mach_ok : BackendOk same_vars is_value made in_retreg.
Proof.
  split; simpl; auto using put_slot_keeps, put_slot_value; try (by intros; subst); try (intros; lia).
  all: try (intros; by apply put_slot_keeps).
  - intros k k' [n|j]; simpl; lia.
  - intros [n|j] s m; simpl; auto.
  - intros [n|j] w m x; simpl; auto.
  - intros [n|j] m x; unfold is_value; simpl; intros <-; done.
  - intros k v m n _ <-. apply put_slot_value.
  - intros k v m n _ <-. apply put_slot_value.
  - intros k op v c m n _ <-. apply put_slot_value.
  - intros [v|] s m; simpl; auto.
Qed.

(** ** Expressions *)

Inductive leaf : Type :=
  | Num (n : Z)
  | Get (x : nat)
  | Set_ (x : nat) (e : leaf)
  | Sub (a b : leaf)
  | Less (a b : leaf)
  | Exit.

Local Notation G := (G instr jz operand operand).

Definition in_slot (code : nat -> instr) : G operand :=
  k ← new_val;
  _ ← out_asm [code k];
  mret (VSlot k).

Fixpoint gen_leaf (e : leaf) : G operand :=
  match e with
  | Num n => mret (VConst n)
  | Get x => in_slot (fun k => ILoad k x)
  | Set_ x e => v ← gen_leaf e; _ ← out_asm [IStore x v]; mret v
  | Sub a b => va ← gen_leaf a; vb ← gen_leaf b; in_slot (fun k => ISub k va vb)
  | Less a b => va ← gen_leaf a; vb ← gen_leaf b; in_slot (fun k => ILess k va vb)
  | Exit => _ ← out_ctrl_end_undefined undefined; mret (VConst 0)
  end.

Fixpoint eval_leaf (e : leaf) (s : vst) : option (vst * Z) :=
  match e with
  | Num n => Some (s, n)
  | Get x => Some (s, s x)
  | Set_ x e => '(s1, n) ← eval_leaf e s; Some (upd s1 x n, n)
  | Sub a b => '(s1, x) ← eval_leaf a s; '(s2, y) ← eval_leaf b s1; Some (s2, x - y)
  | Less a b => '(s1, x) ← eval_leaf a s; '(s2, y) ← eval_leaf b s1; Some (s2, if x <? y then 1 else 0)
  | Exit => None
  end.

Fixpoint leaf_returns (e : leaf) : bool :=
  match e with
  | Set_ _ e => leaf_returns e
  | Sub a b | Less a b => leaf_returns a && leaf_returns b
  | Exit => false
  | _ => true
  end.

#[global] Instance leaf_gen : GenExpr instr jz operand operand vst leaf :=
  {| gen_expr := gen_leaf; is_ptr_or_block := fun _ => false; eval := eval_leaf |}.

Local Notation ctx := (out_ctx instr jz operand operand).
Local Notation runs g := (rtc (gstep (mst := mach) g)).
Abbreviation nowhere := (fun _ : bid => False).
Abbreviation nokey := (fun _ : key => False).

(** An instruction that puts its result in a new slot. *)
Lemma in_slot_ok code (f : mach -> Z) (o : ctx) :
  wf o -> (forall k m, exec_instr (code k) m = put_slot k (f m) m) ->
  exists k o', in_slot code o = Ok (VSlot k, o') /\ wf o' /\ grows nowhere nokey o o' /\ made (nvals o') (VSlot k) /\
    current_blk o' = current_blk o /\
    forall g X, agree X o' g -> closed o X -> forall p s m, here o p -> same_vars s m ->
      exists p' m', here o' p' /\ runs g (p, m) (p', m') /\ same_vars s m' /\
        is_value (VSlot k) m' (f m) /\ keep is_value made (nvals o) m m'.
Proof.
  intros W Hf. unfold in_slot. set (o1 := set_nvals (S (nvals o)) o).
  assert (W1 : wf o1) by (by destruct W).
  assert (G1 : grows nowhere nokey o o1) by (destruct (grows_refl o) as [? ? ? ? ? ?]; split; try done; simpl; lia).
  rewrite (G_step _ _ _ _ _ (eq_refl : new_val o = Ok (nvals o, o1))).
  destruct (asm_ok (mst := mach) [code (nvals o)] o1 W1) as (o2 & E2 & W2 & G2 & C2 & L2 & V2 & U2 & S2).
  rewrite (G_step _ _ _ _ _ E2). exists (nvals o), o2. split_and!; try done.
  - by eapply grows_none.
  - rewrite V2. simpl. lia.
  - intros g X A HX p s m Hp HR. destruct (S2 g X p m A) as (p' & Hp' & R'); [done | done |].
    exists p', (put_slot (nvals o) (f m) m). split_and!; try done.
    + rewrite <-Hf. exact R'.
    + apply put_slot_value.
    + intros w n Hw Hd. by apply put_slot_keeps.
Qed.

(** Two operands and an instruction. *)
Lemma two_ok e1 e2 code (op : Z -> Z -> Z) ev1 ev2 r1 r2 :
  gen_ok same_vars is_value made e1 ev1 r1 -> gen_ok same_vars is_value made e2 ev2 r2 ->
  (forall a b k m, exec_instr (code k a b) m = put_slot k (op (value a m) (value b m)) m) ->
  gen_ok same_vars is_value made (va ← e1; vb ← e2; in_slot (fun k => code k va vb))
    (fun s => '(s1, x) ← ev1 s; '(s2, y) ← ev2 s1; Some (s2, op x y)) (r1 && r2).
Proof.
  intros H1 H2 Hc o W. unfold gens. destruct (H1 o W) as (va & o1 & E1 & W1 & G1 & M1 & C1 & S1).
  rewrite (G_step _ _ _ _ _ E1). destruct (H2 o1 W1) as (vb & o2 & E2 & W2 & G2 & M2 & C2 & S2).
  rewrite (G_step _ _ _ _ _ E2).
  destruct (in_slot_ok (fun k => code k va vb) (fun m => op (value va m) (value vb m)) o2 W2)
    as (k & o3 & E3 & W3 & G3 & M3 & C3 & S3); [by intros k m; apply Hc|].
  pose proof (grows_none _ _ _ _ _ G2 G3) as G13.
  exists (VSlot k), o3. split_and!; try done; [by eapply grows_none | |].
  - intros [Hr1 Hr2]%andb_true_iff Hcur. rewrite C3. auto.
  - intros g X A HX p s m s' n Hp HR Hev.
    apply bind_Some in Hev as ([s1 x] & Hx & Hev). apply bind_Some in Hev as ([s2 y] & Hy & [= <- <-]).
    assert (A2 : agree X o2 g) by (by eapply agree_grows).
    assert (X1 : closed o1 X) by (by eapply closed_grows).
    assert (X2 : closed o2 X) by (by eapply closed_grows).
    destruct (S1 g X (agree_grows _ _ _ _ _ _ G2 A2) HX p s m s1 x Hp HR Hx) as (p1 & m1 & Hp1 & R1 & HR1 & D1 & K1).
    destruct (S2 g X A2 X1 p1 s1 m1 s2 y Hp1 HR1 Hy) as (p2 & m2 & Hp2 & R2 & HR2 & D2 & K2).
    destruct (S3 g X A X2 p2 s2 m2 Hp2 HR2) as (p3 & m3 & Hp3 & R3 & HR3 & D3 & K3).
    exists p3, m3. split_and!; try done.
    + etrans; [exact R1|]. by etrans.
    + pose proof (K2 va x M1 D1) as D1'. unfold is_value in D1', D2, D3 |- *. simpl in *. by rewrite D3, D1', D2.
    + eapply (keep_trans same_vars is_value made in_retreg); [apply (gr_vals _ _ _ _ G1) | exact K1 |].
      eapply (keep_trans same_vars is_value made in_retreg); [apply (gr_vals _ _ _ _ G2) | exact K2 | exact K3].
Qed.

Lemma undefined_ok : gen_ok same_vars is_value made (_ ← out_ctrl_end_undefined undefined; mret (VConst 0)) (fun _ => None) false.
Proof.
  intros o W. unfold gens, out_ctrl_end_undefined.
  destruct (asm_ok (mst := mach) [undefined] o W) as (o1 & E1 & W1 & G1 & C1 & L1 & V1 & U1 & S1).
  destruct (terminate_ok BLK_TERMINAL None o1 W1 eq_refl) as (o2 & E2 & W2 & G2 & C2 & L2 & V2 & U2 & B2).
  exists (VConst 0), o2. split_and!; try done; [|by eapply grows_none].
  by rewrite (G_step _ _ o tt o2) by (by rewrite (G_step _ _ _ _ _ E1)).
Qed.

Lemma leaf_ok e : gen_ok same_vars is_value made (gen_leaf e) (eval_leaf e) (leaf_returns e).
Proof.
  induction e as [n|x|x e IH|a IHa b IHb|a IHa b IHb|]; simpl.
  - intros o W. exists (VConst n), o. split_and!; try done; [apply grows_refl|].
    intros g X A HX p s m s' y Hp HR [= <- <-]. exists p, m. split_and!; try done; by intros w k.
  - intros o W. destruct (in_slot_ok (fun k => ILoad k x) (fun m => vars m x) o W) as (k & o1 & E1 & W1 & G1 & M1 & C1 & S1);
      [done|].
    exists (VSlot k), o1. split_and!; try done; [by rewrite C1|].
    intros g X A HX p s m s' y Hp HR [= <- <-]. destruct (S1 g X A HX p s m Hp HR) as (p1 & m1 & ? & ? & ? & D & ?).
    exists p1, m1. unfold same_vars in HR. rewrite HR in D. by split_and!.
  - intros o W. destruct (IH o W) as (v & o1 & E1 & W1 & G1 & M1 & C1 & S1). unfold gens.
    rewrite (G_step _ _ _ _ _ E1).
    destruct (asm_ok (mst := mach) [IStore x v] o1 W1) as (o2 & E2 & W2 & G2 & C2 & L2 & V2 & U2 & S2).
    rewrite (G_step _ _ _ _ _ E2). exists v, o2. split_and!; try done; [by eapply grows_none | by rewrite V2 | by rewrite C2|].
    intros g X A HX p s m s' y Hp HR Hev. apply bind_Some in Hev as ([s1 n] & Hn & [= <- <-]).
    destruct (S1 g X (agree_grows _ _ _ _ _ _ G2 A) HX p s m s1 n Hp HR Hn) as (p1 & m1 & Hp1 & R1 & HR1 & D1 & K1).
    destruct (S2 g X p1 m1 A) as (p2 & Hp2 & R2); [by eapply closed_grows | done |].
    exists p2, (execs [IStore x v] m1). split_and!; [done | by etrans | | by destruct v | ].
    + unfold same_vars, is_value in *. simpl. by rewrite HR1, D1.
    + intros w k Hw Hd. specialize (K1 w k Hw Hd). by destruct w.
  - by apply (two_ok (gen_leaf a) (gen_leaf b) ISub Z.sub).
  - by apply (two_ok (gen_leaf a) (gen_leaf b) ILess (fun x y => if x <? y then 1 else 0)).
  - apply undefined_ok.
Qed.

#[global] Instance leaf_gen_ok : GenExprOk same_vars is_value made leaf :=
  mk_gen_expr_ok same_vars is_value made leaf _ leaf_returns leaf_ok.

(** Conditions: [&&], [||] and the rest over these, numbers folded. *)
Definition fold_num (e : cexpr leaf) : option Z := match e with Leaf (Num n) => Some n | _ => None end.

Lemma fold_num_sound e n s s' x : fold_num e = Some n -> eval_cexpr e s = Some (s', x) -> s' = s /\ x = n.
Proof. destruct e as [[]| | |]; simpl; try done. by intros [= <-] [= <- <-]. Qed.

Abbreviation cond := (mexpr (insn := instr) (jcc := jz) (addr := operand) (oval := operand) (E := leaf)
  same_vars is_value made fold_num).

#[global] Instance cond_gen_ok : GenExprOk same_vars is_value made cond :=
  mexpr_gen_ok same_vars is_value made in_retreg fold_num fold_num_sound.

(** ** A program

    [{ int s = 0;  // cleanup: s -= 100
       for(int i = 0; i < 5; i -= -1){
         switch(i){ case 1: continue; case 3 ... 4: if(s < 9 || 0) goto more; break; default: s -= -1; }
         more: s -= -3;
       }
       while(1) return s; }] *)
Lemma leaf_mergeable e : mergeable same_vars is_value made fold_num (Leaf e) = true.
Proof. by destruct e. Defined.

Definition e_ (e : leaf) : cond := Leaf e ↾ leaf_mergeable e.
Definition inc (x : nat) (n : Z) : cond := e_ (Set_ x (Sub (Get x) (Num (- n)))).
Definition no_decls (n : nat) : scope cond := mk_scope n [].

Definition prog : stmt cond :=
  s_code (mk_scope 0 [mk_decl None (Some (e_ (Set_ 0 (Num 0)))) (Some (inc 0 (-100))) None])
    [ s_for (mk_scope 1 [mk_decl None (Some (e_ (Set_ 1 (Num 0)))) None None]) None
        (Some (e_ (Less (Get 1) (Num 5)))) (Some (inc 1 1))
        (s_code (no_decls 2)
          [ s_switch (no_decls 3) (e_ (Get 1)) [mk_case 10 1 None; mk_case 11 3 (Some 4)] (Some 12%nat)
              (s_code (no_decls 4)
                [ s_case 10 s_continue;
                  s_case 11 (s_if (no_decls 5)
                    (Shortcircuit false (Leaf (Less (Get 0) (Num 9))) (Leaf (Num 0)) ↾ eq_refl) (s_goto "more") None);
                  s_break;
                  s_case 12 (s_expr (inc 0 1) false) ]);
            s_label "more" false (s_expr (inc 0 3) false) ]);
      s_while (no_decls 6) (e_ (Num 1)) (s_return (Some (e_ (Get 0)))) ].

Lemma prog_wf : wf_func prog.
Proof.
  split_and!; [simpl; split_and!; try done | done | |]; by apply (bool_decide_unpack _).
Qed.

Definition vars0 : vst := fun _ => 7.
Definition mach0 : mach := mk_mach vars0 (fun _ => 0) 0.

Lemma prog_runs : exists s', exec_func 40 prog vars0 = Some (Some 14, s') /\ s' 0%nat = -86.
Proof. eexists. split; [vm_compute; reflexivity | reflexivity]. Qed.

Lemma exit_ends : ends (gen_leaf Exit).
Proof.
  intros o W. destruct (leaf_ok Exit o W) as (v & o' & E & W' & G' & _).
  exists v, o'. split_and!; try done.
  simpl in E. unfold out_ctrl_end_undefined in E.
  destruct (asm_ok (mst := mach) [undefined] o W) as (o1 & E1 & W1 & _).
  destruct (terminate_ok BLK_TERMINAL None o1 W1 eq_refl) as (o2 & E2 & W2 & G2 & C2 & _).
  rewrite (G_step _ _ o tt o2) in E by (by rewrite (G_step _ _ _ _ _ E1)).
  by injection E as <- <-.
Qed.

(** [x ? exit(0) : exit(0)] *)
Theorem no_arm_returns_witness :
  gen_expr_if (gen_leaf (Get 0)) (Some (gen_leaf Exit)) (gen_leaf Exit) func_ctx = Ub "rets[0]->phi_val of NULL".
Proof.
  apply (no_arm_returns same_vars is_value made in_retreg _ _ _ _ _ func_ctx (proj1 func_ctx_wf) (leaf_ok (Get 0))
    exit_ends exit_ends).
Defined.
