(* ===== verification/Flush.v ===== *)
(** * Laying blocks out: [blk_flushall] of cc1/out/blk.c

    The blocks of a function become lines of assembly: what can be reached is
    marked, then written out block by block, each after the blocks that jump
    to it as far as possible, with a jump only where the next line is not the
    block to go to, and past blocks that do nothing ([blk_jmpthread]).  The
    theorems: nothing fails when the blocks are complete, every block that can
    be reached is written once, and the lines run as the blocks do. *)

From S2P Require Import Prelude Blk.
From stdpp Require Import relations sets.

Section Flush.
Context {insn jcc addr oval : Type}.

Local Notation block := (out_blk insn jcc addr oval).

(** A line of the output.  The jump that ends a [BLK_NEXT_EXPR] block is its
    last instruction there; Blk keeps it in the block's type. *)
Inductive line : Type :=
  | ALabel (b : bid)
  | AInsn (i : insn)
  | AJcc (j : jcc) (b : bid)
  | AJmp (b : bid)
  | AJmpExp (a : addr).

(** [jmpto] and the [emitted] bits; [out] is the section written to. *)
Record flush_state : Type := mk_flush {
  jmpto : option bid; emitted : gset bid; out : list line }.

Context (g : list block) (merge_preds : gmap bid (list bid)) (thread_jumps : bool).

Definition JMP_THREAD_LIM : nat := 10.

(** The loop of [blk_jmpthread]. *)
Fixpoint thread (lim : nat) (to : bid) : bid :=
  match lim with
  | O => to
  | S lim =>
      match g !! to with
      | Some (mk_blk [] (BLK_NEXT_BLOCK next) _) => thread lim next
      | _ => to
      end
  end.

Definition blk_jmpthread (to : bid) : line :=
  AJmp (if thread_jumps then thread JMP_THREAD_LIM to else to).

Definition blk_jmpnext (to : bid) (st : flush_state) : res flush_state :=
  match jmpto st with
  | Some _ => Ice "!st->jmpto"
  | None => Ok (mk_flush (Some to) (emitted st) (out st))
  end.

Definition put (l : list line) (st : flush_state) : flush_state :=
  mk_flush (jmpto st) (emitted st) (out st ++ l).

(** The jump that cuts off the last block. *)
Definition cut_off (b : bid) (st : flush_state) : list line :=
  match jmpto st with
  | Some to => if decide (to = b) then [] else [blk_jmpthread to]
  | None => []
  end.

Definition blk_codegen (b : bid) (blk : block) (st : flush_state) : flush_state :=
  mk_flush None (emitted st) (out st ++ cut_off b st ++ ALabel b :: map AInsn (insns blk)).

(** *** [mark_reachable_blocks]; the marks are a set *)

Fixpoint mark_reachable_blocks (fuel : nat) (b : bid) (reachable : gset bid) : res (gset bid) :=
  match fuel with
  | O => NoFuel
  | S fuel =>
      if decide (b ∈ reachable) then Ok reachable
      else
        let reachable := {[ b ]} ∪ reachable in
        match g !! b with
        | None => Ub "a block that was never made"
        | Some blk =>
            match type blk with
            | BLK_UNINIT => Ice "0"
            | BLK_TERMINAL | BLK_NEXT_EXPR _ => Ok reachable
            | BLK_NEXT_BLOCK next => mark_reachable_blocks fuel next reachable
            | BLK_COND _ if_0_blk if_1_blk _ =>
                reachable ← mark_reachable_blocks fuel if_0_blk reachable;
                mark_reachable_blocks fuel if_1_blk reachable
            end
        end
  end.

(** *** [bfs_block] *)

(** A loop that does the same to each block of an array. *)
Fixpoint each {A} (f : bid -> A -> res A) (l : list bid) (a : A) : res A :=
  match l with
  | [] => Ok a
  | b :: l => a ← f b a; each f l a
  end.

Fixpoint bfs_block (reachable : gset bid) (fuel : nat) (b : bid) (st : flush_state) : res flush_state :=
  match fuel with
  | O => NoFuel
  | S fuel =>
      if decide (b ∈ emitted st \/ b ∉ reachable) then Ok st
      else
        st ← each (bfs_block reachable fuel) (default [] (merge_preds !! b))
               (mk_flush (jmpto st) ({[ b ]} ∪ emitted st) (out st));
        match g !! b with
        | None => Ub "a block that was never made"
        | Some blk =>
            match type blk with
            | BLK_UNINIT => Ice "uninitialised block type"
            | BLK_TERMINAL => Ok (blk_codegen b blk st)
            | BLK_NEXT_EXPR a => Ok (put [AJmpExp a] (blk_codegen b blk st))
            | BLK_NEXT_BLOCK next =>
                st ← blk_jmpnext next (blk_codegen b blk st);
                bfs_block reachable fuel next st
            | BLK_COND j if_0_blk if_1_blk unlikely =>
                st ← blk_jmpnext if_1_blk (put [AJcc j if_0_blk] (blk_codegen b blk st));
                if unlikely : bool then
                  st ← bfs_block reachable fuel if_0_blk st;
                  bfs_block reachable fuel if_1_blk st
                else
                  st ← bfs_block reachable fuel if_1_blk st;
                  bfs_block reachable fuel if_0_blk st
            end
        end
  end.

Definition fuel : nat := S (length g).

Definition blk_flushall (mustgen : list bid) (first : bid) : res (list line) :=
  reachable ← each (mark_reachable_blocks fuel) (first :: mustgen) ∅;
  st ← each (bfs_block reachable fuel) (first :: mustgen) (mk_flush None ∅ []);
  Ok (out st ++ match jmpto st with Some to => [AJmp to] | None => [] end).

(** ** What can be reached *)

Definition succs (t : blk_type jcc addr) : list bid :=
  match t with
  | BLK_NEXT_BLOCK n => [n]
  | BLK_COND _ t f _ => [t; f]
  | _ => []
  end.

Inductive reach (roots : list bid) : bid -> Prop :=
  | reach_root b : b ∈ roots -> reach roots b
  | reach_succ b blk c : reach roots b -> g !! b = Some blk -> c ∈ succs (type blk) -> reach roots c.

(** Every block that can be reached has been ended. *)
Definition complete (roots : list bid) : Prop :=
  forall b, reach roots b -> exists blk, g !! b = Some blk /\ type blk <> BLK_UNINIT.


Lemma complete_closed roots :
  (forall b blk, g !! b = Some blk -> type blk <> BLK_UNINIT /\ forall c, c ∈ succs (type blk) -> (c < length g)%nat) ->
  (forall b, b ∈ roots -> (b < length g)%nat) -> complete roots.
Proof.
  intros Hg Hr. assert (Hlt : forall b, reach roots b -> (b < length g)%nat).
  { induction 1 as [b Hb | b blk c Hb IH Hb' Hc]; [by apply Hr | by apply (proj2 (Hg b blk Hb'))]. }
  intros b Hb. destruct (lookup_lt_is_Some_2 _ _ (Hlt b Hb)) as [blk Hb']. exists blk. split; [done | by eapply Hg].
Qed.

(** ** Marking *)

Definition within (r : gset bid) : Prop := forall c, c ∈ r -> (c < length g)%nat.

Lemma within_size r : within r -> (size r <= length g)%nat.
Proof.
  intros H. rewrite <-(size_set_seq (C := gset nat) 0 (length g)). apply subseteq_size.
  intros c Hc. apply elem_of_set_seq. specialize (H c Hc). lia.
Qed.

Lemma within_add r b : within r -> (b < length g)%nat -> within ({[ b ]} ∪ r).
Proof. intros H Hb c [->%elem_of_singleton | Hc]%elem_of_union; auto. Qed.

Lemma size_add (r : gset bid) b : b ∉ r -> size ({[ b ]} ∪ r) = S (size r).
Proof. intros Hb. rewrite size_union, size_singleton; [done|]. intros c ->%elem_of_singleton. done. Qed.

(** [r'] is [r] with what was found from [l]: all of it closed under going on. *)
Record found (good : bid -> Prop) (l : list bid) (r r' : gset bid) : Prop := mk_found {
  fd_sub : r ⊆ r';
  fd_roots b : b ∈ l -> b ∈ r';
  fd_closed b blk c : b ∈ r' -> b ∉ r -> g !! b = Some blk -> c ∈ succs (type blk) -> c ∈ r';
  fd_good b : b ∈ r' -> b ∈ r \/ good b;
  fd_within : within r' }.

Lemma found_nil good r : within r -> found good [] r r.
Proof. intros H. split; try done; [intros b Hb; inversion Hb | auto]. Qed.

Lemma found_trans good l1 l2 r1 r2 r3 : found good l1 r1 r2 -> found good l2 r2 r3 -> found good (l1 ++ l2) r1 r3.
Proof.
  intros [S1 R1 C1 G1 W1] [S2 R2 C2 G2 W2]. split; [by etrans | | | | done].
  - intros b [Hb | Hb]%elem_of_app; auto.
  - intros b blk c Hb Hn Hg Hc. destruct (decide (b ∈ r2)); [apply S2; by eapply C1 | by eapply C2].
  - intros b Hb. destruct (G2 b Hb) as [Hb'|]; [|auto]. auto.
Qed.

(** Finding [b] itself first. *)
Lemma found_step good b blk l r r' :
  good b -> g !! b = Some blk -> succs (type blk) ⊆ l -> found good l ({[ b ]} ∪ r) r' -> found good [b] r r'.
Proof.
  intros Hb Hg Hl [S R C G W]. split.
  - etrans; [|exact S]. intros c Hc. apply elem_of_union. by right.
  - intros c ->%list_elem_of_singleton. apply S, elem_of_union. left. by apply elem_of_singleton.
  - intros c cblk d Hc Hn Hcg Hd. destruct (decide (c = b)) as [->|Hne].
    + apply R, Hl. congruence.
    + apply (C c cblk d); try done. intros [->%elem_of_singleton | ?]%elem_of_union; done.
  - intros c Hc. destruct (G c Hc) as [[->%elem_of_singleton | ?]%elem_of_union | ?]; auto.
  - done.
Qed.

Section Roots.
Context (roots : list bid) (Hcomplete : complete roots).
Local Notation good := (reach roots).

Lemma good_lt b : good b -> (b < length g)%nat.
Proof using Hcomplete. intros Hb. destruct (Hcomplete b Hb) as (blk & Hg & _). by eapply lookup_lt_Some. Qed.

Lemma mark_ok n : forall b r, good b -> within r -> (length g < n + size r)%nat ->
  exists r', mark_reachable_blocks n b r = Ok r' /\ found good [b] r r'.
Proof using Hcomplete.
  induction n as [|n IH]; intros b r Hb W Hn; [pose proof (within_size r W); lia|].
  simpl. destruct (decide (b ∈ r)) as [Hin|Hout].
  { exists r. split; [done|]. split; try done; [by intros c ->%list_elem_of_singleton | auto]. }
  destruct (Hcomplete b Hb) as (blk & Hg & Ht). rewrite Hg.
  pose proof (within_add r b W (good_lt b Hb)) as W1.
  assert (Hn1 : (length g < n + size ({[ b ]} ∪ r))%nat) by (rewrite size_add by done; lia).
  assert (Hs : forall c, c ∈ succs (type blk) -> good c) by (intros c Hc; by eapply reach_succ).
  destruct (type blk) as [| |next|a|j t f u] eqn:Hty; [done | | | |].
  - eexists. split; [done|]. eapply found_step; [done | done | by rewrite Hty | by apply found_nil].
  - destruct (IH next _ (Hs next ltac:(left)) W1 Hn1) as (r' & E & F). exists r'. split; [done|].
    eapply found_step; [done | done | | exact F]. by rewrite Hty.
  - eexists. split; [done|]. eapply found_step; [done | done | by rewrite Hty | by apply found_nil].
  - destruct (IH t _ (Hs t ltac:(left)) W1 Hn1) as (r2 & E2 & F2).
    destruct (IH f r2 (Hs f ltac:(right; left)) (fd_within _ _ _ _ F2)) as (r3 & E3 & F3).
    { pose proof (subseteq_size _ _ (fd_sub _ _ _ _ F2)). lia. }
    exists r3. rewrite E2. split; [done|]. eapply found_step; [done | done | | by eapply found_trans]. by rewrite Hty.
Qed.

Lemma mark_each_ok l : forall r, (forall b, b ∈ l -> good b) -> within r ->
  exists r', each (mark_reachable_blocks fuel) l r = Ok r' /\ found good l r r'.
Proof using Hcomplete.
  induction l as [|b l IH]; intros r Hl W; cbn [each]; [exists r; split; [done | by apply found_nil]|].
  destruct (mark_ok fuel b r (Hl b ltac:(left)) W) as (r1 & E1 & F1); [unfold fuel; lia|].
  destruct (IH r1) as (r2 & E2 & F2); [intros c Hc; apply Hl; by right | apply F1 |].
  exists r2. rewrite E1. split; [done|]. by apply (found_trans _ [b] l _ r1).
Qed.

(** Exactly what can be reached is marked. *)
Lemma mark_all_ok : exists r, each (mark_reachable_blocks fuel) roots ∅ = Ok r /\ forall b, b ∈ r <-> good b.
Proof using Hcomplete.
  destruct (mark_each_ok roots ∅) as (r & E & [S R C G W]).
  { intros b Hb. by apply reach_root. }
  { intros c Hc. set_solver. }
  exists r. split; [done|]. intros b. split.
  - intros Hb. destruct (G b Hb) as [Hx | ?]; [set_solver | done].
  - induction 1 as [b Hb | b blk c Hb IH Hg Hc]; [by apply R|]. eapply C; [exact IH | set_solver | done | done].
Qed.

(** ** Writing *)

(** An empty block that goes on to another: what jump threading passes. *)
Definition hop (n n' : bid) : Prop :=
  exists blk, g !! n = Some blk /\ insns blk = [] /\ type blk = BLK_NEXT_BLOCK n'.

Lemma thread_hops lim n : rtc hop n (thread lim n).
Proof.
  revert n. induction lim as [|lim IH]; intros n; simpl; [apply rtc_refl|].
  destruct (g !! n) as [[[|i code] [| |next|a|j t f u] phi]|] eqn:Hg; try apply rtc_refl.
  eapply rtc_l; [|apply IH]. by eexists.
Qed.

Lemma jmpthread_hops to : exists n, blk_jmpthread to = AJmp n /\ rtc hop to n.
Proof. unfold blk_jmpthread. destruct thread_jumps; (eexists; split; [done|]); [apply thread_hops | apply rtc_refl]. Qed.

(** From line [q] control gets to block [n]: the line is its label, or a jump
    to it, or it is yet to be written and [jt] is pending. *)
Definition goes (l : list line) (jt : option bid) (q : nat) (n : bid) : Prop :=
  (q = length l /\ jt = Some n) \/ l !! q = Some (ALabel n) \/
  exists n', l !! q = Some (AJmp n') /\ rtc hop n n'.

Definition tail_of (t : blk_type jcc addr) : list line :=
  match t with
  | BLK_NEXT_EXPR a => [AJmpExp a]
  | BLK_COND j t _ _ => [AJcc j t]
  | _ => []
  end.

Definition next_of (t : blk_type jcc addr) : option bid :=
  match t with
  | BLK_NEXT_BLOCK n => Some n
  | BLK_COND _ _ f _ => Some f
  | _ => None
  end.

(** The code of block [b] is after its label at line [q]. *)
Definition placed (l : list line) (jt : option bid) (q : nat) (b : bid) : Prop :=
  exists blk, g !! b = Some blk /\
    (forall j x, (map AInsn (insns blk) ++ tail_of (type blk)) !! j = Some x -> l !! (S q + j)%nat = Some x) /\
    forall n, next_of (type blk) = Some n ->
      goes l jt (S q + length (map AInsn (insns blk) ++ tail_of (type blk))) n.

Record laid (st : flush_state) : Prop := mk_laid {
  ly_placed q b : out st !! q = Some (ALabel b) -> placed (out st) (jmpto st) q b;
  ly_label b : ALabel b ∈ out st -> b ∈ emitted st;
  ly_once q q' b : out st !! q = Some (ALabel b) -> out st !! q' = Some (ALabel b) -> q = q' }.

(** A block and what follows it, written. *)
Definition written (b : bid) (blk : block) (st : flush_state) : flush_state :=
  mk_flush (next_of (type blk)) (emitted st)
    (out st ++ cut_off b st ++ ALabel b :: map AInsn (insns blk) ++ tail_of (type blk)).

Lemma goes_after b code st q n :
  (q <= length (out st))%nat -> goes (out st) (jmpto st) q n ->
  forall jt, goes (out st ++ cut_off b st ++ ALabel b :: code) jt q n.
Proof.
  intros Hq Hg jt. destruct Hg as [[-> Hj] | [Hl | (n' & Hl & Hh)]].
  - unfold cut_off. rewrite Hj. destruct (decide (n = b)) as [->|Hne].
    + right. left. simpl. by rewrite list_lookup_middle.
    + right. right. destruct (jmpthread_hops n) as (n' & -> & Hh). exists n'. split; [|done].
      by rewrite lookup_app_r, Nat.sub_diag.
  - right. left. by apply lookup_app_l_Some.
  - right. right. exists n'. split; [by apply lookup_app_l_Some | done].
Qed.

Lemma code_no_label b (blk : block) j : (map AInsn (insns blk) ++ tail_of (type blk)) !! j <> Some (ALabel b).
Proof.
  intros H. apply list_elem_of_lookup_2, elem_of_app in H as [H | H].
  - apply list_elem_of_fmap in H as (i & Hx & _). discriminate Hx.
  - destruct (type blk); simpl in H; try (by inversion H); by apply list_elem_of_singleton in H.
Qed.

Lemma cut_no_label b c st : ALabel c ∉ cut_off b st.
Proof.
  unfold cut_off. destruct (jmpto st) as [n|]; [|apply not_elem_of_nil].
  destruct (decide (n = b)); [apply not_elem_of_nil|]. destruct (jmpthread_hops n) as (n' & -> & _).
  by intros Hx%list_elem_of_singleton.
Qed.

(** The labels among what is written. *)
Lemma written_label b blk st q c :
  out (written b blk st) !! q = Some (ALabel c) ->
  out st !! q = Some (ALabel c) \/ (c = b /\ q = length (out st ++ cut_off b st)).
Proof.
  simpl. intros H. apply lookup_app_Some in H as [H | [Hq H]]; [by left|].
  apply lookup_app_Some in H as [H | [Hq' H]].
  { apply list_elem_of_lookup_2 in H. by apply cut_no_label in H. }
  apply lookup_cons_Some in H as [[H0 [= <-]] | [H0 H]]; [|by apply code_no_label in H].
  right. split; [done|]. rewrite length_app. lia.
Qed.

Lemma written_laid b blk st :
  laid st -> g !! b = Some blk -> b ∈ emitted st -> ALabel b ∉ out st -> laid (written b blk st).
Proof.
  intros [P L O] Hg Hb Hn. set (code := map AInsn (insns blk) ++ tail_of (type blk)).
  assert (Hlen : out (written b blk st) = (out st ++ cut_off b st) ++ ALabel b :: code) by (simpl; by rewrite app_assoc).
  split.
  - intros q c Hq. apply written_label in Hq as [Hq | [-> ->]].
    + destruct (P q c Hq) as (cblk & Hc & H1 & H2). exists cblk. split; [done|]. split.
      * intros j x Hj. simpl. apply lookup_app_l_Some. by apply H1.
      * intros n Hnx. apply goes_after; [|by apply H2].
        set (cc := map AInsn (insns cblk) ++ tail_of (type cblk)) in *.
        destruct (decide (length cc = 0%nat)) as [Hz|Hz]; [apply lookup_lt_Some in Hq; lia|].
        destruct (lookup_lt_is_Some_2 cc (pred (length cc))) as [x Hx]; [lia|].
        apply H1, lookup_lt_Some in Hx. lia.
    + exists blk. split; [done|]. rewrite Hlen. split.
      * intros j x Hj. rewrite lookup_app_r by lia.
        by replace (S (length (out st ++ cut_off b st)) + j - length (out st ++ cut_off b st))%nat with (S j) by lia.
      * intros n Hnx. left. split; [|done]. fold code. rewrite !length_app. simpl. lia.
  - intros c Hc. apply list_elem_of_lookup in Hc as [q Hq]. apply written_label in Hq as [Hq | [-> _]]; [|done].
    apply L. by eapply list_elem_of_lookup_2.
  - intros q q' c Hq Hq'. apply written_label in Hq as [Hq | [-> ->]]; apply written_label in Hq' as [Hq' | [Hc Hq']].
    + by eapply O.
    + subst c. destruct Hn. by eapply list_elem_of_lookup_2.
    + destruct Hn. by eapply list_elem_of_lookup_2.
    + done.
Qed.

(** From [st] to [st'] the blocks reachable from [l] were written, those in
    [emitted st] apart. *)
Record wrote (reachable : gset bid) (l : list bid) (st st' : flush_state) : Prop := mk_wrote {
  wr_laid : laid st';
  wr_out : exists new, out st' = out st ++ new /\
    forall c, ALabel c ∈ new <-> c ∈ emitted st' /\ c ∉ emitted st;
  wr_sub : emitted st ⊆ emitted st';
  wr_roots b : b ∈ l -> b ∈ reachable -> b ∈ emitted st';
  wr_closed b blk c : b ∈ emitted st' -> b ∉ emitted st -> g !! b = Some blk -> c ∈ succs (type blk) ->
    c ∈ emitted st';
  wr_in : emitted st' ⊆ reachable }.

Lemma wrote_nil r st : laid st -> emitted st ⊆ r -> wrote r [] st st.
Proof.
  intros L H. split; try done; [|by intros b Hb; inversion Hb].
  exists []. split; [by rewrite app_nil_r|]. intros c. split; [intros Hc; inversion Hc | tauto].
Qed.

Lemma wrote_trans r l1 l2 st1 st2 st3 : wrote r l1 st1 st2 -> wrote r l2 st2 st3 -> wrote r (l1 ++ l2) st1 st3.
Proof.
  intros [L1 (n1 & O1 & N1) S1 R1 C1 I1] [L2 (n2 & O2 & N2) S2 R2 C2 I2]. split; try done.
  - exists (n1 ++ n2). split; [by rewrite O2, O1, app_assoc|]. intros c. rewrite elem_of_app, N1, N2.
    destruct (decide (c ∈ emitted st2)); naive_solver.
  - by etrans.
  - intros b [Hb | Hb]%elem_of_app Hr; auto.
  - intros b blk c Hb Hn Hg Hc. destruct (decide (b ∈ emitted st2)); [apply S2; by eapply C1 | by eapply C2].
Qed.

(** A block: the blocks before it, itself, and those it goes on to. *)
Lemma wrote_block r b blk preds l st st2 st4 :
  b ∉ emitted st -> b ∈ r -> laid st -> g !! b = Some blk -> succs (type blk) ⊆ l ->
  (forall d, d ∈ succs (type blk) -> d ∈ r) ->
  wrote r preds (mk_flush (jmpto st) ({[ b ]} ∪ emitted st) (out st)) st2 ->
  wrote r l (written b blk st2) st4 -> wrote r [b] st st4.
Proof.
  intros Hb Hr L Hg Hs Hmark [L2 (n1 & O1 & N1) S1 R1 C1 I1] [L4 (n2 & O2 & N2) S2 R2 C2 I2]. simpl in *.
  assert (Hb2 : b ∈ emitted st2) by (apply S1, elem_of_union; left; by apply elem_of_singleton).
  split; try done.
  - eexists. split; [rewrite O2, O1, <-!app_assoc; done|]. intros c.
    rewrite !elem_of_app, N1, elem_of_cons, elem_of_app, N2, elem_of_union, elem_of_singleton. split.
    + intros [[Hc Hn] | [Hc | [[[= ->] | Hc] | [Hc Hn]]]].
      * split; [by apply S2 | tauto].
      * by apply cut_no_label in Hc.
      * split; [by apply S2 | done].
      * apply elem_of_app, list_elem_of_lookup in Hc as [j Hj]. by apply code_no_label in Hj.
      * split; [done|]. intros Hx. apply Hn, S1, elem_of_union. by right.
    + intros [Hc Hn]. destruct (decide (c = b)) as [->|Hne]; [right; right; left; by left|].
      destruct (decide (c ∈ emitted st2)); [left; naive_solver | naive_solver].
  - etrans; [|exact S2]. etrans; [|exact S1]. intros c Hc. apply elem_of_union. by right.
  - intros c ->%list_elem_of_singleton _. by apply S2.
  - intros c cblk d Hc Hn Hcg Hd. destruct (decide (c = b)) as [->|Hne].
    + assert (cblk = blk) as -> by congruence. apply R2; [by apply Hs | by apply Hmark].
    + destruct (decide (c ∈ emitted st2)) as [Hc2|Hc2].
      * apply S2. eapply C1; [done | | done | done]. rewrite elem_of_union, elem_of_singleton. tauto.
      * by eapply C2.
Qed.

Lemma each_wrote r n :
  (forall b st, laid st -> emitted st ⊆ r -> (length g < n + size (emitted st))%nat ->
    exists st', bfs_block r n b st = Ok st' /\ wrote r [b] st st') ->
  forall l st, laid st -> emitted st ⊆ r -> (length g < n + size (emitted st))%nat ->
    exists st', each (bfs_block r n) l st = Ok st' /\ wrote r l st st'.
Proof.
  intros IH. induction l as [|c l IHl]; intros s0 L0 H0 Hn0; cbn [each]; [exists s0; split; [done | by apply wrote_nil]|].
  destruct (IH c s0 L0 H0 Hn0) as (s1 & E1 & W1). rewrite E1.
  destruct (IHl s1 (wr_laid _ _ _ _ W1) (wr_in _ _ _ _ W1)) as (s2 & E2 & W2).
  { pose proof (subseteq_size _ _ (wr_sub _ _ _ _ W1)). lia. }
  exists s2. split; [exact E2 | by apply (wrote_trans _ [c] l _ s1)].
Qed.

Lemma bfs_ok r : (forall b, b ∈ r <-> good b) -> forall n b st, laid st -> emitted st ⊆ r ->
  (length g < n + size (emitted st))%nat ->
  exists st', bfs_block r n b st = Ok st' /\ wrote r [b] st st'.
Proof using Hcomplete.
  intros Hr. assert (Hw : forall st, emitted st ⊆ r -> within (emitted st)).
  { intros st He c Hc. by apply good_lt, Hr, He. }
  induction n as [|n IH]; intros b st L He Hn; [pose proof (within_size _ (Hw st He)); lia|].
  pose proof (each_wrote r n IH) as Heach.
  cbn [bfs_block]. destruct (decide (b ∈ emitted st \/ b ∉ r)) as [Hd|Hd].
  { exists st. split; [done|]. destruct (wrote_nil r st L He). split; try done.
    intros c ->%list_elem_of_singleton Hc. destruct Hd; done. }
  assert (Hbe : b ∉ emitted st) by tauto.
  assert (Hb : b ∈ r) by (destruct (decide (b ∈ r)); tauto).
  set (st1 := mk_flush (jmpto st) ({[ b ]} ∪ emitted st) (out st)).
  assert (L1 : laid st1).
  { destruct L as [P Lb O]. split; try done. intros c Hc. apply elem_of_union. right. by apply Lb. }
  assert (H1 : emitted st1 ⊆ r) by (intros c [->%elem_of_singleton | Hc]%elem_of_union; [done | by apply He]).
  assert (Hn1 : (length g < n + size (emitted st1))%nat) by (simpl; rewrite size_add by done; lia).
  destruct (Heach (default [] (merge_preds !! b)) st1 L1 H1 Hn1) as (st2 & E2 & W2). rewrite E2. cbn [mbind res_bind].
  destruct (Hcomplete b (proj1 (Hr b) Hb)) as (blk & Hg & Ht). rewrite Hg.
  assert (Hs : forall d, d ∈ succs (type blk) -> d ∈ r).
  { intros d Hd'. apply Hr. eapply reach_succ; [by apply Hr | done | done]. }
  assert (Hbe2 : b ∈ emitted st2).
  { apply (wr_sub _ _ _ _ W2), elem_of_union. left. by apply elem_of_singleton. }
  assert (Hnl : ALabel b ∉ out st2).
  { destruct (wr_out _ _ _ _ W2) as (new & Ho & Hnew). rewrite Ho. intros [Hx | Hx]%elem_of_app.
    - by apply Hbe, (ly_label _ L).
    - apply Hnew in Hx as [_ Hx]. apply Hx, elem_of_union. left. by apply elem_of_singleton. }
  pose proof (written_laid b blk st2 (wr_laid _ _ _ _ W2) Hg Hbe2 Hnl) as L3.
  set (st3 := written b blk st2) in *.
  assert (H3 : emitted st3 ⊆ r) by apply (wr_in _ _ _ _ W2).
  assert (Hn3 : (length g < n + size (emitted st3))%nat).
  { pose proof (subseteq_size _ _ (wr_sub _ _ _ _ W2)). simpl in *. lia. }
  assert (Hfin : forall l, succs (type blk) ⊆ l ->
    exists st4, each (bfs_block r n) l st3 = Ok st4 /\ wrote r [b] st st4).
  { intros l Hl. destruct (Heach l st3 L3 H3 Hn3) as (st4 & E4 & W4). exists st4. split; [done|].
    by apply (wrote_block r b blk (default [] (merge_preds !! b)) l st st2 st4). }
  destruct (type blk) as [| |next|a|j t f u] eqn:Hty; [done | | | |].
  - destruct (Hfin [] ltac:(done)) as (st4 & [= <-] & W4). exists st3. split; [|done].
    subst st3. unfold written, blk_codegen. by rewrite Hty, app_nil_r.
  - destruct (Hfin [next] ltac:(done)) as (st4 & E4 & W4). exists st4. split; [|done]. rewrite <-E4. cbn [each].
    subst st3. unfold written, blk_codegen, blk_jmpnext. rewrite Hty. simpl. rewrite app_nil_r.
    by destruct (bfs_block r n next _).
  - destruct (Hfin [] ltac:(done)) as (st4 & [= <-] & W4). exists st3. split; [|done].
    subst st3. unfold written, blk_codegen, put. rewrite Hty. simpl. by rewrite <-!app_assoc.
  - assert (Eq : blk_jmpnext f (put [AJcc j t] (blk_codegen b blk st2)) = Ok st3).
    { subst st3. unfold written, blk_codegen, blk_jmpnext, put. rewrite Hty. simpl. by rewrite <-!app_assoc. }
    rewrite Eq. cbn [mbind res_bind]. destruct u.
    + destruct (Hfin [t; f] ltac:(done)) as (st4 & E4 & W4). exists st4. split; [|done]. rewrite <-E4. cbn [each].
      destruct (bfs_block r n t st3) as [s4| | | |]; simpl; try done. by destruct (bfs_block r n f s4).
    + destruct (Hfin [f; t]) as (st4 & E4 & W4).
      { intros c. simpl. rewrite !elem_of_cons, !elem_of_nil. tauto. }
      exists st4. split; [|done]. rewrite <-E4. cbn [each].
      destruct (bfs_block r n f st3) as [s4| | | |]; simpl; try done. by destruct (bfs_block r n t s4).
Qed.

(** ** The lines *)

Lemma goes_end l jt q n :
  goes l jt q n -> goes (l ++ match jt with Some to => [AJmp to] | None => [] end) None q n.
Proof.
  intros [[-> ->] | [Hl | (n' & Hl & Hh)]].
  - right. right. exists n. split; [by rewrite list_lookup_middle | apply rtc_refl].
  - right. left. by apply lookup_app_l_Some.
  - right. right. exists n'. split; [by apply lookup_app_l_Some | done].
Qed.

(** The lines [blk_flushall] writes: each block that can be reached, once, with
    its code and a way on to the next. *)
Record listing (ls : list line) : Prop := mk_listing {
  li_blocks b : ALabel b ∈ ls <-> good b;
  li_once q q' b : ls !! q = Some (ALabel b) -> ls !! q' = Some (ALabel b) -> q = q';
  li_placed q b : ls !! q = Some (ALabel b) -> placed ls None q b }.

Lemma flushed_ok st :
  laid st -> (forall b, ALabel b ∈ out st <-> good b) ->
  listing (out st ++ match jmpto st with Some to => [AJmp to] | None => [] end).
Proof.
  intros [P L O] Hb. assert (Hold : forall q b,
    (out st ++ match jmpto st with Some to => [AJmp to] | None => [] end) !! q = Some (ALabel b) ->
    out st !! q = Some (ALabel b)).
  { intros q b [H | [_ H]]%lookup_app_Some; [done|]. apply list_elem_of_lookup_2 in H.
    destruct (jmpto st); [by apply list_elem_of_singleton in H | by inversion H]. }
  split.
  - intros b. rewrite elem_of_app, Hb. split; [|by left]. intros [H | H]; [done|].
    destruct (jmpto st); [by apply list_elem_of_singleton in H | by inversion H].
  - intros q q' b Hq Hq'. eapply O; by apply Hold.
  - intros q b Hq. apply Hold in Hq. destruct (P q b Hq) as (blk & Hg & H1 & H2). exists blk.
    split_and!; [done | intros j x Hj; apply lookup_app_l_Some; by apply H1 |].
    intros n Hn. by apply goes_end, H2.
Qed.

End Roots.

Lemma flush_ok (mustgen : list bid) (first : bid) :
  complete (first :: mustgen) ->
  exists ls, blk_flushall mustgen first = Ok ls /\ listing (first :: mustgen) ls.
Proof.
  intros Hc. destruct (mark_all_ok (first :: mustgen) Hc) as (r & Er & Hr). unfold blk_flushall. rewrite Er. cbn [mbind res_bind].
  set (st0 := mk_flush None ∅ []).
  destruct (each_wrote r fuel (bfs_ok (first :: mustgen) Hc r Hr fuel) (first :: mustgen) st0) as (st & E & [L (new & O & N) S R C I]).
  { split; [by intros q b Hq | by intros b Hb; inversion Hb | by intros q q' b Hq]. }
  { done. }
  { unfold fuel. lia. }
  rewrite E. eexists. split; [done|]. apply flushed_ok; [done|]. intros b. rewrite O. simpl. rewrite N, <-Hr. split.
  - intros [Hb _]. by apply I.
  - intros Hb. split; [|by apply not_elem_of_empty]. apply Hr in Hb.
    induction Hb as [b Hb | b blk c Hb IH Hg Hd]; [apply R; [done | by apply Hr, reach_root]|].
    eapply C; [exact IH | apply not_elem_of_empty | done | done].
Qed.

(** C2: When every block that can be reached has been ended, writing a
    function out fails no assertion and comes to an end within the fuel, and
    writes each block that can be reached from the function's first block or
    from a label whose address is taken exactly once, and no other. *)
Theorem flush_blocks (mustgen : list bid) (first : bid) :
  complete (first :: mustgen) ->
  exists ls, blk_flushall mustgen first = Ok ls /\ listing (first :: mustgen) ls.
Proof. apply flush_ok. Qed.

(** ** Running the lines *)

Section Run.
Context {mst : Type} `{!Machine insn jcc addr mst}.

Inductive lstep (ls : list line) : nat * mst -> nat * mst -> Prop :=
  | l_label q m b : ls !! q = Some (ALabel b) -> lstep ls (q, m) (S q, m)
  | l_insn q m i : ls !! q = Some (AInsn i) -> lstep ls (q, m) (S q, exec i m)
  | l_jcc q q' m j b : ls !! q = Some (AJcc j b) -> taken j m = true -> ls !! q' = Some (ALabel b) ->
      lstep ls (q, m) (q', m)
  | l_jcc_not q m j b : ls !! q = Some (AJcc j b) -> taken j m = false -> lstep ls (q, m) (S q, m)
  | l_jmp q q' m b : ls !! q = Some (AJmp b) -> ls !! q' = Some (ALabel b) -> lstep ls (q, m) (q', m)
  | l_jmp_exp q q' m a b : ls !! q = Some (AJmpExp a) -> target a m = Some b -> ls !! q' = Some (ALabel b) ->
      lstep ls (q, m) (q', m).

(** Where control is in the lines when it is at [p] in the blocks: in the
    block's code, or, before its first instruction, at the label of the block
    it was threaded to. *)
Definition at_line (ls : list line) (p : pc) (q : nat) : Prop :=
  (exists q0, ls !! q0 = Some (ALabel p.1) /\ q = (S q0 + p.2)%nat) \/
  (p.2 = 0%nat /\ exists c, rtc hop p.1 c /\ ls !! q = Some (ALabel c)).

Context (roots : list bid) (ls : list line) (HL : listing roots ls).
(** A label whose address is taken is among [mustgen]. *)
Hypothesis targets_reached : forall b blk a m n,
  reach roots b -> g !! b = Some blk -> type blk = BLK_NEXT_EXPR a -> target a m = Some n -> reach roots n.

Lemma label_of b : reach roots b -> exists q, ls !! q = Some (ALabel b).
Proof using HL. intros Hb. apply (li_blocks _ _ HL), list_elem_of_lookup in Hb. done. Qed.

Lemma hops_reach n n' : rtc hop n n' -> reach roots n -> reach roots n'.
Proof.
  induction 1 as [|n n1 n' (blk & Hg & Hi & Ht) _ IH]; [done|]. intros Hn. apply IH.
  eapply reach_succ; [exact Hn | done | rewrite Ht; left].
Qed.

Lemma goes_runs q n m :
  reach roots n -> goes ls None q n -> exists q', rtc (lstep ls) (q, m) (q', m) /\ at_line ls (n, 0%nat) q'.
Proof using HL.
  intros Hn [[_ [=]] | [Hl | (n' & Hl & Hh)]].
  - exists q. split; [apply rtc_refl|]. right. split; [done|]. exists n. split; [apply rtc_refl | done].
  - destruct (label_of n' (hops_reach _ _ Hh Hn)) as [q' Hq']. exists q'. split; [by eapply rtc_once, l_jmp|].
    right. split; [done|]. by exists n'.
Qed.

(** One step of the blocks is some steps of the lines. *)
Lemma step_runs b k m b' k' m' q :
  reach roots b -> gstep g ((b, k), m) ((b', k'), m') -> at_line ls (b, k) q ->
  reach roots b' /\ exists q', rtc (lstep ls) (q, m) (q', m') /\ at_line ls (b', k') q'.
Proof using HL targets_reached.
  intros Hb Hst Hq. assert (Hb' : reach roots b').
  { inversion Hst; subst; try done; [| | by eapply targets_reached];
      (eapply reach_succ; [exact Hb | done |]).
    - match goal with H : type _ = _ |- _ => rewrite H end. left.
    - match goal with H : type _ = _ |- _ => rewrite H end. destruct (taken _ _); [left | right; left]. }
  split; [done|].
  assert (Hcase : (exists q0, ls !! q0 = Some (ALabel b) /\ rtc (lstep ls) (q, m) ((S q0 + k)%nat, m)) \/
    exists n c, hop b n /\ k = 0%nat /\ rtc hop n c /\ ls !! q = Some (ALabel c)).
  { destruct Hq as [(q0 & Hq0 & ->) | (Hk & c & Hh & Hc)]; [left; exists q0; split; [done | apply rtc_refl]|].
    simpl in *. inversion Hh as [|? n ? Hbn Hnc]; subst; [left | right; by exists n, c].
    exists q. split; [done|]. rewrite Nat.add_0_r. by eapply rtc_once, l_label. }
  destruct Hcase as [(q0 & Hq0 & Hr) | (n & c & (blk & Hg & Hi & Ht) & -> & Hh & Hc)].
  2: { exists q. inversion Hst as [? ? ? blk' i Hg' Hi'|? ? blk' n' Hg' Ht'|? ? blk' j t f u Hg' Ht'|? ? blk' a n' Hg' Ht' Hta];
         subst; assert (blk' = blk) as -> by congruence; try congruence.
       - by rewrite Hi in Hi'.
       - split; [apply rtc_refl|]. right. split; [done|]. exists c. split; [|done]. by assert (b' = n) as -> by congruence. }
  destruct (li_placed _ _ HL q0 b Hq0) as (blk & Hg & Hcode & Hgo).
  assert (Hlen : length (map AInsn (insns blk)) = length (insns blk)) by apply length_map.
  inversion Hst as [? ? ? blk' i Hg' Hi|? ? blk' n Hg' Ht|? ? blk' j t f u Hg' Ht|? ? blk' a n Hg' Ht Hta]; subst;
    assert (blk' = blk) as -> by congruence.
  - exists (S q0 + S k)%nat. split; [|left; exists q0; done]. etrans; [exact Hr|].
    replace (S q0 + S k)%nat with (S (S q0 + k)) by lia. apply rtc_once, l_insn, Hcode.
    apply lookup_app_l_Some. by rewrite list_lookup_fmap, Hi.
  - rewrite Ht in Hgo. simpl in Hgo. rewrite app_nil_r, Hlen in Hgo.
    destruct (goes_runs _ b' m' Hb' (Hgo b' eq_refl)) as (q' & R' & Hq'). exists q'. split; [by etrans | done].
  - assert (Hj : ls !! (S q0 + length (insns blk))%nat = Some (AJcc j t)).
    { apply Hcode. rewrite Ht. by rewrite lookup_app_r, Hlen, Nat.sub_diag by lia. }
    destruct (taken j m') eqn:Htk.
    + destruct (label_of t Hb') as [qt Hqt]. exists qt. split; [etrans; [exact Hr|]; by eapply rtc_once, l_jcc|].
      right. split; [done|]. exists t. split; [apply rtc_refl | done].
    + rewrite Ht in Hgo. simpl in Hgo. rewrite length_app, Hlen in Hgo. simpl in Hgo.
      destruct (goes_runs _ f m' Hb' (Hgo f eq_refl)) as (q' & R' & Hq'). exists q'. split; [|done].
      etrans; [exact Hr|]. eapply rtc_l; [by eapply l_jcc_not|].
      by replace (S (S q0 + length (insns blk))) with (S q0 + (length (insns blk) + 1))%nat by lia.
  - assert (Hj : ls !! (S q0 + length (insns blk))%nat = Some (AJmpExp a)).
    { apply Hcode. rewrite Ht. by rewrite lookup_app_r, Hlen, Nat.sub_diag by lia. }
    destruct (label_of b' Hb') as [qt Hqt]. exists qt. split; [etrans; [exact Hr|]; by eapply rtc_once, l_jmp_exp|].
    right. split; [done|]. exists b'. split; [apply rtc_refl | done].
Qed.

Lemma steps_run x y : rtc (gstep g) x y -> forall q, reach roots x.1.1 -> at_line ls x.1 q ->
  exists q', rtc (lstep ls) (q, x.2) (q', y.2) /\ at_line ls y.1 q'.
Proof using HL targets_reached.
  induction 1 as [x | [[b k] m] [[b' k'] m'] y Hst _ IH]; intros q Hb Hq; [exists q; split; [apply rtc_refl | done]|].
  destruct (step_runs b k m b' k' m' q Hb Hst Hq) as (Hb' & q1 & R1 & Hq1).
  destruct (IH q1 Hb' Hq1) as (q2 & R2 & Hq2). exists q2. split; [by etrans | done].
Qed.

(** The lines leave no choice. *)
Lemma lstep_det x y z : lstep ls x y -> lstep ls x z -> y = z.
Proof using HL.
  intros H1 H2. destruct H1; inversion H2; subst; try congruence.
  - f_equal. eapply (li_once _ _ HL); [done|]. congruence.
  - f_equal. eapply (li_once _ _ HL); [done|]. congruence.
  - f_equal. eapply (li_once _ _ HL); [done|]. congruence.
Qed.

End Run.

(** The lines run as the blocks do: a run of the blocks to any place in a block
    that ends the function is a run of the lines to that place. *)
Lemma flush_runs {mst : Type} `{!Machine insn jcc addr mst} (mustgen : list bid) (first : bid) ls t k m m' blk :
  complete (first :: mustgen) ->
  (forall b blk a m n, reach (first :: mustgen) b -> g !! b = Some blk -> type blk = BLK_NEXT_EXPR a ->
    target a m = Some n -> reach (first :: mustgen) n) ->
  blk_flushall mustgen first = Ok ls ->
  rtc (gstep g) ((first, 0%nat), m) ((t, k), m') -> g !! t = Some blk -> type blk = BLK_TERMINAL ->
  exists q0 q, ls !! q0 = Some (ALabel first) /\ ls !! q = Some (ALabel t) /\
    rtc (lstep ls) (q0, m) ((S q + k)%nat, m').
Proof.
  intros Hc Ht Hf Hr Hg Hty. destruct (flush_ok mustgen first Hc) as (ls' & Hf' & HL).
  assert (ls' = ls) as -> by congruence.
  assert (Hfirst : reach (first :: mustgen) first) by (apply reach_root; left).
  destruct (label_of _ _ HL first Hfirst) as [q0 Hq0].
  destruct (steps_run _ _ HL Ht _ _ Hr q0 Hfirst) as (q & R & Hq).
  { right. split; [done|]. exists first. split; [apply rtc_refl | done]. }
  exists q0. destruct Hq as [(q1 & Hq1 & ->) | (Hk & c & Hh & Hq1)]; simpl in *; [by exists q1|].
  subst k. inversion Hh as [|? n ? (blk' & Hg' & _ & Ht') _]; subst; [|congruence].
  exists q. split_and!; try done. etrans; [exact R|]. rewrite Nat.add_0_r. by eapply rtc_once, l_label.
Qed.

End Flush.

(** A loop whose body is block 1, then the end. *)
Definition loop_blocks : list (out_blk nat unit Empty_set unit) :=
  [ mk_blk [7] (BLK_NEXT_BLOCK 1) None; mk_blk [] (BLK_COND tt 2 3 false) None; mk_blk [8] (BLK_NEXT_BLOCK 1) None;
    mk_blk [9] BLK_TERMINAL None ].

Lemma loop_complete : complete loop_blocks [0].
Proof.
  apply complete_closed; [|by intros b ->%list_elem_of_singleton; simpl; lia].
  intros [|[|[|[|b]]]] blk Hb; simpl in Hb; simplify_eq; (split; [done|]);
    intros c Hc; simpl in Hc; rewrite ?elem_of_cons, ?elem_of_nil in Hc; simpl; lia.
Qed.

Theorem flush_blocks_witness :
  exists ls, blk_flushall loop_blocks (<[1 := [0; 2]]> ∅) true [] 0 = Ok ls /\ listing loop_blocks [0] ls /\
    ls = [ALabel 0; AInsn 7; AJmp 1; ALabel 2; AInsn 8; ALabel 1; AJcc tt 2; ALabel 3; AInsn 9].
Proof.
  destruct (flush_blocks loop_blocks (<[1 := [0; 2]]> ∅) true [] 0 loop_complete) as (ls & E & L).
  exists ls. split; [exact E | split; [exact L|]].
  enough (Some ls = Some [ALabel 0; AInsn 7; AJmp 1; ALabel 2; AInsn 8; ALabel 1; AJcc tt 2; ALabel 3; AInsn 9]) as [= ->] by reflexivity.
  vm_compute in E. congruence.
Defined.
