(* ===== verification/FlowFill.v ===== *)
(** * Every block is ended

    [mark_reachable_blocks] asserts that no block it reaches is still
    [BLK_UNINIT].  A block is begun by jumping to it before it is selected, so
    what holds during generation is that the blocks not ended are the current
    one, those a construct being generated still has to select, and those of
    labels still to come ([filled]); each generator is taken through it. *)

From S2P Require Import Prelude Blk Flow Flush FlowLaws FlowExpr FlowSem FlowFunc.
Local Open Scope Z_scope.

Section Fill.
Context {insn jcc addr oval sst : Type} `{!Backend insn jcc addr oval}.

Local Notation ctx := (out_ctx insn jcc addr oval).
Local Notation G := (G insn jcc addr oval).

(** The labels a function may have blocks for, and its epilogue. *)
Context (K : key -> Prop) (epi : bid).

(** [X] are the blocks a construct has still to select, [D] the labels met. *)
Record filled (X : list bid) (D : list key) (o : ctx) : Prop := mk_filled {
  fl_open b blk : blocks o !! b = Some blk -> type blk = BLK_UNINIT ->
    current_blk o = Some b \/ b ∈ X \/ exists k, k ∉ D /\ label_to_blk o !! k = Some b;
  fl_succs b blk c : blocks o !! b = Some blk -> c ∈ succs (type blk) -> (c < length (blocks o))%nat;
  fl_epi : epilogue_blk o = epi /\ (epi < length (blocks o))%nat;
  fl_known k b : label_to_blk o !! k = Some b -> K k /\ (b < length (blocks o))%nat;
  fl_done k : k ∈ D -> is_Some (label_to_blk o !! k);
  fl_must b : b ∈ mustgen o -> (b < length (blocks o))%nat }.

Lemma filled_weaken X X' D D' o :
  filled X D o -> X ⊆ X' -> (forall k, k ∈ D' -> k ∈ D) -> filled X' D' o.
Proof.
  intros [H1 H2 H3 H4 H5 H6] HX HD. split; auto.
  intros b blk Hb Ht. destruct (H1 b blk Hb Ht) as [? | [? | (k & Hk & Hl)]]; [auto | auto |].
  right. right. exists k. split; [auto | done].
Qed.

(** Contexts the same as far as [filled] goes. *)
Record shape (o o' : ctx) : Prop := mk_shape {
  sh_len : length (blocks o') = length (blocks o);
  sh_type b blk' : blocks o' !! b = Some blk' -> exists blk, blocks o !! b = Some blk /\ type blk = type blk';
  sh_cur : current_blk o' = current_blk o;
  sh_lbl : label_to_blk o' = label_to_blk o;
  sh_epi : epilogue_blk o' = epilogue_blk o;
  sh_must : mustgen o' = mustgen o }.

Lemma shape_filled X D o o' : shape o o' -> filled X D o -> filled X D o'.
Proof.
  intros [L T C B E Mu] [H1 H2 H3 H4 H5 H6]. split.
  - intros b blk' Hb Ht. destruct (T b blk' Hb) as (blk & Hb' & Hty). rewrite C, B. apply (H1 b blk Hb'). congruence.
  - intros b blk' c Hb Hc. destruct (T b blk' Hb) as (blk & Hb' & Hty). rewrite L. apply (H2 b blk c Hb'). by rewrite Hty.
  - by rewrite E, L.
  - intros k b. rewrite B, L. apply H4.
  - intros k. rewrite B. apply H5.
  - intros b. rewrite Mu, L. apply H6.
Qed.

Lemma shape_refl o : shape o o.
Proof. split; try done. intros b blk Hb. by exists blk. Qed.

Lemma shape_trans o1 o2 o3 : shape o1 o2 -> shape o2 o3 -> shape o1 o3.
Proof.
  intros [L1 T1 C1 B1 E1 Mu1] [L2 T2 C2 B2 E2 Mu2]. split; try congruence.
  intros b blk Hb. destruct (T2 b blk Hb) as (blk2 & Hb2 & Ht). destruct (T1 b blk2 Hb2) as (blk1 & Hb1 & Ht1).
  exists blk1. split; [done | congruence].
Qed.

(** [x] leaves no block behind. *)
Definition fills {A} (x : G A) : Prop := forall X D o a o',
  x o = Ok (a, o') -> filled X D o ->
  filled X D o' /\ (length (blocks o) <= length (blocks o'))%nat /\ label_to_blk o' = label_to_blk o.

Definition ended (o o' : ctx) : Prop := length (blocks o') = length (blocks o) /\ current_blk o' = None.

Lemma run_bind {A B} (x : G A) (k : A -> G B) o b o' :
  (x ≫= k) o = Ok (b, o') -> exists a o1, x o = Ok (a, o1) /\ k a o1 = Ok (b, o').
Proof. unfold mbind, G_bind. destruct (x o) as [[a o1]| | | |]; try done. eauto. Qed.

Lemma fills_ret {A} (a : A) : fills (mret a).
Proof. intros X D o b o' [= -> <-] H. done. Qed.

Lemma fills_bind {A B} (x : G A) (k : A -> G B) : fills x -> (forall a, fills (k a)) -> fills (x ≫= k).
Proof.
  intros Hx Hk X D o b o' H Hf. apply run_bind in H as (a & o1 & E & H).
  destruct (Hx X D o a o1 E Hf) as (H1 & L1 & B1). destruct (Hk a X D o1 b o' H H1) as (H2 & L2 & B2).
  split_and!; [done | lia | congruence].
Qed.

Lemma shape_fills {A} (x : G A) : (forall o a o', x o = Ok (a, o') -> shape o o') -> fills x.
Proof. intros H X D o a o' E Hf. pose proof (H o a o' E) as Hs. split_and!; [by eapply shape_filled | by rewrite (sh_len _ _ Hs) | apply Hs]. Qed.

(** ** The operations *)

Lemma alter_shape code b o : shape o (set_blocks (alter (blk_add_insns code) b (blocks o)) o).
Proof.
  split; simpl; try done; [by rewrite length_alter|]. intros c blk' Hc. destruct (decide (b = c)) as [<-|Hne].
  - rewrite list_lookup_alter_eq in Hc. destruct (blocks o !! b) as [blk|]; [|done]. injection Hc as <-. by exists blk.
  - rewrite list_lookup_alter_ne in Hc by done. by exists blk'.
Qed.

Lemma asm_shape code o a o' : out_asm code o = Ok (a, o') -> shape o o'.
Proof.
  unfold out_asm. destruct (current_blk o) as [b|]; intros [= <- <-]; [apply alter_shape | apply shape_refl].
Qed.

Lemma asm_fills code : fills (out_asm code).
Proof. apply shape_fills. intros o a o'. apply asm_shape. Qed.

Lemma new_val_shape o a o' : new_val o = Ok (a, o') -> shape o o'.
Proof. intros [= <- <-]. by destruct (shape_refl o). Qed.

Lemma new_val_fills : fills new_val.
Proof. apply shape_fills. intros o a o'. apply new_val_shape. Qed.

Lemma new_filled X D o b o' :
  out_blk_new o = Ok (b, o') -> filled X D o ->
  filled (b :: X) D o' /\ (length (blocks o) <= b < length (blocks o'))%nat /\ current_blk o' = current_blk o /\
  label_to_blk o' = label_to_blk o.
Proof.
  intros [= <- <-] [H1 H2 H3 H4 H5 H6]. simpl. rewrite length_app. simpl. split_and!; try done; [|lia].
  split; simpl; rewrite ?length_app; simpl; try done.
  - intros b blk Hb Ht. apply lookup_app_Some in Hb as [Hb | [Hge Hb]].
    + destruct (H1 b blk Hb Ht) as [? | [? | ?]]; [auto | right; left; by right | auto].
    + right. left. apply lookup_lt_Some in Hb. simpl in Hb. rewrite elem_of_cons. left. lia.
  - intros b blk c Hb Hc. apply lookup_app_Some in Hb as [Hb | [_ Hb]]; [specialize (H2 b blk c Hb Hc); lia|].
    apply list_lookup_singleton_Some in Hb as [_ <-]. inversion Hc.
  - lia.
  - intros k b Hk. destruct (H4 k b Hk). split; [done | lia].
  - intros b Hb. specialize (H6 b Hb). lia.
Qed.

Lemma terminate_fills t phi X D o a o' :
  terminate t phi o = Ok (a, o') -> filled X D o -> is_uninit t = false ->
  (forall c, c ∈ succs t -> (c < length (blocks o))%nat) -> filled X D o' /\ ended o o' /\ label_to_blk o' = label_to_blk o.
Proof.
  unfold terminate, ended. intros E Hf Ht Hs. destruct (current_blk o) as [b|] eqn:Hc;
    [|injection E as <- <-; by split_and!].
  destruct Hf as [H1 H2 H3 H4 H5 H6].
  destruct (blocks o !! b) as [blk|] eqn:Hb; [|done]. destruct (is_uninit (type blk)); [|done].
  injection E as <- <-. simpl. rewrite length_insert. split_and!; try done. split; simpl; rewrite ?length_insert; try done.
  - intros c cblk Hcb Hct. destruct (decide (b = c)) as [<-|Hne].
    + rewrite list_lookup_insert_eq in Hcb by (by eapply lookup_lt_Some). injection Hcb as <-. simpl in Hct. by subst t.
    + rewrite list_lookup_insert_ne in Hcb by done.
      destruct (H1 c cblk Hcb Hct) as [Hx | ?]; [congruence | by right].
  - intros c cblk d Hcb Hd. destruct (decide (b = c)) as [<-|Hne].
    + rewrite list_lookup_insert_eq in Hcb by (by eapply lookup_lt_Some). injection Hcb as <-. by apply Hs.
    + rewrite list_lookup_insert_ne in Hcb by done. by eapply H2.
Qed.

Lemma preds_shape m o : shape o (set_preds m o).
Proof. by destruct (shape_refl o). Qed.

Lemma transfer_fills to phi X D o a o' :
  out_ctrl_transfer to phi o = Ok (a, o') -> (to < length (blocks o))%nat -> filled X D o ->
  filled X D o' /\ ended o o' /\ label_to_blk o' = label_to_blk o.
Proof.
  unfold out_ctrl_transfer. intros E Hto Hf. apply run_bind in E as (from & o0 & E0 & E).
  assert (from = current_blk o /\ o0 = o) as [-> ->] by (by injection E0 as <- <-).
  apply run_bind in E as (? & ? & [= <- <-] & E). apply run_bind in E as (? & o1 & E1 & E).
  apply asm_shape in E1. pose proof (shape_filled X D _ _ E1 Hf) as Hf1.
  apply run_bind in E as (? & ? & [= <- <-] & E).
  destruct (current_blk o) as [f|] eqn:Hc; destruct (last_used_blk o1) as [last|]; try done.
  - apply run_bind in E as (? & o2 & [= <- <-] & E).
    apply run_bind in E as (blk & o3 & E3 & E).
    assert (o3 = add_pred to f o1) as -> by (destruct (blocks o1 !! f); [by injection E3 | done]).
    apply run_bind in E as (? & o4 & E4 & E).
    assert (o4 = add_pred to f o1) as -> by (destruct (phi_val blk); [done | by injection E4]).
    apply run_bind in E as (? & o5 & E5 & E). injection E as <- <-.
    pose proof (preds_shape (<[to:=default [] (Blk.merge_preds o1 !! to) ++ [f]]> (Blk.merge_preds o1)) o1) as Hs.
    destruct (terminate_fills _ _ X D _ _ _ E5) as (H5 & [L5 C5] & B5); [by eapply shape_filled | done | |].
    { intros c Hx. apply list_elem_of_singleton in Hx as ->. simpl. by rewrite (sh_len _ _ E1). }
    split; [done|]. split; [split; [rewrite L5; apply (sh_len _ _ E1) | done]|]. rewrite B5. apply (sh_lbl _ _ E1).
  - apply run_bind in E as (? & o2 & [= <- <-] & E). injection E as <- <-.
    split; [eapply shape_filled; [apply preds_shape | done]|].
    split; [split; [apply (sh_len _ _ E1) | simpl; by rewrite (sh_cur _ _ E1)] | apply (sh_lbl _ _ E1)].
Qed.

Lemma jump_fills to X D o a o' :
  jump_to to o = Ok (a, o') -> (to < length (blocks o))%nat -> filled X D o ->
  filled X D o' /\ ended o o' /\ label_to_blk o' = label_to_blk o.
Proof. unfold jump_to. intros E. apply run_bind in E as (? & o1 & E1 & [= <- <-]). by eapply transfer_fills. Qed.

(** A block that may be left without being ended. *)
Definition spare (X : list bid) (D : list key) (o : ctx) (c : bid) : Prop :=
  c ∈ X \/ exists k, k ∉ D /\ label_to_blk o !! k = Some c.

Lemma select_fills b X D o a o' :
  out_current_blk b o = Ok (a, o') -> filled (b :: X) D o ->
  (forall c, current_blk o = Some c -> c = b \/ spare X D o c) ->
  filled X D o' /\ length (blocks o') = length (blocks o) /\ current_blk o' = Some b /\
  label_to_blk o' = label_to_blk o.
Proof.
  intros [= <- <-] [H1 H2 H3 H4 H5 H6] Hc. split_and!; try done. split; simpl; try done.
  intros c blk Hb Ht. destruct (H1 c blk Hb Ht) as [Hx | [[-> | Hx]%elem_of_cons | ?]]; auto.
  destruct (Hc c Hx) as [-> | Hs]; auto.
Qed.

(** Selecting a block where control has just ended, or that is current. *)
Lemma select_ended b X D o a o' :
  out_current_blk b o = Ok (a, o') -> filled (b :: X) D o -> current_blk o = None \/ current_blk o = Some b ->
  filled X D o' /\ length (blocks o') = length (blocks o) /\ current_blk o' = Some b /\
  label_to_blk o' = label_to_blk o.
Proof. intros E Hf Hc. apply (select_fills b X D o a o' E Hf). intros c Hx. left. destruct Hc; congruence. Qed.

Lemma impl_branch_fills cond t f u X D o a o' :
  impl_branch cond t f u o = Ok (a, o') -> (t < length (blocks o))%nat -> (f < length (blocks o))%nat ->
  filled X D o -> filled X D o' /\ ended o o' /\ label_to_blk o' = label_to_blk o.
Proof.
  intros E Ht Hf Ho.
  assert (Htest : forall code j x y, (_ ← out_asm code; blk_terminate_condjmp j x y u) o = Ok (a, o') ->
    (x < length (blocks o))%nat -> (y < length (blocks o))%nat ->
    filled X D o' /\ ended o o' /\ label_to_blk o' = label_to_blk o).
  { intros code j x y Ec Hx Hy. apply run_bind in Ec as (? & o1 & E1 & E2). apply asm_shape in E1.
    destruct (terminate_fills _ _ X D _ _ _ E2) as (H2 & [L2 C2] & B2); [by eapply shape_filled | done | |].
    { intros c [-> | [-> | Hn]%elem_of_cons]%elem_of_cons; [..|by inversion Hn]; by rewrite (sh_len _ _ E1). }
    split; [done|]. split; [split; [rewrite L2; apply (sh_len _ _ E1) | done]|]. rewrite B2. apply (sh_lbl _ _ E1). }
  unfold impl_branch in E. destruct (view cond) as [test jz|j|fl|load j].
  - by eapply Htest.
  - apply (Htest [] j t f); try done. rewrite (G_step _ _ o tt o); [done|].
    unfold out_asm. destruct (current_blk o) as [b|] eqn:Hb; [|done]. do 3 f_equal. destruct o as [bs]. unfold set_blocks. simpl.
    f_equal. apply list_eq. intros i. destruct (decide (b = i)) as [<-|Hne].
    + rewrite list_lookup_alter_eq. destruct (bs !! b) as [[code ty ph]|]; [|done]. unfold blk_add_insns. simpl. by rewrite app_nil_r.
    + by rewrite list_lookup_alter_ne.
  - apply run_bind in E as (? & o1 & E1 & [= <- <-]). eapply transfer_fills; [exact E1 | by destruct fl | done].
  - by eapply Htest.
Qed.

Lemma branch_fills cond t f X D o a o' :
  out_ctrl_branch cond t f o = Ok (a, o') -> (t < length (blocks o))%nat -> (f < length (blocks o))%nat ->
  filled (t :: X) D o ->
  filled X D o' /\ length (blocks o') = length (blocks o) /\ current_blk o' = Some t /\
  label_to_blk o' = label_to_blk o.
Proof.
  unfold out_ctrl_branch. intros E Ht Hf Ho. apply run_bind in E as (? & ? & [= <- <-] & E).
  apply run_bind in E as (? & o1 & E1 & E). apply asm_shape in E1. apply run_bind in E as (? & o2 & E2 & E).
  destruct (impl_branch_fills _ _ _ _ (t :: X) D _ _ _ E2) as (H2 & [L2 C2] & B2);
    [by rewrite (sh_len _ _ E1) | by rewrite (sh_len _ _ E1) | by eapply shape_filled |].
  destruct (select_ended t X D _ _ _ E H2 (or_introl C2)) as (H3 & L3 & C3 & B3).
  split_and!; [done | by rewrite L3, L2, (sh_len _ _ E1) | done | by rewrite B3, B2, (sh_lbl _ _ E1)].
Qed.

(** Selecting another block after a branch: the one the branch selected is
    left as it was. *)
Lemma branch_select_fills cond t f b X D o a o' :
  (_ ← out_ctrl_branch cond t f; out_current_blk b) o = Ok (a, o') ->
  (t < length (blocks o))%nat -> (f < length (blocks o))%nat -> filled (b :: X) D o ->
  filled X D o' /\ length (blocks o') = length (blocks o) /\ current_blk o' = Some b /\
  label_to_blk o' = label_to_blk o.
Proof.
  intros E Ht Hf Ho. apply run_bind in E as (? & o3 & E & E3). unfold out_ctrl_branch in E.
  apply run_bind in E as (? & ? & [= <- <-] & E).
  apply run_bind in E as (? & o1 & E1 & E). apply asm_shape in E1. apply run_bind in E as (? & o2 & E2 & [= <- <-]).
  destruct (impl_branch_fills _ _ _ _ (b :: X) D _ _ _ E2) as (H2 & [L2 C2] & B2);
    [by rewrite (sh_len _ _ E1) | by rewrite (sh_len _ _ E1) | by eapply shape_filled |].
  destruct (select_ended b X D o2 tt _ eq_refl H2 (or_introl C2)) as (H3 & L3 & C3 & B3).
  injection E3 as <- <-. split_and!; [| | done |].
  - eapply shape_filled; [|exact H3]. by destruct (shape_refl (set_current (Some b) (set_used (Some b) o2))).
  - simpl. by rewrite L2, (sh_len _ _ E1).
  - simpl. by rewrite B2, (sh_lbl _ _ E1).
Qed.

Lemma make_current_fills b X D o a o' :
  out_ctrl_transfer_make_current b o = Ok (a, o') -> (b < length (blocks o))%nat -> filled (b :: X) D o ->
  filled X D o' /\ length (blocks o') = length (blocks o) /\ current_blk o' = Some b /\
  label_to_blk o' = label_to_blk o.
Proof.
  unfold out_ctrl_transfer_make_current. intros E Hb Ho. apply run_bind in E as (? & o1 & E1 & E).
  destruct (transfer_fills _ _ (b :: X) D _ _ _ E1 Hb Ho) as (H1 & [L1 C1] & B1).
  destruct (select_ended b X D _ _ _ E H1 (or_introl C1)) as (H2 & L2 & C2 & B2).
  split_and!; [done | congruence | done | congruence].
Qed.

Lemma end_undefined_fills ud2 : fills (out_ctrl_end_undefined ud2).
Proof.
  intros X D o a o' E Ho. unfold out_ctrl_end_undefined in E. apply run_bind in E as (? & o1 & E1 & E).
  apply asm_shape in E1. destruct (terminate_fills _ _ X D _ _ _ E) as (H2 & [L2 _] & B2);
    [by eapply shape_filled | done | by intros c Hc; inversion Hc |].
  split_and!; [done | by rewrite L2, (sh_len _ _ E1) | by rewrite B2, (sh_lbl _ _ E1)].
Qed.

Lemma end_ret_fills x X D o a o' :
  out_ctrl_end_ret x o = Ok (a, o') -> filled X D o ->
  filled X D o' /\ ended o o' /\ label_to_blk o' = label_to_blk o.
Proof.
  unfold out_ctrl_end_ret. intros E Ho. apply run_bind in E as (? & o1 & E1 & E).
  assert (Hs : shape o o1) by (destruct x; [by eapply asm_shape | injection E1 as <- <-; apply shape_refl]).
  apply run_bind in E as (? & ? & [= <- <-] & E). apply run_bind in E as (? & o2 & E2 & E).
  pose proof (shape_filled X D _ _ Hs Ho) as H1.
  destruct (fl_epi _ _ _ H1) as [He1 He2].
  destruct (transfer_fills _ _ X D _ _ _ E2 ltac:(by rewrite He1) H1) as (H2 & [L2 C2] & B2).
  apply run_bind in E as (? & ? & [= <- <-] & [= <- <-]).
  assert (Hn : shape o2 (set_current None o2)) by (by destruct (shape_refl o2)).
  split_and!; [by eapply shape_filled | | simpl; by rewrite B2, (sh_lbl _ _ Hs)].
  split; [simpl; by rewrite L2, (sh_len _ _ Hs) | done].
Qed.

(** *** Merging: no block is ended or begun *)

Lemma merge_into_shape k b o a o' :
  merge_into k b o = Ok (a, o') -> length (blocks o') = length (blocks o) /\
  (forall c blk', blocks o' !! c = Some blk' -> exists blk, blocks o !! c = Some blk /\ type blk = type blk') /\
  label_to_blk o' = label_to_blk o /\ epilogue_blk o' = epilogue_blk o /\ mustgen o' = mustgen o.
Proof.
  unfold merge_into. intros E. apply run_bind in E as (? & ? & [= <- <-] & E).
  destruct (blocks o !! b) as [blk|]; [|done]. destruct (phi_val blk) as [phi|]; [|done].
  apply run_bind in E as (? & o1 & [= <- <-] & E). apply asm_shape in E as [L T C B Ep Mu]. by split_and!.
Qed.

Lemma merge_shape fa fb o v o' : out_ctrl_merge fa fb o = Ok (v, o') -> shape o o'.
Proof.
  assert (Hphi : forall b, only_phi b o = Ok (v, o') -> shape o o').
  { intros b E. unfold only_phi in E. apply run_bind in E as (? & ? & [= <- <-] & E).
    destruct (blocks o !! b) as [blk|]; [|done]. destruct (phi_val blk); [|done]. injection E as <- <-. apply shape_refl. }
  unfold out_ctrl_merge. destruct fa as [x|], fb as [y|]; try done; try apply Hphi.
  intros E. apply run_bind in E as (? & ? & [= <- <-] & E). destruct (current_blk o) as [saved|] eqn:Hc; [|done].
  apply run_bind in E as (k & o1 & E1 & E). apply new_val_shape in E1 as [L1 T1 C1 B1 P1 Mu1].
  apply run_bind in E as (? & o2 & E2 & E). apply merge_into_shape in E2 as (L2 & T2 & B2 & P2 & Mu2).
  apply run_bind in E as (? & o3 & E3 & E). apply merge_into_shape in E3 as (L3 & T3 & B3 & P3 & Mu3).
  apply run_bind in E as (? & o4 & [= <- <-] & [= <- <-]).
  split; simpl; try congruence. intros c blk3 H3. destruct (T3 c blk3 H3) as (blk2 & H2 & Ht2).
  destruct (T2 c blk2 H2) as (blk1 & H1 & Ht1). destruct (T1 c blk1 H1) as (blk0 & H0 & Ht0).
  exists blk0. split; [done | congruence].
Qed.

(** *** Labels *)

Lemma add_key_fills k X D o :
  filled X D o -> K k -> label_to_blk o !! k = None ->
  filled X D (set_labels (<[k := length (blocks o)]> (label_to_blk o)) (set_blocks (blocks o ++ [blk_new]) o)) /\ k ∉ D.
Proof.
  intros [H1 H2 H3 H4 H5 H6] HK Hn. assert (Hd : k ∉ D) by (intros Hd; destruct (H5 _ Hd); congruence).
  split; [|done]. split; simpl; rewrite ?length_app; simpl.
  - intros b blk Hb Ht. apply lookup_app_Some in Hb as [Hb | [Hge Hb]].
    + destruct (H1 b blk Hb Ht) as [? | [? | (k' & Hk & Hlk)]]; [auto | auto |]. right. right. exists k'. split; [done|].
      rewrite lookup_insert_ne; [done | congruence].
    + right. right. exists k. split; [done|]. apply lookup_lt_Some in Hb. simpl in Hb.
      rewrite lookup_insert_eq. f_equal. lia.
  - intros b blk c Hb Hc. apply lookup_app_Some in Hb as [Hb | [_ Hb]]; [specialize (H2 b blk c Hb Hc); lia|].
    apply list_lookup_singleton_Some in Hb as [_ <-]. inversion Hc.
  - lia.
  - intros k' b [[<- <-] | [_ H]]%lookup_insert_Some; [split; [done | lia] | destruct (H4 k' b H); split; [done | lia]].
  - intros k' Hk. destruct (decide (k' = k)) as [->|Hne]; [rewrite lookup_insert_eq; by eexists|].
    rewrite lookup_insert_ne by done. by apply H5.
  - intros b Hb. specialize (H6 b Hb). lia.
Qed.

Lemma getblk_fills l X D o b o' :
  label_getblk (Lbl l) o = Ok (b, o') -> filled X D o -> K (Lbl l) ->
  filled X D o' /\ (length (blocks o) <= length (blocks o'))%nat /\ label_to_blk o' !! Lbl l = Some b /\
  current_blk o' = current_blk o /\
  forall k c, label_to_blk o' !! k = Some c -> label_to_blk o !! k = Some c \/ k = Lbl l.
Proof.
  unfold label_getblk. intros E Ho HK. destruct (label_to_blk o !! Lbl l) as [b0|] eqn:Hl.
  { injection E as <- <-. split_and!; auto. }
  injection E as <- <-. split_and!; [by apply add_key_fills | | apply lookup_insert_eq | done |].
  - simpl. rewrite length_app. lia.
  - simpl. intros k c [[<- <-] | [_ H]]%lookup_insert_Some; auto.
Qed.

Lemma new_case_fills c X D o b o' :
  new_case_blk c o = Ok (b, o') -> filled X D o -> K (Cse c) -> label_to_blk o !! Cse c = None ->
  filled X D o' /\ length (blocks o') = S (length (blocks o)) /\ label_to_blk o' = <[Cse c := b]> (label_to_blk o) /\
  current_blk o' = current_blk o /\ b = length (blocks o) /\ Cse c ∉ D.
Proof.
  unfold new_case_blk. intros E Ho HK Hn. destruct (add_key_fills (Cse c) X D o Ho HK Hn) as [H Hd].
  apply run_bind in E as (b1 & o1 & [= <- <-] & E).
  apply run_bind in E as (? & ? & [= <- <-] & E). apply run_bind in E as (? & ? & [= <- <-] & [= <- <-]).
  split_and!; try done. simpl. rewrite length_app. simpl. lia.
Qed.

(** A label met: its block is the construct's to select. *)
Lemma meet_label k b X D o : filled X D o -> label_to_blk o !! k = Some b -> filled (b :: X) (k :: D) o.
Proof.
  intros [H1 H2 H3 H4 H5 H6] Hb. split; try done.
  - intros c blk Hc Ht. destruct (H1 c blk Hc Ht) as [? | [? | (k' & Hk & Hl)]]; [auto | right; left; by right |].
    right. destruct (decide (k' = k)) as [->|Hne]; [left; rewrite elem_of_cons; left; congruence|].
    right. exists k'. split; [|done]. by intros [? | ?]%elem_of_cons.
  - intros k' [-> | Hk]%elem_of_cons; [by eexists | by apply H5].
Qed.

(** ** Expressions *)

Ltac sub_in := intros ?; rewrite ?elem_of_cons, ?elem_of_nil; tauto.

Lemma normalise_fills v : fills (out_normalise v).
Proof.
  unfold out_normalise. apply fills_bind; [apply new_val_fills|]. intros k.
  destruct (normalise k v) as [code r]. apply fills_bind; [apply asm_fills | intros; apply fills_ret].
Qed.

(** The second half of the expressions that branch: from the branch to the
    block where the values meet. *)
Lemma arms_fills (x1 x2 landing t f : bid) (c : oval) (gen1 gen2 : G oval) (merge : option bid -> option bid -> G oval) X D o a o' :
  (_ ← out_ctrl_branch c t f;
   _ ← out_current_blk x1;
   v1 ← gen1;
   f1 ← out_ctrl_transfer landing (Some v1);
   _ ← out_current_blk x2;
   v2 ← gen2;
   f2 ← out_ctrl_transfer landing (Some v2);
   _ ← out_current_blk landing;
   merge f1 f2) o = Ok (a, o') ->
  fills gen1 -> fills gen2 -> (forall f1 f2 o a o', merge f1 f2 o = Ok (a, o') -> shape o o') ->
  (t = x1 \/ t = x2) -> (f = x1 \/ f = x2) ->
  (x1 < length (blocks o))%nat -> (x2 < length (blocks o))%nat -> (landing < length (blocks o))%nat ->
  filled (landing :: x2 :: x1 :: X) D o ->
  filled X D o' /\ (length (blocks o) <= length (blocks o'))%nat /\ label_to_blk o' = label_to_blk o.
Proof.
  intros E F1 F2 Hm Ht Hf L1 L2 Ll Ho. apply run_bind in E as (? & o1 & E1 & E).
  destruct (branch_fills _ t f (landing :: x2 :: x1 :: X) D _ _ _ E1) as (H1 & N1 & C1 & B1).
  { by destruct Ht as [-> | ->]. }
  { by destruct Hf as [-> | ->]. }
  { eapply filled_weaken; [exact Ho | sub_in | done]. }
  apply run_bind in E as (? & o2 & E2 & E).
  destruct (select_fills x1 (landing :: x2 :: X) D _ _ _ E2) as (H2 & N2 & C2 & B2).
  { eapply filled_weaken; [exact H1 | sub_in | done]. }
  { intros b Hb. assert (b = t) as -> by congruence. destruct Ht as [-> | ->]; [by left|].
    right. left. right. left. }
  apply run_bind in E as (v1 & o3 & E3 & E). destruct (F1 _ _ _ _ _ E3 H2) as (H3 & N3 & B3).
  apply run_bind in E as (f1 & o4 & E4 & E).
  destruct (transfer_fills _ _ _ _ _ _ _ E4 ltac:(lia) H3) as (H4 & [N4 C4] & B4).
  apply run_bind in E as (? & o5 & E5 & E).
  destruct (select_ended x2 (landing :: X) D _ _ _ E5) as (H5 & N5 & C5 & B5); [|by left|].
  { eapply filled_weaken; [exact H4 | sub_in | done]. }
  apply run_bind in E as (v2 & o6 & E6 & E). destruct (F2 _ _ _ _ _ E6 H5) as (H6 & N6 & B6).
  apply run_bind in E as (f2 & o7 & E7 & E).
  destruct (transfer_fills _ _ _ _ _ _ _ E7 ltac:(lia) H6) as (H7 & [N7 C7] & B7).
  apply run_bind in E as (? & o8 & E8 & E).
  destruct (select_ended landing X D _ _ _ E8 H7 (or_introl C7)) as (H8 & N8 & C8 & B8).
  apply Hm in E. split_and!; [by eapply shape_filled | rewrite (sh_len _ _ E); lia | rewrite (sh_lbl _ _ E); congruence].
Qed.

Lemma three_fills X D o b1 b2 b3 oa ob o1 :
  out_blk_new o = Ok (b1, oa) -> out_blk_new oa = Ok (b2, ob) -> out_blk_new ob = Ok (b3, o1) -> filled X D o ->
  filled (b3 :: b2 :: b1 :: X) D o1 /\ (length (blocks o) <= b1 < length (blocks o1))%nat /\
  (b2 < length (blocks o1))%nat /\ (b3 < length (blocks o1))%nat /\ current_blk o1 = current_blk o /\
  label_to_blk o1 = label_to_blk o.
Proof.
  intros E1 E2 E3 Ho. destruct (new_filled _ _ _ _ _ E1 Ho) as (H1 & L1 & C1 & B1).
  destruct (new_filled _ _ _ _ _ E2 H1) as (H2 & L2 & C2 & B2). destruct (new_filled _ _ _ _ _ E3 H2) as (H3 & L3 & C3 & B3).
  split_and!; [done | lia | lia | lia | lia | congruence | congruence].
Qed.

Lemma shortcircuit_fills andsc gen_lhs gen_rhs : fills gen_lhs -> fills gen_rhs -> fills (op_shortcircuit andsc gen_lhs gen_rhs).
Proof.
  intros F1 F2 X D o a o' E Ho. unfold op_shortcircuit in E.
  apply run_bind in E as (r & oa & E1 & E). apply run_bind in E as (e & ob & E2 & E). apply run_bind in E as (l & o1 & E3 & E).
  destruct (three_fills X D o r e l oa ob o1 E1 E2 E3 Ho) as (H1 & Lr & Le & Ll & C1 & B1).
  apply run_bind in E as (v & o2 & E4 & E). destruct (F1 _ _ _ _ _ E4 H1) as (H2 & N2 & B2).
  apply run_bind in E as (v' & o3 & E5 & E). destruct (normalise_fills v _ _ _ _ _ E5 H2) as (H3 & N3 & B3).
  destruct (arms_fills r e l (if andsc then r else e) (if andsc then e else r) v' (v ← gen_rhs; out_normalise v)
    (mret (out_new_l (if andsc then 0 else 1))) (fun f1 f2 => out_ctrl_merge f2 f1) X D o3 a o') as (H & N & B).
  - rewrite <-E. unfold mbind, G_bind.
    destruct (out_ctrl_branch v' _ _ o3) as [[[] o4]| | | |]; [|done..].
    destruct (out_current_blk r o4) as [[[] o5]| | | |]; [|done..].
    destruct (gen_rhs o5) as [[w o6]| | | |]; [|done..].
    by destruct (out_normalise w o6) as [[w' o7]| | | |].
  - apply fills_bind; [exact F2 | apply normalise_fills].
  - apply fills_ret.
  - intros f1 f2 x y z. apply merge_shape.
  - destruct andsc; auto.
  - destruct andsc; auto.
  - lia.
  - lia.
  - lia.
  - done.
  - split_and!; [done | lia | congruence].
Qed.

Lemma if_fills gen_cond gen_lhs gen_rhs :
  fills gen_cond -> (forall g, gen_lhs = Some g -> fills g) -> fills gen_rhs -> fills (gen_expr_if gen_cond gen_lhs gen_rhs).
Proof.
  intros Fc F1 F2 X D o a o' E Ho. unfold gen_expr_if in E.
  apply run_bind in E as (l & oa & E1 & E). apply run_bind in E as (x1 & ob & E2 & E). apply run_bind in E as (x2 & o1 & E3 & E).
  destruct (three_fills X D o l x1 x2 oa ob o1 E1 E2 E3 Ho) as (H1 & L1 & L2 & L3 & C1 & B1).
  apply run_bind in E as (c & o2 & E4 & E). destruct (Fc _ _ _ _ _ E4 H1) as (H2 & N2 & B2).
  destruct (arms_fills x1 x2 l x1 x2 c (match gen_lhs with Some g => g | None => mret c end) gen_rhs out_ctrl_merge X D o2 a o' E)
    as (H & N & B); auto; try lia.
  - destruct gen_lhs as [g|]; [by apply F1 | apply fills_ret].
  - intros f1 f2 x y z. apply merge_shape.
  - eapply filled_weaken; [exact H2 | sub_in | done].
  - split_and!; [done | lia | congruence].
Qed.

Section Cexprs.
Context {E : Type} `{!GenExpr insn jcc addr oval sst E} (const_fold : cexpr E -> option Z).
Hypothesis leaves_fill : forall e : E, fills (gen_expr e).

Lemma cexpr_fills (e : cexpr E) : fills (gen_cexpr const_fold e).
Proof using leaves_fill.
  revert e. fix IH 1. intros e. destruct e as [e | andsc lhs rhs | e lhs rhs | lhs rhs]; cbn [gen_cexpr];
    (destruct (const_fold _) as [n|]; [apply fills_ret|]).
  - apply leaves_fill.
  - apply shortcircuit_fills; apply IH.
  - apply if_fills; [apply IH | | apply IH]. intros g Hg. destruct lhs as [l|]; [injection Hg as <-; apply IH | done].
  - apply fills_bind; [apply IH | intros _; apply IH].
Qed.

End Cexprs.

(** ** Statements *)

Section Stmts.
Context {E : Type} `{!GenExpr insn jcc addr oval sst E}.
Hypothesis exprs_fill : forall e : E, fills (gen_expr e).

Local Notation stmt := (stmt E).
Local Notation env := (env E).

Lemma opt_fills (e : option E) : fills (gen_opt e).
Proof using exprs_fill. destruct e as [e|]; [apply fills_bind; [apply exprs_fill | intros; apply fills_ret] | apply fills_ret]. Qed.

Lemma decls_fills (ds : list (decl E)) : fills (gen_decls ds).
Proof using exprs_fill.
  induction ds as [|d ds IH]; [apply fills_ret|]. repeat (apply fills_bind; [apply opt_fills | intros _]). exact IH.
Qed.

Lemma destructors_fills (ds : list (decl E)) : fills (gen_destructors ds).
Proof using exprs_fill.
  induction ds as [|d ds IH]; [apply fills_ret|]. repeat (apply fills_bind; [apply opt_fills | intros _]). exact IH.
Qed.

Lemma leave_fills (p : list (scope E)) to : fills (gen_scope_leave p to).
Proof using exprs_fill.
  induction p as [|sc p IH]; simpl; [apply fills_ret|]. destruct (decide _); [apply fills_ret|].
  apply fills_bind; [apply destructors_fills | intros _; exact IH].
Qed.

Lemma scope_block_fills : fills new_block_for_scope.
Proof.
  intros X D o a o' Ex Ho. unfold new_block_for_scope in Ex. apply run_bind in Ex as (? & ? & [= <- <-] & Ex).
  destruct (out_ctx_current_blk_is_empty o); [injection Ex as <- <-; done|].
  apply run_bind in Ex as (b & o1 & E1 & Ex). destruct (new_filled _ _ _ _ _ E1 Ho) as (H1 & L1 & C1 & B1).
  destruct (make_current_fills b X D o1 a o' Ex ltac:(lia) H1) as (H2 & L2 & C2 & B2).
  split_and!; [done | lia | congruence].
Qed.

Lemma block_decls_fills (sc : scope E) : fills (gen_block_decls sc).
Proof using exprs_fill. apply fills_bind; [apply scope_block_fills | intros _; apply decls_fills]. Qed.

Lemma scope_end_fills (sc : scope E) p : fills (_ ← gen_scope_leave_parent sc p; gen_block_decls_dealloca).
Proof using exprs_fill. apply fills_bind; [apply leave_fills | intros _; apply scope_block_fills]. Qed.

(** The labels a statement jumps to. *)
Fixpoint gotos (s : stmt) : list string :=
  match s with
  | s_code _ ss => concat (map gotos ss)
  | s_if _ _ lhs rhs => gotos lhs ++ match rhs with Some r => gotos r | None => [] end
  | s_while _ _ lhs | s_do _ lhs | s_for _ _ _ _ lhs | s_switch _ _ _ _ lhs
  | s_case _ lhs | s_label _ _ lhs => gotos lhs
  | s_goto l => [l]
  | _ => []
  end.

Definition fresh (s : stmt) (o : ctx) : Prop :=
  forall c, Cse c ∈ labels s -> c ∉ frees s -> label_to_blk o !! Cse c = None.

(** More blocks, and blocks for the labels in [S] or jumped to. *)
Record kept (S : list key) (o o' : ctx) : Prop := mk_kept {
  kp_len : (length (blocks o) <= length (blocks o'))%nat;
  kp_lbl k b : label_to_blk o' !! k = Some b -> label_to_blk o !! k = Some b \/ k ∈ S \/ exists l, k = Lbl l }.

Lemma kept_same o o' S :
  (length (blocks o) <= length (blocks o'))%nat -> label_to_blk o' = label_to_blk o -> kept S o o'.
Proof. intros HL HB. split; [done|]. intros k b. rewrite HB. auto. Qed.

Lemma kept_trans S1 S2 o o1 o2 : kept S1 o o1 -> kept S2 o1 o2 -> kept (S1 ++ S2) o o2.
Proof.
  intros [L1 K1] [L2 K2]. split; [lia|]. intros k b Hk. rewrite elem_of_app.
  destruct (K2 k b Hk) as [Hk1 | [? | ?]]; [|auto | auto]. destruct (K1 k b Hk1) as [? | [? | ?]]; auto.
Qed.

Lemma kept_fresh S s o o' : kept S o o' -> (forall k, k ∈ labels s -> k ∉ S) -> fresh s o -> fresh s o'.
Proof.
  intros [_ HK] HS Hf c Hc Hn. destruct (label_to_blk o' !! Cse c) as [b|] eqn:Hb; [|done].
  destruct (HK _ _ Hb) as [Hb' | [Hx | [l [=]]]]; [|by destruct (HS _ Hc)]. by rewrite Hf in Hb'.
Qed.

Definition targets_in (v : env) (n : nat) : Prop :=
  (forall b to, blk_break v = Some (b, to) -> (b < n)%nat) /\
  (forall b to, blk_continue v = Some (b, to) -> (b < n)%nat) /\
  returns_nonnull v = false /\ inline_phi v = None.

Lemma targets_le v n n' : targets_in v n -> (n <= n')%nat -> targets_in v n'.
Proof.
  intros (H1 & H2 & H3) HL. split; [|split; [|done]]; intros b to Hb; [specialize (H1 b to Hb) | specialize (H2 b to Hb)]; lia.
Qed.

Lemma push_targets sc v n : targets_in v n -> targets_in (push sc v) n.
Proof. done. Qed.

Lemma loop_targets b c v n m : (b < n)%nat -> (c < n)%nat -> targets_in v m -> targets_in (targets b c v) n.
Proof. intros Hb Hc (_ & _ & ?). split; [|split; [|done]]; by intros ? ? [= <- _]. Qed.

Lemma break_targets b v n : (b < n)%nat -> targets_in v n -> targets_in (break_to b v) n.
Proof. intros Hb (_ & Hc & ?). split; [by intros ? ? [= <- _] | done]. Qed.

(** What the generator of a statement does to the blocks not ended. *)
Definition stmt_fills (s : stmt) : Prop := forall (v : env) X D o o',
  gen_stmt s v o = Ok (tt, o') -> filled X D o -> targets_in v (length (blocks o)) -> fresh s o ->
  filled X (labels s ++ D) o' /\ kept (labels s) o o'.

Lemma fills_stmt (s : stmt) (v : env) X D o o' :
  fills (gen_stmt s v) -> labels s = [] -> gen_stmt s v o = Ok (tt, o') -> filled X D o ->
  filled X (labels s ++ D) o' /\ kept (labels s) o o'.
Proof.
  intros F Hl Ex Ho. destruct (F _ _ _ _ _ Ex Ho) as (H & L & B). rewrite Hl. split; [done | by apply kept_same].
Qed.

(** A jump out, after code that leaves scopes. *)
Lemma leave_jump_fills (p : list (scope E)) to b X D (o : ctx) a o' :
  (_ ← gen_scope_leave p to; jump_to b) o = Ok (a, o') -> (b < length (blocks o))%nat -> filled X D o ->
  filled X D o' /\ kept [] o o'.
Proof using exprs_fill.
  intros Ex Hb Ho. apply run_bind in Ex as (? & o1 & E1 & Ex). destruct (leave_fills _ _ _ _ _ _ _ E1 Ho) as (H1 & L1 & B1).
  destruct (jump_fills b X D _ _ _ Ex ltac:(lia) H1) as (H2 & [L2 C2] & B2).
  split; [done|]. apply kept_same; [lia | congruence].
Qed.

(** A part of a statement, and the jump after it. *)
Lemma part_fills (s : stmt) (v : env) to X D o oa o' :
  stmt_fills s -> gen_stmt s v o = Ok (tt, oa) -> jump_to to oa = Ok (tt, o') -> filled X D o ->
  targets_in v (length (blocks o)) -> fresh s o -> (to < length (blocks o))%nat ->
  filled X (labels s ++ D) o' /\ kept (labels s) o o' /\ current_blk o' = None.
Proof.
  intros Hs E1 E2 Ho Hv Hf Hto. destruct (Hs _ _ _ _ _ E1 Ho Hv Hf) as [H1 [L1 K1]].
  destruct (jump_fills _ _ _ _ _ _ E2 ltac:(lia) H1) as (H2 & [L2 C2] & B2).
  split_and!; [done | | done]. split; [lia|]. by rewrite B2.
Qed.

Lemma seq_fills (ss : list stmt) : Forall stmt_fills ss -> NoDup (all_labels ss) -> forall (v : env) X D o o',
  gen_stmts (fun s => gen_stmt s v) ss o = Ok (tt, o') -> filled X D o -> targets_in v (length (blocks o)) ->
  Forall (fun s => fresh s o) ss -> filled X (all_labels ss ++ D) o' /\ kept (all_labels ss) o o'.
Proof.
  unfold all_labels. induction 1 as [|s ss Hs _ IH]; intros Hnd v X D o o' Ex Ho Hv Hf; simpl in *.
  { injection Ex as <-. split; [done | by apply kept_same]. }
  apply run_bind in Ex as ([] & o1 & E1 & Ex). apply NoDup_app in Hnd as (_ & Hd & Hnd).
  apply Forall_cons in Hf as [Hf Hfs]. destruct (Hs _ _ _ _ _ E1 Ho Hv Hf) as [H1 K1].
  destruct (IH Hnd v X (labels s ++ D) o1 o' Ex H1) as [H2 K2].
  { eapply targets_le; [done | apply K1]. }
  { rewrite Forall_forall in Hfs |- *. intros t Ht. eapply kept_fresh; [exact K1 | | by apply Hfs].
    intros k Hk Hk'. apply (Hd k Hk'). by eapply (in_concat_map labels). }
  split; [|by eapply kept_trans]. eapply filled_weaken; [exact H2 | done |].
  intros k. rewrite !elem_of_app. tauto.
Qed.

Lemma case_fills' (v : env) lhs k X D o o1 o' b :
  filled X D o -> label_to_blk o !! k = Some b -> out_ctrl_transfer_make_current b o = Ok (tt, o1) ->
  gen_stmt lhs v o1 = Ok (tt, o') -> stmt_fills lhs -> targets_in v (length (blocks o)) -> fresh lhs o ->
  filled X (k :: labels lhs ++ D) o' /\ kept (labels lhs) o o'.
Proof.
  intros Ho Hb E1 Ex Hl Hv Hf. destruct (fl_known _ _ _ Ho _ _ Hb) as [_ Hlt].
  destruct (make_current_fills b X (k :: D) _ _ _ E1 Hlt) as (H1 & L1 & C1 & B1); [by apply meet_label|].
  destruct (Hl v X (k :: D) o1 o' Ex H1) as [H2 [L2 K2]].
  { by rewrite L1. }
  { intros c. rewrite B1. apply Hf. }
  split.
  - eapply filled_weaken; [exact H2 | done |]. intros k'. rewrite !elem_of_cons, !elem_of_app, elem_of_cons. tauto.
  - split; [lia|]. by rewrite <-B1.
Qed.

Ltac fresh_part Hf := intros ? ? ?; apply Hf; [simpl; rewrite ?elem_of_app; tauto |].

Lemma code_fills sc (ss : list stmt) :
  Forall stmt_fills ss -> NoDup (all_labels ss) -> stmt_fills (s_code sc ss).
Proof using exprs_fill.
  intros HF Hnd v X D o o' Ex Ho Hv Hf. simpl in Ex. unfold gen_stmt_code in Ex.
  apply run_bind in Ex as (? & o1 & E1 & Ex). destruct (block_decls_fills sc _ _ _ _ _ E1 Ho) as (H1 & L1 & B1).
  apply run_bind in Ex as ([] & o2 & E2 & Ex).
  destruct (seq_fills ss HF Hnd (push sc v) X D o1 o2 E2 H1) as [H2 [L2 K2]].
  { by eapply targets_le. }
  { apply Forall_forall. intros s Hs c Hc Hn. rewrite B1. apply Hf; [by eapply (in_concat_map labels)|].
    simpl. intros (t & Ht & Hct)%elem_concat. apply Hn. apply frees_labels in Hct as Hct'.
    by rewrite (concat_same labels ss s t (Cse c) Hnd Hs Ht Hc Hct'). }
  destruct (scope_end_fills sc (path v) _ _ _ _ _ Ex H2) as (H3 & L3 & B3).
  split; [done|]. split; [lia|]. intros k b. rewrite B3, <-B1. apply K2.
Qed.

Lemma if_stmt_fills sc e lhs (rhs : option stmt) :
  stmt_fills lhs -> (forall r, rhs = Some r -> stmt_fills r) -> NoDup (labels (s_if sc e lhs rhs)) ->
  stmt_fills (s_if sc e lhs rhs).
Proof using exprs_fill.
  intros Hl Hr Hnd v X D o o' Ex Ho Hv Hf. simpl in Ex. unfold gen_stmt_if in Ex. simpl in Hnd.
  apply NoDup_app in Hnd as (_ & Hd & _).
  apply run_bind in Ex as (t & oa & E1 & Ex). apply run_bind in Ex as (f & ob & E2 & Ex). apply run_bind in Ex as (fi & o1 & E3 & Ex).
  destruct (three_fills X D o t f fi oa ob o1 E1 E2 E3 Ho) as (H1 & Lt & Lf & Li & C1 & B1).
  apply run_bind in Ex as (? & o2 & E4 & Ex). destruct (block_decls_fills sc _ _ _ _ _ E4 H1) as (H2 & L2 & B2).
  apply run_bind in Ex as (c & o3 & E5 & Ex). destruct (exprs_fill e _ _ _ _ _ E5 H2) as (H3 & L3 & B3).
  apply run_bind in Ex as (? & o4 & E6 & Ex).
  destruct (branch_fills c t f (fi :: f :: X) D _ _ _ E6) as (H4 & L4 & C4 & B4); [lia | lia | |].
  { eapply filled_weaken; [exact H3 | sub_in | done]. }
  apply run_bind in Ex as (? & o5 & E7 & Ex).
  destruct (select_ended t (fi :: f :: X) D _ _ _ E7) as (H5 & L5 & C5 & B5); [|by right|].
  { eapply filled_weaken; [exact H4 | sub_in | done]. }
  apply run_bind in Ex as ([] & o6 & E8 & Ex). apply run_bind in Ex as ([] & o7 & E9 & Ex).
  assert (B05 : label_to_blk o5 = label_to_blk o) by congruence.
  destruct (part_fills lhs _ fi _ _ _ _ _ Hl E8 E9 H5) as (H7 & K7 & C7); [| | lia |].
  { eapply targets_le; [exact Hv | lia]. }
  { intros c' Hc Hn. rewrite B05. apply Hf; simpl; [apply elem_of_app; by left|]. intros [? | Hx]%elem_of_app; [done|].
    apply (Hd _ Hc). destruct rhs; [by apply frees_labels | by inversion Hx]. }
  pose proof (kp_len _ _ _ K7) as L7.
  apply run_bind in Ex as (? & o8 & E10 & Ex).
  destruct (select_ended f (fi :: X) (labels lhs ++ D) _ _ _ E10) as (H8 & L8 & C8 & B8); [|by left|].
  { eapply filled_weaken; [exact H7 | sub_in | done]. }
  apply run_bind in Ex as ([] & o9 & E11 & Ex). apply run_bind in Ex as ([] & o10 & E12 & Ex).
  assert (Hrhs : filled (fi :: X) (labels (s_if sc e lhs rhs) ++ D) o10 /\ kept (labels_opt rhs) o8 o10 /\ current_blk o10 = None).
  { destruct rhs as [r|]; simpl.
    - destruct (part_fills r _ fi _ _ _ _ _ (Hr r eq_refl) E11 E12 H8) as (H10 & K10 & C10); [| | lia |].
      + eapply targets_le; [exact Hv | lia].
      + intros c' Hc Hn. rewrite B8. destruct (label_to_blk o7 !! Cse c') as [b|] eqn:Hb; [|done].
        destruct (kp_lbl _ _ _ K7 _ _ Hb) as [Hb' | [Hx | [l [=]]]]; [|by destruct (Hd _ Hx)].
        rewrite B05 in Hb'. rewrite (Hf c') in Hb'; [done | apply elem_of_app; by right |].
        simpl. intros [Hx | Hx]%elem_of_app; [|done]. by apply (Hd (Cse c')); [apply frees_labels|].
      + split_and!; [|done|done]. eapply filled_weaken; [exact H10 | done |]. intros k. rewrite !elem_of_app. tauto.
    - injection E11 as <-. destruct (jump_fills fi _ _ _ _ _ E12 ltac:(lia) H8) as (H10 & [L10 C10] & B10).
      rewrite app_nil_r. split_and!; [done | | done]. apply kept_same; [lia | done]. }
  destruct Hrhs as (H10 & K10 & C10). pose proof (kp_len _ _ _ K10) as L10.
  apply run_bind in Ex as (? & o11 & E13 & Ex).
  destruct (select_ended fi X _ _ _ _ E13 H10 (or_introl C10)) as (H11 & L11 & C11 & B11).
  destruct (scope_end_fills sc (path v) _ _ _ _ _ Ex H11) as (H12 & L12 & B12). split; [done|]. split; [lia|].
  intros k b. rewrite B12, B11, <-B05. intros Hk. simpl. fold (labels_opt rhs). rewrite elem_of_app.
  destruct (kp_lbl _ _ _ K10 _ _ Hk) as [Hk' | [? | ?]]; [|by auto|by auto]. rewrite B8 in Hk'.
  destruct (kp_lbl _ _ _ K7 _ _ Hk') as [? | [? | ?]]; auto.
Qed.

Lemma while_fills sc e lhs : stmt_fills lhs -> stmt_fills (s_while sc e lhs).
Proof using exprs_fill.
  intros Hl v X D o o' Ex Ho Hv Hf. simpl in Ex. unfold gen_stmt_while in Ex.
  apply run_bind in Ex as (bd & oa & E1 & Ex). apply run_bind in Ex as (co & ob & E2 & Ex). apply run_bind in Ex as (br & o1 & E3 & Ex).
  destruct (three_fills X D o bd co br oa ob o1 E1 E2 E3 Ho) as (H1 & Ld & Lc & Lb & C1 & B1).
  apply run_bind in Ex as (? & o2 & E4 & Ex). destruct (jump_fills _ _ _ _ _ _ E4 Lc H1) as (H2 & [L2 C2] & B2).
  apply run_bind in Ex as (? & o3 & E5 & Ex).
  destruct (select_ended co (br :: bd :: X) D _ _ _ E5) as (H3 & L3 & C3 & B3); [|by left|].
  { eapply filled_weaken; [exact H2 | sub_in | done]. }
  apply run_bind in Ex as (? & o4 & E6 & Ex). destruct (block_decls_fills sc _ _ _ _ _ E6 H3) as (H4 & L4 & B4).
  apply run_bind in Ex as (c & o5 & E7 & Ex). destruct (exprs_fill e _ _ _ _ _ E7 H4) as (H5 & L5 & B5).
  apply run_bind in Ex as (? & o6 & E8 & Ex).
  destruct (branch_fills c bd br (br :: X) D _ _ _ E8) as (H6 & L6 & C6 & B6); [lia | lia | |].
  { eapply filled_weaken; [exact H5 | sub_in | done]. }
  apply run_bind in Ex as (? & o7 & E9 & Ex).
  destruct (select_ended bd (br :: X) D _ _ _ E9) as (H7 & L7 & C7 & B7); [|by right|].
  { eapply filled_weaken; [exact H6 | sub_in | done]. }
  apply run_bind in Ex as ([] & o8 & E10 & Ex). apply run_bind in Ex as ([] & o9 & E11 & Ex).
  destruct (part_fills lhs _ co _ _ _ _ _ Hl E10 E11 H7) as (H9 & K9 & C9); [| | lia |].
  { eapply loop_targets; [lia | lia | exact Hv]. }
  { intros c' Hc Hn. replace (label_to_blk o7) with (label_to_blk o) by congruence. by apply Hf. }
  pose proof (kp_len _ _ _ K9) as L9.
  apply run_bind in Ex as (? & o10 & E12 & Ex).
  destruct (select_ended br X _ _ _ _ E12 H9 (or_introl C9)) as (H10 & L10 & C10 & B10).
  destruct (scope_end_fills sc (path v) _ _ _ _ _ Ex H10) as (H11 & L11 & B11). split; [done|]. split; [lia|].
  intros k b. rewrite B11, B10. replace (label_to_blk o) with (label_to_blk o7) by congruence. apply K9.
Qed.

Lemma do_fills e lhs : stmt_fills lhs -> stmt_fills (s_do e lhs).
Proof using exprs_fill.
  intros Hl v X D o o' Ex Ho Hv Hf. simpl in Ex. unfold gen_stmt_do in Ex.
  apply run_bind in Ex as (bg & oa & E1 & Ex). apply run_bind in Ex as (co & ob & E2 & Ex). apply run_bind in Ex as (br & o1 & E3 & Ex).
  destruct (three_fills X D o bg co br oa ob o1 E1 E2 E3 Ho) as (H1 & Ld & Lc & Lb & C1 & B1).
  apply run_bind in Ex as (? & o2 & E4 & Ex). destruct (jump_fills _ _ _ _ _ _ E4 ltac:(lia) H1) as (H2 & [L2 C2] & B2).
  apply run_bind in Ex as (? & o3 & E5 & Ex).
  destruct (select_ended bg (br :: co :: X) D _ _ _ E5) as (H3 & L3 & C3 & B3); [|by left|].
  { eapply filled_weaken; [exact H2 | sub_in | done]. }
  apply run_bind in Ex as ([] & o4 & E6 & Ex). apply run_bind in Ex as ([] & o5 & E7 & Ex).
  destruct (part_fills lhs _ co _ _ _ _ _ Hl E6 E7 H3) as (H5 & K5 & C5); [| | lia |].
  { eapply loop_targets; [lia | lia | exact Hv]. }
  { intros c' Hc Hn. replace (label_to_blk o3) with (label_to_blk o) by congruence. by apply Hf. }
  pose proof (kp_len _ _ _ K5) as L5.
  apply run_bind in Ex as (? & o6 & E8 & Ex).
  destruct (select_ended co (br :: X) (labels lhs ++ D) _ _ _ E8) as (H6 & L6 & C6 & B6); [|by left|].
  { eapply filled_weaken; [exact H5 | sub_in | done]. }
  apply run_bind in Ex as (c & o7 & E9 & Ex). destruct (exprs_fill e _ _ _ _ _ E9 H6) as (H7 & L7 & B7).
  destruct (branch_select_fills c bg br br X (labels lhs ++ D) _ _ _ Ex) as (H9 & L9 & C9 & B9); [lia | lia | exact H7 |].
  split; [done|]. split; [lia|].
  intros k b. rewrite B9, B7, B6. replace (label_to_blk o) with (label_to_blk o3) by congruence. apply K5.
Qed.

Lemma for_fills sc init w inc lhs : stmt_fills lhs -> stmt_fills (s_for sc init w inc lhs).
Proof using exprs_fill.
  intros Hl v X D o o' Ex Ho Hv Hf. simpl in Ex. unfold gen_stmt_for in Ex.
  apply run_bind in Ex as (te & oa & E1 & Ex). apply run_bind in Ex as (bd & ob & E2 & Ex). apply run_bind in Ex as (en & o1 & E3 & Ex).
  destruct (three_fills X D o te bd en oa ob o1 E1 E2 E3 Ho) as (H1 & Lt & Lb & Le & C1 & B1).
  apply run_bind in Ex as (ic & o2 & E4 & Ex). destruct (new_filled _ _ _ _ _ E4 H1) as (H2 & L2 & C2 & B2).
  apply run_bind in Ex as (? & o3 & E5 & Ex). destruct (block_decls_fills sc _ _ _ _ _ E5 H2) as (H3 & L3 & B3).
  apply run_bind in Ex as (? & o4 & E6 & Ex). destruct (opt_fills init _ _ _ _ _ E6 H3) as (H4 & L4 & B4).
  apply run_bind in Ex as (? & o5 & E7 & Ex).
  destruct (make_current_fills te (ic :: en :: bd :: X) D _ _ _ E7) as (H5 & L5 & C5 & B5); [lia | |].
  { eapply filled_weaken; [exact H4 | sub_in | done]. }
  apply run_bind in Ex as (? & o6 & E8 & Ex). apply run_bind in Ex as (? & o7 & E9 & Ex).
  assert (Htest : filled (ic :: en :: X) D o7 /\ (length (blocks o5) <= length (blocks o7))%nat /\
    label_to_blk o7 = label_to_blk o5).
  { destruct w as [w|].
    - apply run_bind in E8 as (c & ox & Ew & E8). destruct (exprs_fill w _ _ _ _ _ Ew H5) as (Hx & Lx & Bx).
      destruct (branch_fills c bd en (ic :: en :: X) D _ _ _ E8) as (H6 & L6 & C6 & B6); [lia | lia | |].
      { eapply filled_weaken; [exact Hx | sub_in | done]. }
      destruct (select_ended bd (ic :: en :: X) D _ _ _ E9) as (H7 & L7 & C7 & B7); [|by right|].
      { eapply filled_weaken; [exact H6 | sub_in | done]. }
      split_and!; [done | lia | congruence].
    - destruct (jump_fills _ _ _ _ _ _ E8 ltac:(lia) H5) as (H6 & [L6 C6] & B6).
      destruct (select_ended bd (ic :: en :: X) D _ _ _ E9) as (H7 & L7 & C7 & B7); [|by left|].
      { eapply filled_weaken; [exact H6 | sub_in | done]. }
      split_and!; [done | lia | congruence]. }
  destruct Htest as (H7 & L7 & B7).
  apply run_bind in Ex as ([] & o8 & E10 & Ex). apply run_bind in Ex as ([] & o9 & E11 & Ex).
  destruct (part_fills lhs _ ic _ _ _ _ _ Hl E10 E11 H7) as (H9 & K9 & C9); [| | lia |].
  { eapply loop_targets; [lia | lia | exact Hv]. }
  { intros c' Hc Hn. replace (label_to_blk o7) with (label_to_blk o) by congruence. by apply Hf. }
  pose proof (kp_len _ _ _ K9) as L9.
  apply run_bind in Ex as (? & o10 & E12 & Ex).
  destruct (select_ended ic (en :: X) (labels lhs ++ D) _ _ _ E12 H9 (or_introl C9)) as (H10 & L10 & C10 & B10).
  apply run_bind in Ex as (? & o11 & E13 & Ex). destruct (opt_fills inc _ _ _ _ _ E13 H10) as (H11 & L11 & B11).
  apply run_bind in Ex as (? & o12 & E14 & Ex).
  destruct (jump_fills _ _ _ _ _ _ E14 ltac:(lia) H11) as (H12 & [L12 C12] & B12).
  apply run_bind in Ex as (? & o13 & E15 & Ex).
  destruct (select_ended en X (labels lhs ++ D) _ _ _ E15 H12 (or_introl C12)) as (H13 & L13 & C13 & B13).
  destruct (scope_end_fills sc (path v) _ _ _ _ _ Ex H13) as (H14 & L14 & B14). split; [done|]. split; [lia|].
  intros k b. rewrite B14, B13, B12, B11, B10. replace (label_to_blk o) with (label_to_blk o7) by congruence. apply K9.
Qed.

(** *** [switch] *)

Lemma case_test_fills op v n : fills (case_test op v n).
Proof.
  unfold case_test. apply fills_bind; [apply new_val_fills|]. intros k.
  destruct (case_cmp k op v n) as [code r]. apply fills_bind; [apply asm_fills | intros; apply fills_ret].
Qed.

Lemma gen_case_fills v c X D o o' :
  gen_case v c o = Ok (tt, o') -> filled X D o -> K (Cse (c_stmt c)) -> label_to_blk o !! Cse (c_stmt c) = None ->
  filled X D o' /\ (length (blocks o) <= length (blocks o'))%nat /\
  exists b, label_to_blk o' = <[Cse (c_stmt c) := b]> (label_to_blk o).
Proof.
  unfold gen_case. intros Ex Ho HK Hn. apply run_bind in Ex as (ca & o1 & E1 & Ex).
  destruct (new_filled _ _ _ _ _ E1 Ho) as (H1 & L1 & C1 & B1).
  apply run_bind in Ex as (cb & o2 & E2 & Ex).
  destruct (new_case_fills _ _ _ _ _ _ E2 H1 HK) as (H2 & L2 & B2 & C2 & Hcb & Hd); [by rewrite B1|].
  apply run_bind in Ex as (? & o3 & Et & Ex).
  assert (Hkey : label_to_blk o2 !! Cse (c_stmt c) = Some cb) by (rewrite B2; apply lookup_insert_eq).
  destruct (c_expr2 c) as [max|].
  - apply run_bind in Et as (b2 & o4 & E4 & Et). destruct (new_filled _ _ _ _ _ E4 H2) as (H4 & L4 & C4 & B4).
    apply run_bind in Et as (t1 & o5 & E5 & Et). destruct (case_test_fills _ _ _ _ _ _ _ _ E5 H4) as (H5 & L5 & B5).
    apply run_bind in Et as (? & o6 & E6 & Et).
    destruct (branch_fills t1 ca b2 (b2 :: ca :: X) D _ _ _ E6) as (H6 & L6 & C6 & B6); [lia | lia | |].
    { eapply filled_weaken; [exact H5 | sub_in | done]. }
    apply run_bind in Et as (? & o7 & E7 & Et).
    destruct (select_fills b2 (ca :: X) D _ _ _ E7 H6) as (H7 & L7 & C7 & B7).
    { intros b Hb. assert (b = ca) as -> by congruence. right. left. left. }
    apply run_bind in Et as (t2 & o8 & E8 & Et). destruct (case_test_fills _ _ _ _ _ _ _ _ E8 H7) as (H8 & L8 & B8).
    assert (Es : (_ ← out_ctrl_branch t2 ca cb; out_current_blk ca) o8 = Ok (tt, o')) by (by rewrite (G_step _ _ _ _ _ Et)).
    destruct (branch_select_fills t2 ca cb ca X D _ _ _ Es) as (H9 & L9 & C9 & B9); [lia | lia | done |].
    split_and!; [done | lia |]. exists cb. congruence.
  - apply run_bind in Et as (t1 & o4 & E4 & Et). destruct (case_test_fills _ _ _ _ _ _ _ _ E4 H2) as (H4 & L4 & B4).
    assert (Es : (_ ← out_ctrl_branch t1 cb ca; out_current_blk ca) o4 = Ok (tt, o')) by (by rewrite (G_step _ _ _ _ _ Et)).
    destruct (branch_select_fills t1 cb ca ca X D _ _ _ Es) as (H9 & L9 & C9 & B9); [lia | lia | done |].
    split_and!; [done | lia |]. exists cb. congruence.
Qed.

Lemma gen_cases_fills v cases X D : forall o o',
  gen_cases v cases o = Ok (tt, o') -> filled X D o -> NoDup (map c_stmt cases) ->
  (forall c, c ∈ map c_stmt cases -> K (Cse c) /\ label_to_blk o !! Cse c = None) ->
  filled X D o' /\ kept (map Cse (map c_stmt cases)) o o'.
Proof.
  induction cases as [|c cases IH]; intros o o' Ex Ho Hnd HK; cbn [gen_cases] in Ex.
  { injection Ex as <-. split; [done | by apply kept_same]. }
  apply run_bind in Ex as ([] & o1 & E1 & Ex). simpl in Hnd, HK. apply NoDup_cons in Hnd as [Hc Hnd].
  destruct (HK (c_stmt c) ltac:(left)) as [HKc Hn].
  destruct (gen_case_fills v c X D o o1 E1 Ho HKc Hn) as (H1 & L1 & b & B1).
  destruct (IH o1 o' Ex H1 Hnd) as [H2 [L2 K2]].
  { intros c' Hc'. destruct (HK c' ltac:(by right)) as [HK' Hn']. split; [done|].
    rewrite B1, lookup_insert_ne by congruence. done. }
  split; [done|]. split; [lia|]. intros k b' Hk. simpl. rewrite elem_of_cons.
  destruct (K2 k b' Hk) as [Hk1 | [? | ?]]; [|by auto|by auto]. rewrite B1 in Hk1.
  apply lookup_insert_Some in Hk1 as [[<- _] | [_ ?]]; auto.
Qed.

Lemma switch_fills sc e cases d lhs :
  stmt_fills lhs -> NoDup (own_cases cases d) -> (forall c, c ∈ own_cases cases d <-> c ∈ frees lhs) ->
  (forall k, k ∈ labels lhs -> K k) -> stmt_fills (s_switch sc e cases d lhs).
Proof using exprs_fill.
  intros Hl Hnd Hcs HK v X D o o' Ex Ho Hv Hf. simpl in Ex. unfold gen_stmt_switch in Ex.
  apply run_bind in Ex as (se & o1 & E1 & Ex). destruct (new_filled _ _ _ _ _ E1 Ho) as (H1 & L1 & C1 & B1).
  apply run_bind in Ex as (? & o2 & E2 & Ex). destruct (block_decls_fills sc _ _ _ _ _ E2 H1) as (H2 & L2 & B2).
  apply run_bind in Ex as (cmp & o3 & E3 & Ex). destruct (exprs_fill e _ _ _ _ _ E3 H2) as (H3 & L3 & B3).
  assert (Hown : forall c, c ∈ own_cases cases d -> K (Cse c) /\ label_to_blk o3 !! Cse c = None).
  { intros c Hc. apply Hcs, frees_labels in Hc. split; [by apply HK|].
    replace (label_to_blk o3) with (label_to_blk o) by congruence. apply Hf; [done | by intros Hx; inversion Hx]. }
  unfold own_cases in *. apply NoDup_app in Hnd as (Hnd & Hdis & _).
  apply run_bind in Ex as ([] & o4 & E4 & Ex).
  destruct (gen_cases_fills cmp cases _ _ _ _ E4 H3 Hnd) as [H4 [L4 K4]].
  { intros c Hc. apply Hown, elem_of_app. by left. }
  apply run_bind in Ex as (dest & o5 & E5 & Ex).
  assert (H5 : filled (se :: X) D o5 /\ (length (blocks o4) <= length (blocks o5))%nat /\ (dest < length (blocks o5))%nat /\
    forall k b, label_to_blk o5 !! k = Some b -> label_to_blk o4 !! k = Some b \/ exists c, d = Some c /\ k = Cse c).
  { destruct d as [d|].
    - assert (Hd : d ∈ map c_stmt cases ++ [d]) by (apply elem_of_app; right; left).
      destruct (new_case_fills _ _ _ _ _ _ E5 H4) as (H5 & L5 & B5 & C5 & Hdest & _); [by apply Hown | |].
      + destruct (label_to_blk o4 !! Cse d) as [b|] eqn:Hb; [|done].
        destruct (K4 _ _ Hb) as [Hb' | [Hx | [l [=]]]].
        * destruct (Hown d Hd) as [_ Hx]. congruence.
        * apply list_elem_of_fmap in Hx as (c & [= <-] & Hx). destruct (Hdis d Hx). by left.
      + split_and!; [done | lia | lia |]. intros k b. rewrite B5.
        intros [[<- _] | [_ ?]]%lookup_insert_Some; eauto.
    - injection E5 as <- <-. split_and!; [done | lia | lia | auto]. }
  destruct H5 as (H5 & L5 & Ld & K5).
  apply run_bind in Ex as (? & o6 & E6 & Ex). destruct (jump_fills _ _ _ _ _ _ E6 Ld H5) as (H6 & [L6 C6] & B6).
  apply run_bind in Ex as (bd & o7 & E7 & Ex). destruct (new_filled _ _ _ _ _ E7 H6) as (H7 & L7 & C7 & B7).
  apply run_bind in Ex as (? & o8 & E8 & Ex).
  destruct (select_ended bd (se :: X) D _ _ _ E8 H7) as (H8 & L8 & C8 & B8); [left; congruence|].
  apply run_bind in Ex as ([] & o9 & E9 & Ex). apply run_bind in Ex as ([] & o10 & E10 & Ex).
  assert (K8 : forall k b, label_to_blk o8 !! k = Some b ->
    label_to_blk o !! k = Some b \/ k ∈ labels lhs \/ exists l, k = Lbl l).
  { intros k b. rewrite B8, B7, B6. intros Hk.
    assert (Hin : forall c, c ∈ map c_stmt cases ++ match d with Some d => [d] | None => [] end -> Cse c ∈ labels lhs).
    { intros c Hc. by apply frees_labels, Hcs. }
    destruct (K5 k b Hk) as [Hk4 | (c & -> & ->)].
    - destruct (K4 k b Hk4) as [Hk3 | [Hx | ?]]; [left; congruence | | by auto].
      apply list_elem_of_fmap in Hx as (c & -> & Hc). right. left. apply Hin, elem_of_app. by left.
    - right. left. apply Hin, elem_of_app. right. left. }
  destruct (part_fills lhs _ se _ _ _ _ _ Hl E9 E10 H8) as (H10 & K10 & C10); [| | lia |].
  { apply break_targets; [lia|]. eapply (targets_le _ _ _ (push_targets sc v _ Hv)). lia. }
  { intros c Hc Hn. destruct (label_to_blk o8 !! Cse c) as [b|] eqn:Hb; [|done]. exfalso.
    rewrite B8, B7, B6 in Hb. assert (Hno : c ∉ map c_stmt cases ++ match d with Some d => [d] | None => [] end) by (by rewrite Hcs).
    destruct (K5 _ _ Hb) as [Hb4 | (c' & -> & [= <-])]; [|apply Hno, elem_of_app; right; left].
    destruct (K4 _ _ Hb4) as [Hb3 | [Hx | [l [=]]]].
    - replace (label_to_blk o3) with (label_to_blk o) in Hb3 by congruence.
      rewrite (Hf c Hc) in Hb3; [done | by intros Hx; inversion Hx].
    - apply list_elem_of_fmap in Hx as (c' & [= <-] & Hx). apply Hno, elem_of_app. by left. }
  pose proof (kp_len _ _ _ K10) as L10.
  apply run_bind in Ex as (? & o11 & E11 & Ex).
  destruct (select_ended se X (labels lhs ++ D) _ _ _ E11 H10 (or_introl C10)) as (H11 & L11 & C11 & B11).
  destruct (scope_end_fills sc (path v) _ _ _ _ _ Ex H11) as (H12 & L12 & B12). split; [done|]. split; [lia|].
  intros k b. rewrite B12, B11. intros Hk. destruct (kp_lbl _ _ _ K10 _ _ Hk) as [Hk' | [? | ?]]; auto.
Qed.

Lemma mustgen_fills b X D o : filled X D o -> (b < length (blocks o))%nat -> filled X D (set_mustgen (mustgen o ++ [b]) o).
Proof.
  intros [H1 H2 H3 H4 H5 H6] Hb. split; try done. simpl. intros c [Hc | ->%list_elem_of_singleton]%elem_of_app; auto.
Qed.

Lemma label_fills l must lhs : stmt_fills lhs -> K (Lbl l) -> stmt_fills (s_label l must lhs).
Proof.
  intros Hl HK v X D o o' Ex Ho Hv Hf. simpl in Ex. unfold gen_stmt_label in Ex.
  apply run_bind in Ex as (b & o1 & E1 & Ex).
  destruct (getblk_fills _ _ _ _ _ _ E1 Ho HK) as (H1 & L1 & Hb & C1 & K1).
  apply run_bind in Ex as (? & o2 & E2 & Ex). destruct (fl_known _ _ _ H1 _ _ Hb) as [_ Hlt].
  assert (H2 : filled X D o2 /\ length (blocks o2) = length (blocks o1) /\ label_to_blk o2 = label_to_blk o1).
  { destruct must; injection E2 as _ <-; [|done]. split; [by apply mustgen_fills | done]. }
  destruct H2 as (H2 & L2 & B2). apply run_bind in Ex as ([] & o3 & E3 & Ex).
  destruct (case_fills' v lhs (Lbl l) X D o2 o3 o' b H2) as [H3 [L3 K3]]; try done.
  - by rewrite B2.
  - eapply targets_le; [exact Hv | lia].
  - intros c Hc Hn. rewrite B2. destruct (label_to_blk o1 !! Cse c) as [b'|] eqn:Hb'; [|done].
    destruct (K1 _ _ Hb') as [Hx | [=]]. rewrite Hf in Hx; [done | by right | done].
  - split; [done|]. split; [lia|]. intros k b' Hk. simpl. rewrite elem_of_cons.
    destruct (K3 k b' Hk) as [Hk' | [? | ?]]; [|by auto|by auto]. rewrite B2 in Hk'. destruct (K1 _ _ Hk'); auto.
Qed.

Lemma case_stmt_fills c lhs : stmt_fills lhs -> NoDup (labels (s_case c lhs)) -> stmt_fills (s_case c lhs).
Proof.
  intros Hl Hnd v X D o o' Ex Ho Hv Hf. simpl in Ex, Hnd. apply NoDup_cons in Hnd as [Hnc _].
  unfold gen_stmt_case in Ex. apply run_bind in Ex as (b & o1 & E1 & Ex).
  unfold case_blk in E1. apply run_bind in E1 as (? & ? & [= <- <-] & E1).
  destruct (label_to_blk o !! Cse c) as [b'|] eqn:Hb; [|done]. injection E1 as <- <-.
  apply run_bind in Ex as ([] & o2 & E2 & Ex).
  destruct (case_fills' v lhs (Cse c) X D o o2 o' b' Ho Hb E2 Ex Hl Hv) as [H3 [L3 K3]].
  { intros c' Hc Hn. apply Hf; [by right|]. simpl. intros [-> | Hx]%elem_of_cons; done. }
  split; [done|]. split; [done|]. intros k b Hk. simpl. rewrite elem_of_cons. destruct (K3 k b Hk) as [? | [? | ?]]; auto.
Qed.

Lemma goto_fills l : K (Lbl l) -> stmt_fills (s_goto l).
Proof using exprs_fill.
  intros HK v X D o o' Ex Ho Hv Hf. simpl in Ex. unfold gen_stmt_goto in Ex.
  apply run_bind in Ex as (? & o1 & E1 & Ex). destruct (leave_fills _ _ _ _ _ _ _ E1 Ho) as (H1 & L1 & B1).
  apply run_bind in Ex as (b & o2 & E2 & Ex).
  destruct (getblk_fills _ _ _ _ _ _ E2 H1 HK) as (H2 & L2 & Hb & C2 & K2). destruct (fl_known _ _ _ H2 _ _ Hb) as [_ Hlt].
  destruct (jump_fills _ _ _ _ _ _ Ex Hlt H2) as (H3 & [L3 C3] & B3). split; [done|]. split; [lia|].
  intros k b'. rewrite B3. intros Hk. destruct (K2 k b' Hk) as [Hk' | ->]; [left; by rewrite <-B1 | eauto].
Qed.

Lemma goto_exp_fills e : stmt_fills (s_goto_exp e).
Proof using exprs_fill.
  intros v X D o o' Ex Ho Hv Hf. simpl in Ex. unfold gen_stmt_goto_exp in Ex.
  apply run_bind in Ex as (x & o1 & E1 & Ex). destruct (exprs_fill e _ _ _ _ _ E1 Ho) as (H1 & L1 & B1).
  unfold out_ctrl_transfer_exp in Ex. apply run_bind in Ex as (? & ? & [= <- <-] & Ex).
  apply run_bind in Ex as (? & o2 & E2 & Ex). destruct (asm_fills _ _ _ _ _ _ E2 H1) as (H2 & L2 & B2).
  destruct (terminate_fills _ _ _ _ _ _ _ Ex H2 eq_refl) as (H3 & [L3 C3] & B3); [by intros c Hx; inversion Hx|].
  split; [done|]. apply kept_same; [lia | congruence].
Qed.

Lemma return_fills e : stmt_fills (s_return e).
Proof using exprs_fill.
  intros v X D o o' Ex Ho Hv Hf. simpl in Ex. destruct Hv as (_ & _ & Hn & Hi).
  rewrite gen_return_plain in Ex by done. unfold gen_ret_exp in Ex.
  apply run_bind in Ex as (r & o1 & E1 & Ex).
  assert (H1 : filled X D o1 /\ (length (blocks o) <= length (blocks o1))%nat /\ label_to_blk o1 = label_to_blk o).
  { destruct e as [e|]; [|by injection E1 as _ <-]. apply run_bind in E1 as (? & ox & E1 & [= _ <-]).
    by apply (exprs_fill e _ _ _ _ _ E1 Ho). }
  destruct H1 as (H1 & L1 & B1). apply run_bind in Ex as (? & o2 & E2 & Ex).
  destruct (leave_fills _ _ _ _ _ _ _ E2 H1) as (H2 & L2 & B2).
  destruct (end_ret_fills _ _ _ _ _ _ Ex H2) as (H3 & [L3 C3] & B3).
  split; [done|]. apply kept_same; [lia | congruence].
Qed.

Lemma all_fill (s : stmt) : forall brk cont, wf_stmt brk cont s -> NoDup (labels s) ->
  (forall k, k ∈ labels s -> K k) -> (forall l, l ∈ gotos s -> K (Lbl l)) -> stmt_fills s.
Proof using exprs_fill.
  assert (Hout : forall (v : env) (j : option (bid * list nat)) w X D (o : ctx) o',
    (match j with Some (b, to) => _ ← gen_scope_leave (path v) to; jump_to b | None => ub w end) o = Ok (tt, o') ->
    (forall b to, j = Some (b, to) -> (b < length (blocks o))%nat) -> filled X D o -> filled X D o' /\ kept [] o o').
  { intros v j w X D o o' Ex Hb Ho. destruct j as [[b to]|]; [|done].
    by apply (leave_jump_fills (path v) to b X D o tt o' Ex (Hb b to eq_refl)). }
  induction s as [|e b|sc ss IH|sc e lhs rhs IHl IHr|sc e lhs IH|e lhs IH|sc i w inc lhs IH
    |sc e cs d lhs IH|c lhs IH|l b lhs IH| l | e | | |e] using stmt_ind'; intros brk cont Hwf Hnd HK Hg; simpl in Hwf, HK, Hg.
  - intros v X D o o' Ex Ho Hv Hf. apply fills_stmt with (v := v); try done. apply fills_ret.
  - intros v X D o o' Ex Ho Hv Hf. apply fills_stmt with (v := v); try done.
    apply fills_bind; [apply exprs_fill|]. intros x. destruct b; [apply asm_fills | apply fills_ret].
  - rewrite fold_and in Hwf. rewrite Forall_forall in IH, Hwf. apply code_fills; [|done]. apply Forall_forall. intros s Hs.
    apply (IH s Hs brk cont (Hwf s Hs)); [by eapply NoDup_part | |].
    + intros k Hk. apply HK. by eapply (in_concat_map labels).
    + intros l Hl. apply Hg. by eapply (in_concat_map gotos).
  - destruct Hwf as [Hw1 Hw2]. pose proof Hnd as Hnd'. simpl in Hnd'. apply NoDup_app in Hnd' as (Hn1 & _ & Hn2).
    apply if_stmt_fills; [| | done].
    + apply (IHl brk cont); try done; intros x Hx; [apply HK | apply Hg]; apply elem_of_app; by left.
    + intros r ->. apply (IHr r eq_refl brk cont); try done; intros x Hx; [apply HK | apply Hg]; apply elem_of_app; by right.
  - apply while_fills. by apply (IH true true).
  - apply do_fills. by apply (IH true true).
  - apply for_fills. by apply (IH true true).
  - destruct Hwf as (Hw & Hnc & Hcs). apply switch_fills; try done. by apply (IH true cont).
  - apply case_stmt_fills; [|done]. simpl in Hnd. apply NoDup_cons in Hnd as [_ Hnd].
    apply (IH brk cont); try done. intros k Hk. apply HK. by right.
  - apply label_fills; [|apply HK; left]. simpl in Hnd. apply NoDup_cons in Hnd as [_ Hnd].
    apply (IH brk cont); try done. intros k Hk. apply HK. by right.
  - apply goto_fills, Hg. left.
  - apply goto_exp_fills.
  - intros v X D o o' Ex Ho Hv Hf. apply (Hout v _ _ X D o o' Ex); [apply Hv | done].
  - intros v X D o o' Ex Ho Hv Hf. apply (Hout v _ _ X D o o' Ex); [apply Hv | done].
  - apply return_fills.
Qed.

End Stmts.
End Fill.

(** ** A function *)

Section Func.
Context {insn jcc addr oval sst E : Type} `{!Backend insn jcc addr oval}.
Context `{!GenExpr insn jcc addr oval sst E}.

Local Notation func_ctx := (func_ctx (insn := insn) (jcc := jcc) (addr := addr) (oval := oval)).

(** No expression leaves a block behind. *)
Class ExprsFill : Prop := exprs_fill (K : key -> Prop) (epi : bid) (e : E) : fills K epi (gen_expr e).
Context `{!ExprsFill}.

(** Every [goto] has its label ([fold_stmt_goto]). *)
Definition gotos_resolved (code : stmt E) : Prop := forall l, l ∈ gotos code -> Lbl l ∈ labels code.

Lemma gen_func_ended (code : stmt E) epilogue o' :
  wf_func code -> gotos_resolved code -> gen_func code epilogue func_ctx = Ok (tt, o') ->
  (forall b blk, blocks o' !! b = Some blk -> type blk <> BLK_UNINIT /\
    forall c, c ∈ succs (type blk) -> (c < length (blocks o'))%nat) /\
  (forall b, b ∈ mustgen o' -> (b < length (blocks o'))%nat) /\ (0 < length (blocks o'))%nat.
Proof using All.
  intros Hwf Hgo Ex. unfold gen_func in Ex. set (K := fun k => k ∈ labels code).
  apply run_bind in Ex as ([] & o1 & E1 & Ex).
  assert (H0 : filled K 1 [1%nat] [] func_ctx).
  { split; simpl; try done; [| | by split; [|lia] | intros k Hk; inversion Hk | intros b Hb; inversion Hb].
    - intros [|[|b]] blk Hb Ht; simpl in Hb; [by left | right; left; left | done].
    - intros [|[|b]] blk c Hb Hc; simpl in Hb; simplify_eq; inversion Hc. }
  destruct (all_fill K 1 (exprs_fill K 1) code false false (proj1 Hwf) (proj1 (proj2 (proj2 Hwf))) ltac:(done) Hgo
    _ _ _ _ _ E1 H0) as [H1 _]; [done | done |]. rewrite app_nil_r in H1.
  destruct (fl_epi _ _ _ _ _ H1) as [He Hlt].
  apply run_bind in Ex as (? & ? & [= <- <-] & Ex). apply run_bind in Ex as ([] & o2 & E2 & Ex).
  assert (H2 : filled K 1 [1%nat] (labels code) o2 /\ current_blk o2 = None).
  { destruct (current_blk o1) as [c|] eqn:Hc; [|by injection E2 as <-]. rewrite He in E2.
    by destruct (jump_fills K 1 1 _ _ _ _ _ E2 Hlt H1) as (H2 & [_ C2] & _). }
  destruct H2 as [H2 C2]. rewrite He in Ex. apply run_bind in Ex as (? & o3 & E3 & Ex).
  destruct (select_ended K 1 1 [] (labels code) _ _ _ E3 H2 (or_introl C2)) as (H3 & L3 & C3 & B3).
  apply run_bind in Ex as (? & o4 & E4 & Ex). destruct (asm_fills K 1 epilogue _ _ _ _ _ E4 H3) as (H4 & L4 & B4).
  destruct (terminate_fills K 1 _ _ _ _ _ _ _ Ex H4 eq_refl) as (H5 & [L5 C5] & B5); [by intros c Hx; inversion Hx|].
  destruct H5 as [F1 F2 F3 F4 F5 F6]. split_and!; [| done | lia].
  intros b blk Hb. split; [|intros c Hx; by eapply F2]. intros Ht.
  destruct (F1 b blk Hb Ht) as [Hx | [Hx | (k & Hk & Hlk)]]; [congruence | inversion Hx |].
  destruct (F4 k b Hlk) as [HK _]. done.
Qed.

End Func.
