(* ===== verification/Compile.v ===== *)
(** * Functions, from statements to lines of assembly

    The parts together: the body of a function becomes blocks (Flow, FlowFunc),
    every block is ended (FlowFill), and the blocks become lines (Flush). *)

From S2P Require Import Prelude Blk Flow Flush FlowLaws FlowExpr FlowSem FlowFunc FlowFill FlowMachine.
From stdpp Require Import relations.
Local Open Scope Z_scope.

Section Compile.
Context {insn jcc addr oval sst mst E : Type}.
Context `{!Backend insn jcc addr oval} `{!Machine insn jcc addr mst}.
Context (R : sst -> mst -> Prop) (denotes : oval -> mst -> Z -> Prop).
Context (live : nat -> oval -> Prop) (returned : mst -> Z -> Prop).
Context `{Laws : !BackendOk R denotes live returned}.
Context `{!GenExpr insn jcc addr oval sst E} `{ExprLaws : !GenExprOk R denotes live E}.
Context `{Fills : !ExprsFill (insn := insn) (jcc := jcc) (addr := addr) (oval := oval) (sst := sst) (E := E)}.

Local Notation func_ctx := (func_ctx (insn := insn) (jcc := jcc) (addr := addr) (oval := oval)).
Local Notation ctx := (out_ctx insn jcc addr oval).

(** The blocks of a function are ready to be written out. *)
Lemma func_complete (code : stmt E) epilogue o' :
  wf_func code -> gotos_resolved code -> gen_func code epilogue func_ctx = Ok (tt, o') ->
  complete (blocks o') (0%nat :: mustgen o').
Proof using Fills.
  intros Hwf Hgo Ex. destruct (gen_func_ended code epilogue o' Hwf Hgo Ex) as (Hall & Hm & H0).
  apply complete_closed; [done|]. intros b [-> | Hb]%elem_of_cons; auto.
Qed.

(** C1: Compiling a function, from its statements to its lines of assembly,
    fails no assertion, meets no NULL block and comes to an end; and the lines
    take a machine from the function's label to its epilogue as the body runs
    in C, with its jumps, scopes and clean-ups, switches and loops, and whether
    or not jumps are threaded: when the call ends in state [s'] with a value,
    the machine is after the label of the epilogue in a state that stands for
    [s'], with the value in the return register. The body is one that folding
    accepts: [break], [continue], [case] and labels have their places, each
    [goto] its label. The parts beside control flow are behind interfaces whose
    promises are assumed: the value side of the back end keeps states and
    values, compares a case's number as a number and branches as it should
    ([BackendOk]); the expressions generate code that computes their values
    ([GenExprOk]) and leave no block without an end ([ExprsFill]), which
    FlowExpr and FlowFill prove of [&&], [||], [?:] and comma as long as an arm
    of each [?:] returns (a [?:] with none meets the NULL block of C34). A
    computed [goto] is generated like any statement, to a block that must be
    kept, but a run that reaches one has no meaning here, so nothing is said of
    it. The function is generated on its own, not inline into another, and its
    returns are not checked by the returns-nonnull sanitizer. *)
Theorem func_compiled (thread_jumps : bool) (code : stmt E) (epilogue : list insn) :
  wf_func code -> gotos_resolved code ->
  (forall o' a (m : mst) n, gen_func code epilogue func_ctx = Ok (tt, o') -> target a m = Some n -> n ∈ mustgen o') ->
  exists o' ls, gen_func code epilogue func_ctx = Ok (tt, o') /\
    blk_flushall (blocks o') (merge_preds o') thread_jumps (mustgen o') 0 = Ok ls /\
    forall n s m x s', exec_func n code s = Some (x, s') -> R s m ->
      exists start end_ m', ls !! start = Some (ALabel 0%nat) /\ ls !! end_ = Some (ALabel 1%nat) /\
        rtc (lstep ls) (start, m) (S end_, m') /\ R s' m' /\ forall k, x = Some k -> returned m' k.
Proof using Laws ExprLaws Fills.
  intros Hwf Hgo Ht. destruct (gen_func_runs R denotes live returned code epilogue Hwf) as (o' & Ex & Hepi & Hrun).
  pose proof (func_complete code epilogue o' Hwf Hgo Ex) as Hc.
  destruct (flush_ok (blocks o') (merge_preds o') thread_jumps (mustgen o') 0 Hc) as (ls & Hls & _).
  exists o', ls. split_and!; [done | done |]. intros n s m x s' He HR.
  destruct (Hrun n s m x s' He HR) as (m' & Hr & HR' & Hret).
  assert (Htr : forall b blk a (m : mst) n, reach (blocks o') (0%nat :: mustgen o') b -> blocks o' !! b = Some blk ->
    type blk = BLK_NEXT_EXPR a -> target a m = Some n -> reach (blocks o') (0%nat :: mustgen o') n).
  { intros b blk a m0 n0 _ _ _ Hta. apply reach_root. right. by eapply Ht. }
  destruct (flush_runs (blocks o') (merge_preds o') thread_jumps (mustgen o') 0 ls 1 0 m m' _ Hc Htr Hls Hr Hepi eq_refl)
    as (q0 & q & Hq0 & Hq & R').
  exists q0, q, m'. rewrite Nat.add_0_r in R'. by split_and!.
Qed.

End Compile.

(** ** The program of FlowMachine *)

Lemma in_slot_fills K epi code : fills K epi (in_slot code).
Proof.
  apply fills_bind; [apply new_val_fills|]. intros k. apply fills_bind; [apply asm_fills|]. intros _. apply fills_ret.
Qed.

Lemma leaf_fills K epi e : fills K epi (gen_leaf e).
Proof.
  induction e as [n|x|x e IH|a IHa b IHb|a IHa b IHb|]; cbn [gen_leaf].
  - apply fills_ret.
  - apply in_slot_fills.
  - apply fills_bind; [exact IH|]. intros v. apply fills_bind; [apply asm_fills|]. intros _. apply fills_ret.
  - apply fills_bind; [exact IHa|]. intros va. apply fills_bind; [exact IHb|]. intros vb. apply in_slot_fills.
  - apply fills_bind; [exact IHa|]. intros va. apply fills_bind; [exact IHb|]. intros vb. apply in_slot_fills.
  - apply fills_bind; [apply end_undefined_fills|]. intros _. apply fills_ret.
Qed.

#[global] Instance cond_fills : ExprsFill (sst := vst) (E := cond).
Proof. intros K epi e. apply cexpr_fills. intros l. apply leaf_fills. Qed.

Lemma prog_resolved : gotos_resolved prog.
Proof. intros l ->%list_elem_of_singleton. by apply (bool_decide_unpack _). Qed.

(** The program, compiled and run: it returns 14 and leaves -86 in [s]. *)
Theorem func_compiled_witness :
  exists (o' : out_ctx instr jz operand operand) ls start end_ (m' : mach),
    (gen_func prog [IUd2] : G instr jz operand operand unit) func_ctx = Ok (tt, o') /\
    blk_flushall (blocks o') (merge_preds o') true (mustgen o') 0 = Ok ls /\
    ls !! start = Some (ALabel 0%nat) /\ ls !! end_ = Some (ALabel 1%nat) /\
    rtc (lstep ls) (start, mach0) (S end_, m') /\ retreg m' = 14 /\ vars m' 0%nat = -86.
Proof.
  destruct (func_compiled same_vars is_value made in_retreg true prog [IUd2] prog_wf prog_resolved)
    as (o' & ls & Ex & Hls & Hrun); [done|].
  destruct prog_runs as (s' & Hs & Hx).
  destruct (Hrun 40%nat vars0 mach0 _ s' Hs eq_refl) as (st & en & m' & H1 & H2 & H3 & HR & Hret).
  exists o', ls, st, en, m'. split; [exact Ex | split; [exact Hls | split; [exact H1 | split; [exact H2 | split;
    [exact H3 | split; [exact (Hret 14 eq_refl)|]]]]]].
  unfold same_vars in HR. rewrite HR. exact Hx.
Defined.

(** The lines of [{ while(x){ if(x < 3) break; else x -= 1; } return x; }]:
    the loop's test is after its body, [break] is threaded to where the loop
    ends. *)
Definition countdown : stmt cond :=
  s_code (no_decls 0)
    [ s_while (no_decls 1) (e_ (Get 0))
        (s_if (no_decls 2) (e_ (Less (Get 0) (Num 3))) s_break (Some (s_expr (inc 0 (-1)) false)));
      s_return (Some (e_ (Get 0))) ].

Definition lines (code : stmt cond) : res (list (line (insn := instr) (jcc := jz) (addr := operand))) :=
  '(_, o) ← (gen_func code [IUd2] : G instr jz operand operand unit) func_ctx;
  blk_flushall (blocks o) (merge_preds o) true (mustgen o) 0.

Example countdown_lines : lines countdown = Ok
  [ ALabel 0; AJmp 3;
    ALabel 5; ALabel 4; AInsn (ILoad 5 0); AInsn (IRet (VSlot 5));
    ALabel 1; AInsn IUd2;
    ALabel 6; AInsn (ILoad 3 0); AInsn (ISub 4 (VSlot 3) (VConst 1)); AInsn (IStore 0 (VSlot 4));
    ALabel 7;
    ALabel 3; AInsn (ILoad 0 0); AJcc (VSlot 0) 4;
    ALabel 2; AInsn (ILoad 1 0); AInsn (ILess 2 (VSlot 1) (VConst 3)); AJcc (VSlot 2) 6; AJmp 5 ]%nat.
Proof. vm_compute. reflexivity. Qed.
