(* ===== verification/Passable.v ===== *)
(** * Falling off the end of a function: the passability checks of stmt_*.c,
    stmt.c and fold.c

    [fold_passable] asks of each statement whether control can reach what
    follows it, gotos followed to their labels; [fold_func_is_passable] and the
    [return 0] that C99 gives [main] are decided by it.  Over the statements and
    the meaning of Flow: the answer "no" is right of statements that are
    [surveyed], and the examples at the end are statements that are not. *)

From S2P Require Import Prelude Blk Flow FlowLaws FlowExpr FlowMachine.
Local Open Scope Z_scope.

(** ** What is asked of expressions *)

(** The kinds [expr_passable] tells apart: calls, with or without the
    [noreturn] attribute, statement expressions, by what [fold_passable] says of
    their code, built-in calls, and the rest. *)
Inductive expr_kind : Type :=
  | k_funcall (noreturn : bool)
  | k_stmt (passable : res bool)
  | k_builtin (noreturn : bool)
  | k_other.

Class PassExpr (E : Type) : Type := mk_pass_expr {
  kind : E -> expr_kind;
  const_expr_and_non_zero : E -> bool }.
#[global] Hint Mode PassExpr ! : typeclass_instances.

Section Passable.
Context {E : Type} `{!PassExpr E}.

Local Notation stmt := (stmt E).

Definition expr_func_passable (noreturn : bool) : bool := negb noreturn.

Definition expr_passable (e : E) : res bool :=
  match kind e with
  | k_funcall noreturn => Ok (expr_func_passable noreturn)
  | k_stmt passable => passable
  | k_builtin noreturn => Ok (negb noreturn)
  | k_other => Ok true
  end.

(** ** Walking a statement *)

(** [enter] gives the new data, whether to stop and whether to descend; the
    walk gives the data and whether it was stopped. *)
Section Walk.
Context {D : Type} (enter : stmt -> D -> D * bool * bool) (leave : stmt -> D -> D).

Definition stmt_walk_list (walk : stmt -> D -> D * bool) : list stmt -> D -> D * bool :=
  fix go l data :=
    match l with
    | [] => (data, false)
    | s :: l => let '(data, stop) := walk s data in if stop then (data, true) else go l data
    end.

Fixpoint stmt_walk2 (base : stmt) (data : D) {struct base} : D * bool :=
  let '(data, stop, descend) := enter base data in
  if stop then (data, true)
  else
    let fin '((data, stop) : D * bool) := if (stop : bool) then (data, true) else (leave base data, false) in
    if negb descend then fin (data, false)
    else
      match base with
      | s_while _ _ lhs | s_do _ lhs | s_for _ _ _ _ lhs | s_switch _ _ _ _ lhs | s_case _ lhs
      | s_label _ _ lhs => fin (stmt_walk2 lhs data)
      | s_if _ _ lhs rhs =>
          let '(data, stop) := stmt_walk2 lhs data in
          if stop then (data, true)
          else match rhs with Some rhs => fin (stmt_walk2 rhs data) | None => fin (data, false) end
      | s_code _ stmts =>
          (* a stop inside a compound statement only breaks out of its loop *)
          let '(data, stop) := stmt_walk_list stmt_walk2 stmts data in (leave base data, stop)
      | _ => fin (data, false)
      end.

Definition stmt_walk (base : stmt) (data : D) : D := (stmt_walk2 base data).1.

End Walk.

Definition stmt_walk_first_return (current : stmt) (store : option stmt) : option stmt * bool * bool :=
  match current with s_return _ => (Some current, true, true) | _ => (store, false, true) end.

Record walk_info : Type := mk_walk { escape : option stmt; switch_depth : nat }.

Definition stmt_walk_first_break_goto (current : stmt) (wi : walk_info) : walk_info * bool * bool :=
  let found := (mk_walk (Some current) (switch_depth wi), true, true) in
  match current with
  | s_break => if Nat.eqb (switch_depth wi) 0 then found else (wi, false, true)
  | s_goto _ | s_goto_exp _ => found
  | s_switch _ _ _ _ _ => (mk_walk (escape wi) (S (switch_depth wi)), false, true)
  | _ => (wi, false, true)
  end.

Definition stmt_walk_switch_leave (current : stmt) (wi : walk_info) : walk_info :=
  match current with
  | s_switch _ _ _ _ _ => mk_walk (escape wi) (Nat.pred (switch_depth wi))
  | _ => wi
  end.

Definition fold_code_escapable (s : stmt) : bool :=
  match escape (stmt_walk stmt_walk_first_break_goto stmt_walk_switch_leave s (mk_walk None 0)) with
  | Some _ => true
  | None => false
  end.

(** ** Passability *)

Definition code_passable (fold_passable : stmt -> res bool) : list stmt -> res bool :=
  fix go l :=
    match l with
    | [] => Ok true
    | sub :: l => p ← fold_passable sub; if (p : bool) then go l else Ok false
    end.

Definition if_passable (fold_passable : stmt -> res bool) (lhs : stmt) (rhs : option stmt) : res bool :=
  p ← match rhs with Some rhs => fold_passable rhs | None => Ok true end;
  if (p : bool) then Ok true else fold_passable lhs.

Definition do_passable (fold_passable : stmt -> res bool) (e : E) (lhs : stmt) : res bool :=
  p ← fold_passable lhs;
  if negb p then Ok false else if const_expr_and_non_zero e then Ok false else Ok true.

Definition while_passable (e : E) (lhs : stmt) : bool :=
  if const_expr_and_non_zero e then fold_code_escapable lhs else true.

Definition for_passable (for_while : option E) (lhs : stmt) : bool :=
  match for_while with
  | Some w => if const_expr_and_non_zero w then fold_code_escapable lhs else true
  | None => fold_code_escapable lhs
  end.

Definition switch_passable (cases : list case_) : bool := true.

(** [next_stmt] is the labels' [next_stmt], [doing] the labels whose
    [doing_passable_check] is set; [hops] bounds the gotos followed. *)
Fixpoint fold_passable (hops : nat) (next_stmt : string -> option stmt) (doing : list string) {struct hops} :
    stmt -> res bool :=
  fix go (s : stmt) : res bool :=
    match s with
    | s_noop => Ok true
    | s_expr e _ => expr_passable e
    | s_code _ stmts => code_passable go stmts
    | s_if _ _ lhs rhs => if_passable go lhs rhs
    | s_while _ e lhs => Ok (while_passable e lhs)
    | s_do e lhs => do_passable go e lhs
    | s_for _ _ for_while _ lhs => Ok (for_passable for_while lhs)
    | s_switch _ _ cases _ _ => Ok (switch_passable cases)
    | s_case _ lhs | s_label _ _ lhs => go lhs
    | s_goto spel =>
        match next_stmt spel with
        | None => Ok true
        | Some next =>
            if bool_decide (spel ∈ doing) then Ok false
            else match hops with
                 | O => NoFuel
                 | S hops => fold_passable hops next_stmt (spel :: doing) next
                 end
        end
    | s_goto_exp _ | s_break | s_continue | s_return _ => Ok false
    end.

(** The labelled statements in the order [fold_stmt] meets them. *)
Fixpoint label_stmts (s : stmt) : list (string * stmt) :=
  match s with
  | s_code _ ss => concat (map label_stmts ss)
  | s_if _ _ lhs rhs => label_stmts lhs ++ match rhs with Some r => label_stmts r | None => [] end
  | s_while _ _ lhs | s_do _ lhs | s_for _ _ _ _ lhs | s_switch _ _ _ _ lhs | s_case _ lhs => label_stmts lhs
  | s_label l _ lhs => (l, s) :: label_stmts lhs
  | _ => []
  end.

Definition next_stmt (code : stmt) (spel : string) : option stmt :=
  snd <$> List.find (fun x => bool_decide (x.1 = spel)) (rev (label_stmts code)).

(** The check of a function's statement: each hop sets a label's flag. *)
Definition passable_in (code s : stmt) : res bool :=
  fold_passable (length (label_stmts code)) (next_stmt code) [] s.

Fixpoint stmt_label_leaf (s : stmt) : stmt :=
  match s with s_label _ _ lhs | s_case _ lhs => stmt_label_leaf lhs | _ => s end.

Definition stmt_is_switchlabel (s : stmt) : bool :=
  match s with s_case _ _ => true | _ => false end.

Definition stmt_kills_below_code (passable : stmt -> res bool) (s : stmt) : res bool :=
  p ← passable s;
  if negb p then Ok true
  else
    match s with
    | s_case _ _ | s_label _ _ _ => p ← passable (stmt_label_leaf s); Ok (negb p)
    | _ => Ok false
    end.

(** ** Functions *)

Definition fold_func_is_passable (noreturn void_ret : bool) (code : stmt) : res bool :=
  if noreturn then passable_in code code
  else if negb void_ret then passable_in code code
  else Ok false.

(** The end of [fold_global_func]: what is added to the code of [main], and
    otherwise whether to warn.  [zero] is the expression 0. *)
Definition fold_func_end (zero : E) (noreturn void_ret c99 hosted_main : bool) (code : stmt) : res (stmt * bool) :=
  passable ← fold_func_is_passable noreturn void_ret code;
  if (passable : bool) then
    if c99 && hosted_main then
      match code with
      | s_code symtab stmts => Ok (s_code symtab (stmts ++ [s_return (Some zero)]), false)
      | _ => Ice "no code"
      end
    else Ok (code, negb void_ret)
  else Ok (code, false).

End Passable.

Arguments walk_info : clear implicits.

(** ** The gotos followed end *)

Section Termination.
Context {E : Type} `{!PassExpr E}.

Local Notation stmt := (stmt E).

(** Statement expressions are checked, too. *)
Definition kinds_fueled : Prop := forall e : E, fueled (expr_passable e).

Lemma next_stmt_label (code s : stmt) (l : string) :
  next_stmt code l = Some s -> l ∈ map fst (label_stmts code).
Proof.
  unfold next_stmt. intros H. destruct (List.find _ _) as [x|] eqn:F; [|discriminate].
  apply List.find_some in F as [F F']. apply bool_decide_eq_true in F' as <-.
  apply list_elem_of_In, in_map. by apply in_rev.
Qed.

Lemma code_passable_fueled (go : stmt -> res bool) (ss : list stmt) :
  Forall (fun s => fueled (go s)) ss -> fueled (code_passable go ss).
Proof.
  induction 1 as [|s ss Hs _ IH]; [done|]. simpl.
  apply fueled_bind; [done|]. by intros [] _.
Qed.

Lemma fold_passable_fueled (code : stmt) (K : kinds_fueled) (hops : nat) (doing : list string) :
  NoDup doing -> doing ⊆ map fst (label_stmts code) ->
  (length (label_stmts code) <= hops + length doing)%nat ->
  forall s, fueled (fold_passable hops (next_stmt code) doing s).
Proof.
  revert doing. induction hops as [|hops IH]; intros doing N S L s;
    induction s using stmt_ind'; simpl; try done; try exact (K e); auto using code_passable_fueled.
  1, 4: apply fueled_bind; [destruct rhs; [by eauto | done] | by intros [] _].
  1, 3: apply fueled_bind; [done |]; intros [] _; simpl; [by destruct (const_expr_and_non_zero _) | done].
  all: destruct (next_stmt code l) as [next|] eqn:Hl; [|done]; apply next_stmt_label in Hl;
    case_bool_decide as D; [done|].
  - exfalso. apply D. assert (P : map fst (label_stmts code) ⊆ doing).
    { assert (submseteq doing (map fst (label_stmts code))) as P by (apply NoDup_submseteq; auto).
      apply submseteq_length_Permutation in P; [|rewrite length_map; lia].
      intros x. by rewrite P. }
    by apply P.
  - apply IH; [by constructor | set_solver | simpl; lia].
Qed.

(** the passability check of a function always ends: following gotos to
    their labels, flags set on the way, never takes more hops than the function
    has labels. *)
Theorem passable_ends (code s : stmt) : kinds_fueled -> fueled (passable_in code s).
Proof. intros K. apply fold_passable_fueled; [done | by constructor | set_solver | simpl; lia]. Qed.

End Termination.

(** ** Loops that are left *)

Section Escape.
Context {E : Type}.

Local Notation stmt := (stmt E).

(** A [break] that leaves a loop around [s], [d] switches in between, or a goto. *)
Fixpoint escapes (d : nat) (s : stmt) : bool :=
  match s with
  | s_code _ ss => existsb (escapes d) ss
  | s_if _ _ lhs rhs => escapes d lhs || match rhs with Some r => escapes d r | None => false end
  | s_while _ _ lhs | s_do _ lhs | s_for _ _ _ _ lhs | s_case _ lhs | s_label _ _ lhs => escapes d lhs
  | s_switch _ _ _ _ lhs => escapes (S d) lhs
  | s_goto _ | s_goto_exp _ => true
  | s_break => Nat.eqb d 0
  | _ => false
  end.

(** The walk from a state in which nothing was found. *)
Definition walked (d : nat) (b : bool) (r : walk_info E * bool) : Prop :=
  if b then r.2 = true /\ is_Some (escape r.1) else r = (mk_walk None d, false).

(** What follows the walk of a part. *)
Lemma walked_on (k k' : nat) (b : bool) (r : walk_info E * bool) (on : walk_info E -> walk_info E * bool) :
  walked k b r -> on (mk_walk None k) = (mk_walk None k', false) ->
  walked k' b (let '(w, stop) := r in if (stop : bool) then (w, true) else on w).
Proof.
  unfold walked. destruct b, r as [w stop]; simpl; [by intros [-> ?]|]. by intros [= -> ->].
Qed.

Lemma walked_or (k : nat) (b b' : bool) (r : walk_info E * bool) (on : walk_info E -> walk_info E * bool) :
  walked k b r -> walked k b' (on (mk_walk None k)) ->
  walked k (b || b') (let '(w, stop) := r in if (stop : bool) then (w, true) else on w).
Proof.
  unfold walked. destruct b, r as [w stop]; simpl; [by intros [-> ?]|]. by intros [= -> ->].
Qed.

Lemma walk_escapes (s : stmt) (k : nat) :
  walked k (escapes k s) (stmt_walk2 stmt_walk_first_break_goto stmt_walk_switch_leave s (mk_walk None k)).
Proof.
  revert k. induction s using stmt_ind'; intros k; simpl; try done; try exact (walked_on k k _ _ _ (IHs k) eq_refl).
  - (* code *)
    assert (walked k (existsb (escapes k) ss)
      (stmt_walk_list (stmt_walk2 stmt_walk_first_break_goto stmt_walk_switch_leave) ss (mk_walk None k))) as W.
    { induction H as [|s ss Hs _ IH]; [done|]. exact (walked_or k _ _ _ _ (Hs k) IH). }
    unfold walked in *. destruct (existsb _ _); [|by rewrite W]. by destruct (stmt_walk_list _ _ _).
  - apply walked_or; [apply IHs|]. destruct rhs as [r|]; [|done].
    exact (walked_on k k _ _ _ (H r eq_refl k) eq_refl).
  - exact (walked_on (S k) k _ _ _ (IHs (S k)) eq_refl).
  - by destruct k.
Qed.

Lemma escapable_escapes (s : stmt) : fold_code_escapable s = escapes 0 s.
Proof.
  unfold fold_code_escapable, stmt_walk. pose proof (walk_escapes s 0) as W. unfold walked in W.
  destruct (escapes 0 s); [by destruct W as [_ [x ->]] | by rewrite W].
Qed.

End Escape.

(** ** Statements that are not passed *)

Class PassExprOk (insn jcc addr oval sst E : Type) `{!GenExpr insn jcc addr oval sst E, !PassExpr E} : Prop :=
  mk_pass_expr_ok {
    non_zero_ok (e : E) (s s' : sst) (x : Z) : const_expr_and_non_zero e = true -> eval e s = Some (s', x) -> x <> 0;
    noreturn_ok (e : E) (s : sst) : expr_passable e = Ok false -> eval e s = None }.

Section Sound.
Context {insn jcc addr oval sst E : Type} `{!GenExpr insn jcc addr oval sst E, !PassExpr E}.

Local Notation stmt := (stmt E).
Local Notation runner := (@runner sst E).

(** *** How the parts of a statement are entered *)

Definition enters (en en' : entry) : Prop := en' = Start \/ en' = en /\ exists k, en = At k.

(** The last expression a statement evaluates before going on, false or true. *)
Definition tests (e : E) (b : bool) : Prop := exists s s' x, eval e s = Some (s', x) /\ (x =? 0) = negb b.

Lemma if_inv (n : nat) (sc : Flow.scope E) (e : E) (lhs : stmt) (rhs : option stmt) (en : entry) (s : sst) (r : outcome * sst) :
  exec_stmt (S n) (s_if sc e lhs rhs) en s = Some r ->
  exists r0, unscope (exec_stmt n) (s_if sc e lhs rhs) sc r0 = Some r /\
  ((exists en' s', enters en en' /\ (exec_stmt n lhs en' s' = Some r0 \/ exists r, rhs = Some r /\ exec_stmt n r en' s' = Some r0)) \/
   rhs = None /\ r0.1 = Normal).
Proof.
  simpl. intros R. apply bind_Some in R as (r0 & Q & R). exists r0. split; [done|].
  assert (forall en' s', enters en en' -> match rhs with Some r => exec_stmt n r en' s' | None => Some (Normal, s') end = Some r0 ->
    (exists en' s', enters en en' /\ (exec_stmt n lhs en' s' = Some r0 \/ exists r, rhs = Some r /\ exec_stmt n r en' s' = Some r0)) \/
    rhs = None /\ r0.1 = Normal) as O.
  { intros en' s' N Q'. destruct rhs as [st|]; [left; eauto 7 | right; by simplify_eq]. }
  destruct en as [|k|]; [|destruct (holds lhs k); [left | eapply O, Q]; unfold enters; eauto 10|].
  all: apply bind_Some in Q as (s1 & _ & Q); apply bind_Some in Q as ([s2 x] & _ & Q);
    destruct (x =? 0); [eapply O, Q; by left | left; exists Start, s2; split; [by left | by left]].
Qed.

Lemma while_inv (n : nat) (sc : Flow.scope E) (e : E) (lhs : stmt) (en : entry) (s : sst) (r : outcome * sst) :
  let un := unscope (exec_stmt n) (s_while sc e lhs) sc in
  exec_stmt (S n) (s_while sc e lhs) en s = Some r ->
  (exists s', tests e false /\ un (Normal, s') = Some r) \/
  (exists en' s' r0, enters en en' /\ exec_stmt n lhs en' s' = Some r0 /\
    loop_round (exec_stmt n (s_while sc e lhs) Again) un r0 = Some r).
Proof.
  simpl. intros R. unfold enters, tests.
  destruct en as [|k|]; [|apply bind_Some in R as (r0 & Q & R); right; eauto 10|].
  all: apply bind_Some in R as (s1 & _ & R); apply bind_Some in R as ([s2 x] & V & R); destruct (x =? 0) eqn:Z.
  1, 3: left; exists s2; eauto 8.
  all: apply bind_Some in R as (r0 & Q & R); right; eauto 10.
Qed.

Lemma do_inv (n : nat) (e : E) (lhs : stmt) (en : entry) (s : sst) (r : outcome * sst) :
  exec_stmt (S n) (s_do e lhs) en s = Some r ->
  exists en' s' r0, enters en en' /\ exec_stmt n lhs en' s' = Some r0 /\
  ((r0.1 = Normal \/ r0.1 = Cont) /\
     ((r.1 = Normal /\ tests e false) \/ exists s'', exec_stmt n (s_do e lhs) Again s'' = Some r) \/
   r0.1 = Brk /\ r.1 = Normal \/ (forall o : bool, r0.1 <> if o then Brk else Cont) /\ r0.1 <> Normal /\ r = r0).
Proof.
  simpl. intros R. apply bind_Some in R as (r0 & Q & R).
  assert (exists en' s', enters en en' /\ exec_stmt n lhs en' s' = Some r0) as (en' & s' & N & X).
  { unfold enters. destruct en; eauto 10. }
  exists en', s', r0. do 2 (split; [done|]). destruct r0 as [out s0]. unfold loop_round in R. unfold tests.
  destruct out; simpl in R; simpl; simplify_eq; auto; try (right; right; split; [by intros []|done]).
  all: left; split; [by auto|]; apply bind_Some in R as ([s1 x] & V & R); destruct (x =? 0) eqn:Z; simplify_eq; eauto 9.
Qed.

Lemma for_inv (n : nat) (sc : Flow.scope E) (i w inc : option E) (lhs : stmt) (en : entry) (s : sst) (r : outcome * sst) :
  let un := unscope (exec_stmt n) (s_for sc i w inc lhs) sc in
  let next s := s' ← eval_opt inc s; exec_stmt n (s_for sc i w inc lhs) Again s' in
  exec_stmt (S n) (s_for sc i w inc lhs) en s = Some r ->
  (exists s', exec_stmt n (s_for sc i w inc lhs) Again s' = Some r) \/
  (exists e s', w = Some e /\ tests e false /\ un (Normal, s') = Some r) \/
  (exists en' s' r0, enters en en' /\ exec_stmt n lhs en' s' = Some r0 /\ loop_round next un r0 = Some r).
Proof.
  simpl. intros R. unfold enters, tests. destruct en as [|k|].
  - apply bind_Some in R as (s1 & _ & R). apply bind_Some in R as (s2 & _ & R). left. eauto.
  - apply bind_Some in R as (r0 & Q & R). right. right. eauto 10.
  - right. destruct w as [e|].
    + apply bind_Some in R as ([s1 x] & V & R). destruct (x =? 0) eqn:Z; [left; exists e, s1; eauto 9|].
      apply bind_Some in R as (r0 & Q & R). right. eauto 10.
    + apply bind_Some in R as (r0 & Q & R). right. eauto 10.
Qed.

Lemma switch_inv (n : nat) (sc : Flow.scope E) (e : E) (cs : list case_) (d : option nat) (lhs : stmt) (en : entry) (s : sst) (r : outcome * sst) :
  exec_stmt (S n) (s_switch sc e cs d lhs) en s = Some r ->
  exists r0, unscope (exec_stmt n) (s_switch sc e cs d lhs) sc (match r0.1 with Brk => (Normal, r0.2) | _ => r0 end) = Some r /\
  (r0.1 = Normal \/ exists en' s', exec_stmt n lhs en' s' = Some r0).
Proof.
  simpl. intros R. apply bind_Some in R as (r0 & Q & R). exists r0. split; [done|].
  destruct en as [|k|]; [|by eauto|].
  all: apply bind_Some in Q as (s1 & _ & Q); apply bind_Some in Q as ([s2 x] & V & Q);
    destruct (pick x cs d); [by eauto | by simplify_eq; left].
Qed.

(** *** Nothing escapes *)

(** The outcomes of a statement that nothing escapes from, [k] switches deep. *)
Definition stays (k : nat) (out : outcome) : Prop :=
  match out with Goto _ => False | Brk => k <> 0%nat | _ => True end.

Lemma unscope_plain (ex : runner) (st : stmt) (sc : Flow.scope E) (r r' : outcome * sst) :
  (forall l, r.1 <> Goto l) -> unscope ex st sc r = Some r' -> r'.1 = r.1.
Proof.
  destruct r as [out s]. unfold unscope. simpl. intros H U.
  destruct out; simpl in U; try by (destruct (leave sc s); simplify_eq/=).
  by destruct (H l).
Qed.

Lemma unscope_stays (ex : runner) (st : stmt) (sc : Flow.scope E) (k : nat) (r r' : outcome * sst) :
  stays k r.1 -> unscope ex st sc r = Some r' -> stays k r'.1.
Proof. intros S U. apply unscope_plain in U as ->; [done|]. intros l Q. by rewrite Q in S. Qed.

Lemma run_seq_stays (ex : runner) (k : nat) (ss : list stmt) (en : entry) (s : sst) (r : outcome * sst) :
  (forall st en s r, escapes k st = false -> ex st en s = Some r -> stays k r.1) ->
  existsb (escapes k) ss = false -> run_seq ex ss en s = Some r -> stays k r.1.
Proof.
  intros X. revert en s r. induction ss as [|st ss IH]; simpl; intros en s r H R; [by destruct en; simplify_eq|].
  apply orb_false_iff in H as [Hst Hss].
  assert (forall r, ('(out, s') ← ex st en s;
    match out with Normal => run_seq ex ss Start s' | _ => Some (out, s') end) = Some r -> stays k r.1) as Here.
  { intros r0 R0. apply bind_Some in R0 as ([out s'] & Q & R0). pose proof (X _ _ _ _ Hst Q).
    destruct out; try (simplify_eq; done). by eapply IH. }
  destruct en as [|k0|]; [by apply Here| |by apply Here]. destruct (holds st k0); [by apply Here | by eapply IH].
Qed.

Lemma loop_stays (k : nat) (next : sst -> option (outcome * sst)) (ex : runner) (st : stmt) (sc : Flow.scope E)
    (r r' : outcome * sst) :
  stays k r.1 -> (forall s r', next s = Some r' -> stays k r'.1) ->
  loop_round next (unscope ex st sc) r = Some r' -> stays k r'.1.
Proof.
  destruct r as [out s]. unfold loop_round. simpl. intros H N R.
  destruct out; simpl in *; [by eapply N | | by eapply N | done |]; by eapply unscope_stays in R.
Qed.

Lemma exec_stays (n : nat) (st : stmt) (en : entry) (s : sst) (r : outcome * sst) (k : nat) :
  escapes k st = false -> exec_stmt n st en s = Some r -> stays k r.1.
Proof.
  revert st en s r k. induction n as [|n IH]; [done|]. intros st en s r k H R.
  destruct st; simpl in H.
  - simpl in R. by simplify_eq.
  - simpl in R. apply bind_Some in R as ([? ?] & _ & R). by simplify_eq.
  - simpl in R. apply bind_Some in R as (r0 & Q & R). eapply unscope_stays, R.
    destruct en; [apply bind_Some in Q as (s1 & _ & Q)| |]; (refine (run_seq_stays _ k _ _ _ _ _ H Q); intros; by eapply IH).
  - apply orb_false_iff in H as [H1 H2]. apply if_inv in R as (r0 & R & C). eapply unscope_stays, R.
    destruct C as [(en' & s' & _ & [C|(r' & -> & C)])|[_ ->]];
      [exact (IH _ _ _ _ _ H1 C) | exact (IH _ _ _ _ _ H2 C) | done].
  - apply while_inv in R as [(s' & _ & R)|(en' & s' & r0 & _ & C & R)]; [exact (unscope_stays _ _ _ k (Normal, s') _ I R)|].
    eapply loop_stays, R; [exact (IH _ _ _ _ _ H C)|]. intros s1 r1 N. eapply IH, N; exact H.
  - apply do_inv in R as (en' & s' & r0 & _ & C & [[_ [[-> _]|[s1 R]]]|[[_ ->]|(_ & _ & ->)]]); [done | eapply IH, R; exact H | done | exact (IH _ _ _ _ _ H C)].
  - apply for_inv in R as [(s' & R)|[(e & s' & _ & _ & R)|(en' & s' & r0 & _ & C & R)]]; [eapply IH, R; exact H | exact (unscope_stays _ _ _ k (Normal, s') _ I R) |].
    eapply loop_stays, R; [exact (IH _ _ _ _ _ H C)|]. intros s1 r1 N. apply bind_Some in N as (s2 & _ & N). eapply IH, N; exact H.
  - apply switch_inv in R as (r0 & R & C). eapply unscope_stays, R.
    destruct r0 as [out s0]. destruct C as [C|(en' & s' & C)]; [simpl in C; by subst out|].
    apply (IH _ _ _ _ (S k)) in C; [|exact H]. by destruct out.
  - simpl in R. destruct en as [|k0|]; [by eapply IH | case_decide; by eapply IH | by eapply IH].
  - simpl in R. destruct en as [|k0|]; [by eapply IH | case_decide; by eapply IH | by eapply IH].
  - done.
  - done.
  - simpl in R. simplify_eq. simpl. by destruct k.
  - simpl in R. by simplify_eq.
  - simpl in R. destruct e as [e|]; [apply bind_Some in R as ([? ?] & _ & R)|]; by simplify_eq.
Qed.

(** *** [break] and [continue] *)

(** A [break] ([o]) or a [continue] of a loop around [s]. *)
Fixpoint leaves (o : bool) (s : stmt) : bool :=
  match s with
  | s_code _ ss => existsb (leaves o) ss
  | s_if _ _ lhs rhs => leaves o lhs || match rhs with Some r => leaves o r | None => false end
  | s_case _ lhs | s_label _ _ lhs => leaves o lhs
  | s_switch _ _ _ _ lhs => negb o && leaves o lhs
  | s_break => o
  | s_continue => negb o
  | _ => false
  end.

Definition left_by (o : bool) : outcome := if o then Brk else Cont.

(** Leaving a scope keeps the outcome, or goes back in to a label. *)
Lemma unscope_or (ex : runner) (st : stmt) (sc : Flow.scope E) (r r' : outcome * sst) :
  unscope ex st sc r = Some r' -> r'.1 = r.1 \/ exists l s, ex st (At (Lbl l)) s = Some r'.
Proof.
  destruct r as [out s]. unfold unscope. simpl. intros U.
  destruct out as [| | |l|v]; simpl in U; try (destruct (holds st (Lbl l)); [by eauto|]); left;
    apply bind_Some in U as (s' & _ & U); by simplify_eq.
Qed.

(** Running a sequence ends with the last statement run. *)
Lemma run_seq_ends (ex : runner) (ss : list stmt) (en : entry) (s : sst) (r : outcome * sst) :
  run_seq ex ss en s = Some r ->
  r.1 = Normal \/ exists st en' s', st ∈ ss /\ ex st en' s' = Some r.
Proof.
  revert en s r. induction ss as [|st ss IH]; simpl; intros en s r R; [left; by destruct en; simplify_eq|].
  assert (forall r, ('(out, s') ← ex st en s;
    match out with Normal => run_seq ex ss Start s' | _ => Some (out, s') end) = Some r ->
    r.1 = Normal \/ exists st' en' s', st' ∈ st :: ss /\ ex st' en' s' = Some r) as Here.
  { intros r0 R0. apply bind_Some in R0 as ([out s'] & Q & R0).
    destruct out; try (simplify_eq; right; eauto using list_elem_of_here; done).
    apply IH in R0 as [R0|(st' & en' & s1 & M & R0)]; [by left|]. right. exists st', en', s1. by rewrite elem_of_cons; auto. }
  destruct en as [|k0|]; [by apply Here| |by apply Here]. destruct (holds st k0); [by apply Here|].
  apply IH in R as [R|(st' & en' & s1 & M & R)]; [by left|]. right. exists st', en', s1. by rewrite elem_of_cons; auto.
Qed.

Lemma loop_not_left (o : bool) (ex : runner) (st : stmt) (sc : Flow.scope E) (next : sst -> option (outcome * sst)) (r r' : outcome * sst) :
  (forall en s r, ex st en s = Some r -> r.1 <> left_by o) ->
  (forall s r', next s = Some r' -> r'.1 <> left_by o) ->
  loop_round next (unscope ex st sc) r = Some r' -> r'.1 <> left_by o.
Proof.
  intros X N R. unfold loop_round in R. destruct r as [out s].
  destruct out; simpl in R; [by eapply N | | by eapply N | |];
    (apply unscope_or in R as [->|(l' & s1 & R)]; [by destruct o | by eapply X]).
Qed.

Lemma exec_leaves (n : nat) (st : stmt) (en : entry) (s : sst) (r : outcome * sst) (o : bool) :
  leaves o st = false -> exec_stmt n st en s = Some r -> r.1 <> left_by o.
Proof.
  revert st en s r. induction n as [|n IH]; [done|]. intros st en s r H R.
  assert (X : forall en s r, exec_stmt n st en s = Some r -> r.1 <> left_by o) by (intros; by eapply IH).
  destruct st; simpl in H.
  - simpl in R. simplify_eq. by destruct o.
  - simpl in R. apply bind_Some in R as ([? ?] & _ & R). simplify_eq. by destruct o.
  - simpl in R. apply bind_Some in R as (r0 & Q & R). apply unscope_or in R as [->|(l & s1 & R)]; [|by eapply X].
    assert (exists en s, run_seq (exec_stmt n) stmts en s = Some r0) as (en' & s' & Q').
    { destruct en; [apply bind_Some in Q as (s1 & _ & Q)| |]; eauto. }
    apply run_seq_ends in Q' as [->|(st & en1 & s1 & M & Q')]; [by destruct o|].
    eapply IH, Q'. apply not_true_iff_false. intros L. apply not_true_iff_false in H. apply H, existsb_exists.
    exists st. by rewrite <- list_elem_of_In.
  - apply orb_false_iff in H as [H1 H2]. apply if_inv in R as (r0 & R & C).
    apply unscope_or in R as [->|(l & s1 & R)]; [|by eapply X].
    destruct C as [(en' & s' & _ & [C|(r' & -> & C)])|[_ ->]];
      [eapply IH, C; exact H1 | eapply IH, C; exact H2 | by destruct o].
  - apply while_inv in R as [(s' & _ & R)|(en' & s' & r0 & _ & C & R)].
    + apply unscope_or in R as [->|(l & s1 & R)]; [by destruct o | by eapply X].
    + eapply loop_not_left, R; [exact X|]. intros s1 r1. apply X.
  - apply do_inv in R as (en' & s' & r0 & _ & C & [[_ [[-> _]|[s1 R]]]|[[_ ->]|(B & _ & ->)]]); [by destruct o | by eapply X | by destruct o | exact (B o)].
  - apply for_inv in R as [(s' & R)|[(e & s' & _ & _ & R)|(en' & s' & r0 & _ & C & R)]]; [by eapply X | |].
    + apply unscope_or in R as [->|(l & s1 & R)]; [by destruct o | by eapply X].
    + eapply loop_not_left, R; [exact X|]. intros s1 r1 N. apply bind_Some in N as (s2 & _ & N). by eapply X.
  - apply switch_inv in R as (r0 & R & C). apply unscope_or in R as [->|(l & s1 & R)]; [|by eapply X].
    destruct r0 as [out s0], o; [by destruct out|]. destruct C as [C|(en' & s' & C)]; [simpl in C; by subst out|].
    apply IH in C; [|exact H]. by destruct out.
  - simpl in R. destruct en as [|k0|]; [by eapply IH | case_decide; by eapply IH | by eapply IH].
  - simpl in R. destruct en as [|k0|]; [by eapply IH | case_decide; by eapply IH | by eapply IH].
  - injection R as <-. by destruct o.
  - done.
  - injection R as <-. by destruct o.
  - injection R as <-. by destruct o.
  - simpl in R. destruct e as [e|]; [apply bind_Some in R as ([? ?] & _ & R)|]; simplify_eq; by destruct o.
Qed.

(** *** The check is right *)

Definition Lbl_in (s : stmt) : bool := existsb (fun k => match k with Lbl _ => true | Cse _ => false end) (labels s).

Section Judged.
Context (hops : nat) (nexts : string -> option stmt) (doing : list string).

Local Notation judge := (fold_passable hops nexts doing).

Definition stuck (s : stmt) : bool := match judge s with Ok false => true | _ => false end.

(** No label after a statement that is not passed. *)
Fixpoint no_late_label (ss : list stmt) : bool :=
  match ss with
  | [] => true
  | s :: ss => if stuck s then negb (existsb Lbl_in ss) else no_late_label ss
  end.

(** The statements the check is right of: no goto goes to what a statement it
    says no of is before, and no [break] or [continue] ends the round of a
    [do] loop it says no of. *)
Fixpoint surveyed (s : stmt) : bool :=
  match s with
  | s_code _ ss => no_late_label ss && forallb surveyed ss
  | s_if _ _ lhs rhs => surveyed lhs && match rhs with Some r => surveyed r | None => true end
  | s_do e lhs =>
      surveyed lhs &&
      (negb (stuck s) || negb (leaves true lhs) && (const_expr_and_non_zero e || negb (leaves false lhs)))
  | s_case _ lhs | s_label _ _ lhs => surveyed lhs
  | _ => true
  end.

Definition by_label (en : entry) : Prop := match en with At (Cse _) => False | _ => True end.

Lemma by_label_enters (en en' : entry) : by_label en -> enters en en' -> by_label en'.
Proof. intros B [->|[-> _]]; done. Qed.

Lemma code_stuck (ss : list stmt) : code_passable judge ss = Ok false ->
  exists pre st post, ss = pre ++ st :: post /\ judge st = Ok false /\ forall s, s ∈ pre -> stuck s = false.
Proof.
  induction ss as [|s ss IH]; [done|]. simpl. intros C. apply bind_Ok in C as ([] & Js & C).
  - destruct (IH C) as (pre & st & post & -> & Jst & P). exists (s :: pre), st, post. repeat split; [done|].
    intros s' [->|M]%elem_of_cons; [unfold stuck; by rewrite Js | by apply P].
  - exists [], s, ss. repeat split; [done|]. intros s' M. by apply elem_of_nil in M.
Qed.

Lemma late_label (pre post : list stmt) (st : stmt) :
  (forall s, s ∈ pre -> stuck s = false) -> stuck st = true -> no_late_label (pre ++ st :: post) = true ->
  existsb Lbl_in post = false.
Proof.
  intros P S. induction pre as [|s pre IH]; simpl.
  - rewrite S. by destruct (existsb _ _).
  - rewrite (P s) by (by left). apply IH. intros; apply P. by right.
Qed.

Lemma no_label_seq (ex : runner) (ss : list stmt) (l : string) (s : sst) :
  existsb Lbl_in ss = false -> run_seq ex ss (At (Lbl l)) s = None.
Proof.
  induction ss as [|st ss IH]; [done|]. simpl. intros [H1 H2]%orb_false_iff.
  assert (holds st (Lbl l) = false) as ->; [|auto].
  apply bool_decide_eq_false. intros M. unfold Lbl_in in H1. apply not_true_iff_false in H1. apply H1, existsb_exists.
  exists (Lbl l). by rewrite <- list_elem_of_In.
Qed.

(** A sequence is not passed where one of its statements is not. *)
Lemma seq_not_passed (ex : runner) (pre post : list stmt) (st : stmt) (en : entry) (s : sst) (r : outcome * sst) :
  (forall en s r, by_label en -> ex st en s = Some r -> r.1 <> Normal) ->
  existsb Lbl_in post = false -> by_label en ->
  run_seq ex (pre ++ st :: post) en s = Some r -> r.1 <> Normal.
Proof.
  intros X P. revert en s r. induction pre as [|s0 pre IH]; intros en s r B R; simpl in R.
  - assert (forall r, by_label en -> ('(out, s') ← ex st en s;
      match out with Normal => run_seq ex post Start s' | _ => Some (out, s') end) = Some r -> r.1 <> Normal) as Here.
    { intros r0 _ R0. apply bind_Some in R0 as ([out s'] & Q & R0). apply X in Q; [|done].
      destruct out; by simplify_eq. }
    destruct en as [|[l|c]|]; [by apply Here| |done|by apply Here].
    destruct (holds st (Lbl l)); [by apply Here | by rewrite no_label_seq in R].
  - assert (forall r, ('(out, s') ← ex s0 en s;
      match out with Normal => run_seq ex (pre ++ st :: post) Start s' | _ => Some (out, s') end) = Some r -> r.1 <> Normal) as Here.
    { intros r0 R0. apply bind_Some in R0 as ([out s'] & Q & R0). destruct out; try by simplify_eq. by eapply IH, R0. }
    destruct en as [|k|]; [by apply Here| |by apply Here]. destruct (holds s0 k); [by apply Here | by eapply IH].
Qed.

Context `{!PassExprOk insn jcc addr oval sst E}.

Lemma test_non_zero (e : E) : const_expr_and_non_zero e = true -> tests e false -> False.
Proof. intros Z (s & s' & x & V & X). apply (non_zero_ok _ _ _ _ Z V). lia. Qed.

Lemma loop_stuck (ex : runner) (st : stmt) (sc : Flow.scope E) (next : sst -> option (outcome * sst)) (r r' : outcome * sst) :
  stays 0 r.1 -> (forall en s r, by_label en -> ex st en s = Some r -> r.1 <> Normal) ->
  (forall s r', next s = Some r' -> r'.1 <> Normal) ->
  loop_round next (unscope ex st sc) r = Some r' -> r'.1 <> Normal.
Proof.
  intros Y X N R. unfold loop_round in R. destruct r as [out s].
  destruct out; simpl in R; [by eapply N | by destruct Y | by eapply N | done |].
  apply unscope_or in R as [->|(l' & s1 & R)]; [done | by eapply X, R].
Qed.

(** What the induction on the fuel gives for smaller amounts of it. *)
Definition right_below (n : nat) : Prop := forall st en s r,
  surveyed st = true -> judge st = Ok false -> by_label en -> exec_stmt n st en s = Some r -> r.1 <> Normal.

Lemma do_stuck (n : nat) (e : E) (lhs : stmt) (en : entry) (s : sst) (r : outcome * sst) :
  right_below n -> surveyed (s_do e lhs) = true -> judge (s_do e lhs) = Ok false -> by_label en ->
  exec_stmt (S n) (s_do e lhs) en s = Some r -> r.1 <> Normal.
Proof.
  intros IH V J B R. assert (T : stuck (s_do e lhs) = true) by (unfold stuck; by rewrite J).
  pose proof V as V'. simpl in V. rewrite T in V. simpl in V.
  apply andb_true_iff in V as [Vl [Bk C]%andb_true_iff].
  apply do_inv in R as (en' & s' & r0 & N & X & D). pose proof (by_label_enters _ _ B N) as B'.
  assert (r0.1 <> Brk) as NB by (eapply (exec_leaves _ _ _ _ _ true), X; by destruct (leaves true lhs)).
  assert (const_expr_and_non_zero e = true \/ judge lhs = Ok false /\ r0.1 <> Normal /\ r0.1 <> Cont) as Or.
  { apply orb_true_iff in C as [C|C]; [by left|].
    assert (do_passable judge e lhs = Ok false) as K by (by destruct hops).
    unfold do_passable in K. apply bind_Ok in K as ([] & Jl & K); simpl in K.
    - left. by destruct (const_expr_and_non_zero e).
    - right. repeat split; [done | by eapply IH, X |].
      eapply (exec_leaves _ _ _ _ _ false), X. by destruct (leaves false lhs). }
  destruct D as [[D [[_ F]|[s'' R]]]|[[? _]|(_ & M & ->)]]; [|by eapply IH, R|done|done].
  destruct Or as [Z|(_ & N1 & N2)]; [by apply test_non_zero in F | by destruct D].
Qed.

Lemma code_not_passed (n : nat) (sc : Flow.scope E) (ss : list stmt) (en : entry) (s : sst) (r : outcome * sst) :
  right_below n -> surveyed (s_code sc ss) = true -> judge (s_code sc ss) = Ok false -> by_label en ->
  exec_stmt (S n) (s_code sc ss) en s = Some r -> r.1 <> Normal.
Proof.
  intros IH V J B R. assert (code_passable judge ss = Ok false) as K by (by destruct hops).
  apply code_stuck in K as (pre & st & post & -> & Jst & P).
  pose proof V as V'. simpl in V'. apply andb_true_iff in V' as [L V'].
  assert (surveyed st = true) as Vst.
  { rewrite forallb_forall in V'. apply V', list_elem_of_In. set_solver. }
  apply late_label in L; [|done|unfold stuck; by rewrite Jst].
  simpl in R. apply bind_Some in R as (r0 & Q & R).
  apply unscope_or in R as [->|(l & s1 & R)]; [|by eapply IH, R].
  destruct en as [|k|]; [apply bind_Some in Q as (s1 & _ & Q)| |]; eapply seq_not_passed, Q; try done;
    intros en1 s2 r1 B1; by apply IH.
Qed.

Lemma for_not_passed (n : nat) (sc : Flow.scope E) (i w inc : option E) (lhs : stmt) (en : entry) (s : sst) (r : outcome * sst) :
  right_below n -> judge (s_for sc i w inc lhs) = Ok false ->
  exec_stmt (S n) (s_for sc i w inc lhs) en s = Some r -> r.1 <> Normal.
Proof.
  intros IH J R.
  assert (fold_code_escapable lhs = false /\ forall e, w = Some e -> const_expr_and_non_zero e = true) as [K Z].
  { assert (for_passable w lhs = false) as K by (by destruct hops; injection J).
    unfold for_passable in K. destruct w as [e|]; [|done].
    destruct (const_expr_and_non_zero e) eqn:Z; [|done]. split; [done|]. by intros ? [= <-]. }
  rewrite escapable_escapes in K.
  assert (X : forall en s r, by_label en -> exec_stmt n (s_for sc i w inc lhs) en s = Some r -> r.1 <> Normal)
    by (intros en1 s1 r1; by apply IH).
  apply for_inv in R as [(s' & R)|[(e & s' & -> & F & R)|(en' & s' & r0 & _ & C & R)]]; [by eapply X, R | |].
  - apply test_non_zero in F; [done | by apply Z].
  - eapply loop_stuck, R; [by eapply exec_stays, C | done |].
    intros s1 r1 N. apply bind_Some in N as (s2 & _ & N). by eapply X, N.
Qed.

Lemma exec_not_passed (n : nat) (st : stmt) (en : entry) (s : sst) (r : outcome * sst) :
  surveyed st = true -> judge st = Ok false -> by_label en -> exec_stmt n st en s = Some r -> r.1 <> Normal.
Proof.
  revert st en s r. induction n as [|n IH]; [done|]. intros st en s r V J B R.
  assert (X : forall en s r, by_label en -> exec_stmt n st en s = Some r -> r.1 <> Normal) by (intros; by eapply IH).
  assert (X' : forall l s r, exec_stmt n st (At (Lbl l)) s = Some r -> r.1 <> Normal) by (intros l s1 r1; by apply X).
  destruct st.
  - by destruct hops.
  - assert (expr_passable e = Ok false) as K by (by destruct hops).
    simpl in R. by rewrite (noreturn_ok _ _ K) in R.
  - by eapply code_not_passed.
  - assert (if_passable judge st rhs = Ok false) as K by (by destruct hops).
    unfold if_passable in K. apply bind_Ok in K as ([] & J2 & J1); [done|].
    simpl in V. apply andb_true_iff in V as [V1 V2].
    apply if_inv in R as (r0 & R & C). apply unscope_or in R as [->|(l & s1 & R)]; [|by eapply X'].
    destruct C as [(en' & s' & N & [C|(r' & -> & C)])|[-> _]]; [by eapply IH, C; try done; eapply by_label_enters | | done].
    eapply IH, C; try done. by eapply by_label_enters.
  - assert (while_passable e st = false) as K by (by destruct hops; injection J).
    unfold while_passable in K. destruct (const_expr_and_non_zero e) eqn:Z; [|done]. rewrite escapable_escapes in K.
    apply while_inv in R as [(s' & F & R)|(en' & s' & r0 & _ & C & R)]; [by apply test_non_zero in F|].
    eapply loop_stuck, R; [by eapply exec_stays, C | done |]. intros s1 r1. by apply X.
  - by eapply do_stuck.
  - by eapply for_not_passed.
  - by destruct hops.
  - assert (judge st = Ok false) as K by (by destruct hops).
    simpl in R. destruct en as [|[l|c]|]; [by eapply IH, R | case_decide; by eapply IH, R | done | by eapply IH, R].
  - assert (judge st = Ok false) as K by (by destruct hops).
    simpl in R. destruct en as [|[l|c]|]; [by eapply IH, R | case_decide; by eapply IH, R | done | by eapply IH, R].
  - simpl in R. by simplify_eq.
  - done.
  - injection R as <-. done.
  - injection R as <-. done.
  - simpl in R. destruct e as [e|]; [apply bind_Some in R as ([? ?] & _ & R)|]; by simplify_eq.
Qed.

End Judged.

(** *** The [return 0] of [main] *)

(** What C99 says of the end of [main] (5.1.2.2.3). *)
Definition main_end (out : outcome) : outcome := match out with Normal => Ret (Some 0) | _ => out end.

Section Main.
Context (zero : E) (zero_ok : forall s, eval zero s = Some (s, 0)).

Local Notation ret0 := (s_return (Some zero)).

Lemma run_seq_return (m : nat) (ss : list stmt) (en : entry) (s s' : sst) (out : outcome) :
  run_seq (exec_stmt (S m)) ss en s = Some (out, s') ->
  run_seq (exec_stmt (S m)) (ss ++ [ret0]) en s = Some (main_end out, s').
Proof using zero_ok.
  revert en s. induction ss as [|st ss IH]; intros en s R.
  - destruct en; simpl in R; simplify_eq. simpl. by rewrite zero_ok.
  - assert (forall en s, ('(out, s') ← exec_stmt (S m) st en s;
      match out with Normal => run_seq (exec_stmt (S m)) ss Start s' | _ => Some (out, s') end) = Some (out, s') ->
      ('(out, s') ← exec_stmt (S m) st en s;
      match out with Normal => run_seq (exec_stmt (S m)) (ss ++ [ret0]) Start s' | _ => Some (out, s') end) = Some (main_end out, s')) as Here.
    { intros en0 s0 R0. apply bind_Some in R0 as ([out0 s1] & Q & R0). rewrite Q. simpl.
      destruct out0; try (by simplify_eq). by apply IH. }
    cbn [run_seq app] in *. destruct en as [|k|]; [by apply Here| |by apply Here].
    destruct (holds st k); [by apply Here | by apply IH].
Qed.

Lemma run_seq_none (ss : list stmt) (en : entry) (s : sst) : en <> Start -> run_seq (exec_stmt 0) ss en s = None.
Proof. induction ss as [|st ss IH]; intros N; destruct en; simpl; try done. destruct (holds st k); [done|by apply IH]. Qed.

Lemma return_appended (n : nat) (sc : Flow.scope E) (ss : list stmt) (en : entry) (s s' : sst) (out : outcome) :
  (2 <= n)%nat \/ en <> Start ->
  exec_stmt n (s_code sc ss) en s = Some (out, s') ->
  exec_stmt n (s_code sc (ss ++ [ret0])) en s = Some (main_end out, s').
Proof using zero_ok.
  revert en s. induction n as [|n IH]; [done|]. intros en s B R. cbn [exec_stmt] in *.
  apply bind_Some in R as ([out0 s0] & Q & R).
  assert ((match en with
    | Start => s1 ← enter sc s; run_seq (exec_stmt n) (ss ++ [ret0]) Start s1
    | _ => run_seq (exec_stmt n) (ss ++ [ret0]) en s end) = Some (main_end out0, s0)) as ->.
  { destruct n as [|n].
    - destruct B as [B|B]; [lia|]. destruct en; [done| |]; by rewrite run_seq_none in Q.
    - destruct en; [apply bind_Some in Q as (s1 & -> & Q)| |]; by apply run_seq_return in Q. }
  assert (forall l, holds (s_code sc (ss ++ [ret0])) (Lbl l) = holds (s_code sc ss) (Lbl l)) as HL.
  { intros l. unfold holds. apply bool_decide_ext. simpl. by rewrite map_app, concat_app, app_nil_r. }
  unfold unscope in *. cbn [mbind option_bind main_end fst snd] in *.
  destruct out0 as [| | |l|v]; cbn [main_end] in *; try (apply bind_Some in R as (s2 & -> & R); by simplify_eq).
  rewrite HL. destruct (holds _ _); [|apply bind_Some in R as (s2 & -> & R); by simplify_eq].
  apply IH in R; [done|by right].
Qed.

End Main.

(** C3: a function that must return a value and that the compiler neither warns
    about nor gives a [return 0] does not run off its end; and a hosted [main]
    does what C99 says: as compiled it does what it did, and returns 0 where the
    code as written runs off the end. This is of the functions the check looks
    at closely enough ([surveyed]): where a statement is found not to be passed,
    no later statement of the same compound statement has a label to be entered
    by, and if it is a [do] loop its body leaves no round by a [break], nor by a
    [continue] unless the loop's condition is a constant that is not zero;
    [late_label_missed], [do_break_missed] and [do_continue_missed] are
    functions that run off the end otherwise. Expressions keep the promise that
    those said not to return do not, and that conditions folded to a number
    other than zero are one. *)
Theorem function_end `{!PassExprOk insn jcc addr oval sst E} (zero : E) (noreturn c99 hosted : bool)
    (sc : Flow.scope E) (ss : list stmt) (code' : stmt) (n : nat) (s s' : sst) (out : outcome) :
  let code := s_code sc ss in
  (forall s, eval zero s = Some (s, 0)) ->
  surveyed (length (label_stmts code)) (next_stmt code) [] code = true ->
  fold_func_end zero noreturn false c99 hosted code = Ok (code', false) ->
  (2 <= n)%nat -> exec_stmt n code Start s = Some (out, s') ->
  if c99 && hosted then exec_stmt n code' Start s = Some (main_end out, s')
  else code' = code /\ out <> Normal.
Proof.
  intros code Z V F N R. unfold fold_func_end, fold_func_is_passable in F.
  apply bind_Ok in F as (p & P & F).
  assert (passable_in code code = Ok p) as J by (by destruct noreturn). destruct p.
  - destruct (c99 && hosted); [|done]. injection F as <-. apply return_appended; auto.
  - injection F as <-. pose proof (exec_not_passed _ _ _ n code Start s _ V J I R) as N'.
    destruct (c99 && hosted); [|done]. fold code. rewrite R. by destruct out.
Qed.

End Sound.

(** ** Programs of FlowMachine's expressions *)

Definition non_zero_num (e : cond) : bool :=
  match fold_num (proj1_sig e) with Some n => negb (n =? 0) | None => false end.

(** [Exit] is a call to a function that is [noreturn]. *)
#[global] Instance cond_pass : PassExpr cond :=
  {| kind e := match proj1_sig e with Leaf Exit => k_funcall true | _ => k_other end;
     const_expr_and_non_zero := non_zero_num |}.

#[global] Instance cond_pass_ok : PassExprOk instr jz operand operand vst cond.
Proof.
  split.
  - intros [e He] s s' x. simpl. unfold non_zero_num. simpl. destruct (fold_num e) as [n|] eqn:F; [|done].
    intros N V. apply fold_num_sound with (1 := F) in V as [_ ->]. intros ->. done.
  - intros [e He] s. unfold expr_passable. simpl. by destruct e as [[]| | |].
Qed.

Definition zero_ : cond := e_ (Num 0).

(** [{ if(x) goto more; while(1) if(x) break; more: y -= -4; }], a [main]. *)
Definition main_ : list (stmt cond) :=
  [ s_if (no_decls 1) (e_ (Get 0)) (s_goto "more") None;
    s_while (no_decls 2) (e_ (Num 1)) (s_if (no_decls 3) (e_ (Get 0)) s_break None);
    s_label "more" false (s_expr (inc 1 4) false) ].

Lemma function_end_witness : exists s' : vst,
  exec_stmt 20 (s_code (no_decls 0) main_) Start vars0 = Some (Normal, s') /\
  exec_stmt 20 (s_code (no_decls 0) (main_ ++ [s_return (Some zero_)])) Start vars0 = Some (Ret (Some 0), s').
Proof.
  assert (fst <$> exec_stmt 20 (s_code (no_decls 0) main_) Start vars0 = Some Normal) as R by (vm_compute; reflexivity).
  destruct (exec_stmt 20 (s_code (no_decls 0) main_) Start vars0) as [[out s']|] eqn:X; [|discriminate R].
  injection R as ->. exists s'. split; [reflexivity|].
  exact (function_end zero_ false true true (no_decls 0) main_ _ 20 vars0 s' Normal
    (fun s => eq_refl) eq_refl eq_refl ltac:(lia) X).
Defined.

(** [{ do { y -= -3; if(x) return 5; x = 1; } while(1); }] is said not to be
    passed, and is surveyed. *)
Example spin_surveyed :
  let code := s_code (no_decls 0) [ s_do (e_ (Num 1)) (s_code (no_decls 1)
    [ s_expr (inc 1 3) false; s_if (no_decls 2) (e_ (Get 0)) (s_return (Some (e_ (Num 5)))) None; s_expr (e_ (Set_ 0 (Num 1))) false ]) ] in
  passable_in code code = Ok false /\ surveyed (length (label_stmts code)) (next_stmt code) [] code = true.
Proof. by vm_compute. Qed.

(** ** Where the check is wrong *)

(** What the check says of a body, and how it ends with every variable 7. *)
Definition verdict (ss : list (stmt cond)) : res bool * option outcome :=
  let code := s_code (no_decls 0) ss in
  (passable_in code code, fst <$> exec_stmt 20 code Start vars0).

(** [{ if(x) goto more; return 1; more: y -= -4; }]: a label after a [return] is
    reached all the same. *)
Example late_label_missed : verdict
  [ s_if (no_decls 1) (e_ (Get 0)) (s_goto "more") None; s_return (Some (e_ (Num 1)));
    s_label "more" false (s_expr (inc 1 4) false) ] = (Ok false, Some Normal).
Proof. by vm_compute. Qed.

(** [{ do { if(x) break; } while(1); }] *)
Example do_break_missed : verdict
  [ s_do (e_ (Num 1)) (s_if (no_decls 1) (e_ (Get 0)) s_break None) ] = (Ok false, Some Normal).
Proof. by vm_compute. Qed.

(** [{ do { if(x) continue; return 1; } while(0); }] *)
Example do_continue_missed : verdict
  [ s_do (e_ (Num 0)) (s_code (no_decls 1) [ s_if (no_decls 2) (e_ (Get 0)) s_continue None; s_return (Some (e_ (Num 1))) ]) ]
  = (Ok false, Some Normal).
Proof. by vm_compute. Qed.
