(* ===== verification/Parse.v ===== *)
(** * The expression parser

    [src/src/cc1/parse_expr.c]: a recursive descent over the token buffer, one
    function for each level of C's grammar. It calls the parsers of types,
    initialisers, statements and built-in functions, which call it back; what it
    asks of them is the class [Grammar]. Places in the source are left out. *)

From S2P Require Import Prelude CStr StrLit Types Consts Token Tokconv.

(** ** The rest of the grammar *)

(** What the parser has to know of types, initialisers, statements, argument
    lists, blocks and built-in functions: how they are read from the tokens, by
    functions that may change the rest of the compiler's state, [world]. A null
    result is [None]. *)
Class Grammar `{Floats} := mk_grammar {
  world : Type;
  scope : Type;
  ctype : Type;
  cinit : Type;
  cstmt : Type;
  cargs : Type;
  cbuiltin : Type;
  (** [parse_type(0, scope)] *)
  parse_type : scope -> lexer * world -> res ((lexer * world) * option ctype);
  parse_init : scope -> bool -> lexer * world -> res ((lexer * world) * cinit);
  (** [parse_stmt_block(scope, NULL)] *)
  parse_stmt_block : scope -> lexer * world -> res ((lexer * world) * cstmt);
  parse_func_arglist : scope -> lexer * world -> res ((lexer * world) * cargs);
  builtin_parse : cstr -> scope -> lexer * world -> res ((lexer * world) * option cbuiltin);
  (** A function type's return type, arguments and scope of its arguments. *)
  type_func_parts : ctype -> option (ctype * cargs * scope);
  (** [funcargs_new] with [args_void]. *)
  void_args : cargs;
  symtab_root : scope -> scope;
  (** [symtab_new], and whether its [are_params] is set. *)
  symtab_new : scope -> bool -> lexer * world -> res ((lexer * world) * scope);
  expr_block_got_params : scope -> cargs -> lexer * world -> res ((lexer * world) * unit);
  (** [expr_new_str] enters the literal in the table of strings. *)
  string_new : cstring -> scope -> lexer * world -> res ((lexer * world) * unit)
}.

(** ** Expressions *)

(** [enum what_of]. *)
Inductive what_of := what_sizeof | what_typeof | what_alignof.

Section parse.
Context `{Grammar}.

(** An [expr] as it is built, by the function that makes it; its [in_parens] is
    the constructor [expr_parens], applied at most once. *)
Inductive expr :=
  | expr_val (v : numeric)
  | expr_str (lit : cstring)
  | expr_identifier (sp : cstr)
  | expr__Generic (test : expr) (lbls : list (option ctype * expr))
  | expr_block (rt : option ctype) (args : cargs) (symtab : scope) (code : cstmt)
  | expr_compound_lit (ty : ctype) (init : cinit) (static_ctx : bool)
  | expr_cast (e : expr) (ty : ctype) (implicit : bool)
  | expr_stmt (code : cstmt)
  | expr_op (op : op_type) (lhs : expr) (rhs : option expr) (array_notation : bool)
  | expr_deref (e : expr)
  | expr_addr (e : expr)
  | expr_addr_lbl (lbl : option cstr) (static_ctx : bool)
  | expr_funcall (e : expr) (funcargs : list expr)
  | expr_builtin (e : expr) (b : cbuiltin)
  | expr_struct (e : expr) (dot : bool) (mem : expr)
  | expr_assign (lhs rhs : expr)
  | expr_assign_compound (lhs rhs : expr) (op : op_type) (post : bool)
  | expr_if (cond : expr) (lhs : option expr) (rhs : expr)
  | expr_comma (lhs rhs : expr)
  | expr_sizeof_expr (e : expr) (what : what_of)
  | expr_sizeof_type (ty : ctype) (what : what_of)
  | expr_parens (e : expr).

(** [e->in_parens = 1] *)
Definition set_in_parens (e : expr) : expr :=
  match e with expr_parens _ => e | _ => expr_parens e end.

(** [expr_new_val] *)
Definition expr_new_val (v : Z) : expr := expr_val (mk_numeric (VI v) 0).

Fixpoint expr_ident_spel (e : expr) : option cstr :=
  match e with
  | expr_identifier sp => Some sp
  | expr_parens e => expr_ident_spel e
  | _ => None
  end.

(** ** The token buffer *)

(** A parser reads tokens and may change the world. *)
Definition P (A : Type) : Type := lexer * world -> res ((lexer * world) * A).

#[export] Instance P_ret : MRet P := fun A a s => Ok (s, a).
#[export] Instance P_bind : MBind P := fun A B k m s => r ← m s; k r.2 r.1.

(** The fuel of [nexttoken]. *)
Context (keyword_mode junk : Z) (f : nat).

Definition fail {A} (r : res A) : P A := fun s => a ← r; Ok (s, a).

(** A function of the tokeniser. *)
Definition on_lexer {A} (m : lexer -> res (lexer * A)) : P A :=
  fun s => r ← m s.1; Ok ((r.1, s.2), r.2).

Definition get_curtok : P token := fun s => Ok (s, curtok s.1).

Definition EAT (t : token) : P bool := on_lexer (eat2 (nexttoken keyword_mode junk f) t 0).

(** [accept] and [accept_where]. *)
Definition accept (t : token) : P bool := on_lexer (Token.accept_where keyword_mode junk f t).

Definition uneat_ (t : token) : P unit :=
  on_lexer (fun s => s ← uneat t s; Ok (s, tt)).

Definition identifier : P (option (option cstr)) :=
  on_lexer (token_accept_identifier keyword_mode junk f).

(** [warn_at_print_error] and [parse_had_error = 1]. *)
Definition parse_error : P unit :=
  fun s => Ok ((set_rd s.1 (had_error (rd s.1)), s.2), tt).

Definition current_string : P (option cstring) :=
  on_lexer (fun s => let '(s, c, _) := token_get_current_str s in Ok (s, c)).

Definition get_currentval : P numeric := fun s => Ok (s, currentval s.1).

(** ** The functions, given those they call again *)

Record parsers : Type := mk_parsers {
  exp_ : scope -> bool -> P expr;
  assignment_ : scope -> bool -> P expr;
  conditional_ : scope -> bool -> P expr;
  unary_ : scope -> bool -> P expr;
  (** [parse_expr_postfix_with] *)
  postfix_with_ : scope -> bool -> expr -> P expr
}.

Definition DUMMY_IDENTIFIER : cstr := str "?".

Definition parse_expr_identifier : P expr :=
  got ← identifier;
  match got with
  | Some (Some sp) => mret (expr_identifier sp)
  | Some None => fail (Ub "null spelling")
  | None => _ ← parse_error; mret (expr_identifier DUMMY_IDENTIFIER)
  end.

Section functions.
Context (fuel : nat) (self : parsers) (sc : scope) (static_ctx : bool).

Definition PARSE_EXPR_CAST : P expr := unary_ self sc static_ctx.
Definition PARSE_EXPR_NO_COMMA : P expr := assignment_ self sc static_ctx.

Definition what_of_token (t : token) : res what_of :=
  match t with
  | token__Alignof | token___alignof => Ok what_alignof
  | token_typeof => Ok what_typeof
  | token_sizeof => Ok what_sizeof
  | _ => Ice "unreachable sizeof parse"
  end.

(** The [static_ctx] of what is inside is 0. *)
Definition parse_expr_sizeof_typeof_alignof : P expr :=
  t ← get_curtok;
  what ← fail (what_of_token t);
  _ ← EAT t;
  open ← accept token_open_paren;
  if open : bool then
    ty ← parse_type sc;
    match ty with
    | Some ty =>
        _ ← EAT token_close_paren;
        t ← get_curtok;
        if bool_decide (t = token_open_block) then
          complit_init ← parse_init sc false;
          e ← postfix_with_ self sc false (expr_compound_lit ty complit_init false);
          mret (expr_sizeof_expr e what)
        else mret (expr_sizeof_type ty what)
    | None =>
        match what with
        | what_typeof =>
            e ← exp_ self sc false;
            _ ← EAT token_close_paren;
            mret (expr_sizeof_expr e what)
        | _ =>
            _ ← uneat_ token_open_paren;
            e ← unary_ self sc false;
            mret (expr_sizeof_expr e what)
        end
    end
  else
    match what with
    | what_typeof => fail (Die "open paren expected after typeof")
    | _ => e ← unary_ self sc false; mret (expr_sizeof_expr e what)
    end.

Fixpoint generic_lbls (fuel : nat) : P (list (option ctype * expr)) :=
  match fuel with
  | O => fail NoFuel
  | S fuel =>
      _ ← EAT token_comma;
      dflt ← accept token_default;
      r ← (if dflt : bool then mret None
           else
             r ← parse_type sc;
             match r with Some r => mret (Some r) | None => fail (Die "type expected for _Generic") end);
      _ ← EAT token_colon;
      e ← PARSE_EXPR_NO_COMMA;
      done ← accept token_close_paren;
      if done : bool then mret [(r, e)]
      else rest ← generic_lbls fuel; mret ((r, e) :: rest)
  end.

Definition parse_expr__Generic : P expr :=
  _ ← EAT token__Generic;
  _ ← EAT token_open_paren;
  test ← PARSE_EXPR_NO_COMMA;
  lbls ← generic_lbls fuel;
  mret (expr__Generic test lbls).

Definition parse_block : P expr :=
  _ ← EAT token_xor;
  rt ← parse_type sc;
  let def_args (rt : option ctype) : P (option ctype * cargs * scope) :=
    arg_symtab ← symtab_new (symtab_root sc) false;
    mret (rt, void_args, arg_symtab) in
  parts ← (
    match rt with
    | Some ty =>
        match type_func_parts ty with
        | Some (ret, args, arg_scope) => mret (Some ret, args, arg_scope)
        | None => def_args (Some ty)
        end
    | None =>
        open ← accept token_open_paren;
        if open : bool then
          arg_symtab ← symtab_new (symtab_root sc) true;
          args ← parse_func_arglist arg_symtab;
          _ ← EAT token_close_paren;
          mret (None, args, arg_symtab)
        else def_args None
    end : P (option ctype * cargs * scope));
  let '(rt, args, arg_symtab) := parts in
  _ ← expr_block_got_params arg_symtab args;
  code ← parse_stmt_block arg_symtab;
  mret (expr_block rt args arg_symtab code).

(** In parentheses: a compound literal, a cast, a statement or an expression. *)
Definition parse_parens : P expr :=
  r ← parse_type sc;
  match r with
  | Some r =>
      _ ← EAT token_close_paren;
      t ← get_curtok;
      if bool_decide (t = token_open_block) then
        init ← parse_init sc static_ctx;
        mret (expr_compound_lit r init static_ctx)
      else
        e ← PARSE_EXPR_CAST;
        mret (expr_cast e r false)
  | None =>
      t ← get_curtok;
      e ← (if bool_decide (t = token_open_block) then
             code ← parse_stmt_block sc; mret (expr_stmt code)
           else
             e ← exp_ self sc static_ctx; mret (set_in_parens e));
      _ ← EAT token_close_paren;
      mret e
  end.

Definition parse_expr_primary : P expr :=
  t ← get_curtok;
  match t with
  | token_integer | token_character | token_floater =>
      v ← get_currentval;
      _ ← EAT t;
      mret (expr_val v)
  | token_string =>
      lit ← current_string;
      match lit with
      | Some lit =>
          _ ← EAT token_string;
          _ ← string_new lit sc;
          mret (expr_str lit)
      | None => fail (Ub "null string")
      end
  | token__Generic => parse_expr__Generic
  | token_xor => parse_block
  | _ =>
      open ← accept token_open_paren;
      if open : bool then parse_parens
      else
        asm ← accept token_asm;
        if asm : bool then mret (expr_identifier (str "__asm__"))
        else
          t ← get_curtok;
          if bool_decide (t = token_identifier) then parse_expr_identifier
          else fail (Die "expression expected")
  end.

Fixpoint funcargs_loop (fuel : nat) : P (list expr) :=
  match fuel with
  | O => fail NoFuel
  | S fuel =>
      arg ← PARSE_EXPR_NO_COMMA;
      more ← accept token_comma;
      if more : bool then rest ← funcargs_loop fuel; mret (arg :: rest) else mret [arg]
  end.

Definition parse_funcargs : P (list expr) :=
  t ← get_curtok;
  if bool_decide (t = token_close_paren) then mret [] else funcargs_loop fuel.

(** One turn of [parse_expr_postfix_with]: none when nothing follows. *)
Definition postfix_step (e : expr) : P (option expr) :=
  t ← get_curtok;
  match t with
  | token_open_square =>
      _ ← EAT token_open_square;
      idx ← exp_ self sc static_ctx;
      _ ← EAT token_close_square;
      mret (Some (expr_deref (expr_op op_plus e (Some idx) true)))
  | token_open_paren =>
      _ ← EAT token_open_paren;
      fcall ← (match expr_ident_spel e with
               | Some sp => builtin_parse sp sc
               | None => mret None
               end : P (option cbuiltin));
      call ← (match fcall with
              | Some b => mret (expr_builtin e b)
              | None => args ← parse_funcargs; mret (expr_funcall e args)
              end);
      _ ← EAT token_close_paren;
      mret (Some call)
  | token_dot =>
      _ ← EAT token_dot;
      mem ← parse_expr_identifier;
      mret (Some (expr_struct e true mem))
  | token_ptr =>
      _ ← EAT token_ptr;
      mem ← parse_expr_identifier;
      mret (Some (expr_struct e false mem))
  | token_increment =>
      _ ← EAT token_increment;
      mret (Some (expr_assign_compound e (expr_new_val 1) op_plus true))
  | token_decrement =>
      _ ← EAT token_decrement;
      mret (Some (expr_assign_compound e (expr_new_val 1) op_minus true))
  | _ => mret None
  end.

Fixpoint parse_expr_postfix_with (fuel : nat) (e : expr) : P expr :=
  match fuel with
  | O => fail NoFuel
  | S fuel =>
      r ← postfix_step e;
      match r with
      | Some e => parse_expr_postfix_with fuel e
      | None => mret e
      end
  end.

Definition parse_expr_postfix : P expr :=
  e ← parse_expr_primary;
  parse_expr_postfix_with fuel e.

Definition parse_expr_unary : P expr :=
  t ← get_curtok;
  match t with
  | token_increment =>
      _ ← EAT token_increment;
      e ← unary_ self sc static_ctx;
      mret (expr_assign_compound e (expr_new_val 1) op_plus false)
  | token_decrement =>
      _ ← EAT token_decrement;
      e ← unary_ self sc static_ctx;
      mret (expr_assign_compound e (expr_new_val 1) op_minus false)
  | token_andsc =>
      _ ← EAT token_andsc;
      lbl ← on_lexer (token_eat_identifier keyword_mode junk f (Some DUMMY_IDENTIFIER));
      mret (expr_addr_lbl lbl static_ctx)
  | token_and =>
      _ ← EAT token_and;
      e ← PARSE_EXPR_CAST;
      mret (expr_addr e)
  | token_multiply =>
      _ ← EAT token_multiply;
      e ← PARSE_EXPR_CAST;
      mret (expr_deref e)
  | token_plus | token_minus | token_bnot | token_not =>
      _ ← EAT t;
      e ← PARSE_EXPR_CAST;
      mret (expr_op (curtok_to_op t) e None false)
  | token_sizeof | token__Alignof | token___alignof => parse_expr_sizeof_typeof_alignof
  | token___extension__ =>
      _ ← EAT token___extension__;
      unary_ self sc static_ctx
  | _ => parse_expr_postfix
  end.

(** *** Binary operators *)

(** The loop of [parse_expr_generic]: [above] for each operand. *)
Fixpoint generic_loop (fuel : nat) (above : P expr) (toks : list token) (e : expr) : P expr :=
  match fuel with
  | O => fail NoFuel
  | S fuel =>
      t ← get_curtok;
      if bool_decide (t ∈ toks) then
        _ ← EAT t;
        rhs ← above;
        generic_loop fuel above toks (expr_op (curtok_to_op t) e (Some rhs) false)
      else mret e
  end.

Definition parse_expr_generic (above : P expr) (toks : list token) : P expr :=
  e ← above;
  generic_loop fuel above toks e.

Definition parse_expr_multi : P expr :=
  parse_expr_generic parse_expr_unary [token_multiply; token_divide; token_modulus].
Definition parse_expr_additive : P expr := parse_expr_generic parse_expr_multi [token_plus; token_minus].
Definition parse_expr_shift : P expr := parse_expr_generic parse_expr_additive [token_shiftl; token_shiftr].
Definition parse_expr_relational : P expr :=
  parse_expr_generic parse_expr_shift [token_lt; token_gt; token_le; token_ge].
Definition parse_expr_equality : P expr := parse_expr_generic parse_expr_relational [token_eq; token_ne].
Definition parse_expr_binary_and : P expr := parse_expr_generic parse_expr_equality [token_and].
Definition parse_expr_binary_xor : P expr := parse_expr_generic parse_expr_binary_and [token_xor].
Definition parse_expr_binary_or : P expr := parse_expr_generic parse_expr_binary_xor [token_or].
Definition parse_expr_logical_and : P expr := parse_expr_generic parse_expr_binary_or [token_andsc].
Definition parse_expr_logical_or : P expr := parse_expr_generic parse_expr_logical_and [token_orsc].

(** *** Conditionals, assignments and commas *)

Definition parse_expr_conditional : P expr :=
  e ← parse_expr_logical_or;
  q ← accept token_question;
  if q : bool then
    col ← accept token_colon;
    lhs ← (if col : bool then mret None
           else
             lhs ← exp_ self sc static_ctx;
             _ ← EAT token_colon;
             mret (Some lhs));
    rhs ← conditional_ self sc static_ctx;
    mret (expr_if e lhs rhs)
  else mret e.

Definition parse_expr_assignment : P expr :=
  e ← parse_expr_conditional;
  asgn ← accept token_assign;
  if asgn : bool then
    rhs ← assignment_ self sc static_ctx;
    mret (expr_assign e rhs)
  else
    t ← get_curtok;
    if curtok_is_compound_assignment t then
      _ ← EAT t;
      rhs ← assignment_ self sc static_ctx;
      mret (expr_assign_compound e rhs (curtok_to_compound_op t) false)
    else mret e.

Definition parse_expr_exp : P expr :=
  e ← parse_expr_assignment;
  comma ← accept token_comma;
  if comma : bool then
    rhs ← exp_ self sc static_ctx;
    mret (expr_comma e rhs)
  else mret e.

End functions.

(** ** Tied together *)

Definition no_fuel : parsers :=
  mk_parsers (fun _ _ => fail NoFuel) (fun _ _ => fail NoFuel) (fun _ _ => fail NoFuel)
    (fun _ _ => fail NoFuel) (fun _ _ _ => fail NoFuel).

Fixpoint parsers_at (n : nat) : parsers :=
  match n with
  | O => no_fuel
  | S n =>
      let self := parsers_at n in
      mk_parsers (parse_expr_exp n self) (parse_expr_assignment n self) (parse_expr_conditional n self)
        (parse_expr_unary n self) (fun sc static_ctx => parse_expr_postfix_with n self sc static_ctx n)
  end.

End parse.
