(* ===== verification/Parsing.v ===== *)
(** * What the expression parser reads

    Theorems about [Parse]. C's grammar of expressions (6.5), as far as it needs
    no types, is an inductive relation between tokens and trees ([__extension__],
    which the parser of types skips as well, is left out of it); the parser reads
    exactly the tokens of an expression and builds its tree, on any token buffer
    that yields them, the tokeniser reading a file included. *)

From S2P Require Import Prelude CStr Escape Types Consts Token Lexing Labels Tokconv Parse.

(** Membership in a list that is written out. *)
Ltac in_list := solve [hnf; repeat first [apply list_elem_of_here | apply list_elem_of_further]].

(** ** Tokens in a buffer *)

Section yields.
Context `{Floats} (keyword_mode junk : Z) (f : nat).

(** A token with what it stands for. *)
Inductive ptok :=
  | PWord (w : cstr)
  | PInt (v : numeric)
  | PTok (t : token).

Definition ptok_kind (p : ptok) : token :=
  match p with PWord _ => token_identifier | PInt _ => token_integer | PTok t => t end.

Definition head_kind (ts : list ptok) : token :=
  match ts with [] => token_eof | p :: _ => ptok_kind p end.

(** An identifier, and the lexer behind it. *)
Definition word_then (w : cstr) (s s' : lexer) : Prop :=
  curtok s = token_identifier /\ currentspelling s = Some w /\ curtok_save s = token_unknown
  /\ nexttoken keyword_mode junk f (set_spelling s None) = Ok s'.

(** The tokens the buffer holds up to the end of the input, one by one. Whether a
    colon follows an identifier can be looked up, which may read on in the text. *)
Fixpoint yields (s : lexer) (ts : list ptok) : Prop :=
  match ts with
  | [] => curtok s = token_eof /\ exists s', eat2 (nexttoken keyword_mode junk f) token_eof 0 s = Ok (s', true)
  | p :: ts =>
      curtok s = ptok_kind p
      /\ exists s',
        match p with
        | PWord w =>
            word_then w s s'
            /\ exists s1 s1', let b := bool_decide (head_kind ts = token_colon) in
               tok_at_label s = Ok (s1, b) /\ tok_at_label s1 = Ok (s1, b)
               /\ word_then w s1 s1' /\ curtok_save s1' = token_unknown /\ yields s1' ts
        | PInt v =>
            currentval s = v /\ eat2 (nexttoken keyword_mode junk f) token_integer 0 s = Ok (s', true)
        | PTok t => eat2 (nexttoken keyword_mode junk f) t 0 s = Ok (s', true)
        end
        /\ curtok_save s' = token_unknown /\ yields s' ts
  end.

(** A current identifier has its spelling. *)
Definition spelled (s : lexer) : Prop := curtok s = token_identifier -> currentspelling s <> None.

Definition not_spell (p : ptok) : Prop := match p with PTok t => t <> token_identifier | _ => True end.

Lemma yields_curtok (s : lexer) (ts : list ptok) : yields s ts -> curtok s = head_kind ts.
Proof. destruct ts; simpl; intuition. Qed.

Lemma yields_spelled (s : lexer) (ts : list ptok) (p : ptok) (ts' : list ptok) :
  yields s ts -> ts = p :: ts' -> not_spell p -> spelled s.
Proof.
  intros Hy -> Hp. destruct Hy as (Hc & s' & H1 & _). intros Hi. rewrite Hc in Hi. destruct p; try done.
  - destruct H1 as ((_ & -> & _) & _). done.
Qed.

Lemma uneat_yields (s : lexer) (ts : list ptok) :
  yields s ts -> curtok_save s = token_unknown -> curtok s <> token_unknown ->
  exists s', uneat token_open_paren s = Ok s' /\ yields s' (PTok token_open_paren :: ts).
Proof.
  intros Hy Hs Hc. exists (set_tok (set_save s (curtok s)) token_open_paren). split.
  { unfold uneat. by rewrite Hs. }
  split; [done|]. exists s. split; [|by split]. unfold eat2. simpl.
  rewrite (bool_decide_eq_false_2 _ Hc). simpl. unfold set_save, set_tok. simpl. rewrite <- Hs.
  by destruct s.
Qed.

End yields.

(** ** The grammar *)

Section grammar.
Context `{Grammar}.

(** The tokens that carry an expression on, by level: the comma 0, assignment 1,
    the conditional 2, binary operators 3 to 12, unary operators 13, postfix 14,
    primary expressions 15. *)
Definition ops_at (k : nat) : list token :=
  match k with
  | 0%nat => [token_comma]
  | 1%nat => [token_assign; token_plus_assign; token_minus_assign; token_multiply_assign;
              token_divide_assign; token_modulus_assign; token_not_assign; token_bnot_assign;
              token_and_assign; token_or_assign; token_xor_assign; token_shiftl_assign;
              token_shiftr_assign]
  | 2%nat => [token_question]
  | 3%nat => [token_orsc]
  | 4%nat => [token_andsc]
  | 5%nat => [token_or]
  | 6%nat => [token_xor]
  | 7%nat => [token_and]
  | 8%nat => [token_eq; token_ne]
  | 9%nat => [token_lt; token_gt; token_le; token_ge]
  | 10%nat => [token_shiftl; token_shiftr]
  | 11%nat => [token_plus; token_minus]
  | 12%nat => [token_multiply; token_divide; token_modulus]
  | 14%nat => [token_open_square; token_open_paren; token_dot; token_ptr; token_increment; token_decrement]
  | _ => []
  end.

Definition unops : list token := [token_plus; token_minus; token_bnot; token_not].

Context (builtin_name : cstr -> bool).

Definition callable (e : expr) : Prop :=
  match expr_ident_spel e with Some sp => builtin_name sp = false | None => True end.

(** [derives k ts e]: the tokens are an expression of level [k], with tree [e].
    A specification, not code: C's grammar of expressions (6.5) without casts,
    sizeof of a type, compound literals, strings, _Generic, statement expressions
    and calls of built-ins. *)
Inductive derives : nat -> list ptok -> expr -> Prop :=
  | derives_up k ts e : (k < 15)%nat -> derives (S k) ts e -> derives k ts e
  | derives_id w : derives 15 [PWord w] (expr_identifier w)
  | derives_int v : derives 15 [PInt v] (expr_val v)
  | derives_parens ts e :
      derives 0 ts e -> derives 15 (PTok token_open_paren :: ts ++ [PTok token_close_paren]) (set_in_parens e)
  | derives_index l le i ie :
      derives 14 l le -> derives 0 i ie ->
      derives 14 (l ++ PTok token_open_square :: i ++ [PTok token_close_square])
        (expr_deref (expr_op op_plus le (Some ie) true))
  | derives_call l le a es :
      derives 14 l le -> callable le -> derives_args a es ->
      derives 14 (l ++ PTok token_open_paren :: a ++ [PTok token_close_paren]) (expr_funcall le es)
  | derives_dot l le w :
      derives 14 l le ->
      derives 14 (l ++ [PTok token_dot; PWord w]) (expr_struct le true (expr_identifier w))
  | derives_ptr l le w :
      derives 14 l le ->
      derives 14 (l ++ [PTok token_ptr; PWord w]) (expr_struct le false (expr_identifier w))
  | derives_post_inc l le :
      derives 14 l le ->
      derives 14 (l ++ [PTok token_increment]) (expr_assign_compound le (expr_new_val 1) op_plus true)
  | derives_post_dec l le :
      derives 14 l le ->
      derives 14 (l ++ [PTok token_decrement]) (expr_assign_compound le (expr_new_val 1) op_minus true)
  | derives_pre_inc ts e :
      derives 13 ts e ->
      derives 13 (PTok token_increment :: ts) (expr_assign_compound e (expr_new_val 1) op_plus false)
  | derives_pre_dec ts e :
      derives 13 ts e ->
      derives 13 (PTok token_decrement :: ts) (expr_assign_compound e (expr_new_val 1) op_minus false)
  | derives_addr ts e : derives 13 ts e -> derives 13 (PTok token_and :: ts) (expr_addr e)
  | derives_deref ts e : derives 13 ts e -> derives 13 (PTok token_multiply :: ts) (expr_deref e)
  | derives_unop t ts e :
      t ∈ unops -> derives 13 ts e -> derives 13 (PTok t :: ts) (expr_op (curtok_to_op t) e None false)
  | derives_sizeof ts e :
      derives 13 ts e -> derives 13 (PTok token_sizeof :: ts) (expr_sizeof_expr e what_sizeof)
  | derives_binary k t l le r re :
      (3 <= k <= 12)%nat -> t ∈ ops_at k -> derives k l le -> derives (S k) r re ->
      derives k (l ++ PTok t :: r) (expr_op (curtok_to_op t) le (Some re) false)
  | derives_if c ce m me r re :
      derives 3 c ce -> derives 0 m me -> derives 2 r re ->
      derives 2 (c ++ PTok token_question :: m ++ PTok token_colon :: r) (expr_if ce (Some me) re)
  | derives_elvis c ce r re :
      derives 3 c ce -> derives 2 r re ->
      derives 2 (c ++ PTok token_question :: PTok token_colon :: r) (expr_if ce None re)
  | derives_assign l le r re :
      derives 2 l le -> derives 1 r re -> derives 1 (l ++ PTok token_assign :: r) (expr_assign le re)
  | derives_compound t l le r re :
      t ∈ ops_at 1 -> t <> token_assign -> derives 2 l le -> derives 1 r re ->
      derives 1 (l ++ PTok t :: r) (expr_assign_compound le re (curtok_to_compound_op t) false)
  | derives_comma l le r re :
      derives 1 l le -> derives 0 r re -> derives 0 (l ++ PTok token_comma :: r) (expr_comma le re)
with derives_args : list ptok -> list expr -> Prop :=
  | args_none : derives_args [] []
  | args_some a es : derives_args1 a es -> derives_args a es
with derives_args1 : list ptok -> list expr -> Prop :=
  | args_one ts e : derives 1 ts e -> derives_args1 ts [e]
  | args_more ts e a es :
      derives 1 ts e -> derives_args1 a es -> derives_args1 (ts ++ PTok token_comma :: a) (e :: es).

Scheme derives_mut := Minimality for derives Sort Prop
  with derives_args_mut := Minimality for derives_args Sort Prop
  with derives_args1_mut := Minimality for derives_args1 Sort Prop.
Combined Scheme derives_ind3 from derives_mut, derives_args_mut, derives_args1_mut.

(** Tokens an expression starts with. *)
Definition starts : list token :=
  [token_identifier; token_integer; token_open_paren; token_increment; token_decrement; token_and;
   token_multiply; token_plus; token_minus; token_bnot; token_not; token_sizeof].
Definition starts_postfix : list token := [token_identifier; token_integer; token_open_paren].

Lemma derives_starts (k : nat) (ts : list ptok) (e : expr) :
  derives k ts e ->
  exists p ts', ts = p :: ts' /\ ptok_kind p ∈ starts /\ ((14 <= k)%nat -> ptok_kind p ∈ starts_postfix).
Proof.
  intros H1.
  induction H1; try (destruct IHderives as (p & ts' & -> & Hp & Hq));
    try (destruct IHderives1 as (p & ts' & -> & Hp & Hq)); simpl;
    eexists _, _; (split; [reflexivity|]); simpl; (split; [|try (intros; lia)]);
    try in_list; try done; try (intros; in_list); try (intros; apply Hq; lia).
  match goal with Ht : _ ∈ unops |- _ => unfold unops in Ht; rewrite !elem_of_cons, elem_of_nil in Ht end.
  unfold starts. rewrite !elem_of_cons. intuition.
Qed.

Lemma ops_not_spell (k : nat) (t : token) : t ∈ ops_at k -> not_spell (PTok t).
Proof.
  do 15 (destruct k as [|k]; [simpl; rewrite ?elem_of_cons, elem_of_nil; intros Ht;
           repeat destruct Ht as [-> | Ht]; done|]).
  simpl. by rewrite elem_of_nil.
Qed.

(** An identifier in an expression has a spelling. *)
Lemma derives_spells (k : nat) (ts : list ptok) (e : expr) : derives k ts e -> Forall not_spell ts.
Proof.
  apply (derives_mut (fun _ ts _ => Forall not_spell ts) (fun ts _ => Forall not_spell ts)
           (fun ts _ => Forall not_spell ts)); intros; try (eapply Forall_impl; [eassumption|done]);
    rewrite ?Forall_app, ?Forall_cons, ?Forall_app, ?Forall_cons, ?Forall_app, ?Forall_nil;
    split_and?; try done; try (by eapply ops_not_spell).
  match goal with Ht : _ ∈ unops |- _ => unfold unops in Ht; rewrite !elem_of_cons, elem_of_nil in Ht end.
  by repeat match goal with Ht : _ \/ _ |- _ => destruct Ht as [-> | Ht] end.
Qed.

End grammar.

(** ** The parser by levels *)

Section parser.
Context `{Grammar} (keyword_mode junk : Z) (f : nat) (builtin_name : cstr -> bool).

Local Abbreviation yields := (yields keyword_mode junk f).
Local Abbreviation parsers_at := (parsers_at keyword_mode junk f).

(** Where no name is a type's, [parse_type] reads nothing from the start of an
    expression; a name that is no built-in function's is not parsed as one. *)
Hypothesis no_types :
  forall sc st, curtok st.1 ∈ starts -> spelled st.1 -> parse_type sc st = Ok (st, None).
Hypothesis no_builtins : forall sp sc st, builtin_name sp = false -> builtin_parse sp sc st = Ok (st, None).

(** The function for a level, and what its loop does after a first operand. *)
Definition level_parser (n : nat) (sc : scope) (ctx : bool) (k : nat) : P expr :=
  (match k with
   | 0 => parse_expr_exp | 1 => parse_expr_assignment | 2 => parse_expr_conditional
   | 3 => parse_expr_logical_or | 4 => parse_expr_logical_and | 5 => parse_expr_binary_or
   | 6 => parse_expr_binary_xor | 7 => parse_expr_binary_and | 8 => parse_expr_equality
   | 9 => parse_expr_relational | 10 => parse_expr_shift | 11 => parse_expr_additive
   | 12 => parse_expr_multi | 13 => parse_expr_unary | 14 => parse_expr_postfix
   | _ => parse_expr_primary
   end)%nat keyword_mode junk f n (parsers_at n) sc ctx.

Definition binary_level (k : nat) : bool := (3 <=? k)%nat && (k <=? 12)%nat.

Definition loop_at (n : nat) (sc : scope) (ctx : bool) (k fuel : nat) (e : expr) : P expr :=
  if binary_level k then generic_loop keyword_mode junk f fuel (level_parser n sc ctx (S k)) (ops_at k) e
  else if (k =? 14)%nat then parse_expr_postfix_with keyword_mode junk f n (parsers_at n) sc ctx fuel e
  else mret e.

Lemma binary_cases (k : nat) :
  binary_level k = true ->
  k = 3%nat \/ k = 4%nat \/ k = 5%nat \/ k = 6%nat \/ k = 7%nat \/ k = 8%nat \/ k = 9%nat \/ k = 10%nat
  \/ k = 11%nat \/ k = 12%nat.
Proof. unfold binary_level. lia. Qed.

Lemma level_binary (n : nat) (sc : scope) (ctx : bool) (k : nat) :
  binary_level k = true ->
  level_parser n sc ctx k = (e ← level_parser n sc ctx (S k); loop_at n sc ctx k n e).
Proof.
  intros Hk. unfold loop_at. rewrite Hk. apply binary_cases in Hk.
  repeat destruct Hk as [-> | Hk]; [..|subst k]; reflexivity.
Qed.

Lemma level_postfix (n : nat) (sc : scope) (ctx : bool) :
  level_parser n sc ctx 14 = (e ← level_parser n sc ctx 15; loop_at n sc ctx 14 n e).
Proof. done. Qed.

(** A level at which only the tokens of tighter levels must not follow. *)
Definition guard (k : nat) : nat := if binary_level k || (k =? 14)%nat then S k else k.

Definition stops (k : nat) (rest : list ptok) : Prop :=
  forall j, (k <= j)%nat -> head_kind rest ∉ ops_at j.

Lemma stops_mono (j k : nat) (rest : list ptok) : (j <= k)%nat -> stops j rest -> stops k rest.
Proof. intros Hj Hs i Hi. apply Hs. lia. Qed.

(** *** Steps of the monad *)

Lemma bind_ok {A B} (m : P A) (k : A -> P B) st st' a : m st = Ok (st', a) -> (m ≫= k) st = k a st'.
Proof. intros E. unfold mbind, P_bind. by rewrite E. Qed.

Lemma curtok_ok (s : lexer) (w : world) (ts : list ptok) :
  yields s ts -> get_curtok (s, w) = Ok ((s, w), head_kind ts).
Proof. intros Hy. unfold get_curtok. by rewrite <- (yields_curtok _ _ _ _ _ Hy). Qed.

Lemma EAT_ok (s : lexer) (w : world) (t : token) (ts : list ptok) :
  yields s (PTok t :: ts) ->
  exists s', EAT keyword_mode junk f t (s, w) = Ok ((s', w), true)
             /\ curtok_save s' = token_unknown /\ yields s' ts.
Proof.
  intros (_ & s' & He & Hs & Hy). exists s'. split; [|done]. unfold EAT, on_lexer. cbn [fst]. by rewrite He.
Qed.

Lemma accept_ok (s : lexer) (w : world) (t : token) (ts : list ptok) :
  yields s (PTok t :: ts) ->
  exists s', accept keyword_mode junk f t (s, w) = Ok ((s', w), true)
             /\ curtok_save s' = token_unknown /\ yields s' ts.
Proof.
  intros (Hc & s' & He & Hs & Hy). exists s'. split; [|done]. unfold accept, on_lexer, accept_where. cbn [fst].
  rewrite bool_decide_eq_true_2 by done. simpl in He |- *. by rewrite He.
Qed.

Lemma accept_no (s : lexer) (w : world) (t : token) (ts : list ptok) :
  yields s ts -> head_kind ts <> t -> accept keyword_mode junk f t (s, w) = Ok ((s, w), false).
Proof.
  intros Hy Ht. unfold accept, on_lexer, accept_where. cbn [fst].
  rewrite bool_decide_eq_false_2; [done|]. rewrite (yields_curtok _ _ _ _ _ Hy). congruence.
Qed.

Lemma identifier_ok (s : lexer) (w : world) (x : cstr) (ts : list ptok) :
  yields s (PWord x :: ts) ->
  exists s', parse_expr_identifier keyword_mode junk f (s, w) = Ok ((s', w), expr_identifier x)
             /\ curtok_save s' = token_unknown /\ yields s' ts.
Proof.
  intros (Hc & s' & ((_ & Hsp & Hs & Hn) & _) & Hs' & Hy). exists s'. split; [|done].
  unfold parse_expr_identifier, identifier, on_lexer, token_accept_identifier, mbind, P_bind. cbn [fst].
  rewrite Hc, bool_decide_eq_true_2 by done. cbn [negb]. rewrite Hn. simpl. by rewrite Hsp.
Qed.

(** *** Claims *)

(** Reading the tokens of an expression leaves its level's loop to do. *)
Definition reads (k : nat) (ts : list ptok) (e : expr) : Prop :=
  forall n sc ctx s w rest,
    (length ts <= n)%nat -> yields s (ts ++ rest) -> stops (guard k) rest ->
    exists m s', (m < length ts)%nat /\ curtok_save s' = token_unknown /\ yields s' rest
      /\ level_parser n sc ctx k (s, w) = loop_at n sc ctx k (n - m) e (s', w).

Lemma loop_ends (n : nat) (sc : scope) (ctx : bool) (k fuel : nat) (e : expr) (s : lexer) (w : world) rest :
  yields s rest -> stops k rest -> (0 < fuel)%nat -> loop_at n sc ctx k fuel e (s, w) = Ok ((s, w), e).
Proof.
  intros Hy Hs Hf. destruct fuel as [|fuel]; [lia|]. unfold loop_at.
  destruct (binary_level k) eqn:Hb.
  - cbn [generic_loop]. rewrite (bind_ok _ _ _ _ _ (curtok_ok _ _ _ Hy)).
    by rewrite bool_decide_eq_false_2 by (by apply Hs).
  - destruct (Nat.eqb_spec k 14) as [->|]; [|done]. cbn [parse_expr_postfix_with].
    assert (Hstep : postfix_step keyword_mode junk f n (parsers_at n) sc ctx e (s, w) = Ok ((s, w), None)).
    { unfold postfix_step. rewrite (bind_ok _ _ _ _ _ (curtok_ok _ _ _ Hy)).
      specialize (Hs 14%nat ltac:(lia)). destruct (head_kind rest); try done; exfalso; apply Hs; in_list. }
    by rewrite (bind_ok _ _ _ _ _ Hstep).
Qed.

Lemma reads_done (k : nat) (ts : list ptok) (e : expr) n sc ctx s w rest :
  reads k ts e -> (length ts <= n)%nat -> yields s (ts ++ rest) -> stops k rest ->
  exists s', curtok_save s' = token_unknown /\ yields s' rest
    /\ level_parser n sc ctx k (s, w) = Ok ((s', w), e).
Proof.
  intros Hr Hn Hy Hs. destruct (Hr n sc ctx s w rest Hn Hy) as (m & s' & Hm & Hu' & Hy' & ->).
  { eapply stops_mono; [|exact Hs]. unfold guard. destruct (_ || _)%bool; lia. }
  exists s'. split; [done|]. split; [done|]. eapply loop_ends; [done..|lia].
Qed.

Ltac step H := rewrite (bind_ok _ _ _ _ _ H); cbv beta.

Lemma stops_not (k : nat) (t : token) (rest : list ptok) : stops k rest -> t ∈ ops_at k -> head_kind rest <> t.
Proof. intros Hs Ht E. apply (Hs k); [done|by rewrite E]. Qed.

Lemma compound_in (t : token) :
  curtok_is_compound_assignment t = true <-> t ∈ ops_at 1 /\ t <> token_assign.
Proof.
  split.
  - destruct t; try discriminate; intros _; (split; [in_list|discriminate]).
  - intros [Hin Hne]. simpl in Hin. rewrite !elem_of_cons, elem_of_nil in Hin.
    by repeat destruct Hin as [-> | Hin].
Qed.

Lemma head_app (ts rest : list ptok) (p : ptok) (ts' : list ptok) :
  ts = p :: ts' -> head_kind (ts ++ rest) = ptok_kind p.
Proof. by intros ->. Qed.

(** *** From a level to the one below *)

Lemma reads_loop (k : nat) (ts : list ptok) (e : expr) :
  binary_level k || (k =? 14)%nat = true -> (0 < length ts)%nat -> reads (S k) ts e -> reads k ts e.
Proof.
  intros Hk Hl Hr n sc ctx s w rest Hn Hy Hs. unfold guard in Hs. rewrite Hk in Hs.
  destruct (reads_done _ _ _ n sc ctx s w rest Hr Hn Hy Hs) as (s' & Hu' & Hy' & Hp).
  exists 0%nat, s'. split; [done|]. split; [done|]. split; [done|]. rewrite Nat.sub_0_r.
  destruct (binary_level k) eqn:Hb.
  - rewrite level_binary by done. by step Hp.
  - apply Nat.eqb_eq in Hk. subst k. rewrite level_postfix. by step Hp.
Qed.

Lemma reads_unary (ts : list ptok) (e : expr) (p : ptok) (ts' : list ptok) :
  ts = p :: ts' -> ptok_kind p ∈ starts_postfix -> reads 14 ts e -> reads 13 ts e.
Proof.
  intros Hts Hp Hr n sc ctx s w rest Hn Hy Hs.
  destruct (reads_done _ _ _ n sc ctx s w rest Hr Hn Hy) as (s' & Hu' & Hy' & He).
  { eapply stops_mono; [|exact Hs]. unfold guard. simpl. lia. }
  exists 0%nat, s'. split; [subst ts; simpl; lia|]. split; [done|]. split; [done|].
  change (loop_at n sc ctx 13 (n - 0) e (s', w)) with (Ok ((s', w), e)). rewrite <- He.
  cbn [level_parser]. unfold parse_expr_unary. step (curtok_ok _ w _ Hy). rewrite (head_app _ _ _ _ Hts).
  unfold starts_postfix in Hp. rewrite !elem_of_cons, elem_of_nil in Hp.
  by destruct Hp as [-> | [-> | [-> | []]]].
Qed.

Lemma reads_conditional (ts : list ptok) (e : expr) : (0 < length ts)%nat -> reads 3 ts e -> reads 2 ts e.
Proof.
  intros Hl Hr n sc ctx s w rest Hn Hy Hs.
  destruct (reads_done _ _ _ n sc ctx s w rest Hr Hn Hy) as (s' & Hu' & Hy' & He).
  { eapply stops_mono; [|exact Hs]. unfold guard. simpl. lia. }
  exists 0%nat, s'. split; [done|]. split; [done|]. split; [done|]. cbn [level_parser].
  unfold parse_expr_conditional. step He. step (accept_no _ w token_question _ Hy' ltac:(eapply stops_not; [done|in_list])).
  done.
Qed.

Lemma reads_assignment (ts : list ptok) (e : expr) : (0 < length ts)%nat -> reads 2 ts e -> reads 1 ts e.
Proof.
  intros Hl Hr n sc ctx s w rest Hn Hy Hs.
  destruct (reads_done _ _ _ n sc ctx s w rest Hr Hn Hy) as (s' & Hu' & Hy' & He).
  { eapply stops_mono; [|exact Hs]. unfold guard. simpl. lia. }
  exists 0%nat, s'. split; [done|]. split; [done|]. split; [done|]. cbn [level_parser].
  unfold parse_expr_assignment. step He. step (accept_no _ w token_assign _ Hy' ltac:(eapply stops_not; [done|in_list])).
  step (curtok_ok _ w _ Hy'). destruct (curtok_is_compound_assignment (head_kind rest)) eqn:E; [|done].
  apply compound_in in E as [Hin _]. by apply (Hs 1%nat ltac:(done)) in Hin.
Qed.

Lemma reads_exp (ts : list ptok) (e : expr) : (0 < length ts)%nat -> reads 1 ts e -> reads 0 ts e.
Proof.
  intros Hl Hr n sc ctx s w rest Hn Hy Hs.
  destruct (reads_done _ _ _ n sc ctx s w rest Hr Hn Hy) as (s' & Hu' & Hy' & He).
  { eapply stops_mono; [|exact Hs]. unfold guard. simpl. lia. }
  exists 0%nat, s'. split; [done|]. split; [done|]. split; [done|]. cbn [level_parser].
  unfold parse_expr_exp. step He. step (accept_no _ w token_comma _ Hy' ltac:(eapply stops_not; [done|in_list])).
  done.
Qed.

Lemma reads_up (k : nat) (ts : list ptok) (e : expr) :
  (k < 15)%nat -> derives builtin_name (S k) ts e -> reads (S k) ts e -> reads k ts e.
Proof.
  intros Hk Hd Hr. destruct (derives_starts _ _ _ _ Hd) as (p & ts' & Hts & _ & Hp).
  assert (Hl : (0 < length ts)%nat) by (rewrite Hts; simpl; lia).
  destruct (binary_level k || (k =? 14)%nat)%bool eqn:Hb; [by apply reads_loop|].
  destruct (Nat.eq_dec k 13%nat) as [->|]; [by eapply reads_unary; [|apply Hp; lia|]|].
  destruct (Nat.eq_dec k 2%nat) as [->|]; [by apply reads_conditional|].
  destruct (Nat.eq_dec k 1%nat) as [->|]; [by apply reads_assignment|].
  destruct (Nat.eq_dec k 0%nat) as [->|]; [by apply reads_exp|].
  unfold binary_level in Hb. lia.
Qed.

(** *** What may follow *)

Definition level_of_op (t : token) : nat :=
  match t with
  | token_comma => 0
  | token_assign | token_plus_assign | token_minus_assign | token_multiply_assign | token_divide_assign
  | token_modulus_assign | token_not_assign | token_bnot_assign | token_and_assign | token_or_assign
  | token_xor_assign | token_shiftl_assign | token_shiftr_assign => 1
  | token_question => 2 | token_orsc => 3 | token_andsc => 4 | token_or => 5 | token_xor => 6
  | token_and => 7 | token_eq | token_ne => 8
  | token_lt | token_gt | token_le | token_ge => 9
  | token_shiftl | token_shiftr => 10 | token_plus | token_minus => 11
  | token_multiply | token_divide | token_modulus => 12
  | token_open_square | token_open_paren | token_dot | token_ptr | token_increment | token_decrement => 14
  | _ => 15
  end%nat.

Lemma ops_level (t : token) (j : nat) : t ∈ ops_at j -> level_of_op t = j /\ (j <= 14)%nat.
Proof.
  do 15 (destruct j as [|j]; [simpl; rewrite ?elem_of_cons, elem_of_nil; intros Ht;
           repeat destruct Ht as [-> | Ht]; simpl; (by split; [|lia]) || done|]).
  simpl. by rewrite elem_of_nil.
Qed.

Lemma stops_head (k : nat) (rest : list ptok) :
  (level_of_op (head_kind rest) < k \/ level_of_op (head_kind rest) = 15)%nat -> stops k rest.
Proof. intros Hl j Hj Hin. apply ops_level in Hin. lia. Qed.

(** The functions called again, by their level. *)
Definition field (k : nat) (p : parsers) : scope -> bool -> P expr :=
  match k with 0 => exp_ p | 1 => assignment_ p | 2 => conditional_ p | _ => unary_ p end%nat.

Lemma field_done (k : nat) (ts : list ptok) (e : expr) n sc ctx s w rest :
  (k <= 2 \/ k = 13)%nat -> reads k ts e -> (length ts < n)%nat -> yields s (ts ++ rest) -> stops k rest ->
  exists s', curtok_save s' = token_unknown /\ yields s' rest
    /\ field k (parsers_at n) sc ctx (s, w) = Ok ((s', w), e).
Proof.
  intros Hk Hr Hn Hy Hs. destruct n as [|n]; [lia|].
  destruct (reads_done k ts e n sc ctx s w rest Hr ltac:(lia) Hy Hs) as (s' & Hu' & Hy' & He).
  exists s'. split; [done|]. split; [done|]. rewrite <- He.
  assert (k = 0 \/ k = 1 \/ k = 2 \/ k = 13)%nat as Hc by lia. 
  destruct Hc as [-> | [-> | [-> | ->]]];
    cbn [field level_parser Parse.parsers_at exp_ assignment_ conditional_ unary_]; reflexivity.
Qed.

(** *** Primary expressions *)

Lemma reads_id (x : cstr) : reads 15 [PWord x] (expr_identifier x).
Proof.
  intros n sc ctx s w rest Hn Hy Hs. destruct (identifier_ok s w x rest Hy) as (s' & He & Hu' & Hy').
  exists 0%nat, s'. split; [simpl; lia|]. split; [done|]. split; [done|]. cbn [level_parser].
  unfold parse_expr_primary. step (curtok_ok s w _ Hy). cbn [head_kind ptok_kind app].
  step (accept_no s w token_open_paren _ Hy ltac:(done)). step (accept_no s w token_asm _ Hy ltac:(done)).
  step (curtok_ok s w _ Hy). cbn [head_kind ptok_kind app]. rewrite bool_decide_eq_true_2 by done. exact He.
Qed.

Lemma reads_int (v : numeric) : reads 15 [PInt v] (expr_val v).
Proof.
  intros n sc ctx s w rest Hn Hy Hs. pose proof Hy as (Hc & s' & (Hv & He) & Hu' & Hy').
  exists 0%nat, s'. split; [simpl; lia|]. split; [done|]. split; [done|]. cbn [level_parser].
  unfold parse_expr_primary. step (curtok_ok s w _ Hy). cbn [head_kind ptok_kind app].
  assert (get_currentval (s, w) = Ok ((s, w), v)) as Hval by (unfold get_currentval; by rewrite <- Hv). step Hval.
  assert (EAT keyword_mode junk f token_integer (s, w) = Ok ((s', w), true)) as Heat
    by (unfold EAT, on_lexer; cbn [fst]; by rewrite He).
  by step Heat.
Qed.

Lemma app_cons_app {A} (x : A) (ts : list A) (y : A) (rest : list A) :
  (x :: ts ++ [y]) ++ rest = x :: ts ++ y :: rest.
Proof. simpl. by rewrite <- app_assoc. Qed.

(** At the start of an expression there is no type and no block. *)
Lemma starts_here (k : nat) (ts : list ptok) (e : expr) s rest :
  derives builtin_name k ts e -> yields s (ts ++ rest) ->
  head_kind (ts ++ rest) ∈ starts /\ (forall sc w, parse_type sc (s, w) = Ok ((s, w), None)).
Proof.
  intros Hd Hy. destruct (derives_starts _ _ _ _ Hd) as (p & ts' & -> & Hp & _). split; [exact Hp|].
  intros sc w. apply no_types; cbn [fst]; [rewrite (yields_curtok _ _ _ _ _ Hy); exact Hp|].
  eapply yields_spelled; [exact Hy|reflexivity|]. apply derives_spells in Hd. by inversion Hd.
Qed.

Lemma starts_not (t u : token) : t ∈ starts -> bool_decide (u ∈ starts) = false -> t <> u.
Proof. intros Ht Hu ->. by rewrite bool_decide_eq_true_2 in Hu. Qed.

Lemma reads_parens (ts : list ptok) (e : expr) :
  derives builtin_name 0 ts e -> reads 0 ts e ->
  reads 15 (PTok token_open_paren :: ts ++ [PTok token_close_paren]) (set_in_parens e).
Proof.
  intros Hd Hr n sc ctx s w rest Hn Hy Hs. rewrite app_cons_app in Hy.
  rewrite length_cons, length_app in Hn. simpl in Hn.
  destruct (accept_ok s w _ _ Hy) as (s1 & Ha & Hu1 & Hy1).
  destruct (starts_here 0 ts e s1 _ Hd Hy1) as [Hin Hty].
  destruct (field_done 0 ts e n sc ctx s1 w _ ltac:(lia) Hr ltac:(lia) Hy1) as (s2 & Hu2 & Hy2 & He).
  { apply stops_head. by right. }
  destruct (EAT_ok s2 w _ _ Hy2) as (s3 & He3 & Hu3 & Hy3).
  exists 0%nat, s3. split; [simpl; lia|]. split; [done|]. split; [done|]. cbn [level_parser].
  unfold parse_expr_primary. step (curtok_ok s w _ Hy). cbn [head_kind ptok_kind].
  step Ha. unfold parse_parens. step (Hty sc w). step (curtok_ok s1 w _ Hy1).
  rewrite bool_decide_eq_false_2 by (apply (starts_not _ _ Hin); reflexivity).
  assert (Hb : (e ← exp_ (parsers_at n) sc ctx; mret (set_in_parens e)) (s1, w) = Ok ((s2, w), set_in_parens e))
    by (by step He).
  step Hb. by step He3.
Qed.

(** *** Postfix expressions *)

(** One more turn of the loop. *)
Lemma reads_postfix (l ts : list ptok) (le e : expr) (p : ptok) (ts' : list ptok) :
  ts = p :: ts' -> ptok_kind p ∈ ops_at 14 -> reads 14 l le ->
  (forall n sc ctx s w rest,
     (S (length ts) <= n)%nat -> yields s (ts ++ rest) ->
     exists s', curtok_save s' = token_unknown /\ yields s' rest
       /\ postfix_step keyword_mode junk f n (parsers_at n) sc ctx le (s, w) = Ok ((s', w), Some e)) ->
  (0 < length l)%nat -> reads 14 (l ++ ts) e.
Proof.
  intros Hts Hp Hr Hstep Hl n sc ctx s w rest Hn Hy Hs. rewrite <- app_assoc in Hy.
  rewrite length_app in Hn.
  destruct (Hr n sc ctx s w (ts ++ rest) ltac:(lia) Hy) as (m & s1 & Hm & Hu1 & Hy1 & Hlp).
  { intros j Hj Hin. apply ops_level in Hin. unfold guard in Hj. simpl in Hj. lia. }
  destruct (Hstep n sc ctx s1 w rest ltac:(lia) Hy1) as (s2 & Hu2 & Hy2 & He).
  exists (S m), s2. rewrite length_app. assert (0 < length ts)%nat by (rewrite Hts; simpl; lia).
  split; [lia|]. split; [done|]. split; [done|]. rewrite Hlp. unfold loop_at.
  change (binary_level 14) with false. rewrite Nat.eqb_refl. cbv iota. destruct (n - m)%nat as [|x] eqn:E; [lia|].
  cbn [parse_expr_postfix_with]. step He. by replace (n - S m)%nat with x by lia.
Qed.

Lemma reads_index (l : list ptok) (le : expr) (i : list ptok) (ie : expr) :
  (0 < length l)%nat -> reads 14 l le -> reads 0 i ie ->
  reads 14 (l ++ PTok token_open_square :: i ++ [PTok token_close_square])
    (expr_deref (expr_op op_plus le (Some ie) true)).
Proof.
  intros Hl Hr Hi. eapply reads_postfix; [done|in_list|done| |done].
  intros n sc ctx s w rest Hn Hy. rewrite app_cons_app in Hy. rewrite length_cons, length_app in Hn.
  destruct (EAT_ok s w _ _ Hy) as (s1 & Ha & Hu1 & Hy1).
  destruct (field_done 0 i ie n sc ctx s1 w _ ltac:(lia) Hi ltac:(lia) Hy1) as (s2 & Hu2 & Hy2 & He).
  { apply stops_head. by right. }
  destruct (EAT_ok s2 w _ _ Hy2) as (s3 & He3 & Hu3 & Hy3). exists s3. split; [done|]. split; [done|].
  unfold postfix_step. step (curtok_ok s w _ Hy). cbn [head_kind ptok_kind]. step Ha. step He. by step He3.
Qed.

Lemma reads_member (l : list ptok) (le : expr) (t : token) (dot : bool) (x : cstr) :
  (t = token_dot /\ dot = true) \/ (t = token_ptr /\ dot = false) ->
  (0 < length l)%nat -> reads 14 l le ->
  reads 14 (l ++ [PTok t; PWord x]) (expr_struct le dot (expr_identifier x)).
Proof.
  intros Ht Hl Hr. eapply reads_postfix; [done|by destruct Ht as [[-> _]|[-> _]]; in_list|done| |done].
  intros n sc ctx s w rest Hn Hy. cbn [app] in Hy.
  destruct (EAT_ok s w _ _ Hy) as (s1 & Ha & Hu1 & Hy1).
  destruct (identifier_ok s1 w x rest Hy1) as (s2 & He & Hu2 & Hy2). exists s2. split; [done|]. split; [done|].
  unfold postfix_step. step (curtok_ok s w _ Hy). cbn [head_kind ptok_kind].
  destruct Ht as [[-> ->]|[-> ->]]; step Ha; by step He.
Qed.

Lemma reads_post (l : list ptok) (le : expr) (t : token) (op : op_type) :
  (t = token_increment /\ op = op_plus) \/ (t = token_decrement /\ op = op_minus) ->
  (0 < length l)%nat -> reads 14 l le ->
  reads 14 (l ++ [PTok t]) (expr_assign_compound le (expr_new_val 1) op true).
Proof.
  intros Ht Hl Hr. eapply reads_postfix; [done|by destruct Ht as [[-> _]|[-> _]]; in_list|done| |done].
  intros n sc ctx s w rest Hn Hy. cbn [app] in Hy.
  destruct (EAT_ok s w _ _ Hy) as (s1 & Ha & Hu1 & Hy1). exists s1. split; [done|]. split; [done|].
  unfold postfix_step. step (curtok_ok s w _ Hy). cbn [head_kind ptok_kind].
  destruct Ht as [[-> ->]|[-> ->]]; by step Ha.
Qed.

(** Arguments up to the closing parenthesis. *)
Definition reads_args (a : list ptok) (es : list expr) : Prop :=
  forall n sc ctx s w rest,
    (length a < n)%nat -> yields s (a ++ PTok token_close_paren :: rest) ->
    exists s', yields s' (PTok token_close_paren :: rest)
      /\ parse_funcargs keyword_mode junk f n (parsers_at n) sc ctx (s, w) = Ok ((s', w), es).

Definition reads_args1 (a : list ptok) (es : list expr) : Prop :=
  (exists p a', a = p :: a' /\ ptok_kind p ∈ starts)
  /\ forall n fl sc ctx s w rest,
    (length a < n)%nat -> (length a <= fl)%nat -> yields s (a ++ PTok token_close_paren :: rest) ->
    exists s', curtok_save s' = token_unknown /\ yields s' (PTok token_close_paren :: rest)
      /\ funcargs_loop keyword_mode junk f (parsers_at n) sc ctx fl (s, w) = Ok ((s', w), es).

Lemma reads_args_none : reads_args [] [].
Proof.
  intros n sc ctx s w rest Hn Hy. exists s. split; [done|].
  unfold parse_funcargs. by step (curtok_ok s w _ Hy).
Qed.

Lemma reads_args_some (a : list ptok) (es : list expr) : reads_args1 a es -> reads_args a es.
Proof.
  intros [(p & a' & Ha & Hp) Hr] n sc ctx s w rest Hn Hy.
  destruct (Hr n n sc ctx s w rest Hn ltac:(lia) Hy) as (s' & Hu' & Hy' & He). exists s'.
  split; [done|]. unfold parse_funcargs. step (curtok_ok s w _ Hy).
  rewrite (head_app _ _ _ _ Ha). by rewrite bool_decide_eq_false_2 by (apply (starts_not _ _ Hp); reflexivity).
Qed.

Lemma reads_args_one (ts : list ptok) (e : expr) :
  derives builtin_name 1 ts e -> reads 1 ts e -> reads_args1 ts [e].
Proof.
  intros Hd Hr. destruct (derives_starts _ _ _ _ Hd) as (p & ts' & Hts & Hp & _). split; [by eauto|].
  intros n fl sc ctx s w rest Hn Hfl Hy.
  destruct (field_done 1 ts e n sc ctx s w _ ltac:(lia) Hr Hn Hy) as (s1 & Hu1 & Hy1 & He).
  { apply stops_head. by right. }
  exists s1. split; [done|]. split; [done|]. destruct fl as [|fl]; [rewrite Hts in Hfl; simpl in Hfl; lia|].
  cbn [funcargs_loop]. step He. by step (accept_no s1 w token_comma _ Hy1 ltac:(done)).
Qed.

Lemma reads_args_more (ts : list ptok) (e : expr) (a : list ptok) (es : list expr) :
  derives builtin_name 1 ts e -> reads 1 ts e -> reads_args1 a es ->
  reads_args1 (ts ++ PTok token_comma :: a) (e :: es).
Proof.
  intros Hd Hr [_ Ha]. destruct (derives_starts _ _ _ _ Hd) as (p & ts' & Hts & Hp & _).
  split; [rewrite Hts; simpl; by eauto|]. intros n fl sc ctx s w rest Hn Hfl Hy.
  rewrite <- app_assoc in Hy. cbn [app] in Hy. rewrite length_app in Hn, Hfl. simpl in Hn, Hfl.
  destruct (field_done 1 ts e n sc ctx s w _ ltac:(lia) Hr ltac:(lia) Hy) as (s1 & Hu1 & Hy1 & He).
  { apply stops_head. left. simpl. lia. }
  destruct (accept_ok s1 w _ _ Hy1) as (s2 & Hacc & Hu2 & Hy2).
  destruct fl as [|fl]; [lia|].
  destruct (Ha n fl sc ctx s2 w rest ltac:(lia) ltac:(lia) Hy2) as (s3 & Hu3 & Hy3 & He3).
  exists s3. split; [done|]. split; [done|]. cbn [funcargs_loop]. step He. step Hacc. by step He3.
Qed.

Lemma reads_call (l : list ptok) (le : expr) (a : list ptok) (es : list expr) :
  (0 < length l)%nat -> reads 14 l le -> callable builtin_name le -> reads_args a es ->
  reads 14 (l ++ PTok token_open_paren :: a ++ [PTok token_close_paren]) (expr_funcall le es).
Proof.
  intros Hl Hr Hc Ha. eapply reads_postfix; [done|in_list|done| |done].
  intros n sc ctx s w rest Hn Hy. rewrite app_cons_app in Hy. rewrite length_cons, length_app in Hn.
  destruct (EAT_ok s w _ _ Hy) as (s1 & He1 & Hu1 & Hy1).
  destruct (Ha n sc ctx s1 w rest ltac:(simpl in Hn; lia) Hy1) as (s2 & Hy2 & He2).
  destruct (EAT_ok s2 w _ _ Hy2) as (s3 & He3 & Hu3 & Hy3). exists s3. split; [done|]. split; [done|].
  unfold postfix_step. step (curtok_ok s w _ Hy). cbn [head_kind ptok_kind]. step He1.
  assert (Hb : (match expr_ident_spel le with
                | Some sp => builtin_parse sp sc
                | None => mret None
                end : P (option cbuiltin)) (s1, w) = Ok ((s1, w), None)).
  { unfold callable in Hc. destruct (expr_ident_spel le); [by apply no_builtins|done]. }
  step Hb.
  assert (Hcall : (args ← parse_funcargs keyword_mode junk f n (parsers_at n) sc ctx; mret (expr_funcall le args)) (s1, w)
                  = Ok ((s2, w), expr_funcall le es)) by (by step He2).
  step Hcall. by step He3.
Qed.

(** *** Unary expressions *)

(** A prefix [t], given how [parse_expr_unary] starts on it. *)
Lemma reads_prefix (t : token) (g : expr -> expr) (ts : list ptok) (e : expr) :
  (forall n sc ctx s w ts', yields s (PTok t :: ts') ->
     level_parser n sc ctx 13 (s, w)
     = (_ ← EAT keyword_mode junk f t; e ← unary_ (parsers_at n) sc ctx; mret (g e)) (s, w)) ->
  reads 13 ts e -> reads 13 (PTok t :: ts) (g e).
Proof.
  intros Hun Hr n sc ctx s w rest Hn Hy Hs. simpl in Hn. rewrite <- app_comm_cons in Hy.
  destruct (EAT_ok s w _ _ Hy) as (s1 & He1 & Hu1 & Hy1).
  destruct (field_done 13 ts e n sc ctx s1 w rest ltac:(lia) Hr ltac:(lia) Hy1) as (s2 & Hu2 & Hy2 & He2);
    [exact Hs|].
  exists 0%nat, s2. split; [simpl; lia|]. split; [done|]. split; [done|]. rewrite (Hun n sc ctx s w _ Hy).
  step He1. by step He2.
Qed.

Ltac prefix w Hy := cbn [level_parser]; unfold parse_expr_unary; by step (curtok_ok _ w _ Hy).

Lemma reads_unop (t : token) (ts : list ptok) (e : expr) :
  t ∈ unops -> reads 13 ts e -> reads 13 (PTok t :: ts) (expr_op (curtok_to_op t) e None false).
Proof.
  intros Ht. apply (reads_prefix t (fun e => expr_op (curtok_to_op t) e None false)).
  intros n sc ctx s w ts' Hy. unfold unops in Ht. rewrite !elem_of_cons, elem_of_nil in Ht.
  destruct Ht as [-> | [-> | [-> | [-> | []]]]]; prefix w Hy.
Qed.

Lemma bind_ret {A} (m : P A) st : (x ← m; mret x) st = m st.
Proof. unfold mbind, P_bind. by destruct (m st) as [[? ?]| | | |]. Qed.

(** After a first parenthesis an expression starts again. *)
Lemma derives_inner (k : nat) (ts : list ptok) (e : expr) :
  derives builtin_name k ts e ->
  forall inner, ts = PTok token_open_paren :: inner -> exists p ts', inner = p :: ts' /\ ptok_kind p ∈ starts.
Proof.
  induction 1; intros inner E; try discriminate E; try (by eapply IHderives);
    try match goal with
        | Hd : derives _ _ ?l _, IH : forall inner, ?l = _ -> _ |- _ =>
            destruct (derives_starts _ _ _ _ Hd) as (p & ts' & El & Hp & _); rewrite El in E; injection E as -> <-;
            destruct (IH _ El) as (q & ts'' & -> & Hq); simpl; by eauto
        end.
  - injection E as <-. destruct (derives_starts _ _ _ _ H1) as (p & ts' & -> & Hp & _). simpl. by eauto.
  - injection E as -> _. unfold unops in H1. rewrite !elem_of_cons, elem_of_nil in H1.
    by repeat destruct H1 as [? | H1].
Qed.

(** [sizeof] looks for a type in parentheses, and puts the parenthesis back. *)
Lemma reads_sizeof (ts : list ptok) (e : expr) :
  derives builtin_name 13 ts e -> reads 13 ts e ->
  reads 13 (PTok token_sizeof :: ts) (expr_sizeof_expr e what_sizeof).
Proof.
  intros Hd Hr n sc ctx s w rest Hn Hy Hs. simpl in Hn. rewrite <- app_comm_cons in Hy.
  destruct (EAT_ok s w _ _ Hy) as (s1 & He1 & Hu1 & Hy1).
  assert (Hend : forall s0, yields s0 (ts ++ rest) ->
            exists s', curtok_save s' = token_unknown /\ yields s' rest
              /\ (e ← unary_ (parsers_at n) sc false; mret (expr_sizeof_expr e what_sizeof)) (s0, w)
                 = Ok ((s', w), expr_sizeof_expr e what_sizeof)).
  { intros s0 Hy0. destruct (field_done 13 ts e n sc false s0 w rest ltac:(lia) Hr ltac:(lia) Hy0 Hs)
      as (s2 & Hu2 & Hy2 & He2). exists s2. split; [done|]. split; [done|]. by step He2. }
  assert (Hgoal : exists s', curtok_save s' = token_unknown /\ yields s' rest
            /\ level_parser n sc ctx 13 (s, w) = Ok ((s', w), expr_sizeof_expr e what_sizeof)).
  { cbn [level_parser]. unfold parse_expr_unary. setoid_rewrite (bind_ok _ _ _ _ _ (curtok_ok s w _ Hy)).
    cbn [head_kind ptok_kind]. unfold parse_expr_sizeof_typeof_alignof.
    setoid_rewrite (bind_ok _ _ _ _ _ (curtok_ok s w _ Hy)). cbn [head_kind ptok_kind].
    assert (Hw : fail (what_of_token token_sizeof) (s, w) = Ok ((s, w), what_sizeof)) by done.
    setoid_rewrite (bind_ok _ _ _ _ _ Hw). setoid_rewrite (bind_ok _ _ _ _ _ He1).
    destruct (decide (head_kind (ts ++ rest) = token_open_paren)) as [Hopen|Hopen].
    - destruct (derives_starts _ _ _ _ Hd) as (p & ts' & Hts & Hp & _).
      rewrite (head_app _ _ _ _ Hts) in Hopen. destruct p as [| |t]; try discriminate Hopen. simpl in Hopen. subst t.
      rewrite Hts in Hy1. cbn [app] in Hy1.
      destruct (accept_ok s1 w _ _ Hy1) as (s2 & Ha & Hu2 & Hy2). setoid_rewrite (bind_ok _ _ _ _ _ Ha).
      destruct (derives_inner _ _ _ Hd ts' Hts) as (q & ts'' & -> & Hin).
      assert (Hty : parse_type sc (s2, w) = Ok ((s2, w), None)).
      { apply no_types; cbn [fst]; [by rewrite (yields_curtok _ _ _ _ _ Hy2)|].
        eapply yields_spelled; [exact Hy2|reflexivity|]. apply derives_spells in Hd. rewrite Hts in Hd.
        by inversion Hd as [|? ? _ Hd']; inversion Hd'. }
      setoid_rewrite (bind_ok _ _ _ _ _ Hty).
      destruct (uneat_yields keyword_mode junk f s2 _ Hy2 Hu2) as (s3 & Hun & Hy3).
      { rewrite (yields_curtok _ _ _ _ _ Hy2). apply (starts_not _ _ Hin). reflexivity. }
      assert (Hune : uneat_ token_open_paren (s2, w) = Ok ((s3, w), tt))
        by (unfold uneat_, on_lexer; cbn [fst]; by rewrite Hun).
      setoid_rewrite (bind_ok _ _ _ _ _ Hune). apply Hend. by rewrite Hts.
    - setoid_rewrite (bind_ok _ _ _ _ _ (accept_no s1 w _ _ Hy1 Hopen)). by apply Hend. }
  destruct Hgoal as (s' & Hu' & Hy' & He). exists 0%nat, s'. split; [simpl; lia|]. split; [done|]. by split.
Qed.

(** *** Binary operators, conditionals, assignments, commas *)

Lemma reads_binary (k : nat) (t : token) (l : list ptok) (le : expr) (r : list ptok) (re : expr) :
  binary_level k = true -> t ∈ ops_at k -> reads k l le -> reads (S k) r re ->
  reads k (l ++ PTok t :: r) (expr_op (curtok_to_op t) le (Some re) false).
Proof.
  intros Hk Ht Hl Hr n sc ctx s w rest Hn Hy Hs. rewrite <- app_assoc in Hy. cbn [app] in Hy.
  rewrite length_app, length_cons in Hn. unfold guard in Hs. rewrite Hk in Hs. simpl in Hs.
  pose proof (ops_level _ _ Ht) as [Hlev _].
  destruct (Hl n sc ctx s w (PTok t :: r ++ rest) ltac:(lia) Hy) as (m & s1 & Hm & Hu1 & Hy1 & Hlp).
  { apply stops_head. left. unfold guard. rewrite Hk. simpl. lia. }
  destruct (EAT_ok s1 w _ _ Hy1) as (s2 & He2 & Hu2 & Hy2).
  destruct (reads_done (S k) r re n sc ctx s2 w rest Hr ltac:(lia) Hy2 Hs) as (s3 & Hu3 & Hy3 & He3).
  exists (S m), s3. rewrite length_app. split; [simpl; lia|]. split; [done|]. split; [done|].
  rewrite Hlp. unfold loop_at. rewrite Hk. destruct (n - m)%nat as [|x] eqn:E; [lia|]. cbn [generic_loop].
  step (curtok_ok s1 w _ Hy1). cbn [head_kind ptok_kind]. rewrite bool_decide_eq_true_2 by done.
  step He2. step He3. by replace (n - S m)%nat with x by lia.
Qed.

Lemma reads_elvis (c : list ptok) (ce : expr) (r : list ptok) (re : expr) :
  reads 3 c ce -> reads 2 r re ->
  reads 2 (c ++ PTok token_question :: PTok token_colon :: r) (expr_if ce None re).
Proof.
  intros Hc Hr n sc ctx s w rest Hn Hy Hs. rewrite <- app_assoc in Hy. cbn [app] in Hy.
  rewrite length_app, !length_cons in Hn.
  destruct (reads_done 3 c ce n sc ctx s w _ Hc ltac:(lia) Hy) as (s1 & Hu1 & Hy1 & He1).
  { apply stops_head. left. simpl. lia. }
  destruct (accept_ok s1 w _ _ Hy1) as (s2 & He2 & Hu2 & Hy2).
  destruct (accept_ok s2 w _ _ Hy2) as (s3 & He3 & Hu3 & Hy3).
  destruct (field_done 2 r re n sc ctx s3 w rest ltac:(lia) Hr ltac:(lia) Hy3 Hs) as (s4 & Hu4 & Hy4 & He4).
  exists 0%nat, s4. rewrite length_app. split; [simpl; lia|]. split; [done|]. split; [done|].
  cbn [level_parser]. unfold parse_expr_conditional. step He1. step He2. step He3.
  assert (Hb : (mret None : P (option expr)) (s3, w) = Ok ((s3, w), None)) by done.
  step Hb. by step He4.
Qed.

Lemma reads_if (c : list ptok) (ce : expr) (m : list ptok) (me : expr) (r : list ptok) (re : expr) :
  reads 3 c ce -> derives builtin_name 0 m me -> reads 0 m me -> reads 2 r re ->
  reads 2 (c ++ PTok token_question :: m ++ PTok token_colon :: r) (expr_if ce (Some me) re).
Proof.
  intros Hc Hd Hm Hr n sc ctx s w rest Hn Hy Hs. rewrite <- app_assoc in Hy. cbn [app] in Hy.
  rewrite <- app_assoc in Hy. cbn [app] in Hy. rewrite length_app, length_cons, length_app, length_cons in Hn.
  destruct (reads_done 3 c ce n sc ctx s w _ Hc ltac:(lia) Hy) as (s1 & Hu1 & Hy1 & He1).
  { apply stops_head. left. simpl. lia. }
  destruct (accept_ok s1 w _ _ Hy1) as (s2 & He2 & Hu2 & Hy2).
  destruct (starts_here 0 m me s2 _ Hd Hy2) as [Hin _].
  destruct (field_done 0 m me n sc ctx s2 w _ ltac:(lia) Hm ltac:(lia) Hy2) as (s3 & Hu3 & Hy3 & He3).
  { apply stops_head. by right. }
  destruct (EAT_ok s3 w _ _ Hy3) as (s4 & He4 & Hu4 & Hy4).
  destruct (field_done 2 r re n sc ctx s4 w rest ltac:(lia) Hr ltac:(lia) Hy4 Hs) as (s5 & Hu5 & Hy5 & He5).
  exists 0%nat, s5. rewrite length_app. split; [simpl; lia|]. split; [done|]. split; [done|].
  cbn [level_parser]. unfold parse_expr_conditional. step He1. step He2.
  step (accept_no s2 w token_colon _ Hy2 ltac:(apply (starts_not _ _ Hin); reflexivity)).
  assert (Hb : (lhs ← exp_ (parsers_at n) sc ctx; _ ← EAT keyword_mode junk f token_colon; mret (Some lhs)) (s2, w)
               = Ok ((s4, w), Some me)) by (step He3; by step He4).
  step Hb. by step He5.
Qed.

Lemma reads_assign (l : list ptok) (le : expr) (r : list ptok) (re : expr) :
  reads 2 l le -> reads 1 r re -> reads 1 (l ++ PTok token_assign :: r) (expr_assign le re).
Proof.
  intros Hl Hr n sc ctx s w rest Hn Hy Hs. rewrite <- app_assoc in Hy. cbn [app] in Hy.
  rewrite length_app, length_cons in Hn.
  destruct (reads_done 2 l le n sc ctx s w _ Hl ltac:(lia) Hy) as (s1 & Hu1 & Hy1 & He1).
  { apply stops_head. left. simpl. lia. }
  destruct (accept_ok s1 w _ _ Hy1) as (s2 & He2 & Hu2 & Hy2).
  destruct (field_done 1 r re n sc ctx s2 w rest ltac:(lia) Hr ltac:(lia) Hy2 Hs) as (s3 & Hu3 & Hy3 & He3).
  exists 0%nat, s3. rewrite length_app. split; [simpl; lia|]. split; [done|]. split; [done|].
  cbn [level_parser]. unfold parse_expr_assignment. step He1. step He2. by step He3.
Qed.

Lemma reads_compound (t : token) (l : list ptok) (le : expr) (r : list ptok) (re : expr) :
  t ∈ ops_at 1 -> t <> token_assign -> reads 2 l le -> reads 1 r re ->
  reads 1 (l ++ PTok t :: r) (expr_assign_compound le re (curtok_to_compound_op t) false).
Proof.
  intros Ht Hne Hl Hr n sc ctx s w rest Hn Hy Hs. rewrite <- app_assoc in Hy. cbn [app] in Hy.
  rewrite length_app, length_cons in Hn. pose proof (ops_level _ _ Ht) as [Hlev _].
  destruct (reads_done 2 l le n sc ctx s w _ Hl ltac:(lia) Hy) as (s1 & Hu1 & Hy1 & He1).
  { apply stops_head. left. simpl. lia. }
  destruct (EAT_ok s1 w _ _ Hy1) as (s2 & He2 & Hu2 & Hy2).
  destruct (field_done 1 r re n sc ctx s2 w rest ltac:(lia) Hr ltac:(lia) Hy2 Hs) as (s3 & Hu3 & Hy3 & He3).
  exists 0%nat, s3. rewrite length_app. split; [simpl; lia|]. split; [done|]. split; [done|].
  cbn [level_parser]. unfold parse_expr_assignment. step He1.
  step (accept_no s1 w token_assign _ Hy1 Hne). step (curtok_ok s1 w _ Hy1). cbn [head_kind ptok_kind].
  rewrite (proj2 (compound_in t)) by done. step He2. by step He3.
Qed.

Lemma reads_comma (l : list ptok) (le : expr) (r : list ptok) (re : expr) :
  reads 1 l le -> reads 0 r re -> reads 0 (l ++ PTok token_comma :: r) (expr_comma le re).
Proof.
  intros Hl Hr n sc ctx s w rest Hn Hy Hs. rewrite <- app_assoc in Hy. cbn [app] in Hy.
  rewrite length_app, length_cons in Hn.
  destruct (reads_done 1 l le n sc ctx s w _ Hl ltac:(lia) Hy) as (s1 & Hu1 & Hy1 & He1).
  { apply stops_head. left. simpl. lia. }
  destruct (accept_ok s1 w _ _ Hy1) as (s2 & He2 & Hu2 & Hy2).
  destruct (field_done 0 r re n sc ctx s2 w rest ltac:(lia) Hr ltac:(lia) Hy2 Hs) as (s3 & Hu3 & Hy3 & He3).
  exists 0%nat, s3. rewrite length_app. split; [simpl; lia|]. split; [done|]. split; [done|].
  cbn [level_parser]. unfold parse_expr_exp. step He1. step He2. by step He3.
Qed.

(** *** The grammar is what is read *)

Lemma derives_nonempty (k : nat) (ts : list ptok) (e : expr) : derives builtin_name k ts e -> (0 < length ts)%nat.
Proof. intros Hd. destruct (derives_starts _ _ _ _ Hd) as (p & ts' & -> & _). simpl. lia. Qed.

Lemma derives_reads (k : nat) (ts : list ptok) (e : expr) : derives builtin_name k ts e -> reads k ts e.
Proof using no_types no_builtins.
  apply (derives_mut builtin_name reads reads_args reads_args1); intros;
    try (assert (0 < length l)%nat by (by eapply derives_nonempty));
    try (match goal with Ht : (3 <= ?k <= 12)%nat |- _ =>
           assert (binary_level k = true) by (unfold binary_level; lia) end);
    eauto using reads_up, reads_id, reads_int, reads_parens, reads_index, reads_call, reads_unop, reads_sizeof,
      reads_binary, reads_if, reads_elvis, reads_assign, reads_compound, reads_comma,
      reads_args_none, reads_args_some, reads_args_one, reads_args_more.
  - apply reads_member; auto.
  - apply reads_member; auto.
  - apply reads_post; auto.
  - apply reads_post; auto.
  - apply (reads_prefix token_increment (fun e => expr_assign_compound e (expr_new_val 1) op_plus false));
      [intros n sc ctx s w ts' Hy; prefix w Hy|done].
  - apply (reads_prefix token_decrement (fun e => expr_assign_compound e (expr_new_val 1) op_minus false));
      [intros n sc ctx s w ts' Hy; prefix w Hy|done].
  - apply (reads_prefix token_and expr_addr); [intros n sc ctx s w ts' Hy; prefix w Hy|done].
  - apply (reads_prefix token_multiply expr_deref); [intros n sc ctx s w ts' Hy; prefix w Hy|done].
Qed.

(** the parser implements C's grammar of expressions: reading from a buffer
    that holds the tokens of an expression, followed by a token that does not
    carry it on, gives its tree and leaves the buffer at that token; fuel for as
    many calls as there are tokens is enough. *)
Theorem parse_grammar (ts : list ptok) (e : expr) (n : nat) (sc : scope) (ctx : bool) (s : lexer) (w : world)
    (rest : list ptok) :
  derives builtin_name 0 ts e -> (length ts <= n)%nat -> yields s (ts ++ rest) ->
  level_of_op (head_kind rest) = 15%nat ->
  exists s', parse_expr_exp keyword_mode junk f n (parsers_at n) sc ctx (s, w) = Ok ((s', w), e)
             /\ yields s' rest.
Proof using no_types no_builtins.
  intros Hd Hn Hy Hl.
  destruct (reads_done 0 ts e n sc ctx s w rest (derives_reads _ _ _ Hd) Hn Hy) as (s' & _ & Hy' & He).
  { apply stops_head. by right. }
  exists s'. by split.
Qed.

(** *** From the text *)

(** What a lexeme is to the parser. *)
Definition ptok_of (l : lexeme) : ptok :=
  match l with
  | Word w => if bool_decide (token_of keyword_mode l = token_identifier) then PWord w
              else PTok (token_of keyword_mode l)
  | Int mode _ ds x => PInt (value_of mode ds x)
  | Punct _ => PTok (token_of keyword_mode l)
  end.

Lemma eaten (s s' : lexer) (f' : nat) :
  curtok_save s = token_unknown -> nexttoken keyword_mode junk (S f') s = Ok s' ->
  eat2 (nexttoken keyword_mode junk (S f')) (curtok s) 0 s = Ok (s', true).
Proof. intros Hsv E. unfold eat2. rewrite bool_decide_eq_true_2, Hsv by done. cbn [negb]. by rewrite E. Qed.

(** At the end of the text. *)
Lemma yields_end (f' : nat) (s : lexer) :
  buffereof (rd s) = true -> curtok s = token_eof -> curtok_save s = token_unknown ->
  Parsing.yields keyword_mode junk (S f') s [].
Proof.
  intros He Ht Hsv. split; [done|]. rewrite <- Ht. eexists. apply eaten; [done|].
  cbn [nexttoken]. rewrite Ht, bool_decide_eq_false_2 by done. by rewrite He.
Qed.

(** What is read from a place in the text. *)
Definition reads_from (f' : nat) (x : place) : Prop :=
  forall s, stands (rd s) x -> curtok s <> token_string -> curtok_save s = token_unknown ->
    exists s', nexttoken keyword_mode junk (S f') s = Ok s' /\ curtok_save s' = token_unknown
      /\ Parsing.yields keyword_mode junk (S f') s' (map ptok_of (lexemes_at x)).

Lemma reads_from_end (f' : nat) (tl : cstr) : reads_from f' (mk_place [] tl []).
Proof.
  intros s (n & k & Hat & Hok & _) Ht Hsv. cbn [items tail lines items_text items_ok map] in *.
  destruct (at_eol _ _ _ _ _ Hat Hok) as (Hnext & He & Hi & _).
  rewrite nexttoken_eq by (try done; apply Hat). rewrite Hnext, (nextchar_end _ He Hi). run.
  change (EOF =c EOF) with true. cbv iota. eexists. split; [reflexivity|]. split; [done|]. by apply yields_end.
Qed.

Lemma reads_from_newline (f' : nat) (tl : cstr) (l : lex_line) (ls : list lex_line) :
  reads_from f' (mk_place l.1 l.2 ls) -> reads_from f' (mk_place [] tl (l :: ls)).
Proof.
  intros IH s (n & k & Hat & Hok & Hls & Hn & Hnl & Hk & Hlen) Ht Hsv.
  cbn [items tail lines items_text items_ok map] in *.
  cbn [forallb] in Hls. apply andb_true_iff in Hls as [[Hl _]%andb_true_iff Hls].
  rewrite text_size_cons in Hlen. cbn [length] in Hnl.
  destruct (at_eol _ _ _ _ _ Hat Hok) as (Hnext & He & Hi & Hc & Hu & Hline).
  destruct (text_plain _ _ Hl) as [Hplain Hhash].
  destruct (nextchar_newline _ _ _ He Hi Hc Hplain Hhash Hu) as (r1 & Hat1 & Hnext1).
  rewrite Hline, wrapu_id in Hat1 by (unfold is_u; clear - Hn Hnl; lia).
  destruct (IH (set_rd s r1)) as (s' & Hs' & Hy); [|done|done|].
  - exists (n + 1), 0. split_and!; try done; cbn [items tail lines]; unfold line_text in Hlen; lia.
  - exists s'. split; [|done]. rewrite <- Hs', !nexttoken_eq by (try done; apply Hat || apply Hat1).
    cbn [rd set_rd]. by rewrite Hnext, Hnext1.
Qed.

(** Whether a colon comes next, to the parser. *)
Lemma colon_kind (ls : list lexeme) :
  forallb lexeme_ok ls = true -> bool_decide (head_kind (map ptok_of ls) = token_colon) = is_colon ls.
Proof.
  destruct ls as [|[w|mode upper ds x|x] ls]; intros Hok; cbn [map head_kind ptok_of is_colon]; try by apply bool_decide_eq_false_2.
  - apply bool_decide_eq_false_2. case_bool_decide as Hid; [done|]. cbn [ptok_kind]. unfold token_of.
    destruct (keyword_find keywords keyword_mode w) as [t|] eqn:Hk; simpl; [|done].
    apply keyword_find_in in Hk as (y & mode & Hin).
    assert (Hall : Forall (fun e => e.1.2 <> token_colon) keywords) by by_decide.
    exact (proj1 (Forall_forall _ _) Hall _ Hin).
  - cbn [forallb] in Hok. apply andb_true_iff in Hok as [[t Ht]%bool_decide_eq_true _].
    assert (Hall : Forall (fun e => bool_decide (e.2 = token_colon) = streq (str e.1) (str ":")) punctuators) by by_decide.
    pose proof (proj1 (Forall_forall _ _) Hall _ (assoc_in _ _ _ Ht)) as Hx. cbn [fst snd] in Hx.
    cbn [ptok_kind]. unfold token_of. by rewrite Ht.
Qed.

(** Looking for a colon behind a word, twice, and then reading on. *)
Lemma label_place (f' : nat) (x : place) (w : cstr) (s : lexer) :
  (forall y, lexemes_at y = lexemes_at x -> y = x \/ (length (lines y) < length (lines x))%nat -> reads_from f' y) ->
  stands (rd s) x -> curtok s = token_identifier -> currentspelling s = Some w -> curtok_save s = token_unknown ->
  exists s1 s1', let b := bool_decide (head_kind (map ptok_of (lexemes_at x)) = token_colon) in
    tok_at_label s = Ok (s1, b) /\ tok_at_label s1 = Ok (s1, b)
    /\ word_then keyword_mode junk (S f') w s1 s1' /\ curtok_save s1' = token_unknown
    /\ Parsing.yields keyword_mode junk (S f') s1' (map ptok_of (lexemes_at x)).
Proof.
  intros IH Hs Ht Hw Hsv. rewrite (colon_kind _ (stands_lexemes _ _ Hs)).
  assert (Elook : forall s0 r b, curtok s0 = token_identifier ->
            at_label_loop (S (length (input (rd s0)))) (rd s0) = Ok (r, b) -> tok_at_label s0 = Ok (set_rd s0 r, b)).
  { intros s0 r b Ht0 E. unfold tok_at_label. rewrite Ht0, bool_decide_eq_true_2 by done. cbn [negb]. by rewrite E. }
  assert (Hin : length (input (rd s)) = length (lines x)).
  { destruct Hs as (n & k & Hat & _). by rewrite (at_input _ _ _ _ _ Hat), length_map. }
  destruct x as [its tl ls]. destruct (look ls its tl (S (length (input (rd s)))) (rd s) Hs) as (r & E & Hr); [cbn in Hin; lia|].
  exists (set_rd s r). destruct Hr as [[Hend Hnil]|(y & Hy & Hne & Hl & Hlt)].
  - exists (set_tok (set_finished (set_spelling (set_rd s r) None)) token_eof). split_and!; [by apply Elook| |split_and!; try done| |].
    + rewrite Hnil. apply (Elook (set_rd s r)); [done|]. by rewrite look_at_end.
    + cbn [nexttoken]. rewrite bool_decide_eq_false_2 by (cbn; by rewrite Ht). cbn [rd set_spelling set_rd]. by rewrite (proj1 Hend).
    + done.
    + rewrite Hnil. by apply yields_end; [apply Hend|..].
  - destruct (IH y Hl ltac:(destruct Hlt as [->|[_ ?]]; auto) (set_spelling (set_rd s r) None) Hy) as (s' & E' & Hsv' & Hy');
      [by cbn; rewrite Ht|done|]. rewrite Hl in Hy'.
    exists s'. split_and!; [by apply Elook| |by split_and!|done|done].
    apply (Elook (set_rd s r)); [done|]. by rewrite <- Hl, (look_here _ r y Hy Hne).
Qed.

Lemma reads_from_item (f' : nat) (sp : cstr) (l : lexeme) (its : list (cstr * lexeme)) (tl : cstr) (ls : list lex_line) :
  let x := mk_place its tl ls in
  (forall y, lexemes_at y = lexemes_at x -> y = x \/ (length (lines y) < length ls)%nat -> reads_from f' y) ->
  reads_from f' (mk_place ((sp, l) :: its) tl ls).
Proof.
  intros x IH s (n & k & Hat & Hok & Hls & Hn & Hnl & Hk & Hlen) Ht Hsv. cbn [items tail lines items_text items_ok map] in *.
  apply andb_true_iff in Hok as [[[Hsp Hl]%andb_true_iff Hstop]%andb_true_iff Hok]. rewrite !length_app in Hlen.
  pose proof (text_size_nonneg ls).
  destruct (next_lexeme keyword_mode junk f' s n k sp l _ _ Hat Hsp Hl Hstop Ht Hk ltac:(lia)) as (s1 & E1 & Hat1 & Hview & _ & Hns & Hsv1).
  rewrite Hsv in Hsv1. exists s1. split; [done|]. split; [done|].
  assert (Hs1 : stands (rd s1) x) by (unfold x; eexists _, _; split_and!; [exact Hat1|done|done|lia|cbn [lines]; lia|lia|cbn [items tail lines]; lia]).
  assert (IHx : reads_from f' x) by (apply IH; auto).
  assert (Hct : curtok s1 = token_of keyword_mode l) by (by apply (f_equal seen_token) in Hview).
  pose proof (f_equal seen_word Hview) as Hw. pose proof (f_equal seen_value Hview) as Hval.
  cbn [seen_word seen_value view see] in Hw, Hval. rewrite Hct in Hw, Hval.
  assert (Heat : exists s', eat2 (nexttoken keyword_mode junk (S f')) (curtok s1) 0 s1 = Ok (s', true)
      /\ curtok_save s' = token_unknown /\ Parsing.yields keyword_mode junk (S f') s' (map ptok_of (lexemes_at x))).
  { destruct (IHx s1 Hs1 Hns Hsv1) as (s' & E & Hrest). exists s'. split; [by apply eaten|done]. }
  change (lexemes_at _) with (l :: lexemes_at x). cbn [map Parsing.yields]. destruct l as [w|mode upper ds c|c]; cbn [ptok_of].
  - destruct (bool_decide_reflect (token_of keyword_mode (Word w) = token_identifier)) as [Hid|Hid];
      [|split; [exact Hct|by rewrite <- Hct]]. split; [by rewrite Hct|].
    destruct (IHx (set_spelling s1 None) Hs1 Hns Hsv1) as (s' & E & Hrest). exists s'. split; [|done].
    rewrite Hid in Hct. split; [by split_and!|]. by apply label_place.
  - split; [exact Hct|]. destruct Heat as (s' & He & Hrest). exists s'. split; [|done]. rewrite Hct in He.
    split; [|done]. cbn [token_of] in Hval. rewrite bool_decide_eq_true_2 in Hval by done. by injection Hval.
  - split; [exact Hct|]. by rewrite <- Hct.
Qed.

Lemma reads_from_all (f' : nat) (x : place) : reads_from f' x.
Proof.
  remember (length (lexemes_at x) + length (lines x))%nat as m eqn:Em. revert x Em.
  induction m as [m IH] using lt_wf_ind. intros [[|[sp l] its] tl ls] ->.
  - destruct ls as [|l ls]; [apply reads_from_end|]. apply reads_from_newline.
    apply (IH (length (lexemes_at (mk_place l.1 l.2 ls)) + length ls)%nat); [|done]. cbn. lia.
  - apply reads_from_item. intros y Hy Hlt. apply (IH (length (lexemes_at y) + length (lines y))%nat); [|done]. rewrite Hy.
    change (lexemes_at (mk_place ((sp, l) :: its) tl ls)) with (l :: lexemes_at (mk_place its tl ls)). cbn [length lines].
    destruct Hlt as [-> |Hlt]; cbn [lines]; lia.
Qed.

(** Reading a file, the buffer holds its lexemes. *)
Lemma file_yields (f' : nat) (track : bool) (ls : list lex_line) (nam : cstr) (s : lexer) :
  bufferpos (rd s) = None -> ungetch (rd s) = EOF -> in_comment (rd s) = false -> curtok s <> token_string ->
  curtok_save s = token_unknown -> forallb line_ok ls = true -> small_text ls ->
  exists s0, tokenise_set_input keyword_mode junk (S f') track (map line_text ls) nam s = Ok s0
    /\ curtok_save s0 = token_unknown /\ Parsing.yields keyword_mode junk (S f') s0 (map ptok_of (all_lexemes ls)).
Proof.
  intros Hp Hu Hc Ht Hsv Hls Hn. unfold tokenise_set_input.
  set (s1 := mk_lexer _ _ _ _ _ _ _ _ _).
  assert (He : eol (rd s1)) by (unfold eol; simpl; by rewrite Hp).
  destruct ls as [|l ls].
  - rewrite nexttoken_eq by done. rewrite (nextchar_end _ He) by done. run.
    change (EOF =c EOF) with true. cbv iota. eexists. split; [reflexivity|]. split; [done|]. by apply yields_end.
  - unfold small_text in Hn. rewrite text_size_cons in Hn. cbn [length] in Hn. pose proof (text_size_nonneg ls).
    cbn [forallb] in Hls. apply andb_true_iff in Hls as [[Hl _]%andb_true_iff Hls].
    destruct (text_plain _ _ Hl) as [Hplain Hhash].
    destruct (nextchar_newline (rd s1) _ _ He eq_refl Hc Hplain Hhash Hu) as (r1 & Hat1 & Hnext1).
    destruct (reads_from_all f' (mk_place l.1 l.2 ls) (set_rd s1 r1)) as (s' & Hs' & Hrest); [|done|done|].
    + exists 1, 0. split_and!; try done; cbn [items tail lines]; unfold line_text in Hn; lia.
    + exists s'. split; [|done].
      rewrite <- Hs', !nexttoken_eq by (try done; apply Hat1). by rewrite Hnext1.
Qed.

End parser.

(** ** From source text to trees *)

Section text.
Context `{Grammar} (keyword_mode junk : Z) (builtin_name : cstr -> bool).
Hypothesis no_types :
  forall sc st, curtok st.1 ∈ starts -> spelled st.1 -> parse_type sc st = Ok (st, None).
Hypothesis no_builtins : forall sp sc st, builtin_name sp = false -> builtin_parse sp sc st = Ok (st, None).

(** C18: from the text of a file to the tree of an expression. The expressions
    are those of [derives]: names, integers, parentheses, indexing, calls,
    members, increments, unary, binary, conditional, assignment and comma
    operators and sizeof of an expression, with C's levels and associativity;
    not casts, sizeof of a type, compound literals, string literals, _Generic,
    statement expressions or calls of built-ins. No name is a type's ([no_types]).
    When the lexemes of the file's lines are such an expression and then a token
    that does not carry it on, reading the file and parsing gives that
    expression's tree, whatever the blanks between the lexemes (comments are
    not among them). *)
Theorem parse_text (f : nat) (track : bool) (ls : list lex_line) (nam : cstr) (s : lexer)
    (ts : list ptok) (e : expr) (rest : list ptok) (n : nat) (sc : scope) (ctx : bool) (w : world) :
  bufferpos (rd s) = None -> ungetch (rd s) = EOF -> in_comment (rd s) = false -> curtok s <> token_string ->
  curtok_save s = token_unknown ->
  forallb line_ok ls = true -> small_text ls ->
  map (ptok_of keyword_mode) (all_lexemes ls) = ts ++ rest -> level_of_op (head_kind rest) = 15%nat ->
  derives builtin_name 0 ts e -> (length ts <= n)%nat ->
  exists s0 s',
    tokenise_set_input keyword_mode junk (S f) track (map line_text ls) nam s = Ok s0
    /\ parse_expr_exp keyword_mode junk (S f) n (Parse.parsers_at keyword_mode junk (S f) n) sc ctx (s0, w)
       = Ok ((s', w), e).
Proof using no_types no_builtins.
  intros Hp Hu Hc Ht Hsv Hls Hn Hts Hl Hd Hlen.
  destruct (file_yields keyword_mode junk f track ls nam s Hp Hu Hc Ht Hsv Hls Hn) as (s0 & Hs0 & _ & Hy). rewrite Hts in Hy.
  destruct (reads_done keyword_mode junk (S f) 0 ts e n sc ctx s0 w rest) as (s' & _ & Hy' & He);
    [by eapply derives_reads|done|done|apply stops_head; by right|].
  exists s0, s'. by split.
Qed.

End text.

(** ** A text and its tree *)

Section example.
Context {F : Floats}.

(** A grammar without types, initialisers, statements and built-in functions. *)
#[local] Instance no_grammar : Grammar :=
  mk_grammar _ unit unit unit unit unit unit unit
    (fun _ st => Ok (st, None)) (fun _ _ st => Ok (st, tt)) (fun _ st => Ok (st, tt)) (fun _ st => Ok (st, tt))
    (fun _ _ st => Ok (st, None)) (fun _ => None) tt (fun sc => sc) (fun _ _ st => Ok (st, tt))
    (fun _ _ st => Ok (st, tt)) (fun _ _ st => Ok (st, tt)).

Definition int_ (n : Z) : expr := expr_new_val n.
Definition id_ (x : string) : expr := expr_identifier (str x).
Definition word_ (x : string) : ptok := PWord (str x).
Definition num_tok (n : Z) : ptok := PInt (mk_numeric (VI n) 0).

(** [x = a ? f(b, 2)[3] : -c * (d + 1);] over two lines. *)
Definition sample_text : list lex_line := [
  ([([], Word (str "x")); ([" "]%char, Punct "="); ([" "]%char, Word (str "a")); ([], Punct "?");
    ([" "; " "]%char, Word (str "f")); ([], Punct "("); ([], Word (str "b")); ([], Punct ",");
    ([" "]%char, Int DEC false (str "2") ""); ([], Punct ")"); ([], Punct "[");
    ([], Int DEC false (str "3") ""); ([], Punct "]")], []);
  ([([" "]%char, Punct ":"); ([], Punct "-"); ([], Word (str "c")); ([], Punct "*"); ([], Punct "(");
    ([], Word (str "d")); ([], Punct "+"); ([" "]%char, Int DEC false (str "1") ""); ([], Punct ")");
    ([], Punct ";")], [])].

Definition sample_tokens : list ptok :=
  [word_ "x"; PTok token_assign; word_ "a"; PTok token_question;
   word_ "f"; PTok token_open_paren; word_ "b"; PTok token_comma; num_tok 2; PTok token_close_paren;
   PTok token_open_square; num_tok 3; PTok token_close_square;
   PTok token_colon; PTok token_minus; word_ "c"; PTok token_multiply; PTok token_open_paren;
   word_ "d"; PTok token_plus; num_tok 1; PTok token_close_paren].

Definition sample_tree : expr :=
  expr_assign (id_ "x")
    (expr_if (id_ "a")
       (Some (expr_deref (expr_op op_plus (expr_funcall (id_ "f") [id_ "b"; int_ 2]) (Some (int_ 3)) true)))
       (expr_op op_multiply (expr_op op_minus (id_ "c") None false)
          (Some (expr_parens (expr_op op_plus (id_ "d") (Some (int_ 1)) false))) false)).

Lemma derives_le (b : cstr -> bool) (j k : nat) (ts : list ptok) (e : expr) :
  (k <= j <= 15)%nat -> derives b j ts e -> derives b k ts e.
Proof.
  intros [Hk Hj] Hd. induction Hk as [|j Hk IH] in Hd, Hj |- *; [done|].
  apply IH; [lia|]. apply derives_up; [lia|done].
Qed.

Lemma sample_derives : derives (fun _ => false) 0 sample_tokens sample_tree.
Proof.
  assert (Hid : forall x k, (k <= 15)%nat -> derives (fun _ => false) k [word_ x] (id_ x))
    by (intros x k Hk; apply (derives_le _ 15); [lia|constructor]).
  assert (Hnum : forall x k, (k <= 15)%nat -> derives (fun _ => false) k [num_tok x] (int_ x))
    by (intros x k Hk; apply (derives_le _ 15); [lia|constructor]).
  apply (derives_le _ 1); [lia|].
  apply (derives_assign _ [word_ "x"]); [apply Hid; lia|].
  apply (derives_le _ 2); [lia|].
  apply (derives_if _ [word_ "a"] _
           [word_ "f"; PTok token_open_paren; word_ "b"; PTok token_comma; num_tok 2; PTok token_close_paren;
            PTok token_open_square; num_tok 3; PTok token_close_square]); [apply Hid; lia| |].
  - apply (derives_le _ 14); [lia|].
    apply (derives_index _ [word_ "f"; PTok token_open_paren; word_ "b"; PTok token_comma; num_tok 2;
                            PTok token_close_paren] _ [num_tok 3]); [|apply Hnum; lia].
    apply (derives_call _ [word_ "f"] _ [word_ "b"; PTok token_comma; num_tok 2]); [apply Hid; lia|done|].
    apply args_some. apply (args_more _ [word_ "b"]); [apply Hid; lia|]. apply args_one. apply Hnum. lia.
  - apply (derives_le _ 12); [lia|].
    apply (derives_binary _ 12 token_multiply [PTok token_minus; word_ "c"]); [lia|in_list| |].
    + apply (derives_le _ 13); [lia|]. apply (derives_unop _ token_minus); [in_list|]. apply Hid. lia.
    + apply (derives_le _ 15); [lia|].
      apply (derives_parens _ [word_ "d"; PTok token_plus; num_tok 1]
               (expr_op op_plus (id_ "d") (Some (int_ 1)) false)).
      apply (derives_le _ 11); [lia|].
      apply (derives_binary _ 11 token_plus [word_ "d"]); [lia|in_list|apply Hid; lia|apply Hnum; lia].
Qed.

Definition parse_lines (n : nat) (ls : list lex_line) : res expr :=
  s ← tokenise_set_input KW_ALL 0 1 true (map line_text ls) (str "a.c") lexer0;
  r ← (parse_expr_exp KW_ALL 0 1 n (Parse.parsers_at KW_ALL 0 1 n) tt false (s, tt) : res (lexer * unit * expr));
  Ok r.2.

Lemma parse_lines_steps (n : nat) (ls : list lex_line) (s : lexer) (r : (lexer * unit) * expr) :
  tokenise_set_input KW_ALL 0 1 true (map line_text ls) (str "a.c") lexer0 = Ok s ->
  parse_expr_exp KW_ALL 0 1 n (Parse.parsers_at KW_ALL 0 1 n) tt false (s, tt) = Ok r ->
  parse_lines n ls = Ok r.2.
Proof. intros H1 H2. unfold parse_lines. rewrite H1. cbn [mbind res_bind]. rewrite H2. reflexivity. Qed.

Lemma sample_lexemes : map (ptok_of KW_ALL) (all_lexemes sample_text) = sample_tokens ++ [PTok token_semicolon].
Proof. vm_compute. reflexivity. Qed.

End example.

Lemma parse_text_witness : @parse_lines text_floats 22 sample_text = Ok (@sample_tree text_floats).
Proof.
  destruct (@parse_text text_floats no_grammar KW_ALL 0 (fun _ => false) (fun _ _ _ _ => eq_refl) (fun _ _ _ _ => eq_refl)
              0 true sample_text (str "a.c") lexer0 sample_tokens sample_tree [PTok token_semicolon] 22 tt false tt)
    as (s0 & s' & Hs & He).
  - reflexivity.
  - reflexivity.
  - reflexivity.
  - discriminate.
  - reflexivity.
  - vm_compute. reflexivity.
  - vm_compute. reflexivity.
  - exact sample_lexemes.
  - reflexivity.
  - exact sample_derives.
  - simpl. lia.
  - exact (parse_lines_steps _ _ _ _ Hs He).
Defined.
