(* ===== verification/Declare.v ===== *)
(** * The parser of types and declarators

    [src/src/cc1/parse_type.c]: specifiers and qualifiers become a type
    ([parse_btype]), a declarator becomes the list of what is wrapped around it
    ([parsed_type_ptr] and the functions it calls) and then, inside out, the
    type declared ([parse_type_declarator_to_type]); arguments, old-style ones
    included, are declarations of their own. Symbol tables, the folding of
    declarations, attributes and the bodies of structs, unions and enums are
    the class [Declarations]; warnings and places in the source are left out. *)

From S2P Require Import Prelude CStr StrLit Types Consts Token Tokconv Parse.

(** ** Declarations *)

(** [enum decl_storage] as the mask it is: a class in the low bits, and
    [inline]. *)
Definition store_val (st : decl_storage) : Z :=
  match st with
  | store_default => 0 | store_auto => 1 | store_static => 2 | store_extern => 3
  | store_register => 4 | store_typedef => 5 | store_inline => 8
  end.
Definition STORE_MASK_STORE : Z := 7.
Definition STORE_MASK_EXTRA : Z := 0xfff38.
Definition STORE_IS_TYPEDEF (s : Z) : bool := (Z.land s STORE_MASK_STORE =? store_val store_typedef)%Z.

(** [enum decl_mode] and [enum parse_btype_flags]. *)
Definition DECL_SPEL_NEED : Z := 1.
Definition DECL_CAN_DEFAULT : Z := 2.
Definition DECL_ALLOW_STORE : Z := 4.
Definition PARSE_BTYPE_AUTOTYPE : Z := 1.
Definition PARSE_BTYPE_DEFAULT_INT : Z := 2.

Section data.
Context `{Grammar}.

Inductive decl_align :=
  | align_intk (e : expr)
  | align_ty (t : type).

(** The parts of a [decl] the parser gives it; [d_id] is which one it is. *)
Record decl : Type := mk_decl {
  d_id : nat;
  store : Z;
  d_ref : option type;
  d_attr : list attribute;
  d_spel : option cstr;
  spel_asm : option cstr;
  align_first : list decl_align;
  dinit : option cinit
}.

(** [struct funcargs]. *)
Record funcargs : Type := mk_funcargs {
  fa_id : nat;
  args_void : bool;
  args_old_proto : bool;
  fa_variadic : bool;
  arglist : list decl
}.

(** The declaration of a typedef name. *)
Record tdef : Type := mk_tdef { td_id : decl_id; td_attr : list attribute; td_ref : type }.

(** [type_parsed]: one layer of a declarator, the layers in the order of [prev].
    The attributes of a pointer are kept apart from those of the layer. *)
Inductive type_maker := type_ptr_to_ | type_block_of_.

Inductive parsed_kind :=
  | PARSED_PTR (maker : type_maker) (ptr_attr : list attribute) (qual : Z)
  | PARSED_FUNC (args : funcargs) (sc : scope)
  | PARSED_ARRAY (size : array_size) (qual : Z) (vla : vla_kind) (is_static : bool)
  | PARSED_ATTR.

Record parsed : Type := mk_parsed { p_kind : parsed_kind; p_attr : list attribute }.

End data.

(** What the parser calls elsewhere. A declaration that is in a scope already
    may be looked up there: [decl_changed] is the parser assigning to it. *)
Class Declarations `{Grammar} := mk_declarations {
  (** The list between the double parentheses of [__attribute__]. *)
  parse_attr : scope -> P (list attribute);
  (** After the keyword of a struct, union or enum. *)
  parse_type_sue : type_primitive -> scope -> bool -> P type;
  (** [symtab_search], when it finds a declaration whose storage is typedef. *)
  typedef_named : scope -> cstr -> world -> option tdef;
  (** [fold_decl] of a typedef name's declaration. *)
  fold_typedef : tdef -> scope -> P tdef;
  (** [fold_expr_nodecay] and [type_tdef_of] for [typeof]. *)
  typeof_expr : expr -> scope -> P type;
  type_nav_va_list : scope -> P type;
  fold_expr : expr -> scope -> P expr;
  tree_type : expr -> type;
  const_fold : expr -> consty;
  (** The number by which a type knows the expression of its size. *)
  size_number : expr -> nat;
  fold_had_error : P unit;
  decl_new : P nat;
  funcargs_new : P nat;
  (** A function type keeps the scope of its arguments. *)
  set_arg_scope : nat -> scope -> P unit;
  arg_scope : nat -> world -> option scope;
  symtab_add_to_scope : scope -> decl -> P unit;
  decl_changed : decl -> P unit;
  fold_decl : decl -> scope -> P decl;
  fold_decl_add_sym : decl -> scope -> P decl;
  fold_type_ondecl_w : decl -> scope -> bool -> P decl;
  (** [decl_proto(d)] is another declaration that was used. *)
  used_proto : decl -> world -> bool;
  (** [symtab->parent] is null. *)
  global_scope : scope -> world -> bool;
  (** The expression of an initialiser without braces. *)
  scalar_init : cinit -> option expr;
  (** The option that replaces [void *] by the type of [va_list], in a system header. *)
  valist_workaround : decl -> world -> bool;
  cc1_std_c2x : bool;
  fold_const_vlas : bool
}.

Definition set_ref `{Grammar} (d : decl) (r : option type) : decl :=
  mk_decl (d_id d) (store d) r (d_attr d) (d_spel d) (spel_asm d) (align_first d) (dinit d).
Definition set_store `{Grammar} (d : decl) (st : Z) : decl :=
  mk_decl (d_id d) st (d_ref d) (d_attr d) (d_spel d) (spel_asm d) (align_first d) (dinit d).
Definition set_attr `{Grammar} (d : decl) (a : list attribute) : decl :=
  mk_decl (d_id d) (store d) (d_ref d) a (d_spel d) (spel_asm d) (align_first d) (dinit d).
Definition set_spel `{Grammar} (d : decl) (sp : option cstr) : decl :=
  mk_decl (d_id d) (store d) (d_ref d) (d_attr d) sp (spel_asm d) (align_first d) (dinit d).
Definition set_asm `{Grammar} (d : decl) (sp : option cstr) : decl :=
  mk_decl (d_id d) (store d) (d_ref d) (d_attr d) (d_spel d) sp (align_first d) (dinit d).
Definition set_align `{Grammar} (d : decl) (a : list decl_align) : decl :=
  mk_decl (d_id d) (store d) (d_ref d) (d_attr d) (d_spel d) (spel_asm d) a (dinit d).
Definition set_init `{Grammar} (d : decl) (i : option cinit) : decl :=
  mk_decl (d_id d) (store d) (d_ref d) (d_attr d) (d_spel d) (spel_asm d) (align_first d) i.

(** A declaration the parser is done making has a type. *)
Definition ref_of `{Grammar} (d : decl) : type :=
  match d_ref d with Some t => t | None => type_btype (mk_btype type_int None) end.

Definition default_type : type := type_btype (mk_btype type_int None).

(** ** What a token may start *)

Section parse.
Context `{Declarations} (keyword_mode junk : Z) (f : nat).

Local Abbreviation EAT := (EAT keyword_mode junk f).
Local Abbreviation accept := (accept keyword_mode junk f).
Local Abbreviation identifier := (identifier keyword_mode junk f).

Definition get_world : P world := fun s => Ok (s, s.2).

Definition parse_at_tdef (sc : scope) : P (option tdef) :=
  fun s =>
    if bool_decide (curtok s.1 = token_identifier) then
      match currentspelling s.1 with
      | Some sp => Ok (s, typedef_named sc sp s.2)
      | None => Ub "null spelling"
      end
    else Ok (s, None).

Definition is_some {A} (x : option A) : bool := match x with Some _ => true | None => false end.

Fixpoint accept_all (fuel : nat) (t : token) : P unit :=
  match fuel with
  | O => fail NoFuel
  | S fuel => got ← accept t; if got : bool then accept_all fuel t else mret tt
  end.

Fixpoint parse_at_decl (fuel : nat) (sc : scope) (include_attribute : bool) : P bool :=
  t ← get_curtok;
  match t with
  | token_attribute => mret include_attribute
  | token_signed | token_unsigned | token_inline | token__Noreturn | token_struct | token_union
  | token_enum | token_typeof | token___auto_type | token___builtin_va_list | token__Alignas => mret true
  | token___extension__ =>
      match fuel with
      | O => fail NoFuel
      | S fuel =>
          _ ← accept_all (S fuel) token___extension__;
          r ← parse_at_decl fuel sc include_attribute;
          _ ← uneat_ token___extension__;
          mret r
      end
  | token_identifier => d ← parse_at_tdef sc; mret (is_some d)
  | _ => mret (curtok_is_type_qual t || curtok_is_decl_store t || curtok_is_type_primitive t)
  end.

Definition at_decl_spec (t : token) : bool :=
  match t with
  | token_identifier | token_multiply | token_xor | token_open_paren => true
  | _ => false
  end.

Definition parse_at_decl_spec : P bool := t ← get_curtok; mret (at_decl_spec t).

(** [parse_add_attr_out]: the attributes read, and whether the keyword was. *)
Fixpoint parse_add_attr_out (fuel : nat) (sc : scope) : P (list attribute * bool) :=
  match fuel with
  | O => fail NoFuel
  | S fuel =>
      kw ← accept token_attribute;
      if kw : bool then
        _ ← EAT token_open_paren;
        _ ← EAT token_open_paren;
        t ← get_curtok;
        attrs ← (if bool_decide (t = token_close_paren) then mret [] else parse_attr sc);
        _ ← EAT token_close_paren;
        _ ← EAT token_close_paren;
        rest ← parse_add_attr_out fuel sc;
        mret (attrs ++ rest.1, true)
      else mret ([], false)
  end.

Definition parse_add_attr (fuel : nat) (sc : scope) : P (list attribute) :=
  r ← parse_add_attr_out fuel sc; mret r.1.

(** ** Specifiers *)

Inductive specifier_mode :=
  | NONE | PRIMITIVE_MAYBE_MORE | PRIMITIVE_NO_MORE | TYPEDEF | TYPEOF | AUTOTYPE.

(** The locals of [parse_btype]; [store_] and [palign] are what its pointers
    point at, if they are not null. *)
Record specifiers : Type := mk_specifiers {
  store_ : option Z;
  palign : option (list decl_align);
  attr : list attribute;
  qual : Z;
  prim : type_primitive;
  may_default_type : bool;
  is_signed : bool;
  is_inline : bool;
  is_noreturn : bool;
  is_va_list : bool;
  store_set : bool;
  signed_set : bool;
  tdef_decl : option tdef;
  tdef_typeof : option expr;
  mode : specifier_mode
}.

Definition no_specifiers (st : option Z) (al : option (list decl_align)) (flags : Z) : specifiers :=
  mk_specifiers st al [] qual_none type_int (has flags PARSE_BTYPE_DEFAULT_INT) true false false false
    false false None None NONE.

Definition put_store (b : specifiers) (st : option Z) (set : bool) : specifiers :=
  mk_specifiers st (palign b) (attr b) (qual b) (prim b) (may_default_type b) (is_signed b) (is_inline b)
    (is_noreturn b) (is_va_list b) set (signed_set b) (tdef_decl b) (tdef_typeof b) (mode b).
Definition put_align (b : specifiers) (al : option (list decl_align)) : specifiers :=
  mk_specifiers (store_ b) al (attr b) (qual b) (prim b) (may_default_type b) (is_signed b) (is_inline b)
    (is_noreturn b) (is_va_list b) (store_set b) (signed_set b) (tdef_decl b) (tdef_typeof b) (mode b).
Definition put_attr (b : specifiers) (a : list attribute) (may_default : bool) : specifiers :=
  mk_specifiers (store_ b) (palign b) a (qual b) (prim b) may_default (is_signed b) (is_inline b)
    (is_noreturn b) (is_va_list b) (store_set b) (signed_set b) (tdef_decl b) (tdef_typeof b) (mode b).
Definition put_qual (b : specifiers) (q : Z) : specifiers :=
  mk_specifiers (store_ b) (palign b) (attr b) q (prim b) (may_default_type b) (is_signed b) (is_inline b)
    (is_noreturn b) (is_va_list b) (store_set b) (signed_set b) (tdef_decl b) (tdef_typeof b) (mode b).
Definition put_prim (b : specifiers) (p : type_primitive) (m : specifier_mode) : specifiers :=
  mk_specifiers (store_ b) (palign b) (attr b) (qual b) p (may_default_type b) (is_signed b) (is_inline b)
    (is_noreturn b) (is_va_list b) (store_set b) (signed_set b) (tdef_decl b) (tdef_typeof b) m.
Definition put_signed (b : specifiers) (s : bool) : specifiers :=
  mk_specifiers (store_ b) (palign b) (attr b) (qual b) (prim b) (may_default_type b) s (is_inline b)
    (is_noreturn b) (is_va_list b) (store_set b) true (tdef_decl b) (tdef_typeof b) (mode b).
Definition put_inline (b : specifiers) (st : option Z) : specifiers :=
  mk_specifiers st (palign b) (attr b) (qual b) (prim b) (may_default_type b) (is_signed b) true
    (is_noreturn b) (is_va_list b) (store_set b) (signed_set b) (tdef_decl b) (tdef_typeof b) (mode b).
Definition put_noreturn (b : specifiers) : specifiers :=
  mk_specifiers (store_ b) (palign b) (attr b) (qual b) (prim b) (may_default_type b) (is_signed b) (is_inline b)
    true (is_va_list b) (store_set b) (signed_set b) (tdef_decl b) (tdef_typeof b) (mode b).
Definition put_va_list (b : specifiers) : specifiers :=
  mk_specifiers (store_ b) (palign b) (attr b) (qual b) type_struct (may_default_type b) (is_signed b) (is_inline b)
    (is_noreturn b) true (store_set b) (signed_set b) (tdef_decl b) (tdef_typeof b) PRIMITIVE_NO_MORE.
Definition put_typeof (b : specifiers) (d : option tdef) (e : option expr) (m : specifier_mode) : specifiers :=
  mk_specifiers (store_ b) (palign b) (attr b) (qual b) (prim b) (may_default_type b) (is_signed b) (is_inline b)
    (is_noreturn b) (is_va_list b) (store_set b) (signed_set b) d e m.

(** [btype_set_store], of a storage class the current token is. *)
Definition btype_set_store (b : specifiers) (st : option decl_storage) : P specifiers :=
  match store_ b with
  | None => _ ← fold_had_error; mret b
  | Some s =>
      if store_set b then _ ← fold_had_error; mret b
      else mret (put_store b (Some (Z.lor s (match st with Some st => store_val st | None => -1 end))) true)
  end.

(** What a keyword of a basic type makes of those before it. *)
Definition add_primitive (b : specifiers) (got : type_primitive) : res specifiers :=
  let second := Die "second type primitive" in
  let more p :=
    match p with
    | type_int | type_long | type_llong => Ok (put_prim b p PRIMITIVE_MAYBE_MORE)
    | _ => Ok (put_prim b p PRIMITIVE_NO_MORE)
    end in
  match mode b with
  | NONE => Ok (put_prim b got PRIMITIVE_MAYBE_MORE)
  | PRIMITIVE_NO_MORE => second
  | TYPEDEF | TYPEOF | AUTOTYPE => Die "type primitive with another type"
  | PRIMITIVE_MAYBE_MORE =>
      match got, prim b with
      | type_int, (type_short | type_long) => more (prim b)
      | (type_short | type_long), type_int => more got
      | type_long, type_long => more type_llong
      | type_int, type_llong => Ok (put_prim b (prim b) PRIMITIVE_NO_MORE)
      | type_double, type_long | type_long, type_double => Ok (put_prim b type_ldouble PRIMITIVE_NO_MORE)
      | _, _ => second
      end
  end.

Definition none_mode (b : specifiers) : bool := match mode b with NONE => true | _ => false end.

(** The end of [parse_btype]: [type_at_where] is the place of the specifiers. *)
Definition parse_btype_end (fuel : nat) (bt : type) (b : specifiers) (sc : scope) : P type :=
  more ← parse_add_attr fuel sc;
  let bt := type_qualify bt (qual b) in
  let attrs := attr b ++ more ++ (if is_noreturn b then [mk_attribute attr_noreturn None] else []) in
  mret (type_at_where (type_attributed bt attrs)).

(** The primitive that [signed] or [unsigned] makes of [p]. *)
Definition signed_primitive (s : bool) (p : type_primitive) : res type_primitive :=
  match p with
  | type__Bool | type_void | type_float | type_double | type_ldouble => Die "signed with"
  | type_struct | type_union | type_enum | type_unknown | type_schar | type_uchar => Ice "unreachable"
  | type_nchar => Ok (if s then type_schar else type_uchar)
  | type_uint | type_ushort | type_ulong | type_ullong => Ice "parsed unsigned type?"
  | type_int | type_short | type_long | type_llong => Ok (if s then p else TYPE_PRIMITIVE_TO_UNSIGNED p)
  end.

(** What the functions below call again. *)
Record declarers : Type := mk_declarers {
  (** [parsed_type_declarator] *)
  declarator_ : Z -> bool -> list parsed -> scope -> P (list parsed * option cstr);
  (** [parse_type] *)
  type_ : bool -> scope -> P (option type)
}.

Section functions.
Context (fuel : nat) (self : declarers) (parsers : parsers).

(** The qualifiers and storage classes after a struct, union or enum. *)
Fixpoint sue_quals (fuel : nat) (b : specifiers) : P specifiers :=
  match fuel with
  | O => fail NoFuel
  | S fuel =>
      t ← get_curtok;
      if curtok_is_type_qual t then
        _ ← EAT t; sue_quals fuel (put_qual b (Z.lor (qual b) (curtok_to_type_qualifier t)))
      else if curtok_is_decl_store t then
        b ← btype_set_store b (curtok_to_decl_storage t);
        _ ← EAT t; sue_quals fuel b
      else mret b
  end.

Definition sue_specifier (t : token) (b : specifiers) (newdecl_context : bool) (sc : scope) : P (type * specifiers) :=
  _ ← EAT t;
  tref ← parse_type_sue (match t with token_struct => type_struct | token_union => type_union | _ => type_enum end)
           sc newdecl_context;
  if signed_set b || negb (none_mode b) then fail (Die "previous specifier with")
  else
    b ← sue_quals fuel b;
    r ← parse_btype_end fuel tref b sc;
    mret (r, b).

Definition alignas_specifier (b : specifiers) (newdecl_context : bool) (sc : scope) : P specifiers :=
  match palign b with
  | None => fail (Die "_Alignas unexpected")
  | Some l =>
      _ ← EAT token__Alignas;
      _ ← EAT token_open_paren;
      as_ty ← type_ self newdecl_context sc;
      da ← (match as_ty with
            | Some ty => mret (align_ty ty)
            | None => e ← exp_ parsers sc false; mret (align_intk e)
            end);
      _ ← EAT token_close_paren;
      mret (put_align b (Some (l ++ [da])))
  end.

(** One turn of [parse_btype]'s loop. *)
Inductive turn :=
  | Again (b : specifiers)
  | Stop (b : specifiers)
  | Done (t : type) (b : specifiers).

Definition identifier_turn (b : specifiers) (sc : scope) : P turn :=
  d ← (if signed_set b then mret None else parse_at_tdef sc);
  match d with
  | None => mret (Stop b)
  | Some d =>
      if none_mode b then
        _ ← on_lexer (fun s => s ← nexttoken keyword_mode junk f s; Ok (s, tt));
        mret (Again (put_typeof b (Some d) (tdef_typeof b) TYPEDEF))
      else mret (Stop b)
  end.

Definition parse_btype_turn (b : specifiers) (newdecl_context : bool) (sc : scope) : P turn :=
  t ← get_curtok;
  if curtok_is_type_qual t then
    _ ← EAT t;
    mret (Again (put_qual b (Z.lor (qual b) (curtok_to_type_qualifier t))))
  else if curtok_is_decl_store t then
    b ← btype_set_store b (curtok_to_decl_storage t);
    _ ← EAT t;
    mret (Again b)
  else if curtok_is_type_primitive t then
    b ← fail (add_primitive b (curtok_to_type_primitive t));
    _ ← EAT t;
    mret (Again b)
  else
    match t with
    | token_signed | token_unsigned =>
        if signed_set b then fail (Die "unwanted second")
        else _ ← EAT t; mret (Again (put_signed b (bool_decide (t = token_signed))))
    | token_inline =>
        match store_ b with
        | None => fail (Die "inline not wanted")
        | Some st => _ ← EAT t; mret (Again (put_inline b (Some (Z.lor st (store_val store_inline)))))
        end
    | token__Noreturn => _ ← EAT t; mret (Again (put_noreturn b))
    | token_struct | token_union | token_enum =>
        r ← sue_specifier t b newdecl_context sc;
        mret (Done r.1 r.2)
    | token_typeof =>
        if none_mode b then
          e ← parse_expr_sizeof_typeof_alignof keyword_mode junk f parsers sc;
          mret (Again (put_typeof b (tdef_decl b) (Some e) TYPEOF))
        else fail (Die "typeof specifier after previous specifier")
    | token___builtin_va_list =>
        _ ← EAT t;
        if none_mode b then mret (Again (put_va_list b)) else fail (Die "can't combine previous specifier with va_list")
    | token_identifier => identifier_turn b sc
    | token_attribute => a ← parse_add_attr fuel sc; mret (Again (put_attr b (attr b ++ a) true))
    | token__Alignas => b ← alignas_specifier b newdecl_context sc; mret (Again b)
    | token___auto_type =>
        _ ← EAT t;
        if none_mode b then mret (Again (put_typeof b (tdef_decl b) (tdef_typeof b) AUTOTYPE))
        else _ ← parse_error; mret (Again b)
    | _ => mret (Stop b)
    end.

Fixpoint parse_btype_loop (n : nat) (b : specifiers) (newdecl_context : bool) (sc : scope) : P turn :=
  match n with
  | O => fail NoFuel
  | S n =>
      r ← parse_btype_turn b newdecl_context sc;
      match r with
      | Again b => parse_btype_loop n b newdecl_context sc
      | _ => mret r
      end
  end.

(** Anything read makes a type. *)
Definition some_specifier (b : specifiers) : bool :=
  negb (qual b =? qual_none)%Z || store_set b || negb (none_mode b) || signed_set b || is_some (tdef_typeof b)
  || is_inline b || may_default_type b || is_noreturn b
  || match palign b with Some (_ :: _) => true | _ => false end.

(** The type the specifiers name, before qualifiers and attributes. *)
Definition specified_type (b : specifiers) (flags : Z) (sc : scope) : P type :=
  p ← fail (if signed_set b then signed_primitive (is_signed b) (prim b) else Ok (prim b));
  if is_va_list b then type_nav_va_list sc
  else
    match mode b with
    | AUTOTYPE =>
        if signed_set b || negb (has flags PARSE_BTYPE_AUTOTYPE) then
          _ ← parse_error; mret (type_btype (mk_btype type_int None))
        else mret type_auto
    | TYPEDEF | TYPEOF =>
        match tdef_decl b, tdef_typeof b with
        | Some d, _ => d ← fold_typedef d sc; mret (type_tdef (td_id d) (td_attr d) (td_ref d) [] (td_ref d))
        | None, Some e => typeof_expr e sc
        | None, None => fail (Ice "no tdef_typeof for typedef/typeof")
        end
    | NONE => mret (if signed_set b then type_btype (mk_btype p None) else default_type)
    | PRIMITIVE_NO_MORE | PRIMITIVE_MAYBE_MORE => mret (type_btype (mk_btype p None))
    end.

Definition typedef_checks (b : specifiers) : P specifiers :=
  match store_ b with
  | Some st =>
      if STORE_IS_TYPEDEF st then
        b' ← (match palign b with
              | Some (_ :: _) => _ ← fold_had_error; mret (put_align b (Some []))
              | _ => mret b
              end);
        _ ← (if has st (store_val store_inline) then fold_had_error else mret tt);
        mret b'
      else mret b
  | None => mret b
  end.

(** The type, and what the pointers for the storage class and the alignments
    are left with. *)
Definition parse_btype (st : option Z) (al : option (list decl_align)) (newdecl_context : bool) (sc : scope)
    (flags : Z) : P (option type * option Z * option (list decl_align)) :=
  _ ← accept_all fuel token___extension__;
  r ← parse_btype_loop fuel (no_specifiers st al flags) newdecl_context sc;
  match r with
  | Done t b => mret (Some t, store_ b, palign b)
  | Again b | Stop b =>
      if some_specifier b then
        r ← specified_type b flags sc;
        b ← typedef_checks b;
        t ← parse_btype_end fuel r b sc;
        mret (Some t, store_ b, palign b)
      else mret (None, store_ b, palign b)
  end.

(** ** Declarators *)

(** [parsed_type_nest]: parentheses or the name. The layers of [base] are under
    what is read; a name is for the declaration, if there is one. *)
Definition parsed_type_nest (md : Z) (dfor : bool) (base : list parsed) (sc : scope) : P (list parsed * option cstr) :=
  open ← accept token_open_paren;
  if open : bool then
    at_decl ← parse_at_decl fuel sc (negb dfor);
    t ← get_curtok;
    if at_decl || bool_decide (t = token_close_paren) then
      _ ← uneat_ token_open_paren;
      mret (base, None)
    else
      at_ ← parse_add_attr fuel sc;
      ret ← declarator_ self md dfor base sc;
      _ ← EAT token_close_paren;
      mret (match at_ with [] => ret | _ => (mk_parsed PARSED_ATTR at_ :: ret.1, ret.2) end)
  else
    spel ← identifier;
    match spel with
    | Some sp => if dfor then mret (base, sp) else _ ← parse_error; mret (base, None)
    | None => _ ← (if has md DECL_SPEL_NEED then parse_error else mret tt); mret (base, None)
    end.

(** The qualifiers and [static]s after an opening square bracket. *)
Fixpoint array_quals (n : nat) (q : Z) (statics : nat) : P (Z * nat) :=
  match n with
  | O => fail NoFuel
  | S n =>
      t ← get_curtok;
      if curtok_is_type_qual t then _ ← EAT t; array_quals n (Z.lor q (curtok_to_type_qualifier t)) statics
      else if bool_decide (t = token_static) then _ ← EAT t; array_quals n q (S statics)
      else mret (q, statics)
  end.

(** The size an expression gives an array, once it is folded. *)
Definition array_size_of (size : expr) : P (array_size * vla_kind) :=
  if negb (type_is_integral (tree_type size)) then _ ← parse_error; mret (size_none, VLA_NO)
  else
    let k := const_fold size in
    match k_val k with
    | CONST_NUM i suffix =>
        if is_some (nonstandard_const k) && negb fold_const_vlas then mret (size_expr (size_number size), VLA)
        else if negb (has suffix VAL_FLOATING) then mret (size_const i, VLA_NO)
        else fail (Die "not an integral array size")
    | _ => mret (size_expr (size_number size), VLA)
    end.

Definition parsed_array_size (sc : scope) : P (array_size * vla_kind) :=
  closed ← accept token_close_square;
  if closed : bool then mret (size_none, VLA_NO)
  else
    star ← accept token_multiply;
    is_star ← (if star : bool then
                 closed ← accept token_close_square;
                 if closed : bool then mret true else _ ← uneat_ token_multiply; mret false
               else mret false);
    if is_star : bool then mret (size_none, VLA_STAR)
    else
      size ← assignment_ parsers sc false;
      _ ← EAT token_close_square;
      size ← fold_expr size sc;
      array_size_of size.

Fixpoint parsed_type_array (n : nat) (base : list parsed) (sc : scope) : P (list parsed) :=
  match n with
  | O => fail NoFuel
  | S n =>
      open ← accept token_open_square;
      if open : bool then
        q ← array_quals fuel qual_none 0;
        size ← parsed_array_size sc;
        if (1 <? q.2)%nat then fail (Die "multiple static specifiers in array size")
        else parsed_type_array n (mk_parsed (PARSED_ARRAY size.1 q.1 size.2 (0 <? q.2)%nat) [] :: base) sc
      else mret base
  end.

(** The arguments of a function, and those of a list of names. *)
Section arglist.
Context (parse_arg_decl : scope -> P decl).

(** [fa] with the arguments read so far, newest last, and [argdecl] to add. *)
Fixpoint arglist_loop (n : nat) (sc : scope) (args : list decl) (argdecl : decl) : P (list decl * bool) :=
  match n with
  | O => fail NoFuel
  | S n =>
      _ ← symtab_add_to_scope sc argdecl;
      argdecl ← fold_decl argdecl sc;
      let args := args ++ [argdecl] in
      t ← get_curtok;
      if bool_decide (t = token_close_paren) then mret (args, false)
      else
        comma ← EAT token_comma;
        if negb comma then mret (args, false)
        else
          dots ← accept token_elipsis;
          if dots : bool then mret (args, true)
          else
            t ← get_curtok;
            _ ← (if bool_decide (t = token_close_paren) || bool_decide (t = token_comma) then fold_had_error
                 else mret tt);
            argdecl ← parse_arg_decl sc;
            arglist_loop n sc args argdecl
  end.

Fixpoint old_arglist (n : nat) (sc : scope) (args : list decl) : P (list decl) :=
  match n with
  | O => fail NoFuel
  | S n =>
      i ← decl_new;
      spel ← on_lexer (token_eat_identifier keyword_mode junk f None);
      match spel with
      | None => mret args
      | Some _ =>
          let d := mk_decl i (store_val store_default) (Some default_type) [] spel None [] None in
          _ ← symtab_add_to_scope sc d;
          let args := args ++ [d] in
          t ← get_curtok;
          if bool_decide (t = token_close_paren) then mret args
          else
            comma ← EAT token_comma;
            if negb comma then mret args else old_arglist n sc args
      end
  end.

(** An argument that is just [void]. *)
Definition void_arg (d : decl) : bool :=
  match type_is (ref_of d) kind_btype with
  | Some (type_btype bt) => bool_decide (primitive bt = type_void) && negb (is_some (d_spel d))
  | _ => false
  end.

Definition parse_func_arglist (sc : scope) : P funcargs :=
  i ← funcargs_new;
  t ← get_curtok;
  if bool_decide (t = token_close_paren) then mret (mk_funcargs i cc1_std_c2x (negb cc1_std_c2x) false [])
  else
    tdef ← parse_at_tdef sc;
    if negb (bool_decide (t = token_identifier)) || is_some tdef then
      argdecl ← parse_arg_decl sc;
      if void_arg argdecl then mret (mk_funcargs i true false false [])
      else
        r ← arglist_loop fuel sc [] argdecl;
        mret (mk_funcargs i false false r.2 r.1)
    else
      args ← old_arglist fuel sc [];
      _ ← (if cc1_std_c2x then fold_had_error else mret tt);
      mret (mk_funcargs i false true false args).

Fixpoint parsed_type_func (n : nat) (base : list parsed) (sc : scope) : P (list parsed) :=
  match n with
  | O => fail NoFuel
  | S n =>
      open ← accept token_open_paren;
      if open : bool then
        subscope ← symtab_new sc true;
        args ← parse_func_arglist subscope;
        _ ← EAT token_close_paren;
        parsed_type_func n (mk_parsed (PARSED_FUNC args subscope) [] :: base) sc
      else mret base
  end.

Fixpoint suffixes (n : nat) (base : list parsed) (sc : scope) : P (list parsed) :=
  match n with
  | O => fail NoFuel
  | S n =>
      t ← get_curtok;
      match t with
      | token_open_paren => base ← parsed_type_func fuel base sc; suffixes n base sc
      | token_open_square => base ← parsed_type_array fuel base sc; suffixes n base sc
      | _ => mret base
      end
  end.

Definition parsed_type_func_or_array (md : Z) (dfor : bool) (base : list parsed) (sc : scope)
    : P (list parsed * option cstr) :=
  r ← parsed_type_nest md dfor base sc;
  l ← suffixes fuel r.1 sc;
  mret (l, r.2).

(** The qualifiers and attributes after a star. *)
Fixpoint ptr_quals (n : nat) (at_ : list attribute) (q : Z) (sc : scope) : P (list attribute * Z) :=
  match n with
  | O => fail NoFuel
  | S n =>
      t ← get_curtok;
      if bool_decide (t = token_attribute) then a ← parse_add_attr fuel sc; ptr_quals n (at_ ++ a) q sc
      else if curtok_is_type_qual t then _ ← EAT t; ptr_quals n at_ (Z.lor q (curtok_to_type_qualifier t)) sc
      else mret (at_, q)
  end.

Definition parsed_type_ptr (md : Z) (dfor : bool) (base : list parsed) (sc : scope) : P (list parsed * option cstr) :=
  star ← accept token_multiply;
  caret ← (if star : bool then mret false else accept token_xor);
  if star || caret then
    q ← ptr_quals fuel [] qual_none sc;
    sub ← declarator_ self md dfor [] sc;
    let maker := if star then type_ptr_to_ else type_block_of_ in
    mret (mk_parsed (PARSED_PTR maker q.1 q.2) [] :: sub.1 ++ base, sub.2)
  else parsed_type_func_or_array md dfor base sc.

End arglist.

(** ** Types *)

Definition make_ptr (m : type_maker) (t : type) : type :=
  match m with type_ptr_to_ => type_ptr_to t | type_block_of_ => type_block t end.

(** [create_func_type_stripping_ret_quals] *)
Definition create_func_type (retty : type) (args : funcargs) (arg_sc : scope) : P type :=
  retty ← fail (if (type_qual retty =? 0)%Z then Ok retty else type_unqualify retty);
  _ ← set_arg_scope (fa_id args) arg_sc;
  mret (type_func retty (fa_id args) (args_void args) (fa_variadic args) (map ref_of (arglist args))).

(** One layer around [ty]; [inner] says that another comes after it. *)
Definition wrap_layer (l : parsed) (inner : bool) (ty : type) : P type :=
  r ← (match p_kind l with
       | PARSED_PTR m _ q => mret (make_ptr m ty, q)
       | PARSED_ARRAY size q vla is_static =>
           _ ← (if is_static && bool_decide (vla = VLA_STAR) then fold_had_error else mret tt);
           let t := match vla with
                    | VLA_NO => type_array ty size is_static VLA_NO
                    | _ => type_array ty size false vla
                    end in
           _ ← (if is_static && inner then fold_had_error else mret tt);
           mret (t, q)
       | PARSED_FUNC args arg_sc => t ← create_func_type ty args arg_sc; mret (t, qual_none)
       | PARSED_ATTR => mret (ty, qual_none)
       end : P (type * Z));
  mret (type_attributed (type_qualify3 (type_at_where r.1) r.2 false) (p_attr l)).

Fixpoint wrap_layers (ls : list parsed) (ty : type) : P type :=
  match ls with
  | [] => mret ty
  | l :: ls => ty ← wrap_layer l (match ls with [] => false | _ => true end) ty; wrap_layers ls ty
  end.

(** The type, and the name found for the declaration. *)
Definition parse_type_declarator_to_type (md : Z) (dfor : bool) (base : type) (sc : scope) : P (type * option cstr) :=
  parsed ← declarator_ self md dfor [] sc;
  ty ← wrap_layers parsed.1 base;
  mret (if dfor then type_at_where ty else ty, parsed.2).

(** [type_nav_changeauto] *)
Fixpoint type_nav_changeauto (ontop trailing : type) : res type :=
  match ontop with
  | type_btype _ => Ok trailing
  | type_auto => Ice "__auto_type"
  | type_ptr ref _ => base ← type_nav_changeauto ref trailing; Ok (type_ptr_to base)
  | type_block ref => base ← type_nav_changeauto ref trailing; Ok (type_block base)
  | type_array ref size is_static _ =>
      base ← type_nav_changeauto ref trailing; Ok (type_array base size is_static VLA_NO)
  | type_func ref i void variadic args =>
      base ← type_nav_changeauto ref trailing; Ok (type_func base i void variadic args)
  | type_tdef _ _ ref _ _ | type_typeof _ ref | type_cast ref _ => type_nav_changeauto ref trailing
  | type_where ref => base ← type_nav_changeauto ref trailing; Ok (type_at_where base)
  | type_attr ref attrs => base ← type_nav_changeauto ref trailing; Ok (type_attributed base attrs)
  end.

(** The type, the name, and whether a trailing type was read. *)
Definition parse_type_declarator (md : Z) (dfor : bool) (base : type) (sc : scope) (try_trail : bool)
    : P (type * option cstr * bool) :=
  r ← parse_type_declarator_to_type md dfor base sc;
  arrow ← (if try_trail then accept token_ptr else mret false);
  if negb arrow then mret (r.1, r.2, false)
  else
    w ← get_world;
    let sc := match type_is r.1 kind_func with
              | Some (type_func _ i _ _ _) => match arg_scope i w with Some sc => sc | None => sc end
              | _ => sc
              end in
    ttrail ← type_ self true sc;
    match ttrail with
    | None => _ ← parse_error; mret (r.1, r.2, true)
    | Some t => t ← fail (type_nav_changeauto r.1 t); mret (t, r.2, true)
    end.

Definition parse_type (newdecl : bool) (sc : scope) : P (option type) :=
  auto ← accept token_auto;
  at_decl ← (if auto : bool then
               at_decl ← parse_at_decl fuel sc true;
               _ ← (if at_decl : bool then uneat_ token_auto else mret tt);
               mret at_decl
             else mret true);
  b ← (if at_decl : bool then
         r ← parse_btype None None newdecl sc 0;
         mret r.1.1
       else mret (Some default_type));
  match b with
  | None => mret None
  | Some b =>
      r ← parse_type_declarator 0 false b sc (negb at_decl);
      mret (Some r.1.1)
  end.

Fixpoint parse_type_list_loop (n : nat) (sc : scope) : P (list type) :=
  match n with
  | O => fail NoFuel
  | S n =>
      r ← parse_type false sc;
      match r with
      | None => fail (Die "type expected")
      | Some t =>
          more ← accept token_comma;
          if more : bool then rest ← parse_type_list_loop n sc; mret (t :: rest) else mret [t]
      end
  end.

Definition parse_type_list (sc : scope) : P (list type) :=
  t ← get_curtok;
  if bool_decide (t = token_close_paren) then mret [] else parse_type_list_loop fuel sc.

(** ** Declarations *)

(** [parse_asciz_str], of a string token. *)
Definition parse_asciz_str : P (option cstring) :=
  c ← current_string;
  match c with
  | None => _ ← parse_error; mret None
  | Some c => match StrLit.type c with
              | CSTRING_WIDE => _ ← parse_error; mret None
              | _ => mret (Some c)
              end
  end.

(** The assembler's name. *)
Definition parse_add_asm (d : decl) : P decl :=
  asm ← accept token_asm;
  if negb asm then mret d
  else
    _ ← EAT token_open_paren;
    t ← get_curtok;
    if negb (bool_decide (t = token_string)) then fail (Die "string expected")
    else
      c ← parse_asciz_str;
      match c with
      | None => mret d
      | Some c =>
          rename ← fail (cstring_text c);
          _ ← EAT token_string;
          _ ← EAT token_close_paren;
          d ← (match spel_asm d with
               | Some sp => _ ← (if bool_decide (sp = rename) then mret tt else parse_error); mret d
               | None => mret (set_asm d (Some rename))
               end);
          w ← get_world;
          _ ← (if used_proto d w then parse_error else mret tt);
          mret d
      end.

(** What follows the declarator of what is not a function. *)
Definition decl_initialiser (d : decl) (bt : type) (st : Z) (sc : scope) (add_to_scope : option scope)
    (is_arg is_autotype : bool) : P decl :=
  asgn ← (if is_some (d_spel d) then accept token_assign else mret false);
  if negb asgn then _ ← (if is_autotype then parse_error else mret tt); mret d
  else
    w ← get_world;
    let static_ctx := global_scope sc w || (Z.land st STORE_MASK_STORE =? store_val store_static)%Z in
    d ← (match add_to_scope with
         | Some asc => if is_autotype then mret d else fold_decl_add_sym d asc
         | None => mret d
         end);
    init ← parse_init sc static_ctx;
    let d := set_init d (Some init) in
    _ ← (match add_to_scope with
         | Some asc => if is_autotype then symtab_add_to_scope asc d else decl_changed d
         | None => mret tt
         end);
    if negb is_autotype then mret d
    else
      match scalar_init init with
      | None => mret d
      | Some e =>
          e ← fold_expr e sc;
          let attrs := match type_skip_non_attr bt with type_attr _ a => a | _ => [] end in
          let d := set_ref d (Some (type_attributed (type_qualify (tree_type e) (type_qual (type_at_where bt))) attrs)) in
          fold_type_ondecl_w d sc is_arg
      end.

Definition workaround_valist_typedef (d : decl) (sc : scope) : P decl :=
  w ← get_world;
  if negb (STORE_IS_TYPEDEF (store d)) || negb (valist_workaround d w) then mret d
  else
    match d_spel d with
    | None => fail (Ub "null spelling")
    | Some sp =>
        if bool_decide (sp = str "va_list")
           && match type_is_ptr (ref_of d) with Some pointee => type_is_void pointee | None => false end
        then t ← type_nav_va_list sc; mret (set_ref d (Some t))
        else mret d
    end.

Definition is_func_decl (d : decl) : bool :=
  match d_ref d with Some t => is_some (type_is t kind_func) | None => false end.

Definition parse_decl_stored_aligned (bt : type) (md : Z) (st : Z) (align : list decl_align)
    (attrs : list attribute) (sc : scope) (add_to_scope : option scope) (is_arg : bool) : P decl :=
  let is_autotype := match type_skip_all bt with type_auto => true | _ => false end in
  i ← decl_new;
  a ← parse_add_attr fuel sc;
  let d := mk_decl i st None (attrs ++ a) None None [] None in
  d ← (if is_autotype then
         sp ← on_lexer (token_eat_identifier keyword_mode junk f (Some DUMMY_IDENTIFIER));
         mret (set_spel d sp)
       else
         let auto_int :=
           (Z.land st STORE_MASK_STORE =? store_val store_auto)%Z
           && match type_get_type bt with
              | Some bt => bool_decide (primitive bt = type_int)
              | None => false
              end in
         at_decl ← (if auto_int then parse_at_decl fuel sc true else mret true);
         r ← parse_type_declarator md true bt sc (negb at_decl);
         let '(t, sp, trail) := r in
         let d := set_spel (set_ref d (Some t)) sp in
         let d := if trail : bool then set_store d (Z.lor (store_val store_default) (Z.land st STORE_MASK_EXTRA)) else d in
         _ ← (match add_to_scope with Some asc => symtab_add_to_scope asc d | None => mret tt end);
         mret d);
  d ← (if is_autotype || negb (is_func_decl d) then
         d ← parse_add_asm d;
         a ← parse_add_attr fuel sc;
         d ← fold_type_ondecl_w (set_attr d (d_attr d ++ a)) sc is_arg;
         d ← decl_initialiser d bt st sc add_to_scope is_arg is_autotype;
         match d_ref d with
         | Some _ => mret d
         | None => _ ← parse_error; mret (set_ref d (Some default_type))
         end
       else mret d);
  d ← (if is_func_decl d then _ ← (match align with [] => mret tt | _ => fold_had_error end); mret d
       else mret (set_align d align));
  d ← workaround_valist_typedef d sc;
  let d := set_ref d (Some (type_attributed (ref_of d) (d_attr d))) in
  _ ← decl_changed d;
  mret d.

Definition parse_arg_decl (sc : scope) : P decl :=
  r ← parse_btype (Some (store_val store_default)) None false sc PARSE_BTYPE_DEFAULT_INT;
  match r with
  | (Some bt, Some st, _) =>
      parse_decl_stored_aligned bt (Z.lor DECL_CAN_DEFAULT DECL_ALLOW_STORE) st [] [] sc None true
  | _ => fail (Ice "btype")
  end.

(** [move_typrop_attrs]: the attributes that travel with types go to the type. *)
Definition move_typrop_attrs (attrs : list attribute) (ty : type) : list attribute * type :=
  (List.filter (fun a => negb (attribute_is_typrop a)) attrs,
   type_attributed (type_skip_attrs ty) (List.filter attribute_is_typrop attrs)).

Definition parse_decl (md : Z) (newdecl : bool) (sc : scope) (add_to_scope : option scope) : P (option decl) :=
  a ← parse_add_attr_out fuel sc;
  let flags := if a.2 : bool then Z.lor PARSE_BTYPE_AUTOTYPE PARSE_BTYPE_DEFAULT_INT else PARSE_BTYPE_AUTOTYPE in
  r ← parse_btype (if has md DECL_ALLOW_STORE then Some (store_val store_default) else None) None newdecl sc flags;
  let st := match r.1.2 with Some st => st | None => store_val store_default end in
  bt ← (match r.1.1 with
        | None => mret (if has md DECL_CAN_DEFAULT then Some default_type else None)
        | Some bt => if STORE_IS_TYPEDEF st then fail (Die "typedef unexpected") else mret (Some bt)
        end);
  match bt with
  | None => mret None
  | Some bt =>
      let moved := move_typrop_attrs a.1 bt in
      d ← parse_decl_stored_aligned moved.2 md st [] moved.1 sc add_to_scope false;
      d ← fold_decl d sc;
      mret (Some d)
  end.

End functions.

(** ** Tied together *)

Definition no_declarers : declarers :=
  mk_declarers (fun _ _ _ _ => fail NoFuel) (fun _ _ => fail NoFuel).

(** [declarers_at n] may nest [n] deep; the expressions inside are parsed by the
    functions of [Parse]. *)
Fixpoint declarers_at (n : nat) : declarers :=
  match n with
  | O => no_declarers
  | S n =>
      let self := declarers_at n in
      let ps := parsers_at keyword_mode junk f n in
      mk_declarers (parsed_type_ptr n self ps (parse_arg_decl n self ps)) (parse_type n self ps)
  end.

End parse.
