(* ===== verification/Declaring.v ===== *)
(** * What the parser of types reads

    Theorems about [Declare]: specifiers in any order name the type C gives them
    (6.7.2), with qualifiers and a storage class anywhere among them. *)

From S2P Require Import Prelude CStr StrLit Escape Types Consts Token Tokconv Parse Parsing Declare.

(** ** Specifiers *)

(** C11 6.7.2, without complex types: each multiset of keywords, and its type. *)
Definition c_specifiers : list (list token * type_primitive) := [
  ([token_void], type_void); ([token__Bool], type__Bool);
  ([token_char], type_nchar); ([token_signed; token_char], type_schar); ([token_unsigned; token_char], type_uchar);
  ([token_short], type_short); ([token_signed; token_short], type_short);
  ([token_short; token_int], type_short); ([token_signed; token_short; token_int], type_short);
  ([token_unsigned; token_short], type_ushort); ([token_unsigned; token_short; token_int], type_ushort);
  ([token_int], type_int); ([token_signed], type_int); ([token_signed; token_int], type_int);
  ([token_unsigned], type_uint); ([token_unsigned; token_int], type_uint);
  ([token_long], type_long); ([token_signed; token_long], type_long);
  ([token_long; token_int], type_long); ([token_signed; token_long; token_int], type_long);
  ([token_unsigned; token_long], type_ulong); ([token_unsigned; token_long; token_int], type_ulong);
  ([token_long; token_long], type_llong); ([token_signed; token_long; token_long], type_llong);
  ([token_long; token_long; token_int], type_llong);
  ([token_signed; token_long; token_long; token_int], type_llong);
  ([token_unsigned; token_long; token_long], type_ullong);
  ([token_unsigned; token_long; token_long; token_int], type_ullong);
  ([token_float], type_float); ([token_double], type_double); ([token_long; token_double], type_ldouble)
].

Definition is_type_tok (t : token) : bool :=
  curtok_is_type_primitive t || bool_decide (t = token_signed) || bool_decide (t = token_unsigned).

Definition is_specifier (t : token) : bool :=
  is_type_tok t || curtok_is_type_qual t || curtok_is_decl_store t.

(** The qualifiers among the tokens, and the storage classes. *)
Definition quals_from (q : Z) (ts : list token) : Z :=
  fold_left (fun q t => Z.lor q (curtok_to_type_qualifier t)) ts q.
Definition quals_of : list token -> Z := quals_from 0.

Definition type_toks (ts : list token) : list token := List.filter is_type_tok ts.
Definition store_toks (ts : list token) : list token := List.filter curtok_is_decl_store ts.

(** Tokens that specify the basic type [p] in C. *)
Definition specifies (ts : list token) (p : type_primitive) : Prop :=
  forallb is_specifier ts = true /\ exists l, type_toks ts ≡ₚ l /\ (l, p) ∈ c_specifiers.

(** The storage class given to a declaration that may have one. *)
Definition stored (st : option Z) (ts : list token) : option Z :=
  match store_toks ts with
  | t :: _ => match st, curtok_to_decl_storage t with
              | Some s, Some c => Some (Z.lor s (store_val c))
              | _, _ => st
              end
  | [] => st
  end.

(** What the keywords of basic types leave: [primitive_mode], the primitive,
    [signed_set] and [is_signed]. *)
Definition view : Type := specifier_mode * type_primitive * bool * bool.

Section specs.
Context `{Declarations}.

Definition put_view (v : view) (b : specifiers) : specifiers :=
  let '(m, p, ss, sg) := v in
  mk_specifiers (store_ b) (palign b) (attr b) (qual b) p (may_default_type b) sg (is_inline b)
    (is_noreturn b) (is_va_list b) (store_set b) ss (tdef_decl b) (tdef_typeof b) m.

Definition view_of (b : specifiers) : view := (mode b, prim b, signed_set b, is_signed b).

Definition type_step (t : token) (b : specifiers) : res specifiers :=
  if curtok_is_type_primitive t then add_primitive b (curtok_to_type_primitive t)
  else if signed_set b then Die "unwanted second"
  else Ok (put_signed b (bool_decide (t = token_signed))).

Definition blank : specifiers := no_specifiers None None 0.

Fixpoint type_run (ts : list token) (v : view) : res view :=
  match ts with
  | [] => Ok v
  | t :: ts => b ← type_step t (put_view v blank); type_run ts (view_of b)
  end.

(** The primitive the keywords name, if they do. *)
Definition named (v : view) : option type_primitive :=
  let '(m, p, ss, sg) := v in
  match m, ss with
  | NONE, false | TYPEDEF, _ | TYPEOF, _ | AUTOTYPE, _ => None
  | _, _ => match (if ss then signed_primitive sg p else Ok p) with Ok p => Some p | _ => None end
  end.

Lemma type_step_frame (t : token) (v : view) (b : specifiers) :
  is_type_tok t = true ->
  type_step t (put_view v b) = (c ← type_step t (put_view v blank); Ok (put_view (view_of c) b)).
Proof.
  destruct v as [[[m p] ss] sg]. intros Ht; destruct t; try discriminate Ht; destruct m; try reflexivity;
    try (by destruct p); by destruct ss.
Qed.

(** The table, in every order. *)
Lemma table_ok (l : list token) (p : type_primitive) (ts : list token) :
  (l, p) ∈ c_specifiers -> ts ≡ₚ l ->
  exists v, type_run ts (NONE, type_int, false, true) = Ok v /\ named v = Some p.
Proof.
  intros Hl Hts.
  assert (Hall : forallb (fun lp => forallb (fun ts =>
            match type_run ts (NONE, type_int, false, true) with
            | Ok v => bool_decide (named v = Some lp.2)
            | _ => false
            end) (permutations lp.1)) c_specifiers = true).
  { clear. vm_compute. reflexivity. }
  rewrite forallb_forall in Hall. apply list_elem_of_In in Hl. specialize (Hall _ Hl). cbn [fst snd] in Hall.
  assert (Hin : In ts (permutations l)) by (rewrite <- list_elem_of_In; by apply permutations_Permutation).
  rewrite forallb_forall in Hall. specialize (Hall ts Hin).
  destruct (type_run ts _) as [v| | | |]; try discriminate Hall.
  exists v. split; [done|]. exact (bool_decide_eq_true_1 _ Hall).
Qed.

(** One token of the loop, and all of them. *)
Definition spec_step (t : token) (b : specifiers) : res specifiers :=
  if curtok_is_type_qual t then Ok (put_qual b (Z.lor (qual b) (curtok_to_type_qualifier t)))
  else if curtok_is_decl_store t then
    match store_ b, curtok_to_decl_storage t with
    | Some st, Some c => if store_set b then Die "second store" else Ok (put_store b (Some (Z.lor st (store_val c))) true)
    | _, _ => Die "storage unwanted"
    end
  else type_step t b.

Fixpoint spec_run (ts : list token) (b : specifiers) : res specifiers :=
  match ts with
  | [] => Ok b
  | t :: ts => b ← spec_step t b; spec_run ts b
  end.

(** A storage class is wanted, if there is one. *)
Definition store_ok (b : specifiers) (ts : list token) : Prop :=
  store_toks ts = [] \/ store_set b = false /\ is_some (store_ b) = true /\ length (store_toks ts) = 1%nat.

Definition after (b : specifiers) (ts : list token) : specifiers :=
  put_qual (put_store b (stored (store_ b) ts) (store_set b || match store_toks ts with [] => false | _ => true end))
    (quals_from (qual b) ts).

Lemma tok_classes (t : token) :
  is_specifier t = true ->
  (curtok_is_type_qual t = true /\ curtok_is_decl_store t = false /\ is_type_tok t = false)
  \/ (curtok_is_type_qual t = false /\ curtok_to_type_qualifier t = 0
      /\ ((exists c, curtok_to_decl_storage t = Some c) /\ curtok_is_decl_store t = true /\ is_type_tok t = false
          \/ curtok_is_decl_store t = false /\ is_type_tok t = true)).
Proof. intros Ht; destruct t; try discriminate Ht; cbn; (left; by split_and!) || (right; split_and!; [done..|]; eauto 6). Qed.

Lemma spec_run_view (ts : list token) (v v' : view) (b : specifiers) :
  forallb is_specifier ts = true -> type_run (type_toks ts) v = Ok v' -> store_ok b ts ->
  spec_run ts (put_view v b) = Ok (put_view v' (after b ts)).
Proof.
  revert v b. induction ts as [|t ts IH]; intros v b Hall Hrun Hst.
  { injection Hrun as <-. unfold after. rewrite orb_false_r. cbn. by destruct v as [[[]]], b. }
  simpl in Hall. apply andb_prop in Hall as [Ht Hall]. cbn [spec_run]. unfold spec_step.
  destruct (tok_classes t Ht) as [(Hq & Hs & Hty)|(Hq & Hz & [((c & Hc) & Hs & Hty)|(Hs & Hty)])]; rewrite Hq;
    unfold store_ok, type_toks, store_toks, after, stored, store_toks in *; cbn [List.filter] in *; rewrite ?Hs, ?Hty in *.
  - destruct v as [[[m p] ss] sg].
    exact (IH (m, p, ss, sg) (put_qual b (Z.lor (qual b) (curtok_to_type_qualifier t))) Hall Hrun Hst).
  - destruct Hst as [Hst|(Hset & Hsome & Hlen)]; [done|]. simpl in Hlen. injection Hlen as Hlen.
    apply nil_length_inv in Hlen. destruct (store_ b) as [st|] eqn:Es; [|done].
    assert (Ev : store_ (put_view v b) = Some st) by (by destruct v as [[[]]]).
    assert (Eset : store_set (put_view v b) = false) by (by destruct v as [[[]]]).
    rewrite Ev, Hc, Eset. cbn [mbind res_bind].
    etransitivity.
    { destruct v as [[[m p] ss] sg].
      exact (IH (m, p, ss, sg) (put_store b (Some (Z.lor st (store_val c))) true) Hall Hrun (or_introl Hlen)). }
    rewrite Hlen, Hset. cbn. by rewrite Hz, Z.lor_0_r.
  - rewrite type_step_frame by done. cbn [type_run] in Hrun. 
    destruct (type_step t (put_view v blank)) as [c| | | |]; try discriminate Hrun. cbn [mbind res_bind] in Hrun |- *.
    rewrite (IH _ b Hall Hrun Hst). cbn. by rewrite Hz, Z.lor_0_r.
Qed.

End specs.

(** *** The loop *)

(** The tokens that cannot carry specifiers on; what an identifier means depends
    on what came before. *)
Definition ends_specifiers (t : token) : bool :=
  match t with
  | token_inline | token__Noreturn | token_struct | token_union | token_enum | token_typeof
  | token___builtin_va_list | token_attribute | token__Alignas | token___auto_type => false
  | _ => negb (is_specifier t)
  end.

Ltac step H := rewrite (bind_ok _ _ _ _ _ H); cbv beta.

Section parsing.
Context `{Declarations} (keyword_mode junk : Z) (f : nat).

Local Abbreviation yields := (yields keyword_mode junk f).
Local Abbreviation EAT := (EAT keyword_mode junk f).

Lemma fail_ok {A} (r : res A) (a : A) st : r = Ok a -> fail r st = Ok (st, a).
Proof. intros ->. done. Qed.

Lemma turn_specifier (n : nat) (self : declarers) (ps : parsers) (b b' : specifiers) (nd : bool) (sc : scope)
    (t : token) (ts : list ptok) (s : lexer) (w : world) :
  is_specifier t = true -> spec_step t b = Ok b' -> yields s (PTok t :: ts) ->
  exists s', parse_btype_turn keyword_mode junk f n self ps b nd sc (s, w) = Ok ((s', w), Again b')
             /\ curtok_save s' = token_unknown /\ yields s' ts.
Proof.
  intros Ht Hb Hy. destruct (EAT_ok _ _ _ s w t ts Hy) as (s' & He & Hu & Hy').
  exists s'. split; [|done]. unfold parse_btype_turn. step (curtok_ok _ _ _ s w _ Hy). cbn [head_kind ptok_kind].
  unfold spec_step in Hb.
  destruct (tok_classes t Ht) as [(Hq & Hs & Hty)|(Hq & Hz & [((c & Hc) & Hs & Hty)|(Hs & Hty)])]; rewrite Hq in *.
  - injection Hb as <-. by step He.
  - rewrite Hs in *. rewrite Hc in *. destruct (store_ b) as [st|] eqn:Est; [|done].
    destruct (store_set b) eqn:Eset; [done|].
    assert (Hst : btype_set_store b (Some c) (s, w) = Ok ((s, w), b')).
    { unfold btype_set_store. rewrite Est, Eset. by injection Hb as <-. }
    step Hst. by step He.
  - rewrite Hs in *. unfold type_step in Hb. destruct (curtok_is_type_primitive t) eqn:Hp.
    + step (fail_ok (add_primitive b (curtok_to_type_primitive t)) b' (s, w) Hb). by step He.
    + destruct (signed_set b) eqn:Ess; [done|]. injection Hb as <-.
      unfold is_type_tok in Hty. rewrite Hp in Hty. destruct t; try discriminate Hty; step He; done.
Qed.

Lemma turn_stops (n : nat) (self : declarers) (ps : parsers) (b : specifiers) (nd : bool) (sc : scope)
    (rest : list ptok) (s : lexer) (w : world) :
  yields s rest -> ends_specifiers (head_kind rest) = true -> spelled s ->
  signed_set b = true \/ none_mode b = false ->
  parse_btype_turn keyword_mode junk f n self ps b nd sc (s, w) = Ok ((s, w), Stop b).
Proof.
  intros Hy Hends Hsp Hb. unfold parse_btype_turn. step (curtok_ok _ _ _ s w _ Hy).
  destruct (decide (head_kind rest = token_identifier)) as [Hid|Hid].
  - rewrite Hid.
    enough (identifier_turn keyword_mode junk f b sc (s, w) = Ok ((s, w), Stop b)) as E by exact E.
    unfold identifier_turn. destruct (signed_set b) eqn:Ess; [done|]. destruct Hb as [|Hb]; [done|].
    assert (Htd : exists d, parse_at_tdef sc (s, w) = Ok ((s, w), d)).
    { unfold parse_at_tdef. cbn [fst snd]. rewrite (yields_curtok _ _ _ _ _ Hy), Hid, bool_decide_eq_true_2 by done.
      destruct (currentspelling s) eqn:E; [eauto|]. exfalso. apply Hsp; [|done].
      by rewrite (yields_curtok _ _ _ _ _ Hy). }
    destruct Htd as [d Htd]. step Htd. destruct d; [|done]. by rewrite Hb.
  - destruct (head_kind rest); try discriminate Hends; done.
Qed.

Lemma loop_specifiers (m : nat) (self : declarers) (ps : parsers) (nd : bool) (sc : scope) (rest : list ptok) (w : world)
    (ts : list token) : forall (n : nat) (b b' : specifiers) (s : lexer),
  forallb is_specifier ts = true -> spec_run ts b = Ok b' -> (length ts < n)%nat ->
  yields s (map PTok ts ++ rest) -> curtok_save s = token_unknown ->
  ends_specifiers (head_kind rest) = true -> Forall not_spell (take 1 rest) ->
  signed_set b' = true \/ none_mode b' = false ->
  exists s', parse_btype_loop keyword_mode junk f m self ps n b nd sc (s, w) = Ok ((s', w), Stop b')
             /\ curtok_save s' = token_unknown /\ yields s' rest.
Proof.
  induction ts as [|t ts IH]; intros n b b' s Hall Hrun Hn Hy Hu Hends Hsp Hb; (destruct n as [|n]; [simpl in Hn; lia|]);
    cbn [parse_btype_loop].
  - injection Hrun as <-. cbn [map app] in Hy. assert (Hs : spelled s).
    { destruct rest as [|p rest]; [intros E; by rewrite (proj1 Hy) in E|]. eapply yields_spelled; [exact Hy|done|].
      by inversion Hsp. }
    exists s. split; [|done]. by step (turn_stops m self ps b nd sc rest s w Hy Hends Hs Hb).
  - simpl in Hall. apply andb_prop in Hall as [Ht Hall]. cbn [spec_run] in Hrun.
    destruct (spec_step t b) as [b1| | | |] eqn:E1; try discriminate Hrun. cbn [mbind res_bind] in Hrun.
    destruct (turn_specifier m self ps b b1 nd sc t (map PTok ts ++ rest) s w Ht E1 Hy) as (s1 & He & Hu1 & Hy1).
    destruct (IH n b1 b' s1 Hall Hrun ltac:(simpl in Hn; lia) Hy1 Hu1 Hends Hsp Hb) as (s' & He' & Hrest).
    exists s'. split; [|done]. by step He.
Qed.

(** *** The type *)

(** The type specifiers give: a basic type, qualified, at its place. *)
Definition basic (p : type_primitive) (q : Z) : type := type_at_where (type_qualify (type_btype (mk_btype p None)) q).

Lemma accept_all_no (n : nat) (t : token) (s : lexer) (w : world) (ts : list ptok) :
  yields s ts -> head_kind ts <> t -> accept_all keyword_mode junk f (S n) t (s, w) = Ok ((s, w), tt).
Proof. intros Hy Ht. cbn [accept_all]. by step (accept_no _ _ _ s w t ts Hy Ht). Qed.

Lemma no_attrs_out (n : nat) (sc : scope) (s : lexer) (w : world) (ts : list ptok) :
  yields s ts -> head_kind ts <> token_attribute ->
  parse_add_attr_out keyword_mode junk f (S n) sc (s, w) = Ok ((s, w), ([], false)).
Proof. intros Hy Ht. cbn [parse_add_attr_out]. by step (accept_no _ _ _ s w _ ts Hy Ht). Qed.

Lemma no_attrs (n : nat) (sc : scope) (s : lexer) (w : world) (ts : list ptok) :
  yields s ts -> head_kind ts <> token_attribute ->
  parse_add_attr keyword_mode junk f (S n) sc (s, w) = Ok ((s, w), []).
Proof. intros Hy Ht. unfold parse_add_attr. by step (no_attrs_out n sc s w ts Hy Ht). Qed.

Lemma btype_reads (n : nat) (self : declarers) (ps : parsers) (st : option Z) (al : option (list decl_align))
    (nd : bool) (sc : scope) (flags : Z) (ts : list token) (p : type_primitive) (rest : list ptok) (s : lexer) (w : world) :
  specifies ts p -> (st = None /\ store_toks ts = [] \/ st = Some 0 /\ (length (store_toks ts) <= 1)%nat) ->
  al = None \/ al = Some [] ->
  (length ts < n)%nat -> yields s (map PTok ts ++ rest) -> curtok_save s = token_unknown ->
  ends_specifiers (head_kind rest) = true -> Forall not_spell (take 1 rest) ->
  exists s', parse_btype keyword_mode junk f n self ps st al nd sc flags (s, w)
             = Ok ((s', w), (Some (basic p (quals_of ts)), stored st ts, al))
             /\ curtok_save s' = token_unknown /\ yields s' rest.
Proof.
  intros (Hall & l & Hl & Hin) Hst Hal Hn Hy Hu Hends Hsp. destruct n as [|n]; [lia|].
  destruct (table_ok l p _ Hin Hl) as ([[[m q] ss] sg] & Hrun & Hnamed).
  set (b0 := no_specifiers st al flags).
  assert (Hok : store_ok b0 ts).
  { unfold store_ok, b0. cbn. destruct Hst as [[_ ->]|[-> Hlen]]; [by left|].
    destruct (store_toks ts) as [|? [|]]; [by left|by right|simpl in Hlen; lia]. }
  pose proof (spec_run_view ts (NONE, type_int, false, true) _ b0 Hall Hrun Hok) as Hspec.
  change (put_view (NONE, type_int, false, true) b0) with b0 in Hspec.
  set (b' := put_view (m, q, ss, sg) (after b0 ts)) in *.
  assert (Hmode : signed_set b' = true \/ none_mode b' = false).
  { unfold b', none_mode. cbn. by destruct m, ss; try discriminate Hnamed; auto. }
  destruct (loop_specifiers (S n) self ps nd sc rest w ts (S n) b0 b' s Hall Hspec Hn Hy Hu Hends Hsp Hmode)
    as (s' & Hloop & Hu' & Hy').
  exists s'. split; [|done]. unfold parse_btype.
  assert (Hext : head_kind (map PTok ts ++ rest) <> token___extension__).
  { destruct ts as [|t ts]; cbn [map app head_kind ptok_kind].
    - clear - Hl Hin. cbn in Hl. apply Permutation_nil_l in Hl. subst l. 
      assert (E : existsb (fun lp => match lp.1 : list token with [] => true | _ => false end) c_specifiers = false) by done.
      exfalso. rewrite <- not_true_iff_false in E. apply E, existsb_exists. exists ([], p).
      split; [by apply list_elem_of_In|done].
    - simpl in Hall. intros ->. done. }
  step (accept_all_no n token___extension__ s w _ Hy Hext). step Hloop.
  assert (Hsome : some_specifier b' = true).
  { unfold some_specifier. destruct Hmode as [-> | ->]; by rewrite !orb_true_r. }
  rewrite Hsome.
  assert (Htype : specified_type b' flags sc (s', w) = Ok ((s', w), type_btype (mk_btype p None))).
  { unfold specified_type, b'. cbn. destruct m, ss; try discriminate Hnamed; cbn in Hnamed |- *;
      try (injection Hnamed as <-; done);
      destruct (signed_primitive sg q); try discriminate Hnamed; injection Hnamed as <-; done. }
  step Htype.
  assert (Hchk : typedef_checks b' (s', w) = Ok ((s', w), b')).
  { unfold typedef_checks. assert (store_ b' = stored st ts /\ palign b' = al) as [-> ->] by done.
    destruct Hst as [[-> Hs]|[-> Hs]]; unfold stored.
    - by rewrite Hs.
    - assert (Hcls : Forall (fun t => curtok_is_decl_store t = true) (store_toks ts))
        by (apply Forall_forall; intros t; unfold store_toks; rewrite list_elem_of_In, filter_In; tauto).
      destruct (store_toks ts) as [|t ?]; [done|]. apply Forall_cons in Hcls as [Ht _].
      destruct t; try discriminate Ht; cbn; destruct Hal as [-> | ->]; done. }
  step Hchk. unfold parse_btype_end.
  assert (Hattr : head_kind rest <> token_attribute) by (intros E; by rewrite E in Hends).
  assert (Hend : (more ← parse_add_attr keyword_mode junk f (S n) sc;
     let bt := type_qualify (type_btype (mk_btype p None)) (qual b') in
     let attrs := attr b' ++ more ++ (if is_noreturn b' then [mk_attribute attr_noreturn None] else []) in
     mret (type_at_where (type_attributed bt attrs)) : P type) (s', w)
     = Ok ((s', w), basic p (quals_of ts))).
  { step (no_attrs n sc s' w rest Hy' Hattr). done. }
  by step Hend.
Qed.

End parsing.
