(* ===== verification/Declarator.v ===== *)
(** * What declarators declare

    C's rules for declarators (6.7.6) as an inductive relation between tokens,
    the type the specifiers name, and the name and type declared; arguments and
    the sizes of arrays included. The parser of [Declare] reads exactly the
    tokens of a declarator and builds its type. *)

From S2P Require Import Prelude CStr StrLit Escape Types Consts Token Tokconv Parse Parsing Declare Declaring.

(** ** Types without their places *)

(** A type without the places it was written at and without the identities of
    its lists of arguments. *)
Fixpoint plain (t : type) : type :=
  match t with
  | type_btype bt => type_btype bt
  | type_tdef d a ref e tree => type_tdef d a (plain ref) e (plain tree)
  | type_typeof e tree => type_typeof e (plain tree)
  | type_ptr ref from => type_ptr (plain ref) (match from with Some t => Some (plain t) | None => None end)
  | type_block ref => type_block (plain ref)
  | type_func ref _ void variadic args => type_func (plain ref) 0 void variadic (map plain args)
  | type_array ref size is_static vla => type_array (plain ref) size is_static vla
  | type_auto => type_auto
  | type_cast ref q => type_cast (plain ref) q
  | type_attr ref attrs => type_attr (plain ref) attrs
  | type_where ref => plain ref
  end.

Lemma plain_skip_wheres (t : type) : plain (type_skip_wheres t) = plain t.
Proof. unfold type_skip_wheres. by induction t; simpl. Qed.

Lemma plain_at_where (t : type) : plain (type_at_where t) = plain t.
Proof. apply plain_skip_wheres. Qed.

Lemma type_qual_plain (t : type) : type_qual (plain t) = type_qual t.
Proof. induction t; simpl; congruence. Qed.

Lemma plain_qualify3 (t : type) (q : Z) : plain (type_qualify3 t q false) = type_qualify3 (plain t) q false.
Proof. unfold type_qualify3, new_quals. rewrite type_qual_plain. by repeat case_match. Qed.

(** Whether a type is [void], as the parser of arguments looks. *)
Definition is_void_type (t : type) : bool :=
  match type_is t kind_btype with
  | Some (type_btype bt) => bool_decide (primitive bt = type_void)
  | _ => false
  end.

Lemma is_void_plain (t : type) : is_void_type (plain t) = is_void_type t.
Proof. induction t; done. Qed.

(** ** The grammar of declarators *)

Section grammar.
Context `{Declarations} (builtin_name : cstr -> bool).

(** What folding makes of an expression, and the parameter types it accepts. *)
Context (folded : expr -> expr) (fine : type -> Prop).

(** The constant a size in brackets comes to. *)
Definition constant_size (e : expr) (n : Z) : Prop :=
  type_is_integral (tree_type (folded e)) = true
  /\ nonstandard_const (const_fold (folded e)) = None
  /\ exists suffix, k_val (const_fold (folded e)) = CONST_NUM n suffix /\ has suffix VAL_FLOATING = false.

Definition qualified (q : Z) (t : type) : type := if (q =? 0)%Z then t else type_cast t q.

(** [declares ts T nm T']: where a declaration's specifiers name [T] and its
    declarator is [ts], what is declared has the name [nm], if any, and the type
    [T'] (6.7.6). As there, the type is built outside in: a star or a suffix is
    around the type for the declarator inside it. *)
Inductive declares : list ptok -> type -> option cstr -> type -> Prop :=
  | declares_ptr qs ts T nm T' :
      forallb curtok_is_type_qual qs = true ->
      declares ts (qualified (quals_of qs) (type_ptr_to T)) nm T' ->
      declares (PTok token_multiply :: map PTok qs ++ ts) T nm T'
  | declares_name x sufs T T' :
      suffixed sufs T T' -> declares (PWord x :: sufs) T (Some x) T'
  | declares_parens ts sufs T U nm T' :
      ts <> [] -> suffixed sufs T U -> declares ts U nm T' ->
      declares (PTok token_open_paren :: ts ++ PTok token_close_paren :: sufs) T nm T'
  | declares_nothing sufs T T' :
      suffixed sufs T T' -> declares sufs T None T'
(** The suffixes of a declarator: the first is the outermost. *)
with suffixed : list ptok -> type -> type -> Prop :=
  | suffixed_nil T : suffixed [] T T
  | suffixed_unsized sufs T U :
      suffixed sufs T U ->
      suffixed (PTok token_open_square :: PTok token_close_square :: sufs) T (type_array U size_none false VLA_NO)
  | suffixed_array ts e n sufs T U :
      derives builtin_name 1 ts e -> constant_size e n -> head_kind ts <> token_multiply -> suffixed sufs T U ->
      suffixed (PTok token_open_square :: ts ++ PTok token_close_square :: sufs) T (type_array U (size_const n) false VLA_NO)
  | suffixed_func ps void variadic Ts sufs T U :
      parameters ps void variadic Ts -> suffixed sufs T U -> type_qual U = 0 ->
      suffixed (PTok token_open_paren :: ps ++ PTok token_close_paren :: sufs) T (type_func U 0 void variadic Ts)
(** What is in the parentheses of a function: whether it is [void], or ends in
    three dots, and the types. *)
with parameters : list ptok -> bool -> bool -> list type -> Prop :=
  | parameters_none : cc1_std_c2x = false -> parameters [] false false []
  | parameters_void : parameters [PTok token_void] true false []
  | parameters_some ps variadic Ts : parameter_list ps variadic Ts -> parameters ps false variadic Ts
with parameter_list : list ptok -> bool -> list type -> Prop :=
  | parameter_one ps T : parameter ps T -> parameter_list ps false [T]
  | parameter_dots ps T : parameter ps T -> parameter_list (ps ++ [PTok token_comma; PTok token_elipsis]) true [T]
  | parameter_more ps qs variadic T Ts :
      parameter ps T -> parameter_list qs variadic Ts ->
      parameter_list (ps ++ PTok token_comma :: qs) variadic (T :: Ts)
(** Specifiers and a declarator; not just [void]. *)
with parameter : list ptok -> type -> Prop :=
  | parameter_intro specs p ts nm T :
      specifies specs p -> store_toks specs = [] ->
      declares ts (plain (basic p (quals_of specs))) nm T ->
      (nm = None -> is_void_type T = false) -> fine T ->
      parameter (map PTok specs ++ ts) T.

Scheme declares_mut := Minimality for declares Sort Prop
  with suffixed_mut := Minimality for suffixed Sort Prop
  with parameters_mut := Minimality for parameters Sort Prop
  with parameter_list_mut := Minimality for parameter_list Sort Prop
  with parameter_mut := Minimality for parameter Sort Prop.
Combined Scheme declares_ind5 from declares_mut, suffixed_mut, parameters_mut, parameter_list_mut, parameter_mut.

End grammar.

(** ** The parser of declarators *)

(** What the rest of the compiler does for declarations without mistakes: it
    changes its own state only, and folding keeps the declaration of a
    parameter whose type is [fine] and gives an expression's [folded] form. *)
Class Calm `{Declarations} (folded : expr -> expr) (fine : type -> Prop) : Prop := mk_calm {
  calm_decl : forall s w, exists w' i, decl_new (s, w) = Ok ((s, w'), i);
  calm_funcargs : forall s w, exists w' i, funcargs_new (s, w) = Ok ((s, w'), i);
  calm_arg_scope : forall i sc s w, exists w', set_arg_scope i sc (s, w) = Ok ((s, w'), tt);
  calm_symtab : forall sc b s w, exists w' sc', symtab_new sc b (s, w) = Ok ((s, w'), sc');
  calm_scope : forall sc d s w, exists w', symtab_add_to_scope sc d (s, w) = Ok ((s, w'), tt);
  calm_changed : forall d s w, exists w', decl_changed d (s, w) = Ok ((s, w'), tt);
  calm_fold : forall d sc s w, fine (plain (ref_of d)) -> exists w', fold_decl d sc (s, w) = Ok ((s, w'), d);
  calm_ondecl : forall d sc b s w,
    fine (plain (ref_of d)) -> exists w', fold_type_ondecl_w d sc b (s, w) = Ok ((s, w'), d);
  calm_expr : forall e sc s w, exists w', fold_expr e sc (s, w) = Ok ((s, w'), folded e);
  no_valist : forall d w, valist_workaround d w = false;
  calm_void : fine (type_btype (mk_btype type_void None));
  no_typedef : forall sc x w, typedef_named sc x w = None
}.

Section declarators.
Context `{Declarations} (keyword_mode junk : Z) (f : nat) (builtin_name : cstr -> bool).
Context (folded : expr -> expr) (fine : type -> Prop) {Quiet : Calm folded fine}.
Hypothesis no_types :
  forall sc st, curtok st.1 ∈ starts -> spelled st.1 -> Parse.parse_type sc st = Ok (st, None).
Hypothesis no_builtins : forall sp sc st, builtin_name sp = false -> builtin_parse sp sc st = Ok (st, None).

Local Abbreviation yields := (yields keyword_mode junk f).
Local Abbreviation EAT := (EAT keyword_mode junk f).
Local Abbreviation declares := (declares builtin_name folded fine).
Local Abbreviation suffixed := (suffixed builtin_name folded fine).
Local Abbreviation parameters := (parameters builtin_name folded fine).
Local Abbreviation parameter_list := (parameter_list builtin_name folded fine).
Local Abbreviation parameter := (parameter builtin_name folded fine).

(** *** Layers *)

(** A layer makes of [T] the type [U], whatever the places. *)
Definition layer_wraps (l : parsed) (T U : type) : Prop :=
  forall inner t s w, plain t = T ->
  exists w' t', wrap_layer l inner t (s, w) = Ok ((s, w'), t') /\ plain t' = U.

Inductive wraps : list parsed -> type -> type -> Prop :=
  | wraps_nil T : wraps [] T T
  | wraps_cons l ls T U V : layer_wraps l T U -> wraps ls U V -> wraps (l :: ls) T V.

Lemma wraps_app (l1 l2 : list parsed) (T U V : type) : wraps l1 T U -> wraps l2 U V -> wraps (l1 ++ l2) T V.
Proof. induction 1; intros; [done|]. simpl. econstructor; eauto. Qed.

Lemma wraps_ok (ls : list parsed) (T U : type) :
  wraps ls T U -> forall t s w, plain t = T ->
  exists w' t', wrap_layers ls t (s, w) = Ok ((s, w'), t') /\ plain t' = U.
Proof.
  induction 1 as [T|l ls T U V Hl _ IH]; intros t s w Ht; [by exists w, t|].
  destruct (Hl (match ls with [] => false | _ => true end) t s w Ht) as (w1 & t1 & E1 & H1').
  destruct (IH t1 s w1 H1') as (w2 & t2 & E2 & H2'). exists w2, t2. split; [|done].
  cbn [wrap_layers]. by step E1.
Qed.

Lemma plain_ptr (t : type) (q : Z) :
  plain (type_qualify3 (type_at_where (type_ptr_to t)) q false) = qualified q (type_ptr_to (plain t)).
Proof.
  rewrite plain_qualify3, plain_at_where. unfold type_qualify3, new_quals, qualified. cbn.
  destruct (Z.eqb_spec q 0) as [->|]; [done|]. by rewrite Z.ldiff_0_r.
Qed.

Lemma wraps_ptr (T : type) (q : Z) :
  layer_wraps (mk_parsed (PARSED_PTR type_ptr_to_ [] q) []) T (qualified q (type_ptr_to T)).
Proof.
  intros inner t s w <-. eexists w, _. split; [unfold wrap_layer; reflexivity|]. apply plain_ptr.
Qed.

Lemma wraps_array (T : type) (size : array_size) :
  layer_wraps (mk_parsed (PARSED_ARRAY size qual_none VLA_NO false) []) T (type_array T size false VLA_NO).
Proof. intros inner t s w <-. by eexists w, _. Qed.

Lemma wraps_func (T : type) (args : funcargs) (sc : scope) :
  type_qual T = 0 ->
  layer_wraps (mk_parsed (PARSED_FUNC args sc) []) T
    (type_func T 0 (args_void args) (fa_variadic args) (map (fun d => plain (ref_of d)) (arglist args))).
Proof.
  intros Hq inner t s w <-. rewrite type_qual_plain in Hq.
  destruct (calm_arg_scope (fa_id args) sc s w) as [w1 E1].
  assert (Ef : create_func_type t args sc (s, w)
               = Ok ((s, w1), type_func t (fa_id args) (args_void args) (fa_variadic args) (map ref_of (arglist args)))).
  { unfold create_func_type. rewrite Hq. cbn [Z.eqb].
    step (fail_ok (Ok t) t (s, w) eq_refl). by step E1. }
  eexists w1, _. split.
  - unfold wrap_layer. cbn [p_kind].
    assert (E2 : (t0 ← create_func_type t args sc; mret (t0, qual_none)) (s, w)
                 = Ok ((s, w1), (type_func t (fa_id args) (args_void args) (fa_variadic args)
                                   (map ref_of (arglist args)), qual_none))) by (by step Ef).
    step E2. reflexivity.
  - cbn. by rewrite map_map.
Qed.

(** *** Where the functions stop *)

(** The tokens a declarator ends before. *)
Definition ends_declarator (t : token) : bool :=
  match t with
  | token_comma | token_close_paren | token_close_square | token_semicolon | token_colon | token_open_block
  | token_eof => true
  | _ => false
  end.

(** What a declarator starts with. *)
Definition declarator_head (p : ptok) : Prop :=
  match p with
  | PWord _ => True
  | PTok t => t = token_multiply \/ t = token_open_paren \/ t = token_open_square
  | PInt _ => False
  end.

Lemma suffixed_head (ts : list ptok) (T T' : type) :
  suffixed ts T T' -> ts = [] \/ (exists t ts', ts = PTok t :: ts' /\ (t = token_open_paren \/ t = token_open_square)).
Proof. destruct 1; eauto 8. Qed.

Lemma declares_head (ts : list ptok) (T : type) (nm : option cstr) (T' : type) :
  declares ts T nm T' -> ts = [] \/ exists p ts', ts = p :: ts' /\ declarator_head p.
Proof.
  intros Hd. inversion Hd as [| | |sufs U U' Hs]; subst;
    try (right; eexists _, _; split; [done|simpl; tauto]).
  apply suffixed_head in Hs as [->|(t & ts' & -> & Ht)]; [by left|]. right. eexists _, _. split; [done|]. simpl. tauto.
Qed.

(** After specifiers a declarator starts, or what follows it. *)
Lemma declarator_next (ts : list ptok) (T : type) (nm : option cstr) (T' : type) (rest : list ptok) :
  declares ts T nm T' -> ends_declarator (head_kind rest) = true ->
  ends_specifiers (head_kind (ts ++ rest)) = true /\ Forall not_spell (take 1 (ts ++ rest))
  /\ curtok_is_type_qual (head_kind (ts ++ rest)) = false /\ head_kind (ts ++ rest) <> token_attribute
  /\ head_kind (ts ++ rest) <> token_static /\ head_kind (ts ++ rest) <> token_unknown.
Proof.
  intros Hd Hr. destruct (declares_head _ _ _ _ Hd) as [->|(p & ts' & -> & Hp)].
  - simpl. destruct rest as [|p rest]; [done|]. cbn [head_kind take] in *.
    destruct p as [| |t]; try discriminate Hr.
    destruct t; try discriminate Hr; split_and!; try done; by repeat constructor.
  - destruct p as [x| |t]; [|done|]; simpl in Hp |- *; [by split_and!; try repeat constructor|].
    destruct Hp as [-> | [-> | ->]]; split_and!; try done; by repeat constructor.
Qed.

(** *** Tokens *)

Definition good (s : lexer) (ts : list ptok) : Prop := curtok_save s = token_unknown /\ yields s ts.

Lemma EAT_good (s : lexer) (w : world) (t : token) (ts : list ptok) :
  yields s (PTok t :: ts) -> exists s', EAT t (s, w) = Ok ((s', w), true) /\ good s' ts.
Proof. intros Hy. destruct (EAT_ok _ _ _ s w t ts Hy) as (s' & ? & ? & ?). by exists s'. Qed.

Lemma accept_good (s : lexer) (w : world) (t : token) (ts : list ptok) :
  yields s (PTok t :: ts) -> exists s', accept keyword_mode junk f t (s, w) = Ok ((s', w), true) /\ good s' ts.
Proof. intros Hy. destruct (accept_ok _ _ _ s w t ts Hy) as (s' & ? & ? & ?). by exists s'. Qed.

Lemma tdef_none (s : lexer) (w : world) (sc : scope) (ts : list ptok) :
  yields s ts -> Forall not_spell (take 1 ts) -> parse_at_tdef sc (s, w) = Ok ((s, w), None).
Proof using Quiet.
  intros Hy Hsp. unfold parse_at_tdef. cbn [fst snd]. rewrite (yields_curtok _ _ _ _ _ Hy).
  case_bool_decide as E; [|done]. destruct ts as [|p ts]; [done|].
  destruct (currentspelling s) eqn:Es; [by rewrite no_typedef|]. exfalso.
  eapply (yields_spelled _ _ _ _ _ p ts Hy eq_refl); [by inversion Hsp| |done].
  by rewrite (yields_curtok _ _ _ _ _ Hy).
Qed.

(** No declaration starts with what a declarator or its end starts with. *)
Lemma at_decl_no (n : nat) (s : lexer) (w : world) (sc : scope) (b : bool) (ts : list ptok) :
  yields s ts -> (exists p ts', ts = p :: ts' /\ declarator_head p) \/ ends_declarator (head_kind ts) = true ->
  parse_at_decl keyword_mode junk f n sc b (s, w) = Ok ((s, w), false).
Proof using Quiet.
  intros Hy Ht. assert (E : forall g, (t ← get_curtok; g t) (s, w) = (g (head_kind ts) : P bool) (s, w))
    by (intros g; by step (curtok_ok _ _ _ s w _ Hy)).
  destruct n; cbn [parse_at_decl]; rewrite E;
    (destruct Ht as [(p & ts' & -> & Hp)|Ht];
     [destruct p as [x| |t]; [|done|simpl in Hp; by destruct Hp as [-> | [-> | ->]]];
        cbn [head_kind ptok_kind];
        by step (tdef_none s w sc _ Hy ltac:(by repeat constructor))
     |by destruct (head_kind ts)]).
Qed.

Lemma at_decl_yes (n : nat) (s : lexer) (w : world) (sc : scope) (b : bool) (t : token) (ts : list ptok) :
  yields s (PTok t :: ts) -> is_specifier t = true ->
  parse_at_decl keyword_mode junk f n sc b (s, w) = Ok ((s, w), true).
Proof.
  intros Hy Ht.
  assert (E : forall g, (t ← get_curtok; g t) (s, w) = (g t : P bool) (s, w))
    by (intros g; by step (curtok_ok _ _ _ s w _ Hy)).
  destruct n; cbn [parse_at_decl]; rewrite E; by destruct t.
Qed.

Lemma ptr_quals_reads (m : nat) (sc : scope) (w : world) (rest : list ptok) (at_ : list attribute) (qs : list token) :
  forall (n : nat) (q : Z) (s : lexer),
  forallb curtok_is_type_qual qs = true -> (length qs < n)%nat -> good s (map PTok qs ++ rest) ->
  head_kind rest <> token_attribute -> curtok_is_type_qual (head_kind rest) = false ->
  exists s', ptr_quals keyword_mode junk f m n at_ q sc (s, w) = Ok ((s', w), (at_, quals_from q qs)) /\ good s' rest.
Proof.
  induction qs as [|t qs IH]; intros n q s Hall Hn [Hu Hy] Ha Hq; (destruct n as [|n]; [simpl in Hn; lia|]);
    cbn [ptr_quals].
  - exists s. split; [|by split]. step (curtok_ok _ _ _ s w _ Hy). cbn [map app].
    rewrite bool_decide_eq_false_2 by done. by rewrite Hq.
  - simpl in Hall. apply andb_prop in Hall as [Ht Hall].
    destruct (EAT_good s w t _ Hy) as (s1 & He & Hg).
    destruct (IH n (Z.lor q (curtok_to_type_qualifier t)) s1 Hall ltac:(simpl in Hn; lia) Hg Ha Hq) as (s' & Hr & Hg').
    exists s'. split; [|done]. step (curtok_ok _ _ _ s w _ Hy). cbn [map app head_kind ptok_kind].
    rewrite bool_decide_eq_false_2 by (intros ->; done). rewrite Ht. by step He.
Qed.

(** *** Claims *)

Local Abbreviation D := (declarers_at keyword_mode junk f).
Local Abbreviation PS := (parsers_at keyword_mode junk f).
Local Abbreviation arg n := (parse_arg_decl keyword_mode junk f n (D n) (PS n)).
Local Abbreviation sfx n := (suffixes keyword_mode junk f n (PS n) (arg n)).

Definition dcl (n : nat) (md : Z) (dfor : bool) (sc : scope) : P (list parsed * option cstr) :=
  parsed_type_ptr keyword_mode junk f n (D n) (PS n) (arg n) md dfor [] sc.

Definition refs (ds : list decl) : list type := map (fun d => plain (ref_of d)) ds.

Definition reads_declarator (ts : list ptok) (T : type) (nm : option cstr) (T' : type) : Prop :=
  forall n md dfor sc s w rest,
    (length ts < n)%nat -> (nm = None -> has md DECL_SPEL_NEED = false) -> (nm <> None -> dfor = true) ->
    good s (ts ++ rest) -> ends_declarator (head_kind rest) = true ->
    exists s' w' ls, dcl n md dfor sc (s, w) = Ok ((s', w'), (ls, nm)) /\ good s' rest /\ wraps ls T T'.

(** The suffixes, read by the loop over both kinds or first by that of one. *)
Definition reads_suffixes (sufs : list ptok) (T U : type) : Prop :=
  forall n base sc s w rest,
    (length sufs < n)%nat -> yields s (sufs ++ rest) -> (sufs = [] -> curtok_save s = token_unknown) ->
    ends_declarator (head_kind rest) = true ->
    let gives (m : P (list parsed)) :=
      exists s' w' ls, m (s, w) = Ok ((s', w'), ls ++ base) /\ good s' rest /\ wraps ls T U in
    (forall k, (length sufs < k)%nat -> gives (sfx n k base sc))
    /\ (forall j k, (length sufs < j)%nat -> (length sufs < k)%nat ->
          gives (x ← parsed_type_func keyword_mode junk f n (arg n) j base sc; sfx n k x sc))
    /\ (forall j k, (length sufs < j)%nat -> (length sufs < k)%nat ->
          gives (x ← parsed_type_array keyword_mode junk f n (PS n) j base sc; sfx n k x sc)).

Definition reads_parameters (ps : list ptok) (void variadic : bool) (Ts : list type) : Prop :=
  forall n sc s w rest,
    (length ps < n)%nat -> good s (ps ++ PTok token_close_paren :: rest) ->
    exists s' w' fa, parse_func_arglist keyword_mode junk f n (arg n) sc (s, w) = Ok ((s', w'), fa)
      /\ good s' (PTok token_close_paren :: rest)
      /\ args_void fa = void /\ fa_variadic fa = variadic /\ refs (arglist fa) = Ts.

Definition specifier_first (ps : list ptok) : Prop := exists t ps', ps = PTok t :: ps' /\ is_specifier t = true.

Definition reads_list (ps : list ptok) (variadic : bool) (Ts : list type) : Prop :=
  specifier_first ps
  /\ forall n j sc s w acc rest,
    (length ps < n)%nat -> (length ps < j)%nat -> good s (ps ++ PTok token_close_paren :: rest) ->
    exists d s1 w1 s' w' ds,
      arg n sc (s, w) = Ok ((s1, w1), d) /\ void_arg d = false
      /\ arglist_loop keyword_mode junk f (arg n) j sc acc d (s1, w1) = Ok ((s', w'), (acc ++ ds, variadic))
      /\ good s' (PTok token_close_paren :: rest) /\ refs ds = Ts.

Definition reads_parameter (ps : list ptok) (T : type) : Prop :=
  specifier_first ps
  /\ forall n sc s w rest,
    (length ps < n)%nat -> good s (ps ++ rest) -> ends_declarator (head_kind rest) = true ->
    exists s' w' d, arg n sc (s, w) = Ok ((s', w'), d) /\ good s' rest
      /\ plain (ref_of d) = T /\ void_arg d = false /\ fine T.

(** *** Suffixes *)

Lemma bind_eq {A B} (m m' : P A) (k : A -> P B) st st' : m st = m' st' -> (m ≫= k) st = (m' ≫= k) st'.
Proof. intros E. unfold mbind, P_bind. by rewrite E. Qed.

Lemma func_stops (n j : nat) (base : list parsed) (sc : scope) (s : lexer) (w : world) (ts : list ptok) :
  yields s ts -> head_kind ts <> token_open_paren ->
  parsed_type_func keyword_mode junk f n (arg n) (S j) base sc (s, w) = Ok ((s, w), base).
Proof. intros Hy Ht. cbn [parsed_type_func]. by step (accept_no _ _ _ s w _ ts Hy Ht). Qed.

Lemma array_stops (n j : nat) (base : list parsed) (sc : scope) (s : lexer) (w : world) (ts : list ptok) :
  yields s ts -> head_kind ts <> token_open_square ->
  parsed_type_array keyword_mode junk f n (PS n) (S j) base sc (s, w) = Ok ((s, w), base).
Proof. intros Hy Ht. cbn [parsed_type_array]. by step (accept_no _ _ _ s w _ ts Hy Ht). Qed.

Lemma sfx_paren (n k : nat) (base : list parsed) (sc : scope) (s : lexer) (w : world) (ts : list ptok) :
  yields s ts -> head_kind ts = token_open_paren ->
  sfx n (S k) base sc (s, w)
  = (x ← parsed_type_func keyword_mode junk f n (arg n) n base sc; sfx n k x sc) (s, w).
Proof. intros Hy Ht. cbn [suffixes]. step (curtok_ok _ _ _ s w _ Hy). by rewrite Ht. Qed.

Lemma sfx_square (n k : nat) (base : list parsed) (sc : scope) (s : lexer) (w : world) (ts : list ptok) :
  yields s ts -> head_kind ts = token_open_square ->
  sfx n (S k) base sc (s, w)
  = (x ← parsed_type_array keyword_mode junk f n (PS n) n base sc; sfx n k x sc) (s, w).
Proof. intros Hy Ht. cbn [suffixes]. step (curtok_ok _ _ _ s w _ Hy). by rewrite Ht. Qed.

Lemma reads_suffixes_nil (T : type) : reads_suffixes [] T T.
Proof.
  intros n base sc s w rest Hn Hy Hu Hr gives. specialize (Hu eq_refl). cbn [app] in Hy.
  assert (HA : forall k, (0 < k)%nat -> sfx n k base sc (s, w) = Ok ((s, w), base)).
  { intros k Hk. destruct k; [lia|]. cbn [suffixes]. step (curtok_ok _ _ _ s w _ Hy). by destruct (head_kind rest). }
  assert (Hg : gives (fun st => Ok (st, base))).
  { exists s, w, []. split_and!; [done|by split|constructor]. }
  split_and!.
  - intros k Hk. unfold gives in *. by rewrite HA.
  - intros j k Hj Hk. destruct j as [|j]; [simpl in Hj; lia|]. unfold gives.
    step (func_stops n j base sc s w rest Hy ltac:(by destruct (head_kind rest))). by rewrite HA.
  - intros j k Hj Hk. destruct j as [|j]; [simpl in Hj; lia|]. unfold gives.
    step (array_stops n j base sc s w rest Hy ltac:(by destruct (head_kind rest))). by rewrite HA.
Qed.

(** A first suffix, given what its loop makes of it. *)
Lemma reads_suffixes_cons (t : token) (x sufs : list ptok) (T U V : type) :
  (t = token_open_paren \/ t = token_open_square) ->
  (forall n j base sc s w rest,
     (length x < n)%nat -> yields s (PTok t :: x ++ rest) ->
     exists s' w' l, good s' rest /\ layer_wraps l U V
       /\ (if bool_decide (t = token_open_paren)
           then parsed_type_func keyword_mode junk f n (arg n) (S j) base sc (s, w)
                = parsed_type_func keyword_mode junk f n (arg n) j (l :: base) sc (s', w')
           else parsed_type_array keyword_mode junk f n (PS n) (S j) base sc (s, w)
                = parsed_type_array keyword_mode junk f n (PS n) j (l :: base) sc (s', w'))) ->
  reads_suffixes sufs T U -> reads_suffixes (PTok t :: x ++ sufs) T V.
Proof.
  intros Ht Hx IH n base sc s w rest Hn Hy _ Hr gives.
  cbn [length] in *. rewrite length_app in *. rewrite <- app_comm_cons, <- app_assoc in Hy.
  (* the loop of this suffix's kind *)
  assert (Hown : forall j k, (S (length x + length sufs) < j)%nat -> (length x + length sufs < k)%nat ->
            gives (if bool_decide (t = token_open_paren)
                   then x ← parsed_type_func keyword_mode junk f n (arg n) j base sc; sfx n k x sc
                   else x ← parsed_type_array keyword_mode junk f n (PS n) j base sc; sfx n k x sc)).
  { intros j k Hj Hk. destruct j as [|j]; [lia|].
    destruct (Hx n j base sc s w (sufs ++ rest) ltac:(lia) Hy) as (s1 & w1 & l & [Hu1 Hy1] & Hl & E).
    destruct (IH n (l :: base) sc s1 w1 rest ltac:(lia) Hy1 (fun _ => Hu1) Hr) as (_ & HB & HC).
    assert (Hend : forall ls, wraps ls T U -> ls ++ l :: base = (ls ++ [l]) ++ base /\ wraps (ls ++ [l]) T V).
    { intros ls Hw. rewrite <- app_assoc. split; [done|]. eapply wraps_app; [exact Hw|]. econstructor; [exact Hl|constructor]. }
    unfold gives. destruct (bool_decide (t = token_open_paren)); rewrite (bind_eq _ _ _ _ _ E);
      [destruct (HB j k ltac:(lia) ltac:(lia)) as (s' & w' & ls & -> & Hg & Hw)
      |destruct (HC j k ltac:(lia) ltac:(lia)) as (s' & w' & ls & -> & Hg & Hw)];
      destruct (Hend ls Hw) as [-> Hw']; eauto 6. }
  assert (HA : forall k, (S (length x + length sufs) < k)%nat -> gives (sfx n k base sc)).
  { intros k Hk. destruct k as [|k]; [lia|]. pose proof (Hown n k ltac:(lia) ltac:(lia)) as Hg.
    unfold gives in *. destruct Ht as [-> | ->];
      [rewrite (sfx_paren _ _ _ _ _ _ _ Hy eq_refl)|rewrite (sfx_square _ _ _ _ _ _ _ Hy eq_refl)]; exact Hg. }
  split_and!; [exact HA| |].
  - intros j k Hj Hk. destruct Ht as [-> | ->]; [exact (Hown j k Hj ltac:(lia))|]. destruct j as [|j]; [lia|].
    unfold gives. step (func_stops n j base sc s w _ Hy ltac:(done)). by apply HA.
  - intros j k Hj Hk. destruct Ht as [-> | ->]; [|exact (Hown j k Hj ltac:(lia))]. destruct j as [|j]; [lia|].
    unfold gives. step (array_stops n j base sc s w _ Hy ltac:(done)). by apply HA.
Qed.

Lemma array_quals_none (n : nat) (s : lexer) (w : world) (ts : list ptok) :
  yields s ts -> curtok_is_type_qual (head_kind ts) = false -> head_kind ts <> token_static ->
  array_quals keyword_mode junk f (S n) qual_none 0 (s, w) = Ok ((s, w), (qual_none, 0%nat)).
Proof.
  intros Hy Hq Hs. cbn [array_quals]. step (curtok_ok _ _ _ s w _ Hy). rewrite Hq.
  by rewrite bool_decide_eq_false_2.
Qed.

(** An array's suffix, given how its size is read. *)
Lemma array_suffix (x : list ptok) (size : array_size) (U : type) :
  (forall rest, curtok_is_type_qual (head_kind (x ++ rest)) = false /\ head_kind (x ++ rest) <> token_static) ->
  (forall n sc s w rest, (length x < n)%nat -> good s (x ++ rest) ->
     exists s' w', parsed_array_size keyword_mode junk f (PS n) sc (s, w) = Ok ((s', w'), (size, VLA_NO)) /\ good s' rest) ->
  forall n j base sc s w rest,
    (length x < n)%nat -> yields s (PTok token_open_square :: x ++ rest) ->
    exists s' w' l, good s' rest /\ layer_wraps l U (type_array U size false VLA_NO)
      /\ parsed_type_array keyword_mode junk f n (PS n) (S j) base sc (s, w)
         = parsed_type_array keyword_mode junk f n (PS n) j (l :: base) sc (s', w').
Proof.
  intros Hhead Hsize n j base sc s w rest Hn Hy. destruct (Hhead rest) as [Hq Hst].
  destruct (accept_good s w _ _ Hy) as (s1 & Ha & Hg1).
  destruct (Hsize n sc s1 w rest Hn Hg1) as (s2 & w2 & Hsz & Hg2).
  exists s2, w2, (mk_parsed (PARSED_ARRAY size qual_none VLA_NO false) []). split_and!; [done|apply wraps_array|].
  cbn [parsed_type_array]. step Ha. destruct n as [|n]; [lia|].
  step (array_quals_none n s1 w _ (proj2 Hg1) Hq Hst). by step Hsz.
Qed.

Lemma reads_unsized (sufs : list ptok) (T U : type) :
  reads_suffixes sufs T U ->
  reads_suffixes (PTok token_open_square :: PTok token_close_square :: sufs) T (type_array U size_none false VLA_NO).
Proof.
  intros IH. apply (reads_suffixes_cons token_open_square [PTok token_close_square] sufs T U); [by right| |done].
  intros n j base sc s w rest. cbn [bool_decide].
  apply (array_suffix [PTok token_close_square] size_none U); [done|].
  intros n' sc' s' w' rest' _ [_ Hy']. destruct (accept_good s' w' _ _ Hy') as (s2 & Ha & Hg2).
  exists s2, w'. split; [|done]. unfold parsed_array_size. by step Ha.
Qed.

Lemma array_size_constant (e : expr) (n : Z) (s : lexer) (w : world) :
  constant_size folded e n -> array_size_of (folded e) (s, w) = Ok ((s, w), (size_const n, VLA_NO)).
Proof. intros (Hi & Hns & suffix & Hk & Hsuf). unfold array_size_of. rewrite Hi, Hk, Hns, Hsuf. done. Qed.

Lemma reads_array (ts : list ptok) (e : expr) (n0 : Z) (sufs : list ptok) (T U : type) :
  derives builtin_name 1 ts e -> constant_size folded e n0 -> head_kind ts <> token_multiply ->
  reads_suffixes sufs T U ->
  reads_suffixes (PTok token_open_square :: ts ++ PTok token_close_square :: sufs) T
    (type_array U (size_const n0) false VLA_NO).
Proof using Quiet no_types no_builtins.
  intros Hd Hc Hmul IH.
  replace (ts ++ PTok token_close_square :: sufs) with ((ts ++ [PTok token_close_square]) ++ sufs)
    by (by rewrite <- app_assoc).
  destruct (derives_starts _ _ _ _ Hd) as (p & ts' & Ets & Hp & _).
  assert (Hhead : forall rest, head_kind ((ts ++ [PTok token_close_square]) ++ rest) = ptok_kind p) by (by rewrite Ets).
  apply (reads_suffixes_cons token_open_square _ sufs T U); [by right| |done].
  intros n j base sc s w rest. cbn [bool_decide]. apply array_suffix.
  - intros rest'. rewrite Hhead. split; [|by apply (starts_not _ _ Hp)].
    destruct (curtok_is_type_qual (ptok_kind p)) eqn:E; [|done]. exfalso.
    destruct (ptok_kind p) eqn:Ek; try discriminate E; apply (bool_decide_eq_true_2 _) in Hp; discriminate Hp.
  - intros n' sc' s' w' rest' Hn' [Hu' Hy']. rewrite length_app in Hn'. simpl in Hn'.
    pose proof (Hhead rest') as Hh. rewrite <- app_assoc in Hy', Hh. cbn [app] in Hy', Hh.
    destruct (field_done keyword_mode junk f 1 ts e n' sc' false s' w' (PTok token_close_square :: rest'))
      as (s1 & Hu1 & Hy1 & He1); [lia|by eapply derives_reads|lia|done|apply stops_head; by right|].
    destruct (EAT_good s1 w' _ _ Hy1) as (s2 & He2 & Hg2).
    destruct (calm_expr e sc' s2 w') as [w2 Hf].
    exists s2, w2. split; [|done]. unfold parsed_array_size.
    step (accept_no _ _ _ s' w' token_close_square _ Hy' ltac:(rewrite Hh; by apply (starts_not _ _ Hp))).
    step (accept_no _ _ _ s' w' token_multiply _ Hy' ltac:(rewrite Hh; rewrite Ets in Hmul; exact Hmul)).
    assert (Hno : (mret false : P bool) (s', w') = Ok ((s', w'), false)) by done.
    step Hno. cbn [field] in He1. step He1. step He2. step Hf. by apply array_size_constant.
Qed.

Lemma reads_func (ps : list ptok) (void variadic : bool) (Ts : list type) (sufs : list ptok) (T U : type) :
  reads_parameters ps void variadic Ts -> reads_suffixes sufs T U -> type_qual U = 0 ->
  reads_suffixes (PTok token_open_paren :: ps ++ PTok token_close_paren :: sufs) T (type_func U 0 void variadic Ts).
Proof using Quiet.
  intros Hps IH Hq.
  replace (ps ++ PTok token_close_paren :: sufs) with ((ps ++ [PTok token_close_paren]) ++ sufs)
    by (by rewrite <- app_assoc).
  apply (reads_suffixes_cons token_open_paren _ sufs T U); [by left| |done].
  intros n j base sc s w rest Hn Hy. cbn [bool_decide]. rewrite <- app_assoc in Hy. cbn [app] in Hy.
  rewrite length_app in Hn. simpl in Hn.
  destruct (accept_good s w _ _ Hy) as (s1 & Ha & Hg1).
  destruct (calm_symtab sc true s1 w) as (w1 & sc1 & Hsc).
  destruct (Hps n sc1 s1 w1 rest ltac:(lia) Hg1) as (s2 & w2 & fa & Hfa & [_ Hy2] & Hv & Hvar & Hargs).
  destruct (EAT_good s2 w2 _ _ Hy2) as (s3 & He & Hg3).
  exists s3, w2, (mk_parsed (PARSED_FUNC fa sc1) []). split_and!; [done| |].
  - rewrite <- Hv, <- Hvar, <- Hargs. by apply wraps_func.
  - cbn [parsed_type_func]. step Ha. step Hsc. step Hfa. by step He.
Qed.

(** *** Declarators *)

Local Abbreviation nest n := (parsed_type_nest keyword_mode junk f n (D n)).

Lemma ident_good (s : lexer) (w : world) (x : cstr) (ts : list ptok) :
  yields s (PWord x :: ts) ->
  exists s', identifier keyword_mode junk f (s, w) = Ok ((s', w), Some (Some x)) /\ good s' ts.
Proof.
  intros (Hc & s' & ((_ & Hsp & Hs & Hn) & _) & Hs' & Hy). exists s'. split; [|done].
  unfold identifier, on_lexer, token_accept_identifier. cbn [fst snd].
  rewrite Hc, bool_decide_eq_true_2 by done. cbn [negb ptok_kind]. rewrite Hn. cbn. by rewrite Hsp.
Qed.

Lemma ident_none (s : lexer) (w : world) (ts : list ptok) :
  yields s ts -> head_kind ts <> token_identifier -> identifier keyword_mode junk f (s, w) = Ok ((s, w), None).
Proof.
  intros Hy Ht. unfold identifier, on_lexer, token_accept_identifier. cbn [fst snd].
  by rewrite (yields_curtok _ _ _ _ _ Hy), bool_decide_eq_false_2.
Qed.

(** Without a star: what is nested, and the suffixes. *)
Lemma dcl_nest (n : nat) (md : Z) (dfor : bool) (sc : scope) (s s1 : lexer) (w w1 : world) (ts sufs rest : list ptok)
    (ls : list parsed) (nm : option cstr) (T U T' : type) :
  yields s ts -> head_kind ts <> token_multiply -> head_kind ts <> token_xor ->
  nest n md dfor [] sc (s, w) = Ok ((s1, w1), (ls, nm)) -> wraps ls U T' ->
  yields s1 (sufs ++ rest) -> (sufs = [] -> curtok_save s1 = token_unknown) ->
  reads_suffixes sufs T U -> (length sufs < n)%nat -> ends_declarator (head_kind rest) = true ->
  exists s' w' ls', dcl n md dfor sc (s, w) = Ok ((s', w'), (ls', nm)) /\ good s' rest /\ wraps ls' T T'.
Proof.
  intros Hy Hm Hx Hnest Hw Hy1 Hu1 Hs Hn Hr.
  destruct (Hs n ls sc s1 w1 rest Hn Hy1 Hu1 Hr) as (HA & _).
  destruct (HA n Hn) as (s2 & w2 & ls2 & E & Hg & Hw2).
  exists s2, w2, (ls2 ++ ls). split_and!; [|done|by eapply wraps_app].
  unfold dcl, parsed_type_ptr. step (accept_no _ _ _ s w token_multiply _ Hy Hm).
  step (accept_no _ _ _ s w token_xor _ Hy Hx). cbn [orb].
  unfold parsed_type_func_or_array. step Hnest. cbn [fst snd]. by step E.
Qed.

Lemma reads_ptr (qs : list token) (ts : list ptok) (T : type) (nm : option cstr) (T' : type) :
  forallb curtok_is_type_qual qs = true ->
  declares ts (qualified (quals_of qs) (type_ptr_to T)) nm T' ->
  reads_declarator ts (qualified (quals_of qs) (type_ptr_to T)) nm T' ->
  reads_declarator (PTok token_multiply :: map PTok qs ++ ts) T nm T'.
Proof.
  intros Hqs Hd IH n md dfor sc s w rest Hn Hneed Hdfor [_ Hy] Hr.
  rewrite <- app_comm_cons, <- app_assoc in Hy. simpl in Hn. rewrite length_app, length_map in Hn.
  destruct n as [|m]; [lia|].
  destruct (accept_good s w _ _ Hy) as (s1 & Ha & Hg1).
  destruct (declarator_next _ _ _ _ rest Hd Hr) as (_ & _ & Hnq & Hna & _).
  destruct (ptr_quals_reads (S m) sc w (ts ++ rest) [] qs (S m) qual_none s1 Hqs ltac:(lia) Hg1 Hna Hnq) as (s2 & Hq & Hg2).
  destruct (IH m md dfor sc s2 w rest ltac:(lia) Hneed Hdfor Hg2 Hr) as (s3 & w3 & ls & E & Hg3 & Hw).
  exists s3, w3, (mk_parsed (PARSED_PTR type_ptr_to_ [] (quals_of qs)) [] :: ls). split_and!; [|done|].
  - unfold dcl, parsed_type_ptr. step Ha.
    assert (Hc : (mret false : P bool) (s1, w) = Ok ((s1, w), false)) by done.
    step Hc. cbn [orb]. step Hq. unfold dcl in E. cbn [declarers_at declarator_]. step E.
    by rewrite app_nil_r.
  - econstructor; [apply wraps_ptr|exact Hw].
Qed.

Lemma reads_name (x : cstr) (sufs : list ptok) (T T' : type) :
  reads_suffixes sufs T T' -> reads_declarator (PWord x :: sufs) T (Some x) T'.
Proof.
  intros Hs n md dfor sc s w rest Hn _ Hdfor [_ Hy] Hr. rewrite <- app_comm_cons in Hy. simpl in Hn.
  destruct (ident_good s w x _ Hy) as (s1 & Hid & Hu1 & Hy1).
  eapply (dcl_nest n md dfor sc s s1 w w _ sufs rest [] (Some x) T T' T' Hy);
    [done|done| |constructor|exact Hy1|done|exact Hs|lia|done].
  unfold parsed_type_nest. step (accept_no _ _ _ s w token_open_paren _ Hy ltac:(done)). step Hid.
  by rewrite (Hdfor ltac:(done)).
Qed.

Lemma reads_grouped (ts sufs : list ptok) (T U : type) (nm : option cstr) (T' : type) :
  ts <> [] -> declares ts U nm T' -> reads_suffixes sufs T U -> reads_declarator ts U nm T' ->
  reads_declarator (PTok token_open_paren :: ts ++ PTok token_close_paren :: sufs) T nm T'.
Proof using Quiet.
  intros Hne Hd Hs IH n md dfor sc s w rest Hn Hneed Hdfor [_ Hy] Hr.
  rewrite <- app_comm_cons, <- app_assoc in Hy. cbn [app] in Hy. simpl in Hn. rewrite length_app in Hn. simpl in Hn.
  destruct n as [|[|m]]; [lia|lia|].
  destruct (accept_good s w _ _ Hy) as (s1 & Ha & Hg1).
  destruct (declares_head _ _ _ _ Hd) as [->|(p & ts' & -> & Hp)]; [done|].
  destruct (IH (S m) md dfor sc s1 w (PTok token_close_paren :: sufs ++ rest) ltac:(simpl in *; lia) Hneed Hdfor Hg1 eq_refl)
    as (s2 & w2 & ls & E & [_ Hy2] & Hw).
  destruct (EAT_good s2 w2 _ _ Hy2) as (s3 & He & Hu3 & Hy3).
  eapply (dcl_nest (S (S m)) md dfor sc s s3 w w2 _ sufs rest ls nm T U T' Hy);
    [done|done| |exact Hw|exact Hy3|done|exact Hs|lia|done].
  unfold parsed_type_nest. step Ha.
  step (at_decl_no (S (S m)) s1 w sc (negb dfor) _ (proj2 Hg1) ltac:(left; by eexists _, _)).
  step (curtok_ok _ _ _ s1 w _ (proj2 Hg1)). cbn [app head_kind].
  assert (Hpk : ptok_kind p <> token_close_paren /\ ptok_kind p <> token_attribute).
  { destruct p as [|?|t]; [by split|done|]. simpl in Hp. by destruct Hp as [-> | [-> | ->]]. }
  rewrite bool_decide_eq_false_2 by apply Hpk. cbn [orb].
  step (no_attrs keyword_mode junk f (S m) sc s1 w _ (proj2 Hg1) ltac:(apply Hpk)).
  cbn [declarers_at declarator_]. unfold dcl in E. step E. by step He.
Qed.

Lemma parameters_head (ps : list ptok) (void variadic : bool) (Ts : list type) :
  parameters ps void variadic Ts -> ps = [] \/ specifier_first ps.
Proof.
  intros [Hc2|  |ps' v Ts' Hlist]; [by left|right; by eexists _, _|].
  assert (Hp : forall qs T, parameter qs T -> specifier_first qs).
  { intros qs T [specs p ts nm T0 (Hall & l & Hl & Hin)].
    destruct specs as [|t specs]; [|simpl in Hall; apply andb_prop in Hall as [Ht _]; by eexists _, _].
    exfalso. cbn in Hl. apply Permutation_nil_l in Hl. subst l.
    revert Hin. clear. unfold c_specifiers. rewrite !elem_of_cons, elem_of_nil. intros Hin.
    by repeat destruct Hin as [? | Hin]. }
  right. destruct Hlist as [qs T Hq|qs T Hq|qs rs v' T Ts' Hq]; apply Hp in Hq as (t & qs' & -> & Ht); by eexists _, _.
Qed.

Lemma reads_nothing (sufs : list ptok) (T T' : type) :
  suffixed sufs T T' -> reads_suffixes sufs T T' -> reads_declarator sufs T None T'.
Proof using Quiet.
  intros Hsuf Hs n md dfor sc s w rest Hn Hneed _ [Hu Hy] Hr.
  assert (Hplain : head_kind (sufs ++ rest) <> token_open_paren -> head_kind (sufs ++ rest) <> token_identifier ->
            nest n md dfor [] sc (s, w) = Ok ((s, w), ([], None))).
  { intros Hp Hi. unfold parsed_type_nest. step (accept_no _ _ _ s w token_open_paren _ Hy Hp).
    step (ident_none s w _ Hy Hi). by rewrite Hneed. }
  assert (Hend : forall s1, nest n md dfor [] sc (s, w) = Ok ((s1, w), ([], None)) ->
            yields s1 (sufs ++ rest) -> (sufs = [] -> curtok_save s1 = token_unknown) ->
            head_kind (sufs ++ rest) <> token_multiply -> head_kind (sufs ++ rest) <> token_xor ->
            exists s' w' ls, dcl n md dfor sc (s, w) = Ok ((s', w'), (ls, None)) /\ good s' rest /\ wraps ls T T').
  { intros s1 E Hy1 Hu1 Hm Hx. by eapply (dcl_nest n md dfor sc s s1 w w _ sufs rest [] None T T' T' Hy); [..|constructor| | | | |]. }
  destruct Hsuf as [T|sufs T U|ts e n0 sufs T U|ps void variadic Ts sufs T U Hps].
  - cbn [app] in *. apply (Hend s); [|done|done| |]; try apply Hplain; by destruct (head_kind rest).
  - by apply (Hend s); [apply Hplain|..].
  - by apply (Hend s); [apply Hplain|..].
  - clear Hplain. rewrite <- app_comm_cons, <- app_assoc in Hy, Hend. cbn [app] in Hy, Hend.
    destruct (accept_good s w _ _ Hy) as (s1 & Ha & Hu1 & Hy1).
    assert (Hat : exists b, parse_at_decl keyword_mode junk f n sc (negb dfor) (s1, w) = Ok ((s1, w), b)
                            /\ b || bool_decide (head_kind (ps ++ PTok token_close_paren :: sufs ++ rest) = token_close_paren) = true
                            /\ head_kind (ps ++ PTok token_close_paren :: sufs ++ rest) <> token_unknown).
    { destruct (parameters_head _ _ _ _ Hps) as [->|(t & ps' & -> & Ht)].
      - exists false. split; [|by split]. apply (at_decl_no n s1 w sc _ _ Hy1). by right.
      - exists true. split; [by apply (at_decl_yes n s1 w sc _ t _ Hy1)|]. split; [done|]. by destruct t. }
    destruct Hat as (b & Hat & Hb & Hunk).
    destruct (uneat_yields keyword_mode junk f s1 _ Hy1 Hu1 ltac:(by rewrite (yields_curtok _ _ _ _ _ Hy1)))
      as (s2 & Hun & Hy2).
    apply (Hend s2); [|done|done|done|done].
    unfold parsed_type_nest. step Ha. step Hat. step (curtok_ok _ _ _ s1 w _ Hy1). rewrite Hb.
    assert (Hune : uneat_ token_open_paren (s1, w) = Ok ((s2, w), tt))
      by (unfold uneat_, on_lexer; cbn [fst]; by rewrite Hun).
    by step Hune.
Qed.

(** *** Declarations *)

Lemma declarator_to_type (n : nat) (md : Z) (bt : type) (sc : scope) (ts : list ptok) (nm : option cstr)
    (T' : type) (s : lexer) (w : world) (rest : list ptok) (dfor : bool) :
  reads_declarator ts (plain bt) nm T' -> (S (length ts) < n)%nat -> (nm = None -> has md DECL_SPEL_NEED = false) ->
  (nm <> None -> dfor = true) -> good s (ts ++ rest) -> ends_declarator (head_kind rest) = true ->
  exists s' w' t, parse_type_declarator keyword_mode junk f (D n) md dfor bt sc false (s, w)
                  = Ok ((s', w'), (t, nm, false))
                  /\ good s' rest /\ plain t = T'.
Proof.
  intros Hd Hn Hneed Hdfor Hg Hr. destruct n as [|m]; [lia|].
  destruct (Hd m md dfor sc s w rest ltac:(lia) Hneed Hdfor Hg Hr) as (s1 & w1 & ls & E & Hg1 & Hw).
  destruct (wraps_ok ls _ _ Hw bt s1 w1 eq_refl) as (w2 & t & Ew & Ht).
  exists s1, w2, (if dfor then type_at_where t else t). split_and!; [|done|by destruct dfor; rewrite ?plain_at_where].
  unfold parse_type_declarator.
  assert (Et : parse_type_declarator_to_type (D (S m)) md dfor bt sc (s, w)
               = Ok ((s1, w2), (if dfor then type_at_where t else t, nm))).
  { unfold parse_type_declarator_to_type. unfold dcl in E. cbn [declarers_at declarator_]. step E.
    cbn [fst snd]. by step Ew. }
  step Et. assert (Ea : (mret false : P bool) (s1, w2) = Ok ((s1, w2), false)) by done. by step Ea.
Qed.

Lemma stored_reads (n : nat) (bt : type) (md st : Z) (sc : scope) (asc : option scope) (is_arg : bool)
    (ts : list ptok) (nm : option cstr) (T' : type) (s : lexer) (w : world) (rest : list ptok) :
  type_skip_all bt <> type_auto -> Z.land st STORE_MASK_STORE <> store_val store_auto ->
  declares ts (plain bt) nm T' -> reads_declarator ts (plain bt) nm T' -> fine T' ->
  (S (length ts) < n)%nat -> (nm = None -> has md DECL_SPEL_NEED = false) ->
  good s (ts ++ rest) -> ends_declarator (head_kind rest) = true ->
  exists s' w' d,
    parse_decl_stored_aligned keyword_mode junk f n (D n) bt md st [] [] sc asc is_arg (s, w) = Ok ((s', w'), d)
    /\ good s' rest /\ d_spel d = nm /\ store d = st /\ plain (ref_of d) = T'
    /\ d_attr d = [] /\ dinit d = None.
Proof.
  intros Hauto Hst Hdecl Hd Hfine Hn Hneed Hg Hr. destruct n as [|m]; [lia|].
  destruct (calm_decl s w) as (w1 & i & Ei).
  destruct (declarator_next _ _ _ _ rest Hdecl Hr) as (_ & _ & _ & Hna & _).
  destruct (declarator_to_type (S m) md bt sc ts nm T' s w1 rest true Hd Hn Hneed (fun _ => eq_refl) Hg Hr)
    as (s2 & w2 & t & Et & Hg2 & Ht).
  set (d0 := mk_decl i st (Some t) [] nm None [] None).
  assert (Hadd : exists w3, (match asc with Some asc => symtab_add_to_scope asc d0 | None => mret tt end : P unit) (s2, w2)
                            = Ok ((s2, w3), tt)) by (destruct asc; [apply calm_scope|by eexists]).
  destruct Hadd as [w3 Hadd].
  assert (Hne : head_kind rest <> token_asm /\ head_kind rest <> token_attribute /\ head_kind rest <> token_assign)
    by (by destruct (head_kind rest)).
  destruct Hne as (Hasm & Hattr & Hasgn).
  destruct (calm_ondecl d0 sc is_arg s2 w3 ltac:(by rewrite <- Ht in Hfine)) as [w4 Hon].
  (* what follows the declarator of an object: nothing *)
  assert (Hobj : exists w5, (if negb (is_func_decl d0) then
         d ← parse_add_asm keyword_mode junk f d0;
         a ← parse_add_attr keyword_mode junk f (S m) sc;
         d ← fold_type_ondecl_w (set_attr d (d_attr d ++ a)) sc is_arg;
         d ← decl_initialiser keyword_mode junk f d bt st sc asc is_arg false;
         match d_ref d with
         | Some _ => mret d
         | None => _ ← parse_error; mret (set_ref d (Some default_type))
         end
       else mret d0) (s2, w3) = Ok ((s2, w5), d0)).
  { destruct (is_func_decl d0); [by exists w3|]. exists w4. cbn [negb].
    assert (Ea : parse_add_asm keyword_mode junk f d0 (s2, w3) = Ok ((s2, w3), d0))
      by (unfold parse_add_asm; by step (accept_no _ _ _ s2 w3 token_asm _ (proj2 Hg2) Hasm)).
    step Ea. step (no_attrs keyword_mode junk f m sc s2 w3 rest (proj2 Hg2) Hattr).
    change (set_attr d0 (d_attr d0 ++ [])) with d0. step Hon.
    assert (Eini : decl_initialiser keyword_mode junk f d0 bt st sc asc is_arg false (s2, w4) = Ok ((s2, w4), d0)).
    { unfold decl_initialiser.
      assert (Eg : (if is_some (d_spel d0) then accept keyword_mode junk f token_assign else mret false) (s2, w4)
                   = Ok ((s2, w4), false))
        by (destruct (is_some _); [by apply (accept_no _ _ _ s2 w4 token_assign _ (proj2 Hg2) Hasgn)|done]).
      by step Eg. }
    by step Eini. }
  destruct Hobj as [w5 Hobj].
  destruct (calm_changed d0 s2 w5) as [w6 Hch].
  exists s2, w6, d0. split_and!; try done. 
  unfold parse_decl_stored_aligned. step Ei. step (no_attrs keyword_mode junk f m sc s w1 _ (proj2 Hg) Hna).
  replace (match type_skip_all bt with type_auto => true | _ => false end) with false by (by destruct (type_skip_all bt)).
  cbn [app].
  assert (Eb : ((Z.land st STORE_MASK_STORE =? store_val store_auto) = false)) by (by apply Z.eqb_neq).
  rewrite Eb. cbn [andb].
  assert (Edcl : (at_decl ← (if false then parse_at_decl keyword_mode junk f (S m) sc true else mret true);
         r ← parse_type_declarator keyword_mode junk f (D (S m)) md true bt sc (negb at_decl);
         let '(t, sp, trail) := r in
         let d := set_spel (set_ref (mk_decl i st None [] None None [] None) (Some t)) sp in
         let d := if trail : bool then set_store d (Z.lor (store_val store_default) (Z.land st STORE_MASK_EXTRA)) else d in
         _ ← (match asc with Some asc => symtab_add_to_scope asc d | None => mret tt end);
         mret d) (s, w1) = Ok ((s2, w3), d0)).
  { assert (Et1 : (mret true : P bool) (s, w1) = Ok ((s, w1), true)) by done. step Et1. cbn [negb]. step Et.
    cbn. by step Hadd. }
  step Edcl. cbn [orb]. step Hobj.
  assert (Eal : (if is_func_decl d0 then _ ← (mret tt : P unit); mret d0 else mret (set_align d0 [])) (s2, w5) = Ok ((s2, w5), d0))
    by (by destruct (is_func_decl d0)).
  step Eal.
  assert (Ev : workaround_valist_typedef d0 sc (s2, w5) = Ok ((s2, w5), d0)).
  { unfold workaround_valist_typedef, get_world, mbind, P_bind. cbn [res_bind mbind snd fst].
    by rewrite no_valist, orb_true_r. }
  step Ev. change (set_ref d0 (Some (type_attributed (ref_of d0) (d_attr d0)))) with d0. by step Hch.
Qed.

(** *** Parameters *)

Lemma basic_not_auto (p : type_primitive) (q : Z) : type_skip_all (basic p q) <> type_auto.
Proof. unfold basic, type_qualify, type_qualify3, new_quals. cbn. by destruct (q =? 0). Qed.

Lemma specifies_first (ts : list token) (p : type_primitive) :
  specifies ts p -> exists t ts', ts = t :: ts' /\ is_specifier t = true.
Proof.
  intros (Hall & l & Hl & Hin). destruct ts as [|t ts]; [|simpl in Hall; apply andb_prop in Hall as [Ht _]; eauto].
  exfalso. cbn in Hl. apply Permutation_nil_l in Hl. subst l. unfold c_specifiers in Hin.
  rewrite !elem_of_cons, elem_of_nil in Hin. by repeat destruct Hin as [? | Hin].
Qed.

Lemma arg_reads (n : nat) (sc : scope) (specs : list token) (p : type_primitive) (ts : list ptok) (nm : option cstr)
    (T' : type) (s : lexer) (w : world) (rest : list ptok) :
  specifies specs p -> store_toks specs = [] ->
  declares ts (plain (basic p (quals_of specs))) nm T' ->
  reads_declarator ts (plain (basic p (quals_of specs))) nm T' -> fine T' ->
  (length (map PTok specs ++ ts) < n)%nat -> good s ((map PTok specs ++ ts) ++ rest) ->
  ends_declarator (head_kind rest) = true ->
  exists s' w' d, arg n sc (s, w) = Ok ((s', w'), d) /\ good s' rest /\ plain (ref_of d) = T' /\ d_spel d = nm.
Proof.
  intros Hsp Hst Hdecl Hd Hfine Hn [Hu Hy] Hr. rewrite <- app_assoc in Hy.
  rewrite length_app, length_map in Hn.
  destruct (specifies_first _ _ Hsp) as (t0 & specs' & Es & _).
  destruct (declarator_next _ _ _ _ rest Hdecl Hr) as (Hends & Hspell & _).
  destruct (btype_reads keyword_mode junk f n (D n) (PS n) (Some 0) None false sc PARSE_BTYPE_DEFAULT_INT specs p
              (ts ++ rest) s w Hsp) as (s1 & Eb & Hu1 & Hy1);
    [right; split; [done|by rewrite Hst; simpl; lia]|by left|lia|done..|].
  destruct (stored_reads n (basic p (quals_of specs)) (Z.lor DECL_CAN_DEFAULT DECL_ALLOW_STORE) 0 sc None true ts nm T'
              s1 w rest (basic_not_auto _ _)) as (s2 & w2 & d & Ed & Hg2 & Hnm & _ & Href & _);
    [done|done|done|done|rewrite Es in Hn; simpl in Hn; lia|done|by split|done|].
  exists s2, w2, d. split_and!; [|done..]. unfold parse_arg_decl.
  change (store_val store_default) with 0. step Eb. unfold stored. rewrite Hst. exact Ed.
Qed.

Lemma void_arg_plain (d : decl) : void_arg d = is_void_type (plain (ref_of d)) && negb (is_some (d_spel d)).
Proof.
  rewrite is_void_plain. unfold void_arg, is_void_type. destruct (type_is _ _) as [[]|]; try done.
Qed.

Lemma reads_parameter_intro (specs : list token) (p : type_primitive) (ts : list ptok) (nm : option cstr) (T : type) :
  specifies specs p -> store_toks specs = [] ->
  declares ts (plain (basic p (quals_of specs))) nm T ->
  reads_declarator ts (plain (basic p (quals_of specs))) nm T ->
  (nm = None -> is_void_type T = false) -> fine T ->
  reads_parameter (map PTok specs ++ ts) T.
Proof.
  intros Hsp Hst Hdecl Hd Hvoid Hfine. split.
  { destruct (specifies_first _ _ Hsp) as (t & specs' & -> & Ht). by eexists _, _. }
  intros n sc s w rest Hn Hg Hr.
  destruct (arg_reads n sc specs p ts nm T s w rest Hsp Hst Hdecl Hd Hfine Hn Hg Hr) as (s' & w' & d & E & Hg' & HT & Hnm).
  exists s', w', d. split_and!; [done..| |done]. rewrite void_arg_plain, HT, Hnm.
  destruct nm; [apply andb_false_r|]. by rewrite Hvoid.
Qed.

Lemma refs_app (a b : list decl) : refs (a ++ b) = refs a ++ refs b.
Proof. apply map_app. Qed.

(** The end of the list, after its last parameter. *)
Lemma reads_list_one (ps : list ptok) (T : type) : reads_parameter ps T -> reads_list ps false [T].
Proof.
  intros [Hh Hp]. split; [done|]. intros n j sc s w acc rest Hn Hj Hg.
  destruct (Hp n sc s w _ Hn Hg eq_refl) as (s1 & w1 & d & E & [Hu1 Hy1] & HT & Hv & Hfine).
  destruct (calm_scope sc d s1 w1) as [w2 Hsc].
  destruct (calm_fold d sc s1 w2 ltac:(by rewrite HT)) as [w3 Hf].
  exists d, s1, w1, s1, w3, [d]. split_and!; [done..| |by split|by rewrite <- HT].
  destruct j as [|j]; [lia|]. cbn [arglist_loop]. step Hsc. step Hf. step (curtok_ok _ _ _ s1 w3 _ Hy1).
  cbn [head_kind ptok_kind]. by rewrite bool_decide_eq_true_2.
Qed.

Lemma reads_list_dots (ps : list ptok) (T : type) :
  reads_parameter ps T -> reads_list (ps ++ [PTok token_comma; PTok token_elipsis]) true [T].
Proof.
  intros [(t & ps' & -> & Ht) Hp]. split; [by eexists _, _|]. intros n j sc s w acc rest Hn Hj Hg.
  rewrite length_app in Hn, Hj. rewrite <- app_assoc in Hg. cbn [app] in Hg.
  destruct (Hp n sc s w (PTok token_comma :: PTok token_elipsis :: PTok token_close_paren :: rest) ltac:(lia) Hg eq_refl)
    as (s1 & w1 & d & E & [Hu1 Hy1] & HT & Hv & Hfine).
  destruct (calm_scope sc d s1 w1) as [w2 Hsc].
  destruct (calm_fold d sc s1 w2 ltac:(by rewrite HT)) as [w3 Hf].
  destruct (EAT_good s1 w3 _ _ Hy1) as (s2 & He & [_ Hy2]).
  destruct (accept_good s2 w3 _ _ Hy2) as (s3 & Ha & Hg3).
  exists d, s1, w1, s3, w3, [d]. split_and!; [done..| |done|by rewrite <- HT].
  destruct j as [|j]; [lia|]. cbn [arglist_loop]. step Hsc. step Hf. step (curtok_ok _ _ _ s1 w3 _ Hy1).
  cbn [head_kind ptok_kind]. rewrite bool_decide_eq_false_2 by done. step He. cbn [negb]. by step Ha.
Qed.

Lemma reads_list_more (ps qs : list ptok) (variadic : bool) (T : type) (Ts : list type) :
  reads_parameter ps T -> reads_list qs variadic Ts -> reads_list (ps ++ PTok token_comma :: qs) variadic (T :: Ts).
Proof.
  intros [(t & ps' & -> & Ht) Hp] [(u & qs' & -> & Hut) Hq]. split; [by eexists _, _|].
  intros n j sc s w acc rest Hn Hj Hg. rewrite length_app in Hn, Hj. rewrite <- app_assoc in Hg. cbn [app length] in *.
  destruct (Hp n sc s w (PTok token_comma :: PTok u :: qs' ++ PTok token_close_paren :: rest) ltac:(lia) Hg eq_refl)
    as (s1 & w1 & d & E & [Hu1 Hy1] & HT & Hv & Hfine).
  destruct (calm_scope sc d s1 w1) as [w2 Hsc].
  destruct (calm_fold d sc s1 w2 ltac:(by rewrite HT)) as [w3 Hf].
  destruct (EAT_good s1 w3 _ _ Hy1) as (s2 & He & Hg2). destruct j as [|j]; [lia|].
  destruct (Hq n j sc s2 w3 (acc ++ [d]) rest ltac:(lia) ltac:(lia) Hg2)
    as (d' & s3 & w4 & s' & w' & ds & E3 & _ & Hloop & Hg' & Hds).
  exists d, s1, w1, s', w', (d :: ds). split_and!; [done..| |done|].
  - cbn [arglist_loop]. step Hsc. step Hf. step (curtok_ok _ _ _ s1 w3 _ Hy1).
    cbn [head_kind ptok_kind]. rewrite bool_decide_eq_false_2 by done. step He. cbn [negb].
    assert (Hne : u <> token_elipsis /\ u <> token_close_paren /\ u <> token_comma) by (by destruct u).
    destruct Hne as (N1 & N2 & N3).
    step (accept_no _ _ _ s2 w3 token_elipsis _ (proj2 Hg2) N1). step (curtok_ok _ _ _ s2 w3 _ (proj2 Hg2)).
    cbn [head_kind ptok_kind]. rewrite !bool_decide_eq_false_2 by done. cbn [orb].
    assert (Hnop : (mret tt : P unit) (s2, w3) = Ok ((s2, w3), tt)) by done. step Hnop. step E3.
    by rewrite <- app_assoc in Hloop.
  - unfold refs in *. cbn [map]. by rewrite HT, Hds.
Qed.

Lemma reads_parameters_some (ps : list ptok) (variadic : bool) (Ts : list type) :
  reads_list ps variadic Ts -> reads_parameters ps false variadic Ts.
Proof using Quiet.
  intros [(t & ps' & -> & Ht) Hl] n sc s w rest Hn Hg.
  destruct (calm_funcargs s w) as (w1 & i & Ei).
  destruct (Hl n n sc s w1 [] rest Hn Hn Hg) as (d & s1 & w2 & s' & w' & ds & E & Hv & Hloop & Hg' & Hds).
  exists s', w', (mk_funcargs i false false variadic ds). split_and!; [|done..].
  unfold parse_func_arglist. step Ei. step (curtok_ok _ _ _ s w1 _ (proj2 Hg)). cbn [app head_kind ptok_kind].
  assert (Hne : t <> token_close_paren /\ t <> token_identifier) by (by destruct t).
  destruct Hne as (N1 & N2). rewrite bool_decide_eq_false_2 by done.
  step (tdef_none s w1 sc _ (proj2 Hg) ltac:(by repeat constructor)). rewrite bool_decide_eq_false_2 by done.
  cbn [negb orb]. step E. rewrite Hv. by step Hloop.
Qed.

Lemma reads_parameters_void : reads_parameters [PTok token_void] true false [].
Proof using Quiet builtin_name.
  intros n sc s w rest Hn Hg. destruct (calm_funcargs s w) as (w1 & i & Ei).
  assert (Hsp : specifies [token_void] type_void).
  { split; [done|]. exists [token_void]. split; [done|]. unfold c_specifiers. rewrite elem_of_cons. by left. }
  destruct (arg_reads n sc [token_void] type_void [] None (type_btype (mk_btype type_void None)) s w1
              (PTok token_close_paren :: rest) Hsp eq_refl) as (s' & w' & d & E & Hg' & HT & Hnm);
    [apply declares_nothing; constructor
    |apply reads_nothing; [constructor|apply reads_suffixes_nil]|apply calm_void|done|done|done|].
  exists s', w', (mk_funcargs i true false false []). split_and!; [|done..].
  unfold parse_func_arglist. step Ei. step (curtok_ok _ _ _ s w1 _ (proj2 Hg)). cbn [app head_kind ptok_kind].
  rewrite bool_decide_eq_false_2 by done.
  step (tdef_none s w1 sc _ (proj2 Hg) ltac:(by repeat constructor)). rewrite bool_decide_eq_false_2 by done.
  cbn [negb orb]. step E. by rewrite void_arg_plain, HT, Hnm.
Qed.

Lemma reads_parameters_none : cc1_std_c2x = false -> reads_parameters [] false false [].
Proof using Quiet.
  intros Hc n sc s w rest Hn Hg. destruct (calm_funcargs s w) as (w1 & i & Ei).
  exists s, w1, (mk_funcargs i false true false []). split_and!; [|done..].
  unfold parse_func_arglist. step Ei. step (curtok_ok _ _ _ s w1 _ (proj2 Hg)). by rewrite Hc.
Qed.

(** *** The grammar is what is read *)

Lemma declares_reads (ts : list ptok) (T : type) (nm : option cstr) (T' : type) :
  declares ts T nm T' -> reads_declarator ts T nm T'.
Proof using Quiet no_types no_builtins.
  apply (declares_mut builtin_name folded fine reads_declarator reads_suffixes reads_parameters reads_list reads_parameter);
    intros; eauto using reads_ptr, reads_name, reads_grouped, reads_nothing, reads_suffixes_nil, reads_unsized, reads_array,
      reads_func, reads_parameters_none, reads_parameters_void, reads_parameters_some, reads_list_one, reads_list_dots,
      reads_list_more, reads_parameter_intro.
Qed.

(** *** Declarations and type names *)

(** A storage class of an object or function, other than [auto] and [typedef]. *)
Definition storage_ok (md : Z) (specs : list token) : Prop :=
  (length (store_toks specs) <= 1)%nat
  /\ (has md DECL_ALLOW_STORE = false -> store_toks specs = [])
  /\ Forall (fun t => t = token_static \/ t = token_extern \/ t = token_register) (store_toks specs).

Definition storage_of (specs : list token) : Z :=
  match stored (Some (store_val store_default)) specs with Some st => st | None => store_val store_default end.

Lemma storage_plain (md : Z) (specs : list token) :
  storage_ok md specs ->
  STORE_IS_TYPEDEF (storage_of specs) = false /\ Z.land (storage_of specs) STORE_MASK_STORE <> store_val store_auto.
Proof.
  intros (Hlen & _ & Hall). unfold storage_of, stored. destruct (store_toks specs) as [|t ts]; [done|].
  apply Forall_cons in Hall as [[-> | [-> | ->]] _]; done.
Qed.

Lemma decl_reads (n : nat) (md : Z) (nd : bool) (sc : scope) (asc : option scope) (specs : list token) (p : type_primitive)
    (ts : list ptok) (nm : option cstr) (T : type) (s : lexer) (w : world) (rest : list ptok) :
  specifies specs p -> storage_ok md specs -> declares ts (plain (basic p (quals_of specs))) nm T -> fine T ->
  (nm = None -> has md DECL_SPEL_NEED = false) ->
  (length specs + length ts < n)%nat -> good s (map PTok specs ++ ts ++ rest) ->
  ends_declarator (head_kind rest) = true ->
  exists s' w' d, parse_decl keyword_mode junk f n (D n) (PS n) md nd sc asc (s, w) = Ok ((s', w'), Some d)
    /\ good s' rest /\ d_spel d = nm /\ store d = storage_of specs /\ plain (ref_of d) = T.
Proof using Quiet no_types no_builtins.
  intros Hsp Hst Hdecl Hfine Hneed Hn [Hu Hy] Hr. destruct n as [|m]; [lia|].
  destruct (specifies_first _ _ Hsp) as (t0 & specs' & Es & Ht0).
  destruct (declarator_next _ _ _ _ rest Hdecl Hr) as (Hends & Hspell & _).
  destruct (storage_plain md specs Hst) as [Hntd Hnauto]. destruct Hst as (Hlen & Hallow & Hcls).
  assert (Hb : exists st', (if has md DECL_ALLOW_STORE then Some (store_val store_default) else None) = st'
             /\ (st' = None /\ store_toks specs = [] \/ st' = Some 0 /\ (length (store_toks specs) <= 1)%nat)
             /\ match stored st' specs with Some st => st | None => store_val store_default end = storage_of specs).
  { eexists. split; [done|]. unfold storage_of. destruct (has md DECL_ALLOW_STORE); [by auto|].
    rewrite Hallow by done. unfold stored. rewrite Hallow by done. by auto. }
  destruct Hb as (st' & Est & Hst' & Estored).
  destruct (btype_reads keyword_mode junk f (S m) (D (S m)) (PS (S m)) st' None nd sc PARSE_BTYPE_AUTOTYPE specs p
              (ts ++ rest) s w Hsp Hst') as (s1 & Eb & Hu1 & Hy1); [by left|lia|done..|].
  destruct (stored_reads (S m) (basic p (quals_of specs)) md (storage_of specs) sc asc false ts nm T s1 w rest
              (basic_not_auto _ _) Hnauto Hdecl) as (s2 & w2 & d & Ed & Hg2 & Hnm & Hstd & HT & _ & _);
    [by apply declares_reads|done|rewrite Es in Hn; simpl in Hn; lia|done|by split|done|].
  destruct (calm_fold d sc s2 w2 ltac:(by rewrite HT)) as [w3 Hf].
  exists s2, w3, d. split_and!; [|done..]. unfold parse_decl.
  assert (Hna : head_kind (map PTok specs ++ ts ++ rest) <> token_attribute)
    by (rewrite Es; cbn; intros ->; done).
  step (no_attrs_out keyword_mode junk f m sc s w _ Hy Hna). rewrite Est. cbn [snd]. step Eb. cbn [fst snd].
  rewrite Estored, Hntd.
  assert (Ebt : (mret (Some (basic p (quals_of specs))) : P (option type)) (s1, w) = Ok ((s1, w), Some (basic p (quals_of specs))))
    by done.
  step Ebt.
  change (move_typrop_attrs [] (basic p (quals_of specs))) with (@nil attribute, basic p (quals_of specs)).
  cbn [fst snd]. step Ed. by step Hf.
Qed.

Lemma type_name_reads (n : nat) (nd : bool) (sc : scope) (specs : list token) (p : type_primitive)
    (ts : list ptok) (T : type) (s : lexer) (w : world) (rest : list ptok) :
  specifies specs p -> store_toks specs = [] -> declares ts (plain (basic p (quals_of specs))) None T ->
  (length specs + length ts < n)%nat -> good s (map PTok specs ++ ts ++ rest) ->
  ends_declarator (head_kind rest) = true ->
  exists s' w' t, parse_type keyword_mode junk f n (D n) (PS n) nd sc (s, w) = Ok ((s', w'), Some t)
    /\ good s' rest /\ plain t = T.
Proof using Quiet no_types no_builtins.
  intros Hsp Hst Hdecl Hn [Hu Hy] Hr.
  destruct (specifies_first _ _ Hsp) as (t0 & specs' & Es & Ht0).
  destruct (declarator_next _ _ _ _ rest Hdecl Hr) as (Hends & Hspell & _).
  destruct (btype_reads keyword_mode junk f n (D n) (PS n) None None nd sc 0 specs p
              (ts ++ rest) s w Hsp) as (s1 & Eb & Hu1 & Hy1); [by left|by left|lia|done..|].
  destruct (declarator_to_type n 0 (basic p (quals_of specs)) sc ts None T s1 w rest false) as (s2 & w2 & t & Et & Hg & HT);
    [by apply declares_reads|rewrite Es in Hn; simpl in Hn; lia|done|done|by split|done|].
  exists s2, w2, t. split_and!; [|done..]. unfold parse_type.
  assert (Hna : head_kind (map PTok specs ++ ts ++ rest) <> token_auto).
  { rewrite Es in Hst |- *. cbn. intros ->. done. }
  step (accept_no _ _ _ s w token_auto _ Hy Hna).
  assert (Ey : (mret true : P bool) (s, w) = Ok ((s, w), true)) by done. step Ey.
  assert (Ebt : (r ← parse_btype keyword_mode junk f n (D n) (PS n) None None nd sc 0; mret r.1.1) (s, w)
                = Ok ((s1, w), Some (basic p (quals_of specs)))) by (by step Eb).
  step Ebt. cbn [negb]. by step Et.
Qed.

(** Where an expression starts there is no type, and nothing is read. *)
Lemma type_declines (n : nat) (self : declarers) (ps : parsers) (nd : bool) (sc : scope) (st : lexer * world) :
  curtok st.1 ∈ starts -> spelled st.1 ->
  parse_type keyword_mode junk f (S n) self ps nd sc st = Ok (st, None).
Proof using Quiet.
  destruct st as [s w]. cbn [fst]. intros Hin Hsp.
  assert (Hacc : forall t, bool_decide (t ∈ starts) = false -> accept keyword_mode junk f t (s, w) = Ok ((s, w), false)).
  { intros t Ht. unfold accept, on_lexer, accept_where. cbn [fst snd].
    rewrite bool_decide_eq_false_2; [done|]. intros ->. by rewrite bool_decide_eq_true_2 in Ht. }
  assert (Hturn : parse_btype_turn keyword_mode junk f (S n) self ps (no_specifiers None None 0) nd sc (s, w)
                  = Ok ((s, w), Stop (no_specifiers None None 0))).
  { unfold parse_btype_turn, get_curtok at 1. unfold mbind at 1, P_bind. cbn [mbind res_bind fst snd].
    destruct (decide (curtok s = token_identifier)) as [Hid|Hid].
    - rewrite Hid. cbn [curtok_is_type_qual].
      enough (identifier_turn keyword_mode junk f (no_specifiers None None 0) sc (s, w)
              = Ok ((s, w), Stop (no_specifiers None None 0))) as E by exact E.
      unfold identifier_turn. assert (Etd : parse_at_tdef sc (s, w) = Ok ((s, w), None)).
      { unfold parse_at_tdef. cbn [fst snd]. rewrite bool_decide_eq_true_2 by done.
        destruct (currentspelling s) eqn:Es; [by rewrite no_typedef|by destruct (Hsp Hid)]. }
      cbn [signed_set no_specifiers]. by step Etd.
    - unfold starts in Hin. rewrite !elem_of_cons, elem_of_nil in Hin.
      by repeat (destruct Hin as [E | Hin]; [by destruct (Hid E) || rewrite E|]). }
  unfold parse_type. step (Hacc token_auto eq_refl).
  assert (Ey : (mret true : P bool) (s, w) = Ok ((s, w), true)) by done. step Ey.
  assert (Eb : (r ← parse_btype keyword_mode junk f (S n) self ps None None nd sc 0; mret r.1.1) (s, w)
                = Ok ((s, w), None)).
  { unfold parse_btype.
    assert (Eext : accept_all keyword_mode junk f (S n) token___extension__ (s, w) = Ok ((s, w), tt))
      by (cbn [accept_all]; by step (Hacc token___extension__ eq_refl)).
    assert (El : parse_btype_loop keyword_mode junk f (S n) self ps (S n) (no_specifiers None None 0) nd sc (s, w)
                 = Ok ((s, w), Stop (no_specifiers None None 0)))
      by (cbn [parse_btype_loop]; by step Hturn).
    assert (Eall : (_ ← accept_all keyword_mode junk f (S n) token___extension__;
                    parse_btype_loop keyword_mode junk f (S n) self ps (S n) (no_specifiers None None 0) nd sc) (s, w)
                   = Ok ((s, w), Stop (no_specifiers None None 0))) by (by step Eext).
    unfold mbind, P_bind in *. rewrite Eext in *. cbn [mbind res_bind fst snd] in *. rewrite El. done. }
  by step Eb.
Qed.

End declarators.
