(* ===== verification/Declared.v ===== *)
(** * Declarations, from text to name and type

    The parser of types on a file's text, and what it promises to the parser of
    expressions; with a concrete compiler around it, and the places where it
    does not do what C says. *)

From S2P Require Import Prelude CStr StrLit Escape Types Consts Token Lexing Labels Tokconv Parse Parsing Declare Declaring Declarator.

Section text.
Context `{Declarations} (keyword_mode junk : Z) (builtin_name : cstr -> bool).
Context (folded : expr -> expr) (fine : type -> Prop) {Quiet : Calm folded fine}.
Hypothesis no_types :
  forall sc st, curtok st.1 ∈ starts -> spelled st.1 -> Parse.parse_type sc st = Ok (st, None).
Hypothesis no_builtins : forall sp sc st, builtin_name sp = false -> builtin_parse sp sc st = Ok (st, None).

(** C16: from the text of a file to what a declaration declares. When the lexemes
    of the file's lines are specifiers - keywords of a basic type in any order,
    qualifiers and perhaps a storage class that [storage_ok] allows (not typedef)
    anywhere among them - and a declarator of C's grammar, parameters and
    constant array sizes included, no name being a typedef's and folding
    reporting no error ([Calm]), the parser gives a declaration of the
    declarator's name, of the storage class written and of the type C gives it
    (places and the identities of parameter lists aside), and stops right behind
    it; fuel for the number of tokens is enough. *)
Theorem declared_text (f : nat) (track : bool) (ls : list lex_line) (nam : cstr) (s : lexer)
    (specs : list token) (p : type_primitive) (ts : list ptok) (nm : option cstr) (T : type) (rest : list ptok)
    (md : Z) (nd : bool) (n : nat) (sc : scope) (asc : option scope) (w : world) :
  bufferpos (rd s) = None -> ungetch (rd s) = EOF -> in_comment (rd s) = false -> curtok s <> token_string ->
  curtok_save s = token_unknown ->
  forallb line_ok ls = true -> small_text ls ->
  map (ptok_of keyword_mode) (all_lexemes ls) = map PTok specs ++ ts ++ rest ->
  ends_declarator (head_kind rest) = true ->
  specifies specs p -> storage_ok md specs ->
  declares builtin_name folded fine ts (plain (basic p (quals_of specs))) nm T -> fine T ->
  (nm = None -> has md DECL_SPEL_NEED = false) -> (length specs + length ts < n)%nat ->
  exists s0 s' w' d,
    tokenise_set_input keyword_mode junk (S f) track (map line_text ls) nam s = Ok s0
    /\ parse_decl keyword_mode junk (S f) n (declarers_at keyword_mode junk (S f) n)
         (parsers_at keyword_mode junk (S f) n) md nd sc asc (s0, w) = Ok ((s', w'), Some d)
    /\ d_spel d = nm /\ store d = storage_of specs /\ plain (ref_of d) = T
    /\ yields keyword_mode junk (S f) s' rest.
Proof using Quiet no_types no_builtins.
  intros Hp Hu Hc Ht Hsv Hls Hn Hts Hr Hsp Hst Hd Hfine Hneed Hlen.
  destruct (file_yields keyword_mode junk f track ls nam s Hp Hu Hc Ht Hsv Hls Hn) as (s0 & Hs0 & Hu0 & Hy). rewrite Hts in Hy.
  destruct (decl_reads keyword_mode junk (S f) builtin_name folded fine no_types no_builtins n md nd sc asc specs p ts nm T
              s0 w rest Hsp Hst Hd Hfine Hneed Hlen (conj Hu0 Hy) Hr) as (s' & w' & d & E & [_ Hy'] & Hnm & Hstd & HT).
  by exists s0, s', w', d.
Qed.

(** C17: what the parser of expressions asks of the parser of types holds of it,
    for type names made of the keywords of basic types, qualifiers and an abstract
    declarator. On the tokens of such a type name it reads exactly those and gives
    the type C gives the name; where an expression starts - and no name is a
    typedef's - it says that there is no type, having read and changed nothing. *)
Theorem type_names_read (f n : nat) (nd : bool) (sc : scope) (s : lexer) (w : world) :
  (0 < n)%nat ->
  let parse := parse_type keyword_mode junk f n (declarers_at keyword_mode junk f n)
                 (parsers_at keyword_mode junk f n) nd sc (s, w) in
  (curtok s ∈ starts -> spelled s -> parse = Ok ((s, w), None))
  /\ (forall specs p ts T rest,
        specifies specs p -> store_toks specs = [] ->
        declares builtin_name folded fine ts (plain (basic p (quals_of specs))) None T ->
        (length specs + length ts < n)%nat -> ends_declarator (head_kind rest) = true ->
        curtok_save s = token_unknown -> yields keyword_mode junk f s (map PTok specs ++ ts ++ rest) ->
        exists s' w' t, parse = Ok ((s', w'), Some t) /\ yields keyword_mode junk f s' rest /\ plain t = T).
Proof using Quiet no_types no_builtins.
  intros Hn parse. split.
  - intros Hin Hsp. destruct n as [|m]; [lia|]. by apply (type_declines keyword_mode junk f folded fine).
  - intros specs p ts T rest Hsp Hst Hd Hlen Hr Hu Hy.
    destruct (type_name_reads keyword_mode junk f builtin_name folded fine no_types no_builtins n nd sc specs p ts T s w
                rest Hsp Hst Hd Hlen (conj Hu Hy) Hr) as (s' & w' & t & E & [_ Hy'] & HT).
    by exists s', w', t.
Qed.

End text.

(** ** A text and its tokens *)

Section example.
Context {F : Floats}.

(** [static const long unsigned int *( *f[3])(int, char *s, ...);] *)
Definition decl_text : list lex_line := [
  ([([], Word (str "static")); ([" "]%char, Word (str "const")); ([" "]%char, Word (str "long"));
    ([" "]%char, Word (str "unsigned")); ([" "]%char, Word (str "int")); ([" "]%char, Punct "*"); ([], Punct "(");
    ([" "]%char, Punct "*"); ([], Word (str "f")); ([], Punct "["); ([], Int DEC false (str "3") ""); ([], Punct "]");
    ([], Punct ")"); ([], Punct "("); ([], Word (str "int")); ([], Punct ","); ([" "]%char, Word (str "char"));
    ([" "]%char, Punct "*"); ([], Word (str "s")); ([], Punct ","); ([" "]%char, Punct "..."); ([], Punct ")");
    ([], Punct ";")], [])].

Definition decl_specs : list token := [token_static; token_const; token_long; token_unsigned; token_int].

Definition decl_tokens : list ptok :=
  [PTok token_multiply; PTok token_open_paren; PTok token_multiply; PWord (str "f"); PTok token_open_square;
   PInt (mk_numeric (VI 3) 0); PTok token_close_square; PTok token_close_paren; PTok token_open_paren;
   PTok token_int; PTok token_comma; PTok token_char; PTok token_multiply; PWord (str "s"); PTok token_comma;
   PTok token_elipsis; PTok token_close_paren].

Lemma decl_lexemes :
  map (ptok_of KW_ALL) (all_lexemes decl_text) = map PTok decl_specs ++ decl_tokens ++ [PTok token_semicolon].
Proof. vm_compute. reflexivity. Qed.

(** The name of the type of pointers to arrays of 3 pointers to constant characters. *)
Definition name_text : list lex_line := [
  ([([], Word (str "char")); ([" "]%char, Word (str "const")); ([" "]%char, Punct "*"); ([], Punct "(");
    ([" "]%char, Punct "*"); ([], Punct ")"); ([], Punct "["); ([], Int DEC false (str "3") ""); ([], Punct "]");
    ([], Punct ";")], [])].

Definition name_specs : list token := [token_char; token_const].

Definition name_tokens : list ptok :=
  [PTok token_multiply; PTok token_open_paren; PTok token_multiply; PTok token_close_paren; PTok token_open_square;
   PInt (mk_numeric (VI 3) 0); PTok token_close_square].

Lemma name_lexemes :
  map (ptok_of KW_ALL) (all_lexemes name_text) = map PTok name_specs ++ name_tokens ++ [PTok token_semicolon].
Proof. vm_compute. reflexivity. Qed.

End example.

(** ** A compiler around the parser *)

#[local] Existing Instance text_floats.
#[local] Existing Instance no_grammar.

Definition int_type : type := type_btype (mk_btype type_int None).

(** Integer constants fold to themselves, and nothing keeps any state. *)
#[local] Instance no_declarations : Declarations :=
  {| parse_attr := fun _ st => Ok (st, []);
     parse_type_sue := fun p _ _ st => Ok (st, type_btype (mk_btype p None));
     typedef_named := fun _ _ _ => None;
     fold_typedef := fun d _ st => Ok (st, d);
     typeof_expr := fun _ _ st => Ok (st, int_type);
     type_nav_va_list := fun _ st => Ok (st, int_type);
     fold_expr := fun e _ st => Ok (st, e);
     tree_type := fun _ => int_type;
     const_fold := fun e => match e with
                            | expr_val (mk_numeric (VI n) suffix) => mk_consty (CONST_NUM n suffix) 0 None None
                            | _ => CONST_FOLD_LEAF
                            end;
     size_number := fun _ => 0%nat;
     fold_had_error := fun st => Ok (st, tt);
     decl_new := fun st => Ok (st, 0%nat);
     funcargs_new := fun st => Ok (st, 0%nat);
     set_arg_scope := fun _ _ st => Ok (st, tt);
     arg_scope := fun _ _ => Some tt;
     symtab_add_to_scope := fun _ _ st => Ok (st, tt);
     decl_changed := fun _ st => Ok (st, tt);
     fold_decl := fun d _ st => Ok (st, d);
     fold_decl_add_sym := fun d _ st => Ok (st, d);
     fold_type_ondecl_w := fun d _ _ st => Ok (st, d);
     used_proto := fun _ _ => false;
     global_scope := fun _ _ => true;
     scalar_init := fun _ => None;
     valist_workaround := fun _ _ => false;
     cc1_std_c2x := false;
     fold_const_vlas := false |}.

#[local] Instance no_calm : Calm (fun e => e) (fun _ => True).
Proof. constructor; intros; by repeat eexists. Qed.

Definition prim_type (p : type_primitive) : type := type_btype (mk_btype p None).

(** An array of 3 pointers to functions taking [int], [char *] and more, that
    return a pointer to [const unsigned long]. *)
Definition decl_type : type :=
  type_array
    (type_ptr_to
       (type_func (type_ptr_to (type_cast (prim_type type_ulong) qual_const)) 0 false true
          [prim_type type_int; type_ptr_to (prim_type type_nchar)]))
    (size_const 3) false VLA_NO.

Lemma decl_specifies : specifies decl_specs type_ulong.
Proof.
  split; [done|]. exists [token_unsigned; token_long; token_int].
  split; [apply perm_swap|unfold c_specifiers; in_list].
Qed.

Lemma one_specifier (t : token) (p : type_primitive) : ([t], p) ∈ c_specifiers -> is_type_tok t = true -> specifies [t] p.
Proof.
  intros Hin Ht. unfold specifies, is_specifier. cbn. rewrite Ht. split; [done|]. exists [t]. by split.
Qed.

Lemma decl_declares :
  declares (fun _ => false) (fun e => e) (fun _ => True) decl_tokens
    (plain (basic type_ulong (quals_of decl_specs))) (Some (str "f")) decl_type.
Proof.
  apply (declares_ptr _ _ _ []); [done|].
  eapply (declares_parens _ _ _ [PTok token_multiply; PWord (str "f"); PTok token_open_square;
             PInt (mk_numeric (VI 3) 0); PTok token_close_square]); [done| |].
  - apply (suffixed_func _ _ _ [PTok token_int; PTok token_comma; PTok token_char; PTok token_multiply; PWord (str "s");
             PTok token_comma; PTok token_elipsis] false true); [|apply suffixed_nil|done].
    apply parameters_some. eapply (parameter_more _ _ _ [PTok token_int]).
    + apply (parameter_intro _ _ _ [token_int] type_int [] None); [|done|apply declares_nothing, suffixed_nil|done|done].
      apply one_specifier; [unfold c_specifiers; in_list|done].
    + apply (parameter_dots _ _ _ [PTok token_char; PTok token_multiply; PWord (str "s")]).
      apply (parameter_intro _ _ _ [token_char] type_nchar _ (Some (str "s"))); [|done| |done|done].
      * apply one_specifier; [unfold c_specifiers; in_list|done].
      * apply (declares_ptr _ _ _ []); [done|]. apply declares_name, suffixed_nil.
  - apply (declares_ptr _ _ _ []); [done|]. apply declares_name.
    apply (suffixed_array _ _ _ [PInt (mk_numeric (VI 3) 0)] (expr_val (mk_numeric (VI 3) 0)));
      [|by repeat eexists|done|apply suffixed_nil].
    apply (derives_le _ 15); [lia|]. apply derives_int.
Qed.

Theorem declared_text_witness :
  exists s0 s' d,
    tokenise_set_input KW_ALL 0 1 true (map line_text decl_text) (str "a.c") lexer0 = Ok s0
    /\ parse_decl KW_ALL 0 1 30 (declarers_at KW_ALL 0 1 30) (parsers_at KW_ALL 0 1 30)
         (Z.lor DECL_SPEL_NEED DECL_ALLOW_STORE) true tt None (s0, tt) = Ok ((s', tt), Some d)
    /\ d_spel d = Some (str "f") /\ store d = store_val store_static /\ plain (ref_of d) = decl_type.
Proof.
  destruct (@declared_text text_floats no_grammar no_declarations KW_ALL 0 (fun _ => false) (fun e => e) (fun _ => True) no_calm
              (fun _ _ _ _ => eq_refl)
              (fun _ _ _ _ => eq_refl) 0 true decl_text (str "a.c") lexer0 decl_specs type_ulong decl_tokens
              (Some (str "f")) decl_type [PTok token_semicolon] (Z.lor DECL_SPEL_NEED DECL_ALLOW_STORE) true 30 tt None tt)
    as (s0 & s' & [] & d & E0 & E & Hnm & Hst & HT & _).
  - reflexivity.
  - reflexivity.
  - reflexivity.
  - discriminate.
  - reflexivity.
  - vm_compute. reflexivity.
  - vm_compute. reflexivity.
  - exact (@decl_lexemes text_floats).
  - reflexivity.
  - exact decl_specifies.
  - split; [simpl; lia|]. split; [discriminate|]. repeat constructor.
  - exact decl_declares.
  - exact I.
  - discriminate.
  - simpl. lia.
  - exists s0, s', d. rewrite Hst. repeat split; assumption.
Defined.

(** A pointer to an array of 3 pointers to [const char]. *)
Definition name_type : type :=
  type_ptr_to (type_array (type_ptr_to (type_cast (prim_type type_nchar) qual_const)) (size_const 3) false VLA_NO).

Lemma name_declares :
  declares (fun _ => false) (fun e => e) (fun _ => True) name_tokens
    (plain (basic type_nchar (quals_of name_specs))) None name_type.
Proof.
  apply (declares_ptr _ _ _ []); [done|].
  eapply (declares_parens _ _ _ [PTok token_multiply]); [done| |].
  - apply (suffixed_array _ _ _ [PInt (mk_numeric (VI 3) 0)] (expr_val (mk_numeric (VI 3) 0)));
      [|by repeat eexists|done|apply suffixed_nil].
    apply (derives_le _ 15); [lia|]. apply derives_int.
  - apply (declares_ptr _ _ _ []); [done|]. apply declares_nothing, suffixed_nil.
Qed.

Lemma name_specifies : specifies name_specs type_nchar.
Proof. split; [done|]. exists [token_char]. split; [done|unfold c_specifiers; in_list]. Qed.

Lemma name_buffer :
  exists s0, tokenise_set_input KW_ALL 0 1 true (map line_text name_text) (str "a.c") lexer0 = Ok s0
    /\ curtok_save s0 = token_unknown
    /\ yields KW_ALL 0 1 s0 (map PTok name_specs ++ name_tokens ++ [PTok token_semicolon]).
Proof.
  destruct (file_yields KW_ALL 0 0 true name_text (str "a.c") lexer0) as (s0 & Hs0 & Hu & Hy);
    [reflexivity|reflexivity|reflexivity|discriminate|reflexivity|vm_compute; reflexivity|vm_compute; reflexivity|].
  exists s0. split; [done|]. split; [done|]. rewrite <- (@name_lexemes text_floats). exact Hy.
Qed.

Theorem type_names_read_witness :
  exists s0 s' t,
    tokenise_set_input KW_ALL 0 1 true (map line_text name_text) (str "a.c") lexer0 = Ok s0
    /\ parse_type KW_ALL 0 1 20 (declarers_at KW_ALL 0 1 20) (parsers_at KW_ALL 0 1 20) false tt (s0, tt)
       = Ok ((s', tt), Some t)
    /\ plain t = name_type.
Proof.
  destruct name_buffer as (s0 & E0 & Hu & Hy).
  destruct (@type_names_read text_floats no_grammar no_declarations KW_ALL 0 (fun _ => false) (fun e => e) (fun _ => True)
              no_calm (fun _ _ _ _ => eq_refl) (fun _ _ _ _ => eq_refl) 1 20 false tt s0 tt) as [_ Hread].
  - lia.
  - destruct (Hread name_specs type_nchar name_tokens name_type [PTok token_semicolon]) as (s' & [] & t & E & _ & HT).
    + exact name_specifies.
    + reflexivity.
    + exact name_declares.
    + simpl. lia.
    + reflexivity.
    + exact Hu.
    + exact Hy.
    + exists s0, s', t. repeat split; assumption.
Defined.

(** ** Where C is not followed *)

Section departures.
Context `{Declarations} (keyword_mode junk : Z) (f : nat).

(** The attributes written after a star are read and then forgotten. *)
Lemma pointer_attributes_lost (m : type_maker) (attrs layer_attrs : list attribute) (q : Z) (inner : bool) (t : type) :
  wrap_layer (mk_parsed (PARSED_PTR m attrs q) layer_attrs) inner t
  = wrap_layer (mk_parsed (PARSED_PTR m [] q) layer_attrs) inner t.
Proof. done. Qed.

(** [long int int] is a [long], however many [int]s there are, and
    [long int double] a [long double]. *)
Lemma long_ints_accepted (n : nat) :
  type_run (token_long :: repeat token_int n) (NONE, type_int, false, true)
  = Ok (PRIMITIVE_MAYBE_MORE, type_long, false, true)
  /\ type_run [token_long; token_int; token_double] (NONE, type_int, false, true)
     = Ok (PRIMITIVE_NO_MORE, type_ldouble, false, true).
Proof.
  split; [|done]. cbn [type_run]. unfold type_step at 1. cbn.
  induction n as [|n IH]; [done|]. cbn [repeat type_run]. unfold type_step at 1. cbn. exact IH.
Qed.

(** [signed __builtin_va_list] reaches code marked unreachable. *)
Lemma signed_va_list_ice (b : specifiers) (s : bool) (flags : Z) (sc : scope) st :
  specified_type (put_va_list (put_signed b s)) flags sc st = Ice "unreachable".
Proof. done. Qed.

(** A parenthesis and then [__extension__ int], as in [int ( __extension__ int)],
    puts back two tokens, where there is room for one. *)
Lemma extension_parameter_ice (n : nat) (self : declarers) (md : Z) (dfor : bool) (base : list parsed) (sc : scope)
    (s : lexer) (w : world) (rest : list ptok) :
  yields keyword_mode junk f s (PTok token_open_paren :: PTok token___extension__ :: PTok token_int :: rest) ->
  parsed_type_nest keyword_mode junk f (S (S n)) self md dfor base sc (s, w) = Ice "curtok regurgitate buffer full".
Proof.
  intros Hy. destruct (accept_ok _ _ _ s w _ _ Hy) as (s1 & E1 & Hu1 & Hy1).
  destruct (accept_ok _ _ _ s1 w _ _ Hy1) as (s2 & E2 & Hu2 & Hy2).
  assert (Hall : accept_all keyword_mode junk f (S (S n)) token___extension__ (s1, w) = Ok ((s2, w), tt)).
  { cbn [accept_all]. step E2. by step (accept_no _ _ _ s2 w token___extension__ _ Hy2 ltac:(done)). }
  assert (Hint : parse_at_decl keyword_mode junk f (S n) sc (negb dfor) (s2, w) = Ok ((s2, w), true))
    by (by apply (at_decl_yes keyword_mode junk f (S n) s2 w sc _ token_int _ Hy2)).
  assert (Hun : uneat_ token___extension__ (s2, w) = Ok ((set_tok (set_save s2 (curtok s2)) token___extension__, w), tt)).
  { unfold uneat_, on_lexer, uneat. cbn [fst]. by rewrite Hu2. }
  assert (Hat : parse_at_decl keyword_mode junk f (S (S n)) sc (negb dfor) (s1, w)
                = Ok ((set_tok (set_save s2 (curtok s2)) token___extension__, w), true)).
  { cbn [parse_at_decl]. step (curtok_ok _ _ _ s1 w _ Hy1). cbn [head_kind ptok_kind]. step Hall. step Hint. by step Hun. }
  unfold parsed_type_nest. step E1. step Hat. cbn [orb].
  unfold get_curtok, mbind, P_bind, uneat_, on_lexer, uneat. cbn [fst snd mbind res_bind].
  rewrite (yields_curtok _ _ _ _ _ Hy2). done.
Qed.

End departures.
