(* ===== verification/ParseGroup.v ===== *)
(** * The parser of groups of declarations

    The end of [src/src/cc1/parse_type.c]: the declarations that share their
    specifiers, the bodies of functions and the declarations of old-style
    parameters. The statements of a body are read by [ParseStmt], which reads
    the declarations inside them by these functions: both are given the
    functions they call again as a record, [bodies]. Symbol tables, folding and
    the other work done on finished declarations are the class [Statements];
    warnings and places in the source are left out. *)

From S2P Require Import Prelude CStr StrLit Types Consts Token Tokconv Parse Declare.

(** ** Modes *)

(** [enum decl_multi_mode]. *)
Definition DECL_MULTI_CAN_DEFAULT : Z := 1.
Definition DECL_MULTI_ACCEPT_FIELD_WIDTH : Z := 2.
Definition DECL_MULTI_ACCEPT_FUNC_DECL : Z := 4.
Definition DECL_MULTI_ACCEPT_FUNC_CODE : Z := 12.
Definition DECL_MULTI_ALLOW_STORE : Z := 16.
Definition DECL_MULTI_NAMELESS : Z := 32.
Definition DECL_MULTI_ALLOW_ALIGNAS : Z := 64.
Definition DECL_MULTI_IS_OLD_ARGS : Z := 128.
Definition DECL_MULTI_IS_STRUCT_UN_MEMB : Z := 2.

(** [mode & flag] is not 0. *)
Definition allows (mode flag : Z) : bool := negb (Z.land mode flag =? 0)%Z.

Section data.
Context `{Grammar}.

(** ** Statements *)

(** A [stmt] as parsed, with its [symtab]. A loop or a switch is known to the
    statements inside it by its level, the number of loops and switches around
    it; [parent] is the level of the one a [break], [continue], [case] or
    [default] belongs to. *)
Inductive stmt : Type :=
  | stmt_noop (symtab : scope) (is_fallthrough : bool)
  | stmt_expr (symtab : scope) (e : expr)
  | stmt_code (symtab : scope) (internal_nest : bool) (stmts : list stmt)
  | stmt_if (symtab : scope) (e : expr) (lhs : stmt) (rhs : option stmt)
  | stmt_switch (symtab : scope) (level : nat) (e : expr) (lhs : stmt)
  | stmt_while (symtab : scope) (level : nat) (e : expr) (lhs : stmt)
  | stmt_do (symtab : scope) (level : nat) (e : expr) (lhs : stmt)
  | stmt_for (symtab : scope) (level : nat) (for_init for_while for_inc : option expr) (lhs : stmt)
  | stmt_label (symtab : scope) (spel : option cstr) (unused : bool) (lhs : stmt)
  | stmt_case (symtab : scope) (parent : option nat) (e : expr) (lhs : stmt)
  | stmt_case_range (symtab : scope) (parent : option nat) (e expr2 : expr) (lhs : stmt)
  | stmt_default (symtab : scope) (parent : option nat) (lhs : stmt)
  | stmt_break (symtab : scope) (parent : option nat)
  | stmt_continue (symtab : scope) (parent : option nat)
  | stmt_goto (symtab : scope) (spel : option cstr)
  | stmt_goto_computed (symtab : scope) (e : expr)
  | stmt_return (symtab : scope) (e : option expr).

(** [struct stmt_ctx], with the level of the next loop or switch. *)
Record stmt_ctx : Type := mk_stmt_ctx {
  continue_target : option nat;
  break_target : option nat;
  switch_target : option nat;
  ctx_scope : scope;
  parsing_unbraced_if : bool;
  ctx_level : nat
}.

End data.

(** What the parser calls elsewhere, besides [Declarations]. *)
Class Statements `{Declarations} := mk_statements {
  (** [symtab_new_transparent], and setting [internal_nest]. *)
  symtab_new_transparent : scope -> P scope;
  set_internal_nest : scope -> bool -> P unit;
  (** Whether the label was not there. *)
  symtab_label_add_local : scope -> cstr -> P bool;
  static_asserts_add : scope -> expr -> option cstr -> P unit;
  symtab_decls : scope -> world -> list decl;
  scope_are_params : scope -> world -> bool;
  (** The checks of the variables in a statement's parentheses. *)
  flow_fold : scope -> P unit;
  fold_shadow_dup_check_block_decls : scope -> P unit;
  fold_expr_nodecay : expr -> scope -> P expr;
  (** [fold_stmt] of an expression. *)
  fold_stmt_expr : expr -> scope -> P expr;
  (** The [funcargs] of a function type. *)
  funcargs_of : nat -> world -> option funcargs;
  decl_replace_with : decl -> decl -> P unit;
  fold_funcargs : funcargs -> scope -> list attribute -> P unit;
  (** [arg_symtab->in_func = d]. *)
  set_in_func : scope -> decl -> P unit;
  scope_parent : scope -> world -> option scope;
  set_args_void_implicit : nat -> P unit;
  set_func_code : decl -> stmt -> P unit;
  set_field_width : decl -> expr -> P unit;
  (** The declaration, which may take the assembler's name of an earlier one of
      the same name, and whether there is one that is a prototype. *)
  link_to_previous_decl : decl -> scope -> P (decl * bool);
  fold_decl_attrs_requiring_fnbody : decl -> bool -> P unit;
  fold_decl_maybe_member : decl -> scope -> bool -> P decl;
  fold_check_decl_complete : decl -> P unit;
  is_s_or_u_or_e : type -> world -> bool;
  cc1_std_c99 : bool;
  (** Of whole files ([pass1.c]): the global scope, and folding it. *)
  globals : scope;
  symtab_fold_sues : scope -> P unit;
  fold_decl_global : decl -> scope -> P unit;
  (** [g->before = d]. *)
  gasm_before : nat -> decl -> P unit;
  fold_globals : scope -> P unit
}.

Section parse.
Context `{Statements} (keyword_mode junk : Z) (f : nat).

Local Abbreviation EAT := (EAT keyword_mode junk f).
Local Abbreviation accept := (accept keyword_mode junk f).
Local Abbreviation identifier := (identifier keyword_mode junk f).

(** Whether the current token is an identifier that a colon follows. *)
Definition tok_at_label : P bool := on_lexer Token.tok_at_label.

(** The functions that call each other, as far as they do. *)
Record bodies : Type := mk_bodies {
  stmt_ : stmt_ctx -> P stmt;
  stmt_and_decls_ : stmt_ctx -> bool -> list attribute -> P stmt;
  (** [parse_stmt_block] without a context. *)
  block_ : scope -> P stmt;
  (** [parse_decl_group]: whether there was one, and its declarations, functions
      with their code. *)
  group_ : Z -> bool -> scope -> option scope -> P (bool * list (decl * option stmt))
}.

Section functions.
Context (fuel : nat) (self : bodies) (dcls : declarers) (parsers : parsers).

Local Abbreviation parse_add_attr := (parse_add_attr keyword_mode junk f fuel).
Local Abbreviation parse_add_attr_out := (parse_add_attr_out keyword_mode junk f fuel).
Local Abbreviation parse_expr_assignment := (parse_expr_assignment keyword_mode junk f fuel parsers).

(** ** Static assertions *)

(** [parse_static_assert]: whether one was read to its end. *)
Fixpoint static_assert_loop (n : nat) (sc : scope) (found : bool) : P bool :=
  match n with
  | O => fail NoFuel
  | S n =>
      got ← accept token__Static_assert;
      if negb got then mret found
      else
        _ ← EAT token_open_paren;
        e ← parse_expr_assignment sc false;
        comma ← accept token_comma;
        s ← (if comma : bool then
               c ← parse_asciz_str;
               match c with
               | None => mret None
               | Some c => t ← fail (cstring_text c); _ ← EAT token_string; mret (Some (Some t))
               end
             else mret (Some None));
        match s with
        | None => static_assert_loop n sc found
        | Some s =>
            _ ← EAT token_close_paren;
            _ ← EAT token_semicolon;
            _ ← static_asserts_add sc e s;
            static_assert_loop n sc true
        end
  end.

Definition parse_static_assert (sc : scope) : P bool := static_assert_loop fuel sc false.

(** ** Functions *)

(** The [funcargs] a declaration's type leads to ([type_funcargs]). *)
Definition decl_funcargs (d : decl) : P (option (nat * funcargs)) :=
  match type_is (ref_of d) kind_func with
  | Some (type_func _ id _ _ _) =>
      w ← get_world; mret (match funcargs_of id w with Some fa => Some (id, fa) | None => None end)
  | _ => mret None
  end.

Definition funcargs_is_old_func (fa : funcargs) : bool :=
  args_old_proto fa && match arglist fa with [] => false | _ => true end.

Definition is_old_func (d : decl) : P bool :=
  fa ← decl_funcargs d;
  mret (match fa with Some (_, fa) => funcargs_is_old_func fa | None => false end).

(** The parameter an old-style declaration is of. *)
Fixpoint old_arg_of (old : decl) (args : list decl) : option decl :=
  match args with
  | [] => None
  | a :: args =>
      match d_spel old, d_spel a with
      | Some o, Some n => if bool_decide (o = n) then Some a else old_arg_of old args
      | _, _ => old_arg_of old args
      end
  end.

Fixpoint replace_old_args (args : list decl) (old_args : list decl) : P unit :=
  match old_args with
  | [] => mret tt
  | o :: old_args =>
      _ ← (match type_is (ref_of o) kind_func, dinit o with
           | None, Some _ => fail (Die "parameter is initialised")
           | _, _ => mret tt
           end : P unit);
      _ ← (match old_arg_of o args with
           | Some a => decl_replace_with a o
           | None => fail (Die "no such parameter")
           end);
      replace_old_args args old_args
  end.

Definition check_and_replace_old_func (d : decl) (old_args : list decl) (sc : scope) : P unit :=
  fa ← decl_funcargs d;
  match fa with
  | None => fail (Ice "not func")
  | Some (_, fa) =>
      if negb (args_old_proto fa) then fail (Die "unexpected old-style decls")
      else if (length (arglist fa) <? length old_args)%nat then fail (Die "old-style function decl: too many decls")
      else _ ← replace_old_args (arglist fa) old_args; fold_funcargs fa sc (d_attr d)
  end.

(** [check_star_modifier_1] over the types of a parameter, decayed ones
    included. *)
Definition type_is_decayed_array (t : type) : option type :=
  match type_is t kind_ptr with Some (type_ptr _ from) => from | _ => None end.

Definition check_star_modifier_1 (t : type) : res bool :=
  match t with
  | type_array _ _ _ VLA_STAR => Ok true
  | type_array _ _ _ _ => Ok false
  | _ => Ice "t->type == type_array"
  end.

(** Whether the walk along [type_next] finds one; it does not look at an array
    right under a qualifier, an attribute or a name ([below]). *)
Fixpoint star_walk (below : bool) (t : type) : res bool :=
  match t with
  | type_array r _ _ VLA_STAR => if negb below then Ok true else star_walk false r
  | type_array r _ _ _ | type_ptr r _ | type_block r | type_func r _ _ _ _ => star_walk false r
  | type_cast r _ | type_attr r _ | type_where r | type_tdef _ _ r _ _ | type_typeof _ r => star_walk true r
  | type_btype _ => Ok false
  | type_auto => Ice "__auto_type"
  end.

Fixpoint check_star_modifier (ds : list decl) : P unit :=
  match ds with
  | [] => mret tt
  | d :: ds =>
      decayed ← (match type_is_decayed_array (ref_of d) with
                 | Some t => fail (check_star_modifier_1 t)
                 | None => mret false
                 end);
      found ← (if decayed : bool then mret true else fail (star_walk false (ref_of d)));
      _ ← (if found : bool then _ ← parse_error; fold_had_error else mret tt);
      check_star_modifier ds
  end.

(** The declarations of old-style parameters. *)
Fixpoint old_args_loop (n : nat) (sc : scope) : P (list decl) :=
  match n with
  | O => fail NoFuel
  | S n =>
      g ← group_ self DECL_MULTI_IS_OLD_ARGS false sc None;
      let ds := map fst g.2 in
      if g.1 : bool then rest ← old_args_loop n sc; mret (ds ++ rest) else mret ds
  end.

(** What follows a function's declarator: the declaration, and its code. *)
Definition parse_post_func (d : decl) (in_scope : scope) : P (decl * option stmt) :=
  t ← get_curtok;
  d ← (if bool_decide (t = token_asm) then
         d ← parse_add_asm keyword_mode junk f d;
         attrs ← parse_add_attr in_scope;
         mret (match attrs with [] => d | _ => set_ref d (Some (type_attributed (ref_of d) attrs)) end)
       else mret d);
  old ← is_old_func d;
  old_args ← (if old : bool then old_args_loop fuel in_scope else mret []);
  need_func ← (match old_args with
               | [] => mret false
               | _ => _ ← check_and_replace_old_func d old_args in_scope; mret true
               end);
  t ← get_curtok;
  if need_func || bool_decide (t = token_open_block) then
    match type_is (ref_of d) kind_func with
    | Some (type_func _ id _ _ _) =>
        w ← get_world;
        match arg_scope id w with
        | None => fail (Ub "null scope")
        | Some arg_symtab =>
            _ ← set_in_func arg_symtab d;
            w ← get_world;
            parent ← (match scope_parent arg_symtab w with Some p => mret p | None => fail (Ub "null scope") end);
            d ← fold_decl d parent;
            w ← get_world;
            _ ← check_star_modifier (symtab_decls arg_symtab w);
            code ← block_ self arg_symtab;
            _ ← set_func_code d code;
            _ ← set_args_void_implicit id;
            _ ← (if STORE_IS_TYPEDEF (store d) then _ ← parse_error; fold_had_error else mret tt);
            mret (d, Some code)
        end
    | _ => fail (Ice "function expected")
    end
  else mret (d, None).

(** [__attribute__] directly after a function that is not old-style. *)
Definition parse_decl_attr (d : decl) (sc : scope) : P decl :=
  t ← get_curtok;
  old ← is_old_func d;
  if bool_decide (t = token_attribute) && negb old then
    attrs ← parse_add_attr sc;
    mret (set_ref d (Some (type_attributed (ref_of d) attrs)))
  else mret d.

(** ** Groups *)

(** What [warn_for_unused_typename] does besides warning: a nameless function is
    an error. *)
Definition warn_for_unused_typename (d : decl) : P unit :=
  w ← get_world;
  if is_s_or_u_or_e (ref_of d) w then mret tt
  else match type_is (ref_of d) kind_func with
       | Some _ => _ ← parse_error; fold_had_error
       | None => mret tt
       end.

Definition error_on_unwanted_func (d : decl) (code : option stmt) (mode : Z) : P unit :=
  match type_is (ref_of d) kind_func with
  | None => mret tt
  | Some _ =>
      if is_some code && (Z.land mode DECL_MULTI_ACCEPT_FUNC_CODE =? 0)%Z then fail (Die "function code not wanted")
      else if (Z.land mode DECL_MULTI_ACCEPT_FUNC_DECL =? 0)%Z then fail (Die "function declaration not wanted")
      else mret tt
  end.

Definition parse_decl_check_complete (d : decl) (sc : scope) (is_member : bool) : P unit :=
  w ← get_world;
  if is_member || global_scope sc w || scope_are_params sc w then mret tt else fold_check_decl_complete d.

(** One round of the loop of [parse_decl_group]; [again] is whether there may be
    another, [last] the declaration before. *)
Definition group_decl (mode : Z) (bt : type) (st : Z) (align : list decl_align) (attrs : list attribute)
    (in_scope : scope) (add_to_scope : option scope) (last : bool) : P (decl * option stmt * bool) :=
  let member := allows mode DECL_MULTI_IS_STRUCT_UN_MEMB in
  d ← parse_decl_stored_aligned keyword_mode junk f fuel dcls bt
        (if allows mode DECL_MULTI_CAN_DEFAULT then DECL_CAN_DEFAULT else 0) st align attrs in_scope add_to_scope false;
  had_field_width ← (if allows mode DECL_MULTI_ACCEPT_FIELD_WIDTH then
                       colon ← accept token_colon;
                       if colon : bool then
                         e ← parse_expr_assignment in_scope false;
                         _ ← set_field_width d e;
                         mret true
                       else mret false
                     else mret false);
  d ← parse_decl_attr d in_scope;
  d ← fold_type_ondecl_w d in_scope false;
  let nameless := negb (is_some (d_spel d)) && negb had_field_width in
  _ ← (if nameless then
         if last then fail (Die "identifier expected for declaration") else warn_for_unused_typename d
       else mret tt);
  d ← (if is_some (d_spel d) && negb member then
         r ← link_to_previous_decl d in_scope; mret r.1
       else mret d);
  dc ← (match type_is (ref_of d) kind_func with
        | Some _ => parse_post_func d in_scope
        | None => mret (d, None)
        end);
  let '(d, code) := dc in
  _ ← fold_decl_attrs_requiring_fnbody d member;
  _ ← error_on_unwanted_func d code mode;
  d ← fold_decl_maybe_member d in_scope member;
  _ ← parse_decl_check_complete d in_scope member;
  mret (d, code, negb nameless).

(** The loop; it gives the declarations, and of the last whether it began with an
    identifier and whether it has code. *)
Fixpoint group_loop (n : nat) (mode : Z) (bt : type) (st : Z) (align : list decl_align) (attrs : list attribute)
    (in_scope : scope) (add_to_scope : option scope) (last : bool) : P (list (decl * option stmt) * bool * bool) :=
  match n with
  | O => fail NoFuel
  | S n =>
      t ← get_curtok;
      r ← group_decl mode bt st align attrs in_scope add_to_scope last;
      let '(d, code, again) := r in
      more ← (if again : bool then accept token_comma else mret false);
      if more : bool then
        rest ← group_loop n mode bt st align attrs in_scope add_to_scope true;
        mret ((d, code) :: rest.1.1, rest.1.2, rest.2)
      else mret ([(d, code)], bool_decide (t = token_identifier), is_some code)
  end.

Definition parse_decl_group (mode : Z) (newdecl : bool) (in_scope : scope) (add_to_scope : option scope) :
    P (bool * list (decl * option stmt)) :=
  a ← parse_add_attr_out in_scope;
  let flags := if a.2 : bool then Z.lor PARSE_BTYPE_AUTOTYPE PARSE_BTYPE_DEFAULT_INT else PARSE_BTYPE_AUTOTYPE in
  _ ← parse_static_assert in_scope;
  r ← parse_btype keyword_mode junk f fuel dcls parsers
        (if allows mode DECL_MULTI_ALLOW_STORE then Some (store_val store_default) else None)
        (if allows mode DECL_MULTI_ALLOW_ALIGNAS then Some [] else None) newdecl in_scope flags;
  let st := match r.1.2 with Some st => st | None => store_val store_default end in
  let align := match r.2 with Some al => al | None => [] end in
  bt ← (match r.1.1 with
        | Some bt => mret (Some bt)
        | None =>
            spec ← parse_at_decl_spec;
            mret (if negb spec || negb (allows mode DECL_MULTI_CAN_DEFAULT) then None else Some default_type)
        end);
  match bt with
  | None => mret (false, [])
  | Some bt =>
      let moved := move_typrop_attrs a.1 bt in
      l ← group_loop fuel mode moved.2 st align moved.1 in_scope add_to_scope false;
      let '(ds, at_plain_ident, code) := l in
      _ ← (if code : bool then mret tt
           else
             spec ← parse_at_decl_spec;
             if at_plain_ident && spec then fail (Die "unknown type name")
             else _ ← EAT token_semicolon; mret tt);
      mret (true, ds)
  end.

End functions.

End parse.
