(* ===== verification/ParseStmt.v ===== *)
(** * The parser of statements, and of files

    [src/src/cc1/parse_stmt.c], and the loop over a file's declarations of
    [pass1.c]: a function for each kind of statement, the declarations and
    statements of a block, with those after a statement in a block of their own
    inside. Source places and warnings are left out. *)

From S2P Require Import Prelude CStr StrLit Types Consts Token Tokconv Parse Declare ParseGroup.

Section parse.
Context `{Statements} (keyword_mode junk : Z) (f : nat).

Local Abbreviation EAT := (EAT keyword_mode junk f).
Local Abbreviation accept := (accept keyword_mode junk f).
Local Abbreviation identifier := (identifier keyword_mode junk f).

(** ** Contexts *)

Definition in_scope (sc : scope) (ctx : stmt_ctx) : stmt_ctx :=
  mk_stmt_ctx (continue_target ctx) (break_target ctx) (switch_target ctx) sc (parsing_unbraced_if ctx) (ctx_level ctx).
Definition unbraced_if (b : bool) (ctx : stmt_ctx) : stmt_ctx :=
  mk_stmt_ctx (continue_target ctx) (break_target ctx) (switch_target ctx) (ctx_scope ctx) b (ctx_level ctx).
(** Inside a loop, or a switch. *)
Definition in_loop (ctx : stmt_ctx) : stmt_ctx :=
  mk_stmt_ctx (Some (ctx_level ctx)) (Some (ctx_level ctx)) (switch_target ctx) (ctx_scope ctx) (parsing_unbraced_if ctx)
    (S (ctx_level ctx)).
Definition in_switch (ctx : stmt_ctx) : stmt_ctx :=
  mk_stmt_ctx (continue_target ctx) (Some (ctx_level ctx)) (Some (ctx_level ctx)) (ctx_scope ctx) (parsing_unbraced_if ctx)
    (S (ctx_level ctx)).
(** [memset(&subctx, 0, sizeof subctx)]. *)
Definition no_ctx (sc : scope) : stmt_ctx := mk_stmt_ctx None None None sc false 0.

Section functions.
Context (fuel : nat) (self : bodies) (dcls : declarers) (parsers : parsers).

Local Abbreviation parse_add_attr := (parse_add_attr keyword_mode junk f fuel).
Local Abbreviation parse_add_attr_out := (parse_add_attr_out keyword_mode junk f fuel).
Local Abbreviation parse_at_decl := (parse_at_decl keyword_mode junk f fuel).
Local Abbreviation parse_expr_exp := (parse_expr_exp keyword_mode junk f fuel parsers).
Local Abbreviation parse_expr_assignment := (parse_expr_assignment keyword_mode junk f fuel parsers).
Local Abbreviation parse_decl := (parse_decl keyword_mode junk f fuel dcls parsers).
Local Abbreviation parse_static_assert := (parse_static_assert keyword_mode junk f fuel parsers).

(** ** Statements with a condition *)

(** The parenthesised test; it gives the statement's [symtab] and the test. *)
Definition parse_test_init_expr (symtab : scope) : P (scope * expr) :=
  _ ← EAT token_open_paren;
  sc ← (if cc1_std_c99 then symtab_new symtab false else symtab_new_transparent symtab);
  at_decl ← parse_at_decl sc true;
  r ← (if at_decl : bool then
         init_scope ← symtab_new sc false;
         d ← parse_decl DECL_SPEL_NEED false init_scope (Some init_scope);
         match d with
         | None => fail (Ice "at decl, but no decl?")
         | Some d =>
             _ ← flow_fold init_scope;
             semi ← accept token_semicolon;
             if semi : bool then e ← parse_expr_exp init_scope false; mret (init_scope, e)
             else match d_spel d with
                  | Some sp => mret (init_scope, expr_identifier sp)
                  | None => fail (Ice "NULL spel for identifier")
                  end
         end
       else e ← parse_expr_exp sc false; mret (sc, e));
  e ← fold_expr r.2 r.1;
  _ ← EAT token_close_paren;
  mret (r.1, e).

Definition parse_if (ctx : stmt_ctx) : P stmt :=
  _ ← EAT token_if;
  t ← get_curtok;
  r ← parse_test_init_expr (ctx_scope ctx);
  let subctx := in_scope r.1 (unbraced_if (negb (bool_decide (t = token_open_block))) ctx) in
  lhs ← stmt_ self subctx;
  els ← accept token_else;
  if els : bool then
    rhs ← stmt_ self (unbraced_if false subctx);
    mret (stmt_if r.1 r.2 lhs (Some rhs))
  else mret (stmt_if r.1 r.2 lhs None).

Definition parse_switch (ctx : stmt_ctx) : P stmt :=
  _ ← EAT token_switch;
  r ← parse_test_init_expr (ctx_scope ctx);
  lhs ← stmt_ self (in_scope r.1 (in_switch ctx));
  mret (stmt_switch r.1 (ctx_level ctx) r.2 lhs).

Definition parse_do (ctx : stmt_ctx) : P stmt :=
  _ ← EAT token_do;
  lhs ← stmt_ self (in_loop ctx);
  _ ← EAT token_while;
  _ ← EAT token_open_paren;
  e ← parse_expr_exp (ctx_scope ctx) false;
  e ← fold_expr_nodecay e (ctx_scope ctx);
  _ ← EAT token_close_paren;
  _ ← EAT token_semicolon;
  mret (stmt_do (ctx_scope ctx) (ctx_level ctx) e lhs).

Definition parse_while (ctx : stmt_ctx) : P stmt :=
  _ ← EAT token_while;
  r ← parse_test_init_expr (ctx_scope ctx);
  lhs ← stmt_ self (in_scope r.1 (in_loop ctx));
  mret (stmt_while r.1 (ctx_level ctx) r.2 lhs).

(** The second and third expressions of a [for]. *)
Definition for_expr (t : token) (sc : scope) : P (option expr) :=
  got ← accept t;
  if got : bool then mret None
  else
    e ← parse_expr_exp sc false;
    e ← fold_expr e sc;
    _ ← EAT t;
    mret (Some e).

(** The first part of a [for], whose scope is [init_scope]: the statement's
    [symtab], which was [symtab], and the expression. *)
Definition for_first (symtab init_scope : scope) : P (scope * option expr) :=
  got ← accept token_semicolon;
  if got : bool then mret (symtab, None)
  else
    g ← group_ self (Z.lor DECL_MULTI_ALLOW_ALIGNAS DECL_MULTI_ALLOW_STORE) true init_scope (Some init_scope);
    if g.1 : bool then _ ← flow_fold init_scope; mret (init_scope, None)
    else
      e ← parse_expr_exp init_scope false;
      _ ← flow_fold init_scope;
      e ← fold_expr e init_scope;
      _ ← EAT token_semicolon;
      mret (init_scope, Some e).

Definition parse_for (ctx : stmt_ctx) : P stmt :=
  _ ← EAT token_for;
  _ ← EAT token_open_paren;
  init_scope ← symtab_new (ctx_scope ctx) false;
  first ← for_first (ctx_scope ctx) init_scope;
  for_while ← for_expr token_semicolon init_scope;
  for_inc ← for_expr token_close_paren init_scope;
  lhs ← stmt_ self (in_scope init_scope (in_loop ctx));
  mret (stmt_for first.1 (ctx_level ctx) first.2 for_while for_inc lhs).

(** ** Labels *)

Definition parse_label (ctx : stmt_ctx) : P stmt :=
  lbl ← on_lexer (token_eat_identifier keyword_mode junk f (Some DUMMY_IDENTIFIER));
  _ ← EAT token_colon;
  attr ← parse_add_attr (ctx_scope ctx);
  lhs ← stmt_ self ctx;
  mret (stmt_label (ctx_scope ctx) lbl (is_some (attr_present attr attr_unused)) lhs).

Fixpoint local_label_names (n : nat) (ctx : stmt_ctx) : P unit :=
  match n with
  | O => fail NoFuel
  | S n =>
      spel ← on_lexer (token_eat_identifier keyword_mode junk f None);
      match spel with
      | None => mret tt
      | Some spel =>
          created ← symtab_label_add_local (ctx_scope ctx) spel;
          _ ← (if created : bool then mret tt else _ ← parse_error; fold_had_error);
          semi ← accept token_semicolon;
          if semi : bool then mret tt else _ ← EAT token_comma; local_label_names n ctx
      end
  end.

Fixpoint local_labels_loop (n : nat) (ctx : stmt_ctx) : P unit :=
  match n with
  | O => fail NoFuel
  | S n =>
      got ← accept token___label__;
      if got : bool then _ ← local_label_names fuel ctx; local_labels_loop n ctx else mret tt
  end.

Definition parse_local_labels (ctx : stmt_ctx) : P unit := local_labels_loop fuel ctx.

(** ** One statement *)

(** The attributes before a statement. *)
Definition apply_stmt_attrs (s : stmt) (attrs : list attribute) : P stmt :=
  if negb (is_some (attr_present attrs attr_fallthrough)) then mret s
  else
    match s with
    | stmt_noop sc _ =>
        t ← get_curtok;
        _ ← (match t with
             | token_case | token_default => mret tt
             | _ =>
                 at_label ← tok_at_label;
                 if at_label : bool then mret tt else _ ← parse_error; fold_had_error
             end);
        mret (stmt_noop sc true)
    | _ => _ ← parse_error; _ ← fold_had_error; mret s
    end.

(** [break], [continue], [return] and [goto], before the semicolon. *)
Definition jump_stmt (ctx : stmt_ctx) : P stmt :=
  let sc := ctx_scope ctx in
  brk ← accept token_break;
  if brk : bool then mret (stmt_break sc (break_target ctx))
  else
    cont ← accept token_continue;
    if cont : bool then mret (stmt_continue sc (continue_target ctx))
    else
      ret ← accept token_return;
      if ret : bool then
        t ← get_curtok;
        if bool_decide (t = token_semicolon) then mret (stmt_return sc None)
        else
          e ← parse_expr_exp sc false;
          e ← fold_expr_nodecay e sc;
          mret (stmt_return sc (Some e))
      else
        _ ← EAT token_goto;
        star ← accept token_multiply;
        if star : bool then e ← parse_expr_exp sc false; mret (stmt_goto_computed sc e)
        else
          sp ← identifier;
          match sp with
          | Some (Some sp) => mret (stmt_goto sc (Some sp))
          | Some None => fail (Ice "spel")
          | None => fail (Ub "uninitialised spel")
          end.

Definition parse_jump (ctx : stmt_ctx) : P stmt :=
  s ← jump_stmt ctx;
  _ ← EAT token_semicolon;
  mret s.

Definition parse_case (ctx : stmt_ctx) : P stmt :=
  let sc := ctx_scope ctx in
  _ ← EAT token_case;
  a ← parse_expr_assignment sc false;
  range ← accept token_elipsis;
  if range : bool then
    b ← parse_expr_assignment sc false;
    _ ← EAT token_colon;
    lhs ← stmt_ self ctx;
    mret (stmt_case_range sc (switch_target ctx) a b lhs)
  else
    _ ← EAT token_colon;
    lhs ← stmt_ self ctx;
    mret (stmt_case sc (switch_target ctx) a lhs).

Definition parse_default (ctx : stmt_ctx) : P stmt :=
  _ ← EAT token_default;
  _ ← EAT token_colon;
  lhs ← stmt_ self ctx;
  mret (stmt_default (ctx_scope ctx) (switch_target ctx) lhs).

Definition parse_expr_stmt (ctx : stmt_ctx) : P stmt :=
  e ← parse_expr_exp (ctx_scope ctx) false;
  e ← fold_stmt_expr e (ctx_scope ctx);
  _ ← EAT token_semicolon;
  mret (stmt_expr (ctx_scope ctx) e).

(** [parse_stmt_block] with a context. *)
Definition parse_stmt_block_in (ctx : stmt_ctx) : P stmt :=
  _ ← EAT token_open_block;
  t ← stmt_and_decls_ self ctx false [];
  _ ← EAT token_close_block;
  mret t.

(** The statement that begins with the token. *)
Definition parse_stmt_kind (ctx : stmt_ctx) (t : token) : P stmt :=
  match t with
  | token_semicolon => _ ← EAT token_semicolon; mret (stmt_noop (ctx_scope ctx) false)
  | token_break | token_continue | token_goto | token_return => parse_jump ctx
  | token_if => parse_if ctx
  | token_while => parse_while ctx
  | token_do => parse_do ctx
  | token_for => parse_for ctx
  | token_open_block => parse_stmt_block_in (unbraced_if false ctx)
  | token_switch => parse_switch ctx
  | token_default => parse_default ctx
  | token_case => parse_case ctx
  | _ =>
      label ← (if bool_decide (t = token_identifier) then tok_at_label else mret false);
      if label : bool then parse_label ctx else parse_expr_stmt ctx
  end.

Definition parse_stmt_with_attrs (ctx : stmt_ctx) (attrs : list attribute) : P stmt :=
  a ← parse_add_attr (ctx_scope ctx);
  t ← get_curtok;
  s ← parse_stmt_kind ctx t;
  apply_stmt_attrs s (attrs ++ a).

Definition parse_stmt (ctx : stmt_ctx) : P stmt := parse_stmt_with_attrs ctx [].

(** ** Blocks *)

(** The declarations a block begins with; [attr] is given to those of the first
    group. It gives whether there were any, and the attributes left. *)
Fixpoint block_groups (n : nat) (sub : stmt_ctx) (attr : list attribute) (got_attribute got_decls : bool) :
    P (bool * list attribute) :=
  match n with
  | O => fail NoFuel
  | S n =>
      g ← group_ self
            (Z.lor (Z.lor DECL_MULTI_ACCEPT_FUNC_DECL (Z.lor DECL_MULTI_ALLOW_STORE DECL_MULTI_ALLOW_ALIGNAS))
               (if got_attribute then DECL_MULTI_CAN_DEFAULT else 0))
            true (ctx_scope sub) (Some (ctx_scope sub));
      _ ← (match attr with
           | [] => mret tt
           | _ => foldr (fun d rest => _ ← decl_changed (set_attr d (d_attr d ++ attr)); rest) (mret tt : P unit) (map fst g.2)
           end);
      if g.1 : bool then block_groups n sub [] false true else mret (got_decls, attr)
  end.

(** The statements of a block, up to its end or the next declaration ([true]),
    and the attributes left. *)
Fixpoint block_stmts (n : nat) (ctx sub : stmt_ctx) (attr : list attribute) (stmts : list stmt) :
    P (list stmt * bool * list attribute) :=
  match n with
  | O => fail NoFuel
  | S n =>
      a1 ← parse_add_attr_out (ctx_scope ctx);
      asserted ← parse_static_assert (ctx_scope sub);
      attr ← (if asserted && a1.2 then _ ← parse_error; _ ← fold_had_error; (mret [] : P (list attribute)) else mret (attr ++ a1.1));
      a2 ← parse_add_attr_out (ctx_scope ctx);
      let attr := attr ++ a2.1 in
      let got_attribute : bool := a2.2 in
      t ← get_curtok;
      label ← (if bool_decide (t = token_identifier) then tok_at_label else mret false);
      if label : bool then
        this ← parse_label sub;
        attr ← (if got_attribute then _ ← parse_error; _ ← fold_had_error; (mret [] : P (list attribute)) else mret attr);
        block_stmts n ctx sub attr (stmts ++ [this])
      else if bool_decide (t = token_close_block) then
        if got_attribute then fail (Ice "!got_attribute") else mret (stmts, false, attr)
      else
        at_decl ← parse_at_decl (ctx_scope sub) false;
        if at_decl : bool then
          if got_attribute then fail (Ice "!got_attribute") else mret (stmts, true, attr)
        else
          this ← parse_stmt_with_attrs sub attr;
          block_stmts n ctx sub [] (stmts ++ [this])
  end.

Definition parse_stmt_and_decls (ctx : stmt_ctx) (nested_scope : bool) (attr : list attribute) : P stmt :=
  symtab ← symtab_new (ctx_scope ctx) false;
  _ ← set_internal_nest symtab nested_scope;
  let sub := in_scope symtab ctx in
  _ ← parse_local_labels sub;
  _ ← parse_static_assert symtab;
  a ← parse_add_attr_out (ctx_scope ctx);
  let attr := attr ++ a.1 in
  at_decl ← parse_at_decl (ctx_scope ctx) false;
  t ← get_curtok;
  g ← (if at_decl || (a.2 && negb (bool_decide (t = token_semicolon))) then block_groups fuel sub attr a.2 false
       else mret (false, attr));
  _ ← (if g.1 : bool then fold_shadow_dup_check_block_decls symtab else mret tt);
  t ← get_curtok;
  stmts ← (if bool_decide (t = token_close_block) then (mret [] : P (list stmt))
           else
             r ← block_stmts fuel ctx sub g.2 [];
             let '(stmts, at_decl, attr) := r in
             if at_decl : bool then
               match stmts with
               | [] => fail (Ice "got another decl - should've been handled already")
               | _ => nest ← stmt_and_decls_ self sub true attr; mret (stmts ++ [nest])
               end
             else mret stmts);
  mret (stmt_code symtab nested_scope stmts).

Definition parse_stmt_block (sc : scope) : P stmt := parse_stmt_block_in (no_ctx sc).

(** ** Files *)

Definition parse_gasm : P (option cstr) :=
  _ ← EAT token_open_paren;
  c ← parse_asciz_str;
  match c with
  | None => mret None
  | Some c =>
      t ← fail (cstring_text c);
      _ ← EAT token_string;
      _ ← EAT token_close_paren;
      _ ← EAT token_semicolon;
      mret (Some t)
  end.

(** [last_gasms] with those read, and whether there were any. A [symtable_gasm]
    is known by its number. *)
Fixpoint parse_add_gasms (n : nat) (last_gasms : list (nat * cstr)) (next : nat) : P (list (nat * cstr) * nat * bool) :=
  match n with
  | O => fail NoFuel
  | S n =>
      got ← accept token_asm;
      if got : bool then
        g ← parse_gasm;
        r ← (match g with
             | Some g => parse_add_gasms n (last_gasms ++ [(next, g)]) (S next)
             | None => parse_add_gasms n last_gasms next
             end);
        mret (r.1, true)
      else mret (last_gasms, next, false)
  end.

Fixpoint link_gasms (last_gasms : list (nat * cstr)) (prev : decl) : P unit :=
  match last_gasms with
  | [] => mret tt
  | g :: gs => _ ← gasm_before g.1 prev; link_gasms gs prev
  end.

Fixpoint accept_semicolons (n : nat) (cont : bool) : P bool :=
  match n with
  | O => fail NoFuel
  | S n => got ← accept token_semicolon; if got : bool then accept_semicolons n true else mret cont
  end.

Fixpoint fold_decls (ds : list decl) : P unit :=
  match ds with
  | [] => mret tt
  | d :: ds => _ ← fold_decl_global d globals; fold_decls ds
  end.

(** The loop of [parse_and_fold]; the declarations of the file, in order, and
    [globals->gasms]. *)
Fixpoint parse_file_loop (n : nat) (last_gasms gasms : list (nat * cstr)) (next : nat) :
    P (list (decl * option stmt) * list (nat * cstr)) :=
  match n with
  | O => fail NoFuel
  | S n =>
      t ← get_curtok;
      if bool_decide (t = token_eof) then mret ([], gasms)
      else
        g ← group_ self
              (Z.lor (Z.lor DECL_MULTI_CAN_DEFAULT DECL_MULTI_ACCEPT_FUNC_CODE)
                 (Z.lor DECL_MULTI_ALLOW_STORE DECL_MULTI_ALLOW_ALIGNAS)) true globals (Some globals);
        _ ← symtab_fold_sues globals;
        last_gasms ← (match g.2 with
                      | [] => mret last_gasms
                      | (d, _) :: _ => _ ← link_gasms last_gasms d; _ ← fold_decls (map fst g.2); (mret [] : P (list (nat * cstr)))
                      end);
        r ← parse_add_gasms fuel last_gasms next;
        let '(last_gasms, next, got) := r in
        let gasms := gasms ++ last_gasms in
        cont ← accept_semicolons fuel (g.1 || match g.2 with [] => false | _ => true end || got);
        if cont : bool then
          rest ← parse_file_loop n last_gasms gasms next;
          mret (g.2 ++ rest.1, rest.2)
        else mret (g.2, gasms)
  end.

Definition parse_and_fold : P (list (decl * option stmt) * list (nat * cstr)) :=
  r ← parse_file_loop fuel [] [] 0;
  _ ← EAT token_eof;
  _ ← fold_globals globals;
  mret r.

End functions.

(** ** Tied together *)

Definition no_bodies : bodies :=
  mk_bodies (fun _ => fail NoFuel) (fun _ _ _ => fail NoFuel) (fun _ => fail NoFuel) (fun _ _ _ _ => fail NoFuel).

(** [bodies_at n] may nest [n] deep. *)
Fixpoint bodies_at (n : nat) : bodies :=
  match n with
  | O => no_bodies
  | S n =>
      let self := bodies_at n in
      let ds := declarers_at keyword_mode junk f n in
      let ps := parsers_at keyword_mode junk f n in
      mk_bodies (parse_stmt n self ds ps) (parse_stmt_and_decls n self ds ps) (parse_stmt_block self)
        (parse_decl_group keyword_mode junk f n self ds ps)
  end.

End parse.
