(* ===== verification/Grouping.v ===== *)
(** * What a group of declarations declares

    The grammar of declarations (6.7) that share their specifiers, over the
    declarators of [Declarator], and the parser of [ParseGroup] reading exactly
    their tokens. *)

From S2P Require Import Prelude CStr StrLit Escape Types Consts Token Tokconv Parse Parsing Declare Declaring Declarator ParseGroup.

Definition is_func_type (t : type) : bool := is_some (type_is t kind_func).

Lemma is_func_plain (t : type) : is_func_type (plain t) = is_func_type t.
Proof. induction t; done. Qed.

Lemma type_is_func (t u : type) : type_is t kind_func = Some u ->
  exists ref id void variadic args, u = type_func ref id void variadic args.
Proof.
  unfold type_is. intros E. destruct (decide (kind (type_skip_all t) = kind_func)) as [K|]; [|done].
  injection E as <-. destruct (type_skip_all t); try discriminate K. by eexists _, _, _, _, _.
Qed.

(** ** The rest of the compiler *)

(** An operation that changes the world only. *)
Definition quiet `{Grammar} (m : P unit) : Prop := forall s w, exists w', m (s, w) = Ok ((s, w'), tt).

(** What the rest of the compiler does for statements and groups without
    mistakes: folding gives an expression the form [nodecay] or, as a statement,
    [effect], and keeps a declaration's name, storage and type; the arguments of
    every function type have a scope, inside another, and are not old-style. *)
Class CalmStatements `{Statements} (fine : type -> Prop) (nodecay effect : expr -> expr) : Prop := mk_calm_statements {
  calm_transparent : forall sc s w, exists w' sc', symtab_new_transparent sc (s, w) = Ok ((s, w'), sc');
  calm_nest : forall sc b, quiet (set_internal_nest sc b);
  calm_flow : forall sc, quiet (flow_fold sc);
  calm_shadow : forall sc, quiet (fold_shadow_dup_check_block_decls sc);
  calm_nodecay : forall e sc s w, exists w', fold_expr_nodecay e sc (s, w) = Ok ((s, w'), nodecay e);
  calm_effect : forall e sc s w, exists w', fold_stmt_expr e sc (s, w) = Ok ((s, w'), effect e);
  no_old : forall id w fa, funcargs_of id w = Some fa -> funcargs_is_old_func fa = false;
  has_arg_scope : forall id w, exists sc, arg_scope id w = Some sc /\ forall w', is_Some (scope_parent sc w');
  calm_in_func : forall sc d, quiet (set_in_func sc d);
  calm_implicit : forall id, quiet (set_args_void_implicit id);
  calm_code : forall d code, quiet (set_func_code d code);
  no_stars : forall sc s w, check_star_modifier (symtab_decls sc w) (s, w) = Ok ((s, w), tt);
  calm_link : forall d sc s w, exists w' d' b, link_to_previous_decl d sc (s, w) = Ok ((s, w'), (d', b))
    /\ d_spel d' = d_spel d /\ d_ref d' = d_ref d /\ store d' = store d;
  calm_attrs_body : forall d b, quiet (fold_decl_attrs_requiring_fnbody d b);
  calm_member : forall d sc b s w, fine (plain (ref_of d)) ->
    exists w', fold_decl_maybe_member d sc b (s, w) = Ok ((s, w'), d);
  calm_complete : forall d, quiet (fold_check_decl_complete d);
  calm_sues : forall sc, quiet (symtab_fold_sues sc);
  calm_global : forall d sc, quiet (fold_decl_global d sc);
  calm_globals : forall sc, quiet (fold_globals sc)
}.

(** ** The grammar *)

Section grammar.
Context `{Declarations} (builtin_name : cstr -> bool) (folded : expr -> expr) (fine : type -> Prop).

(** Declarators with a comma in between, after specifiers that name [T]. *)
Inductive declarators (T : type) : list ptok -> list (cstr * type) -> Prop :=
  | declarators_one ts x T' :
      declares builtin_name folded fine ts T (Some x) T' -> fine T' -> declarators T ts [(x, T')]
  | declarators_more ts x T' ts' l :
      declares builtin_name folded fine ts T (Some x) T' -> fine T' -> declarators T ts' l ->
      declarators T (ts ++ PTok token_comma :: ts') ((x, T') :: l).

(** A declaration: the names it declares, with their storage and types. *)
Inductive group : list ptok -> list (cstr * Z * type) -> Prop :=
  | group_intro specs p ts l :
      specifies specs p -> storage_ok DECL_ALLOW_STORE specs -> declarators (plain (basic p (quals_of specs))) ts l ->
      group (map PTok specs ++ ts ++ [PTok token_semicolon]) (map (fun x => (x.1, storage_of specs, x.2)) l).

End grammar.

Section groups.
Context `{Statements} (keyword_mode junk : Z) (f : nat) (builtin_name : cstr -> bool).
Context (folded nodecay effect : expr -> expr) (fine : type -> Prop) {Quiet : Calm folded fine}
  {Still : CalmStatements fine nodecay effect}.
Hypothesis no_types :
  forall sc st, curtok st.1 ∈ starts -> spelled st.1 -> Parse.parse_type sc st = Ok (st, None).
Hypothesis no_builtins : forall sp sc st, builtin_name sp = false -> builtin_parse sp sc st = Ok (st, None).

Local Abbreviation good := (good keyword_mode junk f).
Local Abbreviation declares := (declares builtin_name folded fine).
Local Abbreviation declarators := (declarators builtin_name folded fine).
Local Abbreviation D := (declarers_at keyword_mode junk f).
Local Abbreviation PS := (parsers_at keyword_mode junk f).

(** *** Functions *)

Lemma world_ok (s : lexer) (w : world) : get_world (s, w) = Ok ((s, w), w).
Proof. done. Qed.

Lemma decl_funcargs_quiet (d : decl) (s : lexer) (w : world) :
  exists r, decl_funcargs d (s, w) = Ok ((s, w), r) /\ forall id fa, r = Some (id, fa) -> funcargs_is_old_func fa = false.
Proof using Still.
  unfold decl_funcargs. destruct (type_is (ref_of d) kind_func) as [u|] eqn:E; [|by eexists].
  apply type_is_func in E as (ref & id & void & variadic & args & ->). eexists. split; [by step (world_ok s w)|].
  intros id' fa. destruct (funcargs_of id w) as [fa'|] eqn:Ef; [|done]. intros [= <- <-]. by eapply no_old.
Qed.

Lemma is_old_no (d : decl) (s : lexer) (w : world) : is_old_func d (s, w) = Ok ((s, w), false).
Proof using Still.
  destruct (decl_funcargs_quiet d s w) as (r & E & Hr). unfold is_old_func. step E.
  destruct r as [[id fa]|]; [|done]. by rewrite (Hr id fa eq_refl).
Qed.

Lemma decl_attr_none (n : nat) (d : decl) (sc : scope) (s : lexer) (w : world) (ts : list ptok) :
  good s ts -> head_kind ts <> token_attribute ->
  parse_decl_attr keyword_mode junk f n d sc (s, w) = Ok ((s, w), d).
Proof using Still.
  intros [_ Hy] Hna. unfold parse_decl_attr. step (curtok_ok _ _ _ s w _ Hy). step (is_old_no d s w).
  by rewrite bool_decide_eq_false_2.
Qed.

(** After the declarator of a function, where its code may be. *)
Lemma post_func_start (n : nat) (self : bodies) (d : decl) (sc : scope) (s : lexer) (w : world) (ts : list ptok) :
  good s ts -> head_kind ts <> token_asm -> head_kind ts <> token_open_block ->
  parse_post_func keyword_mode junk f n self d sc (s, w) = Ok ((s, w), (d, None)).
Proof using Still.
  intros [_ Hy] Hasm Hb. unfold parse_post_func. step (curtok_ok _ _ _ s w _ Hy).
  rewrite bool_decide_eq_false_2 by done.
  assert (E0 : (mret d : P decl) (s, w) = Ok ((s, w), d)) by done. step E0. step (is_old_no d s w).
  assert (E1 : (mret [] : P (list decl)) (s, w) = Ok ((s, w), [])) by done. step E1.
  assert (E2 : (mret false : P bool) (s, w) = Ok ((s, w), false)) by done. step E2.
  step (curtok_ok _ _ _ s w _ Hy). by rewrite bool_decide_eq_false_2.
Qed.

(** *** A declaration of a group *)

Definition declared (d : decl) (x : cstr * Z * type) : Prop :=
  d_spel d = Some x.1.1 /\ store d = x.1.2 /\ plain (ref_of d) = x.2.

Definition declared_no_code (dc : decl * option stmt) (x : cstr * Z * type) : Prop := declared dc.1 x /\ dc.2 = None.

(** The modes that declarations outside structs are read in. *)
Definition group_mode (mode : Z) (T : type) : Prop :=
  allows mode DECL_MULTI_ACCEPT_FIELD_WIDTH = false
  /\ (is_func_type T = true -> Z.land mode DECL_MULTI_ACCEPT_FUNC_DECL <> 0).

Lemma ref_of_eq (d d' : decl) : d_ref d' = d_ref d -> ref_of d' = ref_of d.
Proof. unfold ref_of. by intros ->. Qed.

Lemma func_kind (d : decl) (T : type) : plain (ref_of d) = T -> is_some (type_is (ref_of d) kind_func) = is_func_type T.
Proof. intros <-. by rewrite is_func_plain. Qed.

(** What is done with a declaration once its tokens are read. *)
Lemma group_decl_ends (mode : Z) (d : decl) (code : option stmt) (sc : scope) (s : lexer) (w : world) :
  fine (plain (ref_of d)) -> group_mode mode (plain (ref_of d)) ->
  (is_some code = true -> Z.land mode DECL_MULTI_ACCEPT_FUNC_CODE <> 0) ->
  exists w',
    (_ ← fold_decl_attrs_requiring_fnbody d false;
     _ ← error_on_unwanted_func d code mode;
     d ← fold_decl_maybe_member d sc false;
     _ ← parse_decl_check_complete d sc false;
     mret (d, code, true)) (s, w) = Ok ((s, w'), (d, code, true)).
Proof using Still.
  intros Hf [_ Hm] Hc. destruct (calm_attrs_body d false s w) as [w1 E1]. step E1.
  assert (E2 : error_on_unwanted_func d code mode (s, w1) = Ok ((s, w1), tt)).
  { unfold error_on_unwanted_func. pose proof (func_kind d _ eq_refl) as K.
    destruct (type_is (ref_of d) kind_func) as [u|]; [|done].
    rewrite (proj2 (Z.eqb_neq (Z.land mode DECL_MULTI_ACCEPT_FUNC_DECL) 0) (Hm (eq_sym K))).
    destruct (is_some code); [|done]. by rewrite (proj2 (Z.eqb_neq _ 0) (Hc eq_refl)). }
  step E2. destruct (calm_member d sc false s w1 Hf) as [w2 E3]. step E3.
  unfold parse_decl_check_complete at 1.
  assert (E4 : exists w3, parse_decl_check_complete d sc false (s, w2) = Ok ((s, w3), tt)).
  { unfold parse_decl_check_complete. destruct (calm_complete d s w2) as [w3 E].
    destruct (global_scope sc w2) eqn:G; [exists w2|]; [step (world_ok s w2); by rewrite G|].
    destruct (scope_are_params sc w2) eqn:A; [exists w2|exists w3]; step (world_ok s w2); by rewrite G, A. }
  destruct E4 as [w3 E4]. exists w3. unfold parse_decl_check_complete in E4. by step E4.
Qed.

(** The part of [group_decl] up to a function's code. *)
Lemma group_decl_reads (n : nat) (self : bodies) (mode : Z) (bt : type) (st : Z) (sc : scope) (asc : option scope) (last : bool)
    (ts : list ptok) (x : cstr) (T : type) (s : lexer) (w : world) (rest : list ptok) :
  type_skip_all bt <> type_auto -> Z.land st STORE_MASK_STORE <> store_val store_auto ->
  declares ts (plain bt) (Some x) T -> fine T -> group_mode mode T -> (S (length ts) < n)%nat ->
  good s (ts ++ rest) -> ends_declarator (head_kind rest) = true ->
  exists s1 w1 d, good s1 rest /\ declared d (x, st, T)
    /\ forall dc, (if is_func_type T then parse_post_func keyword_mode junk f n self d sc else mret (d, None)) (s1, w1) = dc ->
       group_decl keyword_mode junk f n self (D n) (PS n) mode bt st [] [] sc asc last (s, w)
       = (dc ≫= fun r => (let '(d, code) := r.2 in
            _ ← fold_decl_attrs_requiring_fnbody d false;
            _ ← error_on_unwanted_func d code mode;
            d ← fold_decl_maybe_member d sc false;
            _ ← parse_decl_check_complete d sc false;
            mret (d, code, true)) r.1).
Proof using Quiet Still no_types no_builtins.
  intros Hauto Hst Hd Hf [Hw Hm] Hn Hg Hr. 
  destruct (stored_reads keyword_mode junk f builtin_name folded fine n bt
      (if allows mode DECL_MULTI_CAN_DEFAULT then DECL_CAN_DEFAULT else 0) st sc asc false ts (Some x) T s w rest Hauto Hst Hd) as
    (s1 & w1 & d & Ed & Hg1 & Hnm & Hstd & HT & _ & _); [by apply (declares_reads keyword_mode junk f builtin_name folded fine no_types no_builtins)|done..|].
  assert (Hf1 : fine (plain (ref_of d))) by (by rewrite HT).
  destruct (calm_ondecl d sc false s1 w1 Hf1) as [w2 Eo].
  destruct (calm_link d sc s1 w2) as (w3 & d' & b & El & Hnm' & Href & Hst').
  exists s1, w3, d'. split; [done|]. split.
  { split_and!; [by rewrite Hnm', Hnm|by rewrite Hst', Hstd|by rewrite (ref_of_eq _ _ Href)]. }
  intros dc Edc. unfold group_decl, DECL_MULTI_IS_STRUCT_UN_MEMB.
  change 2 with DECL_MULTI_ACCEPT_FIELD_WIDTH. step Ed. rewrite Hw.
  assert (E0 : (mret false : P bool) (s1, w1) = Ok ((s1, w1), false)) by done. step E0.
  assert (Hna : head_kind rest <> token_attribute) by (by destruct (head_kind rest)).
  step (decl_attr_none n d sc s1 w1 rest Hg1 Hna). step Eo. rewrite Hnm. cbn [is_some negb andb].
  assert (E1 : (mret tt : P unit) (s1, w2) = Ok ((s1, w2), tt)) by done. step E1.
  assert (E2 : (r ← link_to_previous_decl d sc; mret r.1) (s1, w2) = Ok ((s1, w3), d')) by (by step El). step E2.
  replace (match type_is (ref_of d') kind_func with Some _ => parse_post_func keyword_mode junk f n self d' sc | None => mret (d', None) end)
    with (if is_func_type T then parse_post_func keyword_mode junk f n self d' sc else mret (d', None)).
  - unfold mbind at 1, P_bind. by rewrite Edc.
  - rewrite <- (func_kind d' T) by (by rewrite (ref_of_eq _ _ Href)). by destruct (type_is (ref_of d') kind_func).
Qed.

Lemma no_asserts (n : nat) (ps : parsers) (sc : scope) (s : lexer) (w : world) (ts : list ptok) :
  good s ts -> head_kind ts <> token__Static_assert ->
  parse_static_assert keyword_mode junk f (S n) ps sc (s, w) = Ok ((s, w), false).
Proof.
  intros [_ Hy] Hna. unfold parse_static_assert. cbn [static_assert_loop]. by step (accept_no _ _ _ s w _ ts Hy Hna).
Qed.

(** *** Several declarations *)

Definition with_store (st : Z) (x : cstr * type) : cstr * Z * type := (x.1, st, x.2).

Lemma group_loop_reads (T : type) (ts : list ptok) (l : list (cstr * type)) :
  declarators T ts l -> forall (n j : nat) (self : bodies) (mode : Z) (bt : type) (st : Z) (sc : scope) (asc : option scope)
    (last : bool) (s : lexer) (w : world) (rest : list ptok),
  plain bt = T -> type_skip_all bt <> type_auto -> Z.land st STORE_MASK_STORE <> store_val store_auto ->
  Forall (fun x => group_mode mode x.2) l ->
  (S (length ts) < n)%nat -> (length ts < j)%nat -> good s (ts ++ PTok token_semicolon :: rest) ->
  exists s' w' ds b, group_loop keyword_mode junk f n self (D n) (PS n) j mode bt st [] [] sc asc last (s, w)
      = Ok ((s', w'), (ds, b, false))
    /\ good s' (PTok token_semicolon :: rest) /\ Forall2 declared_no_code ds (map (with_store st) l).
Proof using Quiet Still no_types no_builtins.
  assert (one : forall (n : nat) (self : bodies) (mode : Z) (bt : type) (st : Z) (sc : scope) (asc : option scope) (last : bool)
      (ts : list ptok) (x : cstr) (T' : type) (s : lexer) (w : world) (rest : list ptok),
    type_skip_all bt <> type_auto -> Z.land st STORE_MASK_STORE <> store_val store_auto ->
    declares ts (plain bt) (Some x) T' -> fine T' -> group_mode mode T' -> (S (length ts) < n)%nat ->
    good s (ts ++ rest) -> head_kind rest = token_comma \/ head_kind rest = token_semicolon ->
    exists s' w' d, group_decl keyword_mode junk f n self (D n) (PS n) mode bt st [] [] sc asc last (s, w)
        = Ok ((s', w'), (d, None, true)) /\ good s' rest /\ declared d (x, st, T')).
  { intros n self mode bt st sc asc last ts0 x T' s w rest Hauto Hst Hd Hf Hm Hn Hg Hr.
    assert (He : ends_declarator (head_kind rest) = true) by (by destruct Hr as [-> | ->]).
    destruct (group_decl_reads n self mode bt st sc asc last ts0 x T' s w rest Hauto Hst Hd Hf Hm Hn Hg He)
      as (s1 & w1 & d & Hg1 & Hdecl & K).
    assert (E1 : (if is_func_type T' then parse_post_func keyword_mode junk f n self d sc else mret (d, None)) (s1, w1)
                 = Ok ((s1, w1), (d, None))).
    { destruct (is_func_type T'); [|done]. apply (post_func_start _ _ _ _ _ _ rest Hg1); by destruct Hr as [-> | ->]. }
    destruct Hdecl as (Hnm & Hst1 & HT). rewrite (K _ E1). cbn [mbind res_bind fst snd].
    destruct (group_decl_ends mode d None sc s1 w1) as [w2 E2]; [by rewrite HT|by rewrite HT|done|].
    exists s1, w2, d. by rewrite E2. }
  induction 1 as [ts x T' Hd Hf|ts x T' ts' l Hd Hf _ IH]; intros n j self mode bt st sc asc last s w rest <- Hauto Hst Hm Hn Hj Hg;
    (destruct j as [|j]; [lia|]); cbn [group_loop]; apply Forall_cons in Hm as [Hm1 Hm]; simpl in Hm1.
  - destruct (one n self mode bt st sc asc last ts x T' s w _ Hauto Hst Hd Hf Hm1 Hn Hg) as (s1 & w1 & d & E1 & Hg1 & Hdecl); [by right|].
    eexists s1, w1, [(d, None)], _. split_and!; [|done|constructor; [by split|constructor]].
    step (curtok_ok _ _ _ s w _ (proj2 Hg)). step E1.
    by step (accept_no _ _ _ s1 w1 token_comma _ (proj2 Hg1) ltac:(done)).
  - rewrite length_app in Hn, Hj. simpl in Hn, Hj. rewrite <- app_assoc in Hg. cbn [app] in Hg.
    destruct (one n self mode bt st sc asc last ts x T' s w _ Hauto Hst Hd Hf Hm1 ltac:(lia) Hg) as (s1 & w1 & d & E1 & Hg1 & Hdecl); [by left|].
    destruct (accept_good keyword_mode junk f s1 w1 _ _ (proj2 Hg1)) as (s2 & E2 & Hg2).
    destruct (IH n j self mode bt st sc asc true s2 w1 rest eq_refl Hauto Hst Hm ltac:(lia) ltac:(lia) Hg2)
      as (s3 & w3 & ds & b & E3 & Hg3 & Hds).
    exists s3, w3, ((d, None) :: ds), b. split_and!; [|done|by constructor].
    step (curtok_ok _ _ _ s w _ (proj2 Hg)). step E1. step E2. by step E3.
Qed.

(** A group up to its first declarator. *)
Lemma group_starts (n : nat) (self : bodies) (mode : Z) (nd : bool) (sc : scope) (asc : option scope) (specs : list token)
    (p : type_primitive) (ts1 : list ptok) (x : cstr) (T : type) (s : lexer) (w : world) (rest : list ptok) :
  specifies specs p -> storage_ok DECL_ALLOW_STORE specs -> allows mode DECL_MULTI_ALLOW_STORE = true ->
  declares ts1 (plain (basic p (quals_of specs))) (Some x) T -> ends_declarator (head_kind rest) = true ->
  (length specs < n)%nat -> good s (map PTok specs ++ ts1 ++ rest) ->
  exists s1, good s1 (ts1 ++ rest)
    /\ parse_decl_group keyword_mode junk f n self (D n) (PS n) mode nd sc asc (s, w)
       = (l ← group_loop keyword_mode junk f n self (D n) (PS n) n mode (basic p (quals_of specs)) (storage_of specs) [] [] sc asc false;
          let '(ds, at_plain_ident, code) := l in
          _ ← (if code : bool then mret tt
               else spec ← parse_at_decl_spec;
                    if at_plain_ident && spec then fail (Die "unknown type name") else _ ← EAT keyword_mode junk f token_semicolon; mret tt);
          mret (true, ds)) (s1, w).
Proof using Quiet.
  intros Hsp Hst Hms Hd1 He1 Hn Hg. destruct n as [|m]; [lia|].
  destruct (specifies_first _ _ Hsp) as (t0 & specs' & Es & Ht0).
  assert (Hlen : (length (store_toks specs) <= 1)%nat) by (by destruct Hst).
  destruct (declarator_next builtin_name folded fine _ _ _ _ rest Hd1 He1) as (Hends & Hspell & _).
  set (al := if allows mode DECL_MULTI_ALLOW_ALIGNAS then Some [] else None : option (list decl_align)).
  destruct (btype_reads keyword_mode junk f (S m) (D (S m)) (PS (S m)) (Some (store_val store_default)) al nd sc
              PARSE_BTYPE_AUTOTYPE specs p (ts1 ++ rest) s w Hsp) as (s1 & Eb & Hu1 & Hy1);
    [by right|unfold al; destruct (allows mode DECL_MULTI_ALLOW_ALIGNAS); auto|lia|by destruct Hg|by destruct Hg|done..|].
  exists s1. split; [done|]. unfold parse_decl_group.
  assert (Hna : forall t, is_specifier t = false -> head_kind (map PTok specs ++ ts1 ++ rest) <> t)
    by (rewrite Es; cbn; intros t Ht <-; by rewrite Ht in Ht0).
  step (no_attrs_out keyword_mode junk f m sc s w _ (proj2 Hg) (Hna token_attribute eq_refl)). cbn [snd fst].
  step (no_asserts m (PS (S m)) sc s w _ Hg (Hna token__Static_assert eq_refl)). rewrite Hms. fold al. step Eb. cbn [fst snd].
  assert (E1 : (mret (Some (basic p (quals_of specs))) : P (option type)) (s1, w) = Ok ((s1, w), Some (basic p (quals_of specs)))) by done.
  step E1. change (move_typrop_attrs [] (basic p (quals_of specs))) with (@nil attribute, basic p (quals_of specs)). cbn [fst snd].
  replace (match al with Some al => al | None => [] end) with (@nil decl_align) by (unfold al; by destruct (allows mode DECL_MULTI_ALLOW_ALIGNAS)).
  done.
Qed.

(** A group is read whole. *)
Lemma group_reads (n : nat) (self : bodies) (mode : Z) (nd : bool) (sc : scope) (asc : option scope)
    (ts : list ptok) (l : list (cstr * Z * type)) (s : lexer) (w : world) (rest : list ptok) :
  group builtin_name folded fine ts l -> allows mode DECL_MULTI_ALLOW_STORE = true ->
  Forall (fun x => group_mode mode x.2) l -> (length ts <= n)%nat -> good s (ts ++ rest) ->
  exists s' w' ds, parse_decl_group keyword_mode junk f n self (D n) (PS n) mode nd sc asc (s, w) = Ok ((s', w'), (true, ds))
    /\ good s' rest /\ Forall2 declared_no_code ds l.
Proof using Quiet Still no_types no_builtins.
  intros Hgr Hms Hm Hn Hg. destruct Hgr as [specs p ts l Hsp Hst Hl].
  rewrite !length_app, length_map in Hn. simpl in Hn. rewrite <- !app_assoc in Hg. cbn [app] in Hg.
  destruct (specifies_first _ _ Hsp) as (t0 & specs' & Es & _).
  assert (Hpos : (0 < length specs)%nat) by (rewrite Es; simpl; lia).
  destruct (storage_plain _ specs Hst) as [Hntd Hnauto].
  assert (Hnext : exists x T' ts1 rest1, ts ++ PTok token_semicolon :: rest = ts1 ++ rest1
            /\ declares ts1 (plain (basic p (quals_of specs))) (Some x) T' /\ ends_declarator (head_kind rest1) = true).
  { destruct Hl as [ts x T' Hd _|ts x T' ts' l Hd _ _]; [by exists x, T', ts, (PTok token_semicolon :: rest)|].
    exists x, T', ts, (PTok token_comma :: ts' ++ PTok token_semicolon :: rest). by rewrite <- app_assoc. }
  destruct Hnext as (x & T' & ts1 & rest1 & Ets & Hd1 & He1). rewrite Ets in Hg.
  destruct (group_starts n self mode nd sc asc specs p ts1 x T' s w rest1 Hsp Hst Hms Hd1 He1 ltac:(lia) Hg) as (s1 & Hg1 & ->).
  rewrite <- Ets in Hg1. rewrite Forall_map in Hm.
  destruct (group_loop_reads _ ts l Hl n n self mode (basic p (quals_of specs)) (storage_of specs) sc asc false s1 w rest eq_refl
              (basic_not_auto _ _) Hnauto Hm) as (s2 & w2 & ds & b & El & Hg2 & Hds); [lia|lia|done|].
  destruct (EAT_good keyword_mode junk f s2 w2 _ _ (proj2 Hg2)) as (s3 & Ee & Hg3).
  exists s3, w2, ds. split_and!; [|done|done]. step El.
  assert (E2 : (spec ← parse_at_decl_spec;
             if b && spec then fail (Die "unknown type name") else _ ← EAT keyword_mode junk f token_semicolon; mret tt : P unit) (s2, w2)
             = Ok ((s3, w2), tt)).
  { assert (E3 : parse_at_decl_spec (s2, w2) = Ok ((s2, w2), false))
      by (unfold parse_at_decl_spec; by step (curtok_ok _ _ _ s2 w2 _ (proj2 Hg2))).
    step E3. rewrite andb_false_r. by step Ee. }
  by step E2.
Qed.

(** *** Where there is none *)

(** Tokens that no declaration begins with, names being no types. *)
Definition no_decl (t : token) : Prop :=
  ends_specifiers t = true /\ t <> token__Static_assert /\ t <> token___extension__.

Lemma btype_declines (n : nat) (self : declarers) (ps : parsers) (nd : bool) (sc : scope) (al : option (list decl_align))
    (s : lexer) (w : world) (ts : list ptok) :
  al = None \/ al = Some [] -> good s ts -> no_decl (head_kind ts) -> Forall not_spell (take 1 ts) ->
  parse_btype keyword_mode junk f (S n) self ps (Some (store_val store_default)) al nd sc PARSE_BTYPE_AUTOTYPE (s, w)
  = Ok ((s, w), (None, Some (store_val store_default), al)).
Proof using Quiet.
  intros Hal [_ Hy] (Hends & _ & Hext) Hsp. unfold parse_btype.
  step (accept_all_no keyword_mode junk f n token___extension__ s w _ Hy Hext).
  set (b := no_specifiers _ _ _).
  assert (E : parse_btype_turn keyword_mode junk f (S n) self ps b nd sc (s, w) = Ok ((s, w), Stop b)).
  { unfold parse_btype_turn. step (curtok_ok _ _ _ s w _ Hy).
    destruct (decide (head_kind ts = token_identifier)) as [Hid|Hid].
    - rewrite Hid. enough (identifier_turn keyword_mode junk f b sc (s, w) = Ok ((s, w), Stop b)) as E by exact E.
      unfold identifier_turn. cbn [b no_specifiers signed_set].
      by step (tdef_none keyword_mode junk f folded fine s w sc ts Hy Hsp).
    - destruct (head_kind ts); try discriminate Hends; done. }
  assert (El : parse_btype_loop keyword_mode junk f (S n) self ps (S n) b nd sc (s, w) = Ok ((s, w), Stop b))
    by (cbn [parse_btype_loop]; by step E).
  step El. by destruct Hal as [-> | ->].
Qed.

Lemma group_declines (n : nat) (self : bodies) (mode : Z) (nd : bool) (sc : scope) (asc : option scope)
    (s : lexer) (w : world) (ts : list ptok) :
  good s ts -> no_decl (head_kind ts) -> Forall not_spell (take 1 ts) ->
  allows mode DECL_MULTI_ALLOW_STORE = true -> allows mode DECL_MULTI_CAN_DEFAULT = false ->
  parse_decl_group keyword_mode junk f (S n) self (D (S n)) (PS (S n)) mode nd sc asc (s, w) = Ok ((s, w), (false, [])).
Proof using Quiet.
  intros Hg Hnd Hsp Hms Hmd. unfold parse_decl_group.
  assert (Hna : head_kind ts <> token_attribute) by (destruct Hnd as (He & _); intros E; by rewrite E in He).
  step (no_attrs_out keyword_mode junk f n sc s w _ (proj2 Hg) Hna). cbn [snd fst].
  step (no_asserts n (PS (S n)) sc s w _ Hg (proj1 (proj2 Hnd))). rewrite Hms.
  step (btype_declines n (D (S n)) (PS (S n)) nd sc (if allows mode DECL_MULTI_ALLOW_ALIGNAS then Some [] else None) s w ts
          ltac:(destruct (allows mode DECL_MULTI_ALLOW_ALIGNAS); auto) Hg Hnd Hsp).
  cbn [fst snd].
  assert (E : (spec ← parse_at_decl_spec;
     mret (if negb spec || negb (allows mode DECL_MULTI_CAN_DEFAULT) then None else Some default_type) : P (option type)) (s, w)
     = Ok ((s, w), None)).
  { assert (E0 : parse_at_decl_spec (s, w) = Ok ((s, w), at_decl_spec (head_kind ts)))
      by (unfold parse_at_decl_spec; by step (curtok_ok _ _ _ s w _ (proj2 Hg))).
    step E0. by rewrite Hmd, orb_true_r. }
  by step E.
Qed.

End groups.
