(* ===== verification/Stating.v ===== *)
(** * What the parser of statements reads

    C's grammar of statements (6.8), over the expressions of [Parsing] and the
    declarations of [Grouping], with an [else] belonging to the nearest [if], and
    the parser of [ParseStmt] reading exactly their tokens: its tree says for each
    [break], [continue], [case] and [default] which statement around it it
    belongs to. *)

From S2P Require Import Prelude CStr StrLit Escape Types Consts Token Tokconv Parse Parsing Declare Declaring Declarator.
From S2P Require Import ParseGroup ParseStmt Grouping.

(** ** Statements without their scopes *)

Section data.
Context `{Grammar}.

Inductive tree : Type :=
  | t_noop
  | t_expr (e : expr)
  | t_code (nested : bool) (stmts : list tree)
  | t_if (e : expr) (lhs : tree) (rhs : option tree)
  | t_switch (level : nat) (e : expr) (lhs : tree)
  | t_while (level : nat) (e : expr) (lhs : tree)
  | t_do (level : nat) (e : expr) (lhs : tree)
  | t_for (level : nat) (for_init for_while for_inc : option expr) (lhs : tree)
  | t_label (spel : option cstr) (lhs : tree)
  | t_case (parent : option nat) (e : expr) (expr2 : option expr) (lhs : tree)
  | t_default (parent : option nat) (lhs : tree)
  | t_break (parent : option nat)
  | t_continue (parent : option nat)
  | t_goto (spel : option cstr)
  | t_computed (e : expr)
  | t_return (e : option expr).

Fixpoint shape (s : stmt) : tree :=
  match s with
  | stmt_noop _ _ => t_noop
  | stmt_expr _ e => t_expr e
  | stmt_code _ nest ss => t_code nest (map shape ss)
  | stmt_if _ e lhs rhs => t_if e (shape lhs) (match rhs with Some r => Some (shape r) | None => None end)
  | stmt_switch _ l e lhs => t_switch l e (shape lhs)
  | stmt_while _ l e lhs => t_while l e (shape lhs)
  | stmt_do _ l e lhs => t_do l e (shape lhs)
  | stmt_for _ l i w n lhs => t_for l i w n (shape lhs)
  | stmt_label _ x _ lhs => t_label x (shape lhs)
  | stmt_case _ p e lhs => t_case p e None (shape lhs)
  | stmt_case_range _ p e e2 lhs => t_case p e (Some e2) (shape lhs)
  | stmt_default _ p lhs => t_default p (shape lhs)
  | stmt_break _ p => t_break p
  | stmt_continue _ p => t_continue p
  | stmt_goto _ x => t_goto x
  | stmt_goto_computed _ e => t_computed e
  | stmt_return _ e => t_return e
  end.

(** A statement that ends in an [if] without an [else]. *)
Fixpoint dangling (t : tree) : bool :=
  match t with
  | t_if _ _ None => true
  | t_if _ _ (Some r) => dangling r
  | t_switch _ _ lhs | t_while _ _ lhs | t_for _ _ _ _ lhs | t_label _ lhs | t_case _ _ _ lhs | t_default _ lhs => dangling lhs
  | _ => false
  end.

(** The statements that [continue], [break] and [case] belong to, and the level of
    the next loop or switch. *)
Record targets : Type := mk_targets { to_continue : option nat; to_break : option nat; to_switch : option nat; level : nat }.

Definition looping (T : targets) : targets := mk_targets (Some (level T)) (Some (level T)) (to_switch T) (S (level T)).
Definition switching (T : targets) : targets := mk_targets (to_continue T) (Some (level T)) (Some (level T)) (S (level T)).

Definition targets_of (ctx : stmt_ctx) : targets :=
  mk_targets (continue_target ctx) (break_target ctx) (switch_target ctx) (ctx_level ctx).

End data.

(** ** The grammar *)

Section grammar.
Context `{Declarations} (builtin_name : cstr -> bool) (folded nodecay effect : expr -> expr) (fine : type -> Prop).

Local Abbreviation derives := (derives builtin_name).
Local Abbreviation group := (group builtin_name folded fine).

Definition in_parens (ts : list ptok) : list ptok := PTok token_open_paren :: ts ++ [PTok token_close_paren].

(** An expression, or nothing. *)
Inductive optional : list ptok -> option expr -> Prop :=
  | optional_none : optional [] None
  | optional_some ts e : derives 0 ts e -> optional ts (Some (folded e)).

(** Declarations one after the other. *)
Inductive groups : list ptok -> Prop :=
  | groups_nil : groups []
  | groups_cons g l gs : group g l -> groups gs -> groups (g ++ gs).

Inductive statement : targets -> list ptok -> tree -> Prop :=
  | st_noop T : statement T [PTok token_semicolon] t_noop
  | st_expr T ts e : derives 0 ts e -> statement T (ts ++ [PTok token_semicolon]) (t_expr (effect e))
  | st_block T gs ts l :
      groups gs -> stmts T ts l ->
      statement T (PTok token_open_block :: gs ++ ts ++ [PTok token_close_block]) (t_code false l)
  | st_if T c e ts t :
      derives 0 c e -> statement T ts t -> statement T (PTok token_if :: in_parens c ++ ts) (t_if (folded e) t None)
  | st_if_else T c e ts t ts' t' :
      derives 0 c e -> statement T ts t -> dangling t = false -> statement T ts' t' ->
      statement T (PTok token_if :: in_parens c ++ ts ++ PTok token_else :: ts') (t_if (folded e) t (Some t'))
  | st_switch T c e ts t :
      derives 0 c e -> statement (switching T) ts t ->
      statement T (PTok token_switch :: in_parens c ++ ts) (t_switch (level T) (folded e) t)
  | st_while T c e ts t :
      derives 0 c e -> statement (looping T) ts t ->
      statement T (PTok token_while :: in_parens c ++ ts) (t_while (level T) (folded e) t)
  | st_do T c e ts t :
      derives 0 c e -> statement (looping T) ts t ->
      statement T (PTok token_do :: ts ++ PTok token_while :: in_parens c ++ [PTok token_semicolon])
        (t_do (level T) (nodecay e) t)
  | st_for T i ie c ce n ne ts t :
      optional i ie -> optional c ce -> optional n ne -> statement (looping T) ts t ->
      statement T (PTok token_for :: PTok token_open_paren :: i ++ PTok token_semicolon :: c ++ PTok token_semicolon ::
                   n ++ PTok token_close_paren :: ts)
        (t_for (level T) ie ce ne t)
  | st_for_decl T g l c ce n ne ts t :
      group g l -> Forall (fun x => is_func_type x.2 = false) l ->
      optional c ce -> optional n ne -> statement (looping T) ts t ->
      statement T (PTok token_for :: PTok token_open_paren :: g ++ c ++ PTok token_semicolon :: n ++ PTok token_close_paren :: ts)
        (t_for (level T) None ce ne t)
  | st_label T x ts t : statement T ts t -> statement T (PWord x :: PTok token_colon :: ts) (t_label (Some x) t)
  | st_case T c e ts t :
      derives 1 c e -> statement T ts t ->
      statement T (PTok token_case :: c ++ PTok token_colon :: ts) (t_case (to_switch T) e None t)
  | st_range T c e c' e' ts t :
      derives 1 c e -> derives 1 c' e' -> statement T ts t ->
      statement T (PTok token_case :: c ++ PTok token_elipsis :: c' ++ PTok token_colon :: ts)
        (t_case (to_switch T) e (Some e') t)
  | st_default T ts t :
      statement T ts t -> statement T (PTok token_default :: PTok token_colon :: ts) (t_default (to_switch T) t)
  | st_break T : statement T [PTok token_break; PTok token_semicolon] (t_break (to_break T))
  | st_continue T : statement T [PTok token_continue; PTok token_semicolon] (t_continue (to_continue T))
  | st_goto T x : statement T [PTok token_goto; PWord x; PTok token_semicolon] (t_goto (Some x))
  | st_computed T ts e :
      derives 0 ts e -> statement T (PTok token_goto :: PTok token_multiply :: ts ++ [PTok token_semicolon]) (t_computed e)
  | st_return T : statement T [PTok token_return; PTok token_semicolon] (t_return None)
  | st_return_value T ts e :
      derives 0 ts e -> statement T (PTok token_return :: ts ++ [PTok token_semicolon]) (t_return (Some (nodecay e)))
(** The statements of a block; declarations after the first begin a block of
    their own. *)
with stmts : targets -> list ptok -> list tree -> Prop :=
  | stmts_nil T : stmts T [] []
  | stmts_cons T ts t ts' l : statement T ts t -> more T ts' l -> stmts T (ts ++ ts') (t :: l)
with more : targets -> list ptok -> list tree -> Prop :=
  | more_stmts T ts l : stmts T ts l -> more T ts l
  | more_nest T g l gs ts ts' :
      group g l -> groups gs -> stmts T ts ts' -> more T (g ++ gs ++ ts) [t_code true ts'].

Scheme statement_mut := Minimality for statement Sort Prop
  with stmts_mut := Minimality for stmts Sort Prop
  with more_mut := Minimality for more Sort Prop.
Combined Scheme statement_ind3 from statement_mut, stmts_mut, more_mut.

(** No expression is an identifier before a colon. *)
Definition label_like (ts : list ptok) : bool :=
  match ts with PWord _ :: PTok token_colon :: _ => true | _ => false end.

End grammar.

(** ** The parser of statements *)

Section statements.
Context `{Statements} (keyword_mode junk : Z) (f : nat) (builtin_name : cstr -> bool).
Context (folded nodecay effect : expr -> expr) (fine : type -> Prop) {Quiet : Calm folded fine}
  {Still : CalmStatements fine nodecay effect}.
Hypothesis no_types :
  forall sc st, curtok st.1 ∈ starts -> spelled st.1 -> Parse.parse_type sc st = Ok (st, None).
Hypothesis no_builtins : forall sp sc st, builtin_name sp = false -> builtin_parse sp sc st = Ok (st, None).

Local Abbreviation good := (good keyword_mode junk f).
Local Abbreviation derives := (derives builtin_name).
Local Abbreviation statement := (statement builtin_name folded nodecay effect fine).
Local Abbreviation stmts := (stmts builtin_name folded nodecay effect fine).
Local Abbreviation more := (more builtin_name folded nodecay effect fine).
Local Abbreviation groups := (groups builtin_name folded fine).
Local Abbreviation group := (group builtin_name folded fine).
Local Abbreviation optional := (optional builtin_name folded).
Local Abbreviation EAT := (EAT keyword_mode junk f).
Local Abbreviation D := (declarers_at keyword_mode junk f).
Local Abbreviation PS := (parsers_at keyword_mode junk f).
Local Abbreviation B := (bodies_at keyword_mode junk f).

Ltac reassoc Hg := repeat first [rewrite <- app_comm_cons in Hg | rewrite <- app_assoc in Hg].

(** *** Expressions *)

Lemma starts_no_decl (t : token) : t ∈ starts -> no_decl t.
Proof.
  unfold starts. rewrite !elem_of_cons, elem_of_nil. intros Ht.
  repeat destruct Ht as [-> | Ht]; done.
Qed.

Lemma expr_reads (m k : nat) (ts : list ptok) (e : expr) (sc : scope) (s : lexer) (w : world) (rest : list ptok) :
  derives k ts e -> (k <= 2)%nat -> (length ts <= m)%nat -> good s (ts ++ rest) -> level_of_op (head_kind rest) = 15%nat ->
  exists s', level_parser keyword_mode junk f m sc false k (s, w) = Ok ((s', w), e) /\ good s' rest.
Proof using no_types no_builtins.
  intros Hd Hk Hm [Hu Hy] Hl.
  destruct (reads_done keyword_mode junk f k ts e m sc false s w rest) as (s' & Hu' & Hy' & He);
    [by eapply derives_reads|done|done|apply stops_head; by right|]. by exists s'.
Qed.

(** An expression does not begin with an identifier and a colon. *)
Lemma derives_no_label (k : nat) (ts : list ptok) (e : expr) :
  derives k ts e -> forall rest, head_kind rest <> token_colon -> label_like (ts ++ rest) = false.
Proof.
  intros Hd. induction Hd; intros rest Hr; rewrite <- ?app_assoc; cbn [app]; auto;
    try (by apply IHHd); try (by apply IHHd1).
  - simpl. destruct rest as [|[]]; try done. by destruct t.
  - apply IHHd1. simpl. intros ->. match goal with Ht : _ ∈ ops_at _ |- _ => apply ops_level in Ht as [Ht ?] end.
    simpl in *. lia.
  - apply IHHd1. simpl. intros ->. match goal with Ht : _ ∈ ops_at _ |- _ => apply ops_level in Ht as [Ht ?] end.
    simpl in *. lia.
Qed.

Lemma derives_first (k : nat) (ts : list ptok) (e : expr) (rest : list ptok) :
  derives k ts e -> no_decl (head_kind (ts ++ rest)) /\ Forall not_spell (take 1 (ts ++ rest)) /\ head_kind (ts ++ rest) ∈ starts.
Proof.
  intros Hd. pose proof (derives_spells _ _ _ _ Hd) as Hs. destruct (derives_starts _ _ _ _ Hd) as (p & ts' & -> & Hp & _).
  split_and!; [by apply starts_no_decl| |done]. apply Forall_cons in Hs as [Hs _]. by constructor.
Qed.

(** *** Where no declaration is *)

Lemma at_decl_none (n : nat) (sc : scope) (b : bool) (s : lexer) (w : world) (ts : list ptok) :
  good s ts -> no_decl (head_kind ts) -> Forall not_spell (take 1 ts) ->
  parse_at_decl keyword_mode junk f n sc b (s, w) = Ok ((s, w), false).
Proof using Quiet.
  intros [_ Hy] (Hends & _ & Hext) Hsp.
  assert (E : forall g, (t ← get_curtok; g t) (s, w) = (g (head_kind ts) : P bool) (s, w))
    by (intros g; by step (curtok_ok _ _ _ s w _ Hy)).
  destruct n; cbn [parse_at_decl]; rewrite E;
    (destruct (decide (head_kind ts = token_identifier)) as [Hid|Hid];
      [rewrite Hid; by step (tdef_none keyword_mode junk f folded fine s w sc ts Hy Hsp)
      |by destruct (head_kind ts)]).
Qed.

(** The start of a block, or of what is in a loop's parentheses. *)
Lemma test_reads (m : nat) (c : list ptok) (e : expr) (symtab : scope) (s : lexer) (w : world) (rest : list ptok) :
  derives 0 c e -> (length c <= m)%nat -> good s (in_parens c ++ rest) ->
  exists s' w' sc, parse_test_init_expr keyword_mode junk f m (D m) (PS m) symtab (s, w) = Ok ((s', w'), (sc, folded e))
    /\ good s' rest.
Proof using Quiet Still no_types no_builtins.
  intros Hd Hm Hg. unfold in_parens in Hg. cbn [app] in Hg. rewrite <- app_assoc in Hg. cbn [app] in Hg.
  destruct (EAT_good keyword_mode junk f s w _ _ (proj2 Hg)) as (s1 & E1 & Hg1).
  assert (Esym : exists w1 sc, (if cc1_std_c99 then symtab_new symtab false else symtab_new_transparent symtab) (s1, w)
            = Ok ((s1, w1), sc)) by (destruct cc1_std_c99; [apply calm_symtab|apply calm_transparent]).
  destruct Esym as (w1 & sc & E2).
  destruct (derives_first 0 c e (PTok token_close_paren :: rest) Hd) as (Hnd & Hsp & _).
  destruct (expr_reads m 0 c e sc s1 w1 _ Hd ltac:(lia) Hm Hg1 eq_refl) as (s2 & E3 & Hg2).
  destruct (calm_expr e sc s2 w1) as [w2 E4].
  destruct (EAT_good keyword_mode junk f s2 w2 _ _ (proj2 Hg2)) as (s3 & E5 & Hg3).
  exists s3, w2, sc. split; [|done]. unfold parse_test_init_expr. step E1. step E2.
  step (at_decl_none m sc true s1 w1 _ Hg1 Hnd Hsp).
  assert (E6 : (e ← parse_expr_exp keyword_mode junk f m (PS m) sc false; mret (sc, e)) (s1, w1) = Ok ((s2, w1), (sc, e)))
    by (by step E3).
  step E6. cbn [fst snd]. step E4. by step E5.
Qed.

(** An expression of a [for], up to the token after it. *)
Lemma for_expr_reads (m : nat) (t : token) (c : list ptok) (ce : option expr) (sc : scope) (s : lexer) (w : world)
    (rest : list ptok) :
  optional c ce -> (length c <= m)%nat -> good s (c ++ PTok t :: rest) -> level_of_op t = 15%nat -> t ∉ starts ->
  exists s' w', for_expr keyword_mode junk f m (PS m) t sc (s, w) = Ok ((s', w'), ce) /\ good s' rest.
Proof using Quiet no_types no_builtins.
  intros Hd Hm Hg Hl Ht. unfold for_expr. destruct Hd as [|c e Hd].
  - destruct (accept_good keyword_mode junk f s w _ _ (proj2 Hg)) as (s1 & E1 & Hg1). exists s1, w. by step E1.
  - destruct (derives_first 0 c e (PTok t :: rest) Hd) as (_ & _ & Hin).
    destruct (expr_reads m 0 c e sc s w _ Hd ltac:(lia) Hm Hg Hl) as (s2 & E3 & Hg2).
    destruct (calm_expr e sc s2 w) as [w2 E4].
    destruct (EAT_good keyword_mode junk f s2 w2 _ _ (proj2 Hg2)) as (s3 & E5 & Hg3).
    exists s3, w2. split; [|done].
    step (accept_no _ _ _ s w t _ (proj2 Hg) ltac:(by intros E; rewrite E in Hin)). step E3. step E4. by step E5.
Qed.

(** *** Statements *)

Definition reads_stmt (T : targets) (ts : list ptok) (t : tree) : Prop :=
  forall m ctx s w rest,
    (length ts <= m)%nat -> targets_of ctx = T -> good s (ts ++ rest) ->
    (dangling t = true -> head_kind rest <> token_else) ->
    exists s' w' st,
      parse_stmt_with_attrs keyword_mode junk f m (B m) (D m) (PS m) ctx [] (s, w) = Ok ((s', w'), st)
      /\ good s' rest /\ shape st = t.

Lemma sub_reads (T : targets) (ts : list ptok) (t : tree) (m : nat) (ctx : stmt_ctx) (s : lexer) (w : world) (rest : list ptok) :
  reads_stmt T ts t -> (length ts < m)%nat -> targets_of ctx = T -> good s (ts ++ rest) ->
  (dangling t = true -> head_kind rest <> token_else) ->
  exists s' w' st, stmt_ (B m) ctx (s, w) = Ok ((s', w'), st) /\ good s' rest /\ shape st = t.
Proof. intros HR Hm HT Hg Hr. destruct m as [|m]; [lia|]. apply (HR m ctx s w rest); [lia|done..]. Qed.

Lemma kind_run (m : nat) (ctx : stmt_ctx) (s : lexer) (w : world) (ts : list ptok) (r : lexer * world) (st : stmt) :
  good s ts -> (0 < m)%nat -> head_kind ts <> token_attribute ->
  parse_stmt_kind keyword_mode junk f m (B m) (D m) (PS m) ctx (head_kind ts) (s, w) = Ok (r, st) ->
  parse_stmt_with_attrs keyword_mode junk f m (B m) (D m) (PS m) ctx [] (s, w) = Ok (r, st).
Proof.
  intros [_ Hy] Hm Hna E. destruct m as [|m]; [lia|]. unfold parse_stmt_with_attrs.
  step (no_attrs keyword_mode junk f m (ctx_scope ctx) s w _ Hy Hna). step (curtok_ok _ _ _ s w _ Hy). by step E.
Qed.

(** The claim for a statement known by its first token. *)
Lemma reads_kind (T : targets) (k : token) (ts : list ptok) (t : tree) :
  k <> token_attribute ->
  (forall m ctx s w rest, (length ts < m)%nat -> targets_of ctx = T -> good s (PTok k :: ts ++ rest) ->
    (dangling t = true -> head_kind rest <> token_else) ->
    exists s' w' st, parse_stmt_kind keyword_mode junk f m (B m) (D m) (PS m) ctx k (s, w) = Ok ((s', w'), st)
      /\ good s' rest /\ shape st = t) ->
  reads_stmt T (PTok k :: ts) t.
Proof.
  intros Hk K m ctx s w rest Hm HT Hg Hr. simpl in Hm.
  destruct (K m ctx s w rest ltac:(lia) HT Hg Hr) as (s' & w' & st & E & Hg' & Hs).
  exists s', w', st. split; [|done]. apply (kind_run _ _ _ _ (PTok k :: ts ++ rest)); [done|lia|done|exact E].
Qed.

Local Abbreviation eat_good := (EAT_good keyword_mode junk f).

Lemma reads_noop (T : targets) : reads_stmt T [PTok token_semicolon] t_noop.
Proof.
  apply reads_kind; [done|]. intros m ctx s w rest Hm HT Hg _. cbn [app] in Hg.
  destruct (eat_good s w _ _ (proj2 Hg)) as (s1 & E1 & Hg1).
  exists s1, w, (stmt_noop (ctx_scope ctx) false). split; [|by split]. unfold parse_stmt_kind. by step E1.
Qed.

Lemma accept_not (s : lexer) (w : world) (t : token) (ts : list ptok) :
  good s ts -> head_kind ts <> t -> accept keyword_mode junk f t (s, w) = Ok ((s, w), false).
Proof. intros [_ Hy]. by apply accept_no. Qed.

(** *** Jumps *)

Lemma reads_jump (T : targets) (k : token) (ts : list ptok) (t : tree) :
  k ∈ [token_break; token_continue; token_return; token_goto] ->
  (forall m ctx s w rest, (length ts < m)%nat -> targets_of ctx = T -> good s (PTok k :: ts ++ PTok token_semicolon :: rest) ->
    exists s' w' st, jump_stmt keyword_mode junk f m (PS m) ctx (s, w) = Ok ((s', w'), st)
      /\ good s' (PTok token_semicolon :: rest) /\ shape st = t) ->
  reads_stmt T (PTok k :: ts ++ [PTok token_semicolon]) t.
Proof.
  intros Hk K. apply reads_kind; [by intros ->; rewrite !elem_of_cons, elem_of_nil in Hk; intuition|].
  intros m ctx s w rest Hm HT Hg _. rewrite <- app_assoc in Hg. cbn [app] in Hg. rewrite length_app in Hm.
  destruct (K m ctx s w rest ltac:(lia) HT Hg) as (s1 & w1 & st & E1 & Hg1 & Hs).
  destruct (eat_good s1 w1 _ _ (proj2 Hg1)) as (s2 & E2 & Hg2).
  exists s2, w1, st. split; [|by split].
  assert (E : parse_jump keyword_mode junk f m (PS m) ctx (s, w) = Ok ((s2, w1), st))
    by (unfold parse_jump; step E1; by step E2).
  rewrite !elem_of_cons, elem_of_nil in Hk. by repeat destruct Hk as [-> | Hk].
Qed.

Lemma reads_break (T : targets) : reads_stmt T [PTok token_break; PTok token_semicolon] (t_break (to_break T)).
Proof.
  apply (reads_jump T token_break []); [in_list|]. intros m ctx s w rest Hm <- Hg.
  destruct (accept_good keyword_mode junk f s w _ _ (proj2 Hg)) as (s1 & E1 & Hg1).
  exists s1, w, (stmt_break (ctx_scope ctx) (break_target ctx)). split; [|by split]. unfold jump_stmt. by step E1.
Qed.

Lemma reads_continue (T : targets) :
  reads_stmt T [PTok token_continue; PTok token_semicolon] (t_continue (to_continue T)).
Proof.
  apply (reads_jump T token_continue []); [in_list|]. intros m ctx s w rest Hm <- Hg.
  destruct (accept_good keyword_mode junk f s w _ _ (proj2 Hg)) as (s1 & E1 & Hg1).
  exists s1, w, (stmt_continue (ctx_scope ctx) (continue_target ctx)). split; [|by split]. unfold jump_stmt.
  step (accept_not s w token_break _ Hg ltac:(done)). by step E1.
Qed.

Lemma reads_return (T : targets) : reads_stmt T [PTok token_return; PTok token_semicolon] (t_return None).
Proof.
  apply (reads_jump T token_return []); [in_list|]. intros m ctx s w rest Hm <- Hg.
  destruct (accept_good keyword_mode junk f s w _ _ (proj2 Hg)) as (s1 & E1 & Hg1).
  exists s1, w, (stmt_return (ctx_scope ctx) None). split; [|by split]. unfold jump_stmt.
  step (accept_not s w token_break _ Hg ltac:(done)). step (accept_not s w token_continue _ Hg ltac:(done)). step E1.
  by step (curtok_ok _ _ _ s1 w _ (proj2 Hg1)).
Qed.

Lemma reads_return_value (T : targets) (ts : list ptok) (e : expr) :
  derives 0 ts e -> reads_stmt T (PTok token_return :: ts ++ [PTok token_semicolon]) (t_return (Some (nodecay e))).
Proof using Still no_types no_builtins.
  intros Hd. apply reads_jump; [in_list|]. intros m ctx s w rest Hm <- Hg.
  destruct (accept_good keyword_mode junk f s w _ _ (proj2 Hg)) as (s1 & E1 & Hg1).
  destruct (expr_reads m 0 ts e (ctx_scope ctx) s1 w _ Hd ltac:(lia) ltac:(lia) Hg1 eq_refl) as (s2 & E2 & Hg2).
  destruct (calm_nodecay e (ctx_scope ctx) s2 w) as [w2 E3].
  exists s2, w2, (stmt_return (ctx_scope ctx) (Some (nodecay e))). split; [|by split]. unfold jump_stmt.
  step (accept_not s w token_break _ Hg ltac:(done)). step (accept_not s w token_continue _ Hg ltac:(done)). step E1.
  step (curtok_ok _ _ _ s1 w _ (proj2 Hg1)).
  destruct (derives_first 0 ts e (PTok token_semicolon :: rest) Hd) as (_ & _ & Hin).
  rewrite bool_decide_eq_false_2 by (intros E; rewrite E in Hin; revert Hin; by apply (bool_decide_eq_false _)). step E2.
  by step E3.
Qed.

Lemma reads_computed (T : targets) (ts : list ptok) (e : expr) :
  derives 0 ts e ->
  reads_stmt T (PTok token_goto :: PTok token_multiply :: ts ++ [PTok token_semicolon]) (t_computed e).
Proof using no_types no_builtins.
  intros Hd. apply (reads_jump T token_goto (PTok token_multiply :: ts)); [in_list|]. intros m ctx s w rest Hm <- Hg.
  simpl in Hm. destruct (eat_good s w _ _ (proj2 Hg)) as (s1 & E1 & Hg1).
  destruct (accept_good keyword_mode junk f s1 w _ _ (proj2 Hg1)) as (s2 & E2 & Hg2).
  destruct (expr_reads m 0 ts e (ctx_scope ctx) s2 w _ Hd ltac:(lia) ltac:(lia) Hg2 eq_refl) as (s3 & E3 & Hg3).
  exists s3, w, (stmt_goto_computed (ctx_scope ctx) e). split; [|by split]. unfold jump_stmt.
  step (accept_not s w token_break _ Hg ltac:(done)). step (accept_not s w token_continue _ Hg ltac:(done)).
  step (accept_not s w token_return _ Hg ltac:(done)). step E1. step E2. by step E3.
Qed.

Lemma word_good (s : lexer) (w : world) (x : cstr) (ts : list ptok) :
  good s (PWord x :: ts) ->
  exists s', identifier keyword_mode junk f (s, w) = Ok ((s', w), Some (Some x)) /\ good s' ts.
Proof.
  intros (_ & Hc & s' & ((_ & Hsp & Hs & Hn) & _) & Hs' & Hy). exists s'. split; [|by split].
  unfold identifier, on_lexer, token_accept_identifier. cbn [fst].
  rewrite Hc, bool_decide_eq_true_2 by done. cbn [negb]. rewrite Hn. simpl. by rewrite Hsp.
Qed.

Lemma reads_goto (T : targets) (x : cstr) :
  reads_stmt T [PTok token_goto; PWord x; PTok token_semicolon] (t_goto (Some x)).
Proof.
  apply (reads_jump T token_goto [PWord x]); [in_list|]. intros m ctx s w rest Hm <- Hg.
  destruct (eat_good s w _ _ (proj2 Hg)) as (s1 & E1 & Hg1).
  destruct (word_good s1 w x _ Hg1) as (s2 & E2 & Hg2).
  exists s2, w, (stmt_goto (ctx_scope ctx) (Some x)). split; [|by split]. unfold jump_stmt.
  step (accept_not s w token_break _ Hg ltac:(done)). step (accept_not s w token_continue _ Hg ltac:(done)).
  step (accept_not s w token_return _ Hg ltac:(done)). step E1. step (accept_not s1 w token_multiply _ Hg1 ltac:(done)).
  by step E2.
Qed.

(** *** Expressions and labels *)

(** Looking for a colon behind an identifier. *)
Lemma label_seen (s : lexer) (w : world) (x : cstr) (ts : list ptok) :
  good s (PWord x :: ts) ->
  exists s', tok_at_label (s, w) = Ok ((s', w), bool_decide (head_kind ts = token_colon)) /\ good s' (PWord x :: ts).
Proof.
  intros (_ & _ & _ & (_ & s1 & s1' & E & E1 & Hw & Hu & Hy) & _). exists s1. split.
  - unfold tok_at_label, on_lexer. cbn [fst]. by rewrite E.
  - pose proof Hw as (Hc & _ & Hsv & _). split; [done|]. split; [done|]. exists s1'. split; [|done].
    split; [done|]. by exists s1, s1'.
Qed.

(** At an identifier that no colon follows, or another start of an expression. *)
Lemma label_no (s : lexer) (w : world) (ts : list ptok) :
  good s ts -> Forall not_spell (take 1 ts) -> label_like ts = false ->
  exists s', (if bool_decide (head_kind ts = token_identifier) then tok_at_label else mret false) (s, w) = Ok ((s', w), false)
    /\ good s' ts.
Proof using Still.
  intros Hg Hsp Hl. case_bool_decide as Hid; [|by exists s].
  destruct ts as [|[x| |t] ts]; try discriminate Hid; [|by apply Forall_cons in Hsp as [Hsp _]].
  destruct (label_seen s w x ts Hg) as (s' & E & Hg'). exists s'. split; [|done]. rewrite E.
  rewrite bool_decide_eq_false_2; [done|]. destruct ts as [|[]]; simpl in Hl |- *; try done. by intros ->.
Qed.

Lemma reads_expr (T : targets) (ts : list ptok) (e : expr) :
  derives 0 ts e -> reads_stmt T (ts ++ [PTok token_semicolon]) (t_expr (effect e)).
Proof using Still no_types no_builtins.
  intros Hd m ctx s w rest Hm <- Hg _. rewrite <- app_assoc in Hg. cbn [app] in Hg. rewrite length_app in Hm. simpl in Hm.
  destruct (derives_first 0 ts e (PTok token_semicolon :: rest) Hd) as (_ & Hsp & Hin).
  pose proof (derives_no_label 0 ts e Hd (PTok token_semicolon :: rest) ltac:(done)) as Hl.
  destruct (label_no s w _ Hg Hsp Hl) as (s1 & E1 & Hg1).
  destruct (expr_reads m 0 ts e (ctx_scope ctx) s1 w _ Hd ltac:(lia) ltac:(lia) Hg1 eq_refl) as (s2 & E2 & Hg2).
  destruct (calm_effect e (ctx_scope ctx) s2 w) as [w2 E3].
  destruct (eat_good s2 w2 _ _ (proj2 Hg2)) as (s3 & E4 & Hg3).
  exists s3, w2, (stmt_expr (ctx_scope ctx) (effect e)). split; [|by split].
  apply (kind_run _ _ _ _ _ _ _ Hg); [lia|by intros E; rewrite E in Hin; revert Hin; apply (bool_decide_eq_false _)|].
  assert (E : parse_expr_stmt keyword_mode junk f m (PS m) ctx (s1, w) = Ok ((s3, w2), stmt_expr (ctx_scope ctx) (effect e)))
    by (unfold parse_expr_stmt; step E2; step E3; by step E4).
  enough ((label ← (if bool_decide (head_kind (ts ++ PTok token_semicolon :: rest) = token_identifier) then tok_at_label else mret false);
      if label : bool then parse_label keyword_mode junk f m (B m) ctx else parse_expr_stmt keyword_mode junk f m (PS m) ctx) (s, w)
      = Ok ((s3, w2), stmt_expr (ctx_scope ctx) (effect e))) as K.
  - unfold starts in Hin. rewrite !elem_of_cons, elem_of_nil in Hin.
    by repeat (destruct Hin as [Eh | Hin]; [rewrite Eh in K |- *; exact K|]).
  - by step E1.
Qed.

Lemma label_reads (T : targets) (x : cstr) (ts : list ptok) (t : tree) (m : nat) (ctx : stmt_ctx) (s : lexer) (w : world)
    (rest : list ptok) :
  reads_stmt T ts t -> (length ts < m)%nat -> targets_of ctx = T -> good s (PWord x :: PTok token_colon :: ts ++ rest) ->
  head_kind (ts ++ rest) <> token_attribute ->
  (dangling t = true -> head_kind rest <> token_else) ->
  exists s' w' st, parse_label keyword_mode junk f m (B m) ctx (s, w) = Ok ((s', w'), st)
    /\ good s' rest /\ shape st = t_label (Some x) t.
Proof.
  intros HR Hm HT Hg Hna Hr. destruct Hg as (_ & Hc & s1 & ((_ & Hsp & Hs & Hn) & _) & Hs1 & Hy1).
  assert (E1 : on_lexer (token_eat_identifier keyword_mode junk f (Some DUMMY_IDENTIFIER)) (s, w) = Ok ((s1, w), Some x)).
  { unfold on_lexer, token_eat_identifier, token_accept_identifier. cbn [fst].
    rewrite Hc, bool_decide_eq_true_2 by done. cbn [negb]. rewrite Hn. simpl. by rewrite Hsp. }
  destruct (eat_good s1 w _ _ Hy1) as (s2 & E2 & Hg2). destruct m as [|m]; [lia|].
  destruct (sub_reads T ts t (S m) ctx s2 w rest HR Hm HT Hg2 Hr) as (s3 & w3 & st & E3 & Hg3 & Hsh).
  exists s3, w3, (stmt_label (ctx_scope ctx) (Some x) false st). split_and!; [|done|by simpl; rewrite Hsh].
  unfold parse_label. step E1. step E2. step (no_attrs keyword_mode junk f m (ctx_scope ctx) s2 w _ (proj2 Hg2) Hna). by step E3.
Qed.

Lemma label_yes (s : lexer) (w : world) (x : cstr) (ts : list ptok) :
  good s (PWord x :: PTok token_colon :: ts) ->
  exists s', tok_at_label (s, w) = Ok ((s', w), true) /\ good s' (PWord x :: PTok token_colon :: ts).
Proof using Still.
  intros Hg. destruct (label_seen s w x _ Hg) as (s' & E & Hg'). exists s'. split; [|done]. rewrite E. done.
Qed.

Lemma reads_label (T : targets) (x : cstr) (ts : list ptok) (t : tree) :
  (forall rest, head_kind (ts ++ rest) <> token_attribute) ->
  reads_stmt T ts t -> reads_stmt T (PWord x :: PTok token_colon :: ts) (t_label (Some x) t).
Proof using Still.
  intros Hna HR m ctx s w rest Hm HT Hg Hr. cbn [app] in Hg. simpl in Hm, Hr.
  destruct (label_yes s w x _ Hg) as (s1 & E1 & Hg1).
  destruct (label_reads T x ts t m ctx s1 w rest HR ltac:(lia) HT Hg1 (Hna rest) Hr) as (s2 & w2 & st & E2 & Hg2 & Hs).
  exists s2, w2, st. split; [|done]. apply (kind_run _ _ _ _ _ _ _ Hg); [lia|done|].
  enough ((label ← tok_at_label; if label : bool then parse_label keyword_mode junk f m (B m) ctx
      else parse_expr_stmt keyword_mode junk f m (PS m) ctx) (s, w) = Ok ((s2, w2), st)) as K by exact K.
  by step E1.
Qed.

Lemma reads_default (T : targets) (ts : list ptok) (t : tree) :
  reads_stmt T ts t -> reads_stmt T (PTok token_default :: PTok token_colon :: ts) (t_default (to_switch T) t).
Proof.
  intros HR. apply reads_kind; [done|]. intros m ctx s w rest Hm HT Hg Hr. simpl in Hm, Hr. cbn [app] in Hg.
  destruct (eat_good s w _ _ (proj2 Hg)) as (s1 & E1 & Hg1). destruct (eat_good s1 w _ _ (proj2 Hg1)) as (s2 & E2 & Hg2).
  destruct (sub_reads T ts t m ctx s2 w rest HR ltac:(lia) HT Hg2 Hr) as (s3 & w3 & st & E3 & Hg3 & Hsh).
  exists s3, w3, (stmt_default (ctx_scope ctx) (switch_target ctx) st). split_and!; [|done|by simpl; rewrite Hsh, <- HT].
  cbn [parse_stmt_kind]. unfold parse_default. step E1. step E2. by step E3.
Qed.

Lemma reads_case (T : targets) (c : list ptok) (e : expr) (ts : list ptok) (t : tree) :
  derives 1 c e -> reads_stmt T ts t ->
  reads_stmt T (PTok token_case :: c ++ PTok token_colon :: ts) (t_case (to_switch T) e None t).
Proof using no_types no_builtins.
  intros Hd HR. apply reads_kind; [done|]. intros m ctx s w rest Hm HT Hg Hr. rewrite <- app_assoc in Hg. cbn [app] in Hg.
  rewrite length_app in Hm. simpl in Hm, Hr. destruct (eat_good s w _ _ (proj2 Hg)) as (s1 & E1 & Hg1).
  destruct (expr_reads m 1 c e (ctx_scope ctx) s1 w _ Hd ltac:(lia) ltac:(lia) Hg1 eq_refl) as (s2 & E2 & Hg2).
  destruct (eat_good s2 w _ _ (proj2 Hg2)) as (s3 & E3 & Hg3).
  destruct (sub_reads T ts t m ctx s3 w rest HR ltac:(lia) HT Hg3 Hr) as (s4 & w4 & st & E4 & Hg4 & Hsh).
  exists s4, w4, (stmt_case (ctx_scope ctx) (switch_target ctx) e st). split_and!; [|done|by simpl; rewrite Hsh, <- HT].
  cbn [parse_stmt_kind]. unfold parse_case. step E1. step E2. step (accept_not s2 w token_elipsis _ Hg2 ltac:(done)).
  step E3. by step E4.
Qed.

Lemma reads_range (T : targets) (c : list ptok) (e : expr) (c' : list ptok) (e' : expr) (ts : list ptok) (t : tree) :
  derives 1 c e -> derives 1 c' e' -> reads_stmt T ts t ->
  reads_stmt T (PTok token_case :: c ++ PTok token_elipsis :: c' ++ PTok token_colon :: ts) (t_case (to_switch T) e (Some e') t).
Proof using no_types no_builtins.
  intros Hd Hd' HR. apply reads_kind; [done|]. intros m ctx s w rest Hm HT Hg Hr.
  rewrite <- app_assoc in Hg. cbn [app] in Hg. rewrite <- app_assoc in Hg. cbn [app] in Hg.
  rewrite length_app in Hm. simpl in Hm, Hr. rewrite length_app in Hm. simpl in Hm.
  destruct (eat_good s w _ _ (proj2 Hg)) as (s1 & E1 & Hg1).
  destruct (expr_reads m 1 c e (ctx_scope ctx) s1 w _ Hd ltac:(lia) ltac:(lia) Hg1 eq_refl) as (s2 & E2 & Hg2).
  destruct (accept_good keyword_mode junk f s2 w _ _ (proj2 Hg2)) as (s3 & E3 & Hg3).
  destruct (expr_reads m 1 c' e' (ctx_scope ctx) s3 w _ Hd' ltac:(lia) ltac:(lia) Hg3 eq_refl) as (s4 & E4 & Hg4).
  destruct (eat_good s4 w _ _ (proj2 Hg4)) as (s5 & E5 & Hg5).
  destruct (sub_reads T ts t m ctx s5 w rest HR ltac:(lia) HT Hg5 Hr) as (s6 & w6 & st & E6 & Hg6 & Hsh).
  exists s6, w6, (stmt_case_range (ctx_scope ctx) (switch_target ctx) e e' st).
  split_and!; [|done|by simpl; rewrite Hsh, <- HT].
  cbn [parse_stmt_kind]. unfold parse_case. step E1. step E2. step E3. step E4. step E5. by step E6.
Qed.

(** *** Tests and loops *)

Lemma reads_while (T : targets) (c : list ptok) (e : expr) (ts : list ptok) (t : tree) :
  derives 0 c e -> reads_stmt (looping T) ts t ->
  reads_stmt T (PTok token_while :: in_parens c ++ ts) (t_while (level T) (folded e) t).
Proof using Quiet Still no_types no_builtins.
  intros Hd HR. apply reads_kind; [done|]. intros m ctx s w rest Hm HT Hg Hr.
  rewrite <- app_assoc in Hg. rewrite length_app in Hm. unfold in_parens in Hm. simpl in Hm, Hr. rewrite length_app in Hm. simpl in Hm.
  destruct (eat_good s w _ _ (proj2 Hg)) as (s1 & E1 & Hg1).
  destruct (test_reads m c e (ctx_scope ctx) s1 w _ Hd ltac:(lia) Hg1) as (s2 & w2 & sc & E2 & Hg2).
  destruct (sub_reads (looping T) ts t m (in_scope sc (in_loop ctx)) s2 w2 rest HR ltac:(lia) ltac:(by rewrite <- HT) Hg2 Hr)
    as (s3 & w3 & st & E3 & Hg3 & Hsh).
  exists s3, w3, (stmt_while sc (ctx_level ctx) (folded e) st). split_and!; [|done|by simpl; rewrite Hsh, <- HT].
  cbn [parse_stmt_kind]. unfold parse_while. step E1. step E2. by step E3.
Qed.

Lemma reads_switch (T : targets) (c : list ptok) (e : expr) (ts : list ptok) (t : tree) :
  derives 0 c e -> reads_stmt (switching T) ts t ->
  reads_stmt T (PTok token_switch :: in_parens c ++ ts) (t_switch (level T) (folded e) t).
Proof using Quiet Still no_types no_builtins.
  intros Hd HR. apply reads_kind; [done|]. intros m ctx s w rest Hm HT Hg Hr.
  rewrite <- app_assoc in Hg. rewrite length_app in Hm. unfold in_parens in Hm. simpl in Hm, Hr. rewrite length_app in Hm. simpl in Hm.
  destruct (eat_good s w _ _ (proj2 Hg)) as (s1 & E1 & Hg1).
  destruct (test_reads m c e (ctx_scope ctx) s1 w _ Hd ltac:(lia) Hg1) as (s2 & w2 & sc & E2 & Hg2).
  destruct (sub_reads (switching T) ts t m (in_scope sc (in_switch ctx)) s2 w2 rest HR ltac:(lia) ltac:(by rewrite <- HT) Hg2 Hr)
    as (s3 & w3 & st & E3 & Hg3 & Hsh).
  exists s3, w3, (stmt_switch sc (ctx_level ctx) (folded e) st). split_and!; [|done|by simpl; rewrite Hsh, <- HT].
  cbn [parse_stmt_kind]. unfold parse_switch. step E1. step E2. by step E3.
Qed.

Lemma reads_if_none (T : targets) (c : list ptok) (e : expr) (ts : list ptok) (t : tree) :
  derives 0 c e -> reads_stmt T ts t -> reads_stmt T (PTok token_if :: in_parens c ++ ts) (t_if (folded e) t None).
Proof using Quiet Still no_types no_builtins.
  intros Hd HR. apply reads_kind; [done|]. intros m ctx s w rest Hm HT Hg Hr. specialize (Hr eq_refl).
  rewrite <- app_assoc in Hg. rewrite length_app in Hm. unfold in_parens in Hm. simpl in Hm. rewrite length_app in Hm. simpl in Hm.
  destruct (eat_good s w _ _ (proj2 Hg)) as (s1 & E1 & Hg1).
  destruct (test_reads m c e (ctx_scope ctx) s1 w _ Hd ltac:(lia) Hg1) as (s2 & w2 & sc & E2 & Hg2).
  set (b := negb (bool_decide (head_kind (in_parens c ++ ts ++ rest) = token_open_block))).
  destruct (sub_reads T ts t m (in_scope sc (unbraced_if b ctx)) s2 w2 rest HR ltac:(lia) ltac:(by rewrite <- HT) Hg2 ltac:(done))
    as (s3 & w3 & st & E3 & Hg3 & Hsh).
  exists s3, w3, (stmt_if sc (folded e) st None). split_and!; [|done|by simpl; rewrite Hsh].
  cbn [parse_stmt_kind]. unfold parse_if. step E1. step (curtok_ok _ _ _ s1 w _ (proj2 Hg1)). step E2. cbn [fst snd].
  fold b. step E3. by step (accept_not s3 w3 token_else _ Hg3 Hr).
Qed.

Lemma reads_if_else (T : targets) (c : list ptok) (e : expr) (ts : list ptok) (t : tree) (ts' : list ptok) (t' : tree) :
  derives 0 c e -> reads_stmt T ts t -> dangling t = false -> reads_stmt T ts' t' ->
  reads_stmt T (PTok token_if :: in_parens c ++ ts ++ PTok token_else :: ts') (t_if (folded e) t (Some t')).
Proof using Quiet Still no_types no_builtins.
  intros Hd HR Hdg HR'. apply reads_kind; [done|]. intros m ctx s w rest Hm HT Hg Hr. simpl in Hr.
  rewrite <- app_assoc in Hg. rewrite <- app_assoc in Hg. cbn [app] in Hg.
  rewrite length_app in Hm. unfold in_parens in Hm. simpl in Hm. rewrite !length_app in Hm. simpl in Hm.
  destruct (eat_good s w _ _ (proj2 Hg)) as (s1 & E1 & Hg1).
  destruct (test_reads m c e (ctx_scope ctx) s1 w _ Hd ltac:(lia) Hg1) as (s2 & w2 & sc & E2 & Hg2).
  set (b := negb (bool_decide (head_kind (in_parens c ++ ts ++ PTok token_else :: ts' ++ rest) = token_open_block))).
  destruct (sub_reads T ts t m (in_scope sc (unbraced_if b ctx)) s2 w2 _ HR ltac:(lia) ltac:(by rewrite <- HT) Hg2
              ltac:(by rewrite Hdg)) as (s3 & w3 & st & E3 & Hg3 & Hsh).
  destruct (accept_good keyword_mode junk f s3 w3 _ _ (proj2 Hg3)) as (s4 & E4 & Hg4).
  destruct (sub_reads T ts' t' m (unbraced_if false (in_scope sc (unbraced_if b ctx))) s4 w3 rest HR' ltac:(lia)
              ltac:(by rewrite <- HT) Hg4 Hr) as (s5 & w5 & st' & E5 & Hg5 & Hsh').
  exists s5, w5, (stmt_if sc (folded e) st (Some st')). split_and!; [|done|by simpl; rewrite Hsh, Hsh'].
  cbn [parse_stmt_kind]. unfold parse_if. step E1. step (curtok_ok _ _ _ s1 w _ (proj2 Hg1)). step E2. cbn [fst snd].
  fold b. step E3. step E4. by step E5.
Qed.

Lemma reads_do (T : targets) (c : list ptok) (e : expr) (ts : list ptok) (t : tree) :
  derives 0 c e -> reads_stmt (looping T) ts t ->
  reads_stmt T (PTok token_do :: ts ++ PTok token_while :: in_parens c ++ [PTok token_semicolon]) (t_do (level T) (nodecay e) t).
Proof using Still no_types no_builtins.
  intros Hd HR. apply reads_kind; [done|]. intros m ctx s w rest Hm HT Hg _. unfold in_parens in Hg, Hm.
  reassoc Hg. rewrite length_app in Hm. simpl in Hm. rewrite !length_app in Hm. simpl in Hm.
  destruct (eat_good s w _ _ (proj2 Hg)) as (s1 & E1 & Hg1).
  destruct (sub_reads (looping T) ts t m (in_loop ctx) s1 w _ HR ltac:(lia) ltac:(by rewrite <- HT) Hg1 ltac:(done))
    as (s2 & w2 & st & E2 & Hg2 & Hsh).
  destruct (eat_good s2 w2 _ _ (proj2 Hg2)) as (s3 & E3 & Hg3). destruct (eat_good s3 w2 _ _ (proj2 Hg3)) as (s4 & E4 & Hg4).
  destruct (expr_reads m 0 c e (ctx_scope ctx) s4 w2 _ Hd ltac:(lia) ltac:(lia) Hg4 eq_refl) as (s5 & E5 & Hg5).
  destruct (calm_nodecay e (ctx_scope ctx) s5 w2) as [w5 E6].
  destruct (eat_good s5 w5 _ _ (proj2 Hg5)) as (s6 & E7 & Hg6). destruct (eat_good s6 w5 _ _ (proj2 Hg6)) as (s7 & E8 & Hg7).
  exists s7, w5, (stmt_do (ctx_scope ctx) (ctx_level ctx) (nodecay e) st). split_and!; [|done|by simpl; rewrite Hsh, <- HT].
  cbn [parse_stmt_kind]. unfold parse_do. step E1. step E2. step E3. step E4. step E5. step E6. step E7. by step E8.
Qed.

(** *** [for] *)

Definition for_mode : Z := Z.lor DECL_MULTI_ALLOW_ALIGNAS DECL_MULTI_ALLOW_STORE.

(** What a [for] goes on with, once its first part is read. *)
Lemma for_goes_on (T : targets) (c : list ptok) (ce : option expr) (nx : list ptok) (ne : option expr) (ts : list ptok) (t : tree)
    (ie : option expr) (m : nat) (ctx : stmt_ctx) (s s2 s3 : lexer) (w w2 w3 : world) (init sc : scope) (rest : list ptok)
    (s1 : lexer) :
  optional c ce -> optional nx ne -> reads_stmt (looping T) ts t ->
  (length c + length nx + length ts < m)%nat -> targets_of ctx = T ->
  EAT token_for (s, w) = Ok ((s1, w), true) -> EAT token_open_paren (s1, w) = Ok ((s2, w), true) ->
  symtab_new (ctx_scope ctx) false (s2, w) = Ok ((s2, w2), init) ->
  for_first keyword_mode junk f m (B m) (PS m) (ctx_scope ctx) init (s2, w2) = Ok ((s3, w3), (sc, ie)) ->
  good s3 (c ++ PTok token_semicolon :: nx ++ PTok token_close_paren :: ts ++ rest) ->
  (dangling t = true -> head_kind rest <> token_else) ->
  exists s' w' st, parse_for keyword_mode junk f m (B m) (PS m) ctx (s, w) = Ok ((s', w'), st)
    /\ good s' rest /\ shape st = t_for (level T) ie ce ne t.
Proof using Quiet no_types no_builtins.
  intros Hc Hn HR Hm HT E1 E2 E3 E4 Hg3 Hr.
  destruct (for_expr_reads m token_semicolon c ce init s3 w3 _ Hc ltac:(lia) Hg3 eq_refl ltac:(by apply (bool_decide_eq_false _)))
    as (s4 & w4 & E5 & Hg4).
  destruct (for_expr_reads m token_close_paren nx ne init s4 w4 _ Hn ltac:(lia) Hg4 eq_refl ltac:(by apply (bool_decide_eq_false _)))
    as (s5 & w5 & E6 & Hg5).
  destruct (sub_reads (looping T) ts t m (in_scope init (in_loop ctx)) s5 w5 rest HR ltac:(lia) ltac:(by rewrite <- HT) Hg5 Hr)
    as (s6 & w6 & st & E7 & Hg6 & Hsh).
  exists s6, w6, (stmt_for sc (ctx_level ctx) ie ce ne st). split_and!; [|done|by simpl; rewrite Hsh, <- HT].
  unfold parse_for. step E1. step E2. step E3. step E4. step E5. step E6. by step E7.
Qed.

Lemma group_of_self (m : nat) : group_ (B (S m)) = parse_decl_group keyword_mode junk f m (B m) (D m) (PS m).
Proof. done. Qed.

Lemma reads_for (T : targets) (i : list ptok) (ie : option expr) (c : list ptok) (ce : option expr) (nx : list ptok)
    (ne : option expr) (ts : list ptok) (t : tree) :
  optional i ie -> optional c ce -> optional nx ne -> reads_stmt (looping T) ts t ->
  reads_stmt T (PTok token_for :: PTok token_open_paren :: i ++ PTok token_semicolon :: c ++ PTok token_semicolon ::
                nx ++ PTok token_close_paren :: ts) (t_for (level T) ie ce ne t).
Proof using Quiet Still no_types no_builtins.
  intros Hi Hc Hn HR. apply reads_kind; [done|]. intros m ctx s w rest Hm HT Hg Hr. simpl in Hr.
  reassoc Hg. simpl in Hm. repeat (rewrite length_app in Hm; simpl in Hm).
  destruct (eat_good s w _ _ (proj2 Hg)) as (s1 & E1 & Hg1). destruct (eat_good s1 w _ _ (proj2 Hg1)) as (s2 & E2 & Hg2).
  destruct (calm_symtab (ctx_scope ctx) false s2 w) as (w2 & init & E3).
  assert (exists s3 w3 sc, for_first keyword_mode junk f m (B m) (PS m) (ctx_scope ctx) init (s2, w2) = Ok ((s3, w3), (sc, ie))
          /\ good s3 (c ++ PTok token_semicolon :: nx ++ PTok token_close_paren :: ts ++ rest)) as (s3 & w3 & sc & E4 & Hg3).
  { unfold for_first. destruct Hi as [|i e Hd].
    - destruct (accept_good keyword_mode junk f s2 w2 _ _ (proj2 Hg2)) as (s3 & E & Hg3). exists s3, w2, (ctx_scope ctx).
      split; [by step E|done].
    - destruct (derives_first 0 i e (PTok token_semicolon :: c ++ PTok token_semicolon :: nx ++ PTok token_close_paren :: ts ++ rest) Hd)
        as (Hnd & Hsp & Hin).
      destruct (expr_reads m 0 i e init s2 w2 _ Hd ltac:(lia) ltac:(lia) Hg2 eq_refl) as (s3 & E & Hg3).
      destruct (calm_flow init s3 w2) as [w3 Ef]. destruct (calm_expr e init s3 w3) as [w4 Ex].
      destruct (eat_good s3 w4 _ _ (proj2 Hg3)) as (s4 & Ee & Hg4).
      exists s4, w4, init. split; [|done].
      step (accept_not s2 w2 token_semicolon _ Hg2 ltac:(intros E'; rewrite E' in Hin; revert Hin; by apply (bool_decide_eq_false _))).
      destruct m as [|[|m]]; [lia|simpl in Hm; pose proof (derives_nonempty _ _ _ _ Hd); lia|]. rewrite group_of_self.
      step (group_declines keyword_mode junk f folded fine m (B (S m)) for_mode true init (Some init) s2 w2 _ Hg2 Hnd Hsp eq_refl eq_refl).
      cbn [fst snd]. step E. step Ef. step Ex. by step Ee. }
  destruct (for_goes_on T c ce nx ne ts t ie m ctx s s2 s3 w w2 w3 init sc rest s1 Hc Hn HR ltac:(lia) HT E1 E2 E3 E4 Hg3 Hr)
    as (s' & w' & st & E & Hg' & Hsh). by exists s', w', st.
Qed.

Lemma reads_for_decl (T : targets) (g : list ptok) (l : list (cstr * Z * type)) (c : list ptok) (ce : option expr)
    (nx : list ptok) (ne : option expr) (ts : list ptok) (t : tree) :
  group g l -> Forall (fun x => is_func_type x.2 = false) l ->
  optional c ce -> optional nx ne -> reads_stmt (looping T) ts t ->
  reads_stmt T (PTok token_for :: PTok token_open_paren :: g ++ c ++ PTok token_semicolon :: nx ++ PTok token_close_paren :: ts)
    (t_for (level T) None ce ne t).
Proof using Quiet Still no_types no_builtins.
  intros Hgr Hl Hc Hn HR. apply reads_kind; [done|]. intros m ctx s w rest Hm HT Hg Hr. simpl in Hr.
  reassoc Hg. simpl in Hm. repeat (rewrite length_app in Hm; simpl in Hm).
  destruct (eat_good s w _ _ (proj2 Hg)) as (s1 & E1 & Hg1). destruct (eat_good s1 w _ _ (proj2 Hg1)) as (s2 & E2 & Hg2).
  destruct (calm_symtab (ctx_scope ctx) false s2 w) as (w2 & init & E3). destruct m as [|m]; [lia|].
  assert (Hmode : Forall (fun x => group_mode for_mode x.2) l).
  { eapply Forall_impl; [exact Hl|]. intros x Hx. split; [done|]. by rewrite Hx. }
  destruct (group_reads keyword_mode junk f builtin_name folded nodecay effect fine no_types no_builtins m (B m) for_mode true init
              (Some init) g l s2 w2 _ Hgr eq_refl Hmode ltac:(lia) Hg2) as (s3 & w3 & ds & Eg & Hg3 & _).
  destruct (calm_flow init s3 w3) as [w4 Ef].
  assert (E4 : for_first keyword_mode junk f (S m) (B (S m)) (PS (S m)) (ctx_scope ctx) init (s2, w2) = Ok ((s3, w4), (init, None))).
  { unfold for_first. assert (Hne : head_kind (g ++ c ++ PTok token_semicolon :: nx ++ PTok token_close_paren :: ts ++ rest) <> token_semicolon).
    { destruct Hgr as [specs p gs l' Hsp _ _]. destruct (specifies_first _ _ Hsp) as (t0 & specs' & -> & Ht0). simpl. by intros ->. }
    step (accept_not s2 w2 token_semicolon _ Hg2 Hne). rewrite group_of_self. step Eg. cbn [fst]. by step Ef. }
  destruct (for_goes_on T c ce nx ne ts t None (S m) ctx s s2 s3 w w2 w4 init init rest s1 Hc Hn HR ltac:(lia) HT E1 E2 E3 E4 Hg3 Hr)
    as (s' & w' & st & E & Hg' & Hsh). by exists s', w', st.
Qed.

(** *** Blocks *)

(** What a statement begins with. *)
Definition stmt_head (ts : list ptok) : Prop :=
  no_decl (head_kind ts) /\ Forall not_spell (take 1 ts) /\ head_kind ts <> token_close_block /\ head_kind ts <> token_else
  /\ head_kind ts <> token___label__.

Lemma statement_first (T : targets) (ts : list ptok) (t : tree) (rest : list ptok) :
  statement T ts t -> stmt_head (ts ++ rest) /\ (0 < length ts)%nat.
Proof.
  intros Hs.
  inversion Hs; subst; try (split; [split_and!; try done; by repeat constructor|simpl; lia]).
  destruct (derives_first 0 ts0 e ([PTok token_semicolon] ++ rest) H3) as (Hnd & Hsp & Hin).
  rewrite length_app. split; [|simpl; lia]. rewrite <- app_assoc.
  split_and!; try done; intros E; rewrite E in Hin; revert Hin; by apply (bool_decide_eq_false _).
Qed.

Lemma group_first (g : list ptok) (l : list (cstr * Z * type)) (rest : list ptok) :
  group g l -> exists t ts, g ++ rest = PTok t :: ts /\ is_specifier t = true.
Proof.
  intros Hgr. destruct Hgr as [specs p gs l Hsp _ _]. destruct (specifies_first _ _ Hsp) as (t0 & specs' & -> & Ht0).
  by eexists _, _.
Qed.

Definition block_end (rest : list ptok) : list ptok := PTok token_close_block :: rest.

Lemma stmts_first (T : targets) (ts : list ptok) (l : list tree) (rest : list ptok) :
  stmts T ts l -> ts = [] \/ stmt_head (ts ++ block_end rest).
Proof. destruct 1 as [|? ts t ts' l Hs _]; [by left|]. right. rewrite <- app_assoc. by eapply statement_first. Qed.

Lemma more_first (T : targets) (ts : list ptok) (l : list tree) (rest : list ptok) :
  more T ts l -> head_kind (ts ++ block_end rest) <> token_else.
Proof.
  destruct 1 as [T ts l Hs|T g l gs ts ts' Hgr _ _].
  - destruct (stmts_first _ _ _ rest Hs) as [->|(_ & _ & _ & Hh & _)]; done.
  - rewrite <- app_assoc. destruct (group_first _ _ ((gs ++ ts) ++ block_end rest) Hgr) as (t & ts0 & -> & Ht). simpl. by intros ->.
Qed.

(** [block_stmts] and what follows it. *)
Definition finish (m j : nat) (ctx sub : stmt_ctx) (acc : list stmt) : P (list stmt) :=
  r ← block_stmts keyword_mode junk f m (B m) (D m) (PS m) j ctx sub [] acc;
  let '(stmts, at_decl, attr) := r in
  if at_decl : bool then
    match stmts with
    | [] => fail (Ice "got another decl - should've been handled already")
    | _ => nest ← stmt_and_decls_ (B m) sub true attr; mret (stmts ++ [nest])
    end
  else mret stmts.

Lemma finish_eq (m j j' : nat) (ctx sub : stmt_ctx) (acc acc' : list stmt) st st' :
  block_stmts keyword_mode junk f m (B m) (D m) (PS m) j ctx sub [] acc st
  = block_stmts keyword_mode junk f m (B m) (D m) (PS m) j' ctx sub [] acc' st' ->
  finish m j ctx sub acc st = finish m j' ctx sub acc' st'.
Proof. unfold finish, mbind, P_bind. by intros ->. Qed.

Lemma ret_ok {A} (a : A) (st : lexer * world) : (mret a : P A) st = Ok (st, a).
Proof. done. Qed.

(** Nothing but statements at the start of a round. *)
Lemma round_start (m j : nat) (ctx sub : stmt_ctx) (acc : list stmt) (s : lexer) (w : world) (ts : list ptok) :
  good s ts -> head_kind ts <> token_attribute -> head_kind ts <> token__Static_assert ->
  block_stmts keyword_mode junk f (S m) (B (S m)) (D (S m)) (PS (S m)) (S j) ctx sub [] acc (s, w)
  = (label ← (if bool_decide (head_kind ts = token_identifier) then tok_at_label else mret false);
     if label : bool then
       this ← parse_label keyword_mode junk f (S m) (B (S m)) sub;
       block_stmts keyword_mode junk f (S m) (B (S m)) (D (S m)) (PS (S m)) j ctx sub [] (acc ++ [this])
     else if bool_decide (head_kind ts = token_close_block) then mret (acc, false, [])
     else
       at_decl ← parse_at_decl keyword_mode junk f (S m) (ctx_scope sub) false;
       if at_decl : bool then mret (acc, true, [])
       else
         this ← parse_stmt_with_attrs keyword_mode junk f (S m) (B (S m)) (D (S m)) (PS (S m)) sub [];
         block_stmts keyword_mode junk f (S m) (B (S m)) (D (S m)) (PS (S m)) j ctx sub [] (acc ++ [this])) (s, w).
Proof.
  intros Hg Hna Hns. cbn [block_stmts].
  step (no_attrs_out keyword_mode junk f m (ctx_scope ctx) s w _ (proj2 Hg) Hna).
  step (no_asserts keyword_mode junk f m (PS (S m)) (ctx_scope sub) s w _ Hg Hns). cbn [andb app fst snd].
  step (ret_ok (@nil attribute) (s, w)).
  step (no_attrs_out keyword_mode junk f m (ctx_scope ctx) s w _ (proj2 Hg) Hna). cbn [app fst snd].
  by step (curtok_ok _ _ _ s w _ (proj2 Hg)).
Qed.

Lemma label_run (m : nat) (ctx : stmt_ctx) (s s1 : lexer) (w : world) (x : cstr) (ts : list ptok) (r : lexer * world) (st : stmt) :
  good s (PWord x :: ts) -> tok_at_label (s, w) = Ok ((s1, w), true) ->
  parse_stmt_with_attrs keyword_mode junk f (S m) (B (S m)) (D (S m)) (PS (S m)) ctx [] (s, w) = Ok (r, st) ->
  parse_label keyword_mode junk f (S m) (B (S m)) ctx (s1, w) = Ok (r, st).
Proof.
  intros [_ Hy] El. unfold parse_stmt_with_attrs.
  step (no_attrs keyword_mode junk f m (ctx_scope ctx) s w _ Hy ltac:(done)). step (curtok_ok _ _ _ s w _ Hy).
  cbn [head_kind ptok_kind]. unfold parse_stmt_kind. rewrite bool_decide_eq_true_2 by done.
  unfold mbind, P_bind. rewrite El. cbn [mbind res_bind fst snd].
  by destruct (parse_label _ _ _ _ _ _ (s1, w)) as [[]| | | |].
Qed.

(** A statement is read by one round. *)
Lemma block_step (T : targets) (ts : list ptok) (t : tree) (m j : nat) (ctx sub : stmt_ctx) (acc : list stmt) (s : lexer)
    (w : world) (rest : list ptok) :
  statement T ts t -> reads_stmt T ts t -> (length ts <= S m)%nat -> targets_of sub = T -> good s (ts ++ rest) ->
  head_kind rest <> token_else ->
  exists s' w' st, finish (S m) (S j) ctx sub acc (s, w) = finish (S m) j ctx sub (acc ++ [st]) (s', w')
    /\ good s' rest /\ shape st = t.
Proof using Quiet Still.
  intros Hs HR Hm HT Hg Hr. destruct (statement_first T ts t rest Hs) as [(Hnd & Hsp & Hcl & _) _].
  assert (Hna : head_kind (ts ++ rest) <> token_attribute) by (destruct Hnd as (He & _); intros E; by rewrite E in He).
  pose proof (round_start m j ctx sub acc s w _ Hg Hna (proj1 (proj2 Hnd))) as Estart.
  destruct (label_like (ts ++ rest)) eqn:Hl.
  - destruct (ts ++ rest) as [|[x| |] [|[| |[]] ts']] eqn:Ets; try discriminate Hl.
    destruct (label_yes s w x ts' Hg) as (s1 & E1 & _).
    destruct (HR (S m) sub s w rest Hm HT ltac:(by rewrite Ets) ltac:(done)) as (s2 & w2 & st & E2 & Hg2 & Hsh).
    exists s2, w2, st. split; [|done]. apply finish_eq. rewrite Estart. cbn [head_kind ptok_kind].
    rewrite (bool_decide_eq_true_2 (token_identifier = token_identifier)) by done. step E1. by step (label_run m sub s s1 w x _ _ _ Hg E1 E2).
  - destruct (label_no s w _ Hg Hsp Hl) as (s1 & E1 & Hg1).
    destruct (HR (S m) sub s1 w rest Hm HT Hg1 ltac:(done)) as (s2 & w2 & st & E2 & Hg2 & Hsh).
    exists s2, w2, st. split; [|done]. apply finish_eq. rewrite Estart. step E1.
    rewrite (bool_decide_eq_false_2 (_ = token_close_block)) by done. step (at_decl_none (S m) (ctx_scope sub) false s1 w _ Hg1 Hnd Hsp). by step E2.
Qed.

(** *** Declarations of a block *)

Definition block_mode : Z :=
  Z.lor (Z.lor DECL_MULTI_ACCEPT_FUNC_DECL (Z.lor DECL_MULTI_ALLOW_STORE DECL_MULTI_ALLOW_ALIGNAS)) 0.

Lemma block_mode_ok (l : list (cstr * Z * type)) : Forall (fun x => group_mode block_mode x.2) l.
Proof. by apply Forall_true. Qed.

(** The declarations at the start of a block are read, up to what is none. *)
Lemma groups_read (gs : list ptok) :
  groups gs -> forall (m j : nat) (sub : stmt_ctx) (got : bool) (s : lexer) (w : world) (rest : list ptok),
  (0 < m)%nat -> (length gs <= m)%nat -> (length gs < j)%nat -> good s (gs ++ rest) ->
  no_decl (head_kind rest) -> Forall not_spell (take 1 rest) ->
  exists s' w' got', block_groups (B (S m)) j sub [] false got (s, w) = Ok ((s', w'), (got', [])) /\ good s' rest.
Proof using Quiet Still no_types no_builtins.
  induction 1 as [|g l gs Hgr _ IH]; intros m j sub got s w rest H0m Hm Hj Hg Hnd Hsp; (destruct j as [|j]; [lia|]);
    cbn [block_groups]; fold block_mode; rewrite group_of_self.
  - destruct m as [|m]; [lia|]. exists s, w, got. split; [|done].
    step (group_declines keyword_mode junk f folded fine m (B (S m)) block_mode true (ctx_scope sub) (Some (ctx_scope sub)) s w rest
            Hg Hnd Hsp eq_refl eq_refl). by step (ret_ok tt (s, w)).
  - rewrite length_app in Hm, Hj. rewrite <- app_assoc in Hg.
    destruct (group_reads keyword_mode junk f builtin_name folded nodecay effect fine no_types no_builtins m (B m) block_mode true
                (ctx_scope sub) (Some (ctx_scope sub)) g l s w (gs ++ rest) Hgr eq_refl (block_mode_ok l) ltac:(lia) Hg)
      as (s1 & w1 & ds & E1 & Hg1 & _).
    assert (0 < length g)%nat by (destruct (group_first g l [] Hgr) as (? & ? & E & _); destruct g; [done|simpl; lia]).
    destruct (IH m j sub true s1 w1 rest H0m ltac:(lia) ltac:(lia) Hg1 Hnd Hsp) as (s2 & w2 & got' & E2 & Hg2).
    exists s2, w2, got'. split; [|done]. step E1. by step (ret_ok tt (s1, w1)).
Qed.

(** *** The statements of a block *)

Definition reads_list (T : targets) (ts : list ptok) (l : list tree) (m : nat) (ok : list stmt -> Prop) : Prop :=
  forall j ctx sub acc s w rest,
    ok acc -> (length ts < j)%nat -> targets_of sub = T -> good s (ts ++ block_end rest) ->
    exists s' w' sts, finish (S m) j ctx sub acc (s, w) = Ok ((s', w'), acc ++ sts)
      /\ good s' (block_end rest) /\ map shape sts = l.

Definition reads_stmts (T : targets) (ts : list ptok) (l : list tree) : Prop :=
  forall m, (length ts <= m)%nat -> reads_list T ts l m (fun _ => True).

(** After a statement. *)
Definition reads_more (T : targets) (ts : list ptok) (l : list tree) : Prop :=
  forall m, (length ts < m)%nat -> reads_list T ts l m (fun acc => acc <> []).

Lemma reads_stmts_nil (T : targets) : reads_stmts T [] [].
Proof.
  intros m _ j ctx sub acc s w rest _ Hj HT Hg. destruct j as [|j]; [simpl in Hj; lia|]. exists s, w, []. split; [|by split].
  unfold finish. unfold mbind at 1, P_bind. cbn [app] in Hg. rewrite (round_start m j ctx sub acc s w _ Hg) by done.
  cbn. by rewrite app_nil_r.
Qed.

Lemma reads_stmts_cons (T : targets) (ts : list ptok) (t : tree) (ts' : list ptok) (l : list tree) :
  statement T ts t -> reads_stmt T ts t -> more T ts' l -> reads_more T ts' l -> reads_stmts T (ts ++ ts') (t :: l).
Proof using Quiet Still.
  intros Hs HR Hm HM m Hlen j ctx sub acc s w rest _ Hj HT Hg. rewrite length_app in Hlen, Hj. rewrite <- app_assoc in Hg.
  destruct (statement_first T ts t [] Hs) as [_ Hpos]. destruct j as [|j]; [lia|].
  destruct (block_step T ts t m j ctx sub acc s w _ Hs HR ltac:(lia) HT Hg (more_first _ _ _ rest Hm))
    as (s1 & w1 & st & E1 & Hg1 & Hsh).
  destruct (HM m ltac:(lia) j ctx sub (acc ++ [st]) s1 w1 rest ltac:(by destruct acc) ltac:(lia) HT Hg1)
    as (s2 & w2 & sts & E2 & Hg2 & Hl).
  exists s2, w2, (st :: sts). split_and!; [|done|by cbn; rewrite Hsh, Hl]. by rewrite E1, E2, <- app_assoc.
Qed.

Lemma reads_more_stmts (T : targets) (ts : list ptok) (l : list tree) : reads_stmts T ts l -> reads_more T ts l.
Proof. intros HR m Hm j ctx sub acc s w rest _. apply (HR m ltac:(lia) j ctx sub acc s w rest I). Qed.

(** *** Blocks *)

(** At the start of a block's contents. *)
Lemma contents_first (T : targets) (gs ts : list ptok) (l : list tree) (rest : list ptok) :
  groups gs -> stmts T ts l ->
  let h := gs ++ ts ++ block_end rest in
  ((exists t hs, gs <> [] /\ h = PTok t :: hs /\ is_specifier t = true)
   \/ gs = [] /\ no_decl (head_kind h) /\ Forall not_spell (take 1 h))
  /\ head_kind h <> token_attribute /\ head_kind h <> token__Static_assert /\ head_kind h <> token___label__.
Proof.
  intros Hgs Hs h. unfold h. destruct Hgs as [|g l' gs Hgr _].
  - cbn [app]. destruct (stmts_first T ts l rest Hs) as [->|(Hnd & Hsp & _ & _ & Hlb)].
    + split; [right|done]. split; [done|]. split; [done|by repeat constructor].
    + split; [by right|]. split; [intros E; rewrite E in Hnd; by destruct Hnd as (He & _)|]. split; [apply Hnd|done].
  - rewrite <- app_assoc. destruct (group_first g l' (gs ++ ts ++ block_end rest) Hgr) as (t & hs & E & Ht).
    rewrite E. split; [left; exists t, hs; split; [|done]|by cbn; split_and!; intros ->].
    destruct (group_first g l' [] Hgr) as (t' & hs' & E' & _). rewrite app_nil_r in E'. by rewrite E'.
Qed.

Lemma stmts_none (T : targets) (l : list tree) : stmts T [] l -> l = [].
Proof.
  inversion 1 as [|? ts t ts' l' Hs _ E]; [done|]. destruct (statement_first T ts t [] Hs) as [_ Hpos].
  by destruct ts; [simpl in Hpos; lia|].
Qed.

(** The declarations of a block, then its statements. *)
Lemma body_groups (m : nat) (T : targets) (gs ts : list ptok) (l : list tree) (sub ctx : stmt_ctx) (s : lexer) (w : world)
    (rest : list ptok) (cont : bool * list attribute -> P stmt) :
  groups gs -> stmts T ts l -> (length gs <= m)%nat -> good s (gs ++ ts ++ block_end rest) ->
  exists s' w' got, good s' (ts ++ block_end rest) /\
    (at_decl ← parse_at_decl keyword_mode junk f (S m) (ctx_scope ctx) false;
     t ← get_curtok;
     g ← (if at_decl || (false && negb (bool_decide (t = token_semicolon))) then block_groups (B (S m)) (S m) sub [] false false
          else mret (false, []));
     cont g) (s, w) = cont (got, []) (s', w').
Proof using Quiet Still no_types no_builtins.
  intros Hgs Hs Hm Hg. destruct (contents_first T gs ts l rest Hgs Hs) as [Hh _].
  destruct Hh as [(t & hs & Hne & Eh & Ht)|(-> & Hnd & Hsp)].
  - pose proof Hg as Hg0. rewrite Eh in Hg0.
    assert (Hr : no_decl (head_kind (ts ++ block_end rest)) /\ Forall not_spell (take 1 (ts ++ block_end rest))).
    { destruct (stmts_first T ts l rest Hs) as [->|(Hnd & Hsp & _)]; [|done]. split; [done|by repeat constructor]. }
    destruct (groups_read gs Hgs m (S m) sub false s w (ts ++ block_end rest)) as (s1 & w1 & got & E1 & Hg1);
      [destruct gs; [done|simpl in Hm; lia]|done|lia|done|apply Hr..|].
    exists s1, w1, got. split; [done|]. step (at_decl_yes keyword_mode junk f (S m) s w (ctx_scope ctx) false t hs (proj2 Hg0) Ht).
    step (curtok_ok _ _ _ s w _ (proj2 Hg)). cbn [orb]. by step E1.
  - exists s, w, false. split; [done|]. step (at_decl_none (S m) (ctx_scope ctx) false s w _ Hg Hnd Hsp).
    by step (curtok_ok _ _ _ s w _ (proj2 Hg)).
Qed.

Lemma reads_body (T : targets) (gs ts : list ptok) (l : list tree) (m : nat) (ctx : stmt_ctx) (nested : bool) (s : lexer)
    (w : world) (rest : list ptok) :
  groups gs -> stmts T ts l -> reads_stmts T ts l -> (length gs <= m)%nat -> (length ts <= m)%nat -> targets_of ctx = T ->
  good s (gs ++ ts ++ block_end rest) ->
  exists s' w' st, stmt_and_decls_ (B (S (S m))) ctx nested [] (s, w) = Ok ((s', w'), st)
    /\ good s' (block_end rest) /\ shape st = t_code nested l.
Proof using Quiet Still no_types no_builtins.
  intros Hgs Hs HR Hmg Hms HT Hg. destruct (contents_first T gs ts l rest Hgs Hs) as (_ & Hna & Hns & Hnl).
  destruct (calm_symtab (ctx_scope ctx) false s w) as (w1 & sc & E1). destruct (calm_nest sc nested s w1) as [w2 E2].
  set (sub := in_scope sc ctx).
  set (rest_of := fun g : bool * list attribute =>
    _ ← (if g.1 : bool then fold_shadow_dup_check_block_decls sc else mret tt);
    t ← get_curtok;
    stmts ← (if bool_decide (t = token_close_block) then (mret [] : P (list stmt)) else
               r ← block_stmts keyword_mode junk f (S m) (B (S m)) (D (S m)) (PS (S m)) (S m) ctx sub g.2 [];
               let '(stmts, at_decl, attr) := r in
               if at_decl : bool then
                 match stmts with
                 | [] => fail (Ice "got another decl - should've been handled already")
                 | _ => nest ← stmt_and_decls_ (B (S m)) sub true attr; mret (stmts ++ [nest])
                 end
               else mret stmts);
    (mret (stmt_code sc nested stmts) : P stmt)).
  destruct (body_groups m T gs ts l sub ctx s w2 rest rest_of Hgs Hs Hmg Hg) as (s3 & w3 & got & Hg3 & E3).
  assert (Ec : exists w4, (if got then fold_shadow_dup_check_block_decls sc else mret tt) (s3, w3) = Ok ((s3, w4), tt))
    by (destruct got; [apply calm_shadow|by exists w3]).
  destruct Ec as [w4 E4].
  destruct (HR m Hms (S m) ctx sub [] s3 w4 rest I ltac:(lia) HT Hg3) as (s5 & w5 & sts & E5 & Hg5 & Hl).
  assert (Hend : exists s' w', rest_of (got, []) (s3, w3) = Ok ((s', w'), stmt_code sc nested sts) /\ good s' (block_end rest)).
  { unfold rest_of. cbn [fst snd]. destruct (decide (ts = [])) as [->|Hne].
    - rewrite (stmts_none T l Hs) in Hl. destruct sts; [|done]. exists s3, w4. split; [|done]. step E4.
      by step (curtok_ok _ _ _ s3 w4 _ (proj2 Hg3)).
    - exists s5, w5. split; [|done]. step E4. step (curtok_ok _ _ _ s3 w4 _ (proj2 Hg3)).
      destruct (stmts_first T ts l rest Hs) as [->|(_ & _ & Hcl & _)]; [done|]. rewrite bool_decide_eq_false_2 by done.
      unfold finish in E5. by step E5. }
  destruct Hend as (s' & w' & E6 & Hg'). exists s', w', (stmt_code sc nested sts). split_and!; [|done|by cbn; rewrite Hl].
  cbn [stmt_and_decls_ bodies_at]. unfold parse_stmt_and_decls. step E1. step E2. fold sub.
  assert (El : parse_local_labels keyword_mode junk f (S m) sub (s, w2) = Ok ((s, w2), tt))
    by (unfold parse_local_labels; cbn [local_labels_loop]; by step (accept_not s w2 token___label__ _ Hg Hnl)).
  step El. step (no_asserts keyword_mode junk f m (PS (S m)) sc s w2 _ Hg Hns).
  step (no_attrs_out keyword_mode junk f m (ctx_scope ctx) s w2 _ (proj2 Hg) Hna). cbn [fst snd app].
  by rewrite <- E6, <- E3.
Qed.

(** Declarations after a statement begin a block of their own. *)
Lemma reads_more_nest (T : targets) (g : list ptok) (l : list (cstr * Z * type)) (gs ts : list ptok) (ts' : list tree) :
  group g l -> groups gs -> stmts T ts ts' -> reads_stmts T ts ts' -> reads_more T (g ++ gs ++ ts) [t_code true ts'].
Proof using Quiet Still no_types no_builtins.
  intros Hgr Hgs Hs HR m Hm j ctx sub acc s w rest Hacc Hj HT Hg. rewrite !length_app in Hm, Hj.
  destruct (group_first g l [] Hgr) as (t0 & h0 & E0 & _). rewrite app_nil_r in E0.
  assert (0 < length g)%nat by (rewrite E0; simpl; lia).
  assert (Hgg : groups (g ++ gs)) by by eapply groups_cons.
  destruct j as [|j]; [lia|]. destruct m as [|m]; [lia|].
  assert (Hg' : good s ((g ++ gs) ++ ts ++ block_end rest)) by (rewrite <- !app_assoc in Hg; by rewrite <- !app_assoc).
  destruct (reads_body T (g ++ gs) ts ts' m sub true s w rest Hgg Hs HR ltac:(rewrite length_app; lia) ltac:(lia) HT Hg')
    as (s1 & w1 & st & E1 & Hg1 & Hsh).
  exists s1, w1, [st]. split_and!; [|done|by cbn; rewrite Hsh].
  destruct (contents_first T (g ++ gs) ts ts' rest Hgg Hs) as (_ & Hna & Hns & _).
  destruct (group_first g l (gs ++ ts ++ block_end rest) Hgr) as (t & hs & Eh & Ht).
  rewrite <- !app_assoc in Hg. rewrite <- !app_assoc in Hna. rewrite <- !app_assoc in Hns. rewrite Eh in Hna, Hns, Hg.
  unfold finish. unfold mbind at 1, P_bind. rewrite (round_start (S m) j ctx sub acc s w _ Hg Hna Hns).
  assert (Ei : bool_decide (t = token_identifier) = false /\ bool_decide (t = token_close_block) = false)
    by (by split; apply bool_decide_eq_false_2; intros ->).
  destruct Ei as [Ei Ec]. cbn [head_kind ptok_kind]. rewrite Ei, Ec. step (ret_ok false (s, w)).
  step (at_decl_yes keyword_mode junk f (S (S m)) s w (ctx_scope sub) false t hs (proj2 Hg) Ht).
  destruct acc as [|a acc]; [done|].
  change ((nest ← stmt_and_decls_ (B (S (S m))) sub true []; mret ((a :: acc) ++ [nest]) : P (list stmt)) (s, w)
          = Ok ((s1, w1), (a :: acc) ++ [st])). by step E1.
Qed.

Lemma reads_block (T : targets) (gs ts : list ptok) (l : list tree) :
  groups gs -> stmts T ts l -> reads_stmts T ts l ->
  reads_stmt T (PTok token_open_block :: gs ++ ts ++ [PTok token_close_block]) (t_code false l).
Proof using Quiet Still no_types no_builtins.
  intros Hgs Hs HR. apply reads_kind; [done|]. intros m ctx s w rest Hm HT Hg _.
  reassoc Hg. cbn [app] in Hg. rewrite !length_app in Hm. simpl in Hm.
  destruct (eat_good s w _ _ (proj2 Hg)) as (s1 & E1 & Hg1). destruct m as [|[|m]]; [lia|lia|].
  destruct (reads_body T gs ts l m (unbraced_if false ctx) false s1 w rest Hgs Hs HR ltac:(lia) ltac:(lia)
              ltac:(by rewrite <- HT) Hg1) as (s2 & w2 & st & E2 & Hg2 & Hsh).
  destruct (eat_good s2 w2 _ _ (proj2 Hg2)) as (s3 & E3 & Hg3).
  exists s3, w2, st. split_and!; [|done|done]. cbn [parse_stmt_kind]. unfold parse_stmt_block_in. step E1. step E2. by step E3.
Qed.

(** ** Every statement is read *)

Lemma first_no_attribute (T : targets) (ts : list ptok) (t : tree) (rest : list ptok) :
  statement T ts t -> head_kind (ts ++ rest) <> token_attribute.
Proof. intros Hs E. destruct (statement_first T ts t rest Hs) as [[(He & _) _] _]. by rewrite E in He. Qed.

Lemma statements_read :
  (forall T ts t, statement T ts t -> reads_stmt T ts t)
  /\ (forall T ts l, stmts T ts l -> reads_stmts T ts l)
  /\ (forall T ts l, more T ts l -> reads_more T ts l).
Proof using Quiet Still no_types no_builtins.
  enough ((forall T ts t, statement T ts t -> statement T ts t /\ reads_stmt T ts t)
    /\ (forall T ts l, stmts T ts l -> stmts T ts l /\ reads_stmts T ts l)
    /\ (forall T ts l, more T ts l -> more T ts l /\ reads_more T ts l)) as (K1 & K2 & K3)
    by (split_and!; intros; [by apply K1|by apply K2|by apply K3]).
  apply statement_ind3; intros; split; repeat match goal with HR : _ /\ _ |- _ => destruct HR end;
    try by econstructor.
  all: first [by apply reads_noop|by apply reads_expr|by apply reads_block|by apply reads_if_none|by apply reads_if_else
    |by apply reads_switch|by apply reads_while|by apply reads_do|by apply reads_for|by eapply reads_for_decl
    |(apply reads_label; [intros rest; by eapply first_no_attribute|done])|by apply reads_case|by apply reads_range
    |by apply reads_default|by apply reads_break|by apply reads_continue|by apply reads_goto|by apply reads_computed
    |by apply reads_return|by apply reads_return_value|by apply reads_stmts_nil|by apply reads_stmts_cons
    |by apply reads_more_stmts|by eapply reads_more_nest].
Qed.

End statements.
