(* ===== verification/Filing.v ===== *)
(** * Functions and files

    A file of declarations and function definitions (6.9), over the declarations
    of [Grouping] and the statements of [Stating], and [parse_and_fold] reading
    it to its end; from the text of a statement and of a file to what the parser
    makes of them. *)

From S2P Require Import Prelude CStr StrLit Escape Types Consts Token Lexing Labels Tokconv Parse Parsing Declare Declaring Declarator.
From S2P Require Import Declared ParseGroup ParseStmt Grouping Stating.

(** Outside any loop and switch. *)
Definition no_targets : targets := mk_targets None None None 0.

(** ** The grammar *)

Section grammar.
Context `{Declarations} (builtin_name : cstr -> bool) (folded nodecay effect : expr -> expr) (fine : type -> Prop).

Local Abbreviation stmts := (stmts builtin_name folded nodecay effect fine).
Local Abbreviation groups := (groups builtin_name folded fine).

(** What a declaration declares, a function definition with its statements. *)
Definition external_decl : Type := (cstr * Z * type) * option (list tree).

Inductive external : list ptok -> list external_decl -> Prop :=
  | external_group g l : group builtin_name folded fine g l -> external g (map (fun x => (x, None)) l)
  | external_func specs p ts x T gs ss b :
      specifies specs p -> storage_ok DECL_ALLOW_STORE specs ->
      declares builtin_name folded fine ts (plain (basic p (quals_of specs))) (Some x) T -> fine T -> is_func_type T = true ->
      groups gs -> stmts no_targets ss b ->
      external (map PTok specs ++ ts ++ PTok token_open_block :: gs ++ ss ++ [PTok token_close_block])
        [((x, storage_of specs, T), Some b)].

Inductive file : list ptok -> list external_decl -> Prop :=
  | file_nil : file [] []
  | file_cons ts l ts' l' : external ts l -> file ts' l' -> file (ts ++ ts') (l ++ l').

End grammar.

Section files.
Context `{Statements} (keyword_mode junk : Z) (f : nat) (builtin_name : cstr -> bool).
Context (folded nodecay effect : expr -> expr) (fine : type -> Prop) {Quiet : Calm folded fine}
  {Still : CalmStatements fine nodecay effect}.
Hypothesis no_types :
  forall sc st, curtok st.1 ∈ starts -> spelled st.1 -> Parse.parse_type sc st = Ok (st, None).
Hypothesis no_builtins : forall sp sc st, builtin_name sp = false -> builtin_parse sp sc st = Ok (st, None).

Local Abbreviation good := (good keyword_mode junk f).
Local Abbreviation declares := (declares builtin_name folded fine).
Local Abbreviation stmts := (stmts builtin_name folded nodecay effect fine).
Local Abbreviation groups := (groups builtin_name folded fine).
Local Abbreviation external := (external builtin_name folded nodecay effect fine).
Local Abbreviation file := (file builtin_name folded nodecay effect fine).
Local Abbreviation D := (declarers_at keyword_mode junk f).
Local Abbreviation PS := (parsers_at keyword_mode junk f).
Local Abbreviation B := (bodies_at keyword_mode junk f).

Ltac reassoc Hg := repeat first [rewrite <- app_comm_cons in Hg | rewrite <- app_assoc in Hg].

(** *** Functions *)

Definition func_body (gs ss rest : list ptok) : list ptok :=
  PTok token_open_block :: gs ++ ss ++ block_end rest.

Lemma block_reads (gs ss : list ptok) (b : list tree) (m : nat) (sc : scope) (s : lexer) (w : world) (rest : list ptok) :
  groups gs -> stmts no_targets ss b -> (length gs <= m)%nat -> (length ss <= m)%nat -> good s (func_body gs ss rest) ->
  exists s' w' st, block_ (B (S (S (S m)))) sc (s, w) = Ok ((s', w'), st) /\ good s' rest /\ shape st = t_code false b.
Proof using Quiet Still no_types no_builtins.
  intros Hgs Hs Hmg Hms Hg. destruct (EAT_good keyword_mode junk f s w _ _ (proj2 Hg)) as (s1 & E1 & Hg1).
  destruct (statements_read keyword_mode junk f builtin_name folded nodecay effect fine no_types no_builtins) as (_ & HR & _).
  destruct (reads_body keyword_mode junk f builtin_name folded nodecay effect fine no_types no_builtins no_targets gs ss b m
              (no_ctx sc) false s1 w rest Hgs Hs (HR _ _ _ Hs) Hmg Hms eq_refl Hg1) as (s2 & w2 & st & E2 & Hg2 & Hsh).
  destruct (EAT_good keyword_mode junk f s2 w2 _ _ (proj2 Hg2)) as (s3 & E3 & Hg3).
  exists s3, w2, st. split_and!; [|done|done]. cbn [block_ bodies_at]. unfold parse_stmt_block, parse_stmt_block_in.
  step E1. step E2. by step E3.
Qed.

(** After the declarator of a function, its code. *)
Lemma post_func_code (gs ss : list ptok) (b : list tree) (n m : nat) (d : decl) (sc : scope) (s : lexer) (w : world)
    (rest : list ptok) :
  is_func_type (plain (ref_of d)) = true -> fine (plain (ref_of d)) -> STORE_IS_TYPEDEF (store d) = false ->
  groups gs -> stmts no_targets ss b -> (length gs <= m)%nat -> (length ss <= m)%nat -> good s (func_body gs ss rest) ->
  exists s' w' st, parse_post_func keyword_mode junk f n (B (S (S (S m)))) d sc (s, w) = Ok ((s', w'), (d, Some st))
    /\ good s' rest /\ shape st = t_code false b.
Proof using Quiet Still no_types no_builtins.
  intros Hft Hf Htd Hgs Hs Hmg Hms Hg.
  assert (Hk : is_some (type_is (ref_of d) kind_func) = true) by (by rewrite (func_kind d _ eq_refl)).
  destruct (type_is (ref_of d) kind_func) as [u|] eqn:Eu; [|done].
  pose proof Eu as Eu'. apply type_is_func in Eu' as (ref & id & void & variadic & args & ->).
  destruct (has_arg_scope id w) as (asc & Ea & Hp).
  destruct (calm_in_func asc d s w) as [w1 E1]. destruct (Hp w1) as [par Epar].
  destruct (calm_fold d par s w1 Hf) as [w2 E2].
  destruct (block_reads gs ss b m asc s w2 rest Hgs Hs Hmg Hms Hg) as (s3 & w3 & st & E3 & Hg3 & Hsh).
  destruct (calm_code d st s3 w3) as [w4 E4]. destruct (calm_implicit id s3 w4) as [w5 E5].
  exists s3, w5, st. split_and!; [|done|done]. unfold parse_post_func.
  step (curtok_ok _ _ _ s w _ (proj2 Hg)). cbn [func_body head_kind ptok_kind].
  rewrite (bool_decide_eq_false_2 (token_open_block = token_asm)) by done. step (ret_ok d (s, w)).
  step (is_old_no nodecay effect fine d s w). step (ret_ok (@nil decl) (s, w)). step (ret_ok false (s, w)).
  step (curtok_ok _ _ _ s w _ (proj2 Hg)). cbn [func_body head_kind ptok_kind orb]. rewrite Eu, bool_decide_eq_true_2 by done.
  step (world_ok s w). rewrite Ea. step E1. step (world_ok s w1). rewrite Epar. step (ret_ok par (s, w1)). step E2.
  step (world_ok s w2). step (no_stars asc s w2). step E3. step E4. step E5. rewrite Htd. by step (ret_ok tt (s3, w5)).
Qed.

(** *** Files *)

Definition file_mode : Z :=
  Z.lor (Z.lor DECL_MULTI_CAN_DEFAULT DECL_MULTI_ACCEPT_FUNC_CODE) (Z.lor DECL_MULTI_ALLOW_STORE DECL_MULTI_ALLOW_ALIGNAS).

Definition declares_ext (dc : decl * option stmt) (x : external_decl) : Prop :=
  declared dc.1 x.1 /\ match dc.2 with Some s => Some (shape s) | None => None end
                       = match x.2 with Some b => Some (t_code false b) | None => None end.

(** A function definition is a group of its own. *)
Lemma function_reads (specs : list token) (p : type_primitive) (ts : list ptok) (x : cstr) (T : type) (gs ss : list ptok)
    (b : list tree) (m : nat) (nd : bool) (sc : scope) (asc : option scope) (s : lexer) (w : world) (rest : list ptok) :
  specifies specs p -> storage_ok DECL_ALLOW_STORE specs ->
  declares ts (plain (basic p (quals_of specs))) (Some x) T -> fine T -> is_func_type T = true ->
  groups gs -> stmts no_targets ss b ->
  (length specs + length ts <= S m)%nat -> (length gs <= m)%nat -> (length ss <= m)%nat ->
  good s (map PTok specs ++ ts ++ func_body gs ss rest) -> head_kind rest <> token_comma ->
  exists s' w' d st, group_ (B (S (S (S (S m))))) file_mode nd sc asc (s, w) = Ok ((s', w'), (true, [(d, Some st)]))
    /\ good s' rest /\ declares_ext (d, Some st) ((x, storage_of specs, T), Some b).
Proof using Quiet Still no_types no_builtins.
  intros Hsp Hst Hd Hf Hft Hgs Hs Hm Hmg Hms Hg Hr. set (n := S (S (S m))).
  destruct (storage_plain _ specs Hst) as [Hntd Hnauto].
  destruct (group_starts keyword_mode junk f builtin_name folded fine n (B n) file_mode nd sc asc specs p ts x T s w
              (func_body gs ss rest) Hsp Hst eq_refl Hd eq_refl ltac:(unfold n; lia) Hg) as (s1 & Hg1 & Estart).
  destruct (group_decl_reads keyword_mode junk f builtin_name folded nodecay effect fine no_types no_builtins n (B n) file_mode
              (basic p (quals_of specs)) (storage_of specs) sc asc false ts x T s1 w
              (func_body gs ss rest) (basic_not_auto _ _) Hnauto Hd Hf)
    as (s2 & w2 & d & Hg2 & Hdecl & K); [by split|unfold n; lia|exact Hg1|done|].
  pose proof Hdecl as (Hnm & Hstd & HT). cbn [fst snd] in Hnm, Hstd, HT.
  destruct (post_func_code gs ss b n m d sc s2 w2 rest) as (s3 & w3 & st & E3 & Hg3 & Hsh);
    [by rewrite HT|by rewrite HT|by rewrite Hstd|done..|].
  rewrite Hft in K. pose proof (K _ E3) as Ed. cbn [mbind res_bind fst snd] in Ed.
  destruct (group_decl_ends nodecay effect fine file_mode d (Some st) sc s3 w3) as [w4 E4]; [by rewrite HT|by rewrite HT; split|done|].
  rewrite E4 in Ed. exists s3, w4, d, st. split_and!; [|done|by split; [|by cbn; rewrite Hsh]].
  change (group_ (B (S n))) with (parse_decl_group keyword_mode junk f n (B n) (D n) (PS n)). rewrite Estart.
  assert (El : forall j, group_loop keyword_mode junk f n (B n) (D n) (PS n) (S j) file_mode (basic p (quals_of specs)) (storage_of specs) [] []
                 sc asc false (s1, w) = Ok ((s3, w4), ([(d, Some st)], bool_decide (head_kind (ts ++ func_body gs ss rest) = token_identifier), true))).
  { intros j. cbn [group_loop]. step (curtok_ok _ _ _ s1 w _ (proj2 Hg1)). step Ed.
    by step (accept_no _ _ _ s3 w4 token_comma _ (proj2 Hg3) Hr). }
  specialize (El (S (S m))). change (S (S (S m))) with n in El. step El. by step (ret_ok tt (s3, w4)).
Qed.

Lemma external_first (ts : list ptok) (l : list external_decl) (rest : list ptok) :
  external ts l -> exists t hs, ts ++ rest = PTok t :: hs /\ is_specifier t = true.
Proof.
  destruct 1 as [g l Hgr|specs p ts x T gs ss b Hsp _ _ _ _ _ _]; [by eapply group_first|].
  destruct (specifies_first _ _ Hsp) as (t0 & specs' & -> & Ht0). by eexists _, _.
Qed.

Lemma file_first (ts : list ptok) (l : list external_decl) :
  file ts l -> ts = [] \/ exists t hs, ts = PTok t :: hs /\ is_specifier t = true.
Proof. destruct 1 as [|ts l ts' l' He _]; [by left|right]. by eapply external_first. Qed.

(** One of the file's declarations. *)
Lemma external_reads (n : nat) (ts : list ptok) (l : list external_decl) (s : lexer) (w : world) (rest : list ptok) :
  external ts l -> (length ts < n)%nat -> good s (ts ++ rest) -> head_kind rest <> token_comma ->
  exists s' w' ds, group_ (B n) file_mode true globals (Some globals) (s, w) = Ok ((s', w'), (true, ds))
    /\ good s' rest /\ Forall2 declares_ext ds l /\ ds <> [].
Proof using Quiet Still no_types no_builtins.
  intros He Hn Hg Hr. destruct He as [g l Hgr|specs p ts x T gs ss b Hsp Hst Hd Hf Hft Hgs Hs].
  - destruct n as [|n]; [lia|]. rewrite group_of_self.
    destruct (group_reads keyword_mode junk f builtin_name folded nodecay effect fine no_types no_builtins n (B n) file_mode true
                globals (Some globals) g l s w rest Hgr eq_refl) as (s' & w' & ds & E & Hg' & Hds); [|lia|done|].
    { by apply Forall_true. }
    exists s', w', ds. split_and!; [done|done| |].
    + rewrite <- (map_id ds), Forall2_fmap. eapply Forall2_impl; [exact Hds|]. intros dc y [Hdc Hc]. split; [done|]. by rewrite Hc.
    + destruct Hgr as [specs p ts l Hsp Hst Hl]. destruct Hl; intros ->; inversion Hds.
  - rewrite !length_app, length_map in Hn. simpl in Hn. rewrite !length_app in Hn. simpl in Hn.
    destruct (specifies_first _ _ Hsp) as (t0 & specs' & Es & _).
    assert (Hpos : (0 < length specs)%nat) by (rewrite Es; simpl; lia).
    destruct n as [|[|[|[|m]]]]; [lia..|].
    destruct (function_reads specs p ts x T gs ss b m true globals (Some globals) s w rest) as (s' & w' & d & st & E & Hg' & Hd');
      [done..|lia|lia|lia| |done|].
    { unfold func_body, block_end. by reassoc Hg. }
    exists s', w', [(d, Some st)]. split_and!; [done|done|by apply Forall2_cons; split; [|constructor]|done].
Qed.

Lemma fold_decls_quiet (ds : list decl) : quiet (fold_decls ds).
Proof using Still.
  induction ds as [|d ds IH]; intros s w; cbn [fold_decls]; [by exists w|].
  destruct (calm_global d globals s w) as [w1 E1]. destruct (IH s w1) as [w2 E2]. exists w2. by step E1.
Qed.

Lemma no_gasms (n next : nat) (s : lexer) (w : world) (ts : list ptok) :
  good s ts -> head_kind ts <> token_asm ->
  parse_add_gasms keyword_mode junk f (S n) [] next (s, w) = Ok ((s, w), ([], next, false)).
Proof. intros [_ Hy] Ht. cbn [parse_add_gasms]. by step (accept_no _ _ _ s w token_asm _ Hy Ht). Qed.

Lemma no_semicolons (n : nat) (b : bool) (s : lexer) (w : world) (ts : list ptok) :
  good s ts -> head_kind ts <> token_semicolon ->
  accept_semicolons keyword_mode junk f (S n) b (s, w) = Ok ((s, w), b).
Proof. intros [_ Hy] Ht. cbn [accept_semicolons]. by step (accept_no _ _ _ s w token_semicolon _ Hy Ht). Qed.

(** The declarations of a file, up to its end. *)
Lemma file_loop_reads (ts : list ptok) (l : list external_decl) :
  file ts l -> forall (fuel n next : nat) (s : lexer) (w : world),
  (length ts < n)%nat -> (length ts < fuel)%nat -> good s ts ->
  exists s' w' ds, parse_file_loop keyword_mode junk f fuel (B fuel) n [] [] next (s, w) = Ok ((s', w'), (ds, []))
    /\ good s' [] /\ Forall2 declares_ext ds l.
Proof using Quiet Still no_types no_builtins.
  induction 1 as [|ts l ts' l' He Hfile IH]; intros fuel n next s w Hn Hf Hg; (destruct n as [|n]; [simpl in Hn; lia|]).
  - exists s, w, []. split_and!; [|done|constructor]. cbn [parse_file_loop]. by step (curtok_ok _ _ _ s w _ (proj2 Hg)).
  - rewrite length_app in Hn, Hf. destruct (external_first ts l [] He) as (t & hs & E0 & Ht). rewrite app_nil_r in E0.
    assert (Hpos : (0 < length ts)%nat) by (rewrite E0; simpl; lia).
    assert (Hh : forall k, is_specifier k = false -> k <> token_eof -> head_kind ts' <> k).
    { intros k Hk Hke. destruct (file_first ts' l' Hfile) as [->|(t' & hs' & -> & Ht')]; [by apply not_eq_sym|].
      cbn. intros ->. by rewrite Ht' in Hk. }
    destruct (external_reads fuel ts l s w ts' He ltac:(lia) Hg (Hh token_comma eq_refl ltac:(done)))
      as (s1 & w1 & ds & E1 & Hg1 & Hds & Hne).
    destruct (calm_sues globals s1 w1) as [w2 E2].
    destruct (fold_decls_quiet (map fst ds) s1 w2) as [w3 E3].
    destruct (IH fuel n next s1 w3 ltac:(lia) ltac:(lia) Hg1) as (s4 & w4 & ds' & E4 & Hg4 & Hds').
    exists s4, w4, (ds ++ ds'). split_and!; [|done|by apply Forall2_app]. cbn [parse_file_loop].
    step (curtok_ok _ _ _ s w _ (proj2 Hg)).
    rewrite (bool_decide_eq_false_2 (head_kind (ts ++ ts') = token_eof)) by (rewrite E0; cbn; by intros ->).
    fold file_mode. step E1. cbn [fst snd]. step E2.
    assert (E5 : (match ds with
                  | [] => mret []
                  | (d, _) :: _ => _ ← link_gasms [] d; _ ← fold_decls (map fst ds); (mret [] : P (list (nat * cstr)))
                  end) (s1, w2) = Ok ((s1, w3), [])).
    { destruct ds as [|[d c] ds]; [done|]. step (ret_ok tt (s1, w2)). by step E3. }
    step E5. destruct fuel as [|fuel]; [lia|].
    step (no_gasms fuel next s1 w3 ts' Hg1 (Hh token_asm eq_refl ltac:(done))). cbn [orb].
    step (no_semicolons fuel true s1 w3 ts' Hg1 (Hh token_semicolon eq_refl ltac:(done))). by step E4.
Qed.


Lemma end_eaten (s : lexer) (w : world) :
  good s [] -> exists s', EAT keyword_mode junk f token_eof (s, w) = Ok ((s', w), true).
Proof. intros (_ & _ & s' & E). exists s'. unfold EAT, on_lexer. cbn [fst]. by rewrite E. Qed.

Lemma file_reads (ts : list ptok) (l : list external_decl) (n : nat) (s : lexer) (w : world) :
  file ts l -> (length ts < n)%nat -> good s ts ->
  exists st ds, parse_and_fold keyword_mode junk f n (B n) (s, w) = Ok (st, (ds, [])) /\ Forall2 declares_ext ds l.
Proof using Quiet Still no_types no_builtins.
  intros Hf Hn Hg. destruct (file_loop_reads ts l Hf n n 0%nat s w Hn Hn Hg) as (s1 & w1 & ds & E1 & Hg1 & Hds).
  destruct (end_eaten s1 w1 Hg1) as [s2 E2]. destruct (calm_globals globals s2 w1) as [w3 E3].
  exists (s2, w3), ds. split; [|done]. unfold parse_and_fold. step E1. step E2. by step E3.
Qed.

End files.

(** ** From source text *)

Section text.
Context `{Statements} (keyword_mode junk : Z) (f : nat) (builtin_name : cstr -> bool).
Context (folded nodecay effect : expr -> expr) (fine : type -> Prop) {Quiet : Calm folded fine}
  {Still : CalmStatements fine nodecay effect}.
Hypothesis no_types :
  forall sc st, curtok st.1 ∈ starts -> spelled st.1 -> Parse.parse_type sc st = Ok (st, None).
Hypothesis no_builtins : forall sp sc st, builtin_name sp = false -> builtin_parse sp sc st = Ok (st, None).

(** What reading a file's text gives the parser. *)
Lemma text_good (track : bool) (ls : list lex_line) (nam : cstr) (s : lexer) (ts : list ptok) :
  bufferpos (rd s) = None -> ungetch (rd s) = EOF -> in_comment (rd s) = false -> curtok s <> token_string ->
  curtok_save s = token_unknown -> forallb line_ok ls = true -> small_text ls ->
  map (ptok_of keyword_mode) (all_lexemes ls) = ts ->
  exists s0, tokenise_set_input keyword_mode junk (S f) track (map line_text ls) nam s = Ok s0
    /\ good keyword_mode junk (S f) s0 ts.
Proof.
  intros Hp Hu Hc Ht Hsv Hls Hn Hts.
  destruct (file_yields keyword_mode junk f track ls nam s Hp Hu Hc Ht Hsv Hls Hn) as (s0 & Hs0 & Hu0 & Hy).
  rewrite Hts in Hy. by exists s0.
Qed.

(** C15: from the text of a file to a statement's tree. The statements are those
    of [statement]: every kind of C's, case ranges and computed gotos, over the
    expressions of C18 (no casts, strings, compound literals or built-ins), with
    blocks and for loops that may declare names without initialisers, of basic
    types and what declarators make of them; no name is a typedef's and no label
    is a type's name. Folding and the symbol tables are taken to report no error
    ([Calm], [CalmStatements]); only blanks, no comments, are between lexemes. When
    the lexemes of the file's lines begin with such a statement - an [else]
    belonging to the nearest [if] it can - the parser reads exactly its tokens
    and gives its tree, in which every [break] and [continue] carries the
    innermost loop or switch around it, every [case] and [default] its innermost
    switch, and the declarations of a block after its first statement are in a
    block of their own; fuel for the number of tokens is enough. *)
Theorem statement_text (track : bool) (ls : list lex_line) (nam : cstr) (s : lexer) (ctx : stmt_ctx)
    (ts : list ptok) (t : tree) (rest : list ptok) (n : nat) (w : world) :
  bufferpos (rd s) = None -> ungetch (rd s) = EOF -> in_comment (rd s) = false -> curtok s <> token_string ->
  curtok_save s = token_unknown -> forallb line_ok ls = true -> small_text ls ->
  map (ptok_of keyword_mode) (all_lexemes ls) = ts ++ rest ->
  statement builtin_name folded nodecay effect fine (targets_of ctx) ts t ->
  (dangling t = true -> head_kind rest <> token_else) -> (length ts < n)%nat ->
  exists s0 s' w' st,
    tokenise_set_input keyword_mode junk (S f) track (map line_text ls) nam s = Ok s0
    /\ stmt_ (bodies_at keyword_mode junk (S f) n) ctx (s0, w) = Ok ((s', w'), st)
    /\ shape st = t /\ yields keyword_mode junk (S f) s' rest.
Proof using Quiet Still no_types no_builtins.
  intros Hp Hu Hc Ht Hsv Hls Hn Hts Hst Hr Hlen.
  destruct (text_good track ls nam s _ Hp Hu Hc Ht Hsv Hls Hn Hts) as (s0 & E0 & Hg).
  destruct (statements_read keyword_mode junk (S f) builtin_name folded nodecay effect fine no_types no_builtins) as (HR & _).
  destruct (sub_reads keyword_mode junk (S f) _ ts t n ctx s0 w rest (HR _ _ _ Hst) Hlen eq_refl Hg Hr)
    as (s' & w' & st & E & [_ Hy'] & Hsh).
  by exists s0, s', w', st.
Qed.

(** C14: from the text of a file to its declarations. The file is one of [file]:
    declarations without initialisers, of basic types with any qualifiers and a
    storage class, their declarators with stars, arrays and parameters, and
    definitions of functions in the new style whose bodies are the statements of
    C15; no typedefs, structs, unions, enums, attributes or [asm], and
    no expression with a cast, a string or a compound literal. No name is a
    typedef's ([no_types]), folding and the symbol tables report no error
    ([Calm], [CalmStatements]), and only blanks, no comments, are between lexemes.
    When the lexemes of the file's lines are such a file, [parse_and_fold] reads
    them to the end and gives, in order, a declaration for each declarator,
    with its name, its storage class and its type, and for a function definition
    the tree of its body; no assembler text is left over, and fuel for the number
    of tokens is enough. *)
Theorem file_text (track : bool) (ls : list lex_line) (nam : cstr) (s : lexer) (ts : list ptok) (l : list external_decl)
    (n : nat) (w : world) :
  bufferpos (rd s) = None -> ungetch (rd s) = EOF -> in_comment (rd s) = false -> curtok s <> token_string ->
  curtok_save s = token_unknown -> forallb line_ok ls = true -> small_text ls ->
  map (ptok_of keyword_mode) (all_lexemes ls) = ts -> file builtin_name folded nodecay effect fine ts l -> (length ts < n)%nat ->
  exists s0 st ds,
    tokenise_set_input keyword_mode junk (S f) track (map line_text ls) nam s = Ok s0
    /\ parse_and_fold keyword_mode junk (S f) n (bodies_at keyword_mode junk (S f) n) (s0, w) = Ok (st, (ds, []))
    /\ Forall2 declares_ext ds l.
Proof using Quiet Still no_types no_builtins.
  intros Hp Hu Hc Ht Hsv Hls Hn Hts Hf Hlen.
  destruct (text_good track ls nam s ts Hp Hu Hc Ht Hsv Hls Hn Hts) as (s0 & E0 & Hg).
  destruct (file_reads keyword_mode junk (S f) builtin_name folded nodecay effect fine no_types no_builtins ts l n s0 w Hf Hlen Hg)
    as (st & ds & E & Hds).
  by exists s0, st, ds.
Qed.

End text.

(** ** A text and its tree *)

Section example.
Context {F : Floats}.

(** [while(a){ switch(b){ case 1: if(a) if(b) break; else continue; default: x: return; } int j; goto x; }] *)
Definition loop_text : list lex_line := [
  ([([], Word (str "while")); ([], Punct "("); ([], Word (str "a")); ([], Punct ")"); ([], Punct "{"); ([" "]%char, Word (str "switch"));
    ([], Punct "("); ([], Word (str "b")); ([], Punct ")"); ([], Punct "{"); ([" "]%char, Word (str "case"));
    ([" "]%char, Int DEC false (str "1") ""); ([], Punct ":")], []);
  ([([" "]%char, Word (str "if")); ([], Punct "("); ([], Word (str "a")); ([], Punct ")"); ([" "]%char, Word (str "if"));
    ([], Punct "("); ([], Word (str "b")); ([], Punct ")"); ([" "]%char, Word (str "break")); ([], Punct ";");
    ([" "]%char, Word (str "else")); ([" "]%char, Word (str "continue")); ([], Punct ";")], []);
  ([([" "]%char, Word (str "default")); ([], Punct ":"); ([" "]%char, Word (str "x")); ([" "]%char, Punct ":");
    ([" "]%char, Word (str "return")); ([], Punct ";"); ([], Punct "}"); ([" "]%char, Word (str "int"));
    ([" "]%char, Word (str "j")); ([], Punct ";"); ([" "]%char, Word (str "goto")); ([" "]%char, Word (str "x"));
    ([], Punct ";"); ([], Punct "}")], [])].

Definition test_tokens (x : string) : list ptok := [PTok token_open_paren; word_ x; PTok token_close_paren].

Definition jump_tokens : list ptok :=
  PTok token_if :: test_tokens "a" ++ PTok token_if :: test_tokens "b" ++
  [PTok token_break; PTok token_semicolon; PTok token_else; PTok token_continue; PTok token_semicolon].

Definition case_tokens : list ptok := PTok token_case :: [num_tok 1] ++ PTok token_colon :: jump_tokens.
Definition default_tokens : list ptok :=
  PTok token_default :: PTok token_colon :: word_ "x" :: PTok token_colon :: [PTok token_return; PTok token_semicolon].

Definition switch_tokens : list ptok :=
  PTok token_switch :: test_tokens "b" ++ PTok token_open_block :: [] ++ (case_tokens ++ (default_tokens ++ [])) ++ [PTok token_close_block].

Definition int_tokens (x : string) : list ptok := [PTok token_int; word_ x; PTok token_semicolon].

Definition goto_tokens : list ptok := [PTok token_goto; word_ "x"; PTok token_semicolon].

Definition loop_tokens : list ptok :=
  PTok token_while :: test_tokens "a" ++ PTok token_open_block ::
  [] ++ (switch_tokens ++ (int_tokens "j" ++ [] ++ (goto_tokens ++ []))) ++ [PTok token_close_block].

Lemma loop_lexemes : map (ptok_of KW_ALL) (all_lexemes loop_text) = loop_tokens ++ [].
Proof. vm_compute. reflexivity. Qed.

(** [static int f(int a){ loop_text } int g;] *)
Definition file_lines : list lex_line :=
  [([([], Word (str "static")); ([" "]%char, Word (str "int")); ([" "]%char, Word (str "f")); ([], Punct "(");
     ([], Word (str "int")); ([" "]%char, Word (str "a")); ([], Punct ")"); ([], Punct "{")], [])]
  ++ loop_text ++
  [([([], Punct "}")], []); ([([], Word (str "int")); ([" "]%char, Word (str "g")); ([], Punct ";")], [])].

Definition f_tokens : list ptok :=
  [word_ "f"; PTok token_open_paren; PTok token_int; word_ "a"; PTok token_close_paren].

Definition file_tokens : list ptok :=
  (map PTok [token_static; token_int] ++ f_tokens ++ PTok token_open_block :: [] ++ (loop_tokens ++ []) ++ [PTok token_close_block])
  ++ int_tokens "g" ++ [].

Lemma file_lexemes : map (ptok_of KW_ALL) (all_lexemes file_lines) = file_tokens.
Proof. vm_compute. reflexivity. Qed.

End example.

(** ** A compiler around the parser *)

#[local] Existing Instance text_floats.
#[local] Existing Instance no_grammar.
#[local] Existing Instance no_declarations.
#[local] Existing Instance no_calm.

#[local] Instance no_statements : Statements :=
  {| symtab_new_transparent := fun _ st => Ok (st, tt);
     set_internal_nest := fun _ _ st => Ok (st, tt);
     symtab_label_add_local := fun _ _ st => Ok (st, true);
     static_asserts_add := fun _ _ _ st => Ok (st, tt);
     symtab_decls := fun _ _ => [];
     scope_are_params := fun _ _ => false;
     flow_fold := fun _ st => Ok (st, tt);
     fold_shadow_dup_check_block_decls := fun _ st => Ok (st, tt);
     fold_expr_nodecay := fun e _ st => Ok (st, e);
     fold_stmt_expr := fun e _ st => Ok (st, e);
     funcargs_of := fun _ _ => None;
     decl_replace_with := fun _ _ st => Ok (st, tt);
     fold_funcargs := fun _ _ _ st => Ok (st, tt);
     set_in_func := fun _ _ st => Ok (st, tt);
     scope_parent := fun _ _ => Some tt;
     set_args_void_implicit := fun _ st => Ok (st, tt);
     set_func_code := fun _ _ st => Ok (st, tt);
     set_field_width := fun _ _ st => Ok (st, tt);
     link_to_previous_decl := fun d _ st => Ok (st, (d, false));
     fold_decl_attrs_requiring_fnbody := fun _ _ st => Ok (st, tt);
     fold_decl_maybe_member := fun d _ _ st => Ok (st, d);
     fold_check_decl_complete := fun _ st => Ok (st, tt);
     is_s_or_u_or_e := fun _ _ => false;
     cc1_std_c99 := true;
     globals := tt;
     symtab_fold_sues := fun _ st => Ok (st, tt);
     fold_decl_global := fun _ _ st => Ok (st, tt);
     gasm_before := fun _ _ st => Ok (st, tt);
     fold_globals := fun _ st => Ok (st, tt) |}.

#[local] Instance no_calm_statements :
  CalmStatements (fun _ => True) (fun e => e) (fun e => e).
Proof.
  constructor; try (intros; unfold quiet; intros; by repeat eexists).
Qed.

Local Abbreviation none := (fun _ : cstr => false).
Local Abbreviation same := (fun e : expr => e).
Local Abbreviation any := (fun _ : type => True).
Local Abbreviation plain_statement := (statement none same same same any).

Definition jump_tree : tree :=
  t_if (id_ "a") (t_if (id_ "b") (t_break (Some 1%nat)) (Some (t_continue (Some 0%nat)))) None.

Definition loop_tree : tree :=
  t_while 0 (id_ "a")
    (t_code false
       [t_switch 1 (id_ "b")
          (t_code false
             [t_case (Some 1%nat) (int_ 1) None jump_tree; t_default (Some 1%nat) (t_label (Some (str "x")) (t_return None))]);
        t_code true [t_goto (Some (str "x"))]]).

Lemma word_derives (x : string) : derives (fun _ => false) 0 [word_ x] (id_ x).
Proof. apply (derives_le _ 15); [lia|apply derives_id]. Qed.

Lemma jump_statement (T : targets) :
  plain_statement T jump_tokens (t_if (id_ "a") (t_if (id_ "b") (t_break (to_break T)) (Some (t_continue (to_continue T)))) None).
Proof.
  apply (st_if none same same same any T [word_ "a"] (id_ "a")); [apply word_derives|].
  apply (st_if_else none same same same any T [word_ "b"] (id_ "b") [PTok token_break; PTok token_semicolon]);
    [apply word_derives|constructor|done|constructor].
Qed.

Lemma int_group (x : string) :
  group none same any (int_tokens x) [(str x, 0, int_type)].
Proof.
  apply (group_intro none same any [token_int] type_int [word_ x] [(str x, int_type)]).
  - apply one_specifier; [unfold c_specifiers; in_list|done].
  - by split_and!; [simpl; lia| |constructor].
  - apply declarators_one; [|done]. apply declares_name. apply suffixed_nil.
Qed.

Lemma switch_statement (T : targets) :
  plain_statement T switch_tokens
    (t_switch (level T) (id_ "b")
       (t_code false [t_case (Some (level T)) (int_ 1) None
                        (t_if (id_ "a") (t_if (id_ "b") (t_break (Some (level T))) (Some (t_continue (to_continue T)))) None);
                      t_default (Some (level T)) (t_label (Some (str "x")) (t_return None))])).
Proof.
  apply (st_switch none same same same any T [word_ "b"] (id_ "b")); [apply word_derives|].
  apply (st_block none same same same any (switching T) []); [constructor|].
  eapply (stmts_cons none same same same any _ case_tokens).
  - apply (st_case none same same same any (switching T) [num_tok 1] (int_ 1) jump_tokens); [apply (derives_le _ 15); [lia|apply derives_int]|].
    apply (jump_statement (switching T)).
  - apply more_stmts. eapply (stmts_cons none same same same any _ _ _ []); [|apply more_stmts; constructor].
    apply (st_default none same same same any (switching T)). apply st_label. constructor.
Qed.

Lemma loop_statement : plain_statement no_targets loop_tokens loop_tree.
Proof.
  apply (st_while none same same same any no_targets [word_ "a"] (id_ "a")); [apply word_derives|].
  apply (st_block none same same same any (looping no_targets) []); [constructor|].
  apply (stmts_cons none same same same any _ switch_tokens); [apply switch_statement|].
  apply (more_nest none same same same any _ (int_tokens "j") [(str "j", 0, int_type)] []); [apply int_group|constructor|].
  apply (stmts_cons none same same same any _ goto_tokens _ []); [constructor|].
  apply more_stmts. constructor.
Qed.

Definition file_decls : list external_decl :=
  [((str "f", store_val store_static, type_func int_type 0 false false [int_type]), Some [loop_tree]);
   ((str "g", 0, int_type), None)].

Lemma file_derived : file none same same same any file_tokens file_decls.
Proof.
  eapply (file_cons none same same same any _ [_] _ [_]); [|eapply (file_cons none same same same any _ [_] _ []); [|constructor]].
  - eapply (external_func none same same same any [token_static; token_int] type_int f_tokens); [| | |done|done|constructor|].
    + split; [done|]. exists [token_int]. split; [done|unfold c_specifiers; in_list].
    + split; [simpl; lia|]. split; [discriminate|]. repeat constructor.
    + apply declares_name. apply (suffixed_func none same any [PTok token_int; word_ "a"] false false); [|apply suffixed_nil|done].
      apply parameters_some. apply parameter_one.
      apply (parameter_intro none same any [token_int] type_int [word_ "a"] (Some (str "a"))); [|done| |done|done].
      * apply one_specifier; [unfold c_specifiers; in_list|done].
      * apply declares_name, suffixed_nil.
    + apply (stmts_cons none same same same any _ loop_tokens _ []); [apply loop_statement|apply more_stmts; constructor].
  - apply (external_group none same same same any _ [(str "g", 0, int_type)]). apply int_group.
Qed.

Definition ctx0 : stmt_ctx := no_ctx (tt : @scope text_floats no_grammar).

Theorem statement_text_witness :
  exists s0 s' st,
    tokenise_set_input KW_ALL 0 1 true (map line_text loop_text) (str "a.c") lexer0 = Ok s0
    /\ stmt_ (bodies_at KW_ALL 0 1 60) ctx0 (s0, tt) = Ok ((s', tt), st)
    /\ shape st = loop_tree.
Proof.
  destruct (@statement_text text_floats no_grammar no_declarations no_statements KW_ALL 0 0 (fun _ => false) (fun e => e)
              (fun e => e) (fun e => e) (fun _ => True) no_calm no_calm_statements (fun _ _ _ _ => eq_refl)
              (fun _ _ _ _ => eq_refl) true loop_text (str "a.c") lexer0 ctx0 loop_tokens loop_tree [] 60 tt)
    as (s0 & s' & [] & st & E0 & E & Hsh & _).
  - reflexivity.
  - reflexivity.
  - reflexivity.
  - discriminate.
  - reflexivity.
  - vm_compute. reflexivity.
  - vm_compute. reflexivity.
  - exact (@loop_lexemes text_floats).
  - exact loop_statement.
  - discriminate.
  - simpl. lia.
  - exists s0, s', st. repeat split; assumption.
Defined.

Theorem file_text_witness :
  exists s0 st d code g,
    tokenise_set_input KW_ALL 0 1 true (map line_text file_lines) (str "a.c") lexer0 = Ok s0
    /\ parse_and_fold KW_ALL 0 1 80 (bodies_at KW_ALL 0 1 80) (s0, tt) = Ok (st, ([(d, Some code); (g, None)], []))
    /\ declared d (str "f", store_val store_static, type_func int_type 0 false false [int_type])
    /\ shape code = t_code false [loop_tree] /\ declared g (str "g", 0, int_type).
Proof.
  destruct (@file_text text_floats no_grammar no_declarations no_statements KW_ALL 0 0 (fun _ => false) (fun e => e)
              (fun e => e) (fun e => e) (fun _ => True) no_calm no_calm_statements (fun _ _ _ _ => eq_refl)
              (fun _ _ _ _ => eq_refl) true file_lines (str "a.c") lexer0 file_tokens file_decls 80 tt)
    as (s0 & st & ds & E0 & E & Hds); [reflexivity|reflexivity|reflexivity|discriminate|reflexivity|vm_compute; reflexivity
    |vm_compute; reflexivity|exact (@file_lexemes text_floats)|exact file_derived|simpl; lia|].
  inversion Hds as [|[d [code|]] x ds' l [Hd Hc] Hrest Ed El]; [|discriminate Hc].
  inversion Hrest as [|[g [c|]] x' ds'' l' [Hg Hc'] Hnil Eg El']; [discriminate Hc'|]. inversion Hnil. subst.
  exists s0, st, d, code, g. cbn [snd fst] in Hc. injection Hc as Hc. repeat split; try assumption; apply Hd || apply Hg.
Defined.


(** ** Where C is not followed *)

(** A file's text parsed: its declarations, its assembler texts and whether an
    error was seen. *)
Definition parse_file (n : nat) (lines : list cstr) : res (nat * list (nat * cstr) * bool) :=
  s ← tokenise_set_input KW_ALL 0 3 true lines (str "a.c") lexer0;
  r ← (parse_and_fold KW_ALL 0 3 n (bodies_at KW_ALL 0 3 n) (s, tt) :
         res ((lexer * unit) * (list (decl * option stmt) * list (nat * cstr))));
  Ok (length r.2.1, r.2.2, parse_had_error (rd r.1.1)).

Definition quoted (x : string) : cstr := [dquote] ++ str x ++ [dquote].

(** An assembler text that no declaration follows is kept again each time round
    the loop: here the first of two is there twice. *)
Example gasm_twice :
  parse_file 12 [str "__asm(" ++ quoted "x" ++ str "); ; __asm(" ++ quoted "y" ++ str ");"]
  = Ok (0%nat, [(0%nat, str "x"); (0%nat, str "x"); (1%nat, str "y")], false).
Proof. vm_compute. reflexivity. Qed.

(** A comment between a label and its colon hides the colon. *)
Example label_before_comment :
  parse_file 20 [str "int f(void){ x /**/ : ; }"] = Die "expression expected"
  /\ parse_file 20 [str "int f(void){ x : ; }"] = Ok (1%nat, [], false).
Proof. split; vm_compute; reflexivity. Qed.
